(* ===== verification/_CoqProject ===== *)
-Q . S2P
Prelude.v
Leb128.v
DescTable.v
AbiTypes.v
AbiLayout.v
AbiFlatten.v
AbiLoad.v
AbiStore.v
AbiFuel.v
AbiSafety.v
AbiRep.v
AbiRoundtrip.v
AbiFlat.v
AbiFlatRep.v
AbiFlatLift.v
AbiFlatRoundtrip.v
WasmMemory.v
MemoryRelease.v
MemorySystem.v
MemoryKeep.v
MemoryIsolation.v
GcHeap.v
GcCollect.v
GcOps.v
GcTyping.v
GcSound.v
GcHistory.v
GcHandshake.v
GcStop.v
GcHalt.v
GcTypes.v
GcSubtype.v
GcTypeKeys.v
GcCanon.v
GcTypeIds.v
GcTypeDecode.v
CmHandles.v
CmBorrows.v
CmStream.v
CmBuffer.v
CmStreamInv.v
CmStreamRun.v
CmStreamOut.v
CmFuture.v
CmFutureInv.v
CmFutureRun.v
WasmOpcodes.v
WasmValidStack.v
WasmValidInstr.v
WasmValidSimd.v
WasmValidGc.v
WasmValidate.v
WasmTyping.v
WasmTables.v
WasmSoundStack.v
WasmSoundInstr.v
WasmSoundSimd.v
WasmSoundGc.v
WasmSoundBranch.v
WasmSoundBlock.v
WasmSound.v
WasmSafety.v
CallRows.v
MayThrow.v
CallEffects.v
Tarjan.v
EntryCheck.v
EntryGraph.v
EntryWork.v
EntryCycles.v
EntrySolve.v
EntryCheckSafe.v
