(* ===== verification/Prelude.v ===== *)
(** A verification of the core of wazy, a WebAssembly runtime with the Component
    Model, written in Go.

    * The program

    wazy decodes and runs core WebAssembly modules and components.  This library
    covers the parts on which every cross-boundary transfer of data rests:

    - [src/internal/leb128]: the variable-length integers of both binary formats;
    - [src/internal/descriptor]: the table that hands out file descriptors and
      handles, a bitmap with a hint of the first free word;
    - [src/internal/component/binary] (types only) and
      [src/internal/component/abi]: the Canonical ABI, which lays component-level
      values out in the linear memory of a guest.  [Alignment] and [Size] compute
      the layout, [Flatten], [FlattenFunc] and [FlatWidth] the core signature,
      [Load] reads a value, and [StoreStep.Store] and [Spill] write one, calling
      the guest's [cabi_realloc] for strings and lists, which may move the memory
      under the store; [LowerFlat] and [LiftFlat], and the plans [LowerStep] and
      [LiftStep] compiled from a type, pass values as core values;
    - [src/internal/wasm/memory.go] and [memory_pool.go]: the linear memories
      themselves, their growth, their bounds-checked accessors and the pool that
      recycles their arrays between instances;
    - the release of memories ([memory.go], [module_instance.go], [store.go] of
      the same package): which close returns an array to the pool when several
      modules reach it and calls may still be running on it;
    - the managed heap of the GC proposal ([gc_heap.go], [gc.go], [gc_collect.go],
      [exception.go]): references, objects, every operation the engines perform on
      them, the collector, and the handshake that stops the calls around it;
    - its static types ([gc.go], [module.go], [store.go], and the decoder of type
      sections in [src/internal/wasm/binary]): decoding, subtyping, canonicalization
      of type sections, and the type IDs modules share through a store;
    - the validation of function bodies ([func_validation.go], [gc_validation.go] and
      the opcodes of [instruction.go] in [src/internal/wasm]), which decides what code
      the engines may assume to be well typed;
    - the analyses of the call graph that validation makes on the way ([may_throw.go],
      [call_effects.go] and [entry_check.go] of [src/internal/wasm]): which functions may
      throw, what a call may change, and which functions check for preemption on entry;
    - of the component instances in [src/internal/component/instance], the handle
      tables with their resources, loans and borrow scopes ([resource.go] and the
      handle arguments of [host_import.go] and [async_host_import.go]), and the
      streams and futures between guests and hosts ([stream.go],
      [stream_builtins.go], [stream_host.go]).

    * The files

    - [Prelude]: the [outcome] monad for Go code that returns, fails or panics;
      machine integers as [Z] with [wrap] and [swrap]; lemmas on bits, lists and
      little-endian bytes; the tactics [go_inv] and [byte_solve].
    - [Leb128]: encoders and decoders of [leb128.go], against a reference decoder
      on byte lists ([uleb_ref], [sleb_ref]), with what the signed decoders make of
      other inputs ([mend]).
    - [DescTable]: [Table] and its methods, against finite maps ([repr], a [gmap]).
    - [AbiTypes]: descriptors, references, resolvers and values; the relation
      [denotes] from a descriptor, a node of a graph, to a type tree [ty].
    - [AbiLayout]: [layout.go] with the fixed-length lists of [fixedlist.go],
      against the specification's alignment and size on trees ([layout]).
    - [AbiFlatten]: [flatten.go] and [flatwidth.go], against [spec_flatten].
    - [AbiLoad]: the loads of [memory.go] and [scalarlist.go].
    - [AbiStore]: the stores of [memory.go], [scalarlist.go], [fixedlist.go] and
      [plan.go], in a monad over a [world] (all arrays that were ever the guest's
      memory, the live view, and the guest's own state) and the view in hand.
    - [AbiFuel]: where the references of a descriptor nest less deep than the fuel
      ([shallow]), every store returns.
    - [AbiSafety]: what holds of stores under an arbitrary allocator, stated by
      the class [SaneRealloc].
    - [AbiRep]: the representation relation [rep] between bytes and values, its
      frame property, and the correctness of [Load].
    - [AbiRoundtrip]: the class [FreshRealloc], what a store relies on of an
      allocator, and the round trip of stores and loads; a bump allocator that
      moves the memory is an instance.
    - [AbiFlat]: [flat.go], [coreval.go] and the rest of [plan.go] and
      [fixedlist.go]: lowering in the monad of [AbiStore], lifting from the three
      kinds of iterator.
    - [AbiFlatRep]: the flat representation [frep] of a value, and its types.
    - [AbiFlatLift]: lifting reads a representation back ([lifts]); how values are
      passed within a limit ([passed]).
    - [AbiFlatRoundtrip]: lowering ends with a representation ([lowers]) whatever
      the view it starts from ([blind]); the theorems on both directions.
    - [WasmMemory]: [MemoryInstance] over a heap of arrays with Go slices as
      views, the buffer pool, and the well-formedness [wf] that every operation
      keeps.
    - [MemoryRelease]: call slots, their registration with memories, the owner's,
      importer's and holder's branches of a close, and the parked release.
    - [MemorySystem]: instantiations, calls, stores, growth, host writes,
      collection of slots and closes as one step relation [sys_step].
    - [MemoryKeep]: its invariant [inv], and that every step keeps it.
    - [MemoryIsolation]: what the invariant means, and runs of the system.

    - [GcHeap]: references, objects and the slot table of the managed heap, its
      well-formedness [wf], and allocation.
    - [GcCollect]: a collection, against reachability from the roots.
    - [GcOps]: [RunGC] and its helpers, the runtime subtype test, exceptions.
    - [GcTyping]: the layout of objects ([shaped]) and the loops that fill them.
    - [GcSound]: well-typed states [state_ok], and what each operation does to one.
    - [GcHistory]: interleavings of operations, throws and collections.
    - [GcHandshake]: the stop-the-world handshake, as atomic steps of calls in
      flight; [GcStop]: its invariant under every interleaving; [GcHalt]: every
      collection under way can go on and takes a bounded number of moves.

    - [GcTypes]: type sections, the lattice of heap types, subtyping of value types
      and the validation of declared supertypes; the interface [Canonical], what
      subtyping asks of canonicalization.
    - [GcSubtype]: subtyping against that interface: a preorder, the closure of the
      declared supertypes, and what a subtype offers ([def_sub]).
    - [GcTypeKeys]: the textual keys of types and rec groups, read back uniquely.
    - [GcCanon]: canonicalization against the iso-recursive rule ([iso]), which gives
      the instance of [Canonical].
    - [GcTypeIds]: the IDs a store hands out to the types of its modules, and that
      the runtime subtype test on them is the static one.
    - [GcTypeDecode]: the decoder of type sections, against a writer of them.

    - [CmHandles]: the index space of an instance, its resources, and the calls that
      take, lend and return handles.
    - [CmBorrows]: the ledger of loans and borrow scopes that every call keeps.
    - [CmStream]: the shared object of a stream, the builtins of its guest ends and
      the calls of its host ends, over an interface of buffers ([CopyBuffers], with
      the laws [BufferLaws]).
    - [CmBuffer]: the buffers of guests and hosts, which are an instance.
    - [CmStreamInv]: the phases of an operation, and that every step of the shared
      object keeps them; [CmStreamRun]: all runs; [CmStreamOut]: what each call answers.
    - [CmFuture]: the shared object of a future, the builtins of its guest ends and the
      calls of its host ends; [CmFutureInv]: its invariant; [CmFutureRun]: all runs.

    - [WasmOpcodes]: the opcodes, by name.
    - [WasmValidStack]: what a body refers to ([env]), the stack of operand types, control
      blocks, initialised locals, block types and memory arguments.
    - [WasmValidInstr], [WasmValidSimd], [WasmValidGc]: the cases of the validator, a
      definition each; [WasmValidate]: branches, blocks, and the walk over a body.
    - [WasmTyping]: the typing rules of the specification, as relations on positions of
      a body ([code], [instr], [well_typed]), with the opcode tables as numbers.
    - [WasmTables]: the validator's cases are those tables.
    - [WasmSoundStack]: outcomes ([wp]), what the stack operations do to the operand
      types of the innermost block ([popped], with unknown operands as sets of operand
      lists, [conc]), and the immediates.
    - [WasmSoundInstr], [WasmSoundSimd], [WasmSoundGc], [WasmSoundBranch]: an accepted
      instruction has a type by the rules, and the operand types change by it ([spec]).
    - [WasmSoundBlock]: block types and catch clauses; [WasmSound]: the open blocks as
      frames of the derivation under construction ([running]), and what opens and
      closes them; [WasmSafety]: the theorems, and bodies the rules and the validator
      disagree on.

    - [CallRows]: slices with bounds checks, the rows of edges the analyses build
      ([rows_spec]), and what validation records of a body ([Event]).
    - [MayThrow], [CallEffects]: the two fixpoints over the calls of a module.
    - [Tarjan]: strongly connected components, by rounds of one loop with its invariant.
    - [EntryCheck]: the builder of entry checks and [solve]; [EntryGraph]: the graph it
      builds; [EntryWork]: what it knows of unchecked work ([Est]) and how a function is
      brought within its budget; [EntryCycles]: no cycle stays unchecked; [EntrySolve]:
      the whole of [solve]; [EntryCheckSafe]: executions of a module with its checks
      ([run]), and the theorems.

    Definitions keep the names of the Go functions they translate; a loop of a
    function is a definition with the suffix [_loop] or a name of its own, and
    the branches of a method that are shared are factored the same way.

    * What the theorems show

    - Integers and tables: the unsigned decoders are the reference decoder, the
      signed ones are it on a [mend]ed input, and all invert the encoders; the
      table is a finite map that allocates the lowest free key.
    - Layout and flattening: on every valid type the code computes what the
      Canonical ABI specifies, and terminates; flattening also refuses types wider
      than [maxFlatWidth], exactly those.  On every descriptor and resolver, valid
      or not, its results are well formed.
    - Stores: of values with lists shorter than 2^32 elements they never panic,
      whatever the guest answers, and return the live view; a value is stored or
      spilled unless the guest's allocator fails or it has a [none] as the payload
      of a variant's case, and is then loaded back, and no address in use changes;
      [Load] returns the value that is represented.
    - Flat values: a lowered value is lifted back, flat or spilled, through stale
      views and coerced cases, with the failures of stores and of [FlatWidth]; the core values have the types of the flattened
      signature; the compiled plans do what the interpreted walks do.
    - Memories: new memories are zero, growth keeps the bytes and the limits (with
      a custom allocator it does what that decides), and accesses are exact.
    - Release: in every state reachable without custom allocators, without growth of
      a released memory and without stores to memories a module only holds, no two
      memories share an array and none has a pooled one, the memories a running
      call's module declares or imports keep their arrays, closes and returns never
      panic, and once the calls have left nothing stays parked.  Outside of these
      conditions, [grow_after_release_leaks] and [held_memory_pooled_in_flight].
    - Managed heap: GC operations on validated operands never crash and keep every
      object's words those of its type; a collection ends and keeps exactly what is
      reachable; references neither dangle nor alias; while a collection scans no
      other call runs; a collection ends after a bounded number of moves of the
      calls, provided running calls reach their parking points, and no call sleeps
      past it.
    - Types: canonical indices and type IDs are equal exactly for types that are the
      same under the iso-recursive rule, within a module and across the modules of a
      store; subtyping is a preorder, lets a subtype stand for its supertype, and
      is what the runtime test computes.
    - Type sections: decoding never panics, ends, reads every written section back,
      and yields a section canonicalization can work on.
    - Handles: loans are counted exactly, those of calls that failed to lift an
      argument included, a lent handle stays, an own handle has one owner, and the arguments of a call are lifted to the resources they name.
    - Streams, if hosts do nothing in the callback of an operation of no elements: an
      operation is told exactly once, both ends of a stream are told of as many
      elements, and copies and cancellations answer as the Canonical ABI says on every
      branch.
    - Futures, if hosts act in a callback on the end they were told about: the value is
      passed at most once, ends are busy exactly while their operation is outstanding,
      and results are honest.
    - Function bodies: an accepted body is well typed, and validation ends; without
      exception handling, and with the type indices of functions and the functions of
      element segments in range, which is checked too late, it never reads outside the
      body or a table; its opcode tables are the specification's, immediates of vector
      instructions included.  Where the code accepts more than the specification the
      rules have a second form, chosen by [lax], and each difference is a closed example.
    - Call graph: a function may throw, or has an effect, exactly when it reaches by calls
      one that does; components are those of mutual reachability, callees first; the
      checks on entry exist for every module and bound the work of every execution by
      the checks it passes, and the work given for a short call is one.
    - A few theorems state behaviour that differs from a comment or from the
      specification; each is a closed computation of the code.

    * Bounds and fuel

    Sizes and pointers are 32-bit and wrap as in Go; a valid type has a size below
    2^28, as the binary format requires.  The recursive walks over descriptors take
    fuel, since a resolver can make a descriptor refer to itself (the Go code then
    overflows its stack); the theorems need fuel of the type tree's height, which
    [denotes] guarantees to exist.  Memories have at most 2^32 pages of 64 KiB, the
    largest the Go runtime allocates; 32-bit memories have at most 2^16.  The marking
    loop of a collection takes fuel, of which as much as the table has slots is
    proved enough; generations wrap after 2^29 uses of a slot, the bound under which
    references are proved not to alias.  A callback of a host may act on its stream
    again, which recurses; the fuel is the number of callbacks that are parked or asked
    for, and is proved enough.  The walk over a function body takes as much fuel as the
    body has bytes, as do the loops over labels and catch clauses in it; it is proved
    enough.  Bodies are shorter than 2^63 bytes.  The work lists of the call graph take
    a round for each function, or four where a function's effects can grow three times;
    the component search one for each edge and node; and the loop that checks callees
    one more than there are functions, since each round checks a new one.  All are
    proved enough.  A module has fewer than 2^30 functions (the decoder allows 2^27).

    * What is not modelled

    Error texts (an error is its kind and place, [abi_error]); floating-point
    arithmetic (floats are moved as bits); the Go scheduler and memory model (the
    code here runs under its caller's lock); exhaustion of host memory;
    the pools that recycle iterators.  Of streams, a host is taken to do nothing in the
    callback of an operation of no elements ([polite]); of futures, to act in a callback on
    the end it was told about ([courteous_op]).  [nested_write_lost] and
    [close_reaches_assertion] show what happens otherwise.  How a blocked call waits for
    its event is left to the scheduler.
    Of function bodies, the calls by which the validator records what a body does are not
    part of its model: the analyses start from events in any order, on builders that are
    not nil, and take whether references reach other modules ([foreignFuncRefs]) as a
    flag.  That every well-typed body is accepted is not stated: [select] and the branches on
    references keep more of a type than the rules do.
    Waitable sets, subtasks, core tables and the component decoder are not modelled yet;
    the interpreter, the compilers, WASI and the operating-system layers are outside the
    scope. *)
From Stdlib Require Import ZArith Lia Btauto Sorted.
From stdpp Require Import base list numbers option tactics sets relations.
#[global] Open Scope Z_scope.

(** * Outcomes of Go code

    A Go function that can fail is modelled by a value of [outcome]: it
    returns normally ([Ok]), returns a non-nil error ([Err]), panics, or --
    only for definitions written with fuel -- needs more recursive steps than
    the fuel allows ([NoFuel], standing for a Go stack overflow when no amount
    of fuel is enough). *)
Inductive outcome (E A : Type) : Type :=
| Ok (a : A)
| Err (e : E)
| Panic
| NoFuel.
Arguments Ok {E A} a.
Arguments Err {E A} e.
Arguments Panic {E A}.
Arguments NoFuel {E A}.

Definition obind {E A B} (m : outcome E A) (k : A → outcome E B) : outcome E B :=
  match m with
  | Ok a => k a
  | Err e => Err e
  | Panic => Panic
  | NoFuel => NoFuel
  end.

Definition omap_ok {E A B} (f : A → B) (m : outcome E A) : outcome E B :=
  obind m (λ a, Ok (f a)).

Declare Scope go_scope.
Delimit Scope go_scope with go.
#[global] Open Scope go_scope.
Notation "'let*' x ':=' m 'in' k" := (obind m (λ x, k))
  (at level 10, x name, m at level 100, k at level 200,
   format "'[v' 'let*'  x  ':='  m  'in' '/' k ']'") : go_scope.
Notation "'let*' ' p ':=' m 'in' k" := (obind m (λ x, match x with p => k end))
  (at level 10, p strict pattern, m at level 100, k at level 200,
   only parsing) : go_scope.

Create HintDb go.

Lemma obind_Ok {E A B} (m : outcome E A) (k : A → outcome E B) b :
  obind m k = Ok b ↔ ∃ a, m = Ok a ∧ k a = Ok b.
Proof.
  split; [|by intros (a & -> & H)].
  destruct m as [a| | |]; simpl; try discriminate. by exists a.
Qed.

(** [go_inv] inverts a successful sequence of binds and conditionals found in
    the hypotheses. *)
Ltac go_inv :=
  repeat match goal with
  | H : obind ?m _ = Ok _ |- _ =>
      let a := fresh "a" in let Ha := fresh "Hret" in
      apply obind_Ok in H; destruct H as (a & Ha & H)
  | H : (if ?b then _ else _) = Ok _ |- _ =>
      let Hb := fresh "Hcond" in destruct b eqn:Hb; try discriminate H
  | H : Ok _ = Ok _ |- _ => injection H as H; subst
  | H : Err _ = Ok _ |- _ => discriminate H
  end.

(** * Machine integers

    An unsigned [w]-bit integer is a [Z] in [[0, 2^w)], a signed one a [Z] in
    [[-2^(w-1), 2^(w-1))].  [wrap] and [swrap] are Go's conversions into those
    ranges: they reduce modulo [2^w]. *)
Definition wrap (w x : Z) : Z := x `mod` 2 ^ w.
Definition swrap (w x : Z) : Z := (x + 2 ^ (w - 1)) `mod` 2 ^ w - 2 ^ (w - 1).

Abbreviation u8 := (wrap 8).
Abbreviation u16 := (wrap 16).
Abbreviation u32 := (wrap 32).
Abbreviation u64 := (wrap 64).
Abbreviation i8 := (swrap 8).
Abbreviation i16 := (swrap 16).
Abbreviation i32 := (swrap 32).
Abbreviation i64 := (swrap 64).

Definition is_byte (b : Z) : Prop := 0 ≤ b < 256.

(** [u32.OutOfRange] of [internal/u32]: both sides are widened, so nothing wraps. *)
Definition OutOfRange (index length : Z) : bool := length <=? index.

Lemma pow2_pos n : 0 ≤ n → 0 < 2 ^ n.
Proof. intros. apply Z.pow_pos_nonneg; lia. Qed.

Lemma wrap_range w x : 0 ≤ w → 0 ≤ wrap w x < 2 ^ w.
Proof. intros. apply Z.mod_pos_bound, pow2_pos; lia. Qed.

Lemma wrap_small w x : 0 ≤ x < 2 ^ w → wrap w x = x.
Proof. apply Z.mod_small. Qed.

Lemma swrap_range w x : 0 < w → - 2 ^ (w - 1) ≤ swrap w x < 2 ^ (w - 1).
Proof.
  intros Hw. unfold swrap.
  assert (2 ^ w = 2 * 2 ^ (w - 1)) as E
    by (rewrite <- Z.pow_succ_r by lia; f_equal; lia).
  pose proof (Z.mod_pos_bound (x + 2 ^ (w - 1)) (2 ^ w) (pow2_pos w ltac:(lia))). lia.
Qed.

Lemma swrap_small w x :
  0 < w → - 2 ^ (w - 1) ≤ x < 2 ^ (w - 1) → swrap w x = x.
Proof.
  intros Hw H. unfold swrap.
  assert (2 ^ w = 2 * 2 ^ (w - 1)) as E
    by (rewrite <- Z.pow_succ_r by lia; f_equal; lia).
  rewrite Z.mod_small; lia.
Qed.

(** Bit [i] of the [w]-bit signed value of [x] is bit [i] of [x] below the
    sign bit, and the sign bit of [x] from there on. *)
Lemma testbit_swrap w x i :
  0 < w → 0 ≤ i → Z.testbit (swrap w x) i = Z.testbit x (Z.min i (w - 1)).
Proof.
  intros Hw Hi. unfold swrap.
  assert (2 ^ w = 2 * 2 ^ (w - 1)) as E
    by (rewrite <- Z.pow_succ_r by lia; f_equal; lia).
  pose proof (pow2_pos (w - 1) ltac:(lia)) as Hp.
  assert (∃ y q, x = y + 2 ^ w * q ∧ - 2 ^ (w - 1) ≤ y < 2 ^ (w - 1) ∧
            (x + 2 ^ (w - 1)) `mod` 2 ^ w - 2 ^ (w - 1) = y) as (y & q & -> & Hy & ->).
  { pose proof (Z.div_mod (x + 2 ^ (w - 1)) (2 ^ w) ltac:(lia)).
    pose proof (Z.mod_pos_bound (x + 2 ^ (w - 1)) (2 ^ w) ltac:(lia)).
    exists ((x + 2 ^ (w - 1)) `mod` 2 ^ w - 2 ^ (w - 1)),
      ((x + 2 ^ (w - 1)) `div` 2 ^ w). lia. }
  assert (∀ j, 0 ≤ j < w → Z.testbit (y + 2 ^ w * q) j = Z.testbit y j) as Hlow.
  { intros j Hj. rewrite <- (Z.mod_pow2_bits_low _ w j) by lia.
    rewrite Z.mul_comm, Z.mod_add by lia. apply Z.mod_pow2_bits_low; lia. }
  assert (∀ j, w - 1 ≤ j → Z.testbit y j = (y <? 0)) as Hhigh.
  { intros j Hj. destruct (Z.ltb_spec y 0).
    - destruct (Z.eq_dec y (-1)) as [->|]; [apply Z.bits_m1; lia|].
      apply Z.bits_above_log2_neg; [lia|]. apply Z.log2_lt_pow2; [lia|].
      pose proof (Z.pow_le_mono_r 2 (w - 1) j); lia.
    - rewrite Z.testbit_odd, Z.shiftr_div_pow2 by lia.
      rewrite Z.div_small; [done|]. pose proof (Z.pow_le_mono_r 2 (w - 1) j); lia. }
  destruct (Z.le_gt_cases i (w - 1)).
  - rewrite Z.min_l, Hlow by lia. done.
  - rewrite Z.min_r, Hlow, !Hhigh by lia. done.
Qed.

Lemma swrap_lor w a b :
  0 < w → Z.lor (swrap w a) (swrap w b) = swrap w (Z.lor a b).
Proof.
  intros. apply Z.bits_inj'; intros i Hi.
  by rewrite Z.lor_spec, !testbit_swrap, Z.lor_spec by lia.
Qed.

Lemma swrap_eq w a b :
  0 < w → a `mod` 2 ^ w = b `mod` 2 ^ w → swrap w a = swrap w b.
Proof.
  intros Hw E. unfold swrap. f_equal.
  rewrite <- (Z.add_mod_idemp_l a), <- (Z.add_mod_idemp_l b), E;
    pose proof (pow2_pos w); lia.
Qed.

(** Or-ing in bits above everything already set is addition. *)
Lemma lor_shiftl_add a b s :
  0 ≤ s → 0 ≤ a < 2 ^ s → Z.lor a (Z.shiftl b s) = a + b * 2 ^ s.
Proof.
  intros Hs Ha. rewrite <- Z.lxor_lor, <- Z.add_nocarry_lxor, Z.shiftl_mul_pow2; try lia.
  all: apply Z.bits_inj'; intros i Hi; rewrite Z.land_spec, Z.bits_0.
  all: destruct (Z.lt_ge_cases i s).
  all: try (rewrite Z.shiftl_spec_low by lia; btauto).
  all: rewrite (Z.testbit_odd a), Z.shiftr_div_pow2, Z.div_small; [done| |lia].
  all: pose proof (Z.pow_le_mono_r 2 s i); lia.
Qed.

Lemma land_ones_mod a n : 0 ≤ n → Z.land a (2 ^ n - 1) = a `mod` 2 ^ n.
Proof. intros. rewrite <- Z.land_ones by lia. f_equal. rewrite Z.ones_equiv. lia. Qed.

(** A decidable fact about bytes holds of every byte when it holds of each of
    the 256 values. *)
Lemma byte_forall (P : Z → bool) :
  forallb P (seqZ 0 256) = true → ∀ b, is_byte b → P b = true.
Proof.
  intros H b Hb. rewrite forallb_forall in H.
  apply H, list_elem_of_In, elem_of_seqZ. unfold is_byte in Hb. lia.
Qed.

(** [byte_solve b] proves a boolean fact about the byte [b] by enumeration;
    the goal must be an equation between booleans mentioning only [b]. *)
Ltac byte_solve b :=
  match goal with
  | Hb : is_byte b |- ?l = ?r =>
      let P := eval pattern b in (Bool.eqb l r) in
      match P with
      | ?f b =>
          apply Bool.eqb_prop;
          exact (byte_forall f ltac:(vm_compute; reflexivity) b Hb)
      end
  end.

Lemma byte_lt_forall (k : Z) (P : Z → bool) :
  forallb P (seqZ 0 k) = true → ∀ b, is_byte b → b < k → P b = true.
Proof.
  intros H b Hb Hk. rewrite forallb_forall in H.
  apply H, list_elem_of_In, elem_of_seqZ. unfold is_byte in Hb. lia.
Qed.

(** [byte_solve_lt b]: the same below the bound a hypothesis gives. *)
Ltac byte_solve_lt b :=
  match goal with
  | Hb : is_byte b, Hk : b < ?k |- ?l = ?r =>
      let P := eval pattern b in (Bool.eqb l r) in
      match P with
      | ?f b =>
          apply Bool.eqb_prop;
          exact (byte_lt_forall k f ltac:(vm_compute; reflexivity) b Hb Hk)
      end
  end.

Lemma lookup_pre_cons {A} (pre : list A) x rest k :
  k = Z.of_nat (length pre) → (pre ++ x :: rest) !! Z.to_nat k = Some x.
Proof. intros ->. rewrite Nat2Z.id, lookup_app_r, Nat.sub_diag by lia. done. Qed.

Lemma lookup_pre_nil {A} (pre : list A) k :
  k = Z.of_nat (length pre) → (pre ++ []) !! Z.to_nat k = None.
Proof. intros ->. apply lookup_ge_None_2. rewrite app_nil_r. lia. Qed.

Lemma swrap_neg w x : 0 < w → (swrap w x <? 0) = Z.testbit x (w - 1).
Proof.
  intros Hw. rewrite <- (Z.min_id (w - 1)), <- testbit_swrap by lia.
  pose proof (swrap_range w x Hw) as Hr.
  destruct (Z.ltb_spec (swrap w x) 0).
  - symmetry. destruct (Z.eq_dec (swrap w x) (-1)) as [->|]; [apply Z.bits_m1; lia|].
    apply Z.bits_above_log2_neg; [lia|]. apply Z.log2_lt_pow2; lia.
  - symmetry. rewrite Z.testbit_odd, Z.shiftr_div_pow2, Z.div_small by lia. done.
Qed.

Lemma testbit_add_high a c m j :
  0 ≤ m → 0 ≤ j → 0 ≤ a < 2 ^ m → Z.testbit (a + c * 2 ^ m) (m + j) = Z.testbit c j.
Proof.
  intros Hm Hj Ha. rewrite Z.add_comm, (Z.add_comm m), <- Z.div_pow2_bits by lia.
  rewrite Z.div_add_l, (Z.div_small a), Z.add_0_r by lia. done.
Qed.

(** * Bits of 64-bit words *)

(** [bits.TrailingZeros64] and [bits.OnesCount64] of [math/bits]. *)
Fixpoint trailing_zeros (n : nat) (x : Z) : Z :=
  match n with
  | O => 0
  | S n => if Z.testbit x 0 then 0 else 1 + trailing_zeros n (Z.shiftr x 1)
  end.
Definition TrailingZeros64 : Z → Z := trailing_zeros 64.

Definition OnesCount64 (x : Z) : Z :=
  Z.of_nat (length (filter (λ i, Z.testbit x i = true) (seqZ 0 64))).

Lemma trailing_zeros_spec n x :
  (∃ i, 0 ≤ i < Z.of_nat n ∧ Z.testbit x i = true) →
  let k := trailing_zeros n x in
  0 ≤ k < Z.of_nat n ∧ Z.testbit x k = true ∧ ∀ j, 0 ≤ j < k → Z.testbit x j = false.
Proof.
  revert x; induction n as [|n IH]; intros x [i [Hi Hx]]; [lia|].
  cbn [trailing_zeros]. destruct (Z.testbit x 0) eqn:E0; [split_and!; try done; lia|].
  destruct (IH (Z.shiftr x 1)) as (Hk & Hb & Hlow).
  { exists (i - 1). destruct (Z.eq_dec i 0) as [->|]; [congruence|].
    split; [lia|]. rewrite Z.shiftr_spec by lia. by replace (i - 1 + 1) with i by lia. }
  rewrite Z.shiftr_spec in Hb by lia.
  split_and!; [lia|lia|by rewrite Z.add_comm|].
  intros j Hj. destruct (Z.eq_dec j 0) as [->|]; [done|].
  specialize (Hlow (j - 1) ltac:(lia)). rewrite Z.shiftr_spec in Hlow by lia.
  by replace (j - 1 + 1) with j in Hlow by lia.
Qed.

Lemma testbit_wrap w x i : 0 ≤ i → 0 ≤ w → Z.testbit (wrap w x) i = (i <? w) && Z.testbit x i.
Proof.
  intros Hi Hw. unfold wrap. destruct (Z.ltb_spec i w); cbn.
  - by rewrite Z.mod_pow2_bits_low.
  - rewrite Z.mod_pow2_bits_high by lia. done.
Qed.

(** A number that fits [w] bits is determined by them. *)
Lemma bits_inj_width w x y :
  0 ≤ w → 0 ≤ x < 2 ^ w → 0 ≤ y < 2 ^ w →
  (∀ i, 0 ≤ i < w → Z.testbit x i = Z.testbit y i) → x = y.
Proof.
  intros Hw Hx Hy H. rewrite <- (wrap_small w x), <- (wrap_small w y) by done.
  apply Z.bits_inj'; intros i Hi. rewrite !testbit_wrap by lia.
  destruct (Z.ltb_spec i w); cbn; [|done]. apply H. lia.
Qed.

Lemma testbit_shiftl_1 s i : 0 ≤ s → 0 ≤ i → Z.testbit (Z.shiftl 1 s) i = (i =? s).
Proof.
  intros Hs Hi. rewrite Z.shiftl_1_l. destruct (Z.eqb_spec i s) as [->|].
  - by apply Z.pow2_bits_true.
  - apply Z.pow2_bits_false; lia.
Qed.

Lemma lookup_seqZ_Z m n k : 0 ≤ k < n → seqZ m n !! Z.to_nat k = Some (m + k).
Proof. intros. apply lookup_seqZ. split; lia. Qed.

(** A test out of a range on both sides. *)
Lemma in_range_true a x b : a ≤ x < b → (a <=? x) && (x <? b) = true.
Proof. intros. apply andb_true_iff. rewrite Z.leb_le, Z.ltb_lt. lia. Qed.

(** * Filtering lists *)

Lemma filter_ext_in {A} (P Q : A → Prop) `{∀ x, Decision (P x)} `{∀ x, Decision (Q x)} (l : list A) :
  (∀ x, x ∈ l → P x ↔ Q x) → filter P l = filter Q l.
Proof.
  induction l as [|x l IH]; intros H1; [done|]. rewrite !filter_cons.
  rewrite IH by (intros y Hy; apply H1; by right).
  assert (P x ↔ Q x) by (apply H1; left). by repeat case_decide; try tauto.
Qed.

Lemma filter_fmap_comm {A B} (P : B → Prop) `{∀ x, Decision (P x)} (g : A → B) (l : list A) :
  filter P (g <$> l) = g <$> filter (λ x, P (g x)) l.
Proof.
  induction l as [|x l IH]; [done|]. rewrite fmap_cons, !filter_cons, IH. by case_decide.
Qed.

Lemma StronglySorted_filter {A} (R : A → A → Prop) (P : A → Prop) `{∀ x, Decision (P x)} (l : list A) :
  StronglySorted R l → StronglySorted R (filter P l).
Proof.
  induction 1 as [|x l Hl IH Hx]; [constructor|]. rewrite filter_cons.
  case_decide; [|done]. constructor; [done|]. rewrite Forall_forall in *.
  intros y Hy. apply Hx. by apply list_elem_of_filter in Hy as [_ ?].
Qed.

Lemma StronglySorted_NoDup_Zlt (l : list Z) : StronglySorted Z.lt l → NoDup l.
Proof.
  induction 1 as [|x l Hl IH Hx]; constructor; [|done].
  intros Hin. rewrite Forall_forall in Hx. specialize (Hx x Hin). lia.
Qed.

(** * Lengths *)

(** [len] of a slice. *)
Definition zlen {A} (l : list A) : Z := Z.of_nat (length l).

Lemma zlen_nonneg {A} (l : list A) : 0 ≤ zlen l.
Proof. unfold zlen. lia. Qed.

Lemma zlen_cons {A} (x : A) l : zlen (x :: l) = 1 + zlen l.
Proof. unfold zlen. cbn. lia. Qed.

Lemma zlen_app {A} (l1 l2 : list A) : zlen (l1 ++ l2) = zlen l1 + zlen l2.
Proof. unfold zlen. rewrite length_app. lia. Qed.

(** * Little-endian bytes *)

(** The little-endian integer of a list of bytes, and back. *)
Fixpoint le_decode (l : list Z) : Z :=
  match l with [] => 0 | b :: l => b + 256 * le_decode l end.

Fixpoint le_encode (n : nat) (v : Z) : list Z :=
  match n with O => [] | S n => v `mod` 256 :: le_encode n (v `div` 256) end.

Lemma zlen_le_encode n v : zlen (le_encode n v) = Z.of_nat n.
Proof. revert v; induction n as [|n IH]; intros v; cbn [le_encode]; [done|]. rewrite zlen_cons, IH. lia. Qed.

Lemma le_decode_encode n v : le_decode (le_encode n v) = v `mod` 2 ^ (8 * Z.of_nat n).
Proof.
  revert v; induction n as [|n IH]; intros v; cbn [le_encode le_decode].
  - change (2 ^ (8 * Z.of_nat 0)) with 1. by rewrite Z.mod_1_r.
  - rewrite IH. replace (2 ^ (8 * Z.of_nat (S n))) with (256 * 2 ^ (8 * Z.of_nat n)).
    + rewrite Z.rem_mul_r by lia. done.
    + rewrite Nat2Z.inj_succ, Z.mul_succ_r, Z.pow_add_r by lia. lia.
Qed.

Lemma le_encode_byte n v : Forall is_byte (le_encode n v).
Proof.
  revert v; induction n as [|n IH]; intros v; cbn; constructor; [|done].
  unfold is_byte. pose proof (Z.mod_pos_bound v 256). lia.
Qed.

(** * Paths

    A path of a relation, by the points it visits after its first: what a loop that
    follows parent pointers walks. *)
Section chains.
Context {A : Type} `{!EqDecision A} (R : A → A → Prop).

Fixpoint chain (a : A) (path : list A) (t : A) : Prop :=
  match path with [] => a = t | b :: path => R a b ∧ chain b path t end.

Lemma chain_suffix path : ∀ b a t, chain b path t → NoDup (b :: path) → a ∈ b :: path → ∃ path', chain a path' t ∧ NoDup (a :: path').
Proof.
  induction path as [|c path IH]; intros b a t Hc Hnd Ha; cbn in Hc.
  - apply list_elem_of_singleton in Ha as ->. by exists [].
  - apply elem_of_cons in Ha as [->|Ha]; [by exists (c :: path)|]. apply (IH c); [apply Hc| |done]. by apply list.NoDup_cons in Hnd as [_ ?].
Qed.

(** Whatever is reachable is reachable without visiting a point twice. *)
Lemma chain_simple a t : rtc R a t → ∃ path, chain a path t ∧ NoDup (a :: path).
Proof.
  induction 1 as [a|a b t Hab _ (path & Hc & Hnd)]; [exists []; split; [done|]; apply NoDup_singleton|].
  destruct (decide (a ∈ b :: path)) as [Hin|Hin]; [by eapply chain_suffix|]. exists (b :: path). split; [done|by apply NoDup_cons_2].
Qed.

Lemma chain_rtc path : ∀ a t, chain a path t → rtc R a t.
Proof. induction path as [|b path IH]; intros a t Hc; [by rewrite Hc|]. destruct Hc as [Hab Hc]. apply rtc_l with b; auto. Qed.
End chains.

(** A simple path is no longer than the range of the points it leaves. *)
Lemma chain_length (R : Z → Z → Prop) (n : Z) a path t :
  (∀ x y, R x y → 0 ≤ x < n) → chain R a path t → NoDup (a :: path) → (length path ≤ Z.to_nat n)%nat.
Proof.
  intros HR Hc Hnd.
  assert (∀ path a, chain R a path t → ∀ i x, (a :: path) !! i = Some x → (i < length path)%nat → 0 ≤ x < n) as Hrange.
  { clear a path Hc Hnd. intros path. induction path as [|b path IH]; intros a Hc i x Hi Hl; cbn in Hl; [lia|]. destruct Hc as [Hab Hc].
    destruct i as [|i]; [injection Hi as <-; by eapply HR|]. apply (IH b Hc i); [done|lia]. }
  assert (length (take (length path) (a :: path)) = length path) as El by (rewrite length_take; cbn; lia).
  rewrite <- El. transitivity (length (seqZ 0 n)); [|rewrite length_seqZ; lia].
  apply submseteq_length, NoDup_submseteq; [eapply sublist_NoDup; [exact Hnd|apply sublist_take]|].
  intros x Hx. apply list_elem_of_lookup_1 in Hx as [i Hi]. apply lookup_take_Some in Hi as [Hi Hlt].
  apply elem_of_seqZ. pose proof (Hrange path a Hc i x Hi Hlt). lia.
Qed.
