(* ===== verification/Leb128.v ===== *)
(** LEB128 integers: [internal/leb128/leb128.go].

    The encoders, the buffer decoders ([Load*]) and the reader decoders
    ([Decode*]) of the package, with the machine arithmetic of the Go code
    (shifts and conversions wrap at the width of their type).  An
    [io.ByteReader] is the list of the bytes still to be read; reading past its
    end is [io.EOF].  A decoder's result is the pair (value, bytes read).

    The reference is [uleb]/[sleb], the number a byte sequence denotes, and
    [uleb_ref]/[sleb_ref], the decoder that accepts a terminated sequence of at
    most a given number of bytes whose number fits the target range.  [mend]
    says what the signed decoders make of an input that is not of that form:
    they do not look at bit 6 of the last byte an encoding may have. *)
From Stdlib Require Import ZArith Lia.
From stdpp Require Import base list numbers option tactics.
From S2P Require Import Prelude.
Local Open Scope Z_scope.

Inductive leb_error :=
| ErrEOF
| ErrOverflow32
| ErrOverflow33
| ErrOverflow64
| ErrVecSize (count remaining : Z).

Definition leb_result := outcome leb_error (Z * Z).

Definition maxVarintLen32 := 5.
Definition maxVarintLen33 := maxVarintLen32.
Definition maxVarintLen64 := 10.
Definition int33Mask : Z := Z.shiftl 1 7.
Definition int33Mask2 : Z := Z.lnot int33Mask.
Definition int33Mask3 : Z := Z.shiftl 1 6.
Definition int33Mask4 : Z := 8589934591.
Definition int64Mask3 : Z := Z.shiftl 1 6.
Definition int64Mask4 : Z := Z.lnot 0.

(** ** Encoders *)

(** The [for] loop of [EncodeInt64]. *)
Fixpoint EncodeInt64_loop (fuel : nat) (value : Z) (buf : list Z)
    : outcome leb_error (list Z) :=
  match fuel with
  | O => NoFuel
  | S fuel =>
      let b := u8 (Z.land value 0x7f) in
      let s := u8 (Z.land value 0x40) in
      let value := Z.shiftr value 7 in
      let b :=
        if (negb (value =? -1) || (s =? 0)) && (negb (value =? 0) || negb (s =? 0))
        then Z.lor b 0x80 else b in
      let buf := buf ++ [b] in
      if Z.land b 0x80 =? 0 then Ok buf
      else EncodeInt64_loop fuel value buf
  end.

(** Ten iterations are enough for every 64-bit value: each consumes 7 bits. *)
Definition EncodeInt64 (value : Z) : outcome leb_error (list Z) :=
  EncodeInt64_loop 10 value [].

Definition EncodeInt32 (value : Z) : outcome leb_error (list Z) := EncodeInt64 value.

Fixpoint EncodeUint64_loop (fuel : nat) (value : Z) (buf : list Z)
    : outcome leb_error (list Z) :=
  match fuel with
  | O => NoFuel
  | S fuel =>
      let b := u8 (Z.land value 0x7f) in
      let value := Z.shiftr value 7 in
      let b := if negb (value =? 0) then Z.lor b 0x80 else b in
      let buf := buf ++ [b] in
      if Z.land b 0x80 =? 0 then Ok buf
      else EncodeUint64_loop fuel value buf
  end.

Definition EncodeUint64 (value : Z) : outcome leb_error (list Z) :=
  EncodeUint64_loop 10 value [].

Definition EncodeUint32 (value : Z) : outcome leb_error (list Z) := EncodeUint64 value.

(** ** Unsigned decoders *)

(** [n] is the number of iterations the loop condition [i < maxVarintLen32]
    still allows.  The second component is the reader afterwards. *)
Fixpoint DecodeUint32_loop (n : nat) (i : Z) (r : list Z) (s ret : Z)
    : leb_result * list Z :=
  match n with
  | O => (Err ErrOverflow32, r)
  | S n =>
      match r with
      | [] => (Err ErrEOF, [])
      | b :: r =>
          if b <? 0x80 then
            if (i =? maxVarintLen32 - 1) && (0 <? Z.land b 0xf0)
            then (Err ErrOverflow32, r)
            else (Ok (Z.lor ret (u32 (Z.shiftl b s)), u64 (i + 1)), r)
          else
            DecodeUint32_loop n (i + 1) r (u32 (s + 7))
              (Z.lor ret (u32 (Z.shiftl (Z.land b 0x7f) s)))
      end
  end.

Definition DecodeUint32 (r : list Z) : leb_result * list Z :=
  DecodeUint32_loop (Z.to_nat maxVarintLen32) 0 r 0 0.

Fixpoint LoadUint32_loop (n : nat) (buf : list Z) (i s ret : Z) : leb_result :=
  match n with
  | O => Err ErrOverflow32
  | S n =>
      match buf !! Z.to_nat i with
      | None => Err ErrEOF
      | Some b =>
          if b <? 0x80 then
            if (i =? maxVarintLen32 - 1) && (0 <? Z.land b 0xf0)
            then Err ErrOverflow32
            else Ok (Z.lor ret (u32 (Z.shiftl b s)), u64 (i + 1))
          else
            LoadUint32_loop n buf (i + 1) (u32 (s + 7))
              (Z.lor ret (u32 (Z.shiftl (Z.land b 0x7f) s)))
      end
  end.

Definition LoadUint32 (buf : list Z) : leb_result :=
  let loop := LoadUint32_loop (Z.to_nat maxVarintLen32) buf 0 0 0 in
  match buf with
  | b :: _ => if b <? 0x80 then Ok (b, 1) else loop
  | [] => loop
  end.

Definition LoadVecSize (buf : list Z) : leb_result :=
  let* '(ret, bytesRead) := LoadUint32 buf in
  let remaining := u64 (Z.of_nat (length buf) - bytesRead) in
  if remaining <? ret then Err (ErrVecSize ret remaining)
  else Ok (ret, bytesRead).

Fixpoint LoadUint64_loop (n : nat) (buf : list Z) (i s ret : Z) : leb_result :=
  match n with
  | O => Err ErrOverflow64
  | S n =>
      match buf !! Z.to_nat i with
      | None => Err ErrEOF
      | Some b =>
          if b <? 0x80 then
            if (i =? maxVarintLen64 - 1) && (1 <? b)
            then Err ErrOverflow64
            else Ok (Z.lor ret (u64 (Z.shiftl b s)), u64 (i + 1))
          else
            LoadUint64_loop n buf (i + 1) (u64 (s + 7))
              (Z.lor ret (u64 (Z.shiftl (Z.land b 0x7f) s)))
      end
  end.

Definition LoadUint64 (buf : list Z) : leb_result :=
  match buf with
  | [] => Err ErrEOF
  | b :: _ =>
      if b <? 0x80 then Ok (b, 1)
      else LoadUint64_loop (Z.to_nat maxVarintLen64) buf 0 0 0
  end.

(** ** Signed decoders *)

Definition int32OverflowCheck (finalByte bytesRead ret : Z) : bool :=
  if maxVarintLen32 <? bytesRead then true
  else if bytesRead =? maxVarintLen32 then
    let unusedBits := 0x30 in
    let unused := Z.land finalByte unusedBits in
    let want := if ret <? 0 then unusedBits else 0 in
    negb (unused =? want)
  else false.

(** The loop has no bound of its own: it runs until a byte without the
    continuation bit, or the end of the reader, so the recursion is on the
    reader. *)
Fixpoint DecodeInt32_loop (r : list Z) (shift bytesRead ret : Z)
    : leb_result * list Z :=
  match r with
  | [] => (Err ErrEOF, [])
  | b :: r =>
      let ret := Z.lor ret (i32 (Z.shiftl (Z.land b 0x7f) shift)) in
      let shift := shift + 7 in
      let bytesRead := u64 (bytesRead + 1) in
      if Z.land b 0x80 =? 0 then
        let ret :=
          if (shift <? 32) && negb (Z.land b 0x40 =? 0)
          then Z.lor ret (i32 (Z.shiftl (Z.lnot 0) shift)) else ret in
        if int32OverflowCheck b bytesRead ret then (Err ErrOverflow32, r)
        else (Ok (ret, bytesRead), r)
      else DecodeInt32_loop r shift bytesRead ret
  end.

Definition DecodeInt32 (r : list Z) : leb_result * list Z :=
  DecodeInt32_loop r 0 0 0.

(** [fuel] bounds the number of iterations; one more than the length of the
    buffer is enough, since the iteration that starts at the end returns. *)
Fixpoint LoadInt32_loop (fuel : nat) (buf : list Z) (i shift ret : Z) : leb_result :=
  match fuel with
  | O => NoFuel
  | S fuel =>
      match buf !! Z.to_nat i with
      | None => Err ErrEOF
      | Some b =>
          let ret := Z.lor ret (i32 (Z.shiftl (Z.land b 0x7f) shift)) in
          let shift := shift + 7 in
          if Z.land b 0x80 =? 0 then
            let bytesRead := u64 (i + 1) in
            let ret :=
              if (shift <? 32) && negb (Z.land b 0x40 =? 0)
              then Z.lor ret (i32 (Z.shiftl (Z.lnot 0) shift)) else ret in
            if int32OverflowCheck b bytesRead ret then Err ErrOverflow32
            else Ok (ret, bytesRead)
          else LoadInt32_loop fuel buf (i + 1) shift ret
      end
  end.

Definition LoadInt32 (buf : list Z) : leb_result :=
  let loop := LoadInt32_loop (S (length buf)) buf 0 0 0 in
  match buf with
  | b :: _ =>
      if b <? 0x80 then Ok (i32 (Z.shiftr (i8 (u8 (Z.shiftl b 1))) 1), 1) else loop
  | [] => loop
  end.

Definition int33Finish (b shift bytesRead ret : Z) : leb_result :=
  let ret :=
    if (shift <? 33) && (Z.land b int33Mask3 =? int33Mask3)
    then Z.lor ret (i64 (Z.shiftl int33Mask4 shift)) else ret in
  let ret := Z.shiftr (i64 (Z.shiftl ret 31)) 31 in
  if maxVarintLen33 <? bytesRead then Err ErrOverflow33
  else if bytesRead =? maxVarintLen33 then
    let unusedBits := 0x20 in
    let unused := Z.land b unusedBits in
    let want := if ret <? 0 then unusedBits else 0 in
    if negb (unused =? want) then Err ErrOverflow33 else Ok (ret, bytesRead)
  else Ok (ret, bytesRead).

(** [n] is the number of iterations the loop condition [shift < 35] still
    allows, that is [(35 - shift) / 7]. *)
Fixpoint DecodeInt33AsInt64_loop (n : nat) (r : list Z) (b shift bytesRead ret : Z)
    : leb_result * list Z :=
  match n with
  | O => (int33Finish b shift bytesRead ret, r)
  | S n =>
      match r with
      | [] => (Err ErrEOF, [])
      | rb :: r =>
          let b := rb in
          let ret := Z.lor ret (i64 (Z.shiftl (Z.land b int33Mask2) shift)) in
          let shift := shift + 7 in
          let bytesRead := u64 (bytesRead + 1) in
          if Z.land b int33Mask =? 0 then (int33Finish b shift bytesRead ret, r)
          else DecodeInt33AsInt64_loop n r b shift bytesRead ret
      end
  end.

Definition DecodeInt33AsInt64 (r : list Z) : leb_result * list Z :=
  DecodeInt33AsInt64_loop 5 r 0 0 0 0.

Fixpoint LoadInt33AsInt64_loop (n : nat) (buf : list Z) (i b shift ret : Z) : leb_result :=
  match n with
  | O => int33Finish b shift (u64 i) ret
  | S n =>
      match buf !! Z.to_nat i with
      | None => Err ErrEOF
      | Some b =>
          let i := i + 1 in
          let ret := Z.lor ret (i64 (Z.shiftl (Z.land b int33Mask2) shift)) in
          let shift := shift + 7 in
          if Z.land b int33Mask =? 0 then int33Finish b shift (u64 i) ret
          else LoadInt33AsInt64_loop n buf i b shift ret
      end
  end.

Definition LoadInt33AsInt64 (buf : list Z) : leb_result :=
  let loop := LoadInt33AsInt64_loop 5 buf 0 0 0 0 in
  match buf with
  | fb :: _ =>
      if fb <? 0x80 then Ok (i64 (Z.shiftr (i8 (u8 (Z.shiftl fb 1))) 1), 1) else loop
  | [] => loop
  end.

Definition int64OverflowCheck (finalByte bytesRead ret : Z) : bool :=
  if maxVarintLen64 <? bytesRead then true
  else if bytesRead =? maxVarintLen64 then
    let unusedBits := 0x3e in
    let unused := Z.land finalByte unusedBits in
    let want := if ret <? 0 then unusedBits else 0 in
    negb (unused =? want)
  else false.

Fixpoint DecodeInt64_loop (r : list Z) (shift bytesRead ret : Z)
    : leb_result * list Z :=
  match r with
  | [] => (Err ErrEOF, [])
  | b :: r =>
      let ret := Z.lor ret (i64 (Z.shiftl (Z.land b 0x7f) shift)) in
      let shift := shift + 7 in
      let bytesRead := u64 (bytesRead + 1) in
      if Z.land b 0x80 =? 0 then
        let ret :=
          if (shift <? 64) && (Z.land b int64Mask3 =? int64Mask3)
          then Z.lor ret (i64 (Z.shiftl int64Mask4 shift)) else ret in
        if int64OverflowCheck b bytesRead ret then (Err ErrOverflow64, r)
        else (Ok (ret, bytesRead), r)
      else DecodeInt64_loop r shift bytesRead ret
  end.

Definition DecodeInt64 (r : list Z) : leb_result * list Z :=
  DecodeInt64_loop r 0 0 0.

Fixpoint LoadInt64_loop (fuel : nat) (buf : list Z) (i shift ret : Z) : leb_result :=
  match fuel with
  | O => NoFuel
  | S fuel =>
      match buf !! Z.to_nat i with
      | None => Err ErrEOF
      | Some b =>
          let ret := Z.lor ret (i64 (Z.shiftl (Z.land b 0x7f) shift)) in
          let shift := shift + 7 in
          if Z.land b 0x80 =? 0 then
            let bytesRead := u64 (i + 1) in
            let ret :=
              if (shift <? 64) && (Z.land b int64Mask3 =? int64Mask3)
              then Z.lor ret (i64 (Z.shiftl int64Mask4 shift)) else ret in
            if int64OverflowCheck b bytesRead ret then Err ErrOverflow64
            else Ok (ret, bytesRead)
          else LoadInt64_loop fuel buf (i + 1) shift ret
      end
  end.

Definition LoadInt64 (buf : list Z) : leb_result :=
  let loop := LoadInt64_loop (S (length buf)) buf 0 0 0 in
  match buf with
  | b :: _ =>
      if b <? 0x80 then Ok (i64 (Z.shiftr (i8 (u8 (Z.shiftl b 1))) 1), 1) else loop
  | [] => loop
  end.

(** * Reference semantics *)

(** The number of an unsigned sequence: seven bits per byte, least significant
    group first. *)
Fixpoint uleb (bs : list Z) : Z :=
  match bs with
  | [] => 0
  | b :: bs => b `mod` 128 + 128 * uleb bs
  end.

Definition last_byte (bs : list Z) : Z := default 0 (list.last bs).

(** The number of a signed sequence: bit 6 of the last byte is the sign. *)
Definition sleb (bs : list Z) : Z :=
  if Z.testbit (last_byte bs) 6 then uleb bs - 2 ^ (7 * Z.of_nat (length bs)) else uleb bs.

(** The length of the first terminated sequence at the head of [bs]. *)
Fixpoint terminator (bs : list Z) : option nat :=
  match bs with
  | [] => None
  | b :: bs => if b <? 128 then Some 1%nat else S <$> terminator bs
  end.

(** The reference decoders: at most [maxlen] bytes, and the number must be in
    the range of the [w]-bit type. *)
Definition uleb_ref (maxlen : nat) (w : Z) (e : leb_error) (buf : list Z) : leb_result :=
  match terminator (take maxlen buf) with
  | Some n =>
      let v := uleb (take n buf) in
      if v <? 2 ^ w then Ok (v, Z.of_nat n) else Err e
  | None => if (length buf <? maxlen)%nat then Err ErrEOF else Err e
  end.

Definition sleb_ref (maxlen : nat) (w : Z) (e : leb_error) (buf : list Z) : leb_result :=
  match terminator buf with
  | Some n =>
      let v := sleb (take n buf) in
      if (maxlen <? n)%nat then Err e
      else if (- 2 ^ (w - 1) <=? v) && (v <? 2 ^ (w - 1)) then Ok (v, Z.of_nat n)
      else Err e
  | None => Err ErrEOF
  end.

Lemma uleb_bound bs : 0 ≤ uleb bs < 2 ^ (7 * Z.of_nat (length bs)).
Proof.
  induction bs as [|b bs IH]; cbn [uleb length]; [done|].
  rewrite Nat2Z.inj_succ, Z.mul_succ_r, Z.add_comm, Z.pow_add_r by lia.
  pose proof (Z.mod_pos_bound b 128). change (2 ^ 7) with 128. nia.
Qed.

Lemma uleb_snoc bs b :
  uleb (bs ++ [b]) = uleb bs + b `mod` 128 * 2 ^ (7 * Z.of_nat (length bs)).
Proof.
  induction bs as [|c bs IH]; cbn [uleb length app]; [simpl; lia|].
  rewrite IH, Nat2Z.inj_succ, Z.mul_succ_r, (Z.add_comm _ 7), Z.pow_add_r by lia.
  change (2 ^ 7) with 128. lia.
Qed.

Lemma sleb_snoc bs b :
  is_byte b → b < 128 →
  sleb (bs ++ [b]) = uleb bs + i8 (2 * b) `div` 2 * 2 ^ (7 * Z.of_nat (length bs)).
Proof.
  intros Hb Hlt. unfold sleb, last_byte. rewrite last_snoc, uleb_snoc, length_app. cbn [default length].
  replace (7 * Z.of_nat (length bs + 1)) with (7 * Z.of_nat (length bs) + 7) by lia.
  rewrite Z.pow_add_r by lia. change (2 ^ 7) with 128.
  assert (i8 (2 * b) `div` 2 = b `mod` 128 - (if Z.testbit b 6 then 128 else 0)) as ->.
  { apply Z.eqb_eq. assert (implb (b <? 128) (i8 (2 * b) `div` 2 =?
      b `mod` 128 - (if Z.testbit b 6 then 128 else 0)) = true) as H by byte_solve b.
    rewrite (proj2 (Z.ltb_lt b 128) Hlt) in H. exact H. }
  unfold id. destruct (Z.testbit b 6); lia.
Qed.

(** A byte with the continuation bit set. *)
Definition is_cont (b : Z) : Prop := 128 ≤ b < 256.

Lemma land_7f b : Z.land b 0x7f = b `mod` 128.
Proof. apply (land_ones_mod b 7). lia. Qed.

Lemma land_80 b : is_byte b → (Z.land b 0x80 =? 0) = (b <? 128).
Proof. intros Hb. byte_solve b. Qed.

(** ** The unsigned loop

    Both widths run the same loop; the section abstracts over it through its
    one-step equations. *)
Section unsigned_loop.
Context (w : Z) (maxlen : nat) (err : leb_error) (bad : Z → bool).
Context (loop : nat → list Z → Z → Z → Z → leb_result).
Context (Hw : 7 * (Z.of_nat maxlen - 1) < w ≤ 7 * Z.of_nat maxlen ∧ 32 ≤ w ∧ (0 < maxlen ≤ 10)%nat).
Context (bad_spec : ∀ b, is_byte b → b < 128 →
           bad b = negb (b <? 2 ^ (w - 7 * (Z.of_nat maxlen - 1)))).
Context (loop_0 : ∀ buf i s ret, loop 0 buf i s ret = Err err).
Context (loop_S : ∀ n buf i s ret, loop (S n) buf i s ret =
    match buf !! Z.to_nat i with
    | None => Err ErrEOF
    | Some b =>
        if b <? 0x80 then
          if (i =? Z.of_nat maxlen - 1) && bad b then Err err
          else Ok (Z.lor ret (wrap w (Z.shiftl b s)), u64 (i + 1))
        else loop n buf (i + 1) (wrap w (s + 7))
               (Z.lor ret (wrap w (Z.shiftl (Z.land b 0x7f) s)))
    end).

(** Or-ing in the next seven bits computes the number of one more byte. *)
Lemma unsigned_step pre b k s :
  k = Z.of_nat (length pre) → s = 7 * k →
  b `mod` 128 * 2 ^ s < 2 ^ w →
  Z.lor (uleb pre) (wrap w (Z.shiftl (b `mod` 128) s)) = uleb (pre ++ [b]).
Proof.
  intros -> -> Hlt. pose proof (Z.mod_pos_bound b 128 ltac:(lia)).
  pose proof (pow2_pos (7 * Z.of_nat (length pre)) ltac:(lia)).
  rewrite uleb_snoc, wrap_small by (rewrite Z.shiftl_mul_pow2 by lia; nia).
  apply lor_shiftl_add; [lia|]. apply uleb_bound.
Qed.

Lemma unsigned_loop_spec n pre rest k s :
  Forall is_byte rest → (length pre + n = maxlen)%nat →
  k = Z.of_nat (length pre) → s = 7 * k →
  loop n (pre ++ rest) k s (uleb pre) =
    match terminator (take n rest) with
    | Some j =>
        let v := uleb (pre ++ take j rest) in
        if v <? 2 ^ w then Ok (v, k + Z.of_nat j) else Err err
    | None => if (length rest <? n)%nat then Err ErrEOF else Err err
    end.
Proof using Hw bad_spec loop_0 loop_S.
  revert pre rest k s; induction n as [|n IH]; intros pre rest k s Hrest Hn Hk Hs.
  { rewrite loop_0. cbn. destruct (Nat.ltb_spec (length rest) 0); [lia|done]. }
  rewrite loop_S. destruct rest as [|b rest]; [by rewrite lookup_pre_nil|].
  rewrite lookup_pre_cons by done. inversion_clear Hrest as [|?? Hb Hrest'].
  assert (0 ≤ b < 256) as Hb' by exact Hb.
  cbn [take terminator]. destruct (Z.ltb_spec b 0x80) as [Hlt|Hge].
  - cbn [firstn take]. assert (b `mod` 128 = b) as Hm by (apply Z.mod_small; lia).
    destruct (Z.eqb_spec k (Z.of_nat maxlen - 1)) as [Hlast|Hnl]; cbn [andb].
    + rewrite bad_spec by done. rewrite uleb_snoc, Hm.
      pose proof (uleb_bound pre) as Hu.
      replace (7 * Z.of_nat (length pre)) with (7 * (Z.of_nat maxlen - 1)) in * by lia.
      set (p := 2 ^ (7 * (Z.of_nat maxlen - 1))) in *.
      assert (2 ^ w = 2 ^ (w - 7 * (Z.of_nat maxlen - 1)) * p) as Ew
        by (unfold p; rewrite <- Z.pow_add_r by lia; f_equal; lia).
      destruct (Z.ltb_spec b (2 ^ (w - 7 * (Z.of_nat maxlen - 1)))) as [Hs1|Hs1]; cbn [negb].
      * rewrite (proj2 (Z.ltb_lt _ _)) by nia. f_equal. f_equal.
        -- rewrite <- Hm at 1. rewrite unsigned_step with (k := k); try done.
           ++ rewrite uleb_snoc, Hm. unfold p. do 3 f_equal. lia.
           ++ rewrite Hm, Hs, Hk.
              replace (7 * Z.of_nat (length pre)) with (7 * (Z.of_nat maxlen - 1)) by lia.
              fold p. nia.
        -- rewrite wrap_small by lia. lia.
      * rewrite (proj2 (Z.ltb_ge _ _)) by nia. done.
    + assert (b `mod` 128 * 2 ^ s < 2 ^ w) as Hfit.
      { apply (Z.lt_le_trans _ (2 ^ (7 + s))).
        - rewrite Z.pow_add_r by lia. change (2 ^ 7) with 128.
          pose proof (pow2_pos s ltac:(lia)). nia.
        - apply Z.pow_le_mono_r; lia. }
      rewrite <- Hm at 1. rewrite unsigned_step with (k := k) by done.
      pose proof (uleb_bound (pre ++ [b])) as Hu. rewrite length_app in Hu. cbn [length] in Hu.
      rewrite (proj2 (Z.ltb_lt (uleb _) _)).
      2:{ eapply Z.lt_le_trans; [apply Hu|]. apply Z.pow_le_mono_r; lia. }
      rewrite wrap_small by lia. done.
  - rewrite land_7f. destruct n as [|n].
    { rewrite loop_0. cbn. destruct (Nat.ltb_spec (S (length rest)) 1); [lia|done]. }
    rewrite unsigned_step with (k := k); try done.
    2:{ apply (Z.lt_le_trans _ (2 ^ (7 + s))).
        - rewrite Z.pow_add_r by lia. change (2 ^ 7) with 128.
          pose proof (pow2_pos s ltac:(lia)). pose proof (Z.mod_pos_bound b 128). nia.
        - apply Z.pow_le_mono_r; lia. }
    assert (64 < 2 ^ w ∧ 100 < 2 ^ w) as [? ?].
    { pose proof (Z.pow_le_mono_r 2 32 w). lia. }
    rewrite wrap_small by lia.
    rewrite (cons_middle b pre rest), app_assoc.
    rewrite (IH (pre ++ [b]) rest); try (rewrite ?length_app; cbn [length]; lia || done).
    destruct (terminator (take (S n) rest)) as [j|]; cbn [fmap option_fmap option_map].
    + cbn [firstn take]. rewrite <- app_assoc. cbn [app].
      destruct (_ <? _); [|done]. do 2 f_equal. lia.
    + cbn [length]. destruct (Nat.ltb_spec (length rest) (S n)), (Nat.ltb_spec (S (length rest)) (S (S n)));
        lia || done.
Qed.
End unsigned_loop.

Lemma LoadUint32_loop_ref buf :
  Forall is_byte buf →
  LoadUint32_loop 5 buf 0 0 0 = uleb_ref 5 32 ErrOverflow32 buf.
Proof.
  intros Hbuf.
  refine (unsigned_loop_spec 32 5 ErrOverflow32 (λ b, 0 <? Z.land b 0xf0) LoadUint32_loop
    _ _ _ _ 5 [] buf 0 0 Hbuf _ _ _); try done; try lia.
  intros b Hb Hlt. assert (implb (b <? 128) (Bool.eqb (0 <? Z.land b 240) (negb (b <? 16))) = true)
    as H by byte_solve b.
  rewrite (proj2 (Z.ltb_lt b 128) Hlt) in H. apply Bool.eqb_prop in H. exact H.
Qed.

Lemma LoadUint64_loop_ref buf :
  Forall is_byte buf →
  LoadUint64_loop 10 buf 0 0 0 = uleb_ref 10 64 ErrOverflow64 buf.
Proof.
  intros Hbuf.
  refine (unsigned_loop_spec 64 10 ErrOverflow64 (λ b, 1 <? b) LoadUint64_loop
    _ _ _ _ 10 [] buf 0 0 Hbuf _ _ _); try done; try lia.
  intros b Hb Hlt. change (2 ^ (64 - 7 * (Z.of_nat 10 - 1))) with 2.
  destruct (Z.ltb_spec 1 b), (Z.ltb_spec b 2); lia || done.
Qed.

Lemma uleb_ref_one maxlen w e b rest :
  (0 < maxlen)%nat → 7 ≤ w → is_byte b → b < 128 →
  uleb_ref maxlen w e (b :: rest) = Ok (b, 1).
Proof.
  intros Hm Hw Hb Hlt. unfold uleb_ref. destruct maxlen as [|m]; [lia|]. cbn [take terminator].
  rewrite (proj2 (Z.ltb_lt b 128)) by lia. cbn [uleb take]. unfold is_byte in Hb.
  rewrite Z.mod_small by lia.
  assert (2 ^ 7 ≤ 2 ^ w) by (apply Z.pow_le_mono_r; lia). change (2 ^ 7) with 128 in *.
  rewrite (proj2 (Z.ltb_lt (b + 128 * 0) _)) by lia. rewrite Z.mul_0_r, Z.add_0_r. done.
Qed.

Lemma LoadUint32_ref buf :
  Forall is_byte buf → LoadUint32 buf = uleb_ref 5 32 ErrOverflow32 buf.
Proof.
  intros Hbuf. unfold LoadUint32. destruct buf as [|b buf]; [done|].
  destruct (Z.ltb_spec b 0x80); [|by apply LoadUint32_loop_ref].
  inversion Hbuf; subst. symmetry. apply uleb_ref_one; lia || done.
Qed.

Lemma LoadUint64_ref buf :
  Forall is_byte buf → LoadUint64 buf = uleb_ref 10 64 ErrOverflow64 buf.
Proof.
  intros Hbuf. unfold LoadUint64. destruct buf as [|b buf]; [done|].
  destruct (Z.ltb_spec b 0x80); [|by apply LoadUint64_loop_ref].
  inversion Hbuf; subst. symmetry. apply uleb_ref_one; lia || done.
Qed.

(** ** The signed loop *)

(** Whether a sequence of exactly [maxlen] bytes repeats in bit 6 of its last
    byte (the sign) the bit below it. *)
Definition sign_bits_agree (maxlen : nat) (buf : list Z) : bool :=
  match terminator buf with
  | Some n =>
      if (n =? maxlen)%nat
      then Bool.eqb (Z.testbit (last_byte (take n buf)) 6) (Z.testbit (last_byte (take n buf)) 5)
      else true
  | None => true
  end.

(** What the decoders make of the last byte a signed encoding may have: its
    sign bit, bit 6, is taken from the bit below it. *)
Definition settle (b : Z) : Z :=
  if b <? 128 then (if Z.testbit b 5 then Z.lor b 0x40 else Z.land b 0x3f) else b.

(** [buf] with the byte at place [maxlen], if the sequence gets that far,
    replaced by [f] of it. *)
Fixpoint mend (f : Z → Z) (maxlen : nat) (buf : list Z) : list Z :=
  match buf with
  | [] => []
  | b :: rest =>
      match maxlen with
      | O => buf
      | S O => f b :: rest
      | S n => if b <? 128 then buf else b :: mend f n rest
      end
  end.

Lemma mend_cons f n b buf :
  mend f (S (S n)) (b :: buf) = if b <? 128 then b :: buf else b :: mend f (S n) buf.
Proof. done. Qed.

Lemma length_mend f n buf : length (mend f n buf) = length buf.
Proof.
  revert n; induction buf as [|b buf IH]; intros [|[|n]]; try done.
  rewrite mend_cons. destruct (b <? 128); [done|]. cbn [length]. by rewrite IH.
Qed.

Lemma mend_bytes f n buf :
  (∀ b, is_byte b → is_byte (f b)) → Forall is_byte buf → Forall is_byte (mend f n buf).
Proof.
  intros Hf Hb. revert n; induction Hb as [|b buf Hb Hbuf IH]; intros [|[|n]]; try by constructor.
  - constructor; auto.
  - rewrite mend_cons. destruct (b <? 128); constructor; auto.
Qed.

Lemma settle_byte b : is_byte b → is_byte (settle b).
Proof.
  intros Hb. assert ((0 <=? settle b) && (settle b <? 256) = true) as H by byte_solve b.
  unfold is_byte. lia.
Qed.

Lemma terminator_app_cont pre rest :
  Forall is_cont pre → terminator (pre ++ rest) = (λ n, length pre + n)%nat <$> terminator rest.
Proof.
  induction 1 as [|b pre Hb _ IH]; cbn [app terminator length]; [by destruct (terminator rest)|].
  unfold is_cont in Hb. rewrite (proj2 (Z.ltb_ge b 128)) by lia. rewrite IH.
  by destruct (terminator rest).
Qed.

Lemma terminator_pre_last pre b rest :
  Forall is_cont pre → b < 128 →
  terminator (pre ++ b :: rest) = Some (length (pre ++ [b])) ∧
  take (length (pre ++ [b])) (pre ++ b :: rest) = pre ++ [b].
Proof.
  intros Hpre Hb. split.
  - rewrite terminator_app_cont by done. cbn [terminator].
    rewrite (proj2 (Z.ltb_lt b 128)) by lia. rewrite length_app. done.
  - rewrite (cons_middle b pre rest), app_assoc. by rewrite take_app_length.
Qed.

(** The signed value of the seven low bits of a final byte. *)
Definition sbits (b : Z) : Z := i8 (2 * b) `div` 2.

Section signed_loop.
Context (w : Z) (maxlen : nat) (err : leb_error) (mask : Z).
Context (sgn : Z → bool) (chk : Z → Z → Z → bool).
Context (loop : nat → list Z → Z → Z → Z → leb_result).
Let m := 7 * (Z.of_nat maxlen - 1).
Context (Hw : m < w < 7 * Z.of_nat maxlen ∧ 32 ≤ w ∧ (0 < maxlen ≤ 10)%nat).
Context (sgn_spec : ∀ b, is_byte b → sgn b = Z.testbit b 6).
Context (chk_spec : ∀ b n ret, chk b n ret =
    if Z.of_nat maxlen <? n then true
    else if n =? Z.of_nat maxlen then
      negb (Z.land b mask =? (if ret <? 0 then mask else 0))
    else false).
Context (mask_spec : ∀ b, is_byte b → b < 128 → Z.testbit b 6 = Z.testbit b 5 →
    (Z.land b mask =? (if Z.testbit (sbits b) (w - 1 - m) then mask else 0)) =
    (- 2 ^ (w - 1 - m) <=? sbits b) && (sbits b <? 2 ^ (w - 1 - m))).
Context (loop_S : ∀ fuel buf i shift ret, loop (S fuel) buf i shift ret =
    match buf !! Z.to_nat i with
    | None => Err ErrEOF
    | Some b =>
        let ret := Z.lor ret (swrap w (Z.shiftl (Z.land b 0x7f) shift)) in
        if Z.land b 0x80 =? 0 then
          let ret :=
            if (shift + 7 <? w) && sgn b
            then Z.lor ret (swrap w (Z.shiftl (-1) (shift + 7))) else ret in
          if chk b (u64 (i + 1)) ret then Err err else Ok (ret, u64 (i + 1))
        else loop fuel buf (i + 1) (shift + 7) ret
    end).

Lemma signed_acc pre b :
  Z.lor (swrap w (uleb pre)) (swrap w (Z.shiftl (b `mod` 128) (7 * Z.of_nat (length pre)))) =
  swrap w (uleb (pre ++ [b])).
Proof using Hw.
  rewrite swrap_lor by lia. f_equal.
  rewrite lor_shiftl_add, uleb_snoc by (lia || apply uleb_bound). done.
Qed.

(** Sign extension completes the number, whatever the length. *)
Lemma signed_ext bs :
  swrap w (sleb bs) =
    if (7 * Z.of_nat (length bs) <? w) && Z.testbit (last_byte bs) 6
    then Z.lor (swrap w (uleb bs)) (swrap w (Z.shiftl (-1) (7 * Z.of_nat (length bs))))
    else swrap w (uleb bs).
Proof using Hw.
  unfold sleb. destruct (Z.testbit (last_byte bs) 6); [|by rewrite andb_false_r].
  rewrite andb_true_r. destruct (Z.ltb_spec (7 * Z.of_nat (length bs)) w).
  - rewrite swrap_lor, lor_shiftl_add by (lia || apply uleb_bound). f_equal; lia.
  - apply swrap_eq; [lia|].
    replace (7 * Z.of_nat (length bs)) with (7 * Z.of_nat (length bs) - w + w) by lia.
    rewrite Z.pow_add_r by lia.
    rewrite <- Z.add_opp_r, <- Z.mul_opp_l, Z.mod_add;
      [done|pose proof (pow2_pos w); lia].
Qed.

(** The final check: with the sign bits agreeing, it is the range test. *)
Lemma signed_check pre b :
  is_byte b → b < 128 →
  (length (pre ++ [b]) = maxlen → Z.testbit b 6 = Z.testbit b 5) →
  let bs := pre ++ [b] in
  chk b (Z.of_nat (length bs)) (swrap w (sleb bs)) =
    (maxlen <? length bs)%nat ||
    negb ((- 2 ^ (w - 1) <=? sleb bs) && (sleb bs <? 2 ^ (w - 1))).
Proof using Hw chk_spec mask_spec.
  intros Hb Hlt Hagree bs. rewrite chk_spec.
  assert (length bs = S (length pre)) as Hl by (unfold bs; rewrite length_app; cbn; lia).
  assert (sleb bs = uleb pre + sbits b * 2 ^ (7 * Z.of_nat (length pre))) as Es
    by (apply sleb_snoc; done).
  pose proof (uleb_bound pre) as Hu.
  destruct (Nat.ltb_spec maxlen (length bs)) as [Hgt|Hle].
  { rewrite (proj2 (Z.ltb_lt _ _)) by lia. done. }
  rewrite (proj2 (Z.ltb_ge _ _)) by lia. cbn [orb].
  destruct (Z.eqb_spec (Z.of_nat (length bs)) (Z.of_nat maxlen)) as [He|Hne].
  - rewrite swrap_neg by lia.
    replace (7 * Z.of_nat (length pre)) with m in * by lia.
    rewrite Es. replace (w - 1) with (m + (w - 1 - m)) at 1 by lia.
    rewrite testbit_add_high, mask_spec by (lia || done || (apply Hagree; fold bs; lia)). f_equal.
    set (p := 2 ^ m) in *. set (q := 2 ^ (w - 1 - m)).
    assert (2 ^ (w - 1) = q * p) as ->
      by (unfold p, q; rewrite <- Z.pow_add_r by lia; f_equal; lia).
    f_equal; apply eq_true_iff_eq; rewrite ?Z.leb_le, ?Z.ltb_lt; nia.
  - assert (2 ^ (7 * Z.of_nat (length pre) + 6) ≤ 2 ^ (w - 1)) as Hp
      by (apply Z.pow_le_mono_r; lia).
    rewrite Z.pow_add_r in Hp by lia. change (2 ^ 6) with 64 in Hp.
    assert (-64 ≤ sbits b < 64).
    { unfold sbits. pose proof (swrap_range 8 (2 * b) ltac:(lia)) as Hr. change (2 ^ (8 - 1)) with 128 in Hr.
      split; [apply Z.div_le_lower_bound|apply Z.div_lt_upper_bound]; lia. }
    rewrite (proj2 (Z.leb_le _ _)), (proj2 (Z.ltb_lt _ _)) by nia. done.
Qed.

Lemma signed_loop_spec fuel pre rest :
  Forall is_cont pre → Forall is_byte rest → (length rest < fuel)%nat →
  Z.of_nat (length (pre ++ rest)) < 2 ^ 64 - 1 →
  sign_bits_agree maxlen (pre ++ rest) = true →
  loop fuel (pre ++ rest) (Z.of_nat (length pre)) (7 * Z.of_nat (length pre)) (swrap w (uleb pre)) =
  sleb_ref maxlen w err (pre ++ rest).
Proof using Hw sgn_spec chk_spec mask_spec loop_S.
  revert pre rest; induction fuel as [|fuel IH]; intros pre rest Hpre Hrest Hf H64 Hagree; [lia|].
  rewrite loop_S. destruct rest as [|b rest].
  { rewrite lookup_pre_nil by done. unfold sleb_ref.
    by rewrite terminator_app_cont. }
  inversion_clear Hrest as [|?? Hb Hrest']. rewrite lookup_pre_cons by done.
  cbn zeta. rewrite land_7f, land_80, sgn_spec, signed_acc by done.
  assert (length (pre ++ [b]) = S (length pre)) as Hl by (rewrite length_app; cbn; lia).
  rewrite length_app in H64; cbn [length] in H64.
  destruct (Z.ltb_spec b 128) as [Hlt|Hge].
  - destruct (terminator_pre_last pre b rest Hpre Hlt) as [Ht Htk].
    unfold sign_bits_agree in Hagree. unfold sleb_ref. rewrite Ht, Htk in *.
    assert (last_byte (pre ++ [b]) = b) as Hlb by (unfold last_byte; by rewrite last_snoc).
    rewrite Hlb in Hagree.
    pose proof (signed_ext (pre ++ [b])) as Hext. rewrite Hlb, Hl in Hext.
    replace (7 * Z.of_nat (length pre) + 7) with (7 * Z.of_nat (S (length pre))) by lia.
    rewrite <- Hext. rewrite wrap_small by lia.
    replace (Z.of_nat (length pre) + 1) with (Z.of_nat (length (pre ++ [b]))) by lia.
    rewrite signed_check; try done.
    2:{ intros He. rewrite (proj2 (Nat.eqb_eq _ _) He) in Hagree. by apply Bool.eqb_prop in Hagree. }
    destruct (maxlen <? length (pre ++ [b]))%nat; cbn [orb]; [done|].
    destruct (Z.leb_spec (- 2 ^ (w - 1)) (sleb (pre ++ [b]))),
      (Z.ltb_spec (sleb (pre ++ [b])) (2 ^ (w - 1))); cbn [andb negb]; try done.
    by rewrite swrap_small by lia.
  - rewrite (cons_middle b pre rest), app_assoc in *.
    replace (Z.of_nat (length pre) + 1) with (Z.of_nat (length (pre ++ [b]))) by lia.
    replace (7 * Z.of_nat (length pre) + 7) with (7 * Z.of_nat (length (pre ++ [b]))) by lia.
    apply IH; try done; [|cbn in Hf; lia|rewrite length_app; lia].
    apply Forall_app; split; [done|]. constructor; [|constructor]. unfold is_cont, is_byte in *. lia.
Qed.

Lemma settle_shifted b s :
  is_byte b → 0 ≤ s → w ≤ s + 6 →
  swrap w (Z.shiftl (Z.land (settle b) 0x7f) s) = swrap w (Z.shiftl (Z.land b 0x7f) s).
Proof using Hw.
  intros Hb Hs Hws. apply swrap_eq; [lia|]. rewrite !Z.shiftl_mul_pow2 by lia.
  assert (Z.land (settle b) 0x7f `mod` 64 = Z.land b 0x7f `mod` 64) as He.
  { apply Z.eqb_eq. byte_solve b. }
  replace s with (w - 6 + (s + 6 - w)) by lia. rewrite Z.pow_add_r, !Z.mul_assoc by lia.
  rewrite <- (Z.mul_mod_idemp_l _ _ (2 ^ w)), <- (Z.mul_mod_idemp_l (_ * 2 ^ (w - 6)) _ (2 ^ w))
    by (pose proof (pow2_pos w); lia).
  f_equal. f_equal. replace w with (6 + (w - 6)) at 2 4 by lia. rewrite (Z.pow_add_r 2 6) by lia.
  pose proof (pow2_pos (w - 6) ltac:(lia)).
  change (2 ^ 6) with 64.
  rewrite !Z.mul_mod_distr_r by lia. by rewrite He.
Qed.

(** Bit 6 of the last byte a signed encoding may have is not looked at: it is
    shifted out, and the final check does not read it. *)
Lemma signed_loop_mend fuel n pre rest ret :
  (∀ b, is_byte b → Z.land (settle b) mask = Z.land b mask) → w ≤ m + 6 →
  Forall is_byte rest → (length rest < fuel)%nat → (length pre + n = maxlen)%nat → (0 < n)%nat →
  loop fuel (pre ++ rest) (Z.of_nat (length pre)) (7 * Z.of_nat (length pre)) ret =
  loop fuel (pre ++ mend settle n rest) (Z.of_nat (length pre)) (7 * Z.of_nat (length pre)) ret.
Proof using Hw chk_spec loop_S.
  intros Hmask Hwm Hrest. revert n pre rest ret Hrest.
  induction fuel as [|fuel IH]; intros n pre rest ret Hrest Hf Hn Hpos; [lia|].
  destruct rest as [|b rest]; [by destruct n as [|[|n]]|]. inversion_clear Hrest as [|?? Hb Hrest'].
  destruct n as [|[|n]]; [lia| |].
  - cbn [mend]. destruct (Z.ltb_spec b 128) as [Hlt|Hge].
    2:{ unfold settle. by rewrite (proj2 (Z.ltb_ge b 128)) by lia. }
    pose proof (settle_byte b Hb) as Hsb. rewrite !loop_S, !lookup_pre_cons by done. cbn zeta.
    rewrite (settle_shifted b) by (done || lia).
    assert ((Z.land (settle b) 0x80 =? 0) = (Z.land b 0x80 =? 0)) as -> by byte_solve b.
    assert ((Z.land b 0x80 =? 0) = true) as -> by byte_solve_lt b.
    rewrite (proj2 (Z.ltb_ge (7 * _ + 7) w)) by lia. cbn [andb].
    rewrite !chk_spec, Hmask by done. done.
  - rewrite mend_cons. destruct (Z.ltb_spec b 128) as [Hlt|Hge]; [done|].
    rewrite !loop_S, !lookup_pre_cons by done. cbn zeta.
    rewrite land_80, (proj2 (Z.ltb_ge b 128)) by (lia || done).
    rewrite (cons_middle b pre rest), (cons_middle b pre (mend _ _ _)), !app_assoc.
    assert (length (pre ++ [b]) = S (length pre)) as Hl by (rewrite length_app; cbn; lia).
    replace (Z.of_nat (length pre) + 1) with (Z.of_nat (length (pre ++ [b]))) by lia.
    replace (7 * Z.of_nat (length pre) + 7) with (7 * Z.of_nat (length (pre ++ [b]))) by lia.
    apply IH; cbn in Hf; done || lia.
Qed.
End signed_loop.

Lemma sleb_ref_one maxlen w e b rest :
  (0 < maxlen)%nat → 7 ≤ w → is_byte b → b < 128 →
  sleb_ref maxlen w e (b :: rest) = Ok (sbits b, 1).
Proof.
  intros Hm Hw Hb Hlt. unfold sleb_ref. cbn [terminator].
  rewrite (proj2 (Z.ltb_lt b 128)) by lia.
  destruct (Nat.ltb_spec maxlen 1); [lia|].
  assert (sleb (take 1 (b :: rest)) = 0 + i8 (2 * b) `div` 2 * 2 ^ (7 * Z.of_nat 0)) as ->
    by exact (sleb_snoc [] b Hb Hlt).
  change (2 ^ (7 * Z.of_nat 0)) with 1. rewrite Z.add_0_l, Z.mul_1_r. fold (sbits b).
  assert (-64 ≤ sbits b < 64).
  { unfold sbits. pose proof (swrap_range 8 (2 * b) ltac:(lia)) as Hr.
    change (2 ^ (8 - 1)) with 128 in Hr.
    split; [apply Z.div_le_lower_bound|apply Z.div_lt_upper_bound]; lia. }
  assert (2 ^ 6 ≤ 2 ^ (w - 1)) by (apply Z.pow_le_mono_r; lia). change (2 ^ 6) with 64 in *.
  rewrite (proj2 (Z.leb_le _ _)), (proj2 (Z.ltb_lt _ _)) by lia. done.
Qed.

(** The one-byte fast path sign-extends the seven bits. *)
Lemma fast_sign_extend w b :
  is_byte b → 7 ≤ w → swrap w (Z.shiftr (i8 (u8 (Z.shiftl b 1))) 1) = sbits b.
Proof.
  intros Hb Hw. assert (Z.shiftr (i8 (u8 (Z.shiftl b 1))) 1 = sbits b) as ->.
  { apply Z.eqb_eq. unfold sbits. byte_solve b. }
  assert (-64 ≤ sbits b < 64).
  { unfold sbits. pose proof (swrap_range 8 (2 * b) ltac:(lia)) as Hr.
    change (2 ^ (8 - 1)) with 128 in Hr.
    split; [apply Z.div_le_lower_bound|apply Z.div_lt_upper_bound]; lia. }
  assert (2 ^ 6 ≤ 2 ^ (w - 1)) by (apply Z.pow_le_mono_r; lia). change (2 ^ 6) with 64 in *.
  apply swrap_small; lia.
Qed.

(** [leb_enum b]: an implication between facts on the byte [b], by
    enumeration. *)
Lemma byte_impl (P Q : Z → bool) :
  forallb (λ b, implb (P b) (Q b)) (seqZ 0 256) = true →
  ∀ b, is_byte b → P b = true → Q b = true.
Proof.
  intros H b Hb HP. pose proof (byte_forall _ H b Hb) as HQ. cbn in HQ. by rewrite HP in HQ.
Qed.

Lemma mask_spec_enum mask r :
  forallb (λ b, implb ((b <? 128) && Bool.eqb (Z.testbit b 6) (Z.testbit b 5))
    (Bool.eqb (Z.land b mask =? (if Z.testbit (sbits b) r then mask else 0))
       ((- 2 ^ r <=? sbits b) && (sbits b <? 2 ^ r)))) (seqZ 0 256) = true →
  ∀ b, is_byte b → b < 128 → Z.testbit b 6 = Z.testbit b 5 →
  (Z.land b mask =? (if Z.testbit (sbits b) r then mask else 0)) =
  (- 2 ^ r <=? sbits b) && (sbits b <? 2 ^ r).
Proof.
  intros H b Hb Hlt E. apply Bool.eqb_prop.
  apply (byte_impl (λ b, (b <? 128) && Bool.eqb (Z.testbit b 6) (Z.testbit b 5)) _ H b Hb).
  rewrite (proj2 (Z.ltb_lt b 128) Hlt), E. apply Bool.eqb_reflx.
Qed.

Lemma LoadInt32_ref buf :
  Forall is_byte buf → Z.of_nat (length buf) < 2 ^ 64 - 1 →
  sign_bits_agree 5 buf = true →
  LoadInt32 buf = sleb_ref 5 32 ErrOverflow32 buf.
Proof.
  intros Hbuf H64 Hagree.
  assert (LoadInt32_loop (S (length buf)) buf 0 0 0 = sleb_ref 5 32 ErrOverflow32 buf) as Hloop.
  { refine (signed_loop_spec 32 5 ErrOverflow32 0x30 (λ b, negb (Z.land b 0x40 =? 0))
      int32OverflowCheck LoadInt32_loop _ _ _ _ _ (S (length buf)) [] buf _ Hbuf _ _ Hagree);
      try done; try lia.
    - intros b Hb. byte_solve b.
    - apply (mask_spec_enum 0x30 3). vm_compute. reflexivity. }
  unfold LoadInt32. destruct buf as [|b buf]; [done|].
  destruct (Z.ltb_spec b 0x80); [|done]. inversion Hbuf; subst.
  rewrite sleb_ref_one, fast_sign_extend by (lia || done). done.
Qed.

Lemma LoadInt64_ref buf :
  Forall is_byte buf → Z.of_nat (length buf) < 2 ^ 64 - 1 →
  sign_bits_agree 10 buf = true →
  LoadInt64 buf = sleb_ref 10 64 ErrOverflow64 buf.
Proof.
  intros Hbuf H64 Hagree.
  assert (LoadInt64_loop (S (length buf)) buf 0 0 0 = sleb_ref 10 64 ErrOverflow64 buf) as Hloop.
  { refine (signed_loop_spec 64 10 ErrOverflow64 0x3e (λ b, Z.land b int64Mask3 =? int64Mask3)
      int64OverflowCheck LoadInt64_loop _ _ _ _ _ (S (length buf)) [] buf _ Hbuf _ _ Hagree);
      try done; try lia.
    - intros b Hb. byte_solve b.
    - apply (mask_spec_enum 0x3e 0). vm_compute. reflexivity. }
  unfold LoadInt64. destruct buf as [|b buf]; [done|].
  destruct (Z.ltb_spec b 0x80); [|done]. inversion Hbuf; subst.
  rewrite sleb_ref_one, fast_sign_extend by (lia || done). done.
Qed.

Lemma implb_elim (p q : bool) : implb p q = true → p = true → q = true.
Proof. by destruct p, q. Qed.

(** A mended sequence agrees in its sign bits. *)
Lemma mend_agrees f n buf :
  (∀ b, is_byte b → f b < 128 → Z.testbit (f b) 6 = Z.testbit (f b) 5) →
  Forall is_byte buf → (0 < n)%nat → sign_bits_agree n (mend f n buf) = true.
Proof.
  intros Hf Hbuf Hn. unfold sign_bits_agree.
  destruct (terminator (mend f n buf)) as [k|] eqn:Ht; [|done].
  destruct (Nat.eqb_spec k n) as [->|]; [|done]. apply eqb_true_iff.
  revert n Hn Ht; induction Hbuf as [|b buf Hb Hbuf IH]; intros n Hn Ht.
  { by destruct n as [|[|n]]. }
  destruct n as [|[|n]]; [lia| |].
  - cbn [mend terminator] in *. destruct (Z.ltb_spec (f b) 128); [by apply Hf|].
    destruct (terminator buf) as [[|]|] eqn:E; cbn in Ht; [|done..].
    destruct buf as [|c buf]; [done|]. cbn in E. destruct (c <? 128); [done|].
    by destruct (terminator buf).
  - rewrite mend_cons in *. destruct (b <? 128) eqn:Hc; cbn [terminator] in Ht; rewrite Hc in Ht; [done|].
    destruct (terminator (mend f (S n) buf)) as [k|] eqn:E; [|done]. cbn in Ht. simplify_eq.
    specialize (IH (S n) ltac:(lia) E). unfold last_byte in *.
    destruct (mend f (S n) buf) as [|c l]; [done|]. exact IH.
Qed.

Lemma settle_agrees b : is_byte b → settle b < 128 → Z.testbit (settle b) 6 = Z.testbit (settle b) 5.
Proof.
  intros Hb Hlt. apply eqb_true_iff, (implb_elim (settle b <? 128)); [|by apply Z.ltb_lt].
  byte_solve b.
Qed.

Lemma mend_ready n buf :
  Forall is_byte buf → Z.of_nat (length buf) < 2 ^ 64 - 1 → (0 < n)%nat →
  Forall is_byte (mend settle n buf) ∧ Z.of_nat (length (mend settle n buf)) < 2 ^ 64 - 1 ∧
  sign_bits_agree n (mend settle n buf) = true.
Proof.
  intros Hb Hl Hn. rewrite length_mend.
  auto using mend_bytes, settle_byte, mend_agrees, settle_agrees.
Qed.

(** The 32- and 64-bit decoders, on any input. *)
Lemma LoadInt32_mend buf :
  Forall is_byte buf → Z.of_nat (length buf) < 2 ^ 64 - 1 →
  LoadInt32 buf = sleb_ref 5 32 ErrOverflow32 (mend settle 5 buf).
Proof.
  intros Hb Hl. destruct (mend_ready 5 buf Hb Hl ltac:(lia)) as (Hb' & Hl' & Ha).
  rewrite <- LoadInt32_ref by done. unfold LoadInt32.
  assert (LoadInt32_loop (S (length buf)) buf 0 0 0 =
    LoadInt32_loop (S (length buf)) (mend settle 5 buf) 0 0 0) as ->.
  { refine (signed_loop_mend 32 5 ErrOverflow32 0x30 (λ b, negb (Z.land b 0x40 =? 0))
      int32OverflowCheck LoadInt32_loop _ _ _ (S (length buf)) 5 [] buf 0 _ _ _ _ _ _); try done; try lia.
    intros b Hbb. apply Z.eqb_eq. byte_solve b. }
  rewrite length_mend. destruct buf as [|b buf]; [done|]. rewrite mend_cons.
  destruct (b <? 128) eqn:Hc; cbn iota; by rewrite Hc.
Qed.

Lemma LoadInt64_mend buf :
  Forall is_byte buf → Z.of_nat (length buf) < 2 ^ 64 - 1 →
  LoadInt64 buf = sleb_ref 10 64 ErrOverflow64 (mend settle 10 buf).
Proof.
  intros Hb Hl. destruct (mend_ready 10 buf Hb Hl ltac:(lia)) as (Hb' & Hl' & Ha).
  rewrite <- LoadInt64_ref by done. unfold LoadInt64.
  assert (LoadInt64_loop (S (length buf)) buf 0 0 0 =
    LoadInt64_loop (S (length buf)) (mend settle 10 buf) 0 0 0) as ->.
  { refine (signed_loop_mend 64 10 ErrOverflow64 0x3e (λ b, Z.land b int64Mask3 =? int64Mask3)
      int64OverflowCheck LoadInt64_loop _ _ _ (S (length buf)) 10 [] buf 0 _ _ _ _ _ _); try done; try lia.
    intros b Hbb. apply Z.eqb_eq. byte_solve b. }
  rewrite length_mend. destruct buf as [|b buf]; [done|]. rewrite mend_cons.
  destruct (b <? 128) eqn:Hc; cbn iota; by rewrite Hc.
Qed.

(** ** The 33-bit decoder *)

Lemma shl31_shr31 x : Z.shiftr (i64 (Z.shiftl x 31)) 31 = swrap 33 x.
Proof.
  apply Z.bits_inj'; intros i Hi.
  rewrite Z.shiftr_spec, !testbit_swrap, Z.shiftl_spec by lia. f_equal. lia.
Qed.

Lemma int33Finish_spec pre b :
  is_byte b → b < 128 → (length (pre ++ [b]) ≤ 5)%nat →
  (length (pre ++ [b]) = 5%nat → Z.testbit b 6 = Z.testbit b 5) →
  let bs := pre ++ [b] in
  int33Finish b (7 * Z.of_nat (length bs)) (Z.of_nat (length bs)) (uleb bs) =
    if (- 2 ^ 32 <=? sleb bs) && (sleb bs <? 2 ^ 32) then Ok (sleb bs, Z.of_nat (length bs))
    else Err ErrOverflow33.
Proof.
  intros Hb Hlt Hlen Hagree bs. unfold int33Finish. rewrite shl31_shr31.
  set (n := Z.of_nat (length bs)).
  assert (swrap 33 (if (7 * n <? 33) && (Z.land b int33Mask3 =? int33Mask3)
      then Z.lor (uleb bs) (i64 (Z.shiftl int33Mask4 (7 * n))) else uleb bs) = swrap 33 (sleb bs)) as ->.
  { assert (last_byte bs = b) as Hlb by (unfold bs, last_byte; by rewrite last_snoc).
    pose proof (signed_ext 33 5 ltac:(lia) bs) as ->. rewrite Hlb. fold n.
    assert ((Z.land b int33Mask3 =? int33Mask3) = Z.testbit b 6) as -> by byte_solve b.
    destruct ((7 * n <? 33) && Z.testbit b 6) eqn:Hc; [|done].
    apply andb_true_iff in Hc as [Hc _]. apply Z.ltb_lt in Hc.
    rewrite (swrap_small 64 (Z.shiftl int33Mask4 _)); [|lia|].
    2:{ rewrite Z.shiftl_mul_pow2 by lia. unfold int33Mask4.
        assert (2 ^ (7 * n) ≤ 2 ^ 28) by (apply Z.pow_le_mono_r; lia).
        pose proof (pow2_pos (7 * n) ltac:(lia)). change (2 ^ 28) with 268435456 in *.
        change (2 ^ (64 - 1)) with 9223372036854775808. lia. }
    rewrite <- swrap_lor by lia. f_equal. apply swrap_eq; [lia|].
    rewrite !Z.shiftl_mul_pow2 by lia. unfold int33Mask4.
    replace (8589934591 * 2 ^ (7 * n)) with (-1 * 2 ^ (7 * n) + 2 ^ (7 * n) * 2 ^ 33) by lia.
    rewrite Z.mod_add by done. done. }
  rewrite (proj2 (Z.ltb_ge _ _)) by (unfold maxVarintLen33, maxVarintLen32, n, bs; lia).
  pose proof (signed_check 33 5 0x20
    (λ b n ret, if 5 <? n then true else if n =? 5 then
       negb (Z.land b 0x20 =? (if ret <? 0 then 0x20 else 0)) else false)
    ltac:(lia) ltac:(done) (mask_spec_enum 0x20 4 ltac:(vm_compute; reflexivity))
    pre b Hb Hlt Hagree) as Hchk.
  cbn beta zeta in Hchk. fold bs in Hchk. fold n in Hchk.
  rewrite (proj2 (Z.ltb_ge 5 n)) in Hchk by (unfold n, bs; lia).
  destruct (Nat.ltb_spec 5 (length bs)); [unfold bs in *; lia|]. cbn [orb] in Hchk.
  change (33 - 1) with 32 in Hchk. change maxVarintLen33 with 5. cbn zeta.
  destruct (Z.leb_spec (- 2 ^ 32) (sleb bs)), (Z.ltb_spec (sleb bs) (2 ^ 32)); cbn [andb negb] in *.
  all: destruct (n =? 5); rewrite ?Hchk; try discriminate; try done.
  all: by rewrite swrap_small by (change (33 - 1) with 32; lia).
Qed.

Lemma LoadInt33_loop_spec n pre rest b0 k :
  Forall is_cont pre → Forall is_byte rest → (length pre + n = 5)%nat →
  k = Z.of_nat (length pre) →
  (length rest < n)%nat ∨ is_Some (terminator (take n rest)) →
  sign_bits_agree 5 (pre ++ rest) = true →
  LoadInt33AsInt64_loop n (pre ++ rest) k b0 (7 * k) (uleb pre) =
  sleb_ref 5 33 ErrOverflow33 (pre ++ rest).
Proof.
  revert pre rest b0 k; induction n as [|n IH]; intros pre rest b0 k Hpre Hrest Hn -> Hterm Hagree.
  { destruct Hterm as [?|[? H]]; [lia|by rewrite take_0 in H]. }
  cbn [LoadInt33AsInt64_loop]. destruct rest as [|b rest].
  { rewrite lookup_pre_nil by done. unfold sleb_ref. by rewrite terminator_app_cont. }
  inversion_clear Hrest as [|?? Hb Hrest']. rewrite lookup_pre_cons by done. cbn zeta.
  assert (Z.land b int33Mask2 = b `mod` 128) as ->.
  { apply Z.eqb_eq. byte_solve b. }
  assert ((Z.land b int33Mask =? 0) = (b <? 128)) as -> by byte_solve b.
  pose proof (Z.mod_pos_bound b 128 ltac:(lia)).
  assert (2 ^ (7 * Z.of_nat (length pre)) ≤ 2 ^ 28) by (apply Z.pow_le_mono_r; lia).
  pose proof (pow2_pos (7 * Z.of_nat (length pre)) ltac:(lia)).
  change (2 ^ 28) with 268435456 in *.
  rewrite swrap_small; [|lia|rewrite Z.shiftl_mul_pow2 by lia; change (2 ^ (64 - 1)) with 9223372036854775808; nia].
  rewrite lor_shiftl_add, <- uleb_snoc by (lia || apply uleb_bound).
  assert (length (pre ++ [b]) = S (length pre)) as Hl by (rewrite length_app; cbn; lia).
  replace (Z.of_nat (length pre) + 1) with (Z.of_nat (length (pre ++ [b]))) by lia.
  replace (7 * Z.of_nat (length pre) + 7) with (7 * Z.of_nat (length (pre ++ [b]))) by lia.
  destruct (Z.ltb_spec b 128) as [Hlt|Hge].
  - destruct (terminator_pre_last pre b rest Hpre Hlt) as [Ht Htk].
    unfold sign_bits_agree in Hagree. unfold sleb_ref. rewrite Ht, Htk in *.
    assert (last_byte (pre ++ [b]) = b) as Hlb by (unfold last_byte; by rewrite last_snoc).
    rewrite Hlb in Hagree. rewrite wrap_small by lia.
    rewrite int33Finish_spec; try done; try lia.
    + destruct (Nat.ltb_spec 5 (length (pre ++ [b]))); [lia|done].
    + intros He. rewrite (proj2 (Nat.eqb_eq _ _) He) in Hagree. by apply Bool.eqb_prop in Hagree.
  - rewrite (cons_middle b pre rest), app_assoc in *. apply IH; try done; try lia.
    + apply Forall_app; split; [done|]. constructor; [|constructor]. unfold is_cont, is_byte in *. lia.
    + cbn [length take] in Hterm. destruct Hterm as [?|[j Hj]]; [left; lia|right].
      cbn [terminator] in Hj. rewrite (proj2 (Z.ltb_ge b 128)) in Hj by lia.
      by destruct (terminator (take n rest)).
Qed.

Lemma LoadInt33_ref buf :
  Forall is_byte buf →
  (length buf < 5)%nat ∨ is_Some (terminator (take 5 buf)) →
  sign_bits_agree 5 buf = true →
  LoadInt33AsInt64 buf = sleb_ref 5 33 ErrOverflow33 buf.
Proof.
  intros Hbuf Hterm Hagree.
  pose proof (LoadInt33_loop_spec 5 [] buf 0 0 ltac:(constructor) Hbuf ltac:(done) ltac:(done) Hterm Hagree) as Hloop.
  unfold LoadInt33AsInt64. destruct buf as [|b buf]; [done|].
  destruct (Z.ltb_spec b 0x80); [|done]. inversion Hbuf; subst.
  rewrite sleb_ref_one, fast_sign_extend by (lia || done). done.
Qed.

(** The 33-bit decoder also takes the fifth byte for the last one, whatever its
    continuation bit says. *)
Definition settle33 (b : Z) : Z := settle (b `mod` 128).

Lemma settle33_byte b : is_byte b → is_byte (settle33 b).
Proof. intros Hb. apply settle_byte. unfold is_byte. pose proof (Z.mod_pos_bound b 128). lia. Qed.

Lemma settle33_ends b : is_byte b → settle33 b < 128.
Proof. intros Hb. apply Z.ltb_lt. byte_solve b. Qed.

Lemma settle33_agrees b : is_byte b → Z.testbit (settle33 b) 6 = Z.testbit (settle33 b) 5.
Proof. intros Hb. byte_solve b. Qed.

Lemma int33Finish_settled b n ret :
  is_byte b →
  int33Finish (settle33 b) 35 n (Z.lor ret (i64 (Z.shiftl (Z.land (settle33 b) int33Mask2) 28))) =
  int33Finish b 35 n (Z.lor ret (i64 (Z.shiftl (Z.land b int33Mask2) 28))).
Proof.
  intros Hb. unfold int33Finish. cbn [Z.ltb]. change (35 <? 33) with false. cbn [andb].
  rewrite !shl31_shr31, <- !swrap_lor by lia.
  assert (∀ c, is_byte c → i64 (Z.shiftl (Z.land c int33Mask2) 28) = Z.shiftl (Z.land c 0x7f) 28) as Hs.
  { intros c Hc. apply Z.eqb_eq. byte_solve c. }
  rewrite !Hs by (done || by apply settle33_byte).
  assert (swrap 33 (Z.shiftl (Z.land (settle33 b) 0x7f) 28) = swrap 33 (Z.shiftl (Z.land b 0x7f) 28)) as ->.
  { apply Z.eqb_eq. byte_solve b. }
  assert (Z.land (settle33 b) 0x20 = Z.land b 0x20) as ->; [|done].
  apply Z.eqb_eq. byte_solve b.
Qed.

Lemma LoadInt33_loop_S n buf i b0 shift ret :
  LoadInt33AsInt64_loop (S n) buf i b0 shift ret =
  match buf !! Z.to_nat i with
  | None => Err ErrEOF
  | Some b =>
      let ret := Z.lor ret (i64 (Z.shiftl (Z.land b int33Mask2) shift)) in
      if Z.land b int33Mask =? 0 then int33Finish b (shift + 7) (u64 (i + 1)) ret
      else LoadInt33AsInt64_loop n buf (i + 1) b (shift + 7) ret
  end.
Proof. done. Qed.

Lemma LoadInt33_loop_mend n pre rest b0 ret :
  Forall is_byte rest → (length pre + n = 5)%nat → (0 < n)%nat →
  LoadInt33AsInt64_loop n (pre ++ rest) (Z.of_nat (length pre)) b0 (7 * Z.of_nat (length pre)) ret =
  LoadInt33AsInt64_loop n (pre ++ mend settle33 n rest) (Z.of_nat (length pre)) b0
    (7 * Z.of_nat (length pre)) ret.
Proof.
  intros Hrest. revert pre rest b0 ret Hrest.
  induction n as [|n IH]; intros pre rest b0 ret Hrest Hn Hpos; [lia|].
  destruct rest as [|b rest]; [by destruct n|]. inversion_clear Hrest as [|?? Hb Hrest'].
  destruct n as [|n].
  - cbn [mend]. rewrite !LoadInt33_loop_S, !lookup_pre_cons by done. cbn zeta.
    replace (length pre) with 4%nat by lia. change (7 * Z.of_nat 4) with 28. change (28 + 7) with 35.
    cbn [LoadInt33AsInt64_loop]. rewrite int33Finish_settled by done.
    by destruct (Z.land (settle33 b) int33Mask =? 0), (Z.land b int33Mask =? 0).
  - rewrite mend_cons. destruct (Z.ltb_spec b 128) as [Hlt|Hge]; [done|].
    rewrite !LoadInt33_loop_S, !lookup_pre_cons by done. cbn zeta.
    assert ((Z.land b int33Mask =? 0) = (b <? 128)) as -> by byte_solve b.
    rewrite (proj2 (Z.ltb_ge b 128)) by lia.
    rewrite (cons_middle b pre rest), (cons_middle b pre (mend _ _ _)), !app_assoc.
    assert (length (pre ++ [b]) = S (length pre)) as Hl by (rewrite length_app; cbn; lia).
    replace (Z.of_nat (length pre) + 1) with (Z.of_nat (length (pre ++ [b]))) by lia.
    replace (7 * Z.of_nat (length pre) + 7) with (7 * Z.of_nat (length (pre ++ [b]))) by lia.
    apply IH; done || lia.
Qed.

Lemma mend33_ends n buf :
  Forall is_byte buf → (0 < n)%nat →
  (length (mend settle33 n buf) < n)%nat ∨ is_Some (terminator (take n (mend settle33 n buf))).
Proof.
  intros Hbuf. revert n; induction Hbuf as [|b buf Hb Hbuf IH]; intros n Hn.
  { left. by rewrite length_mend. }
  destruct n as [|[|n]]; [lia| |].
  - right. cbn [mend take terminator]. rewrite (proj2 (Z.ltb_lt _ _) (settle33_ends b Hb)). by eexists.
  - rewrite mend_cons. destruct (b <? 128) eqn:Hc.
    { right. cbn [take terminator]. rewrite Hc. by eexists. }
    destruct (IH (S n) ltac:(lia)) as [?|[k Hk]]; [left; cbn [length]; lia|right].
    change (take (S (S n)) (b :: ?l)) with (b :: take (S n) l). cbn [terminator]. rewrite Hc, Hk. by eexists.
Qed.

Lemma LoadInt33_mend buf :
  Forall is_byte buf →
  LoadInt33AsInt64 buf = sleb_ref 5 33 ErrOverflow33 (mend settle33 5 buf).
Proof.
  intros Hb. rewrite <- LoadInt33_ref;
    [|by apply mend_bytes; [apply settle33_byte|]|by apply mend33_ends; [|lia]
     |apply mend_agrees; [auto using settle33_agrees|done|lia]].
  unfold LoadInt33AsInt64.
  assert (LoadInt33AsInt64_loop 5 buf 0 0 0 0 =
    LoadInt33AsInt64_loop 5 (mend settle33 5 buf) 0 0 0 0) as ->
    by exact (LoadInt33_loop_mend 5 [] buf 0 0 Hb eq_refl ltac:(lia)).
  destruct buf as [|b buf]; [done|]. rewrite mend_cons.
  destruct (b <? 128) eqn:Hc; cbn iota; by rewrite Hc.
Qed.

(** ** Reader decoders agree with buffer decoders *)

(** The bytes a successful decode leaves in the reader are those after the
    ones it counted. *)
Definition reader_agrees (d : leb_result * list Z) (l : leb_result) (r : list Z) : Prop :=
  d.1 = l ∧ match l with Ok (_, n) => d.2 = drop (Z.to_nat n) r | _ => True end.

Lemma reader_rest {A} (pre : list A) b rest :
  rest = drop (Z.to_nat (u64 (Z.of_nat (length pre) + 1))) (pre ++ b :: rest) ∨
  2 ^ 64 ≤ Z.of_nat (length pre) + 1.
Proof.
  destruct (Z.lt_ge_cases (Z.of_nat (length pre) + 1) (2 ^ 64)); [left|by right].
  rewrite wrap_small by lia. rewrite (cons_middle b pre rest), app_assoc.
  rewrite drop_app_length'; [done|]. rewrite length_app. cbn. lia.
Qed.

Lemma DecodeUint32_loop_agrees n pre rest s ret :
  (length pre + n = 5)%nat →
  reader_agrees (DecodeUint32_loop n (Z.of_nat (length pre)) rest s ret)
    (LoadUint32_loop n (pre ++ rest) (Z.of_nat (length pre)) s ret) (pre ++ rest).
Proof.
  revert pre rest s ret; induction n as [|n IH]; intros pre rest s ret Hn; cbn; [done|].
  destruct rest as [|b rest]; [by rewrite lookup_pre_nil|].
  rewrite lookup_pre_cons by done.
  destruct (b <? 128).
  - destruct (_ && _); [done|]. split; [done|]. cbn.
    destruct (reader_rest pre b rest); [done|lia].
  - rewrite (cons_middle b pre rest), app_assoc.
    replace (Z.of_nat (length pre) + 1) with (Z.of_nat (length (pre ++ [b])))
      by (rewrite length_app; cbn; lia).
    apply IH. rewrite length_app. cbn. lia.
Qed.

Lemma DecodeInt32_loop_agrees fuel pre rest shift ret :
  (length rest < fuel)%nat → Z.of_nat (length (pre ++ rest)) < 2 ^ 64 →
  reader_agrees (DecodeInt32_loop rest shift (Z.of_nat (length pre)) ret)
    (LoadInt32_loop fuel (pre ++ rest) (Z.of_nat (length pre)) shift ret) (pre ++ rest).
Proof.
  revert pre rest shift ret; induction fuel as [|fuel IH]; intros pre rest shift ret Hf H64; [lia|].
  destruct rest as [|b rest]; cbn [DecodeInt32_loop LoadInt32_loop]; [by rewrite lookup_pre_nil|].
  rewrite lookup_pre_cons by done. cbn zeta. rewrite length_app in H64; cbn [length] in H64.
  destruct (Z.land b 128 =? 0).
  - destruct (int32OverflowCheck _ _ _); [done|]. split; [done|]. cbn.
    destruct (reader_rest pre b rest); [done|lia].
  - rewrite (cons_middle b pre rest), app_assoc, wrap_small by lia.
    replace (Z.of_nat (length pre) + 1) with (Z.of_nat (length (pre ++ [b])))
      by (rewrite length_app; cbn; lia).
    apply IH; [cbn in Hf; lia|]. rewrite !length_app. cbn. lia.
Qed.

Lemma DecodeInt64_loop_agrees fuel pre rest shift ret :
  (length rest < fuel)%nat → Z.of_nat (length (pre ++ rest)) < 2 ^ 64 →
  reader_agrees (DecodeInt64_loop rest shift (Z.of_nat (length pre)) ret)
    (LoadInt64_loop fuel (pre ++ rest) (Z.of_nat (length pre)) shift ret) (pre ++ rest).
Proof.
  revert pre rest shift ret; induction fuel as [|fuel IH]; intros pre rest shift ret Hf H64; [lia|].
  destruct rest as [|b rest]; cbn [DecodeInt64_loop LoadInt64_loop]; [by rewrite lookup_pre_nil|].
  rewrite lookup_pre_cons by done. cbn zeta. rewrite length_app in H64; cbn [length] in H64.
  destruct (Z.land b 128 =? 0).
  - destruct (int64OverflowCheck _ _ _); [done|]. split; [done|]. cbn.
    destruct (reader_rest pre b rest); [done|lia].
  - rewrite (cons_middle b pre rest), app_assoc, wrap_small by lia.
    replace (Z.of_nat (length pre) + 1) with (Z.of_nat (length (pre ++ [b])))
      by (rewrite length_app; cbn; lia).
    apply IH; [cbn in Hf; lia|]. rewrite !length_app. cbn. lia.
Qed.

Lemma int33Finish_count b shift n ret v k :
  int33Finish b shift n ret = Ok (v, k) → k = n.
Proof.
  unfold int33Finish. cbn zeta. destruct (_ <? _); [done|].
  destruct (_ =? maxVarintLen33); [destruct (negb _); [done|]|]; congruence.
Qed.

Lemma DecodeInt33_loop_agrees n pre rest b shift ret :
  (length pre + n = 5)%nat →
  reader_agrees (DecodeInt33AsInt64_loop n rest b shift (Z.of_nat (length pre)) ret)
    (LoadInt33AsInt64_loop n (pre ++ rest) (Z.of_nat (length pre)) b shift ret) (pre ++ rest).
Proof.
  revert pre rest b shift ret; induction n as [|n IH]; intros pre rest b shift ret Hn.
  { cbn [DecodeInt33AsInt64_loop LoadInt33AsInt64_loop]. rewrite wrap_small by lia.
    split; [done|]. destruct (int33Finish _ _ _ _) as [[v k]| | |] eqn:E; try done.
    apply int33Finish_count in E as ->. cbn. by rewrite Nat2Z.id, drop_app_length. }
  cbn [DecodeInt33AsInt64_loop LoadInt33AsInt64_loop].
  destruct rest as [|b' rest]; [by rewrite lookup_pre_nil|].
  rewrite lookup_pre_cons by done. cbn zeta.
  destruct (Z.land b' int33Mask =? 0).
  - split; [done|]. destruct (int33Finish _ _ _ _) as [[v k]| | |] eqn:E; try done.
    apply int33Finish_count in E as ->. cbn.
    destruct (reader_rest pre b' rest); [done|lia].
  - rewrite (cons_middle b' pre rest), app_assoc, wrap_small by lia.
    replace (Z.of_nat (length pre) + 1) with (Z.of_nat (length (pre ++ [b'])))
      by (rewrite length_app; cbn; lia).
    apply IH. rewrite length_app. cbn. lia.
Qed.

(** The fast paths return what the loops return. *)
Lemma LoadInt32_fast b rest :
  is_byte b → b < 128 →
  LoadInt32_loop (S (length (b :: rest))) (b :: rest) 0 0 0 = LoadInt32 (b :: rest).
Proof.
  intros Hb Hlt. unfold LoadInt32. rewrite (proj2 (Z.ltb_lt b 0x80)) by lia.
  rewrite fast_sign_extend by (done || lia).
  cbn [LoadInt32_loop length]. change ((b :: rest) !! Z.to_nat 0) with (Some b). cbn beta iota zeta.
  rewrite land_80, (proj2 (Z.ltb_lt b 128)) by (lia || done).
  assert (∀ r, int32OverflowCheck b (u64 (0 + 1)) r = false) as -> by done.
  f_equal. f_equal. apply Z.eqb_eq.
  byte_solve_lt b.
Qed.

Lemma LoadInt64_fast b rest :
  is_byte b → b < 128 →
  LoadInt64_loop (S (length (b :: rest))) (b :: rest) 0 0 0 = LoadInt64 (b :: rest).
Proof.
  intros Hb Hlt. unfold LoadInt64. rewrite (proj2 (Z.ltb_lt b 0x80)) by lia.
  rewrite fast_sign_extend by (done || lia).
  cbn [LoadInt64_loop length]. change ((b :: rest) !! Z.to_nat 0) with (Some b). cbn beta iota zeta.
  rewrite land_80, (proj2 (Z.ltb_lt b 128)) by (lia || done).
  assert (∀ r, int64OverflowCheck b (u64 (0 + 1)) r = false) as -> by done.
  f_equal. f_equal. apply Z.eqb_eq.
  byte_solve_lt b.
Qed.

(** The reader decoder of each width computes what the buffer decoder computes
    on the bytes it is given, errors included, and consumes the bytes it
    reports. *)
Theorem Decode_agrees_Load r :
  Forall is_byte r → Z.of_nat (length r) < 2 ^ 64 →
  reader_agrees (DecodeUint32 r) (LoadUint32 r) r ∧
  reader_agrees (DecodeInt32 r) (LoadInt32 r) r ∧
  reader_agrees (DecodeInt33AsInt64 r) (LoadInt33AsInt64 r) r ∧
  reader_agrees (DecodeInt64 r) (LoadInt64 r) r.
Proof.
  intros Hr H64.
  pose proof (DecodeUint32_loop_agrees 5 [] r 0 0 eq_refl) as H1.
  pose proof (DecodeInt32_loop_agrees (S (length r)) [] r 0 0 ltac:(lia) H64) as H2.
  pose proof (DecodeInt33_loop_agrees 5 [] r 0 0 0 eq_refl) as H3.
  pose proof (DecodeInt64_loop_agrees (S (length r)) [] r 0 0 ltac:(lia) H64) as H4.
  destruct r as [|b r]; [done|]. inversion_clear Hr as [|?? Hb Hr'].
  destruct (Z.lt_ge_cases b 0x80) as [Hlt|Hge].
  - split_and!.
    + replace (LoadUint32 (b :: r)) with (LoadUint32_loop 5 (b :: r) 0 0 0); [done|].
      unfold LoadUint32. rewrite (proj2 (Z.ltb_lt b 0x80)) by lia.
      cbn [LoadUint32_loop]. change ((b :: r) !! Z.to_nat 0) with (Some b). cbn beta iota zeta.
      rewrite (proj2 (Z.ltb_lt b 0x80)) by lia. cbn [andb Z.eqb]. unfold is_byte in Hb.
      rewrite Z.shiftl_0_r, Z.lor_0_l, !wrap_small by lia. done.
    + rewrite <- LoadInt32_fast by done. done.
    + replace (LoadInt33AsInt64 (b :: r)) with (LoadInt33AsInt64_loop 5 (b :: r) 0 0 0 0); [done|].
      unfold LoadInt33AsInt64. rewrite (proj2 (Z.ltb_lt b 0x80)) by lia.
      rewrite fast_sign_extend by (done || lia).
      cbn [LoadInt33AsInt64_loop]. change ((b :: r) !! Z.to_nat 0) with (Some b). cbn beta iota zeta.
      assert (Z.land b int33Mask = 0) as ->.
      { apply Z.eqb_eq. byte_solve_lt b. }
      cbn [Z.eqb]. unfold int33Finish. cbn [Z.ltb Z.eqb andb Z.add Z.compare].
      f_equal. f_equal. apply Z.eqb_eq.
      byte_solve_lt b.
    + rewrite <- LoadInt64_fast by done. done.
  - unfold LoadUint32, LoadInt32, LoadInt33AsInt64, LoadInt64.
    rewrite (proj2 (Z.ltb_ge b 0x80)) by lia. done.
Qed.

(** ** Encoders *)

(** What an encoder produces: bytes of which only the last is without the
    continuation bit. *)
Definition leb_encoding (bs : list Z) : Prop :=
  Forall is_byte bs ∧ terminator bs = Some (length bs).

Lemma leb_encoding_one b : is_byte b → b < 128 → leb_encoding [b].
Proof.
  intros Hb Hlt. split; [by constructor|]. cbn. by rewrite (proj2 (Z.ltb_lt b 128)).
Qed.

Lemma lor_80 b : 0 ≤ b < 128 → Z.lor b 0x80 = b + 128.
Proof. intros. change 0x80 with (Z.shiftl 1 7). rewrite lor_shiftl_add by lia. done. Qed.

Lemma lor_80_mod b : 0 ≤ b < 128 → Z.lor b 0x80 `mod` 128 = b.
Proof.
  intros. rewrite lor_80 by done. rewrite <- (Z.mul_1_l 128) at 1.
  rewrite Z.mod_add by lia. apply Z.mod_small. lia.
Qed.

Lemma leb_encoding_cons b bs :
  0 ≤ b < 128 → leb_encoding bs → leb_encoding (Z.lor b 0x80 :: bs).
Proof.
  intros Hb [Hbs Ht].
  rewrite lor_80 by done.
  split; [constructor; [unfold is_byte; lia|done]|].
  cbn. rewrite (proj2 (Z.ltb_ge _ _)), Ht by lia. done.
Qed.

Lemma terminator_app bs rest n : terminator bs = Some n → terminator (bs ++ rest) = Some n.
Proof.
  revert n; induction bs as [|b bs IH]; intros n; cbn; [done|].
  destruct (b <? 128); [done|]. destruct (terminator bs) as [k|]; [|done].
  intros [= <-]. by rewrite (IH k).
Qed.

Lemma terminator_le bs n : terminator bs = Some n → (0 < n ≤ length bs)%nat.
Proof.
  revert n; induction bs as [|b bs IH]; intros n; cbn; [done|].
  destruct (b <? 128); [intros [= <-]; lia|]. destruct (terminator bs) as [k|]; [|done].
  intros [= <-]. specialize (IH k eq_refl). lia.
Qed.

Lemma uleb_ref_encoding maxlen w e bs rest :
  leb_encoding bs → (length bs ≤ maxlen)%nat → uleb bs < 2 ^ w →
  uleb_ref maxlen w e (bs ++ rest) = Ok (uleb bs, Z.of_nat (length bs)).
Proof.
  intros [_ Ht] Hl Hv. unfold uleb_ref.
  rewrite take_app_ge by lia. rewrite (terminator_app _ _ _ Ht), take_app_length.
  by rewrite (proj2 (Z.ltb_lt _ _)).
Qed.

Lemma sleb_ref_encoding maxlen w e bs rest :
  leb_encoding bs → (length bs ≤ maxlen)%nat → - 2 ^ (w - 1) ≤ sleb bs < 2 ^ (w - 1) →
  sleb_ref maxlen w e (bs ++ rest) = Ok (sleb bs, Z.of_nat (length bs)).
Proof.
  intros [_ Ht] Hl Hv. unfold sleb_ref.
  rewrite (terminator_app _ _ _ Ht), take_app_length.
  destruct (Nat.ltb_spec maxlen (length bs)); [lia|].
  rewrite (proj2 (Z.leb_le _ _)), (proj2 (Z.ltb_lt _ _)) by lia. done.
Qed.

(** The bit that tells the loop to go on is the one it has just set. *)
Lemma cont_bit (c : bool) b :
  0 ≤ b < 128 → (Z.land (if c then Z.lor b 0x80 else b) 0x80 =? 0) = negb c.
Proof.
  intros Hb. assert (is_byte b) by (unfold is_byte; lia). destruct Hb as [_ Hb].
  destruct c; byte_solve_lt b.
Qed.

Lemma EncodeUint64_loop_spec n fuel v buf :
  (0 < n ≤ fuel)%nat → 0 ≤ v < 2 ^ (7 * Z.of_nat n) →
  ∃ bs, EncodeUint64_loop fuel v buf = Ok (buf ++ bs) ∧ leb_encoding bs ∧
        uleb bs = v ∧ (length bs ≤ n)%nat.
Proof.
  revert n v buf; induction fuel as [|fuel IH]; intros n v buf Hn Hv; [lia|].
  cbn [EncodeUint64_loop]. cbn zeta. rewrite land_7f, Z.shiftr_div_pow2 by lia.
  change (2 ^ 7) with 128.
  pose proof (Z.mod_pos_bound v 128 ltac:(lia)) as Hm.
  rewrite wrap_small by lia. rewrite cont_bit, negb_involutive by done.
  pose proof (Z.div_mod v 128 ltac:(lia)) as Hdm.
  destruct (Z.eqb_spec (v `div` 128) 0) as [Hz|Hnz]; cbn [negb].
  - exists [v `mod` 128]. split_and!; [done| |cbn [uleb]; rewrite Z.mod_mod; lia|cbn; lia].
    apply leb_encoding_one; unfold is_byte; lia.
  - assert (0 < v `div` 128) by (pose proof (Z.div_pos v 128); lia).
    destruct n as [|[|n]]; [lia|cbn in Hv; lia|].
    destruct (IH (S n) (v `div` 128) (buf ++ [Z.lor (v `mod` 128) 0x80])) as (bs & E & Henc & Hu & Hl); [lia| |].
    { split; [lia|]. apply Z.div_lt_upper_bound; [lia|].
      replace (7 * Z.of_nat (S (S n))) with (7 + 7 * Z.of_nat (S n)) in Hv by lia.
      rewrite Z.pow_add_r in Hv by lia. exact (proj2 Hv). }
    exists (Z.lor (v `mod` 128) 0x80 :: bs). rewrite E, <- app_assoc.
    split_and!; [done|by apply leb_encoding_cons| |cbn; lia].
    cbn [uleb]. rewrite Hu, lor_80_mod by lia. lia.
Qed.

Lemma encode_uint32_load v rest :
  Forall is_byte rest → 0 ≤ v < 2 ^ 32 →
  ∃ bs, EncodeUint32 v = Ok bs ∧ (length bs ≤ 5)%nat ∧
    LoadUint32 (bs ++ rest) = Ok (v, Z.of_nat (length bs)).
Proof.
  intros Hrest Hv.
  destruct (EncodeUint64_loop_spec 5 10 v []) as (bs & E & Henc & Hu & Hl); [lia| |].
  { split; [lia|]. apply (Z.lt_le_trans _ (2 ^ 32)); [lia|]. by apply Z.pow_le_mono_r. }
  exists bs. split_and!; [exact E|done|].
  rewrite LoadUint32_ref by (apply Forall_app; split; [apply Henc|done]).
  rewrite uleb_ref_encoding by (lia || done). by rewrite Hu.
Qed.

Lemma encode_uint64_load v rest :
  Forall is_byte rest → 0 ≤ v < 2 ^ 64 →
  ∃ bs, EncodeUint64 v = Ok bs ∧ (length bs ≤ 10)%nat ∧
    LoadUint64 (bs ++ rest) = Ok (v, Z.of_nat (length bs)).
Proof.
  intros Hrest Hv.
  destruct (EncodeUint64_loop_spec 10 10 v []) as (bs & E & Henc & Hu & Hl); [lia| |].
  { split; [lia|]. apply (Z.lt_le_trans _ (2 ^ 64)); [lia|]. by apply Z.pow_le_mono_r. }
  exists bs. split_and!; [exact E|done|].
  rewrite LoadUint64_ref by (apply Forall_app; split; [apply Henc|done]).
  rewrite uleb_ref_encoding by (lia || done). by rewrite Hu.
Qed.

Lemma sleb_cons b bs :
  bs ≠ [] → sleb (b :: bs) = b `mod` 128 + 128 * sleb bs.
Proof.
  intros Hne. unfold sleb, last_byte.
  destruct (exists_last Hne) as (init & l & ->).
  rewrite app_comm_cons, !last_snoc. cbn [default uleb app length]. unfold id.
  rewrite Nat2Z.inj_succ, Z.mul_succ_r, Z.pow_add_r by lia.
  change (2 ^ 7) with 128. destruct (Z.testbit l 6); lia.
Qed.

Lemma EncodeInt64_loop_spec n fuel v buf :
  (0 < n ≤ fuel)%nat → - 2 ^ (7 * Z.of_nat n - 1) ≤ v < 2 ^ (7 * Z.of_nat n - 1) →
  ∃ bs, EncodeInt64_loop fuel v buf = Ok (buf ++ bs) ∧ leb_encoding bs ∧
        sleb bs = v ∧ (length bs ≤ n)%nat.
Proof.
  revert n v buf; induction fuel as [|fuel IH]; intros n v buf Hn Hv; [lia|].
  cbn [EncodeInt64_loop]. cbn zeta. rewrite land_7f, Z.shiftr_div_pow2 by lia.
  change (2 ^ 7) with 128.
  pose proof (Z.mod_pos_bound v 128 ltac:(lia)) as Hm.
  pose proof (Z.div_mod v 128 ltac:(lia)) as Hdm.
  rewrite (wrap_small 8 (v `mod` 128)) by lia. rewrite cont_bit by done.
  assert ((u8 (Z.land v 0x40) =? 0) = negb (Z.testbit (v `mod` 128) 6)) as ->.
  { assert (Z.land v 0x40 = Z.land (v `mod` 128) 0x40) as ->.
    { rewrite <- land_7f, <- Z.land_assoc. done. }
    assert (is_byte (v `mod` 128)) as Hb by (unfold is_byte; lia).
    set (b := v `mod` 128) in *. clearbody b. destruct Hm as [_ Hm]. byte_solve_lt b. }
  rewrite negb_involutive.
  assert (sbits (v `mod` 128) = v `mod` 128 - (if Z.testbit (v `mod` 128) 6 then 128 else 0)) as Hsb.
  { assert (is_byte (v `mod` 128)) as Hb by (unfold is_byte; lia).
    set (b := v `mod` 128) in *. clearbody b. destruct Hm as [_ Hm].
    apply Z.eqb_eq. byte_solve_lt b. }
  destruct ((negb (v `div` 128 =? -1) || negb (Z.testbit (v `mod` 128) 6)) &&
            (negb (v `div` 128 =? 0) || Z.testbit (v `mod` 128) 6)) eqn:Hc; cbn [negb].
  - destruct n as [|[|n]]; [lia| |].
    { exfalso. change (2 ^ (7 * Z.of_nat 1 - 1)) with 64 in Hv.
      assert (Z.testbit (v `mod` 128) 6 = (v <? 0)) as Hs.
      { pose proof (swrap_neg 7 v ltac:(lia)) as H. rewrite swrap_small in H by (cbn; lia).
        rewrite H. change 128 with (2 ^ 7). rewrite Z.mod_pow2_bits_low by lia. done. }
      rewrite Hs in Hc. destruct (Z.ltb_spec v 0).
      - assert (v `div` 128 = -1) as E1 by (symmetry; apply (Z.div_unique v 128 (-1) (v + 128)); lia).
        rewrite E1 in Hc. done.
      - rewrite (Z.div_small v 128) in Hc by lia. by destruct (negb (0 =? -1)). }
    destruct (IH (S n) (v `div` 128) (buf ++ [Z.lor (v `mod` 128) 0x80])) as (bs & E & Henc & Hu & Hl); [lia| |].
    { replace (7 * Z.of_nat (S (S n)) - 1) with (7 + (7 * Z.of_nat (S n) - 1)) in Hv by lia.
      rewrite Z.pow_add_r in Hv by lia. change (2 ^ 7) with 128 in Hv.
      split; [apply Z.div_le_lower_bound|apply Z.div_lt_upper_bound]; lia. }
    exists (Z.lor (v `mod` 128) 0x80 :: bs). rewrite E, <- app_assoc.
    split_and!; [done|by apply leb_encoding_cons| |cbn; lia].
    rewrite sleb_cons by (intros ->; by destruct Henc). rewrite Hu.
    rewrite lor_80_mod by lia. lia.
  - exists [v `mod` 128]. split_and!; [done|apply leb_encoding_one; unfold is_byte; lia| |cbn; lia].
    assert (sleb [v `mod` 128] = 0 + sbits (v `mod` 128) * 1) as ->
      by exact (sleb_snoc [] (v `mod` 128) ltac:(unfold is_byte; lia) ltac:(lia)).
    rewrite Hsb.
    destruct (Z.testbit (v `mod` 128) 6), (Z.eqb_spec (v `div` 128) (-1)), (Z.eqb_spec (v `div` 128) 0);
      cbn in Hc; try discriminate; lia.
Qed.

(** An encoding of a value in range agrees in its two top bits, so the decoders'
    final check is exact on it. *)
Lemma encoding_sign_bits maxlen w bs rest :
  leb_encoding bs → 7 * (Z.of_nat maxlen - 1) < w → w - 7 * (Z.of_nat maxlen - 1) ≤ 6 →
  - 2 ^ (w - 1) ≤ sleb bs < 2 ^ (w - 1) → sign_bits_agree maxlen (bs ++ rest) = true.
Proof.
  intros [Hbs Ht] Hm1 Hm2 Hv. unfold sign_bits_agree.
  rewrite (terminator_app _ _ _ Ht), take_app_length.
  destruct (Nat.eqb_spec (length bs) maxlen) as [He|]; [|done].
  destruct bs as [|b0 bs0] using rev_ind; [done|clear IHbs0].
  apply Forall_app in Hbs as [_ Hb]. inversion_clear Hb as [|?? Hb' _].
  assert (b0 < 128) as Hlt.
  { destruct (Z.lt_ge_cases b0 128); [done|]. exfalso. clear -Ht H.
    assert (∀ l n, terminator (l ++ [b0]) = Some n → (n ≤ length l)%nat) as Hle.
    { clear Ht. induction l as [|c l IH]; intros n; cbn.
      - rewrite (proj2 (Z.ltb_ge b0 128)) by lia. done.
      - destruct (c <? 128); [intros [= <-]; lia|].
        destruct (terminator (l ++ [b0])) as [k|]; [|done]. intros [= <-].
        specialize (IH k eq_refl). lia. }
    apply Hle in Ht. rewrite length_app in Ht. cbn in Ht. lia. }
  rewrite sleb_snoc in Hv by done. fold (sbits b0) in Hv.
  unfold last_byte. rewrite last_snoc. cbn [default]. unfold id.
  rewrite length_app in He. cbn in He.
  replace (7 * Z.of_nat (length bs0)) with (7 * (Z.of_nat maxlen - 1)) in Hv by lia.
  pose proof (uleb_bound bs0) as Hu.
  replace (7 * Z.of_nat (length bs0)) with (7 * (Z.of_nat maxlen - 1)) in Hu by lia.
  set (m := 7 * (Z.of_nat maxlen - 1)) in *. set (p := 2 ^ m) in *.
  assert (2 ^ (w - 1) ≤ 32 * p) as Hp.
  { unfold p. change 32 with (2 ^ 5). rewrite <- Z.pow_add_r by lia. apply Z.pow_le_mono_r; lia. }
  assert (-32 ≤ sbits b0 < 32) as Hr by nia.
  assert (implb ((-32 <=? sbits b0) && (sbits b0 <? 32)) (Bool.eqb (Z.testbit b0 6) (Z.testbit b0 5)) = true)
    as Hi by byte_solve_lt b0.
  rewrite (proj2 (Z.leb_le _ _)), (proj2 (Z.ltb_lt _ _)) in Hi by lia. exact Hi.
Qed.

Lemma Decode_agrees_Load_witness :
  DecodeUint32 [0x80; 1; 7] = (Ok (128, 2), [7]) ∧
  reader_agrees (DecodeInt64 [0x80; 1; 7]) (LoadInt64 [0x80; 1; 7]) [0x80; 1; 7].
Proof.
  assert (Forall is_byte [0x80; 1; 7]) as Hb by (repeat (constructor; [unfold is_byte; lia|]); constructor).
  destruct (Decode_agrees_Load [0x80; 1; 7] Hb ltac:(cbn; lia)) as (H1 & _ & _ & H4).
  split; [vm_compute; reflexivity|exact H4].
Defined.

(** Round trip: encoding any value of an unsigned type terminates with at
    most 5 (10) bytes, and the decoder of that width reads the value and that
    byte count back, whatever follows in the buffer; likewise for the signed
    types. *)
Theorem leb_roundtrip v rest :
  Forall is_byte rest → Z.of_nat (length rest) < 2 ^ 63 →
  (0 ≤ v < 2 ^ 32 → ∃ bs, EncodeUint32 v = Ok bs ∧ (length bs ≤ 5)%nat ∧
     LoadUint32 (bs ++ rest) = Ok (v, Z.of_nat (length bs))) ∧
  (0 ≤ v < 2 ^ 64 → ∃ bs, EncodeUint64 v = Ok bs ∧ (length bs ≤ 10)%nat ∧
     LoadUint64 (bs ++ rest) = Ok (v, Z.of_nat (length bs))) ∧
  (- 2 ^ 31 ≤ v < 2 ^ 31 → ∃ bs, EncodeInt32 v = Ok bs ∧ (length bs ≤ 5)%nat ∧
     LoadInt32 (bs ++ rest) = Ok (v, Z.of_nat (length bs))) ∧
  (- 2 ^ 63 ≤ v < 2 ^ 63 → ∃ bs, EncodeInt64 v = Ok bs ∧ (length bs ≤ 10)%nat ∧
     LoadInt64 (bs ++ rest) = Ok (v, Z.of_nat (length bs))).
Proof.
  intros Hrest H63. split; [|split]; [apply encode_uint32_load|apply encode_uint64_load|split; intros Hv]; try done.
  - destruct (EncodeInt64_loop_spec 5 10 v []) as (bs & E & Henc & Hu & Hl); [lia|cbn; lia|].
    exists bs. split_and!; [exact E|done|]. subst v.
    rewrite LoadInt32_ref, sleb_ref_encoding; try done; try lia.
    + apply Forall_app; split; [apply Henc|done].
    + rewrite length_app. lia.
    + apply (encoding_sign_bits 5 32); done || lia.
  - destruct (EncodeInt64_loop_spec 10 10 v []) as (bs & E & Henc & Hu & Hl); [lia|cbn; lia|].
    exists bs. split_and!; [exact E|done|]. subst v.
    rewrite LoadInt64_ref, sleb_ref_encoding; try done; try lia.
    + apply Forall_app; split; [apply Henc|done].
    + rewrite length_app. lia.
    + apply (encoding_sign_bits 10 64); done || lia.
Qed.

Lemma leb_roundtrip_witness :
  (∃ bs, EncodeUint32 300 = Ok bs ∧ (length bs ≤ 5)%nat ∧
     LoadUint32 (bs ++ [7]) = Ok (300, Z.of_nat (length bs))) ∧
  (∃ bs, EncodeInt32 300 = Ok bs ∧ (length bs ≤ 5)%nat ∧
     LoadInt32 (bs ++ [7]) = Ok (300, Z.of_nat (length bs))).
Proof.
  assert (Forall is_byte [7]) as Hb by (constructor; [unfold is_byte; lia|constructor]).
  destruct (leb_roundtrip 300 [7] Hb ltac:(cbn; lia)) as (H1 & _ & H3 & _).
  split; [apply H1; lia|apply H3; lia].
Defined.

(** C40. The buffer decoders, on any bytes.  The unsigned ones are the reference
    decoder: they return the number of the first terminated sequence and its
    length, an overflow error when the sequence is longer than the width allows
    or its number is outside the range, and [io.EOF] when the input ends first.
    The signed ones are the reference decoder on the [mend]ed input: in the last
    byte an encoding may have (the fifth, or the tenth for 64 bits) the sign bit
    is taken from the bit below it, and the 33-bit decoder also takes the fifth
    byte to end the sequence whatever its continuation bit says.  So they are
    the reference decoder itself on every input where that byte repeats its
    sign bit ([sign_bits_agree]; [signed_overlong_accepted] is an input where
    it does not) and, for 33 bits, where the sequence ends within five bytes
    or the input is shorter ([int33_unterminated_accepted] is one where
    neither holds).  The reader decoders return what the buffer decoders
    return, and consume on success exactly the bytes they count. *)
Theorem leb_decoders_correct buf :
  Forall is_byte buf → Z.of_nat (length buf) < 2 ^ 64 - 1 →
  (LoadUint32 buf = uleb_ref 5 32 ErrOverflow32 buf ∧
   LoadUint64 buf = uleb_ref 10 64 ErrOverflow64 buf) ∧
  (LoadInt32 buf = sleb_ref 5 32 ErrOverflow32 (mend settle 5 buf) ∧
   LoadInt64 buf = sleb_ref 10 64 ErrOverflow64 (mend settle 10 buf) ∧
   LoadInt33AsInt64 buf = sleb_ref 5 33 ErrOverflow33 (mend settle33 5 buf)) ∧
  ((sign_bits_agree 5 buf = true → LoadInt32 buf = sleb_ref 5 32 ErrOverflow32 buf) ∧
   (sign_bits_agree 10 buf = true → LoadInt64 buf = sleb_ref 10 64 ErrOverflow64 buf) ∧
   (sign_bits_agree 5 buf = true → (length buf < 5)%nat ∨ is_Some (terminator (take 5 buf)) →
      LoadInt33AsInt64 buf = sleb_ref 5 33 ErrOverflow33 buf)) ∧
  (reader_agrees (DecodeUint32 buf) (LoadUint32 buf) buf ∧
   reader_agrees (DecodeInt32 buf) (LoadInt32 buf) buf ∧
   reader_agrees (DecodeInt33AsInt64 buf) (LoadInt33AsInt64 buf) buf ∧
   reader_agrees (DecodeInt64 buf) (LoadInt64 buf) buf).
Proof.
  intros Hb Hl. split_and!; intros;
    [by apply LoadUint32_ref|by apply LoadUint64_ref|by apply LoadInt32_mend|by apply LoadInt64_mend
    |by apply LoadInt33_mend|by apply LoadInt32_ref|by apply LoadInt64_ref|by apply LoadInt33_ref|..].
  all: by apply Decode_agrees_Load; [|lia].
Qed.

Lemma leb_decoders_correct_witness :
  LoadInt32 [0xe5; 0x8e; 0x26; 0xff] = sleb_ref 5 32 ErrOverflow32 [0xe5; 0x8e; 0x26; 0xff] ∧
  LoadInt32 [0xe5; 0x8e; 0x26; 0xff] = Ok (624485, 3).
Proof.
  assert (Forall is_byte [0xe5; 0x8e; 0x26; 0xff]) as Hb
    by (repeat (constructor; [unfold is_byte; lia|]); constructor).
  destruct (leb_decoders_correct [0xe5; 0x8e; 0x26; 0xff] Hb ltac:(cbn; lia)) as (_ & _ & (H & _) & _).
  split; [apply H; vm_compute; reflexivity|vm_compute; reflexivity].
Defined.

(** The last byte of a longest signed encoding may contradict its own sign bit:
    the sequence [80 80 80 80 40] denotes [-2^34] but decodes as the int32 0,
    and its 33- and 64-bit counterparts likewise. *)
Theorem signed_overlong_accepted :
  (LoadInt32 [0x80; 0x80; 0x80; 0x80; 0x40] = Ok (0, 5) ∧
   sleb [0x80; 0x80; 0x80; 0x80; 0x40] = - 2 ^ 34) ∧
  (LoadInt33AsInt64 [0x80; 0x80; 0x80; 0x80; 0x40] = Ok (0, 5)) ∧
  (LoadInt64 (repeat 0x80 9 ++ [0x40]) = Ok (0, 10) ∧ sleb (repeat 0x80 9 ++ [0x40]) = - 2 ^ 69).
Proof. vm_compute. done. Qed.

(** The 33-bit decoder stops after five bytes even when the fifth still carries
    the continuation bit, and returns a value for the unterminated sequence. *)
Theorem int33_unterminated_accepted :
  LoadInt33AsInt64 [0x80; 0x80; 0x80; 0x80; 0x80] = Ok (0, 5) ∧
  terminator [0x80; 0x80; 0x80; 0x80; 0x80] = None.
Proof. vm_compute. done. Qed.

(** A vector count accepted by [LoadVecSize] is at most the number of bytes
    that follow it in the buffer, so a decoder can size an allocation by it;
    every count [LoadUint32] reads that satisfies this is accepted. *)
Theorem LoadVecSize_bounded buf n k :
  Forall is_byte buf → Z.of_nat (length buf) < 2 ^ 64 - 1 →
  LoadVecSize buf = Ok (n, k) ↔
  LoadUint32 buf = Ok (n, k) ∧ 0 ≤ n ≤ Z.of_nat (length (drop (Z.to_nat k) buf)).
Proof.
  intros Hb H64. unfold LoadVecSize.
  assert (∀ n k, LoadUint32 buf = Ok (n, k) → 0 ≤ n ∧ 0 < k ≤ Z.of_nat (length buf)) as Hk.
  { intros n' k'. rewrite LoadUint32_ref by done. unfold uleb_ref.
    destruct (terminator (take 5 buf)) as [j|] eqn:Et; [|by destruct (_ <? _)%nat].
    destruct (_ <? _); [|done]. intros [= <- <-]. apply terminator_le in Et.
    rewrite length_take in Et. pose proof (uleb_bound (take j buf)). lia. }
  destruct (LoadUint32 buf) as [[n' k']| | |] eqn:E; cbn [obind].
  - destruct (Hk n' k' eq_refl). rewrite wrap_small by lia. rewrite length_drop.
    destruct (Z.ltb_spec (Z.of_nat (length buf) - k') n').
    + split; [done|]. intros [[= -> ->] ?]. lia.
    + split; [intros [= -> ->]; split; [done|lia]|by intros [? _]].
  - split; [done|by intros [? _]].
  - split; [done|by intros [? _]].
  - split; [done|by intros [? _]].
Qed.

Lemma LoadVecSize_bounded_witness :
  Forall is_byte [2; 9; 9] ∧ LoadVecSize [2; 9; 9] = Ok (2, 1).
Proof.
  assert (Forall is_byte [2; 9; 9]) as Hb
    by (repeat (constructor; [unfold is_byte; lia|]); constructor).
  split; [exact Hb|]. apply (LoadVecSize_bounded [2; 9; 9] 2 1 Hb ltac:(cbn; lia)).
  vm_compute. repeat split; discriminate.
Defined.
