(* ===== verification/DescTable.v ===== *)
(** The descriptor table: [internal/descriptor/table.go].

    [Table] maps non-negative 32-bit keys to items with a bitmap of used slots
    ([masks], 64 slots per word), the slot array [items] and the hint
    [nextFree].  Each operation of the source is a definition over the table
    state; an out-of-range slice index is a [Panic].  The specification is a
    finite map from keys to items: [repr] relates a table to the map it stores,
    and the theorems show that every operation is the map operation, that
    [Insert] takes the lowest free key, and that the bitmap, the slots and the
    hint stay consistent ([wf]). *)
From Stdlib Require Import ZArith Lia.
From stdpp Require Import base list numbers option tactics gmap sorting.
From S2P Require Import Prelude.
Local Open Scope Z_scope.

Section table.
Context {Item : Type} (zero : Item).

(** [Table[Key, Item]]; [Key] is an [int32]. *)
Record Table := mkTable { masks : list Z; items : list Item; nextFree : Z }.

Definition Len (t : Table) : Z :=
  foldl (λ n mask, n + OnesCount64 mask) 0 (masks t).

(** New slots hold the zero values of [slices.Grow]'s fresh memory: the slices
    never shrink, so nothing stale lies between length and capacity. *)
Definition grow (t : Table) (n : Z) : Table :=
  {| masks := masks t ++ replicate (Z.to_nat n) 0;
     items := items t ++ replicate (Z.to_nat (n * 64)) zero;
     nextFree := nextFree t |}.

(** The [range] loop of [Insert]: the first word that is not full. *)
Fixpoint scan_free (ms : list Z) (index : Z) : option (Z * Z) :=
  match ms with
  | [] => None
  | mask :: ms =>
      if negb (u64 (Z.lnot mask) =? 0) then Some (index, mask)
      else scan_free ms (index + 1)
  end.

(** The body from the label [insert]; [fuel] counts the passes. *)
Fixpoint Insert_loop (fuel : nat) (t : Table) (offset : Z) (item : Item)
    : outcome unit (Table * Z * bool) :=
  match fuel with
  | O => NoFuel
  | S fuel =>
      if zlen (masks t) <? offset then Panic
      else match scan_free (drop (Z.to_nat offset) (masks t)) offset with
      | Some (index, mask) =>
          let shift := TrailingZeros64 (u64 (Z.lnot mask)) in
          let key := i32 (i32 (i32 index * 64) + i32 shift) in
          if (0 <=? key) && (key <? zlen (items t)) then
            Ok ({| masks := <[Z.to_nat index := Z.lor mask (u64 (Z.shiftl 1 shift))]> (masks t);
                   items := <[Z.to_nat key := item]> (items t);
                   nextFree := index |}, key, 0 <=? key)
          else Panic
      | None => Insert_loop fuel (grow t 1) (zlen (masks t)) item
      end
  end.

(** Two passes are enough: the word added by the first is free. *)
Definition Insert (t : Table) (item : Item) : outcome unit (Table * Z * bool) :=
  Insert_loop 2 t (nextFree t) item.

(** The item and whether it was found; [None] is (zero value, false). *)
Definition Lookup (t : Table) (key : Z) : outcome unit (option Item) :=
  if key <? 0 then Ok None
  else if key <? zlen (items t) then
    match masks t !! Z.to_nat (key `div` 64) with
    | None => Panic
    | Some mask =>
        if negb (Z.land mask (u64 (Z.shiftl 1 (key `mod` 64))) =? 0) then
          match items t !! Z.to_nat key with
          | Some item => Ok (Some item)
          | None => Panic
          end
        else Ok None
    end
  else Ok None.

Definition InsertAt (t : Table) (item : Item) (key : Z) : outcome unit (Table * bool) :=
  if key <? 0 then Ok (t, false)
  else
    let index := key `div` 64 in
    let diff := index - zlen (masks t) + 1 in
    let t := if 0 <? diff then grow t diff else t in
    let shift := key `mod` 64 in
    match masks t !! Z.to_nat index with
    | None => Panic
    | Some mask =>
        if key <? zlen (items t) then
          Ok ({| masks := <[Z.to_nat index := Z.lor mask (u64 (Z.shiftl 1 shift))]> (masks t);
                 items := <[Z.to_nat key := item]> (items t);
                 nextFree := nextFree t |}, true)
        else Panic
    end.

Definition Delete (t : Table) (key : Z) : outcome unit Table :=
  if key <? 0 then Ok t
  else
    let index := key `div` 64 in
    match masks t !! Z.to_nat index with
    | None => Ok t
    | Some mask =>
        let shift := key `mod` 64 in
        if negb (Z.land mask (u64 (Z.shiftl 1 shift)) =? 0) then
          if key <? zlen (items t) then
            Ok {| masks := <[Z.to_nat index :=
                     Z.land mask (u64 (Z.lnot (u64 (Z.shiftl 1 shift))))]> (masks t);
                  items := <[Z.to_nat key := zero]> (items t);
                  nextFree := if index <? nextFree t then index else nextFree t |}
          else Panic
        else Ok t
    end.

(** [Range] with a callback that threads a state; [true] asks to go on.  The
    inner result says whether the iteration was interrupted. *)
Fixpoint Range_bits {S} (f : Z → Item → S → S * bool) (its : list Item)
    (i mask : Z) (js : list Z) (s : S) : outcome unit (S * bool) :=
  match js with
  | [] => Ok (s, true)
  | j :: js =>
      if Z.land mask (u64 (Z.shiftl 1 j)) =? 0 then Range_bits f its i mask js s
      else
        let key := i32 (i32 (i32 i * 64) + j) in
        match (if key <? 0 then None else its !! Z.to_nat key) with
        | None => Panic
        | Some item =>
            let '(s, continue) := f key item s in
            if continue then Range_bits f its i mask js s else Ok (s, false)
        end
  end.

Fixpoint Range_masks {S} (f : Z → Item → S → S * bool) (its : list Item)
    (ms : list Z) (i : Z) (s : S) : outcome unit S :=
  match ms with
  | [] => Ok s
  | mask :: ms =>
      if mask =? 0 then Range_masks f its ms (i + 1) s
      else
        let* '(s, continue) := Range_bits f its i mask (seqZ 0 64) s in
        if continue : bool then Range_masks f its ms (i + 1) s else Ok s
  end.

Definition Range {S} (f : Z → Item → S → S * bool) (t : Table) (s : S) : outcome unit S :=
  Range_masks f (items t) (masks t) 0 s.

Definition Reset (t : Table) : Table :=
  {| masks := replicate (length (masks t)) 0;
     items := replicate (length (items t)) zero;
     nextFree := 0 |}.

(** The zero value of the struct. *)
Definition empty_table : Table := {| masks := []; items := []; nextFree := 0 |}.

(** * Invariant and abstraction *)

Definition is_word (m : Z) : Prop := 0 ≤ m < 2 ^ 64.

(** Bit [k mod 64] of word [k / 64]. *)
Definition used (ms : list Z) (k : Z) : bool :=
  match ms !! Z.to_nat (k `div` 64) with
  | Some mask => Z.testbit mask (k `mod` 64)
  | None => false
  end.

Definition slot (t : Table) (k : Z) : option Item :=
  if (0 <=? k) && used (masks t) k then items t !! Z.to_nat k else None.

(** The bitmap covers exactly the slots and no more than the 2^31 keys of an
    [int32], its words are 64 bits wide, the words below the hint are full, and
    a free slot holds no stale item. *)
Record wf (t : Table) : Prop := {
  wf_len : zlen (items t) = 64 * zlen (masks t);
  wf_cap : zlen (masks t) ≤ 2 ^ 25;
  wf_words : Forall is_word (masks t);
  wf_next : 0 ≤ nextFree t ≤ zlen (masks t);
  wf_full : ∀ k, 0 ≤ k < 64 * nextFree t → used (masks t) k = true;
  wf_zero : ∀ k x, 0 ≤ k → used (masks t) k = false →
      items t !! Z.to_nat k = Some x → x = zero;
}.

(** The table stores the map [m]. *)
Definition repr (t : Table) (m : gmap Z Item) : Prop :=
  wf t ∧ ∀ k, m !! k = slot t k.
End table.
Arguments Table : clear implicits.
Arguments wf {Item} zero t.
Arguments repr {Item} zero t m.

(** * Words *)

Lemma bit_test mask s :
  0 ≤ s < 64 → negb (Z.land mask (u64 (Z.shiftl 1 s)) =? 0) = Z.testbit mask s.
Proof.
  intros Hs. destruct (Z.eqb_spec (Z.land mask (u64 (Z.shiftl 1 s))) 0) as [E|E]; cbn.
  - apply (f_equal (λ z, Z.testbit z s)) in E.
    rewrite Z.land_spec, testbit_wrap, testbit_shiftl_1, Z.eqb_refl, Z.bits_0 in E by lia.
    rewrite (proj2 (Z.ltb_lt s 64)), andb_true_r in E by lia. by rewrite E.
  - destruct (Z.testbit mask s) eqn:Hb; [done|]. exfalso. apply E.
    apply Z.bits_inj'; intros i Hi.
    rewrite Z.land_spec, testbit_wrap, testbit_shiftl_1, Z.bits_0 by lia.
    destruct (Z.eqb_spec i s) as [->|]; [by rewrite Hb|]. by rewrite !andb_false_r.
Qed.

Lemma testbit_set mask s i :
  0 ≤ s < 64 → 0 ≤ i →
  Z.testbit (Z.lor mask (u64 (Z.shiftl 1 s))) i = (i =? s) || Z.testbit mask i.
Proof.
  intros Hs Hi. rewrite Z.lor_spec, testbit_wrap, testbit_shiftl_1 by lia.
  destruct (Z.eqb_spec i s) as [->|]; cbn.
  - rewrite (proj2 (Z.ltb_lt s 64)) by lia. by rewrite orb_true_r.
  - by rewrite andb_false_r, orb_false_r.
Qed.

Lemma testbit_clear mask s i :
  is_word mask → 0 ≤ s < 64 → 0 ≤ i →
  Z.testbit (Z.land mask (u64 (Z.lnot (u64 (Z.shiftl 1 s))))) i =
  negb (i =? s) && Z.testbit mask i.
Proof.
  intros Hm Hs Hi. rewrite Z.land_spec, testbit_wrap, Z.lnot_spec, testbit_wrap, testbit_shiftl_1 by lia.
  destruct (Z.ltb_spec i 64); cbn [andb].
  - by destruct (i =? s), (Z.testbit mask i).
  - assert (Z.testbit mask i = false) as ->.
    { rewrite <- (wrap_small 64 mask), testbit_wrap, (proj2 (Z.ltb_ge i 64)) by (lia || done). done. }
    by rewrite !andb_false_r.
Qed.

Lemma is_word_set mask s : is_word mask → 0 ≤ s < 64 → is_word (Z.lor mask (u64 (Z.shiftl 1 s))).
Proof.
  intros Hm Hs. unfold is_word.
  replace (Z.lor mask (u64 (Z.shiftl 1 s))) with (u64 (Z.lor mask (u64 (Z.shiftl 1 s)))).
  { apply wrap_range. lia. }
  apply Z.bits_inj'; intros i Hi. rewrite testbit_wrap by lia.
  destruct (Z.ltb_spec i 64); cbn [andb]; [done|].
  rewrite testbit_set by lia. destruct (Z.eqb_spec i s); [lia|]. cbn.
  rewrite <- (wrap_small 64 mask), testbit_wrap, (proj2 (Z.ltb_ge i 64)) by (lia || done). done.
Qed.

Lemma is_word_land mask x : is_word mask → is_word (Z.land mask (u64 x)).
Proof.
  intros Hm. unfold is_word.
  replace (Z.land mask (u64 x)) with (u64 (Z.land mask (u64 x))); [by apply wrap_range|].
  apply Z.bits_inj'; intros i Hi. rewrite testbit_wrap, Z.land_spec, testbit_wrap by lia.
  destruct (i <? 64); cbn [andb]; [done|]. by rewrite andb_false_r.
Qed.

(** A full word has every bit set; otherwise [TrailingZeros64] of the
    complement is the lowest clear bit. *)
Lemma word_full mask : u64 (Z.lnot mask) = 0 → ∀ s, 0 ≤ s < 64 → Z.testbit mask s = true.
Proof.
  intros E s Hs. apply (f_equal (λ z, Z.testbit z s)) in E.
  rewrite testbit_wrap, Z.lnot_spec, Z.bits_0, (proj2 (Z.ltb_lt s 64)) in E by lia.
  by destruct (Z.testbit mask s).
Qed.

Lemma word_free mask :
  u64 (Z.lnot mask) ≠ 0 →
  let s := TrailingZeros64 (u64 (Z.lnot mask)) in
  0 ≤ s < 64 ∧ Z.testbit mask s = false ∧ ∀ j, 0 ≤ j < s → Z.testbit mask j = true.
Proof.
  intros Hne s. destruct (trailing_zeros_spec 64 (u64 (Z.lnot mask))) as (Hs & Hb & Hlow).
  { destruct (decide (Exists (λ i, Z.testbit (u64 (Z.lnot mask)) i = true) (seqZ 0 64))) as [Hex|Hno].
    - apply Exists_exists in Hex as (i & Hi & Hb). exists i. apply elem_of_seqZ in Hi. split; [lia|done].
    - exfalso. apply Hne. apply (bits_inj_width 64); [lia|by apply wrap_range|lia|].
      intros i Hi. rewrite Z.bits_0. apply not_true_is_false. intros H. apply Hno.
      apply Exists_exists. exists i. split; [apply elem_of_seqZ; lia|done]. }
  fold TrailingZeros64 in *. fold s in Hs, Hb, Hlow. change (Z.of_nat 64) with 64 in Hs.
  rewrite testbit_wrap, Z.lnot_spec in Hb by lia. apply andb_true_iff in Hb as [_ Hb].
  split_and!; [lia|lia|by apply negb_true_iff|].
  intros j Hj. specialize (Hlow j Hj). rewrite testbit_wrap, Z.lnot_spec, (proj2 (Z.ltb_lt j 64)) in Hlow by lia.
  by destruct (Z.testbit mask j).
Qed.

(** * The bitmap *)

Lemma div64_nonneg k : 0 ≤ k → 0 ≤ k `div` 64 ∧ 0 ≤ k `mod` 64 < 64 ∧ k = 64 * (k `div` 64) + k `mod` 64.
Proof.
  intros. split; [by apply Z.div_pos|]. split; [by apply Z.mod_pos_bound|].
  by apply Z.div_mod.
Qed.

Lemma key_split i s : 0 ≤ s < 64 → (64 * i + s) `div` 64 = i ∧ (64 * i + s) `mod` 64 = s.
Proof.
  intros. split.
  - symmetry. apply (Z.div_unique _ _ i s); lia.
  - symmetry. apply (Z.mod_unique _ _ i s); lia.
Qed.

Lemma used_insert ms i mask mask' k :
  ms !! Z.to_nat i = Some mask → 0 ≤ i → 0 ≤ k →
  used (<[Z.to_nat i := mask']> ms) k =
    if k `div` 64 =? i then Z.testbit mask' (k `mod` 64) else used ms k.
Proof.
  intros Hi H0 Hk. unfold used. pose proof (div64_nonneg k Hk).
  destruct (Z.eqb_spec (k `div` 64) i) as [->|Hne].
  - rewrite list_lookup_insert_eq; [done|]. by eapply lookup_lt_Some.
  - rewrite list_lookup_insert_ne by lia. done.
Qed.

Lemma used_lookup ms i mask k :
  ms !! Z.to_nat i = Some mask → 0 ≤ k → k `div` 64 = i → used ms k = Z.testbit mask (k `mod` 64).
Proof. intros Hi Hk <-. unfold used. by rewrite Hi. Qed.

(** Clearing the bit of key [k] frees that key and no other. *)
Lemma used_clear ms k mask j :
  0 ≤ k → ms !! Z.to_nat (k `div` 64) = Some mask → is_word mask → 0 ≤ j →
  used (<[Z.to_nat (k `div` 64) :=
      Z.land mask (u64 (Z.lnot (u64 (Z.shiftl 1 (k `mod` 64)))))]> ms) j =
    negb (j =? k) && used ms j.
Proof.
  intros Hk Hx Hw Hj. pose proof (div64_nonneg k Hk) as (Hd & Hmd & Ek).
  pose proof (div64_nonneg j Hj) as (? & ? & Ej). rewrite used_insert with (mask := mask) by done.
  destruct (Z.eqb_spec (j `div` 64) (k `div` 64)) as [Ei|Ei].
  - rewrite testbit_clear by (eauto || lia). rewrite (used_lookup _ _ _ j Hx) by done. f_equal. f_equal.
    apply eq_true_iff_eq. rewrite !Z.eqb_eq. lia.
  - destruct (Z.eqb_spec j k) as [->|]; [lia|done].
Qed.

Lemma used_grow ms n k : used (ms ++ replicate n 0) k = used ms k.
Proof.
  unfold used. destruct (ms !! Z.to_nat (k `div` 64)) as [mask|] eqn:E.
  - by rewrite lookup_app_l by (by eapply lookup_lt_Some); rewrite E.
  - apply lookup_ge_None in E. rewrite lookup_app_r by done.
    destruct (replicate n 0 !! _) as [x|] eqn:E'; [|done].
    apply lookup_replicate in E' as [-> _]. apply Z.bits_0.
Qed.

Lemma used_range ms k : 0 ≤ k → used ms k = true → k < 64 * zlen ms.
Proof.
  intros Hk. unfold used. destruct (ms !! _) as [mask|] eqn:E; [|done]. intros _.
  apply lookup_lt_Some in E. pose proof (div64_nonneg k Hk). unfold zlen. lia.
Qed.

Lemma scan_free_Some ms o index mask :
  0 ≤ o → scan_free ms o = Some (index, mask) →
  ∃ j, index = o + Z.of_nat j ∧ ms !! j = Some mask ∧ u64 (Z.lnot mask) ≠ 0 ∧
       ∀ i x, (i < j)%nat → ms !! i = Some x → u64 (Z.lnot x) = 0.
Proof.
  revert o; induction ms as [|x ms IH]; intros o Ho; cbn; [done|].
  destruct (Z.eqb_spec (u64 (Z.lnot x)) 0) as [E|E]; cbn.
  - intros H. destruct (IH (o + 1) ltac:(lia) H) as (j & -> & Hj & Hne & Hall).
    exists (S j). split_and!; [lia|done|done|]. intros [|i] y Hi; cbn; [by intros [= <-]|].
    apply Hall. lia.
  - intros [= <- <-]. exists 0%nat. split_and!; [lia|done|done|]. lia.
Qed.

Lemma scan_free_None ms o :
  scan_free ms o = None → ∀ i x, ms !! i = Some x → u64 (Z.lnot x) = 0.
Proof.
  revert o; induction ms as [|x ms IH]; intros o; cbn; [done|].
  destruct (Z.eqb_spec (u64 (Z.lnot x)) 0) as [E|E]; cbn; [|done].
  intros H [|i] y; cbn; [by intros [= <-]|]. eauto.
Qed.

(** * The operations refine a finite map *)

Section refinement.
Context {Item : Type} (zero : Item).
Implicit Types (t : Table Item) (m : gmap Z Item) (k : Z).

Lemma slot_used t k :
  wf zero t → 0 ≤ k → is_Some (slot t k) ↔ used (masks t) k = true.
Proof.
  intros Hwf Hk. unfold slot. rewrite (proj2 (Z.leb_le 0 k)) by done. cbn.
  destruct (used (masks t) k) eqn:E; [|split; [by intros []|done]].
  split; [done|intros _]. apply lookup_lt_is_Some.
  pose proof (used_range _ _ Hk E). pose proof (wf_len _ _ Hwf). unfold zlen in *. lia.
Qed.

Lemma slot_neg t k : k < 0 → slot t k = None.
Proof. intros. unfold slot. by rewrite (proj2 (Z.leb_gt 0 k)). Qed.

Lemma repr_used t m k : repr zero t m → 0 ≤ k → (m !! k = None) ↔ used (masks t) k = false.
Proof.
  intros [Hwf Hm] Hk. rewrite Hm. rewrite <- not_true_iff_false, <- slot_used by done.
  by rewrite <- eq_None_not_Some.
Qed.

Lemma grow_wf t n :
  0 ≤ n → zlen (masks t) + n ≤ 2 ^ 25 → wf zero t → wf zero (grow zero t n).
Proof.
  intros Hn Hcap [Hlen _ Hw Hnext Hfull Hz]. constructor; cbn [grow masks items nextFree].
  - unfold zlen in *. rewrite !length_app, !length_replicate. lia.
  - unfold zlen in *. rewrite !length_app, !length_replicate. lia.
  - apply Forall_app; split; [done|]. apply Forall_replicate. unfold is_word. lia.
  - unfold zlen in *. rewrite length_app. lia.
  - intros k Hk. rewrite used_grow. auto.
  - intros k x Hk Hu. rewrite used_grow in Hu. intros Hx.
    apply lookup_app_Some in Hx as [Hx|[_ Hx]]; [eauto|].
    by apply lookup_replicate in Hx as [-> _].
Qed.

Lemma grow_slot t n k : wf zero t → slot (grow zero t n) k = slot t k.
Proof.
  intros Hwf. unfold slot. cbn. rewrite used_grow. destruct (Z.leb_spec 0 k); cbn; [|done].
  destruct (used (masks t) k) eqn:E; [|done].
  pose proof (used_range (masks t) k ltac:(lia) E). pose proof (wf_len _ _ Hwf).
  rewrite lookup_app_l; [done|]. unfold zlen in *. lia.
Qed.

Lemma grow_repr t m n :
  0 ≤ n → zlen (masks t) + n ≤ 2 ^ 25 → repr zero t m → repr zero (grow zero t n) m.
Proof.
  intros Hn Hcap [Hwf Hm]. split; [by apply grow_wf|]. intros k. by rewrite Hm, grow_slot.
Qed.

(** Setting a used bit and writing its slot is the map's insertion; the hint
    may be raised to any word all of whose predecessors are full. *)
Lemma set_slot_repr t m i s mask item next :
  repr zero t m → 0 ≤ i → 0 ≤ s < 64 → masks t !! Z.to_nat i = Some mask →
  0 ≤ next ≤ zlen (masks t) →
  (∀ k, 0 ≤ k < 64 * next → used (masks t) k = true) →
  repr zero
    {| masks := <[Z.to_nat i := Z.lor mask (u64 (Z.shiftl 1 s))]> (masks t);
       items := <[Z.to_nat (64 * i + s) := item]> (items t); nextFree := next |}
    (<[64 * i + s := item]> m).
Proof.
  intros [Hwf Hm] Hi Hs Hmask Hnext Hfull.
  assert (∀ k, 0 ≤ k → used (<[Z.to_nat i := Z.lor mask (u64 (Z.shiftl 1 s))]> (masks t)) k =
    (k =? 64 * i + s) || used (masks t) k) as Hused.
  { intros k Hk. pose proof (div64_nonneg k Hk) as (? & ? & Ek). rewrite used_insert with (mask := mask) by done.
    destruct (Z.eqb_spec (k `div` 64) i) as [Ei|Ei].
    - rewrite testbit_set by lia. rewrite (used_lookup _ i mask k) by done. f_equal.
      apply eq_true_iff_eq. rewrite !Z.eqb_eq. lia.
    - destruct (Z.eqb_spec k (64 * i + s)) as [->|]; [|done].
      destruct (key_split i s Hs). lia. }
  pose proof (lookup_lt_Some _ _ _ Hmask) as Hlt. pose proof (wf_len _ _ Hwf) as Hlen.
  split; [constructor; cbn|intros k; cbn].
  - unfold zlen in *. rewrite !length_insert. done.
  - unfold zlen. rewrite length_insert. apply Hwf.
  - apply Forall_insert; [apply Hwf|]. apply is_word_set; [|done].
    pose proof (wf_words _ _ Hwf) as Hw. rewrite Forall_lookup in Hw. eauto.
  - unfold zlen. rewrite length_insert. exact Hnext.
  - intros k Hk. rewrite Hused by lia. rewrite Hfull by lia. apply orb_true_r.
  - intros k x Hk Hu Hx. rewrite Hused in Hu by done. apply orb_false_iff in Hu as [Hne Hu].
    apply Z.eqb_neq in Hne. rewrite list_lookup_insert_ne in Hx by lia.
    eapply wf_zero; eauto.
  - rewrite lookup_insert. unfold slot. cbn. destruct (decide (64 * i + s = k)) as [<-|Hne].
    + rewrite (proj2 (Z.leb_le 0 (64 * i + s))) by lia. rewrite Hused, Z.eqb_refl by lia. cbn.
      rewrite list_lookup_insert_eq; [done|]. unfold zlen in *. lia.
    + rewrite Hm. unfold slot. destruct (Z.leb_spec 0 k); cbn; [|done].
      rewrite Hused by done. destruct (Z.eqb_spec k (64 * i + s)); [lia|]. cbn.
      rewrite list_lookup_insert_ne by lia. done.
Qed.

Lemma i32_key i s : 0 ≤ i < 2 ^ 25 → 0 ≤ s < 64 → i32 (i32 (i32 i * 64) + i32 s) = 64 * i + s.
Proof.
  intros Hi Hs. change (2 ^ 25) with 33554432 in Hi.
  assert (2 ^ (32 - 1) = 2147483648) as E by done.
  rewrite (swrap_small 32 i), (swrap_small 32 s), (swrap_small 32 (i * 64)) by lia.
  rewrite swrap_small; lia.
Qed.

(** One pass that finds a free word. *)
Lemma Insert_loop_found fuel t m offset item index mask :
  repr zero t m → 0 ≤ offset ≤ zlen (masks t) →
  (∀ k, 0 ≤ k < 64 * offset → used (masks t) k = true) →
  scan_free (drop (Z.to_nat offset) (masks t)) offset = Some (index, mask) →
  ∃ t' key, Insert_loop zero (S fuel) t offset item = Ok (t', key, true) ∧
    repr zero t' (<[key := item]> m) ∧ m !! key = None ∧
    (∀ j, 0 ≤ j < key → is_Some (m !! j)) ∧ 0 ≤ key < 2 ^ 31.
Proof.
  intros Hrepr Hoff Hfull Hscan. pose proof Hrepr as [Hwf Hm]. pose proof (wf_cap _ _ Hwf) as Hlen.
  cbn [Insert_loop]. rewrite (proj2 (Z.ltb_ge _ _)) by lia. rewrite Hscan.
  apply scan_free_Some in Hscan as (j & -> & Hmask & Hne & Hbefore); [|lia].
  rewrite lookup_drop in Hmask.
  replace (Z.to_nat offset + j)%nat with (Z.to_nat (offset + Z.of_nat j)) in Hmask by lia.
  set (i := offset + Z.of_nat j) in *.
  destruct (word_free mask Hne) as (Hs & Hclear & Hlow).
  set (s := TrailingZeros64 (u64 (Z.lnot mask))) in *. cbn zeta.
  pose proof (lookup_lt_Some _ _ _ Hmask) as Hlt. unfold zlen in *.
  rewrite i32_key by lia. pose proof (wf_len _ _ Hwf) as Hil. unfold zlen in Hil.
  rewrite in_range_true by lia.
  assert (∀ k, 0 ≤ k < 64 * i → used (masks t) k = true) as Hfull'.
  { intros k Hk. destruct (Z.lt_ge_cases k (64 * offset)); [auto with lia|].
    pose proof (div64_nonneg k ltac:(lia)) as (Hd & Hmd & Ek).
    destruct (lookup_lt_is_Some_2 (masks t) (Z.to_nat (k `div` 64))) as [x Hx]; [lia|].
    rewrite (used_lookup _ _ x k Hx) by lia. apply word_full; [|done].
    apply (Hbefore (Z.to_nat (k `div` 64) - Z.to_nat offset)%nat); [lia|].
    rewrite lookup_drop. replace (_ + _)%nat with (Z.to_nat (k `div` 64)) by lia. done. }
  eexists _, (64 * i + s). split_and!.
  - rewrite (proj2 (Z.leb_le 0 (64 * i + s))) by lia. reflexivity.
  - apply set_slot_repr; try done; unfold zlen; lia.
  - apply (repr_used t m); [done|lia|]. destruct (key_split i s Hs) as [E1 E2].
    rewrite (used_lookup _ i mask), E2 by (done || lia). done.
  - intros k Hk. destruct (m !! k) eqn:E; [done|]. exfalso.
    apply (repr_used t m) in E; [|done|lia].
    destruct (Z.lt_ge_cases k (64 * i)); [rewrite Hfull' in E by lia; done|].
    pose proof (div64_nonneg k ltac:(lia)) as (Hd & Hmd & Ek).
    assert (k `div` 64 = i) as Ei by lia.
    rewrite (used_lookup _ i mask k), Hlow in E by (done || lia). done.
  - lia.
  - change (2 ^ 25) with 33554432 in Hlen. change (2 ^ 31) with 2147483648. lia.
Qed.

Lemma scan_none_used t :
  wf zero t → scan_free (drop (Z.to_nat (nextFree t)) (masks t)) (nextFree t) = None →
  ∀ k, 0 ≤ k < 64 * zlen (masks t) → used (masks t) k = true.
Proof.
  intros Hwf Hscan k Hk. pose proof (wf_next _ _ Hwf) as Hnext.
  pose proof (div64_nonneg k ltac:(lia)) as (Hd0 & Hmd & Ek). unfold zlen in *.
  destruct (Z.lt_ge_cases k (64 * nextFree t)); [by apply (wf_full _ _ Hwf); lia|].
  destruct (lookup_lt_is_Some_2 (masks t) (Z.to_nat (k `div` 64))) as [x Hx]; [lia|].
  rewrite (used_lookup _ _ x k Hx) by lia. apply word_full; [|done].
  apply (scan_free_None _ _ Hscan (Z.to_nat (k `div` 64) - Z.to_nat (nextFree t))%nat).
  rewrite lookup_drop. replace (_ + _)%nat with (Z.to_nat (k `div` 64)) by lia. done.
Qed.

(** [Insert] puts the item at the lowest free key; with all 2^31 keys taken the
    computed key is negative and the slot write panics. *)
Lemma Insert_correct t m item :
  repr zero t m →
  (∃ t' key, Insert zero t item = Ok (t', key, true) ∧
    repr zero t' (<[key := item]> m) ∧ m !! key = None ∧
    (∀ j, 0 ≤ j < key → is_Some (m !! j)) ∧ 0 ≤ key < 2 ^ 31) ∨
  ((∀ j, 0 ≤ j < 2 ^ 31 → is_Some (m !! j)) ∧ Insert zero t item = Panic).
Proof.
  intros Hrepr. pose proof Hrepr as [Hwf Hm]. unfold Insert.
  pose proof (wf_next _ _ Hwf) as Hnext. pose proof (wf_cap _ _ Hwf) as Hcap.
  destruct (scan_free (drop (Z.to_nat (nextFree t)) (masks t)) (nextFree t)) as [[index mask]|] eqn:Hscan.
  { left. eapply Insert_loop_found; eauto. apply Hwf. }
  pose proof (scan_none_used t Hwf Hscan) as Hused.
  cbn [Insert_loop]. rewrite (proj2 (Z.ltb_ge _ _)) by lia. rewrite Hscan.
  fold (Insert_loop zero 1 (grow zero t 1) (zlen (masks t)) item).
  assert (drop (Z.to_nat (zlen (masks t))) (masks (grow zero t 1)) = [0]) as Hd.
  { cbn [grow masks]. unfold zlen. by rewrite Nat2Z.id, drop_app_length. }
  assert (zlen (masks (grow zero t 1)) = zlen (masks t) + 1) as Hg.
  { cbn [grow masks]. unfold zlen. rewrite length_app, length_replicate. lia. }
  destruct (Z.eq_dec (zlen (masks t)) (2 ^ 25)) as [Hmax|Hlt].
  - right. split.
    { intros j Hj. rewrite Hm. apply slot_used; [done|lia|]. apply Hused. rewrite Hmax.
      change (64 * 2 ^ 25) with (2 ^ 31). done. }
    cbn [Insert_loop]. rewrite Hg, Hd, Hmax. done.
  - left. destruct (Insert_loop_found 0 (grow zero t 1) m (zlen (masks t)) item (zlen (masks t)) 0) as (t' & key & H); try done.
    + apply grow_repr; [lia|lia|done].
    + rewrite Hg. unfold zlen. lia.
    + intros k Hk. cbn [grow masks]. rewrite used_grow. by apply Hused.
    + by rewrite Hd.
    + eauto.
Qed.

Lemma Lookup_correct t m k : repr zero t m → Lookup t k = Ok (m !! k).
Proof.
  intros [Hwf Hm]. rewrite Hm. unfold Lookup, slot.
  destruct (Z.ltb_spec k 0); [by rewrite (proj2 (Z.leb_gt 0 k))|].
  rewrite (proj2 (Z.leb_le 0 k)) by lia. cbn [andb].
  pose proof (div64_nonneg k ltac:(lia)) as (Hd & Hmd & Ek). pose proof (wf_len _ _ Hwf) as Hlen.
  destruct (Z.ltb_spec k (zlen (items t))) as [Hlt|Hge].
  - destruct (lookup_lt_is_Some_2 (masks t) (Z.to_nat (k `div` 64))) as [mask Hx]; [unfold zlen in *; lia|].
    rewrite Hx, bit_test by lia. rewrite (used_lookup _ _ _ _ Hx) by lia.
    destruct (Z.testbit mask (k `mod` 64)); [|done].
    destruct (lookup_lt_is_Some_2 (items t) (Z.to_nat k)) as [x Hi]; [unfold zlen in *; lia|]. by rewrite Hi.
  - destruct (used (masks t) k) eqn:E; [|done].
    pose proof (used_range _ k ltac:(lia) E). lia.
Qed.

Lemma InsertAt_correct t m item k :
  repr zero t m →
  (k < 0 → InsertAt zero t item k = Ok (t, false)) ∧
  (0 ≤ k < 2 ^ 31 → ∃ t', InsertAt zero t item k = Ok (t', true) ∧ repr zero t' (<[k := item]> m)).
Proof.
  intros Hrepr. unfold InsertAt. split; intros Hk; [by rewrite (proj2 (Z.ltb_lt k 0))|].
  rewrite (proj2 (Z.ltb_ge k 0)) by lia. cbn zeta.
  destruct Hk as [Hk Hmax]. pose proof Hrepr as [Hwf0 _]. pose proof (wf_cap _ _ Hwf0) as Hcap.
  set (t1 := if 0 <? _ then _ else _).
  pose proof (div64_nonneg k Hk) as (Hd & Hmd & Ek).
  assert (repr zero t1 m ∧ k `div` 64 < zlen (masks t1) ∧ nextFree t1 = nextFree t) as (Hr1 & Hlen1 & Hn1).
  { unfold t1. destruct (Z.ltb_spec 0 (k `div` 64 - zlen (masks t) + 1)); [|split_and!; [done|lia|done]].
    split_and!; [apply grow_repr; [lia| |done]| |done].
    { change (2 ^ 31) with (64 * 2 ^ 25) in Hmax. lia. }
    cbn. unfold zlen in *. rewrite length_app, length_replicate. lia. }
  clearbody t1. pose proof Hr1 as [Hwf _]. pose proof (wf_len _ _ Hwf) as Hlen.
  destruct (lookup_lt_is_Some_2 (masks t1) (Z.to_nat (k `div` 64))) as [mask Hx]; [unfold zlen in *; lia|].
  rewrite Hx. rewrite (proj2 (Z.ltb_lt k _)) by lia. eexists. split; [done|].
  pose proof (set_slot_repr t1 m (k `div` 64) (k `mod` 64) mask item (nextFree t1)
    Hr1 Hd Hmd Hx (wf_next _ _ Hwf) (wf_full _ _ Hwf)) as H.
  rewrite <- Ek in H. exact H.
Qed.

Lemma Delete_correct t m k :
  repr zero t m → ∃ t', Delete zero t k = Ok t' ∧ repr zero t' (delete k m).
Proof.
  intros Hrepr. pose proof Hrepr as [Hwf Hm]. unfold Delete.
  destruct (Z.ltb_spec k 0) as [Hneg|Hk].
  { exists t. split; [done|]. rewrite delete_id; [done|]. by rewrite Hm, slot_neg. }
  pose proof (div64_nonneg k Hk) as (Hd & Hmd & Ek). cbn zeta.
  destruct (masks t !! Z.to_nat (k `div` 64)) as [mask|] eqn:Hx.
  2:{ exists t. split; [done|]. rewrite delete_id; [done|]. apply (repr_used t); [done..|].
      unfold used. by rewrite Hx. }
  rewrite bit_test by done. destruct (Z.testbit mask (k `mod` 64)) eqn:Hb.
  2:{ exists t. split; [done|]. rewrite delete_id; [done|]. apply (repr_used t); [done..|].
      by rewrite (used_lookup _ _ _ _ Hx). }
  pose proof (lookup_lt_Some _ _ _ Hx) as Hlt. pose proof (wf_len _ _ Hwf) as Hlen.
  pose proof (wf_words _ _ Hwf) as Hwords. rewrite Forall_lookup in Hwords.
  rewrite (proj2 (Z.ltb_lt k _)) by (unfold zlen in *; lia). eexists. split; [reflexivity|].
  pose proof (λ j, used_clear (masks t) k mask j Hk Hx (Hwords _ _ Hx)) as Hused.
  split; [constructor; cbn|intros j; cbn].
  - unfold zlen in *. rewrite !length_insert. done.
  - unfold zlen. rewrite length_insert. apply Hwf.
  - apply Forall_insert; [apply Hwf|]. apply is_word_land. eauto.
  - pose proof (wf_next _ _ Hwf). unfold zlen in *. rewrite length_insert.
    destruct (Z.ltb_spec (k `div` 64) (nextFree t)); lia.
  - intros j Hj. rewrite Hused by lia.
    assert (j < 64 * (k `div` 64) ∧ j < 64 * nextFree t ∨ 64 * nextFree t ≤ 64 * (k `div` 64) ∧ j < 64 * nextFree t) as Hc
      by (destruct (Z.ltb_spec (k `div` 64) (nextFree t)); lia).
    destruct (Z.eqb_spec j k); [lia|]. cbn. apply (wf_full _ _ Hwf). lia.
  - intros j x Hj Hu Hxx. rewrite Hused in Hu by done. destruct (Z.eqb_spec j k) as [->|Hne].
    + rewrite list_lookup_insert_eq in Hxx by (unfold zlen in *; lia). congruence.
    + rewrite list_lookup_insert_ne in Hxx by lia. eapply wf_zero; eauto.
  - rewrite lookup_delete. unfold slot. cbn. destruct (Z.leb_spec 0 j) as [Hj|Hj]; cbn.
    + rewrite Hused by done. destruct (decide (k = j)) as [->|Hne]; [by rewrite Z.eqb_refl|].
      destruct (Z.eqb_spec j k); [lia|]. cbn. rewrite Hm. unfold slot.
      rewrite (proj2 (Z.leb_le 0 j)) by done. cbn.
      rewrite list_lookup_insert_ne by lia. done.
    + destruct (decide (k = j)); [done|]. by rewrite Hm, slot_neg.
Qed.

Lemma Reset_correct t m : repr zero t m → repr zero (Reset zero t) ∅.
Proof.
  intros [Hwf Hm].
  assert (∀ n k, used (replicate n 0) k = false) as Hu.
  { intros n k. pose proof (used_grow [] n k) as H. cbn [app] in H. rewrite H. unfold used. done. }
  split; [constructor; cbn|intros k; cbn].
  - unfold zlen. rewrite !length_replicate. apply (wf_len _ _ Hwf).
  - unfold zlen. rewrite length_replicate. apply Hwf.
  - apply Forall_replicate. unfold is_word. lia.
  - unfold zlen. lia.
  - lia.
  - intros k x _ _ Hx. by apply lookup_replicate in Hx as [-> _].
  - rewrite lookup_empty. unfold slot. cbn. by rewrite Hu, andb_false_r.
Qed.

Lemma empty_correct : repr zero empty_table ∅.
Proof.
  split; [constructor; cbn; try done; try (unfold zlen; cbn; lia); lia|].
  intros k. rewrite lookup_empty. unfold slot. cbn. by rewrite andb_false_r.
Qed.

(** * Iteration *)

Definition keys t : list Z :=
  filter (λ k, used (masks t) k = true) (seqZ 0 (64 * zlen (masks t))).

Definition entries_of (its : list Item) (ks : list Z) : list (Z * Item) :=
  omap (λ k, pair k <$> its !! Z.to_nat k) ks.

(** The used slots in increasing key order. *)
Definition entries t : list (Z * Item) := entries_of (items t) (keys t).

(** The callback over a list of entries, stopping when it asks to. *)
Fixpoint fold_until {S} (f : Z → Item → S → S * bool) (l : list (Z * Item)) (s : S) : S * bool :=
  match l with
  | [] => (s, true)
  | (k, x) :: l => let '(s, c) := f k x s in if c : bool then fold_until f l s else (s, false)
  end.

Lemma fold_until_app {S} (f : Z → Item → S → S * bool) l1 l2 s :
  fold_until f (l1 ++ l2) s =
    let '(s, c) := fold_until f l1 s in if c : bool then fold_until f l2 s else (s, false).
Proof.
  revert s; induction l1 as [|[k x] l1 IH]; intros s; cbn; [done|].
  destruct (f k x s) as [s' []]; [apply IH|done].
Qed.

Lemma entries_of_app its l1 l2 : entries_of its (l1 ++ l2) = entries_of its l1 ++ entries_of its l2.
Proof. unfold entries_of. by rewrite omap_app. Qed.

Lemma Range_bits_spec {S} (f : Z → Item → S → S * bool) its i mask js s :
  0 ≤ i < 2 ^ 25 → Forall (λ j, 0 ≤ j < 64) js → 64 * i + 64 ≤ zlen its →
  Range_bits f its i mask js s =
    Ok (fold_until f (entries_of its (Z.add (64 * i) <$> filter (λ j, Z.testbit mask j = true) js)) s).
Proof.
  intros Hi Hjs Hlen. revert s; induction Hjs as [|j js Hj _ IH]; intros s; cbn [Range_bits]; [done|].
  rewrite filter_cons. pose proof (bit_test mask j Hj) as Hb.
  destruct (Z.land mask (u64 (Z.shiftl 1 j)) =? 0); cbn in Hb; rewrite <- Hb.
  - rewrite decide_False by done. apply IH.
  - rewrite decide_True by done. pose proof (i32_key i j Hi Hj) as Hkey.
    rewrite (swrap_small 32 j) in Hkey by (change (2 ^ (32 - 1)) with 2147483648; lia). rewrite Hkey. rewrite (proj2 (Z.ltb_ge _ _)) by lia.
    destruct (lookup_lt_is_Some_2 its (Z.to_nat (64 * i + j))) as [x Hx]; [unfold zlen in *; lia|].
    rewrite Hx. cbn [fmap list_fmap entries_of omap list_omap]. rewrite Hx. cbn.
    destruct (f (64 * i + j) x s) as [s' []]; [apply IH|done].
Qed.

(** The used keys of word [i] are those its mask marks. *)
Lemma keys_word pre mask ms :
  filter (λ k, used (pre ++ mask :: ms) k = true) (seqZ (64 * zlen pre) 64) =
  Z.add (64 * zlen pre) <$> filter (λ j, Z.testbit mask j = true) (seqZ 0 64).
Proof.
  rewrite <- (Z.add_0_r (64 * zlen pre)) at 1. rewrite <- fmap_add_seqZ, filter_fmap_comm. f_equal.
  apply filter_ext_in. intros j Hj. apply elem_of_seqZ in Hj.
  destruct (key_split (zlen pre) j) as [E1 E2]; [lia|].
  rewrite (used_lookup _ (zlen pre) mask), E2; [done| |unfold zlen; lia|done].
  by apply lookup_pre_cons.
Qed.

Lemma Range_masks_spec {S} (f : Z → Item → S → S * bool) its pre ms s :
  zlen (pre ++ ms) ≤ 2 ^ 25 → zlen its = 64 * zlen (pre ++ ms) →
  Range_masks f its ms (zlen pre) s =
    Ok (fold_until f (entries_of its
          (filter (λ k, used (pre ++ ms) k = true) (seqZ (64 * zlen pre) (64 * zlen ms)))) s).1.
Proof.
  revert pre s; induction ms as [|mask ms IH]; intros pre s Hlen Hits; cbn [Range_masks]; [done|].
  assert (zlen (pre ++ mask :: ms) = zlen pre + 1 + zlen ms) as El
    by (unfold zlen; rewrite length_app; cbn; lia).
  assert (0 ≤ zlen pre ∧ 0 ≤ zlen ms) as [? ?] by (unfold zlen; lia).
  replace (64 * zlen (mask :: ms)) with (64 + 64 * zlen ms) by (unfold zlen; cbn; lia).
  rewrite seqZ_app, filter_app, entries_of_app, keys_word, fold_until_app by lia.
  replace (64 * zlen pre + 64) with (64 * zlen (pre ++ [mask])) by (unfold zlen; rewrite length_app; cbn; lia).
  replace (zlen pre + 1) with (zlen (pre ++ [mask])) in * by (unfold zlen; rewrite length_app; cbn; lia).
  specialize (IH (pre ++ [mask])). rewrite <- app_assoc in IH. cbn [app] in IH.
  destruct (Z.eqb_spec mask 0) as [->|Hne].
  - rewrite (filter_ext_in _ (λ _, False)); [|intros j _; rewrite Z.bits_0; done].
    assert (∀ l : list Z, filter (λ _, False) l = []) as -> by (by induction l).
    cbn. by apply IH.
  - rewrite Range_bits_spec; [|split; [lia|]|apply Forall_seqZ; lia|].
    2: { unfold zlen in *. rewrite !length_app in *. cbn in *. lia. }
    2: { unfold zlen in *. rewrite !length_app in *. cbn in *. lia. }
    cbn [obind]. destruct (fold_until f _ s) as [s' []]; [by apply IH|done].
Qed.

Lemma Range_correct {S} (f : Z → Item → S → S * bool) t m s :
  repr zero t m → Range f t s = Ok (fold_until f (entries t) s).1.
Proof.
  intros [Hwf _]. unfold Range. change 0 with (zlen (@nil Z)) at 1.
  rewrite (Range_masks_spec f (items t) [] (masks t)); [done|apply Hwf|apply Hwf].
Qed.

Lemma entries_keys t m : repr zero t m → (entries t).*1 = keys t.
Proof.
  intros [Hwf _]. unfold entries, entries_of.
  assert (∀ k, k ∈ keys t → is_Some (items t !! Z.to_nat k)) as Hin.
  { intros k Hk. apply list_elem_of_filter in Hk as [Hu Hk]. apply elem_of_seqZ in Hk.
    apply lookup_lt_is_Some. pose proof (wf_len _ _ Hwf). unfold zlen in *. lia. }
  induction (keys t) as [|k ks IH]; [done|]. cbn.
  destruct (Hin k) as [x Hx]; [set_solver|]. rewrite Hx. cbn. f_equal. apply IH. set_solver.
Qed.

Lemma entries_map t m k x : repr zero t m → (k, x) ∈ entries t ↔ m !! k = Some x.
Proof.
  intros [Hwf Hm]. unfold entries, entries_of. rewrite list_elem_of_omap, Hm. split.
  - intros (k' & Hk & Hx). apply list_elem_of_filter in Hk as [Hu Hk]. apply elem_of_seqZ in Hk.
    apply fmap_Some in Hx as (y & Hy & [= -> ->]). unfold slot.
    rewrite (proj2 (Z.leb_le 0 k')), Hu by lia. done.
  - intros Hx. assert (0 ≤ k) as Hk.
    { destruct (Z.lt_ge_cases k 0); [|done]. by rewrite slot_neg in Hx. }
    assert (used (masks t) k = true) as Hu by (apply (slot_used t); eauto).
    exists k. split.
    + apply list_elem_of_filter. split; [done|]. apply elem_of_seqZ.
      pose proof (used_range _ k Hk Hu). lia.
    + unfold slot in Hx. rewrite (proj2 (Z.leb_le 0 k)), Hu in Hx by done. cbn in Hx. by rewrite Hx.
Qed.

Lemma keys_sorted t : StronglySorted Z.lt (keys t).
Proof.
  unfold keys. apply StronglySorted_filter.
  generalize 0, (64 * zlen (masks t)). intros a n.
  destruct (Z.le_gt_cases 0 n) as [Hn|Hn]; [|by rewrite seqZ_nil by lia; constructor].
  revert a. pattern n. apply natlike_ind; [intros a; by rewrite seqZ_nil; [constructor|lia]| |done].
  intros k Hk IH a. rewrite seqZ_cons by lia. constructor; [rewrite Z.pred_succ; apply IH|].
  apply Forall_forall. intros j Hj. apply elem_of_seqZ in Hj. lia.
Qed.

Lemma Len_keys t : Len t = zlen (keys t).
Proof.
  unfold Len, keys.
  assert (∀ ms pre n, foldl (λ n mask, n + OnesCount64 mask) n ms =
    n + zlen (filter (λ k, used (pre ++ ms) k = true) (seqZ (64 * zlen pre) (64 * zlen ms)))) as H.
  { induction ms as [|mask ms IH]; intros pre n; cbn [foldl].
    { rewrite seqZ_nil by (unfold zlen; cbn; lia). unfold zlen; cbn; lia. }
    rewrite (IH (pre ++ [mask])), <- app_assoc. cbn [app].
    replace (64 * zlen (mask :: ms)) with (64 + 64 * zlen ms) by (unfold zlen; cbn; lia).
    rewrite seqZ_app, filter_app, keys_word by (unfold zlen; lia).
    replace (64 * zlen pre + 64) with (64 * zlen (pre ++ [mask])) by (unfold zlen; rewrite length_app; cbn; lia).
    rewrite (zlen_app (_ <$> _)). unfold OnesCount64. rewrite <- (length_fmap (Z.add (64 * zlen pre)) (filter (λ i, Z.testbit mask i = true) (seqZ 0 64))). unfold zlen. lia. }
  rewrite (H (masks t) [] 0). done.
Qed.

Lemma Len_correct t m : repr zero t m → Len t = Z.of_nat (size m).
Proof.
  intros Hr. rewrite Len_keys. unfold zlen. f_equal.
  assert (NoDup (entries t).*1) as Hnd.
  { rewrite (entries_keys t m) by done. apply StronglySorted_NoDup_Zlt, keys_sorted. }
  rewrite <- (entries_keys t m) by done. rewrite length_fmap.
  assert (m = list_to_map (entries t)) as ->.
  { apply map_eq. intros k. apply option_eq. intros x. rewrite <- (entries_map t m) by done.
    by apply elem_of_list_to_map. }
  by rewrite map_size_list_to_map.
Qed.
End refinement.

(** * Tables built by the operations *)

(** The tables a client can build from the zero value: every operation that
    changes the state is a step. *)
Inductive reachable {Item} (zero : Item) : Table Item → Prop :=
| reach_zero : reachable zero empty_table
| reach_Insert t item t' key ok :
    reachable zero t → Insert zero t item = Ok (t', key, ok) → reachable zero t'
| reach_InsertAt t item key t' ok :
    reachable zero t → -2 ^ 31 ≤ key < 2 ^ 31 →
    InsertAt zero t item key = Ok (t', ok) → reachable zero t'
| reach_Delete t key t' :
    reachable zero t → Delete zero t key = Ok t' → reachable zero t'
| reach_Reset t : reachable zero t → reachable zero (Reset zero t).

(** Every table reachable from the zero value by any sequence of [Insert],
    [InsertAt], [Delete] and [Reset] (with keys of type [int32]) is well formed
    and stores a finite map: the bitmap, the slots and the [nextFree] hint are
    consistent, and [Lookup] of every key answers that map. *)
Theorem reachable_stores_map {Item} (zero : Item) t :
  reachable zero t → ∃ m, repr zero t m ∧ ∀ k, Lookup t k = Ok (m !! k).
Proof.
  intros Hr. assert (∃ m, repr zero t m) as [m Hm].
  { induction Hr as [|t item t' key ok _ [m Hm] E|t item key t' ok _ [m Hm] Hk E
      |t key t' _ [m Hm] E|t _ [m Hm]].
    - eexists. apply empty_correct.
    - destruct (Insert_correct zero t m item Hm) as [(t1 & k1 & E1 & Hr1 & _)|[_ E1]]; [|congruence].
      rewrite E1 in E. injection E as <- <- <-. eauto.
    - destruct (InsertAt_correct zero t m item key Hm) as [Hneg Hpos].
      destruct (Z.lt_ge_cases key 0) as [Hlt|Hge].
      + rewrite Hneg in E by done. injection E as <- <-. eauto.
      + destruct Hpos as (t1 & E1 & Hr1); [lia|]. rewrite E1 in E. injection E as <- <-. eauto.
    - destruct (Delete_correct zero t m key Hm) as (t1 & E1 & Hr1). rewrite E1 in E.
      injection E as <-. eauto.
    - eexists. by eapply Reset_correct. }
  exists m. split; [done|]. intros k. by apply Lookup_correct with zero.
Qed.

(** A table holding 7 at key 0 and 9 at key 70, built by the operations. *)
Definition sample_table1 : Table Z :=
  match Insert 0 empty_table 7 with Ok (t, _, _) => t | _ => empty_table end.
Definition sample_table : Table Z :=
  match InsertAt 0 sample_table1 9 70 with Ok (t, _) => t | _ => empty_table end.
Definition sample_map : gmap Z Z := <[70 := 9]> (<[0 := 7]> ∅).

Lemma sample_table_reachable : reachable 0 sample_table.
Proof.
  apply (reach_InsertAt 0 sample_table1 9 70 _ true); [|lia|vm_compute; reflexivity].
  apply (reach_Insert 0 empty_table 7 _ 0 true); [apply reach_zero|vm_compute; reflexivity].
Qed.

Lemma sample_table_repr : repr 0 sample_table sample_map.
Proof.
  destruct (Insert_correct 0 empty_table ∅ 7 (empty_correct 0)) as [(t1 & k1 & E1 & Hr1 & _)|[_ E1]];
    [|vm_compute in E1; discriminate].
  assert (k1 = 0) as ->. { vm_compute in E1. congruence. }
  destruct (InsertAt_correct 0 t1 _ 9 70 Hr1) as [_ H]. destruct H as (t2 & E2 & Hr2); [lia|].
  unfold sample_table, sample_table1. rewrite E1, E2. exact Hr2.
Qed.

Lemma reachable_stores_map_witness :
  ∃ m, repr 0 sample_table m ∧ ∀ k, Lookup sample_table k = Ok (m !! k).
Proof. apply (reachable_stores_map 0 sample_table sample_table_reachable). Defined.

(** [Insert] stores the item under the lowest key that is not in use, and
    changes nothing else; the key is a non-negative [int32].  When all 2^31 keys
    are in use it panics. *)
Theorem Insert_lowest_free {Item} (zero : Item) t m item :
  repr zero t m →
  (∃ t' key, Insert zero t item = Ok (t', key, true) ∧
    repr zero t' (<[key := item]> m) ∧ m !! key = None ∧
    (∀ j, 0 ≤ j < key → is_Some (m !! j)) ∧ 0 ≤ key < 2 ^ 31) ∨
  ((∀ j, 0 ≤ j < 2 ^ 31 → is_Some (m !! j)) ∧ Insert zero t item = Panic).
Proof. apply Insert_correct. Qed.

Lemma Insert_lowest_free_witness :
  repr 0 sample_table sample_map ∧
  ((∃ t' key, Insert 0 sample_table 5 = Ok (t', key, true) ∧
    repr 0 t' (<[key := 5]> sample_map) ∧ sample_map !! key = None ∧
    (∀ j, 0 ≤ j < key → is_Some (sample_map !! j)) ∧ 0 ≤ key < 2 ^ 31) ∨
   ((∀ j, 0 ≤ j < 2 ^ 31 → is_Some (sample_map !! j)) ∧ Insert 0 sample_table 5 = Panic)).
Proof.
  split; [exact sample_table_repr|].
  apply (Insert_lowest_free 0 sample_table sample_map 5 sample_table_repr).
Defined.

(** C39. The table implements a finite map: on a table that stores [m],
    [Lookup] answers [m], [InsertAt] overwrites one key (and refuses a negative
    one without touching the table), [Delete] removes one key, whatever it is,
    and [Reset] empties it.  None of them panics. *)
Theorem table_refines_map {Item} (zero : Item) t m :
  repr zero t m →
  (∀ k, Lookup t k = Ok (m !! k)) ∧
  (∀ x k, k < 0 → InsertAt zero t x k = Ok (t, false)) ∧
  (∀ x k, 0 ≤ k < 2 ^ 31 → ∃ t', InsertAt zero t x k = Ok (t', true) ∧ repr zero t' (<[k := x]> m)) ∧
  (∀ k, ∃ t', Delete zero t k = Ok t' ∧ repr zero t' (delete k m)) ∧
  repr zero (Reset zero t) ∅.
Proof.
  intros Hr. split_and!.
  - intros k. by apply Lookup_correct with zero.
  - intros x k. by apply InsertAt_correct with m.
  - intros x k. by apply InsertAt_correct.
  - intros k. by apply Delete_correct.
  - by apply Reset_correct with m.
Qed.

Lemma table_refines_map_witness :
  Lookup sample_table 70 = Ok (Some 9) ∧
  ∃ t', Delete 0 sample_table 0 = Ok t' ∧ repr 0 t' (delete 0 sample_map).
Proof.
  destruct (table_refines_map 0 sample_table sample_map sample_table_repr) as (H1 & _ & _ & H4 & _).
  split; [exact (H1 70)|exact (H4 0)].
Defined.

(** [Range] calls its function on exactly the entries of the map, in
    increasing key order, stopping as soon as the function asks to; [Len] is the
    number of entries. *)
Theorem Range_Len_correct {Item S} (zero : Item) (f : Z → Item → S → S * bool) t m s :
  repr zero t m →
  Len t = Z.of_nat (size m) ∧
  ∃ l, Range f t s = Ok (fold_until f l s).1 ∧
    (∀ k x, (k, x) ∈ l ↔ m !! k = Some x) ∧ StronglySorted Z.lt l.*1.
Proof.
  intros Hr. split; [by apply Len_correct with zero|]. exists (entries t). split_and!.
  - by apply Range_correct with zero m.
  - intros k x. by apply entries_map with zero.
  - rewrite (entries_keys zero t m) by done. apply keys_sorted.
Qed.

Lemma Range_Len_correct_witness :
  Len sample_table = 2 ∧
  ∃ l, Range (λ k x s, (s + k + x, true)) sample_table 0 = Ok (fold_until (λ k x s, (s + k + x, true)) l 0).1 ∧
    (∀ k x, (k, x) ∈ l ↔ sample_map !! k = Some x) ∧ StronglySorted Z.lt l.*1.
Proof.
  exact (Range_Len_correct 0 (λ k x s, (s + k + x, true)) sample_table sample_map 0 sample_table_repr).
Defined.
