(* ===== verification/AbiTypes.v ===== *)
(** Component types and values: the descriptors of
    [internal/component/binary/descriptor.go], the values of
    [internal/component/abi/value.go] and [resolveType] of
    [internal/component/abi/layout.go].

    A descriptor refers to its parts by [TypeRef]: a primitive name or an index
    that a [Resolver] looks up, so a descriptor is a node of a type graph and
    not a tree.  The specification works on trees ([ty]); [denotes] relates a
    descriptor to the tree its references unfold to. *)
From Stdlib Require Import ZArith Lia String.
From stdpp Require Import base list numbers option tactics.
From S2P Require Import Prelude.
Local Open Scope Z_scope.
Set Warnings "-register-all".

(** * Descriptors *)

(** The primitive names the code knows; [Punknown] is any other name, the empty
    string included. *)
Inductive Prim : Type :=
| Pbool | Ps8 | Pu8 | Ps16 | Pu16 | Ps32 | Pu32 | Ps64 | Pu64
| Pf32 | Pf64 | Pchar | Pstring | PerrorContext
| Punknown (name : string).

#[local] Instance string_eq_decision : EqDecision string := string_dec.
#[export] Instance Prim_eq_dec : EqDecision Prim.
Proof. solve_decision. Defined.

Record TypeRef := mkTypeRef { Primitive : Prim; TypeIndex : option Z }.

(** A reference to a primitive, and one to an index. *)
Definition prim_ref (p : Prim) : TypeRef := {| Primitive := p; TypeIndex := None |}.
Definition idx_ref (i : Z) : TypeRef := {| Primitive := Punknown ""; TypeIndex := Some i |}.

Record RecordField := mkField { rf_Name : string; rf_Type : TypeRef }.
Record VariantCase := mkCase { vc_Name : string; vc_Type : option TypeRef }.
Record FuncParam := mkParam { fp_Name : string; fp_Type : TypeRef }.
Record FuncResults := mkResults { Unnamed : option TypeRef; Named : list FuncParam }.

(** The descriptors.  The bodies of instance and component types are never
    read by the code that is modelled here, which rejects these kinds. *)
Inductive TypeDesc : Type :=
| PrimitiveDesc (prim : Prim)
| RecordDesc (fields : list RecordField)
| VariantDesc (cases : list VariantCase)
| ListDesc (element : TypeRef)
| FixedListDesc (element : TypeRef) (length : Z)
| TupleDesc (elements : list TypeRef)
| MapDesc (key value : TypeRef)
| FlagsDesc (names : list string)
| EnumDesc (cases : list string)
| OptionDesc (element : TypeRef)
| ResultDesc (ok err : option TypeRef)
| OwnDesc (resource : Z)
| BorrowDesc (resource : Z)
| StreamDesc (element : option TypeRef)
| FutureDesc (element : option TypeRef)
| FuncDesc (params : list FuncParam) (results : FuncResults) (async : bool)
| InstanceDesc
| ComponentDesc
| ResourceDesc (rep : TypeRef) (dtor : option Z).

(** [nil] or a function from an index to a descriptor or nil. *)
Definition Resolver : Type := option (Z → option TypeDesc).

(** * Errors

    One constructor per error the code builds; [EAt] is an error wrapped with
    the place it occurred ([fmt.Errorf] with [%w]). *)
Inductive abi_error : Type :=
| EUnknownPrimitive (p : Prim)
| EUnsupported
| ENilRef
| ENoResolver (idx : Z)
| EIndexNotFound (idx : Z)
| EEmptyRef
| EInvalidFlags (n : Z)
| EInvalidEnum (n : Z)
| EFixedListSize (n size : Z)
| EFlatWidth
| EInvalidContext
| EUnaligned (ptr align : Z)
| EOverflow (ptr size memlen : Z)
| EBadWidth (nbytes : Z)
| ECharRange (i : Z)
| ECharSurrogate (i : Z)
| EUtf8
| ECaseIndex (i n : Z)
| EDiscriminant (i : Z)
| EValueKind
| ELength (want got : Z)
| EMissingPayload (case : Z)
| EListLength (n size : Z)
| EStringLength (n : Z)
| ENoRealloc
| ERealloc
| EIterator
| EFlatShape
| ESpillCount (n : Z)
| EAt (e : abi_error).

Abbreviation res := (outcome abi_error).

(** * resolveType *)

(** [primDesc]: the descriptor of a known primitive. *)
Definition primDesc (name : Prim) : option TypeDesc :=
  match name with
  | Punknown _ => None
  | p => Some (PrimitiveDesc p)
  end.

Definition Prim_empty (p : Prim) : bool := bool_decide (p = Punknown "").

Definition resolveType (ref : option TypeRef) (resolve : Resolver) : res TypeDesc :=
  match ref with
  | None => Err ENilRef
  | Some ref =>
      if negb (Prim_empty (Primitive ref)) then
        match primDesc (Primitive ref) with
        | Some d => Ok d
        | None => Ok (PrimitiveDesc (Primitive ref))
        end
      else
        match TypeIndex ref with
        | Some idx =>
            match resolve with
            | None => Err (ENoResolver idx)
            | Some f => match f idx with
                        | None => Err (EIndexNotFound idx)
                        | Some t => Ok t
                        end
            end
        | None => Err EEmptyRef
        end
  end.

(** * Values *)

(** The typed slices a list of a fixed-width primitive lifts to.  [rune] is
    [int32], so a list of [char] and one of [s32] have the same Go type. *)
Inductive skind : Type :=
| KU8 | KI8 | KBool | KU16 | KI16 | KU32 | KI32 | KU64 | KI64 | KF32 | KF64.

#[export] Instance skind_eq_dec : EqDecision skind.
Proof. solve_decision. Defined.

(** [Value = any]: the dynamic types the ABI uses.  Floats are their IEEE bits,
    strings their bytes; [VOther] is a value of any other Go type. *)
Inductive Value : Type :=
| VNil
| VBool (b : bool)
| VU32 (n : Z)
| VI32 (n : Z)
| VU64 (n : Z)
| VI64 (n : Z)
| VF32 (bits : Z)
| VF64 (bits : Z)
| VString (s : list Z)
| VList (l : list Value)
| VSlice (k : skind) (l : list Z)
| VVariant (disc : Z) (payload : Value)
| VResult (isErr : bool) (payload : Value)
| VOther.

(** * Type trees *)

Inductive ty : Type :=
| TPrim (p : Prim)
| TRecord (ts : list ty)
| TTuple (ts : list ty)
| TVariant (cs : list (option ty))
| TList (t : ty)
| TFixed (t : ty) (n : Z)
| TFlags (n : Z)
| TEnum (n : Z)
| TOption (t : ty)
| TResult (o e : option ty)
| THandle.

Section ty_ind.
Variable P : ty → Prop.
Hypothesis HPrim : ∀ p, P (TPrim p).
Hypothesis HRecord : ∀ ts, Forall P ts → P (TRecord ts).
Hypothesis HTuple : ∀ ts, Forall P ts → P (TTuple ts).
Hypothesis HVariant : ∀ cs, Forall (from_option P True) cs → P (TVariant cs).
Hypothesis HList : ∀ t, P t → P (TList t).
Hypothesis HFixed : ∀ t n, P t → P (TFixed t n).
Hypothesis HFlags : ∀ n, P (TFlags n).
Hypothesis HEnum : ∀ n, P (TEnum n).
Hypothesis HOption : ∀ t, P t → P (TOption t).
Hypothesis HResult : ∀ o e, from_option P True o → from_option P True e → P (TResult o e).
Hypothesis HHandle : P THandle.

(** Induction over trees, through the lists and options of subtrees. *)
Fixpoint ty_ind' (t : ty) : P t :=
  let all := fix all ts : Forall P ts :=
    match ts with [] => Forall_nil_2 P | t :: ts => Forall_cons_2 P t ts (ty_ind' t) (all ts) end in
  let opt := λ o : option ty,
    match o return from_option P True o with None => I | Some t => ty_ind' t end in
  let allo := fix allo cs : Forall (from_option P True) cs :=
    match cs with [] => Forall_nil_2 _ | c :: cs => Forall_cons_2 _ c cs (opt c) (allo cs) end in
  match t with
  | TPrim p => HPrim p
  | TRecord ts => HRecord ts (all ts)
  | TTuple ts => HTuple ts (all ts)
  | TVariant cs => HVariant cs (allo cs)
  | TList t => HList t (ty_ind' t)
  | TFixed t n => HFixed t n (ty_ind' t)
  | TFlags n => HFlags n
  | TEnum n => HEnum n
  | TOption t => HOption t (ty_ind' t)
  | TResult o e => HResult o e (opt o) (opt e)
  | THandle => HHandle
  end.
End ty_ind.

(** * The tree a descriptor denotes *)

Section denotes.
Variable resolve : Resolver.

Inductive denotes : TypeDesc → ty → Prop :=
| den_prim p : denotes (PrimitiveDesc p) (TPrim p)
| den_record fs ts :
    Forall2 (λ f t, ∃ d, resolveType (Some (rf_Type f)) resolve = Ok d ∧ denotes d t) fs ts →
    denotes (RecordDesc fs) (TRecord ts)
| den_tuple es ts :
    Forall2 (λ r t, ∃ d, resolveType (Some r) resolve = Ok d ∧ denotes d t) es ts →
    denotes (TupleDesc es) (TTuple ts)
| den_variant cs ts :
    Forall2 (λ c, option_Forall2
      (λ r t, ∃ d, resolveType (Some r) resolve = Ok d ∧ denotes d t) (vc_Type c)) cs ts →
    denotes (VariantDesc cs) (TVariant ts)
| den_list r d t :
    resolveType (Some r) resolve = Ok d → denotes d t → denotes (ListDesc r) (TList t)
| den_map k v dk dv tk tv :
    resolveType (Some k) resolve = Ok dk → denotes dk tk →
    resolveType (Some v) resolve = Ok dv → denotes dv tv →
    denotes (MapDesc k v) (TList (TTuple [tk; tv]))
| den_fixed r d t n :
    resolveType (Some r) resolve = Ok d → denotes d t → 0 ≤ n < 2 ^ 32 →
    denotes (FixedListDesc r n) (TFixed t n)
| den_flags ns : denotes (FlagsDesc ns) (TFlags (zlen ns))
| den_enum cs : denotes (EnumDesc cs) (TEnum (zlen cs))
| den_option r d t :
    resolveType (Some r) resolve = Ok d → denotes d t → denotes (OptionDesc r) (TOption t)
| den_result ro re o e :
    option_Forall2 (λ r t, ∃ d, resolveType (Some r) resolve = Ok d ∧ denotes d t) ro o →
    option_Forall2 (λ r t, ∃ d, resolveType (Some r) resolve = Ok d ∧ denotes d t) re e →
    denotes (ResultDesc ro re) (TResult o e)
| den_own n : denotes (OwnDesc n) THandle
| den_borrow n : denotes (BorrowDesc n) THandle
| den_stream r : denotes (StreamDesc r) THandle
| den_future r : denotes (FutureDesc r) THandle.

(** A reference denotes what the descriptor it resolves to denotes. *)
Definition ref_denotes (r : TypeRef) (t : ty) : Prop :=
  ∃ d, resolveType (Some r) resolve = Ok d ∧ denotes d t.
End denotes.

(** The height of a tree: enough fuel for every walk over it. *)
Definition maxl (l : list nat) : nat := foldr Nat.max 0%nat l.

Fixpoint height (t : ty) : nat :=
  match t with
  | TPrim _ | TFlags _ | TEnum _ | THandle => 1
  | TRecord ts | TTuple ts => S (maxl (height <$> ts))
  | TVariant cs => S (maxl (from_option height 0%nat <$> cs))
  | TList t | TFixed t _ | TOption t => S (height t)
  | TResult o e => S (Nat.max (from_option height 0%nat o) (from_option height 0%nat e))
  end.

Lemma maxl_elem l n : n ∈ l → (n ≤ maxl l)%nat.
Proof. unfold maxl. induction 1; cbn in *; lia. Qed.

#[global] Arguments resolveType : simpl never.
