(* ===== verification/AbiLayout.v ===== *)
(** Memory layout of component types: [internal/component/abi/layout.go] and
    the layout half of [internal/component/abi/fixedlist.go].

    [Alignment] and [Size] walk the type graph through the resolver with
    32-bit arithmetic; each walk carries fuel, and [NoFuel] stands for a walk
    that does not end (a type that contains itself).  The specification
    ([spec_align], [spec_size]) is the Canonical ABI's, on type trees and over
    the integers, where option and result are the variants they despecialize
    to.  The theorems show that the code computes the specification on every
    valid type whose size is below the 2^28 limit of the binary format, and
    that a result is well formed whatever the resolver does. *)
From Stdlib Require Import ZArith Lia String.
From stdpp Require Import base list numbers option tactics.
From S2P Require Import Prelude AbiTypes.
Local Open Scope Z_scope.
Local Open Scope go_scope.

(** * The code *)

Definition Align (offset alignment : Z) : Z :=
  if alignment =? 0 then offset
  else u32 ((u32 (u32 (offset + alignment) - 1)) `div` alignment * alignment).

Definition alignmentPrimitive (prim : Prim) : res Z :=
  match prim with
  | Pbool | Ps8 | Pu8 => Ok 1
  | Ps16 | Pu16 => Ok 2
  | Ps32 | Pu32 | Pf32 | Pchar => Ok 4
  | Ps64 | Pu64 | Pf64 => Ok 8
  | Pstring => Ok 4
  | PerrorContext => Ok 4
  | Punknown _ => Err (EUnknownPrimitive prim)
  end.

Definition sizePrimitive (prim : Prim) : res Z :=
  match prim with
  | Pbool | Ps8 | Pu8 => Ok 1
  | Ps16 | Pu16 => Ok 2
  | Ps32 | Pu32 | Pf32 | Pchar => Ok 4
  | Ps64 | Pu64 | Pf64 => Ok 8
  | Pstring => Ok 8
  | PerrorContext => Ok 4
  | Punknown _ => Err (EUnknownPrimitive prim)
  end.

Definition MaxUint32 : Z := 2 ^ 32 - 1.

Definition DiscriminantType (numCases : Z) : Prim :=
  if (numCases <=? 0) || (MaxUint32 <? u64 numCases) then Punknown ""
  else if numCases <=? 2 ^ 8 then Pu8
  else if numCases <=? 2 ^ 16 then Pu16
  else Pu32.

Definition mapElemType (key value : TypeRef) : TypeDesc := TupleDesc [key; value].

Definition alignmentList : res Z := Ok 4.
Definition sizeList : res Z := Ok 8.

Definition alignmentFlagsNumLabels (numLabels : Z) : res Z :=
  if (numLabels <=? 0) || (32 <? numLabels) then Err (EInvalidFlags numLabels)
  else if numLabels <=? 8 then Ok 1
  else if numLabels <=? 16 then Ok 2
  else Ok 4.

Definition sizeFlagsNumLabels (numLabels : Z) : res Z :=
  if (numLabels <=? 0) || (32 <? numLabels) then Err (EInvalidFlags numLabels)
  else if numLabels <=? 8 then Ok 1
  else if numLabels <=? 16 then Ok 2
  else Ok 4.

Definition alignmentFlags (names : list string) : res Z := alignmentFlagsNumLabels (zlen names).
Definition sizeFlags (names : list string) : res Z := sizeFlagsNumLabels (zlen names).

Definition alignmentEnum (cases : list string) : res Z :=
  let discType := DiscriminantType (zlen cases) in
  if Prim_empty discType then Err (EInvalidEnum (zlen cases))
  else alignmentPrimitive discType.

Definition sizeEnumNumCases (numCases : Z) : res Z :=
  let discType := DiscriminantType numCases in
  if Prim_empty discType then Err (EInvalidEnum numCases)
  else sizePrimitive discType.

Definition sizeEnum (cases : list string) : res Z := sizeEnumNumCases (zlen cases).

(** [maxValueSize] of fixedlist.go. *)
Definition maxValueSize : Z := 2 ^ 28 - 1.

(** The functions that call back into [Alignment] and [Size] take them as
    arguments; the walks below tie the knot. *)
Section walk.
Variable resolve : Resolver.
Variable Alignment : TypeDesc → res Z.

(** The loop shared in shape by records, tuples and variant cases: the largest
    alignment among the references. *)
Fixpoint max_align_loop (rs : list TypeRef) (maxAlign : Z) : res Z :=
  match rs with
  | [] => Ok maxAlign
  | r :: rs =>
      let* t := resolveType (Some r) resolve in
      let* align := Alignment t in
      max_align_loop rs (if maxAlign <? align then align else maxAlign)
  end.

Definition case_types (cases : list VariantCase) : list TypeRef := omap vc_Type cases.

Definition MaxCaseAlignment (cases : list VariantCase) : res Z :=
  max_align_loop (case_types cases) 1.

Definition alignmentRecord (fields : list RecordField) : res Z :=
  max_align_loop (rf_Type <$> fields) 1.

Definition alignmentTuple (elements : list TypeRef) : res Z :=
  max_align_loop elements 1.

Definition alignmentVariant (cases : list VariantCase) : res Z :=
  let* discAlign := alignmentPrimitive (DiscriminantType (zlen cases)) in
  let* maxCaseAlign := MaxCaseAlignment cases in
  if discAlign <? maxCaseAlign then Ok maxCaseAlign else Ok discAlign.

Definition alignmentOption (element : TypeRef) : res Z :=
  let* elemT := resolveType (Some element) resolve in
  let* elemAlign := Alignment elemT in
  let discAlign := 1 in
  if discAlign <? elemAlign then Ok elemAlign else Ok discAlign.

(** One arm of [alignmentResult]. *)
Definition arm_align (arm : option TypeRef) (maxAlign : Z) : res Z :=
  match arm with
  | None => Ok maxAlign
  | Some r =>
      let* t := resolveType (Some r) resolve in
      let* align := Alignment t in
      Ok (if maxAlign <? align then align else maxAlign)
  end.

Definition alignmentResult (ok err : option TypeRef) : res Z :=
  let* maxAlign := arm_align ok 1 in
  let* maxAlign := arm_align err maxAlign in
  let discAlign := 1 in
  if discAlign <? maxAlign then Ok maxAlign else Ok discAlign.

Definition alignmentFixedList (element : TypeRef) : res Z :=
  let* elem := resolveType (Some element) resolve in
  Alignment elem.

Variable Size : TypeDesc → res Z.

(** The loop of [sizeRecord] and [sizeTuple]: fields at aligned offsets. *)
Fixpoint size_fields_loop (rs : list TypeRef) (offset : Z) : res Z :=
  match rs with
  | [] => Ok offset
  | r :: rs =>
      let* ft := resolveType (Some r) resolve in
      let* align := Alignment ft in
      let offset := Align offset align in
      let* size := Size ft in
      size_fields_loop rs (u32 (offset + size))
  end.

Definition sizeRecord (fields : list RecordField) : res Z :=
  let* offset := size_fields_loop (rf_Type <$> fields) 0 in
  let* recordAlign := alignmentRecord fields in
  Ok (Align offset recordAlign).

Definition sizeTuple (elements : list TypeRef) : res Z :=
  let* offset := size_fields_loop elements 0 in
  let* tupleAlign := alignmentTuple elements in
  Ok (Align offset tupleAlign).

Fixpoint max_size_loop (rs : list TypeRef) (maxCaseSize : Z) : res Z :=
  match rs with
  | [] => Ok maxCaseSize
  | r :: rs =>
      let* ct := resolveType (Some r) resolve in
      let* cSize := Size ct in
      max_size_loop rs (if maxCaseSize <? cSize then cSize else maxCaseSize)
  end.

Definition sizeVariant (cases : list VariantCase) : res Z :=
  let* discSize := sizePrimitive (DiscriminantType (zlen cases)) in
  let* maxCaseAlign := MaxCaseAlignment cases in
  let offset := Align discSize maxCaseAlign in
  let* maxCaseSize := max_size_loop (case_types cases) 0 in
  let offset := u32 (offset + maxCaseSize) in
  let variantAlign := if maxCaseAlign <? discSize then discSize else maxCaseAlign in
  Ok (Align offset variantAlign).

Definition sizeOption (element : TypeRef) : res Z :=
  let* elemT := resolveType (Some element) resolve in
  let* elemSize := Size elemT in
  let* elemAlign := Alignment elemT in
  let discAlign := 1 in
  let offset := Align 1 elemAlign in
  let offset := u32 (offset + elemSize) in
  Ok (Align offset (Z.max discAlign elemAlign)).

(** One arm of [sizeResult]: the largest payload size and alignment so far. *)
Definition arm_size (arm : option TypeRef) (acc : Z * Z) : res (Z * Z) :=
  match arm with
  | None => Ok acc
  | Some r =>
      let* t := resolveType (Some r) resolve in
      let* size := Size t in
      let* align := Alignment t in
      Ok (if acc.1 <? size then size else acc.1, if acc.2 <? align then align else acc.2)
  end.

Definition sizeResult (ok err : option TypeRef) : res Z :=
  let* acc := arm_size ok (0, 1) in
  let* '(maxPayloadSize, maxPayloadAlign) := arm_size err acc in
  let offset := Align 1 maxPayloadAlign in
  let offset := u32 (offset + maxPayloadSize) in
  let discAlign := 1 in
  Ok (Align offset (Z.max discAlign maxPayloadAlign)).

Definition sizeFixedList (element : TypeRef) (length : Z) : res Z :=
  let* elem := resolveType (Some element) resolve in
  let* size := Size elem in
  if maxValueSize <? u64 (size * length) then Err (EFixedListSize length size)
  else Ok (u32 (size * length)).
End walk.

Fixpoint Alignment (fuel : nat) (resolve : Resolver) (t : TypeDesc) : res Z :=
  match fuel with
  | O => NoFuel
  | S fuel =>
      let rec := Alignment fuel resolve in
      match t with
      | PrimitiveDesc prim => alignmentPrimitive prim
      | ListDesc _ => alignmentList
      | MapDesc _ _ => alignmentList
      | FixedListDesc element _ => alignmentFixedList resolve rec element
      | RecordDesc fields => alignmentRecord resolve rec fields
      | VariantDesc cases => alignmentVariant resolve rec cases
      | TupleDesc elements => alignmentTuple resolve rec elements
      | FlagsDesc names => alignmentFlags names
      | EnumDesc cases => alignmentEnum cases
      | OptionDesc element => alignmentOption resolve rec element
      | ResultDesc ok err => alignmentResult resolve rec ok err
      | OwnDesc _ | BorrowDesc _ | StreamDesc _ | FutureDesc _ => Ok 4
      | FuncDesc _ _ _ | InstanceDesc | ComponentDesc | ResourceDesc _ _ => Err EUnsupported
      end
  end.

Fixpoint Size (fuel : nat) (resolve : Resolver) (t : TypeDesc) : res Z :=
  match fuel with
  | O => NoFuel
  | S fuel =>
      let rec := Size fuel resolve in
      let align := Alignment fuel resolve in
      match t with
      | PrimitiveDesc prim => sizePrimitive prim
      | ListDesc _ => sizeList
      | MapDesc _ _ => sizeList
      | FixedListDesc element length => sizeFixedList resolve rec element length
      | RecordDesc fields => sizeRecord resolve align rec fields
      | VariantDesc cases => sizeVariant resolve align rec cases
      | TupleDesc elements => sizeTuple resolve align rec elements
      | FlagsDesc names => sizeFlags names
      | EnumDesc cases => sizeEnum cases
      | OptionDesc element => sizeOption resolve align rec element
      | ResultDesc ok err => sizeResult resolve align rec ok err
      | OwnDesc _ | BorrowDesc _ | StreamDesc _ | FutureDesc _ => Ok 4
      | FuncDesc _ _ _ | InstanceDesc | ComponentDesc | ResourceDesc _ _ => Err EUnsupported
      end
  end.

(** * The specification *)

(** [x] rounded up to a multiple of [a]. *)
Definition align_to (x a : Z) : Z := (x + a - 1) `div` a * a.

(** The width of a discriminant over [n] cases: the Canonical ABI takes
    ceil(log2(n)/8) bytes, rounded up to a width that exists. *)
Definition spec_disc (n : Z) : Z :=
  let bytes := (Z.log2_up n + 7) `div` 8 in
  if bytes <=? 1 then 1 else if bytes <=? 2 then 2 else 4.

Definition prim_align (p : Prim) : Z :=
  match p with
  | Pbool | Ps8 | Pu8 => 1
  | Ps16 | Pu16 => 2
  | Ps64 | Pu64 | Pf64 => 8
  | _ => 4
  end.

Definition prim_size (p : Prim) : Z :=
  match p with Pstring => 8 | p => prim_align p end.

Definition max_list (m : Z) (l : list Z) : Z := foldl Z.max m l.

(** Alignment and size of a record from those of its fields. *)
Definition record_align (ls : list (Z * Z)) : Z := max_list 1 ls.*1.
Definition place (offset : Z) (l : Z * Z) : Z := align_to offset l.1 + l.2.
Definition record_size (ls : list (Z * Z)) : Z :=
  align_to (foldl place 0 ls) (record_align ls).

(** Alignment and size of a variant from those of its payloads. *)
Definition variant_align (n : Z) (ls : list (Z * Z)) : Z :=
  Z.max (spec_disc n) (max_list 1 ls.*1).
Definition variant_size (n : Z) (ls : list (Z * Z)) : Z :=
  align_to (align_to (spec_disc n) (max_list 1 ls.*1) + max_list 0 ls.*2) (variant_align n ls).

Definition spec_flags (n : Z) : Z := if n <=? 8 then 1 else if n <=? 16 then 2 else 4.

(** Alignment and size of a type tree; option and result are variants of two
    cases, a dynamic list and a string are a pointer and a length. *)
Fixpoint layout (t : ty) : Z * Z :=
  match t with
  | TPrim p => (prim_align p, prim_size p)
  | TRecord ts | TTuple ts => let ls := layout <$> ts in (record_align ls, record_size ls)
  | TVariant cs => let ls := omap (fmap layout) cs in
                   (variant_align (zlen cs) ls, variant_size (zlen cs) ls)
  | TList _ => (4, 8)
  | TFixed t n => ((layout t).1, (layout t).2 * n)
  | TFlags n => (spec_flags n, spec_flags n)
  | TEnum n => (spec_disc n, spec_disc n)
  | TOption t => let ls := [layout t] in (variant_align 2 ls, variant_size 2 ls)
  | TResult o e => let ls := omap (fmap layout) [o; e] in (variant_align 2 ls, variant_size 2 ls)
  | THandle => (4, 4)
  end.
Definition spec_align (t : ty) : Z := (layout t).1.
Definition spec_size (t : ty) : Z := (layout t).2.

(** A valid type: known primitives, the label and case counts the format
    allows, and every size below 2^28, as the binary format requires. *)
Fixpoint valid (t : ty) : bool :=
  (spec_size t <? 2 ^ 28) &&
  match t with
  | TPrim (Punknown _) => false
  | TPrim _ => true
  | TRecord ts | TTuple ts => forallb valid ts
  | TVariant cs => (0 <? zlen cs) && (zlen cs <? 2 ^ 32) && forallb (from_option valid true) cs
  | TList t => valid t
  | TFixed t n => (0 <? n) && (n <? 2 ^ 32) && valid t
  | TFlags n => (0 <? n) && (n <=? 32)
  | TEnum n => (0 <? n) && (n <? 2 ^ 32)
  | TOption t => valid t
  | TResult o e => from_option valid true o && from_option valid true e
  | THandle => true
  end.

(** * Arithmetic of offsets *)

(** The alignments that occur. *)
Definition pow2_align (a : Z) : Prop := a = 1 ∨ a = 2 ∨ a = 4 ∨ a = 8.

Lemma align_to_bounds x a : 0 < a → x ≤ align_to x a < x + a.
Proof.
  intros Ha. unfold align_to. pose proof (Z.div_mod (x + a - 1) a ltac:(lia)).
  pose proof (Z.mod_pos_bound (x + a - 1) a Ha). nia.
Qed.

Lemma align_to_divide x a : (a | align_to x a).
Proof. unfold align_to. apply Z.divide_factor_r. Qed.

Lemma align_to_id x a : 0 < a → (a | x) → align_to x a = x.
Proof.
  intros Ha [k ->]. unfold align_to. replace (k * a + a - 1) with (a - 1 + k * a) by lia.
  rewrite Z.div_add, Z.div_small by lia. lia.
Qed.

Lemma align_to_1 x : align_to x 1 = x.
Proof. apply align_to_id; [lia|apply Z.divide_1_l]. Qed.

Lemma Align_to x a : 0 ≤ x → 0 < a → x + a < 2 ^ 32 → Align x a = align_to x a.
Proof.
  intros Hx Ha Hlt. unfold Align. rewrite (proj2 (Z.eqb_neq a 0)) by lia.
  rewrite (wrap_small 32 (x + a)), (wrap_small 32 (x + a - 1)) by lia.
  apply wrap_small. pose proof (align_to_bounds x a Ha). unfold align_to in *. lia.
Qed.

(** The same where only the result is known to fit: a multiple of a power of
    two that is below 2^32 leaves room for the rounding. *)
Lemma Align_to_fits x a :
  pow2_align a → 0 ≤ x → align_to x a < 2 ^ 32 → Align x a = align_to x a.
Proof.
  intros Ha Hx Hlt. assert (0 < a) as Hpos by (unfold pow2_align in Ha; lia).
  pose proof (align_to_bounds x a Hpos). pose proof (align_to_divide x a) as [k Hk].
  assert (x + a - 1 < 2 ^ 32) by (unfold pow2_align in Ha; lia).
  unfold Align. rewrite (proj2 (Z.eqb_neq a 0)) by lia.
  assert (u32 (u32 (x + a) - 1) = x + a - 1) as ->.
  { unfold wrap. rewrite Zminus_mod_idemp_l. apply Z.mod_small. lia. }
  apply wrap_small. unfold align_to in *. lia.
Qed.

(** A power-of-two alignment divides 2^32, so wrapped sums stay aligned. *)
Lemma pow2_align_wrap a x : pow2_align a → (a | x) → (a | u32 x).
Proof.
  intros Ha Hx. unfold wrap. apply Z.mod_divide; [unfold pow2_align in Ha; lia|].
  assert ((a | 2 ^ 32)) as [k Hk].
  { destruct Ha as [->|[->|[->| ->]]]; [exists (2^32)|exists (2^31)|exists (2^30)|exists (2^29)]; lia. }
  rewrite Hk, (Z.mul_comm k a), Z.rem_mul_r by (unfold pow2_align in Ha; nia).
  apply Z.mod_divide in Hx; [|unfold pow2_align in Ha; lia]. rewrite Hx.
  rewrite Z.add_0_l, Z.mul_comm. apply Z.mod_mul. unfold pow2_align in Ha; lia.
Qed.

Lemma Align_divide x a : pow2_align a → (a | Align x a).
Proof.
  intros Ha. unfold Align. rewrite (proj2 (Z.eqb_neq a 0)) by (unfold pow2_align in Ha; lia).
  apply pow2_align_wrap; [done|]. apply Z.divide_factor_r.
Qed.

Lemma pow2_align_max a b : pow2_align a → pow2_align b → pow2_align (Z.max a b).
Proof. unfold pow2_align. lia. Qed.

Lemma pow2_align_dvd a b : pow2_align a → pow2_align b → a ≤ b → (a | b).
Proof.
  unfold pow2_align. intros Ha Hb Hle. exists (b / a).
  destruct Ha as [->|[->|[->| ->]]], Hb as [->|[->|[->| ->]]]; try lia; reflexivity.
Qed.

Lemma max_list_ge m l : m ≤ max_list m l.
Proof.
  unfold max_list. revert m; induction l as [|x l IH]; intros m; cbn; [lia|].
  pose proof (IH (m `max` x)). lia.
Qed.

Lemma max_list_elem m l x : x ∈ l → x ≤ max_list m l.
Proof.
  unfold max_list. intros Hx. revert m; induction Hx as [x l|x y l _ IH]; intros m; cbn; [|apply IH].
  pose proof (max_list_ge (m `max` x) l). unfold max_list in *. lia.
Qed.

Lemma max_list_ind (P : Z → Prop) m l :
  (∀ a b, P a → P b → P (Z.max a b)) → P m → Forall P l → P (max_list m l).
Proof.
  unfold max_list. intros Hmax Hm Hl. revert m Hm; induction Hl as [|x l Hx _ IH]; intros m Hm; cbn; auto.
Qed.

(** * Discriminants *)

(** The comparisons of [DiscriminantType] are the specification's logarithm. *)
Lemma spec_disc_cases n :
  0 < n → spec_disc n = if n <=? 2 ^ 8 then 1 else if n <=? 2 ^ 16 then 2 else 4.
Proof.
  intros Hn. unfold spec_disc.
  assert (∀ k, (n <=? 2 ^ k) = (Z.log2_up n <=? k)) as Hk.
  { intros k. apply eq_true_iff_eq. rewrite !Z.leb_le. by apply Z.log2_up_le_pow2. }
  rewrite !Hk. pose proof (Z.log2_up_nonneg n).
  assert (∀ k, ((Z.log2_up n + 7) `div` 8 <=? k) = (Z.log2_up n <=? 8 * k)) as Hd.
  { intros k. apply eq_true_iff_eq. rewrite !Z.leb_le.
    pose proof (Z.div_mod (Z.log2_up n + 7) 8 ltac:(lia)).
    pose proof (Z.mod_pos_bound (Z.log2_up n + 7) 8 ltac:(lia)). lia. }
  rewrite !Hd. done.
Qed.

Lemma disc_ok n :
  0 < n < 2 ^ 32 →
  Prim_empty (DiscriminantType n) = false ∧
  alignmentPrimitive (DiscriminantType n) = Ok (spec_disc n) ∧
  sizePrimitive (DiscriminantType n) = Ok (spec_disc n).
Proof.
  intros Hn. rewrite spec_disc_cases by lia. unfold DiscriminantType, MaxUint32.
  rewrite (wrap_small 64 n), (proj2 (Z.leb_gt n 0)), (proj2 (Z.ltb_ge _ n)) by lia. cbn [orb].
  destruct (n <=? 2 ^ 8); [done|]. by destruct (n <=? 2 ^ 16).
Qed.

Lemma spec_disc_pow2 n : pow2_align (spec_disc n).
Proof. unfold spec_disc, pow2_align. repeat case_match; lia. Qed.

Lemma prim_align_pow2 p : pow2_align (prim_align p).
Proof. unfold pow2_align. destruct p; cbn; lia. Qed.

(** * The specified layouts are well formed *)

Definition good (l : Z * Z) : Prop := pow2_align l.1 ∧ 0 ≤ l.2 ∧ (l.1 | l.2).

Lemma max_pow2 ls : Forall good ls → pow2_align (max_list 1 ls.*1).
Proof.
  intros Hl. apply max_list_ind; [exact pow2_align_max|by left|].
  apply Forall_fmap. revert Hl. apply Forall_impl. by intros l [? _].
Qed.

Lemma place_ge o l : good l → o ≤ place o l.
Proof.
  intros (Ha & Hs & _). unfold place. pose proof (align_to_bounds o l.1). unfold pow2_align in Ha. lia.
Qed.

Lemma places_ge ls o : Forall good ls → o ≤ foldl place o ls.
Proof.
  intros Hl. revert o; induction Hl as [|l ls Hg _ IH]; intros o; cbn; [lia|].
  pose proof (place_ge o l Hg). pose proof (IH (place o l)). lia.
Qed.

Lemma record_good ls : Forall good ls → good (record_align ls, record_size ls).
Proof.
  intros Hl. pose proof (max_pow2 ls Hl) as Hp. pose proof (places_ge ls 0 Hl).
  split_and!; cbn; [done| |apply align_to_divide].
  unfold record_size, record_align. pose proof (align_to_bounds (foldl place 0 ls) (max_list 1 ls.*1)).
  unfold pow2_align in Hp. lia.
Qed.

Lemma variant_good n ls : Forall good ls → good (variant_align n ls, variant_size n ls).
Proof.
  intros Hl. pose proof (max_pow2 ls Hl) as Hp. pose proof (spec_disc_pow2 n) as Hd.
  assert (pow2_align (variant_align n ls)) as Hv by by apply pow2_align_max.
  split_and!; cbn; [done| |apply align_to_divide]. unfold variant_size.
  pose proof (align_to_bounds (spec_disc n) (max_list 1 ls.*1)).
  pose proof (max_list_ge 0 ls.*2).
  pose proof (align_to_bounds (align_to (spec_disc n) (max_list 1 ls.*1) + max_list 0 ls.*2) (variant_align n ls)).
  unfold pow2_align in *. lia.
Qed.

Lemma Forall_layout ts :
  Forall (λ t, valid t = true → good (layout t)) ts → forallb valid ts = true →
  Forall good (layout <$> ts).
Proof.
  intros IH H. rewrite forallb_forall in H. apply Forall_fmap, Forall_forall. intros t Ht.
  rewrite Forall_forall in IH. apply IH; [done|]. by apply H.
Qed.

Lemma Forall_layout_opt cs :
  Forall (from_option (λ t, valid t = true → good (layout t)) True) cs →
  forallb (from_option valid true) cs = true → Forall good (omap (fmap layout) cs).
Proof.
  induction 1 as [|[t|] cs Ht _ IH]; cbn; [done| |by auto].
  intros [H1 H2]%andb_true_iff. constructor; auto.
Qed.

(** The parts of a valid type. *)
Lemma valid_inv t :
  valid t = true →
  spec_size t < 2 ^ 28 ∧
  match t with
  | TPrim (Punknown _) => False
  | TPrim _ => True
  | TRecord ts | TTuple ts => forallb valid ts = true
  | TVariant cs => 0 < zlen cs < 2 ^ 32 ∧ forallb (from_option valid true) cs = true
  | TList t => valid t = true
  | TFixed t n => 0 < n < 2 ^ 32 ∧ valid t = true
  | TFlags n => 0 < n ≤ 32
  | TEnum n => 0 < n < 2 ^ 32
  | TOption t => valid t = true
  | TResult o e => forallb (from_option valid true) [o; e] = true
  | THandle => True
  end.
Proof.
  destruct t; cbn [valid]; intros H; apply andb_true_iff in H as [H1 H2]; apply Z.ltb_lt in H1;
    (split; [done|]); try done; try (by destruct p);
    rewrite ?andb_true_iff, ?Z.ltb_lt, ?Z.leb_le in H2; cbn [forallb]; rewrite ?andb_true_r;
    try (apply andb_true_iff); tauto || lia.
Qed.

Lemma layout_good t : valid t = true → good (layout t).
Proof.
  induction t as [p|ts IH|ts IH|cs IH|t IH|t n IH|n|n|t IH|o e IHo IHe|] using ty_ind';
    intros [_ Hok]%valid_inv; cbn [layout].
  - split_and!; cbn; [apply prim_align_pow2|destruct p; cbn; lia|].
    destruct p; cbn; try apply Z.divide_refl. by exists 2.
  - by apply record_good, Forall_layout.
  - by apply record_good, Forall_layout.
  - apply variant_good, Forall_layout_opt; tauto.
  - unfold good, pow2_align. cbn. split_and!; [lia|lia|by exists 2].
  - destruct Hok as [Hn Hok]. destruct (IH Hok) as (? & ? & ?).
    split_and!; cbn; [done|nia|by apply Z.divide_mul_l].
  - unfold good, pow2_align, spec_flags. cbn. repeat case_match; (split_and!; [lia|lia|apply Z.divide_refl]).
  - pose proof (spec_disc_pow2 n) as Hd. split_and!; cbn; [done|unfold pow2_align in Hd; lia|apply Z.divide_refl].
  - apply variant_good. auto.
  - apply (variant_good 2 (omap (fmap layout) [o; e])), Forall_layout_opt; [by repeat constructor|done].
  - unfold good, pow2_align. cbn. split_and!; [lia|lia|apply Z.divide_refl].
Qed.

(** * The code computes the specification *)

Section correct.
Variable resolve : Resolver.
Variables al sz : TypeDesc → res Z.

(** The reference resolves and has layout [l]. *)
Definition computes (r : TypeRef) (l : Z * Z) : Prop :=
  ∃ t, resolveType (Some r) resolve = Ok t ∧ al t = Ok l.1 ∧ sz t = Ok l.2.

Lemma if_max a b : (if a <? b then b else a) = Z.max a b.
Proof. destruct (Z.ltb_spec a b); lia. Qed.

Lemma max_align_loop_ok rs ls m :
  Forall2 computes rs ls → max_align_loop resolve al rs m = Ok (max_list m ls.*1).
Proof.
  intros H. revert m; induction H as [|r l rs ls (t & E1 & E2 & E3) _ IH]; intros m; [done|].
  cbn. rewrite E1. cbn. rewrite E2. cbn. rewrite if_max, IH. done.
Qed.

Lemma max_size_loop_ok rs ls m :
  Forall2 computes rs ls → max_size_loop resolve sz rs m = Ok (max_list m ls.*2).
Proof.
  intros H. revert m; induction H as [|r l rs ls (t & E1 & E2 & E3) _ IH]; intros m; [done|].
  cbn. rewrite E1. cbn. rewrite E3. cbn. rewrite if_max, IH. done.
Qed.

Lemma size_fields_loop_ok rs ls o :
  Forall2 computes rs ls → Forall good ls → 0 ≤ o → foldl place o ls < 2 ^ 28 →
  size_fields_loop resolve al sz rs o = Ok (foldl place o ls).
Proof.
  intros H. revert o; induction H as [|r l rs ls (t & E1 & E2 & E3) _ IH]; intros o Hg Ho Hlt; [done|].
  inversion_clear Hg as [|?? Hl Hls]. cbn in *. rewrite E1. cbn. rewrite E2. cbn. rewrite E3. cbn.
  pose proof (place_ge o l Hl). pose proof (places_ge ls (place o l) Hls).
  destruct Hl as (Ha & Hs & _).
  assert (place o l = u32 (Align o l.1 + l.2)) as Ep.
  { unfold place in *. pose proof (align_to_bounds o l.1). unfold pow2_align in Ha.
    rewrite Align_to, wrap_small by lia. done. }
  rewrite <- Ep. apply IH; [done|lia|done].
Qed.

Lemma record_ok rs ls :
  Forall2 computes rs ls → Forall good ls → record_size ls < 2 ^ 28 →
  (let* offset := size_fields_loop resolve al sz rs 0 in
   let* a := max_align_loop resolve al rs 1 in Ok (Align offset a)) = Ok (record_size ls).
Proof.
  intros H Hg Hlt. pose proof (max_pow2 ls Hg) as Hp. pose proof (places_ge ls 0 Hg).
  unfold record_size, record_align in *.
  pose proof (align_to_bounds (foldl place 0 ls) (max_list 1 ls.*1)). unfold pow2_align in Hp.
  rewrite (size_fields_loop_ok rs ls) by (done || lia). cbn.
  rewrite (max_align_loop_ok rs ls) by done. cbn. by rewrite Align_to by lia.
Qed.

(** The three-step placement of a payload, as [sizeVariant], [sizeOption] and
    [sizeResult] compute it. *)
Lemma variant_size_ok n ls :
  Forall good ls → variant_size n ls < 2 ^ 28 →
  Align (u32 (Align (spec_disc n) (max_list 1 ls.*1) + max_list 0 ls.*2)) (variant_align n ls) =
  variant_size n ls.
Proof.
  intros Hg Hlt. pose proof (max_pow2 ls Hg) as Hp. pose proof (spec_disc_pow2 n) as Hd.
  assert (pow2_align (variant_align n ls)) as Hv by by apply pow2_align_max.
  unfold variant_size in *.
  pose proof (align_to_bounds (spec_disc n) (max_list 1 ls.*1)).
  pose proof (max_list_ge 0 ls.*2).
  pose proof (align_to_bounds (align_to (spec_disc n) (max_list 1 ls.*1) + max_list 0 ls.*2) (variant_align n ls)).
  unfold pow2_align in *.
  rewrite (Align_to (spec_disc n)), wrap_small, Align_to by lia. done.
Qed.

Lemma variant_ok cases ls :
  0 < zlen cases < 2 ^ 32 → Forall2 computes (case_types cases) ls → Forall good ls →
  alignmentVariant resolve al cases = Ok (variant_align (zlen cases) ls) ∧
  (variant_size (zlen cases) ls < 2 ^ 28 →
   sizeVariant resolve al sz cases = Ok (variant_size (zlen cases) ls)).
Proof.
  intros Hn H Hg. destruct (disc_ok _ Hn) as (_ & E1 & E2).
  unfold alignmentVariant, sizeVariant, MaxCaseAlignment. rewrite E1, E2. cbn.
  rewrite (max_align_loop_ok _ ls) by done. cbn. split.
  - unfold variant_align. destruct (Z.ltb_spec (spec_disc (zlen cases)) (max_list 1 ls.*1)); f_equal; lia.
  - intros Hlt. rewrite (max_size_loop_ok _ ls) by done. cbn. rewrite if_max, Z.max_comm.
    f_equal. by apply variant_size_ok.
Qed.

Lemma option_ok r l :
  computes r l → good l →
  alignmentOption resolve al r = Ok (variant_align 2 [l]) ∧
  (variant_size 2 [l] < 2 ^ 28 → sizeOption resolve al sz r = Ok (variant_size 2 [l])).
Proof.
  intros (t & E1 & E2 & E3) Hg. unfold alignmentOption, sizeOption. rewrite E1. cbn. rewrite E2, E3. cbn.
  assert (spec_disc 2 = 1) as Hd by reflexivity.
  pose proof Hg as (Ha & Hs & Hdiv). split.
  - unfold variant_align. rewrite Hd. cbn. unfold pow2_align in Ha.
    destruct (Z.ltb_spec 1 l.1); f_equal; lia.
  - intros Hlt. f_equal. rewrite <- (variant_size_ok 2 [l]) by (done || by apply Forall_singleton).
    unfold variant_align. rewrite Hd. cbn. unfold pow2_align in Ha.
    rewrite (Z.max_r 1 l.1), (Z.max_r 1 l.1), (Z.max_r 0 l.2) by lia. done.
Qed.

Lemma arm_align_ok ro lo m :
  option_Forall2 computes ro lo →
  arm_align resolve al ro m = Ok (max_list m (option_list lo).*1).
Proof.
  intros [r l (t & E1 & E2 & E3)|]; [|done]. cbn. rewrite E1. cbn. rewrite E2. cbn. by rewrite if_max.
Qed.

Lemma arm_size_ok ro lo a b :
  option_Forall2 computes ro lo →
  arm_size resolve al sz ro (a, b) =
    Ok (max_list a (option_list lo).*2, max_list b (option_list lo).*1).
Proof.
  intros [r l (t & E1 & E2 & E3)|]; [|done]. cbn. rewrite E1. cbn. rewrite E3. cbn. rewrite E2. cbn.
  by rewrite !if_max.
Qed.

Lemma result_ok ro re lo le :
  option_Forall2 computes ro lo → option_Forall2 computes re le →
  let ls := option_list lo ++ option_list le in
  Forall good ls →
  alignmentResult resolve al ro re = Ok (variant_align 2 ls) ∧
  (variant_size 2 ls < 2 ^ 28 → sizeResult resolve al sz ro re = Ok (variant_size 2 ls)).
Proof.
  intros Ho He ls Hg. unfold alignmentResult, sizeResult.
  rewrite (arm_align_ok ro lo), (arm_size_ok ro lo) by done. cbn [obind].
  rewrite (arm_align_ok re le), (arm_size_ok re le) by done. cbn [obind].
  assert (∀ m (f : Z * Z → Z), max_list (max_list m (f <$> option_list lo)) (f <$> option_list le) =
    max_list m (f <$> ls)) as E.
  { intros m f. unfold max_list, ls. by rewrite fmap_app, foldl_app. }
  rewrite (E 1 fst), (E 0 snd). assert (spec_disc 2 = 1) as Hd by reflexivity.
  pose proof (max_list_ge 1 ls.*1). split.
  - unfold variant_align. rewrite Hd. destruct (Z.ltb_spec 1 (max_list 1 ls.*1)); f_equal; lia.
  - intros Hlt. f_equal. rewrite <- (variant_size_ok 2 ls) by done. unfold variant_align. by rewrite Hd.
Qed.
End correct.

Lemma layouts_good ts : forallb valid ts = true → Forall good (layout <$> ts).
Proof. apply Forall_layout, Forall_forall. intros t _. exact (layout_good t). Qed.

Lemma case_layouts_good cs :
  forallb (from_option valid true) cs = true → Forall good (omap (fmap layout) cs).
Proof. apply Forall_layout_opt, Forall_forall. intros [t|] _; [exact (layout_good t)|done]. Qed.

(** The walks agree with the specification on the tree [t]. *)
Definition walks (resolve : Resolver) (t : ty) : Prop :=
  ∀ d fuel, denotes resolve d t → valid t = true → (height t ≤ fuel)%nat →
    Alignment fuel resolve d = Ok (spec_align t) ∧ Size fuel resolve d = Ok (spec_size t).

Section walks.
Variable resolve : Resolver.

Lemma walks_ref t r fuel :
  walks resolve t → ref_denotes resolve r t → valid t = true → (height t ≤ fuel)%nat →
  computes resolve (Alignment fuel resolve) (Size fuel resolve) r (layout t).
Proof. intros Hw (d & E & Hd) Hv Hf. exists d. split; [done|]. by apply Hw. Qed.

Lemma walks_list rs ts fuel :
  Forall (walks resolve) ts → Forall2 (ref_denotes resolve) rs ts → forallb valid ts = true →
  (maxl (height <$> ts) ≤ fuel)%nat →
  Forall2 (computes resolve (Alignment fuel resolve) (Size fuel resolve)) rs (layout <$> ts).
Proof.
  intros Hw H. revert Hw. induction H as [|r t rs ts Hr _ IH]; intros Hw; [constructor|].
  inversion_clear Hw. cbn. intros [Hv Hvs]%andb_true_iff Hf. constructor.
  - apply walks_ref; [done..|lia].
  - apply IH; [done..|]. change (maxl (height <$> ts) ≤ fuel)%nat. unfold maxl. lia.
Qed.

Lemma walks_cases cs ts fuel :
  Forall (from_option (walks resolve) True) ts →
  Forall2 (λ c, option_Forall2 (ref_denotes resolve) (vc_Type c)) cs ts →
  forallb (from_option valid true) ts = true →
  (maxl (from_option height 0%nat <$> ts) ≤ fuel)%nat →
  Forall2 (computes resolve (Alignment fuel resolve) (Size fuel resolve))
    (case_types cs) (omap (fmap layout) ts).
Proof.
  intros Hw H. revert Hw. induction H as [|c o cs ts Hc _ IH]; intros Hw; [constructor|].
  inversion_clear Hw as [|?? Hw1 Hw2]. cbn. intros [Hv Hvs]%andb_true_iff Hf.
  unfold case_types. cbn. destruct Hc as [r t Hr|]; cbn in *.
  - constructor; [apply walks_ref; [done..|lia]|]. apply IH; [done..|]. unfold maxl. lia.
  - apply IH; done.
Qed.

Lemma walks_arm r o fuel :
  from_option (walks resolve) True o → option_Forall2 (ref_denotes resolve) r o →
  from_option valid true o = true → (from_option height 0 o ≤ fuel)%nat →
  option_Forall2 (computes resolve (Alignment fuel resolve) (Size fuel resolve)) r (layout <$> o).
Proof. intros Hw H. revert Hw. destruct H as [x t Hr|]; cbn; intros; constructor. by apply walks_ref. Qed.

Lemma option_list_omap (o e : option ty) :
  omap (fmap layout) [o; e] = option_list (layout <$> o) ++ option_list (layout <$> e).
Proof. by destruct o, e. Qed.

Lemma layout_walks t : walks resolve t.
Proof.
  induction t as [p|ts IH|ts IH|cs IH|t IH|t n IH|n|n|t IH|o e IHo IHe|] using ty_ind';
    intros d [|fuel] Hd Hv Hf; try (cbn in Hf; lia);
    pose proof (layout_good _ Hv) as Hgood; apply valid_inv in Hv as [Hlt Hv];
    unfold spec_align, spec_size in *; inversion Hd; subst; clear Hd; cbn [Alignment Size layout height] in *.
  - by destruct p.
  - unfold alignmentRecord, sizeRecord.
    pose proof (walks_list (rf_Type <$> fs) ts fuel IH ltac:(by apply Forall2_fmap_l) Hv ltac:(lia)) as Hc.
    split; [by apply max_align_loop_ok with (Size fuel resolve)|].
    apply record_ok; [done|by apply layouts_good|done].
  - unfold alignmentTuple, sizeTuple.
    pose proof (walks_list es ts fuel IH ltac:(done) Hv ltac:(lia)) as Hc.
    split; [by apply max_align_loop_ok with (Size fuel resolve)|].
    apply record_ok; [done|by apply layouts_good|done].
  - destruct Hv as [Hn Hv].
    match goal with H : Forall2 _ cs0 cs |- _ => rename H into Hcs end.
    pose proof (walks_cases cs0 cs fuel IH Hcs Hv ltac:(lia)) as Hc.
    assert (zlen cs = zlen cs0) as En by (unfold zlen; f_equal; symmetry; by eapply Forall2_length).
    rewrite En in *.
    destruct (variant_ok resolve (Alignment fuel resolve) (Size fuel resolve) cs0 (omap (fmap layout) cs))
      as [Ha Hs]; [done|done|by apply case_layouts_good|by auto].
  - done.
  - done.
  - destruct Hv as [Hn Hv]. destruct (IH d0 fuel) as [E1 E2]; [done..|lia|].
    unfold alignmentFixedList, sizeFixedList.
    match goal with H : resolveType _ _ = _ |- _ => rewrite H end. cbn. rewrite E1, E2. cbn.
    split; [done|]. cbn in Hlt. destruct (layout_good _ Hv) as (_ & Hs & _).
    rewrite !wrap_small by (unfold spec_size; nia). unfold maxValueSize.
    unfold spec_size in *. by rewrite (proj2 (Z.ltb_ge _ _)) by lia.
  - unfold alignmentFlags, sizeFlags, alignmentFlagsNumLabels, sizeFlagsNumLabels, spec_flags.
    rewrite (proj2 (Z.leb_gt _ 0)), (proj2 (Z.ltb_ge 32 _)) by lia. cbn.
    by repeat case_match.
  - unfold alignmentEnum, sizeEnum, sizeEnumNumCases. by destruct (disc_ok _ Hv) as (-> & -> & ->).
  - destruct (option_ok resolve (Alignment fuel resolve) (Size fuel resolve) r (layout t)) as [Ha Hs]; [| |by auto].
    + apply walks_ref; [done| |done|cbn in Hf; lia]. by exists d0.
    + by apply layout_good.
  - cbn [forallb] in Hv. rewrite !andb_true_iff in Hv. rewrite option_list_omap in *.
    destruct (result_ok resolve (Alignment fuel resolve) (Size fuel resolve) ro re (layout <$> o) (layout <$> e))
      as [Ha Hs]; [apply walks_arm; [done..|tauto|cbn in Hf; lia]|apply walks_arm; [done..|tauto|cbn in Hf; lia]| |by auto].
    rewrite <- option_list_omap. apply case_layouts_good. cbn. rewrite !andb_true_iff. tauto.
  - done.
  - done.
  - done.
  - done.
Qed.
End walks.

(** * Results are well formed for any resolver

    These facts need no tree: the resolver may answer anything. *)
Section any.
Variable resolve : Resolver.

Lemma alignmentPrimitive_pow2 p a : alignmentPrimitive p = Ok a → pow2_align a.
Proof. unfold pow2_align. destruct p; cbn; intros H; try discriminate H; injection H as <-; lia. Qed.

Lemma flags_pow2 n a : alignmentFlagsNumLabels n = Ok a → pow2_align a.
Proof. unfold alignmentFlagsNumLabels, pow2_align. intros H. go_inv; lia. Qed.

Lemma max_align_loop_pow2 al rs m a :
  (∀ t a, al t = Ok a → pow2_align a) → pow2_align m →
  max_align_loop resolve al rs m = Ok a → pow2_align a.
Proof.
  intros Hal. revert m; induction rs as [|r rs IH]; intros m Hm H; cbn in H; [by go_inv|].
  go_inv. apply IH in H; [done|]. rewrite if_max. eauto using pow2_align_max.
Qed.

Lemma arm_align_pow2 al r m a :
  (∀ t a, al t = Ok a → pow2_align a) → pow2_align m →
  arm_align resolve al r m = Ok a → pow2_align a.
Proof.
  intros Hal Hm. destruct r as [r|]; cbn; intros H; go_inv; [|done].
  rewrite if_max. eauto using pow2_align_max.
Qed.

Lemma pow2_align_1 : pow2_align 1.
Proof. by left. Qed.

Lemma Alignment_pow2 fuel t a : Alignment fuel resolve t = Ok a → pow2_align a.
Proof.
  revert t a; induction fuel as [|fuel IH]; intros t a H; [done|].
  pose proof (max_align_loop_pow2 (Alignment fuel resolve)) as Hloop.
  pose proof (arm_align_pow2 (Alignment fuel resolve)) as Harm. pose proof pow2_align_1 as H1.
  destruct t; cbn in H; try discriminate H.
  - by eapply alignmentPrimitive_pow2.
  - eauto.
  - unfold alignmentVariant, MaxCaseAlignment in H. go_inv; eauto using alignmentPrimitive_pow2.
  - injection H as <-. unfold pow2_align. lia.
  - unfold alignmentFixedList in H. go_inv. eauto.
  - eauto.
  - injection H as <-. unfold pow2_align. lia.
  - by eapply flags_pow2.
  - unfold alignmentEnum in H. go_inv. by eapply alignmentPrimitive_pow2.
  - unfold alignmentOption in H. go_inv; eauto.
  - unfold alignmentResult in H. go_inv; eauto.
  - injection H as <-. unfold pow2_align. lia.
  - injection H as <-. unfold pow2_align. lia.
  - injection H as <-. unfold pow2_align. lia.
  - injection H as <-. unfold pow2_align. lia.
Qed.

Lemma primitive_divide p a s : alignmentPrimitive p = Ok a → sizePrimitive p = Ok s → (a | s).
Proof.
  destruct p; cbn; intros H1 H2; try discriminate H1; injection H1 as <-; injection H2 as <-;
    try apply Z.divide_refl. by exists 2.
Qed.

Lemma disc_align_size n a : alignmentPrimitive (DiscriminantType n) = Ok a → sizePrimitive (DiscriminantType n) = Ok a.
Proof. unfold DiscriminantType. by repeat case_match. Qed.

Lemma arm_size_align al sz r m a r' s' a' :
  arm_size resolve al sz r (m, a) = Ok (s', a') → arm_align resolve al r a = Ok r' → a' = r'.
Proof.
  destruct r as [r|]; cbn; intros H1 H2; [|congruence].
  apply obind_Ok in H2 as (t & Et & H2). apply obind_Ok in H2 as (b & Eb & H2). rewrite Et in H1. cbn in H1.
  apply obind_Ok in H1 as (c & _ & H1). rewrite Eb in H1. cbn in H1. congruence.
Qed.

Lemma Size_divide fuel t a s :
  Alignment fuel resolve t = Ok a → Size fuel resolve t = Ok s → (a | s).
Proof.
  revert t a s; induction fuel as [|fuel IH]; intros t a s Ha Hs; [done|].
  pose proof (Alignment_pow2 _ _ _ Ha) as Hp.
  destruct t; cbn in Ha, Hs; try discriminate Ha.
  - by eapply primitive_divide.
  - unfold sizeRecord, alignmentRecord in *. go_inv. rewrite Ha in Hret0. go_inv. by apply Align_divide.
  - unfold alignmentVariant, sizeVariant in *.
    apply obind_Ok in Ha as (da & Hda & Ha). apply obind_Ok in Ha as (ma & Hma & Ha).
    rewrite (disc_align_size _ _ Hda), Hma in Hs. cbn in Hs. go_inv.
    all: rewrite if_max, Z.max_comm; apply Z.ltb_lt in Hcond || apply Z.ltb_ge in Hcond.
    + rewrite Z.max_r by lia. by apply Align_divide.
    + rewrite Z.max_l by lia. by apply Align_divide.
  - injection Ha as <-. injection Hs as <-. by exists 2.
  - unfold alignmentFixedList, sizeFixedList in *. apply obind_Ok in Ha as (e & He & Ha).
    rewrite He in Hs. cbn in Hs. go_inv.
    apply pow2_align_wrap; [done|]. apply Z.divide_mul_l. eauto.
  - unfold sizeTuple, alignmentTuple in *. go_inv. rewrite Ha in Hret0. go_inv. by apply Align_divide.
  - injection Ha as <-. injection Hs as <-. by exists 2.
  - assert (s = a) as ->; [|apply Z.divide_refl].
    unfold alignmentFlags, sizeFlags, alignmentFlagsNumLabels, sizeFlagsNumLabels in *. congruence.
  - unfold alignmentEnum, sizeEnum, sizeEnumNumCases in *. go_inv. by eapply primitive_divide.
  - unfold alignmentOption, sizeOption in *. apply obind_Ok in Ha as (e & He & Ha).
    apply obind_Ok in Ha as (ea & Hea & Ha). rewrite He in Hs. cbn in Hs. rewrite Hea in Hs. go_inv; simplify_eq.
    all: apply Z.ltb_lt in Hcond || apply Z.ltb_ge in Hcond.
    + rewrite Z.max_r by lia. by apply Align_divide.
    + rewrite Z.max_l by lia. by apply Align_divide.
  - unfold alignmentResult, sizeResult in *. apply obind_Ok in Ha as (a1 & Ha1 & Ha).
    apply obind_Ok in Ha as (a2 & Ha2 & Ha). apply obind_Ok in Hs as ([s1 b1] & Hs1 & Hs).
    apply obind_Ok in Hs as ([s2 b2] & Hs2 & Hs).
    assert (b1 = a1) as -> by (eapply arm_size_align; eauto).
    assert (b2 = a2) as -> by (eapply arm_size_align; eauto). go_inv.
    all: apply Z.ltb_lt in Hcond || apply Z.ltb_ge in Hcond.
    + rewrite Z.max_r by lia. by apply Align_divide.
    + rewrite Z.max_l by lia. by apply Align_divide.
  - injection Ha as <-. injection Hs as <-. apply Z.divide_refl.
  - injection Ha as <-. injection Hs as <-. apply Z.divide_refl.
  - injection Ha as <-. injection Hs as <-. apply Z.divide_refl.
  - injection Ha as <-. injection Hs as <-. apply Z.divide_refl.
Qed.
End any.

(** * Geometry of placed values *)

Lemma pow2_align_pos a : pow2_align a → 0 < a.
Proof. unfold pow2_align. lia. Qed.

Lemma align_to_shift x y a : 0 < a → (a | x) → align_to (x + y) a = x + align_to y a.
Proof.
  intros Ha [k ->]. unfold align_to. replace (k * a + y + a - 1) with (y + a - 1 + k * a) by lia.
  rewrite Z.div_add by lia. lia.
Qed.

Lemma max_align_dvd ls l : Forall good ls → l ∈ ls → (l.1 | max_list 1 ls.*1).
Proof.
  intros Hg Hl. apply pow2_align_dvd; [|by apply max_pow2|].
  - rewrite Forall_forall in Hg. apply list_elem_of_In in Hl. by destruct (Hg l).
  - apply max_list_elem. by apply list_elem_of_fmap_2.
Qed.

(** Fields placed from an aligned base are the fields placed from 0, moved. *)
Lemma places_shift ls a x o :
  Forall (λ l, 0 < l.1 ∧ (l.1 | a)) ls → (a | x) → foldl place (x + o) ls = x + foldl place o ls.
Proof.
  intros Hls Hx. revert o; induction Hls as [|l ls [Hp Hl] _ IH]; intros o; [done|]. cbn.
  unfold place at 2 4. rewrite align_to_shift by (done || by eapply Z.divide_trans).
  rewrite <- Z.add_assoc. apply IH.
Qed.

Lemma record_places ls x :
  Forall good ls → (record_align ls | x) → foldl place x ls ≤ x + record_size ls.
Proof.
  intros Hg Hx. rewrite <- (Z.add_0_r x) at 1. rewrite (places_shift ls (record_align ls)).
  - unfold record_size. pose proof (align_to_bounds (foldl place 0 ls) (record_align ls)
      (pow2_align_pos _ (max_pow2 ls Hg))). lia.
  - apply Forall_forall. intros l Hl. split; [|apply max_align_dvd; [done|by apply list_elem_of_In]].
    rewrite Forall_forall in Hg. apply pow2_align_pos. by destruct (Hg l).
  - done.
Qed.

(** The payload of a variant lies within it, aligned for every case. *)
Lemma payload_placed n ls x l :
  Forall good ls → (variant_align n ls | x) → l ∈ ls →
  let o := align_to (x + spec_disc n) (max_list 1 ls.*1) in
  (l.1 | o) ∧ x + spec_disc n ≤ o ∧ o + l.2 ≤ x + variant_size n ls.
Proof.
  intros Hg Hx Hl o. pose proof (max_pow2 ls Hg) as Hp. pose proof (spec_disc_pow2 n) as Hd.
  assert (pow2_align (variant_align n ls)) as Hv by by apply pow2_align_max.
  assert ((max_list 1 ls.*1 | x)) as Hmx.
  { eapply Z.divide_trans; [|exact Hx]. apply pow2_align_dvd; [done|done|]. unfold variant_align. lia. }
  assert (o = x + align_to (spec_disc n) (max_list 1 ls.*1)) as Eo
    by (apply align_to_shift; [by apply pow2_align_pos|done]).
  pose proof (align_to_bounds (spec_disc n) (max_list 1 ls.*1) (pow2_align_pos _ Hp)).
  pose proof (max_list_elem 0 ls.*2 l.2 ltac:(by apply list_elem_of_fmap_2)).
  pose proof (align_to_bounds (align_to (spec_disc n) (max_list 1 ls.*1) + max_list 0 ls.*2)
    (variant_align n ls) (pow2_align_pos _ Hv)).
  split_and!.
  - eapply Z.divide_trans; [by apply max_align_dvd|]. apply align_to_divide.
  - lia.
  - unfold variant_size. lia.
Qed.

Lemma variant_size_disc n ls : Forall good ls → spec_disc n ≤ variant_size n ls.
Proof.
  intros Hg. pose proof (max_pow2 ls Hg) as Hp. pose proof (spec_disc_pow2 n) as Hd.
  assert (pow2_align (variant_align n ls)) as Hv by by apply pow2_align_max.
  pose proof (align_to_bounds (spec_disc n) (max_list 1 ls.*1) (pow2_align_pos _ Hp)).
  pose proof (max_list_ge 0 ls.*2).
  pose proof (align_to_bounds (align_to (spec_disc n) (max_list 1 ls.*1) + max_list 0 ls.*2)
    (variant_align n ls) (pow2_align_pos _ Hv)). unfold variant_size. lia.
Qed.

(** Element [i] of an aligned array is aligned. *)
Lemma elem_aligned a s q i : (a | s) → (a | q) → (a | q + i * s).
Proof. intros. apply Z.divide_add_r; [done|]. by apply Z.divide_mul_r. Qed.

(** * Theorems *)

(** C6. [Alignment] and [Size] compute the Canonical ABI's alignment and size of
    every valid type: for a descriptor that unfolds to the type tree [t], with
    fuel for its height, both return the specified value, with no 32-bit
    wrap-around on the way.  This covers the separate code paths of record,
    tuple, variant, option, result, map, flags, enum and fixed-length list. *)
Theorem layout_correct resolve d t fuel :
  denotes resolve d t → valid t = true → (height t ≤ fuel)%nat →
  Alignment fuel resolve d = Ok (spec_align t) ∧ Size fuel resolve d = Ok (spec_size t).
Proof. apply layout_walks. Qed.

(** Whatever the resolver answers, and even where the 32-bit sums wrap, an
    alignment is 1, 2, 4 or 8 and the size of a type is a multiple of its
    alignment, so array elements stay aligned. *)
Theorem layout_result_wf resolve fuel d a s :
  Alignment fuel resolve d = Ok a → Size fuel resolve d = Ok s →
  pow2_align a ∧ (a | s).
Proof. eauto using Alignment_pow2, Size_divide. Qed.

(** A type graph: 0 is a record of a u8, an option, a list, a variant and an
    enum, given by index. *)
Definition sample_types (i : Z) : option TypeDesc :=
  match i with
  | 0 => Some (RecordDesc [mkField "a" (prim_ref Pu8); mkField "b" (idx_ref 1);
                           mkField "c" (idx_ref 2); mkField "d" (idx_ref 3);
                           mkField "e" (idx_ref 4)])
  | 1 => Some (OptionDesc (prim_ref Pu64))
  | 2 => Some (ListDesc (prim_ref Pstring))
  | 3 => Some (VariantDesc [mkCase "x" None; mkCase "y" (Some (prim_ref Pu16));
                            mkCase "z" (Some (idx_ref 5))])
  | 4 => Some (EnumDesc ["p"; "q"; "r"]%string)
  | 5 => Some (FixedListDesc (prim_ref Pu8) 3)
  | _ => None
  end.

Definition sample_desc : TypeDesc :=
  RecordDesc [mkField "a" (prim_ref Pu8); mkField "b" (idx_ref 1);
              mkField "c" (idx_ref 2); mkField "d" (idx_ref 3); mkField "e" (idx_ref 4)].

Definition sample_ty : ty :=
  TRecord [TPrim Pu8; TOption (TPrim Pu64); TList (TPrim Pstring);
           TVariant [None; Some (TPrim Pu16); Some (TFixed (TPrim Pu8) 3)]; TEnum 3].

(** Proves that a concrete descriptor denotes a concrete tree. *)
Ltac solve_denotes :=
  repeat first
    [ reflexivity
    | match goal with |- denotes _ (EnumDesc ?c) (TEnum ?n) => exact (den_enum _ c) end
    | match goal with |- denotes _ (FlagsDesc ?c) (TFlags ?n) => exact (den_flags _ c) end
    | econstructor | lia ].

Lemma sample_denotes : denotes (Some sample_types) sample_desc sample_ty.
Proof. solve_denotes. Qed.

Lemma layout_correct_witness :
  Alignment 5 (Some sample_types) sample_desc = Ok 8 ∧ Size 5 (Some sample_types) sample_desc = Ok 40.
Proof.
  exact (layout_correct (Some sample_types) sample_desc sample_ty 5 sample_denotes eq_refl
           ltac:(cbn; lia)).
Defined.

Lemma layout_result_wf_witness : pow2_align 8 ∧ (8 | 40).
Proof.
  exact (layout_result_wf (Some sample_types) 5 sample_desc 8 40 eq_refl eq_refl).
Defined.
