(* ===== verification/AbiFlatten.v ===== *)
(** Flattening of component types to core value types:
    [internal/component/abi/flatten.go], [flatwidth.go] and the flattening half
    of [fixedlist.go].

    The specification ([spec_flatten], [spec_flatten_func]) is the Canonical
    ABI's [flatten_type] and [flatten_functype] on type trees.  The code
    departs from it in one place, a fixed-length list wider than
    [MaxFlatParams] is cut short; the theorems show that this is not observable
    in a function signature, that [FlatWidth] is the length of the flattening,
    refused past [maxFlatWidth], and
    that the slot-by-slot join is the specification's pairwise one. *)
From Stdlib Require Import ZArith Lia String.
From stdpp Require Import base list numbers option tactics.
From S2P Require Import Prelude AbiTypes AbiLayout.
Local Open Scope Z_scope.
Local Open Scope go_scope.

(** * The code *)

Definition MaxFlatParams : Z := 16.
Definition MaxFlatResults : Z := 1.

(** The core type names. *)
Inductive core : Type := I32 | I64 | F32 | F64.

#[export] Instance core_eq_dec : EqDecision core.
Proof. solve_decision. Defined.

Definition flattenPrimitive (prim : Prim) : res (list core) :=
  match prim with
  | Pbool => Ok [I32]
  | Pu8 | Pu16 | Pu32 | Ps8 | Ps16 | Ps32 => Ok [I32]
  | Ps64 | Pu64 => Ok [I64]
  | Pf32 => Ok [F32]
  | Pf64 => Ok [F64]
  | Pchar => Ok [I32]
  | Pstring => Ok [I32; I32]
  | PerrorContext => Ok [I32]
  | Punknown _ => Err (EUnknownPrimitive prim)
  end.

Definition flattenList : res (list core) := Ok [I32; I32].

Definition flattenFlagsNumLabels (numLabels : Z) : res (list core) :=
  if (numLabels <=? 0) || (32 <? numLabels) then Err (EInvalidFlags numLabels)
  else Ok [I32].

Definition flattenFlags (names : list string) : res (list core) :=
  flattenFlagsNumLabels (zlen names).

Definition flattenEnum (cases : list string) : res (list core) :=
  if zlen cases <=? 0 then Err (EInvalidEnum (zlen cases)) else Ok [I32].

(** The loop of [joinCoreTypes]: whether all are the first one, and whether
    all are i32 or f32. *)
Fixpoint join_loop (all : core) (types : list core) (acc : bool * bool) : bool * bool :=
  match types with
  | [] => acc
  | t :: types =>
      let '(allSame, allI32OrF32) := acc in
      let allSame := if negb (bool_decide (t = all)) then false else allSame in
      let allI32OrF32 :=
        if negb (bool_decide (t = I32)) && negb (bool_decide (t = F32)) then false else allI32OrF32 in
      join_loop all types (allSame, allI32OrF32)
  end.

Definition joinCoreTypes (types : list core) : core :=
  match types with
  | [] => I32
  | all :: _ =>
      let '(allSame, allI32OrF32) := join_loop all types (true, true) in
      if allSame then all else if allI32OrF32 then I32 else I64
  end.

(** One slot of the join: the candidates are the entries of the flattenings
    that are long enough. *)
Definition slot_candidates (flats : list (list core)) (i : nat) : list core :=
  omap (λ f, f !! i) flats.

(** The loop over the slots. *)
Definition join_slots (flats : list (list core)) (maxLen : nat) : list core :=
  flat_map (λ i, let candidates := slot_candidates flats i in
                 match candidates with [] => [] | _ => [joinCoreTypes candidates] end)
    (seq 0 maxLen).

Definition maxFlatWidth : Z := 2 ^ 20.

Definition addFlatWidth (a b : Z) : res Z :=
  if maxFlatWidth - b <? a then Err EFlatWidth else Ok (a + b).

Definition fixedListCopies (elemWidth n : Z) : Z :=
  if elemWidth =? 0 then 0
  else if u64 (elemWidth * n) <=? MaxFlatParams then n
  else MaxFlatParams / elemWidth + 1.

Definition flatWidthPrimitive (prim : Prim) : res Z :=
  let* f := flattenPrimitive prim in Ok (zlen f).

Section walk.
Variable resolve : Resolver.
Variable FlatWidth : TypeDesc → res Z.

Definition flatWidthRef (ref : TypeRef) : res Z :=
  let* t := resolveType (Some ref) resolve in FlatWidth t.

(** The loop over the fields of a record or the elements of a tuple. *)
Fixpoint width_sum (rs : list TypeRef) (total : Z) : res Z :=
  match rs with
  | [] => Ok total
  | r :: rs =>
      let* w := flatWidthRef r in
      let* total := addFlatWidth total w in
      width_sum rs total
  end.

Fixpoint width_max (rs : list TypeRef) (widest : Z) : res Z :=
  match rs with
  | [] => Ok widest
  | r :: rs =>
      let* w := flatWidthRef r in
      width_max rs (if widest <? w then w else widest)
  end.

Definition flatWidthVariant (cases : list VariantCase) : res Z :=
  let* widest := width_max (case_types cases) 0 in
  let* disc := flatWidthPrimitive (DiscriminantType (zlen cases)) in
  addFlatWidth disc widest.

Definition flatWidthOption (element : TypeRef) : res Z :=
  let* w := flatWidthRef element in addFlatWidth 1 w.

Definition arm_width (arm : option TypeRef) : res Z :=
  match arm with None => Ok 0 | Some r => flatWidthRef r end.

Definition flatWidthResult (ok err : option TypeRef) : res Z :=
  let* okW := arm_width ok in
  let* errW := arm_width err in
  addFlatWidth 1 (if okW <? errW then errW else okW).

Definition flatWidthFixedList (element : TypeRef) (length : Z) : res Z :=
  let* w := flatWidthRef element in
  Ok (w * fixedListCopies w length).

Variable Flatten : TypeDesc → res (list core).

(** The loop over the fields of a record, the elements of a tuple or the
    parameters of a function, appending to [flat]. *)
Fixpoint flatten_refs (rs : list TypeRef) (flat : list core) : res (list core) :=
  match rs with
  | [] => Ok flat
  | r :: rs =>
      let* ft := resolveType (Some r) resolve in
      let* fFlat := Flatten ft in
      flatten_refs rs (flat ++ fFlat)
  end.

Definition flattenRecord (fields : list RecordField) (width : res Z) : res (list core) :=
  let* _ := width in flatten_refs (rf_Type <$> fields) [].

Definition flattenTuple (elements : list TypeRef) (width : res Z) : res (list core) :=
  let* _ := width in flatten_refs elements [].

(** The payload flattenings of a variant and the length of the longest. *)
Fixpoint case_flats (rs : list TypeRef) (caseFlats : list (list core)) (maxLen : nat)
    : res (list (list core) * nat) :=
  match rs with
  | [] => Ok (caseFlats, maxLen)
  | r :: rs =>
      let* ct := resolveType (Some r) resolve in
      let* cFlat := Flatten ct in
      case_flats rs (caseFlats ++ [cFlat])
        (if (maxLen <? List.length cFlat)%nat then List.length cFlat else maxLen)
  end.

Definition flattenVariant (cases : list VariantCase) : res (list core) :=
  let* discFlat := flattenPrimitive (DiscriminantType (zlen cases)) in
  let* '(caseFlats, maxLen) := case_flats (case_types cases) [] 0 in
  Ok (discFlat ++ join_slots caseFlats maxLen).

Definition flattenOption (element : TypeRef) : res (list core) :=
  let* elemT := resolveType (Some element) resolve in
  let* elemFlat := Flatten elemT in
  Ok (I32 :: elemFlat).

Definition arm_flat (arm : option TypeRef) : res (list core) :=
  match arm with
  | None => Ok []
  | Some r => let* t := resolveType (Some r) resolve in Flatten t
  end.

Definition flattenResult (ok err : option TypeRef) : res (list core) :=
  let* okFlat := arm_flat ok in
  let* errFlat := arm_flat err in
  let maxLen := Nat.max (List.length errFlat) (Nat.max (List.length okFlat) 0) in
  Ok (I32 :: join_slots [okFlat; errFlat] maxLen).

Definition flattenFixedList (element : TypeRef) (length : Z) : res (list core) :=
  let* elem := resolveType (Some element) resolve in
  let* elemFlat := Flatten elem in
  let copies := fixedListCopies (zlen elemFlat) length in
  Ok (concat (replicate (Z.to_nat copies) elemFlat)).
End walk.

Fixpoint FlatWidth (fuel : nat) (resolve : Resolver) (t : TypeDesc) : res Z :=
  match fuel with
  | O => NoFuel
  | S fuel =>
      let rec := FlatWidth fuel resolve in
      match t with
      | PrimitiveDesc prim => flatWidthPrimitive prim
      | ListDesc _ => Ok 2
      | MapDesc _ _ => Ok 2
      | FixedListDesc element length => flatWidthFixedList resolve rec element length
      | RecordDesc fields => width_sum resolve rec (rf_Type <$> fields) 0
      | TupleDesc elements => width_sum resolve rec elements 0
      | VariantDesc cases => flatWidthVariant resolve rec cases
      | OptionDesc element => flatWidthOption resolve rec element
      | ResultDesc ok err => flatWidthResult resolve rec ok err
      | FlagsDesc names => let* f := flattenFlagsNumLabels (zlen names) in Ok (zlen f)
      | EnumDesc cases => let* f := flattenEnum cases in Ok (zlen f)
      | OwnDesc _ | BorrowDesc _ | StreamDesc _ | FutureDesc _ => Ok 1
      | FuncDesc _ _ _ | InstanceDesc | ComponentDesc | ResourceDesc _ _ => Err EUnsupported
      end
  end.

Fixpoint Flatten (fuel : nat) (resolve : Resolver) (t : TypeDesc) : res (list core) :=
  match fuel with
  | O => NoFuel
  | S fuel' =>
      let rec := Flatten fuel' resolve in
      match t with
      | PrimitiveDesc prim => flattenPrimitive prim
      | ListDesc _ => flattenList
      | MapDesc _ _ => flattenList
      | FixedListDesc element length => flattenFixedList resolve rec element length
      | RecordDesc fields => flattenRecord resolve rec fields (FlatWidth fuel resolve t)
      | VariantDesc cases => flattenVariant resolve rec cases
      | TupleDesc elements => flattenTuple resolve rec elements (FlatWidth fuel resolve t)
      | FlagsDesc names => flattenFlags names
      | EnumDesc cases => flattenEnum cases
      | OptionDesc element => flattenOption resolve rec element
      | ResultDesc ok err => flattenResult resolve rec ok err
      | OwnDesc _ | BorrowDesc _ | StreamDesc _ | FutureDesc _ => Ok [I32]
      | FuncDesc _ _ _ | InstanceDesc | ComponentDesc | ResourceDesc _ _ => Err EUnsupported
      end
  end.

(** The [context] string: "lift", "lower" or anything else. *)
Inductive context : Type := lift | lower | other_context.

Definition FlattenFunc (fuel : nat) (params : list FuncParam) (results : FuncResults)
    (resolve : Resolver) (ctx : context) : res (list core * list core) :=
  let* ps := flatten_refs resolve (Flatten fuel resolve) (fp_Type <$> params) [] in
  let* rs := match Unnamed results with
             | Some r => flatten_refs resolve (Flatten fuel resolve) [r] []
             | None => flatten_refs resolve (Flatten fuel resolve) (fp_Type <$> Named results) []
             end in
  let ps := if MaxFlatParams <? zlen ps then [I32] else ps in
  if MaxFlatResults <? zlen rs then
    match ctx with
    | lift => Ok (ps, [I32])
    | lower => Ok (ps ++ [I32], [])
    | other_context => Err EInvalidContext
    end
  else Ok (ps, rs).

(** * The specification *)

(** The Canonical ABI's [join] of two core types. *)
Definition join (a b : core) : core :=
  if decide (a = b) then a
  else match a, b with
       | I32, F32 | F32, I32 => I32
       | _, _ => I64
       end.

(** Joining one flattening into another, slot by slot. *)
Fixpoint merge (a b : list core) : list core :=
  match a, b with
  | [], b => b
  | a, [] => a
  | x :: a, y :: b => join x y :: merge a b
  end.

(** [flatten_variant]: the discriminant, then the payloads joined in turn. *)
Definition flatten_cases (flats : list (list core)) : list core :=
  I32 :: foldl merge [] flats.

Definition prim_flat (p : Prim) : list core :=
  match p with
  | Ps64 | Pu64 => [I64]
  | Pf32 => [F32]
  | Pf64 => [F64]
  | Pstring => [I32; I32]
  | _ => [I32]
  end.

(** [flatten_type] on trees, with the number of copies of a fixed-length list's
    element a parameter. *)
Fixpoint flatten_with (copies : Z → Z → Z) (t : ty) : list core :=
  match t with
  | TPrim p => prim_flat p
  | TRecord ts | TTuple ts => concat (flatten_with copies <$> ts)
  | TVariant cs => flatten_cases (omap (fmap (flatten_with copies)) cs)
  | TList _ => [I32; I32]
  | TFixed t n => let f := flatten_with copies t in
                  concat (replicate (Z.to_nat (copies (zlen f) n)) f)
  | TFlags _ | TEnum _ | THandle => [I32]
  | TOption t => flatten_cases [flatten_with copies t]
  | TResult o e => flatten_cases (omap (fmap (flatten_with copies)) [o; e])
  end.

(** The Canonical ABI's flattening: every element of a fixed-length list. *)
Definition spec_flatten : ty → list core := flatten_with (λ _ n, n).

(** The flattening the code computes. *)
Definition cut_flatten : ty → list core := flatten_with fixedListCopies.

(** [flatten_functype]. *)
Definition spec_flatten_func (params results : list ty) (ctx : context)
    : res (list core * list core) :=
  let ps := concat (spec_flatten <$> params) in
  let rs := concat (spec_flatten <$> results) in
  let ps := if MaxFlatParams <? zlen ps then [I32] else ps in
  if MaxFlatResults <? zlen rs then
    match ctx with
    | lift => Ok (ps, [I32])
    | lower => Ok (ps ++ [I32], [])
    | other_context => Err EInvalidContext
    end
  else Ok (ps, rs).

(** * Joins *)

Lemma join_loop_spec all types s i :
  join_loop all types (s, i) =
    (s && forallb (λ t, bool_decide (t = all)) types,
     i && forallb (λ t, bool_decide (t = I32) || bool_decide (t = F32)) types).
Proof.
  revert s i; induction types as [|t types IH]; intros s i; cbn [join_loop forallb].
  - by rewrite !andb_true_r.
  - rewrite IH. f_equal; [destruct (bool_decide (t = all))|
      destruct (bool_decide (t = I32)), (bool_decide (t = F32))]; cbn; by rewrite ?andb_false_r.
Qed.

(** The all-at-once join of the code is the pairwise join. *)
Lemma joinCoreTypes_fold x l : joinCoreTypes (x :: l) = foldl join x l.
Proof.
  unfold joinCoreTypes. rewrite join_loop_spec. cbn [andb].
  assert (∀ l x y, (y = x ∨ y = I32 ∧ (x = I32 ∨ x = F32) ∨ y = I64) →
    foldl join y l =
      if forallb (λ t, bool_decide (t = x)) l && bool_decide (y = x) then x
      else if forallb (λ t, bool_decide (t = I32) || bool_decide (t = F32)) l
              && (bool_decide (y = I32) || bool_decide (y = F32)) then I32 else I64) as H.
  { clear. assert (∀ l, forallb (λ t, bool_decide (t = I32)) l = true →
      forallb (λ t, bool_decide (t = I32) || bool_decide (t = F32)) l = true) as Himp.
    { intros l. rewrite !forallb_forall. intros H t Ht. by rewrite H. }
    induction l as [|t l IH]; intros x y Hy; cbn [foldl forallb].
    - destruct x, y; cbn; try done; destruct Hy as [?|[[? [?|?]]|?]]; done.
    - rewrite (IH x).
      + destruct x, y, t; cbn; rewrite ?andb_false_r, ?andb_true_r; try done;
          destruct Hy as [?|[[? [?|?]]|?]]; try done;
          specialize (Himp l); repeat match goal with |- context [forallb ?f l] => destruct (forallb f l) end;
          done || by rewrite Himp.
      + destruct x, y, t; cbn; try tauto; destruct Hy as [?|[[? [?|?]]|?]]; try done; tauto. }
  rewrite (H l x x) by auto. cbn [forallb]. rewrite (bool_decide_eq_true_2 (x = x)) by done.
  rewrite andb_true_r. cbn [andb]. case_match; [done|].
  by rewrite (andb_comm (forallb _ l)).
Qed.

Lemma lookup_merge a b i : merge a b !! i = union_with (λ x y, Some (join x y)) (a !! i) (b !! i).
Proof.
  revert b i; induction a as [|x a IH]; intros [|y b] [|i]; cbn;
    first [done | apply IH | by destruct (b !! i) | by destruct (a !! i)].
Qed.

(** The join of a list of candidates. *)
Definition join_all (l : list core) : option core :=
  match l with [] => None | x :: l => Some (foldl join x l) end.

Lemma lookup_merge_all flats acc i :
  foldl merge acc flats !! i = join_all (option_list (acc !! i) ++ slot_candidates flats i).
Proof.
  revert acc; induction flats as [|f flats IH]; intros acc; cbn [foldl].
  - cbn. rewrite app_nil_r. by destruct (acc !! i).
  - rewrite IH, lookup_merge. unfold slot_candidates. cbn.
    destruct (acc !! i), (f !! i); done.
Qed.

Definition max_len (flats : list (list core)) : nat := maxl (List.length <$> flats).

Lemma slot_candidates_nonempty flats i :
  (i < max_len flats)%nat → slot_candidates flats i ≠ [].
Proof.
  unfold max_len, maxl, slot_candidates. induction flats as [|f flats IH]; cbn; [lia|]. intros Hi.
  destruct (f !! i) as [x|] eqn:E; [done|]. apply IH. apply lookup_ge_None in E. lia.
Qed.

Lemma slot_candidates_empty flats i :
  (max_len flats ≤ i)%nat → slot_candidates flats i = [].
Proof.
  unfold max_len, maxl, slot_candidates. induction flats as [|f flats IH]; cbn; [done|]. intros Hi.
  rewrite (proj2 (lookup_ge_None f i)) by lia. apply IH. lia.
Qed.

(** The slot loop of [flattenVariant] and [flattenResult] is the
    specification's case-by-case merge. *)
Lemma join_slots_merge flats : join_slots flats (max_len flats) = foldl merge [] flats.
Proof.
  assert (join_slots flats (max_len flats) =
    (λ i, joinCoreTypes (slot_candidates flats i)) <$> seq 0 (max_len flats)) as ->.
  { unfold join_slots. assert (∀ i, i ∈ seq 0 (max_len flats) → (i < max_len flats)%nat) as Hin.
    { intros i Hi. apply elem_of_seq in Hi. lia. }
    induction (seq 0 (max_len flats)) as [|i js IH]; [done|]. cbn [flat_map fmap list_fmap].
    rewrite IH by (intros; apply Hin; by right).
    pose proof (slot_candidates_nonempty flats i ltac:(apply Hin; left)).
    by destruct (slot_candidates flats i). }
  apply list_eq. intros i. rewrite lookup_merge_all. cbn.
  destruct (decide (i < max_len flats)%nat) as [Hi|Hi].
  - rewrite list_lookup_fmap, lookup_seq_lt by done. cbn.
    pose proof (slot_candidates_nonempty flats i Hi).
    destruct (slot_candidates flats i) as [|x l]; [done|]. cbn [join_all]. by rewrite joinCoreTypes_fold.
  - rewrite slot_candidates_empty by lia. cbn.
    apply lookup_ge_None. rewrite length_fmap, length_seq. lia.
Qed.

Lemma length_merge a b : List.length (merge a b) = Nat.max (List.length a) (List.length b).
Proof. revert b; induction a as [|x a IH]; intros [|y b]; cbn; [done..|]. by rewrite IH. Qed.

Lemma length_merge_all flats acc :
  List.length (foldl merge acc flats) = Nat.max (List.length acc) (max_len flats).
Proof.
  unfold max_len, maxl. revert acc; induction flats as [|f flats IH]; intros acc; cbn; [lia|].
  rewrite IH, length_merge. lia.
Qed.

(** * Widths *)

(** A computation of a width agrees with one of what is measured: they succeed
    together, with results related by [P], unless the width fails for exceeding
    its bound. *)
Definition agreeP {A} (P : Z → A → Prop) (w : res Z) (f : res A) : Prop :=
  match w with
  | Ok n => ∃ a, f = Ok a ∧ P n a
  | Err EFlatWidth => True
  | _ => ∀ a, f ≠ Ok a
  end.

(** The width is the number of core types. *)
Abbreviation agree := (agreeP (λ n (l : list core), zlen l = n)).

Lemma agree_bind {A B} (P : Z → A → Prop) (Q : Z → B → Prop) w f kw kf :
  agreeP P w f → (∀ n a, P n a → agreeP Q (kw n) (kf a)) → agreeP Q (obind w kw) (obind f kf).
Proof.
  intros H Hk. destruct w as [n|e| |]; cbn in *.
  - destruct H as (l & -> & Hp). by apply Hk.
  - destruct e; try done; intros l; destruct f as [x| | |]; try done; by destruct (H x).
  - intros l; destruct f as [x| | |]; try done; by destruct (H x).
  - intros l; destruct f as [x| | |]; try done; by destruct (H x).
Qed.

Lemma agree_resolve {A} (P : Z → A → Prop) r resolve kw kf :
  (∀ t, resolveType r resolve = Ok t → agreeP P (kw t) (kf t)) →
  agreeP P (let* t := resolveType r resolve in kw t) (let* t := resolveType r resolve in kf t).
Proof.
  intros H. destruct (resolveType r resolve) as [t|e| |]; cbn; [by apply H|by destruct e|done..].
Qed.

Lemma agree_add a b (l : list core) :
  zlen l = a + b → agree (addFlatWidth a b) (Ok l).
Proof. intros Hl. unfold addFlatWidth. case_match; cbn; eauto. Qed.

Section agree.
Variable resolve : Resolver.
Variable W : TypeDesc → res Z.
Variable F : TypeDesc → res (list core).
Hypothesis HWF : ∀ r t, resolveType r resolve = Ok t → agree (W t) (F t).

Lemma agree_ref r : agree (flatWidthRef resolve W r) (let* t := resolveType (Some r) resolve in F t).
Proof. apply agree_resolve. apply HWF. Qed.

Lemma agree_sum rs flat :
  agree (width_sum resolve W rs (zlen flat)) (flatten_refs resolve F rs flat).
Proof.
  revert flat; induction rs as [|r rs IH]; intros flat; cbn [width_sum flatten_refs]; [by eexists|].
  unfold flatWidthRef. destruct (resolveType (Some r) resolve) as [t|e| |] eqn:Er; cbn [obind]; [|by destruct e|done..].
  eapply agree_bind; [by apply (HWF (Some r))|]. cbn. intros n l <-. unfold addFlatWidth.
  case_match; cbn; [done|]. rewrite <- zlen_app. apply IH.
Qed.

Lemma max_len_snoc flats l : max_len (flats ++ [l]) = Nat.max (max_len flats) (List.length l).
Proof.
  unfold max_len, maxl. rewrite fmap_app, foldr_app. cbn.
  induction flats as [|f flats IH]; cbn; [lia|]. rewrite IH. lia.
Qed.

Lemma agree_max rs flats :
  agreeP (λ n x, x.2 = max_len x.1 ∧ n = Z.of_nat (max_len x.1))
    (width_max resolve W rs (Z.of_nat (max_len flats))) (case_flats resolve F rs flats (max_len flats)).
Proof.
  revert flats; induction rs as [|r rs IH]; intros flats; cbn [width_max case_flats]; [by eexists|].
  unfold flatWidthRef. destruct (resolveType (Some r) resolve) as [t|e| |] eqn:Er; cbn [obind]; [|by destruct e|done..].
  eapply agree_bind; [by apply (HWF (Some r))|]. cbn beta. intros n l <-. rewrite if_max.
  pose proof (max_len_snoc flats l) as E.
  replace (Z.of_nat (max_len flats) `max` zlen l) with (Z.of_nat (max_len (flats ++ [l])))
    by (unfold zlen; lia).
  replace (if (max_len flats <? List.length l)%nat then List.length l else max_len flats)
    with (max_len (flats ++ [l])) by (destruct (Nat.ltb_spec (max_len flats) (List.length l)); lia).
  apply IH.
Qed.

Lemma disc_flat n :
  flattenPrimitive (DiscriminantType n) = Ok [I32] ∨
  ∃ p, flattenPrimitive (DiscriminantType n) = Err (EUnknownPrimitive p).
Proof. unfold DiscriminantType. repeat case_match; eauto. Qed.

Lemma agree_variant cases :
  agree (flatWidthVariant resolve W cases) (flattenVariant resolve F cases).
Proof.
  unfold flatWidthVariant, flattenVariant, flatWidthPrimitive.
  pose proof (agree_max (case_types cases) []) as H. change (max_len []) with 0%nat in H.
  destruct (disc_flat (zlen cases)) as [->|[p ->]]; cbn [obind].
  - eapply agree_bind; [exact H|]. intros n [fs m] [Em ->]. cbn in Em. subst m.
    apply agree_add. rewrite zlen_app, join_slots_merge. f_equal. unfold zlen.
    by rewrite length_merge_all.
  - destruct (width_max resolve W (case_types cases) 0) as [n|e| |]; cbn; try done. by destruct e.
Qed.

Lemma agree_arm r : agree (arm_width resolve W r) (arm_flat resolve F r).
Proof. destruct r as [r|]; cbn; [apply agree_ref|eauto]. Qed.

Lemma agree_result ok err :
  agree (flatWidthResult resolve W ok err) (flattenResult resolve F ok err).
Proof.
  unfold flatWidthResult, flattenResult.
  eapply agree_bind; [apply agree_arm|]. cbn beta. intros ? l1 <-.
  eapply agree_bind; [apply agree_arm|]. cbn beta. intros ? l2 <-.
  apply agree_add. rewrite zlen_cons, if_max.
  replace (Nat.max (List.length l2) (Nat.max (List.length l1) 0)) with (max_len [l1; l2])
    by (unfold max_len; cbn; lia).
  rewrite join_slots_merge. unfold zlen at 1. rewrite length_merge_all. unfold max_len, zlen. cbn. lia.
Qed.
End agree.

Lemma zlen_copies (l : list core) n : zlen (concat (replicate n l)) = Z.of_nat n * zlen l.
Proof. induction n as [|n IH]; cbn; [done|]. rewrite zlen_app, IH. lia. Qed.

Lemma fixedListCopies_nonneg w n : 0 ≤ w → 0 ≤ n → 0 ≤ fixedListCopies w n.
Proof.
  intros Hw Hn. unfold fixedListCopies, MaxFlatParams. repeat case_match; try lia.
  assert (0 ≤ 16 `div` w) by (apply Z.div_pos; lia). lia.
Qed.

(** Every fixed-length list the resolver or the descriptor holds has a
    [uint32] length. *)
Definition length_in_range (t : TypeDesc) : Prop :=
  match t with FixedListDesc _ n => 0 ≤ n | _ => True end.

Definition resolver_in_range (resolve : Resolver) : Prop :=
  ∀ f i t, resolve = Some f → f i = Some t → length_in_range t.

Lemma resolveType_in_range resolve r t :
  resolver_in_range resolve → resolveType r resolve = Ok t → length_in_range t.
Proof.
  intros Hres. destruct r as [r|]; [|done]. unfold resolveType.
  case_match.
  { case_match; intros [= <-]; [|done]. unfold primDesc in *. by repeat case_match; simplify_eq. }
  repeat case_match; intros [= <-]. eapply Hres; eauto.
Qed.

Lemma FlatWidth_agree resolve fuel t :
  resolver_in_range resolve → length_in_range t →
  agree (FlatWidth fuel resolve t) (Flatten fuel resolve t).
Proof.
  intros Hres. revert t. induction fuel as [|fuel IH]; intros t Ht; [done|].
  assert (∀ r t, resolveType r resolve = Ok t →
    agree (FlatWidth fuel resolve t) (Flatten fuel resolve t)) as HWF
    by eauto using resolveType_in_range.
  assert (∀ rs, agree (width_sum resolve (FlatWidth fuel resolve) rs 0)
    (let* _ := width_sum resolve (FlatWidth fuel resolve) rs 0 in
     flatten_refs resolve (Flatten fuel resolve) rs [])) as Hsum.
  { intros rs. pose proof (agree_sum resolve _ _ HWF rs []) as H. change (zlen (@nil core)) with 0 in H.
    destruct (width_sum resolve (FlatWidth fuel resolve) rs 0) as [n|e| |]; [done|by destruct e|done..]. }
  destruct t; cbn; try done; try (by eexists); try apply Hsum.
  - unfold flatWidthPrimitive. destruct prim; cbn; try done; by eexists.
  - by apply agree_variant.
  - unfold flatWidthFixedList, flattenFixedList.
    unfold flatWidthRef. destruct (resolveType (Some element) resolve) as [t|e| |] eqn:Er; cbn [obind]; [|by destruct e|done..].
    eapply agree_bind; [by apply (HWF _ _ Er)|]. cbn beta. intros ? l <-. eexists. split; [done|].
    rewrite zlen_copies, Z2Nat.id; [lia|]. apply fixedListCopies_nonneg; [apply zlen_nonneg|done].
  - unfold flattenFlags, flattenFlagsNumLabels. case_match; cbn; [done|by eexists].
  - unfold flattenEnum. case_match; cbn; [done|by eexists].
  - unfold flatWidthOption, flattenOption.
    unfold flatWidthRef. destruct (resolveType (Some element) resolve) as [t|e| |] eqn:Er; cbn [obind]; [|by destruct e|done..].
    eapply agree_bind; [by apply (HWF _ _ Er)|]. cbn beta. intros ? l <-.
    apply agree_add. by rewrite zlen_cons.
  - by apply agree_result.
Qed.

(** * The code computes the cut flattening *)

Section computed.
Variable resolve : Resolver.
Variable W : TypeDesc → res Z.
Variable F : TypeDesc → res (list core).

(** The reference resolves and flattens to [l]. *)
Definition flats (r : TypeRef) (l : list core) : Prop :=
  ∃ d, resolveType (Some r) resolve = Ok d ∧ W d = Ok (zlen l) ∧ F d = Ok l.

Lemma width_sum_ok rs ls total :
  Forall2 flats rs ls → total + zlen (concat ls) ≤ 2 ^ 20 →
  width_sum resolve W rs total = Ok (total + zlen (concat ls)).
Proof.
  intros H. revert total; induction H as [|r l rs ls (d & E1 & E2 & E3) _ IH]; intros total Hle.
  - cbn. f_equal. unfold zlen. cbn. lia.
  - cbn in *. rewrite zlen_app in Hle |- *. pose proof (zlen_nonneg (concat ls)).
    unfold flatWidthRef. rewrite E1. cbn. rewrite E2. cbn. unfold addFlatWidth, maxFlatWidth.
    rewrite (proj2 (Z.ltb_ge _ _)) by lia. cbn [obind]. rewrite IH by lia. f_equal. lia.
Qed.

Lemma flatten_refs_ok rs ls flat :
  Forall2 flats rs ls → flatten_refs resolve F rs flat = Ok (flat ++ concat ls).
Proof.
  intros H. revert flat; induction H as [|r l rs ls (d & E1 & E2 & E3) _ IH]; intros flat; cbn.
  - by rewrite app_nil_r.
  - rewrite E1. cbn. rewrite E3. cbn. by rewrite IH, app_assoc.
Qed.

Lemma case_flats_ok rs ls fl :
  Forall2 flats rs ls →
  case_flats resolve F rs fl (max_len fl) = Ok (fl ++ ls, max_len (fl ++ ls)) ∧
  width_max resolve W rs (Z.of_nat (max_len fl)) = Ok (Z.of_nat (max_len (fl ++ ls))).
Proof.
  intros H. revert fl; induction H as [|r l rs ls (d & E1 & E2 & E3) _ IH]; intros fl;
    cbn [case_flats width_max].
  - by rewrite app_nil_r.
  - unfold flatWidthRef. rewrite E1. cbn [obind]. rewrite E2, E3. cbn [obind]. rewrite if_max.
    pose proof (max_len_snoc fl l) as E.
    replace (Z.of_nat (max_len fl) `max` zlen l) with (Z.of_nat (max_len (fl ++ [l])))
      by (unfold zlen; lia).
    replace (if (max_len fl <? List.length l)%nat then List.length l else max_len fl)
      with (max_len (fl ++ [l])) by (destruct (Nat.ltb_spec (max_len fl) (List.length l)); lia).
    specialize (IH (fl ++ [l])). by rewrite <- app_assoc in IH.
Qed.

Lemma zlen_flatten_cases ls : zlen (flatten_cases ls) = 1 + Z.of_nat (max_len ls).
Proof. unfold flatten_cases. rewrite zlen_cons. unfold zlen. by rewrite length_merge_all. Qed.

Lemma flatten_variant_ok cases ls :
  0 < zlen cases < 2 ^ 32 → Forall2 flats (case_types cases) ls → zlen (flatten_cases ls) ≤ 2 ^ 20 →
  flatWidthVariant resolve W cases = Ok (zlen (flatten_cases ls)) ∧
  flattenVariant resolve F cases = Ok (flatten_cases ls).
Proof.
  intros Hn H Hle. destruct (case_flats_ok _ ls [] H) as [E1 E2]. cbn [app] in E1, E2.
  change (max_len []) with 0%nat in *. change (Z.of_nat 0) with 0 in E2.
  assert (flattenPrimitive (DiscriminantType (zlen cases)) = Ok [I32]) as Ed.
  { destruct (disc_ok _ Hn) as (_ & Ed & _). destruct (disc_flat (zlen cases)) as [?|[p Hp]]; [done|].
    by destruct (DiscriminantType (zlen cases)). }
  unfold flatWidthVariant, flattenVariant, flatWidthPrimitive. rewrite Ed, E1, E2. cbn [obind].
  rewrite zlen_flatten_cases in *. unfold addFlatWidth, maxFlatWidth.
  change (zlen [I32]) with 1. rewrite (proj2 (Z.ltb_ge _ _)) by lia.
  split; [done|]. by rewrite join_slots_merge.
Qed.

Lemma flatten_option_ok r l :
  flats r l → zlen (flatten_cases [l]) ≤ 2 ^ 20 →
  flatWidthOption resolve W r = Ok (zlen (flatten_cases [l])) ∧
  flattenOption resolve F r = Ok (flatten_cases [l]).
Proof.
  intros (d & E1 & E2 & E3) Hle. unfold flatWidthOption, flattenOption, flatWidthRef.
  rewrite E1. cbn [obind]. rewrite E2, E3. cbn [obind].
  assert (flatten_cases [l] = I32 :: l) as E by (unfold flatten_cases; by destruct l).
  rewrite E in *. rewrite zlen_cons in *. unfold addFlatWidth, maxFlatWidth.
  by rewrite (proj2 (Z.ltb_ge _ _)) by lia.
Qed.

Lemma arm_ok r o :
  option_Forall2 flats r o →
  arm_width resolve W r = Ok (zlen (default [] o)) ∧ arm_flat resolve F r = Ok (default [] o).
Proof.
  intros [x l (d & E1 & E2 & E3)|]; cbn; [|done]. unfold flatWidthRef. rewrite E1. cbn. by rewrite E2, E3.
Qed.

Lemma merge_defaults (o e : option (list core)) :
  foldl merge [] [default [] o; default [] e] = foldl merge [] (omap id [o; e]).
Proof. destruct o as [[|x a]|], e as [[|y b]|]; done. Qed.

Lemma flatten_result_ok ro re o e :
  option_Forall2 flats ro o → option_Forall2 flats re e →
  zlen (flatten_cases (omap id [o; e])) ≤ 2 ^ 20 →
  flatWidthResult resolve W ro re = Ok (zlen (flatten_cases (omap id [o; e]))) ∧
  flattenResult resolve F ro re = Ok (flatten_cases (omap id [o; e])).
Proof.
  intros Ho He Hle. destruct (arm_ok ro o Ho) as [E1 E2], (arm_ok re e He) as [E3 E4].
  unfold flatWidthResult, flattenResult. rewrite E1, E2. cbn [obind]. rewrite E3, E4. cbn [obind].
  assert (flatten_cases (omap id [o; e]) = flatten_cases [default [] o; default [] e]) as E
    by (unfold flatten_cases; by rewrite merge_defaults).
  rewrite E in *. rewrite zlen_flatten_cases in *. rewrite if_max.
  assert (Z.of_nat (max_len [default [] o; default [] e]) =
    Z.max (zlen (default [] o)) (zlen (default [] e))) as El by (unfold max_len, zlen; cbn; lia).
  rewrite <- El. unfold addFlatWidth, maxFlatWidth. rewrite (proj2 (Z.ltb_ge _ _)) by lia.
  split; [done|]. f_equal. unfold flatten_cases. f_equal. rewrite <- join_slots_merge. f_equal.
  unfold max_len. cbn. lia.
Qed.
End computed.

(** The code flattens the tree [t] to its cut flattening. *)
Definition flattens (resolve : Resolver) (t : ty) : Prop :=
  ∀ d fuel, denotes resolve d t → valid t = true → (height t ≤ fuel)%nat →
    zlen (cut_flatten t) ≤ 2 ^ 20 →
    FlatWidth fuel resolve d = Ok (zlen (cut_flatten t)) ∧
    Flatten fuel resolve d = Ok (cut_flatten t).

Lemma zlen_concat_elem {A} (l : list A) ls : l ∈ ls → zlen l ≤ zlen (concat ls).
Proof.
  induction 1 as [l ls|l l' ls _ IH]; cbn; rewrite zlen_app; [pose proof (zlen_nonneg (concat ls))|
    pose proof (zlen_nonneg l')]; lia.
Qed.

Lemma max_len_elem l ls : l ∈ ls → zlen l ≤ Z.of_nat (max_len ls).
Proof.
  intros H. unfold zlen. assert (List.length l ≤ max_len ls)%nat; [|lia]. unfold max_len.
  apply maxl_elem. by apply list_elem_of_fmap_2.
Qed.

Lemma fixedListCopies_pos w n :
  0 ≤ w → 0 < n → w = 0 ∨ 1 ≤ fixedListCopies w n.
Proof.
  intros Hw Hn. unfold fixedListCopies, MaxFlatParams. destruct (Z.eqb_spec w 0); [by left|right].
  case_match; [lia|]. assert (0 ≤ 16 `div` w) by (apply Z.div_pos; lia). lia.
Qed.

Section flattens.
Variable resolve : Resolver.

Lemma flattens_ref t r fuel :
  flattens resolve t → ref_denotes resolve r t → valid t = true → (height t ≤ fuel)%nat →
  zlen (cut_flatten t) ≤ 2 ^ 20 →
  flats resolve (FlatWidth fuel resolve) (Flatten fuel resolve) r (cut_flatten t).
Proof. intros Hw (d & E & Hd) Hv Hf Hle. exists d. split; [done|]. by apply Hw. Qed.

Lemma flattens_list rs ts fuel :
  Forall (flattens resolve) ts → Forall2 (ref_denotes resolve) rs ts → forallb valid ts = true →
  (maxl (height <$> ts) ≤ fuel)%nat → zlen (concat (cut_flatten <$> ts)) ≤ 2 ^ 20 →
  Forall2 (flats resolve (FlatWidth fuel resolve) (Flatten fuel resolve)) rs (cut_flatten <$> ts).
Proof.
  intros Hw H. revert Hw. induction H as [|r t rs ts Hr _ IH]; intros Hw; [constructor|].
  inversion_clear Hw. cbn. intros [Hv Hvs]%andb_true_iff Hf Hle.
  rewrite zlen_app in Hle. pose proof (zlen_nonneg (concat (cut_flatten <$> ts))).
  pose proof (zlen_nonneg (cut_flatten t)). unfold maxl in *. constructor.
  - apply flattens_ref; [done..|lia|lia].
  - apply IH; [done..|lia|lia].
Qed.

Lemma flattens_cases cs ts fuel :
  Forall (from_option (flattens resolve) True) ts →
  Forall2 (λ c, option_Forall2 (ref_denotes resolve) (vc_Type c)) cs ts →
  forallb (from_option valid true) ts = true →
  (maxl (from_option height 0%nat <$> ts) ≤ fuel)%nat →
  (∀ l, l ∈ omap (fmap cut_flatten) ts → zlen l ≤ 2 ^ 20) →
  Forall2 (flats resolve (FlatWidth fuel resolve) (Flatten fuel resolve))
    (case_types cs) (omap (fmap cut_flatten) ts).
Proof.
  intros Hw H. revert Hw. induction H as [|c o cs ts Hc _ IH]; intros Hw; [constructor|].
  inversion_clear Hw as [|?? Hw1 Hw2]. cbn. intros [Hv Hvs]%andb_true_iff Hf Hle.
  unfold case_types, maxl in *. cbn. destruct Hc as [r t Hr|]; cbn in *.
  - constructor; [apply flattens_ref; [done..|lia|apply Hle; left]|].
    apply IH; [done..|lia|]. intros l Hl. apply Hle. by right.
  - by apply IH.
Qed.

Lemma flattens_arm r o fuel :
  from_option (flattens resolve) True o → option_Forall2 (ref_denotes resolve) r o →
  from_option valid true o = true → (from_option height 0 o ≤ fuel)%nat →
  (∀ t, o = Some t → zlen (cut_flatten t) ≤ 2 ^ 20) →
  option_Forall2 (flats resolve (FlatWidth fuel resolve) (Flatten fuel resolve)) r (cut_flatten <$> o).
Proof. intros Hw H. revert Hw. destruct H as [x t Hr|]; cbn; intros; constructor. apply flattens_ref; auto. Qed.

Lemma omap_id_fmap (o e : option ty) :
  omap (fmap cut_flatten) [o; e] = omap id [cut_flatten <$> o; cut_flatten <$> e].
Proof. by destruct o, e. Qed.

Lemma cut_cases_le cs n :
  zlen (flatten_cases cs) ≤ n → ∀ l, l ∈ cs → zlen l ≤ n.
Proof. rewrite zlen_flatten_cases. intros H l Hl. pose proof (max_len_elem l cs Hl). lia. Qed.

Lemma flatten_fixed_ok t r n fuel :
  flats resolve (FlatWidth fuel resolve) (Flatten fuel resolve) r (cut_flatten t) → 0 < n →
  flatWidthFixedList resolve (FlatWidth fuel resolve) r n = Ok (zlen (cut_flatten (TFixed t n))) ∧
  flattenFixedList resolve (Flatten fuel resolve) r n = Ok (cut_flatten (TFixed t n)).
Proof.
  intros (d & E1 & E2 & E3) Hn. unfold flatWidthFixedList, flattenFixedList, flatWidthRef.
  rewrite E1. cbn [obind]. rewrite E2, E3. cbn [obind]. split; [|done]. f_equal.
  unfold cut_flatten at 3. cbn [flatten_with]. fold (cut_flatten t). rewrite zlen_copies, Z2Nat.id; [lia|].
  apply fixedListCopies_nonneg; [apply zlen_nonneg|lia].
Qed.

Lemma cut_fixed_le t n : 0 < n → zlen (cut_flatten t) ≤ zlen (cut_flatten (TFixed t n)).
Proof.
  intros Hn. unfold cut_flatten at 2. cbn [flatten_with]. fold (cut_flatten t).
  pose proof (zlen_nonneg (cut_flatten t)) as H0. rewrite zlen_copies, Z2Nat.id.
  - destruct (fixedListCopies_pos (zlen (cut_flatten t)) n H0 Hn) as [E|E]; [rewrite E at 1|]; nia.
  - by apply fixedListCopies_nonneg; [|lia].
Qed.

Lemma flatten_computed t : flattens resolve t.
Proof.
  induction t as [p|ts IH|ts IH|cs IH|t IH|t n IH|n|n|t IH|o e IHo IHe|] using ty_ind';
    intros d [|fuel] Hd Hv Hf Hle; try (cbn in Hf; lia);
    apply valid_inv in Hv as [_ Hv]; inversion Hd; subst; clear Hd;
    cbn [FlatWidth Flatten height] in *; try (unfold cut_flatten in *; cbn [flatten_with] in *; fold cut_flatten in *).
  - by destruct p.
  - pose proof (flattens_list (rf_Type <$> fs) ts fuel IH ltac:(by apply Forall2_fmap_l) Hv ltac:(lia) Hle) as Hc.
    unfold flattenRecord. rewrite (width_sum_ok _ _ _ _ _ 0 Hc) by lia. cbn [obind Z.add].
    by rewrite (flatten_refs_ok _ _ _ _ _ [] Hc).
  - pose proof (flattens_list es ts fuel IH ltac:(done) Hv ltac:(lia) Hle) as Hc.
    unfold flattenTuple. rewrite (width_sum_ok _ _ _ _ _ 0 Hc) by lia. cbn [obind Z.add].
    by rewrite (flatten_refs_ok _ _ _ _ _ [] Hc).
  - destruct Hv as [Hn Hv].
    match goal with H : Forall2 _ cs0 cs |- _ => rename H into Hcs end.
    assert (zlen cs = zlen cs0) as En by (unfold zlen; f_equal; symmetry; by eapply Forall2_length).
    rewrite En in *. apply flatten_variant_ok; [done| |done].
    apply (flattens_cases cs0 cs fuel IH Hcs Hv); [lia|]. by apply cut_cases_le.
  - done.
  - done.
  - destruct Hv as [Hn Hv]. apply flatten_fixed_ok; [|lia]. apply flattens_ref; [done|by eexists|done|lia|].
    pose proof (cut_fixed_le t n ltac:(lia)) as Hc. unfold cut_flatten at 2 in Hc. cbn [flatten_with] in Hc.
    fold cut_flatten in Hc. lia.
  - unfold flattenFlags, flattenFlagsNumLabels.
    by rewrite (proj2 (Z.leb_gt _ 0)), (proj2 (Z.ltb_ge 32 _)) by lia.
  - unfold flattenEnum. by rewrite (proj2 (Z.leb_gt _ 0)) by lia.
  - apply flatten_option_ok; [|done]. apply flattens_ref; [done|by eexists|done|lia|].
    apply (cut_cases_le _ _ Hle). by left.
  - cbn [forallb] in Hv. rewrite !andb_true_iff in Hv. destruct Hv as (Hv1 & Hv2 & _).
    pose proof (cut_cases_le _ _ Hle) as Hles. rewrite omap_id_fmap in *.
    apply flatten_result_ok; [| |done]; apply flattens_arm; try done; try lia; intros t ->;
      apply Hles; cbn; [by left|]. destruct o; [right|]; by left.
  - done.
  - done.
  - done.
  - done.
Qed.
End flattens.

(** * Types wider than the bound *)

(** The width of a list of core types: refused past [maxFlatWidth]. *)
Definition width_of (l : list core) : res Z :=
  if maxFlatWidth <? zlen l then Err EFlatWidth else Ok (zlen l).

(** A record or a tuple is flattened only if its width is not refused; the
    other types do not look at their width. *)
Fixpoint too_wide (t : ty) : bool :=
  match t with
  | TRecord ts | TTuple ts => maxFlatWidth <? zlen (concat (cut_flatten <$> ts))
  | TVariant cs => existsb (from_option too_wide false) cs
  | TOption t | TFixed t _ => too_wide t
  | TResult o e => from_option too_wide false o || from_option too_wide false e
  | _ => false
  end.

Definition flat_of (l : list core) (wide : bool) : res (list core) :=
  if wide then Err EFlatWidth else Ok l.

Lemma width_of_le l : zlen l ≤ maxFlatWidth → width_of l = Ok (zlen l).
Proof. intros H. unfold width_of. by rewrite (proj2 (Z.ltb_ge _ _)). Qed.
Lemma width_of_gt l : maxFlatWidth < zlen l → width_of l = Err EFlatWidth.
Proof. intros H. unfold width_of. by rewrite (proj2 (Z.ltb_lt _ _)). Qed.

Lemma too_wide_gt t : valid t = true → too_wide t = true → maxFlatWidth < zlen (cut_flatten t).
Proof.
  induction t as [p|ts IH|ts IH|cs IH|t IH|t n IH|n|n|t IH|o e IHo IHe|] using ty_ind';
    intros [_ Hv]%valid_inv; cbn [too_wide]; try done; intros Hw.
  - by apply Z.ltb_lt in Hw.
  - by apply Z.ltb_lt in Hw.
  - destruct Hv as [_ Hv]. apply existsb_exists in Hw as (o & Hin & Hw). destruct o as [t|]; [|done].
    rewrite forallb_forall in Hv. specialize (Hv _ Hin). apply list_elem_of_In in Hin.
    rewrite list.Forall_forall in IH. specialize (IH _ Hin Hv Hw).
    unfold cut_flatten at 1. cbn [flatten_with]. rewrite zlen_flatten_cases.
    assert (cut_flatten t ∈ omap (fmap cut_flatten) cs) as Hl by (apply list_elem_of_omap; by exists (Some t)).
    pose proof (max_len_elem _ _ Hl). unfold cut_flatten in *. lia.
  - destruct Hv as [Hn Hv]. pose proof (cut_fixed_le t n ltac:(lia)). specialize (IH Hv Hw). lia.
  - specialize (IH Hv Hw). unfold cut_flatten at 1. cbn [flatten_with]. rewrite zlen_flatten_cases.
    unfold max_len. cbn. unfold zlen, cut_flatten in *. lia.
  - cbn [forallb] in Hv. rewrite !andb_true_iff in Hv. destruct Hv as (Hvo & Hve & _).
    apply orb_true_iff in Hw. unfold cut_flatten at 1. cbn [flatten_with]. rewrite zlen_flatten_cases.
    assert (∃ t, (o = Some t ∨ e = Some t) ∧ maxFlatWidth < zlen (cut_flatten t)) as (t & Ht & Hlt).
    { destruct Hw as [Hw|Hw]; [destruct o as [t|]|destruct e as [t|]]; try done; exists t; auto. }
    assert (cut_flatten t ∈ omap (fmap cut_flatten) [o; e]) as Hl.
    { apply list_elem_of_omap. exists (Some t). split; [|done]. destruct Ht as [->| ->]; [by left|right; by left]. }
    pose proof (max_len_elem _ _ Hl). unfold cut_flatten in *. lia.
Qed.

Section wide.
Context (resolve : Resolver) (W : TypeDesc → res Z) (F : TypeDesc → res (list core)).

(** The reference resolves to a type with the core types [x.1], refused by
    [Flatten] if [x.2]. *)
Definition sized (r : TypeRef) (x : list core * bool) : Prop :=
  ∃ d, resolveType (Some r) resolve = Ok d ∧ W d = width_of x.1 ∧ F d = flat_of x.1 x.2 ∧
    (x.2 = true → maxFlatWidth < zlen x.1).

Lemma sized_flats rs xs :
  Forall2 sized rs xs → (∀ l, l ∈ xs.*1 → zlen l ≤ maxFlatWidth) → Forall2 (flats resolve W F) rs xs.*1.
Proof.
  induction 1 as [|r [l b] rs xs (d & E1 & E2 & E3 & Hb) _ IH]; intros Hle; cbn in *; constructor.
  - pose proof (Hle l ltac:(by left)). exists d. rewrite width_of_le in E2 by done.
    destruct b; [specialize (Hb eq_refl); lia|done].
  - apply IH. intros l' Hl'. apply Hle. by right.
Qed.

Lemma width_sum_sized rs xs total :
  Forall2 sized rs xs → 0 ≤ total ≤ maxFlatWidth →
  width_sum resolve W rs total =
    if maxFlatWidth <? total + zlen (concat xs.*1) then Err EFlatWidth else Ok (total + zlen (concat xs.*1)).
Proof.
  intros H. revert total. induction H as [|r [l b] rs xs (d & E1 & E2 & _) _ IH]; intros total Ht; cbn [width_sum].
  - cbn. change (zlen (@nil core)) with 0. rewrite Z.add_0_r. by rewrite (proj2 (Z.ltb_ge _ _)) by lia.
  - cbn. rewrite zlen_app. pose proof (zlen_nonneg (concat xs.*1)). pose proof (zlen_nonneg l).
    unfold flatWidthRef. rewrite E1. cbn [obind]. rewrite E2. cbn [fst]. unfold width_of.
    destruct (Z.ltb_spec maxFlatWidth (zlen l)); cbn [obind].
    { by rewrite (proj2 (Z.ltb_lt _ _)) by lia. }
    unfold addFlatWidth. destruct (Z.ltb_spec (maxFlatWidth - zlen l) total); cbn [obind].
    { by rewrite (proj2 (Z.ltb_lt _ _)) by lia. }
    rewrite IH by lia. by rewrite Z.add_assoc.
Qed.

(** Records and tuples. *)
Lemma flatten_fields_sized rs xs :
  Forall2 sized rs xs →
  let l := concat xs.*1 in
  width_sum resolve W rs 0 = width_of l ∧
  (let* _ := width_sum resolve W rs 0 in flatten_refs resolve F rs []) = flat_of l (maxFlatWidth <? zlen l).
Proof.
  intros H l. assert (width_sum resolve W rs 0 = width_of l) as ->.
  { rewrite (width_sum_sized rs xs) by (done || (unfold maxFlatWidth; lia)). by rewrite Z.add_0_l. }
  split; [done|]. unfold width_of, flat_of. destruct (Z.ltb_spec maxFlatWidth (zlen l)) as [Hl|Hl]; [done|]. cbn [obind].
  rewrite (flatten_refs_ok resolve W F rs xs.*1); [done|]. apply sized_flats; [done|].
  intros l' Hl'. pose proof (zlen_concat_elem l' _ Hl'). subst l. lia.
Qed.

Lemma width_max_sized rs xs fl :
  Forall2 sized rs xs → Z.of_nat (max_len fl) ≤ maxFlatWidth →
  width_max resolve W rs (Z.of_nat (max_len fl)) =
    let n := Z.of_nat (max_len (fl ++ xs.*1)) in if maxFlatWidth <? n then Err EFlatWidth else Ok n.
Proof.
  intros H. revert fl. induction H as [|r [l b] rs xs (d & E1 & E2 & _) _ IH]; intros fl Hfl; cbn [width_max].
  - cbn. rewrite app_nil_r. by rewrite (proj2 (Z.ltb_ge _ _)).
  - unfold flatWidthRef. rewrite E1. cbn [obind]. rewrite E2. cbn [fst]. unfold width_of.
    assert (zlen l ≤ Z.of_nat (max_len (fl ++ l :: xs.*1))) as Hin.
    { apply max_len_elem, elem_of_app. right. by left. }
    destruct (Z.ltb_spec maxFlatWidth (zlen l)) as [Hl|Hl]; cbn [obind].
    { cbn. by rewrite (proj2 (Z.ltb_lt _ _)) by lia. }
    rewrite if_max. pose proof (max_len_snoc fl l) as E.
    replace (Z.of_nat (max_len fl) `max` zlen l) with (Z.of_nat (max_len (fl ++ [l]))) by (unfold zlen; lia).
    rewrite IH by (unfold zlen in *; lia). by rewrite <- app_assoc.
Qed.

Lemma case_flats_sized rs xs fl :
  Forall2 sized rs xs →
  case_flats resolve F rs fl (max_len fl) =
    if existsb id xs.*2 then Err EFlatWidth else Ok (fl ++ xs.*1, max_len (fl ++ xs.*1)).
Proof.
  intros H. revert fl. induction H as [|r [l b] rs xs (d & E1 & _ & E3 & _) _ IH]; intros fl; cbn [case_flats].
  - cbn. by rewrite app_nil_r.
  - rewrite E1. cbn [obind]. rewrite E3. unfold flat_of. destruct b; [done|]. cbn [obind fst snd fmap list_fmap existsb id orb]. pose proof (max_len_snoc fl l) as E.
    replace (if (max_len fl <? List.length l)%nat then List.length l else max_len fl)
      with (max_len (fl ++ [l])) by (destruct (Nat.ltb_spec (max_len fl) (List.length l)); lia).
    rewrite IH. by rewrite <- app_assoc.
Qed.

(** A discriminant and the widest payload. *)
Lemma add_disc ls :
  Z.of_nat (max_len ls) ≤ maxFlatWidth → addFlatWidth 1 (Z.of_nat (max_len ls)) = width_of (flatten_cases ls).
Proof.
  intros H. unfold addFlatWidth, width_of. rewrite zlen_flatten_cases.
  destruct (Z.ltb_spec maxFlatWidth (1 + Z.of_nat (max_len ls))).
  - by rewrite (proj2 (Z.ltb_lt _ _)) by lia.
  - by rewrite (proj2 (Z.ltb_ge _ _)) by lia.
Qed.

Lemma flatten_variant_sized cases xs :
  0 < zlen cases < 2 ^ 32 → Forall2 sized (case_types cases) xs →
  flatWidthVariant resolve W cases = width_of (flatten_cases xs.*1) ∧
  flattenVariant resolve F cases = flat_of (flatten_cases xs.*1) (existsb id xs.*2).
Proof.
  intros Hn H. pose proof (width_max_sized _ _ [] H ltac:(unfold maxFlatWidth; cbn; lia)) as E1. pose proof (case_flats_sized _ _ [] H) as E2.
  cbn [app] in E1, E2. change (max_len []) with 0%nat in *. change (Z.of_nat 0) with 0 in E1.
  assert (flattenPrimitive (DiscriminantType (zlen cases)) = Ok [I32]) as Ed.
  { destruct (disc_ok _ Hn) as (_ & Ed & _). destruct (disc_flat (zlen cases)) as [?|[p Hp]]; [done|].
    by destruct (DiscriminantType (zlen cases)). }
  unfold flatWidthVariant, flattenVariant, flatWidthPrimitive. rewrite Ed, E1, E2. cbn [obind].
  split.
  - cbn beta zeta. destruct (Z.ltb_spec maxFlatWidth (Z.of_nat (max_len xs.*1))); cbn [obind].
    + rewrite width_of_gt; [done|]. rewrite zlen_flatten_cases. lia.
    + change (zlen [I32]) with 1. by apply add_disc.
  - unfold flat_of. destruct (existsb id xs.*2); cbn [obind]; [done|]. by rewrite join_slots_merge.
Qed.

Lemma flatten_option_sized r x :
  sized r x →
  flatWidthOption resolve W r = width_of (flatten_cases [x.1]) ∧
  flattenOption resolve F r = flat_of (flatten_cases [x.1]) x.2.
Proof.
  destruct x as [l b]. intros (d & E1 & E2 & E3 & _). unfold flatWidthOption, flattenOption, flatWidthRef.
  rewrite E1. cbn [obind fst snd] in *. rewrite E2, E3.
  assert (flatten_cases [l] = I32 :: l) as E by (unfold flatten_cases; by destruct l).
  assert (Z.of_nat (max_len [l]) = zlen l) as El by (unfold max_len, zlen; cbn; lia). split.
  - unfold width_of at 1. rewrite <- El. destruct (Z.ltb_spec maxFlatWidth (Z.of_nat (max_len [l]))); cbn [obind].
    + rewrite width_of_gt; [done|]. rewrite zlen_flatten_cases. lia.
    + by apply add_disc.
  - rewrite E. by destruct b.
Qed.

Lemma arm_sized r o :
  option_Forall2 sized r o →
  let l := from_option fst [] o in
  arm_width resolve W r = width_of l ∧ arm_flat resolve F r = flat_of l (from_option snd false o).
Proof.
  intros [x [l b] (d & E1 & E2 & E3 & _)|]; cbn; [|done]. unfold flatWidthRef. rewrite E1. cbn. by rewrite E2, E3.
Qed.

Lemma flatten_result_sized ro re o e :
  option_Forall2 sized ro o → option_Forall2 sized re e →
  let l := flatten_cases (omap (fmap fst) [o; e]) in
  flatWidthResult resolve W ro re = width_of l ∧
  flattenResult resolve F ro re = flat_of l (from_option snd false o || from_option snd false e).
Proof.
  intros Ho He l. destruct (arm_sized ro o Ho) as [E1 E2], (arm_sized re e He) as [E3 E4].
  unfold flatWidthResult, flattenResult. rewrite E1, E2, E3, E4. set (lo := from_option fst [] o). set (le := from_option fst [] e).
  assert (l = flatten_cases [lo; le]) as ->.
  { unfold l, lo, le, flatten_cases. f_equal. destruct o as [[[|x a] b]|], e as [[[|y a'] b']|]; done. }
  assert (Z.of_nat (max_len [lo; le]) = Z.max (zlen lo) (zlen le)) as El by (unfold max_len, zlen; cbn; lia). split.
  - unfold width_of at 1 2. destruct (Z.ltb_spec maxFlatWidth (zlen lo)); cbn [obind].
    { rewrite width_of_gt; [done|]. rewrite zlen_flatten_cases. lia. }
    destruct (Z.ltb_spec maxFlatWidth (zlen le)); cbn [obind].
    { rewrite width_of_gt; [done|]. rewrite zlen_flatten_cases. lia. }
    rewrite if_max, <- El. apply add_disc. lia.
  - unfold flat_of. destruct (from_option snd false o); cbn; [done|]. destruct (from_option snd false e); cbn; [done|].
    f_equal. unfold flatten_cases. f_equal. rewrite <- join_slots_merge. f_equal. unfold max_len. cbn. lia.
Qed.
End wide.

(** The code flattens the tree [t] to its cut flattening, or refuses it. *)
Definition flat_outcome (resolve : Resolver) (t : ty) : Prop :=
  ∀ d fuel, denotes resolve d t → valid t = true → (height t ≤ fuel)%nat →
    FlatWidth fuel resolve d = width_of (cut_flatten t) ∧
    Flatten fuel resolve d = flat_of (cut_flatten t) (too_wide t).

Section outcomes.
Context (resolve : Resolver).

Abbreviation sized_at fuel := (sized resolve (FlatWidth fuel resolve) (Flatten fuel resolve)).
Definition shape (t : ty) : list core * bool := (cut_flatten t, too_wide t).

Lemma outcome_ref t r fuel :
  flat_outcome resolve t → ref_denotes resolve r t → valid t = true → (height t ≤ fuel)%nat → sized_at fuel r (shape t).
Proof.
  intros Ho (d & E & Hd) Hv Hf. destruct (Ho d fuel Hd Hv Hf) as [E1 E2]. exists d. split_and!; try done.
  by apply too_wide_gt.
Qed.

Lemma outcome_list rs ts fuel :
  Forall (flat_outcome resolve) ts → Forall2 (ref_denotes resolve) rs ts → forallb valid ts = true →
  (maxl (height <$> ts) ≤ fuel)%nat → Forall2 (sized_at fuel) rs (shape <$> ts).
Proof.
  intros Hw H. revert Hw. induction H as [|r t rs ts Hr _ IH]; intros Hw; [constructor|].
  inversion_clear Hw. cbn. intros [Hv Hvs]%andb_true_iff Hf. unfold maxl in *. constructor.
  - apply outcome_ref; [done..|lia].
  - apply IH; [done..|lia].
Qed.

Lemma outcome_cases cs ts fuel :
  Forall (from_option (flat_outcome resolve) True) ts →
  Forall2 (λ c, option_Forall2 (ref_denotes resolve) (vc_Type c)) cs ts →
  forallb (from_option valid true) ts = true →
  (maxl (from_option height 0%nat <$> ts) ≤ fuel)%nat →
  Forall2 (sized_at fuel) (case_types cs) (omap (fmap shape) ts).
Proof.
  intros Hw H. revert Hw. induction H as [|c o cs ts Hc _ IH]; intros Hw; [constructor|].
  inversion_clear Hw as [|?? Hw1 Hw2]. cbn. intros [Hv Hvs]%andb_true_iff Hf.
  unfold case_types, maxl in *. cbn. destruct Hc as [r t Hr|]; cbn in *.
  - constructor; [apply outcome_ref; [done..|lia]|]. apply IH; [done..|lia].
  - by apply IH.
Qed.

Lemma outcome_arm r o fuel :
  from_option (flat_outcome resolve) True o → option_Forall2 (ref_denotes resolve) r o →
  from_option valid true o = true → (from_option height 0 o ≤ fuel)%nat →
  option_Forall2 (sized_at fuel) r (shape <$> o).
Proof. intros Hw H. revert Hw. destruct H as [x t Hr|]; cbn; intros; constructor. apply outcome_ref; auto. Qed.

Lemma shape_fields ts : (shape <$> ts).*1 = cut_flatten <$> ts.
Proof. rewrite <- list_fmap_compose. by apply list_fmap_ext. Qed.

Lemma shape_cases cs :
  (omap (fmap shape) cs).*1 = omap (fmap cut_flatten) cs ∧
  existsb id (omap (fmap shape) cs).*2 = existsb (from_option too_wide false) cs.
Proof. induction cs as [|[t|] cs [IH1 IH2]]; cbn; [done| |done]. by rewrite IH1, IH2. Qed.

Lemma flatten_fixed_outcome t r n fuel :
  sized_at fuel r (shape t) → 0 < n < 2 ^ 32 →
  flatWidthFixedList resolve (FlatWidth fuel resolve) r n = width_of (cut_flatten (TFixed t n)) ∧
  flattenFixedList resolve (Flatten fuel resolve) r n = flat_of (cut_flatten (TFixed t n)) (too_wide t).
Proof.
  intros (d & E1 & E2 & E3 & _) Hn. unfold flatWidthFixedList, flattenFixedList, flatWidthRef.
  rewrite E1. cbn [obind]. rewrite E2, E3. cbn [fst snd shape].
  unfold cut_flatten at 2 4. cbn [flatten_with]. fold (cut_flatten t).
  pose proof (zlen_nonneg (cut_flatten t)) as H0. set (l := cut_flatten t) in *.
  pose proof (fixedListCopies_nonneg (zlen l) n H0 ltac:(lia)) as Hk.
  assert (zlen (concat (replicate (Z.to_nat (fixedListCopies (zlen l) n)) l)) = zlen l * fixedListCopies (zlen l) n) as El.
  { rewrite zlen_copies, Z2Nat.id by done. lia. }
  split; [|unfold flat_of; by destruct (too_wide t)].
  unfold width_of. rewrite El. destruct (Z.ltb_spec maxFlatWidth (zlen l)) as [Hl|Hl]; cbn [obind].
  - unfold maxFlatWidth in *. destruct (fixedListCopies_pos (zlen l) n H0 ltac:(lia)) as [E|E]; [lia|].
    by rewrite (proj2 (Z.ltb_lt _ _)) by nia.
  - rewrite (proj2 (Z.ltb_ge _ _)); [done|]. unfold fixedListCopies, maxFlatWidth, MaxFlatParams in *.
    destruct (Z.eqb_spec (zlen l) 0); [lia|]. rewrite wrap_small by nia.
    destruct (Z.leb_spec (zlen l * n) 16); [lia|]. clear El Hk. rewrite Z.mul_add_distr_l.
    pose proof (Z.mul_div_le 16 (zlen l) ltac:(lia)).
    destruct (Z.ltb_spec 16 (zlen l)); [rewrite (Z.div_small 16) by lia; lia|lia].
Qed.

Lemma flatten_outcome t : flat_outcome resolve t.
Proof.
  induction t as [p|ts IH|ts IH|cs IH|t IH|t n IH|n|n|t IH|o e IHo IHe|] using ty_ind';
    intros d [|fuel] Hd Hv Hf; try (cbn in Hf; lia);
    apply valid_inv in Hv as [_ Hv]; inversion Hd; subst; clear Hd; cbn [FlatWidth Flatten height too_wide] in *.
  - by destruct p.
  - pose proof (outcome_list (rf_Type <$> fs) ts fuel IH ltac:(by apply Forall2_fmap_l) Hv ltac:(lia)) as Hc.
    apply flatten_fields_sized in Hc. by rewrite shape_fields in Hc.
  - pose proof (outcome_list es ts fuel IH ltac:(done) Hv ltac:(lia)) as Hc.
    apply flatten_fields_sized in Hc. by rewrite shape_fields in Hc.
  - destruct Hv as [Hn Hv]. match goal with H : Forall2 _ cs0 cs |- _ => rename H into Hcs end.
    assert (zlen cs = zlen cs0) as En by (unfold zlen; f_equal; symmetry; by eapply Forall2_length).
    rewrite En in *. change (cut_flatten (TVariant cs)) with (flatten_cases (omap (fmap cut_flatten) cs)).
    destruct (shape_cases cs) as [<- <-]. apply flatten_variant_sized; [done|].
    apply (outcome_cases cs0 cs fuel IH Hcs Hv). lia.
  - done.
  - done.
  - destruct Hv as [Hn Hv]. apply flatten_fixed_outcome; [|lia]. apply outcome_ref; [done|by eexists|done|lia].
  - unfold flattenFlags, flattenFlagsNumLabels.
    by rewrite (proj2 (Z.leb_gt _ 0)), (proj2 (Z.ltb_ge 32 _)) by lia.
  - unfold flattenEnum. by rewrite (proj2 (Z.leb_gt _ 0)) by lia.
  - apply (flatten_option_sized _ _ _ _ (shape t)), outcome_ref; [done|by eexists|done|lia].
  - cbn [forallb] in Hv. rewrite !andb_true_iff in Hv. destruct Hv as (Hv1 & Hv2 & _).
    pose proof (outcome_arm ro o fuel IHo ltac:(done) Hv1 ltac:(lia)) as Ho.
    pose proof (outcome_arm re e fuel IHe ltac:(done) Hv2 ltac:(lia)) as He.
    pose proof (flatten_result_sized _ _ _ ro re _ _ Ho He) as H'. cbn zeta in H'. by destruct o, e.
  - done.
  - done.
  - done.
  - done.
Qed.
End outcomes.

(** * The cut is not observable *)

(** [c] is [l] when [l] fits the parameter limit, and past the limit when [l]
    is. *)
Definition same_within (c l : list core) : Prop :=
  (zlen l ≤ MaxFlatParams → c = l) ∧ (MaxFlatParams < zlen l → MaxFlatParams < zlen c).

Lemma same_within_refl l : same_within l l.
Proof. done. Qed.

Lemma same_within_concat cs ls : Forall2 same_within cs ls → same_within (concat cs) (concat ls).
Proof.
  induction 1 as [|c l cs ls [H1 H2] _ [IH1 IH2]]; [done|]. cbn.
  pose proof (zlen_nonneg l). pose proof (zlen_nonneg (concat ls)). pose proof (zlen_nonneg c).
  pose proof (zlen_nonneg (concat cs)).
  split; rewrite !zlen_app; intros Hl.
  - rewrite H1, IH1 by lia. done.
  - destruct (Z.le_gt_cases (zlen l) MaxFlatParams) as [Hle|Hgt]; [|specialize (H2 Hgt); lia].
    destruct (Z.le_gt_cases (zlen (concat ls)) MaxFlatParams) as [Hle'|Hgt']; [|specialize (IH2 Hgt'); lia].
    rewrite H1, IH1 by lia. lia.
Qed.

Lemma same_within_max cs ls :
  Forall2 same_within cs ls →
  (Z.of_nat (max_len ls) ≤ MaxFlatParams → cs = ls) ∧
  (MaxFlatParams < Z.of_nat (max_len ls) → MaxFlatParams < Z.of_nat (max_len cs)).
Proof.
  unfold max_len, maxl. induction 1 as [|c l cs ls [H1 H2] _ [IH1 IH2]]; cbn; [done|]. unfold zlen in *.
  split; intros Hl.
  - rewrite H1, IH1 by lia. done.
  - destruct (Z.le_gt_cases (Z.of_nat (List.length l)) MaxFlatParams) as [Hle|Hgt]; [|specialize (H2 Hgt); lia].
    specialize (IH2 ltac:(lia)). lia.
Qed.

Lemma same_within_cases cs ls : Forall2 same_within cs ls → same_within (flatten_cases cs) (flatten_cases ls).
Proof.
  intros H. destruct (same_within_max cs ls H) as [H1 H2]. split; rewrite !zlen_flatten_cases; intros Hl.
  - by rewrite H1 by lia.
  - destruct (Z.le_gt_cases (Z.of_nat (max_len ls)) MaxFlatParams) as [Hle|Hgt]; [rewrite H1 by lia; lia|].
    specialize (H2 Hgt). lia.
Qed.

Lemma same_within_fixed c l n :
  same_within c l → 0 < n < 2 ^ 32 →
  same_within (concat (replicate (Z.to_nat (fixedListCopies (zlen c) n)) c))
    (concat (replicate (Z.to_nat n) l)).
Proof.
  intros [H1 H2] Hn. pose proof (zlen_nonneg c) as Hc0. pose proof (zlen_nonneg l) as Hl0.
  pose proof (fixedListCopies_nonneg (zlen c) n Hc0 ltac:(lia)) as Hk.
  split; rewrite !zlen_copies, !Z2Nat.id by lia; unfold MaxFlatParams in *; intros Hl.
  - rewrite H1 in * by nia. unfold fixedListCopies, MaxFlatParams.
    destruct (Z.eqb_spec (zlen l) 0) as [E|E].
    + destruct l; [|unfold zlen in E; cbn in E; lia].
      cbn. by induction (Z.to_nat n).
    + rewrite wrap_small by nia. by rewrite (proj2 (Z.leb_le _ 16)) by lia.
  - destruct (Z.le_gt_cases (zlen l) 16) as [Hle|Hgt].
    + rewrite H1 in * by lia. unfold fixedListCopies, MaxFlatParams.
      rewrite (proj2 (Z.eqb_neq _ 0)) by nia. rewrite wrap_small by nia.
      rewrite (proj2 (Z.leb_gt _ 16)) by lia.
      pose proof (Z.div_mod 16 (zlen l) ltac:(nia)). pose proof (Z.mod_pos_bound 16 (zlen l) ltac:(nia)). nia.
    + specialize (H2 Hgt). destruct (fixedListCopies_pos (zlen c) n) as [E|E]; [lia|lia|lia|nia].
Qed.

Definition cut_same (t : ty) : Prop := valid t = true → same_within (cut_flatten t) (spec_flatten t).

Lemma cut_same_list ts :
  Forall cut_same ts → forallb valid ts = true → Forall2 same_within (cut_flatten <$> ts) (spec_flatten <$> ts).
Proof.
  induction 1 as [|t ts Ht _ IH]; cbn; [constructor|]. intros [Hv Hvs]%andb_true_iff.
  constructor; [by apply Ht|by apply IH].
Qed.

Lemma cut_same_cases cs :
  Forall (from_option cut_same True) cs → forallb (from_option valid true) cs = true →
  Forall2 same_within (omap (fmap cut_flatten) cs) (omap (fmap spec_flatten) cs).
Proof.
  induction 1 as [|[t|] cs Ht _ IH]; cbn; [constructor| |by auto].
  intros [Hv Hvs]%andb_true_iff. constructor; [by apply Ht|by apply IH].
Qed.

Lemma cut_same_all t : cut_same t.
Proof.
  induction t as [p|ts IH|ts IH|cs IH|t IH|t n IH|n|n|t IH|o e IHo IHe|] using ty_ind';
    intros [_ Hv]%valid_inv; try apply same_within_refl;
    unfold cut_flatten, spec_flatten in *; cbn [flatten_with] in *; fold cut_flatten spec_flatten in *.
  - by apply same_within_concat, cut_same_list.
  - by apply same_within_concat, cut_same_list.
  - apply same_within_cases, cut_same_cases; [done|tauto].
  - destruct Hv as [Hn Hv]. apply same_within_fixed; [by apply IH|done].
  - apply same_within_cases. constructor; [by apply IH|constructor].
  - apply same_within_cases, (cut_same_cases [o; e]); [by repeat constructor|done].
Qed.

(** * Theorems *)

(** C7. [Flatten] and [FlatWidth] on every valid type, with enough fuel for
    its height: the flattening [cut_flatten] is the Canonical ABI's whenever
    either fits the 16 flat parameters, and is past that limit exactly when the
    Canonical ABI's is; [FlatWidth] is its length, refused past [maxFlatWidth];
    and [Flatten] returns it, except that of a type with a record or a tuple
    wider than [maxFlatWidth] ([too_wide]), which it refuses. *)
Theorem Flatten_correct resolve d t fuel :
  denotes resolve d t → valid t = true → (height t ≤ fuel)%nat →
  (zlen (spec_flatten t) ≤ MaxFlatParams → cut_flatten t = spec_flatten t) ∧
  (MaxFlatParams < zlen (spec_flatten t) ↔ MaxFlatParams < zlen (cut_flatten t)) ∧
  FlatWidth fuel resolve d =
    (if maxFlatWidth <? zlen (cut_flatten t) then Err EFlatWidth else Ok (zlen (cut_flatten t))) ∧
  Flatten fuel resolve d = (if too_wide t then Err EFlatWidth else Ok (cut_flatten t)) ∧
  (too_wide t = true → maxFlatWidth < zlen (cut_flatten t)).
Proof.
  intros Hd Hv Hf. destruct (flatten_outcome resolve t d fuel Hd Hv Hf) as [Ew Ef].
  destruct (cut_same_all t Hv) as [H1 H2]. split_and!; [done| |exact Ew|exact Ef|by apply too_wide_gt].
  split; [done|]. intros Hc. destruct (Z.le_gt_cases (zlen (spec_flatten t)) MaxFlatParams) as [Hle|]; [|lia].
  rewrite (H1 Hle) in Hc. lia.
Qed.

Lemma Flatten_correct_witness :
  Flatten 5 (Some sample_types) sample_desc = Ok (spec_flatten sample_ty) ∧
  FlatWidth 5 (Some sample_types) sample_desc = Ok 10.
Proof.
  destruct (Flatten_correct (Some sample_types) sample_desc sample_ty 5 sample_denotes eq_refl)
    as (H1 & _ & H3 & H4 & _); [cbn; lia|]. split.
  - rewrite H4, <- H1; [reflexivity|vm_compute; discriminate].
  - rewrite H3. reflexivity.
Defined.

(** [FlatWidth] is the length of [Flatten], whatever the resolver answers:
    where it returns a width, [Flatten] returns a list of that length; where
    [Flatten] returns a list, [FlatWidth] returns its length or refuses the
    type for exceeding [maxFlatWidth]. *)
Theorem FlatWidth_is_length resolve fuel d :
  resolver_in_range resolve → length_in_range d →
  (∀ w, FlatWidth fuel resolve d = Ok w → ∃ l, Flatten fuel resolve d = Ok l ∧ zlen l = w) ∧
  (∀ l, Flatten fuel resolve d = Ok l →
     FlatWidth fuel resolve d = Ok (zlen l) ∨ FlatWidth fuel resolve d = Err EFlatWidth).
Proof.
  intros Hr Hl. pose proof (FlatWidth_agree resolve fuel d Hr Hl) as H. split.
  - intros w Hw. by rewrite Hw in H.
  - intros l Hf. rewrite Hf in H. destruct (FlatWidth fuel resolve d) as [w|e| |]; cbn in H.
    + destruct H as (l' & [= ->] & <-). by left.
    + destruct e; try (by destruct (H l)). by right.
    + by destruct (H l).
    + by destruct (H l).
Qed.

Lemma sample_types_in_range : resolver_in_range (Some sample_types).
Proof.
  intros f i t [= <-]. unfold sample_types, length_in_range. repeat case_match; intros; simplify_eq; done || lia.
Qed.

Lemma FlatWidth_is_length_witness :
  FlatWidth 5 (Some sample_types) sample_desc = Ok 10 ∧
  ∃ l, Flatten 5 (Some sample_types) sample_desc = Ok l ∧ zlen l = 10.
Proof.
  split; [reflexivity|].
  exact (proj1 (FlatWidth_is_length (Some sample_types) 5 sample_desc sample_types_in_range I) 10 eq_refl).
Defined.

(** The types of a function's results: the unnamed one, or the named ones. *)
Definition result_refs (results : FuncResults) : list TypeRef :=
  match Unnamed results with Some r => [r] | None => fp_Type <$> Named results end.

(** The references denote valid trees that fuel and width bound allow. *)
Definition signature_ok (resolve : Resolver) (fuel : nat) (rs : list TypeRef) (ts : list ty) : Prop :=
  Forall2 (ref_denotes resolve) rs ts ∧ forallb valid ts = true ∧
  (maxl (height <$> ts) ≤ fuel)%nat ∧ zlen (concat (cut_flatten <$> ts)) ≤ maxFlatWidth.

Lemma signature_flat resolve fuel rs ts :
  signature_ok resolve fuel rs ts →
  flatten_refs resolve (Flatten fuel resolve) rs [] = Ok (concat (cut_flatten <$> ts)) ∧
  same_within (concat (cut_flatten <$> ts)) (concat (spec_flatten <$> ts)).
Proof.
  intros (Hd & Hv & Hf & Hle). split.
  - apply (flatten_refs_ok _ (FlatWidth fuel resolve) _ rs _ []).
    apply flattens_list; try done. apply Forall_forall. intros t _. apply flatten_computed.
  - apply same_within_concat, cut_same_list; try done. apply Forall_forall. intros t _. apply cut_same_all.
Qed.

(** [FlattenFunc] computes the Canonical ABI's [flatten_functype]: the flat
    parameters and results with both spill rules applied, in each context, and
    the error in an unknown context.  In particular the shortened flattening of
    wide fixed-length lists never shows in a signature. *)
Theorem FlattenFunc_correct resolve fuel params results ctx pts rts :
  signature_ok resolve fuel (fp_Type <$> params) pts →
  signature_ok resolve fuel (result_refs results) rts →
  FlattenFunc fuel params results resolve ctx = spec_flatten_func pts rts ctx.
Proof.
  intros Hp Hr. destruct (signature_flat _ _ _ _ Hp) as [Ep [Hp1 Hp2]].
  destruct (signature_flat _ _ _ _ Hr) as [Er [Hr1 Hr2]].
  unfold FlattenFunc, spec_flatten_func. rewrite Ep. cbn [obind].
  replace (match Unnamed results with
           | Some r => flatten_refs resolve (Flatten fuel resolve) [r] []
           | None => flatten_refs resolve (Flatten fuel resolve) (fp_Type <$> Named results) []
           end) with (Ok (E := abi_error) (concat (cut_flatten <$> rts)))
    by (rewrite <- Er; unfold result_refs; by destruct (Unnamed results)).
  cbn [obind].
  assert ((if MaxFlatParams <? zlen (concat (cut_flatten <$> pts)) then [I32] else concat (cut_flatten <$> pts)) =
          (if MaxFlatParams <? zlen (concat (spec_flatten <$> pts)) then [I32] else concat (spec_flatten <$> pts))) as ->.
  { destruct (Z.ltb_spec MaxFlatParams (zlen (concat (spec_flatten <$> pts)))) as [H|H].
    - by rewrite (proj2 (Z.ltb_lt _ _)) by auto.
    - rewrite Hp1 by done. by rewrite (proj2 (Z.ltb_ge _ _)) by done. }
  destruct (Z.le_gt_cases (zlen (concat (spec_flatten <$> rts))) MaxFlatParams) as [H|H].
  - by rewrite Hr1 by done.
  - unfold MaxFlatParams, MaxFlatResults in *. specialize (Hr2 H).
    by rewrite !(proj2 (Z.ltb_lt 1 _)) by lia.
Qed.

(** A function of a string and a 20-element list returning a pair. *)
Definition sample_sig_types (i : Z) : option TypeDesc :=
  match i with
  | 0 => Some (FixedListDesc (prim_ref Pu8) 20)
  | 1 => Some (TupleDesc [prim_ref Pu32; prim_ref Pf64])
  | _ => None
  end.

Lemma FlattenFunc_correct_witness :
  FlattenFunc 3 [mkParam "s" (prim_ref Pstring); mkParam "l" (idx_ref 0)]
    (mkResults (Some (idx_ref 1)) []) (Some sample_sig_types) lower = Ok ([I32; I32], []).
Proof.
  apply (FlattenFunc_correct (Some sample_sig_types) 3 _ _ lower
    [TPrim Pstring; TFixed (TPrim Pu8) 20] [TTuple [TPrim Pu32; TPrim Pf64]]).
  - split_and!; [solve_denotes|reflexivity|cbn; lia|vm_compute; discriminate].
  - split_and!; [solve_denotes|reflexivity|cbn; lia|vm_compute; discriminate].
Defined.

(** A tuple of [n] bytes. *)
Definition wide_tuple (n : nat) : TypeDesc := TupleDesc (replicate n (prim_ref Pu8)).

Lemma wide_flats n resolve fuel :
  Forall2 (flats resolve (FlatWidth (S fuel) resolve) (Flatten (S fuel) resolve))
    (replicate n (prim_ref Pu8)) (replicate n [I32]).
Proof. apply Forall2_replicate. by eexists. Qed.

Lemma wide_tuple_flat n resolve :
  Z.of_nat n ≤ 2 ^ 20 →
  FlatWidth 2 resolve (wide_tuple n) = Ok (Z.of_nat n) ∧
  Flatten 2 resolve (wide_tuple n) = Ok (concat (replicate n [I32])).
Proof.
  intros Hn. assert (zlen (concat (replicate n [I32])) = Z.of_nat n) as El.
  { rewrite zlen_copies. change (zlen [I32]) with 1. lia. }
  unfold wide_tuple. set (rs := replicate n (prim_ref Pu8)).
  pose proof (wide_flats n resolve 0) as Hw. fold rs in Hw.
  assert (FlatWidth 2 resolve (TupleDesc rs) = Ok (Z.of_nat n)) as Ew.
  { change (FlatWidth 2 resolve (TupleDesc rs)) with (width_sum resolve (FlatWidth 1 resolve) rs 0).
    rewrite (width_sum_ok _ _ _ _ _ 0 Hw) by lia. by rewrite El. }
  split; [done|].
  change (Flatten 2 resolve (TupleDesc rs)) with
    (flattenTuple resolve (Flatten 1 resolve) rs (FlatWidth 2 resolve (TupleDesc rs))).
  unfold flattenTuple. rewrite Ew. cbn [obind]. by rewrite (flatten_refs_ok _ _ _ _ _ [] Hw).
Qed.

Lemma option_wide_flat n resolve :
  Z.of_nat n ≤ 2 ^ 20 → (∀ i, resolveType (Some (idx_ref i)) resolve = Ok (wide_tuple n)) →
  FlatWidth 3 resolve (OptionDesc (idx_ref 0)) = addFlatWidth 1 (Z.of_nat n) ∧
  Flatten 3 resolve (OptionDesc (idx_ref 0)) = Ok (I32 :: concat (replicate n [I32])).
Proof.
  intros Hn Hr. destruct (wide_tuple_flat n resolve Hn) as [Ew Ef].
  change (FlatWidth 3 resolve (OptionDesc (idx_ref 0))) with
    (flatWidthOption resolve (FlatWidth 2 resolve) (idx_ref 0)).
  change (Flatten 3 resolve (OptionDesc (idx_ref 0))) with
    (flattenOption resolve (Flatten 2 resolve) (idx_ref 0)).
  unfold flatWidthOption, flattenOption, flatWidthRef. rewrite Hr. cbn [obind]. by rewrite Ew, Ef.
Qed.

(** [FlatWidth] does not answer [len(Flatten)] on every type: an option of
    a tuple of 2^20 bytes flattens to 2^20 + 1 core values, but its width is
    refused. *)
Theorem FlatWidth_refuses_wide_option n resolve :
  Z.of_nat n = maxFlatWidth →
  (∀ i, resolveType (Some (idx_ref i)) resolve = Ok (wide_tuple n)) →
  FlatWidth 3 resolve (OptionDesc (idx_ref 0)) = Err EFlatWidth ∧
  ∃ l, Flatten 3 resolve (OptionDesc (idx_ref 0)) = Ok l ∧ zlen l = maxFlatWidth + 1.
Proof.
  intros Hn Hr. destruct (option_wide_flat n resolve) as [-> ->]; [rewrite Hn; unfold maxFlatWidth; lia|done|].
  rewrite Hn. split; [done|]. eexists. split; [done|].
  rewrite zlen_cons, zlen_copies, Hn. change (zlen [I32]) with 1. lia.
Qed.

Lemma FlatWidth_refuses_wide_option_witness :
  ∃ n resolve, FlatWidth 3 resolve (OptionDesc (idx_ref 0)) = Err EFlatWidth ∧
  ∃ l, Flatten 3 resolve (OptionDesc (idx_ref 0)) = Ok l ∧ zlen l = maxFlatWidth + 1 ∧ Z.of_nat n = maxFlatWidth.
Proof.
  exists (Z.to_nat maxFlatWidth), (Some (λ _ : Z, Some (wide_tuple (Z.to_nat maxFlatWidth)))).
  assert (Z.of_nat (Z.to_nat maxFlatWidth) = maxFlatWidth) as Hn.
  { apply Z2Nat.id. unfold maxFlatWidth. lia. }
  destruct (FlatWidth_refuses_wide_option (Z.to_nat maxFlatWidth)
    (Some (λ _ : Z, Some (wide_tuple (Z.to_nat maxFlatWidth)))) Hn) as (H1 & l & H2 & H3); [|eauto].
  generalize (Z.to_nat maxFlatWidth). reflexivity.
Defined.
