(* ===== verification/AbiLoad.v ===== *)
(** Reading component values out of linear memory: the load half of
    [internal/component/abi/memory.go], [liftScalarList] of
    [internal/component/abi/scalarlist.go] and the parts of the Go library they
    use (little-endian integers, UTF-8 validity, slicing).

    Memory is its list of bytes.  Pointers are 32-bit and wrap as in the
    source; a slice expression whose bounds are out of order or out of range is
    a [Panic].  The walk over the type graph carries fuel as the layout walks
    do. *)
From Stdlib Require Import ZArith Lia String.
From stdpp Require Import base list numbers option tactics.
From S2P Require Import Prelude AbiTypes AbiLayout.
Local Open Scope Z_scope.
Local Open Scope go_scope.

(** * Bytes *)

(** [mem[lo:hi]]. *)
Definition subslice (mem : list Z) (lo hi : Z) : res (list Z) :=
  if (lo <=? hi) && (hi <=? zlen mem) then Ok (take (Z.to_nat (hi - lo)) (drop (Z.to_nat lo) mem))
  else Panic.

(** A continuation byte within a range, as [utf8]'s accept ranges. *)
Definition in_range (lo hi b : Z) : bool := (lo <=? b) && (b <=? hi).

(** [utf8.Valid]: the encodings of RFC 3629. *)
Fixpoint utf8_valid (l : list Z) : bool :=
  match l with
  | [] => true
  | a :: l =>
      if a <? 0x80 then utf8_valid l
      else if in_range 0xC2 0xDF a then
        match l with b :: l => in_range 0x80 0xBF b && utf8_valid l | _ => false end
      else if in_range 0xE0 0xEF a then
        match l with
        | b :: c :: l =>
            in_range (if a =? 0xE0 then 0xA0 else 0x80) (if a =? 0xED then 0x9F else 0xBF) b
            && in_range 0x80 0xBF c && utf8_valid l
        | _ => false
        end
      else if in_range 0xF0 0xF4 a then
        match l with
        | b :: c :: d :: l =>
            in_range (if a =? 0xF0 then 0x90 else 0x80) (if a =? 0xF4 then 0x8F else 0xBF) b
            && in_range 0x80 0xBF c && in_range 0x80 0xBF d && utf8_valid l
        | _ => false
        end
      else false
  end.

(** [flagsBitMask] of flat.go. *)
Definition flagsBitMask (numLabels : Z) : Z := Z.shiftr (2 ^ 32 - 1) (32 - numLabels).

(** The type assertions [v.(uint32)] and [v.(uint64)]. *)
Definition asU32 (v : Value) : res Z := match v with VU32 n => Ok n | _ => Panic end.
Definition asU64 (v : Value) : res Z := match v with VU64 n => Ok n | _ => Panic end.

(** An error wrapped with its place. *)
Definition at_ {A} (r : res A) : res A := match r with Err e => Err (EAt e) | r => r end.

(** * The code *)

Section memory.
Variable mem : list Z.

Definition loadInt (ptr nbytes : Z) (signed : bool) : res Value :=
  if u32 (zlen mem) <? u32 (ptr + nbytes) then Err (EOverflow ptr nbytes (zlen mem))
  else
    let* bytes := subslice mem ptr (u32 (ptr + nbytes)) in
    let v := le_decode bytes in
    match nbytes with
    | 1 => Ok (if signed then VI32 (i8 v) else VU32 v)
    | 2 => Ok (if signed then VI32 (i16 v) else VU32 v)
    | 4 => Ok (if signed then VI32 (i32 v) else VU32 v)
    | 8 => Ok (if signed then VI64 (i64 v) else VU64 v)
    | _ => Err (EBadWidth nbytes)
    end.

Definition readU32LE (ptr : Z) : res Z :=
  if u32 (zlen mem) <? u32 (ptr + 4) then Err (EOverflow ptr 4 (zlen mem))
  else
    let* bytes := subslice mem ptr (u32 (ptr + 4)) in
    Ok (le_decode bytes).

Definition loadStringFromRange (ptr byteLen : Z) : res (list Z) :=
  if u32 (zlen mem) <? u32 (ptr + byteLen) then Err (EOverflow ptr byteLen (zlen mem))
  else
    let* b := subslice mem ptr (u32 (ptr + byteLen)) in
    if negb (utf8_valid b) then Err EUtf8 else Ok b.

Definition loadString (ptr : Z) : res Value :=
  let* strPtr := readU32LE ptr in
  let* strLen := readU32LE (u32 (ptr + 4)) in
  let* s := loadStringFromRange strPtr strLen in
  Ok (VString s).

(** The two checks on a [char]. *)
Definition check_char (i : Z) : res Z :=
  if 0x110000 <=? i then Err (ECharRange i)
  else if (0xD800 <=? i) && (i <=? 0xDFFF) then Err (ECharSurrogate i)
  else Ok i.

Definition loadPrimitive (ptr : Z) (prim : Prim) : res Value :=
  match prim with
  | Pbool =>
      let* v := loadInt ptr 1 false in
      let* n := asU32 v in
      Ok (VBool (negb (n =? 0)))
  | Pu8 => loadInt ptr 1 false
  | Pu16 => loadInt ptr 2 false
  | Pu32 => loadInt ptr 4 false
  | Ps8 => loadInt ptr 1 true
  | Ps16 => loadInt ptr 2 true
  | Ps32 => loadInt ptr 4 true
  | Pu64 => loadInt ptr 8 false
  | Ps64 => loadInt ptr 8 true
  | Pf32 =>
      let* bits := loadInt ptr 4 false in
      let* n := asU32 bits in
      Ok (VF32 n)
  | Pf64 =>
      let* bits := loadInt ptr 8 false in
      let* n := asU64 bits in
      Ok (VF64 n)
  | Pchar =>
      let* v := loadInt ptr 4 false in
      let* i := asU32 v in
      let* i := check_char i in
      Ok (VI32 i)
  | Pstring => loadString ptr
  | PerrorContext => loadInt ptr 4 false
  | Punknown _ => Err (EUnknownPrimitive prim)
  end.

(** [scalarPrim]: the primitive of a list's element type. *)
Definition scalarPrim (elemType : TypeDesc) : option Prim :=
  match elemType with PrimitiveDesc p => Some p | _ => None end.

Definition scalarListSpan (ptr length elemSize : Z) : res (list Z) :=
  let byteLen := u32 (length * elemSize) in
  if negb (elemSize =? 0) && (MaxUint32 / elemSize <? length) then Err (EListLength length elemSize)
  else if (u32 (ptr + byteLen) <? ptr) || (u32 (zlen mem) <? u32 (ptr + byteLen)) then
    Err (EOverflow ptr byteLen (zlen mem))
  else subslice mem ptr (u32 (ptr + byteLen)).

(** One element: [dec(span[i*elemSize:])], where [dec] reads [elemSize] bytes. *)
Definition elem_bytes (span : list Z) (off elemSize : Z) : res (list Z) :=
  subslice span off (off + elemSize).

Fixpoint decode_elems (dec : Z → res Z) (span : list Z) (elemSize : Z) (idxs : list Z) : res (list Z) :=
  match idxs with
  | [] => Ok []
  | i :: idxs =>
      let* b := elem_bytes span (u32 (i * elemSize)) elemSize in
      let* v := dec (le_decode b) in
      let* vs := decode_elems dec span elemSize idxs in
      Ok (v :: vs)
  end.

Definition decodeScalarList (ptr length elemSize : Z) (dec : Z → res Z) : res (list Z) :=
  let* span := scalarListSpan ptr length elemSize in
  decode_elems dec span elemSize (seqZ 0 length).

(** [None] is [handled == false]. *)
Definition liftScalarList (ptr length : Z) (prim : Prim) : option (res Value) :=
  let lift k size dec := Some (omap_ok (VSlice k) (decodeScalarList ptr length size dec)) in
  match prim with
  | Pu8 => Some (let* span := scalarListSpan ptr length 1 in Ok (VSlice KU8 span))
  | Ps8 => lift KI8 1 (λ b, Ok (i8 b))
  | Pbool => lift KBool 1 (λ b, Ok (if b =? 0 then 0 else 1))
  | Pu16 => lift KU16 2 Ok
  | Ps16 => lift KI16 2 (λ b, Ok (i16 b))
  | Pu32 => lift KU32 4 Ok
  | Ps32 => lift KI32 4 (λ b, Ok (i32 b))
  | Pu64 => lift KU64 8 Ok
  | Ps64 => lift KI64 8 (λ b, Ok (i64 b))
  | Pf32 => lift KF32 4 Ok
  | Pf64 => lift KF64 8 Ok
  | Pchar => lift KI32 4 check_char
  | _ => None
  end.

Definition loadFlags (ptr : Z) (names : list string) : res Value :=
  let* flagsSize := sizeFlagsNumLabels (zlen names) in
  let* bits := loadInt ptr flagsSize false in
  let* n := asU32 bits in
  Ok (VU32 (Z.land n (flagsBitMask (zlen names)))).

Definition loadEnum (ptr : Z) (cases : list string) : res Value :=
  let* enumSize := sizeEnumNumCases (zlen cases) in
  let* caseIdx := loadInt ptr enumSize false in
  let* idx := asU32 caseIdx in
  if OutOfRange idx (zlen cases) then Err (ECaseIndex idx (zlen cases))
  else Ok (VU32 idx).

Section walk.
Variable resolve : Resolver.
Variables Alignment Size : TypeDesc → res Z.
Variable loadValue : Z → TypeDesc → res Value.

Fixpoint load_elems (elemType : TypeDesc) (ptr elemSize : Z) (idxs : list Z) : res (list Value) :=
  match idxs with
  | [] => Ok []
  | i :: idxs =>
      let* v := at_ (loadValue (u32 (ptr + u32 (i * elemSize))) elemType) in
      let* vs := load_elems elemType ptr elemSize idxs in
      Ok (v :: vs)
  end.

Definition loadListFromRange (ptr length : Z) (elemType : TypeDesc) : res (list Value) :=
  let* elemSize := Size elemType in
  let* elemAlign := Alignment elemType in
  let byteLen := u32 (length * elemSize) in
  if u32 (zlen mem) <? u32 (ptr + byteLen) then Err (EOverflow ptr byteLen (zlen mem))
  else if negb (ptr =? Align ptr elemAlign) then Err (EUnaligned ptr elemAlign)
  else load_elems elemType ptr elemSize (seqZ 0 length).

Definition loadAnyListFromRange (ptr length : Z) (elemType : TypeDesc) : res Value :=
  match (match scalarPrim elemType with Some prim => liftScalarList ptr length prim | None => None end) with
  | Some r => r
  | None => omap_ok VList (loadListFromRange ptr length elemType)
  end.

Definition loadList (ptr : Z) (elemType : TypeDesc) : res Value :=
  let* listPtr := loadInt ptr 4 false in
  let* listLen := loadInt (u32 (ptr + 4)) 4 false in
  let* p := asU32 listPtr in
  let* n := asU32 listLen in
  loadAnyListFromRange p n elemType.

(** The loop of [loadRecord] and [loadTuple]. *)
Fixpoint load_fields (rs : list TypeRef) (offset : Z) : res (list Value) :=
  match rs with
  | [] => Ok []
  | r :: rs =>
      let* fieldType := at_ (resolveType (Some r) resolve) in
      let* fieldAlign := Alignment fieldType in
      let offset := Align offset fieldAlign in
      let* v := at_ (loadValue offset fieldType) in
      let* fieldSize := Size fieldType in
      let* vs := load_fields rs (u32 (offset + fieldSize)) in
      Ok (v :: vs)
  end.

Definition loadRecord (ptr : Z) (fields : list RecordField) : res Value :=
  omap_ok VList (load_fields (rf_Type <$> fields) ptr).

Definition loadTuple (ptr : Z) (elements : list TypeRef) : res Value :=
  omap_ok VList (load_fields elements ptr).

(** The payload of the active case, or nil. *)
Definition load_payload (offset : Z) (ref : option TypeRef) : res Value :=
  match ref with
  | None => Ok VNil
  | Some r =>
      let* t := resolveType (Some r) resolve in
      at_ (loadValue offset t)
  end.

Definition loadVariant (ptr : Z) (cases : list VariantCase) : res Value :=
  let* discSize := sizePrimitive (DiscriminantType (zlen cases)) in
  let* discVal := loadInt ptr discSize false in
  let* caseIdx := asU32 discVal in
  if OutOfRange caseIdx (zlen cases) then Err (ECaseIndex caseIdx (zlen cases))
  else
    let offset := u32 (ptr + discSize) in
    let* maxCaseAlign := MaxCaseAlignment resolve Alignment cases in
    let offset := Align offset maxCaseAlign in
    match cases !! Z.to_nat caseIdx with
    | None => Panic
    | Some c =>
        let* payload := load_payload offset (vc_Type c) in
        Ok (VVariant caseIdx payload)
    end.

Definition loadOption (ptr : Z) (elemType : TypeDesc) : res Value :=
  let* disc := loadInt ptr 1 false in
  let* discIdx := asU32 disc in
  let offset := u32 (ptr + 1) in
  let* elemAlign := Alignment elemType in
  let offset := Align offset elemAlign in
  match discIdx with
  | 0 => Ok VNil
  | 1 => loadValue offset elemType
  | _ => Err (EDiscriminant discIdx)
  end.

Definition loadResult (ptr : Z) (ok err : option TypeRef) : res Value :=
  let* disc := loadInt ptr 1 false in
  let* discIdx := asU32 disc in
  let offset := u32 (ptr + 1) in
  let* maxAlign := arm_align resolve Alignment ok 1 in
  let* maxAlign := arm_align resolve Alignment err maxAlign in
  let offset := Align offset maxAlign in
  match discIdx with
  | 0 => let* payload := load_payload offset ok in Ok (VResult false payload)
  | 1 => let* payload := load_payload offset err in Ok (VResult true payload)
  | _ => Err (EDiscriminant discIdx)
  end.
End walk.

Fixpoint loadValue (fuel : nat) (resolve : Resolver) (ptr : Z) (t : TypeDesc) : res Value :=
  match fuel with
  | O => NoFuel
  | S fuel =>
      let rec := loadValue fuel resolve in
      let al := Alignment fuel resolve in
      let sz := Size fuel resolve in
      match t with
      | PrimitiveDesc prim => loadPrimitive ptr prim
      | ListDesc element =>
          let* elemType := resolveType (Some element) resolve in
          loadList al sz rec ptr elemType
      | MapDesc key value => loadList al sz rec ptr (mapElemType key value)
      | FixedListDesc element length =>
          let* elemType := resolveType (Some element) resolve in
          loadAnyListFromRange al sz rec ptr length elemType
      | RecordDesc fields => loadRecord resolve al sz rec ptr fields
      | VariantDesc cases => loadVariant resolve al rec ptr cases
      | TupleDesc elements => loadTuple resolve al sz rec ptr elements
      | FlagsDesc names => loadFlags ptr names
      | EnumDesc cases => loadEnum ptr cases
      | OptionDesc element =>
          let* elemType := resolveType (Some element) resolve in
          loadOption al rec ptr elemType
      | ResultDesc ok err => loadResult resolve al rec ptr ok err
      | OwnDesc _ | BorrowDesc _ | StreamDesc _ | FutureDesc _ => loadInt ptr 4 false
      | _ => Err EUnsupported
      end
  end.

Definition Load (fuel : nat) (resolve : Resolver) (ptr : Z) (t : TypeDesc) : res Value :=
  let* align := Alignment fuel resolve t in
  if negb (ptr =? Align ptr align) then Err (EUnaligned ptr align)
  else
    let* size := Size fuel resolve t in
    if u32 (zlen mem) <? u32 (ptr + size) then Err (EOverflow ptr size (zlen mem))
    else loadValue fuel resolve ptr t.
End memory.
