(* ===== verification/AbiStore.v ===== *)
(** Writing component values into linear memory: the store half of
    [internal/component/abi/memory.go], [storeScalarList] and its helpers of
    [scalarlist.go], [storeFixedList] of [fixedlist.go] and [StoreStep] of
    [plan.go].

    A store can call the guest's allocator, and growing a memory can replace
    its backing array, so a Go slice taken before may be stale.  The model keeps
    that: the world holds every backing array there is, and a memory view is a
    reference to one of them with a length.  Every store runs in the monad [ST],
    whose state is the world and the function's variable [mem], the view it
    writes through; the Go functions return that view, and their callers rebind
    it. *)
From Stdlib Require Import ZArith Lia String.
From stdpp Require Import base list numbers option tactics.
From S2P Require Import Prelude AbiTypes AbiLayout AbiLoad.
Local Open Scope Z_scope.
Local Open Scope go_scope.

(** * Worlds, views and the allocator *)

(** A slice of a whole memory: a backing array and a length. *)
Record view := mkView { v_arr : nat; v_len : Z }.

Section store.
(** Whatever else the guest keeps (globals, tables). *)
Context {G : Type}.

(** The backing arrays, which of them is the linear memory now, and the rest of
    the guest. *)
Record world := mkWorld { arrays : list (list Z); live : view; guest : G }.

(** [Realloc]: the guest's allocator and the function that returns the current
    memory; either may be nil. *)
Record Realloc := mkRealloc {
  Call : option (world → Z → Z → Z → Z → world * res Z);
  Mem : option (world → option view);
}.

(** * The monad *)

Definition ST (A : Type) : Type := world → view → world * view * res A.

Definition sret {A} (a : A) : ST A := λ w mem, (w, mem, Ok a).
Definition serr {A} (e : abi_error) : ST A := λ w mem, (w, mem, Err e).
Definition slift {A} (r : res A) : ST A := λ w mem, (w, mem, r).

Definition sbind {A B} (m : ST A) (k : A → ST B) : ST B := λ w mem,
  match m w mem with
  | (w, mem, Ok a) => k a w mem
  | (w, mem, Err e) => (w, mem, Err e)
  | (w, mem, Panic) => (w, mem, Panic)
  | (w, mem, NoFuel) => (w, mem, NoFuel)
  end.

(** An error wrapped with its place. *)
Definition sat {A} (m : ST A) : ST A := λ w mem,
  let '(w, mem, r) := m w mem in (w, mem, at_ r).

(** [len(mem)]. *)
Definition slen : ST Z := λ w mem, (w, mem, Ok (v_len mem)).
End store.
Arguments world G : clear implicits.
Arguments Realloc G : clear implicits.
Arguments ST G A : clear implicits.

Notation "'let!' x ':=' m 'in' k" := (sbind m (λ x, k))
  (at level 10, x name, m at level 100, k at level 200,
   format "'[v' 'let!'  x  ':='  m  'in' '/' k ']'") : go_scope.
Notation "'let!' ' p ':=' m 'in' k" := (sbind m (λ x, match x with p => k end))
  (at level 10, p strict pattern, m at level 100, k at level 200,
   only parsing) : go_scope.

(** * The code *)

Section code.
Context {G : Type}.
Variable realloc : Realloc G.

Definition Grow (origPtr origSize align newSize : Z) : ST G Z := λ w mem,
  match Call realloc with
  | None => (w, mem, Err ENoRealloc)
  | Some call => let '(w, r) := call w origPtr origSize align newSize in (w, mem, r)
  end.

(** [GrowMem] rebinds [mem] to the view the allocation left live. *)
Definition GrowMem (origPtr origSize align newSize : Z) : ST G Z := λ w mem,
  match Grow origPtr origSize align newSize w mem with
  | (w, _, Ok ptr) =>
      let mem := match Mem realloc with
                 | Some f => match f w with Some fresh => fresh | None => mem end
                 | None => mem
                 end in
      (w, mem, Ok ptr)
  | (w, _, r) => (w, mem, r)
  end.

Definition checkAllocated (ptr size : Z) : ST G unit :=
  let! len := slen in
  if (u32 (ptr + size) <? ptr) || (u32 len <? u32 (ptr + size)) then serr (EOverflow ptr size len)
  else sret tt.

(** Writing [bytes] at the start of [mem[lo:hi]], through the view. *)
Definition put_span (lo hi : Z) (bytes : list Z) : ST G unit := λ w mem,
  if (0 <=? lo) && (lo <=? hi) && (hi <=? v_len mem) then
    match arrays w !! v_arr mem with
    | None => (w, mem, Panic)
    | Some a =>
        let n := Z.to_nat (hi - lo) in
        (mkWorld (<[v_arr mem := list_inserts (Z.to_nat lo) (take n bytes) a]> (arrays w)) (live w) (guest w),
         mem, Ok tt)
    end
  else (w, mem, Panic).

Definition storeInt (ptr : Z) (v : Value) (nbytes : Z) : ST G unit :=
  let! len := slen in
  if (u32 (ptr + nbytes) <? ptr) || (u32 len <? u32 (ptr + nbytes)) then serr (EOverflow ptr nbytes len)
  else
    match (match v with
           | VU32 n => Some n
           | VI32 n => Some (u32 n)
           | VU64 n => Some n
           | VI64 n => Some (u64 n)
           | _ => None
           end) with
    | None => serr EValueKind
    | Some u64Val =>
        if (nbytes =? 1) || (nbytes =? 2) || (nbytes =? 4) || (nbytes =? 8) then
          put_span ptr (u32 (ptr + nbytes)) (le_encode (Z.to_nat nbytes) u64Val)
        else serr (EBadWidth nbytes)
    end.

Definition intByteSize (prim : Prim) : Z :=
  match prim with Pu8 | Ps8 => 1 | Pu16 | Ps16 => 2 | _ => 4 end.

(** Allocates [byteLen] bytes and copies [bytes] into them: the common body of
    [allocStoreString] and [allocStoreBytes]. *)
Definition alloc_copy (bytes : list Z) (byteLen : Z) : ST G (Z * Z) :=
  let! newPtr := sat (GrowMem 0 0 1 byteLen) in
  let! _ := checkAllocated newPtr byteLen in
  let! _ := put_span newPtr (u32 (newPtr + byteLen)) bytes in
  sret (newPtr, byteLen).

Definition allocStoreString (s : list Z) : ST G (Z * Z) :=
  if MaxUint32 <? zlen s then serr (EStringLength (zlen s))
  else alloc_copy s (u32 (zlen s)).

Definition allocStoreBytes (b : list Z) : ST G (Z * Z) :=
  if MaxUint32 <? zlen b then serr (EListLength (zlen b) 1)
  else alloc_copy b (u32 (zlen b)).

Definition storeString (ptr : Z) (s : list Z) : ST G unit :=
  let! '(newPtr, byteLen) := sat (allocStoreString s) in
  let! _ := sat (storeInt ptr (VU32 newPtr) 4) in
  sat (storeInt (u32 (ptr + 4)) (VU32 byteLen) 4).

(** The checks of [store char] and [putChar]. *)
Definition check_rune (r : Z) : res Z :=
  if (r <? 0) || (0x110000 <=? r) then Err (ECharRange r)
  else if (0xD800 <=? r) && (r <=? 0xDFFF) then Err (ECharSurrogate r)
  else Ok r.

Definition storePrimitive (ptr : Z) (prim : Prim) (v : Value) : ST G unit :=
  match prim with
  | Pbool =>
      match v with
      | VBool b => storeInt ptr (VU32 (if b then 1 else 0)) 1
      | _ => serr EValueKind
      end
  | Pu8 | Pu16 | Pu32 =>
      match v with
      | VU32 u => storeInt ptr (VU32 u) (intByteSize prim)
      | _ => serr EValueKind
      end
  | Ps8 | Ps16 | Ps32 =>
      match v with
      | VI32 i => storeInt ptr (VU32 (u32 i)) (intByteSize prim)
      | _ => serr EValueKind
      end
  | Pu64 => match v with VU64 u => storeInt ptr (VU64 u) 8 | _ => serr EValueKind end
  | Ps64 => match v with VI64 i => storeInt ptr (VU64 (u64 i)) 8 | _ => serr EValueKind end
  | Pf32 => match v with VF32 bits => storeInt ptr (VU32 bits) 4 | _ => serr EValueKind end
  | Pf64 => match v with VF64 bits => storeInt ptr (VU64 bits) 8 | _ => serr EValueKind end
  | Pchar =>
      match v with
      | VI32 r => let! r := slift (check_rune r) in storeInt ptr (VU32 (u32 r)) 4
      | _ => serr EValueKind
      end
  | Pstring => match v with VString s => storeString ptr s | _ => serr EValueKind end
  | PerrorContext => match v with VU32 h => storeInt ptr (VU32 h) 4 | _ => serr EValueKind end
  | Punknown _ => serr (EUnknownPrimitive prim)
  end.

(** The element encoders [putS8] .. [putChar]: the bytes of one element. *)
Definition putS8 (e : Z) : res (list Z) := Ok (le_encode 1 e).
Definition putBool (e : Z) : res (list Z) := Ok [if e =? 0 then 0 else 1].
Definition putU16 (e : Z) : res (list Z) := Ok (le_encode 2 e).
Definition putS16 (e : Z) : res (list Z) := Ok (le_encode 2 (u16 e)).
Definition putU32 (e : Z) : res (list Z) := Ok (le_encode 4 e).
Definition putS32 (e : Z) : res (list Z) := Ok (le_encode 4 (u32 e)).
Definition putU64 (e : Z) : res (list Z) := Ok (le_encode 8 e).
Definition putS64 (e : Z) : res (list Z) := Ok (le_encode 8 (u64 e)).
Definition putF32 (e : Z) : res (list Z) := Ok (le_encode 4 e).
Definition putF64 (e : Z) : res (list Z) := Ok (le_encode 8 e).
Definition putChar (e : Z) : res (list Z) :=
  let* r := check_rune e in Ok (le_encode 4 (u32 r)).

(** The element loop over [span = mem[lo:hi]]: [enc(span[i*elemSize:], v)]. *)
Fixpoint put_elems (enc : Z → res (list Z)) (lo hi elemSize : Z) (i : Z) (vs : list Z) : ST G unit :=
  match vs with
  | [] => sret tt
  | v :: vs =>
      let off := u32 (u32 i * elemSize) in
      let! bytes := slift (enc v) in
      let! _ := (if hi - lo <? off + zlen bytes then slift Panic
                 else put_span (lo + off) (lo + off + zlen bytes) bytes) in
      put_elems enc lo hi elemSize (i + 1) vs
  end.

(** [length > (1<<32-1)/elemSize]. *)
Definition too_long (length elemSize : Z) : bool :=
  negb (elemSize =? 0) && (MaxUint32 / elemSize <? length).

Definition encodeScalarList (vs : list Z) (elemSize align : Z) (enc : Z → res (list Z)) : ST G (Z * Z) :=
  let length := u32 (zlen vs) in
  if too_long length elemSize then serr (EListLength length elemSize)
  else
    let byteLen := u32 (length * elemSize) in
    let! ptr := sat (GrowMem 0 0 align byteLen) in
    let! _ := checkAllocated ptr byteLen in
    let! _ := put_elems enc ptr (u32 (ptr + byteLen)) elemSize 0 vs in
    sret (ptr, length).

(** The typed slice [v.([]T)]. *)
Definition as_slice (v : Value) (k : skind) : option (list Z) :=
  match v with VSlice k' l => if decide (k' = k) then Some l else None | _ => None end.

(** [None] is [handled == false]. *)
Definition storeScalarList (v : Value) (prim : Prim) : option (ST G (Z * Z)) :=
  let enc k size align put := (λ l, encodeScalarList l size align put) <$> as_slice v k in
  match prim with
  | Pu8 => allocStoreBytes <$> as_slice v KU8
  | Ps8 => enc KI8 1 1 putS8
  | Pbool => enc KBool 1 1 putBool
  | Pu16 => enc KU16 2 2 putU16
  | Ps16 => enc KI16 2 2 putS16
  | Pu32 => enc KU32 4 4 putU32
  | Ps32 => enc KI32 4 4 putS32
  | Pu64 => enc KU64 8 8 putU64
  | Ps64 => enc KI64 8 8 putS64
  | Pf32 => enc KF32 4 4 putF32
  | Pf64 => enc KF64 8 8 putF64
  | Pchar => enc KI32 4 4 putChar
  | _ => None
  end.

(** [fixedSpan]: the bounds of the [n] elements' bytes. *)
Definition fixedSpan (ptr n elemSize got : Z) : ST G (Z * Z) :=
  let! len := slen in
  if negb (got =? n) then serr (ELength n got)
  else
    let end_ := u64 (ptr + u64 (n * elemSize)) in
    if len <? end_ then serr (EOverflow ptr (end_ - ptr) len)
    else sret (ptr, end_).

Definition putFixed (ptr n elemSize : Z) (put : Z → res (list Z)) (vs : list Z) : ST G unit :=
  let! '(lo, hi) := fixedSpan ptr n elemSize (zlen vs) in
  put_elems put lo hi elemSize 0 vs.

Definition storeFixedScalars (ptr : Z) (v : Value) (prim : Prim) (n elemSize : Z) : option (ST G unit) :=
  let put k f := (λ l, putFixed ptr n elemSize f l) <$> as_slice v k in
  match prim with
  | Pu8 => (λ l, let! '(lo, hi) := fixedSpan ptr n elemSize (zlen l) in put_span lo hi l) <$> as_slice v KU8
  | Ps8 => put KI8 putS8
  | Pbool => put KBool putBool
  | Pu16 => put KU16 putU16
  | Ps16 => put KI16 putS16
  | Pu32 => put KU32 putU32
  | Ps32 => put KI32 putS32
  | Pu64 => put KU64 putU64
  | Ps64 => put KI64 putS64
  | Pf32 => put KF32 putF32
  | Pf64 => put KF64 putF64
  | Pchar => put KI32 putChar
  | _ => None
  end.

Definition storeFlags (ptr : Z) (v : Value) (names : list string) : ST G unit :=
  match v with
  | VU32 bits =>
      let! flagsSize := slift (sizeFlagsNumLabels (zlen names)) in
      storeInt ptr (VU32 bits) flagsSize
  | _ => serr EValueKind
  end.

Definition storeEnum (ptr : Z) (v : Value) (cases : list string) : ST G unit :=
  match v with
  | VU32 caseIdx =>
      if OutOfRange caseIdx (zlen cases) then serr (ECaseIndex caseIdx (zlen cases))
      else
        let! enumSize := slift (sizeEnumNumCases (zlen cases)) in
        storeInt ptr (VU32 caseIdx) enumSize
  | _ => serr EValueKind
  end.

Section walk.
Variable resolve : Resolver.
Variables Alignment Size : TypeDesc → res Z.
(** [storeValue] at a pointer, type, value and alignment hint. *)
Variable storeValue : Z → TypeDesc → Value → Z → ST G unit.

Fixpoint store_elems (elemType : TypeDesc) (ptr elemSize elemAlign : Z) (i : Z) (l : list Value) : ST G unit :=
  match l with
  | [] => sret tt
  | e :: l =>
      let! _ := sat (storeValue (u32 (ptr + u32 (u32 i * elemSize))) elemType e elemAlign) in
      store_elems elemType ptr elemSize elemAlign (i + 1) l
  end.

Definition allocStoreList (l : list Value) (elemType : TypeDesc) : ST G (Z * Z) :=
  let! elemSize := slift (Size elemType) in
  let! elemAlign := slift (Alignment elemType) in
  let length := u32 (zlen l) in
  if too_long length elemSize then serr (EListLength length elemSize)
  else
    let byteLen := u32 (length * elemSize) in
    let! newPtr := sat (GrowMem 0 0 elemAlign byteLen) in
    let! _ := checkAllocated newPtr byteLen in
    let! _ := store_elems elemType newPtr elemSize elemAlign 0 l in
    sret (newPtr, length).

Definition allocStoreAnyList (v : Value) (elemType : TypeDesc) : ST G (Z * Z) :=
  match (match scalarPrim elemType with Some prim => storeScalarList v prim | None => None end) with
  | Some m => m
  | None => match v with VList l => allocStoreList l elemType | _ => serr EValueKind end
  end.

Definition storeList (ptr : Z) (v : Value) (elemType : TypeDesc) : ST G unit :=
  let! '(newPtr, length) := sat (allocStoreAnyList v elemType) in
  let! _ := storeInt ptr (VU32 newPtr) 4 in
  storeInt (u32 (ptr + 4)) (VU32 length) 4.

Definition storeFixedList (ptr : Z) (v : Value) (n : Z) (elemType : TypeDesc) : ST G unit :=
  let! elemAlign := slift (Alignment elemType) in
  let! elemSize := slift (Size elemType) in
  match (match scalarPrim elemType with
         | Some prim => storeFixedScalars ptr v prim n elemSize
         | None => None
         end) with
  | Some m => m
  | None =>
      match v with
      | VList l =>
          if negb (zlen l =? n) then serr (ELength n (zlen l))
          else store_elems elemType ptr elemSize elemAlign 0 l
      | _ => serr EValueKind
      end
  end.

(** The loop of [storeRecord] and [storeTuple]; the caller has checked that
    there are as many values as references. *)
Fixpoint store_fields (rs : list TypeRef) (vs : list Value) (offset : Z) : ST G unit :=
  match rs, vs with
  | [], _ => sret tt
  | r :: rs, [] => slift Panic
  | r :: rs, v :: vs =>
      let! fieldType := slift (at_ (resolveType (Some r) resolve)) in
      let! fieldAlign := slift (Alignment fieldType) in
      let offset := Align offset fieldAlign in
      let! _ := sat (storeValue offset fieldType v fieldAlign) in
      let! fieldSize := slift (Size fieldType) in
      store_fields rs vs (u32 (offset + fieldSize))
  end.

Definition storeRecord (ptr : Z) (v : Value) (fields : list RecordField) : ST G unit :=
  match v with
  | VList vs =>
      if negb (zlen vs =? zlen fields) then serr (ELength (zlen fields) (zlen vs))
      else store_fields (rf_Type <$> fields) vs ptr
  | _ => serr EValueKind
  end.

Definition storeTuple (ptr : Z) (v : Value) (elements : list TypeRef) : ST G unit :=
  match v with
  | VList vs =>
      if negb (zlen vs =? zlen elements) then serr (ELength (zlen elements) (zlen vs))
      else store_fields elements vs ptr
  | _ => serr EValueKind
  end.

Definition storeVariant (ptr : Z) (v : Value) (cases : list VariantCase) (align : Z) : ST G unit :=
  match v with
  | VVariant disc payload =>
      if OutOfRange disc (zlen cases) then serr (ECaseIndex disc (zlen cases))
      else
        let! discSize := slift (sizePrimitive (DiscriminantType (zlen cases))) in
        let! _ := storeInt ptr (VU32 disc) discSize in
        let! payloadAlign := slift (if align =? 0 then MaxCaseAlignment resolve Alignment cases else Ok align) in
        let offset := Align (u32 (ptr + discSize)) payloadAlign in
        match cases !! Z.to_nat disc with
        | None => slift Panic
        | Some c =>
            match vc_Type c with
            | None => sret tt
            | Some r =>
                let! caseType := slift (resolveType (Some r) resolve) in
                match payload with
                | VNil => serr (EMissingPayload disc)
                | _ => sat (storeValue offset caseType payload 0)
                end
            end
        end
  | _ => serr EValueKind
  end.

Definition storeOption (ptr : Z) (v : Value) (elemType : TypeDesc) (align : Z) : ST G unit :=
  let discIdx := match v with VNil => 0 | _ => 1 end in
  let! _ := storeInt ptr (VU32 discIdx) 1 in
  let! elemAlign := slift (if align =? 0 then Alignment elemType else Ok align) in
  let offset := Align (u32 (ptr + 1)) elemAlign in
  if discIdx =? 1 then sat (storeValue offset elemType v elemAlign) else sret tt.

(** One arm of [storeResult]. *)
Definition store_arm (offset : Z) (arm : option TypeRef) (payload : Value) : ST G unit :=
  match arm with
  | None => sret tt
  | Some r =>
      let! t := slift (resolveType (Some r) resolve) in
      sat (storeValue offset t payload 0)
  end.

Definition storeResult (ptr : Z) (v : Value) (ok err : option TypeRef) (align : Z) : ST G unit :=
  match v with
  | VResult isErr payload =>
      let! _ := storeInt ptr (VU32 (if isErr then 1 else 0)) 1 in
      let! maxAlign := slift (if align =? 0 then alignmentResult resolve Alignment ok err else Ok align) in
      let offset := Align (u32 (ptr + 1)) maxAlign in
      store_arm offset (if isErr : bool then err else ok) payload
  | _ => serr EValueKind
  end.
End walk.

Fixpoint storeValue (fuel : nat) (resolve : Resolver) (ptr : Z) (t : TypeDesc) (v : Value) (align : Z)
    : ST G unit :=
  match fuel with
  | O => slift NoFuel
  | S fuel =>
      let rec := storeValue fuel resolve in
      let al := Alignment fuel resolve in
      let sz := Size fuel resolve in
      match t with
      | PrimitiveDesc prim => storePrimitive ptr prim v
      | ListDesc element =>
          let! elemType := slift (resolveType (Some element) resolve) in
          storeList al sz rec ptr v elemType
      | MapDesc key value => storeList al sz rec ptr v (mapElemType key value)
      | FixedListDesc element length =>
          let! elemType := slift (resolveType (Some element) resolve) in
          storeFixedList al sz rec ptr v length elemType
      | RecordDesc fields => storeRecord resolve al sz rec ptr v fields
      | VariantDesc cases => storeVariant resolve al rec ptr v cases align
      | TupleDesc elements => storeTuple resolve al sz rec ptr v elements
      | FlagsDesc names => storeFlags ptr v names
      | EnumDesc cases => storeEnum ptr v cases
      | OptionDesc element =>
          let! elemType := slift (resolveType (Some element) resolve) in
          storeOption al rec ptr v elemType align
      | ResultDesc ok err => storeResult resolve al rec ptr v ok err align
      | OwnDesc _ | BorrowDesc _ | StreamDesc _ | FutureDesc _ =>
          match v with VU32 h => storeInt ptr (VU32 h) 4 | _ => serr EValueKind end
      | _ => serr EUnsupported
      end
  end.

(** * Compiled stores *)

Record StoreStep := mkStoreStep { s_t : TypeDesc; s_resolve : Resolver; s_align : Z; s_size : Z }.

Definition CompileStore (fuel : nat) (t : TypeDesc) (resolve : Resolver) : res StoreStep :=
  let* align := Alignment fuel resolve t in
  let* size := Size fuel resolve t in
  Ok (mkStoreStep t resolve align size).

Definition StoreStep_Store (fuel : nat) (s : StoreStep) (ptr : Z) (v : Value) : ST G unit :=
  if negb (ptr =? Align ptr (s_align s)) then serr (EUnaligned ptr (s_align s))
  else
    let! len := slen in
    if (u32 (ptr + s_size s) <? ptr) || (u32 len <? u32 (ptr + s_size s)) then
      serr (EOverflow ptr (s_size s) len)
    else storeValue fuel (s_resolve s) ptr (s_t s) v (s_align s).

(** [Spill] drops the view the store returns. *)
Definition Spill (fuel : nat) (s : StoreStep) (v : Value) : ST G Z := λ w mem,
  let '(w, _, r) :=
    (let! ptr := sat (GrowMem 0 0 (s_align s) (s_size s)) in
     let! _ := sat (StoreStep_Store fuel s ptr v) in
     sret ptr) w mem in
  (w, mem, r).

(** The package-level [Store], which drops it too. *)
Definition Store (fuel : nat) (ptr : Z) (t : TypeDesc) (v : Value) (resolve : Resolver) : ST G unit := λ w mem,
  let '(w, _, r) :=
    (let! s := slift (CompileStore fuel t resolve) in StoreStep_Store fuel s ptr v) w mem in
  (w, mem, r).
End code.
