(* ===== verification/AbiFuel.v ===== *)
(** The fuel that is enough for the walks over descriptors.

    The code recurses through the resolver without a bound: on descriptors that
    contain themselves it overflows the stack, which the model shows as
    [NoFuel].  [shallow fuel] says that the references reachable from a
    descriptor nest less deep than [fuel]; on such a descriptor, with a guest
    allocator that returns, no walk and no store runs out of fuel. *)
From Stdlib Require Import ZArith Lia String.
From stdpp Require Import base list numbers option tactics.
From S2P Require Import Prelude AbiTypes AbiLayout AbiLoad AbiStore.
Local Open Scope Z_scope.
Local Open Scope go_scope.

(** The references a walk follows from a descriptor. *)
Definition children (t : TypeDesc) : list TypeRef :=
  match t with
  | ListDesc e | FixedListDesc e _ | OptionDesc e => [e]
  | RecordDesc fs => rf_Type <$> fs
  | TupleDesc es => es
  | VariantDesc cs => case_types cs
  | ResultDesc o e => omap id [o; e]
  | _ => []
  end.

(** The references nest less deep than [fuel]; the element of a map is the
    tuple of its key and value. *)
Fixpoint shallow (fuel : nat) (resolve : Resolver) (t : TypeDesc) : bool :=
  match fuel with
  | O => false
  | S fuel =>
      match t with
      | MapDesc key value => shallow fuel resolve (mapElemType key value)
      | _ => forallb (λ r, match resolveType (Some r) resolve with
                           | Ok d => shallow fuel resolve d
                           | _ => true
                           end) (children t)
      end
  end.

(** What the references resolve to has [P]. *)
Definition leads (resolve : Resolver) (P : TypeDesc → Prop) (rs : list TypeRef) : Prop :=
  Forall (λ r, ∀ d, resolveType (Some r) resolve = Ok d → P d) rs.

Lemma shallow_children fuel resolve t :
  shallow (S fuel) resolve t = true → leads resolve (λ d, shallow fuel resolve d = true) (children t).
Proof.
  intros H. unfold leads. destruct t; try (by constructor); cbn [shallow] in H; rewrite forallb_forall in H;
    apply list.Forall_forall; intros r Hr d E; specialize (H r (proj1 (list_elem_of_In _ _) Hr)); by rewrite E in H.
Qed.

(** * The layout walks *)

Definition ends {A} (r : res A) : Prop := r ≠ NoFuel.

Lemma ends_Ok {A} (a : A) : ends (Ok a).
Proof. done. Qed.
Lemma ends_Err {A} e : ends (A := A) (Err e).
Proof. done. Qed.
Lemma ends_Panic {A} : ends (A := A) Panic.
Proof. done. Qed.
Lemma ends_bind {A B} (m : res A) (k : A → res B) : ends m → (∀ a, ends (k a)) → ends (obind m k).
Proof. unfold ends. destruct m; cbn; auto. Qed.
Lemma ends_if {A} (b : bool) (x y : res A) : ends x → ends y → ends (if b then x else y).
Proof. by destruct b. Qed.
Lemma ends_at {A} (r : res A) : ends r → ends (at_ r).
Proof. by destruct r. Qed.
Lemma ends_resolve r resolve : ends (resolveType r resolve).
Proof. unfold resolveType, ends. repeat case_match; congruence. Qed.
Lemma ends_alignmentPrimitive p : ends (alignmentPrimitive p).
Proof. by destruct p. Qed.
Lemma ends_sizePrimitive p : ends (sizePrimitive p).
Proof. by destruct p. Qed.
Lemma ends_check_rune e : ends (check_rune e).
Proof. unfold check_rune. by repeat case_match. Qed.
#[export] Hint Resolve ends_Ok ends_Err ends_Panic ends_bind ends_if ends_at ends_resolve ends_alignmentPrimitive
  ends_sizePrimitive ends_check_rune : go.

(** A one-element child list. *)
Lemma leads_one resolve P r : leads resolve P [r] → ∀ d, resolveType (Some r) resolve = Ok d → P d.
Proof. intros H. by inversion_clear H. Qed.

(** Following a reference. *)
Lemma ends_ref {A} resolve (P : TypeDesc → Prop) r (k : TypeDesc → res A) :
  (∀ d, resolveType (Some r) resolve = Ok d → P d) → (∀ d, P d → ends (k d)) →
  ends (let* d := resolveType (Some r) resolve in k d).
Proof.
  intros HP Hk. pose proof (ends_resolve (Some r) resolve) as He.
  destruct (resolveType (Some r) resolve) as [d| | |]; [by apply Hk, HP|done..].
Qed.

Section layout.
Context (resolve : Resolver) (P : TypeDesc → Prop) (al sz : TypeDesc → res Z).
Hypothesis Hal : ∀ d, P d → ends (al d).
Hypothesis Hsz : ∀ d, P d → ends (sz d).

Lemma ends_max_align rs m : leads resolve P rs → ends (max_align_loop resolve al rs m).
Proof. intros H. revert m. induction H as [|r rs Hr _ IH]; intros m; cbn; [done|]. eapply ends_ref; eauto with go. Qed.
Lemma ends_max_size rs m : leads resolve P rs → ends (max_size_loop resolve sz rs m).
Proof. intros H. revert m. induction H as [|r rs Hr _ IH]; intros m; cbn; [done|]. eapply ends_ref; eauto with go. Qed.
Lemma ends_fields rs o : leads resolve P rs → ends (size_fields_loop resolve al sz rs o).
Proof. intros H. revert o. induction H as [|r rs Hr _ IH]; intros o; cbn; [done|]. eapply ends_ref; eauto 6 with go. Qed.

Lemma leads_arms o e :
  leads resolve P (omap id [o; e]) → leads resolve P (option_list o) ∧ leads resolve P (option_list e).
Proof. unfold leads. destruct o, e; cbn; rewrite ?list.Forall_cons; intuition constructor; done. Qed.

Lemma ends_arm_align r m : leads resolve P (option_list r) → ends (arm_align resolve al r m).
Proof. destruct r as [r|]; [|done]. intros H. pose proof (leads_one _ _ _ H). cbn. eapply ends_ref; eauto with go. Qed.
Lemma ends_arm_size r m : leads resolve P (option_list r) → ends (arm_size resolve al sz r m).
Proof. destruct r as [r|]; [|done]. intros H. pose proof (leads_one _ _ _ H). cbn. eapply ends_ref; eauto 6 with go. Qed.
Lemma ends_alignmentResult o e : leads resolve P (omap id [o; e]) → ends (alignmentResult resolve al o e).
Proof. intros [Ho He]%leads_arms. unfold alignmentResult. auto using ends_arm_align with go. Qed.
Lemma ends_sizeResult o e : leads resolve P (omap id [o; e]) → ends (sizeResult resolve al sz o e).
Proof.
  intros [Ho He]%leads_arms. unfold sizeResult. apply ends_bind; [by apply ends_arm_size|]. intros acc.
  apply ends_bind; [by apply ends_arm_size|]. by intros [].
Qed.
End layout.

Lemma ends_flags n : ends (alignmentFlagsNumLabels n) ∧ ends (sizeFlagsNumLabels n).
Proof. unfold alignmentFlagsNumLabels, sizeFlagsNumLabels. auto 10 with go. Qed.
Lemma ends_enum n : ends (sizeEnumNumCases n).
Proof. unfold sizeEnumNumCases. auto with go. Qed.

Lemma ends_Alignment fuel resolve t : shallow fuel resolve t = true → ends (Alignment fuel resolve t).
Proof.
  revert t. induction fuel as [|fuel IH]; intros t Hs; [done|]. apply shallow_children in Hs.
  destruct t; cbn [Alignment children] in *; try done.
  - apply ends_alignmentPrimitive.
  - by apply (ends_max_align _ _ _ IH).
  - apply ends_bind; [auto with go|]. intros a. apply ends_bind; [by apply (ends_max_align _ _ _ IH)|]. auto with go.
  - eapply ends_ref; [by apply leads_one|exact IH].
  - by apply (ends_max_align _ _ _ IH).
  - apply ends_flags.
  - unfold alignmentEnum. auto with go.
  - eapply ends_ref; [by apply leads_one|]. intros d Hd. apply ends_bind; [by apply IH|]. auto with go.
  - by apply (ends_alignmentResult _ _ _ IH).
Qed.

Lemma ends_Size fuel resolve t : shallow fuel resolve t = true → ends (Size fuel resolve t).
Proof.
  revert t. induction fuel as [|fuel IH]; intros t Hs; [done|]. apply shallow_children in Hs.
  pose proof (ends_Alignment fuel resolve) as Hal.
  destruct t; cbn [Size children] in *; try done.
  - apply ends_sizePrimitive.
  - apply ends_bind; [by apply (ends_fields _ _ _ _ Hal IH)|]. intros o. apply ends_bind; [by apply (ends_max_align _ _ _ Hal)|]. auto with go.
  - apply ends_bind; [auto with go|]. intros a. apply ends_bind; [by apply (ends_max_align _ _ _ Hal)|]. intros b.
    apply ends_bind; [by apply (ends_max_size _ _ _ IH)|]. auto with go.
  - eapply ends_ref; [by apply leads_one|]. intros d Hd. apply ends_bind; [by apply IH|]. auto with go.
  - apply ends_bind; [by apply (ends_fields _ _ _ _ Hal IH)|]. intros o. apply ends_bind; [by apply (ends_max_align _ _ _ Hal)|]. auto with go.
  - apply ends_flags.
  - apply ends_enum.
  - eapply ends_ref; [by apply leads_one|]. intros d Hd. apply ends_bind; [by apply IH|]. intros s.
    apply ends_bind; [by apply Hal|]. auto with go.
  - by apply (ends_sizeResult _ _ _ _ Hal IH).
Qed.

(** * The stores *)

Section stores.
Context {G : Type} (realloc : Realloc G).
(** The guest's allocator returns. *)
Hypothesis Hcall : ∀ call w o s a n, Call realloc = Some call → (call w o s a n).2 ≠ NoFuel.

Definition stops {A} (m : ST G A) : Prop := ∀ w mem, ends (m w mem).2.

Lemma stops_ret {A} (a : A) : stops (sret a).
Proof. done. Qed.
Lemma stops_err {A} e : stops (serr e : ST G A).
Proof. done. Qed.
Lemma stops_lift {A} (r : res A) : ends r → stops (slift r).
Proof. by intros H w mem. Qed.
Lemma stops_len : stops slen.
Proof. done. Qed.
Lemma stops_bind {A B} (m : ST G A) (k : A → ST G B) : stops m → (∀ a, stops (k a)) → stops (sbind m k).
Proof.
  intros Hm Hk w mem. specialize (Hm w mem). unfold sbind. destruct (m w mem) as [[w' mem'] [a| | |]]; try done. apply Hk.
Qed.
Lemma stops_sat {A} (m : ST G A) : stops m → stops (sat m).
Proof. intros Hm w mem. specialize (Hm w mem). unfold sat. destruct (m w mem) as [[w' mem'] r]. by destruct r. Qed.
Lemma stops_if {A} (b : bool) (x y : ST G A) : stops x → stops y → stops (if b then x else y).
Proof. by destruct b. Qed.
Hint Resolve stops_ret stops_err stops_lift stops_len stops_bind stops_sat stops_if : go.

(** Following a reference. *)
Lemma stops_ref {A} resolve (P : TypeDesc → Prop) r (k : TypeDesc → ST G A) :
  (∀ d, resolveType (Some r) resolve = Ok d → P d) → (∀ d, P d → stops (k d)) →
  stops (let! d := slift (resolveType (Some r) resolve) in k d).
Proof.
  intros HP Hk w mem. pose proof (ends_resolve (Some r) resolve) as He. unfold sbind, slift.
  destruct (resolveType (Some r) resolve) as [d| | |]; [by apply Hk, HP|done..].
Qed.

Lemma stops_GrowMem o s a n : stops (GrowMem realloc o s a n).
Proof.
  intros w mem. unfold GrowMem, Grow. destruct (Call realloc) as [call|] eqn:Ec; [|done].
  pose proof (Hcall call w o s a n eq_refl). by destruct (call w o s a n) as [w' [p| | |]].
Qed.
Lemma stops_put lo hi bytes : stops (put_span lo hi bytes : ST G unit).
Proof. intros w mem. unfold put_span. repeat case_match; done. Qed.
Lemma stops_checkAllocated p n : stops (checkAllocated p n : ST G unit).
Proof. unfold checkAllocated. auto with go. Qed.
Lemma stops_storeInt ptr v n : stops (storeInt ptr v n : ST G unit).
Proof.
  unfold storeInt. apply stops_bind; [done|]. intros len. apply stops_if; [done|].
  destruct (match v with VU32 n => _ | _ => _ end); [|done]. apply stops_if; [apply stops_put|done].
Qed.
Hint Resolve stops_GrowMem stops_put stops_checkAllocated stops_storeInt : go.

Lemma stops_alloc_copy bytes n : stops (alloc_copy realloc bytes n).
Proof. unfold alloc_copy. auto 8 with go. Qed.
Hint Resolve stops_alloc_copy : go.

Lemma stops_put_elems enc lo hi size i vs : (∀ e, ends (enc e)) → stops (put_elems enc lo hi size i vs : ST G unit).
Proof. intros He. revert i. induction vs as [|v vs IH]; intros i; cbn; auto 8 with go. Qed.

Lemma ends_putChar e : ends (putChar e).
Proof. unfold putChar. auto with go. Qed.

Lemma stops_encode vs size align enc : (∀ e, ends (enc e)) → stops (encodeScalarList realloc vs size align enc).
Proof. intros He. unfold encodeScalarList. apply stops_if; [done|]. auto 8 using stops_put_elems with go. Qed.

Lemma stops_storeScalarList v p m : storeScalarList realloc v p = Some m → stops m.
Proof.
  destruct p; try done; intros (l & _ & ->)%fmap_Some_1; try (apply stops_encode; by auto using ends_putChar).
  unfold allocStoreBytes. auto with go.
Qed.

Lemma stops_fixedSpan ptr n size l : stops (fixedSpan ptr n size l : ST G (Z * Z)).
Proof. unfold fixedSpan. auto 8 with go. Qed.

Lemma stops_storeFixedScalars ptr v p n size m : storeFixedScalars ptr v p n size = Some m → stops (m : ST G unit).
Proof.
  destruct p; try done; intros (l & _ & ->)%fmap_Some_1;
    (apply stops_bind; [apply stops_fixedSpan|]; intros [lo hi];
     first [apply stops_put|apply stops_put_elems; intros e; by auto using ends_putChar]).
Qed.

Lemma stops_storePrimitive ptr p v : stops (storePrimitive realloc ptr p v).
Proof.
  destruct p; cbn [storePrimitive]; destruct v; auto with go.
  unfold storeString, allocStoreString. apply stops_bind; [auto with go|]. intros [q n]. auto with go.
Qed.

Section walk.
Context (resolve : Resolver) (P : TypeDesc → Prop) (al sz : TypeDesc → res Z).
Context (rec : Z → TypeDesc → Value → Z → ST G unit).
Hypothesis Hal : ∀ d, P d → ends (al d).
Hypothesis Hsz : ∀ d, P d → ends (sz d).
Hypothesis Hrec : ∀ d, P d → ∀ ptr v a, stops (rec ptr d v a).

Lemma stops_store_elems t ptr size align i l : P t → stops (store_elems rec t ptr size align i l).
Proof. intros Ht. revert i. induction l as [|v l IH]; intros i; cbn; auto 6 with go. Qed.

Lemma stops_storeList ptr v t : P t → stops (storeList realloc al sz rec ptr v t).
Proof.
  intros Ht. unfold storeList. apply stops_bind; [apply stops_sat|intros [q n]; auto with go].
  unfold allocStoreAnyList. destruct (match scalarPrim t with Some p => _ | None => _ end) as [m|] eqn:Em.
  - destruct (scalarPrim t); [|done]. by eapply stops_storeScalarList.
  - destruct v; auto with go. unfold allocStoreList. apply stops_bind; [auto with go|]. intros size.
    apply stops_bind; [auto with go|]. intros align. apply stops_if; [done|]. auto 8 using stops_store_elems with go.
Qed.

Lemma stops_storeFixedList ptr v n t : P t → stops (storeFixedList al sz rec ptr v n t).
Proof.
  intros Ht. unfold storeFixedList. apply stops_bind; [auto with go|]. intros align.
  apply stops_bind; [auto with go|]. intros size.
  destruct (match scalarPrim t with Some p => _ | None => _ end) as [m|] eqn:Em.
  - destruct (scalarPrim t); [|done]. by eapply stops_storeFixedScalars.
  - destruct v; auto using stops_store_elems with go.
Qed.

Lemma stops_store_fields rs vs o : leads resolve P rs → stops (store_fields resolve al sz rec rs vs o).
Proof.
  intros H. revert vs o. induction H as [|r rs Hr _ IH]; intros [|v vs] o; cbn; try done.
  assert (∀ (k : TypeDesc → ST G unit), (∀ d, P d → stops (k d)) →
    stops (let! d := slift (at_ (resolveType (Some r) resolve)) in k d)) as Hb.
  { intros k Hk w mem. pose proof (ends_resolve (Some r) resolve). unfold sbind, slift.
    destruct (resolveType (Some r) resolve); [by apply Hk, Hr|done..]. }
  apply Hb. intros d Hd. auto 8 with go.
Qed.

Lemma stops_storeVariant ptr v cs a : leads resolve P (case_types cs) → stops (storeVariant resolve al rec ptr v cs a).
Proof.
  intros H. destruct v; try done. cbn [storeVariant]. apply stops_if; [done|].
  apply stops_bind; [auto with go|]. intros size. apply stops_bind; [auto with go|]. intros _.
  apply stops_bind; [apply stops_lift, ends_if; [by apply (ends_max_align _ _ _ Hal)|done]|]. intros pa.
  destruct (cs !! Z.to_nat disc) as [c|] eqn:Ec; [|by apply stops_lift]. destruct (vc_Type c) as [r|] eqn:Er; [|done].
  eapply stops_ref.
  - unfold leads in H. rewrite list.Forall_forall in H. apply H. unfold case_types. apply list_elem_of_omap.
    exists c. split; [by eapply list_elem_of_lookup_2|done].
  - intros d Hd. destruct v; auto with go.
Qed.

Lemma stops_storeOption ptr v t a : P t → stops (storeOption al rec ptr v t a).
Proof. intros Ht. unfold storeOption. auto 8 with go. Qed.

Lemma stops_storeResult ptr v o e a : leads resolve P (omap id [o; e]) → stops (storeResult resolve al rec ptr v o e a).
Proof.
  intros H. destruct v; try done. cbn [storeResult]. apply stops_bind; [auto with go|]. intros _.
  apply stops_bind; [apply stops_lift, ends_if; [by apply (ends_alignmentResult _ _ _ Hal)|done]|]. intros ma.
  apply (leads_arms resolve P) in H as [Ho He]. unfold store_arm.
  destruct isErr; [destruct e as [r|]|destruct o as [r|]]; try done;
    (eapply stops_ref; [by apply leads_one|auto with go]).
Qed.
End walk.

Lemma stops_storeValue fuel resolve ptr t v a :
  shallow fuel resolve t = true → stops (storeValue realloc fuel resolve ptr t v a).
Proof.
  revert ptr t v a. induction fuel as [|fuel IH]; intros ptr t v a Hs; [done|].
  pose proof (ends_Alignment fuel resolve) as Hal. pose proof (ends_Size fuel resolve) as Hsz.
  pose proof (shallow_children _ _ _ Hs) as Hc.
  assert (∀ d, shallow fuel resolve d = true → ∀ ptr v a, stops (storeValue realloc fuel resolve ptr d v a)) as Hrec by auto.
  destruct t; cbn [storeValue children] in *; try done.
  - apply stops_storePrimitive.
  - destruct v; try done. unfold storeRecord. apply stops_if; [done|]. by apply (stops_store_fields _ _ _ _ _ Hal Hsz Hrec).
  - by apply (stops_storeVariant _ _ _ _ Hal Hrec).
  - eapply stops_ref; [by apply leads_one|]. intros d Hd. by apply (stops_storeList _ _ _ _ Hal Hsz Hrec).
  - eapply stops_ref; [by apply leads_one|]. intros d Hd. by apply (stops_storeFixedList _ _ _ _ Hal Hsz Hrec).
  - destruct v; try done. unfold storeTuple. apply stops_if; [done|]. by apply (stops_store_fields _ _ _ _ _ Hal Hsz Hrec).
  - cbn [shallow] in Hs. by apply (stops_storeList _ _ _ _ Hal Hsz Hrec).
  - destruct v; try done. unfold storeFlags. apply stops_bind; [apply stops_lift, ends_flags|]. auto with go.
  - destruct v; try done. unfold storeEnum. apply stops_if; [done|].
    apply stops_bind; [apply stops_lift, ends_enum|]. auto with go.
  - eapply stops_ref; [by apply leads_one|]. intros d Hd. by apply (stops_storeOption _ _ _ Hal Hrec).
  - by apply (stops_storeResult _ _ _ _ Hal Hrec).
  - destruct v; auto with go.
  - destruct v; auto with go.
  - destruct v; auto with go.
  - destruct v; auto with go.
Qed.

Lemma stops_StoreStep fuel s ptr v :
  shallow fuel (s_resolve s) (s_t s) = true → stops (StoreStep_Store realloc fuel s ptr v).
Proof. intros Hs. unfold StoreStep_Store. auto 8 using stops_storeValue with go. Qed.

Lemma stops_Spill fuel s v : shallow fuel (s_resolve s) (s_t s) = true → stops (Spill realloc fuel s v).
Proof.
  intros Hs w mem. unfold Spill.
  assert (stops (let! p := sat (GrowMem realloc 0 0 (s_align s) (s_size s)) in
                 let! _ := sat (StoreStep_Store realloc fuel s p v) in sret p)) as H
    by auto 8 using stops_StoreStep with go.
  specialize (H w mem). by destruct (sbind _ _ w mem) as [[w' mem'] r].
Qed.
End stores.
