(* ===== verification/AbiSafety.v ===== *)
(** Safety of the stores of [AbiStore]: whatever the guest's allocator returns,
    a store of a value whose lists have fewer than 2^32 elements never panics
    and never loses the live memory.

    The proofs use one program logic over the store monad: an invariant [I] of
    the world and the current view, and triples that say a computation keeps
    [I], does not panic and returns a value with a property.  The two facts
    about the machine, an allocation and a write within the view, are
    hypotheses of the logic, discharged for each invariant. *)
From Stdlib Require Import ZArith Lia String.
From stdpp Require Import base list numbers option tactics.
From S2P Require Import Prelude AbiTypes AbiLayout AbiLoad AbiStore AbiFuel.
Local Open Scope Z_scope.
Local Open Scope go_scope.

(** * Walks do not panic *)

(** The code never indexes out of range while it computes a layout. *)
Definition quiet {A} (r : res A) : Prop := r ≠ Panic.

Lemma quiet_Ok {A} (a : A) : quiet (Ok a).
Proof. done. Qed.
Lemma quiet_Err {A} e : quiet (A := A) (Err e).
Proof. done. Qed.
Lemma quiet_bind {A B} (m : res A) (k : A → res B) :
  quiet m → (∀ a, quiet (k a)) → quiet (obind m k).
Proof. unfold quiet. destruct m; cbn; auto. Qed.
Lemma quiet_if {A} (b : bool) (x y : res A) : quiet x → quiet y → quiet (if b then x else y).
Proof. by destruct b. Qed.
#[export] Hint Resolve quiet_Ok quiet_Err quiet_bind quiet_if : go.

Lemma quiet_resolve r resolve : quiet (resolveType r resolve).
Proof. unfold resolveType, quiet. repeat case_match; congruence. Qed.
Lemma quiet_at {A} (r : res A) : quiet r → quiet (at_ r).
Proof. unfold quiet. by destruct r. Qed.
Lemma quiet_alignmentPrimitive p : quiet (alignmentPrimitive p).
Proof. by destruct p. Qed.
Lemma quiet_sizePrimitive p : quiet (sizePrimitive p).
Proof. by destruct p. Qed.
#[export] Hint Resolve quiet_resolve quiet_at quiet_alignmentPrimitive quiet_sizePrimitive : go.

Section quiet.
Variable resolve : Resolver.
Variables al sz : TypeDesc → res Z.
Hypothesis Hal : ∀ t, quiet (al t).
Hypothesis Hsz : ∀ t, quiet (sz t).

Lemma quiet_max_align rs m : quiet (max_align_loop resolve al rs m).
Proof. revert m; induction rs; intros m; cbn; auto 6 with go. Qed.
Lemma quiet_max_size rs m : quiet (max_size_loop resolve sz rs m).
Proof. revert m; induction rs; intros m; cbn; auto 6 with go. Qed.
Lemma quiet_fields rs o : quiet (size_fields_loop resolve al sz rs o).
Proof. revert o; induction rs; intros o; cbn; auto 8 with go. Qed.
Lemma quiet_arm_align r m : quiet (arm_align resolve al r m).
Proof. destruct r; cbn; auto with go. Qed.
Lemma quiet_arm_size r m : quiet (arm_size resolve al sz r m).
Proof. destruct r; cbn; auto with go. Qed.
Hint Resolve quiet_max_align quiet_max_size quiet_fields quiet_arm_align quiet_arm_size : go.

Lemma quiet_MaxCaseAlignment cs : quiet (MaxCaseAlignment resolve al cs).
Proof. unfold MaxCaseAlignment. auto with go. Qed.
Lemma quiet_alignmentResult o e : quiet (alignmentResult resolve al o e).
Proof. unfold alignmentResult. auto 8 with go. Qed.
End quiet.
#[export] Hint Resolve quiet_max_align quiet_max_size quiet_fields quiet_arm_align quiet_arm_size
  quiet_MaxCaseAlignment quiet_alignmentResult : go.

Lemma quiet_Alignment fuel resolve t : quiet (Alignment fuel resolve t).
Proof.
  revert t; induction fuel as [|fuel IH]; intros t; [done|].
  destruct t; cbn; unfold alignmentList, alignmentFixedList, alignmentRecord, alignmentVariant, alignmentTuple,
    alignmentFlags, alignmentFlagsNumLabels, alignmentEnum, alignmentOption; auto 8 with go.
Qed.
#[export] Hint Resolve quiet_Alignment : go.

Lemma quiet_sizeFlags n : quiet (sizeFlagsNumLabels n).
Proof. unfold sizeFlagsNumLabels. auto 8 with go. Qed.
Lemma quiet_sizeEnum n : quiet (sizeEnumNumCases n).
Proof. unfold sizeEnumNumCases. auto 8 with go. Qed.
#[export] Hint Resolve quiet_sizeFlags quiet_sizeEnum : go.

Lemma quiet_Size fuel resolve t : quiet (Size fuel resolve t).
Proof.
  revert t; induction fuel as [|fuel IH]; intros t; [done|].
  destruct t; cbn; unfold sizeList, sizeFixedList, sizeRecord, sizeVariant, sizeTuple,
    alignmentRecord, alignmentTuple, sizeFlags, sizeEnum, sizeOption, sizeResult; auto 12 with go.
  apply quiet_bind; [auto with go|]. intros acc. apply quiet_bind; [auto with go|]. by intros [].
Qed.
#[export] Hint Resolve quiet_Size : go.

(** * The program logic *)

(** Lists of fewer than 2^32 elements, all the way down. *)
Fixpoint small (v : Value) : bool :=
  match v with
  | VList l => (zlen l <? 2 ^ 32) && forallb small l
  | VSlice _ l => zlen l <? 2 ^ 32
  | VVariant _ p | VResult _ p => small p
  | _ => true
  end.

Section logic.
Context {G : Type} (realloc : Realloc G).
Variable I : world G → view → Prop.

(** [m] does not panic; where it returns, it keeps the invariant and its value
    has [Q]. *)
Definition triple {A} (m : ST G A) (Q : A → Prop) : Prop :=
  ∀ w mem, I w mem →
    match m w mem with
    | (w', mem', Ok a) => I w' mem' ∧ Q a
    | (_, _, Panic) => False
    | _ => True
    end.

(** A view has a 32-bit address space; a write within the view and an
    allocation keep the invariant, and the allocator returns a [uint32]. *)
Hypothesis I_len : ∀ w mem, I w mem → 0 ≤ v_len mem ≤ 2 ^ 32.
Hypothesis I_put : ∀ w mem lo hi bytes,
  I w mem → 0 ≤ lo → lo ≤ hi → hi ≤ v_len mem →
  ∃ w', put_span lo hi bytes w mem = (w', mem, Ok tt) ∧ I w' mem.
Hypothesis I_grow : ∀ align size, triple (GrowMem realloc 0 0 align size) (λ p, 0 ≤ p < 2 ^ 32).

Lemma triple_weaken {A} (m : ST G A) (P Q : A → Prop) :
  triple m P → (∀ a, P a → Q a) → triple m Q.
Proof.
  intros Hm HPQ w mem Hi. specialize (Hm w mem Hi). destruct (m w mem) as [[w' mem'] []]; try done.
  destruct Hm as [? Hr]. auto.
Qed.

Lemma triple_bind {A B} (m : ST G A) (k : A → ST G B) (P : A → Prop) (Q : B → Prop) :
  triple m P → (∀ a, P a → triple (k a) Q) → triple (sbind m k) Q.
Proof.
  intros Hm Hk w mem Hi. specialize (Hm w mem Hi). unfold sbind.
  destruct (m w mem) as [[w' mem'] [a|e| |]]; try done. destruct Hm as [Hi' Hr]. by apply Hk.
Qed.

Lemma triple_ret {A} (a : A) (Q : A → Prop) : Q a → triple (sret a) Q.
Proof. by intros HQ w mem Hi. Qed.

Lemma triple_err {A} e (Q : A → Prop) : triple (serr e) Q.
Proof. by intros w mem Hi. Qed.

Lemma triple_lift {A} (r : res A) : quiet r → triple (slift r) (λ a, r = Ok a).
Proof. intros Hq w mem Hi. cbn. by destruct r. Qed.

Lemma triple_sat {A} (m : ST G A) (Q : A → Prop) : triple m Q → triple (sat m) Q.
Proof.
  intros Hm w mem Hi. specialize (Hm w mem Hi). unfold sat. destruct (m w mem) as [[w' mem'] r].
  by destruct r.
Qed.

Lemma triple_if {A} (b : bool) (x y : ST G A) Q :
  triple x Q → triple y Q → triple (if b then x else y) Q.
Proof. by destruct b. Qed.

(** A bounds check followed by writes within the bounds. *)
Lemma guard_bounds ptr n len :
  0 ≤ ptr < 2 ^ 32 → 0 ≤ n < 2 ^ 32 → 0 ≤ len →
  (u32 (ptr + n) <? ptr) || (u32 len <? u32 (ptr + n)) = false →
  u32 (ptr + n) = ptr + n ∧ ptr + n ≤ len.
Proof.
  intros Hp Hn Hl [H1 H2]%orb_false_iff. apply Z.ltb_ge in H1, H2.
  assert (u32 (ptr + n) = ptr + n) as E.
  { unfold wrap in *. destruct (Z.lt_ge_cases (ptr + n) (2 ^ 32)); [by apply Z.mod_small; lia|].
    rewrite (Z.mod_eq (ptr + n) (2 ^ 32)) in H1 by lia.
    assert ((ptr + n) / 2 ^ 32 = 1) as Ed by (symmetry; apply Z.div_unique with (ptr + n - 2 ^ 32); lia).
    rewrite Ed in H1. lia. }
  split; [done|]. rewrite E in H2. unfold wrap in H2.
  pose proof (Z.mod_le len (2 ^ 32)). lia.
Qed.

Lemma triple_storeInt ptr v n :
  0 ≤ ptr < 2 ^ 32 → 0 ≤ n < 2 ^ 32 → triple (storeInt ptr v n) (λ _, True).
Proof.
  intros Hp Hn w mem Hi. pose proof (I_len w mem Hi). unfold storeInt, sbind, slen.
  destruct ((u32 (ptr + n) <? ptr) || (u32 (v_len mem) <? u32 (ptr + n))) eqn:Hg; [done|].
  apply guard_bounds in Hg as [E Hle]; [|lia..].
  match goal with |- context [match ?x with Some _ => _ | None => _ end] => destruct x as [u|]; [|done] end.
  destruct ((n =? 1) || (n =? 2) || (n =? 4) || (n =? 8)); [|done].
  destruct (I_put w mem ptr (u32 (ptr + n)) (le_encode (Z.to_nat n) u) Hi) as (w' & E' & Hi'); [lia..|].
  by rewrite E'.
Qed.

Lemma triple_alloc_copy bytes n :
  0 ≤ n < 2 ^ 32 → triple (alloc_copy realloc bytes n) (λ '(p, n'), 0 ≤ p < 2 ^ 32 ∧ n' = n).
Proof.
  intros Hn. unfold alloc_copy. eapply triple_bind; [by apply triple_sat, I_grow|].
  intros p Hp w mem Hi. cbn beta in Hp. pose proof (I_len w mem Hi). unfold checkAllocated, sbind, slen.
  destruct ((u32 (p + n) <? p) || (u32 (v_len mem) <? u32 (p + n))) eqn:Hg; [done|].
  apply guard_bounds in Hg as [E Hle]; [|lia..]. unfold sret.
  destruct (I_put w mem p (u32 (p + n)) bytes Hi) as (w' & E' & Hi'); [lia..|]. by rewrite E'.
Qed.

(** An encoder that always writes [size] bytes. *)
Definition encodes (enc : Z → res (list Z)) (size : Z) : Prop :=
  ∀ e, quiet (enc e) ∧ ∀ b, enc e = Ok b → zlen b = size.

Lemma put_elems_safe enc lo hi size vs i w mem :
  encodes enc size → 0 < size → 0 ≤ i → 0 ≤ lo → hi ≤ v_len mem → hi - lo ≤ 2 ^ 32 →
  (i + zlen vs) * size ≤ hi - lo → i + zlen vs ≤ 2 ^ 32 → I w mem →
  ∃ w' r, put_elems enc lo hi size i vs w mem = (w', mem, r) ∧ I w' mem ∧ quiet r.
Proof.
  intros Henc Hs. revert i w. induction vs as [|v vs IH]; intros i w Hi Hlo Hhi Hmax Hfit Hcnt HI.
  { do 2 eexists. split_and!; [done|done|]. done. }
  cbn [put_elems]. rewrite zlen_cons in *. pose proof (zlen_nonneg vs).
  unfold sbind at 1, slift at 1. destruct (Henc v) as [Hq Hlen].
  destruct (enc v) as [b|e| |] eqn:Ev; try (do 2 eexists; by split_and!).
  specialize (Hlen b eq_refl).
  assert (u32 (u32 i * size) = i * size) as Eoff.
  { rewrite (wrap_small 32 i) by lia. apply wrap_small. nia. }
  rewrite Eoff, Hlen. rewrite (proj2 (Z.ltb_ge (hi - lo) _)) by nia.
  destruct (I_put w mem (lo + i * size) (lo + i * size + size) b HI) as (w' & E' & HI'); [nia..|].
  unfold sbind at 1. rewrite E'. apply IH; try done; lia.
Qed.

Lemma triple_encodeScalarList vs size align enc :
  encodes enc size → 0 < size < 2 ^ 32 → zlen vs < 2 ^ 32 →
  triple (encodeScalarList realloc vs size align enc) (λ '(p, n), 0 ≤ p < 2 ^ 32 ∧ 0 ≤ n < 2 ^ 32).
Proof.
  intros Henc Hs Hvs. pose proof (zlen_nonneg vs). unfold encodeScalarList.
  rewrite (wrap_small 32 (zlen vs)) by lia. unfold too_long.
  rewrite (proj2 (Z.eqb_neq size 0)) by lia. cbn [negb andb].
  destruct (Z.ltb_spec (MaxUint32 / size) (zlen vs)) as [Hbig|Hok]; [apply triple_err|].
  assert (zlen vs * size < 2 ^ 32) as Hprod.
  { pose proof (Z.mul_div_le MaxUint32 size ltac:(lia)). unfold MaxUint32 in *. nia. }
  rewrite (wrap_small 32 (zlen vs * size)) by nia. set (n := zlen vs * size) in *.
  eapply triple_bind; [by apply triple_sat, I_grow|].
  intros p Hp w mem Hi. cbn beta in Hp. pose proof (I_len w mem Hi). unfold checkAllocated, sbind, slen.
  destruct ((u32 (p + n) <? p) || (u32 (v_len mem) <? u32 (p + n))) eqn:Hg; [done|].
  apply guard_bounds in Hg as [E Hle]; [|lia|nia|lia]. unfold sret. rewrite E.
  destruct (put_elems_safe enc p (p + n) size vs 0 w mem) as (w' & r & E' & HI' & Hq); try done; try lia.
  rewrite E'. by destruct r.
Qed.

Lemma triple_fixed ptr n size l :
  0 ≤ ptr < 2 ^ 32 → 0 ≤ l < 2 ^ 32 → 0 ≤ size < 2 ^ 32 →
  ∀ w mem, I w mem →
  (∃ e, fixedSpan ptr n size l w mem = (w, mem, Err e)) ∨
  (fixedSpan ptr n size l w mem = (w, mem, Ok (ptr, ptr + n * size)) ∧ l = n ∧ ptr + n * size ≤ v_len mem).
Proof.
  intros Hp Hn Hs w mem Hi. unfold fixedSpan, sbind, slen.
  destruct (Z.eqb_spec l n) as [->|]; cbn [negb]; [|by left; eexists].
  rewrite (wrap_small 64 (n * size)), (wrap_small 64) by nia.
  destruct (Z.ltb_spec (v_len mem) (ptr + n * size)); [by left; eexists|]. by right.
Qed.

Lemma triple_putFixed ptr n size enc vs :
  encodes enc size → 0 < size < 2 ^ 32 → 0 ≤ ptr < 2 ^ 32 → zlen vs < 2 ^ 32 →
  triple (putFixed ptr n size enc vs) (λ _, True).
Proof.
  intros Henc Hs Hp Hn w mem Hi. unfold putFixed, sbind. pose proof (I_len w mem Hi).
  pose proof (zlen_nonneg vs).
  destruct (triple_fixed ptr n size (zlen vs) Hp ltac:(lia) ltac:(lia) w mem Hi) as [[e ->]|(-> & El & Hle)]; [done|].
  destruct (put_elems_safe enc ptr (ptr + n * size) size vs 0 w mem) as (w' & r & E' & HI' & Hq); try done; try nia.
  rewrite E'. by destruct r.
Qed.

Lemma encodes_le n (f : Z → Z) : encodes (λ e, Ok (le_encode n (f e))) (Z.of_nat n).
Proof. intros e. split; [done|]. intros b [= <-]. apply zlen_le_encode. Qed.

Lemma quiet_check_rune e : quiet (check_rune e).
Proof. unfold check_rune. auto with go. Qed.

Lemma encodes_char : encodes putChar 4.
Proof.
  intros e. unfold putChar. split; [auto using quiet_check_rune with go|].
  intros b H. go_inv. apply (zlen_le_encode 4).
Qed.

Lemma encodes_bool : encodes putBool 1.
Proof. intros e. split; [done|]. by intros b [= <-]. Qed.

Lemma as_slice_small v k l : small v = true → as_slice v k = Some l → zlen l < 2 ^ 32.
Proof.
  unfold as_slice. destruct v; try done. case_decide; [|done]. cbn. intros Hlt%Z.ltb_lt. by intros [= <-].
Qed.

(** The encoder of each primitive, with its width. *)
Ltac solve_encodes :=
  first [ exact encodes_char | exact encodes_bool | exact (encodes_le 1 id) | exact (encodes_le 2 id)
        | exact (encodes_le 2 (wrap 16)) | exact (encodes_le 4 id) | exact (encodes_le 4 (wrap 32))
        | exact (encodes_le 8 id) | exact (encodes_le 8 (wrap 64)) ].

Lemma triple_storeScalarList v p m :
  small v = true → storeScalarList realloc v p = Some m →
  triple m (λ '(p, n), 0 ≤ p < 2 ^ 32 ∧ 0 ≤ n < 2 ^ 32).
Proof.
  intros Hv. unfold storeScalarList.
  destruct p; try done; intros (l & Hl & ->)%fmap_Some_1; apply (as_slice_small _ _ _ Hv) in Hl;
    try (apply triple_encodeScalarList; [solve_encodes|lia|done]).
  unfold allocStoreBytes. apply triple_if; [apply triple_err|].
  pose proof (zlen_nonneg l). eapply triple_weaken; [apply triple_alloc_copy; rewrite wrap_small; lia|].
  cbn beta. intros [p n] [? ->]. split; [done|]. apply wrap_range. lia.
Qed.

Lemma triple_storeFixedScalars ptr v p n size m :
  small v = true → 0 ≤ ptr < 2 ^ 32 → sizePrimitive p = Ok size →
  storeFixedScalars ptr v p n size = Some m → triple m (λ _, True).
Proof.
  intros Hv Hp Hs. unfold storeFixedScalars.
  destruct p; try done; cbn in Hs; injection Hs as <-;
    intros (l & Hl & ->)%fmap_Some_1; apply (as_slice_small _ _ _ Hv) in Hl;
    try (apply triple_putFixed; [solve_encodes|lia|done|done]).
  intros w mem Hi. unfold sbind. pose proof (zlen_nonneg l).
  destruct (triple_fixed ptr n 1 (zlen l) Hp ltac:(lia) ltac:(lia) w mem Hi) as [[e ->]|(-> & El & Hle)]; [done|].
  destruct (I_put w mem ptr (ptr + n * 1) l Hi) as (w' & E' & Hi'); [lia..|]. by rewrite E'.
Qed.

Lemma u32_range x : 0 ≤ u32 x < 2 ^ 32.
Proof. apply wrap_range. lia. Qed.

Lemma Align_range x a : 0 ≤ x < 2 ^ 32 → 0 ≤ Align x a < 2 ^ 32.
Proof. intros Hx. unfold Align. case_match; [done|apply u32_range]. Qed.
Hint Resolve u32_range Align_range triple_err triple_sat : go.

Lemma triple_storeString ptr s :
  0 ≤ ptr < 2 ^ 32 → triple (storeString realloc ptr s) (λ _, True).
Proof.
  intros Hp. unfold storeString, allocStoreString. eapply triple_bind.
  - apply triple_sat, triple_if; [apply triple_err|]. apply triple_alloc_copy, u32_range.
  - intros [p n] _. eapply triple_bind; [apply triple_sat, triple_storeInt; lia|].
    intros _ _. apply triple_sat, triple_storeInt; [apply u32_range|lia].
Qed.

Lemma triple_storePrimitive ptr p v :
  0 ≤ ptr < 2 ^ 32 → triple (storePrimitive realloc ptr p v) (λ _, True).
Proof.
  intros Hp. destruct p; cbn [storePrimitive intByteSize]; destruct v; try apply triple_err;
    try (apply triple_storeInt; lia); try (by apply triple_storeString).
  eapply triple_bind; [apply triple_lift, quiet_check_rune|]. intros. apply triple_storeInt; lia.
Qed.

Section walk.
Variable resolve : Resolver.
Variables al sz : TypeDesc → res Z.
Variable rec : Z → TypeDesc → Value → Z → ST G unit.
Hypothesis Hal : ∀ t, quiet (al t).
Hypothesis Hsz : ∀ t, quiet (sz t).
Hypothesis Hprim : ∀ p s, sz (PrimitiveDesc p) = Ok s → sizePrimitive p = Ok s.
Hypothesis Hrec : ∀ ptr t v a, 0 ≤ ptr < 2 ^ 32 → small v = true → triple (rec ptr t v a) (λ _, True).

Lemma triple_store_elems t ptr size align i l :
  forallb small l = true → triple (store_elems rec t ptr size align i l) (λ _, True).
Proof.
  revert i; induction l as [|v l IH]; intros i; cbn; [by intros _; apply triple_ret|].
  intros [Hv Hl]%andb_true_iff. eapply triple_bind; [apply triple_sat, Hrec; [apply u32_range|done]|].
  intros _ _. by apply IH.
Qed.

Lemma triple_allocStoreList l t :
  forallb small l = true →
  triple (allocStoreList realloc al sz rec l t) (λ '(p, n), 0 ≤ p < 2 ^ 32 ∧ 0 ≤ n < 2 ^ 32).
Proof.
  intros Hl. unfold allocStoreList.
  eapply triple_bind; [by apply triple_lift|]. intros size _.
  eapply triple_bind; [by apply triple_lift|]. intros align _.
  apply triple_if; [apply triple_err|].
  eapply triple_bind; [by apply triple_sat, I_grow|]. cbn beta. intros p Hp.
  eapply triple_bind with (P := λ _, True).
  { unfold checkAllocated. eapply triple_bind with (P := λ _, True); [by intros w mem Hi|]. intros len _.
    apply triple_if; [apply triple_err|by apply triple_ret]. }
  intros _ _. eapply triple_bind; [by apply triple_store_elems|]. intros _ _.
  apply triple_ret. split; [done|apply u32_range].
Qed.

Lemma triple_storeList ptr v t :
  0 ≤ ptr < 2 ^ 32 → small v = true → triple (storeList realloc al sz rec ptr v t) (λ _, True).
Proof.
  intros Hp Hv. unfold storeList. eapply triple_bind.
  - apply triple_sat. unfold allocStoreAnyList.
    destruct (match scalarPrim t with Some prim => storeScalarList realloc v prim | None => None end) as [m|] eqn:Em.
    + destruct (scalarPrim t); [|done]. by apply (triple_storeScalarList v p).
    + destruct v; try apply triple_err. cbn in Hv. apply andb_true_iff in Hv as [_ Hv]. by apply triple_allocStoreList.
  - intros [p n] _. eapply triple_bind; [apply triple_storeInt; lia|].
    intros _ _. apply triple_storeInt; [apply u32_range|lia].
Qed.

Lemma triple_storeFixedList ptr v n t :
  0 ≤ ptr < 2 ^ 32 → small v = true → triple (storeFixedList al sz rec ptr v n t) (λ _, True).
Proof.
  intros Hp Hv. unfold storeFixedList.
  eapply triple_bind; [by apply triple_lift|]. intros align _.
  eapply triple_bind; [by apply triple_lift|]. intros size Esz.
  destruct (match scalarPrim t with Some prim => storeFixedScalars ptr v prim n size | None => None end) as [m|] eqn:Em.
  - destruct t; try done. cbn in Em. eapply triple_storeFixedScalars; eauto.
  - destruct v; try apply triple_err. cbn in Hv. apply andb_true_iff in Hv as [_ Hv].
    apply triple_if; [apply triple_err|]. by apply triple_store_elems.
Qed.

Lemma triple_store_fields rs vs o :
  List.length vs = List.length rs → forallb small vs = true → 0 ≤ o < 2 ^ 32 →
  triple (store_fields resolve al sz rec rs vs o) (λ _, True).
Proof.
  revert vs o; induction rs as [|r rs IH]; intros [|v vs] o Hlen; try done; cbn.
  injection Hlen as Hlen. intros [Hv Hvs]%andb_true_iff Ho.
  eapply triple_bind; [apply triple_lift; auto with go|]. intros t _.
  eapply triple_bind; [by apply triple_lift|]. intros a _.
  eapply triple_bind; [apply triple_sat, Hrec; [by apply Align_range|done]|]. intros _ _.
  eapply triple_bind; [by apply triple_lift|]. intros s _. apply IH; [done..|apply u32_range].
Qed.

Lemma triple_storeVariant ptr v cs a :
  0 ≤ ptr < 2 ^ 32 → small v = true → triple (storeVariant resolve al rec ptr v cs a) (λ _, True).
Proof.
  intros Hp Hv. destruct v; try apply triple_err. cbn [storeVariant].
  destruct (OutOfRange disc (zlen cs)) eqn:Hor; [apply triple_err|].
  eapply triple_bind; [apply triple_lift; auto with go|]. intros size Es.
  assert (0 ≤ size < 2 ^ 32) as Hs.
  { revert Es. destruct (DiscriminantType (zlen cs)); cbn; intros [= <-]; lia. }
  eapply triple_bind; [by apply triple_storeInt|]. intros _ _.
  eapply triple_bind; [apply triple_lift, quiet_if; auto with go|]. intros pa _.
  destruct (cs !! Z.to_nat disc) as [c|] eqn:Ec.
  2: { exfalso. apply lookup_ge_None in Ec. unfold OutOfRange, zlen in Hor. apply Z.leb_gt in Hor.
       destruct cs; [by cbn in Es|cbn in *; lia]. }
  destruct (vc_Type c) as [r|]; [|by apply triple_ret].
  eapply triple_bind; [apply triple_lift; auto with go|]. intros t _.
  destruct v; try apply triple_err; (apply triple_sat, Hrec; [apply Align_range, u32_range|done]).
Qed.

Lemma triple_storeOption ptr v t a :
  0 ≤ ptr < 2 ^ 32 → small v = true → triple (storeOption al rec ptr v t a) (λ _, True).
Proof.
  intros Hp Hv. unfold storeOption. eapply triple_bind; [apply triple_storeInt; lia|]. intros _ _.
  eapply triple_bind; [apply triple_lift, quiet_if; auto with go|]. intros ea _.
  apply triple_if; [|by apply triple_ret]. apply triple_sat, Hrec; [apply Align_range, u32_range|done].
Qed.

Lemma triple_storeResult ptr v o e a :
  0 ≤ ptr < 2 ^ 32 → small v = true → triple (storeResult resolve al rec ptr v o e a) (λ _, True).
Proof.
  intros Hp Hv. destruct v; try apply triple_err. cbn [storeResult].
  eapply triple_bind; [apply triple_storeInt; lia|]. intros _ _.
  eapply triple_bind; [apply triple_lift, quiet_if; auto with go|]. intros ma _.
  unfold store_arm. destruct (if isErr then e else o) as [r|]; [|by apply triple_ret].
  eapply triple_bind; [apply triple_lift; auto with go|]. intros t _.
  apply triple_sat, Hrec; [apply Align_range, u32_range|done].
Qed.
End walk.

(** Every store keeps the invariant and does not panic. *)
Lemma triple_storeValue fuel resolve ptr t v a :
  0 ≤ ptr < 2 ^ 32 → small v = true → triple (storeValue realloc fuel resolve ptr t v a) (λ _, True).
Proof.
  revert ptr t v a; induction fuel as [|fuel IH]; intros ptr t v a Hp Hv; [by intros w mem Hi|].
  assert (∀ p s, Size fuel resolve (PrimitiveDesc p) = Ok s → sizePrimitive p = Ok s) as Hprim
    by (intros p s; destruct fuel; [done|auto]).
  pose proof (quiet_Alignment fuel resolve) as Hal. pose proof (quiet_Size fuel resolve) as Hsz.
  destruct t; cbn [storeValue]; try apply triple_err.
  - by apply triple_storePrimitive.
  - destruct v; try apply triple_err. unfold storeRecord.
    destruct (Z.eqb_spec (zlen l) (zlen fields)) as [E|]; cbn [negb]; [|apply triple_err].
    cbn in Hv. apply andb_true_iff in Hv as [_ Hv]. apply triple_store_fields; try done.
    rewrite length_fmap. unfold zlen in E. lia.
  - by apply triple_storeVariant.
  - eapply triple_bind; [apply triple_lift; auto with go|]. intros e _. by apply triple_storeList.
  - eapply triple_bind; [apply triple_lift; auto with go|]. intros e _. by apply triple_storeFixedList.
  - destruct v; try apply triple_err. unfold storeTuple.
    destruct (Z.eqb_spec (zlen l) (zlen elements)) as [E|]; cbn [negb]; [|apply triple_err].
    cbn in Hv. apply andb_true_iff in Hv as [_ Hv]. apply triple_store_fields; try done.
    unfold zlen in E. lia.
  - by apply triple_storeList.
  - destruct v; try apply triple_err. cbn [storeFlags].
    eapply triple_bind; [apply triple_lift; auto with go|]. intros s Hs.
    apply triple_storeInt; [done|]. unfold sizeFlagsNumLabels in Hs. go_inv; lia.
  - destruct v; try apply triple_err. cbn [storeEnum]. apply triple_if; [apply triple_err|].
    eapply triple_bind; [apply triple_lift; auto with go|]. intros s Hs.
    apply triple_storeInt; [done|]. unfold sizeEnumNumCases in Hs.
    destruct (DiscriminantType (zlen cases)); cbn in Hs; go_inv; lia.
  - eapply triple_bind; [apply triple_lift; auto with go|]. intros e _. by apply triple_storeOption.
  - by apply triple_storeResult.
  - destruct v; try apply triple_err. apply triple_storeInt; lia.
  - destruct v; try apply triple_err. apply triple_storeInt; lia.
  - destruct v; try apply triple_err. apply triple_storeInt; lia.
  - destruct v; try apply triple_err. apply triple_storeInt; lia.
Qed.

Lemma triple_StoreStep fuel s ptr v :
  0 ≤ ptr < 2 ^ 32 → small v = true → triple (StoreStep_Store realloc fuel s ptr v) (λ _, True).
Proof.
  intros Hp Hv. unfold StoreStep_Store. apply triple_if; [apply triple_err|].
  eapply triple_bind with (P := λ _, True); [by intros w mem Hi|]. intros len _.
  apply triple_if; [apply triple_err|]. by apply triple_storeValue.
Qed.
End logic.

(** * What the runtime promises a store *)

(** A view of an existing array, of at most 4 GiB. *)
Definition view_ok {G} (w : world G) (mem : view) : Prop :=
  (v_arr mem < List.length (arrays w))%nat ∧ 0 ≤ v_len mem ≤ 2 ^ 32.

(** The allocator may do anything the guest can: move the memory, write to it,
    return any pointer, fail; it returns.  In the states [winv] describes, which the host's
    writes do not leave, the live memory exists, a backing array stays while a
    view refers to it, and a pointer is a [uint32]. *)
Class SaneRealloc {G} (realloc : Realloc G) (winv : world G → Prop) : Prop := {
  sane_live : ∀ w, winv w → view_ok w (live w);
  sane_write : ∀ w arrs, winv w → List.length arrs = List.length (arrays w) →
    winv (mkWorld arrs (live w) (guest w));
  sane_call : ∀ call w o s a n w' r,
    winv w → Call realloc = Some call → call w o s a n = (w', r) →
    winv w' ∧ (List.length (arrays w) ≤ List.length (arrays w'))%nat ∧
    r ≠ Panic ∧ ∀ p, r = Ok p → 0 ≤ p < 2 ^ 32;
  sane_returns : ∀ call w o s a n, Call realloc = Some call → (call w o s a n).2 ≠ NoFuel;
  sane_mem : ∀ f w, Mem realloc = Some f → f w = Some (live w);
}.

Section sane.
Context {G : Type} (realloc : Realloc G) (winv : world G → Prop) `{!SaneRealloc realloc winv}.

Lemma put_span_ok (w : world G) mem lo hi bytes :
  winv w → view_ok w mem → 0 ≤ lo → lo ≤ hi → hi ≤ v_len mem →
  ∃ w', put_span lo hi bytes w mem = (w', mem, Ok tt) ∧ winv w' ∧ view_ok w' mem ∧ live w' = live w.
Proof.
  intros Hw [Ha Hl] H1 H2 H3. unfold put_span.
  rewrite (proj2 (Z.leb_le 0 lo)), (proj2 (Z.leb_le lo hi)), (proj2 (Z.leb_le hi _)) by lia. cbn [andb].
  destruct (lookup_lt_is_Some_2 (arrays w) (v_arr mem) Ha) as [x ->].
  eexists. split; [done|]. split; [|split; [|done]].
  - apply sane_write; [done|]. apply length_insert.
  - unfold view_ok. cbn. by rewrite length_insert.
Qed.

(** The states in which a function runs: its view is of an existing array. *)
Definition viewing (w : world G) (mem : view) : Prop := winv w ∧ view_ok w mem.

(** The states in which its view is the live memory. *)
Definition viewing_live (w : world G) (mem : view) : Prop := winv w ∧ mem = live w.

Lemma GrowMem_ok align size :
  triple viewing (GrowMem realloc 0 0 align size) (λ p, 0 ≤ p < 2 ^ 32).
Proof.
  intros w mem [Hw Hv]. unfold GrowMem, Grow. destruct (Call realloc) as [call|] eqn:Ec; [|done].
  destruct (call w 0 0 align size) as [w' r] eqn:Er.
  destruct (sane_call call w 0 0 align size w' r Hw Ec Er) as (Hw' & Hlen & Hq & Hp).
  destruct r as [p|e| |]; try done. split; [|by apply Hp]. split; [done|].
  destruct (Mem realloc) as [f|] eqn:Em.
  - rewrite (sane_mem f w' Em). by apply sane_live.
  - destruct Hv. unfold view_ok. lia.
Qed.

Lemma GrowMem_live align size :
  is_Some (Mem realloc) →
  triple viewing_live (GrowMem realloc 0 0 align size) (λ p, 0 ≤ p < 2 ^ 32).
Proof.
  intros [f Em] w mem [Hw _]. unfold GrowMem, Grow. destruct (Call realloc) as [call|] eqn:Ec; [|done].
  destruct (call w 0 0 align size) as [w' r] eqn:Er.
  destruct (sane_call call w 0 0 align size w' r Hw Ec Er) as (Hw' & Hlen & Hq & Hp).
  destruct r as [p|e| |]; try done. split; [|by apply Hp].
  rewrite Em, (sane_mem f w' Em). done.
Qed.

Lemma Store_triple fuel s ptr v :
  0 ≤ ptr < 2 ^ 32 → small v = true →
  triple viewing (StoreStep_Store realloc fuel s ptr v) (λ _, True).
Proof.
  intros Hp Hv. apply triple_StoreStep; try done.
  - by intros w mem [_ []].
  - intros w mem lo hi bytes [Hw Hi] H1 H2 H3.
    destruct (put_span_ok w mem lo hi bytes Hw Hi H1 H2 H3) as (w' & E & ? & ? & _). by exists w'.
  - apply GrowMem_ok.
Qed.

Lemma Store_triple_live fuel s ptr v :
  is_Some (Mem realloc) → 0 ≤ ptr < 2 ^ 32 → small v = true →
  triple viewing_live (StoreStep_Store realloc fuel s ptr v) (λ _, True).
Proof.
  intros Hm Hp Hv. apply triple_StoreStep; try done.
  - intros w mem [Hw ->]. by apply sane_live.
  - intros w mem lo hi bytes [Hw ->] H1 H2 H3.
    destruct (put_span_ok w (live w) lo hi bytes Hw (sane_live w Hw) H1 H2 H3) as (w' & E & Hw' & _ & El).
    exists w'. split; [done|]. by split.
  - intros. by apply GrowMem_live.
Qed.
End sane.

(** * A concrete guest: a bump allocator that moves the memory when it grows *)

Definition bump_call (limit : Z) (w : world Z) (_ _ align size : Z) : world Z * res Z :=
  let p := align_to (guest w) (Z.max 1 align) in
  let need := p + Z.max 0 size in
  if limit <? need then (w, Err ERealloc)
  else if need <=? v_len (live w) then (mkWorld (arrays w) (live w) need, Ok p)
  else
    let old := default [] (arrays w !! v_arr (live w)) in
    let fresh := take (Z.to_nat (v_len (live w))) old ++ replicate (Z.to_nat (need - v_len (live w))) 0 in
    (mkWorld (arrays w ++ [fresh]) (mkView (List.length (arrays w)) need) need, Ok p).

Definition bump (limit : Z) : Realloc Z :=
  {| Call := Some (bump_call limit); Mem := Some (λ w, Some (live w)) |}.

Definition bump_inv (limit : Z) (w : world Z) : Prop :=
  view_ok w (live w) ∧ 0 ≤ guest w.

Lemma bump_sane limit : limit < 2 ^ 32 → SaneRealloc (bump limit) (bump_inv limit).
Proof.
  intros Hlim. constructor.
  - by intros w [].
  - intros w arrs [[Ha Hl] Hg] Hlen. split; [|done]. split; cbn; [lia|done].
  - intros call w o s a n w' r [[Ha Hl] Hg] [= <-]. unfold bump_call.
    pose proof (align_to_bounds (guest w) (Z.max 1 a) ltac:(lia)).
    set (p := align_to (guest w) (Z.max 1 a)) in *.
    destruct (Z.ltb_spec limit (p + Z.max 0 n)); [intros [= <- <-]; by split_and!|].
    destruct (Z.leb_spec (p + Z.max 0 n) (v_len (live w))); intros [= <- <-].
    + split_and!; cbn; [split; cbn; [done|lia]|lia|done|]. intros q [= <-]. lia.
    + split_and!; cbn; [split; [split|]; cbn|rewrite length_app; lia|done|].
      * rewrite length_app. cbn. lia.
      * lia.
      * lia.
      * intros q [= <-]. lia.
  - intros call w o s a n [= <-]. unfold bump_call. by repeat case_match.
  - by intros f w [= <-].
Qed.

(** A fresh memory of 64 bytes whose first 32 are in use. *)
Definition sample_world : world Z := mkWorld [replicate 64 0] (mkView 0 64) 32.

Lemma sample_world_inv : bump_inv 4096 sample_world.
Proof. split; [|done]. split; cbn; lia. Qed.

(** * Theorems *)

(** C5. A store never panics and always ends.  Whatever the descriptor, the
    resolver, the pointer and the guest's allocator, and for every value whose
    lists have fewer than 2^32 elements: every write is within the view it goes
    through, even when the allocator returns a pointer at the end of the
    address space or the memory shrinks below it; and where the references of
    the descriptor nest less deep than the fuel, the store and the spill return
    (descriptors that contain themselves overflow the stack of the code). *)
Theorem Store_never_panics {G} (realloc : Realloc G) winv fuel s ptr v w mem :
  SaneRealloc realloc winv → winv w → view_ok w mem → 0 ≤ ptr < 2 ^ 32 → small v = true →
  (StoreStep_Store realloc fuel s ptr v w mem).2 ≠ Panic ∧
  (Spill realloc fuel s v w mem).2 ≠ Panic ∧
  (shallow fuel (s_resolve s) (s_t s) = true →
    (StoreStep_Store realloc fuel s ptr v w mem).2 ≠ NoFuel ∧
    (Spill realloc fuel s v w mem).2 ≠ NoFuel).
Proof.
  intros Hs Hw Hv Hp Hsm. split; [|split].
  - pose proof (Store_triple realloc winv fuel s ptr v Hp Hsm w mem (conj Hw Hv)) as H.
    by destruct (StoreStep_Store realloc fuel s ptr v w mem) as [[w' mem'] []].
  - assert (triple (viewing winv)
      (let! p := sat (GrowMem realloc 0 0 (s_align s) (s_size s)) in
       let! _ := sat (StoreStep_Store realloc fuel s p v) in sret p) (λ _, True)) as Ht.
    { eapply triple_bind; [apply triple_sat, GrowMem_ok; done|]. intros p Hp'.
      eapply triple_bind; [by apply triple_sat, (Store_triple realloc winv)|]. intros _ _. by apply triple_ret. }
    specialize (Ht w mem (conj Hw Hv)). unfold Spill.
    by match goal with |- context [match ?x with _ => _ end] => destruct x as [[w' mem'] []] end.
  - intros Hsh. split; [by apply (stops_StoreStep realloc sane_returns)|by apply (stops_Spill realloc sane_returns)].
Qed.

(** A store hands back the live memory: if it runs through the live view,
    then the view it returns with success is the memory's view after every
    allocation it made, even when each allocation moved the memory. *)
Theorem Store_returns_live_view {G} (realloc : Realloc G) winv fuel s ptr v w w' mem' :
  SaneRealloc realloc winv → is_Some (Mem realloc) → winv w → 0 ≤ ptr < 2 ^ 32 → small v = true →
  StoreStep_Store realloc fuel s ptr v w (live w) = (w', mem', Ok tt) → mem' = live w'.
Proof.
  intros Hs Hm Hw Hp Hsm E.
  pose proof (Store_triple_live realloc winv fuel s ptr v Hm Hp Hsm w (live w) (conj Hw eq_refl)) as H.
  rewrite E in H. by destruct H as [[_ ?] _].
Qed.

(** Storing a list of strings at 0, the last string past the end of the memory. *)
Definition sample_step : StoreStep := mkStoreStep (ListDesc (prim_ref Pstring)) None 4 8.
Definition sample_strings : Value := VList [VString [104; 105]; VString (replicate 60 120)].

Lemma Store_never_panics_witness :
  let r := (StoreStep_Store (bump 4096) 3 sample_step (2 ^ 32 - 4) sample_strings sample_world (mkView 0 64)).2 in
  let p := (Spill (bump 4096) 3 sample_step sample_strings sample_world (mkView 0 64)).2 in
  (r ≠ Panic ∧ r ≠ NoFuel) ∧ p ≠ Panic ∧ p ≠ NoFuel.
Proof.
  destruct (Store_never_panics (bump 4096) (bump_inv 4096) 3 sample_step (2 ^ 32 - 4) sample_strings
    sample_world (mkView 0 64) (bump_sane 4096 ltac:(lia)) sample_world_inv) as (H1 & H2 & H3);
    [split; cbn; lia|lia|reflexivity|].
  destruct (H3 eq_refl) as [H4 H5]. exact (conj (conj H1 H4) (conj H2 H5)).
Defined.

(** A list of 2^32 elements is not refused: its length wraps to 0, nothing is
    allocated for it and the first element is written past the span. *)
Theorem huge_list_panics l :
  zlen l = 2 ^ 32 →
  (StoreStep_Store (bump 4096) 3 (mkStoreStep (ListDesc (prim_ref Pu16)) None 4 8) 0 (VSlice KU16 l)
     sample_world (live sample_world)).2 = Panic.
Proof.
  intros Hl. destruct l as [|e l]; [done|]. unfold StoreStep_Store. cbn [s_align s_size s_t s_resolve].
  cbn [storeValue]. unfold storeList, allocStoreAnyList.
  change (resolveType (Some (prim_ref Pu16)) None) with (Ok (PrimitiveDesc Pu16) : res TypeDesc).
  unfold storeScalarList, sbind at 2, slift at 1. cbn [scalarPrim fmap option_fmap option_map as_slice].
  rewrite decide_True by done. cbn [fmap option_fmap option_map]. unfold encodeScalarList. rewrite Hl. reflexivity.
Qed.

Lemma Store_returns_live_view_witness :
  ∃ w' mem', StoreStep_Store (bump 4096) 3 sample_step 0 sample_strings sample_world (live sample_world)
    = (w', mem', Ok tt) ∧ mem' = live w' ∧ v_arr mem' = 1%nat.
Proof.
  do 2 eexists. split; [vm_compute; reflexivity|]. split; [|reflexivity].
  apply (Store_returns_live_view (bump 4096) (bump_inv 4096) 3 sample_step 0 sample_strings sample_world);
    [apply bump_sane; lia|by eexists|exact sample_world_inv|lia|reflexivity|vm_compute; reflexivity].
Defined.
