(* ===== verification/AbiRep.v ===== *)
(** How a component value is represented in memory.

    [has_type] says which Go values a type has, [rep F m ptr t v] that the bytes
    of [m] at [ptr], all taken from the set of addresses [F], represent the
    value [v] of type [t].  The representation follows the Canonical ABI's
    layout ([AbiLayout]), not the code.  The main result is that the loader
    reads back exactly the value that is represented, and that it reads nothing
    outside [F]. *)
From Stdlib Require Import ZArith Lia String.
From stdpp Require Import base list numbers option tactics.
From S2P Require Import Prelude AbiTypes AbiLayout AbiLoad.
Local Open Scope Z_scope.
Local Open Scope go_scope.

(** * Values of a type *)

Definition is_nil (v : Value) : bool := match v with VNil => true | _ => false end.

Definition in_width (w n : Z) : bool := (0 <=? n) && (n <? 2 ^ w).
Definition in_swidth (w n : Z) : bool := (- 2 ^ (w - 1) <=? n) && (n <? 2 ^ (w - 1)).

(** A Unicode scalar value. *)
Definition is_char (n : Z) : bool :=
  (0 <=? n) && (n <? 0x110000) && negb ((0xD800 <=? n) && (n <=? 0xDFFF)).

(** The encoding of a value of a fixed-width primitive. *)
Definition prim_enc (p : Prim) (v : Value) : option (list Z) :=
  let enc (ok : bool) n e := if ok then Some (le_encode n e) else None in
  match p, v with
  | Pbool, VBool b => Some [if b then 1 else 0]
  | Pu8, VU32 n => enc (in_width 8 n) 1%nat n
  | Pu16, VU32 n => enc (in_width 16 n) 2%nat n
  | Pu32, VU32 n => enc (in_width 32 n) 4%nat n
  | Ps8, VI32 n => enc (in_swidth 8 n) 1%nat n
  | Ps16, VI32 n => enc (in_swidth 16 n) 2%nat n
  | Ps32, VI32 n => enc (in_swidth 32 n) 4%nat n
  | Pu64, VU64 n => enc (in_width 64 n) 8%nat n
  | Ps64, VI64 n => enc (in_swidth 64 n) 8%nat n
  | Pf32, VF32 n => enc (in_width 32 n) 4%nat n
  | Pf64, VF64 n => enc (in_width 64 n) 8%nat n
  | Pchar, VI32 n => enc (is_char n) 4%nat n
  | PerrorContext, VU32 n => enc (in_width 32 n) 4%nat n
  | _, _ => None
  end.

(** The typed slice of a list of the primitive, and an element of it as a
    value. *)
Definition slice_kind (p : Prim) : option skind :=
  match p with
  | Pbool => Some KBool | Ps8 => Some KI8 | Pu8 => Some KU8 | Ps16 => Some KI16 | Pu16 => Some KU16
  | Ps32 => Some KI32 | Pu32 => Some KU32 | Ps64 => Some KI64 | Pu64 => Some KU64
  | Pf32 => Some KF32 | Pf64 => Some KF64 | Pchar => Some KI32
  | _ => None
  end.

Definition elem_value (p : Prim) (e : Z) : Value :=
  match p with
  | Pbool => if e =? 0 then VBool false else if e =? 1 then VBool true else VOther
  | Pu8 | Pu16 | Pu32 => VU32 e
  | Ps8 | Ps16 | Ps32 | Pchar => VI32 e
  | Pu64 => VU64 e
  | Ps64 => VI64 e
  | Pf32 => VF32 e
  | Pf64 => VF64 e
  | _ => VOther
  end.

(** The kind of typed slice a list of elements of type [t] uses, if any. *)
Definition elem_kind (t : ty) : option (Prim * skind) :=
  match t with TPrim p => pair p <$> slice_kind p | _ => None end.

Fixpoint all2 {A B} (ok : A → B → bool) (xs : list A) (ys : list B) {struct xs} : bool :=
  match xs with
  | [] => match ys with [] => true | _ :: _ => false end
  | x :: xs => match ys with [] => false | y :: ys => ok x y && all2 ok xs ys end
  end.

Fixpoint at_case (f : option ty → bool) (cs : list (option ty)) (n : nat) : bool :=
  match cs, n with
  | [], _ => false
  | c :: _, O => f c
  | _ :: cs, S n => at_case f cs n
  end.

(** The shape of a list of elements of type [t]: the typed slice of a scalar,
    else a [[]Value]. *)
Definition list_shape (t : ty) (elem : Value → bool) (v : Value) (len_ok : Z → bool) : bool :=
  match elem_kind t, v with
  | Some (p, k), VSlice k' l =>
      bool_decide (k' = k) && len_ok (zlen l) &&
      forallb (λ e, match prim_enc p (elem_value p e) with Some _ => true | None => false end) l
  | None, VList l => len_ok (zlen l) && forallb elem l
  | _, _ => false
  end.

(** The Go values of a type.  Without [nones], a typed case of a variant has no
    nil payload: [storeVariant] takes one for a payload the caller forgot. *)
Fixpoint well_typed (nones : bool) (t : ty) (v : Value) {struct t} : bool :=
  match t with
  | TPrim Pstring => match v with VString s => utf8_valid s && (zlen s <? 2 ^ 32) | _ => false end
  | TPrim p => match prim_enc p v with Some _ => true | None => false end
  | TRecord ts | TTuple ts => match v with VList vs => all2 (well_typed nones) ts vs | _ => false end
  | TVariant cs =>
      match v with
      | VVariant d p =>
          (0 <=? d) && at_case (λ c, match c with
                                     | None => is_nil p
                                     | Some t => (nones || negb (is_nil p)) && well_typed nones t p
                                     end) cs (Z.to_nat d)
      | _ => false
      end
  | TList t => list_shape t (well_typed nones t) v (λ n, n * spec_size t <? 2 ^ 32)
               && match v with VList l => zlen l <? 2 ^ 32 | _ => true end
  | TFixed t n => list_shape t (well_typed nones t) v (λ k, k =? n)
  | TFlags n => match v with VU32 bits => (0 <=? bits) && (bits <? 2 ^ n) | _ => false end
  | TEnum n => match v with VU32 i => (0 <=? i) && (i <? n) | _ => false end
  | TOption t => is_nil v || well_typed nones t v
  | TResult o e =>
      match v with
      | VResult isErr p =>
          match (if isErr : bool then e else o) with
          | None => is_nil p
          | Some t => well_typed nones t p
          end
      | _ => false
      end
  | THandle => match v with VU32 h => in_width 32 h | _ => false end
  end.

Definition has_type : ty → Value → bool := well_typed true.

(** The values a store takes: no [none] as the payload of a variant's case. *)
Definition storable : ty → Value → bool := well_typed false.

(** * Representation *)

Section rep.
Variable F : Z → Prop.
Variable m : list Z.

(** The bytes [bs] are at [ptr], within [F]. *)
Definition bytes_at (ptr : Z) (bs : list Z) : Prop :=
  0 ≤ ptr ∧ ∀ i b, bs !! i = Some b → F (ptr + Z.of_nat i) ∧ m !! Z.to_nat (ptr + Z.of_nat i) = Some b.

(** A block of [n] bytes lies within memory. *)
Definition block (ptr n : Z) : Prop := 0 ≤ ptr ∧ ptr + n ≤ zlen m.

(** Where the payload of a variant of [n] cases with layouts [ls] is. *)
Definition payload_at (n : Z) (ls : list (Z * Z)) (ptr : Z) : Z :=
  align_to (ptr + spec_disc n) (max_list 1 ls.*1).

Definition disc_at (n : Z) (ptr d : Z) : Prop := bytes_at ptr (le_encode (Z.to_nat (spec_disc n)) d).

Inductive rep : Z → ty → Value → Prop :=
| rep_prim ptr p v bs : prim_enc p v = Some bs → bytes_at ptr bs → rep ptr (TPrim p) v
| rep_string ptr s q :
    utf8_valid s = true → zlen s < 2 ^ 32 → bytes_at ptr (le_encode 4 q) →
    bytes_at (ptr + 4) (le_encode 4 (zlen s)) → block q (zlen s) → bytes_at q s →
    rep ptr (TPrim Pstring) (VString s)
| rep_record ptr ts vs : rep_fields ptr ts vs → rep ptr (TRecord ts) (VList vs)
| rep_tuple ptr ts vs : rep_fields ptr ts vs → rep ptr (TTuple ts) (VList vs)
| rep_variant ptr cs d p c :
    0 ≤ d < zlen cs → cs !! Z.to_nat d = Some c → disc_at (zlen cs) ptr d →
    rep_payload (payload_at (zlen cs) (omap (fmap layout) cs) ptr) c p →
    rep ptr (TVariant cs) (VVariant d p)
| rep_list ptr t v q n :
    bytes_at ptr (le_encode 4 q) → bytes_at (ptr + 4) (le_encode 4 n) →
    rep_elems q t n v → rep ptr (TList t) v
| rep_fixed ptr t v n : rep_elems ptr t n v → rep ptr (TFixed t n) v
| rep_flags ptr n bits :
    0 ≤ bits < 2 ^ n → bytes_at ptr (le_encode (Z.to_nat (spec_flags n)) bits) →
    rep ptr (TFlags n) (VU32 bits)
| rep_enum ptr n i : 0 ≤ i < n → disc_at n ptr i → rep ptr (TEnum n) (VU32 i)
| rep_none ptr t : disc_at 2 ptr 0 → rep ptr (TOption t) VNil
| rep_some ptr t v :
    disc_at 2 ptr 1 → rep (payload_at 2 [layout t] ptr) t v → rep ptr (TOption t) v
| rep_result ptr o e (isErr : bool) p :
    disc_at 2 ptr (if isErr then 1 else 0) →
    rep_payload (payload_at 2 (omap (fmap layout) [o; e]) ptr) (if isErr then e else o) p →
    rep ptr (TResult o e) (VResult isErr p)
| rep_handle ptr h : 0 ≤ h < 2 ^ 32 → bytes_at ptr (le_encode 4 h) → rep ptr THandle (VU32 h)
with rep_fields : Z → list ty → list Value → Prop :=
| repf_nil o : rep_fields o [] []
| repf_cons o t ts v vs :
    rep (align_to o (spec_align t)) t v → rep_fields (place o (layout t)) ts vs →
    rep_fields o (t :: ts) (v :: vs)
with rep_payload : Z → option ty → Value → Prop :=
| repp_none o : rep_payload o None VNil
| repp_some o t v : rep o t v → rep_payload o (Some t) v
with rep_elems : Z → ty → Z → Value → Prop :=
| repe_slice q t p k n l :
    elem_kind t = Some (p, k) → n = zlen l → n < 2 ^ 32 → n * spec_size t < 2 ^ 32 →
    block q (n * spec_size t) →
    (∀ i e, l !! i = Some e → ∃ bs, prim_enc p (elem_value p e) = Some bs ∧
       bytes_at (q + Z.of_nat i * spec_size t) bs) →
    rep_elems q t n (VSlice k l)
| repe_list q t n l :
    elem_kind t = None → n = zlen l → n < 2 ^ 32 → n * spec_size t < 2 ^ 32 →
    block q (n * spec_size t) → (spec_align t | q) →
    (∀ i v, l !! i = Some v → rep (q + Z.of_nat i * spec_size t) t v) →
    rep_elems q t n (VList l).
End rep.

Scheme rep_mut := Minimality for rep Sort Prop
  with rep_fields_mut := Minimality for rep_fields Sort Prop
  with rep_payload_mut := Minimality for rep_payload Sort Prop
  with rep_elems_mut := Minimality for rep_elems Sort Prop.

(** * The frame property *)

(** Memories that agree on [F]; addresses only appear. *)
Definition extends (F F' : Z → Prop) (m m' : list Z) : Prop :=
  zlen m ≤ zlen m' ∧
  ∀ x, 0 ≤ x → F x → F' x ∧ m' !! Z.to_nat x = m !! Z.to_nat x.

Lemma bytes_at_frame F F' m m' ptr bs :
  extends F F' m m' → bytes_at F m ptr bs → bytes_at F' m' ptr bs.
Proof.
  intros [_ Hx] [Hp Hb]. split; [done|]. intros i b Hi. destruct (Hb i b Hi) as [HF Hm].
  destruct (Hx (ptr + Z.of_nat i)) as [HF' Hm']; [lia|done|]. by rewrite Hm'.
Qed.

Lemma block_frame F F' m m' ptr n : extends F F' m m' → block m ptr n → block m' ptr n.
Proof. unfold block. intros [? _] []. lia. Qed.

(** What is represented stays represented while its addresses keep their
    bytes. *)
Lemma rep_frame F F' m m' ptr t v :
  extends F F' m m' → rep F m ptr t v → rep F' m' ptr t v.
Proof.
  intros Hx. revert ptr t v.
  pose proof (λ ptr bs, bytes_at_frame F F' m m' ptr bs Hx) as Hb.
  pose proof (λ ptr n, block_frame F F' m m' ptr n Hx) as Hk.
  assert (∀ n ptr d, disc_at F m n ptr d → disc_at F' m' n ptr d) as Hd by (unfold disc_at; auto).
  apply (rep_mut F m (rep F' m') (rep_fields F' m') (rep_payload F' m') (rep_elems F' m'));
    intros; try (econstructor; solve [eauto]).
  - eapply repe_slice; eauto. intros i e Hi.
    match goal with H : ∀ i e, l !! i = Some e → _ |- _ => destruct (H i e Hi) as (bs & ? & ?) end. eauto.
Qed.

(** * Loading what is represented *)

Section load.
Variable F : Z → Prop.
Variable m : list Z.
Hypothesis Hm : zlen m < 2 ^ 32.

Lemma bytes_at_block ptr bs : bytes_at F m ptr bs → bs ≠ [] → block m ptr (zlen bs).
Proof.
  intros [Hp Hb] Hne. split; [done|].
  destruct (lookup_lt_is_Some_2 bs (List.length bs - 1)) as [b Hl]; [destruct bs; [done|cbn; lia]|].
  destruct (Hb _ _ Hl) as [_ Hl']. apply lookup_lt_Some in Hl'. destruct bs; [done|]. unfold zlen. cbn in *. lia.
Qed.

Lemma bytes_at_subslice ptr bs :
  bytes_at F m ptr bs → block m ptr (zlen bs) → subslice m ptr (ptr + zlen bs) = Ok bs.
Proof.
  intros [Hp Hb] [_ Hle]. unfold subslice. pose proof (zlen_nonneg bs).
  rewrite (proj2 (Z.leb_le ptr _)), (proj2 (Z.leb_le _ (zlen m))) by lia. cbn [andb]. f_equal.
  apply list_eq. intros i. destruct (bs !! i) as [b|] eqn:Hi.
  - pose proof (lookup_lt_Some _ _ _ Hi). rewrite lookup_take_lt by (unfold zlen; lia).
    rewrite lookup_drop. destruct (Hb i b Hi) as [_ <-]. f_equal. lia.
  - apply lookup_ge_None in Hi. apply lookup_take_ge. unfold zlen. lia.
Qed.

(** The guards of the loads pass on a block. *)
Lemma block_guard ptr n :
  block m ptr n → 0 ≤ n → (u32 (zlen m) <? u32 (ptr + n)) = false ∧ u32 (ptr + n) = ptr + n.
Proof.
  intros [Hp Hle] Hn. rewrite (wrap_small 32 (zlen m)), (wrap_small 32 (ptr + n)) by (pose proof (zlen_nonneg m); lia).
  split; [|done]. apply Z.ltb_ge. lia.
Qed.

Definition int_width (n : Z) : Prop := n = 1 ∨ n = 2 ∨ n = 4 ∨ n = 8.

Lemma int_bytes ptr n x :
  int_width n → bytes_at F m ptr (le_encode (Z.to_nat n) x) →
  (u32 (zlen m) <? u32 (ptr + n)) = false ∧
  subslice m ptr (u32 (ptr + n)) = Ok (le_encode (Z.to_nat n) x) ∧
  le_decode (le_encode (Z.to_nat n) x) = x `mod` 2 ^ (8 * n) ∧ block m ptr n.
Proof.
  intros Hn Hb. assert (zlen (le_encode (Z.to_nat n) x) = n) as El.
  { rewrite zlen_le_encode. unfold int_width in Hn. lia. }
  assert (block m ptr n) as Hk.
  { rewrite <- El. apply (bytes_at_block _ _ Hb). destruct Hn as [->|[->|[->| ->]]]; done. }
  destruct (block_guard ptr n Hk) as [Hg E]; [unfold int_width in Hn; lia|]. split_and!; [done| | |done].
  - rewrite E. rewrite <- El at 1. apply bytes_at_subslice; [done|]. by rewrite El.
  - rewrite le_decode_encode, Z2Nat.id by (unfold int_width in Hn; lia). done.
Qed.

Lemma loadInt_unsigned ptr n x :
  int_width n → 0 ≤ x < 2 ^ (8 * n) → bytes_at F m ptr (le_encode (Z.to_nat n) x) →
  loadInt m ptr n false = Ok (if n =? 8 then VU64 x else VU32 x).
Proof.
  intros Hn Hx Hb. destruct (int_bytes ptr n x Hn Hb) as (Hg & Hs & Hd & _).
  unfold loadInt. rewrite Hg, Hs. cbn [obind]. rewrite Hd, Z.mod_small by done.
  by destruct Hn as [->|[->|[->| ->]]].
Qed.

Lemma swrap_mod w x : 0 < w → - 2 ^ (w - 1) ≤ x < 2 ^ (w - 1) → swrap w (x `mod` 2 ^ w) = x.
Proof.
  intros Hw Hx. unfold swrap. rewrite Zplus_mod_idemp_l.
  replace (2 ^ w) with (2 * 2 ^ (w - 1)).
  - rewrite Z.mod_small by lia. lia.
  - rewrite <- Z.pow_succ_r by lia. f_equal. lia.
Qed.

Lemma loadInt_signed ptr n x :
  int_width n → - 2 ^ (8 * n - 1) ≤ x < 2 ^ (8 * n - 1) → bytes_at F m ptr (le_encode (Z.to_nat n) x) →
  loadInt m ptr n true = Ok (if n =? 8 then VI64 x else VI32 x).
Proof.
  intros Hn Hx Hb. destruct (int_bytes ptr n x Hn Hb) as (Hg & Hs & Hd & _).
  unfold loadInt. rewrite Hg, Hs. cbn [obind]. rewrite Hd.
  assert (swrap (8 * n) (x `mod` 2 ^ (8 * n)) = x) as E.
  { apply swrap_mod; [unfold int_width in Hn; lia|done]. }
  destruct Hn as [->|[->|[->| ->]]]; cbn [Z.eqb Pos.eqb]; rewrite <- E at 2; done.
Qed.

Lemma readU32LE_ok ptr x :
  0 ≤ x < 2 ^ 32 → bytes_at F m ptr (le_encode 4 x) → readU32LE m ptr = Ok x.
Proof.
  intros Hx Hb. destruct (int_bytes ptr 4 x) as (Hg & Hs & Hd & _); [unfold int_width; lia|done|].
  unfold readU32LE. rewrite Hg, Hs. cbn [obind]. by rewrite Hd, Z.mod_small.
Qed.

Lemma in_width_true w n : in_width w n = true ↔ 0 ≤ n < 2 ^ w.
Proof. unfold in_width. rewrite andb_true_iff, Z.leb_le, Z.ltb_lt. done. Qed.
Lemma in_swidth_true w n : in_swidth w n = true ↔ - 2 ^ (w - 1) ≤ n < 2 ^ (w - 1).
Proof. unfold in_swidth. rewrite andb_true_iff, Z.leb_le, Z.ltb_lt. done. Qed.

Lemma is_char_check n : is_char n = true → 0 ≤ n < 2 ^ 32 ∧ check_char n = Ok n.
Proof.
  unfold is_char, check_char. rewrite !andb_true_iff, negb_true_iff. intros [[H1 H2] H3].
  apply Z.leb_le in H1. apply Z.ltb_lt in H2. rewrite H3, (proj2 (Z.leb_gt _ n)) by lia. split; [lia|done].
Qed.

(** The width of an encoding is the size of its primitive. *)
Lemma prim_enc_length p v bs : prim_enc p v = Some bs → zlen bs = prim_size p ∧ bs ≠ [].
Proof.
  unfold prim_enc. destruct p, v; try done; repeat case_match; intros [= <-]; try done;
    (split; [apply zlen_le_encode|done]).
Qed.

Lemma loadPrimitive_ok ptr p v bs :
  prim_enc p v = Some bs → bytes_at F m ptr bs → loadPrimitive m ptr p = Ok v.
Proof.
  unfold prim_enc. destruct p, v; try done; cbn [loadPrimitive].
  - intros [= <-] Hb.
    rewrite (loadInt_unsigned ptr 1 (if b then 1 else 0)); [by destruct b|unfold int_width; lia|destruct b; lia|].
    by destruct b.
  - destruct (in_swidth 8 n) eqn:E; [|done]. apply in_swidth_true in E. intros [= <-] Hb.
    by rewrite (loadInt_signed ptr 1 n) by (done || unfold int_width; lia).
  - destruct (in_width 8 n) eqn:E; [|done]. apply in_width_true in E. intros [= <-] Hb.
    by rewrite (loadInt_unsigned ptr 1 n) by (done || unfold int_width; lia).
  - destruct (in_swidth 16 n) eqn:E; [|done]. apply in_swidth_true in E. intros [= <-] Hb.
    by rewrite (loadInt_signed ptr 2 n) by (done || unfold int_width; lia).
  - destruct (in_width 16 n) eqn:E; [|done]. apply in_width_true in E. intros [= <-] Hb.
    by rewrite (loadInt_unsigned ptr 2 n) by (done || unfold int_width; lia).
  - destruct (in_swidth 32 n) eqn:E; [|done]. apply in_swidth_true in E. intros [= <-] Hb.
    by rewrite (loadInt_signed ptr 4 n) by (done || unfold int_width; lia).
  - destruct (in_width 32 n) eqn:E; [|done]. apply in_width_true in E. intros [= <-] Hb.
    by rewrite (loadInt_unsigned ptr 4 n) by (done || unfold int_width; lia).
  - destruct (in_swidth 64 n) eqn:E; [|done]. apply in_swidth_true in E. intros [= <-] Hb.
    by rewrite (loadInt_signed ptr 8 n) by (done || unfold int_width; lia).
  - destruct (in_width 64 n) eqn:E; [|done]. apply in_width_true in E. intros [= <-] Hb.
    by rewrite (loadInt_unsigned ptr 8 n) by (done || unfold int_width; lia).
  - destruct (in_width 32 bits) eqn:E; [|done]. apply in_width_true in E. intros [= <-] Hb.
    by rewrite (loadInt_unsigned ptr 4 bits) by (done || unfold int_width; lia).
  - destruct (in_width 64 bits) eqn:E; [|done]. apply in_width_true in E. intros [= <-] Hb.
    by rewrite (loadInt_unsigned ptr 8 bits) by (done || unfold int_width; lia).
  - destruct (is_char n) eqn:E; [|done]. apply is_char_check in E as [E Ec]. intros [= <-] Hb.
    rewrite (loadInt_unsigned ptr 4 n) by (done || unfold int_width; lia). cbn [Z.eqb Pos.eqb obind asU32].
    by rewrite Ec.
  - destruct (in_width 32 n) eqn:E; [|done]. apply in_width_true in E. intros [= <-] Hb.
    by rewrite (loadInt_unsigned ptr 4 n) by (done || unfold int_width; lia).
Qed.

Lemma loadString_ok ptr s q :
  utf8_valid s = true → zlen s < 2 ^ 32 → bytes_at F m ptr (le_encode 4 q) →
  bytes_at F m (ptr + 4) (le_encode 4 (zlen s)) → block m q (zlen s) → bytes_at F m q s →
  loadString m ptr = Ok (VString s).
Proof.
  intros Hu Hl H1 H2 Hk Hs. pose proof (zlen_nonneg s). pose proof Hk as [Hq Hle].
  assert (u32 (ptr + 4) = ptr + 4) as Ep.
  { destruct (int_bytes ptr 4 q) as (_ & _ & _ & Hk'); [unfold int_width; lia|done|].
    by apply (block_guard ptr 4 Hk'). }
  unfold loadString. rewrite (readU32LE_ok ptr q) by (lia || done). cbn [obind].
  rewrite Ep, (readU32LE_ok (ptr + 4) (zlen s)) by (lia || done). cbn [obind].
  destruct (block_guard q (zlen s) Hk) as [Hg E]; [lia|].
  unfold loadStringFromRange. rewrite Hg, E, bytes_at_subslice by done. cbn [obind]. by rewrite Hu.
Qed.

(** ** Lists of scalars *)

(** The bytes of the [n] elements. *)
Definition span_of (q n : Z) : list Z := take (Z.to_nat n) (drop (Z.to_nat q) m).

Lemma scalarListSpan_ok q n size :
  0 < size → 0 ≤ n → n < 2 ^ 32 → n * size < 2 ^ 32 → block m q (n * size) →
  scalarListSpan m q n size = Ok (span_of q (n * size)).
Proof.
  intros Hs Hn Hn32 Hprod Hk. unfold scalarListSpan. rewrite (wrap_small 32 (n * size)) by nia.
  rewrite (proj2 (Z.ltb_ge (MaxUint32 / size) n)), andb_false_r.
  2: { apply Z.div_le_lower_bound; [lia|]. unfold MaxUint32. lia. }
  destruct (block_guard q (n * size) Hk) as [Hg E]; [nia|]. rewrite Hg, E.
  rewrite (proj2 (Z.ltb_ge _ q)) by nia. cbn [orb]. destruct Hk. unfold subslice.
  rewrite (proj2 (Z.leb_le q _)), (proj2 (Z.leb_le _ (zlen m))) by nia. cbn [andb].
  unfold span_of. do 3 f_equal. lia.
Qed.

Lemma elem_bytes_ok q n size i bs :
  0 ≤ i < n → zlen bs = size → block m q (n * size) → bytes_at F m (q + i * size) bs →
  elem_bytes (span_of q (n * size)) (i * size) size = Ok bs.
Proof.
  intros Hi Hb Hk Hat. pose proof (zlen_nonneg bs). destruct Hk as [Hq Hle].
  assert (zlen (span_of q (n * size)) = n * size) as El.
  { unfold span_of, zlen in *. rewrite length_take, length_drop. nia. }
  unfold elem_bytes, subslice. rewrite El.
  rewrite (proj2 (Z.leb_le (i * size) _)), (proj2 (Z.leb_le _ (n * size))) by nia. cbn [andb].
  pose proof (bytes_at_subslice (q + i * size) bs Hat ltac:(split; nia)) as Hs.
  unfold subslice in Hs. rewrite (proj2 (Z.leb_le (q + i * size) _)), (proj2 (Z.leb_le _ (zlen m))) in Hs by nia.
  cbn [andb] in Hs. injection Hs as Hs. f_equal. etransitivity; [|exact Hs]. unfold span_of.
  replace (i * size + size - i * size) with size by lia.
  replace (q + i * size + zlen bs - (q + i * size)) with size by lia.
  apply list_eq. intros j. destruct (decide (j < Z.to_nat size)%nat) as [Hj|Hj].
  - rewrite !(lookup_take_lt _ (Z.to_nat size)) by done. rewrite !lookup_drop, lookup_take_lt, lookup_drop by nia.
    f_equal. nia.
  - by rewrite !lookup_take_ge by lia.
Qed.

Lemma decode_elems_ok (dec : Z → res Z) span size l i :
  0 ≤ i → (i + zlen l) * size < 2 ^ 32 → 0 < size →
  (∀ j e, l !! j = Some e → ∃ bs,
     elem_bytes span ((i + Z.of_nat j) * size) size = Ok bs ∧ dec (le_decode bs) = Ok e) →
  decode_elems dec span size (seqZ i (zlen l)) = Ok l.
Proof.
  intros Hi Hlt Hs. revert i Hi Hlt; induction l as [|e l IH]; intros i Hi Hlt Hall; [done|].
  rewrite zlen_cons in *. pose proof (zlen_nonneg l). rewrite seqZ_cons by lia. cbn [decode_elems].
  destruct (Hall 0%nat e eq_refl) as (bs & E1 & E2). rewrite wrap_small by nia.
  replace ((i + Z.of_nat 0) * size) with (i * size) in E1 by lia. rewrite E1. cbn [obind]. rewrite E2. cbn [obind].
  replace (Z.pred (1 + zlen l)) with (zlen l) by lia.
  rewrite (IH (Z.succ i)); [done|lia|nia|]. intros j e' Hj.
  replace (Z.succ i + Z.of_nat j) with (i + Z.of_nat (S j)) by lia. by apply Hall.
Qed.

(** What [liftScalarList] does to one decoded integer. *)
Definition elem_dec (p : Prim) : Z → res Z :=
  match p with
  | Ps8 => λ b, Ok (i8 b)
  | Pbool => λ b, Ok (if b =? 0 then 0 else 1)
  | Ps16 => λ b, Ok (i16 b)
  | Ps32 => λ b, Ok (i32 b)
  | Ps64 => λ b, Ok (i64 b)
  | Pchar => check_char
  | _ => Ok
  end.

Lemma liftScalarList_dec q n p k :
  slice_kind p = Some k → p ≠ Pu8 →
  liftScalarList m q n p = Some (omap_ok (VSlice k) (decodeScalarList m q n (prim_size p) (elem_dec p))).
Proof. by destruct p; cbn; intros [= <-]. Qed.

Lemma elem_dec_ok p k e bs :
  slice_kind p = Some k → prim_enc p (elem_value p e) = Some bs → elem_dec p (le_decode bs) = Ok e.
Proof.
  destruct p; try done; cbn [slice_kind elem_value elem_dec]; intros _; unfold prim_enc.
  - destruct (Z.eqb_spec e 0) as [->|]; [by intros [= <-]|].
    destruct (Z.eqb_spec e 1) as [->|]; [by intros [= <-]|done].
  - destruct (in_swidth 8 e) eqn:E; [|done]. apply in_swidth_true in E. intros <-%(inj Some).
    rewrite (le_decode_encode 1). f_equal. apply (swrap_mod 8); [lia|done].
  - destruct (in_width 8 e) eqn:E; [|done]. apply in_width_true in E. intros <-%(inj Some).
    rewrite (le_decode_encode 1). f_equal. by apply Z.mod_small.
  - destruct (in_swidth 16 e) eqn:E; [|done]. apply in_swidth_true in E. intros <-%(inj Some).
    rewrite (le_decode_encode 2). f_equal. apply (swrap_mod 16); [lia|done].
  - destruct (in_width 16 e) eqn:E; [|done]. apply in_width_true in E. intros <-%(inj Some).
    rewrite (le_decode_encode 2). f_equal. by apply Z.mod_small.
  - destruct (in_swidth 32 e) eqn:E; [|done]. apply in_swidth_true in E. intros <-%(inj Some).
    rewrite (le_decode_encode 4). f_equal. apply (swrap_mod 32); [lia|done].
  - destruct (in_width 32 e) eqn:E; [|done]. apply in_width_true in E. intros <-%(inj Some).
    rewrite (le_decode_encode 4). f_equal. by apply Z.mod_small.
  - destruct (in_swidth 64 e) eqn:E; [|done]. apply in_swidth_true in E. intros <-%(inj Some).
    rewrite (le_decode_encode 8). f_equal. apply (swrap_mod 64); [lia|done].
  - destruct (in_width 64 e) eqn:E; [|done]. apply in_width_true in E. intros <-%(inj Some).
    rewrite (le_decode_encode 8). f_equal. by apply Z.mod_small.
  - destruct (in_width 32 e) eqn:E; [|done]. apply in_width_true in E. intros <-%(inj Some).
    rewrite (le_decode_encode 4). f_equal. by apply Z.mod_small.
  - destruct (in_width 64 e) eqn:E; [|done]. apply in_width_true in E. intros <-%(inj Some).
    rewrite (le_decode_encode 8). f_equal. by apply Z.mod_small.
  - destruct (is_char e) eqn:E; [|done]. apply is_char_check in E as [E Ec]. intros <-%(inj Some).
    rewrite (le_decode_encode 4), Z.mod_small by done. done.
Qed.

Lemma prim_size_pos p : 0 < prim_size p.
Proof. by destruct p. Qed.

(** The typed slice is what loading the elements one by one would give. *)
Lemma liftScalarList_ok q p k l :
  slice_kind p = Some k → zlen l < 2 ^ 32 → zlen l * prim_size p < 2 ^ 32 →
  block m q (zlen l * prim_size p) →
  (∀ i e, l !! i = Some e → ∃ bs, prim_enc p (elem_value p e) = Some bs ∧
     bytes_at F m (q + Z.of_nat i * prim_size p) bs) →
  liftScalarList m q (zlen l) p = Some (Ok (VSlice k l)).
Proof.
  intros Hk Hn Hprod Hblock Hall. pose proof (zlen_nonneg l). pose proof (prim_size_pos p).
  pose proof (scalarListSpan_ok q (zlen l) (prim_size p) ltac:(lia) ltac:(lia) Hn Hprod Hblock) as Hspan.
  assert (∀ j e, l !! j = Some e → ∃ bs,
     elem_bytes (span_of q (zlen l * prim_size p)) (Z.of_nat j * prim_size p) (prim_size p) = Ok bs ∧
     elem_dec p (le_decode bs) = Ok e) as Helems.
  { intros j e Hj. destruct (Hall j e Hj) as (bs & Henc & Hat). exists bs.
    pose proof (lookup_lt_Some _ _ _ Hj). split; [|by eapply elem_dec_ok].
    apply elem_bytes_ok; [unfold zlen; lia|by apply (prim_enc_length p (elem_value p e))|done|done]. }
  destruct (decide (p = Pu8)) as [->|Hne].
  - injection Hk as <-. cbn [liftScalarList]. change (prim_size Pu8) with 1 in *. rewrite Hspan. cbn [obind].
    do 3 f_equal. destruct Hblock as [Hq Hle].
    pose proof (bytes_at_subslice q l) as Hsub.
    unfold subslice in Hsub. rewrite (proj2 (Z.leb_le q _)), (proj2 (Z.leb_le _ (zlen m))) in Hsub by lia.
    cbn [andb] in Hsub. unfold span_of. replace (zlen l * 1) with (q + zlen l - q) by lia.
    refine (_ (Hsub _ _)); [congruence| |split; lia].
    split; [done|]. intros i b Hi. destruct (Hall i b Hi) as (bs & Henc & _ & Hat). cbn in Henc.
    destruct (in_width 8 b) eqn:E; [|done]. apply in_width_true in E. injection Henc as <-.
    destruct (Hat 0%nat b) as [HF Hb]; [cbn; f_equal; by apply Z.mod_small|].
    replace (q + Z.of_nat i * 1 + Z.of_nat 0) with (q + Z.of_nat i) in * by lia. done.
  - rewrite (liftScalarList_dec q (zlen l) p k Hk Hne). unfold decodeScalarList. rewrite Hspan. cbn [obind].
    rewrite (decode_elems_ok _ _ _ l 0); [done|lia|lia|lia|]. intros j e Hj. rewrite Z.add_0_l. by apply Helems.
Qed.

(** ** Flags and enums *)

Lemma spec_flags_width n : int_width (spec_flags n).
Proof. unfold spec_flags, int_width. repeat case_match; lia. Qed.

Lemma spec_disc_width n : int_width (spec_disc n) ∧ spec_disc n ≠ 8.
Proof. unfold spec_disc, int_width. repeat case_match; lia. Qed.

(** The discriminant is wide enough for the cases. *)
Lemma spec_disc_fits n d : 0 ≤ d < n → n < 2 ^ 32 → 0 ≤ d < 2 ^ (8 * spec_disc n).
Proof.
  intros Hd Hn. rewrite spec_disc_cases by lia.
  destruct (Z.leb_spec n (2 ^ 8)); [cbn; lia|]. destruct (Z.leb_spec n (2 ^ 16)); cbn; lia.
Qed.

Lemma load_disc ptr n d :
  0 ≤ d < n → n < 2 ^ 32 → disc_at F m n ptr d →
  loadInt m ptr (spec_disc n) false = Ok (VU32 d).
Proof.
  intros Hd Hn Hat. destruct (spec_disc_width n) as [Hw Hne].
  rewrite (loadInt_unsigned ptr (spec_disc n) d) by (auto using spec_disc_fits).
  by rewrite (proj2 (Z.eqb_neq _ 8)).
Qed.

Lemma loadFlags_ok ptr names bits :
  0 < zlen names ≤ 32 → 0 ≤ bits < 2 ^ zlen names →
  bytes_at F m ptr (le_encode (Z.to_nat (spec_flags (zlen names))) bits) →
  loadFlags m ptr names = Ok (VU32 bits).
Proof.
  intros Hn Hb Hat. unfold loadFlags.
  assert (sizeFlagsNumLabels (zlen names) = Ok (spec_flags (zlen names))) as ->.
  { unfold sizeFlagsNumLabels, spec_flags. rewrite (proj2 (Z.leb_gt _ 0)), (proj2 (Z.ltb_ge 32 _)) by lia.
    by repeat case_match. }
  cbn [obind]. rewrite (loadInt_unsigned ptr (spec_flags (zlen names)) bits); [|apply spec_flags_width| |done].
  - assert ((spec_flags (zlen names) =? 8) = false) as -> by (unfold spec_flags; by repeat case_match).
    cbn [obind asU32]. do 2 f_equal. unfold flagsBitMask.
    assert (Z.shiftr (2 ^ 32 - 1) (32 - zlen names) = Z.ones (zlen names)) as ->.
    { replace (2 ^ 32 - 1) with (Z.ones 32) by done. rewrite Z.shiftr_div_pow2, Z.ones_div_pow2 by lia.
      f_equal. lia. }
    rewrite Z.land_ones by lia. by apply Z.mod_small.
  - assert (2 ^ zlen names ≤ 2 ^ (8 * spec_flags (zlen names))); [|lia].
    apply Z.pow_le_mono_r; [lia|]. unfold spec_flags.
    destruct (Z.leb_spec (zlen names) 8); [lia|]. destruct (Z.leb_spec (zlen names) 16); lia.
Qed.

Lemma loadEnum_ok ptr cases i :
  0 ≤ i < zlen cases → zlen cases < 2 ^ 32 → disc_at F m (zlen cases) ptr i →
  loadEnum m ptr cases = Ok (VU32 i).
Proof.
  intros Hi Hn Hat. unfold loadEnum, sizeEnumNumCases.
  destruct (disc_ok (zlen cases)) as (-> & _ & ->); [lia|]. cbn [obind].
  rewrite (load_disc ptr (zlen cases) i) by done. cbn [obind asU32]. unfold OutOfRange.
  by rewrite (proj2 (Z.leb_gt _ i)) by lia.
Qed.

(** ** The walk *)

Variable resolve : Resolver.

(** The loader reads back every represented value of type [t]. *)
Definition loads (t : ty) : Prop :=
  ∀ d fuel ptr v, denotes resolve d t → valid t = true → (height t ≤ fuel)%nat →
    (spec_align t | ptr) → block m ptr (spec_size t) → rep F m ptr t v →
    loadValue m fuel resolve ptr d = Ok v.

Lemma load_fields_ok fuel rs ts o vs :
  Forall loads ts → Forall2 (ref_denotes resolve) rs ts → forallb valid ts = true →
  (maxl (height <$> ts) ≤ fuel)%nat → 0 ≤ o → foldl place o (layout <$> ts) ≤ zlen m →
  rep_fields F m o ts vs →
  load_fields resolve (Alignment fuel resolve) (Size fuel resolve) (loadValue m fuel resolve) rs o = Ok vs.
Proof.
  intros Hl H. revert o vs Hl. induction H as [|r t rs ts (d & Er & Hd) _ IH]; intros o vs Hl Hv Hf Ho Hle Hrep;
    inversion Hrep as [|? ? ? v vs' Hr Hrs]; subst; [done|].
  inversion_clear Hl as [|?? Hlt Hls]. cbn in Hv, Hf, Hle. apply andb_true_iff in Hv as [Hv Hvs].
  destruct (layout_walks resolve t d fuel Hd Hv) as [Ea Es]; [unfold maxl in *; lia|].
  destruct (layout_good t Hv) as (Hp & Hs & _). pose proof (pow2_align_pos _ Hp).
  pose proof (align_to_bounds o (spec_align t) ltac:(done)).
  pose proof (places_ge (layout <$> ts) (place o (layout t)) (layouts_good ts Hvs)).
  assert (place o (layout t) = align_to o (spec_align t) + spec_size t) as Epl by done.
  assert (0 ≤ spec_size t) by done.
  cbn [load_fields]. rewrite Er. cbn [at_ obind]. rewrite Ea. cbn [obind].
  rewrite (Align_to_fits o (spec_align t)) by (done || lia).
  rewrite (Hlt d fuel _ v); [|done|done|unfold maxl in *; lia|apply align_to_divide|split; lia|done].
  cbn [at_ obind]. rewrite Es. cbn [obind]. rewrite wrap_small by lia. rewrite <- Epl.
  rewrite (IH (place o (layout t)) vs'); try done; [unfold maxl in *; lia|lia].
Qed.

Lemma load_payload_ok fuel o r c v :
  from_option loads True c → option_Forall2 (ref_denotes resolve) r c →
  from_option valid true c = true → (from_option height 0 c ≤ fuel)%nat →
  (∀ t, c = Some t → (spec_align t | o) ∧ block m o (spec_size t)) →
  rep_payload F m o c v → load_payload resolve (loadValue m fuel resolve) o r = Ok v.
Proof.
  intros Hl Hr Hv Hf Hb Hrep. destruct Hr as [r t (d & Er & Hd)|]; inversion Hrep; subst; [|done].
  cbn in *. rewrite Er. cbn [obind]. destruct (Hb t eq_refl) as [Ha Hk].
  by rewrite (Hl d fuel o v) by done.
Qed.

Lemma load_elems_ok fuel d t q n l i :
  loads t → denotes resolve d t → valid t = true → (height t ≤ fuel)%nat → (spec_align t | q) →
  block m q (n * spec_size t) → n < 2 ^ 32 → 0 ≤ i → i + zlen l = n →
  (∀ j v, l !! j = Some v → rep F m (q + (i + Z.of_nat j) * spec_size t) t v) →
  load_elems (loadValue m fuel resolve) d q (spec_size t) (seqZ i (zlen l)) = Ok l.
Proof.
  intros Hl Hd Hv Hf Hq [Hq0 Hle] Hn. destruct (layout_good t Hv) as (Hp & Hs & Hdvd).
  assert (0 ≤ spec_size t) by done.
  revert i; induction l as [|v l IH]; intros i Hi Hlen Hall; [done|].
  rewrite zlen_cons in *. pose proof (zlen_nonneg l). rewrite seqZ_cons by lia. cbn [load_elems].
  assert (u32 (q + u32 (i * spec_size t)) = q + i * spec_size t) as ->.
  { rewrite (wrap_small 32 (i * spec_size t)), wrap_small by nia. done. }
  rewrite (Hl d fuel _ v); [|done|done|done|by apply elem_aligned|split; nia|].
  2: { specialize (Hall 0%nat v eq_refl). by replace (i + Z.of_nat 0) with i in Hall by lia. }
  cbn [at_ obind]. replace (Z.pred (1 + zlen l)) with (zlen l) by lia.
  rewrite (IH (Z.succ i)); [done|lia|lia|]. intros j v' Hj.
  replace (Z.succ i + Z.of_nat j) with (i + Z.of_nat (S j)) by lia. by apply Hall.
Qed.

Lemma scalarPrim_denotes d t : denotes resolve d t → scalarPrim d = match t with TPrim p => Some p | _ => None end.
Proof. by destruct 1. Qed.

Lemma loadAnyList_ok fuel d t q n v :
  loads t → denotes resolve d t → valid t = true → (height t ≤ fuel)%nat →
  rep_elems F m q t n v →
  loadAnyListFromRange m (Alignment fuel resolve) (Size fuel resolve) (loadValue m fuel resolve) q n d = Ok v.
Proof.
  intros Hl Hd Hv Hf Hrep. unfold loadAnyListFromRange. rewrite (scalarPrim_denotes d t Hd).
  inversion Hrep as [? ? p k ? l Hk Hn Hn32 Hprod Hb Hall|? ? ? l Hk Hn Hn32 Hprod Hb Hq Hall]; subst.
  - destruct t; try done. cbn in Hk. apply fmap_Some in Hk as (k' & Hk & [= -> ->]).
    unfold spec_size in *. cbn in Hprod, Hb, Hall. by rewrite (liftScalarList_ok q p0 k' l).
  - assert (match (match t with TPrim p => Some p | _ => None end) with
            | Some prim => liftScalarList m q (zlen l) prim | None => None end = None) as ->.
    { destruct t; try done. cbn in Hk. by destruct p. }
    unfold loadListFromRange. destruct (layout_walks resolve t d fuel Hd Hv Hf) as [-> ->]. cbn [obind].
    pose proof (zlen_nonneg l). destruct (layout_good t Hv) as (Hp & Hs & _). assert (0 ≤ spec_size t) by done.
    rewrite (wrap_small 32 (zlen l * spec_size t)) by nia.
    destruct (block_guard q (zlen l * spec_size t) Hb) as [-> _]; [nia|].
    pose proof (pow2_align_pos _ Hp). destruct Hb as [Hq0 Hqle].
    assert (align_to q (spec_align t) = q) as Eq by (apply align_to_id; done).
    rewrite (Align_to_fits q (spec_align t)) by (done || (rewrite Eq; nia)).
    rewrite Eq, Z.eqb_refl. cbn [negb].
    by rewrite (load_elems_ok fuel d t q (zlen l) l 0); try done; try lia.
Qed.

Lemma load_ptr_len ptr q n :
  block m ptr 8 → 0 ≤ q < 2 ^ 32 → 0 ≤ n < 2 ^ 32 →
  bytes_at F m ptr (le_encode 4 q) → bytes_at F m (ptr + 4) (le_encode 4 n) →
  loadInt m ptr 4 false = Ok (VU32 q) ∧ loadInt m (u32 (ptr + 4)) 4 false = Ok (VU32 n).
Proof.
  intros Hb Hq Hn H1 H2. destruct Hb. rewrite (wrap_small 32 (ptr + 4)) by lia.
  split; [apply (loadInt_unsigned ptr 4 q)|apply (loadInt_unsigned (ptr + 4) 4 n)]; (done || unfold int_width; lia).
Qed.

Lemma loadList_ok fuel d t ptr v :
  loads t → denotes resolve d t → valid t = true → (height t ≤ fuel)%nat → block m ptr 8 →
  rep F m ptr (TList t) v →
  loadList m (Alignment fuel resolve) (Size fuel resolve) (loadValue m fuel resolve) ptr d = Ok v.
Proof.
  intros Hl Hd Hv Hf Hb Hrep. inversion Hrep as [| | | | |? ? ? q n H1 H2 He| | | | | | |]; subst.
  assert (0 ≤ q < 2 ^ 32 ∧ 0 ≤ n < 2 ^ 32) as [Hq Hn].
  { destruct (layout_good t Hv) as (_ & Hs & _).
    inversion He as [? ? ? ? ? l ? ? ? ? [? ?]|? ? ? l ? ? ? ? [? ?]]; subst; unfold spec_size in *;
      pose proof (zlen_nonneg l); nia. }
  destruct (load_ptr_len ptr q n Hb Hq Hn H1 H2) as [E1 E2]. unfold loadList. rewrite E1. cbn [obind].
  rewrite E2. cbn [obind asU32]. by apply (loadAnyList_ok fuel d t).
Qed.

(** The alignment that places a variant's payload. *)
Lemma case_align_ok fuel cs0 cs :
  Forall2 (λ c, option_Forall2 (ref_denotes resolve) (vc_Type c)) cs0 cs →
  forallb (from_option valid true) cs = true →
  (maxl (from_option height 0%nat <$> cs) ≤ fuel)%nat →
  MaxCaseAlignment resolve (Alignment fuel resolve) cs0 = Ok (max_list 1 (omap (fmap layout) cs).*1).
Proof.
  intros Hcs Hv Hf. unfold MaxCaseAlignment.
  apply (max_align_loop_ok _ _ (Size fuel resolve)), walks_cases; try done.
  apply Forall_forall. intros [t|] _; [apply layout_walks|done].
Qed.

Lemma case_layout_in (cs : list (option ty)) (d : nat) t : cs !! d = Some (Some t) → layout t ∈ omap (fmap layout) cs.
Proof. intros H. apply list_elem_of_omap. exists (Some t). split; [by eapply list_elem_of_lookup_2|done]. Qed.

Lemma disc_block n ptr s : block m ptr s → spec_disc n ≤ s → u32 (ptr + spec_disc n) = ptr + spec_disc n.
Proof.
  intros [Hp Hle] Hs. pose proof (pow2_align_pos _ (spec_disc_pow2 n)). apply wrap_small. lia.
Qed.

(** Aligning the payload's address does not wrap. *)
Lemma payload_Align n ls ptr :
  Forall good ls → (variant_align n ls | ptr) → block m ptr (variant_size n ls) →
  Align (u32 (ptr + spec_disc n)) (max_list 1 ls.*1) = payload_at n ls ptr.
Proof.
  intros Hg Ha [Hp Hle]. pose proof (variant_size_disc n ls Hg).
  rewrite (disc_block n ptr (variant_size n ls)) by (done || lia).
  pose proof (pow2_align_pos _ (spec_disc_pow2 n)). pose proof (max_pow2 ls Hg) as Hpow.
  apply Align_to_fits; [done|lia|].
  assert (align_to (ptr + spec_disc n) (max_list 1 ls.*1) ≤ ptr + variant_size n ls); [|lia].
  rewrite align_to_shift; [|by apply pow2_align_pos|].
  - unfold variant_size. pose proof (max_list_ge 0 ls.*2).
    pose proof (align_to_bounds (align_to (spec_disc n) (max_list 1 ls.*1) + max_list 0 ls.*2) (variant_align n ls)
      (pow2_align_pos _ (pow2_align_max _ _ (spec_disc_pow2 n) Hpow))). lia.
  - eapply Z.divide_trans; [|exact Ha]. apply pow2_align_dvd; [done| |unfold variant_align; lia].
    by apply pow2_align_max; [apply spec_disc_pow2|].
Qed.

Lemma payload_block n ls ptr l :
  Forall good ls → (variant_align n ls | ptr) → block m ptr (variant_size n ls) → l ∈ ls →
  (l.1 | payload_at n ls ptr) ∧ block m (payload_at n ls ptr) l.2.
Proof.
  intros Hg Ha [Hp Hle] Hl. destruct (payload_placed n ls ptr l Hg Ha Hl) as (H1 & H2 & H3).
  pose proof (pow2_align_pos _ (spec_disc_pow2 n)). split; [done|]. unfold payload_at. split; lia.
Qed.

Lemma loadVariant_ok fuel cs0 cs ptr v :
  Forall (from_option loads True) cs →
  Forall2 (λ c, option_Forall2 (ref_denotes resolve) (vc_Type c)) cs0 cs →
  forallb (from_option valid true) cs = true → 0 < zlen cs < 2 ^ 32 →
  (maxl (from_option height 0%nat <$> cs) ≤ fuel)%nat →
  (spec_align (TVariant cs) | ptr) → block m ptr (spec_size (TVariant cs)) → rep F m ptr (TVariant cs) v →
  loadVariant m resolve (Alignment fuel resolve) (loadValue m fuel resolve) ptr cs0 = Ok v.
Proof.
  intros Hl Hcs Hv Hn Hf Ha Hb Hrep. inversion Hrep as [| | | |? ? d p c Hd Hc Hdisc Hpay| | | | | | | |]; subst.
  assert (zlen cs = zlen cs0) as En by (unfold zlen; f_equal; symmetry; by eapply Forall2_length).
  pose proof (case_layouts_good cs Hv) as Hg. unfold loadVariant. rewrite <- En.
  destruct (disc_ok (zlen cs) Hn) as (_ & _ & ->). cbn [obind].
  rewrite (load_disc ptr (zlen cs) d) by (done || lia). cbn [obind asU32]. unfold OutOfRange.
  rewrite (proj2 (Z.leb_gt _ d)) by lia. rewrite (case_align_ok fuel cs0 cs) by done. cbn [obind].
  rewrite (payload_Align (zlen cs) (omap (fmap layout) cs) ptr) by done.
  destruct (Forall2_lookup_r _ _ _ _ _ Hcs Hc) as (c0 & Hc0 & Hcc). rewrite Hc0.
  rewrite (load_payload_ok fuel _ (vc_Type c0) c p); [done| |done| | | |done].
  - rewrite Forall_lookup in Hl. by apply (Hl (Z.to_nat d)).
  - rewrite forallb_forall in Hv. apply Hv. apply list_elem_of_In. by eapply list_elem_of_lookup_2.
  - etransitivity; [|exact Hf]. apply maxl_elem. apply list_elem_of_fmap_2. by eapply list_elem_of_lookup_2.
  - intros t ->. apply (payload_block (zlen cs) (omap (fmap layout) cs) ptr (layout t)); try done.
    by eapply case_layout_in.
Qed.

Lemma load_disc2 ptr d : 0 ≤ d < 2 → disc_at F m 2 ptr d → loadInt m ptr 1 false = Ok (VU32 d).
Proof. intros Hd. exact (load_disc ptr 2 d Hd eq_refl). Qed.

Lemma loadOption_ok fuel d t ptr v :
  loads t → denotes resolve d t → valid t = true → (height t ≤ fuel)%nat →
  (spec_align (TOption t) | ptr) → block m ptr (spec_size (TOption t)) → rep F m ptr (TOption t) v →
  loadOption m (Alignment fuel resolve) (loadValue m fuel resolve) ptr d = Ok v.
Proof.
  intros Hl Hd Hv Hf Ha Hb Hrep. pose proof (layout_good t Hv) as Hg.
  assert (Forall good [layout t]) as Hgs by (by apply Forall_singleton).
  pose proof (payload_Align 2 [layout t] ptr Hgs Ha Hb) as Ho.
  destruct (payload_block 2 [layout t] ptr (layout t) Hgs Ha Hb ltac:(by left)) as [Hpa Hpb].
  assert (max_list 1 [layout t].*1 = spec_align t) as Emax.
  { cbn. apply Z.max_r. destruct Hg as [Hp _]. pose proof (pow2_align_pos _ Hp). unfold spec_align. lia. }
  rewrite Emax in Ho. change (spec_disc 2) with 1 in Ho.
  destruct (layout_walks resolve t d fuel Hd Hv Hf) as [Ea _]. unfold loadOption.
  inversion Hrep as [| | | | | | | | |? ? H0|? ? ? H1 Hr| |]; subst.
  - rewrite (load_disc2 ptr 0) by (done || lia). cbn [obind asU32]. by rewrite Ea.
  - rewrite (load_disc2 ptr 1) by (done || lia). cbn [obind asU32]. rewrite Ea. cbn [obind]. rewrite Ho.
    by apply Hl.
Qed.

Lemma loadResult_ok fuel ro re o e ptr v :
  from_option loads True o → from_option loads True e →
  option_Forall2 (ref_denotes resolve) ro o → option_Forall2 (ref_denotes resolve) re e →
  from_option valid true o = true → from_option valid true e = true →
  (from_option height 0%nat o ≤ fuel)%nat → (from_option height 0%nat e ≤ fuel)%nat →
  (spec_align (TResult o e) | ptr) → block m ptr (spec_size (TResult o e)) → rep F m ptr (TResult o e) v →
  loadResult m resolve (Alignment fuel resolve) (loadValue m fuel resolve) ptr ro re = Ok v.
Proof.
  intros Hlo Hle Ho He Hvo Hve Hfo Hfe Ha Hb Hrep.
  set (ls := omap (fmap layout) [o; e]).
  assert (Forall good ls) as Hg.
  { apply case_layouts_good. cbn. by rewrite Hvo, Hve. }
  pose proof (payload_Align 2 ls ptr Hg Ha Hb) as Hoff. change (spec_disc 2) with 1 in Hoff.
  assert (∀ c, from_option (walks resolve) True c) as Hw by (intros []; [apply layout_walks|done]).
  pose proof (walks_arm resolve ro o fuel (Hw o) Ho Hvo Hfo) as Ho'.
  pose proof (walks_arm resolve re e fuel (Hw e) He Hve Hfe) as He'.
  pose proof (arm_align_ok _ _ _ _ _ 1 Ho') as E1.
  pose proof (arm_align_ok _ _ _ _ _ (max_list 1 (option_list (layout <$> o)).*1) He') as E2.
  assert (max_list (max_list 1 (option_list (layout <$> o)).*1) (option_list (layout <$> e)).*1 = max_list 1 ls.*1) as Emax.
  { unfold max_list, ls. rewrite option_list_omap, fmap_app, foldl_app. done. }
  rewrite Emax in E2.
  inversion Hrep as [| | | | | | | | | | |? ? ? isErr p Hdisc Hpay|]; subst.
  unfold loadResult. rewrite (load_disc2 ptr (if isErr then 1 else 0)) by (done || by destruct isErr).
  cbn [obind asU32]. rewrite E1. cbn [obind]. rewrite E2. cbn [obind]. rewrite Hoff.
  assert (∀ t, (if isErr then e else o) = Some t → layout t ∈ ls) as Hin.
  { intros t Et. destruct isErr; subst; [apply (case_layout_in _ 1%nat)|apply (case_layout_in _ 0%nat)]; done. }
  destruct isErr; cbn beta iota.
  - rewrite (load_payload_ok fuel _ re e p); try done.
    intros t ->. by apply (payload_block 2 ls ptr (layout t)), Hin.
  - rewrite (load_payload_ok fuel _ ro o p); try done.
    intros t ->. by apply (payload_block 2 ls ptr (layout t)), Hin.
Qed.

Lemma loads_fields_record fuel rs ts ptr vs :
  Forall loads ts → Forall2 (ref_denotes resolve) rs ts → forallb valid ts = true →
  (maxl (height <$> ts) ≤ fuel)%nat →
  (record_align (layout <$> ts) | ptr) → block m ptr (record_size (layout <$> ts)) → rep_fields F m ptr ts vs →
  load_fields resolve (Alignment fuel resolve) (Size fuel resolve) (loadValue m fuel resolve) rs ptr = Ok vs.
Proof.
  intros Hl Hr Hv Hf Ha [Hp Hb] Hrep. apply load_fields_ok with ts; try done.
  pose proof (record_places (layout <$> ts) ptr (layouts_good ts Hv) Ha). lia.
Qed.

Lemma loadValue_ok t : loads t.
Proof.
  induction t as [p|ts IH|ts IH|cs IH|t IH|t n IH|n|n|t IH|o e IHo IHe|] using ty_ind';
    intros d [|fuel] ptr v Hd Hv Hf Ha Hb Hrep; try (cbn in Hf; lia);
    apply valid_inv in Hv as [_ Hv]; inversion Hd; subst; clear Hd; cbn [loadValue height] in *.
  - inversion Hrep; subst; [by eapply loadPrimitive_ok|by eapply loadString_ok].
  - unfold loadRecord. inversion Hrep; subst.
    rewrite (loads_fields_record fuel (rf_Type <$> fs) ts ptr vs); try done; [by apply Forall2_fmap_l|lia].
  - unfold loadTuple. inversion Hrep; subst.
    rewrite (loads_fields_record fuel es ts ptr vs); try done. lia.
  - destruct Hv as [Hn Hv]. apply (loadVariant_ok fuel cs0 cs); try done. lia.
  - match goal with H : resolveType _ _ = _ |- _ => rewrite H end. cbn [obind].
    apply (loadList_ok fuel d0 t); try done. lia.
  - apply (loadList_ok fuel _ (TTuple [tk; tv])); try done; [|cbn [height]; lia].
    constructor. constructor; [by eexists|]. constructor; [by eexists|constructor].
  - match goal with H : resolveType _ _ = _ |- _ => rewrite H end. cbn [obind]. destruct Hv as [_ Hv].
    inversion Hrep; subst. apply (loadAnyList_ok fuel d0 t); try done. lia.
  - inversion Hrep; subst. by apply loadFlags_ok.
  - inversion Hrep; subst. apply loadEnum_ok; try done. lia.
  - match goal with H : resolveType _ _ = _ |- _ => rewrite H end. cbn [obind].
    apply (loadOption_ok fuel d0 t); try done. lia.
  - cbn [forallb] in Hv. rewrite !andb_true_iff in Hv. destruct Hv as (Hvo & Hve & _).
    apply (loadResult_ok fuel ro re o e); try done; lia.
  - inversion Hrep; subst. rewrite (loadInt_unsigned ptr 4 h) by (done || unfold int_width; lia). done.
  - inversion Hrep; subst. rewrite (loadInt_unsigned ptr 4 h) by (done || unfold int_width; lia). done.
  - inversion Hrep; subst. rewrite (loadInt_unsigned ptr 4 h) by (done || unfold int_width; lia). done.
  - inversion Hrep; subst. rewrite (loadInt_unsigned ptr 4 h) by (done || unfold int_width; lia). done.
Qed.

Lemma Load_ok d t fuel ptr v :
  denotes resolve d t → valid t = true → (height t ≤ fuel)%nat →
  (spec_align t | ptr) → block m ptr (spec_size t) → rep F m ptr t v →
  Load m fuel resolve ptr d = Ok v.
Proof.
  intros Hd Hv Hf Ha Hb Hrep. unfold Load.
  destruct (layout_walks resolve t d fuel Hd Hv Hf) as [-> ->]. cbn [obind].
  destruct (layout_good t Hv) as (Hp & Hs & _). assert (0 ≤ spec_size t) by done.
  assert (align_to ptr (spec_align t) = ptr) as Eq by (apply align_to_id; [by apply pow2_align_pos|done]).
  pose proof Hb as [Hp0 Hle].
  rewrite (Align_to_fits ptr (spec_align t)) by (done || (rewrite Eq; lia)). rewrite Eq, Z.eqb_refl. cbn [negb].
  destruct (block_guard ptr (spec_size t) Hb) as [-> _]; [done|]. by apply (loadValue_ok t).
Qed.
End load.

(** * Theorems *)

(** C2. [Load] is correct: where memory holds the Canonical ABI's representation
    of a value of a valid type, at an aligned pointer, [Load] returns exactly
    that value, through every kind of type and every level of indirection.  The
    set [F] of addresses the representation uses is all it depends on. *)
Theorem Load_correct F m resolve d t fuel ptr v :
  zlen m < 2 ^ 32 → denotes resolve d t → valid t = true → (height t ≤ fuel)%nat →
  (spec_align t | ptr) → block m ptr (spec_size t) → rep F m ptr t v →
  Load m fuel resolve ptr d = Ok v ∧
  ∀ m' F', extends F F' m m' → zlen m' < 2 ^ 32 → Load m' fuel resolve ptr d = Ok v.
Proof.
  intros Hm Hd Hv Hf Ha Hb Hrep. split; [by eapply Load_ok|].
  intros m' F' Hx Hm'. eapply (Load_ok F' m'); try done; [by eapply block_frame|by eapply rep_frame].
Qed.

(** An option of a pair of a string and a list of u16, at 8: the string "hi" is
    at 0 and the list [[1; 515]] at 2. *)
Definition sample_mem : list Z :=
  [104; 105; 1; 0; 3; 2; 0; 0] ++ [1; 0; 0; 0] ++ [0; 0; 0; 0; 2; 0; 0; 0] ++ [2; 0; 0; 0; 2; 0; 0; 0].
Definition sample_load_ty : ty := TOption (TTuple [TPrim Pstring; TList (TPrim Pu16)]).
Definition sample_load_types (i : Z) : option TypeDesc :=
  match i with
  | 0 => Some (TupleDesc [prim_ref Pstring; idx_ref 1])
  | 1 => Some (ListDesc (prim_ref Pu16))
  | _ => None
  end.
Definition sample_value : Value := VList [VString [104; 105]; VSlice KU16 [1; 515]].

Lemma sample_load_denotes : denotes (Some sample_load_types) (OptionDesc (idx_ref 0)) sample_load_ty.
Proof. solve_denotes. Qed.

(** Proves [bytes_at] on concrete memory. *)
Ltac solve_bytes_at :=
  split; [vm_compute; discriminate|]; intros i b Hi;
  repeat (destruct i as [|i]; [vm_compute in Hi; injection Hi as <-; split; [exact I|reflexivity]|]);
  vm_compute in Hi; discriminate.

Lemma sample_rep : rep (λ _, True) sample_mem 8 sample_load_ty sample_value.
Proof.
  apply rep_some; [solve_bytes_at|]. apply rep_tuple. apply repf_cons.
  - apply (rep_string _ _ _ _ 0); [done|done|solve_bytes_at..| |solve_bytes_at]. split; [lia|vm_compute; discriminate].
  - apply repf_cons; [|apply repf_nil]. apply (rep_list _ _ _ _ _ 2 2); [solve_bytes_at..|].
    apply (repe_slice _ _ _ _ Pu16); try done.
    intros [|[|i]] e Hi; [injection Hi as <-..|done]; eexists; (split; [reflexivity|solve_bytes_at]).
Qed.

Lemma Load_correct_witness :
  Load sample_mem 4 (Some sample_load_types) 8 (OptionDesc (idx_ref 0)) = Ok sample_value.
Proof.
  apply (Load_correct (λ _, True) sample_mem (Some sample_load_types) (OptionDesc (idx_ref 0)) sample_load_ty 4 8
    sample_value eq_refl sample_load_denotes eq_refl); [cbn; lia|by exists 2|split; [lia|vm_compute; discriminate]|].
  exact sample_rep.
Defined.

(** Unlike the stores, [Load] is not safe on every pointer: the guards add
    without checking for wrap-around, so an aligned pointer at the end of the
    address space passes them and the slice expression panics. *)
Theorem Load_panics_at_end :
  Load (replicate 16 0) 1 None (2 ^ 32 - 8) (PrimitiveDesc Pu64) = Panic ∧
  Load (le_encode 4 (2 ^ 32 - 1) ++ le_encode 4 1) 1 None 0 (PrimitiveDesc Pstring) = Panic.
Proof. split; reflexivity. Qed.
