(* ===== verification/AbiRoundtrip.v ===== *)
(** Storing a value and loading it back.

    The guest's allocator is outside the code; [FreshRealloc] is what a store
    relies on of it: a successful allocation returns an aligned block of the
    live memory that is disjoint from the addresses in use ([owned]), and
    changes nothing there, though it may move the memory and write anywhere
    else.  Against that interface, a store of a well-typed value at an owned
    slot ends with the value represented ([AbiRep]), using only the slot and
    fresh addresses, or fails because an allocation did, or because the value
    has a [none] as the payload of a variant's case, which the code refuses;
    together with [Load_ok] this is the round trip.

    The proofs use assertions that are stable under writes elsewhere
    ([stable]), so that what one part of a store has established survives the
    rest. *)
From Stdlib Require Import ZArith Lia String.
From stdpp Require Import base list numbers option tactics.
From S2P Require Import Prelude AbiTypes AbiLayout AbiLoad AbiStore AbiSafety AbiRep.
Local Open Scope Z_scope.
Local Open Scope go_scope.

(** * The allocator *)

(** The bytes of the live memory. *)
Definition cont {G} (w : world G) : list Z :=
  take (Z.to_nat (v_len (live w))) (default [] (arrays w !! v_arr (live w))).

(** The world after the host writes [bytes] at [lo] of the live memory. *)
Definition write {G} (w : world G) (lo : Z) (bytes a : list Z) : world G :=
  mkWorld (<[v_arr (live w) := list_inserts (Z.to_nat lo) bytes a]> (arrays w)) (live w) (guest w).

Class FreshRealloc {G} (realloc : Realloc G) (winv : world G → Prop) (owned : world G → Z → Prop) : Prop := {
  fr_live : ∀ w, winv w → 0 ≤ v_len (live w) < 2 ^ 32 ∧
    ∃ a, arrays w !! v_arr (live w) = Some a ∧ v_len (live w) ≤ zlen a;
  fr_owned : ∀ w x, winv w → owned w x → 0 ≤ x < v_len (live w);
  fr_write : ∀ w lo bytes a, winv w → arrays w !! v_arr (live w) = Some a → 0 ≤ lo →
    (∀ x, lo ≤ x < lo + zlen bytes → owned w x) →
    winv (write w lo bytes a) ∧ ∀ x, owned (write w lo bytes a) x ↔ owned w x;
  fr_call : ∃ call, Call realloc = Some call ∧
    ∀ w align n, winv w → pow2_align align → 0 ≤ n < 2 ^ 32 →
    (∃ w', call w 0 0 align n = (w', Err ERealloc)) ∨
    (∃ w' p, call w 0 0 align n = (w', Ok p) ∧ winv w' ∧ (align | p) ∧
       0 ≤ p ∧ p + n ≤ v_len (live w') ∧ v_len (live w) ≤ v_len (live w') ∧
       (∀ x, p ≤ x < p + n → owned w' x ∧ ¬ owned w x) ∧
       (∀ x, owned w x → owned w' x ∧ cont w' !! Z.to_nat x = cont w !! Z.to_nat x));
  fr_mem : ∃ f, Mem realloc = Some f ∧ ∀ w, f w = Some (live w);
}.

(** * Stable assertions *)

Definition assertion : Type := (Z → Prop) → list Z → Prop.

Definition stable (P : assertion) : Prop :=
  ∀ F F' m m', extends F F' m m' → P F m → P F' m'.

Lemma stable_rep ptr t v : stable (λ F m, rep F m ptr t v).
Proof. intros F F' m m'. apply rep_frame. Qed.
Lemma stable_bytes ptr bs : stable (λ F m, bytes_at F m ptr bs).
Proof. intros F F' m m'. apply bytes_at_frame. Qed.
Lemma stable_block ptr n : stable (λ _ m, block m ptr n).
Proof. intros F F' m m'. apply block_frame. Qed.
Lemma stable_pure (P : Prop) : stable (λ _ _, P).
Proof. by intros F F' m m' _. Qed.
Lemma stable_and (P Q : assertion) : stable P → stable Q → stable (λ F m, P F m ∧ Q F m).
Proof. intros HP HQ F F' m m' Hx [? ?]. split; [by eapply HP|by eapply HQ]. Qed.
Lemma stable_all {A} (P : A → assertion) : (∀ a, stable (P a)) → stable (λ F m, ∀ a, P a F m).
Proof. intros HP F F' m m' Hx H a. by eapply HP. Qed.
Lemma stable_impl (P : Prop) (Q : assertion) : stable Q → stable (λ F m, P → Q F m).
Proof. intros HQ F F' m m' Hx H HP. eapply HQ; eauto. Qed.
Lemma stable_ex {A} (P : A → assertion) : (∀ a, stable (P a)) → stable (λ F m, ∃ a, P a F m).
Proof. intros HP F F' m m' Hx [a H]. exists a. by eapply HP. Qed.

(** Decomposes an assertion and proves it stable. *)
Ltac solve_stable :=
  solve [ intros; cbn beta;
  repeat first
    [ assumption | apply stable_pure | apply stable_rep | apply stable_bytes | apply stable_block
    | apply stable_and | apply stable_ex; intros | apply stable_all; intros | apply stable_impl
    | solve [auto] ] ].

(** An address range. *)
Definition range (lo hi x : Z) : Prop := lo ≤ x < hi.

(** The innermost error. *)
Fixpoint root (e : abi_error) : abi_error := match e with EAt e => root e | e => e end.

(** How a store of a well-typed value fails: the allocator did, or, when the
    value may have one, it met a [none] as the payload of a variant's case. *)
Definition tolerated (nones : bool) (e : abi_error) : Prop :=
  root e = ERealloc ∨ (nones = true ∧ ∃ d, root e = EMissingPayload d).

Section stores.
Context {G : Type} (realloc : Realloc G) (winv : world G → Prop) (owned : world G → Z → Prop).
Context `{!FreshRealloc realloc winv owned}.
Context (nones : bool).


(** From [w] to [w'], the host and the allocator changed, of the owned
    addresses, only those in [S]. *)
Definition step (w w' : world G) (S : Z → Prop) : Prop :=
  winv w' ∧ v_len (live w) ≤ v_len (live w') ∧
  ∀ x, owned w x → owned w' x ∧ (¬ S x → cont w' !! Z.to_nat x = cont w !! Z.to_nat x).

(** The addresses a step may have given new meaning. *)
Definition fresh (w w' : world G) (S : Z → Prop) (x : Z) : Prop :=
  S x ∨ (owned w' x ∧ ¬ owned w x).

Lemma zlen_cont w : winv w → zlen (cont w) = v_len (live w).
Proof.
  intros Hw. destruct (fr_live w Hw) as ([? _] & a & Ea & Hle). unfold cont. rewrite Ea. cbn.
  unfold zlen in *. rewrite length_take. lia.
Qed.

(** The computation, run from [w] through the live view, ends with [P], having
    changed of the owned addresses only [S]; or the allocator failed. *)
Definition runs {A} (w : world G) (S : Z → Prop) (m : ST G A) (P : A → assertion) : Prop :=
  ∃ w' mem' r, m w (live w) = (w', mem', r) ∧
  match r with
  | Ok a => mem' = live w' ∧ step w w' S ∧ P a (fresh w w' S) (cont w')
  | Err e => tolerated nones e
  | _ => False
  end.

Lemma step_refl w S : winv w → step w w S.
Proof. intros Hw. split; [done|]. split; [lia|]. by intros x Hx. Qed.

(** An assertion about [F] survives a step that does not touch [F]. *)
Lemma step_extends w w1 S F F' :
  winv w → step w w1 S → (∀ x, F x → owned w x ∧ ¬ S x ∧ F' x) → extends F F' (cont w) (cont w1).
Proof.
  intros Hw (Hw1 & Hlen & Hx) HF. split; [by rewrite !zlen_cont|].
  intros x _ Hf. destruct (HF x Hf) as (Ho & Hs & Hf'). split; [done|]. by apply Hx.
Qed.

Lemma extends_mono (F F' : Z → Prop) m : (∀ x, F x → F' x) → extends F F' m m.
Proof. intros H. split; [lia|]. intros x _ Hx. split; [by apply H|done]. Qed.

Lemma runs_ret {A} w S (a : A) (P : A → assertion) :
  winv w → (∀ F, P a F (cont w)) → runs w S (sret a) P.
Proof. intros Hw HP. do 3 eexists. split; [done|]. cbn. split_and!; [done|by apply step_refl|apply HP]. Qed.

Lemma runs_lift {A B} w S (r : res A) (a : A) (k : A → ST G B) P :
  r = Ok a → runs w S (k a) P → runs w S (sbind (slift r) k) P.
Proof. intros -> H. exact H. Qed.

Lemma runs_sat {A} w S (m : ST G A) P : runs w S m P → runs w S (sat m) P.
Proof.
  intros (w' & mem' & r & E & H). exists w', mem', (at_ r). split; [unfold sat; by rewrite E|]. by destruct r.
Qed.

Lemma runs_weaken {A} w (S S' : Z → Prop) (m : ST G A) (P P' : A → assertion) :
  (∀ x, S x → S' x) → (∀ a, stable (P a)) → (∀ a F mm, P a F mm → P' a F mm) →
  runs w S m P → runs w S' m P'.
Proof.
  intros HS Hst HP (w' & mem' & r & E & H). exists w', mem', r. split; [done|]. destruct r as [a|e| |]; try done.
  destruct H as (-> & (Hw' & Hl & Hx) & HPa). split; [done|]. split.
  - split; [done|]. split; [done|]. intros x Ho. destruct (Hx x Ho) as [? Hc]. split; [done|]. auto.
  - apply HP. eapply Hst; [|exact HPa]. apply extends_mono. unfold fresh. intros x [?|?]; [left|right]; auto.
Qed.

Lemma step_trans w w1 w2 (S S' : Z → Prop) :
  step w w1 S → step w1 w2 S' → (∀ x, S' x → fresh w w1 S x) → step w w2 S.
Proof.
  intros (Hw1 & Hl1 & H1) (Hw2 & Hl2 & H2) HS. split; [done|]. split; [lia|]. intros x Hx.
  destruct (H1 x Hx) as [Hx1 Hc1]. destruct (H2 x Hx1) as [Hx2 Hc2]. split; [done|]. intros Hn.
  rewrite Hc2; [by apply Hc1|]. intros Hs'. destruct (HS x Hs') as [?|[_ ?]]; done.
Qed.

(** One part after another, on disjoint slots: both assertions hold at the
    end. *)
Lemma runs_seq {A B} w (S1 S2 : Z → Prop) (m : ST G A) (k : A → ST G B) (P1 : A → assertion) (P2 : A → B → assertion) :
  winv w → (∀ x, S1 x → owned w x) → (∀ x, S2 x → owned w x ∧ ¬ S1 x) →
  (∀ a, stable (P1 a)) → (∀ a b, stable (P2 a b)) →
  runs w S1 m P1 →
  (∀ a w1, step w w1 S1 → P1 a (fresh w w1 S1) (cont w1) → runs w1 S2 (k a) (P2 a)) →
  runs w (λ x, S1 x ∨ S2 x) (sbind m k) (λ b F mm, ∃ a, P1 a F mm ∧ P2 a b F mm).
Proof.
  intros Hw HS1 HS2 Hst1 Hst2 (w1 & mem1 & r & E & H) Hk. unfold runs, sbind. rewrite E.
  destruct r as [a|e| |]; try done; [|by do 3 eexists]. destruct H as (-> & Hstep1 & HP1).
  destruct (Hk a w1 Hstep1 HP1) as (w2 & mem2 & r2 & E2 & H2). rewrite E2. exists w2, mem2, r2. split; [done|].
  destruct r2 as [b|e| |]; try done. destruct H2 as (-> & Hstep2 & HP2). split; [done|].
  pose proof Hstep1 as (Hw1 & Hl1 & H1). pose proof Hstep2 as (Hw2 & Hl2 & H2). split; [|exists a; split].
  - split; [done|]. split; [lia|]. intros x Hx. destruct (H1 x Hx) as [Hx1 Hc1]. destruct (H2 x Hx1) as [Hx2 Hc2].
    split; [done|]. intros Hn. rewrite Hc2 by tauto. apply Hc1. tauto.
  - eapply Hst1; [|exact HP1]. apply (step_extends w1 w2 S2); [done|done|]. unfold fresh. intros x [Hs|[Ho Hn]].
    + split; [by apply H1, HS1|]. split; [|by left; left]. intros Hs2. by destruct (HS2 x Hs2).
    + split; [done|]. split; [intros Hs2; by destruct (HS2 x Hs2)|]. right. split; [by apply H2|done].
  - eapply Hst2; [|exact HP2]. apply extends_mono. unfold fresh. intros x [Hs|[Ho Hn]]; [by left; right|].
    right. split; [done|]. intros Hx. apply Hn. by apply H1.
Qed.

(** A second part that writes into what the first part made fresh. *)
Lemma runs_into {A B} w (S : Z → Prop) (m : ST G A) (k : A → ST G B) (P1 : A → assertion) (P2 : B → assertion) :
  winv w → (∀ b, stable (P2 b)) → runs w S m P1 →
  (∀ a w1, step w w1 S → P1 a (fresh w w1 S) (cont w1) →
     ∃ S2, (∀ x, S2 x → fresh w w1 S x) ∧ runs w1 S2 (k a) P2) →
  runs w S (sbind m k) P2.
Proof.
  intros Hw Hst (w1 & mem1 & r & E & H) Hk. unfold runs, sbind. rewrite E.
  destruct r as [a|e| |]; try done; [|by do 3 eexists]. destruct H as (-> & Hstep1 & HP1).
  destruct (Hk a w1 Hstep1 HP1) as (S2 & HS2 & w2 & mem2 & r2 & E2 & H2). rewrite E2. exists w2, mem2, r2. split; [done|].
  destruct r2 as [b|e| |]; try done. destruct H2 as (-> & Hstep2 & HP2). split; [done|].
  split; [by eapply step_trans|]. eapply Hst; [|exact HP2]. apply extends_mono.
  pose proof Hstep1 as (Hw1 & Hl1 & H1). pose proof Hstep2 as (Hw2 & Hl2 & H2). intros x [Hs|[Ho Hn]].
  - destruct (HS2 x Hs) as [?|[? ?]]; [by left|right]. split; [by apply H2|done].
  - right. split; [done|]. intros Hx. apply Hn. by apply H1.
Qed.

(** * Writes *)

Lemma lookup_write_in w lo bytes a i b :
  winv w → arrays w !! v_arr (live w) = Some a → 0 ≤ lo → lo + zlen bytes ≤ v_len (live w) →
  bytes !! i = Some b → cont (write w lo bytes a) !! Z.to_nat (lo + Z.of_nat i) = Some b.
Proof.
  intros Hw Ea Hlo Hle Hi. destruct (fr_live w Hw) as ([? _] & a' & Ea' & Hlen). rewrite Ea in Ea'. injection Ea' as <-.
  pose proof (lookup_lt_Some _ _ _ Hi). unfold zlen in *.
  unfold cont, write. cbn. rewrite list_lookup_insert_eq by (by eapply lookup_lt_Some). cbn.
  rewrite lookup_take_lt by lia. rewrite list_lookup_inserts by lia. rewrite <- Hi. f_equal. lia.
Qed.

Lemma lookup_write_out w lo bytes a x :
  winv w → arrays w !! v_arr (live w) = Some a → 0 ≤ lo → 0 ≤ x → ¬ (lo ≤ x < lo + zlen bytes) →
  cont (write w lo bytes a) !! Z.to_nat x = cont w !! Z.to_nat x.
Proof.
  intros Hw Ea Hlo Hx Hout. unfold zlen in *. unfold cont, write. cbn.
  rewrite list_lookup_insert_eq by (by eapply lookup_lt_Some). rewrite Ea. cbn.
  destruct (decide (Z.to_nat x < Z.to_nat (v_len (live w)))%nat).
  - rewrite !lookup_take_lt by done. destruct (decide (x < lo)).
    + by rewrite list_lookup_inserts_lt by lia.
    + by rewrite list_lookup_inserts_ge by lia.
  - by rewrite !lookup_take_ge by lia.
Qed.

Lemma runs_put w lo hi bytes :
  winv w → 0 ≤ lo → hi = lo + zlen bytes → hi ≤ v_len (live w) → (∀ x, range lo hi x → owned w x) →
  runs w (range lo hi) (put_span lo hi bytes) (λ _ F m, bytes_at F m lo bytes).
Proof.
  intros Hw Hlo -> Hle Hown. pose proof (zlen_nonneg bytes).
  destruct (fr_live w Hw) as ([? _] & a & Ea & Hlen).
  destruct (fr_write w lo bytes a Hw Ea Hlo Hown) as [Hw' How'].
  exists (write w lo bytes a), (live w), (Ok tt). split.
  { unfold put_span. rewrite (proj2 (Z.leb_le 0 lo)), (proj2 (Z.leb_le lo _)), (proj2 (Z.leb_le _ (v_len (live w)))) by lia.
    cbn [andb]. rewrite Ea. unfold write. repeat f_equal. apply take_ge. unfold zlen. lia. }
  cbn. split; [done|]. split.
  - split; [done|]. split; [cbn; lia|]. intros x Hx. split; [by apply How'|]. intros Hout.
    apply lookup_write_out; try done. by apply (fr_owned w x Hw).
  - split; [done|]. intros i b Hi. pose proof (lookup_lt_Some _ _ _ Hi). split; [|by apply lookup_write_in].
    left. unfold range, zlen. lia.
Qed.

Lemma guard_passes ptr n len :
  0 ≤ ptr → 0 ≤ n → ptr + n ≤ len → len < 2 ^ 32 →
  (u32 (ptr + n) <? ptr) || (u32 len <? u32 (ptr + n)) = false ∧ u32 (ptr + n) = ptr + n.
Proof.
  intros. rewrite !wrap_small by lia. split; [|done].
  apply orb_false_iff. split; apply Z.ltb_ge; lia.
Qed.

(** The slot [ptr, ptr+n) is owned. *)
Definition slot (w : world G) (ptr n : Z) : Prop :=
  0 ≤ ptr ∧ ptr + n ≤ v_len (live w) ∧ ∀ x, range ptr (ptr + n) x → owned w x.

Lemma slot_sub w ptr n ptr' n' : slot w ptr n → ptr ≤ ptr' → ptr' + n' ≤ ptr + n → slot w ptr' n'.
Proof. unfold slot, range. intros (H1 & H2 & H3) ? ?. split_and!; [lia|lia|]. intros x ?. apply H3. lia. Qed.

Lemma slot_step w w' S ptr n : step w w' S → slot w ptr n → slot w' ptr n.
Proof.
  intros (_ & Hl & Hx) (H1 & H2 & H3). split_and!; [done|lia|]. intros x Hr. by apply Hx, H3.
Qed.

Lemma runs_storeInt w ptr v n x :
  winv w → int_width n → slot w ptr n →
  v = VU32 x ∨ v = VU64 x →
  runs w (range ptr (ptr + n)) (storeInt ptr v n) (λ _ F m, bytes_at F m ptr (le_encode (Z.to_nat n) x)).
Proof.
  intros Hw Hn (Hp & Hle & Hown) Hv. destruct (fr_live w Hw) as ([Hl Hl32] & _).
  assert (0 < n) as Hn0 by (unfold int_width in Hn; lia).
  destruct (guard_passes ptr n (v_len (live w)) Hp ltac:(lia) Hle Hl32) as [Hg E].
  assert (zlen (le_encode (Z.to_nat n) x) = n) as El by (rewrite zlen_le_encode; lia).
  destruct (runs_put w ptr (ptr + n) (le_encode (Z.to_nat n) x)) as (w' & mem' & r & Er & H); try done; [by rewrite El|].
  exists w', mem', r. split; [|exact H]. unfold storeInt, sbind, slen. rewrite Hg, E.
  assert ((n =? 1) || (n =? 2) || (n =? 4) || (n =? 8) = true) as ->
    by (destruct Hn as [->|[->|[->| ->]]]; done).
  by destruct Hv as [-> | ->].
Qed.

(** The same through a conversion that keeps the low bytes. *)
Lemma le_encode_mod n x y : x `mod` 2 ^ (8 * Z.of_nat n) = y `mod` 2 ^ (8 * Z.of_nat n) → le_encode n x = le_encode n y.
Proof.
  revert x y; induction n as [|n IH]; intros x y H; [done|]. cbn [le_encode].
  rewrite Nat2Z.inj_succ in H. replace (2 ^ (8 * Z.succ (Z.of_nat n))) with (256 * 2 ^ (8 * Z.of_nat n)) in H
    by (rewrite Z.mul_succ_r, Z.pow_add_r by lia; lia).
  rewrite !Z.rem_mul_r in H by lia.
  pose proof (Z.mod_pos_bound x 256). pose proof (Z.mod_pos_bound y 256).
  assert (x `mod` 256 = y `mod` 256 ∧ (x `div` 256) `mod` 2 ^ (8 * Z.of_nat n) = (y `div` 256) `mod` 2 ^ (8 * Z.of_nat n)) as [-> Hd]
    by lia.
  f_equal. by apply IH.
Qed.

Lemma le_encode_wrap n w x : 8 * Z.of_nat n ≤ w → le_encode n (wrap w x) = le_encode n x.
Proof.
  intros Hw. apply le_encode_mod. unfold wrap. apply Z.mod_mod_divide.
  exists (2 ^ (w - 8 * Z.of_nat n)). rewrite <- Z.pow_add_r by lia. f_equal. lia.
Qed.

(** * Allocation *)

(** A fresh aligned block. *)
Lemma runs_GrowMem w align n :
  winv w → pow2_align align → 0 ≤ n < 2 ^ 32 →
  ∃ w' mem' r, GrowMem realloc 0 0 align n w (live w) = (w', mem', r) ∧
  match r with
  | Ok p => mem' = live w' ∧ step w w' (λ _, False) ∧ (align | p) ∧ slot w' p n ∧
            ∀ x, range p (p + n) x → fresh w w' (λ _, False) x
  | Err e => tolerated nones e
  | _ => False
  end.
Proof.
  intros Hw Ha Hn. destruct fr_call as (call & Ec & Hcall). destruct fr_mem as (f & Ef & Hf).
  unfold GrowMem, Grow. rewrite Ec.
  destruct (Hcall w align n Hw Ha Hn) as [[w' E]|(w' & p & E & Hw' & Hdiv & Hp & Hle & Hlen & Hfr & Hkeep)]; rewrite E.
  - do 3 eexists. split; [done|]. by left.
  - rewrite Ef, Hf. exists w', (live w'), (Ok p). split; [done|]. split; [done|]. split_and!.
    + split; [done|]. split; [done|]. intros x Hx. destruct (Hkeep x Hx). by split.
    + done.
    + split; [done|]. split; [done|]. intros x Hx. by apply Hfr.
    + intros x Hx. right. by apply Hfr.
Qed.

(** An allocation followed by a computation that fills the block. *)
Lemma runs_alloc {A} w align n (k : Z → ST G A) (P : A → assertion) :
  winv w → pow2_align align → 0 ≤ n < 2 ^ 32 → (∀ a, stable (P a)) →
  (∀ p w1, winv w1 → (align | p) → slot w1 p n → v_len (live w1) < 2 ^ 32 →
     runs w1 (range p (p + n)) (k p) P) →
  runs w (λ _, False) (let! p := sat (GrowMem realloc 0 0 align n) in let! _ := checkAllocated p n in k p) P.
Proof.
  intros Hw Ha Hn Hst Hk.
  destruct (runs_GrowMem w align n Hw Ha Hn) as (w1 & mem1 & r & E & H). unfold runs.
  unfold sbind at 1. unfold sat. rewrite E. destruct r as [p|e| |]; cbn [at_]; try done; [|by do 3 eexists].
  destruct H as (-> & Hstep & Hdiv & Hslot & Hfr). pose proof Hstep as (Hw1 & Hl1 & H1).
  destruct (fr_live w1 Hw1) as ([Hl Hl32] & _). pose proof Hslot as (Hp & Hle & _).
  destruct (guard_passes p n (v_len (live w1)) Hp ltac:(lia) Hle Hl32) as [Hg _].
  destruct (Hk p w1 Hw1 Hdiv Hslot Hl32) as (w2 & mem2 & r2 & E2 & H2).
  exists w2, mem2, r2. split; [unfold sbind, checkAllocated, sbind, slen; by rewrite Hg|].
  destruct r2 as [b|e| |]; try done. destruct H2 as (-> & Hstep2 & HP2). split; [done|].
  split; [by eapply step_trans|]. eapply Hst; [|exact HP2]. apply extends_mono.
  pose proof Hstep2 as (Hw2 & Hl2 & H2). intros x [Hs|[Ho Hno]].
  - destruct (Hfr x Hs) as [?|[? ?]]; [done|right]. split; [by apply H2|done].
  - right. split; [done|]. intros Hx. apply Hno. by apply H1.
Qed.

(** Memory does not shrink, so a block stays one. *)
Lemma runs_block {A} w S (m : ST G A) P p n :
  winv w → slot w p n → runs w S m P → runs w S m (λ a F mm, P a F mm ∧ block mm p n).
Proof.
  intros Hw (Hp & Hle & _) (w' & mem' & r & E & H). exists w', mem', r. split; [done|]. destruct r; try done.
  destruct H as (-> & Hstep & HP). split; [done|]. split; [done|]. split; [done|].
  destruct Hstep as (Hw' & Hl & _). split; [done|]. rewrite zlen_cont by done. lia.
Qed.

(** Runs that end in a constant. *)
Lemma runs_then_ret {A B} w S (m : ST G A) P (b : B) :
  runs w S m P → runs w S (let! _ := m in sret b) (λ b' F mm, b' = b ∧ ∃ a, P a F mm).
Proof.
  intros (w' & mem' & r & E & H). unfold runs, sbind. rewrite E. destruct r as [a|e| |]; try done; [|by do 3 eexists].
  do 3 eexists. split; [done|]. cbn. destruct H as (-> & ? & ?). eauto 10.
Qed.

Lemma runs_seq_range {A B} w lo mid mid' hi (m : ST G A) (k : A → ST G B) (P1 : A → assertion) (P2 : A → B → assertion) :
  winv w → slot w lo (hi - lo) → lo ≤ mid → mid ≤ mid' → mid' ≤ hi →
  (∀ a, stable (P1 a)) → (∀ a b, stable (P2 a b)) →
  runs w (range lo mid) m P1 →
  (∀ a w1, step w w1 (range lo mid) → P1 a (fresh w w1 (range lo mid)) (cont w1) →
     runs w1 (range mid' hi) (k a) (P2 a)) →
  runs w (range lo hi) (sbind m k) (λ b F mm, ∃ a, P1 a F mm ∧ P2 a b F mm).
Proof.
  intros Hw (Hlo & Hle & Hown) H1 H2 H3 Hst1 Hst2 Hm Hk.
  eapply runs_weaken; [| | |eapply (runs_seq w (range lo mid) (range mid' hi)); try done; try exact Hk].
  - unfold range. lia.
  - solve_stable.
  - auto.
  - intros x Hx. apply Hown. unfold range in *. lia.
  - intros x Hx. split; [apply Hown; unfold range in *; lia|unfold range in *; lia].
Qed.

Lemma int_width_4 : int_width 4.
Proof. unfold int_width. lia. Qed.

(** The pointer and length of a string or a list. *)
Lemma runs_ptr_len w ptr q n (wrap1 wrap2 : ST G unit → ST G unit) :
  winv w → slot w ptr 8 →
  (∀ w S m P, runs w S m P → runs w S (wrap1 m) P) → (∀ w S m P, runs w S m P → runs w S (wrap2 m) P) →
  runs w (range ptr (ptr + 8))
    (let! _ := wrap1 (storeInt ptr (VU32 q) 4) in wrap2 (storeInt (u32 (ptr + 4)) (VU32 n) 4))
    (λ _ F m, bytes_at F m ptr (le_encode 4 q) ∧ bytes_at F m (ptr + 4) (le_encode 4 n)).
Proof.
  intros Hw Hs Hw1 Hw2. pose proof Hs as (Hp & Hle & _). destruct (fr_live w Hw) as ([? ?] & _).
  rewrite (wrap_small 32 (ptr + 4)) by lia.
  eapply runs_weaken; [| | |eapply (runs_seq_range w ptr (ptr + 4) (ptr + 4) (ptr + 8) _ _
    (λ _ F m, bytes_at F m ptr (le_encode 4 q)) (λ _ _ F m, bytes_at F m (ptr + 4) (le_encode 4 n)))];
    try lia; try done; try solve_stable.
  - cbn. intros _ F mm (? & ? & ?). done.
  - by replace (ptr + 8 - ptr) with 8 by lia.
  - apply Hw1, (runs_storeInt w ptr (VU32 q) 4 q); auto using int_width_4.
    eapply slot_sub; [exact Hs|lia|lia].
  - intros _ w1 Hstep _. replace (ptr + 8) with (ptr + 4 + 4) by lia.
    apply Hw2, (runs_storeInt w1 (ptr + 4) (VU32 n) 4 n); auto using int_width_4; [apply Hstep|].
    eapply slot_step; [exact Hstep|]. eapply slot_sub; [exact Hs|lia|lia].
Qed.

(** A computation that allocates and returns a pointer and a length, and the
    stores of the two: the shape of [storeString] and [storeList]. *)
Lemma runs_indirect w ptr (m : ST G (Z * Z)) (P : Z * Z → assertion) (wrap1 wrap2 : ST G unit → ST G unit) :
  winv w → slot w ptr 8 → (∀ a, stable (P a)) →
  (∀ w S m P, runs w S m P → runs w S (wrap1 m) P) → (∀ w S m P, runs w S m P → runs w S (wrap2 m) P) →
  runs w (λ _, False) m P →
  runs w (range ptr (ptr + 8))
    (let! '(q, n) := m in
     let! _ := wrap1 (storeInt ptr (VU32 q) 4) in wrap2 (storeInt (u32 (ptr + 4)) (VU32 n) 4))
    (λ _ F mm, ∃ q n, P (q, n) F mm ∧ bytes_at F mm ptr (le_encode 4 q) ∧ bytes_at F mm (ptr + 4) (le_encode 4 n)).
Proof.
  intros Hw Hs Hst Hw1 Hw2 Hm. pose proof Hs as (Hp & Hle & Hown).
  eapply runs_weaken; [| | |eapply (runs_seq w (λ _, False) (range ptr (ptr + 8)) m _ P
    (λ a _ F mm, bytes_at F mm ptr (le_encode 4 a.1) ∧ bytes_at F mm (ptr + 4) (le_encode 4 a.2)))]; try done.
  - by intros x [?|?].
  - solve_stable.
  - cbn. intros _ F mm ([q n] & HP & Hb). by exists q, n.
  - intros x Hx. split; [by apply Hown|]. auto.
  - solve_stable.
  - intros [q n] w1 Hstep _. cbn. apply runs_ptr_len; try done; [apply Hstep|by eapply slot_step].
Qed.

Lemma runs_alloc_copy w bytes :
  winv w → zlen bytes < 2 ^ 32 →
  runs w (λ _, False) (alloc_copy realloc bytes (u32 (zlen bytes)))
    (λ a F m, a.2 = zlen bytes ∧ block m a.1 (zlen bytes) ∧ bytes_at F m a.1 bytes).
Proof.
  intros Hw Hlen. pose proof (zlen_nonneg bytes). rewrite wrap_small by lia.
  apply runs_alloc; [done|by left|lia|solve_stable|].
  intros p w1 Hw1 _ Hslot Hl32. pose proof Hslot as (Hp & Hle & Hown).
  rewrite (wrap_small 32 (p + zlen bytes)) by lia.
  eapply runs_weaken; [by intros x Hx; exact Hx| | |
    eapply runs_then_ret, (runs_block w1 _ _ _ p (zlen bytes) Hw1 Hslot), (runs_put w1 p (p + zlen bytes) bytes)];
    try done.
  - solve_stable.
  - cbn. intros a F mm (-> & _ & ? & ?). done.
Qed.

Lemma runs_storeString w ptr s :
  winv w → slot w ptr 8 → well_typed nones (TPrim Pstring) (VString s) = true →
  runs w (range ptr (ptr + 8)) (storeString realloc ptr s) (λ _ F m, rep F m ptr (TPrim Pstring) (VString s)).
Proof.
  intros Hw Hs Ht. cbn in Ht. apply andb_true_iff in Ht as [Hu Hl]. apply Z.ltb_lt in Hl.
  unfold storeString. eapply runs_weaken; [by intros x Hx; exact Hx| | |
    eapply (runs_indirect w ptr _ (λ a F m, a.2 = zlen s ∧ block m a.1 (zlen s) ∧ bytes_at F m a.1 s) sat sat);
    try done; auto using runs_sat].
  - solve_stable.
  - cbn. intros _ F mm (q & n & (-> & Hb & Hbs) & H1 & H2). by apply rep_string with q.
  - solve_stable.
  - apply runs_sat. unfold allocStoreString, MaxUint32. rewrite (proj2 (Z.ltb_ge _ _)) by lia.
    by apply runs_alloc_copy.
Qed.

(** * Scalars *)

Lemma runs_int_rep w ptr p v n x y bs :
  winv w → int_width n → slot w ptr n → prim_enc p v = Some bs →
  y = VU32 x ∨ y = VU64 x → le_encode (Z.to_nat n) x = bs →
  runs w (range ptr (ptr + n)) (storeInt ptr y n) (λ _ F m, rep F m ptr (TPrim p) v).
Proof.
  intros Hw Hn Hs Henc Hy <-.
  eapply runs_weaken; [by intros z Hz; exact Hz| | |by apply (runs_storeInt w ptr y n x)]; [solve_stable|].
  cbn. intros _ F mm Hb. by apply rep_prim with (le_encode (Z.to_nat n) x).
Qed.

Lemma is_char_rune n : is_char n = true → 0 ≤ n < 2 ^ 32 ∧ check_rune n = Ok n.
Proof.
  unfold is_char, check_rune. rewrite !andb_true_iff, negb_true_iff. intros [[H1 H2] H3].
  apply Z.leb_le in H1. apply Z.ltb_lt in H2.
  rewrite H3, (proj2 (Z.ltb_ge n 0)), (proj2 (Z.leb_gt _ n)) by lia. split; [lia|done].
Qed.

Lemma runs_storePrimitive w ptr p v :
  winv w → slot w ptr (prim_size p) → well_typed nones (TPrim p) v = true →
  runs w (range ptr (ptr + prim_size p)) (storePrimitive realloc ptr p v) (λ _ F m, rep F m ptr (TPrim p) v).
Proof.
  intros Hw Hs Ht. destruct (decide (p = Pstring)) as [->|Hne].
  { destruct v; try done. by apply runs_storeString. }
  assert (∃ bs, prim_enc p v = Some bs) as [bs Henc].
  { destruct p; try done; cbn [well_typed] in Ht; match type of Ht with context [prim_enc ?p ?v] => destruct (prim_enc p v); eauto; done end. }
  clear Ht. pose proof Henc as Henc'. unfold prim_enc in Henc'.
  destruct p; try done; destruct v; try done; cbn [storePrimitive intByteSize prim_size prim_align] in *;
    repeat match type of Henc' with context [if ?b then _ else _] => let E := fresh "E" in destruct b eqn:E; try done end;
    try (apply (inj Some) in Henc' as Ebs);
    try (eapply (runs_int_rep w ptr); [done|unfold int_width; lia|exact Hs|exact Henc|first [left; reflexivity|right; reflexivity]|exact Ebs]; fail);
    try (eapply (runs_int_rep w ptr); [done|unfold int_width; lia|exact Hs|exact Henc|first [left; reflexivity|right; reflexivity]|]; rewrite <- Ebs; apply le_encode_wrap; lia).
  destruct (is_char_rune n ltac:(done)) as [Hn ->]. eapply runs_lift; [done|].
  eapply (runs_int_rep w ptr); [done|unfold int_width; lia|exact Hs|exact Henc|first [left; reflexivity|right; reflexivity]|]. rewrite <- Ebs. apply le_encode_wrap; lia.
Qed.

(** * Lists of scalars *)

(** The encoder of a primitive's typed slice. *)
Definition elem_put (p : Prim) : Z → res (list Z) :=
  match p with
  | Ps8 => putS8 | Pbool => putBool | Pu16 => putU16 | Ps16 => putS16 | Pu32 => putU32 | Ps32 => putS32
  | Pu64 => putU64 | Ps64 => putS64 | Pf32 => putF32 | Pf64 => putF64 | Pchar => putChar
  | _ => putU16
  end.

(** It encodes an element as [storePrimitive] would. *)
Lemma elem_put_ok p k e bs :
  slice_kind p = Some k → p ≠ Pu8 → prim_enc p (elem_value p e) = Some bs → elem_put p e = Ok bs.
Proof.
  intros Hk Hne Henc. destruct p; try done; cbn [elem_put elem_value] in *; unfold prim_enc in Henc.
  { destruct (Z.eqb_spec e 0) as [->|]; [by injection Henc as <-|].
    destruct (Z.eqb_spec e 1) as [->|]; [by injection Henc as <-|done]. }
  all: repeat match type of Henc with context [if ?b then _ else _] => let E := fresh "E" in destruct b eqn:E; try done end;
    apply (inj Some) in Henc as <-; try done;
    try (unfold putS16, putS32, putS64; f_equal; apply le_encode_wrap; lia).
  unfold putChar. destruct (is_char_rune e ltac:(done)) as [Hn ->]. cbn. f_equal. apply (le_encode_wrap 4); lia.
Qed.

Definition elems_at (p : Prim) (q : Z) (i : Z) (l : list Z) : assertion := λ F m,
  ∀ j e, l !! j = Some e → ∃ bs, prim_enc p (elem_value p e) = Some bs ∧
    bytes_at F m (q + (i + Z.of_nat j) * prim_size p) bs.

Lemma stable_elems p q i l : stable (elems_at p q i l).
Proof. unfold elems_at. solve_stable. Qed.

Definition scalar_ok (p : Prim) (e : Z) : bool :=
  match prim_enc p (elem_value p e) with Some _ => true | None => false end.

Lemma runs_put_elems w p k lo hi i l :
  winv w → slice_kind p = Some k → p ≠ Pu8 → forallb (scalar_ok p) l = true →
  0 ≤ i → 0 ≤ lo → i + zlen l < 2 ^ 32 → (i + zlen l) * prim_size p < 2 ^ 32 →
  hi = lo + (i + zlen l) * prim_size p → slot w (lo + i * prim_size p) (zlen l * prim_size p) →
  runs w (range (lo + i * prim_size p) hi) (put_elems (elem_put p) lo hi (prim_size p) i l)
    (λ _, elems_at p lo i l).
Proof.
  intros Hw Hk Hne. pose proof (prim_size_pos p) as Hsz. set (sz := prim_size p) in *.
  revert w i Hw; induction l as [|e l IH]; intros w i Hw Hok Hi Hlo Hn Hprod Hhi Hslot.
  { cbn. apply runs_ret; [done|]. by intros F j e. }
  rewrite zlen_cons in *. cbn [forallb] in Hok. apply andb_true_iff in Hok as [He Hok]. pose proof (zlen_nonneg l).
  cbn [put_elems]. unfold scalar_ok in He. destruct (prim_enc p (elem_value p e)) as [bs|] eqn:Henc; [|done].
  rewrite (elem_put_ok p k e bs) by done. destruct (prim_enc_length _ _ _ Henc) as [Hlen _]. fold sz in Hlen.
  apply (runs_lift _ _ _ bs); [done|]. rewrite Hlen.
  assert (u32 (u32 i * sz) = i * sz) as -> by (rewrite (wrap_small 32 i), wrap_small by nia; done).
  rewrite (proj2 (Z.ltb_ge (hi - lo) _)) by nia.
  eapply runs_weaken; [| | |eapply (runs_seq_range w (lo + i * sz) (lo + i * sz + sz) (lo + (i + 1) * sz) hi _ _
    (λ _ F m, bytes_at F m (lo + i * sz) bs) (λ _ _, elems_at p lo (i + 1) l)); try done; try nia]; try done.
  - intros ?. apply stable_ex. intros ?. apply stable_and; [apply stable_bytes|apply stable_elems].
  - intros _ F mm (_ & Hb & Hrest) [|j] e' Hj; cbn in Hj.
    + injection Hj as <-. exists bs. split; [done|]. replace (i + Z.of_nat 0) with i by lia. done.
    + replace (i + Z.of_nat (S j)) with (i + 1 + Z.of_nat j) by lia. by apply Hrest.
  - eapply slot_sub; [exact Hslot|lia|nia].
  - solve_stable.
  - intros ? ?. apply stable_elems.
  - apply runs_put; [done|nia|lia| |].
    + destruct Hslot as (_ & ? & _). nia.
    + intros x Hx. destruct Hslot as (_ & _ & Hown). apply Hown. unfold range in *. nia.
  - intros _ w1 Hstep _. apply IH; try done; try nia; [apply Hstep|].
    eapply slot_step; [exact Hstep|]. eapply slot_sub; [exact Hslot|nia|nia].
Qed.

Lemma prim_align_size p k : slice_kind p = Some k → prim_align p = prim_size p.
Proof. by destruct p. Qed.

Lemma storeScalarList_put k l p :
  slice_kind p = Some k → p ≠ Pu8 →
  storeScalarList realloc (VSlice k l) p =
    Some (encodeScalarList realloc l (prim_size p) (prim_align p) (elem_put p)).
Proof. by destruct p; cbn; intros [= <-]. Qed.

Lemma storeFixedScalars_put k l p ptr n :
  slice_kind p = Some k → p ≠ Pu8 →
  storeFixedScalars (G := G) ptr (VSlice k l) p n (prim_size p) =
    Some (putFixed ptr n (prim_size p) (elem_put p) l).
Proof. by destruct p; cbn; intros [= <-]. Qed.

Lemma elems_at_bytes F m q l :
  forallb (scalar_ok Pu8) l = true → bytes_at F m q l → elems_at Pu8 q 0 l F m.
Proof.
  intros Hok [Hq Hb] j e Hj. rewrite forallb_forall in Hok.
  assert (scalar_ok Pu8 e = true) as He by (apply Hok, list_elem_of_In; by eapply list_elem_of_lookup_2).
  unfold scalar_ok in He. cbn in He. destruct (in_width 8 e) eqn:E; [|done].
  exists (le_encode 1 e). split; [cbn; by rewrite E|]. apply in_width_true in E. change (prim_size Pu8) with 1.
  split; [lia|]. intros [|i] b Hi; [|done]. cbn in Hi. injection Hi as <-.
  destruct (Hb j e Hj) as [HF Hm]. replace (q + (0 + Z.of_nat j) * 1 + Z.of_nat 0) with (q + Z.of_nat j) by lia.
  split; [done|]. by rewrite Z.mod_small.
Qed.

Lemma runs_scalar_list w k p l :
  winv w → slice_kind p = Some k → forallb (scalar_ok p) l = true →
  zlen l * prim_size p < 2 ^ 32 →
  ∃ m, storeScalarList realloc (VSlice k l) p = Some m ∧
  runs w (λ _, False) m
    (λ a F mm, a.2 = zlen l ∧ block mm a.1 (zlen l * prim_size p) ∧ elems_at p a.1 0 l F mm).
Proof.
  intros Hw Hk Hok Hprod. pose proof (zlen_nonneg l). pose proof (prim_size_pos p).
  destruct (decide (p = Pu8)) as [->|Hne].
  - injection Hk as <-. change (prim_size Pu8) with 1 in *. eexists. split; [reflexivity|].
    unfold allocStoreBytes, MaxUint32. rewrite (proj2 (Z.ltb_ge _ _)) by lia. rewrite Z.mul_1_r.
    eapply runs_weaken; [by intros x Hx; exact Hx| | |apply (runs_alloc_copy w l Hw); lia]; [solve_stable|].
    cbn. intros a F mm (E & Hb & Hbs). split_and!; try done; try apply Hb. by apply elems_at_bytes.
  - rewrite (storeScalarList_put k l p) by done. eexists. split; [reflexivity|].
    unfold encodeScalarList, too_long. rewrite (wrap_small 32 (zlen l)) by nia.
    rewrite (proj2 (Z.ltb_ge (MaxUint32 / prim_size p) (zlen l))), andb_false_r.
    2: { apply Z.div_le_lower_bound; [lia|]. unfold MaxUint32. lia. }
    rewrite (wrap_small 32 (zlen l * prim_size p)) by nia.
    apply runs_alloc; [done|apply prim_align_pow2|nia| |].
    { intros a. apply stable_and; [apply stable_pure|]. apply stable_and; [apply stable_block|apply stable_elems]. }
    intros q w1 Hw1 _ Hslot Hl32. pose proof Hslot as (Hq & Hle & _). rewrite (wrap_small 32 (q + _)) by nia.
    eapply runs_weaken; [by intros x Hx; exact Hx| | |
      eapply runs_then_ret, (runs_block w1 _ _ _ q (zlen l * prim_size p) Hw1 Hslot)].
    3: { pose proof (runs_put_elems w1 p k q (q + zlen l * prim_size p) 0 l) as Hrun.
         replace (q + 0 * prim_size p) with q in Hrun by lia. apply Hrun; try done; nia. }
    + intros a. apply stable_and; [apply stable_pure|]. apply stable_ex. intros _.
      apply stable_and; [apply stable_elems|apply stable_block].
    + cbn. intros a F mm (-> & _ & He & Hb). done.
Qed.

Lemma runs_fixed_scalars w k p l ptr :
  winv w → slice_kind p = Some k → forallb (scalar_ok p) l = true →
  zlen l < 2 ^ 32 → slot w ptr (zlen l * prim_size p) →
  ∃ m, storeFixedScalars ptr (VSlice k l) p (zlen l) (prim_size p) = Some m ∧
  runs w (range ptr (ptr + zlen l * prim_size p)) m (λ _, elems_at p ptr 0 l).
Proof.
  intros Hw Hk Hok Hn Hslot. pose proof (zlen_nonneg l). pose proof (prim_size_pos p) as Hsz.
  pose proof Hslot as (Hp & Hle & Hown). destruct (fr_live w Hw) as ([? Hl32] & _).
  assert (prim_size p ≤ 8) by (by destruct p).
  assert (fixedSpan ptr (zlen l) (prim_size p) (zlen l) w (live w) =
    (w, live w, Ok (ptr, ptr + zlen l * prim_size p))) as Espan.
  { unfold fixedSpan, sbind, slen. rewrite Z.eqb_refl. cbn [negb].
    rewrite (wrap_small 64 (zlen l * prim_size p)), (wrap_small 64) by nia.
    by rewrite (proj2 (Z.ltb_ge _ _)) by lia. }
  destruct (decide (p = Pu8)) as [->|Hne].
  - injection Hk as <-. eexists. split; [reflexivity|]. change (prim_size Pu8) with 1 in *. rewrite Z.mul_1_r in *.
    destruct (runs_put w ptr (ptr + zlen l) l) as (w' & mem' & r & E & H'); try done.
    exists w', mem', r. split; [unfold sbind; by rewrite Espan|]. destruct r; try done.
    destruct H' as (? & ? & ?). split_and!; try done. by apply elems_at_bytes.
  - rewrite (storeFixedScalars_put k l p) by done. eexists. split; [reflexivity|].
    pose proof (runs_put_elems w p k ptr (ptr + zlen l * prim_size p) 0 l) as Hrun.
    replace (ptr + 0 * prim_size p) with ptr in Hrun by lia.
    destruct Hrun as (w' & mem' & r & E & H'); try done; try nia.
    exists w', mem', r. split; [|done]. unfold putFixed, sbind at 1. by rewrite Espan.
Qed.

(** * The walk *)

Variable resolve : Resolver.

Definition stores (t : ty) : Prop :=
  ∀ d fuel w ptr v hint, denotes resolve d t → valid t = true → (height t ≤ fuel)%nat →
    well_typed nones t v = true → winv w → (spec_align t | ptr) → slot w ptr (spec_size t) →
    hint = 0 ∨ hint = spec_align t →
    runs w (range ptr (ptr + spec_size t)) (storeValue realloc fuel resolve ptr d v hint)
      (λ _ F m, rep F m ptr t v).

Lemma runs_store_elems w fuel d t q i l :
  stores t → denotes resolve d t → valid t = true → (height t ≤ fuel)%nat → (spec_align t | q) →
  forallb (well_typed nones t) l = true → winv w → 0 ≤ i → 0 ≤ q → i + zlen l < 2 ^ 32 →
  slot w (q + i * spec_size t) (zlen l * spec_size t) →
  runs w (range (q + i * spec_size t) (q + (i + zlen l) * spec_size t))
    (store_elems (storeValue realloc fuel resolve) d q (spec_size t) (spec_align t) i l)
    (λ _ F m, ∀ j v, l !! j = Some v → rep F m (q + (i + Z.of_nat j) * spec_size t) t v).
Proof.
  intros Hst Hd Hv Hf Hq. destruct (layout_good t Hv) as (_ & Hs & Hdvd). assert (0 ≤ spec_size t) as Hs0 by done.
  apply valid_inv in Hv as Hv'. destruct Hv' as [Hlt _].
  revert w i; induction l as [|v l IH]; intros w i Hok Hw Hi Hq0 Hn Hslot.
  { cbn. apply runs_ret; [done|]. by intros F j e. }
  rewrite zlen_cons in *. cbn [forallb] in Hok. apply andb_true_iff in Hok as [He Hok]. pose proof (zlen_nonneg l).
  pose proof Hslot as (Hp & Hle & Hown). destruct (fr_live w Hw) as ([? Hl32] & _).
  cbn [store_elems].
  assert (u32 (q + u32 (u32 i * spec_size t)) = q + i * spec_size t) as ->.
  { rewrite (wrap_small 32 i) by lia. rewrite (wrap_small 32 (i * _)) by nia. rewrite wrap_small by nia. done. }
  eapply runs_weaken; [| | |eapply (runs_seq_range w (q + i * spec_size t) (q + i * spec_size t + spec_size t)
    (q + (i + 1) * spec_size t) (q + (i + (1 + zlen l)) * spec_size t) _ _
    (λ _ F m, rep F m (q + i * spec_size t) t v)
    (λ _ _ F m, ∀ j v, l !! j = Some v → rep F m (q + (i + 1 + Z.of_nat j) * spec_size t) t v)); try done; try nia];
    try done; try solve_stable.
  - cbn. intros _ F mm (_ & Hb & Hrest) [|j] v' Hj; cbn in Hj.
    + injection Hj as <-. by replace (i + Z.of_nat 0) with i by lia.
    + replace (i + Z.of_nat (S j)) with (i + 1 + Z.of_nat j) by lia. by apply Hrest.
  - eapply slot_sub; [exact Hslot|lia|nia].
  - apply runs_sat, Hst; try done; [by apply elem_aligned| |by right].
    eapply slot_sub; [exact Hslot|lia|nia].
  - intros _ w1 Hstep _. replace (i + (1 + zlen l)) with (i + 1 + zlen l) by lia.
    apply IH; try done; try nia; [apply Hstep|].
    eapply slot_step; [exact Hstep|]. eapply slot_sub; [exact Hslot|nia|nia].
Qed.

Lemma stable_rep_elems q t n v : stable (λ F m, rep_elems F m q t n v).
Proof.
  intros F F' m m' Hx H. inversion H as [? ? p k ? l Hk Hn Hn32 Hprod Hb Hall|? ? ? l Hk Hn Hn32 Hprod Hb Hq Hall]; subst.
  - eapply repe_slice; try done; [by eapply block_frame|]. intros i e Hi. destruct (Hall i e Hi) as (bs & ? & ?).
    exists bs. split; [done|]. by eapply bytes_at_frame.
  - eapply repe_list; try done; [by eapply block_frame|]. intros i v Hi. eapply rep_frame; eauto.
Qed.

(** The two shapes of a list value. *)
Lemma list_shape_inv t elem v ok :
  list_shape t elem v ok = true →
  (∃ p k l, t = TPrim p ∧ slice_kind p = Some k ∧ v = VSlice k l ∧ ok (zlen l) = true ∧
     forallb (scalar_ok p) l = true) ∨
  (∃ l, elem_kind t = None ∧ v = VList l ∧ ok (zlen l) = true ∧ forallb elem l = true).
Proof.
  unfold list_shape. destruct (elem_kind t) as [[p k]|] eqn:Ek; destruct v; try done; rewrite ?andb_true_iff; intros H.
  - left. destruct t; try done. cbn in Ek. apply fmap_Some in Ek as (k' & Hk & [= -> ->]).
    destruct H as [[Hkk Hok] Hall]. apply bool_decide_eq_true in Hkk as ->. eauto 10.
  - right. destruct H. eauto 10.
Qed.

Lemma scalarPrim_none d t (f : Prim → option (ST G (Z * Z))) :
  denotes resolve d t → elem_kind t = None → (∀ p, slice_kind p = None → f p = None) →
  match scalarPrim d with Some p => f p | None => None end = None.
Proof.
  intros Hd Hk Hf. rewrite (scalarPrim_denotes resolve d t Hd). destruct t; try done. cbn in Hk.
  apply Hf. by destruct (slice_kind p).
Qed.

Lemma runs_alloc_any w fuel d t v :
  stores t → denotes resolve d t → valid t = true → (height t ≤ fuel)%nat →
  list_shape t (well_typed nones t) v (λ n, n * spec_size t <? 2 ^ 32) = true →
  (∀ l, v = VList l → zlen l < 2 ^ 32) → winv w →
  runs w (λ _, False)
    (allocStoreAnyList realloc (Alignment fuel resolve) (Size fuel resolve) (storeValue realloc fuel resolve) v d)
    (λ a F m, rep_elems F m a.1 t a.2 v).
Proof.
  intros Hst Hd Hv Hf Hshape Hlen Hw.
  destruct (layout_walks resolve t d fuel Hd Hv Hf) as [Ea Es].
  destruct (layout_good t Hv) as (Hp & Hs & _). assert (0 ≤ spec_size t) as Hs0 by done.
  unfold allocStoreAnyList.
  apply list_shape_inv in Hshape as [(p & k & l & -> & Hk & -> & Hok & Hall)|(l & Hk & -> & Hok & Hall)]; apply Z.ltb_lt in Hok.
  - rewrite (scalarPrim_denotes resolve d _ Hd). unfold spec_size in Hok. cbn in Hok.
    destruct (runs_scalar_list w k p l Hw Hk Hall Hok) as (m & -> & Hrun).
    eapply runs_weaken; [by intros x Hx; exact Hx| | |exact Hrun].
    + intros a. apply stable_and; [apply stable_pure|]. apply stable_and; [apply stable_block|apply stable_elems].
    + cbn. intros [q n] F mm (E & Hb & He). cbn in *. subst n. pose proof (prim_size_pos p). pose proof (zlen_nonneg l).
      apply repe_slice with p; unfold spec_size; cbn; try done; try (by rewrite Hk); try nia.
  - rewrite (scalarPrim_none d t (storeScalarList realloc (VList l))); [|done|done|by intros []].
    specialize (Hlen l eq_refl). pose proof (zlen_nonneg l).
    unfold allocStoreList. apply (runs_lift _ _ _ _ _ _ Es). apply (runs_lift _ _ _ _ _ _ Ea).
    rewrite (wrap_small 32 (zlen l)) by lia. unfold too_long.
    assert (negb (spec_size t =? 0) && (MaxUint32 / spec_size t <? zlen l) = false) as ->.
    { destruct (Z.eqb_spec (spec_size t) 0); [done|]. cbn [negb andb]. apply Z.ltb_ge.
      apply Z.div_le_lower_bound; [lia|]. unfold MaxUint32. lia. }
    rewrite (wrap_small 32 (zlen l * spec_size t)) by nia.
    apply runs_alloc; [done|done|nia|intros; apply stable_rep_elems|].
    intros q w1 Hw1 Hdiv Hslot Hl32. pose proof Hslot as (Hq & Hle & _).
    pose proof (runs_store_elems w1 fuel d t q 0 l Hst Hd Hv Hf Hdiv Hall Hw1 ltac:(lia) Hq ltac:(lia)) as Hrun.
    replace (q + 0 * spec_size t) with q in Hrun by lia. rewrite Z.add_0_l in Hrun. specialize (Hrun Hslot).
    eapply runs_weaken; [by intros x Hx; exact Hx| | |
      eapply runs_then_ret, (runs_block w1 _ _ _ q (zlen l * spec_size t) Hw1 Hslot), Hrun].
    + solve_stable.
    + cbn. intros a F mm (-> & _ & He & Hb). by apply repe_list.
Qed.

Lemma runs_storeList w fuel d t ptr v :
  stores t → denotes resolve d t → valid t = true → (height t ≤ fuel)%nat →
  well_typed nones (TList t) v = true → winv w → slot w ptr 8 →
  runs w (range ptr (ptr + 8))
    (storeList realloc (Alignment fuel resolve) (Size fuel resolve) (storeValue realloc fuel resolve) ptr v d)
    (λ _ F m, rep F m ptr (TList t) v).
Proof.
  intros Hst Hd Hv Hf Ht Hw Hs. cbn [well_typed] in Ht. apply andb_true_iff in Ht as [Ht Hlen].
  unfold storeList. eapply runs_weaken; [by intros x Hx; exact Hx| | |
    eapply (runs_indirect w ptr _ (λ a F m, rep_elems F m a.1 t a.2 v) (λ m, m) (λ m, m)); try done].
  - intros ?. apply stable_ex. intros q. apply stable_ex. intros n.
    apply stable_and; [apply stable_rep_elems|solve_stable].
  - cbn. intros _ F mm (q & n & He & H1 & H2). by apply rep_list with q n.
  - intros a. apply stable_rep_elems.
  - apply runs_sat, runs_alloc_any; try done. intros l ->. by apply Z.ltb_lt.
Qed.

Lemma runs_storeFixedList w fuel d t ptr v n :
  stores t → denotes resolve d t → valid t = true → (height t ≤ fuel)%nat → 0 < n < 2 ^ 32 →
  n * spec_size t < 2 ^ 28 → well_typed nones (TFixed t n) v = true → winv w → (spec_align t | ptr) →
  slot w ptr (spec_size t * n) →
  runs w (range ptr (ptr + spec_size t * n))
    (storeFixedList (Alignment fuel resolve) (Size fuel resolve) (storeValue realloc fuel resolve) ptr v n d)
    (λ _ F m, rep F m ptr (TFixed t n) v).
Proof.
  intros Hst Hd Hv Hf Hn Hsz Ht Hw Hal Hslot. cbn [well_typed] in Ht.
  destruct (layout_walks resolve t d fuel Hd Hv Hf) as [Ea Es].
  destruct (layout_good t Hv) as (Hp & Hs & _). assert (0 ≤ spec_size t) as Hs0 by done.
  unfold storeFixedList. apply (runs_lift _ _ _ _ _ _ Ea). apply (runs_lift _ _ _ _ _ _ Es).
  rewrite (Z.mul_comm (spec_size t) n) in *.
  apply list_shape_inv in Ht as [(p & k & l & -> & Hk & -> & Hok & Hall)|(l & Hk & -> & Hok & Hall)]; apply Z.eqb_eq in Hok; subst n.
  - rewrite (scalarPrim_denotes resolve d _ Hd). unfold spec_size in *. cbn in Hslot, Hsz |- *.
    destruct (runs_fixed_scalars w k p l ptr Hw Hk Hall ltac:(lia) Hslot) as (m & -> & Hrun).
    eapply runs_weaken; [by intros x Hx; exact Hx| | |eapply (runs_block w _ _ _ ptr _ Hw Hslot Hrun)].
    + intros a. apply stable_and; [apply stable_elems|apply stable_block].
    + cbn. intros _ F mm (He & Hb). apply rep_fixed, repe_slice with p; unfold spec_size; cbn; try done; try (by rewrite Hk); try lia.
  - assert (match scalarPrim d with
            | Some p => storeFixedScalars (G := G) ptr (VList l) p (zlen l) (spec_size t) | None => None end = None) as ->.
    { rewrite (scalarPrim_denotes resolve d t Hd). destruct t; try done. by destruct p. }
    rewrite Z.eqb_refl. cbn [negb]. pose proof Hslot as (Hq & _).
    pose proof (runs_store_elems w fuel d t ptr 0 l Hst Hd Hv Hf Hal Hall Hw ltac:(lia) Hq ltac:(lia)) as Hrun.
    replace (ptr + 0 * spec_size t) with ptr in Hrun by lia. rewrite Z.add_0_l in Hrun. specialize (Hrun Hslot).
    eapply runs_weaken; [by intros x Hx; exact Hx| | |eapply (runs_block w _ _ _ ptr _ Hw Hslot Hrun)].
    + solve_stable.
    + cbn. intros _ F mm (He & Hb). apply rep_fixed, repe_list; try done; lia.
Qed.

Lemma stable_rep_fields o ts vs : stable (λ F m, rep_fields F m o ts vs).
Proof.
  intros F F' m m' Hx H. revert o vs H. induction ts as [|t ts IH]; intros o vs H; inversion H; subst; constructor.
  - by eapply rep_frame.
  - by apply IH.
Qed.

Lemma stable_rep_payload o c v : stable (λ F m, rep_payload F m o c v).
Proof. intros F F' m m' Hx H. inversion H; subst; constructor. by eapply rep_frame. Qed.

Lemma runs_store_fields w fuel rs ts vs o :
  Forall stores ts → Forall2 (ref_denotes resolve) rs ts → forallb valid ts = true →
  (maxl (height <$> ts) ≤ fuel)%nat → all2 (well_typed nones) ts vs = true → winv w →
  slot w o (foldl place o (layout <$> ts) - o) →
  runs w (range o (foldl place o (layout <$> ts)))
    (store_fields resolve (Alignment fuel resolve) (Size fuel resolve) (storeValue realloc fuel resolve) rs vs o)
    (λ _ F m, rep_fields F m o ts vs).
Proof.
  intros Hl H. revert w o vs Hl. induction H as [|r t rs ts (d & Er & Hd) _ IH]; intros w o vs Hl Hv Hf Hty Hw Hslot.
  { destruct vs; [|done]. cbn. apply runs_ret; [done|]. intros F. constructor. }
  destruct vs as [|v vs]; [done|]. inversion_clear Hl as [|?? Hlt Hls].
  cbn [all2 forallb] in Hty, Hv. apply andb_true_iff in Hv as [Hv Hvs]. apply andb_true_iff in Hty as [Ht Hts].
  rewrite fmap_cons in *. cbn [foldl] in *. unfold maxl in Hf. cbn in Hf.
  destruct (layout_walks resolve t d fuel Hd Hv) as [Ea Es]; [lia|].
  destruct (layout_good t Hv) as (Hp & Hs & _). pose proof (pow2_align_pos _ Hp).
  pose proof (align_to_bounds o (spec_align t) ltac:(done)).
  pose proof (places_ge (layout <$> ts) (place o (layout t)) (layouts_good ts Hvs)).
  assert (place o (layout t) = align_to o (spec_align t) + spec_size t) as Epl by done.
  assert (0 ≤ spec_size t) by done. pose proof Hslot as (Ho & Hle & _). destruct (fr_live w Hw) as ([? ?] & _).
  set (off := align_to o (spec_align t)) in *. set (E := foldl place (place o (layout t)) (layout <$> ts)) in *.
  cbn [store_fields]. rewrite Er. cbn [at_]. apply (runs_lift _ _ _ d); [done|].
  apply (runs_lift _ _ _ _ _ _ Ea). rewrite (Align_to_fits o (spec_align t)) by (done || (fold off; lia)). fold off.
  eapply runs_weaken; [| | |eapply (runs_seq_range w off (off + spec_size t) (off + spec_size t) E _ _
    (λ _ F m, rep F m off t v) (λ _ _ F m, rep_fields F m (place o (layout t)) ts vs)); try done; try lia].
  - unfold range. lia.
  - intros ?. apply stable_ex. intros ?. apply stable_and; [apply stable_rep|apply stable_rep_fields].
  - cbn. intros _ F mm (_ & Hr & Hrs). by constructor.
  - eapply slot_sub; [exact Hslot|lia|lia].
  - solve_stable.
  - intros ? ?. apply stable_rep_fields.
  - apply runs_sat, Hlt; try done; [lia|apply align_to_divide| |by right].
    eapply slot_sub; [exact Hslot|lia|lia].
  - intros _ w1 Hstep _. apply (runs_lift _ _ _ _ _ _ Es). rewrite wrap_small by lia. rewrite <- Epl.
    apply IH; try done; [unfold maxl; lia|apply Hstep|]. fold E.
    eapply slot_step; [exact Hstep|]. eapply slot_sub; [exact Hslot|lia|lia].
Qed.

Lemma runs_store_record w fuel rs ts vs ptr :
  Forall stores ts → Forall2 (ref_denotes resolve) rs ts → forallb valid ts = true →
  (maxl (height <$> ts) ≤ fuel)%nat → all2 (well_typed nones) ts vs = true → winv w →
  (record_align (layout <$> ts) | ptr) → slot w ptr (record_size (layout <$> ts)) →
  runs w (range ptr (ptr + record_size (layout <$> ts)))
    (store_fields resolve (Alignment fuel resolve) (Size fuel resolve) (storeValue realloc fuel resolve) rs vs ptr)
    (λ _ F m, rep_fields F m ptr ts vs).
Proof.
  intros Hl Hr Hv Hf Ht Hw Ha Hslot. pose proof (record_places (layout <$> ts) ptr (layouts_good ts Hv) Ha).
  pose proof (places_ge (layout <$> ts) ptr (layouts_good ts Hv)).
  eapply runs_weaken; [| | |apply runs_store_fields; try done]; try done.
  - unfold range. lia.
  - intros ?. apply stable_rep_fields.
  - eapply slot_sub; [exact Hslot|lia|lia].
Qed.

(** Placing the payload by the variant's own alignment, which the caller passes
    as a hint, or by the cases' alignment is the same. *)
Lemma hint_offset n ls x :
  Forall good ls → (variant_align n ls | x) →
  align_to (x + spec_disc n) (variant_align n ls) = align_to (x + spec_disc n) (max_list 1 ls.*1).
Proof.
  intros Hg Hx. pose proof (max_pow2 ls Hg) as Hp. pose proof (spec_disc_pow2 n) as Hd. unfold variant_align in *.
  destruct (Z.le_gt_cases (spec_disc n) (max_list 1 ls.*1)); [by rewrite Z.max_r|].
  rewrite Z.max_l in * by lia.
  assert ((spec_disc n | x + spec_disc n)) as Hdd by (apply Z.divide_add_r; [done|apply Z.divide_refl]).
  rewrite !align_to_id; try done; try (by apply pow2_align_pos).
  eapply Z.divide_trans; [|exact Hdd]. apply pow2_align_dvd; [done|done|lia].
Qed.

(** The payload's address, whichever alignment the code used. *)
Lemma payload_offset w n ls ptr a :
  winv w → Forall good ls → (variant_align n ls | ptr) → slot w ptr (variant_size n ls) →
  a = max_list 1 ls.*1 ∨ a = variant_align n ls →
  Align (u32 (ptr + spec_disc n)) a = payload_at n ls ptr.
Proof.
  intros Hw Hg Ha (Hp & Hle & _) Hor. destruct (fr_live w Hw) as ([? Hl32] & _).
  assert (block (cont w) ptr (variant_size n ls)) as Hb by (split; [done|by rewrite zlen_cont]).
  assert (zlen (cont w) < 2 ^ 32) as Hm by (by rewrite zlen_cont).
  pose proof (payload_Align (cont w) Hm n ls ptr Hg Ha Hb) as Hpay. destruct Hor as [->| ->]; [done|].
  pose proof (variant_size_disc n ls Hg). pose proof (pow2_align_pos _ (spec_disc_pow2 n)).
  rewrite (disc_block (cont w) Hm n ptr (variant_size n ls)) in * by (done || lia).
  pose proof (max_pow2 ls Hg) as Hpow.
  assert (payload_at n ls ptr < 2 ^ 32) as Hlt.
  { rewrite <- Hpay. apply Align_range. lia. }
  unfold payload_at in *. rewrite <- (hint_offset n ls ptr) in * by done.
  apply Align_to_fits; [by apply pow2_align_max; [apply spec_disc_pow2|]|lia|done].
Qed.

(** A discriminant and a payload: the shape of variants, options and results. *)
Lemma runs_disc_payload w n ls ptr d c p (k : ST G unit) :
  winv w → Forall good ls → (variant_align n ls | ptr) → slot w ptr (variant_size n ls) →
  (∀ t, c = Some t → layout t ∈ ls) → (c = None → p = VNil) →
  (∀ w1, winv w1 → slot w1 ptr (variant_size n ls) →
     match c with
     | None => runs w1 (λ _, False) k (λ _ _ _, True)
     | Some t => runs w1 (range (payload_at n ls ptr) (payload_at n ls ptr + spec_size t)) k
                   (λ _ F m, rep F m (payload_at n ls ptr) t p)
     end) →
  runs w (range ptr (ptr + variant_size n ls))
    (let! _ := storeInt ptr (VU32 d) (spec_disc n) in k)
    (λ _ F m, disc_at F m n ptr d ∧ rep_payload F m (payload_at n ls ptr) c p).
Proof.
  intros Hw Hg Ha Hslot Hin Hnil Hk. pose proof (variant_size_disc n ls Hg) as Hvd.
  destruct (spec_disc_width n) as [Hwd _]. pose proof (pow2_align_pos _ (spec_disc_pow2 n)).
  pose proof (runs_storeInt w ptr (VU32 d) (spec_disc n) d Hw Hwd
    ltac:(eapply slot_sub; [exact Hslot|lia|lia]) ltac:(auto)) as Hdisc.
  assert (∃ lo hi, ptr + spec_disc n ≤ lo ∧ lo ≤ hi ∧ hi ≤ ptr + variant_size n ls ∧
    ∀ w1, winv w1 → slot w1 ptr (variant_size n ls) →
      runs w1 (range lo hi) k (λ _ F m, rep_payload F m (payload_at n ls ptr) c p)) as (lo & hi & H1 & H2 & H3 & Hpay).
  { destruct c as [t|].
    - destruct (payload_placed n ls ptr (layout t) Hg Ha (Hin t eq_refl)) as (_ & ? & Hp2).
      fold (spec_size t) in Hp2. fold (payload_at n ls ptr) in *.
      assert (good (layout t)) as (_ & Hs & _).
      { rewrite Forall_forall in Hg. apply Hg, list_elem_of_In. by apply Hin. }
      assert (0 ≤ spec_size t) by done.
      exists (payload_at n ls ptr), (payload_at n ls ptr + spec_size t). split_and!; [lia|lia|lia|]. intros w1 Hw1 Hs1.
      eapply runs_weaken; [by intros x Hx; exact Hx| | |by apply Hk]; [solve_stable|]. cbn. intros. by constructor.
    - exists (ptr + spec_disc n), (ptr + spec_disc n). split_and!; [lia|lia|lia|]. intros w1 Hw1 Hs1.
      eapply runs_weaken; [| | |by apply Hk]; [done|solve_stable|]. cbn. intros. rewrite Hnil by done. constructor. }
  eapply runs_weaken; [| | |eapply (runs_seq_range w ptr (ptr + spec_disc n) lo hi _ _
    (λ _ F m, disc_at F m n ptr d) (λ _ _ F m, rep_payload F m (payload_at n ls ptr) c p)); try done; try lia].
  - unfold range. lia.
  - intros ?. apply stable_ex. intros ?. apply stable_and; [apply stable_bytes|apply stable_rep_payload].
  - cbn. intros _ F mm (_ & ? & ?). done.
  - eapply slot_sub; [exact Hslot|lia|lia].
  - intros ?. apply stable_bytes.
  - intros ? ?. apply stable_rep_payload.
  - intros _ w1 Hstep _. apply Hpay; [apply Hstep|by eapply slot_step].
Qed.

Lemma at_case_inv f cs n : at_case f cs n = true → ∃ c, cs !! n = Some c ∧ f c = true.
Proof. revert n; induction cs as [|c cs IH]; intros [|n] H; try done; [by exists c|by apply IH]. Qed.

(** The alignment the code places a payload with: the hint, or the cases'. *)
Lemma hint_align fuel cs0 cs hint :
  Forall2 (λ c, option_Forall2 (ref_denotes resolve) (vc_Type c)) cs0 cs →
  forallb (from_option valid true) cs = true → (maxl (from_option height 0%nat <$> cs) ≤ fuel)%nat →
  hint = 0 ∨ hint = spec_align (TVariant cs) →
  ∃ a, (if hint =? 0 then MaxCaseAlignment resolve (Alignment fuel resolve) cs0 else Ok hint) = Ok a ∧
    (a = max_list 1 (omap (fmap layout) cs).*1 ∨ a = variant_align (zlen cs) (omap (fmap layout) cs)).
Proof.
  intros Hcs Hv Hf Hhint. destruct (Z.eqb_spec hint 0); [|destruct Hhint as [?| ->]; [done|by eauto]].
  rewrite (case_align_ok resolve fuel cs0 cs) by done. eauto.
Qed.

(** A case of a valid variant is valid and not higher than the others allow. *)
Lemma case_valid (cs : list (option ty)) n t fuel :
  cs !! n = Some (Some t) → forallb (from_option valid true) cs = true →
  (maxl (from_option height 0%nat <$> cs) ≤ fuel)%nat → valid t = true ∧ (height t ≤ fuel)%nat.
Proof.
  intros Hc Hv Hf. split.
  - rewrite forallb_forall in Hv. apply (Hv (Some t)), list_elem_of_In. by eapply list_elem_of_lookup_2.
  - etransitivity; [|exact Hf]. apply (maxl_elem _ (height t)).
    apply (list_elem_of_fmap_2' (from_option height 0%nat) cs (Some t)); [by eapply list_elem_of_lookup_2|done].
Qed.

(** Storing the payload of a variant's active case. *)
Lemma runs_case_payload w fuel n ls ptr d r t p :
  stores t → ref_denotes resolve r t → valid t = true → (height t ≤ fuel)%nat → layout t ∈ ls →
  (nones || negb (is_nil p)) && well_typed nones t p = true → winv w → Forall good ls → (variant_align n ls | ptr) →
  slot w ptr (variant_size n ls) →
  runs w (range (payload_at n ls ptr) (payload_at n ls ptr + spec_size t))
    (let! caseType := slift (resolveType (Some r) resolve) in
     match p with
     | VNil => serr (EMissingPayload d)
     | _ => sat (storeValue realloc fuel resolve (payload_at n ls ptr) caseType p 0)
     end) (λ _ F m, rep F m (payload_at n ls ptr) t p).
Proof.
  intros Hst (dt & Er & Hdt) Hv Hf Hin Hp Hw Hg Ha Hs. apply (runs_lift _ _ _ _ _ _ Er).
  apply andb_true_iff in Hp as [Hnn Hpt].
  destruct (is_nil p) eqn:Enil.
  { destruct p; try done. do 3 eexists. split; [done|]. right. split; [by destruct nones|by eexists]. }
  destruct (payload_placed n ls ptr (layout t) Hg Ha Hin) as (Hal & Hge & Hfit).
  pose proof (pow2_align_pos _ (spec_disc_pow2 n)).
  assert (runs w (range (payload_at n ls ptr) (payload_at n ls ptr + spec_size t))
    (sat (storeValue realloc fuel resolve (payload_at n ls ptr) dt p 0))
    (λ _ F m, rep F m (payload_at n ls ptr) t p)) as Hrun; [|by destruct p].
  apply runs_sat, Hst; try done; [|by left]. eapply slot_sub; [exact Hs| |]; unfold payload_at; [lia|exact Hfit].
Qed.

Lemma runs_storeVariant w fuel cs0 cs ptr v hint :
  Forall (from_option stores True) cs →
  Forall2 (λ c, option_Forall2 (ref_denotes resolve) (vc_Type c)) cs0 cs →
  forallb (from_option valid true) cs = true → 0 < zlen cs < 2 ^ 32 →
  (maxl (from_option height 0%nat <$> cs) ≤ fuel)%nat → well_typed nones (TVariant cs) v = true → winv w →
  (spec_align (TVariant cs) | ptr) → slot w ptr (spec_size (TVariant cs)) →
  hint = 0 ∨ hint = spec_align (TVariant cs) →
  runs w (range ptr (ptr + spec_size (TVariant cs)))
    (storeVariant resolve (Alignment fuel resolve) (storeValue realloc fuel resolve) ptr v cs0 hint)
    (λ _ F m, rep F m ptr (TVariant cs) v).
Proof.
  intros Hl Hcs Hv Hn Hf Ht Hw Ha Hslot Hhint. cbn [well_typed] in Ht. destruct v as [| | | | | | | | | | |d p| |]; try done.
  apply andb_true_iff in Ht as [Hd Hc]. apply Z.leb_le in Hd. apply at_case_inv in Hc as (c & Hc & Hp).
  assert (zlen cs = zlen cs0) as En by (unfold zlen; f_equal; symmetry; by eapply Forall2_length).
  assert (d < zlen cs) as Hdn by (apply lookup_lt_Some in Hc; unfold zlen; lia).
  pose proof (case_layouts_good cs Hv) as Hg. cbn [storeVariant]. rewrite <- En.
  unfold OutOfRange. rewrite (proj2 (Z.leb_gt _ d)) by lia.
  destruct (disc_ok (zlen cs) Hn) as (_ & _ & Es). apply (runs_lift _ _ _ _ _ _ Es).
  destruct (Forall2_lookup_r _ _ _ _ _ Hcs Hc) as (c0 & Hc0 & Hcc). rewrite Hc0.
  destruct (hint_align fuel cs0 cs hint Hcs Hv Hf Hhint) as (a & Ea & Hor).
  eapply runs_weaken; [by intros x Hx; exact Hx| | |
    apply (runs_disc_payload w (zlen cs) (omap (fmap layout) cs) ptr d c p); try done].
  - intros ?. apply stable_and; [apply stable_bytes|apply stable_rep_payload].
  - cbn. intros _ F mm (H1 & H2). by apply rep_variant with c.
  - intros t ->. by eapply case_layout_in.
  - intros ->. by destruct p.
  - intros w1 Hw1 Hs1. destruct Hcc as [r t Hr|].
    + apply (runs_lift _ _ _ _ _ _ Ea). rewrite (payload_offset w1 (zlen cs) (omap (fmap layout) cs) ptr a) by done.
      destruct (case_valid cs _ t fuel Hc Hv Hf) as [Hvt Hft]. rewrite Forall_lookup in Hl.
      apply runs_case_payload; try done; [by apply (Hl _ _ Hc)|by eapply case_layout_in].
    + apply (runs_lift _ _ _ _ _ _ Ea). by apply runs_ret.
Qed.

Lemma runs_storeOption w fuel d t ptr v hint :
  stores t → denotes resolve d t → valid t = true → (height t ≤ fuel)%nat →
  well_typed nones (TOption t) v = true → winv w → (spec_align (TOption t) | ptr) → slot w ptr (spec_size (TOption t)) →
  hint = 0 ∨ hint = spec_align (TOption t) →
  runs w (range ptr (ptr + spec_size (TOption t)))
    (storeOption (Alignment fuel resolve) (storeValue realloc fuel resolve) ptr v d hint)
    (λ _ F m, rep F m ptr (TOption t) v).
Proof.
  intros Hst Hd Hv Hf Ht Hw Ha Hslot Hhint. pose proof (layout_good t Hv) as Hgt.
  assert (Forall good [layout t]) as Hg by (by apply Forall_singleton).
  assert (spec_align (TOption t) = spec_align t ∧ max_list 1 [layout t].*1 = spec_align t) as [Ealign Emax].
  { pose proof (pow2_align_pos _ (proj1 Hgt)). unfold spec_align. cbn. unfold variant_align.
    change (spec_disc 2) with 1. cbn. lia. }
  assert ((if hint =? 0 then Alignment fuel resolve d else Ok hint) = Ok (spec_align t)) as Ea.
  { destruct (layout_walks resolve t d fuel Hd Hv Hf) as [-> _].
    destruct (Z.eqb_spec hint 0); [done|]. destruct Hhint as [?| ->]; [done|by rewrite Ealign]. }
  assert (∀ w1, winv w1 → slot w1 ptr (spec_size (TOption t)) →
    Align (u32 (ptr + 1)) (spec_align t) = payload_at 2 [layout t] ptr) as Hoff.
  { intros w1 Hw1 Hs1. apply (payload_offset w1 2 [layout t] ptr (spec_align t)); try done. by left. }
  unfold storeOption. destruct (is_nil v) eqn:Env.
  - destruct v; try done. cbn [Z.eqb].
    eapply runs_weaken; [by intros x Hx; exact Hx| | |
      apply (runs_disc_payload w 2 [layout t] ptr 0 None VNil); try done].
    + intros ?. apply stable_and; [apply stable_bytes|apply stable_rep_payload].
    + cbn. intros _ F mm (H1 & _). by apply rep_none.
    + intros w1 Hw1 _. apply (runs_lift _ _ _ _ _ _ Ea). by apply runs_ret.
  - cbn [well_typed] in Ht. rewrite Env in Ht. cbn [orb] in Ht.
    replace (match v with VNil => 0 | _ => 1 end) with 1 by (by destruct v). cbn [Z.eqb Pos.eqb].
    eapply runs_weaken; [by intros x Hx; exact Hx| | |
      apply (runs_disc_payload w 2 [layout t] ptr 1 (Some t) v); try done].
    + intros ?. apply stable_and; [apply stable_bytes|apply stable_rep_payload].
    + cbn. intros _ F mm (H1 & H2). inversion H2; subst. by apply rep_some.
    + intros t' [= <-]. by left.
    + intros w1 Hw1 Hs1. apply (runs_lift _ _ _ _ _ _ Ea). rewrite (Hoff w1) by done.
      destruct (payload_placed 2 [layout t] ptr (layout t) Hg Ha) as (Hal & Hge & Hfit); [by left|].
      apply runs_sat, Hst; try done; [|by right].
      eapply slot_sub; [exact Hs1| |]; unfold payload_at; [|exact Hfit].
      change (spec_disc 2) with 1 in Hge. change (spec_disc 2) with 1. lia.
Qed.

(** One arm of a result; unlike a variant's case, its payload may be nil. *)
Lemma runs_store_arm w fuel ls ptr ro o p :
  from_option stores True o → option_Forall2 (ref_denotes resolve) ro o →
  from_option valid true o = true → (from_option height 0%nat o ≤ fuel)%nat →
  (∀ t, o = Some t → layout t ∈ ls) →
  match o with None => is_nil p | Some t => well_typed nones t p end = true →
  winv w → Forall good ls → (variant_align 2 ls | ptr) → slot w ptr (variant_size 2 ls) →
  match o with
  | None => runs w (λ _, False) (store_arm resolve (storeValue realloc fuel resolve) (payload_at 2 ls ptr) ro p) (λ _ _ _, True)
  | Some t => runs w (range (payload_at 2 ls ptr) (payload_at 2 ls ptr + spec_size t))
      (store_arm resolve (storeValue realloc fuel resolve) (payload_at 2 ls ptr) ro p)
      (λ _ F m, rep F m (payload_at 2 ls ptr) t p)
  end.
Proof.
  intros Hst Hr Hv Hf Hin Hp Hw Hg Ha Hs. destruct Hr as [r t (dt & Er & Hdt)|]; [|by apply runs_ret].
  cbn in Hst, Hv, Hf. apply (runs_lift _ _ _ _ _ _ Er).
  destruct (payload_placed 2 ls ptr (layout t) Hg Ha (Hin t eq_refl)) as (Hal & Hge & Hfit).
  pose proof (pow2_align_pos _ (spec_disc_pow2 2)).
  apply runs_sat, Hst; try done; [|by left]. eapply slot_sub; [exact Hs| |]; unfold payload_at; [lia|exact Hfit].
Qed.

Lemma runs_storeResult w fuel ro re o e ptr v hint :
  from_option stores True o → from_option stores True e →
  option_Forall2 (ref_denotes resolve) ro o → option_Forall2 (ref_denotes resolve) re e →
  from_option valid true o = true → from_option valid true e = true →
  (from_option height 0%nat o ≤ fuel)%nat → (from_option height 0%nat e ≤ fuel)%nat →
  alignmentResult resolve (Alignment fuel resolve) ro re = Ok (spec_align (TResult o e)) →
  well_typed nones (TResult o e) v = true → winv w → (spec_align (TResult o e) | ptr) →
  slot w ptr (spec_size (TResult o e)) → hint = 0 ∨ hint = spec_align (TResult o e) →
  runs w (range ptr (ptr + spec_size (TResult o e)))
    (storeResult resolve (Alignment fuel resolve) (storeValue realloc fuel resolve) ptr v ro re hint)
    (λ _ F m, rep F m ptr (TResult o e) v).
Proof.
  intros Hso Hse Ho He Hvo Hve Hfo Hfe Eal Ht Hw Ha Hslot Hhint. cbn [well_typed] in Ht.
  destruct v as [| | | | | | | | | | | |isErr p|]; try done.
  assert (Forall good (omap (fmap layout) [o; e])) as Hg by (apply case_layouts_good; cbn; by rewrite Hvo, Hve).
  assert (∀ t, (if isErr : bool then e else o) = Some t → layout t ∈ omap (fmap layout) [o; e]) as Hin.
  { intros t Et. destruct isErr; subst; [apply (case_layout_in _ 1%nat)|apply (case_layout_in _ 0%nat)]; done. }
  assert ((if hint =? 0 then alignmentResult resolve (Alignment fuel resolve) ro re else Ok hint) =
    Ok (spec_align (TResult o e))) as Ea.
  { rewrite Eal. destruct (Z.eqb_spec hint 0); [done|]. by destruct Hhint as [?| ->]. }
  unfold storeResult.
  eapply runs_weaken; [by intros x Hx; exact Hx| | |
    apply (runs_disc_payload w 2 (omap (fmap layout) [o; e]) ptr (if isErr then 1 else 0) (if isErr then e else o) p);
      try done].
  - intros ?. apply stable_and; [apply stable_bytes|apply stable_rep_payload].
  - cbn beta. intros _ F mm (H1 & H2). by apply rep_result.
  - intros Eo. rewrite Eo in Ht. by destruct p.
  - intros w1 Hw1 Hs1.
    assert (∀ S P, runs w1 S (store_arm resolve (storeValue realloc fuel resolve)
        (payload_at 2 (omap (fmap layout) [o; e]) ptr) (if isErr then re else ro) p) P →
      runs w1 S (let! maxAlign := slift (if hint =? 0 then alignmentResult resolve (Alignment fuel resolve) ro re else Ok hint) in
        store_arm resolve (storeValue realloc fuel resolve) (Align (u32 (ptr + 1)) maxAlign) (if isErr then re else ro) p) P) as Hrun.
    { intros S P H. apply (runs_lift _ _ _ _ _ _ Ea).
      change (Align (u32 (ptr + 1))) with (Align (u32 (ptr + spec_disc 2))).
      rewrite (payload_offset w1 2 (omap (fmap layout) [o; e]) ptr); try done. by right. }
    destruct isErr.
    + pose proof (runs_store_arm w1 fuel _ ptr re e p Hse He Hve Hfe Hin Ht Hw1 Hg Ha Hs1) as H. destruct e; by apply Hrun.
    + pose proof (runs_store_arm w1 fuel _ ptr ro o p Hso Ho Hvo Hfo Hin Ht Hw1 Hg Ha Hs1) as H. destruct o; by apply Hrun.
Qed.

Lemma runs_storeFlags w ptr names v :
  0 < zlen names ≤ 32 → well_typed nones (TFlags (zlen names)) v = true → winv w →
  slot w ptr (spec_size (TFlags (zlen names))) →
  runs w (range ptr (ptr + spec_size (TFlags (zlen names)))) (storeFlags ptr v names)
    (λ _ F m, rep F m ptr (TFlags (zlen names)) v).
Proof.
  intros Hn Ht Hw Hs. cbn [well_typed] in Ht. destruct v as [| |bits| | | | | | | | | | |]; try done.
  apply andb_true_iff in Ht as [H0 H1]. apply Z.leb_le in H0. apply Z.ltb_lt in H1.
  unfold storeFlags. eapply runs_lift.
  { unfold sizeFlagsNumLabels. rewrite (proj2 (Z.leb_gt _ 0)), (proj2 (Z.ltb_ge 32 _)) by lia.
    instantiate (1 := spec_flags (zlen names)). unfold spec_flags. by repeat case_match. }
  change (spec_size (TFlags (zlen names))) with (spec_flags (zlen names)) in *.
  eapply runs_weaken; [by intros x Hx; exact Hx| | |apply (runs_storeInt w ptr _ _ bits); try done;
    [apply spec_flags_width|by left]].
  - intros ?. apply stable_bytes.
  - cbn beta. intros _ F mm H. by apply rep_flags.
Qed.

Lemma runs_storeEnum w ptr cases v :
  0 < zlen cases < 2 ^ 32 → well_typed nones (TEnum (zlen cases)) v = true → winv w →
  slot w ptr (spec_size (TEnum (zlen cases))) →
  runs w (range ptr (ptr + spec_size (TEnum (zlen cases)))) (storeEnum ptr v cases)
    (λ _ F m, rep F m ptr (TEnum (zlen cases)) v).
Proof.
  intros Hn Ht Hw Hs. cbn [well_typed] in Ht. destruct v as [| |i| | | | | | | | | | |]; try done.
  apply andb_true_iff in Ht as [H0 H1]. apply Z.leb_le in H0. apply Z.ltb_lt in H1.
  unfold storeEnum, OutOfRange. rewrite (proj2 (Z.leb_gt _ i)) by lia. unfold sizeEnumNumCases.
  destruct (disc_ok (zlen cases) Hn) as (-> & _ & Es). apply (runs_lift _ _ _ _ _ _ Es).
  change (spec_size (TEnum (zlen cases))) with (spec_disc (zlen cases)) in *.
  eapply runs_weaken; [by intros x Hx; exact Hx| | |apply (runs_storeInt w ptr _ _ i); try done;
    [apply spec_disc_width|by left]].
  - intros ?. apply stable_bytes.
  - cbn beta. intros _ F mm H. by apply rep_enum.
Qed.

Lemma runs_storeHandle w ptr v :
  well_typed nones THandle v = true → winv w → slot w ptr 4 →
  runs w (range ptr (ptr + 4)) (match v with VU32 h => storeInt ptr (VU32 h) 4 | _ => serr EValueKind end)
    (λ _ F m, rep F m ptr THandle v).
Proof.
  intros Ht Hw Hs. cbn [well_typed] in Ht. destruct v as [| |h| | | | | | | | | | |]; try done.
  unfold in_width in Ht. apply andb_true_iff in Ht as [H0 H1]. apply Z.leb_le in H0. apply Z.ltb_lt in H1.
  eapply runs_weaken; [by intros x Hx; exact Hx| | |apply (runs_storeInt w ptr _ 4 h); try done;
    [unfold int_width; lia|by left]].
  - intros ?. apply stable_bytes.
  - cbn beta. intros _ F mm H. by apply rep_handle.
Qed.

Lemma all2_length {A B} (f : A → B → bool) l k : all2 f l k = true → length l = length k.
Proof.
  revert k; induction l as [|a l IH]; intros [|b k] H; try done. cbn in *.
  apply andb_true_iff in H as [_ H]. by rewrite (IH k).
Qed.

Lemma storeValue_ok t : stores t.
Proof.
  induction t as [p|ts IH|ts IH|cs IH|t IH|t n IH|n|n|t IH|o e IHo IHe|] using ty_ind';
    intros d [|fuel] w ptr v hint Hd Hv Hf Ht Hw Ha Hs Hh; try (cbn in Hf; lia);
    pose proof (layout_walks resolve _ _ _ Hd Hv Hf) as [Eal _];
    apply valid_inv in Hv as [Hsz Hv]; inversion Hd; subst; clear Hd; cbn [storeValue height] in *.
  - by apply runs_storePrimitive.
  - destruct v as [| | | | | | | | |vs| | | |]; try done. cbn [well_typed] in Ht. unfold storeRecord.
    assert (length fs = length ts) as Hlen by (by eapply Forall2_length).
    pose proof (all2_length _ _ _ Ht). unfold zlen. rewrite (proj2 (Z.eqb_eq _ _)) by lia. cbn [negb].
    eapply runs_weaken; [by intros x Hx; exact Hx| | |
      apply (runs_store_record w fuel (rf_Type <$> fs) ts vs ptr); try done; [by apply Forall2_fmap_l|lia]].
    + intros ?. apply stable_rep_fields.
    + cbn beta. intros _ F mm H'. by constructor.
  - destruct v as [| | | | | | | | |vs| | | |]; try done. cbn [well_typed] in Ht. unfold storeTuple.
    assert (length es = length ts) as Hlen by (by eapply Forall2_length).
    pose proof (all2_length _ _ _ Ht). unfold zlen. rewrite (proj2 (Z.eqb_eq _ _)) by lia. cbn [negb].
    eapply runs_weaken; [by intros x Hx; exact Hx| | |
      apply (runs_store_record w fuel es ts vs ptr); try done; lia].
    + intros ?. apply stable_rep_fields.
    + cbn beta. intros _ F mm H'. by constructor.
  - destruct Hv as [Hn Hv]. apply (runs_storeVariant w fuel cs0 cs); try done. lia.
  - eapply runs_lift; [done|]. apply (runs_storeList w fuel d0 t); try done. lia.
  - apply (runs_storeList w fuel _ (TTuple [tk; tv])); try done; [|cbn [height]; lia].
    constructor. constructor; [by eexists|]. constructor; [by eexists|constructor].
  - eapply runs_lift; [done|]. destruct Hv as [Hn Hv]. unfold spec_size in Hsz. cbn in Hsz.
    apply (runs_storeFixedList w fuel d0 t); try done; [lia|]. unfold spec_size. lia.
  - by apply runs_storeFlags.
  - by apply runs_storeEnum.
  - eapply runs_lift; [done|]. apply (runs_storeOption w fuel d0 t); try done. lia.
  - cbn [forallb] in Hv. rewrite !andb_true_iff in Hv. destruct Hv as (Hvo & Hve & _).
    apply (runs_storeResult w fuel ro re o e); try done; lia.
  - by apply runs_storeHandle.
  - by apply runs_storeHandle.
  - by apply runs_storeHandle.
  - by apply runs_storeHandle.
Qed.

(** A compiled store at an owned, aligned slot. *)
Lemma runs_StoreStep w d t fuel s ptr v :
  denotes resolve d t → valid t = true → (height t ≤ fuel)%nat → well_typed nones t v = true →
  CompileStore fuel d resolve = Ok s → winv w → (spec_align t | ptr) → slot w ptr (spec_size t) →
  runs w (range ptr (ptr + spec_size t)) (StoreStep_Store realloc fuel s ptr v) (λ _ F m, rep F m ptr t v).
Proof.
  intros Hd Hv Hf Ht. unfold CompileStore. destruct (layout_walks resolve t d fuel Hd Hv Hf) as [-> ->].
  cbn [obind]. intros [= <-] Hw Ha Hs. unfold StoreStep_Store. cbn [s_align s_size s_t s_resolve].
  destruct (layout_good t Hv) as (Hp & Hsz & _). assert (0 ≤ spec_size t) by done.
  assert (align_to ptr (spec_align t) = ptr) as Eq by (apply align_to_id; [by apply pow2_align_pos|done]).
  pose proof Hs as (Hp0 & Hle & _). destruct (fr_live w Hw) as ([? Hl32] & _).
  rewrite (Align_to_fits ptr (spec_align t)) by (done || (rewrite Eq; lia)). rewrite Eq, Z.eqb_refl. cbn [negb].
  destruct (guard_passes ptr (spec_size t) (v_len (live w)) Hp0 ltac:(done) Hle Hl32) as [Hg _].
  assert (runs w (range ptr (ptr + spec_size t)) (storeValue realloc fuel resolve ptr d v (spec_align t))
    (λ _ F m, rep F m ptr t v)) as (w' & mem' & r & E & H'); [by apply (storeValue_ok t); auto|].
  exists w', mem', r. split; [|exact H']. unfold sbind at 1, slen. by rewrite Hg.
Qed.

(** What [Load] reads after a run that ends with a representation. *)
Lemma runs_Load w w' S F d t fuel ptr v n :
  denotes resolve d t → valid t = true → (height t ≤ fuel)%nat → (spec_align t | ptr) →
  step w w' S → slot w ptr n → n = spec_size t → rep F (cont w') ptr t v →
  Load (cont w') fuel resolve ptr d = Ok v.
Proof.
  intros Hd Hv Hf Ha (Hw' & Hl & _) (Hp & Hle & _) -> Hrep. destruct (fr_live w' Hw') as ([? ?] & _).
  eapply Load_ok; [rewrite zlen_cont; done || lia|exact Hd|exact Hv|exact Hf|exact Ha| |exact Hrep]. split; [done|]. rewrite zlen_cont by done. lia.
Qed.
Lemma CompileStore_ok d t fuel :
  denotes resolve d t → valid t = true → (height t ≤ fuel)%nat →
  CompileStore fuel d resolve = Ok (mkStoreStep d resolve (spec_align t) (spec_size t)).
Proof. intros Hd Hv Hf. unfold CompileStore. by destruct (layout_walks resolve t d fuel Hd Hv Hf) as [-> ->]. Qed.

(** [Spill]: an allocation, then a compiled store into it. *)
Lemma Spill_ok w d t fuel v :
  denotes resolve d t → valid t = true → (height t ≤ fuel)%nat → well_typed nones t v = true → winv w →
  ∃ w' r, Spill realloc fuel (mkStoreStep d resolve (spec_align t) (spec_size t)) v w (live w) = (w', live w, r) ∧
  match r with
  | Ok p => (spec_align t | p) ∧ (∀ x, range p (p + spec_size t) x → owned w' x ∧ ¬ owned w x) ∧
            block (cont w') p (spec_size t) ∧ rep (fresh w w' (λ _, False)) (cont w') p t v ∧
            step w w' (λ _, False)
  | Err e => tolerated nones e
  | _ => False
  end.
Proof.
  intros Hd Hv Hf Ht Hw. pose proof (CompileStore_ok d t fuel Hd Hv Hf) as Ec. unfold Spill. cbn [s_align s_size].
  destruct (layout_good t Hv) as (Hp & Hsz & _). pose proof (proj1 (valid_inv t Hv)).
  assert (0 ≤ spec_size t) by done.
  destruct (runs_GrowMem w (spec_align t) (spec_size t) Hw Hp ltac:(lia)) as (w1 & mem1 & r1 & E1 & H1).
  unfold sbind at 1. unfold sat at 1. rewrite E1.
  destruct r1 as [p|e| |]; cbn [at_]; try done; [|by do 2 eexists].
  destruct H1 as (-> & Hstep1 & Hdiv & Hslot & Hfresh). pose proof Hstep1 as (Hw1 & _).
  destruct (runs_StoreStep w1 d t fuel _ p v Hd Hv Hf Ht Ec Hw1 Hdiv Hslot) as (w2 & mem2 & r2 & E2 & H2).
  unfold sbind, sat. rewrite E2. destruct r2 as [[]|e| |]; cbn [at_]; try done; [|by do 2 eexists].
  destruct H2 as (-> & Hstep2 & Hrep). exists w2, (Ok p).
  assert (∀ x, range p (p + spec_size t) x → owned w2 x ∧ ¬ owned w x) as Hnew.
  { intros x Hx. destruct (Hfresh x Hx) as [[]|[Ho Hn]]. split; [|done]. by apply Hstep2. }
  do 3 (split; [done|]). split; [|split].
  - destruct Hslot as (Hp0 & Hle & _), Hstep2 as (Hw2 & Hl2 & _). split; [done|]. rewrite zlen_cont by done. lia.
  - eapply rep_frame; [|exact Hrep]. apply extends_mono. intros x [Hx|[Ho Hn]]; right; [by apply Hnew|].
    split; [done|]. intros Hx. apply Hn. by apply Hstep1.
  - by eapply step_trans.
Qed.
End stores.

(** * Theorems *)

(** The errors of a store of a well-typed value: the guest's allocator failed,
    or the value has a [none] as the payload of a variant's case. *)
Definition store_failure (t : ty) (v : Value) (e : abi_error) : Prop :=
  root e = ERealloc ∨ (storable t v = false ∧ ∃ d, root e = EMissingPayload d).

(** A value is stored as one that may have a [none] in a case only if it has. *)
Lemma storable_cases t v :
  has_type t v = true →
  ∃ nones, well_typed nones t v = true ∧ ∀ e, tolerated nones e → store_failure t v e.
Proof.
  intros Ht. unfold store_failure. destruct (storable t v) eqn:Es; [exists false|exists true].
  - split; [done|]. intros e [?|[? _]]; [by left|done].
  - split; [done|]. intros e [?|[_ ?]]; [by left|by right].
Qed.

(** C1. What is stored is what is loaded: a store of a well-typed value at an
    aligned slot in use either succeeds through the live memory, after which
    [Load] at that slot returns the value, no other address in use has changed,
    and what was in use still is; or it fails, because the guest's allocator
    did, or, for a value with a [none] as the payload of a variant's case, with
    the error of a missing payload. *)
Theorem Store_Load_roundtrip {G} (realloc : Realloc G) winv owned resolve d t fuel ptr v w :
  FreshRealloc realloc winv owned →
  denotes resolve d t → valid t = true → (height t ≤ fuel)%nat → has_type t v = true →
  winv w → (spec_align t | ptr) → slot owned w ptr (spec_size t) →
  ∃ s, CompileStore fuel d resolve = Ok s ∧
    ((∃ w' mem' e, StoreStep_Store realloc fuel s ptr v w (live w) = (w', mem', Err e) ∧ store_failure t v e) ∨
     (∃ w', StoreStep_Store realloc fuel s ptr v w (live w) = (w', live w', Ok tt) ∧
        Load (cont w') fuel resolve ptr d = Ok v ∧
        step winv owned w w' (range ptr (ptr + spec_size t)))).
Proof.
  intros Hfr Hd Hv Hf Ht Hw Ha Hs.
  pose proof (CompileStore_ok resolve d t fuel Hd Hv Hf) as Ec.
  eexists. split; [exact Ec|]. destruct (storable_cases t v Ht) as (nones & Htn & Hfail).
  destruct (runs_StoreStep realloc winv owned nones resolve w d t fuel _ ptr v Hd Hv Hf Htn Ec Hw Ha Hs)
    as (w' & mem' & r & E & H). destruct r as [[]|e| |]; try done; [right|left; eauto 8].
  destruct H as (-> & Hstep & Hrep). exists w'. split; [done|]. split; [|done].
  by eapply (runs_Load realloc winv owned).
Qed.

(** A spilled value can be loaded back: [Spill] allocates the slot itself;
    when it succeeds its pointer is aligned and was not in use, [Load] there
    returns the value, and nothing that was in use has changed.  It fails as a
    store does. *)
Theorem Spill_Load_roundtrip {G} (realloc : Realloc G) winv owned resolve d t fuel v w :
  FreshRealloc realloc winv owned →
  denotes resolve d t → valid t = true → (height t ≤ fuel)%nat → has_type t v = true → winv w →
  ∃ s, CompileStore fuel d resolve = Ok s ∧
    ((∃ w' e, Spill realloc fuel s v w (live w) = (w', live w, Err e) ∧ store_failure t v e) ∨
     (∃ w' p, Spill realloc fuel s v w (live w) = (w', live w, Ok p) ∧ (spec_align t | p) ∧
        (∀ x, range p (p + spec_size t) x → owned w' x ∧ ¬ owned w x) ∧
        Load (cont w') fuel resolve p d = Ok v ∧ step winv owned w w' (λ _, False))).
Proof.
  intros Hfr Hd Hv Hf Ht Hw. eexists. split; [by apply (CompileStore_ok resolve d t)|].
  destruct (storable_cases t v Ht) as (nones & Htn & Hfail).
  destruct (Spill_ok realloc winv owned nones resolve w d t fuel v) as (w' & [p|e| |] & E & H); try done; [right|left; eauto].
  destruct H as (Ha & Hown & Hb & Hrep & Hstep). exists w', p. do 3 (split; [done|]). split; [|done].
  destruct Hstep as (Hw' & _). destruct (fr_live w' Hw') as ([? ?] & _).
  eapply Load_ok; try done. rewrite (zlen_cont realloc winv owned); done || lia.
Qed.

(** The bump allocator meets the interface. *)
Definition bump_owned (w : world Z) (x : Z) : Prop := 0 ≤ x < guest w.
Definition bump_fresh_inv (w : world Z) : Prop :=
  0 ≤ guest w ≤ v_len (live w) ∧ v_len (live w) < 2 ^ 32 ∧
  ∃ a, arrays w !! v_arr (live w) = Some a ∧ v_len (live w) ≤ zlen a.

Lemma bump_fresh_call limit w align n :
  limit < 2 ^ 32 → bump_fresh_inv w → pow2_align align → 0 ≤ n →
  let '(w', r) := bump_call limit w 0 0 align n in
  r = Err ERealloc ∨
  ∃ p, r = Ok p ∧ bump_fresh_inv w' ∧ (align | p) ∧ 0 ≤ p ∧ p + n ≤ v_len (live w') ∧
    v_len (live w) ≤ v_len (live w') ∧ guest w ≤ p ∧ guest w' = p + n ∧
    ∀ x, 0 ≤ x < v_len (live w) → cont w' !! Z.to_nat x = cont w !! Z.to_nat x.
Proof.
  intros Hlim ((Hg & Hgl) & Hl & a & Ea & Hla) Ha Hn. unfold bump_call.
  pose proof (pow2_align_pos _ Ha). rewrite (Z.max_r 1 align), (Z.max_r 0 n) by lia.
  pose proof (align_to_bounds (guest w) align ltac:(lia)) as Hb.
  pose proof (align_to_divide (guest w) align) as Hdiv.
  set (p := align_to (guest w) align) in *.
  destruct (Z.ltb_spec limit (p + n)); [by left|].
  destruct (Z.leb_spec (p + n) (v_len (live w))) as [Hin|Hout]; right; exists p; (split; [done|]).
  - split; [split_and!; cbn; [lia|lia|lia|by exists a]|]. cbn. split_and!; done || lia.
  - rewrite Ea. cbn [from_option default]. unfold id.
    set (b := take (Z.to_nat (v_len (live w))) a ++ replicate (Z.to_nat (p + n - v_len (live w))) 0).
    assert (zlen b = p + n) as Eb.
    { unfold b. rewrite zlen_app. unfold zlen in *. rewrite length_take, length_replicate. lia. }
    assert ((arrays w ++ [b]) !! List.length (arrays w) = Some b) as Elook.
    { rewrite lookup_app_r by lia. by rewrite Nat.sub_diag. }
    split; [split_and!; cbn; [lia|lia|lia|exists b; split; [exact Elook|lia]]|].
    cbn. split_and!; try done; try lia.
    intros x Hx. unfold cont. cbn. rewrite Elook, Ea. cbn. rewrite !lookup_take_lt by lia.
    unfold b. rewrite lookup_app_l by (unfold zlen in *; rewrite length_take; lia).
    by rewrite lookup_take_lt by lia.
Qed.

Lemma bump_fresh limit : limit < 2 ^ 32 → FreshRealloc (bump limit) bump_fresh_inv bump_owned.
Proof.
  intros Hlim. constructor.
  - intros w (Hg & Hl & Ha). split; [lia|done].
  - intros w x (Hg & _) Hx. unfold bump_owned in Hx. lia.
  - intros w lo bytes a (Hg & Hl & a' & Ea' & Hla) Ea Hlo Ho. rewrite Ea in Ea'. injection Ea' as <-.
    split; [|done]. split; [done|]. split; [done|]. eexists. cbn. split.
    + apply list_lookup_insert_eq. by eapply lookup_lt_Some.
    + unfold zlen in *. by rewrite length_inserts.
  - eexists. split; [done|]. intros w align n Hw Ha Hn.
    pose proof (bump_fresh_call limit w align n Hlim Hw Ha ltac:(lia)) as H.
    destruct (bump_call limit w 0 0 align n) as [w' r]. destruct H as [->|(p & -> & Hw' & Hdiv & Hp & Hle & Hlen & Hgp & Hg' & Hc)].
    { left. by eexists. }
    right. exists w', p. destruct Hw as (Hg & _). unfold bump_owned. split_and!; try done.
    + intros x Hx. lia.
    + intros x Hx. split; [lia|]. apply Hc. lia.
  - by eexists.
Qed.

Lemma sample_world_fresh : bump_fresh_inv sample_world.
Proof. split; [done|]. split; [done|]. by eexists. Qed.

(** The value of [Load_correct_witness] stored at 8 of a 64-byte memory, whose
    allocations move the memory. *)
Lemma Store_Load_roundtrip_witness :
  ∃ s, CompileStore 4 (OptionDesc (idx_ref 0)) (Some sample_load_types) = Ok s ∧
  ∃ w', StoreStep_Store (bump 4096) 4 s 8 sample_value sample_world (live sample_world) = (w', live w', Ok tt) ∧
        Load (cont w') 4 (Some sample_load_types) 8 (OptionDesc (idx_ref 0)) = Ok sample_value.
Proof.
  destruct (Store_Load_roundtrip (bump 4096) bump_fresh_inv bump_owned (Some sample_load_types)
    (OptionDesc (idx_ref 0)) sample_load_ty 4 8 sample_value sample_world)
    as (s & Ec & [(w' & mem' & e & E & _)|(w' & E & El & _)]).
  - apply bump_fresh. lia.
  - exact sample_load_denotes.
  - reflexivity.
  - cbn. lia.
  - reflexivity.
  - exact sample_world_fresh.
  - by exists 2.
  - split; [lia|]. split; [vm_compute; discriminate|]. unfold range, bump_owned. intros x.
    change (spec_size sample_load_ty) with 20. cbn. lia.
  - exfalso. vm_compute in Ec. injection Ec as <-. vm_compute in E. discriminate.
  - exists s. split; [exact Ec|]. exists w'. split; [exact E|exact El].
Defined.

Lemma Spill_Load_roundtrip_witness :
  ∃ s, CompileStore 4 (OptionDesc (idx_ref 0)) (Some sample_load_types) = Ok s ∧
  ∃ w' p, Spill (bump 4096) 4 s sample_value sample_world (live sample_world) = (w', live sample_world, Ok p) ∧
          Load (cont w') 4 (Some sample_load_types) p (OptionDesc (idx_ref 0)) = Ok sample_value.
Proof.
  destruct (Spill_Load_roundtrip (bump 4096) bump_fresh_inv bump_owned (Some sample_load_types)
    (OptionDesc (idx_ref 0)) sample_load_ty 4 sample_value sample_world)
    as (s & Ec & [(w' & e & E & _)|(w' & p & E & _ & _ & El & _)]).
  - apply bump_fresh. lia.
  - exact sample_load_denotes.
  - reflexivity.
  - cbn. lia.
  - reflexivity.
  - exact sample_world_fresh.
  - exfalso. vm_compute in Ec. injection Ec as <-. vm_compute in E. discriminate.
  - exists s. split; [exact Ec|]. exists w', p. split; [exact E|exact El].
Defined.

(** Not every value that [Load] produces can be stored back: [none] inside
    a variant's case is nil, which [storeVariant] takes for a missing payload. *)
Theorem variant_none_not_storable :
  let t := VariantDesc [{| vc_Name := "a"; vc_Type := Some (idx_ref 0) |}] in
  let types i := match i with 0 => Some (OptionDesc (prim_ref Pu8)) | _ => None end in
  Load (replicate 64 0) 3 (Some types) 0 t = Ok (VVariant 0 VNil) ∧
  (Store (bump 4096) 3 0 t (VVariant 0 VNil) (Some types) sample_world (live sample_world)).2 = Err (EMissingPayload 0).
Proof. split; reflexivity. Qed.
