(* ===== verification/AbiFlat.v ===== *)
(** Lifting and lowering of component values as core values:
    [internal/component/abi/flat.go], [coreval.go], the plans [LowerStep] and
    [LiftStep] of [plan.go] and the flat half of [fixedlist.go].

    Lowering runs in the monad [ST] of [AbiStore]: it allocates in guest memory
    for strings and lists.  Every [lowerFlat*] frame keeps the view it was given
    and drops the refreshed one its callee returns ([keep_view]), so a later
    sibling allocates through a view that may be stale.  Lifting reads core
    values from an iterator; an iterator over a variant's payload reads through
    the enclosing one and undoes the coercion to the joined types. *)
From Stdlib Require Import ZArith Lia String.
From stdpp Require Import base list numbers option tactics.
From S2P Require Import Prelude AbiTypes AbiLayout AbiFlatten AbiLoad AbiStore.
Local Open Scope Z_scope.
Local Open Scope go_scope.

(** * Core values *)

(** Floats are their IEEE bits. *)
Record CoreValue := mkCore { Kind : core; Bits : Z }.

Definition NewCoreValueI32 (v : Z) : CoreValue := mkCore I32 v.
Definition NewCoreValueI64 (v : Z) : CoreValue := mkCore I64 v.
Definition NewCoreValueF32 (v : Z) : CoreValue := mkCore F32 v.
Definition NewCoreValueF64 (v : Z) : CoreValue := mkCore F64 v.

Definition AsI32 (cv : CoreValue) : res Z := if decide (Kind cv = I32) then Ok (u32 (Bits cv)) else Panic.
Definition AsI64 (cv : CoreValue) : res Z := if decide (Kind cv = I64) then Ok (Bits cv) else Panic.
Definition AsF32 (cv : CoreValue) : res Z := if decide (Kind cv = F32) then Ok (u32 (Bits cv)) else Panic.
Definition AsF64 (cv : CoreValue) : res Z := if decide (Kind cv = F64) then Ok (Bits cv) else Panic.

Definition zeroCoreValueForKind (kind : core) : CoreValue :=
  match kind with
  | I32 => NewCoreValueI32 0
  | I64 => NewCoreValueI64 0
  | F32 => NewCoreValueF32 0
  | F64 => NewCoreValueF64 0
  end.

Definition coerceValue (cv : CoreValue) (have want : core) : res CoreValue :=
  if decide (have = want) then Ok cv
  else match have, want with
       | F32, I32 => let* bits := AsF32 cv in Ok (NewCoreValueI32 bits)
       | I32, I64 => let* v := AsI32 cv in Ok (NewCoreValueI64 v)
       | F32, I64 => let* bits := AsF32 cv in Ok (NewCoreValueI64 bits)
       | F64, I64 => let* bits := AsF64 cv in Ok (NewCoreValueI64 bits)
       | _, _ => Ok cv
       end.

Definition deCoerceValue (cv : CoreValue) (have want : core) : res CoreValue :=
  if decide (have = want) then Ok cv
  else match have, want with
       | I32, F32 => let* v := AsI32 cv in Ok (NewCoreValueF32 v)
       | I64, I32 => let* v := AsI64 cv in Ok (NewCoreValueI32 (u32 v))
       | I64, F32 => let* v := AsI64 cv in Ok (NewCoreValueF32 (u32 v))
       | I64, F64 => let* v := AsI64 cv in Ok (NewCoreValueF64 v)
       | _, _ => Ok cv
       end.

(** * Iterators *)

(** The three implementations of [valueIter], with their positions. *)
Inductive valueIter : Type :=
| CoreValueIter (values : list CoreValue) (i : nat)
| stackValueIter (kinds : list core) (bits : list Z) (i : nat)
| coercingValueIter (underlying : valueIter) (joinedFlat caseFlat : list core) (idx : nat).

(** [Next] with the advanced iterator.  After an error nothing reads from any of
    the iterators again, so an error has none. *)
Fixpoint Next (vi : valueIter) : res (CoreValue * valueIter) :=
  match vi with
  | CoreValueIter values i =>
      match values !! i with
      | None => Err EIterator
      | Some cv => Ok (cv, CoreValueIter values (S i))
      end
  | stackValueIter kinds bits i =>
      match kinds !! i with
      | None => Err EIterator
      | Some kind =>
          match bits !! i with
          | None => Panic
          | Some b => Ok (mkCore kind b, stackValueIter kinds bits (S i))
          end
      end
  | coercingValueIter underlying joinedFlat caseFlat idx =>
      match caseFlat !! idx with
      | None => Err EIterator
      | Some want =>
          match joinedFlat !! idx with
          | None => Panic
          | Some have =>
              let* '(cv, underlying) := Next underlying in
              let* cv := deCoerceValue cv have want in
              Ok (cv, coercingValueIter underlying joinedFlat caseFlat (S idx))
          end
      end
  end.

(** [Next] as often as [n], the values discarded. *)
Fixpoint skip (n : nat) (vi : valueIter) : res valueIter :=
  match n with
  | O => Ok vi
  | S n => let* '(_, vi) := Next vi in skip n vi
  end.

(** * Scalars *)

(** [i += 1 << coreBits] for a negative [i]: the shift is computed in the type
    of [i], where it is zero. *)
Definition lowerSigned (coreBits i : Z) : Z :=
  if i <? 0 then swrap coreBits (i + swrap coreBits (Z.shiftl 1 coreBits)) else i.

Definition lowerChar (r : Z) : res CoreValue :=
  let* r := check_rune r in Ok (NewCoreValueI32 (u32 r)).

Definition liftChar (cv : CoreValue) : res Z :=
  let* i := AsI32 cv in check_char i.

Definition lowerPrimitiveCore (v : Value) (prim : Prim) : res CoreValue :=
  match prim with
  | Pbool => match v with VBool b => Ok (NewCoreValueI32 (if b then 1 else 0)) | _ => Err EValueKind end
  | Pu8 | Pu16 | Pu32 => match v with VU32 u => Ok (NewCoreValueI32 u) | _ => Err EValueKind end
  | Ps8 | Ps16 | Ps32 => match v with VI32 i => Ok (NewCoreValueI32 (u32 (lowerSigned 32 i))) | _ => Err EValueKind end
  | Pu64 => match v with VU64 u => Ok (NewCoreValueI64 u) | _ => Err EValueKind end
  | Ps64 => match v with VI64 i => Ok (NewCoreValueI64 (u64 (lowerSigned 64 i))) | _ => Err EValueKind end
  | Pf32 => match v with VF32 f => Ok (NewCoreValueF32 f) | _ => Err EValueKind end
  | Pf64 => match v with VF64 f => Ok (NewCoreValueF64 f) | _ => Err EValueKind end
  | Pchar => match v with VI32 r => lowerChar r | _ => Err EValueKind end
  | Pstring => Err EValueKind
  | PerrorContext => match v with VU32 h => Ok (NewCoreValueI32 h) | _ => Err EValueKind end
  | Punknown _ => Err (EUnknownPrimitive prim)
  end.

Definition liftScalarPrimitive (cv : CoreValue) (prim : Prim) : res Value :=
  match prim with
  | Pbool => let* i := AsI32 cv in Ok (VBool (negb (i =? 0)))
  | Pu8 => let* i := AsI32 cv in Ok (VU32 (Z.land i 0xFF))
  | Pu16 => let* i := AsI32 cv in Ok (VU32 (Z.land i 0xFFFF))
  | Pu32 => let* i := AsI32 cv in Ok (VU32 i)
  | Pu64 => let* i := AsI64 cv in Ok (VU64 i)
  | Ps8 =>
      let* i := AsI32 cv in
      let i := Z.land i 0xFF in
      Ok (VI32 (if 0x80 <=? i then i8 i else i32 i))
  | Ps16 =>
      let* i := AsI32 cv in
      let i := Z.land i 0xFFFF in
      Ok (VI32 (if 0x8000 <=? i then i16 i else i32 i))
  | Ps32 => let* i := AsI32 cv in Ok (VI32 (i32 i))
  | Ps64 => let* i := AsI64 cv in Ok (VI64 (i64 i))
  | Pf32 => let* f := AsF32 cv in Ok (VF32 f)
  | Pf64 => let* f := AsF64 cv in Ok (VF64 f)
  | Pchar => let* r := liftChar cv in Ok (VI32 r)
  | PerrorContext => let* i := AsI32 cv in Ok (VU32 i)
  | Pstring | Punknown _ => Err (EUnknownPrimitive prim)
  end.

(** * Fixed-length lists of scalars *)

Fixpoint lower_elems (lower : Z → res CoreValue) (l : list Z) : res (list CoreValue) :=
  match l with
  | [] => Ok []
  | e :: l =>
      let* cv := at_ (lower e) in
      let* cvs := lower_elems lower l in
      Ok (cv :: cvs)
  end.

(** [None] is [handled == false]. *)
Definition lowerFixed (v : Value) (n : Z) (k : skind) (lower : Z → res CoreValue) : option (res (list CoreValue)) :=
  (λ l, if negb (zlen l =? n) then Err (ELength n (zlen l)) else lower_elems lower l) <$> as_slice v k.

Definition lowerFixedScalars (v : Value) (prim : Prim) (n : Z) : option (res (list CoreValue)) :=
  match prim with
  | Pu8 => lowerFixed v n KU8 (λ e, Ok (NewCoreValueI32 e))
  | Ps8 => lowerFixed v n KI8 (λ e, Ok (NewCoreValueI32 (u32 e)))
  | Pbool => lowerFixed v n KBool (λ e, Ok (NewCoreValueI32 (if e =? 0 then 0 else 1)))
  | Pu16 => lowerFixed v n KU16 (λ e, Ok (NewCoreValueI32 e))
  | Ps16 => lowerFixed v n KI16 (λ e, Ok (NewCoreValueI32 (u32 e)))
  | Pu32 => lowerFixed v n KU32 (λ e, Ok (NewCoreValueI32 e))
  | Ps32 => lowerFixed v n KI32 (λ e, Ok (NewCoreValueI32 (u32 e)))
  | Pu64 => lowerFixed v n KU64 (λ e, Ok (NewCoreValueI64 e))
  | Ps64 => lowerFixed v n KI64 (λ e, Ok (NewCoreValueI64 (u64 e)))
  | Pf32 => lowerFixed v n KF32 (λ e, Ok (NewCoreValueF32 e))
  | Pf64 => lowerFixed v n KF64 (λ e, Ok (NewCoreValueF64 e))
  | Pchar => lowerFixed v n KI32 lowerChar
  | _ => None
  end.

Fixpoint liftFixed (lift : CoreValue → res Z) (n : nat) (vi : valueIter) : res (list Z * valueIter) :=
  match n with
  | O => Ok ([], vi)
  | S n =>
      let* '(cv, vi) := Next vi in
      let* e := at_ (lift cv) in
      let* '(l, vi) := liftFixed lift n vi in
      Ok (e :: l, vi)
  end.

Definition liftFixedScalars (vi : valueIter) (prim : Prim) (n : Z) : option (res (Value * valueIter)) :=
  let lift k f := Some (let* '(l, vi) := liftFixed f (Z.to_nat n) vi in Ok (VSlice k l, vi)) in
  match prim with
  | Pu8 => lift KU8 (λ cv, let* i := AsI32 cv in Ok (u8 i))
  | Ps8 => lift KI8 (λ cv, let* i := AsI32 cv in Ok (i8 i))
  | Pbool => lift KBool (λ cv, let* i := AsI32 cv in Ok (if i =? 0 then 0 else 1))
  | Pu16 => lift KU16 (λ cv, let* i := AsI32 cv in Ok (u16 i))
  | Ps16 => lift KI16 (λ cv, let* i := AsI32 cv in Ok (i16 i))
  | Pu32 => lift KU32 AsI32
  | Ps32 => lift KI32 (λ cv, let* i := AsI32 cv in Ok (i32 i))
  | Pu64 => lift KU64 AsI64
  | Ps64 => lift KI64 (λ cv, let* i := AsI64 cv in Ok (i64 i))
  | Pf32 => lift KF32 AsF32
  | Pf64 => lift KF64 AsF64
  | Pchar => lift KI32 liftChar
  | _ => None
  end.

(** * Lowering *)

Section lower.
Context {G : Type}.
Variable realloc : Realloc G.

(** The caller's view, whatever the callee's is. *)
Definition keep_view {A} (m : ST G A) : ST G A := λ w mem,
  let '(w, _, r) := m w mem in (w, mem, r).

Definition lowerFlatString (s : list Z) : ST G (list CoreValue) :=
  let! '(ptr, byteLen) := keep_view (sat (allocStoreString realloc s)) in
  sret [NewCoreValueI32 ptr; NewCoreValueI32 byteLen].

Definition lowerFlatPrimitive (v : Value) (prim : Prim) : ST G (list CoreValue) :=
  match prim with
  | Pstring => match v with VString s => lowerFlatString s | _ => serr EValueKind end
  | _ => let! cv := slift (lowerPrimitiveCore v prim) in sret [cv]
  end.

Definition lowerFlatFlags (v : Value) : ST G (list CoreValue) :=
  match v with VU32 flags => sret [NewCoreValueI32 flags] | _ => serr EValueKind end.

Definition lowerFlatEnum (v : Value) (cases : list string) : ST G (list CoreValue) :=
  match v with
  | VU32 idx =>
      if OutOfRange idx (zlen cases) then serr (ECaseIndex idx (zlen cases))
      else sret [NewCoreValueI32 idx]
  | _ => serr EValueKind
  end.

(** The loop that coerces the payload of the active case: it stops at the end of
    either list. *)
Fixpoint coerce_payload (payload : list CoreValue) (caseFlat joinedFlat : list core) : res (list CoreValue) :=
  match payload, joinedFlat with
  | cv :: payload, want :: joinedFlat =>
      match caseFlat with
      | [] => Panic
      | have :: caseFlat =>
          let* cv := coerceValue cv have want in
          let* cvs := coerce_payload payload caseFlat joinedFlat in
          Ok (cv :: cvs)
      end
  | _, _ => Ok []
  end.

(** The zeros for the joined positions that are left. *)
Definition pad_payload (payload : list CoreValue) (joinedFlat : list core) : list CoreValue :=
  payload ++ (zeroCoreValueForKind <$> drop (length payload) joinedFlat).

(** [flat[0] == "i32"], and the rest. *)
Definition joined_of (flat : list core) : res (list core) :=
  match flat with I32 :: joinedFlat => Ok joinedFlat | _ => Err EFlatShape end.

Section walk.
Variable resolve : Resolver.
Variables Alignment Size : TypeDesc → res Z.
Variable Flatten : TypeDesc → res (list core).
Variable storeValue : Z → TypeDesc → Value → Z → ST G unit.
Variable lowerFlatImpl : Value → TypeDesc → option (list core) → ST G (list CoreValue).

Definition lowerFlatList (v : Value) (elemType : TypeDesc) : ST G (list CoreValue) :=
  let! '(ptr, length) := keep_view (sat (allocStoreAnyList realloc Alignment Size storeValue v elemType)) in
  sret [NewCoreValueI32 ptr; NewCoreValueI32 length].

(** The loop of [lowerFlatRecord] and [lowerFlatTuple]. *)
Fixpoint lower_fields (rs : list TypeRef) (vs : list Value) : ST G (list CoreValue) :=
  match rs, vs with
  | [], _ => sret []
  | r :: rs, [] => slift Panic
  | r :: rs, v :: vs =>
      let! fieldType := slift (resolveType (Some r) resolve) in
      let! fieldFlat := sat (lowerFlatImpl v fieldType None) in
      let! flat := lower_fields rs vs in
      sret (fieldFlat ++ flat)
  end.

Definition lowerFlatRecord (v : Value) (fields : list RecordField) : ST G (list CoreValue) :=
  match v with
  | VList vs =>
      if negb (zlen vs =? zlen fields) then serr (ELength (zlen fields) (zlen vs))
      else lower_fields (rf_Type <$> fields) vs
  | _ => serr EValueKind
  end.

Definition lowerFlatTuple (v : Value) (elements : list TypeRef) : ST G (list CoreValue) :=
  match v with
  | VList vs =>
      if negb (zlen vs =? zlen elements) then serr (ELength (zlen elements) (zlen vs))
      else lower_fields elements vs
  | _ => serr EValueKind
  end.

(** The payload of the active case or arm, coerced and padded. *)
Definition lower_payload (v : Value) (ref : option TypeRef) (joinedFlat : list core) : ST G (list CoreValue) :=
  let! payload :=
    match ref with
    | None => sret []
    | Some r =>
        let! caseType := slift (resolveType (Some r) resolve) in
        let! caseFlat := slift (Flatten caseType) in
        let! casePayload := sat (lowerFlatImpl v caseType (Some caseFlat)) in
        slift (coerce_payload casePayload caseFlat joinedFlat)
    end in
  sret (pad_payload payload joinedFlat).

(** [own] is [Flatten] of the variant itself, computed when [flat] is nil. *)
Definition lowerFlatVariant (v : Value) (cases : list VariantCase) (flat : option (list core))
    (own : res (list core)) : ST G (list CoreValue) :=
  match v with
  | VVariant disc payload =>
      if OutOfRange disc (zlen cases) then serr (ECaseIndex disc (zlen cases))
      else
        let! variantFlat := slift (match flat with Some f => Ok f | None => own end) in
        let! joinedFlat := slift (joined_of variantFlat) in
        match cases !! Z.to_nat disc with
        | None => slift Panic
        | Some c =>
            let! payload := lower_payload payload (vc_Type c) joinedFlat in
            sret (NewCoreValueI32 disc :: payload)
        end
  | _ => serr EValueKind
  end.

Definition lowerFlatOption (v : Value) (elemType : TypeDesc) (elemFlat : option (list core)) : ST G (list CoreValue) :=
  match v with
  | VNil =>
      let! elemFlatTypes := slift (match elemFlat with Some f => Ok f | None => Flatten elemType end) in
      sret (NewCoreValueI32 0 :: (zeroCoreValueForKind <$> elemFlatTypes))
  | _ =>
      let! elemVals := lowerFlatImpl v elemType elemFlat in
      sret (NewCoreValueI32 1 :: elemVals)
  end.

Definition lowerFlatResult (v : Value) (ok err : option TypeRef) (flat : option (list core))
    (own : res (list core)) : ST G (list CoreValue) :=
  match v with
  | VResult isErr payload =>
      let! resultFlat := slift (match flat with Some f => Ok f | None => own end) in
      let! joinedFlat := slift (joined_of resultFlat) in
      let! payload := lower_payload payload (if isErr : bool then err else ok) joinedFlat in
      sret (NewCoreValueI32 (if isErr then 1 else 0) :: payload)
  | _ => serr EValueKind
  end.

Fixpoint lower_list (elemType : TypeDesc) (l : list Value) : ST G (list CoreValue) :=
  match l with
  | [] => sret []
  | e :: l =>
      let! elemFlat := sat (lowerFlatImpl e elemType None) in
      let! flat := lower_list elemType l in
      sret (elemFlat ++ flat)
  end.

Definition lowerFlatFixedList (v : Value) (n : Z) (elemType : TypeDesc) : ST G (list CoreValue) :=
  match (match scalarPrim elemType with Some prim => lowerFixedScalars v prim n | None => None end) with
  | Some r => slift r
  | None =>
      match v with
      | VList l => if negb (zlen l =? n) then serr (ELength n (zlen l)) else lower_list elemType l
      | _ => serr EValueKind
      end
  end.
End walk.

Fixpoint lowerFlatImpl (fuel : nat) (resolve : Resolver) (v : Value) (t : TypeDesc) (flat : option (list core))
    : ST G (list CoreValue) :=
  match fuel with
  | O => slift NoFuel
  | S fuel' =>
      let rec := lowerFlatImpl fuel' resolve in
      let al := Alignment fuel' resolve in
      let sz := Size fuel' resolve in
      let fl := Flatten fuel' resolve in
      let store := storeValue realloc fuel' resolve in
      let own := Flatten fuel resolve t in
      match t with
      | PrimitiveDesc prim => lowerFlatPrimitive v prim
      | ListDesc element =>
          let! elemType := slift (resolveType (Some element) resolve) in
          lowerFlatList al sz store v elemType
      | MapDesc key value => lowerFlatList al sz store v (mapElemType key value)
      | FixedListDesc element length =>
          let! elemType := slift (resolveType (Some element) resolve) in
          lowerFlatFixedList rec v length elemType
      | RecordDesc fields => lowerFlatRecord resolve rec v fields
      | VariantDesc cases => lowerFlatVariant resolve fl rec v cases flat own
      | TupleDesc elements => lowerFlatTuple resolve rec v elements
      | FlagsDesc _ => lowerFlatFlags v
      | EnumDesc cases => lowerFlatEnum v cases
      | OptionDesc element =>
          let! elemType := slift (resolveType (Some element) resolve) in
          let! elemFlat := slift (match flat with
                                  | Some (_ :: f) => Ok (Some f)
                                  | Some [] => Panic
                                  | None => Ok None
                                  end) in
          lowerFlatOption fl rec v elemType elemFlat
      | ResultDesc ok err => lowerFlatResult resolve fl rec v ok err flat own
      | OwnDesc _ | BorrowDesc _ | StreamDesc _ | FutureDesc _ =>
          match v with VU32 h => sret [NewCoreValueI32 h] | _ => serr EValueKind end
      | _ => serr EUnsupported
      end
  end.

Definition spillValue (fuel : nat) (resolve : Resolver) (v : Value) (t : TypeDesc) : ST G Z :=
  let! s := slift (CompileStore fuel t resolve) in
  Spill realloc fuel s v.

Definition LowerFlatInto (fuel : nat) (resolve : Resolver) (dst : list CoreValue) (v : Value) (t : TypeDesc)
    : ST G (list CoreValue) :=
  match (match t with PrimitiveDesc Pstring => None | PrimitiveDesc p => Some p | _ => None end) with
  | Some p => let! cv := slift (lowerPrimitiveCore v p) in sret (dst ++ [cv])
  | None =>
      let! flatWidth := slift (FlatWidth fuel resolve t) in
      if MaxFlatParams <? flatWidth then
        let! ptr := spillValue fuel resolve v t in
        sret (dst ++ [NewCoreValueI32 ptr])
      else
        let! flat := lowerFlatImpl fuel resolve v t None in
        sret (dst ++ flat)
  end.

Definition LowerFlat (fuel : nat) (resolve : Resolver) (v : Value) (t : TypeDesc) : ST G (list CoreValue) :=
  LowerFlatInto fuel resolve [] v t.

(** ** Compiled lowering *)

(** A constructor per [lowerKind], with the fields that kind uses. *)
Inductive LowerStep : Type :=
| lowerKindPrimitive (prim : Prim)
| lowerKindString
| lowerKindHandle
| lowerKindComposite (t : TypeDesc) (resolve : Resolver) (flat : list core) (store : option StoreStep).

(** [store] is there exactly when the type spills. *)
Definition CompileLower (fuel : nat) (t : TypeDesc) (resolve : Resolver) : res LowerStep :=
  match t with
  | PrimitiveDesc Pstring => Ok lowerKindString
  | PrimitiveDesc prim => Ok (lowerKindPrimitive prim)
  | OwnDesc _ | BorrowDesc _ | StreamDesc _ | FutureDesc _ => Ok lowerKindHandle
  | _ =>
      let* flat := Flatten fuel resolve t in
      if MaxFlatParams <? zlen flat then
        let* store := CompileStore fuel t resolve in
        Ok (lowerKindComposite t resolve flat (Some store))
      else Ok (lowerKindComposite t resolve flat None)
  end.

Definition Lower (fuel : nat) (s : LowerStep) (dst : list CoreValue) (v : Value) : ST G (list CoreValue) :=
  match s with
  | lowerKindPrimitive prim => let! cv := slift (lowerPrimitiveCore v prim) in sret (dst ++ [cv])
  | lowerKindString =>
      match v with
      | VString str =>
          let! '(ptr, byteLen) := keep_view (sat (allocStoreString realloc str)) in
          sret (dst ++ [NewCoreValueI32 ptr; NewCoreValueI32 byteLen])
      | _ => serr EValueKind
      end
  | lowerKindHandle => match v with VU32 h => sret (dst ++ [NewCoreValueI32 h]) | _ => serr EValueKind end
  | lowerKindComposite t resolve flat (Some store) =>
      let! ptr := Spill realloc fuel store v in
      sret (dst ++ [NewCoreValueI32 ptr])
  | lowerKindComposite t resolve flat None =>
      let! flat := lowerFlatImpl fuel resolve v t (Some flat) in
      sret (dst ++ flat)
  end.
End lower.

(** * Lifting *)

Section lift.
Variable mem : list Z.

Definition liftFlatString (vi : valueIter) : res (Value * valueIter) :=
  let* '(ptrCV, vi) := Next vi in
  let* '(lenCV, vi) := Next vi in
  let* ptr := AsI32 ptrCV in
  let* len := AsI32 lenCV in
  let* s := at_ (loadStringFromRange mem ptr len) in
  Ok (VString s, vi).

Definition liftFlatPrimitive (vi : valueIter) (prim : Prim) : res (Value * valueIter) :=
  match prim with
  | Pstring => liftFlatString vi
  | _ =>
      let* '(cv, vi) := Next vi in
      let* v := liftScalarPrimitive cv prim in
      Ok (v, vi)
  end.

Definition liftFlatFlags (vi : valueIter) (names : list string) : res (Value * valueIter) :=
  let* _ := flattenFlagsNumLabels (zlen names) in
  let* '(cv, vi) := Next vi in
  let* i := AsI32 cv in
  Ok (VU32 (Z.land i (flagsBitMask (zlen names))), vi).

Definition liftFlatEnum (vi : valueIter) (cases : list string) : res (Value * valueIter) :=
  let* '(cv, vi) := Next vi in
  let* idx := AsI32 cv in
  if OutOfRange idx (zlen cases) then Err (ECaseIndex idx (zlen cases)) else Ok (VU32 idx, vi).

Section walk.
Variable resolve : Resolver.
Variables Alignment Size FlatWidth : TypeDesc → res Z.
Variable Flatten : TypeDesc → res (list core).
Variable loadValue : Z → TypeDesc → res Value.
Variable liftFlatImpl : valueIter → TypeDesc → option (list core) → res (Value * valueIter).

Definition liftFlatList (vi : valueIter) (elemType : TypeDesc) : res (Value * valueIter) :=
  let* '(ptrCV, vi) := Next vi in
  let* '(lenCV, vi) := Next vi in
  let* ptr := AsI32 ptrCV in
  let* len := AsI32 lenCV in
  let* l := at_ (loadAnyListFromRange mem Alignment Size loadValue ptr len elemType) in
  Ok (l, vi).

(** The loop of [liftFlatRecord] and [liftFlatTuple]. *)
Fixpoint lift_fields (vi : valueIter) (rs : list TypeRef) : res (list Value * valueIter) :=
  match rs with
  | [] => Ok ([], vi)
  | r :: rs =>
      let* fieldType := resolveType (Some r) resolve in
      let* '(v, vi) := at_ (liftFlatImpl vi fieldType None) in
      let* '(vs, vi) := lift_fields vi rs in
      Ok (v :: vs, vi)
  end.

Definition liftFlatRecord (vi : valueIter) (fields : list RecordField) : res (Value * valueIter) :=
  let* '(vs, vi) := lift_fields vi (rf_Type <$> fields) in Ok (VList vs, vi).

Definition liftFlatTuple (vi : valueIter) (elements : list TypeRef) : res (Value * valueIter) :=
  let* '(vs, vi) := lift_fields vi elements in Ok (VList vs, vi).

(** The payload of the active case or arm through a coercing iterator over [vi],
    then the joined positions it did not fill. *)
Definition lift_payload (vi : valueIter) (ref : option TypeRef) (joinedFlat : list core) : res (Value * valueIter) :=
  let* caseFlat := arm_flat resolve Flatten ref in
  let coerceVI := coercingValueIter vi joinedFlat caseFlat 0 in
  let* '(payload, coerceVI) :=
    match ref with
    | None => Ok (VNil, coerceVI)
    | Some r =>
        let* caseType := resolveType (Some r) resolve in
        at_ (liftFlatImpl coerceVI caseType (Some caseFlat))
    end in
  match coerceVI with
  | coercingValueIter vi _ _ idx =>
      let* vi := skip (length joinedFlat - idx) vi in
      Ok (payload, vi)
  | _ => Panic
  end.

Definition liftFlatVariant (vi : valueIter) (cases : list VariantCase) (flat : option (list core))
    (own : res (list core)) : res (Value * valueIter) :=
  let* variantFlat := match flat with Some f => Ok f | None => own end in
  let* joinedFlat := joined_of variantFlat in
  let* '(discCV, vi) := Next vi in
  let* caseIdx := AsI32 discCV in
  if OutOfRange caseIdx (zlen cases) then Err (ECaseIndex caseIdx (zlen cases))
  else
    match cases !! Z.to_nat caseIdx with
    | None => Panic
    | Some c =>
        let* '(payload, vi) := lift_payload vi (vc_Type c) joinedFlat in
        Ok (VVariant caseIdx payload, vi)
    end.

Definition liftFlatOption (vi : valueIter) (elemType : TypeDesc) (elemFlat : option (list core)) : res (Value * valueIter) :=
  let* '(cv, vi) := Next vi in
  let* disc := AsI32 cv in
  match disc with
  | 0 =>
      let* elemWidth := match elemFlat with Some f => Ok (zlen f) | None => FlatWidth elemType end in
      let* vi := skip (Z.to_nat elemWidth) vi in
      Ok (VNil, vi)
  | 1 => liftFlatImpl vi elemType elemFlat
  | _ => Err (EDiscriminant disc)
  end.

Definition liftFlatResult (vi : valueIter) (ok err : option TypeRef) (flat : option (list core))
    (own : res (list core)) : res (Value * valueIter) :=
  let* '(cv, vi) := Next vi in
  let* disc := AsI32 cv in
  let* resultFlat := match flat with Some f => Ok f | None => own end in
  let* joinedFlat := joined_of resultFlat in
  match disc with
  | 0 => let* '(payload, vi) := lift_payload vi ok joinedFlat in Ok (VResult false payload, vi)
  | 1 => let* '(payload, vi) := lift_payload vi err joinedFlat in Ok (VResult true payload, vi)
  | _ => Err (EDiscriminant disc)
  end.

Fixpoint lift_list (elemType : TypeDesc) (n : nat) (vi : valueIter) : res (list Value * valueIter) :=
  match n with
  | O => Ok ([], vi)
  | S n =>
      let* '(e, vi) := at_ (liftFlatImpl vi elemType None) in
      let* '(l, vi) := lift_list elemType n vi in
      Ok (e :: l, vi)
  end.

Definition liftFlatFixedList (vi : valueIter) (n : Z) (elemType : TypeDesc) : res (Value * valueIter) :=
  match (match scalarPrim elemType with Some prim => liftFixedScalars vi prim n | None => None end) with
  | Some r => r
  | None => let* '(l, vi) := lift_list elemType (Z.to_nat n) vi in Ok (VList l, vi)
  end.
End walk.

Fixpoint liftFlatImpl (fuel : nat) (resolve : Resolver) (vi : valueIter) (t : TypeDesc) (flat : option (list core))
    : res (Value * valueIter) :=
  match fuel with
  | O => NoFuel
  | S fuel' =>
      let rec := liftFlatImpl fuel' resolve in
      let al := Alignment fuel' resolve in
      let sz := Size fuel' resolve in
      let fl := Flatten fuel' resolve in
      let own := Flatten fuel resolve t in
      match t with
      | PrimitiveDesc prim => liftFlatPrimitive vi prim
      | ListDesc element =>
          let* elemType := resolveType (Some element) resolve in
          liftFlatList al sz (loadValue mem fuel' resolve) vi elemType
      | MapDesc key value => liftFlatList al sz (loadValue mem fuel' resolve) vi (mapElemType key value)
      | FixedListDesc element length =>
          let* elemType := resolveType (Some element) resolve in
          liftFlatFixedList rec vi length elemType
      | RecordDesc fields => liftFlatRecord resolve rec vi fields
      | VariantDesc cases => liftFlatVariant resolve fl rec vi cases flat own
      | TupleDesc elements => liftFlatTuple resolve rec vi elements
      | FlagsDesc names => liftFlatFlags vi names
      | EnumDesc cases => liftFlatEnum vi cases
      | OptionDesc element =>
          let* elemType := resolveType (Some element) resolve in
          let* elemFlat := match flat with
                           | Some (_ :: f) => Ok (Some f)
                           | Some [] => Panic
                           | None => Ok None
                           end in
          liftFlatOption (FlatWidth fuel' resolve) rec vi elemType elemFlat
      | ResultDesc ok err => liftFlatResult resolve fl rec vi ok err flat own
      | OwnDesc _ | BorrowDesc _ | StreamDesc _ | FutureDesc _ =>
          let* '(cv, vi) := Next vi in
          let* h := AsI32 cv in
          Ok (VU32 h, vi)
      | _ => Err EUnsupported
      end
  end.

Definition LiftFlat (fuel : nat) (resolve : Resolver) (vals : list CoreValue) (t : TypeDesc) : res Value :=
  let* flatWidth := FlatWidth fuel resolve t in
  if MaxFlatParams <? flatWidth then
    match vals with
    | [cv] => let* ptr := AsI32 cv in Load mem fuel resolve ptr t
    | _ => Err (ESpillCount (zlen vals))
    end
  else
    let* '(v, _) := liftFlatImpl fuel resolve (CoreValueIter vals 0) t None in Ok v.

Definition LiftFlatKinds (fuel : nat) (resolve : Resolver) (flat : list core) (bits : list Z) (t : TypeDesc) : res Value :=
  if MaxFlatParams <? zlen flat then
    match bits with
    | [b] => Load mem fuel resolve (u32 b) t
    | _ => Err (ESpillCount (zlen bits))
    end
  else if negb (zlen bits =? zlen flat) then Err (ELength (zlen flat) (zlen bits))
  else
    let* '(v, _) := liftFlatImpl fuel resolve (stackValueIter flat bits 0) t (Some flat) in Ok v.

(** ** Compiled lifting *)

(** A constructor per [liftKind], with the fields that kind uses. *)
Inductive LiftStep : Type :=
| liftPrimitive (prim : Prim)
| liftHandle
| liftSpilled (t : TypeDesc) (resolve : Resolver)
| liftFlatAgg (t : TypeDesc) (resolve : Resolver) (flat : list core).

Definition CompileLift (fuel : nat) (t : TypeDesc) (resolve : Resolver) : res LiftStep :=
  match t with
  | PrimitiveDesc Pstring => Ok (liftSpilled t resolve)
  | PrimitiveDesc prim => Ok (liftPrimitive prim)
  | OwnDesc _ | BorrowDesc _ | StreamDesc _ | FutureDesc _ => Ok liftHandle
  | _ =>
      let* flat := Flatten fuel resolve t in
      if MaxFlatResults <? zlen flat then Ok (liftSpilled t resolve)
      else Ok (liftFlatAgg t resolve flat)
  end.

(** [coreResults[0]]. *)
Definition first (coreResults : list CoreValue) : res CoreValue :=
  match coreResults with cv :: _ => Ok cv | [] => Panic end.

Definition Lift (fuel : nat) (s : LiftStep) (coreResults : list CoreValue) : res Value :=
  match s with
  | liftPrimitive prim => let* cv := first coreResults in liftScalarPrimitive cv prim
  | liftHandle => let* cv := first coreResults in let* h := AsI32 cv in Ok (VU32 h)
  | liftSpilled t resolve =>
      let* cv := first coreResults in
      let* ptr := AsI32 cv in
      Load mem fuel resolve ptr t
  | liftFlatAgg t resolve flat =>
      let* '(v, _) := liftFlatImpl fuel resolve (CoreValueIter coreResults 0) t (Some flat) in Ok v
  end.
End lift.
