(* ===== verification/AbiFlatRep.v ===== *)
(** The core values that represent a component value, and the correctness of
    lifting.

    [frep t v cvs] says that the core values [cvs], together with memory for
    what strings and lists point to, are the Canonical ABI's flat representation
    of [v]: a case's payload is coerced to the joined types of the variant and
    padded with zeros.  Their kinds are the flattening of the type, and
    [LiftFlat], whichever iterator it reads through, returns the value. *)
From Stdlib Require Import ZArith Lia String.
From stdpp Require Import base list numbers option tactics.
From S2P Require Import Prelude AbiTypes AbiLayout AbiFlatten AbiLoad AbiStore AbiRep AbiRoundtrip AbiFlat.
Local Open Scope Z_scope.
Local Open Scope go_scope.

(** * Narrow types *)

(** The type does not spill as a parameter. *)
Definition narrow (t : ty) : Prop := zlen (spec_flatten t) ≤ MaxFlatParams.

Lemma narrow_fields ts : zlen (concat (spec_flatten <$> ts)) ≤ MaxFlatParams → Forall narrow ts.
Proof.
  intros H. apply Forall_forall. intros t Ht. unfold narrow.
  pose proof (zlen_concat_elem (spec_flatten t) (spec_flatten <$> ts)) as He.
  rewrite list_elem_of_fmap in He. specialize (He ltac:(exists t; split; [done|by apply list_elem_of_In])). lia.
Qed.

Lemma narrow_cases cs :
  zlen (flatten_cases (omap (fmap spec_flatten) cs)) ≤ MaxFlatParams → Forall (from_option narrow True) cs.
Proof.
  intros H. apply Forall_forall. intros [t|] Ht; [|done]. cbn. apply (cut_cases_le _ _ H).
  apply list_elem_of_omap. exists (Some t). split; [by apply list_elem_of_In|done].
Qed.

Lemma narrow_fixed t n : 0 < n → narrow (TFixed t n) → narrow t.
Proof.
  intros Hn. unfold narrow, spec_flatten. cbn [flatten_with]. fold (spec_flatten t).
  rewrite zlen_copies, Z2Nat.id by lia. pose proof (zlen_nonneg (spec_flatten t)). nia.
Qed.

Lemma cut_fields ts :
  Forall (λ t, valid t = true → narrow t → cut_flatten t = spec_flatten t) ts → forallb valid ts = true → Forall narrow ts →
  cut_flatten <$> ts = spec_flatten <$> ts.
Proof.
  induction 1 as [|t ts Ht _ IH]; [done|]. cbn. intros [Hv Hvs]%andb_true_iff Hn. inversion_clear Hn.
  rewrite Ht by done. f_equal. by apply IH.
Qed.

Lemma cut_cases cs :
  Forall (from_option (λ t, valid t = true → narrow t → cut_flatten t = spec_flatten t) True) cs →
  forallb (from_option valid true) cs = true → Forall (from_option narrow True) cs →
  omap (fmap cut_flatten) cs = omap (fmap spec_flatten) cs.
Proof.
  induction 1 as [|c cs Hc _ IH]; [done|]. cbn. intros [Hv Hvs]%andb_true_iff Hn. inversion_clear Hn.
  destruct c as [t|]; cbn in *; [rewrite Hc by done; f_equal|]; by apply IH.
Qed.

(** On a narrow type no fixed-length list is cut. *)
Lemma narrow_cut t : valid t = true → narrow t → cut_flatten t = spec_flatten t.
Proof.
  induction t as [p|ts IH|ts IH|cs IH|t IH|t n IH|n|n|t IH|o e IHo IHe|] using ty_ind';
    intros [_ Hv]%valid_inv Hn; try done;
    [| | |destruct Hv as [H0 Hv]; pose proof (narrow_fixed t n ltac:(lia) Hn) as Hn1|..];
    unfold narrow, cut_flatten, spec_flatten in *; cbn [flatten_with] in *; fold cut_flatten spec_flatten in *.
  - f_equal. by apply cut_fields, narrow_fields.
  - f_equal. by apply cut_fields, narrow_fields.
  - unfold flatten_cases. do 2 f_equal. apply cut_cases; [done|tauto|by apply narrow_cases].
  - rewrite IH by done. unfold fixedListCopies. destruct (Z.eqb_spec (zlen (spec_flatten t)) 0) as [E|E].
    + destruct (spec_flatten t); [|unfold zlen in E; cbn in E; lia]. cbn. clear. by induction (Z.to_nat n).
    + rewrite zlen_copies, Z2Nat.id in Hn by lia. unfold MaxFlatParams in *. pose proof (zlen_nonneg (spec_flatten t)).
      rewrite wrap_small by nia. by rewrite (proj2 (Z.leb_le _ 16)) by lia.
  - rewrite IH; [done|done|]. apply (cut_cases_le _ _ Hn). by left.
  - unfold flatten_cases. do 2 f_equal. apply (cut_cases [o; e]); [by repeat constructor|done|by apply narrow_cases].
Qed.

Lemma Flatten_ok resolve d t fuel :
  denotes resolve d t → valid t = true → (height t ≤ fuel)%nat → narrow t →
  FlatWidth fuel resolve d = Ok (zlen (spec_flatten t)) ∧ Flatten fuel resolve d = Ok (spec_flatten t).
Proof.
  intros Hd Hv Hf Hn. rewrite <- (narrow_cut t Hv Hn). apply (flatten_computed resolve t); try done.
  rewrite (narrow_cut t Hv Hn). unfold narrow, MaxFlatParams in Hn. lia.
Qed.

(** * Core values *)

(** The kind and the bits of a scalar as a core value. *)
Definition core_kind (p : Prim) : core :=
  match p with Ps64 | Pu64 => I64 | Pf32 => F32 | Pf64 => F64 | _ => I32 end.

Definition core_bits (v : Value) : Z :=
  match v with
  | VBool b => if b then 1 else 0
  | VU32 n | VU64 n | VF32 n | VF64 n => n
  | VI32 n => u32 n
  | VI64 n => u64 n
  | _ => 0
  end.

Definition scalar_core (p : Prim) (v : Value) : CoreValue := mkCore (core_kind p) (core_bits v).

(** The bits fit the kind. *)
Definition core_ok (cv : CoreValue) : Prop :=
  0 ≤ Bits cv < match Kind cv with I32 | F32 => 2 ^ 32 | I64 | F64 => 2 ^ 64 end.

Lemma lowerSigned_id w n : 0 < w → - 2 ^ (w - 1) ≤ n < 2 ^ (w - 1) → lowerSigned w n = n.
Proof.
  intros Hw Hn. unfold lowerSigned. destruct (Z.ltb_spec n 0); [|done].
  assert (swrap w (Z.shiftl 1 w) = 0) as ->.
  { rewrite Z.shiftl_1_l, (swrap_eq w _ 0), swrap_small; [done|done|lia|done|]. by rewrite Z.mod_same by lia. }
  rewrite Z.add_0_r. by apply swrap_small.
Qed.

(** A signed number of [w] bits, sign-extended to a core [i32], and back. *)
Lemma lift_swidth w n :
  0 < w ≤ 32 → in_swidth w n = true →
  let i := Z.land (u32 n) (2 ^ w - 1) in
  swrap w i = n ∧ ((2 ^ (w - 1) <=? i) = false → i32 i = n).
Proof.
  intros Hw Hn%in_swidth_true. cbn zeta.
  assert (Z.land (u32 n) (2 ^ w - 1) = n `mod` 2 ^ w) as ->.
  { rewrite land_ones_mod by lia. unfold wrap. apply Z.mod_mod_divide.
    exists (2 ^ (32 - w)). rewrite <- Z.pow_add_r by lia. f_equal. lia. }
  split; [by apply swrap_mod; [lia|]|]. intros Hlt%Z.leb_gt.
  assert (2 ^ w = 2 * 2 ^ (w - 1)) as E by (rewrite <- Z.pow_succ_r by lia; f_equal; lia).
  assert (0 ≤ n) as H0.
  { destruct (Z.le_gt_cases 0 n); [done|]. rewrite <- (Z_mod_plus_full n 1), Z.mod_small in Hlt by lia. lia. }
  rewrite Z.mod_small by lia. apply swrap_small; [lia|].
  assert (2 ^ (w - 1) ≤ 2 ^ (32 - 1)) by (apply Z.pow_le_mono_r; lia). lia.
Qed.

(** The goals of an encoding: each value in range. *)
Ltac enc_range :=
  match goal with
  | |- (if ?b then _ else _) = Some _ → _ => let E := fresh "E" in destruct b eqn:E; [intros [= <-]|done]
  | |- Some _ = Some _ → _ => intros [= <-]
  end.

Lemma lowerPrimitiveCore_ok p v bs :
  prim_enc p v = Some bs → lowerPrimitiveCore v p = Ok (scalar_core p v).
Proof.
  unfold prim_enc, scalar_core. destruct p, v; try done; cbn; enc_range; try done.
  1,2,3: rewrite lowerSigned_id; [done|lia|]; apply in_swidth_true in E; lia.
  - rewrite lowerSigned_id; [done|lia|]. by apply in_swidth_true.
  - unfold lowerChar, check_rune, is_char in *. rewrite !andb_true_iff, negb_true_iff in E. destruct E as [[H1 H2] H3].
    apply Z.leb_le in H1. apply Z.ltb_lt in H2. rewrite H3, (proj2 (Z.ltb_ge n 0)), (proj2 (Z.leb_gt _ n)) by lia. done.
Qed.

Lemma scalar_core_ok p v bs : prim_enc p v = Some bs → core_ok (scalar_core p v).
Proof.
  unfold prim_enc, scalar_core, core_ok. destruct p, v; try done; cbn; enc_range;
    try (apply in_width_true in E; cbn in E; lia); try (apply wrap_range; lia); try (by destruct b).
Qed.

Lemma AsI32_ok n : 0 ≤ n < 2 ^ 32 → AsI32 (mkCore I32 n) = Ok n.
Proof. intros Hn. unfold AsI32. rewrite decide_True by done. cbn. by rewrite wrap_small. Qed.

Lemma AsF32_ok n : 0 ≤ n < 2 ^ 32 → AsF32 (mkCore F32 n) = Ok n.
Proof. intros Hn. unfold AsF32. rewrite decide_True by done. cbn. by rewrite wrap_small. Qed.

Lemma AsI64_ok n : AsI64 (mkCore I64 n) = Ok n.
Proof. done. Qed.

Lemma AsF64_ok n : AsF64 (mkCore F64 n) = Ok n.
Proof. done. Qed.

Lemma liftScalarPrimitive_ok p v bs :
  prim_enc p v = Some bs → liftScalarPrimitive (scalar_core p v) p = Ok v.
Proof.
  intros He. pose proof (scalar_core_ok p v bs He) as Hok. revert He Hok.
  unfold prim_enc, scalar_core, core_ok. destruct p, v; try done; cbn; enc_range; intros Hok;
    unfold liftChar; rewrite ?AsI32_ok, ?AsF32_ok, ?AsI64_ok, ?AsF64_ok by lia; cbn [obind]; try done.
  - by destruct b.
  - destruct (lift_swidth 8 n) as [H1 H2]; [lia|done|]. change (2 ^ 8 - 1) with 255 in *.
    destruct (_ <=? _) eqn:Ele; [by rewrite H1|]. by rewrite H2.
  - change 0xFF with (2 ^ 8 - 1). rewrite land_ones_mod, Z.mod_small by (lia || by apply in_width_true). done.
  - destruct (lift_swidth 16 n) as [H1 H2]; [lia|done|]. change (2 ^ 16 - 1) with 65535 in *.
    destruct (_ <=? _) eqn:Ele; [by rewrite H1|]. by rewrite H2.
  - change 0xFFFF with (2 ^ 16 - 1). rewrite land_ones_mod, Z.mod_small by (lia || by apply in_width_true). done.
  - do 2 f_equal. apply (swrap_mod 32); [lia|]. by apply in_swidth_true.
  - do 2 f_equal. apply (swrap_mod 64); [lia|]. by apply in_swidth_true.
  - apply is_char_check in E as [Hr E]. rewrite (wrap_small 32 n) by done. by rewrite E.
Qed.

(** * Flat representation *)

(** A core value read at another type: the Canonical ABI's coercions between a
    case's type and the joined type keep the bits. *)
Definition retag (want : core) (cv : CoreValue) : CoreValue := mkCore want (Bits cv).

(** The joined types of a variant's payload. *)
Definition joined (cs : list (option ty)) : list core := foldl merge [] (omap (fmap spec_flatten) cs).

Definition zeros (flat : list core) : list CoreValue := (λ k, mkCore k 0) <$> flat.

Section frep.
Variable F : Z → Prop.
Variable m : list Z.

Inductive frep : ty → Value → list CoreValue → Prop :=
| frep_prim p v bs : prim_enc p v = Some bs → frep (TPrim p) v [scalar_core p v]
| frep_string s q :
    utf8_valid s = true → zlen s < 2 ^ 32 → block m q (zlen s) → bytes_at F m q s →
    frep (TPrim Pstring) (VString s) [mkCore I32 q; mkCore I32 (zlen s)]
| frep_record ts vs cvs : frep_fields ts vs cvs → frep (TRecord ts) (VList vs) cvs
| frep_tuple ts vs cvs : frep_fields ts vs cvs → frep (TTuple ts) (VList vs) cvs
| frep_variant cs d p c cvs :
    0 ≤ d < zlen cs → cs !! Z.to_nat d = Some c → frep_payload (joined cs) c p cvs →
    frep (TVariant cs) (VVariant d p) (mkCore I32 d :: cvs)
| frep_list t v q n : rep_elems F m q t n v → frep (TList t) v [mkCore I32 q; mkCore I32 n]
| frep_slice t p k l :
    elem_kind t = Some (p, k) → Forall (λ e, is_Some (prim_enc p (elem_value p e))) l →
    frep (TFixed t (zlen l)) (VSlice k l) ((λ e, scalar_core p (elem_value p e)) <$> l)
| frep_fixed t l cvs :
    elem_kind t = None → frep_fields (replicate (length l) t) l cvs →
    frep (TFixed t (zlen l)) (VList l) cvs
| frep_flags n bits : 0 ≤ bits < 2 ^ n → frep (TFlags n) (VU32 bits) [mkCore I32 bits]
| frep_enum n i : 0 ≤ i < n → frep (TEnum n) (VU32 i) [mkCore I32 i]
| frep_none t : frep (TOption t) VNil (mkCore I32 0 :: zeros (spec_flatten t))
| frep_some t v cvs : frep t v cvs → frep (TOption t) v (mkCore I32 1 :: cvs)
| frep_result o e (isErr : bool) p cvs :
    frep_payload (joined [o; e]) (if isErr then e else o) p cvs →
    frep (TResult o e) (VResult isErr p) (mkCore I32 (if isErr then 1 else 0) :: cvs)
| frep_handle h : 0 ≤ h < 2 ^ 32 → frep THandle (VU32 h) [mkCore I32 h]
with frep_fields : list ty → list Value → list CoreValue → Prop :=
| frepf_nil : frep_fields [] [] []
| frepf_cons t ts v vs cvs cvss :
    frep t v cvs → frep_fields ts vs cvss → frep_fields (t :: ts) (v :: vs) (cvs ++ cvss)
with frep_payload : list core → option ty → Value → list CoreValue → Prop :=
| frepp_none j : frep_payload j None VNil (zeros j)
| frepp_some j t v cvs :
    frep t v cvs → frep_payload j (Some t) v (zip_with retag j cvs ++ zeros (drop (length cvs) j)).
End frep.

Scheme frep_mut := Minimality for frep Sort Prop
  with frep_fields_mut := Minimality for frep_fields Sort Prop
  with frep_payload_mut := Minimality for frep_payload Sort Prop.

(** What memory holds for a flat representation stays, as for [rep]. *)
Lemma frep_frame F F' m m' t v cvs : extends F F' m m' → frep F m t v cvs → frep F' m' t v cvs.
Proof.
  intros Hx. revert t v cvs.
  apply (frep_mut F m (frep F' m') (frep_fields F' m') (frep_payload F' m')); intros; try (econstructor; solve [eauto]).
  - econstructor; eauto using block_frame, bytes_at_frame.
  - econstructor. by eapply stable_rep_elems.
Qed.

(** * The kinds of a representation *)

Definition coercible (have want : core) : Prop :=
  have = want ∨ (have = F32 ∧ want = I32) ∨ want = I64.

Lemma coercible_trans a b c : coercible a b → coercible b c → coercible a c.
Proof. unfold coercible. destruct a, b, c; intuition congruence. Qed.

Lemma coercible_join a b : coercible a (join a b) ∧ coercible b (join a b).
Proof. unfold coercible. destruct a, b; vm_compute; auto. Qed.

(** Every type at a position coerces to the join of the position. *)
Lemma coercible_join_all l x y : x ∈ l → join_all l = Some y → coercible x y.
Proof.
  destruct l as [|a l]; [done|]. cbn. intros Hx [= <-].
  assert (∀ l a, coercible a (foldl join a l) ∧ ∀ x, x ∈ l → coercible x (foldl join a l)) as H.
  { clear. induction l as [|b l IH]; intros a; cbn; [split; [by left|by intros x Hx; inversion Hx]|].
    destruct (coercible_join a b), (IH (join a b)) as [H1 H2]. split; [by eapply coercible_trans|].
    intros x [->|Hx]%elem_of_cons; [by eapply coercible_trans|auto]. }
  destruct (H l a). apply elem_of_cons in Hx as [->|?]; auto.
Qed.

(** A flattening fits joined types: every position coerces to the joined one. *)
Definition fits (f j : list core) : Prop := ∃ j1 j2, j = j1 ++ j2 ∧ Forall2 coercible f j1.

Lemma fits_joined fl f : f ∈ fl → fits f (foldl merge [] fl).
Proof.
  intros Hf.
  assert (∀ i h, f !! i = Some h → ∃ w, foldl merge [] fl !! i = Some w ∧ coercible h w) as Hl.
  { intros i h Hi. rewrite lookup_merge_all. cbn.
    assert (h ∈ slot_candidates fl i) as Hin by (apply list_elem_of_omap; eauto).
    destruct (join_all (slot_candidates fl i)) as [y|] eqn:E.
    - exists y. split; [done|]. by eapply coercible_join_all.
    - destruct (slot_candidates fl i); [inversion Hin|done]. }
  exists (take (length f) (foldl merge [] fl)), (drop (length f) (foldl merge [] fl)).
  split; [by rewrite take_drop|]. apply Forall2_same_length_lookup. split.
  - rewrite length_take. destruct (decide (length f = 0%nat)) as [E|E]; [lia|].
    destruct (lookup_lt_is_Some_2 f (length f - 1)) as [h Hh]; [lia|].
    destruct (Hl _ _ Hh) as (w & Hw & _). apply lookup_lt_Some in Hw. lia.
  - intros i h w Hh Hw. pose proof (lookup_lt_Some _ _ _ Hh). rewrite lookup_take_lt in Hw by done.
    destruct (Hl _ _ Hh) as (w' & Hw' & Hc). congruence.
Qed.

Lemma core_ok_retag cv want : core_ok cv → coercible (Kind cv) want → core_ok (retag want cv).
Proof.
  unfold core_ok, retag. cbn. destruct cv as [k b]. cbn. intros Hb [->|[[-> ->]| ->]]; [done|done|].
  destruct k; lia.
Qed.

(** Core values of the given kinds, their bits in range. *)
Definition typed (cvs : list CoreValue) (flat : list core) : Prop :=
  Kind <$> cvs = flat ∧ Forall core_ok cvs.

Lemma typed_app a b f g : typed a f → typed b g → typed (a ++ b) (f ++ g).
Proof. intros [<- ?] [<- ?]. split; [by rewrite fmap_app|by apply Forall_app]. Qed.

Lemma typed_zeros j : typed (zeros j) j.
Proof.
  split; [unfold zeros; rewrite <- list_fmap_compose; by apply list_fmap_id|].
  apply Forall_fmap, Forall_true. intros []; unfold core_ok; cbn; lia.
Qed.

Lemma typed_retag cvs j : Forall2 coercible (Kind <$> cvs) j → Forall core_ok cvs → typed (zip_with retag j cvs) j.
Proof.
  revert j. induction cvs as [|cv cvs IH]; intros j Hj Ho; inversion Hj as [|? w ? j' Hc Hj']; subst; [done|].
  inversion_clear Ho. destruct (IH j' Hj') as [E ?]; [done|]. split; [cbn; by f_equal|].
  constructor; [by apply core_ok_retag|done].
Qed.

Lemma zip_with_prefix cvs j1 j2 :
  length cvs = length j1 → zip_with retag (j1 ++ j2) cvs = zip_with retag j1 cvs ∧ drop (length cvs) (j1 ++ j2) = j2.
Proof.
  revert j1. induction cvs as [|cv cvs IH]; intros [|k j1]; try done; cbn.
  - intros _. split; [by destruct j2|done].
  - intros [= E]. destruct (IH j1 E) as [-> ->]. done.
Qed.

Lemma typed_payload cvs f j :
  typed cvs f → fits f j → typed (zip_with retag j cvs ++ zeros (drop (length cvs) j)) j.
Proof.
  intros [<- Ho] (j1 & j2 & -> & Hc). pose proof (Forall2_length Hc) as El. rewrite length_fmap in El.
  destruct (zip_with_prefix cvs j1 j2 El) as [-> ->]. apply typed_app; [by apply typed_retag|apply typed_zeros].
Qed.

Lemma fits_case cs n t : cs !! n = Some (Some t) → fits (spec_flatten t) (joined cs).
Proof.
  intros Hc. apply fits_joined, list_elem_of_omap. exists (Some t).
  split; [by eapply list_elem_of_lookup_2|done].
Qed.

Lemma fits_arm o e (isErr : bool) t : (if isErr then e else o) = Some t → fits (spec_flatten t) (joined [o; e]).
Proof. intros Hc. apply (fits_case _ (if isErr then 1%nat else 0%nat)). destruct isErr; cbn; by f_equal. Qed.

Lemma arm_valid o e (isErr : bool) :
  forallb (from_option valid true) [o; e] = true → from_option valid true (if isErr then e else o) = true.
Proof. cbn. rewrite !andb_true_iff. intros (? & ? & _). by destruct isErr. Qed.

Lemma case_is_valid cs n c :
  cs !! n = Some c → forallb (from_option valid true) cs = true → from_option valid true c = true.
Proof. intros Hc Hv. rewrite forallb_forall in Hv. apply Hv, list_elem_of_In. by eapply list_elem_of_lookup_2. Qed.

Lemma forallb_replicate n t : valid t = true → forallb valid (replicate n t) = true.
Proof. intros Hv. induction n; cbn; [done|by rewrite Hv]. Qed.

Lemma core_ok_i32 n : 0 ≤ n < 2 ^ 32 → core_ok (mkCore I32 n).
Proof. done. Qed.

Lemma typed_i32 n cvs f : 0 ≤ n < 2 ^ 32 → typed cvs f → typed (mkCore I32 n :: cvs) (I32 :: f).
Proof. intros Hn [<- ?]. split; [done|by constructor]. Qed.

Lemma typed_nil : typed [] [].
Proof. by split. Qed.

Lemma typed_scalar p v bs : prim_enc p v = Some bs → typed [scalar_core p v] (prim_flat p).
Proof.
  intros He. split; [by destruct p, v|]. constructor; [by eapply scalar_core_ok|constructor].
Qed.

Lemma typed_slice p k l :
  slice_kind p = Some k → Forall (λ e, is_Some (prim_enc p (elem_value p e))) l →
  typed ((λ e, scalar_core p (elem_value p e)) <$> l) (concat (replicate (length l) (prim_flat p))).
Proof.
  intros Hk. induction 1 as [|e l [bs He] _ IH]; [done|]. cbn [fmap list_fmap length replicate concat].
  apply (typed_app [_]); [by eapply typed_scalar|done].
Qed.

Lemma rep_elems_len F m q t n v : zlen m < 2 ^ 32 → valid t = true → rep_elems F m q t n v → 0 ≤ q < 2 ^ 32 ∧ 0 ≤ n < 2 ^ 32.
Proof.
  intros Hm Hv He. destruct (layout_good t Hv) as (_ & Hs & _).
  inversion He as [? ? ? ? ? l ? ? ? ? [? ?]|? ? ? l ? ? ? ? [? ?]]; subst; unfold spec_size in *;
    pose proof (zlen_nonneg l); nia.
Qed.

(** The core values of a representation have the kinds [Flatten] announces. *)
Lemma frep_typed F m t v cvs :
  zlen m < 2 ^ 32 → frep F m t v cvs → valid t = true → typed cvs (spec_flatten t).
Proof.
  intros Hm. revert t v cvs.
  apply (frep_mut F m (λ t _ cvs, valid t = true → typed cvs (spec_flatten t))
    (λ ts _ cvs, forallb valid ts = true → typed cvs (concat (spec_flatten <$> ts)))
    (λ j c _ cvs, from_option valid true c = true → (∀ t, c = Some t → fits (spec_flatten t) j) → typed cvs j)).
  - intros p v bs He _. by eapply typed_scalar.
  - intros s q _ Hs [Hq Hl] _ _. pose proof (zlen_nonneg s). apply typed_i32; [lia|]. apply typed_i32; [lia|apply typed_nil].
  - intros ts vs cvs _ IH [_ Hv]%valid_inv. by apply IH.
  - intros ts vs cvs _ IH [_ Hv]%valid_inv. by apply IH.
  - intros cs d p c cvs Hd Hc _ IH [_ [Hn Hv]]%valid_inv. apply typed_i32; [lia|].
    apply IH; [by eapply case_is_valid|]. intros t ->. by eapply fits_case.
  - intros t v q n He [_ Hv]%valid_inv. destruct (rep_elems_len _ _ _ _ _ _ Hm Hv He).
    apply typed_i32; [lia|]. apply typed_i32; [lia|apply typed_nil].
  - intros t p k l Hk Hl _. destruct t; try done. cbn in Hk. apply fmap_Some in Hk as (k' & Hk & [= -> ->]).
    unfold spec_flatten. cbn [flatten_with]. unfold zlen. rewrite Nat2Z.id. by eapply typed_slice.
  - intros t l cvs Hk _ IH [_ [_ Hv]]%valid_inv. unfold spec_flatten. cbn [flatten_with]. fold (spec_flatten t).
    unfold zlen. rewrite Nat2Z.id, <- fmap_replicate. by apply IH, forallb_replicate.
  - intros n bits Hb [_ Hn]%valid_inv. apply typed_i32; [|apply typed_nil].
    assert (2 ^ n ≤ 2 ^ 32) by (apply Z.pow_le_mono_r; lia). lia.
  - intros n i Hi [_ Hn]%valid_inv. apply typed_i32; [lia|apply typed_nil].
  - intros t _. apply typed_i32; [lia|]. apply (typed_zeros (spec_flatten t)).
  - intros t v cvs _ IH [_ Hv]%valid_inv. apply typed_i32; [lia|]. by apply IH.
  - intros o e isErr p cvs _ IH [_ Hv]%valid_inv. apply typed_i32; [by destruct isErr|].
    apply IH; [by apply arm_valid|]. intros t. apply fits_arm.
  - intros h Hh _. apply typed_i32; [lia|apply typed_nil].
  - intros _. apply typed_nil.
  - intros t ts v vs cvs cvss _ IH1 _ IH2. cbn. intros [H1 H2]%andb_true_iff. apply typed_app; auto.
  - intros j _ _. apply typed_zeros.
  - intros j t v cvs _ IH Hv Hf. eapply typed_payload; [by apply IH|by apply Hf].
Qed.
