(* ===== verification/AbiFlatLift.v ===== *)
(** The correctness of lifting: whichever iterator the core values come from,
    [LiftFlat], [LiftFlatKinds] and the compiled [LiftStep] return the value
    that they represent, and consume exactly its core values. *)
From Stdlib Require Import ZArith Lia String.
From stdpp Require Import base list numbers option tactics.
From S2P Require Import Prelude AbiTypes AbiLayout AbiFlatten AbiLoad AbiStore AbiRep AbiRoundtrip AbiFlat AbiFlatRep.
Local Open Scope Z_scope.
Local Open Scope go_scope.

(** * Iterators *)

(** The iterator yields [cvs] one after the other and is then [vi']. *)
Fixpoint yields (vi : valueIter) (cvs : list CoreValue) (vi' : valueIter) : Prop :=
  match cvs with
  | [] => vi' = vi
  | cv :: cvs => ∃ vi1, Next vi = Ok (cv, vi1) ∧ yields vi1 cvs vi'
  end.

Lemma yields_app vi a b vi' : yields vi (a ++ b) vi' ↔ ∃ vi1, yields vi a vi1 ∧ yields vi1 b vi'.
Proof.
  revert vi. induction a as [|cv a IH]; intros vi; cbn.
  - split; [intros H; by exists vi|by intros (? & -> & ?)].
  - split.
    + intros (vi1 & E & (vi2 & H1 & H2)%IH). exists vi2. eauto.
    + intros (vi2 & (vi1 & E & H1) & H2). exists vi1. split; [done|]. apply IH. eauto.
Qed.

Lemma skip_yields vi cvs vi' : yields vi cvs vi' → skip (length cvs) vi = Ok vi'.
Proof.
  revert vi. induction cvs as [|cv cvs IH]; intros vi; cbn; [by intros ->|].
  intros (vi1 & -> & H). cbn [obind]. by apply IH.
Qed.

Lemma yields_values vals i cvs :
  take (length cvs) (drop i vals) = cvs → yields (CoreValueIter vals i) cvs (CoreValueIter vals (i + length cvs)).
Proof.
  revert i. induction cvs as [|cv cvs IH]; intros i H; cbn [yields]; [f_equal; cbn; lia|].
  assert (vals !! i = Some cv) as Hi.
  { rewrite <- (Nat.add_0_r i), <- lookup_drop. destruct (drop i vals); [done|]. cbn in H |- *. congruence. }
  exists (CoreValueIter vals (S i)). split; [cbn [Next]; by rewrite Hi|].
  cbn [length]. rewrite <- Nat.add_succ_comm. apply IH.
  rewrite (drop_S vals cv i Hi) in H. cbn in H. congruence.
Qed.

Lemma yields_stack cvs pre :
  yields (stackValueIter (Kind <$> pre ++ cvs) (Bits <$> pre ++ cvs) (length pre)) cvs
    (stackValueIter (Kind <$> pre ++ cvs) (Bits <$> pre ++ cvs) (length pre + length cvs)).
Proof.
  revert pre. induction cvs as [|[k b] cvs IH]; intros pre; cbn [yields]; [f_equal; cbn; lia|].
  eexists. split.
  - cbn [Next]. rewrite !list_lookup_fmap, list_lookup_middle by done. done.
  - specialize (IH (pre ++ [mkCore k b])). rewrite <- app_assoc, length_app in IH. cbn [app length] in IH |- *.
    replace (length pre + 1)%nat with (S (length pre)) in IH by lia. by rewrite Nat.add_succ_r.
Qed.

(** [deCoerceValue] undoes the coercion. *)
Lemma deCoerce_retag cv want :
  core_ok cv → coercible (Kind cv) want → deCoerceValue (retag want cv) want (Kind cv) = Ok cv.
Proof.
  destruct cv as [k b]. unfold core_ok, retag. cbn. intros Hb Hc. unfold deCoerceValue.
  case_decide as E; [by subst|]. destruct Hc as [->|[[-> ->]| ->]]; [done| |].
  - by rewrite AsI32_ok.
  - destruct k; try done; rewrite AsI64_ok; cbn [obind]; by rewrite ?wrap_small.
Qed.

Lemma yields_coercing vi vi' cvs j1 j2 pre jpre :
  length pre = length jpre → Forall2 coercible (Kind <$> cvs) j1 → Forall core_ok cvs →
  yields vi (zip_with retag j1 cvs) vi' →
  yields (coercingValueIter vi (jpre ++ j1 ++ j2) (pre ++ (Kind <$> cvs)) (length pre)) cvs
    (coercingValueIter vi' (jpre ++ j1 ++ j2) (pre ++ (Kind <$> cvs)) (length pre + length cvs)).
Proof.
  revert vi j1 pre jpre. induction cvs as [|cv cvs IH]; intros vi j1 pre jpre El Hc Ho Hy;
    inversion Hc as [|? w ? j' Hw Hc']; subst; cbn [yields zip_with length] in *.
  - subst. f_equal. lia.
  - destruct Hy as (vi1 & E & Hy). inversion_clear Ho. eexists. split.
    + cbn [Next app fmap list_fmap]. rewrite list_lookup_middle by done.
      rewrite list_lookup_middle by done. rewrite E. cbn [obind]. by rewrite deCoerce_retag.
    + specialize (IH vi1 j' (pre ++ [Kind cv]) (jpre ++ [w])).
      rewrite <- !app_assoc, !length_app in IH. cbn [app length fmap list_fmap] in IH |- *.
      rewrite Nat.add_1_r in IH. rewrite Nat.add_succ_r. apply IH; try done. lia.
Qed.

(** * The walk *)

Section lift.
Variable F : Z → Prop.
Variable m : list Z.
Hypothesis Hm : zlen m < 2 ^ 32.
Variable resolve : Resolver.

(** Lifting reads a representation of type [t] back, the flattening handed down
    or not. *)
Definition lifts (t : ty) : Prop :=
  ∀ d fuel flat v cvs vi vi', denotes resolve d t → valid t = true → (height t ≤ fuel)%nat → narrow t →
    flat = None ∨ flat = Some (spec_flatten t) → frep F m t v cvs → yields vi cvs vi' →
    liftFlatImpl m fuel resolve vi d flat = Ok (v, vi').

Lemma Next_yields vi n cvs vi' :
  0 ≤ n < 2 ^ 32 → yields vi (mkCore I32 n :: cvs) vi' →
  ∃ vi1, Next vi = Ok (mkCore I32 n, vi1) ∧ AsI32 (mkCore I32 n) = Ok n ∧ yields vi1 cvs vi'.
Proof. intros Hn (vi1 & E & H). exists vi1. by rewrite AsI32_ok. Qed.

Lemma liftFlatString_ok vi vi' s q :
  utf8_valid s = true → zlen s < 2 ^ 32 → block m q (zlen s) → bytes_at F m q s →
  yields vi [mkCore I32 q; mkCore I32 (zlen s)] vi' → liftFlatString m vi = Ok (VString s, vi').
Proof.
  intros Hu Hl Hk Hb Hy. pose proof (zlen_nonneg s). pose proof Hk as [Hq Hle].
  apply Next_yields in Hy as (vi1 & E1 & A1 & Hy); [|lia]. apply Next_yields in Hy as (vi2 & E2 & A2 & ->); [|lia].
  unfold liftFlatString. rewrite E1. cbn [obind]. rewrite E2. cbn [obind]. rewrite A1, A2. cbn [obind].
  unfold loadStringFromRange. destruct (block_guard m Hm q (zlen s) Hk) as [-> ->]; [lia|].
  rewrite (bytes_at_subslice F m q s) by done. cbn [obind]. by rewrite Hu.
Qed.

Lemma liftFlatPrimitive_ok vi vi' p v cvs :
  valid (TPrim p) = true → frep F m (TPrim p) v cvs → yields vi cvs vi' → liftFlatPrimitive m vi p = Ok (v, vi').
Proof.
  intros _ Hrep Hy. inversion Hrep as [? ? bs He|s q Hu Hl Hk Hb| | | | | | | | | | | |]; subst.
  - destruct Hy as (vi1 & E & ->). pose proof (liftScalarPrimitive_ok p v bs He) as El. unfold liftFlatPrimitive.
    destruct p; try done; rewrite E; cbn [obind]; by rewrite El.
  - by eapply liftFlatString_ok.
Qed.

Lemma liftFlatList_ok fuel d t v q n vi vi' :
  denotes resolve d t → valid t = true → (height t ≤ fuel)%nat → rep_elems F m q t n v →
  yields vi [mkCore I32 q; mkCore I32 n] vi' →
  liftFlatList m (Alignment fuel resolve) (Size fuel resolve) (loadValue m fuel resolve) vi d = Ok (v, vi').
Proof.
  intros Hd Hv Hf He Hy. destruct (rep_elems_len F m q t n v Hm Hv He) as [Hq Hn].
  apply Next_yields in Hy as (vi1 & E1 & A1 & Hy); [|done]. apply Next_yields in Hy as (vi2 & E2 & A2 & ->); [|done].
  unfold liftFlatList. rewrite E1. cbn [obind]. rewrite E2. cbn [obind]. rewrite A1, A2. cbn [obind].
  by rewrite (loadAnyList_ok F m Hm resolve fuel d t q n v) by (done || by apply loadValue_ok).
Qed.

Lemma lift_fields_ok fuel rs ts vs cvs vi vi' :
  Forall lifts ts → Forall2 (ref_denotes resolve) rs ts → forallb valid ts = true →
  (maxl (height <$> ts) ≤ fuel)%nat → Forall narrow ts → frep_fields F m ts vs cvs → yields vi cvs vi' →
  lift_fields resolve (liftFlatImpl m fuel resolve) vi rs = Ok (vs, vi').
Proof.
  intros Hl H. revert vs cvs vi Hl. induction H as [|r t rs ts (d & Er & Hd) _ IH]; intros vs cvs vi Hl Hv Hf Hn Hrep Hy;
    inversion Hrep as [|? ? v vs' cv cvs' Hr Hrs]; subst; [cbn in Hy; by subst|].
  inversion_clear Hl as [|?? Hlt Hls]. inversion_clear Hn as [|?? Hnt Hns]. cbn in Hv, Hf.
  apply andb_true_iff in Hv as [Hv Hvs]. apply yields_app in Hy as (vi1 & Hy1 & Hy2).
  cbn [lift_fields]. rewrite Er. cbn [obind].
  rewrite (Hlt d fuel None v cv vi vi1); try done; [|unfold maxl in *; lia|by left]. cbn [at_ obind].
  rewrite (IH vs' cvs' vi1); try done. unfold maxl in *; lia.
Qed.

(** The payload of a case through the coercing iterator. *)
Lemma lift_payload_ok fuel r c j p cvs vi vi' :
  from_option lifts True c → option_Forall2 (ref_denotes resolve) r c →
  from_option valid true c = true → (from_option height 0 c ≤ fuel)%nat → from_option narrow True c →
  (∀ t, c = Some t → fits (spec_flatten t) j) → frep_payload F m j c p cvs → yields vi cvs vi' →
  lift_payload resolve (Flatten fuel resolve) (liftFlatImpl m fuel resolve) vi r j = Ok (p, vi').
Proof.
  intros Hl Hr Hv Hf Hn Hfit Hrep Hy. unfold lift_payload, arm_flat.
  destruct Hr as [r t (d & Er & Hd)|]; inversion Hrep as [|? ? ? cv Hr]; subst.
  - cbn in Hv, Hf, Hn, Hl. rewrite Er. cbn [obind].
    destruct (Flatten_ok resolve d t fuel Hd Hv Hf Hn) as [_ Efl]. rewrite Efl. cbn [obind].
    destruct (frep_typed F m t p cv Hm Hr Hv) as [Ek Hok].
    destruct (Hfit t eq_refl) as (j1 & j2 & -> & Hc). rewrite <- Ek in Hc.
    assert (length cv = length j1) as El by (by rewrite <- (Forall2_length Hc), length_fmap).
    destruct (zip_with_prefix cv j1 j2 El) as [E1 E2]. rewrite E1, E2 in Hy. apply yields_app in Hy as (vi1 & Hy1 & Hy2).
    pose proof (yields_coercing vi vi1 cv j1 j2 [] [] eq_refl Hc Hok Hy1) as Hy. cbn [app length Nat.add] in Hy.
    rewrite Ek in Hy. rewrite (Hl d fuel _ p cv _ _ Hd Hv Hf Hn (or_intror eq_refl) Hr Hy). cbn [at_ obind].
    apply skip_yields in Hy2. unfold zeros in Hy2. rewrite length_fmap in Hy2. rewrite length_app.
    replace (length j1 + length j2 - length cv)%nat with (length j2) by lia. by rewrite Hy2.
  - cbn [obind]. rewrite Nat.sub_0_r. apply skip_yields in Hy. unfold zeros in Hy. rewrite length_fmap in Hy. by rewrite Hy.
Qed.

Lemma joined_of_variant cs : joined_of (spec_flatten (TVariant cs)) = Ok (joined cs).
Proof. done. Qed.

Lemma joined_of_result o e : joined_of (spec_flatten (TResult o e)) = Ok (joined [o; e]).
Proof. done. Qed.

Lemma own_flat fuel d t flat :
  denotes resolve d t → valid t = true → (height t ≤ fuel)%nat → narrow t →
  flat = None ∨ flat = Some (spec_flatten t) →
  match flat with Some f => Ok f | None => Flatten fuel resolve d end = Ok (spec_flatten t).
Proof. intros Hd Hv Hf Hn [->| ->]; [|done]. by apply Flatten_ok. Qed.

Lemma OutOfRange_false d n : 0 ≤ d < n → OutOfRange d n = false.
Proof. intros Hd. unfold OutOfRange. apply Z.leb_gt. lia. Qed.

Lemma case_parts (P : ty → Prop) cs n c fuel :
  Forall (from_option P True) cs → cs !! n = Some c → (maxl (from_option height 0%nat <$> cs) ≤ fuel)%nat →
  from_option P True c ∧ (from_option height 0%nat c ≤ fuel)%nat.
Proof.
  intros HP Hc Hf. split; [rewrite Forall_lookup in HP; by apply (HP n)|].
  etransitivity; [|exact Hf]. apply maxl_elem, list_elem_of_fmap_2. by eapply list_elem_of_lookup_2.
Qed.

Lemma liftFlatVariant_ok fuel cs0 cs v cvs flat own vi vi' :
  Forall (from_option lifts True) cs →
  Forall2 (λ c, option_Forall2 (ref_denotes resolve) (vc_Type c)) cs0 cs →
  forallb (from_option valid true) cs = true → zlen cs < 2 ^ 32 →
  (maxl (from_option height 0%nat <$> cs) ≤ fuel)%nat → Forall (from_option narrow True) cs →
  match flat with Some f => Ok f | None => own end = Ok (spec_flatten (TVariant cs)) →
  frep F m (TVariant cs) v cvs → yields vi cvs vi' →
  liftFlatVariant resolve (Flatten fuel resolve) (liftFlatImpl m fuel resolve) vi cs0 flat own = Ok (v, vi').
Proof.
  intros Hl Hcs Hv Hlt Hf Hn Hown Hrep Hy. inversion Hrep as [| | | |? d p c pay Hd Hc Hp| | | | | | | | |]; subst.
  assert (zlen cs = zlen cs0) as En by (unfold zlen; f_equal; symmetry; by eapply Forall2_length).
  unfold liftFlatVariant. rewrite Hown. cbn [obind]. rewrite joined_of_variant. cbn [obind].
  apply Next_yields in Hy as (vi1 & E1 & A1 & Hy); [|lia]. rewrite E1. cbn [obind]. rewrite A1. cbn [obind].
  rewrite <- En, OutOfRange_false by done.
  destruct (Forall2_lookup_r _ _ _ _ _ Hcs Hc) as (c0 & Hc0 & Hcc). rewrite Hc0.
  destruct (case_parts _ _ _ _ _ Hl Hc Hf) as [Hlc Hfc]. destruct (case_parts _ _ _ _ _ Hn Hc Hf) as [Hnc _].
  rewrite (lift_payload_ok fuel (vc_Type c0) c (joined cs) p pay vi1 vi'); try done; [by eapply case_is_valid|].
  intros t ->. by eapply fits_case.
Qed.

Lemma liftFlatResult_ok fuel ro re o e v cvs flat own vi vi' :
  from_option lifts True o → from_option lifts True e →
  option_Forall2 (ref_denotes resolve) ro o → option_Forall2 (ref_denotes resolve) re e →
  forallb (from_option valid true) [o; e] = true →
  (from_option height 0%nat o ≤ fuel)%nat → (from_option height 0%nat e ≤ fuel)%nat →
  Forall (from_option narrow True) [o; e] →
  match flat with Some f => Ok f | None => own end = Ok (spec_flatten (TResult o e)) →
  frep F m (TResult o e) v cvs → yields vi cvs vi' →
  liftFlatResult resolve (Flatten fuel resolve) (liftFlatImpl m fuel resolve) vi ro re flat own = Ok (v, vi').
Proof.
  intros Hlo Hle Ho He Hv Hfo Hfe Hn Hown Hrep Hy.
  inversion Hrep as [| | | | | | | | | | | |? ? isErr p pay Hp|]; subst. unfold liftFlatResult.
  apply Next_yields in Hy as (vi1 & E1 & A1 & Hy); [|by destruct isErr]. rewrite E1. cbn [obind]. rewrite A1. cbn [obind].
  rewrite Hown. cbn [obind]. rewrite joined_of_result. cbn [obind].
  pose proof (arm_valid o e isErr Hv) as Hva. pose proof (fits_arm o e isErr) as Hfit.
  inversion_clear Hn as [|?? Hno Hn']. inversion_clear Hn' as [|?? Hne _].
  destruct isErr; cbn beta iota in *;
    [rewrite (lift_payload_ok fuel re e (joined [o; e]) p pay vi1 vi')
    |rewrite (lift_payload_ok fuel ro o (joined [o; e]) p pay vi1 vi')]; done.
Qed.

Lemma liftFlatOption_ok fuel d t v cvs elemFlat vi vi' :
  lifts t → denotes resolve d t → valid t = true → (height t ≤ fuel)%nat → narrow t →
  elemFlat = None ∨ elemFlat = Some (spec_flatten t) → frep F m (TOption t) v cvs → yields vi cvs vi' →
  liftFlatOption (FlatWidth fuel resolve) (liftFlatImpl m fuel resolve) vi d elemFlat = Ok (v, vi').
Proof.
  intros Hl Hd Hv Hf Hn Hfl Hrep Hy. unfold liftFlatOption.
  inversion Hrep as [| | | | | | | | | |?|? ? pay Hr| |]; subst;
    apply Next_yields in Hy as (vi1 & E1 & A1 & Hy); try lia; rewrite E1; cbn [obind]; rewrite A1; cbn [obind].
  - assert (match elemFlat with Some f => Ok (zlen f) | None => FlatWidth fuel resolve d end
            = Ok (zlen (spec_flatten t))) as ->.
    { destruct Hfl as [->| ->]; [by apply Flatten_ok|done]. }
    cbn [obind]. unfold zlen. rewrite Nat2Z.id. apply skip_yields in Hy. unfold zeros in Hy. rewrite length_fmap in Hy.
    by rewrite Hy.
  - by eapply Hl.
Qed.

(** ** Fixed-length lists *)

(** What [liftFixedScalars] does to one core value. *)
Definition elem_lift (p : Prim) : CoreValue → res Z :=
  match p with
  | Pu8 => λ cv, let* i := AsI32 cv in Ok (u8 i)
  | Ps8 => λ cv, let* i := AsI32 cv in Ok (i8 i)
  | Pbool => λ cv, let* i := AsI32 cv in Ok (if i =? 0 then 0 else 1)
  | Pu16 => λ cv, let* i := AsI32 cv in Ok (u16 i)
  | Ps16 => λ cv, let* i := AsI32 cv in Ok (i16 i)
  | Ps32 => λ cv, let* i := AsI32 cv in Ok (i32 i)
  | Pu64 => AsI64
  | Ps64 => λ cv, let* i := AsI64 cv in Ok (i64 i)
  | Pf32 => AsF32
  | Pf64 => AsF64
  | Pchar => liftChar
  | _ => AsI32
  end.

Lemma liftFixedScalars_lift vi p k n :
  slice_kind p = Some k →
  liftFixedScalars vi p n =
    Some (let* '(l, vi) := liftFixed (elem_lift p) (Z.to_nat n) vi in Ok (VSlice k l, vi)).
Proof. by destruct p; cbn; intros [= <-]. Qed.

Lemma swrap_narrow w n : 0 < w ≤ 32 → - 2 ^ (w - 1) ≤ n < 2 ^ (w - 1) → swrap w (u32 n) = n.
Proof.
  intros Hw Hn. rewrite <- (swrap_small w n) at 2 by lia. apply swrap_eq; [lia|]. unfold wrap. apply Z.mod_mod_divide.
  exists (2 ^ (32 - w)). rewrite <- Z.pow_add_r by lia. f_equal. lia.
Qed.

(** An element lifts to itself. *)
Lemma elem_lift_ok p k e :
  slice_kind p = Some k → is_Some (prim_enc p (elem_value p e)) →
  elem_lift p (scalar_core p (elem_value p e)) = Ok e.
Proof.
  intros Hk [bs He]. pose proof (scalar_core_ok p _ bs He) as Hok. revert He Hok.
  unfold prim_enc, scalar_core, core_ok. destruct p; try done; cbn [elem_value elem_lift]; clear Hk.
  1: { destruct (Z.eqb_spec e 0) as [->|]; [done|]. destruct (Z.eqb_spec e 1) as [->|]; [done|done]. }
  all: enc_range; cbn [core_kind core_bits Kind Bits]; intros Hok; unfold liftChar;
    rewrite ?AsI32_ok, ?AsF32_ok, ?AsI64_ok, ?AsF64_ok by lia; cbn [obind]; try done.
  1,3: f_equal; apply swrap_narrow; [lia|by apply in_swidth_true].
  1,2: f_equal; apply wrap_small; by apply in_width_true.
  - f_equal. apply swrap_narrow; [lia|by apply in_swidth_true].
  - f_equal. apply (swrap_mod 64); [lia|by apply in_swidth_true].
  - apply is_char_check in E as [Hr E]. by rewrite (wrap_small 32 e) by done.
Qed.

Lemma liftFixed_ok p k l vi vi' :
  slice_kind p = Some k → Forall (λ e, is_Some (prim_enc p (elem_value p e))) l →
  yields vi ((λ e, scalar_core p (elem_value p e)) <$> l) vi' →
  liftFixed (elem_lift p) (length l) vi = Ok (l, vi').
Proof.
  intros Hk Hl. revert vi. induction Hl as [|e l He _ IH]; intros vi Hy; cbn in Hy |- *; [by subst|].
  destruct Hy as (vi1 & -> & Hy). cbn [obind]. rewrite (elem_lift_ok p k e) by done. cbn [at_ obind]. by rewrite (IH vi1).
Qed.

Lemma lift_list_ok fuel d t l cvs vi vi' :
  lifts t → denotes resolve d t → valid t = true → (height t ≤ fuel)%nat → narrow t →
  frep_fields F m (replicate (length l) t) l cvs → yields vi cvs vi' →
  lift_list (liftFlatImpl m fuel resolve) d (length l) vi = Ok (l, vi').
Proof.
  intros Hl Hd Hv Hf Hn. revert cvs vi. induction l as [|e l IH]; intros cvs vi Hrep Hy; cbn [length replicate] in Hrep;
    inversion Hrep as [|? ? ? ? cv cvs' Hr Hrs]; subst; [cbn in Hy; by subst|].
  apply yields_app in Hy as (vi1 & Hy1 & Hy2). cbn [length lift_list].
  rewrite (Hl d fuel None e cv vi vi1) by (done || by left). cbn [at_ obind]. by rewrite (IH cvs' vi1).
Qed.

Lemma liftFlatFixedList_ok fuel d t n v cvs vi vi' :
  lifts t → denotes resolve d t → valid t = true → (height t ≤ fuel)%nat → narrow t →
  frep F m (TFixed t n) v cvs → yields vi cvs vi' →
  liftFlatFixedList (liftFlatImpl m fuel resolve) vi n d = Ok (v, vi').
Proof.
  intros Hl Hd Hv Hf Hn Hrep Hy. unfold liftFlatFixedList. rewrite (scalarPrim_denotes resolve d t Hd).
  inversion Hrep as [| | | | | |? p k l Hk Hall|? l ? Hk Hr| | | | | |]; subst.
  - destruct t; try done. cbn in Hk. apply fmap_Some in Hk as (k' & Hk & [= -> ->]).
    rewrite (liftFixedScalars_lift _ _ k' _ Hk). unfold zlen. rewrite Nat2Z.id. by rewrite (liftFixed_ok p0 k' l vi vi').
  - assert (match (match t with TPrim p => Some p | _ => None end) with
            | Some prim => liftFixedScalars vi prim (zlen l) | None => None end = None) as ->.
    { destruct t; try done. cbn in Hk. by destruct p. }
    unfold zlen. rewrite Nat2Z.id. by rewrite (lift_list_ok fuel d t l cvs vi vi').
Qed.

(** ** All types *)

Lemma narrow_option t : narrow (TOption t) → narrow t.
Proof. intros Hn. apply (cut_cases_le _ _ Hn). by left. Qed.

Lemma liftFlatFlags_ok names bits vi vi' :
  0 < zlen names ≤ 32 → 0 ≤ bits < 2 ^ zlen names → yields vi [mkCore I32 bits] vi' →
  liftFlatFlags vi names = Ok (VU32 bits, vi').
Proof.
  intros Hn Hb Hy. assert (2 ^ zlen names ≤ 2 ^ 32) by (apply Z.pow_le_mono_r; lia).
  apply Next_yields in Hy as (vi1 & E1 & A1 & ->); [|lia]. unfold liftFlatFlags, flattenFlagsNumLabels.
  rewrite (proj2 (Z.leb_gt _ 0)), (proj2 (Z.ltb_ge 32 _)) by lia. cbn [orb obind]. rewrite E1. cbn [obind].
  rewrite A1. cbn [obind]. do 3 f_equal. unfold flagsBitMask.
  replace (2 ^ 32 - 1) with (Z.ones 32) by done. rewrite Z.shiftr_div_pow2, Z.ones_div_pow2 by lia.
  replace (32 - (32 - zlen names)) with (zlen names) by lia. rewrite Z.land_ones by lia. by apply Z.mod_small.
Qed.

Lemma lift_i32 vi n vi' (k : Z → Value) :
  0 ≤ n < 2 ^ 32 → yields vi [mkCore I32 n] vi' →
  (let* '(cv, vi) := Next vi in let* h := AsI32 cv in Ok (k h, vi)) = Ok (k n, vi').
Proof.
  intros Hn Hy. apply Next_yields in Hy as (vi1 & E1 & A1 & ->); [|done]. rewrite E1. cbn [obind]. by rewrite A1.
Qed.

Lemma option_flat t flat :
  flat = None ∨ flat = Some (spec_flatten (TOption t)) →
  ∃ elemFlat, match flat with Some (_ :: f) => Ok (Some f) | Some [] => Panic | None => Ok None end
              = (Ok elemFlat : res (option (list core))) ∧ (elemFlat = None ∨ elemFlat = Some (spec_flatten t)).
Proof. intros [->| ->]; eexists; (split; [reflexivity|]); [by left|by right]. Qed.

Lemma liftFlatImpl_ok t : lifts t.
Proof.
  induction t as [p|ts IH|ts IH|cs IH|t IH|t n IH|n|n|t IH|o e IHo IHe|] using ty_ind';
    intros d [|fuel] flat v cvs vi vi' Hd Hv Hf Hn Hfl Hrep Hy; try (cbn in Hf; lia);
    pose proof (own_flat (S fuel) d _ flat Hd Hv Hf Hn Hfl) as Hown; pose proof Hv as Hv0;
    apply valid_inv in Hv as [_ Hv]; inversion Hd; subst; clear Hd; cbn [liftFlatImpl height] in *.
  - by eapply liftFlatPrimitive_ok.
  - unfold liftFlatRecord. inversion Hrep; subst.
    rewrite (lift_fields_ok fuel (rf_Type <$> fs) ts vs cvs vi vi'); try done; [by apply Forall2_fmap_l|lia|by apply narrow_fields].
  - unfold liftFlatTuple. inversion Hrep; subst.
    rewrite (lift_fields_ok fuel es ts vs cvs vi vi'); try done; [lia|by apply narrow_fields].
  - destruct Hv as [Hlen Hv]. eapply (liftFlatVariant_ok fuel cs0 cs); try done; [lia|lia|apply narrow_cases].
    unfold narrow in Hn. unfold spec_flatten in Hn at 1. done.
  - match goal with H : resolveType _ _ = _ |- _ => rewrite H end. cbn [obind]. inversion Hrep; subst.
    eapply (liftFlatList_ok fuel d0 t); try done. lia.
  - inversion Hrep; subst. eapply (liftFlatList_ok fuel _ (TTuple [tk; tv])); try done; [|cbn [height]; lia].
    constructor. constructor; [by eexists|]. constructor; [by eexists|constructor].
  - match goal with H : resolveType _ _ = _ |- _ => rewrite H end. cbn [obind]. destruct Hv as [Hlen Hv].
    eapply (liftFlatFixedList_ok fuel d0 t); try done; [lia|]. eapply narrow_fixed; [|exact Hn]. lia.
  - inversion Hrep; subst. by apply liftFlatFlags_ok.
  - inversion Hrep; subst. apply Next_yields in Hy as (vi1 & E1 & A1 & ->); [|lia].
    unfold liftFlatEnum. rewrite E1. cbn [obind]. rewrite A1. cbn [obind]. by rewrite OutOfRange_false.
  - match goal with H : resolveType _ _ = _ |- _ => rewrite H end. cbn [obind].
    destruct (option_flat t flat Hfl) as (elemFlat & -> & Hef). cbn [obind].
    eapply (liftFlatOption_ok fuel d0 t); try done; [lia|by apply narrow_option].
  - eapply (liftFlatResult_ok fuel ro re o e); try done; [lia|lia|].
    apply narrow_cases. unfold narrow in Hn. unfold spec_flatten in Hn at 1. done.
  - inversion Hrep; subst. by apply (lift_i32 vi h vi' VU32).
  - inversion Hrep; subst. by apply (lift_i32 vi h vi' VU32).
  - inversion Hrep; subst. by apply (lift_i32 vi h vi' VU32).
  - inversion Hrep; subst. by apply (lift_i32 vi h vi' VU32).
Qed.
End lift.

(** * Passing values *)

(** How the Canonical ABI passes a value when at most [limit] core values may
    carry it: flat, or as a pointer to where it is stored. *)
Definition passed (limit : Z) (F : Z → Prop) (m : list Z) (t : ty) (v : Value) (vals : list CoreValue) : Prop :=
  if zlen (spec_flatten t) <=? limit then frep F m t v vals
  else ∃ ptr, vals = [mkCore I32 ptr] ∧ (spec_align t | ptr) ∧ block m ptr (spec_size t) ∧ rep F m ptr t v.

Lemma passed_frame limit F F' m m' t v vals :
  extends F F' m m' → passed limit F m t v vals → passed limit F' m' t v vals.
Proof.
  intros Hx. unfold passed. case_match; [by apply frep_frame|].
  intros (ptr & -> & Ha & Hb & Hr). exists ptr. do 2 (split; [done|]). split; [by eapply block_frame|by eapply rep_frame].
Qed.

(** The width the code computes decides as the specification does. *)
Lemma spill_decision t :
  valid t = true → zlen (cut_flatten t) ≤ maxFlatWidth →
  (MaxFlatParams <? zlen (cut_flatten t)) = negb (zlen (spec_flatten t) <=? MaxFlatParams).
Proof.
  intros Hv Hc. destruct (cut_same_all t Hv) as [H1 H2].
  destruct (Z.leb_spec (zlen (spec_flatten t)) MaxFlatParams); cbn [negb].
  - rewrite H1 by done. by apply Z.ltb_ge.
  - apply Z.ltb_lt. auto.
Qed.

Section top.
Variable F : Z → Prop.
Variable m : list Z.
Hypothesis Hm : zlen m < 2 ^ 32.
Variable resolve : Resolver.

Lemma spilled_ptr t ptr : valid t = true → block m ptr (spec_size t) → 0 ≤ ptr < 2 ^ 32.
Proof. intros Hv [??]. destruct (layout_good t Hv) as (_ & Hs & _). assert (0 ≤ spec_size t) by done. lia. Qed.

Lemma LiftFlat_passed d t fuel v vals :
  denotes resolve d t → valid t = true → (height t ≤ fuel)%nat → zlen (cut_flatten t) ≤ maxFlatWidth →
  passed MaxFlatParams F m t v vals → LiftFlat m fuel resolve vals d = Ok v.
Proof.
  intros Hd Hv Hf Hc Hp. unfold LiftFlat. destruct (flatten_computed resolve t d fuel Hd Hv Hf Hc) as [-> _].
  cbn [obind]. rewrite (spill_decision t Hv Hc). unfold passed in Hp.
  destruct (Z.leb_spec (zlen (spec_flatten t)) MaxFlatParams) as [Hn|Hn]; cbn [negb].
  - assert (yields (CoreValueIter vals 0) vals (CoreValueIter vals (0 + length vals))) as Hy.
    { apply yields_values. by rewrite drop_0, firstn_all. }
    rewrite (liftFlatImpl_ok F m Hm resolve t d fuel None v vals _ _ Hd Hv Hf Hn (or_introl eq_refl) Hp Hy). done.
  - destruct Hp as (ptr & -> & Ha & Hb & Hr). rewrite AsI32_ok by (by eapply spilled_ptr). cbn [obind].
    by eapply Load_ok.
Qed.

Lemma LiftFlatKinds_passed d t fuel v vals :
  denotes resolve d t → valid t = true → (height t ≤ fuel)%nat → zlen (cut_flatten t) ≤ maxFlatWidth →
  passed MaxFlatParams F m t v vals → LiftFlatKinds m fuel resolve (cut_flatten t) (Bits <$> vals) d = Ok v.
Proof.
  intros Hd Hv Hf Hc Hp. unfold LiftFlatKinds. rewrite (spill_decision t Hv Hc). unfold passed in Hp.
  destruct (Z.leb_spec (zlen (spec_flatten t)) MaxFlatParams) as [Hn|Hn]; cbn [negb].
  - rewrite (narrow_cut t Hv Hn). destruct (frep_typed F m t v vals Hm Hp Hv) as [Ek _].
    assert (zlen (Bits <$> vals) = zlen (spec_flatten t)) as -> by (rewrite <- Ek; unfold zlen; by rewrite !length_fmap).
    rewrite Z.eqb_refl. cbn [negb]. pose proof (yields_stack vals []) as Hy. cbn [app length] in Hy. rewrite Ek in Hy.
    by rewrite (liftFlatImpl_ok F m Hm resolve t d fuel _ v vals _ _ Hd Hv Hf Hn (or_intror eq_refl) Hp Hy).
  - destruct Hp as (ptr & -> & Ha & Hb & Hr). cbn [fmap list_fmap Bits]. pose proof (spilled_ptr t ptr Hv Hb).
    rewrite wrap_small by done. by eapply Load_ok.
Qed.

Lemma Lift_agg d t fuel v vals :
  denotes resolve d t → valid t = true → (height t ≤ fuel)%nat → zlen (cut_flatten t) ≤ maxFlatWidth →
  passed MaxFlatResults F m t v vals →
  Lift m fuel (if MaxFlatResults <? zlen (cut_flatten t) then liftSpilled d resolve
               else liftFlatAgg d resolve (cut_flatten t)) vals = Ok v.
Proof.
  intros Hd Hv Hf Hc Hp. destruct (cut_same_all t Hv) as [H1 H2]. unfold passed, MaxFlatResults, MaxFlatParams in *.
  assert ((1 <? zlen (cut_flatten t)) = negb (zlen (spec_flatten t) <=? 1)) as ->.
  { destruct (Z.leb_spec (zlen (spec_flatten t)) 16); [rewrite H1 by done; by rewrite Z.ltb_antisym|].
    rewrite (proj2 (Z.ltb_lt 1 _)) by lia. by rewrite (proj2 (Z.leb_gt _ 1)) by lia. }
  destruct (Z.leb_spec (zlen (spec_flatten t)) 1) as [Hn|Hn]; cbn [negb Lift].
  - assert (narrow t) as Hnar by (unfold narrow, MaxFlatParams; lia). rewrite (narrow_cut t Hv Hnar).
    assert (yields (CoreValueIter vals 0) vals (CoreValueIter vals (0 + length vals))) as Hy.
    { apply yields_values. by rewrite drop_0, firstn_all. }
    by rewrite (liftFlatImpl_ok F m Hm resolve t d fuel _ v vals _ _ Hd Hv Hf Hnar (or_intror eq_refl) Hp Hy).
  - destruct Hp as (ptr & -> & Ha & Hb & Hr). cbn [first obind]. rewrite AsI32_ok by (by eapply spilled_ptr). cbn [obind].
    by eapply Load_ok.
Qed.

Lemma Lift_passed d t fuel v vals :
  denotes resolve d t → valid t = true → (height t ≤ fuel)%nat → zlen (cut_flatten t) ≤ maxFlatWidth →
  passed MaxFlatResults F m t v vals →
  ∃ s, CompileLift fuel d resolve = Ok s ∧ Lift m fuel s vals = Ok v.
Proof.
  intros Hd Hv Hf Hc Hp. pose proof (Lift_agg d t fuel v vals Hd Hv Hf Hc Hp) as Hagg.
  destruct (flatten_computed resolve t d fuel Hd Hv Hf Hc) as [_ Efl].
  assert (CompileLift fuel d resolve =
    Ok (if MaxFlatResults <? zlen (cut_flatten t) then liftSpilled d resolve
        else liftFlatAgg d resolve (cut_flatten t)) ∨
    (∃ p, t = TPrim p ∧ CompileLift fuel d resolve = Ok (liftPrimitive p) ∧ p ≠ Pstring) ∨
    (t = THandle ∧ CompileLift fuel d resolve = Ok liftHandle)) as [->|[(p & -> & -> & Hne)|[-> ->]]].
  { unfold CompileLift. inversion Hd; subst; rewrite ?Efl; cbn [obind]; try (left; by case_match); auto.
    destruct p; try (right; left; eexists; split; [done|]; split; done). by left. }
  - eauto.
  - eexists. split; [done|]. cbn in Hp. assert (frep F m (TPrim p) v vals) as Hr by (by destruct p).
    inversion Hr as [? ? bs He| | | | | | | | | | | | |]; subst; [|done]. by eapply liftScalarPrimitive_ok.
  - eexists. split; [done|]. cbn in Hp. inversion Hp; subst. cbn [Lift first obind]. by rewrite AsI32_ok.
Qed.
End top.
