(* ===== verification/AbiFlatRoundtrip.v ===== *)
(** Lowering a value to core values and lifting it back.

    A lowering may allocate, so it runs against the guest allocator of
    [AbiRoundtrip] ([FreshRealloc]).  Between two allocations the code holds a
    view of memory that may be stale; the lowerings are shown not to depend on
    the view they start from, since each first allocates, which refreshes it. *)
From Stdlib Require Import ZArith Lia String.
From stdpp Require Import base list numbers option tactics.
From S2P Require Import Prelude AbiTypes AbiLayout AbiFlatten AbiLoad AbiStore AbiSafety AbiRep AbiRoundtrip AbiFlat AbiFlatRep AbiFlatLift.
Local Open Scope Z_scope.
Local Open Scope go_scope.

Lemma stable_frep t v cvs : stable (λ F m, frep F m t v cvs).
Proof. intros F F' m m' Hx. by apply frep_frame. Qed.

Section lower.
Context {G : Type} (realloc : Realloc G) (winv : world G → Prop) (owned : world G → Z → Prop).
Context `{!FreshRealloc realloc winv owned}.
Context (nones : bool).


(** * Views *)

(** The computation does not look at the view it starts from. *)
Definition blind {A} (m : ST G A) : Prop :=
  ∀ w mem mem', (m w mem).1.1 = (m w mem').1.1 ∧ (m w mem).2 = (m w mem').2 ∧
    ∀ a, (m w mem).2 = Ok a → (m w mem).1.2 = (m w mem').1.2.

Lemma blind_GrowMem align n : blind (GrowMem realloc 0 0 align n).
Proof.
  intros w mem mem'. destruct (fr_mem (realloc := realloc)) as (f & Ef & Hf). unfold GrowMem, Grow. rewrite Ef.
  destruct (Call realloc) as [call|]; [|done]. destruct (call w 0 0 align n) as [w' [p|e| |]]; cbn; try done.
  by rewrite Hf.
Qed.

Lemma blind_sat {A} (m : ST G A) : blind m → blind (sat m).
Proof.
  intros Hm w mem mem'. destruct (Hm w mem mem') as (H1 & H2 & H3). unfold sat.
  destruct (m w mem) as [[w1 v1] r1], (m w mem') as [[w2 v2] r2]. cbn in *. subst.
  split; [done|]. split; [done|]. intros a Ha. destruct r2; try done. by eapply H3.
Qed.

Lemma blind_bind {A B} (m : ST G A) (k : A → ST G B) : blind m → blind (sbind m k).
Proof.
  intros Hm w mem mem'. destruct (Hm w mem mem') as (H1 & H2 & H3). unfold sbind.
  destruct (m w mem) as [[w1 v1] r1], (m w mem') as [[w2 v2] r2]. cbn in *. subst.
  destruct r2 as [a|e| |]; try done. by rewrite (H3 a eq_refl).
Qed.

Lemma blind_err {A} e : blind (serr e : ST G A).
Proof. done. Qed.

Lemma blind_lift {A B} (r : res A) (k : A → ST G B) : (∀ a, blind (k a)) → blind (sbind (slift r) k).
Proof. intros Hk w mem mem'. unfold sbind, slift. destruct r; cbn; try done. apply Hk. Qed.

Lemma blind_string s : blind (allocStoreString realloc s).
Proof. unfold allocStoreString, alloc_copy. case_match; [apply blind_err|]. apply blind_bind, blind_sat, blind_GrowMem. Qed.

Lemma blind_scalar_list v p m : storeScalarList realloc v p = Some m → blind m.
Proof.
  intros H. assert ((∃ l, m = allocStoreBytes realloc l) ∨ (∃ l s a e, m = encodeScalarList realloc l s a e)) as
    [[l ->]|(l & s & a & e & ->)].
  { destruct p; try done; cbn in H; apply fmap_Some in H as (l & _ & ->); eauto 10. }
  - unfold allocStoreBytes, alloc_copy. case_match; [apply blind_err|]. apply blind_bind, blind_sat, blind_GrowMem.
  - unfold encodeScalarList. case_match; [apply blind_err|]. apply blind_bind, blind_sat, blind_GrowMem.
Qed.

Lemma blind_any_list al sz store v d : blind (allocStoreAnyList realloc al sz store v d).
Proof.
  assert (blind (match v with VList l => allocStoreList realloc al sz store l d | _ => serr EValueKind end)) as Hgen.
  { destruct v; try apply blind_err. unfold allocStoreList. apply blind_lift. intros size. apply blind_lift. intros align.
    destruct (too_long _ _); [apply blind_err|]. apply blind_bind, blind_sat, blind_GrowMem. }
  unfold allocStoreAnyList. destruct (scalarPrim d) as [p|]; [|done].
  destruct (storeScalarList realloc v p) eqn:E; [by eapply blind_scalar_list|done].
Qed.

(** * Lowering *)

(** The computation, from whatever view, ends with [P] and changes nothing in
    use; or the allocator failed. *)
Definition lowers {A} (w : world G) (mem : view) (m : ST G A) (P : A → assertion) : Prop :=
  ∃ w' mem' r, m w mem = (w', mem', r) ∧
  match r with
  | Ok a => step winv owned w w' (λ _, False) ∧ P a (fresh owned w w' (λ _, False)) (cont w')
  | Err e => tolerated nones e
  | _ => False
  end.

Lemma lowers_ret {A} w mem (a : A) (P : A → assertion) :
  winv w → (∀ F, P a F (cont w)) → lowers w mem (sret a) P.
Proof. intros Hw HP. exists w, mem, (Ok a). split; [done|]. split; [by apply step_refl|done]. Qed.

Lemma lowers_lift {A B} w mem (r : res A) a (k : A → ST G B) P :
  r = Ok a → lowers w mem (k a) P → lowers w mem (sbind (slift r) k) P.
Proof. by intros ->. Qed.

Lemma lowers_sat {A} w mem (m : ST G A) P : lowers w mem m P → lowers w mem (sat m) P.
Proof.
  intros (w' & mem' & r & E & H). exists w', mem', (at_ r). split; [unfold sat; by rewrite E|]. by destruct r.
Qed.

Lemma lowers_weaken {A} w mem (m : ST G A) (P Q : A → assertion) :
  (∀ a F mm, P a F mm → Q a F mm) → lowers w mem m P → lowers w mem m Q.
Proof. intros H (w' & mem' & r & E & HP). exists w', mem', r. split; [done|]. destruct r; try done. destruct HP. auto. Qed.

Lemma lowers_keep {A} w mem (m : ST G A) P : lowers w mem m P → lowers w mem (keep_view m) P.
Proof. intros (w' & mem' & r & E & H). exists w', mem, r. split; [unfold keep_view; by rewrite E|done]. Qed.

(** A blind run. *)
Lemma lowers_runs {A} w mem (m : ST G A) P :
  blind m → runs winv owned nones w (λ _, False) m P → lowers w mem m P.
Proof.
  intros Hb (w' & mem' & r & E & H). destruct (Hb w (live w) mem) as (H1 & H2 & _). rewrite E in H1, H2. cbn in H1, H2.
  destruct (m w mem) as [[w1 v1] r1] eqn:E1. cbn in *. subst. exists w1, v1, r1. split; [done|]. destruct r1; try done. by destruct H as (_ & ? & ?).
Qed.

Lemma lowers_seq {A B} w mem (m : ST G A) (k : A → ST G B) (P1 : A → assertion) (P2 : A → B → assertion) :
  winv w → (∀ a, stable (P1 a)) → (∀ a b, stable (P2 a b)) → lowers w mem m P1 →
  (∀ a w1 mem1, winv w1 → P1 a (fresh owned w w1 (λ _, False)) (cont w1) → lowers w1 mem1 (k a) (P2 a)) →
  lowers w mem (sbind m k) (λ b F mm, ∃ a, P1 a F mm ∧ P2 a b F mm).
Proof.
  intros Hw Hst1 Hst2 (w1 & mem1 & r & E & H) Hk. unfold lowers, sbind. rewrite E.
  destruct r as [a|e| |]; try done; [|by do 3 eexists]. destruct H as [Hstep1 HP1]. pose proof Hstep1 as (Hw1 & _ & H1).
  destruct (Hk a w1 mem1 Hw1 HP1) as (w2 & mem2 & r2 & E2 & H2). rewrite E2. exists w2, mem2, r2. split; [done|].
  destruct r2 as [b|e| |]; try done. destruct H2 as [Hstep2 HP2]. split; [by eapply step_trans|]. exists a. split.
  - eapply Hst1; [|exact HP1]. eapply (step_extends realloc winv owned); [exact Hw1|exact Hstep2|].
    intros x [[]|[Ho Hn]]. split; [done|]. split; [auto|]. right. split; [|done]. by apply Hstep2.
  - eapply Hst2; [|exact HP2]. apply extends_mono. intros x [[]|[Ho Hn]]. right. split; [done|].
    intros Hx. apply Hn. by apply H1.
Qed.

(** * Payloads *)

Lemma coerce_retag cv want :
  core_ok cv → coercible (Kind cv) want → coerceValue cv (Kind cv) want = Ok (retag want cv).
Proof.
  destruct cv as [k b]. unfold core_ok, retag. cbn. intros Hb Hc. unfold coerceValue.
  case_decide as E; [by subst|]. destruct Hc as [->|[[-> ->]| ->]]; [done| |].
  - by rewrite AsF32_ok.
  - destruct k; try done; by rewrite ?AsI32_ok, ?AsF32_ok, ?AsF64_ok.
Qed.

Lemma coerce_payload_ok cvs j1 j2 :
  Forall2 coercible (Kind <$> cvs) j1 → Forall core_ok cvs →
  coerce_payload cvs (Kind <$> cvs) (j1 ++ j2) = Ok (zip_with retag j1 cvs).
Proof.
  revert j1. induction cvs as [|cv cvs IH]; intros j1 Hc Ho; inversion Hc as [|? w ? j' Hw Hc']; subst.
  - by destruct j2.
  - inversion_clear Ho. cbn [app fmap list_fmap coerce_payload]. rewrite coerce_retag by done. cbn [obind].
    by rewrite IH.
Qed.

(** Coercing and padding give the payload of the representation. *)
Lemma payload_ok cvs f j :
  typed cvs f → fits f j →
  ∃ cvs', coerce_payload cvs f j = Ok cvs' ∧
    pad_payload cvs' j = zip_with retag j cvs ++ zeros (drop (length cvs) j).
Proof.
  intros [<- Ho] (j1 & j2 & -> & Hc). pose proof (Forall2_length Hc) as El. rewrite length_fmap in El.
  exists (zip_with retag j1 cvs). split; [by apply coerce_payload_ok|].
  destruct (zip_with_prefix cvs j1 j2 El) as [-> ->]. unfold pad_payload. f_equal.
  rewrite length_zip_with, <- El, Nat.min_id, El, drop_app_length. apply list_fmap_ext. by intros _ [] _.
Qed.

Lemma zeros_eq f : zeroCoreValueForKind <$> f = zeros f.
Proof. apply list_fmap_ext. by intros _ [] _. Qed.

(** * The walk *)

Variable resolve : Resolver.

Definition lowers_type (t : ty) : Prop :=
  ∀ d fuel flat v w mem, denotes resolve d t → valid t = true → (height t ≤ fuel)%nat → narrow t →
    flat = None ∨ flat = Some (spec_flatten t) → well_typed nones t v = true → winv w →
    lowers w mem (lowerFlatImpl realloc fuel resolve v d flat) (λ cvs F m, frep F m t v cvs).

Lemma winv_len w : winv w → zlen (cont w) < 2 ^ 32.
Proof. intros Hw. rewrite (zlen_cont realloc winv owned) by done. by apply (fr_live w Hw). Qed.

Lemma lowers_string w mem s :
  well_typed nones (TPrim Pstring) (VString s) = true → winv w →
  lowers w mem (lowerFlatString realloc s) (λ cvs F m, frep F m (TPrim Pstring) (VString s) cvs).
Proof.
  intros Ht Hw. cbn in Ht. apply andb_true_iff in Ht as [Hu Hl]. apply Z.ltb_lt in Hl. unfold lowerFlatString.
  eapply lowers_weaken; [|eapply (lowers_seq w mem _ _
    (λ a F m, a.2 = zlen s ∧ block m a.1 (zlen s) ∧ bytes_at F m a.1 s)
    (λ a cvs _ _, cvs = [NewCoreValueI32 a.1; NewCoreValueI32 a.2]))]; try done; try solve_stable.
  - cbn. intros cvs F mm ([q n] & (E & Hb & Hs) & ->). cbn in *. subst. by constructor.
  - apply lowers_keep, lowers_sat, lowers_runs; [apply blind_string|].
    unfold allocStoreString, MaxUint32. rewrite (proj2 (Z.ltb_ge _ _)) by lia.
    by apply runs_alloc_copy.
  - intros [q n] w1 mem1 Hw1 _. by apply lowers_ret.
Qed.

Lemma lowers_primitive w mem p v :
  valid (TPrim p) = true → well_typed nones (TPrim p) v = true → winv w →
  lowers w mem (lowerFlatPrimitive realloc v p) (λ cvs F m, frep F m (TPrim p) v cvs).
Proof.
  intros _ Ht Hw. destruct (decide (p = Pstring)) as [->|Hne].
  { destruct v; try done. by apply lowers_string. }
  assert (∃ bs, prim_enc p v = Some bs) as [bs He] by (destruct p; cbn in Ht; try done; case_match; eauto; done).
  assert (lowerFlatPrimitive realloc v p = let! cv := slift (lowerPrimitiveCore v p) in sret [cv]) as ->.
  { by destruct p. }
  eapply lowers_lift; [by eapply lowerPrimitiveCore_ok|]. apply lowers_ret; [done|]. intros F. by econstructor.
Qed.

Lemma lowers_list w mem fuel d t v :
  denotes resolve d t → valid t = true → (height t ≤ fuel)%nat → well_typed nones (TList t) v = true → winv w →
  lowers w mem (lowerFlatList realloc (Alignment fuel resolve) (Size fuel resolve) (storeValue realloc fuel resolve) v d)
    (λ cvs F m, frep F m (TList t) v cvs).
Proof.
  intros Hd Hv Hf Ht Hw. cbn [well_typed] in Ht. apply andb_true_iff in Ht as [Ht Hlen]. unfold lowerFlatList.
  eapply lowers_weaken; [|eapply (lowers_seq w mem _ _ (λ a F m, rep_elems F m a.1 t a.2 v)
    (λ a cvs _ _, cvs = [NewCoreValueI32 a.1; NewCoreValueI32 a.2]))]; try done; try solve_stable.
  - cbn. intros cvs F mm ([q n] & He & ->). by constructor.
  - intros a. apply stable_rep_elems.
  - apply lowers_keep, lowers_sat, lowers_runs; [apply blind_any_list|].
    apply (runs_alloc_any realloc winv owned nones resolve); try done; [by apply storeValue_ok|]. intros l ->. by apply Z.ltb_lt.
  - intros [q n] w1 mem1 Hw1 _. by apply lowers_ret.
Qed.

Lemma stable_frep_fields ts vs cvs : stable (λ F m, frep_fields F m ts vs cvs).
Proof.
  intros F F' m m' Hx H. revert vs cvs H. induction ts as [|t ts IH]; intros vs cvs H; inversion H; subst; constructor.
  - by eapply frep_frame.
  - by apply IH.
Qed.

Lemma lowers_fields w mem fuel rs ts vs :
  Forall lowers_type ts → Forall2 (ref_denotes resolve) rs ts → forallb valid ts = true →
  (maxl (height <$> ts) ≤ fuel)%nat → Forall narrow ts → all2 (well_typed nones) ts vs = true → winv w →
  lowers w mem (lower_fields resolve (lowerFlatImpl realloc fuel resolve) rs vs)
    (λ cvs F m, frep_fields F m ts vs cvs).
Proof.
  intros Hl H. revert w mem vs Hl. induction H as [|r t rs ts (d & Er & Hd) _ IH]; intros w mem vs Hl Hv Hf Hn Ht Hw.
  { destruct vs; [|done]. apply lowers_ret; [done|]. constructor. }
  destruct vs as [|v vs]; [done|]. inversion_clear Hl as [|?? Hlt Hls]. inversion_clear Hn as [|?? Hnt Hns].
  cbn in Hv, Hf, Ht. apply andb_true_iff in Hv as [Hv Hvs]. apply andb_true_iff in Ht as [Ht Hts].
  cbn [lower_fields]. eapply lowers_lift; [exact Er|].
  eapply lowers_weaken; [|eapply (lowers_seq w mem _ _ (λ cvs F m, frep F m t v cvs)
    (λ cvs cvss F m, ∃ cvs', frep_fields F m ts vs cvs' ∧ cvss = cvs ++ cvs'))]; try done.
  - cbn. intros cvss F mm (cvs & H1 & cvs' & H2 & ->). by constructor.
  - intros cvs. apply stable_frep.
  - intros cvs cvss. apply stable_ex. intros cvs'. apply stable_and; [apply stable_frep_fields|apply stable_pure].
  - apply lowers_sat, Hlt; try done; [unfold maxl in *; lia|by left].
  - intros cvs w1 mem1 Hw1 _. eapply lowers_weaken; [|eapply (lowers_seq w1 mem1 _ _
      (λ cvs' F m, frep_fields F m ts vs cvs') (λ cvs' cvss _ _, cvss = cvs ++ cvs'))]; try done; try solve_stable.
    + intros cvs'. apply stable_frep_fields.
    + apply IH; try done. unfold maxl in *; lia.
    + intros cvs' w2 mem2 Hw2 _. by apply lowers_ret.
Qed.

Lemma stable_frep_payload j c p cvs : stable (λ F m, frep_payload F m j c p cvs).
Proof. intros F F' m m' Hx H. inversion H; subst; constructor. by eapply frep_frame. Qed.

(** The payload of a case, coerced and padded. *)
Lemma lowers_payload w mem fuel r c j p :
  from_option lowers_type True c → option_Forall2 (ref_denotes resolve) r c →
  from_option valid true c = true → (from_option height 0 c ≤ fuel)%nat → from_option narrow True c →
  (∀ t, c = Some t → fits (spec_flatten t) j) →
  match c with None => is_nil p | Some t => well_typed nones t p end = true → winv w →
  lowers w mem (lower_payload resolve (Flatten fuel resolve) (lowerFlatImpl realloc fuel resolve) p r j)
    (λ cvs F m, frep_payload F m j c p cvs).
Proof.
  intros Hl Hr Hv Hf Hn Hfit Ht Hw. unfold lower_payload. destruct Hr as [r t (d & Er & Hd)|].
  - cbn in Hl, Hv, Hf, Hn. destruct (Flatten_ok resolve d t fuel Hd Hv Hf Hn) as [_ Efl].
    eapply lowers_weaken; [|eapply (lowers_seq w mem _ _
      (λ pay F m, ∃ cvs, frep F m t p cvs ∧ pad_payload pay j = zip_with retag j cvs ++ zeros (drop (length cvs) j))
      (λ pay cvs _ _, cvs = pad_payload pay j))]; try done; try solve_stable.
    + cbn. intros cvs F mm (pay & (cv & Hrep & ->) & ->). by constructor.
    + intros pay. apply stable_ex. intros cv. apply stable_and; [apply stable_frep|apply stable_pure].
    + eapply lowers_lift; [exact Er|]. eapply lowers_lift; [exact Efl|].
      eapply lowers_weaken; [|eapply (lowers_seq w mem _ _ (λ cvs F m, frep F m t p cvs)
        (λ cv pay _ _, pad_payload pay j = zip_with retag j cv ++ zeros (drop (length cv) j)))]; try done; try solve_stable.
      * intros cvs. apply stable_frep.
      * apply lowers_sat, Hl; try done. by right.
      * intros cv w1 mem1 Hw1 Hrep. pose proof (frep_typed _ _ _ _ _ (winv_len w1 Hw1) Hrep Hv) as Hty.
        destruct (payload_ok cv _ j Hty (Hfit t eq_refl)) as (pay & Ec & Ep).
        exists w1, mem1, (Ok pay). split; [unfold slift; by rewrite Ec|]. split; [by apply step_refl|done].
    + intros pay w1 mem1 Hw1 _. by apply lowers_ret.
  - destruct p; try done. apply lowers_ret; [done|]. intros F. unfold pad_payload. cbn [app length].
    rewrite drop_0, zeros_eq. constructor.
Qed.

(** A discriminant, then what follows it. *)
Lemma lowers_cons w mem (m : ST G (list CoreValue)) cv (P : list CoreValue → assertion) (Q : list CoreValue → assertion) :
  winv w → (∀ cvs, stable (P cvs)) → (∀ cvs F mm, P cvs F mm → Q (cv :: cvs) F mm) →
  lowers w mem m P → lowers w mem (let! cvs := m in sret (cv :: cvs)) Q.
Proof.
  intros Hw Hst HQ Hm. eapply lowers_weaken; [|eapply (lowers_seq w mem _ _ P (λ cvs out _ _, out = cv :: cvs))];
    try done; try solve_stable.
  - cbn. intros out F mm (cvs & HP & ->). auto.
  - intros cvs w1 mem1 Hw1 _. by apply lowers_ret.
Qed.

Lemma lowers_variant w mem fuel cs0 cs v flat own :
  Forall (from_option lowers_type True) cs →
  Forall2 (λ c, option_Forall2 (ref_denotes resolve) (vc_Type c)) cs0 cs →
  forallb (from_option valid true) cs = true →
  (maxl (from_option height 0%nat <$> cs) ≤ fuel)%nat → Forall (from_option narrow True) cs →
  match flat with Some f => Ok f | None => own end = Ok (spec_flatten (TVariant cs)) →
  well_typed nones (TVariant cs) v = true → winv w →
  lowers w mem (lowerFlatVariant resolve (Flatten fuel resolve) (lowerFlatImpl realloc fuel resolve) v cs0 flat own)
    (λ cvs F m, frep F m (TVariant cs) v cvs).
Proof.
  intros Hl Hcs Hv Hf Hn Hown Ht Hw. destruct v as [| | | | | | | | | | |disc pay| |]; try done. cbn [well_typed] in Ht.
  apply andb_true_iff in Ht as [H0 Ht]. apply Z.leb_le in H0. apply at_case_inv in Ht as (c & Hc & Ht).
  assert (zlen cs = zlen cs0) as En by (unfold zlen; f_equal; symmetry; by eapply Forall2_length).
  pose proof (lookup_lt_Some _ _ _ Hc) as Hlt. unfold lowerFlatVariant.
  rewrite OutOfRange_false by (rewrite <- En; unfold zlen; lia).
  eapply lowers_lift; [exact Hown|]. eapply lowers_lift; [apply joined_of_variant|].
  destruct (Forall2_lookup_r _ _ _ _ _ Hcs Hc) as (c0 & Hc0 & Hcc). rewrite Hc0.
  destruct (case_parts _ _ _ _ _ Hl Hc Hf) as [Hlc Hfc]. destruct (case_parts _ _ _ _ _ Hn Hc Hf) as [Hnc _].
  apply lowers_cons with (λ cvs F m, frep_payload F m (joined cs) c pay cvs); [done|intros; apply stable_frep_payload| |].
  - intros cvs F mm Hp. apply frep_variant with c; [unfold zlen; lia|done|done].
  - apply lowers_payload; try done; [by eapply case_is_valid| |].
    + intros t ->. by eapply fits_case.
    + destruct c; [|done]. by apply andb_true_iff in Ht as [_ ?].
Qed.

Lemma lowers_result w mem fuel ro re o e v flat own :
  from_option lowers_type True o → from_option lowers_type True e →
  option_Forall2 (ref_denotes resolve) ro o → option_Forall2 (ref_denotes resolve) re e →
  forallb (from_option valid true) [o; e] = true →
  (from_option height 0%nat o ≤ fuel)%nat → (from_option height 0%nat e ≤ fuel)%nat →
  Forall (from_option narrow True) [o; e] →
  match flat with Some f => Ok f | None => own end = Ok (spec_flatten (TResult o e)) →
  well_typed nones (TResult o e) v = true → winv w →
  lowers w mem (lowerFlatResult resolve (Flatten fuel resolve) (lowerFlatImpl realloc fuel resolve) v ro re flat own)
    (λ cvs F m, frep F m (TResult o e) v cvs).
Proof.
  intros Hlo Hle Ho He Hv Hfo Hfe Hn Hown Ht Hw.
  destruct v as [| | | | | | | | | | | |isErr pay|]; try done. cbn [well_typed] in Ht.
  unfold lowerFlatResult. eapply lowers_lift; [exact Hown|]. eapply lowers_lift; [apply joined_of_result|].
  pose proof (arm_valid o e isErr Hv) as Hva. pose proof (fits_arm o e isErr) as Hfit.
  inversion_clear Hn as [|?? Hno Hn']. inversion_clear Hn' as [|?? Hne _].
  apply lowers_cons with (λ cvs F m, frep_payload F m (joined [o; e]) (if isErr then e else o) pay cvs);
    [done|intros; apply stable_frep_payload| |].
  - intros cvs F mm Hp. by constructor.
  - destruct isErr; by apply lowers_payload.
Qed.

Lemma lowers_option w mem fuel d t v elemFlat :
  lowers_type t → denotes resolve d t → valid t = true → (height t ≤ fuel)%nat → narrow t →
  elemFlat = None ∨ elemFlat = Some (spec_flatten t) → well_typed nones (TOption t) v = true → winv w →
  lowers w mem (lowerFlatOption (Flatten fuel resolve) (lowerFlatImpl realloc fuel resolve) v d elemFlat)
    (λ cvs F m, frep F m (TOption t) v cvs).
Proof.
  intros Hl Hd Hv Hf Hn Hfl Ht Hw.
  destruct (is_nil v) eqn:Env.
  { destruct v; try done. cbn [lowerFlatOption].
    apply (lowers_lift _ _ _ (spec_flatten t)).
    - destruct Hfl as [->| ->]; [by apply Flatten_ok|done].
    - apply lowers_ret; [done|]. intros F. rewrite zeros_eq. constructor. }
  cbn [well_typed] in Ht. rewrite Env in Ht. cbn [orb] in Ht.
  assert (lowerFlatOption (Flatten fuel resolve) (lowerFlatImpl realloc fuel resolve) v d elemFlat =
    let! elemVals := lowerFlatImpl realloc fuel resolve v d elemFlat in sret (NewCoreValueI32 1 :: elemVals)) as ->
    by (by destruct v).
  apply lowers_cons with (λ cvs F m, frep F m t v cvs); [done|intros; apply stable_frep| |].
  - intros cvs F mm Hp. by constructor.
  - by apply Hl.
Qed.

(** ** Fixed-length lists *)

(** What [lowerFixedScalars] does to one element. *)
Definition elem_lower (p : Prim) : Z → res CoreValue :=
  match p with
  | Ps8 | Ps16 | Ps32 => λ e, Ok (NewCoreValueI32 (u32 e))
  | Pbool => λ e, Ok (NewCoreValueI32 (if e =? 0 then 0 else 1))
  | Pu64 => λ e, Ok (NewCoreValueI64 e)
  | Ps64 => λ e, Ok (NewCoreValueI64 (u64 e))
  | Pf32 => λ e, Ok (NewCoreValueF32 e)
  | Pf64 => λ e, Ok (NewCoreValueF64 e)
  | Pchar => lowerChar
  | _ => λ e, Ok (NewCoreValueI32 e)
  end.

Lemma lowerFixedScalars_lower p k l :
  slice_kind p = Some k → lowerFixedScalars (VSlice k l) p (zlen l) = Some (lower_elems (elem_lower p) l).
Proof.
  intros Hk. destruct p; try done; injection Hk as <-; unfold lowerFixedScalars, lowerFixed, as_slice;
    rewrite decide_True by done; cbn [fmap option_fmap option_map]; by rewrite Z.eqb_refl.
Qed.

Lemma elem_lower_ok p k e :
  slice_kind p = Some k → is_Some (prim_enc p (elem_value p e)) →
  elem_lower p e = Ok (scalar_core p (elem_value p e)).
Proof.
  intros Hk [bs He]. revert He. unfold prim_enc, scalar_core. destruct p; try done; cbn [elem_value elem_lower]; clear Hk.
  - destruct (Z.eqb_spec e 0) as [->|]; [done|]. by destruct (Z.eqb_spec e 1) as [->|].
  - enc_range. unfold lowerChar. apply is_char_rune in E as [Hr ->]. done.
Qed.

Lemma lower_elems_ok p k l :
  slice_kind p = Some k → Forall (λ e, is_Some (prim_enc p (elem_value p e))) l →
  lower_elems (elem_lower p) l = Ok ((λ e, scalar_core p (elem_value p e)) <$> l).
Proof.
  intros Hk. induction 1 as [|e l He _ IH]; [done|]. cbn [lower_elems]. rewrite (elem_lower_ok p k e) by done.
  cbn [at_ obind]. by rewrite IH.
Qed.

Lemma lowers_lower_list w mem fuel d t l :
  lowers_type t → denotes resolve d t → valid t = true → (height t ≤ fuel)%nat → narrow t →
  forallb (well_typed nones t) l = true → winv w →
  lowers w mem (lower_list (lowerFlatImpl realloc fuel resolve) d l)
    (λ cvs F m, frep_fields F m (replicate (length l) t) l cvs).
Proof.
  intros Hl Hd Hv Hf Hn. revert w mem. induction l as [|e l IH]; intros w mem Ht Hw.
  { apply lowers_ret; [done|]. constructor. }
  cbn [forallb] in Ht. apply andb_true_iff in Ht as [Ht Hts]. cbn [lower_list length replicate].
  eapply lowers_weaken; [|eapply (lowers_seq w mem _ _ (λ cvs F m, frep F m t e cvs)
    (λ cvs cvss F m, ∃ cvs', frep_fields F m (replicate (length l) t) l cvs' ∧ cvss = cvs ++ cvs'))]; try done.
  - cbn. intros cvss F mm (cvs & H1 & cvs' & H2 & ->). by constructor.
  - intros cvs. apply stable_frep.
  - intros cvs cvss. apply stable_ex. intros cvs'. apply stable_and; [apply stable_frep_fields|apply stable_pure].
  - apply lowers_sat, Hl; try done. by left.
  - intros cvs w1 mem1 Hw1 _. eapply lowers_weaken; [|eapply (lowers_seq w1 mem1 _ _
      (λ cvs' F m, frep_fields F m (replicate (length l) t) l cvs') (λ cvs' cvss _ _, cvss = cvs ++ cvs'))];
      try done; try solve_stable.
    + intros cvs'. apply stable_frep_fields.
    + intros cvs' w2 mem2 Hw2 _. by apply lowers_ret.
Qed.

Lemma lowers_fixed w mem fuel d t n v :
  lowers_type t → denotes resolve d t → valid t = true → (height t ≤ fuel)%nat → narrow t →
  well_typed nones (TFixed t n) v = true → winv w →
  lowers w mem (lowerFlatFixedList (lowerFlatImpl realloc fuel resolve) v n d) (λ cvs F m, frep F m (TFixed t n) v cvs).
Proof.
  intros Hl Hd Hv Hf Hn Ht Hw. cbn [well_typed] in Ht. unfold lowerFlatFixedList. rewrite (scalarPrim_denotes resolve d t Hd).
  apply list_shape_inv in Ht as [(p & k & l & -> & Hk & -> & Hok & Hall)|(l & Hk & -> & Hok & Hall)]; apply Z.eqb_eq in Hok; subst n.
  - rewrite (lowerFixedScalars_lower p k l Hk).
    assert (Forall (λ e, is_Some (prim_enc p (elem_value p e))) l) as Hs.
    { apply Forall_forall. intros e He. rewrite forallb_forall in Hall. specialize (Hall e He). unfold scalar_ok in Hall.
      destruct (prim_enc p (elem_value p e)); [by eexists|done]. }
    rewrite (lower_elems_ok p k l Hk Hs). apply lowers_ret; [done|]. intros F. apply frep_slice; [|done]. cbn. by rewrite Hk.
  - assert (match (match t with TPrim p => Some p | _ => None end) with
            | Some prim => lowerFixedScalars (VList l) prim (zlen l) | None => None end = None) as ->.
    { destruct t; try done. by destruct p. }
    rewrite Z.eqb_refl. cbn [negb]. eapply lowers_weaken; [|by apply lowers_lower_list].
    cbn. intros cvs F mm Hr. by apply frep_fixed.
Qed.

(** ** All types *)

Lemma lowers_handle w mem v :
  well_typed nones THandle v = true → winv w →
  lowers w mem (match v with VU32 h => sret [NewCoreValueI32 h] | _ => serr EValueKind end)
    (λ cvs F m, frep F m THandle v cvs).
Proof.
  intros Ht Hw. destruct v; try done. cbn in Ht. apply in_width_true in Ht. apply lowers_ret; [done|]. by constructor.
Qed.

Lemma lowers_record w mem fuel rs ts v n :
  Forall lowers_type ts → Forall2 (ref_denotes resolve) rs ts → forallb valid ts = true →
  (maxl (height <$> ts) ≤ fuel)%nat → Forall narrow ts → n = zlen rs →
  well_typed nones (TTuple ts) v = true → winv w →
  lowers w mem (match v with
                | VList vs => if negb (zlen vs =? n) then serr (ELength n (zlen vs))
                              else lower_fields resolve (lowerFlatImpl realloc fuel resolve) rs vs
                | _ => serr EValueKind
                end)
    (λ cvs F m, ∃ vs, v = VList vs ∧ frep_fields F m ts vs cvs).
Proof.
  intros Hl Hr Hv Hf Hn -> Ht Hw. destruct v; try done. cbn [well_typed] in Ht.
  assert (zlen l = zlen rs) as E.
  { pose proof (Forall2_length Hr). pose proof (all2_length _ _ _ Ht). unfold zlen. lia. }
  rewrite E, Z.eqb_refl. cbn [negb]. eapply lowers_weaken; [|by apply (lowers_fields w mem fuel rs ts l)].
  cbn. eauto.
Qed.

Lemma lowerFlatImpl_ok t : lowers_type t.
Proof.
  induction t as [p|ts IH|ts IH|cs IH|t IH|t n IH|n|n|t IH|o e IHo IHe|] using ty_ind';
    intros d [|fuel] flat v w mem Hd Hv Hf Hn Hfl Ht Hw; try (cbn in Hf; lia);
    pose proof (own_flat resolve (S fuel) d _ flat Hd Hv Hf Hn Hfl) as Hown; pose proof Hv as Hv0;
    apply valid_inv in Hv as [_ Hv]; inversion Hd; subst; clear Hd; cbn [lowerFlatImpl height] in *.
  - by apply lowers_primitive.
  - eapply lowers_weaken; [|apply (lowers_record w mem fuel (rf_Type <$> fs) ts v (zlen fs))]; try done.
    + cbn. intros cvs F mm (vs & -> & Hr). by constructor.
    + by apply Forall2_fmap_l.
    + lia.
    + by apply narrow_fields.
    + unfold zlen. by rewrite length_fmap.
  - eapply lowers_weaken; [|apply (lowers_record w mem fuel es ts v (zlen es))]; try done.
    + cbn. intros cvs F mm (vs & -> & Hr). by constructor.
    + lia.
    + by apply narrow_fields.
  - destruct Hv as [Hlen Hv]. apply (lowers_variant w mem fuel cs0 cs); try done; [lia|apply narrow_cases].
    unfold narrow in Hn. unfold spec_flatten in Hn at 1. done.
  - match goal with H : resolveType _ _ = _ |- _ => eapply lowers_lift; [exact H|] end.
    apply (lowers_list w mem fuel d0 t); try done. lia.
  - apply (lowers_list w mem fuel _ (TTuple [tk; tv])); try done; [|cbn [height]; lia].
    constructor. constructor; [by eexists|]. constructor; [by eexists|constructor].
  - match goal with H : resolveType _ _ = _ |- _ => eapply lowers_lift; [exact H|] end. destruct Hv as [Hlen Hv].
    apply (lowers_fixed w mem fuel d0 t); try done; [lia|]. eapply narrow_fixed; [|exact Hn]. lia.
  - destruct v; try done. cbn in Ht. apply andb_true_iff in Ht as [H0 H1]. apply Z.leb_le in H0. apply Z.ltb_lt in H1.
    apply lowers_ret; [done|]. by constructor.
  - destruct v; try done. cbn in Ht. apply andb_true_iff in Ht as [H0 H1]. apply Z.leb_le in H0. apply Z.ltb_lt in H1.
    unfold lowerFlatEnum. rewrite OutOfRange_false by done. apply lowers_ret; [done|]. by constructor.
  - match goal with H : resolveType _ _ = _ |- _ => eapply lowers_lift; [exact H|] end.
    destruct (option_flat t flat Hfl) as (elemFlat & E & Hef). eapply lowers_lift; [exact E|].
    apply (lowers_option w mem fuel d0 t); try done; [lia|by apply narrow_option].
  - apply (lowers_result w mem fuel ro re o e); try done; [lia|lia|].
    apply narrow_cases. unfold narrow in Hn. unfold spec_flatten in Hn at 1. done.
  - by apply lowers_handle.
  - by apply lowers_handle.
  - by apply lowers_handle.
  - by apply lowers_handle.
Qed.

(** * Passing a value *)

Lemma stable_passed limit t v vals : stable (λ F m, passed limit F m t v vals).
Proof. intros F F' m m' Hx. by apply passed_frame. Qed.

(** A spill, from whatever view. *)
Lemma lowers_Spill w mem d t fuel v :
  denotes resolve d t → valid t = true → (height t ≤ fuel)%nat → well_typed nones t v = true → winv w →
  lowers w mem (Spill realloc fuel (mkStoreStep d resolve (spec_align t) (spec_size t)) v)
    (λ p F m, (spec_align t | p) ∧ block m p (spec_size t) ∧ rep F m p t v).
Proof.
  intros Hd Hv Hf Ht Hw.
  destruct (Spill_ok realloc winv owned nones resolve w d t fuel v Hd Hv Hf Ht Hw) as (w' & r & E & H).
  set (s := mkStoreStep d resolve (spec_align t) (spec_size t)) in *.
  assert (blind (let! ptr := sat (GrowMem realloc 0 0 (s_align s) (s_size s)) in
                 let! _ := sat (StoreStep_Store realloc fuel s ptr v) in sret ptr)) as Hb.
  { apply blind_bind, blind_sat, blind_GrowMem. }
  destruct (Hb w (live w) mem) as (H1 & H2 & _). exists w', mem, r. unfold Spill in *.
  destruct (sbind _ _ w (live w)) as [[w1 v1] r1], (sbind _ _ w mem) as [[w2 v2] r2]. cbn in *. simplify_eq.
  split; [done|]. destruct r; try done. by destruct H as (? & _ & ? & ? & ?).
Qed.

Lemma cut_narrow t : valid t = true → zlen (cut_flatten t) ≤ MaxFlatParams → narrow t.
Proof.
  intros Hv Hc. unfold narrow, MaxFlatParams in *. destruct (cut_same_all t Hv) as [H1 H2].
  unfold MaxFlatParams in *. destruct (Z.le_gt_cases (zlen (spec_flatten t)) 16); [done|]. specialize (H2 ltac:(lia)). lia.
Qed.

(** [LowerFlatInto] appends the core values that pass the value. *)
Lemma lowers_into w mem d t fuel v dst :
  denotes resolve d t → valid t = true → (height t ≤ fuel)%nat → zlen (cut_flatten t) ≤ maxFlatWidth →
  well_typed nones t v = true → winv w →
  lowers w mem (LowerFlatInto realloc fuel resolve dst v d)
    (λ vals F m, ∃ cvs, vals = dst ++ cvs ∧ passed MaxFlatParams F m t v cvs).
Proof.
  intros Hd Hv Hf Hc Ht Hw. pose proof (flatten_computed resolve t d fuel Hd Hv Hf Hc) as [Efw _].
  destruct (match d with PrimitiveDesc Pstring => None | PrimitiveDesc p => Some p | _ => None end) as [p|] eqn:Ep.
  - assert (d = PrimitiveDesc p ∧ p ≠ Pstring) as [-> Hne].
    { destruct d; try done. destruct prim; try done; by injection Ep as <-. }
    unfold LowerFlatInto. rewrite Ep. inversion Hd; subst.
    assert (∃ bs, prim_enc p v = Some bs) as [bs He] by (destruct p; cbn in Ht; try done; case_match; eauto; done).
    eapply lowers_lift; [by eapply lowerPrimitiveCore_ok|]. apply lowers_ret; [done|]. intros F. eexists. split; [done|].
    unfold passed. rewrite (proj2 (Z.leb_le _ _)) by (by destruct p). by econstructor.
  - unfold LowerFlatInto. rewrite Ep. eapply lowers_lift; [exact Efw|].
    rewrite (spill_decision t Hv Hc). unfold passed.
    destruct (Z.leb_spec (zlen (spec_flatten t)) MaxFlatParams) as [Hn|Hn]; cbn [negb].
    + eapply lowers_weaken; [|eapply (lowers_seq w mem _ _ (λ cvs F m, frep F m t v cvs) (λ cvs vals _ _, vals = dst ++ cvs))];
        try done; try solve_stable.
      * cbn. intros vals F mm (cvs & Hr & ->). eauto.
      * intros cvs. apply stable_frep.
      * apply lowerFlatImpl_ok; try done. by left.
      * intros cvs w1 mem1 Hw1 _. by apply lowers_ret.
    + unfold spillValue. eapply lowers_weaken; [|eapply (lowers_seq w mem _ _
        (λ p F m, (spec_align t | p) ∧ block m p (spec_size t) ∧ rep F m p t v)
        (λ p vals _ _, vals = dst ++ [NewCoreValueI32 p]))]; try done; try solve_stable.
      * cbn. intros vals F mm (p & (H1 & H2 & H3) & ->). eexists. split; [done|]. exists p. done.
      * eapply lowers_lift; [by apply (CompileStore_ok resolve d t)|]. by apply lowers_Spill.
      * intros p w1 mem1 Hw1 _. by apply lowers_ret.
Qed.
End lower.

(** * The compiled lowering *)

Lemma bind_lift_ok {G A B} (a : A) (k : A → ST G B) w mem : sbind (slift (Ok a)) k w mem = k a w mem.
Proof. done. Qed.

(** Handing the flattening down changes nothing. *)
Lemma lowerFlatImpl_flat {G} (realloc : Realloc G) resolve fuel t flat v w mem :
  Flatten fuel resolve t = Ok flat →
  lowerFlatImpl realloc fuel resolve v t (Some flat) w mem = lowerFlatImpl realloc fuel resolve v t None w mem.
Proof.
  revert t flat v w mem. induction fuel as [|fuel IH]; intros t flat v w mem Hfl; [done|].
  destruct t; cbn [lowerFlatImpl]; try done; rewrite ?Hfl; try done.
  cbn [Flatten] in Hfl. unfold flattenOption in Hfl. unfold sbind, slift.
  destruct (resolveType _ resolve) as [elemT|e| |]; try done. cbn [obind] in Hfl.
  destruct (Flatten fuel resolve elemT) as [ef|e| |] eqn:Ef; try done. injection Hfl as <-.
  unfold lowerFlatOption, sbind, slift. destruct v; rewrite ?Ef, ?(IH elemT ef _ _ _ Ef); done.
Qed.

Lemma Lower_into {G} (realloc : Realloc G) resolve fuel t s width dst v w mem :
  resolver_in_range resolve → length_in_range t → FlatWidth fuel resolve t = Ok width →
  CompileLower fuel t resolve = Ok s →
  Lower realloc fuel s dst v w mem = LowerFlatInto realloc fuel resolve dst v t w mem.
Proof.
  intros Hr Hlen Hfw Hs. pose proof (FlatWidth_agree resolve fuel t Hr Hlen) as Hag. rewrite Hfw in Hag.
  destruct Hag as (flat & Hflat & Ewidth). unfold LowerFlatInto. destruct fuel as [|fuel]; [done|].
  assert (∀ s, (let* flat := Flatten (S fuel) resolve t in
     if MaxFlatParams <? zlen flat then let* store := CompileStore (S fuel) t resolve in
       Ok (lowerKindComposite t resolve flat (Some store)) else Ok (lowerKindComposite t resolve flat None)) = Ok s →
     Lower realloc (S fuel) s dst v w mem =
     (let! flatWidth := slift (FlatWidth (S fuel) resolve t) in
      if MaxFlatParams <? flatWidth then let! ptr := spillValue realloc (S fuel) resolve v t in sret (dst ++ [NewCoreValueI32 ptr])
      else let! flat := lowerFlatImpl realloc (S fuel) resolve v t None in sret (dst ++ flat)) w mem) as Hcomp.
  { clear s Hs. intros s. rewrite Hflat, Hfw. cbn [obind]. rewrite bind_lift_ok, <- Ewidth.
    destruct (MaxFlatParams <? zlen flat).
    - unfold spillValue. destruct (CompileStore (S fuel) t resolve) as [store|e| |]; try done. intros [= <-]. done.
    - intros [= <-]. cbn [Lower]. unfold sbind. by rewrite (lowerFlatImpl_flat _ _ _ _ _ _ _ _ Hflat). }
  destruct t; try (by apply Hcomp).
  - destruct prim; injection Hs as <-; try done.
    change (FlatWidth (S fuel) resolve (PrimitiveDesc Pstring)) with (Ok 2 : res Z). rewrite bind_lift_ok.
    destruct v; try done. cbn [lowerFlatImpl lowerFlatPrimitive Lower Z.ltb Z.compare MaxFlatParams Pos.compare Pos.compare_cont].
    unfold lowerFlatString, sbind. by destruct (keep_view _ w mem) as [[w1 v1] [[q n]|e| |]].
  - injection Hs as <-. by destruct v.
  - injection Hs as <-. by destruct v.
  - injection Hs as <-. by destruct v.
  - injection Hs as <-. by destruct v.
Qed.

(** A type past the width bound is refused. *)
Lemma lower_too_wide {G} (realloc : Realloc G) resolve d t fuel v w mem :
  denotes resolve d t → valid t = true → (height t ≤ fuel)%nat → maxFlatWidth < zlen (cut_flatten t) →
  LowerFlat realloc fuel resolve v d w mem = (w, mem, Err EFlatWidth).
Proof.
  intros Hd Hv Hf Hc. destruct (flatten_outcome resolve t d fuel Hd Hv Hf) as [Ew _].
  rewrite width_of_gt in Ew by done. unfold LowerFlat, LowerFlatInto.
  assert (match d with PrimitiveDesc Pstring => None | PrimitiveDesc p => Some p | _ => None end = None) as ->.
  { destruct Hd; try done. unfold maxFlatWidth in Hc. by destruct p. }
  by rewrite Ew.
Qed.

(** * Theorems *)

(** C3. What is lowered is what is lifted.  From whatever view of memory,
    [LowerFlat] refuses a type whose flattening is wider than [maxFlatWidth],
    before it touches the guest.  Of any other type, a well-typed value goes
    through flat, or through memory past the 16 flat parameters: either the
    lowering fails as a store does (the guest's allocator failed, or a [none]
    is the payload of a variant's case in memory), or nothing in use has
    changed, and for as long as the guest leaves what is in use alone,
    [LiftFlat] of the core values, and [LiftFlatKinds] of their bits, return
    the value. *)
Theorem LowerFlat_LiftFlat_roundtrip {G} (realloc : Realloc G) winv owned resolve d t fuel v w mem :
  FreshRealloc realloc winv owned →
  denotes resolve d t → valid t = true → (height t ≤ fuel)%nat → has_type t v = true → winv w →
  (maxFlatWidth < zlen (cut_flatten t) ∧ LowerFlat realloc fuel resolve v d w mem = (w, mem, Err EFlatWidth)) ∨
  (zlen (cut_flatten t) ≤ maxFlatWidth ∧ ((∃ w' mem' e, LowerFlat realloc fuel resolve v d w mem = (w', mem', Err e) ∧ store_failure t v e) ∨
   (∃ w' mem' vals, LowerFlat realloc fuel resolve v d w mem = (w', mem', Ok vals) ∧
     step winv owned w w' (λ _, False) ∧
     ∀ w2, step winv owned w' w2 (λ _, False) →
       LiftFlat (cont w2) fuel resolve vals d = Ok v ∧
       LiftFlatKinds (cont w2) fuel resolve (cut_flatten t) (Bits <$> vals) d = Ok v))).
Proof.
  intros Hfr Hd Hv Hf Ht Hw. destruct (Z.lt_ge_cases maxFlatWidth (zlen (cut_flatten t))) as [Hc|Hc].
  { left. split; [done|]. by apply (lower_too_wide realloc resolve d t). }
  right. split; [done|].
  destruct (storable_cases t v Ht) as (nones & Htn & Hfail).
  destruct (lowers_into realloc winv owned nones resolve w mem d t fuel v [] Hd Hv Hf Hc Htn Hw) as (w' & mem' & r & E & H).
  destruct r as [vals|e| |]; try done; [right|left; eauto 8]. destruct H as (Hstep & cvs & -> & Hp). cbn [app] in E.
  exists w', mem', cvs. split; [exact E|]. split; [done|]. intros w2 Hstep2. pose proof Hstep as (Hw' & _).
  pose proof Hstep2 as (Hw2 & _ & H2).
  assert (passed MaxFlatParams (owned w2) (cont w2) t v cvs) as Hp2.
  { eapply passed_frame; [|exact Hp]. eapply (step_extends realloc winv owned); [exact Hw'|exact Hstep2|].
    intros x [[]|[Ho _]]. split; [done|]. split; [auto|]. by apply H2. }
  pose proof (winv_len realloc winv owned w2 Hw2) as Hlen.
  split; [by eapply LiftFlat_passed|by eapply LiftFlatKinds_passed].
Qed.

(** The core values of a lowering have the types the flattened signature
    announces: exactly those of [Flatten] when they fit the parameter limit,
    else one [i32]; and the bits of each fit its type. *)
Theorem LowerFlat_typed {G} (realloc : Realloc G) winv owned resolve d t fuel v w mem w' mem' vals :
  FreshRealloc realloc winv owned →
  denotes resolve d t → valid t = true → (height t ≤ fuel)%nat → zlen (cut_flatten t) ≤ maxFlatWidth →
  has_type t v = true → winv w → LowerFlat realloc fuel resolve v d w mem = (w', mem', Ok vals) →
  ∃ flat, Flatten fuel resolve d = Ok flat ∧ Forall core_ok vals ∧
    Kind <$> vals = if zlen flat <=? MaxFlatParams then flat else [I32].
Proof.
  intros Hfr Hd Hv Hf Hc Ht Hw E. exists (cut_flatten t). split; [by apply flatten_computed|].
  destruct (storable_cases t v Ht) as (nones & Htn & _).
  destruct (lowers_into realloc winv owned nones resolve w mem d t fuel v [] Hd Hv Hf Hc Htn Hw) as (w1 & mem1 & r & E1 & H).
  assert (r = Ok vals ∧ w1 = w') as [-> ->].
  { unfold LowerFlat in E. rewrite E in E1. by injection E1 as -> -> <-. }
  destruct H as ((Hw' & _) & cvs & -> & Hp). cbn [app]. unfold passed in Hp.
  rewrite Z.leb_antisym, (spill_decision t Hv Hc), negb_involutive.
  destruct (Z.leb_spec (zlen (spec_flatten t)) MaxFlatParams) as [Hn|Hn].
  - rewrite (narrow_cut t Hv Hn). destruct (frep_typed _ _ _ _ _ (winv_len realloc winv owned w' Hw') Hp Hv). done.
  - destruct Hp as (p & -> & _ & Hb & _). split; [|done]. constructor; [|constructor].
    apply core_ok_i32, (spilled_ptr (cont w') (winv_len realloc winv owned w' Hw') t p Hv Hb).
Qed.

(** The compiled lowering is the interpreted one: where the width of the
    type is known, a [LowerStep] behaves, on every value, from every state and
    for every prefix, exactly as [LowerFlatInto]. *)
Theorem LowerStep_equiv {G} (realloc : Realloc G) resolve fuel t s width :
  resolver_in_range resolve → length_in_range t → FlatWidth fuel resolve t = Ok width →
  CompileLower fuel t resolve = Ok s →
  ∀ dst v w mem, Lower realloc fuel s dst v w mem = LowerFlatInto realloc fuel resolve dst v t w mem.
Proof. intros Hr Hlen Hfw Hs dst v w mem. by eapply Lower_into. Qed.

(** Lifting is correct: core values that pass a value the way the Canonical
    ABI does, flat or through memory, with cases coerced to the joined types
    and padded, are lifted to exactly that value by [LiftFlat] and by
    [LiftFlatKinds]. *)
Theorem LiftFlat_correct F m resolve d t fuel v vals :
  zlen m < 2 ^ 32 → denotes resolve d t → valid t = true → (height t ≤ fuel)%nat →
  zlen (cut_flatten t) ≤ maxFlatWidth → passed MaxFlatParams F m t v vals →
  LiftFlat m fuel resolve vals d = Ok v ∧
  LiftFlatKinds m fuel resolve (cut_flatten t) (Bits <$> vals) d = Ok v.
Proof. intros Hm Hd Hv Hf Hc Hp. split; [by eapply LiftFlat_passed|by eapply LiftFlatKinds_passed]. Qed.

(** The compiled lifting of a result is correct: it takes the limit of one
    core result, reads a wider result through the pointer in it, and returns
    the value. *)
Theorem LiftStep_correct F m resolve d t fuel v vals :
  zlen m < 2 ^ 32 → denotes resolve d t → valid t = true → (height t ≤ fuel)%nat →
  zlen (cut_flatten t) ≤ maxFlatWidth → passed MaxFlatResults F m t v vals →
  ∃ s, CompileLift fuel d resolve = Ok s ∧ Lift m fuel s vals = Ok v.
Proof. intros Hm Hd Hv Hf Hc Hp. by eapply Lift_passed. Qed.

(** ** A sample *)

(** A variant of four cases whose joined payload is [i64, i32, i32]. *)
Definition sample_flat_types (i : Z) : option TypeDesc :=
  match i with 0 => Some (TupleDesc [prim_ref Pf32; prim_ref Pstring]) | _ => None end.
Definition sample_flat_desc : TypeDesc :=
  VariantDesc [{| vc_Name := "a"; vc_Type := Some (prim_ref Pf32) |}; {| vc_Name := "b"; vc_Type := None |};
               {| vc_Name := "c"; vc_Type := Some (idx_ref 0) |}; {| vc_Name := "d"; vc_Type := Some (prim_ref Pu64) |}].
Definition sample_flat_ty : ty :=
  TVariant [Some (TPrim Pf32); None; Some (TTuple [TPrim Pf32; TPrim Pstring]); Some (TPrim Pu64)].

(** The case [c] of 1.0 and "hi". *)
Definition sample_flat_value : Value := VVariant 2 (VList [VF32 0x3F800000; VString [104; 105]]).
Definition sample_flat_vals : list CoreValue :=
  [mkCore I32 2; mkCore I64 0x3F800000; mkCore I32 0; mkCore I32 2].

Lemma sample_flat_denotes : denotes (Some sample_flat_types) sample_flat_desc sample_flat_ty.
Proof. solve_denotes. Qed.

Lemma sample_flat_in_range : resolver_in_range (Some sample_flat_types).
Proof.
  intros f i t [= <-]. unfold sample_flat_types, length_in_range. repeat case_match; intros; simplify_eq; done.
Qed.

Lemma sample_flat_passed : passed MaxFlatParams (λ _, True) sample_mem sample_flat_ty sample_flat_value sample_flat_vals.
Proof.
  unfold passed. change (zlen (spec_flatten sample_flat_ty) <=? MaxFlatParams) with true. cbn beta iota.
  apply (frep_variant _ _ _ 2 _ (Some (TTuple [TPrim Pf32; TPrim Pstring]))); [vm_compute; split; [discriminate|done]|done|].
  refine (frepp_some _ _ [I64; I32; I32] (TTuple [TPrim Pf32; TPrim Pstring]) _
    [mkCore F32 0x3F800000; mkCore I32 0; mkCore I32 2] _).
  apply frep_tuple. apply (frepf_cons _ _ (TPrim Pf32) _ (VF32 0x3F800000) _ [mkCore F32 0x3F800000]).
  - by eapply (frep_prim _ _ Pf32).
  - apply (frepf_cons _ _ (TPrim Pstring) _ (VString [104; 105]) _ [mkCore I32 0; mkCore I32 2] []); [|constructor].
    apply (frep_string _ _ [104; 105] 0); [done|done| |solve_bytes_at]. split; [lia|vm_compute; discriminate].
Qed.

Lemma LowerFlat_LiftFlat_roundtrip_witness :
  ∃ w' mem' vals,
    LowerFlat (bump 4096) 3 (Some sample_flat_types) sample_flat_value sample_flat_desc sample_world (live sample_world)
      = (w', mem', Ok vals) ∧
    LiftFlat (cont w') 3 (Some sample_flat_types) vals sample_flat_desc = Ok sample_flat_value.
Proof.
  destruct (LowerFlat_LiftFlat_roundtrip (bump 4096) bump_fresh_inv bump_owned (Some sample_flat_types)
    sample_flat_desc sample_flat_ty 3 sample_flat_value sample_world (live sample_world))
    as [[Hc _]|(_ & [(w' & mem' & e & E & _)|(w' & mem' & vals & E & Hstep & El)])].
  - apply bump_fresh. lia.
  - exact sample_flat_denotes.
  - reflexivity.
  - cbn. lia.
  - reflexivity.
  - exact sample_world_fresh.
  - exfalso. vm_compute in Hc. discriminate.
  - exfalso. vm_compute in E. discriminate.
  - exists w', mem', vals. split; [exact E|]. apply El. apply step_refl. apply Hstep.
Defined.

(** The sample lowered. *)
Definition sample_lowered : world Z * view * res (list CoreValue) :=
  LowerFlat (bump 4096) 3 (Some sample_flat_types) sample_flat_value sample_flat_desc sample_world (live sample_world).

Lemma LowerFlat_typed_witness :
  ∃ vals, sample_lowered.2 = Ok vals ∧ Kind <$> vals = [I32; I64; I32; I32].
Proof.
  destruct sample_lowered as [[w' mem'] [vals|e| |]] eqn:E; try (exfalso; vm_compute in E; discriminate).
  exists vals. split; [reflexivity|].
  destruct (LowerFlat_typed (bump 4096) bump_fresh_inv bump_owned (Some sample_flat_types) sample_flat_desc
    sample_flat_ty 3 sample_flat_value sample_world (live sample_world) w' mem' vals) as (flat & Ef & _ & Ek).
  - apply bump_fresh. lia.
  - exact sample_flat_denotes.
  - reflexivity.
  - cbn. lia.
  - vm_compute. discriminate.
  - reflexivity.
  - exact sample_world_fresh.
  - exact E.
  - vm_compute in Ef. injection Ef as <-. exact Ek.
Defined.

Lemma LowerStep_equiv_witness :
  ∃ s, CompileLower 3 sample_flat_desc (Some sample_flat_types) = Ok s ∧
  ∀ dst v w mem, Lower (bump 4096) 3 s dst v w mem =
    LowerFlatInto (bump 4096) 3 (Some sample_flat_types) dst v sample_flat_desc w mem.
Proof.
  eexists. split; [reflexivity|].
  apply (LowerStep_equiv (bump 4096) (Some sample_flat_types) 3 sample_flat_desc _ 4 sample_flat_in_range); [exact I|reflexivity|reflexivity].
Defined.

Lemma LiftFlat_correct_witness :
  LiftFlat sample_mem 3 (Some sample_flat_types) sample_flat_vals sample_flat_desc = Ok sample_flat_value ∧
  LiftFlatKinds sample_mem 3 (Some sample_flat_types) (cut_flatten sample_flat_ty) (Bits <$> sample_flat_vals)
    sample_flat_desc = Ok sample_flat_value.
Proof.
  apply (LiftFlat_correct (λ _, True) sample_mem (Some sample_flat_types) sample_flat_desc sample_flat_ty 3
    sample_flat_value sample_flat_vals eq_refl sample_flat_denotes eq_refl);
    [cbn; lia|vm_compute; discriminate|exact sample_flat_passed].
Defined.

(** The option of [Load_correct_witness], returned through memory at 8. *)
Lemma LiftStep_correct_witness :
  ∃ s, CompileLift 4 (OptionDesc (idx_ref 0)) (Some sample_load_types) = Ok s ∧
    Lift sample_mem 4 s [mkCore I32 8] = Ok sample_value.
Proof.
  apply (LiftStep_correct (λ _, True) sample_mem (Some sample_load_types) (OptionDesc (idx_ref 0)) sample_load_ty 4
    sample_value [mkCore I32 8] eq_refl sample_load_denotes eq_refl); [cbn; lia|vm_compute; discriminate|].
  exists 8. split; [reflexivity|]. split; [by exists 2|]. split; [split; [lia|vm_compute; discriminate]|exact sample_rep].
Defined.
