(* ===== verification/WasmMemory.v ===== *)
(** WebAssembly linear memories: [MemoryInstance] of [internal/wasm/memory.go]
    and the buffer pool of [internal/wasm/memory_pool.go].

    A Go slice is a view of an array of the [heap]; [Buffer] and [backing] of
    one instance are views of the same array, and a pooled buffer is a view of
    an array no instance uses.  The heap also holds the high-water marks that
    the instances of one module share and the pool's buckets.  A custom
    allocator is a parameter: what it does to the heap is its own business. *)
From Stdlib Require Import ZArith Lia.
From stdpp Require Import base list numbers option tactics gmap.
From S2P Require Import Prelude.
Local Open Scope Z_scope.
Local Open Scope go_scope.

(** * Slices and arrays *)

Abbreviation out := (outcome unit).

Record slice := mkSlice { sl_arr : nat; sl_off : Z; sl_len : Z; sl_cap : Z }.

Record heap := mkHeap {
  arrays : list (list Z);
  (** [Memory.capHighWaterPages], one per module *)
  marks : list Z;
  (** [memoryBufferPools]: the free buffers by capacity *)
  pools : gmap Z (list slice);
}.

Definition set_array (h : heap) (i : nat) (a : list Z) : heap := mkHeap (<[i := a]> (arrays h)) (marks h) (pools h).
Definition set_mark (h : heap) (i : nat) (v : Z) : heap := mkHeap (arrays h) (<[i := v]> (marks h)) (pools h).
Definition set_pool (h : heap) (c : Z) (l : list slice) : heap := mkHeap (arrays h) (marks h) (<[c := l]> (pools h)).

(** [s[:n]], [s[lo:hi]], [s[lo:]] and [s[lo:hi:hi]]. *)
Definition slice_to (s : slice) (n : Z) : out slice :=
  if n <=? sl_cap s then Ok (mkSlice (sl_arr s) (sl_off s) n (sl_cap s)) else Panic.
Definition slice_range (s : slice) (lo hi : Z) : out slice :=
  if (lo <=? hi) && (hi <=? sl_cap s) then Ok (mkSlice (sl_arr s) (sl_off s + lo) (hi - lo) (sl_cap s - lo)) else Panic.
Definition slice_from (s : slice) (lo : Z) : out slice :=
  if lo <=? sl_len s then Ok (mkSlice (sl_arr s) (sl_off s + lo) (sl_len s - lo) (sl_cap s - lo)) else Panic.
Definition slice_full (s : slice) (lo hi : Z) : out slice :=
  if (lo <=? hi) && (hi <=? sl_cap s) then Ok (mkSlice (sl_arr s) (sl_off s + lo) (hi - lo) (hi - lo)) else Panic.

Definition array_of (h : heap) (s : slice) : list Z := default [] (arrays h !! sl_arr s).

(** The bytes of a slice. *)
Definition bytes_of (h : heap) (s : slice) : list Z :=
  take (Z.to_nat (sl_len s)) (drop (Z.to_nat (sl_off s)) (array_of h s)).

(** [s[i]]. *)
Definition index (h : heap) (s : slice) (i : Z) : out Z :=
  match bytes_of h s !! Z.to_nat i with Some b => Ok b | None => Panic end.

(** The array with [bytes] at [off], as far as it reaches. *)
Definition overwrite (off : nat) (bytes a : list Z) : list Z :=
  take off a ++ take (length a - off) bytes ++ drop (off + length bytes) a.

(** [copy(s, bytes)]. *)
Definition copy (h : heap) (s : slice) (bytes : list Z) : heap :=
  set_array h (sl_arr s) (overwrite (Z.to_nat (sl_off s)) (take (Z.to_nat (sl_len s)) bytes) (array_of h s)).

(** [clear(s)]. *)
Definition clear (h : heap) (s : slice) : heap := copy h s (replicate (Z.to_nat (sl_len s)) 0).

(** The largest allocation of the Go runtime; a larger one panics. *)
Definition maxAlloc : Z := 2 ^ 48.

(** [make([]byte, len, cap)]. *)
Definition make_bytes (h : heap) (len cap : Z) : out (heap * slice) :=
  if maxAlloc <? cap then Panic
  else Ok (mkHeap (arrays h ++ [replicate (Z.to_nat cap) 0]) (marks h) (pools h),
           mkSlice (length (arrays h)) 0 len cap).

(** [binary.LittleEndian.Uint16] and the like. *)
Definition get_le (h : heap) (s : slice) (n : Z) : out Z :=
  let b := bytes_of h s in
  if zlen b <? n then Panic else Ok (le_decode (take (Z.to_nat n) b)).
Definition put_le (h : heap) (s : slice) (n v : Z) : out heap :=
  if sl_len s <? n then Panic else Ok (copy h s (le_encode (Z.to_nat n) v)).

(** * Pages *)

Definition MemoryPageSize : Z := 65536.
Definition MemoryLimitPages : Z := 65536.
Definition Memory64LimitPages : Z := Z.shiftl 1 48.
Definition MemoryPageSizeInBits : Z := 16.
Definition MaxUint64 : Z := 2 ^ 64 - 1.
Definition MaxUint32 : Z := 2 ^ 32 - 1.

Definition MemoryPagesToBytesNum (pages : Z) : Z :=
  if Z.shiftr MaxUint64 MemoryPageSizeInBits <? pages then MaxUint64
  else u64 (Z.shiftl pages MemoryPageSizeInBits).

Definition memoryBytesNumToPages (bytesNum : Z) : Z := Z.shiftr bytesNum MemoryPageSizeInBits.

(** * Instances *)

(** [api.LinearMemory]: its [Reallocate], which may return nil. *)
Definition LinearMemory : Type := heap → Z → heap * option slice.

(** The [Memory] of a module; its high-water mark is a cell of the heap. *)
Record Memory := mkMemory {
  sec_Min : Z; sec_Cap : Z; sec_Max : Z; IsShared : bool; sec_IsMemory64 : bool;
  capHighWaterPages : nat;
}.

Record MemoryInstance := mkMemoryInstance {
  sizeBytes : Z;
  Buffer : slice;
  Min : Z; Cap : Z; Max : Z;
  Shared : bool;
  IsMemory64 : bool;
  nativeGrowCap : Z;
  growReservePages : Z;
  capHighWater : option nat;
  backing : option slice;
  expBuffer : option LinearMemory;
  poolable : bool;
  released : bool;
}.

Definition byteSize (m : MemoryInstance) : Z :=
  let size := sizeBytes m in
  if released m then 0
  else if negb (size =? 0) || (sl_len (Buffer m) =? 0) then size
  else sl_len (Buffer m).

Definition allocatedBuffer (m : MemoryInstance) : slice :=
  match backing m with
  | Some b => b
  | None => mkSlice (sl_arr (Buffer m)) (sl_off (Buffer m)) (sl_cap (Buffer m)) (sl_cap (Buffer m))
  end.

Definition visibleBuffer (m : MemoryInstance) : out slice := slice_to (allocatedBuffer m) (byteSize m).

Definition Size (m : MemoryInstance) : Z := u32 (byteSize m).
Definition Size64 (m : MemoryInstance) : Z := byteSize m.
Definition ByteSize (m : MemoryInstance) : Z := byteSize m.
Definition Pages (m : MemoryInstance) : Z := u32 (memoryBytesNumToPages (byteSize m)).
Definition Pages64 (m : MemoryInstance) : Z := memoryBytesNumToPages (byteSize m).

(** [bits.Add64(offset, size, 0)]: the sum and its carry. *)
Definition Add64 (a b : Z) : Z * Z := (u64 (a + b), if 2 ^ 64 <=? a + b then 1 else 0).

Definition rangeOutOfBounds (offset size limit : Z) : bool :=
  let '(end_, carry) := Add64 offset size in
  negb (carry =? 0) || (limit <? end_).

Definition hasSize (m : MemoryInstance) (offset byteCount : Z) : bool :=
  u64 (offset + byteCount) <=? byteSize m.

Definition hasSize64 (m : MemoryInstance) (offset byteCount : Z) : bool :=
  let '(end_, carry) := Add64 offset byteCount in
  (carry =? 0) && (end_ <=? byteSize m).

(** * Accessors *)

Definition ReadByte (h : heap) (m : MemoryInstance) (offset : Z) : out (Z * bool) :=
  let* buf := visibleBuffer m in
  if sl_len buf <=? offset then Ok (0, false)
  else let* b := index h buf offset in Ok (b, true).

Definition ReadByteAt (h : heap) (m : MemoryInstance) (offset : Z) : out (Z * bool) :=
  let* buf := visibleBuffer m in
  if sl_len buf <=? offset then Ok (0, false)
  else let* b := index h buf offset in Ok (b, true).

(** The bodies of the fixed-width reads: with the guard of a 32-bit offset,
    and with that of a 64-bit one. *)
Definition read_le (h : heap) (m : MemoryInstance) (n off : Z) : out (Z * bool) :=
  let* buf := visibleBuffer m in
  if sl_len buf <? u64 (off + n) then Ok (0, false)
  else
    let* s := slice_range buf off (u64 (off + n)) in
    let* v := get_le h s n in Ok (v, true).

Definition read_le_at (h : heap) (m : MemoryInstance) (n offset : Z) : out (Z * bool) :=
  let* buf := visibleBuffer m in
  if rangeOutOfBounds offset n (sl_len buf) then Ok (0, false)
  else
    let* s := slice_range buf offset (u64 (offset + n)) in
    let* v := get_le h s n in Ok (v, true).

Definition ReadUint16Le (h : heap) (m : MemoryInstance) (offset : Z) : out (Z * bool) := read_le h m 2 offset.
Definition ReadUint16LeAt (h : heap) (m : MemoryInstance) (offset : Z) : out (Z * bool) := read_le_at h m 2 offset.
Definition readUint32Le (h : heap) (m : MemoryInstance) (offset : Z) : out (Z * bool) := read_le h m 4 offset.
Definition readUint64Le (h : heap) (m : MemoryInstance) (offset : Z) : out (Z * bool) := read_le h m 8 offset.
Definition ReadUint32Le (h : heap) (m : MemoryInstance) (offset : Z) : out (Z * bool) := readUint32Le h m offset.
Definition ReadUint32LeAt (h : heap) (m : MemoryInstance) (offset : Z) : out (Z * bool) := read_le_at h m 4 offset.
Definition ReadUint64Le (h : heap) (m : MemoryInstance) (offset : Z) : out (Z * bool) := readUint64Le h m offset.
Definition ReadUint64LeAt (h : heap) (m : MemoryInstance) (offset : Z) : out (Z * bool) := read_le_at h m 8 offset.

(** Floats are their bits. *)
Definition ReadFloat32Le (h : heap) (m : MemoryInstance) (offset : Z) : out (Z * bool) :=
  let* r := readUint32Le h m offset in
  let '(v, ok) := r in if negb ok then Ok (0, false) else Ok (v, true).
Definition ReadFloat64Le (h : heap) (m : MemoryInstance) (offset : Z) : out (Z * bool) :=
  let* r := readUint64Le h m offset in
  let '(v, ok) := r in if negb ok then Ok (0, false) else Ok (v, true).

(** The slice that [Read] and [Read64] return aliases the memory. *)
Definition Read (m : MemoryInstance) (offset byteCount : Z) : out (option slice) :=
  let* buf := visibleBuffer m in
  let end_ := u64 (offset + byteCount) in
  if sl_len buf <? end_ then Ok None
  else let* s := slice_full buf offset end_ in Ok (Some s).

Definition Read64 (m : MemoryInstance) (offset byteCount : Z) : out (option slice) :=
  let* buf := visibleBuffer m in
  if rangeOutOfBounds offset byteCount (sl_len buf) then Ok None
  else let* s := slice_full buf offset (u64 (offset + byteCount)) in Ok (Some s).

(** [buf[offset] = v]. *)
Definition set_index (h : heap) (s : slice) (i v : Z) : out heap :=
  if i <? sl_len s then Ok (set_array h (sl_arr s) (<[Z.to_nat (sl_off s + i) := v]> (array_of h s))) else Panic.

Definition WriteByte (h : heap) (m : MemoryInstance) (offset v : Z) : out (heap * bool) :=
  let* buf := visibleBuffer m in
  if sl_len buf <=? offset then Ok (h, false)
  else let* h := set_index h buf offset v in Ok (h, true).

Definition WriteByteAt (h : heap) (m : MemoryInstance) (offset v : Z) : out (heap * bool) :=
  let* buf := visibleBuffer m in
  if sl_len buf <=? offset then Ok (h, false)
  else let* h := set_index h buf offset v in Ok (h, true).

Definition write_le (h : heap) (m : MemoryInstance) (n off v : Z) : out (heap * bool) :=
  let* buf := visibleBuffer m in
  if sl_len buf <? u64 (off + n) then Ok (h, false)
  else
    let* s := slice_range buf off (u64 (off + n)) in
    let* h := put_le h s n v in Ok (h, true).

Definition write_le_at (h : heap) (m : MemoryInstance) (n offset v : Z) : out (heap * bool) :=
  let* buf := visibleBuffer m in
  if rangeOutOfBounds offset n (sl_len buf) then Ok (h, false)
  else
    let* s := slice_range buf offset (u64 (offset + n)) in
    let* h := put_le h s n v in Ok (h, true).

Definition WriteUint16Le (h : heap) (m : MemoryInstance) (offset v : Z) : out (heap * bool) := write_le h m 2 offset v.
Definition WriteUint16LeAt (h : heap) (m : MemoryInstance) (offset v : Z) : out (heap * bool) := write_le_at h m 2 offset v.
Definition writeUint32Le (h : heap) (m : MemoryInstance) (offset v : Z) : out (heap * bool) := write_le h m 4 offset v.
Definition writeUint64Le (h : heap) (m : MemoryInstance) (offset v : Z) : out (heap * bool) := write_le h m 8 offset v.
Definition WriteUint32Le (h : heap) (m : MemoryInstance) (offset v : Z) : out (heap * bool) := writeUint32Le h m offset v.
Definition WriteUint32LeAt (h : heap) (m : MemoryInstance) (offset v : Z) : out (heap * bool) := write_le_at h m 4 offset v.
Definition WriteFloat32Le (h : heap) (m : MemoryInstance) (offset v : Z) : out (heap * bool) := writeUint32Le h m offset v.
Definition WriteUint64Le (h : heap) (m : MemoryInstance) (offset v : Z) : out (heap * bool) := writeUint64Le h m offset v.
Definition WriteUint64LeAt (h : heap) (m : MemoryInstance) (offset v : Z) : out (heap * bool) := write_le_at h m 8 offset v.
Definition WriteFloat64Le (h : heap) (m : MemoryInstance) (offset v : Z) : out (heap * bool) := writeUint64Le h m offset v.

(** The bodies of [Write] and [WriteString], and of their 64-bit variants. *)
Definition write_bytes (h : heap) (m : MemoryInstance) (off : Z) (val : list Z) : out (heap * bool) :=
  let* buf := visibleBuffer m in
  if sl_len buf <? u64 (off + zlen val) then Ok (h, false)
  else let* s := slice_from buf off in Ok (copy h s val, true).

Definition write_bytes64 (h : heap) (m : MemoryInstance) (offset : Z) (val : list Z) : out (heap * bool) :=
  let* buf := visibleBuffer m in
  if rangeOutOfBounds offset (zlen val) (sl_len buf) then Ok (h, false)
  else let* s := slice_from buf offset in Ok (copy h s val, true).

Definition Write (h : heap) (m : MemoryInstance) (offset : Z) (val : list Z) : out (heap * bool) := write_bytes h m offset val.
Definition Write64 (h : heap) (m : MemoryInstance) (offset : Z) (val : list Z) : out (heap * bool) := write_bytes64 h m offset val.
Definition WriteString (h : heap) (m : MemoryInstance) (offset : Z) (val : list Z) : out (heap * bool) := write_bytes h m offset val.
Definition WriteString64 (h : heap) (m : MemoryInstance) (offset : Z) (val : list Z) : out (heap * bool) := write_bytes64 h m offset val.

(** * Growth *)

(** The instance after a growth changed these fields. *)
Definition grown (m : MemoryInstance) (size : Z) (buffer : slice) (cap nativeCap : Z) (back : option slice)
    : MemoryInstance :=
  mkMemoryInstance size buffer (Min m) cap (Max m) (Shared m) (IsMemory64 m) nativeCap (growReservePages m)
    (capHighWater m) back (expBuffer m) (poolable m) (released m).

(** The compare-and-swap loop succeeds at once unless another instance raises
    the mark in between, in which case it repeats with the higher mark. *)
Definition raiseCapHighWater (h : heap) (m : MemoryInstance) (capPages : Z) : heap :=
  match capHighWater m with
  | None => h
  | Some cell =>
      if MaxUint32 <? capPages then h
      else
        let want := u32 capPages in
        let cur := default 0 (marks h !! cell) in
        if want <=? cur then h else set_mark h cell want
  end.

(** The capacity, in pages, that a reallocating growth chooses. *)
Definition newCap (m : MemoryInstance) (newPages : Z) : Z :=
  let newCapPages :=
    if growReservePages m =? 0 then
      let geometricCapPages := u64 (Cap m * 2) in
      if newPages <? geometricCapPages then geometricCapPages else newPages
    else if u64 (Max m - newPages) <=? growReservePages m then Max m
    else u64 (newPages + growReservePages m) in
  if Max m <? newCapPages then Max m else newCapPages.

(** The reallocating branch of [Grow64]. *)
Definition grow_realloc (h : heap) (m : MemoryInstance) (newPages : Z) : out (heap * MemoryInstance) :=
  let newCapPages := newCap m newPages in
  let newLenBytes := MemoryPagesToBytesNum newPages in
  let newCapBytes := MemoryPagesToBytesNum newCapPages in
  let* '(h, newBacking) := make_bytes h newCapBytes newCapBytes in
  let* old := visibleBuffer m in
  let h := copy h newBacking (bytes_of h old) in
  let* buffer := slice_to newBacking newLenBytes in
  let m := grown m newLenBytes buffer newCapPages newCapBytes (Some newBacking) in
  Ok (raiseCapHighWater h m newCapPages, m).

(** [Grow64], with whether the engine was told ([MemoryGrown]).  The mutex of a
    shared memory is held throughout. *)
Definition Grow64 (h : heap) (m : MemoryInstance) (delta : Z) : out (heap * MemoryInstance * (Z * bool) * bool) :=
  let currentPages := Pages64 m in
  if delta =? 0 then Ok (h, m, (currentPages, true), false)
  else if (Max m <? currentPages) || (u64 (Max m - currentPages) <? delta) then Ok (h, m, (0, false), false)
  else
    let newPages := u64 (currentPages + delta) in
    let newLenBytes := MemoryPagesToBytesNum newPages in
    let* r :=
      match expBuffer m with
      | Some reallocate =>
          let '(h, r) := reallocate h newLenBytes in
          match r with
          | None => Ok (h, None)
          | Some buffer =>
              if Shared m then
                if negb ((sl_arr buffer =? sl_arr (Buffer m))%nat && (sl_off buffer =? sl_off (Buffer m))) then Panic
                else Ok (h, Some (grown m newLenBytes buffer (memoryBytesNumToPages (sl_cap buffer))
                                    (nativeGrowCap m) (backing m)))
              else Ok (h, Some (grown m newLenBytes buffer newPages (nativeGrowCap m) (backing m)))
          end
      | None =>
          if Cap m <? newPages then
            if Shared m then Panic
            else
              let* '(h, m) := grow_realloc h m newPages in
              Ok (h, Some m)
          else if Shared m then
            Ok (h, Some (grown m newLenBytes
                  (mkSlice (sl_arr (Buffer m)) (sl_off (Buffer m)) newLenBytes (sl_cap (Buffer m)))
                  (Cap m) (nativeGrowCap m) (backing m)))
          else
            let* buffer := slice_to (allocatedBuffer m) newLenBytes in
            Ok (h, Some (grown m newLenBytes buffer (Cap m) (nativeGrowCap m) (backing m)))
      end in
    match r with
    | (h, None) => Ok (h, m, (0, false), false)
    | (h, Some m) => Ok (h, m, (currentPages, true), true)
    end.

Definition Grow (h : heap) (m : MemoryInstance) (delta : Z) : out (heap * MemoryInstance * (Z * bool) * bool) :=
  let* '(h, m, (previous, ok), told) := Grow64 h m delta in
  Ok (h, m, (u32 previous, ok), told).

(** * The pool *)

(** [pick] is which of the bucket's buffers [sync.Pool.Get] returns; it may
    return nil even when the bucket is not empty. *)
Definition getPooledMemoryBuffer (noPool : bool) (pick : option nat) (h : heap) (capBytes : Z) : out (heap * option slice) :=
  if (capBytes =? 0) || noPool then Ok (h, None)
  else
    match pools h !! capBytes with
    | None => Ok (h, None)
    | Some bucket =>
        match pick ≫= (λ i, (bucket !! i) ≫= λ buf, Some (i, buf)) with
        | None => Ok (h, None)
        | Some (i, buf) =>
            let h := clear (set_pool h capBytes (delete i bucket)) buf in
            let* buf := slice_to buf (sl_cap buf) in
            Ok (h, Some buf)
        end
    end.

Definition putPooledMemoryBuffer (noPool : bool) (h : heap) (buf : slice) : heap :=
  let capBytes := sl_cap buf in
  if (capBytes =? 0) || noPool then h
  else set_pool h capBytes (buf :: default [] (pools h !! capBytes)).

(** * Construction *)

Definition NewMemoryInstance (noPool : bool) (pick : option nat) (h : heap) (memSec : Memory)
    (allocator : option (heap → Z → Z → heap * LinearMemory)) (limitPages : Z) : out (heap * MemoryInstance) :=
  let maxPages := Z.max (Z.min limitPages (sec_Max memSec)) (sec_Min memSec) in
  let minBytes := MemoryPagesToBytesNum (sec_Min memSec) in
  let capBytes := MemoryPagesToBytesNum (Z.max (Z.min (sec_Cap memSec) maxPages) (sec_Min memSec)) in
  let maxBytes := MemoryPagesToBytesNum maxPages in
  let hw := MemoryPagesToBytesNum (default 0 (marks h !! capHighWaterPages memSec)) in
  let capBytes := if capBytes <? hw then Z.min hw maxBytes else capBytes in
  let* '(h, buffer, back, exp) :=
    match allocator with
    | Some allocate =>
        let '(h, reallocate) := allocate h capBytes maxBytes in
        let '(h, r) := reallocate h minBytes in
        let buffer := default (mkSlice 0 0 0 0) r in
        let* _ := slice_to buffer minBytes in
        Ok (h, buffer, None, Some reallocate)
    | None =>
        if IsShared memSec then
          let* '(h, buffer) := make_bytes h minBytes maxBytes in
          Ok (h, buffer, None, None)
        else
          let* '(h, pooled) := getPooledMemoryBuffer noPool pick h capBytes in
          let* '(h, back) := match pooled with
                             | Some p => let* b := slice_to p capBytes in Ok (h, b)
                             | None => make_bytes h capBytes capBytes
                             end in
          let* buffer := slice_to back minBytes in
          Ok (h, buffer, Some back, None)
    end in
  let pool := match allocator with None => negb (IsShared memSec) | Some _ => false end in
  let reserve := if sec_Min memSec <? sec_Cap memSec then sec_Cap memSec - sec_Min memSec else 0 in
  let nativeCap := if pool then match back with Some b => sl_len b | None => 0 end else 0 in
  Ok (h, mkMemoryInstance minBytes buffer (sec_Min memSec) (memoryBytesNumToPages (sl_cap buffer)) maxPages
           (IsShared memSec) (sec_IsMemory64 memSec) nativeCap reserve
           (Some (capHighWaterPages memSec)) back exp pool false).

(** * Specification *)

(** The array an instance uses, and the bytes it shows. *)
Definition array_id (m : MemoryInstance) : nat := sl_arr (allocatedBuffer m).
Definition contents (h : heap) (m : MemoryInstance) : list Z :=
  take (Z.to_nat (sizeBytes m)) (default [] (arrays h !! array_id m)).

(** A live memory with a Go-allocated array: the array holds [Cap] pages, the
    first [sizeBytes] of its bytes are visible, and the others are zero.  The
    header of [Buffer] may be behind [sizeBytes], which the native engine
    raises on its own. *)
Record wf (h : heap) (m : MemoryInstance) : Prop := {
  wf_exp : expBuffer m = None;
  wf_live : released m = false;
  wf_alloc : allocatedBuffer m = mkSlice (array_id m) 0 (Cap m * MemoryPageSize) (Cap m * MemoryPageSize);
  wf_buffer : ∃ n, Buffer m = mkSlice (array_id m) 0 n (Cap m * MemoryPageSize) ∧ 0 ≤ n ≤ sizeBytes m;
  wf_size : ∃ p, sizeBytes m = p * MemoryPageSize ∧ 0 ≤ p ≤ Cap m;
  wf_max : Cap m ≤ Max m ≤ 2 ^ 32;
  wf_kind : if Shared m then Cap m = Max m ∧ backing m = None else is_Some (backing m);
  wf_reserve : 0 ≤ growReservePages m < 2 ^ 63;
  wf_native : nativeGrowCap m ≤ Cap m * MemoryPageSize;
  wf_array : ∃ a, arrays h !! array_id m = Some a ∧ zlen a = Cap m * MemoryPageSize ∧
    ∀ i, sizeBytes m ≤ i < Cap m * MemoryPageSize → a !! Z.to_nat i = Some 0;
}.

(** * Views of a live memory *)

Lemma overwrite_inserts off bytes a : overwrite off bytes a = list_inserts off bytes a.
Proof.
  unfold overwrite. apply list_eq. intros i. destruct (decide (i < length a)%nat) as [Hi|Hi].
  - destruct (decide (i < off)%nat).
    { rewrite list_lookup_inserts_lt by done. rewrite lookup_app_l by (rewrite length_take; lia). by rewrite lookup_take_lt. }
    rewrite lookup_app_r, length_take by (rewrite length_take; lia). rewrite Nat.min_l by lia.
    destruct (decide (i < off + length bytes)%nat).
    + rewrite list_lookup_inserts by lia. rewrite lookup_app_l by (rewrite length_take; lia). by rewrite lookup_take_lt by lia.
    + rewrite list_lookup_inserts_ge by lia. rewrite lookup_app_r, length_take by (rewrite length_take; lia).
      rewrite lookup_drop. f_equal. lia.
  - transitivity (@None Z); [|symmetry]; apply lookup_ge_None; [|rewrite length_inserts; lia].
    rewrite !length_app, !length_take, length_drop. lia.
Qed.

Lemma copy_inserts h s bytes :
  copy h s bytes = set_array h (sl_arr s)
    (list_inserts (Z.to_nat (sl_off s)) (take (Z.to_nat (sl_len s)) bytes) (array_of h s)).
Proof. unfold copy. by rewrite overwrite_inserts. Qed.

Lemma PagesToBytes_small p : 0 ≤ p ≤ 2 ^ 32 → MemoryPagesToBytesNum p = p * MemoryPageSize.
Proof.
  intros Hp. unfold MemoryPagesToBytesNum, MemoryPageSizeInBits, MaxUint64, MemoryPageSize.
  rewrite Z.shiftr_div_pow2, Z.shiftl_mul_pow2 by lia. change ((2 ^ 64 - 1) `div` 2 ^ 16) with (2 ^ 48 - 1).
  rewrite (proj2 (Z.ltb_ge _ _)) by lia. change (2 ^ 16) with 65536. rewrite wrap_small; lia.
Qed.

Lemma BytesToPages p : memoryBytesNumToPages (p * MemoryPageSize) = p.
Proof.
  unfold memoryBytesNumToPages, MemoryPageSizeInBits, MemoryPageSize. rewrite Z.shiftr_div_pow2 by lia.
  change (2 ^ 16) with 65536. by rewrite Z.div_mul.
Qed.

Lemma size_bounds h m : wf h m → 0 ≤ sizeBytes m ≤ Cap m * MemoryPageSize ∧ Cap m * MemoryPageSize ≤ 2 ^ 48.
Proof.
  intros Hw. destruct (wf_size _ _ Hw) as (p & -> & Hp). pose proof (wf_max _ _ Hw). unfold MemoryPageSize. lia.
Qed.

Lemma byteSize_wf h m : wf h m → byteSize m = sizeBytes m.
Proof.
  intros Hw. unfold byteSize. rewrite (wf_live _ _ Hw). destruct (wf_buffer _ _ Hw) as (n & -> & Hn). cbn.
  destruct (Z.eqb_spec (sizeBytes m) 0); [|done]. cbn. destruct (Z.eqb_spec n 0); lia.
Qed.

Lemma visibleBuffer_wf h m :
  wf h m → visibleBuffer m = Ok (mkSlice (array_id m) 0 (sizeBytes m) (Cap m * MemoryPageSize)).
Proof.
  intros Hw. pose proof (size_bounds h m Hw). unfold visibleBuffer, slice_to.
  rewrite (byteSize_wf h m Hw), (wf_alloc _ _ Hw). cbn. by rewrite (proj2 (Z.leb_le _ _)) by lia.
Qed.

Lemma contents_length h m : wf h m → zlen (contents h m) = sizeBytes m.
Proof.
  intros Hw. pose proof (size_bounds h m Hw). destruct (wf_array _ _ Hw) as (a & Ea & Hl & _).
  unfold contents. rewrite Ea. cbn. unfold zlen in *. rewrite length_take. lia.
Qed.

Lemma Pages64_wf h m p : wf h m → sizeBytes m = p * MemoryPageSize → Pages64 m = p.
Proof. intros Hw Es. unfold Pages64. by rewrite (byteSize_wf h m Hw), Es, BytesToPages. Qed.

(** The bounds check of the 64-bit accessors is the comparison it stands for. *)
Lemma rangeOutOfBounds_spec offset size limit :
  0 ≤ offset < 2 ^ 64 → 0 ≤ size < 2 ^ 64 → 0 ≤ limit < 2 ^ 64 →
  rangeOutOfBounds offset size limit = (limit <? offset + size).
Proof.
  intros Ho Hs Hl. unfold rangeOutOfBounds, Add64. destruct (Z.leb_spec (2 ^ 64) (offset + size)) as [Hc|Hc]; cbn.
  - symmetry. apply Z.ltb_lt. lia.
  - by rewrite wrap_small by lia.
Qed.

(** A part of the visible bytes. *)
Lemma bytes_of_part h m off n c :
  wf h m → 0 ≤ off → 0 ≤ n → off + n ≤ sizeBytes m →
  bytes_of h (mkSlice (array_id m) off n c) = take (Z.to_nat n) (drop (Z.to_nat off) (contents h m)).
Proof.
  intros Hw Ho Hn Hle. unfold bytes_of, array_of, contents. cbn. rewrite skipn_firstn_comm, take_take.
  f_equal. lia.
Qed.

(** What a write into the visible bytes does. *)
Lemma copy_part h m off n c bytes :
  wf h m → 0 ≤ off → zlen bytes ≤ n → off + n ≤ sizeBytes m →
  wf (copy h (mkSlice (array_id m) off n c) bytes) m ∧
  contents (copy h (mkSlice (array_id m) off n c) bytes) m = list_inserts (Z.to_nat off) bytes (contents h m).
Proof.
  intros Hw Ho Hn Hle. pose proof (size_bounds h m Hw) as Hb. destruct (wf_array _ _ Hw) as (a & Ea & Hl & Hz).
  pose proof (zlen_nonneg bytes) as Hnn.
  assert (array_id m < length (arrays h))%nat as Hlt by (by eapply lookup_lt_Some).
  assert (arrays (copy h (mkSlice (array_id m) off n c) bytes) !! array_id m = Some (list_inserts (Z.to_nat off) bytes a)) as Ea'.
  { rewrite copy_inserts. unfold array_of. cbn. rewrite Ea. cbn. rewrite list_lookup_insert_eq by done. do 2 f_equal.
    unfold zlen in *. rewrite take_ge by lia. done. }
  split.
  - destruct Hw. constructor; try done. eexists. split; [exact Ea'|]. split.
    + unfold zlen in *. by rewrite length_inserts.
    + intros i Hi. rewrite list_lookup_inserts_ge by (unfold zlen in *; lia). by apply Hz.
  - unfold contents. rewrite Ea', Ea. cbn. unfold zlen in *. apply list_eq. intros i.
    destruct (decide (i < Z.to_nat (sizeBytes m))%nat) as [Hi|Hi].
    + rewrite lookup_take_lt by done. destruct (decide (Z.to_nat off ≤ i < Z.to_nat off + length bytes)%nat) as [Hin|Hout].
      * rewrite !list_lookup_inserts by (rewrite ?length_take; lia). done.
      * destruct (decide (i < Z.to_nat off)%nat).
        -- rewrite !list_lookup_inserts_lt by done. by rewrite lookup_take_lt by done.
        -- rewrite !list_lookup_inserts_ge by lia. by rewrite lookup_take_lt by done.
    + rewrite lookup_take_ge by lia. symmetry. apply lookup_ge_None. rewrite length_inserts, length_take. lia.
Qed.

(** * Accessors *)

Section access.
Context (h : heap) (m : MemoryInstance) (Hw : wf h m).

Lemma visible_range off n :
  0 ≤ off → 0 ≤ n → off + n ≤ sizeBytes m →
  slice_range (mkSlice (array_id m) 0 (sizeBytes m) (Cap m * MemoryPageSize)) off (off + n) =
  Ok (mkSlice (array_id m) off n (Cap m * MemoryPageSize - off)).
Proof.
  intros Ho Hn Hle. pose proof (size_bounds h m Hw). unfold slice_range. cbn.
  rewrite (proj2 (Z.leb_le _ _)), (proj2 (Z.leb_le _ (_ * _))) by lia. cbn. do 2 f_equal. lia.
Qed.

Lemma get_le_part off n c :
  0 ≤ off → 0 ≤ n → off + n ≤ sizeBytes m →
  get_le h (mkSlice (array_id m) off n c) n = Ok (le_decode (take (Z.to_nat n) (drop (Z.to_nat off) (contents h m)))).
Proof.
  intros Ho Hn Hle. unfold get_le. rewrite (bytes_of_part h m) by done. pose proof (contents_length h m Hw).
  rewrite (proj2 (Z.ltb_ge _ _)); [by rewrite take_take, Nat.min_id|].
  unfold zlen in *. rewrite length_take, length_drop. lia.
Qed.

Lemma read_le_at_spec n off :
  0 ≤ n < 2 ^ 64 → 0 ≤ off < 2 ^ 64 →
  read_le_at h m n off =
  Ok (if sizeBytes m <? off + n then (0, false)
      else (le_decode (take (Z.to_nat n) (drop (Z.to_nat off) (contents h m))), true)).
Proof.
  intros Hn Ho. pose proof (size_bounds h m Hw). unfold read_le_at. rewrite (visibleBuffer_wf h m Hw). cbn [obind sl_len].
  rewrite rangeOutOfBounds_spec by lia. destruct (Z.ltb_spec (sizeBytes m) (off + n)); [done|].
  rewrite wrap_small by lia. rewrite visible_range by lia. cbn [obind]. by rewrite get_le_part by lia.
Qed.

(** The guard of a 32-bit offset needs no carry test. *)
Lemma read_le_at32 n off : 0 ≤ n ≤ 8 → 0 ≤ off < 2 ^ 32 → read_le h m n off = read_le_at h m n off.
Proof.
  intros Hn Ho. pose proof (size_bounds h m Hw). unfold read_le, read_le_at. rewrite (visibleBuffer_wf h m Hw). cbn [obind sl_len].
  rewrite rangeOutOfBounds_spec by lia. by rewrite (wrap_small 64) by lia.
Qed.

Lemma write_le_at_spec n off v :
  0 ≤ n < 2 ^ 64 → 0 ≤ off < 2 ^ 64 →
  (sizeBytes m < off + n → write_le_at h m n off v = Ok (h, false)) ∧
  (off + n ≤ sizeBytes m → ∃ h', write_le_at h m n off v = Ok (h', true) ∧ wf h' m ∧
     contents h' m = list_inserts (Z.to_nat off) (le_encode (Z.to_nat n) v) (contents h m)).
Proof.
  intros Hn Ho. pose proof (size_bounds h m Hw). unfold write_le_at. rewrite (visibleBuffer_wf h m Hw). cbn [obind sl_len].
  rewrite rangeOutOfBounds_spec by lia. destruct (Z.ltb_spec (sizeBytes m) (off + n)); (split; intros ?; [|try lia]); try done; try lia.
  rewrite wrap_small by lia. rewrite visible_range by lia. cbn [obind]. unfold put_le. cbn [sl_len]. rewrite Z.ltb_irrefl. cbn [obind].
  eexists. split; [done|]. apply copy_part; try done; [lia|]. rewrite zlen_le_encode. lia.
Qed.

Lemma write_le_at32 n off v : 0 ≤ n ≤ 8 → 0 ≤ off < 2 ^ 32 → write_le h m n off v = write_le_at h m n off v.
Proof.
  intros Hn Ho. pose proof (size_bounds h m Hw). unfold write_le, write_le_at. rewrite (visibleBuffer_wf h m Hw). cbn [obind sl_len].
  rewrite rangeOutOfBounds_spec by lia. by rewrite (wrap_small 64) by lia.
Qed.

Lemma ReadByteAt_spec off : 0 ≤ off < 2 ^ 64 → ReadByteAt h m off = read_le_at h m 1 off.
Proof.
  intros Ho. rewrite read_le_at_spec by lia. pose proof (contents_length h m Hw) as Hl. unfold ReadByteAt.
  rewrite (visibleBuffer_wf h m Hw). cbn [obind sl_len].
  destruct (Z.leb_spec (sizeBytes m) off), (Z.ltb_spec (sizeBytes m) (off + 1)); try lia; [done|].
  unfold index. rewrite (bytes_of_part h m) by (done || lia).
  rewrite drop_0, take_ge by (unfold zlen in *; lia).
  destruct (contents h m !! Z.to_nat off) as [b|] eqn:Eb.
  - cbn [obind]. rewrite (drop_S _ b) by done. change (Z.to_nat 1) with 1%nat. rewrite firstn_cons, take_0.
    cbn [le_decode]. rewrite Z.mul_0_r, Z.add_0_r. done.
  - apply lookup_ge_None in Eb. unfold zlen in *. lia.
Qed.

Lemma WriteByteAt_spec off v :
  0 ≤ off < 2 ^ 64 → 0 ≤ v < 256 → WriteByteAt h m off v = write_le_at h m 1 off v.
Proof.
  intros Ho Hv. pose proof (size_bounds h m Hw). unfold WriteByteAt, write_le_at. rewrite (visibleBuffer_wf h m Hw). cbn [obind sl_len].
  rewrite rangeOutOfBounds_spec by lia.
  destruct (Z.leb_spec (sizeBytes m) off), (Z.ltb_spec (sizeBytes m) (off + 1)); try lia; [done|].
  rewrite wrap_small by lia. rewrite visible_range by lia. cbn [obind]. unfold put_le, set_index. cbn [sl_len sl_off].
  rewrite (proj2 (Z.ltb_lt off _)) by lia. cbn [obind Z.ltb Z.compare Pos.compare Pos.compare_cont]. do 2 f_equal.
  rewrite copy_inserts. cbn [sl_off sl_arr sl_len]. change (Z.to_nat 1) with 1%nat. cbn [le_encode take firstn list_inserts].
  rewrite Z.mod_small by lia. done.
Qed.
End access.

(** Each pair of a write and a read of the same width, with the width of its
    offsets in bits. *)
Definition accessors : list (Z * Z * (heap → MemoryInstance → Z → Z → out (heap * bool)) *
                            (heap → MemoryInstance → Z → out (Z * bool))) :=
  [ (32, 1, WriteByte, ReadByte); (64, 1, WriteByteAt, ReadByteAt);
    (32, 2, WriteUint16Le, ReadUint16Le); (64, 2, WriteUint16LeAt, ReadUint16LeAt);
    (32, 4, WriteUint32Le, ReadUint32Le); (64, 4, WriteUint32LeAt, ReadUint32LeAt);
    (32, 8, WriteUint64Le, ReadUint64Le); (64, 8, WriteUint64LeAt, ReadUint64LeAt);
    (32, 4, WriteFloat32Le, ReadFloat32Le); (32, 8, WriteFloat64Le, ReadFloat64Le) ].

Lemma read_float h m n off :
  wf h m → 0 ≤ n ≤ 8 → 0 ≤ off < 2 ^ 32 →
  (let* r := read_le h m n off in let '(v, ok) := r in if negb ok then Ok (0, false) else Ok (v, true)) = read_le_at h m n off.
Proof.
  intros Hw Hn Ho. rewrite (read_le_at32 h m Hw) by done. rewrite (read_le_at_spec h m Hw) by lia. cbn [obind].
  by destruct (sizeBytes m <? off + n).
Qed.

(** All of them are the 64-bit little-endian accesses of their width. *)
Lemma accessors_le bits n w r :
  (bits, n, w, r) ∈ accessors → (n = 1 ∨ n = 2 ∨ n = 4 ∨ n = 8) ∧ (bits = 32 ∨ bits = 64) ∧
  ∀ h m off v, wf h m → 0 ≤ off < 2 ^ bits → 0 ≤ v < 2 ^ (8 * n) →
    w h m off v = write_le_at h m n off v ∧ r h m off = read_le_at h m n off.
Proof.
  unfold accessors. rewrite !elem_of_cons, elem_of_nil. intros Hin.
  repeat destruct Hin as [Hin|Hin]; try done; injection Hin as -> -> -> ->; (split; [lia|]); (split; [lia|]);
    intros h m off v Hw Ho Hv; change (2 ^ (8 * 1)) with 256 in *; split;
    first [ by apply WriteByteAt_spec; try done; lia | by apply ReadByteAt_spec; try done; lia
          | by apply write_le_at32; try done; lia | by apply read_le_at32; try done; lia
          | by apply read_float; try done; lia | done ].
Qed.

Lemma inserts_part (l bs : list Z) off :
  (off + length bs ≤ length l)%nat → take (length bs) (drop off (list_inserts off bs l)) = bs.
Proof.
  intros Hle. apply list_eq. intros i. destruct (decide (i < length bs)%nat) as [Hi|Hi].
  - rewrite lookup_take_lt, lookup_drop by done. rewrite list_lookup_inserts by lia. f_equal. lia.
  - rewrite lookup_take_ge by lia. symmetry. apply lookup_ge_None. lia.
Qed.

(** C9. Every fixed-width access through the API is bounds-checked exactly and is
    little-endian: within the memory a write changes its own bytes only and the
    matching read returns the value; beyond it both report failure and nothing
    changes.  Offsets of both widths are covered, up to the end of the 64-bit
    range, and no access panics. *)
Theorem memory_access_correct bits n w r h m off v :
  (bits, n, w, r) ∈ accessors → wf h m → 0 ≤ off < 2 ^ bits → 0 ≤ v < 2 ^ (8 * n) →
  if off + n <=? sizeBytes m then
    ∃ h', w h m off v = Ok (h', true) ∧ wf h' m ∧ r h' m off = Ok (v, true) ∧
      contents h' m = list_inserts (Z.to_nat off) (le_encode (Z.to_nat n) v) (contents h m)
  else w h m off v = Ok (h, false) ∧ r h m off = Ok (0, false).
Proof.
  intros Hin Hw Ho Hv. destruct (accessors_le bits n w r Hin) as (Hn & Hb & Hacc).
  assert (2 ^ bits ≤ 2 ^ 64) by (destruct Hb as [-> | ->]; lia).
  destruct (Hacc h m off v Hw Ho Hv) as [-> ->]. pose proof (contents_length h m Hw) as Hlen.
  destruct (write_le_at_spec h m Hw n off v ltac:(lia) ltac:(lia)) as [Hfail Hok].
  destruct (Z.leb_spec (off + n) (sizeBytes m)) as [Hle|Hgt].
  - destruct (Hok Hle) as (h' & Ew & Hw' & Ec). exists h'. split; [done|]. split; [done|]. split; [|done].
    destruct (Hacc h' m off v Hw' Ho Hv) as [_ ->]. rewrite (read_le_at_spec h' m Hw') by lia.
    rewrite (proj2 (Z.ltb_ge _ _)) by lia. do 2 f_equal. rewrite Ec.
    assert (Z.to_nat n = length (le_encode (Z.to_nat n) v)) as El.
    { pose proof (zlen_le_encode (Z.to_nat n) v). unfold zlen in *. lia. }
    rewrite El at 1. rewrite inserts_part by (unfold zlen in *; lia).
    rewrite le_decode_encode. apply Z.mod_small. by rewrite Z2Nat.id by lia.
  - split; [by apply Hfail|]. rewrite (read_le_at_spec h m Hw) by lia. by rewrite (proj2 (Z.ltb_lt _ _)) by lia.
Qed.

(** * Byte ranges *)

Lemma Write64_spec h m off val :
  wf h m → 0 ≤ off < 2 ^ 64 → zlen val < 2 ^ 64 →
  (sizeBytes m < off + zlen val → Write64 h m off val = Ok (h, false)) ∧
  (off + zlen val ≤ sizeBytes m → ∃ h', Write64 h m off val = Ok (h', true) ∧ wf h' m ∧
     contents h' m = list_inserts (Z.to_nat off) val (contents h m)).
Proof.
  intros Hw Ho Hn. pose proof (size_bounds h m Hw). pose proof (zlen_nonneg val).
  unfold Write64, write_bytes64. rewrite (visibleBuffer_wf h m Hw). cbn [obind sl_len].
  rewrite rangeOutOfBounds_spec by lia.
  destruct (Z.ltb_spec (sizeBytes m) (off + zlen val)); (split; intros ?; [|try lia]); try done; try lia.
  unfold slice_from. cbn [sl_len sl_arr sl_off sl_cap]. rewrite (proj2 (Z.leb_le _ _)) by lia. cbn [obind].
  eexists. split; [done|]. apply copy_part; try done; lia.
Qed.

Lemma Write_Write64 h m off val :
  wf h m → 0 ≤ off < 2 ^ 32 → zlen val < 2 ^ 63 →
  Write h m off val = Write64 h m off val ∧ WriteString h m off val = Write64 h m off val ∧
  WriteString64 h m off val = Write64 h m off val.
Proof.
  intros Hw Ho Hn. pose proof (size_bounds h m Hw). pose proof (zlen_nonneg val).
  unfold Write, WriteString, WriteString64, Write64, write_bytes, write_bytes64. rewrite (visibleBuffer_wf h m Hw). cbn [obind sl_len].
  rewrite rangeOutOfBounds_spec by lia. by rewrite (wrap_small 64) by lia.
Qed.

Lemma Read64_spec h m off n :
  wf h m → 0 ≤ off < 2 ^ 64 → 0 ≤ n < 2 ^ 64 →
  Read64 m off n = Ok (if sizeBytes m <? off + n then None else Some (mkSlice (array_id m) off n n)).
Proof.
  intros Hw Ho Hn. pose proof (size_bounds h m Hw). unfold Read64. rewrite (visibleBuffer_wf h m Hw). cbn [obind sl_len].
  rewrite rangeOutOfBounds_spec by lia. destruct (Z.ltb_spec (sizeBytes m) (off + n)); [done|].
  rewrite wrap_small by lia. unfold slice_full. cbn. rewrite (proj2 (Z.leb_le _ _)), (proj2 (Z.leb_le _ (_ * _))) by lia.
  cbn. do 3 f_equal; lia.
Qed.

Lemma Read_Read64 h m off n :
  wf h m → 0 ≤ off < 2 ^ 32 → 0 ≤ n < 2 ^ 32 → Read m off n = Read64 m off n.
Proof.
  intros Hw Ho Hn. pose proof (size_bounds h m Hw). unfold Read, Read64. rewrite (visibleBuffer_wf h m Hw). cbn [obind sl_len].
  rewrite rangeOutOfBounds_spec by lia. by rewrite (wrap_small 64) by lia.
Qed.

(** Byte ranges: a write within the memory succeeds, changes exactly its
    range and is read back; one that reaches past the end, even by an offset
    whose sum with the length leaves 64 bits, fails and changes nothing.  The
    32-bit and the string variants are the same function. *)
Theorem memory_range_correct h m off val :
  wf h m → 0 ≤ off < 2 ^ 64 → zlen val < 2 ^ 63 →
  (if off + zlen val <=? sizeBytes m then
     ∃ h' s, Write64 h m off val = Ok (h', true) ∧ wf h' m ∧
       contents h' m = list_inserts (Z.to_nat off) val (contents h m) ∧
       Read64 m off (zlen val) = Ok (Some s) ∧ bytes_of h' s = val
   else Write64 h m off val = Ok (h, false) ∧ Read64 m off (zlen val) = Ok None) ∧
  (off < 2 ^ 32 →
     Write h m off val = Write64 h m off val ∧ WriteString h m off val = Write64 h m off val ∧
     (zlen val < 2 ^ 32 → Read m off (zlen val) = Read64 m off (zlen val))).
Proof.
  intros Hw Ho Hn. pose proof (zlen_nonneg val). pose proof (contents_length h m Hw) as Hlen. split.
  - destruct (Write64_spec h m off val Hw Ho ltac:(lia)) as [Hfail Hok].
    rewrite (Read64_spec h m) by (done || lia).
    destruct (Z.leb_spec (off + zlen val) (sizeBytes m)) as [Hle|Hgt].
    + destruct (Hok Hle) as (h' & Ew & Hw' & Ec). rewrite (proj2 (Z.ltb_ge _ _)) by lia.
      exists h', (mkSlice (array_id m) off (zlen val) (zlen val)). do 3 (split; [done|]). split; [done|].
      rewrite (bytes_of_part h' m) by (done || lia). rewrite Ec.
      replace (Z.to_nat (zlen val)) with (length val) by (unfold zlen; lia). apply inserts_part. unfold zlen in *. lia.
    + split; [by apply Hfail|]. by rewrite (proj2 (Z.ltb_lt _ _)) by lia.
  - intros Ho32. destruct (Write_Write64 h m off val Hw ltac:(lia) Hn) as (-> & -> & _).
    split; [done|]. split; [done|]. intros ?. apply (Read_Read64 h); done || lia.
Qed.

(** * Growth *)

(** The capacity a reallocation chooses is enough and within the maximum. *)
Lemma newCap_bounds h m newPages :
  wf h m → Cap m < newPages ≤ Max m → newPages ≤ newCap m newPages ≤ Max m.
Proof.
  intros Hw Hn. pose proof (wf_max _ _ Hw). pose proof (wf_reserve _ _ Hw).
  destruct (wf_size _ _ Hw) as (p & _ & Hp). unfold newCap.
  rewrite (wrap_small 64 (Cap m * 2)), (wrap_small 64 (Max m - newPages)), (wrap_small 64 (newPages + _)) by lia.
  destruct (Z.eqb_spec (growReservePages m) 0); [|destruct (Z.leb_spec (Max m - newPages) (growReservePages m))];
    repeat match goal with |- context [?a <? ?b] => destruct (Z.ltb_spec a b) end; lia.
Qed.

(** A growth stays in the memory's array or moves to a new one; the pool and the
    other arrays are as they were. *)
Definition regrown (h : heap) (m : MemoryInstance) (h' : heap) (m' : MemoryInstance) : Prop :=
  Shared m' = Shared m ∧ poolable m' = poolable m ∧ pools h' = pools h ∧ arrays h `prefix_of` arrays h' ∧
  (array_id m' = array_id m ∨ array_id m' = length (arrays h)).

(** Growing within the array: only the size changes. *)
Lemma grow_in_place h m np :
  wf h m → sizeBytes m ≤ np * MemoryPageSize → np ≤ Cap m →
  let m' := grown m (np * MemoryPageSize) (mkSlice (array_id m) 0 (np * MemoryPageSize) (Cap m * MemoryPageSize))
              (Cap m) (nativeGrowCap m) (backing m) in
  wf h m' ∧ contents h m' = contents h m ++ replicate (Z.to_nat (np * MemoryPageSize - sizeBytes m)) 0 ∧
  regrown h m h m'.
Proof.
  intros Hw Hs Hc m'. pose proof (size_bounds h m Hw) as Hb. destruct (wf_buffer _ _ Hw) as (n & Eb & Hn).
  assert (allocatedBuffer m' = allocatedBuffer m) as Ealloc.
  { unfold allocatedBuffer, m'. cbn. rewrite Eb. by destruct (backing m). }
  assert (array_id m' = array_id m) as Eid by (unfold array_id; by rewrite Ealloc).
  destruct (wf_array _ _ Hw) as (a & Ea & Hl & Hz). split; [|split; [|by repeat (split; [done|]); left]].
  - destruct Hw. constructor; rewrite ?Eid, ?Ealloc; try done.
    + exists (np * MemoryPageSize). cbn. split; [done|lia].
    + exists np. cbn. split; [done|]. unfold MemoryPageSize in *. lia.
    + exists a. split; [done|]. split; [done|]. cbn. intros i Hi. apply Hz. lia.
  - unfold contents. rewrite Eid, Ea. cbn. apply list_eq. intros i. unfold zlen in *.
    destruct (decide (i < Z.to_nat (sizeBytes m))%nat) as [Hi|Hi].
    + rewrite lookup_app_l by (rewrite length_take; lia). by rewrite !lookup_take_lt by lia.
    + rewrite lookup_app_r, length_take by (rewrite length_take; lia). rewrite Nat.min_l by lia.
      destruct (decide (i < Z.to_nat (np * MemoryPageSize))%nat) as [Hi2|Hi2].
      * rewrite lookup_take_lt by done. rewrite lookup_replicate_2 by lia.
        rewrite <- (Nat2Z.id i). apply Hz. unfold MemoryPageSize in *. lia.
      * rewrite lookup_take_ge by lia. symmetry. apply lookup_ge_None. rewrite length_replicate. lia.
Qed.

(** Raising the mark changes only marks. *)
Lemma raise_arrays h m c : arrays (raiseCapHighWater h m c) = arrays h ∧ pools (raiseCapHighWater h m c) = pools h.
Proof. unfold raiseCapHighWater. repeat case_match; done. Qed.

(** Growing into a fresh array of [c] pages. *)
Lemma grow_moved h h' m np c :
  wf h m → Shared m = false → sizeBytes m ≤ np * MemoryPageSize → np ≤ c ≤ Max m →
  let id := length (arrays h) in
  let back := mkSlice id 0 (c * MemoryPageSize) (c * MemoryPageSize) in
  let m' := grown m (np * MemoryPageSize) (mkSlice id 0 (np * MemoryPageSize) (c * MemoryPageSize))
              c (c * MemoryPageSize) (Some back) in
  arrays h' = arrays h ++ [list_inserts 0 (contents h m) (replicate (Z.to_nat (c * MemoryPageSize)) 0)] →
  wf h' m' ∧ contents h' m' = contents h m ++ replicate (Z.to_nat (np * MemoryPageSize - sizeBytes m)) 0.
Proof.
  intros Hw Hns Hs Hc id back m' Eh. pose proof (size_bounds h m Hw) as Hb. pose proof (contents_length h m Hw) as Hl.
  set (a := list_inserts 0 (contents h m) (replicate (Z.to_nat (c * MemoryPageSize)) 0)) in *.
  assert (length a = Z.to_nat (c * MemoryPageSize)) as Hla by (unfold a; by rewrite length_inserts, length_replicate).
  assert (arrays h' !! id = Some a) as Ea by (rewrite Eh, lookup_app_r by lia; by rewrite Nat.sub_diag).
  assert (∀ i, sizeBytes m ≤ i < c * MemoryPageSize → a !! Z.to_nat i = Some 0) as Hz.
  { intros i Hi. unfold a. rewrite list_lookup_inserts_ge by (unfold zlen in *; lia). apply lookup_replicate_2. lia. }
  pose proof (wf_max _ _ Hw). assert (0 ≤ c * MemoryPageSize ∧ np * MemoryPageSize ≤ c * MemoryPageSize) as [? ?]
    by (unfold MemoryPageSize in *; lia). split.
  - pose proof (wf_exp _ _ Hw). pose proof (wf_live _ _ Hw). pose proof (wf_reserve _ _ Hw).
    constructor; try done; cbn [m' grown].
    + exists (np * MemoryPageSize). cbn. split; [done|lia].
    + exists np. split; [done|]. cbn. unfold MemoryPageSize in *. lia.
    + cbn. lia.
    + cbn. rewrite Hns. by eexists.
    + exists a. cbn. split; [exact Ea|]. split; [unfold zlen; lia|]. intros i Hi. apply Hz. lia.
  - unfold contents at 1. change (array_id m') with id. rewrite Ea. cbn. apply list_eq. intros i. unfold zlen in *.
    destruct (decide (i < Z.to_nat (sizeBytes m))%nat) as [Hi|Hi].
    + rewrite lookup_app_l by lia. rewrite lookup_take_lt by lia. unfold a.
      rewrite list_lookup_inserts by (rewrite ?length_replicate; lia). f_equal. apply Nat.sub_0_r.
    + rewrite lookup_app_r by lia.
      destruct (decide (i < Z.to_nat (np * MemoryPageSize))%nat) as [Hi2|Hi2].
      * rewrite lookup_take_lt by done. rewrite lookup_replicate_2 by lia. rewrite <- (Nat2Z.id i). apply Hz.
        unfold MemoryPageSize in *. lia.
      * rewrite lookup_take_ge by lia. symmetry. apply lookup_ge_None. rewrite length_replicate. lia.
Qed.

(** The reallocating branch. *)
Lemma Grow64_moves h m np :
  wf h m → Shared m = false → Cap m < np ≤ Max m →
  ∃ h' m', grow_realloc h m np = Ok (h', m') ∧
  wf h' m' ∧ Max m' = Max m ∧ sizeBytes m' = np * MemoryPageSize ∧
  contents h' m' = contents h m ++ replicate (Z.to_nat (np * MemoryPageSize - sizeBytes m)) 0 ∧
  regrown h m h' m'.
Proof.
  intros Hw Hns Hnp. pose proof (newCap_bounds h m np Hw Hnp) as Hc. pose proof (wf_max _ _ Hw).
  pose proof (size_bounds h m Hw) as Hb. destruct (wf_size _ _ Hw) as (p & Es & Hp).
  unfold grow_realloc. set (c := newCap m np) in *. cbn zeta. rewrite (PagesToBytes_small c), (PagesToBytes_small np) by lia.
  unfold make_bytes.
  rewrite (proj2 (Z.ltb_ge _ _)) by (unfold maxAlloc, MemoryPageSize; lia). cbn [obind].
  rewrite (visibleBuffer_wf h m Hw). cbn [obind]. unfold slice_to. cbn [sl_cap sl_arr sl_off].
  rewrite (proj2 (Z.leb_le (np * _) _)) by (unfold MemoryPageSize; lia). cbn [obind].
  set (h1 := mkHeap (arrays h ++ [replicate (Z.to_nat (c * MemoryPageSize)) 0]) (marks h) (pools h)).
  assert (bytes_of h1 (mkSlice (array_id m) 0 (sizeBytes m) (Cap m * MemoryPageSize)) = contents h m) as Ebytes.
  { destruct (wf_array _ _ Hw) as (a & Ea & _). unfold bytes_of, array_of, contents. cbn [sl_arr sl_len sl_off arrays h1].
    rewrite lookup_app_l by (by eapply lookup_lt_Some). by rewrite Ea. }
  rewrite Ebytes. eexists _, _. split; [done|].
  match goal with |- context [raiseCapHighWater ?hh ?mm ?cc] => destruct (raise_arrays hh mm cc) as [Ea Ep] end.
  rewrite copy_inserts in Ea at 2. cbn [arrays set_array sl_arr h1 array_of sl_len sl_off] in Ea.
  assert (arrays h `prefix_of` arrays h ++ [list_inserts 0 (contents h m) (replicate (Z.to_nat (c * MemoryPageSize)) 0)])
    as Hpre by (by eexists).
  assert (∀ x, <[length (arrays h) := x]> (arrays h ++ [replicate (Z.to_nat (c * MemoryPageSize)) 0]) = arrays h ++ [x]) as Eins.
  { intros x. rewrite insert_app_r_alt by lia. by rewrite Nat.sub_diag. }
  rewrite Eins in Ea. unfold array_of in Ea. cbn [arrays h1 sl_arr] in Ea. rewrite lookup_app_r in Ea by lia.
  rewrite Nat.sub_diag in Ea. cbn [lookup list_lookup default from_option id] in Ea.
  rewrite take_ge in Ea by (pose proof (contents_length h m Hw); unfold zlen, MemoryPageSize in *; lia).
  change (Z.to_nat 0) with 0%nat in Ea. match type of Ea with arrays ?hh = _ =>
    destruct (grow_moved h hh m np c Hw Hns) as [Hwf Hcont]; [unfold MemoryPageSize in *; lia|lia|exact Ea|] end.
  split; [exact Hwf|]. split; [done|]. split; [done|]. split; [exact Hcont|].
  split; [done|]. split; [done|]. split; [by rewrite Ep|]. split; [by rewrite Ea|by right].
Qed.

(** Every branch of [Grow64] on a live memory. *)
Lemma Grow64_spec h m delta p :
  wf h m → sizeBytes m = p * MemoryPageSize → 0 ≤ delta < 2 ^ 64 →
  if delta =? 0 then Grow64 h m delta = Ok (h, m, (p, true), false)
  else if p + delta <=? Max m then
    ∃ h' m', Grow64 h m delta = Ok (h', m', (p, true), true) ∧
      wf h' m' ∧ Max m' = Max m ∧ sizeBytes m' = (p + delta) * MemoryPageSize ∧
      contents h' m' = contents h m ++ replicate (Z.to_nat (delta * MemoryPageSize)) 0 ∧
      regrown h m h' m'
  else Grow64 h m delta = Ok (h, m, (0, false), false).
Proof.
  intros Hw Es Hd. unfold Grow64. rewrite (Pages64_wf h m p Hw Es). destruct (Z.eqb_spec delta 0); [done|].
  pose proof (wf_max _ _ Hw) as Hm. destruct (wf_size _ _ Hw) as (p' & Es' & Hp).
  assert (p' = p) as -> by (rewrite Es in Es'; unfold MemoryPageSize in Es'; lia).
  rewrite (proj2 (Z.ltb_ge (Max m) p)), (wrap_small 64 (Max m - p)) by lia. cbn [orb].
  destruct (Z.ltb_spec (Max m - p) delta), (Z.leb_spec (p + delta) (Max m)); try lia; [done|].
  rewrite wrap_small, PagesToBytes_small by lia. rewrite (wf_exp _ _ Hw). set (np := p + delta) in *.
  replace (Z.to_nat (delta * MemoryPageSize)) with (Z.to_nat (np * MemoryPageSize - sizeBytes m))
    by (unfold np; rewrite Es; f_equal; lia).
  assert (sizeBytes m ≤ np * MemoryPageSize) by (rewrite Es; unfold MemoryPageSize, np; lia).
  pose proof (wf_kind _ _ Hw) as Hk. destruct (Z.ltb_spec (Cap m) np).
  - destruct (Shared m) eqn:Esh; [lia|].
    destruct (Grow64_moves h m np Hw Esh) as (h' & m' & -> & Hr); [lia|]. cbn [obind]. exists h', m'. by split.
  - destruct (grow_in_place h m np Hw) as (Hwf & Hcont & Hre); [done|done|].
    destruct (wf_buffer _ _ Hw) as (n' & Eb & _).
    destruct (Shared m).
    + rewrite Eb. cbn [obind sl_arr sl_off sl_cap]. eexists _, _. do 5 (split; [done|]). exact Hre.
    + rewrite (wf_alloc _ _ Hw). unfold slice_to. cbn [sl_cap sl_arr sl_off].
      rewrite (proj2 (Z.leb_le _ _)) by (unfold MemoryPageSize; lia). cbn [obind].
      eexists _, _. do 5 (split; [done|]). exact Hre.
Qed.

(** What a custom allocator's answer makes of a growth to [np] pages: nil
    refuses it, a shared memory may not move, anything else is the memory's new
    buffer. *)
Definition hosted_growth (reallocate : LinearMemory) (h : heap) (m : MemoryInstance) (p np : Z)
    (r : out (heap * MemoryInstance * (Z * bool) * bool)) : Prop :=
  match reallocate h (np * MemoryPageSize) with
  | (h', None) => r = Ok (h', m, (0, false), false)
  | (h', Some b) =>
      if Shared m && negb ((sl_arr b =? sl_arr (Buffer m))%nat && (sl_off b =? sl_off (Buffer m))) then r = Panic
      else ∃ m', r = Ok (h', m', (p, true), true) ∧
        Buffer m' = b ∧ sizeBytes m' = np * MemoryPageSize ∧ Max m' = Max m ∧ expBuffer m' = expBuffer m ∧
        Cap m' = (if Shared m then memoryBytesNumToPages (sl_cap b) else np) ∧ released m' = released m ∧
        backing m' = backing m
  end.

(** The allocator branch of [Grow64]. *)
Lemma Grow64_hosted h m reallocate delta p :
  expBuffer m = Some reallocate → byteSize m = p * MemoryPageSize → 0 ≤ p → 0 < delta → p + delta ≤ Max m ≤ 2 ^ 32 →
  hosted_growth reallocate h m p (p + delta) (Grow64 h m delta).
Proof.
  intros Ee Es Hp Hd Hle. unfold Grow64, Pages64. rewrite Es, BytesToPages, Ee.
  rewrite (proj2 (Z.eqb_neq delta 0)), (proj2 (Z.ltb_ge (Max m) p)), (wrap_small 64 (Max m - p)) by lia. cbn [orb].
  rewrite (proj2 (Z.ltb_ge _ delta)), wrap_small, PagesToBytes_small by lia. unfold hosted_growth.
  destruct (reallocate h _) as [h' [b|]]; [|done]. destruct (Shared m); cbn [andb].
  - destruct (negb _); [done|]. by eexists.
  - by eexists.
Qed.

(** C8. Growth of a memory in use whose maximum is at most 2^32 pages, the
    largest array Go makes.  A growth by nothing returns the size; one past
    the maximum, however large, fails and changes nothing.  One within it, of a
    memory Go allocated, succeeds and never panics: it returns the previous
    size in pages, keeps every visible byte, shows zeros after them, tells the
    engine, leaves the memory well formed and touches no other array.  With a
    custom allocator the allocator decides: nil fails the growth, a shared
    memory that moved panics, any other buffer becomes the memory's. *)
Theorem Grow64_correct h m delta p :
  byteSize m = p * MemoryPageSize → 0 ≤ p ≤ Max m → Max m ≤ 2 ^ 32 → 0 ≤ delta < 2 ^ 64 →
  (expBuffer m = None → wf h m) →
  if delta =? 0 then Grow64 h m delta = Ok (h, m, (p, true), false)
  else if Max m <? p + delta then Grow64 h m delta = Ok (h, m, (0, false), false)
  else
    match expBuffer m with
    | Some reallocate => hosted_growth reallocate h m p (p + delta) (Grow64 h m delta)
    | None =>
        ∃ h' m', Grow64 h m delta = Ok (h', m', (p, true), true) ∧
          wf h' m' ∧ Max m' = Max m ∧ sizeBytes m' = (p + delta) * MemoryPageSize ∧
          contents h' m' = contents h m ++ replicate (Z.to_nat (delta * MemoryPageSize)) 0 ∧
          regrown h m h' m'
    end.
Proof.
  intros Es Hp Hmax Hd Hw.
  assert (delta ≠ 0 → Max m < p + delta → Grow64 h m delta = Ok (h, m, (0, false), false)) as Hno.
  { intros Hnz Hgt. unfold Grow64, Pages64. rewrite Es, BytesToPages, (proj2 (Z.eqb_neq _ _) Hnz).
    rewrite (wrap_small 64 (Max m - p)) by lia. by rewrite (proj2 (Z.ltb_lt _ delta)), orb_true_r by lia. }
  destruct (Z.eqb_spec delta 0) as [->|Hnz].
  { unfold Grow64, Pages64. by rewrite Es, BytesToPages. }
  destruct (Z.ltb_spec (Max m) (p + delta)) as [Hgt|Hle]; [by apply Hno|].
  destruct (expBuffer m) as [reallocate|] eqn:Ee; [apply Grow64_hosted; done || lia|].
  specialize (Hw eq_refl). rewrite (byteSize_wf _ _ Hw) in Es.
  pose proof (Grow64_spec h m delta p Hw Es Hd) as H.
  by rewrite (proj2 (Z.eqb_neq _ _) Hnz), (proj2 (Z.leb_le _ _) Hle) in H.
Qed.

(** * The pool *)

(** A pooled buffer is the whole of an array whose bytes past the buffer's
    length are zero. *)
Definition pool_entry_ok (h : heap) (c : Z) (s : slice) : Prop :=
  sl_off s = 0 ∧ sl_cap s = c ∧ 0 ≤ sl_len s ≤ c ∧
  ∃ a, arrays h !! sl_arr s = Some a ∧ zlen a = c ∧ ∀ i, sl_len s ≤ i < c → a !! Z.to_nat i = Some 0.

Definition pool_ok (h : heap) : Prop :=
  ∀ c bucket s, pools h !! c = Some bucket → s ∈ bucket → pool_entry_ok h c s.

(** Where an array came from: it is new, or it was taken out of the pool; the
    other arrays and the rest of the pool are as they were. *)
Definition acquired (h h' : heap) (id : nat) : Prop :=
  marks h' = marks h ∧ (∀ j, j ≠ id → (j < length (arrays h))%nat → arrays h' !! j = arrays h !! j) ∧
  ((id = length (arrays h) ∧ length (arrays h') = S (length (arrays h)) ∧ pools h' = pools h) ∨
   (length (arrays h') = length (arrays h) ∧
    ∃ c bucket i s, pools h !! c = Some bucket ∧ bucket !! i = Some s ∧ sl_arr s = id ∧
      pools h' = <[c := delete i bucket]> (pools h))).

Lemma make_zero h len c :
  c ≤ maxAlloc →
  ∃ h' id, make_bytes h len c = Ok (h', mkSlice id 0 len c) ∧
    arrays h' !! id = Some (replicate (Z.to_nat c) 0) ∧ acquired h h' id.
Proof.
  intros Hc. unfold make_bytes. rewrite (proj2 (Z.ltb_ge _ _)) by done. eexists _, _. split; [done|]. cbn. split.
  - rewrite lookup_app_r by lia. by rewrite Nat.sub_diag.
  - split; [done|]. split; [|left; split_and!; [done|cbn; rewrite length_app; cbn; lia|done]].
    intros j _ Hj. cbn. by rewrite lookup_app_l.
Qed.

(** A buffer taken from the pool is zero from end to end. *)
Lemma getPooled_zero noPool pick h c h' r :
  pool_ok h → getPooledMemoryBuffer noPool pick h c = Ok (h', r) →
  match r with
  | None => h' = h
  | Some s => ∃ id, s = mkSlice id 0 c c ∧ arrays h' !! id = Some (replicate (Z.to_nat c) 0) ∧ acquired h h' id
  end.
Proof.
  intros Hp. unfold getPooledMemoryBuffer. destruct ((c =? 0) || noPool); [by intros [= <- <-]|].
  destruct (pools h !! c) as [bucket|] eqn:Ep; [|by intros [= <- <-]].
  destruct pick as [i|]; cbn [mbind option_bind]; [|by intros [= <- <-]].
  destruct (bucket !! i) as [s|] eqn:Ei; cbn [mbind option_bind]; [|by intros [= <- <-]].
  destruct (Hp c bucket s Ep) as (Ho & Hc & Hl & a & Ea & Hla & Hz); [by eapply list_elem_of_lookup_2|].
  unfold slice_to. rewrite Z.leb_refl. cbn [obind]. intros [= <- <-].
  assert (sl_arr s < length (arrays h))%nat as Hlt by (by eapply lookup_lt_Some).
  exists (sl_arr s). rewrite Ho, Hc. split; [done|]. unfold clear. rewrite copy_inserts. unfold array_of. cbn [arrays set_array set_pool]. split.
  - rewrite list_lookup_insert_eq by done. rewrite Ea. cbn [default from_option id]. unfold id. f_equal. rewrite Ho.
    rewrite take_ge by (rewrite length_replicate; lia). apply list_eq. intros j. unfold zlen in *.
    destruct (decide (j < Z.to_nat c)%nat) as [Hj|Hj].
    + rewrite (lookup_replicate_2 (Z.to_nat c)) by done. destruct (decide (j < Z.to_nat (sl_len s))%nat).
      * rewrite list_lookup_inserts by (rewrite ?length_replicate; lia). apply lookup_replicate_2. lia.
      * rewrite list_lookup_inserts_ge by (rewrite length_replicate; lia). rewrite <- (Nat2Z.id j). apply Hz. lia.
    + rewrite !(proj2 (lookup_ge_None _ _)); [done|rewrite length_replicate; lia|rewrite length_inserts; lia].
  - split; [done|]. split.
    + intros j Hj _. cbn. by rewrite list_lookup_insert_ne.
    + right. cbn. split; [by rewrite length_insert|]. by exists c, bucket, i, s.
Qed.

Lemma getPooled_total noPool pick h c : ∃ h' r, getPooledMemoryBuffer noPool pick h c = Ok (h', r).
Proof.
  unfold getPooledMemoryBuffer, slice_to. destruct ((c =? 0) || noPool); [by eauto|].
  destruct (pools h !! c) as [bucket|]; [|by eauto]. destruct (pick ≫= _) as [[i s]|]; [|by eauto].
  rewrite Z.leb_refl. cbn. eauto.
Qed.

(** Putting the written prefix of an array whose rest is zero keeps the pool
    clean. *)
Lemma putPooled_ok noPool h s :
  pool_ok h → pool_entry_ok h (sl_cap s) s → pool_ok (putPooledMemoryBuffer noPool h s).
Proof.
  intros Hp Hs. unfold putPooledMemoryBuffer. destruct (_ || _); [done|]. intros c bucket s' Hb Hin.
  change (pool_entry_ok h c s'). cbn in Hb. destruct (decide (c = sl_cap s)) as [->|Hne].
  - rewrite lookup_insert_eq in Hb. injection Hb as <-. apply elem_of_cons in Hin as [->|Hin]; [done|].
    destruct (pools h !! sl_cap s) as [b|] eqn:E; [|by apply elem_of_nil in Hin]. by eapply Hp.
  - rewrite lookup_insert_ne in Hb by done. by eapply Hp.
Qed.

(** * Construction *)

(** A validated memory section within the embedder's limit. *)
Definition sec_ok (h : heap) (sec : Memory) (limitPages : Z) : Prop :=
  0 ≤ sec_Min sec ≤ limitPages ∧ limitPages ≤ 2 ^ 32 ∧ sec_Min sec ≤ sec_Max sec ∧
  0 ≤ sec_Cap sec ≤ 2 ^ 48 ∧ ∀ v, marks h !! capHighWaterPages sec = Some v → 0 ≤ v < 2 ^ 32.

(** A live instance from a zero array of [c] pages. *)
Lemma fresh_wf h sec id limitPages c (shared : bool) back :
  sec_ok h sec limitPages → sec_Min sec ≤ c ≤ Z.min limitPages (sec_Max sec) →
  arrays h !! id = Some (replicate (Z.to_nat (c * MemoryPageSize)) 0) →
  (if shared then back = None ∧ c = Z.min limitPages (sec_Max sec)
   else back = Some (mkSlice id 0 (c * MemoryPageSize) (c * MemoryPageSize))) →
  let buf := mkSlice id 0 (sec_Min sec * MemoryPageSize) (c * MemoryPageSize) in
  let m := mkMemoryInstance (sec_Min sec * MemoryPageSize) buf (sec_Min sec) (memoryBytesNumToPages (sl_cap buf))
    (Z.min limitPages (sec_Max sec)) shared (sec_IsMemory64 sec)
    (if shared then 0 else c * MemoryPageSize)
    (if sec_Min sec <? sec_Cap sec then sec_Cap sec - sec_Min sec else 0)
    (Some (capHighWaterPages sec)) back None (negb shared) false in
  wf h m ∧ array_id m = id ∧ contents h m = replicate (Z.to_nat (sec_Min sec * MemoryPageSize)) 0.
Proof.
  intros (Hmin & Hlim & Hmax & Hcap & _) Hc Ea Hk buf m.
  assert (Cap m = c) as Ecap by (unfold m, buf; cbn; apply BytesToPages).
  assert (allocatedBuffer m = mkSlice id 0 (c * MemoryPageSize) (c * MemoryPageSize)) as Ealloc.
  { unfold allocatedBuffer, m. cbn [backing]. destruct shared; [destruct Hk as [-> _]|rewrite Hk]; done. }
  assert (array_id m = id) as Eid by (unfold array_id; by rewrite Ealloc).
  assert (sec_Min sec * MemoryPageSize ≤ c * MemoryPageSize) by (unfold MemoryPageSize; lia).
  split; [|split; [done|]].
  - constructor; rewrite ?Ecap, ?Eid; try done.
    + exists (sec_Min sec * MemoryPageSize). cbn. split; [done|]. unfold MemoryPageSize. lia.
    + exists (sec_Min sec). cbn. split; [done|lia].
    + cbn. lia.
    + unfold m. cbn [Shared Max backing]. destruct shared; [by destruct Hk as [-> ->]|rewrite Hk; by eexists].
    + unfold m. cbn [growReservePages]. destruct (Z.ltb_spec (sec_Min sec) (sec_Cap sec)); lia.
    + unfold m. cbn [nativeGrowCap]. destruct shared; unfold MemoryPageSize; lia.
    + eexists. split; [exact Ea|]. cbn. split.
      * unfold zlen. rewrite length_replicate. unfold MemoryPageSize. lia.
      * intros i Hi. apply lookup_replicate_2. unfold MemoryPageSize in *. lia.
  - unfold contents. rewrite Eid, Ea. cbn. rewrite take_replicate. f_equal. lia.
Qed.

(** The array of a plain memory: pooled or new, it is zero. *)
Lemma backing_zero noPool pick h c :
  pool_ok h → c ≤ maxAlloc →
  ∃ h' id, (let* '(h, pooled) := getPooledMemoryBuffer noPool pick h c in
            match pooled with
            | Some p => let* b := slice_to p c in Ok (h, b)
            | None => make_bytes h c c
            end) = Ok (h', mkSlice id 0 c c) ∧
    arrays h' !! id = Some (replicate (Z.to_nat c) 0) ∧ acquired h h' id.
Proof.
  intros Hp Hc. destruct (getPooled_total noPool pick h c) as (h1 & r & E).
  pose proof (getPooled_zero noPool pick h c h1 r Hp E) as Hr. rewrite E. cbn [obind]. destruct r as [s|].
  - destruct Hr as (id & -> & Ha & Hacq). unfold slice_to. cbn [sl_cap sl_arr sl_off]. rewrite Z.leb_refl. cbn [obind]. eauto.
  - subst h1. by apply make_zero.
Qed.

(** The capacity an instance starts with. *)
Definition initial_cap (h : heap) (sec : Memory) (limitPages : Z) : Z :=
  let maxPages := Z.min limitPages (sec_Max sec) in
  let c := Z.max (Z.min (sec_Cap sec) maxPages) (sec_Min sec) in
  let hw := default 0 (marks h !! capHighWaterPages sec) in
  if IsShared sec then maxPages else if c <? hw then Z.min hw maxPages else c.

(** Construction without a custom allocator. *)
Lemma NewMemoryInstance_spec noPool pick h sec limitPages :
  pool_ok h → sec_ok h sec limitPages →
  ∃ h' m, NewMemoryInstance noPool pick h sec None limitPages = Ok (h', m) ∧ wf h' m ∧
    sizeBytes m = sec_Min sec * MemoryPageSize ∧
    contents h' m = replicate (Z.to_nat (sec_Min sec * MemoryPageSize)) 0 ∧
    Max m = Z.min limitPages (sec_Max sec) ∧ Cap m = initial_cap h sec limitPages ∧
    poolable m = negb (IsShared sec) ∧ Shared m = IsShared sec ∧ acquired h h' (array_id m).
Proof.
  intros Hp Hs. pose proof Hs as (Hmin & Hlim & Hmax & Hcap & Hmark).
  set (maxPages := Z.min limitPages (sec_Max sec)).
  set (hwp := default 0 (marks h !! capHighWaterPages sec)).
  assert (0 ≤ hwp < 2 ^ 32) as Hhw.
  { unfold hwp. destruct (marks h !! capHighWaterPages sec) eqn:E; cbn; [by apply Hmark|lia]. }
  set (c0 := Z.max (Z.min (sec_Cap sec) maxPages) (sec_Min sec)).
  assert (sec_Min sec ≤ c0 ≤ maxPages) as Hc0 by (unfold c0, maxPages; lia).
  set (c := if c0 <? hwp then Z.min hwp maxPages else c0).
  assert (sec_Min sec ≤ c ≤ maxPages) as Hc by (unfold c, maxPages in *; destruct (Z.ltb_spec c0 hwp); lia).
  assert ((if c0 * MemoryPageSize <? hwp * MemoryPageSize then Z.min (hwp * MemoryPageSize) (maxPages * MemoryPageSize)
           else c0 * MemoryPageSize) = c * MemoryPageSize) as Ec.
  { unfold c, MemoryPageSize. destruct (Z.ltb_spec c0 hwp), (Z.ltb_spec (c0 * 65536) (hwp * 65536)); lia. }
  assert (∀ p, p ≤ maxPages → p * MemoryPageSize ≤ maxAlloc) as Hfit by (unfold maxAlloc, MemoryPageSize, maxPages; lia).
  unfold NewMemoryInstance. fold maxPages. rewrite (Z.max_l maxPages) by lia. fold c0 hwp.
  rewrite !PagesToBytes_small by (unfold maxPages in *; lia). rewrite Ec. unfold initial_cap. fold maxPages c0 hwp c.
  destruct (IsShared sec) eqn:Esh.
  - destruct (make_zero h (sec_Min sec * MemoryPageSize) (maxPages * MemoryPageSize)) as (h' & id & -> & Ha & Hacq); [apply Hfit; lia|].
    cbn [obind negb sl_cap]. destruct (fresh_wf h' sec id limitPages maxPages true None) as (Hwf & Eid & Hcont); try done; [| |].
    + split_and!; try done; try lia. destruct Hacq as [Hm _]. by rewrite Hm.
    + fold maxPages. lia.
    + eexists _, _. split; [done|]. fold maxPages in Hwf, Hcont, Eid. cbn in Eid.
      split; [exact Hwf|]. split; [done|]. split; [exact Hcont|]. split; [done|]. split; [apply BytesToPages|].
      split; [done|]. split; [done|exact Hacq].
  - destruct (backing_zero noPool pick h (c * MemoryPageSize) Hp) as (h' & id & E & Ha & Hacq); [apply Hfit; lia|].
    destruct (getPooledMemoryBuffer noPool pick h (c * MemoryPageSize)) as [[h1 r]| | |]; try done. cbn [obind] in E |- *.
    rewrite E. cbn [obind]. unfold slice_to. cbn [sl_cap sl_arr sl_off].
    rewrite (proj2 (Z.leb_le _ _)) by (unfold MemoryPageSize; lia). cbn [obind negb sl_cap sl_len].
    destruct (fresh_wf h' sec id limitPages c false (Some (mkSlice id 0 (c * MemoryPageSize) (c * MemoryPageSize))))
      as (Hwf & Eid & Hcont); try done.
    + split_and!; try done; try lia. destruct Hacq as [Hm _]. by rewrite Hm.
    + eexists _, _. split; [done|]. cbn in Eid.
      split; [exact Hwf|]. split; [done|]. split; [exact Hcont|]. split; [done|]. split; [apply BytesToPages|].
      split; [done|]. split; [done|exact Hacq].
Qed.

(** A new memory is zero and within its limits, whatever its array was used
    for before: its size is the declared minimum, every byte reads as zero, it
    can grow to the smaller of the declared maximum and the embedder's limit, and
    it starts with the capacity earlier instances of the module grew to.  The
    array is new or taken out of the pool, and no other array changes. *)
Theorem NewMemoryInstance_fresh noPool pick h sec limitPages :
  pool_ok h → sec_ok h sec limitPages →
  ∃ h' m, NewMemoryInstance noPool pick h sec None limitPages = Ok (h', m) ∧ wf h' m ∧
    sizeBytes m = sec_Min sec * MemoryPageSize ∧
    contents h' m = replicate (Z.to_nat (sec_Min sec * MemoryPageSize)) 0 ∧
    Max m = Z.min limitPages (sec_Max sec) ∧ Cap m = initial_cap h sec limitPages ∧
    poolable m = negb (IsShared sec) ∧ Shared m = IsShared sec ∧ acquired h h' (array_id m).
Proof. apply NewMemoryInstance_spec. Qed.

(** * A memory of one page *)

Definition sample_sec : Memory := mkMemory 1 1 3 false false 0.
Definition sample_heap : heap := mkHeap [replicate (Z.to_nat (1 * MemoryPageSize)) 0] [0] ∅.
Definition sample_memory : MemoryInstance :=
  mkMemoryInstance (1 * MemoryPageSize) (mkSlice 0 0 (1 * MemoryPageSize) (1 * MemoryPageSize)) 1 1 3 false false
    (1 * MemoryPageSize) 0 (Some 0%nat) (Some (mkSlice 0 0 (1 * MemoryPageSize) (1 * MemoryPageSize))) None true false.

Lemma sample_sec_ok h : marks h = [0] → sec_ok h sample_sec 10.
Proof. intros E. split_and!; cbn; try lia. rewrite E. intros v [= <-]. lia. Qed.

Lemma sample_memory_wf : wf sample_heap sample_memory.
Proof.
  apply (fresh_wf sample_heap sample_sec 0 10 1 false); try done. by apply sample_sec_ok.
Qed.

Lemma memory_access_correct_witness :
  ∃ h', WriteUint32Le sample_heap sample_memory 8 0x01020304 = Ok (h', true) ∧
        ReadUint32Le h' sample_memory 8 = Ok (0x01020304, true).
Proof.
  pose proof (memory_access_correct 32 4 WriteUint32Le ReadUint32Le sample_heap sample_memory 8 0x01020304
    ltac:(unfold accessors; repeat constructor) sample_memory_wf ltac:(lia) ltac:(lia)) as H.
  change (8 + 4 <=? sizeBytes sample_memory) with true in H. cbv iota in H.
  destruct H as (h' & Hw & _ & Hr & _). exists h'. split; [exact Hw|exact Hr].
Defined.

Lemma memory_range_correct_witness :
  ∃ h' s, Write64 sample_heap sample_memory 65533 [1; 2; 3] = Ok (h', true) ∧
          Read64 sample_memory 65533 3 = Ok (Some s) ∧ bytes_of h' s = [1; 2; 3].
Proof.
  destruct (memory_range_correct sample_heap sample_memory 65533 [1; 2; 3] sample_memory_wf ltac:(lia) eq_refl) as [H _].
  change (65533 + zlen [1; 2; 3] <=? sizeBytes sample_memory) with true in H. cbv iota in H.
  destruct H as (h' & s & Hw & _ & _ & Hr & Hb). exists h', s. split; [exact Hw|]. split; [exact Hr|exact Hb].
Defined.

(** The sample memory over an allocator that refuses to grow it. *)
Definition sample_hosted : MemoryInstance :=
  mkMemoryInstance (1 * MemoryPageSize) (mkSlice 0 0 (1 * MemoryPageSize) (1 * MemoryPageSize)) 1 1 3 true false
    0 0 None None (Some (λ h _, (h, None))) false false.

Lemma Grow64_correct_witness :
  (∃ h' m', Grow64 sample_heap sample_memory 2 = Ok (h', m', (1, true), true) ∧ sizeBytes m' = 3 * MemoryPageSize) ∧
  Grow64 sample_heap sample_memory (2 ^ 64 - 1) = Ok (sample_heap, sample_memory, (0, false), false) ∧
  Grow64 sample_heap sample_hosted 1 = Ok (sample_heap, sample_hosted, (0, false), false).
Proof.
  split; [|split].
  - pose proof (Grow64_correct sample_heap sample_memory 2 1 eq_refl ltac:(cbn; lia) ltac:(cbn; lia) ltac:(lia)
      (λ _, sample_memory_wf)) as H.
    change (2 =? 0) with false in H. change (Max sample_memory <? 1 + 2) with false in H.
    change (expBuffer sample_memory) with (@None LinearMemory) in H. cbv iota in H.
    destruct H as (h' & m' & Hg & _ & _ & Hs & _). exists h', m'. split; [exact Hg|exact Hs].
  - exact (Grow64_correct sample_heap sample_memory (2 ^ 64 - 1) 1 eq_refl ltac:(cbn; lia) ltac:(cbn; lia) ltac:(lia)
      (λ _, sample_memory_wf)).
  - exact (Grow64_correct sample_heap sample_hosted 1 1 eq_refl ltac:(cbn; lia) ltac:(cbn; lia) ltac:(lia)
      (λ H, ltac:(discriminate))).
Defined.

(** A pool with one buffer of a page, whose first two bytes are dirty. *)
Definition sample_pool_heap : heap :=
  mkHeap [[7; 7] ++ replicate (Z.to_nat (MemoryPageSize - 2)) 0] [0]
    {[ MemoryPageSize := [mkSlice 0 0 2 MemoryPageSize] ]}.

Lemma sample_pool_ok : pool_ok sample_pool_heap.
Proof.
  intros c bucket s Hb Hin. cbn in Hb. apply lookup_singleton_Some in Hb as [<- <-]. apply list_elem_of_singleton in Hin as ->.
  split; [done|]. split; [done|]. split; [cbn; unfold MemoryPageSize; lia|]. eexists. split; [done|]. split.
  - rewrite zlen_app. unfold zlen. rewrite length_replicate. unfold MemoryPageSize. cbn. lia.
  - cbn [sl_len]. intros i Hi. rewrite lookup_app_r by (cbn; lia). apply lookup_replicate_2. cbn. unfold MemoryPageSize in *. lia.
Qed.

Lemma NewMemoryInstance_fresh_witness :
  ∃ h' m, NewMemoryInstance false (Some 0%nat) sample_pool_heap sample_sec None 10 = Ok (h', m) ∧
    array_id m = 0%nat ∧ contents h' m = replicate (Z.to_nat (1 * MemoryPageSize)) 0.
Proof.
  destruct (NewMemoryInstance_fresh false (Some 0%nat) sample_pool_heap sample_sec 10 sample_pool_ok
    ltac:(by apply sample_sec_ok)) as (h' & m & E & _ & _ & Hc & _).
  exists h', m. split; [exact E|]. split; [|exact Hc]. clear Hc.
  assert (match NewMemoryInstance false (Some 0%nat) sample_pool_heap sample_sec None 10 with
          | Ok (_, m) => array_id m = 0%nat | _ => False end) as H by (vm_compute; reflexivity).
  rewrite E in H. exact H.
Defined.
