(* ===== verification/MemoryRelease.v ===== *)
(** The release of linear memories: how the closes of the modules that can reach
    a memory and the calls still running on it agree on when its array returns
    to the pool ([CallSlot], [CallSlotFor], [ExitCall], [exitAfterRelease] and
    [releaseAfterLastHolder] of [internal/wasm/memory.go], the memory part of
    [ensureResourcesClosed] of [internal/wasm/module_instance.go], and the
    registration of importers in [internal/wasm/store.go]).

    A memory counts the modules, other than its owner, that import it or hold it
    through an imported function.  The close that finds the owner closed and the
    count zero claims the array ([released]).  If a call is in flight on one of
    the slots registered with the memory, the claim is parked in [pendingRelease]
    and the last call to leave performs it.

    Each definition is the code between the entry and the return of the function
    it is named after; the reads and writes of a slot are the atomic operations
    of the code. *)
From Stdlib Require Import ZArith Lia.
From stdpp Require Import base list numbers option tactics gmap.
From S2P Require Import Prelude WasmMemory.
Local Open Scope Z_scope.
Local Open Scope go_scope.

(** * State *)

Definition slotIdle : Z := 0.
Definition slotBusy : Z := 1.
Definition slotHandoff : Z := 2.
Definition callSlotsSingly : Z := 4.
Definition callSlotsPerChunk : nat := 32.

(** A memory with its holders.  [callers] and [callerChunks] are weak pointers
    to slots: [None] is one whose target was collected.  [recycle] and [free]
    are the two fields of [pendingRelease]. *)
Record MemState := mkMem {
  inst : MemoryInstance;
  owner : nat;
  importers : Z;
  ownerClosed : bool;
  callers : list (option nat);
  callerChunks : list (option (list nat));
  recycle : option slice;
  free : option LinearMemory;
}.

Record Mod := mkMod {
  Memories : list nat;
  heldMemories : list nat;
  Closed : bool;
  slotsSingly : Z;
  slotChunk : option (list nat);
  slotNext : nat;
}.

Record world := mkWorld {
  w_heap : heap;
  w_slots : list Z;
  w_mems : list MemState;
  w_mods : list Mod;
  (** the linear memories of custom allocators that were freed *)
  w_freed : list LinearMemory;
}.

Definition set_heap (w : world) (h : heap) : world := mkWorld h (w_slots w) (w_mems w) (w_mods w) (w_freed w).
Definition set_slots (w : world) (s : list Z) : world := mkWorld (w_heap w) s (w_mems w) (w_mods w) (w_freed w).
Definition set_mem (w : world) (k : nat) (m : MemState) : world :=
  mkWorld (w_heap w) (w_slots w) (<[k := m]> (w_mems w)) (w_mods w) (w_freed w).
Definition set_mod (w : world) (i : nat) (m : Mod) : world :=
  mkWorld (w_heap w) (w_slots w) (w_mems w) (<[i := m]> (w_mods w)) (w_freed w).
Definition add_freed (w : world) (f : LinearMemory) : world :=
  mkWorld (w_heap w) (w_slots w) (w_mems w) (w_mods w) (f :: w_freed w).

Definition set_inst (m : MemState) (i : MemoryInstance) : MemState :=
  mkMem i (owner m) (importers m) (ownerClosed m) (callers m) (callerChunks m) (recycle m) (free m).
Definition set_importers (m : MemState) (n : Z) : MemState :=
  mkMem (inst m) (owner m) n (ownerClosed m) (callers m) (callerChunks m) (recycle m) (free m).
Definition set_ownerClosed (m : MemState) : MemState :=
  mkMem (inst m) (owner m) (importers m) true (callers m) (callerChunks m) (recycle m) (free m).
Definition set_callers (m : MemState) (c : list (option nat)) : MemState :=
  mkMem (inst m) (owner m) (importers m) (ownerClosed m) c (callerChunks m) (recycle m) (free m).
Definition set_callerChunks (m : MemState) (c : list (option (list nat))) : MemState :=
  mkMem (inst m) (owner m) (importers m) (ownerClosed m) (callers m) c (recycle m) (free m).
Definition set_pending (m : MemState) (r : option slice) (f : option LinearMemory) : MemState :=
  mkMem (inst m) (owner m) (importers m) (ownerClosed m) (callers m) (callerChunks m) r f.

(** [released.Swap(true)] on the instance. *)
Definition set_released (m : MemoryInstance) : MemoryInstance :=
  mkMemoryInstance (sizeBytes m) (Buffer m) (Min m) (Cap m) (Max m) (Shared m) (IsMemory64 m) (nativeGrowCap m)
    (growReservePages m) (capHighWater m) (backing m) (expBuffer m) (poolable m) true.

(** [mem.expBuffer = nil]. *)
Definition drop_expBuffer (m : MemoryInstance) : MemoryInstance :=
  mkMemoryInstance (sizeBytes m) (Buffer m) (Min m) (Cap m) (Max m) (Shared m) (IsMemory64 m) (nativeGrowCap m)
    (growReservePages m) (capHighWater m) (backing m) None (poolable m) (released m).

(** * Slots *)

Definition Enter (slots : list Z) (s : nat) : list Z := <[s := slotBusy]> slots.

(** The compare-and-swap of [claimIfBusy], and the load that follows it. *)
Definition claimIfBusy (slots : list Z) (s : nat) : list Z * bool :=
  match slots !! s with
  | Some st =>
      if st =? slotBusy then (<[s := slotHandoff]> slots, true) else (slots, st =? slotHandoff)
  | None => (slots, false)
  end.

Fixpoint claim_all (slots : list Z) (ids : list nat) (busy : bool) : list Z * bool :=
  match ids with
  | [] => (slots, busy)
  | s :: ids =>
      let '(slots, b) := claimIfBusy slots s in
      claim_all slots ids (if b then true else busy)
  end.

(** The slots a memory's weak pointers reach, in the order of the scan. *)
Definition reached (m : MemState) : list nat := omap id (callers m) ++ concat (omap id (callerChunks m)).

Definition anyCallInFlightLocked (slots : list Z) (m : MemState) : list Z * bool := claim_all slots (reached m) false.

(** [full] is whether the slice is at its capacity. *)
Definition appendLive {T} (full : bool) (ps : list (option T)) (p : T) : list (option T) :=
  (if full then filter (λ c, is_Some c) ps else ps) ++ [Some p].

(** Registers with each memory of a list. *)
Fixpoint register (upd : MemState → MemState) (w : world) (ks : list nat) : world :=
  match ks with
  | [] => w
  | k :: ks =>
      let w := match w_mems w !! k with Some m => set_mem w k (upd m) | None => w end in
      register upd w ks
  end.

(** [own] is the slot inside the new call engine; the result is the slot it is
    to use. *)
Definition CallSlotFor (full : bool) (w : world) (i own : nat) : out (world * nat) :=
  match w_mods w !! i with
  | None => Panic
  | Some m =>
      if (length (Memories m) =? 0)%nat then Ok (w, own)
      else if slotsSingly m <? callSlotsSingly then
        let w := set_mod w i (mkMod (Memories m) (heldMemories m) (Closed m) (slotsSingly m + 1) (slotChunk m) (slotNext m)) in
        Ok (register (λ mem, set_callers mem (appendLive full (callers mem) own)) w (Memories m), own)
      else
        let '(w, chunk, next) :=
          match slotChunk m with
          | Some chunk => if (slotNext m =? callSlotsPerChunk)%nat then (w, None, 0%nat) else (w, Some chunk, slotNext m)
          | None => (w, None, 0%nat)
          end in
        let '(w, chunk) :=
          match chunk with
          | Some chunk => (w, chunk)
          | None =>
              let chunk := seq (length (w_slots w)) callSlotsPerChunk in
              let w := set_slots w (w_slots w ++ replicate callSlotsPerChunk slotIdle) in
              (register (λ mem, set_callerChunks mem (appendLive full (callerChunks mem) chunk)) w (Memories m), chunk)
          end in
        match chunk !! next with
        | None => Panic
        | Some s =>
            Ok (set_mod w i (mkMod (Memories m) (heldMemories m) (Closed m) (slotsSingly m) (Some chunk) (S next)), s)
        end
  end.

(** * Release *)

Section release.
Variable noPool : bool.

(** How much of the array the guest could have written. *)
Definition dirtyLenLocked (m : MemoryInstance) (back : option slice) : Z :=
  match back with
  | None => 0
  | Some back => if sl_len back <? sizeBytes m then sl_len back else sizeBytes m
  end.

(** Hands an array to the pool, or frees an allocator's pages. *)
Definition give_back (w : world) (f : option LinearMemory) (r : option slice) : world :=
  match f, r with
  | Some f, _ => add_freed w f
  | None, Some s => set_heap w (putPooledMemoryBuffer noPool (w_heap w) s)
  | None, None => w
  end.

Definition exitAfterRelease (w : world) (k : nat) : out world :=
  match w_mems w !! k with
  | None => Panic
  | Some m =>
      let '(slots, busy) := anyCallInFlightLocked (w_slots w) m in
      let w := set_slots w slots in
      if busy then Ok w
      else
        let back := recycle m in
        let f := free m in
        let dirty := dirtyLenLocked (inst m) back in
        let w := set_mem w k (set_pending m None None) in
        let* r := match back with
                  | Some b => let* s := slice_to b dirty in Ok (Some s)
                  | None => Ok None
                  end in
        Ok (give_back w f r)
  end.

Definition releaseAfterLastHolder (w : world) (k : nat) : out world :=
  match w_mems w !! k with
  | None => Panic
  | Some m =>
      if released (inst m) then Ok w
      else
        let m := set_inst m (set_released (inst m)) in
        let back := allocatedBuffer (inst m) in
        let dirty := dirtyLenLocked (inst m) (Some back) in
        let '(slots, inFlight) := anyCallInFlightLocked (w_slots w) m in
        let w := set_slots w slots in
        if inFlight then exitAfterRelease (set_mem w k (set_pending m (Some back) (free m))) k
        else
          let* s := slice_to back dirty in
          Ok (give_back (set_mem w k m) None (Some s))
  end.

(** The claim of [ensureResourcesClosed], common to the owner's and an
    importer's branch: [candidate] is the visible part, taken before the claim;
    [f] is what the owner frees instead.  The mutex is held since the caller's
    update of [m]. *)
Definition claim (w : world) (k : nat) : out world :=
  match w_mems w !! k with
  | None => Panic
  | Some m =>
      let* candidate := slice_to (allocatedBuffer (inst m)) (byteSize (inst m)) in
      if released (inst m) then Ok w
      else
        let f := expBuffer (inst m) in
        let m := set_inst m (set_released (drop_expBuffer (inst m))) in
        let r := match f with Some _ => None | None => Some candidate end in
        let '(slots, inFlight) := anyCallInFlightLocked (w_slots w) m in
        let w := set_slots w slots in
        if inFlight then
          let r := match f with Some _ => None | None => Some (allocatedBuffer (inst m)) end in
          exitAfterRelease (set_mem w k (set_pending m r f)) k
        else Ok (give_back (set_mem w k m) f r)
  end.

(** The owner's branch. *)
Definition close_owner (w : world) (k : nat) (m : MemState) : out world :=
  let m := set_ownerClosed m in
  let w := set_mem w k m in
  if match expBuffer (inst m) with Some _ => true | None => false end || (poolable (inst m) && (importers m =? 0))
  then claim w k else Ok w.

(** [if mem.importers > 0 { mem.importers-- }]. *)
Definition drop_importer (m : MemState) : MemState :=
  set_importers m (if 0 <? importers m then importers m - 1 else importers m).

(** An importer's branch; [poolable] memories have no allocator. *)
Definition close_importer (w : world) (k : nat) (m : MemState) : out world :=
  let m := drop_importer m in
  let w := set_mem w k m in
  if ownerClosed m && (importers m =? 0) && poolable (inst m) then claim w k else Ok w.

(** A memory held through an imported function. *)
Definition close_held (w : world) (k : nat) : out world :=
  match w_mems w !! k with
  | None => Panic
  | Some m =>
      let m := drop_importer m in
      let last := ownerClosed m && (importers m =? 0) && poolable (inst m) in
      let w := set_mem w k m in
      if last then releaseAfterLastHolder w k else Ok w
  end.

Fixpoint close_memories (w : world) (i : nat) (ks : list nat) : out world :=
  match ks with
  | [] => Ok w
  | k :: ks =>
      match w_mems w !! k with
      | None => Panic
      | Some m =>
          let* w := if (owner m =? i)%nat then close_owner w k m else close_importer w k m in
          close_memories w i ks
      end
  end.

Fixpoint close_holds (w : world) (ks : list nat) : out world :=
  match ks with
  | [] => Ok w
  | k :: ks => let* w := close_held w k in close_holds w ks
  end.

(** The memories' part of [ensureResourcesClosed], which runs once, after
    [Closed] was set. *)
Definition ensureResourcesClosed (w : world) (i : nat) : out world :=
  match w_mods w !! i with
  | None => Panic
  | Some m =>
      let* w := close_memories w i (Memories m) in
      let* w := close_holds w (heldMemories m) in
      Ok (set_mod w i (mkMod (Memories m) [] (Closed m) (slotsSingly m) (slotChunk m) (slotNext m)))
  end.

(** [closeWithExitCode] of a module that is not closed yet: [setExitCode], then
    the resources. *)
Definition close (w : world) (i : nat) : out world :=
  match w_mods w !! i with
  | None => Panic
  | Some m =>
      if Closed m then Ok w
      else ensureResourcesClosed
        (set_mod w i (mkMod (Memories m) (heldMemories m) true (slotsSingly m) (slotChunk m) (slotNext m))) i
  end.

Fixpoint exitHandoff (w : world) (ks : list nat) : out world :=
  match ks with
  | [] => Ok w
  | k :: ks =>
      match w_mems w !! k with
      | None => Panic
      | Some m =>
          let* w := if released (inst m) then exitAfterRelease w k else Ok w in
          exitHandoff w ks
      end
  end.

Definition ExitCall (w : world) (i s : nat) : out world :=
  match w_mods w !! i, w_slots w !! s with
  | Some m, Some st =>
      let w := set_slots w (<[s := slotIdle]> (w_slots w)) in
      if st =? slotBusy then Ok w else exitHandoff w (Memories m)
  | _, _ => Panic
  end.
End release.

(** * Registration of importers *)

(** A memory import of [resolveImports]; an error when the owner has closed. *)
Definition import_memory (w : world) (k : nat) : out world :=
  match w_mems w !! k with
  | None => Panic
  | Some m => if ownerClosed m then Err tt else Ok (set_mem w k (set_importers m (importers m + 1)))
  end.

Fixpoint import_all (w : world) (ks : list nat) : out world :=
  match ks with
  | [] => Ok w
  | k :: ks => let* w := import_memory w k in import_all w ks
  end.

(** [holdMemoriesOf]: the memories of [other], each registered like an import. *)
Definition holdMemoriesOf (w : world) (other : nat) : out (world * list nat) :=
  match w_mods w !! other with
  | None => Panic
  | Some m => let* w := import_all w (Memories m) in Ok (w, Memories m)
  end.
