(* ===== verification/MemorySystem.v ===== *)
(** The system around the release protocol of [MemoryRelease].

    [sys_step] interleaves the operations of [MemoryRelease] with the guest's:
    instantiations, calls that enter, run, store, grow and leave, host writes,
    collection of slots, and closes.  A close of a module, and the return of a
    call, is one step.

    Two things a guest can do that the protocol does not protect it from are
    steps only of the system in which [outside] is true: a call grows a memory
    that was released meanwhile, and a call stores to a memory that its module
    holds through an imported function.  [MemoryIsolation] proves the protection
    without them, and reaches the states in which it is lost with them.
    Memories have no custom allocator here. *)
From Stdlib Require Import ZArith Lia.
From stdpp Require Import base list numbers option tactics gmap.
From S2P Require Import Prelude WasmMemory MemoryRelease.
Local Open Scope Z_scope.
Local Open Scope go_scope.

(** * The system *)

Definition new_mem (m : MemoryInstance) (own : nat) : MemState := mkMem m own 0 false [] [] None None.
Definition new_mod (ks held : list nat) : Mod := mkMod ks held false 0 None 0.

Fixpoint hold_all (w : world) (others : list nat) : out (world * list nat) :=
  match others with
  | [] => Ok (w, [])
  | o :: others =>
      let* '(w, ks) := holdMemoriesOf w o in
      let* '(w, ks') := hold_all w others in
      Ok (w, ks ++ ks')
  end.

(** A module that imports functions of [others] and the memories [imports], and
    declares a memory. *)
Definition instantiate (noPool : bool) (pick : option nat) (w : world) (others imports : list nat) (sec : Memory)
    (limitPages : Z) : out world :=
  let* '(w, held) := hold_all w others in
  let* w := import_all w imports in
  let* '(h, m) := NewMemoryInstance noPool pick (w_heap w) sec None limitPages in
  let k := length (w_mems w) in
  let i := length (w_mods w) in
  Ok (mkWorld h (w_slots w) (w_mems w ++ [new_mem m i]) (w_mods w ++ [new_mod (imports ++ [k]) held]) (w_freed w)).

(** A guest store of a call writes the array itself, whether or not the memory
    was released: the engines index the buffer directly. *)
Definition guest_store (h : heap) (m : MemoryInstance) (off : Z) (val : list Z) : heap :=
  copy h (mkSlice (array_id m) off (sizeBytes m - off) (sizeBytes m - off)) val.

(** The native engine raises the size within [nativeGrowCap]. *)
Definition native_grow (m : MemoryInstance) (size : Z) : MemoryInstance :=
  mkMemoryInstance size (Buffer m) (Min m) (Cap m) (Max m) (Shared m) (IsMemory64 m) (nativeGrowCap m)
    (growReservePages m) (capHighWater m) (backing m) (expBuffer m) (poolable m) (released m).

(** The weak pointers to slots nobody uses any more become nil; a chunk is
    collected as a whole. *)
Definition drop_slot (ss : list nat) (c : option nat) : option nat :=
  match c with Some s => if bool_decide (s ∈ ss) then None else Some s | None => None end.
Definition drop_chunk (ss : list nat) (c : option (list nat)) : option (list nat) :=
  if bool_decide (c = Some ss) then None else c.
Definition collect (ss : list nat) (m : MemState) : MemState :=
  set_callerChunks (set_callers m (drop_slot ss <$> callers m)) (drop_chunk ss <$> callerChunks m).

(** [slot_of] is the module each slot in use belongs to, [calls] the slots with
    a call on them: [false] between [Enter] and the check of [Closed], [true]
    while it runs. *)
Record sys := mkSys { sw : world; slot_of : gmap nat nat; calls : gmap nat bool }.

Section steps.
Variable noPool : bool.
(** Whether calls grow released memories and store to held ones. *)
Variable outside : bool.

Inductive sys_step : sys → sys → Prop :=
| ss_instantiate pick w others imports sec limitPages w' so ca :
    sec_ok (w_heap w) sec limitPages → instantiate noPool pick w others imports sec limitPages = Ok w' →
    sys_step (mkSys w so ca) (mkSys w' so ca)
| ss_slot full w i own w' s so ca :
    own = length (w_slots w) → CallSlotFor full (set_slots w (w_slots w ++ [slotIdle])) i own = Ok (w', s) →
    sys_step (mkSys w so ca) (mkSys w' (<[s := i]> so) ca)
| ss_collect w ss so ca :
    (∀ s, s ∈ ss → ca !! s = None) →
    (∀ i md chunk s, w_mods w !! i = Some md → slotChunk md = Some chunk → s ∈ chunk → s ∉ ss) →
    sys_step (mkSys w so ca)
      (mkSys (mkWorld (w_heap w) (w_slots w) (collect ss <$> w_mems w) (w_mods w) (w_freed w))
        (filter (λ p, p.1 ∉ ss) so) ca)
| ss_enter w s i so ca :
    so !! s = Some i → ca !! s = None →
    sys_step (mkSys w so ca) (mkSys (set_slots w (Enter (w_slots w) s)) so (<[s := false]> ca))
| ss_check w s i md so ca :
    ca !! s = Some false → so !! s = Some i → w_mods w !! i = Some md → Closed md = false →
    sys_step (mkSys w so ca) (mkSys w so (<[s := true]> ca))
| ss_exit w s i b w' so ca :
    ca !! s = Some b → so !! s = Some i → ExitCall noPool w i s = Ok w' →
    sys_step (mkSys w so ca) (mkSys w' so (delete s ca))
| ss_store w s i md k m off val so ca :
    ca !! s = Some true → so !! s = Some i → w_mods w !! i = Some md → k ∈ Memories md → w_mems w !! k = Some m →
    0 ≤ off → off + zlen val ≤ sizeBytes (inst m) →
    sys_step (mkSys w so ca) (mkSys (set_heap w (guest_store (w_heap w) (inst m) off val)) so ca)
| ss_store_held w s i md k m off val so ca :
    outside = true →
    ca !! s = Some true → so !! s = Some i → w_mods w !! i = Some md → k ∈ heldMemories md → w_mems w !! k = Some m →
    0 ≤ off → off + zlen val ≤ sizeBytes (inst m) →
    sys_step (mkSys w so ca) (mkSys (set_heap w (guest_store (w_heap w) (inst m) off val)) so ca)
| ss_native w s i md k m pages so ca :
    ca !! s = Some true → so !! s = Some i → w_mods w !! i = Some md → k ∈ Memories md → w_mems w !! k = Some m →
    sizeBytes (inst m) ≤ pages * MemoryPageSize ≤ nativeGrowCap (inst m) →
    sys_step (mkSys w so ca) (mkSys (set_mem w k (set_inst m (native_grow (inst m) (pages * MemoryPageSize)))) so ca)
| ss_grow w k m delta h' i' r told so ca :
    w_mems w !! k = Some m → (released (inst m) = true → delta = 0 ∨ outside = true) → 0 ≤ delta < 2 ^ 64 →
    Grow64 (w_heap w) (inst m) delta = Ok (h', i', r, told) →
    sys_step (mkSys w so ca) (mkSys (set_mem (set_heap w h') k (set_inst m i')) so ca)
| ss_write w k m off val h' b so ca :
    w_mems w !! k = Some m → 0 ≤ off < 2 ^ 64 → zlen val < 2 ^ 63 →
    Write64 (w_heap w) (inst m) off val = Ok (h', b) →
    sys_step (mkSys w so ca) (mkSys (set_heap w h') so ca)
| ss_close w i w' so ca :
    close noPool w i = Ok w' → sys_step (mkSys w so ca) (mkSys w' so ca).

(** Nothing instantiated, nothing in the pool; [marks] are the modules' cells. *)
Definition initial (cells : list Z) : sys := mkSys (mkWorld (mkHeap [] cells ∅) [] [] [] []) ∅ ∅.

Inductive reachable (cells : list Z) : sys → Prop :=
| reach_initial : reachable cells (initial cells)
| reach_step σ σ' : reachable cells σ → sys_step σ σ' → reachable cells σ'.
End steps.
