(* ===== verification/MemoryKeep.v ===== *)
(** The invariant of [MemorySystem]: an array is used by one live memory, parked
    by one released memory, or in the pool, and never two of these; the pool's
    arrays are zero beyond their recorded length; and a running call's memories
    keep their arrays until it has left, after which nothing stays parked.  Every
    operation of the release protocol, and every step of the guest and the host,
    keeps it; closes and returns never panic. *)
From Stdlib Require Import ZArith Lia.
From stdpp Require Import base list numbers option tactics gmap.
From S2P Require Import Prelude WasmMemory MemoryRelease MemorySystem.
Local Open Scope Z_scope.
Local Open Scope go_scope.
Set Warnings "-clear-no-such-hyp".

(** * The invariant *)

(** The instance as if it were not released. *)
Definition live (m : MemoryInstance) : MemoryInstance :=
  mkMemoryInstance (sizeBytes m) (Buffer m) (Min m) (Cap m) (Max m) (Shared m) (IsMemory64 m) (nativeGrowCap m)
    (growReservePages m) (capHighWater m) (backing m) (expBuffer m) (poolable m) false.

(** A memory has its array until the array is handed to the pool. *)
Definition owns (m : MemState) : Prop := released (inst m) = false ∨ is_Some (recycle m).

Record mem_ok (h : heap) (m : MemState) : Prop := {
  mo_wf : owns m → wf h (live (inst m));
  mo_pool : poolable (inst m) = true → Shared (inst m) = false;
  mo_plain : expBuffer (inst m) = None ∧ free m = None;
  mo_cap : 0 ≤ sl_cap (allocatedBuffer (inst m));
  mo_pending : ∀ s, recycle m = Some s → released (inst m) = true ∧ s = allocatedBuffer (inst m);
}.

(** Arrays: each memory that has one has its own, and none is in the pool. *)
Record arrays_inv (h : heap) (ms : list MemState) : Prop := {
  a_pool : pool_ok h;
  a_nodup : ∀ c b, pools h !! c = Some b → NoDup (sl_arr <$> b);
  a_mem : ∀ k m, ms !! k = Some m → mem_ok h m;
  a_sep : ∀ k k' m m', ms !! k = Some m → ms !! k' = Some m' → owns m → owns m' →
    array_id (inst m) = array_id (inst m') → k = k';
  a_apart : ∀ k m c b s, ms !! k = Some m → owns m → pools h !! c = Some b → s ∈ b → sl_arr s ≠ array_id (inst m);
}.

Definition cnt (k : nat) (l : list nat) : Z := zlen (filter (λ x, x = k) l).

(** How many times the modules that are not closed import or hold memory [k],
    owned by [o]. *)
Definition share (i : nat) (md : Mod) (o k : nat) : Z :=
  if Closed md then 0 else (if (i =? o)%nat then 0 else cnt k (Memories md)) + cnt k (heldMemories md).
Fixpoint holders (i : nat) (mds : list Mod) (o k : nat) : Z :=
  match mds with [] => 0 | md :: mds => share i md o k + holders (S i) mds o k end.

(** Counts: a released memory has no open holder.  [i], [ks] and [hs] are what
    a close in progress has not processed yet. *)
Record counts_inv (i : nat) (ks hs : list nat) (mds : list Mod) (ms : list MemState) : Prop := {
  c_owner : ∀ k m, ms !! k = Some m → ownerClosed m = true → ∃ md, mds !! owner m = Some md ∧ Closed md = true;
  c_count : ∀ k m, ms !! k = Some m →
    holders 0 mds (owner m) k + (if (i =? owner m)%nat then 0 else cnt k ks) + cnt k hs ≤ importers m;
  c_rel : ∀ k m, ms !! k = Some m → released (inst m) = true → ownerClosed m = true ∧ importers m = 0;
  c_valid : ∀ j md k, mds !! j = Some md → k ∈ Memories md ++ heldMemories md → is_Some (ms !! k);
}.

(** Slots: the calls on them, and the memories they are registered with. *)
Record slots_inv (sl : list Z) (ms : list MemState) (mds : list Mod) (so : gmap nat nat) (ca : gmap nat bool) : Prop := {
  s_calls : ∀ s b, ca !! s = Some b → is_Some (so !! s) ∧ (sl !! s = Some slotBusy ∨ sl !! s = Some slotHandoff);
  s_idle : ∀ s st, sl !! s = Some st → ca !! s = None → st = slotIdle;
  s_of : ∀ s j, so !! s = Some j → (s < length sl)%nat ∧ ∃ md, mds !! j = Some md ∧
    ∀ k m, k ∈ Memories md → ms !! k = Some m → s ∈ reached m;
  s_reach : ∀ s j k m, so !! s = Some j → ms !! k = Some m → s ∈ reached m → ∃ md, mds !! j = Some md ∧ k ∈ Memories md;
  s_bound : ∀ k m s, ms !! k = Some m → s ∈ reached m → (s < length sl)%nat;
  s_chunk : ∀ j md chunk t s, mds !! j = Some md → slotChunk md = Some chunk → chunk !! t = Some s →
    (s < length sl)%nat ∧ (∀ k m, ms !! k = Some m → s ∈ reached m ↔ k ∈ Memories md) ∧
    ((slotNext md ≤ t)%nat → so !! s = None);
  s_disjoint : ∀ j j' md md' chunk chunk' t t' s, mds !! j = Some md → mds !! j' = Some md' →
    slotChunk md = Some chunk → slotChunk md' = Some chunk' → chunk !! t = Some s → chunk' !! t' = Some s → j = j' ∧ t = t';
}.

(** Calls: a running call's memories keep their arrays, and an array parked by
    a memory outside [X] has a call that owes its release. *)
Record calls_inv (X : nat → Prop) (sl : list Z) (ms : list MemState) (mds : list Mod) (so : gmap nat nat) (ca : gmap nat bool)
    : Prop := {
  r_safe : ∀ s j md k m, ca !! s = Some true → so !! s = Some j → mds !! j = Some md → k ∈ Memories md →
    ms !! k = Some m → owns m;
  r_pending : ∀ k m, ¬ X k → ms !! k = Some m → is_Some (recycle m) → ∃ s, s ∈ reached m ∧ sl !! s = Some slotHandoff;
}.

Record inv (X : nat → Prop) (i : nat) (ks hs : list nat) (w : world) (so : gmap nat nat) (ca : gmap nat bool) : Prop := {
  inv_arrays : arrays_inv (w_heap w) (w_mems w);
  inv_counts : counts_inv i ks hs (w_mods w) (w_mems w);
  inv_slots : slots_inv (w_slots w) (w_mems w) (w_mods w) so ca;
  inv_calls : calls_inv X (w_slots w) (w_mems w) (w_mods w) so ca;
}.

(** * Arrays *)

(** A memory depends on no array but its own. *)
Lemma wf_at h h' m : (∀ a, arrays h !! array_id m = Some a → arrays h' !! array_id m = Some a) → wf h m → wf h' m.
Proof. intros E Hw. destruct Hw as [? ? ? ? ? ? ? ? ? (a & Ea & ?)]. constructor; try done. exists a. by rewrite (E a Ea). Qed.

Lemma mem_ok_at h h' m :
  (owns m → ∀ a, arrays h !! array_id (inst m) = Some a → arrays h' !! array_id (inst m) = Some a) → mem_ok h m → mem_ok h' m.
Proof. intros E []. constructor; try done. intros Ho. eapply wf_at; [|by auto]. exact (E Ho). Qed.

Lemma entry_at h h' c s :
  (∀ a, arrays h !! sl_arr s = Some a → arrays h' !! sl_arr s = Some a) → pool_entry_ok h c s → pool_entry_ok h' c s.
Proof. intros E (? & ? & ? & a & Ea & Hl & Hz). split_and!; try done; try lia. exists a. by rewrite (E a Ea). Qed.

Lemma put_arrays noPool h s : arrays (putPooledMemoryBuffer noPool h s) = arrays h.
Proof. unfold putPooledMemoryBuffer. by destruct (_ || _). Qed.

Lemma lookup_upd {A} (l : list A) k k' x y :
  <[k := x]> l !! k' = Some y → (k' = k ∧ y = x ∧ (k < length l)%nat) ∨ (k' ≠ k ∧ l !! k' = Some y).
Proof.
  intros H. destruct (decide (k' = k)) as [->|Hne].
  - left. apply list_lookup_insert_Some in H. naive_solver.
  - right. split; [done|]. by rewrite list_lookup_insert_ne in H.
Qed.

(** Updating a memory that keeps its array, or gives it up. *)
Lemma arrays_upd h ms k m m' :
  arrays_inv h ms → ms !! k = Some m → mem_ok h m' → (owns m' → owns m ∧ array_id (inst m') = array_id (inst m)) →
  arrays_inv h (<[k := m']> ms).
Proof.
  intros [] Hk Hok Ho. constructor; try done.
  - intros j mj Hj. apply lookup_upd in Hj as [(-> & -> & _)|[_ Hj]]; eauto.
  - intros j j' mj mj' Hj Hj' Hoj Hoj' E.
    apply lookup_upd in Hj as [(-> & -> & _)|[Hne Hj]]; apply lookup_upd in Hj' as [(-> & -> & _)|[Hne' Hj']]; try done.
    + destruct (Ho Hoj) as [? Eq]. rewrite Eq in E. eauto.
    + destruct (Ho Hoj') as [? Eq]. rewrite Eq in E. eauto.
    + eauto.
  - intros j mj c b s Hj Hoj Hb Hs. apply lookup_upd in Hj as [(-> & -> & _)|[Hne Hj]]; [|by eauto].
    destruct (Ho Hoj) as [? ->]. eauto.
Qed.

(** A live memory's array changes in place, or the memory moves to a new one. *)
Lemma arrays_change h h' ms k m m' :
  arrays_inv h ms → ms !! k = Some m → owns m → mem_ok h' m' → pools h' = pools h →
  (∀ j a, j ≠ array_id (inst m) → arrays h !! j = Some a → arrays h' !! j = Some a) →
  (array_id (inst m') = array_id (inst m) ∨ array_id (inst m') = length (arrays h)) →
  arrays_inv h' (<[k := m']> ms).
Proof.
  intros Hinv Hk Ho Hok Ep Ha Hid. destruct Hinv as [Hpool Hnd Hmem Hsep Hap].
  assert (∀ c b s, pools h !! c = Some b → s ∈ b → sl_arr s ≠ array_id (inst m')) as Hap'.
  { intros c b s Hb Hs. destruct (Hpool c b s Hb Hs) as (_ & _ & _ & a & Ea & _). apply lookup_lt_Some in Ea.
    destruct Hid as [->| ->]; [by eapply Hap|lia]. }
  assert (∀ j mj, j ≠ k → ms !! j = Some mj → owns mj → array_id (inst mj) ≠ array_id (inst m')) as Hsep'.
  { intros j mj Hne Hj Hoj. destruct (wf_array _ _ (mo_wf _ _ (Hmem j mj Hj) Hoj)) as (a & Ea & _).
    apply lookup_lt_Some in Ea. change (array_id (live (inst mj))) with (array_id (inst mj)) in Ea.
    destruct Hid as [->| ->]; [|lia]. intros E. apply Hne. by eapply Hsep. }
  constructor; rewrite ?Ep; try done.
  - intros c b s. rewrite Ep. intros Hb Hs. eapply entry_at; [|by eapply Hpool]. intros a. apply Ha. by eapply Hap.
  - intros j mj Hj. apply lookup_upd in Hj as [(-> & -> & _)|[Hne Hj]]; [done|].
    eapply mem_ok_at; [|by eapply Hmem]. intros Hoj a. apply Ha. intros E. apply Hne. by eapply Hsep.
  - intros j j' mj mj' Hj Hj' Hoj Hoj' E.
    apply lookup_upd in Hj as [(-> & -> & _)|[Hne Hj]]; apply lookup_upd in Hj' as [(-> & -> & _)|[Hne' Hj']]; try done.
    + by destruct (Hsep' j' mj' Hne' Hj' Hoj').
    + by destruct (Hsep' j mj Hne Hj Hoj).
    + by eapply Hsep.
  - intros j mj c b s Hj Hoj Hb Hs. apply lookup_upd in Hj as [(-> & -> & _)|[Hne Hj]]; eauto.
Qed.

(** The written prefix of a memory's array is fit for the pool. *)
Lemma wf_entry h m n :
  wf h m → n = sizeBytes m → pool_entry_ok h (Cap m * MemoryPageSize) (mkSlice (array_id m) 0 n (Cap m * MemoryPageSize)).
Proof.
  intros Hw ->. pose proof (size_bounds h m Hw). destruct (wf_array _ _ Hw) as (a & Ea & Hl & Hz).
  split; [done|]. split; [done|]. split; [cbn; lia|]. by exists a.
Qed.

(** The memory's array moves to the pool. *)
Lemma arrays_give noPool h ms k m m' s :
  arrays_inv h ms → ms !! k = Some m → owns m → mem_ok h m' → ¬ owns m' →
  sl_arr s = array_id (inst m) → pool_entry_ok h (sl_cap s) s →
  arrays_inv (putPooledMemoryBuffer noPool h s) (<[k := m']> ms).
Proof.
  intros Hinv Hk Hown Hok Hno Es Hs.
  assert (arrays_inv h (<[k := m']> ms)) as [] by (eapply arrays_upd; eauto; by intros ?).
  assert (∀ c b x, pools (putPooledMemoryBuffer noPool h s) !! c = Some b → x ∈ b →
    x = s ∨ ∃ b', pools h !! c = Some b' ∧ x ∈ b') as Hin.
  { intros c b x. unfold putPooledMemoryBuffer. destruct (_ || _); [by eauto|]. cbn.
    rewrite lookup_insert_Some. intros [[<- <-]|[_ ?]]; [|by eauto]. rewrite elem_of_cons. intros [->|Hx]; [by left|].
    destruct (pools h !! sl_cap s) as [b'|] eqn:E; [|by apply elem_of_nil in Hx]. eauto. }
  constructor.
  - by apply putPooled_ok.
  - intros c b. unfold putPooledMemoryBuffer. destruct (_ || _); [apply a_nodup0|]. cbn.
    rewrite lookup_insert_Some. intros [[<- <-]|[_ ?]]; [|by eauto]. cbn. constructor.
    + destruct (pools h !! sl_cap s) as [b'|] eqn:E; cbn; [|apply not_elem_of_nil].
      intros Hx. apply list_elem_of_fmap in Hx as (x & Ex & Hx). rewrite Es in Ex.
      symmetry in Ex. revert Ex. by eapply (a_apart _ _ Hinv).
    + destruct (pools h !! sl_cap s) as [b'|] eqn:E; cbn; [by eauto|constructor].
  - intros j mj Hj. eapply (mem_ok_at h); [intros _ a; by rewrite put_arrays|]. by eauto.
  - done.
  - intros j mj c b x Hj Hoj Hb Hx. destruct (Hin c b x Hb Hx) as [->|(b' & Hb' & Hx')]; [|by eauto].
    rewrite Es. apply lookup_upd in Hj as [(-> & -> & _)|[Hne Hj]]; [done|]. intros E.
    apply Hne. symmetry. by eapply (a_sep _ _ Hinv).
Qed.

(** ** Slots *)

Lemma claimIfBusy_spec sl s :
  ∃ sl' b, claimIfBusy sl s = (sl', b) ∧ length sl' = length sl ∧
    (∀ x, sl' !! x = if decide (x = s ∧ sl !! s = Some slotBusy) then Some slotHandoff else sl !! x) ∧
    (b = true ↔ sl !! s = Some slotBusy ∨ sl !! s = Some slotHandoff).
Proof.
  unfold claimIfBusy. destruct (sl !! s) as [st|] eqn:E.
  - destruct (Z.eqb_spec st slotBusy) as [->|Hne].
    + eexists _, _. split; [done|]. split; [by rewrite length_insert|]. split; [|naive_solver].
      intros x. destruct (decide (x = s)) as [->|Hx].
      * rewrite list_lookup_insert_eq by (by eapply lookup_lt_Some). by rewrite decide_True.
      * rewrite list_lookup_insert_ne by done. rewrite decide_False; [done|]. by intros [? _].
    + eexists _, _. split; [done|]. split; [done|]. split.
      * intros x. rewrite decide_False; [done|]. intros [_ [= ?]]. done.
      * rewrite Z.eqb_eq. naive_solver.
  - eexists _, _. split; [done|]. split; [done|]. split; [|naive_solver].
    intros x. rewrite decide_False; [done|]. by intros [_ ?].
Qed.

(** A scan moves every busy slot it reaches to handoff, and reports whether
    there is a call on any of them. *)
Lemma claim_all_spec ids sl busy :
  ∃ sl' b, claim_all sl ids busy = (sl', b) ∧ length sl' = length sl ∧
    (∀ x, sl' !! x = if decide (x ∈ ids ∧ sl !! x = Some slotBusy) then Some slotHandoff else sl !! x) ∧
    (b = true ↔ busy = true ∨ ∃ s, s ∈ ids ∧ (sl !! s = Some slotBusy ∨ sl !! s = Some slotHandoff)).
Proof.
  revert sl busy; induction ids as [|s ids IH]; intros sl busy; cbn [claim_all].
  { eexists _, _. split; [done|]. split; [done|]. split.
    - intros x. rewrite decide_False; [done|]. intros [Hx _]. by apply elem_of_nil in Hx.
    - split; [by left|]. intros [?|(s & Hs & _)]; [done|]. by apply elem_of_nil in Hs. }
  destruct (claimIfBusy_spec sl s) as (sl1 & b1 & -> & Hl1 & Hx1 & Hb1).
  destruct (IH sl1 (if b1 then true else busy)) as (sl2 & b2 & -> & Hl2 & Hx2 & Hb2).
  assert (∀ x, sl1 !! x = Some slotBusy ∨ sl1 !! x = Some slotHandoff ↔ sl !! x = Some slotBusy ∨ sl !! x = Some slotHandoff) as Hst.
  { intros x. rewrite Hx1. destruct (decide _) as [[-> Hb]|]; [|done]. rewrite Hb. naive_solver. }
  eexists _, _. split; [done|]. split; [lia|]. split.
  - intros x. rewrite Hx2, Hx1. pose proof (elem_of_cons ids x s) as Hc.
    destruct (decide (x = s ∧ sl !! s = Some slotBusy)) as [[-> Hb]|Hn]; repeat case_decide; naive_solver.
  - rewrite Hb2. split.
    + intros [H|(s' & Hs' & Hst')].
      * destruct b1; [|by left]. right. exists s. split; [by left|]. by apply Hb1.
      * right. exists s'. split; [by right|]. by apply Hst.
    + intros [->|(s' & Hs' & Hst')]; [by left; destruct b1|]. apply elem_of_cons in Hs' as [->|Hs'].
      * left. assert (b1 = true) as -> by (by apply Hb1). done.
      * right. exists s'. split; [done|]. by apply Hst.
Qed.

(** Moving slots from busy to handoff. *)
Definition claimed (sl sl' : list Z) : Prop :=
  length sl' = length sl ∧ ∀ s, sl' !! s = sl !! s ∨ (sl !! s = Some slotBusy ∧ sl' !! s = Some slotHandoff).

Lemma slots_claimed sl sl' ms mds so ca : claimed sl sl' → slots_inv sl ms mds so ca → slots_inv sl' ms mds so ca.
Proof.
  intros [Hl Hx] []. constructor; rewrite ?Hl; try done.
  - intros s b Hs. destruct (s_calls0 s b Hs) as [? Hst]. split; [done|]. destruct (Hx s) as [->|[_ ->]]; auto.
  - intros s st Hst Hca. destruct (Hx s) as [E|[E ?]]; [rewrite E in Hst; eauto|].
    exfalso. assert (slotBusy = slotIdle) as ? by eauto. done.
Qed.

Lemma calls_claimed X sl sl' ms mds so ca : claimed sl sl' → calls_inv X sl ms mds so ca → calls_inv X sl' ms mds so ca.
Proof.
  intros [Hl Hx] []. constructor; [done|]. intros k m Hk Hm Hr. destruct (r_pending0 k m Hk Hm Hr) as (s & Hs & Hst).
  exists s. split; [done|]. destruct (Hx s) as [->|[E _]]; [done|]. by rewrite Hst in E.
Qed.

(** The scan of a memory. *)
Lemma inFlight_spec sl m :
  ∃ sl' b, anyCallInFlightLocked sl m = (sl', b) ∧ claimed sl sl' ∧
    (b = true → ∃ s, s ∈ reached m ∧ sl' !! s = Some slotHandoff) ∧
    (b = false → sl' = sl ∧ ∀ s, s ∈ reached m → sl !! s ≠ Some slotBusy ∧ sl !! s ≠ Some slotHandoff).
Proof.
  unfold anyCallInFlightLocked. destruct (claim_all_spec (reached m) sl false) as (sl' & b & -> & Hl & Hx & Hb).
  exists sl', b. split; [done|]. split; [|split].
  - split; [done|]. intros s. rewrite Hx. case_decide; [right; naive_solver|by left].
  - intros Hbt. apply Hb in Hbt as [?|(s & Hs & Hst)]; [done|]. exists s. split; [done|]. rewrite Hx.
    case_decide; [done|]. naive_solver.
  - intros Hbf. assert (∀ s, s ∈ reached m → sl !! s ≠ Some slotBusy ∧ sl !! s ≠ Some slotHandoff) as Hno.
    { intros s Hs. split; intros E; (assert (b = true) by (apply Hb; right; eauto); congruence). }
    split; [|done]. apply list_eq. intros x. rewrite Hx. case_decide as Hd; [|done]. destruct Hd as [Hin E]. by destruct (Hno x Hin).
Qed.

(** ** Updates of one memory *)

Lemma upd_is_Some {A} (l : list A) k x j : is_Some (<[k := x]> l !! j) ↔ is_Some (l !! j).
Proof. rewrite !lookup_lt_is_Some. by rewrite length_insert. Qed.

Lemma counts_upd i ks hs mds ms k m m' :
  counts_inv i ks hs mds ms → ms !! k = Some m → owner m' = owner m → importers m' = importers m →
  ownerClosed m' = ownerClosed m →
  (released (inst m') = true → released (inst m) = true ∨ (ownerClosed m = true ∧ importers m = 0)) →
  counts_inv i ks hs mds (<[k := m']> ms).
Proof.
  intros [] Hk Eo Ei Ec Hr. constructor.
  - intros j mj Hj. apply lookup_upd in Hj as [(-> & -> & _)|[_ Hj]]; [|by eauto]. rewrite Eo, Ec. eauto.
  - intros j mj Hj. apply lookup_upd in Hj as [(-> & -> & _)|[_ Hj]]; [|by eauto]. rewrite Eo, Ei. eauto.
  - intros j mj Hj. apply lookup_upd in Hj as [(-> & -> & _)|[_ Hj]]; [|by eauto]. rewrite Ei, Ec. intros Hrel.
    destruct (Hr Hrel) as [?|?]; eauto.
  - intros j md x Hj Hx. apply upd_is_Some. eauto.
Qed.

Lemma slots_upd sl ms mds so ca k m m' :
  slots_inv sl ms mds so ca → ms !! k = Some m → reached m' = reached m → slots_inv sl (<[k := m']> ms) mds so ca.
Proof.
  intros [] Hk Er.
  assert (∀ j mj, <[k := m']> ms !! j = Some mj → ∃ mj', ms !! j = Some mj' ∧ reached mj = reached mj') as Hms.
  { intros j mj Hj. apply lookup_upd in Hj as [(-> & -> & _)|[_ Hj]]; eauto. }
  constructor; try done.
  - intros s j Hs. destruct (s_of0 s j Hs) as (? & md & Hmd & Hk'). split; [done|]. exists md. split; [done|].
    intros x mx Hx Hmx. destruct (Hms x mx Hmx) as (mx' & Hmx' & ->). eauto.
  - intros s j x mx Hs Hmx Hr. destruct (Hms x mx Hmx) as (mx' & Hmx' & E). rewrite E in Hr. eauto.
  - intros x mx s Hmx Hr. destruct (Hms x mx Hmx) as (mx' & Hmx' & E). rewrite E in Hr. eauto.
  - intros j md chunk t s Hj Hc Ht. destruct (s_chunk0 j md chunk t s Hj Hc Ht) as (? & Hreg & ?). split; [done|]. split; [|done].
    intros x mx Hmx. destruct (Hms x mx Hmx) as (mx' & Hmx' & ->). eauto.
Qed.

(** A memory on whose slots there is no call has no running call. *)
Lemma no_runner sl ms mds so ca k m s j md :
  slots_inv sl ms mds so ca → ms !! k = Some m →
  (∀ s, s ∈ reached m → sl !! s ≠ Some slotBusy ∧ sl !! s ≠ Some slotHandoff) →
  ca !! s = Some true → so !! s = Some j → mds !! j = Some md → k ∈ Memories md → False.
Proof.
  intros Hsl Hk Hno Hca Hso Hmd Hin. destruct (s_of _ _ _ _ _ Hsl s j Hso) as (_ & md' & Hmd' & Hreg).
  simplify_eq. destruct (Hno s (Hreg k m Hin Hk)) as [H1 H2].
  destruct (s_calls _ _ _ _ _ Hsl s true Hca) as (_ & [?|?]); done.
Qed.

Lemma calls_upd (X X' : nat → Prop) sl ms mds so ca k m m' :
  calls_inv X sl ms mds so ca → ms !! k = Some m → reached m' = reached m → (∀ j, j ≠ k → X j → X' j) →
  (owns m → owns m' ∨ ∀ s j md, ca !! s = Some true → so !! s = Some j → mds !! j = Some md → k ∈ Memories md → False) →
  (¬ X' k → is_Some (recycle m') → ∃ s, s ∈ reached m ∧ sl !! s = Some slotHandoff) →
  calls_inv X' sl (<[k := m']> ms) mds so ca.
Proof.
  intros [] Hk Er HX Ho Hp. constructor.
  - intros s j md x mx Hca Hso Hmd Hx Hmx. apply lookup_upd in Hmx as [(-> & -> & _)|[_ Hmx]]; [|by eauto].
    destruct (Ho) as [?|Hno]; [by eauto|done|]. exfalso. eauto.
  - intros x mx HnX Hmx Hr. apply lookup_upd in Hmx as [(-> & -> & _)|[Hne Hmx]].
    + rewrite Er. auto.
    + apply (r_pending0 x mx); try done. intros HXx. apply HnX. auto.
Qed.

(** The owned array as a slice. *)
Lemma owned_slice h m :
  mem_ok h m → owns m → allocatedBuffer (inst m) =
    mkSlice (array_id (inst m)) 0 (Cap (inst m) * MemoryPageSize) (Cap (inst m) * MemoryPageSize) ∧
  0 ≤ sizeBytes (inst m) ≤ Cap (inst m) * MemoryPageSize.
Proof.
  intros Hok Ho. pose proof (mo_wf _ _ Hok Ho) as Hw. split; [exact (wf_alloc _ _ Hw)|].
  pose proof (size_bounds h (live (inst m)) Hw). cbn in *. lia.
Qed.

(** What a step of a close or of a leaving call leaves as it was. *)
Definition frame (w w' : world) : Prop :=
  w_mods w' = w_mods w ∧
  ∀ k m, w_mems w !! k = Some m → ∃ m', w_mems w' !! k = Some m' ∧
    owner m' = owner m ∧ importers m' = importers m ∧ ownerClosed m' = ownerClosed m ∧
    (released (inst m) = true → released (inst m') = true).

Lemma frame_refl w : frame w w.
Proof. split; [done|]. eauto 10. Qed.

Lemma frame_trans w1 w2 w3 : frame w1 w2 → frame w2 w3 → frame w1 w3.
Proof.
  intros [E1 H1] [E2 H2]. split; [congruence|]. intros k m Hk. destruct (H1 k m Hk) as (m' & Hk' & ? & ? & ? & ?).
  destruct (H2 k m' Hk') as (m'' & ? & ? & ? & ? & ?). exists m''. split_and!; try congruence; auto.
Qed.

Section release.
Context (noPool : bool) (i : nat) (ks hs : list nat) (so : gmap nat nat) (ca : gmap nat bool).

(** Replaces memory [k], which had its array, by one that has given it up, and
    puts the array in the pool: nothing runs on it. *)
Lemma give_ok X w k m m' s :
  inv X i ks hs w so ca → w_mems w !! k = Some m → owns m →
  (∀ s, s ∈ reached m → w_slots w !! s ≠ Some slotBusy ∧ w_slots w !! s ≠ Some slotHandoff) →
  owner m' = owner m → importers m' = importers m → ownerClosed m' = ownerClosed m → reached m' = reached m →
  released (inst m') = true → recycle m' = None → mem_ok (w_heap w) m' →
  (released (inst m) = true ∨ (ownerClosed m = true ∧ importers m = 0)) →
  s = mkSlice (array_id (inst m)) 0 (sizeBytes (inst m)) (Cap (inst m) * MemoryPageSize) →
  let w' := give_back noPool (set_mem w k m') None (Some s) in
  inv (λ j, X j ∧ j ≠ k) i ks hs w' so ca ∧ frame w w'.
Proof.
  intros [Ha Hc Hs Hr] Hk Ho Hno Eo Ei Ec Er Hrel Hrec Hok Hcl Es w'.
  assert (¬ owns m') as Hnot by (unfold owns; rewrite Hrel, Hrec; intros [?|[? ?]]; done).
  pose proof (a_mem _ _ Ha k m Hk) as Hm. split; [split|].
  - eapply arrays_give; try done; [by rewrite Es|]. rewrite Es.
    apply (wf_entry (w_heap w) (live (inst m))); [by apply mo_wf|done].
  - eapply counts_upd; eauto.
  - eapply slots_upd; eauto.
  - eapply (calls_upd X); [exact Hr|exact Hk|exact Er|by split| |rewrite Hrec; by intros _ [? ?]].
    intros _. right. intros. by eapply no_runner.
  - split; [done|]. intros j mj Hj. cbn. destruct (decide (j = k)) as [->|Hne].
    + rewrite list_lookup_insert_eq by (by eapply lookup_lt_Some). simplify_eq. eauto 10.
    + rewrite list_lookup_insert_ne by done. eauto 10.
Qed.

(** Slots move from busy to handoff. *)
Lemma inv_claimed X w sl : claimed (w_slots w) sl → inv X i ks hs w so ca → inv X i ks hs (set_slots w sl) so ca.
Proof. intros Hc []. constructor; try done; [by eapply slots_claimed|by eapply calls_claimed]. Qed.

Lemma inv_weaken (X X' : nat → Prop) w : (∀ k, X k → X' k) → inv X i ks hs w so ca → inv X' i ks hs w so ca.
Proof. intros HX [? ? ? []]. constructor; try done. constructor; [done|]. intros k m Hk. apply r_pending0. auto. Qed.

Lemma set_mem_same w k m : w_mems w !! k = Some m → set_mem w k m = w.
Proof. intros Hk. unfold set_mem. rewrite list_insert_id by done. by destruct w. Qed.

Lemma set_slots_same w : set_slots w (w_slots w) = w.
Proof. by destruct w. Qed.

(** A leaving call, or a close that has just parked the array, releases it if
    no other call is on the memory, and otherwise leaves it to that call. *)
Lemma exitAfterRelease_ok X w k m :
  inv X i ks hs w so ca → w_mems w !! k = Some m → released (inst m) = true →
  ∃ w', exitAfterRelease noPool w k = Ok w' ∧ inv (λ j, X j ∧ j ≠ k) i ks hs w' so ca ∧ frame w w'.
Proof.
  intros Hinv Hk Hrel. unfold exitAfterRelease. rewrite Hk.
  destruct (inFlight_spec (w_slots w) m) as (sl & b & -> & Hcl & Hbusy & Hfree). destruct b.
  - destruct (Hbusy eq_refl) as (s & Hs & Hst). eexists. split; [done|]. split; [|by split; [|eauto 10]].
    destruct (inv_claimed X w sl Hcl Hinv) as [? ? ? [Hsafe Hpend]]. constructor; try done. constructor; [done|].
    intros j mj HnX Hj Hr. cbn in Hj. destruct (decide (j = k)) as [->|Hne]; [simplify_eq; by exists s|].
    apply (Hpend j mj); try done. intros HX. by apply HnX.
  - destruct (Hfree eq_refl) as [-> Hno]. pose proof (a_mem _ _ (inv_arrays _ _ _ _ _ _ _ Hinv) k m Hk) as Hok.
    destruct (mo_plain _ _ Hok) as [Eexp Efree]. rewrite Efree.
    rewrite set_slots_same.
    destruct (recycle m) as [back|] eqn:Er.
    + assert (owns m) as Ho by (right; by rewrite Er). destruct (mo_pending _ _ Hok back Er) as [_ ->].
      destruct (owned_slice _ _ Hok Ho) as [Ealloc Hsz]. rewrite Ealloc. unfold dirtyLenLocked, slice_to. cbn [sl_len sl_cap sl_arr sl_off].
      rewrite (proj2 (Z.ltb_ge _ _)), (proj2 (Z.leb_le _ _)) by lia. cbn [obind]. eexists. split; [done|].
      apply (give_ok X w k m (set_pending m None None) _); try done; [|by left].
      destruct Hok. constructor; try done; cbn. unfold owns. cbn. rewrite Hrel. intros [?|[? ?]]; done.
    + cbn [obind give_back]. eexists. split; [done|].
      replace (set_pending m None None) with m by (destruct m; cbn in *; by subst).
      rewrite set_mem_same by done.
      split; [|apply frame_refl]. destruct Hinv as [? ? ? [Hsafe Hpend]]. constructor; try done. constructor; [done|].
      intros j mj HnX Hj Hr. destruct (decide (j = k)) as [->|Hne]; [simplify_eq; rewrite Er in Hr; by destruct Hr|].
      apply (Hpend j mj); try done. intros HX. by apply HnX.
Qed.

(** The claimed memory: released, its array parked or given up. *)
Lemma released_ok h m r :
  mem_ok h m → released (inst m) = false → recycle m = None →
  r = None ∨ r = Some (allocatedBuffer (inst m)) →
  mem_ok h (set_pending (set_inst m (set_released (inst m))) r None).
Proof.
  intros Hok Hrel Hrec Hr. destruct Hok as [Hwf Hp [He Hf] Hcap Hpe]. constructor; try done; cbn.
  - intros _. apply (Hwf (or_introl Hrel)).
  - intros s ->. destruct Hr as [?|[= ->]]; done.
Qed.

(** Both claims: of [ensureResourcesClosed] and of [releaseAfterLastHolder]. *)
Lemma claim_spec X w k m s :
  inv X i ks hs w so ca → w_mems w !! k = Some m → released (inst m) = false →
  ownerClosed m = true → importers m = 0 →
  s = mkSlice (array_id (inst m)) 0 (sizeBytes (inst m)) (Cap (inst m) * MemoryPageSize) →
  let m1 := set_inst m (set_released (inst m)) in
  ∃ w', (let '(slots, inFlight) := anyCallInFlightLocked (w_slots w) m1 in
     if inFlight then exitAfterRelease noPool (set_mem (set_slots w slots) k (set_pending m1 (Some (allocatedBuffer (inst m))) None)) k
     else Ok (give_back noPool (set_mem (set_slots w slots) k m1) None (Some s))) = Ok w' ∧
    inv X i ks hs w' so ca ∧ frame w w'.
Proof.
  intros Hinv Hk Hrel Hoc Him Es m1. pose proof (a_mem _ _ (inv_arrays _ _ _ _ _ _ _ Hinv) k m Hk) as Hok.
  assert (owns m) as Ho by (by left).
  assert (recycle m = None) as Hrec.
  { destruct (recycle m) as [x|] eqn:E; [|done]. destruct (mo_pending _ _ Hok x E). congruence. }
  destruct (mo_plain _ _ Hok) as [_ Efree].
  destruct (inFlight_spec (w_slots w) m1) as (sl & b & -> & Hcl & Hbusy & Hfree). destruct b.
  - set (m2 := set_pending m1 (Some (allocatedBuffer (inst m))) None).
    assert (inv X i ks hs (set_mem (set_slots w sl) k m2) so ca) as Hinv2.
    { destruct (inv_claimed X w sl Hcl Hinv) as [Ha Hc Hs Hr]. constructor.
      - eapply arrays_upd; [exact Ha|exact Hk|apply released_ok; auto|done].
      - eapply counts_upd; [exact Hc|exact Hk|done..|]. by right.
      - eapply slots_upd; [exact Hs|exact Hk|done].
      - eapply (calls_upd X); [exact Hr|exact Hk|done|done| |].
        + intros _. left. right. by eexists.
        + intros _ _. by apply Hbusy. }
    assert (frame w (set_mem (set_slots w sl) k m2)) as Hfr.
    { split; [done|]. intros j mj Hj. cbn. destruct (decide (j = k)) as [->|Hne].
      - rewrite list_lookup_insert_eq by (by eapply lookup_lt_Some). simplify_eq. eauto 10.
      - rewrite list_lookup_insert_ne by done. eauto 10. }
    destruct (exitAfterRelease_ok X (set_mem (set_slots w sl) k m2) k m2 Hinv2) as (w' & -> & Hinv' & Hfr').
    { cbn. by rewrite list_lookup_insert_eq by (by eapply lookup_lt_Some). } { done. }
    exists w'. split; [done|]. split; [|by eapply frame_trans]. eapply inv_weaken; [|exact Hinv']. by intros j [? _].
  - destruct (Hfree eq_refl) as [-> Hno]. eexists. split; [done|].
    rewrite set_slots_same.
    destruct (give_ok X w k m m1 s) as [Hinv' Hfr]; try done.
    + replace m1 with (set_pending m1 None None) by (unfold m1; destruct m; cbn in *; by subst).
      apply released_ok; auto.
    + by right.
    + split; [|exact Hfr]. eapply inv_weaken; [|exact Hinv']. by intros j [? _].
Qed.


Lemma claim_ok X w k m :
  inv X i ks hs w so ca → w_mems w !! k = Some m → ownerClosed m = true → importers m = 0 →
  ∃ w', claim noPool w k = Ok w' ∧ inv X i ks hs w' so ca ∧ frame w w'.
Proof.
  intros Hinv Hk Hoc Him. pose proof (a_mem _ _ (inv_arrays _ _ _ _ _ _ _ Hinv) k m Hk) as Hok.
  destruct (mo_plain _ _ Hok) as [Eexp _]. unfold claim. rewrite Hk. destruct (released (inst m)) eqn:Hrel.
  - unfold byteSize, slice_to. rewrite Hrel. rewrite (proj2 (Z.leb_le _ _)) by apply (mo_cap _ _ Hok). cbn [obind].
    exists w. split; [done|]. split; [done|apply frame_refl].
  - assert (owns m) as Ho by (by left). destruct (owned_slice _ _ Hok Ho) as [Ealloc Hsz].
    assert (wf (w_heap w) (inst m)) as Hw.
    { pose proof (mo_wf _ _ Hok Ho) as Hw. by replace (live (inst m)) with (inst m) in Hw by (destruct (inst m); cbn in *; by subst). }
    rewrite (byteSize_wf _ _ Hw), Ealloc. unfold slice_to. cbn [sl_cap sl_arr sl_off].
    rewrite (proj2 (Z.leb_le _ _)) by lia. cbn [obind]. rewrite Eexp.
    replace (drop_expBuffer (inst m)) with (inst m) by (destruct (inst m); cbn in *; by subst).
    change (allocatedBuffer (inst (set_inst m (set_released (inst m))))) with (allocatedBuffer (inst m)).
    destruct (claim_spec X w k m (mkSlice (array_id (inst m)) 0 (sizeBytes (inst m)) (Cap (inst m) * MemoryPageSize)))
      as (w' & E & H'); try done. exists w'. split; [|exact H']. rewrite <- E.
    by destruct (anyCallInFlightLocked (w_slots w) (set_inst m (set_released (inst m)))) as [sl []].
Qed.

Lemma releaseAfterLastHolder_ok X w k m :
  inv X i ks hs w so ca → w_mems w !! k = Some m → ownerClosed m = true → importers m = 0 →
  ∃ w', releaseAfterLastHolder noPool w k = Ok w' ∧ inv X i ks hs w' so ca ∧ frame w w'.
Proof.
  intros Hinv Hk Hoc Him. pose proof (a_mem _ _ (inv_arrays _ _ _ _ _ _ _ Hinv) k m Hk) as Hok.
  destruct (mo_plain _ _ Hok) as [_ Efree]. unfold releaseAfterLastHolder. rewrite Hk. destruct (released (inst m)) eqn:Hrel.
  - exists w. split; [done|]. split; [done|apply frame_refl].
  - assert (owns m) as Ho by (by left). destruct (owned_slice _ _ Hok Ho) as [Ealloc Hsz].
    change (allocatedBuffer (inst (set_inst m (set_released (inst m))))) with (allocatedBuffer (inst m)).
    change (free (set_inst m (set_released (inst m)))) with (free m). rewrite Efree.
    destruct (claim_spec X w k m (mkSlice (array_id (inst m)) 0 (sizeBytes (inst m)) (Cap (inst m) * MemoryPageSize)))
      as (w' & E & H'); try done. exists w'. split; [|exact H']. rewrite <- E.
    destruct (anyCallInFlightLocked (w_slots w) (set_inst m (set_released (inst m)))) as [sl []]; [done|].
    unfold dirtyLenLocked, slice_to. rewrite Ealloc. cbn [sl_len sl_cap sl_arr sl_off inst set_inst set_released sizeBytes].
    by rewrite (proj2 (Z.ltb_ge _ _)), (proj2 (Z.leb_le _ _)) by lia.
Qed.
End release.

(** ** Closing *)

Lemma cnt_cons k x l : cnt k (x :: l) = (if decide (x = k) then 1 else 0) + cnt k l.
Proof. unfold cnt. rewrite filter_cons. case_decide; rewrite ?zlen_cons; lia. Qed.

Lemma cnt_nonneg k l : 0 ≤ cnt k l.
Proof. apply zlen_nonneg. Qed.

Lemma cnt_app k l l' : cnt k (l ++ l') = cnt k l + cnt k l'.
Proof. unfold cnt. by rewrite filter_app, zlen_app. Qed.

Lemma cnt_elem k l : k ∈ l → 1 ≤ cnt k l.
Proof.
  induction l as [|x l IH]; [by rewrite elem_of_nil|]. rewrite elem_of_cons, cnt_cons.
  pose proof (cnt_nonneg k l). case_decide; [lia|]. intros [->|Hin]; [done|]. specialize (IH Hin). lia.
Qed.

Lemma cnt_none k l : k ∉ l → cnt k l = 0.
Proof.
  induction l as [|x l IH]; [done|]. rewrite not_elem_of_cons, cnt_cons. intros [Hne Hin].
  rewrite decide_False by done. by rewrite IH.
Qed.

Lemma share_nonneg i md o k : 0 ≤ share i md o k.
Proof. unfold share. pose proof (cnt_nonneg k (Memories md)). pose proof (cnt_nonneg k (heldMemories md)). repeat case_match; lia. Qed.

Lemma holders_nonneg i mds o k : 0 ≤ holders i mds o k.
Proof. revert i; induction mds as [|md mds IH]; intros i; cbn; [lia|]. pose proof (share_nonneg i md o k). specialize (IH (S i)). lia. Qed.

Lemma holders_upd i mds j md md' o k :
  mds !! j = Some md →
  holders i (<[j := md']> mds) o k = holders i mds o k - share (i + j) md o k + share (i + j) md' o k.
Proof.
  revert i j; induction mds as [|x mds IH]; intros i [|j] Hj; try done.
  - injection Hj as ->. cbn. rewrite Nat.add_0_r. lia.
  - change (<[S j := md']> (x :: mds)) with (x :: <[j := md']> mds). cbn [holders]. rewrite (IH (S i) j) by done. replace (S i + j)%nat with (i + S j)%nat by lia. lia.
Qed.

Lemma holders_ge i mds j md o k : mds !! j = Some md → share (i + j) md o k ≤ holders i mds o k.
Proof.
  revert i j; induction mds as [|x mds IH]; intros i [|j] Hj; cbn in *; try done.
  - simplify_eq. rewrite Nat.add_0_r. pose proof (holders_nonneg (S i) mds o k). lia.
  - specialize (IH (S i) j Hj). replace (i + S j)%nat with (S i + j)%nat by lia. pose proof (share_nonneg i x o k). lia.
Qed.

Lemma holders_app i mds md o k : holders i (mds ++ [md]) o k = holders i mds o k + share (i + length mds) md o k.
Proof.
  revert i; induction mds as [|x mds IH]; intros i; cbn; [rewrite Nat.add_0_r; lia|].
  rewrite IH. replace (S i + length mds)%nat with (i + S (length mds))%nat by lia. lia.
Qed.

(** Replaces memory [k] by one that differs in its holders. *)
Lemma inv_holder X i ks ks' hs hs' w so ca k m m' :
  inv X i ks hs w so ca → w_mems w !! k = Some m →
  inst m' = inst m → owner m' = owner m → reached m' = reached m → recycle m' = recycle m → free m' = free m →
  counts_inv i ks' hs' (w_mods w) (<[k := m']> (w_mems w)) → inv X i ks' hs' (set_mem w k m') so ca.
Proof.
  intros [Ha Hc Hs Hr] Hk Ei Eo Er Erec Ef Hc'.
  assert (owns m' ↔ owns m) as Hown by (unfold owns; by rewrite Ei, Erec). constructor; try done.
  - eapply arrays_upd; [exact Ha|exact Hk| |rewrite Ei; naive_solver].
    destruct (a_mem _ _ Ha k m Hk). constructor; rewrite ?Ei, ?Erec, ?Ef; try done. rewrite Hown. done.
  - by eapply slots_upd.
  - eapply (calls_upd X); [exact Hr|exact Hk|done|done|naive_solver|]. rewrite Erec. intros HX Hsome.
    by apply (r_pending _ _ _ _ _ _ Hr k m).
Qed.

Section close.
Context (noPool : bool) (so : gmap nat nat) (ca : gmap nat bool).

Lemma close_owner_ok X i ks hs w k m md :
  inv X i (k :: ks) hs w so ca → w_mods w !! i = Some md → Closed md = true →
  w_mems w !! k = Some m → owner m = i →
  ∃ w', close_owner noPool w k m = Ok w' ∧ inv X i ks hs w' so ca ∧ w_mods w' = w_mods w.
Proof.
  intros Hinv Hmd Hcl Hk Ho. pose proof (a_mem _ _ (inv_arrays _ _ _ _ _ _ _ Hinv) k m Hk) as Hok.
  destruct (mo_plain _ _ Hok) as [Eexp _]. unfold close_owner.
  assert (inv X i ks hs (set_mem w k (set_ownerClosed m)) so ca) as Hinv1.
  { eapply inv_holder; [exact Hinv|exact Hk|done..|]. destruct (inv_counts _ _ _ _ _ _ _ Hinv) as [C1 C2 C3 C4]. constructor.
    - intros j mj Hj. apply lookup_upd in Hj as [(-> & -> & _)|[_ Hj]]; [|by eauto]. cbn. rewrite Ho. eauto.
    - intros j mj Hj. assert (∃ mj0, w_mems w !! j = Some mj0 ∧ owner mj = owner mj0 ∧ importers mj = importers mj0)
        as (mj0 & Hj0 & -> & ->) by (apply lookup_upd in Hj as [(-> & -> & _)|[_ Hj]]; eauto).
      specialize (C2 j mj0 Hj0). rewrite cnt_cons in C2. destruct (i =? owner mj0)%nat; [lia|]. case_decide; lia.
    - intros j mj Hj. apply lookup_upd in Hj as [(-> & -> & _)|[_ Hj]]; [|by eauto]. cbn. intros Hrel.
      split; [done|]. by apply (C3 k m).
    - intros j mdj x Hj Hx. apply upd_is_Some. eauto. }
  assert (w_mems (set_mem w k (set_ownerClosed m)) !! k = Some (set_ownerClosed m)) as Hk1
    by (cbn; by rewrite list_lookup_insert_eq by (by eapply lookup_lt_Some)).
  cbn [inst set_ownerClosed importers]. rewrite Eexp. cbn [orb].
  destruct (poolable (inst m)); cbn [andb]; [|by eexists].
  destruct (Z.eqb_spec (importers m) 0); [|by eexists].
  destruct (claim_ok noPool i ks hs so ca X _ k _ Hinv1 Hk1) as (w' & -> & Hinv' & [Em _]); try done. by exists w'.
Qed.

(** Dropping a hold that the invariant counts. *)
Lemma drop_ok X i ks ks' hs hs' w k m :
  inv X i ks hs w so ca → w_mems w !! k = Some m →
  (∀ j mj, w_mems w !! j = Some mj →
     (if (i =? owner mj)%nat then 0 else cnt j ks) + cnt j hs =
     (if decide (j = k) then 1 else 0) + ((if (i =? owner mj)%nat then 0 else cnt j ks') + cnt j hs')) →
  inv X i ks' hs' (set_mem w k (drop_importer m)) so ca ∧ 0 < importers m.
Proof.
  intros Hinv Hk Hcnt. destruct (inv_counts _ _ _ _ _ _ _ Hinv) as [C1 C2 C3 C4].
  assert (0 < importers m) as Hpos.
  { specialize (C2 k m Hk). specialize (Hcnt k m Hk). rewrite decide_True in Hcnt by done.
    pose proof (holders_nonneg 0 (w_mods w) (owner m) k). pose proof (cnt_nonneg k ks'). pose proof (cnt_nonneg k hs').
    destruct (i =? owner m)%nat; lia. }
  split; [|done]. eapply inv_holder; [exact Hinv|exact Hk|done..|]. constructor.
  - intros j mj Hj. apply lookup_upd in Hj as [(-> & -> & _)|[_ Hj]]; [exact (C1 k m Hk)|exact (C1 j mj Hj)].
  - intros j mj Hj. apply lookup_upd in Hj as [(-> & -> & _)|[Hne Hj]].
    + cbn. rewrite (proj2 (Z.ltb_lt _ _)) by done. specialize (C2 k m Hk). specialize (Hcnt k m Hk).
      rewrite decide_True in Hcnt by done. lia.
    + specialize (C2 j mj Hj). specialize (Hcnt j mj Hj). rewrite decide_False in Hcnt by done. lia.
  - intros j mj Hj. apply lookup_upd in Hj as [(-> & -> & _)|[_ Hj]]; [|by eauto]. cbn. intros Hrel.
    destruct (C3 k m Hk Hrel). lia.
  - intros j mdj x Hj Hx. apply upd_is_Some. eauto.
Qed.

Lemma close_importer_ok X i ks hs w k m :
  inv X i (k :: ks) hs w so ca → w_mems w !! k = Some m → owner m ≠ i →
  ∃ w', close_importer noPool w k m = Ok w' ∧ inv X i ks hs w' so ca ∧ w_mods w' = w_mods w.
Proof.
  intros Hinv Hk Ho. unfold close_importer.
  assert (w_mems (set_mem w k (drop_importer m)) !! k = Some (drop_importer m)) as Hk1
    by (cbn; by rewrite list_lookup_insert_eq by (by eapply lookup_lt_Some)).
  destruct (drop_ok X i (k :: ks) ks hs hs w k m Hinv Hk) as [Hinv1 Hpos].
  { intros j mj Hj. rewrite cnt_cons. destruct (Nat.eqb_spec i (owner mj)) as [E|]; [|by repeat case_decide; subst; try done; lia].
    case_decide; [|done]. subst. simplify_eq. }
  change (ownerClosed (drop_importer m)) with (ownerClosed m). change (poolable (inst (drop_importer m))) with (poolable (inst m)).
  destruct (ownerClosed m) eqn:Hoc; cbn [andb]; [|by eexists].
  destruct (Z.eqb_spec (importers (drop_importer m)) 0); cbn [andb]; [|by eexists].
  destruct (poolable (inst m)); [|by eexists].
  destruct (claim_ok noPool i ks hs so ca X _ k _ Hinv1 Hk1) as (w' & -> & Hinv' & [Em _]); try done. by exists w'.
Qed.

Lemma close_held_ok X i ks hs w k m :
  inv X i ks (k :: hs) w so ca → w_mems w !! k = Some m →
  ∃ w', close_held noPool w k = Ok w' ∧ inv X i ks hs w' so ca ∧ w_mods w' = w_mods w.
Proof.
  intros Hinv Hk. unfold close_held. rewrite Hk.
  assert (w_mems (set_mem w k (drop_importer m)) !! k = Some (drop_importer m)) as Hk1
    by (cbn; by rewrite list_lookup_insert_eq by (by eapply lookup_lt_Some)).
  destruct (drop_ok X i ks ks (k :: hs) hs w k m Hinv Hk) as [Hinv1 Hpos].
  { intros j mj Hj. rewrite cnt_cons. repeat case_decide; subst; try done; lia. }
  change (ownerClosed (drop_importer m)) with (ownerClosed m). change (poolable (inst (drop_importer m))) with (poolable (inst m)).
  destruct (ownerClosed m) eqn:Hoc; cbn [andb]; [|by eexists].
  destruct (Z.eqb_spec (importers (drop_importer m)) 0); cbn [andb]; [|by eexists].
  destruct (poolable (inst m)); [|by eexists].
  destruct (releaseAfterLastHolder_ok noPool i ks hs so ca X _ k _ Hinv1 Hk1) as (w' & -> & Hinv' & [Em _]); try done. by exists w'.
Qed.

(** The memories named by the lists exist. *)
Definition known (w : world) (l : list nat) : Prop := ∀ k, k ∈ l → is_Some (w_mems w !! k).

Lemma known_mods X i ks hs w md j :
  inv X i ks hs w so ca → w_mods w !! j = Some md → known w (Memories md ++ heldMemories md).
Proof. intros Hinv Hj k Hk. by eapply (c_valid _ _ _ _ _ (inv_counts _ _ _ _ _ _ _ Hinv)). Qed.

Lemma close_memories_ok X i ks hs w md :
  inv X i ks hs w so ca → w_mods w !! i = Some md → Closed md = true → (∀ k, k ∈ ks → k ∈ Memories md) →
  ∃ w', close_memories noPool w i ks = Ok w' ∧ inv X i [] hs w' so ca ∧ w_mods w' = w_mods w.
Proof.
  revert w. induction ks as [|k ks IH]; intros w Hinv Hmd Hcl Hin; [by exists w|]. cbn.
  destruct (known_mods _ _ _ _ _ _ _ Hinv Hmd k) as [m Hk].
  { apply elem_of_app. left. apply Hin. by left. }
  rewrite Hk. assert (∃ w1, (if (owner m =? i)%nat then close_owner noPool w k m else close_importer noPool w k m) = Ok w1 ∧
    inv X i ks hs w1 so ca ∧ w_mods w1 = w_mods w) as (w1 & -> & Hinv1 & Em).
  { destruct (Nat.eqb_spec (owner m) i); [by eapply close_owner_ok|by apply close_importer_ok]. }
  cbn [obind]. destruct (IH w1 Hinv1) as (w' & E & Hinv' & Em'); [by rewrite Em|done|by intros x Hx; apply Hin; right|].
  exists w'. split; [done|]. split; [done|]. by rewrite Em'.
Qed.

Lemma close_holds_ok X i hs w md :
  inv X i [] hs w so ca → w_mods w !! i = Some md → (∀ k, k ∈ hs → k ∈ heldMemories md) →
  ∃ w', close_holds noPool w hs = Ok w' ∧ inv X i [] [] w' so ca ∧ w_mods w' = w_mods w.
Proof.
  revert w. induction hs as [|k hs IH]; intros w Hinv Hmd Hin; [by exists w|]. cbn.
  destruct (known_mods _ _ _ _ _ _ _ Hinv Hmd k) as [m Hk].
  { apply elem_of_app. right. apply Hin. by left. }
  destruct (close_held_ok X i [] hs w k m Hinv Hk) as (w1 & -> & Hinv1 & Em). cbn [obind].
  destruct (IH w1 Hinv1) as (w' & E & Hinv' & Em'); [by rewrite Em|by intros x Hx; apply Hin; right|].
  exists w'. split; [done|]. split; [done|]. by rewrite Em'.
Qed.

(** Replacing a module by one with the same memories and chunk, closed or with
    nothing held. *)
Lemma slots_mod sl ms mds j md md' :
  slots_inv sl ms mds so ca → mds !! j = Some md → Memories md' = Memories md →
  slotChunk md' = slotChunk md → slotNext md' = slotNext md → slots_inv sl ms (<[j := md']> mds) so ca.
Proof.
  intros [] Hj Em Ec En.
  assert (∀ x mx, <[j := md']> mds !! x = Some mx → ∃ mx0, mds !! x = Some mx0 ∧ Memories mx = Memories mx0 ∧
    slotChunk mx = slotChunk mx0 ∧ slotNext mx = slotNext mx0) as Hback.
  { intros x mx Hx. apply lookup_upd in Hx as [(-> & -> & _)|[_ Hx]]; eauto 10. }
  assert (∀ x mx, mds !! x = Some mx → ∃ mx', <[j := md']> mds !! x = Some mx' ∧ Memories mx' = Memories mx) as Hforw.
  { intros x mx Hx. destruct (decide (x = j)) as [->|Hne].
    - rewrite list_lookup_insert_eq by (by eapply lookup_lt_Some). simplify_eq. eauto.
    - rewrite list_lookup_insert_ne by done. eauto. }
  constructor; try done.
  - intros s x Hs. destruct (s_of0 s x Hs) as (? & mx & Hmx & Hreg). split; [done|].
    destruct (Hforw x mx Hmx) as (mx' & Hmx' & E). exists mx'. by rewrite E.
  - intros s x k m Hs Hk Hr. destruct (s_reach0 s x k m Hs Hk Hr) as (mx & Hmx & Hin).
    destruct (Hforw x mx Hmx) as (mx' & Hmx' & E). exists mx'. by rewrite E.
  - intros x mx chunk t s Hx Hc Ht. destruct (Hback x mx Hx) as (mx0 & Hx0 & Em0 & Ec0 & En0).
    rewrite Ec0 in Hc. destruct (s_chunk0 x mx0 chunk t s Hx0 Hc Ht) as (? & Hreg & Hfree). rewrite Em0, En0. done.
  - intros x x' mx mx' chunk chunk' t t' s Hx Hx' Hc Hc' Ht Ht'.
    destruct (Hback x mx Hx) as (mx0 & Hx0 & _ & Ec0 & _). destruct (Hback x' mx' Hx') as (mx0' & Hx0' & _ & Ec0' & _).
    rewrite Ec0 in Hc. rewrite Ec0' in Hc'. by eapply s_disjoint0.
Qed.

Lemma calls_mod X sl ms mds j md md' :
  calls_inv X sl ms mds so ca → mds !! j = Some md → Memories md' = Memories md → calls_inv X sl ms (<[j := md']> mds) so ca.
Proof.
  intros [] Hj Em. constructor; [|done]. intros s x mx k m Hca Hso Hx Hk Hm.
  apply lookup_upd in Hx as [(-> & -> & _)|[_ Hx]]; [|by eauto]. rewrite Em in Hk. eauto.
Qed.

(** Closing a module never panics and keeps the invariant. *)
Lemma close_ok X w i md :
  inv X 0 [] [] w so ca → w_mods w !! i = Some md →
  ∃ w', close noPool w i = Ok w' ∧ inv X 0 [] [] w' so ca.
Proof.
  intros Hinv Hmd. unfold close. rewrite Hmd. destruct (Closed md) eqn:Hcl; [by exists w|].
  set (md1 := mkMod (Memories md) (heldMemories md) true (slotsSingly md) (slotChunk md) (slotNext md)).
  assert (inv X i (Memories md) (heldMemories md) (set_mod w i md1) so ca) as Hinv1.
  { destruct Hinv as [Ha [C1 C2 C3 C4] Hs Hr]. constructor; try done; cbn.
    - constructor; try done.
      + intros k m Hk Hoc. destruct (C1 k m Hk Hoc) as (mo & Hmo & Hc). destruct (decide (owner m = i)) as [->|Hne].
        * rewrite list_lookup_insert_eq by (by eapply lookup_lt_Some). by exists md1.
        * rewrite list_lookup_insert_ne by done. by exists mo.
      + intros k m Hk. rewrite (holders_upd 0 _ i md) by done. specialize (C2 k m Hk). unfold share at 1 2. cbn. rewrite Hcl.
        change (cnt k []) with 0 in C2. destruct (i =? owner m)%nat, (0 =? owner m)%nat; lia.
      + intros j mj k Hj Hk. apply lookup_upd in Hj as [(-> & -> & _)|[_ Hj]]; eauto.
    - by eapply slots_mod.
    - by eapply calls_mod. }
  assert (w_mods (set_mod w i md1) !! i = Some md1) as Hmd1 by (cbn; by rewrite list_lookup_insert_eq by (by eapply lookup_lt_Some)).
  unfold ensureResourcesClosed. rewrite Hmd1.
  destruct (close_memories_ok X i (Memories md1) (heldMemories md) _ md1 Hinv1 Hmd1) as (w1 & -> & Hinv2 & Em1); try done.
  cbn [obind]. destruct (close_holds_ok X i (heldMemories md1) w1 md1 Hinv2) as (w2 & -> & Hinv3 & Em2); [by rewrite Em1|done|].
  cbn [obind]. eexists. split; [done|]. rewrite Em1 in Em2. destruct Hinv3 as [Ha [C1 C2 C3 C4] Hs Hr].
  assert (w_mods w2 !! i = Some md1) as Hmd2 by (by rewrite Em2). constructor; try done; cbn.
  - constructor; try done.
    + intros k m Hk Hoc. destruct (C1 k m Hk Hoc) as (mo & Hmo & Hc). destruct (decide (owner m = i)) as [->|Hne].
      * rewrite list_lookup_insert_eq by (by eapply lookup_lt_Some). by eexists.
      * rewrite list_lookup_insert_ne by done. by exists mo.
    + intros k m Hk. rewrite (holders_upd 0 _ i md1) by done. specialize (C2 k m Hk). unfold share. cbn.
      change (cnt k []) with 0 in *. destruct (i =? owner m)%nat, (owner m); lia.
    + intros j mj k Hj Hk. apply lookup_upd in Hj as [(-> & -> & _)|[_ Hj]]; [|by eauto]. cbn in Hk. rewrite app_nil_r in Hk.
      apply (C4 i md1 k Hmd2). apply elem_of_app. by left.
  - by eapply slots_mod.
  - by eapply calls_mod.
Qed.
End close.

(** ** A call that leaves *)

Section exit.
Context (noPool : bool) (so : gmap nat nat).

Lemma inv_visited (X X' : nat → Prop) i ks hs w ca :
  inv X i ks hs w so ca → (∀ k m, X k → w_mems w !! k = Some m → X' k ∨ recycle m = None) → inv X' i ks hs w so ca.
Proof.
  intros [? ? ? []] HX. constructor; try done. constructor; [done|]. intros k m HnX Hk Hr.
  apply (r_pending0 k m); try done. intros Hx. destruct (HX k m Hx Hk) as [?|E]; [done|]. rewrite E in Hr. by destruct Hr.
Qed.

Lemma exitHandoff_ok ca w ks :
  inv (λ j, j ∈ ks) 0 [] [] w so ca → known w ks →
  ∃ w', exitHandoff noPool w ks = Ok w' ∧ inv (λ _, False) 0 [] [] w' so ca ∧ frame w w'.
Proof.
  revert w. induction ks as [|k ks IH]; intros w Hinv Hkn; cbn.
  { exists w. split; [done|]. split; [|apply frame_refl]. eapply inv_weaken; [|exact Hinv]. cbn. intros k. by rewrite elem_of_nil. }
  destruct (Hkn k) as [m Hk]; [by left|]. rewrite Hk.
  assert (∃ w1, (if released (inst m) then exitAfterRelease noPool w k else Ok w) = Ok w1 ∧
    inv (λ j, j ∈ ks) 0 [] [] w1 so ca ∧ frame w w1) as (w1 & -> & Hinv1 & Hfr).
  { destruct (released (inst m)) eqn:Hrel.
    - destruct (exitAfterRelease_ok noPool 0 [] [] so ca _ w k m Hinv Hk Hrel) as (w1 & E & Hinv1 & Hfr).
      exists w1. split; [done|]. split; [|done]. eapply inv_weaken; [|exact Hinv1]. intros j [Hj Hne].
      apply elem_of_cons in Hj as [?|?]; done.
    - exists w. split; [done|]. split; [|apply frame_refl]. eapply inv_visited; [exact Hinv|]. intros j mj Hj Hmj.
      apply elem_of_cons in Hj as [->|?]; [|by left]. right. simplify_eq.
      destruct (recycle m) as [x|] eqn:E; [|done].
      destruct (mo_pending _ _ (a_mem _ _ (inv_arrays _ _ _ _ _ _ _ Hinv) k m Hk) x E). congruence. }
  cbn [obind]. destruct (IH w1 Hinv1) as (w' & E & Hinv' & Hfr').
  { intros j Hj. destruct (Hkn j) as [mj Hmj]; [by right|]. destruct (proj2 Hfr j mj Hmj) as (mj' & ? & _). by exists mj'. }
  exists w'. split; [done|]. split; [done|]. by eapply frame_trans.
Qed.

Lemma slots_exit sl ms mds ca s :
  slots_inv sl ms mds so ca → slots_inv (<[s := slotIdle]> sl) ms mds so (delete s ca).
Proof.
  intros []. constructor; rewrite ?length_insert; try done.
  - intros x b Hx. apply lookup_delete_Some in Hx as [Hne Hx]. rewrite list_lookup_insert_ne by done. eauto.
  - intros x st Hx Hca. apply lookup_upd in Hx as [(-> & -> & _)|[Hne Hx]]; [done|].
    rewrite lookup_delete_ne in Hca by done. eauto.
Qed.

(** The memories that only the leaving call protects are those of its module. *)
Lemma calls_exit (X : nat → Prop) sl ms mds ca s j md :
  slots_inv sl ms mds so ca → calls_inv (λ _, False) sl ms mds so ca → so !! s = Some j → mds !! j = Some md →
  (sl !! s = Some slotHandoff → ∀ k, k ∈ Memories md → X k) →
  calls_inv X (<[s := slotIdle]> sl) ms mds so (delete s ca).
Proof.
  intros Hs [] Hso Hmd HX. constructor.
  - intros x i mi k m Hx. apply lookup_delete_Some in Hx as [_ Hx]. eauto.
  - intros k m HnX Hk Hr. destruct (r_pending0 k m (λ f, f) Hk Hr) as (x & Hreach & Hx). exists x. split; [done|].
    destruct (decide (x = s)) as [->|Hne]; [|by rewrite list_lookup_insert_ne].
    destruct (s_reach _ _ _ _ _ Hs s j k m Hso Hk Hreach) as (md' & Hmd' & Hin). simplify_eq. exfalso. eauto.
Qed.

(** A call leaves without a panic, and nothing it owed stays parked. *)
Lemma ExitCall_ok w ca s j b :
  inv (λ _, False) 0 [] [] w so ca → ca !! s = Some b → so !! s = Some j →
  ∃ w', ExitCall noPool w j s = Ok w' ∧ inv (λ _, False) 0 [] [] w' so (delete s ca).
Proof.
  intros Hinv Hca Hso. pose proof Hinv as [Ha Hc Hs Hr]. destruct (s_of _ _ _ _ _ Hs s j Hso) as (Hlt & md & Hmd & _).
  destruct (s_calls _ _ _ _ _ Hs s b Hca) as (_ & Hst). unfold ExitCall. rewrite Hmd.
  set (w0 := set_slots w (<[s := slotIdle]> (w_slots w))).
  destruct Hst as [Hst|Hst]; rewrite Hst; cbn [Z.eqb slotBusy slotHandoff Pos.eqb].
  - eexists. split; [done|]. constructor; cbn; try done; [by apply slots_exit|].
    eapply calls_exit; try done. by rewrite Hst.
  - assert (inv (λ k, k ∈ Memories md) 0 [] [] w0 so (delete s ca)) as Hinv0.
    { constructor; cbn; try done; [by apply slots_exit|]. eapply calls_exit; done. }
    destruct (exitHandoff_ok (delete s ca) w0 (Memories md) Hinv0) as (w' & E & Hinv' & _).
    { intros k Hk. apply (known_mods so (delete s ca) _ _ _ _ w0 md j Hinv0 Hmd). apply elem_of_app. by left. }
    by exists w'.
Qed.
End exit.

(** ** The guest and the host on a memory *)

Lemma live_inst m : released (inst m) = false → live (inst m) = inst m.
Proof. destruct m as [[]]; cbn. by intros ->. Qed.

Lemma copy_others h s bytes j a : j ≠ sl_arr s → arrays h !! j = Some a → arrays (copy h s bytes) !! j = Some a.
Proof. intros Hj Ha. unfold copy. cbn. by rewrite list_lookup_insert_ne. Qed.

Section guest.
Context (so : gmap nat nat) (ca : gmap nat bool).

(** The instance of a memory that has its array changes, the array with it. *)
Lemma inv_inst X i ks hs w h' k m i' :
  inv X i ks hs w so ca → w_mems w !! k = Some m → owns m → released i' = released (inst m) →
  wf h' (live i') → regrown (w_heap w) (inst m) (mkHeap (arrays (w_heap w)) [] (pools h')) i' →
  (∀ j a, j ≠ array_id (inst m) → arrays (w_heap w) !! j = Some a → arrays h' !! j = Some a) →
  (is_Some (recycle m) → allocatedBuffer i' = allocatedBuffer (inst m)) →
  inv X i ks hs (set_mem (set_heap w h') k (set_inst m i')) so ca.
Proof.
  intros [Ha Hc Hs Hr] Hk Ho Er Hw (Esh & Epl & Ep & _ & Hid) Hoth Hrec.
  pose proof (a_mem _ _ Ha k m Hk) as Hm.
  assert (owns (set_inst m i')) as Ho' by (unfold owns in *; cbn; by rewrite Er). constructor; cbn.
  - eapply arrays_change; try done. pose proof (wf_alloc _ _ Hw) as Ealloc. pose proof (size_bounds _ _ Hw) as Hb.
    change (allocatedBuffer (live i')) with (allocatedBuffer i') in Ealloc. cbn in Hb.
    destruct Hm. constructor; cbn; try done.
    + by rewrite Epl, Esh.
    + split; [exact (wf_exp _ _ Hw)|by destruct mo_plain0].
    + rewrite Ealloc. cbn. lia.
    + intros s Es. rewrite Er, Hrec by (by rewrite Es). by apply mo_pending0.
  - eapply counts_upd; [done..|]. cbn. rewrite Er. by left.
  - by eapply slots_upd.
  - eapply (calls_upd X); [done..|by left|]. intros HX Hsome. by apply (r_pending _ _ _ _ _ _ Hr k m).
Qed.

Lemma store_ok X i ks hs w k m off val :
  inv X i ks hs w so ca → w_mems w !! k = Some m → owns m → 0 ≤ off → off + zlen val ≤ sizeBytes (inst m) →
  inv X i ks hs (set_heap w (guest_store (w_heap w) (inst m) off val)) so ca.
Proof.
  intros Hinv Hk Ho Hoff Hle. pose proof (a_mem _ _ (inv_arrays _ _ _ _ _ _ _ Hinv) k m Hk) as Hm.
  pose proof (mo_wf _ _ Hm Ho) as Hw. pose proof (zlen_nonneg val).
  destruct (copy_part (w_heap w) (live (inst m)) off (sizeBytes (inst m) - off) (sizeBytes (inst m) - off) val Hw)
    as [Hw' _]; cbn; [lia..|].
  replace (set_heap w _) with (set_mem (set_heap w (guest_store (w_heap w) (inst m) off val)) k (set_inst m (inst m))).
  2:{ rewrite set_mem_same; [done|]. cbn. rewrite Hk. by destruct m. }
  eapply inv_inst; try done; [by repeat (split; [done|]); left|]. intros j a Hj Ha. by apply copy_others.
Qed.

Lemma Write64_arrays h m off val h' b :
  wf h m → 0 ≤ off < 2 ^ 64 → zlen val < 2 ^ 63 → Write64 h m off val = Ok (h', b) →
  wf h' m ∧ pools h' = pools h ∧ ∀ j a, j ≠ array_id m → arrays h !! j = Some a → arrays h' !! j = Some a.
Proof.
  intros Hw Hoff Hlen E. pose proof (Write64_spec h m off val Hw Hoff ltac:(lia)) as [Hf Ht].
  destruct (Z.le_gt_cases (off + zlen val) (sizeBytes m)) as [Hle|Hgt]; [|rewrite Hf in E by lia; by simplify_eq].
  destruct (Ht Hle) as (h1 & E1 & Hw1 & _). rewrite E1 in E. simplify_eq. split; [done|]. pose proof (zlen_nonneg val).
  revert E1. unfold Write64, write_bytes64. rewrite (visibleBuffer_wf h m Hw). cbn [obind sl_len].
  pose proof (size_bounds h m Hw). rewrite rangeOutOfBounds_spec, (proj2 (Z.ltb_ge _ _)) by lia.
  unfold slice_from. cbn [sl_len sl_arr sl_off sl_cap]. rewrite (proj2 (Z.leb_le _ _)) by lia. cbn [obind].
  intros [= <-]. split; [done|]. intros j a Hj Ha. by apply copy_others.
Qed.

(** A host cannot write to a released memory, whose size is zero. *)
Lemma Write64_released h m off val h' b :
  released m = true → 0 ≤ off < 2 ^ 64 → zlen val < 2 ^ 63 → Write64 h m off val = Ok (h', b) → h' = h.
Proof.
  intros Hrel Hoff Hlen. unfold Write64, write_bytes64, visibleBuffer, byteSize. rewrite Hrel. unfold slice_to.
  destruct (0 <=? sl_cap (allocatedBuffer m)); [|done]. cbn [obind sl_len].
  destruct (rangeOutOfBounds off (zlen val) 0) eqn:Er; [by intros [= <- _]|].
  assert (val = []) as ->.
  { unfold rangeOutOfBounds, Add64 in Er. apply orb_false_iff in Er as [Ec El]. apply Z.ltb_ge in El.
    destruct (Z.leb_spec (2 ^ 64) (off + zlen val)); [done|]. rewrite wrap_small in El by (pose proof (zlen_nonneg val); lia).
    destruct val; [done|]. rewrite zlen_cons in El. pose proof (zlen_nonneg val). lia. }
  unfold slice_from. destruct (_ <=? _); [|done]. cbn [obind]. intros [= <- _]. unfold copy, set_array, overwrite.
  cbn [sl_arr sl_off sl_len]. rewrite take_nil. cbn [length app]. rewrite take_nil, Nat.add_0_r. cbn [app].
  rewrite take_drop. unfold array_of. cbn [sl_arr]. destruct h as [ars mk pl]. cbn. f_equal.
  destruct (ars !! _) as [a|] eqn:Ea; [by apply list_insert_id|]. apply list_insert_ge. by apply lookup_ge_None.
Qed.

Lemma write_ok X i ks hs w k m off val h' b :
  inv X i ks hs w so ca → w_mems w !! k = Some m → 0 ≤ off < 2 ^ 64 → zlen val < 2 ^ 63 →
  Write64 (w_heap w) (inst m) off val = Ok (h', b) → inv X i ks hs (set_heap w h') so ca.
Proof.
  intros Hinv Hk Hoff Hlen E. destruct (released (inst m)) eqn:Hrel.
  { apply Write64_released in E as ->; [|done..]. by destruct w. }
  pose proof (a_mem _ _ (inv_arrays _ _ _ _ _ _ _ Hinv) k m Hk) as Hm.
  assert (owns m) as Ho by (by left). pose proof (mo_wf _ _ Hm Ho) as Hw. pose proof (live_inst m Hrel) as El. rewrite El in Hw.
  destruct (Write64_arrays _ _ _ _ _ _ Hw Hoff Hlen E) as (Hw' & Ep & Hoth).
  replace (set_heap w h') with (set_mem (set_heap w h') k (set_inst m (inst m))).
  2:{ rewrite set_mem_same; [done|]. cbn. rewrite Hk. by destruct m. }
  eapply inv_inst; try done; [by rewrite El|]. by split_and!; try done; left.
Qed.

Lemma native_ok X i ks hs w k m pages :
  inv X i ks hs w so ca → w_mems w !! k = Some m → owns m →
  sizeBytes (inst m) ≤ pages * MemoryPageSize ≤ nativeGrowCap (inst m) →
  inv X i ks hs (set_mem w k (set_inst m (native_grow (inst m) (pages * MemoryPageSize)))) so ca.
Proof.
  intros Hinv Hk Ho Hp. pose proof (a_mem _ _ (inv_arrays _ _ _ _ _ _ _ Hinv) k m Hk) as Hm.
  pose proof (mo_wf _ _ Hm Ho) as Hw. pose proof (size_bounds _ _ Hw) as Hb. cbn in Hb.
  apply (inv_inst X i ks hs w (w_heap w)); try done; [|by repeat (split; [done|]); left].
  destruct Hw as [? ? ? (n & En & Hn) ? ? ? ? Hnat (a & Ea & Hl & Hz)]. cbn in *. constructor; try done; cbn.
  - exists n. split; [done|lia].
  - exists pages. split; [done|]. unfold MemoryPageSize in *. lia.
  - exists a. split; [done|]. split; [done|]. intros x Hx. apply Hz. lia.
Qed.

Lemma grow_ok X i ks hs w k m delta h' i' r told :
  inv X i ks hs w so ca → w_mems w !! k = Some m → (released (inst m) = true → delta = 0) → 0 ≤ delta < 2 ^ 64 →
  Grow64 (w_heap w) (inst m) delta = Ok (h', i', r, told) →
  inv X i ks hs (set_mem (set_heap w h') k (set_inst m i')) so ca.
Proof.
  intros Hinv Hk Hrel Hd E. destruct (decide (delta = 0)) as [->|Hnz].
  { unfold Grow64 in E. cbn in E. injection E as <- <- _ _. rewrite set_mem_same; [by destruct w|].
    cbn. rewrite Hk. by destruct m. }
  assert (released (inst m) = false) as Hlive by (apply not_true_is_false; intros ?; auto).
  clear Hrel. rename Hlive into Hrel.
  pose proof (a_mem _ _ (inv_arrays _ _ _ _ _ _ _ Hinv) k m Hk) as Hm.
  assert (owns m) as Ho by (by left). pose proof (mo_wf _ _ Hm Ho) as Hw. rewrite (live_inst m Hrel) in Hw.
  destruct (wf_size _ _ Hw) as (p & Es & _).
  assert (wf h' i' ∧ regrown (w_heap w) (inst m) h' i') as [Hw' (Esh & Epl & Ep & [x Ex] & Hid)].
  { pose proof (Grow64_spec (w_heap w) (inst m) delta p Hw Es Hd) as H. rewrite E in H.
    assert (regrown (w_heap w) (inst m) (w_heap w) (inst m)) by (repeat (split; [done|]); by left).
    repeat case_match; [by simplify_eq|by destruct H as (? & ? & ? & ?); simplify_eq; naive_solver|by simplify_eq]. }
  pose proof (wf_live _ _ Hw') as Hrel'.
  eapply inv_inst; try done.
  - by rewrite Hrel, Hrel'.
  - by destruct i'; cbn in *; subst.
  - intros j a _ Ha. rewrite Ex. by apply lookup_app_l_Some.
  - intros [s Hs]. destruct (mo_pending _ _ Hm s Hs). congruence.
Qed.
End guest.

(** ** A call that enters *)

Lemma enter_ok w so ca s i :
  inv (λ _, False) 0 [] [] w so ca → so !! s = Some i → ca !! s = None →
  inv (λ _, False) 0 [] [] (set_slots w (Enter (w_slots w) s)) so (<[s := false]> ca).
Proof.
  intros [Ha Hc Hs Hr] Hso Hca. destruct (s_of _ _ _ _ _ Hs s i Hso) as [Hlt _]. constructor; cbn; try done.
  - destruct Hs. constructor; unfold Enter; rewrite ?length_insert; try done.
    + intros x b Hx. apply lookup_insert_Some in Hx as [[<- <-]|[Hne Hx]].
      * split; [by exists i|]. left. by apply list_lookup_insert_eq.
      * rewrite list_lookup_insert_ne by done. eauto.
    + intros x st Hx Hcx. apply lookup_insert_None in Hcx as [Hcx Hne]. rewrite list_lookup_insert_ne in Hx by done. eauto.
  - destruct Hr. constructor.
    + intros x j md k m Hx. apply lookup_insert_Some in Hx as [[_ ?]|[_ Hx]]; [done|]. eauto.
    + intros k m Hf Hk Hrec. destruct (r_pending0 k m Hf Hk Hrec) as (x & Hreach & Hx). exists x. split; [done|].
      unfold Enter. rewrite list_lookup_insert_ne; [done|]. intros <-. by pose proof (s_idle _ _ _ _ _ Hs s _ Hx Hca).
Qed.

(** The memories of a module that is not closed are not released. *)
Lemma open_unreleased X w so ca i md k m :
  inv X 0 [] [] w so ca → w_mods w !! i = Some md → Closed md = false → k ∈ Memories md → w_mems w !! k = Some m →
  released (inst m) = false.
Proof.
  intros Hinv Hmd Hcl Hin Hk. destruct (inv_counts _ _ _ _ _ _ _ Hinv) as [C1 C2 C3 _].
  destruct (released (inst m)) eqn:Hrel; [|done]. exfalso. destruct (C3 k m Hk Hrel) as [Hoc Him].
  destruct (C1 k m Hk Hoc) as (mo & Hmo & Hclo). specialize (C2 k m Hk).
  pose proof (holders_ge 0 (w_mods w) i md (owner m) k Hmd) as Hge. unfold share in Hge. rewrite Hcl in Hge.
  change (0 + i)%nat with i in Hge. destruct (Nat.eqb_spec i (owner m)) as [->|_]; [congruence|].
  pose proof (cnt_elem k (Memories md) Hin). pose proof (cnt_nonneg k (heldMemories md)).
  change (cnt k []) with 0 in C2. destruct (0 =? owner m)%nat; lia.
Qed.

Lemma check_ok w so ca s i md :
  inv (λ _, False) 0 [] [] w so ca → ca !! s = Some false → so !! s = Some i → w_mods w !! i = Some md → Closed md = false →
  inv (λ _, False) 0 [] [] w so (<[s := true]> ca).
Proof.
  intros Hinv Hca Hso Hmd Hcl. pose proof Hinv as [Ha Hc Hs Hr]. constructor; try done.
  - destruct Hs. constructor; try done.
    + intros x b Hx. apply lookup_insert_Some in Hx as [[<- _]|[_ Hx]]; eauto.
    + intros x st Hx Hcx. apply lookup_insert_None in Hcx as [Hcx _]. eauto.
  - destruct Hr. constructor; [|done].
    intros x j mj k m Hx Hj Hmj Hk Hm. apply lookup_insert_Some in Hx as [[<- _]|[_ Hx]]; [|by eauto]. simplify_eq.
    left. by eapply open_unreleased.
Qed.

(** ** Collection of slots *)

(** [m'] is [m] with other weak pointers. *)
Definition same_mem (m m' : MemState) : Prop :=
  inst m' = inst m ∧ owner m' = owner m ∧ importers m' = importers m ∧ ownerClosed m' = ownerClosed m ∧
  recycle m' = recycle m ∧ free m' = free m.

(** The memories are the same up to their weak pointers. *)
Definition same_mems (ms ms' : list MemState) : Prop :=
  length ms' = length ms ∧ ∀ k m', ms' !! k = Some m' → ∃ m, ms !! k = Some m ∧ same_mem m m'.

Lemma owns_same m m' : same_mem m m' → owns m' ↔ owns m.
Proof. intros (E1 & _ & _ & _ & E5 & _). unfold owns. by rewrite E1, E5. Qed.

Lemma arrays_same h ms ms' : same_mems ms ms' → arrays_inv h ms → arrays_inv h ms'.
Proof.
  intros [_ Hold] []. constructor; try done.
  - intros k m' Hk. destruct (Hold k m' Hk) as (m & Hm & Hs). pose proof (owns_same m m' Hs) as Ho.
    destruct Hs as (E1 & _ & _ & _ & E5 & E6). destruct (a_mem0 k m Hm).
    constructor; rewrite ?Ho, ?E1, ?E5, ?E6; done.
  - intros k k' m' m0' Hk Hk'. destruct (Hold k m' Hk) as (m & Hm & Hs). destruct (Hold k' m0' Hk') as (m0 & Hm0 & Hs0).
    rewrite (owns_same m m' Hs), (owns_same m0 m0' Hs0), (proj1 Hs), (proj1 Hs0). exact (a_sep0 k k' m m0 Hm Hm0).
  - intros k m' c b s Hk. destruct (Hold k m' Hk) as (m & Hm & Hs). rewrite (owns_same m m' Hs), (proj1 Hs).
    exact (a_apart0 k m c b s Hm).
Qed.

Lemma counts_same i ks hs mds ms ms' : same_mems ms ms' → counts_inv i ks hs mds ms → counts_inv i ks hs mds ms'.
Proof.
  intros [Hlen Hold] []. constructor.
  - intros k m' Hk. destruct (Hold k m' Hk) as (m & Hm & (E1 & E2 & E3 & E4 & _)). rewrite E2, E4. eauto.
  - intros k m' Hk. destruct (Hold k m' Hk) as (m & Hm & (E1 & E2 & E3 & E4 & _)). rewrite E2, E3. eauto.
  - intros k m' Hk. destruct (Hold k m' Hk) as (m & Hm & (E1 & E2 & E3 & E4 & _)). rewrite E1, E3, E4. eauto.
  - intros j md k Hj Hk. specialize (c_valid0 j md k Hj Hk). rewrite lookup_lt_is_Some in *. lia.
Qed.

Lemma in_reached m x : x ∈ reached m ↔ Some x ∈ callers m ∨ ∃ c, Some c ∈ callerChunks m ∧ x ∈ c.
Proof.
  unfold reached. rewrite elem_of_app, list_elem_of_omap, list_elem_of_In, in_concat. setoid_rewrite <- list_elem_of_In.
  setoid_rewrite list_elem_of_omap. unfold id. naive_solver.
Qed.

Lemma reached_collect ss m x :
  (x ∈ reached (collect ss m) → x ∈ reached m) ∧ (x ∈ reached m → x ∉ ss → x ∈ reached (collect ss m)).
Proof.
  rewrite !in_reached. unfold collect. cbn. setoid_rewrite list_elem_of_fmap. split.
  - intros [(c & E & Hc)|(c & (c' & E & Hc) & Hx)]; [left|right].
    + destruct c as [y|]; [|done]. cbn in E. case_bool_decide; by simplify_eq.
    + exists c. unfold drop_chunk in E. case_bool_decide; by subst.
  - intros [Hc|(c & Hc & Hx)] Hn; [left|right].
    + exists (Some x). cbn. by rewrite bool_decide_eq_false_2.
    + exists c. split; [|done]. exists (Some c). split; [|done]. unfold drop_chunk. case_bool_decide as E; [|done]. by injection E as ->.
Qed.

Lemma collect_ok w so ca ss :
  inv (λ _, False) 0 [] [] w so ca → (∀ s, s ∈ ss → ca !! s = None) →
  (∀ i md chunk s, w_mods w !! i = Some md → slotChunk md = Some chunk → s ∈ chunk → s ∉ ss) →
  inv (λ _, False) 0 [] [] (mkWorld (w_heap w) (w_slots w) (collect ss <$> w_mems w) (w_mods w) (w_freed w))
    (filter (λ p, p.1 ∉ ss) so) ca.
Proof.
  intros [Ha Hcn Hs []] Hca Hch.
  assert (∀ k m', (collect ss <$> w_mems w) !! k = Some m' → ∃ m, w_mems w !! k = Some m ∧ m' = collect ss m) as Hms.
  { intros k m' H. rewrite list_lookup_fmap in H. destruct (w_mems w !! k); [|done]. injection H as <-. eauto. }
  assert (same_mems (w_mems w) (collect ss <$> w_mems w)) as Hsame.
  { split; [by rewrite length_fmap|]. intros k m' H. apply Hms in H as (m & Hk & ->). by exists m. }
  constructor; cbn; [by eapply arrays_same|by eapply counts_same|..].
  - destruct Hs. constructor; try done.
    + intros s b Hs. destruct (s_calls0 s b Hs) as [[j Hj] ?]. split; [|done]. exists j. apply map_lookup_filter_Some.
      split; [done|]. cbn. intros Hin. by rewrite Hca in Hs.
    + intros s j Hj. apply map_lookup_filter_Some in Hj as [Hj Hn]. destruct (s_of0 s j Hj) as (Hlt & md & Hmd & Hreg).
      split; [done|]. exists md. split; [done|]. intros k m' Hk H. apply Hms in H as (m & Hm & ->).
      apply reached_collect; [by eauto|done].
    + intros s j k m' Hj H Hr. apply map_lookup_filter_Some in Hj as [Hj _]. apply Hms in H as (m & Hm & ->).
      apply reached_collect in Hr. eauto.
    + intros k m' s H Hr. apply Hms in H as (m & Hm & ->). apply reached_collect in Hr. eauto.
    + intros j md chunk t s Hj Hc Ht. destruct (s_chunk0 j md chunk t s Hj Hc Ht) as (Hlt & Hreg & Hfree).
      split; [done|]. split.
      * intros k m' H. apply Hms in H as (m & Hm & ->). rewrite <- Hreg by done. pose proof (reached_collect ss m s).
        assert (s ∉ ss) by (eapply Hch; [done..|by eapply list_elem_of_lookup_2]). naive_solver.
      * intros Hle. apply map_lookup_filter_None. left. auto.
  - constructor.
    + intros s j md k m' Hcs Hj Hmd Hk H. apply map_lookup_filter_Some in Hj as [Hj _]. apply Hms in H as (m & Hm & ->).
      change (owns m). eauto.
    + intros k m' Hf H Hrec. apply Hms in H as (m & Hm & ->). destruct (r_pending0 k m Hf Hm Hrec) as (s & Hreach & Hst).
      exists s. split; [|done]. apply reached_collect; [done|]. intros Hin. specialize (Hca s Hin).
      by pose proof (s_idle _ _ _ _ _ Hs s _ Hst Hca).
Qed.

(** ** New slots *)

(** The memories [ks] of [ms] got the slots [new]. *)
Definition registered (new ks : list nat) (ms ms' : list MemState) : Prop :=
  length ms' = length ms ∧
  ∀ k m', ms' !! k = Some m' → ∃ m, ms !! k = Some m ∧ same_mem m m' ∧
    ∀ x, x ∈ reached m' ↔ x ∈ reached m ∨ (k ∈ ks ∧ x ∈ new).

Lemma register_spec upd new w ks :
  (∀ m, same_mem m (upd m) ∧ ∀ x, x ∈ reached (upd m) ↔ x ∈ reached m ∨ x ∈ new) →
  let w' := register upd w ks in
  w_heap w' = w_heap w ∧ w_slots w' = w_slots w ∧ w_mods w' = w_mods w ∧ registered new ks (w_mems w) (w_mems w').
Proof.
  intros Hupd. revert w. induction ks as [|k ks IH]; intros w.
  { cbn. do 4 (split; [done|]). intros k m' Hk. exists m'. split; [done|]. split; [done|]. intros x. set_solver. }
  cbn. destruct (w_mems w !! k) as [m|] eqn:E.
  - destruct (IH (set_mem w k (upd m))) as (-> & -> & -> & Hl & Hreg). do 3 (split; [done|]).
    split; [rewrite Hl; apply length_insert|].
    intros j m' Hj. destruct (Hreg j m' Hj) as (mj & Hmj & Hsame & Hr). cbn in Hmj.
    apply lookup_upd in Hmj as [(-> & -> & _)|[Hne Hmj]].
    + exists m. destruct (Hupd m) as [Hs Hx]. split; [done|]. split; [unfold same_mem in *; naive_solver congruence|].
      intros x. rewrite Hr, Hx. set_solver.
    + exists mj. split; [done|]. split; [done|]. intros x. rewrite Hr. set_solver.
  - destruct (IH w) as (-> & -> & -> & Hl & Hreg). do 4 (split; [done|]).
    intros j m' Hj. destruct (Hreg j m' Hj) as (mj & Hmj & Hsame & Hr). exists mj. split; [done|]. split; [done|].
    intros x. rewrite Hr. assert (j ≠ k) by congruence. set_solver.
Qed.

Lemma appendLive_in {T} full (ps : list (option T)) p q : Some q ∈ appendLive full ps p ↔ Some q ∈ ps ∨ q = p.
Proof.
  unfold appendLive. rewrite elem_of_app, list_elem_of_singleton. destruct full; [|naive_solver].
  rewrite list_elem_of_filter. naive_solver.
Qed.

(** Registering fresh slots. *)
Lemma inv_registered X i ks hs w w' so ca new l n :
  inv X i ks hs w so ca → registered new l (w_mems w) (w_mems w') → w_heap w' = w_heap w → w_mods w' = w_mods w →
  w_slots w' = w_slots w ++ replicate n slotIdle →
  (∀ x, x ∈ new → (length (w_slots w) ≤ x < length (w_slots w'))%nat) → inv X i ks hs w' so ca.
Proof.
  intros [Ha Hc Hs Hr] [Hlen Hreg] Eh Em Es Hnew. rewrite Es, length_app in Hnew.
  assert (∀ k m', w_mems w' !! k = Some m' → ∃ m, w_mems w !! k = Some m ∧ same_mem m m' ∧
    ∀ x, (x < length (w_slots w))%nat → x ∈ reached m' ↔ x ∈ reached m) as Hold.
  { intros k m' Hk. destruct (Hreg k m' Hk) as (m & ? & ? & Hx). exists m. split_and!; try done. intros x Hlt. rewrite Hx.
    split; [|by left]. intros [?|[_ Hin]]; [done|]. specialize (Hnew x Hin). lia. }
  assert (same_mems (w_mems w) (w_mems w')) as Hsame.
  { split; [done|]. intros k m' Hk. destruct (Hold k m' Hk) as (m & ? & ? & _). by exists m. }
  constructor; rewrite ?Eh, ?Em, ?Es; [by eapply arrays_same|by eapply counts_same|..].
  - destruct Hs. constructor; rewrite ?length_app.
    + intros s b Hb. destruct (s_calls0 s b Hb) as (? & Hst). split; [done|]. destruct Hst; [left|right]; by apply lookup_app_l_Some.
    + intros s st Hst Hcs. apply lookup_app_Some in Hst as [Hst|[_ Hst]]; [by eauto|]. by apply lookup_replicate in Hst as [-> _].
    + intros s j Hj. destruct (s_of0 s j Hj) as (Hlt & md & Hmd & Hk). split; [lia|]. exists md. split; [done|].
      intros k m' Hin Hk'. destruct (Hold k m' Hk') as (m & Hm & _ & Hx). apply Hx; eauto.
    + intros s j k m' Hj Hk Hin. destruct (s_of0 s j Hj) as (Hlt & _). destruct (Hold k m' Hk) as (m & Hm & _ & Hx).
      apply (Hx s Hlt) in Hin. eauto.
    + intros k m' s Hk Hr'. destruct (Hreg k m' Hk) as (m & Hm & _ & Hx). destruct (proj1 (Hx s) Hr') as [Hro|[_ Hin]].
      * specialize (s_bound0 k m s Hm Hro). lia.
      * specialize (Hnew s Hin). lia.
    + intros j md chunk t s Hj Hch Ht. destruct (s_chunk0 j md chunk t s Hj Hch Ht) as (Hlt & Hiff & Hfree).
      split; [lia|]. split; [|done]. intros k m' Hk. destruct (Hold k m' Hk) as (m & Hm & _ & Hx). rewrite Hx by done. eauto.
    + done.
  - destruct Hr. constructor.
    + intros s j md k m' Hs' Hj Hmd Hk Hk'. destruct (Hold k m' Hk') as (m & Hm & Hsm & _).
      apply (owns_same m m' Hsm). exact (r_safe0 s j md k m Hs' Hj Hmd Hk Hm).
    + intros k m' HX Hk. destruct (Hreg k m' Hk) as (m & Hm & (_ & _ & _ & _ & E5 & _) & Hx). rewrite E5. intros Hrec.
      destruct (r_pending0 k m HX Hm Hrec) as (s & Hin & Hst). exists s. split; [apply Hx; by left|]. by apply lookup_app_l_Some.
Qed.

(** A slot that is registered with the memories of a module is given to it. *)
Lemma inv_assign X i ks hs w so ca s j md :
  inv X i ks hs w so ca → so !! s = None → (s < length (w_slots w))%nat → w_mods w !! j = Some md →
  (∀ k m, w_mems w !! k = Some m → s ∈ reached m ↔ k ∈ Memories md) →
  (∀ j' md' chunk t, w_mods w !! j' = Some md' → slotChunk md' = Some chunk → chunk !! t = Some s → (t < slotNext md')%nat) →
  inv X i ks hs w (<[s := j]> so) ca.
Proof.
  intros [Ha Hc Hs Hr] Hso Hlt Hmd Hreg Hch.
  assert (ca !! s = None) as Hca.
  { destruct (ca !! s) as [b|] eqn:E; [|done]. destruct (s_calls _ _ _ _ _ Hs s b E) as [[? ?] _]. congruence. }
  constructor; try done.
  - destruct Hs. constructor; try done.
    + intros x b Hx. rewrite lookup_insert_ne by congruence. eauto.
    + intros x jx Hx. apply lookup_insert_Some in Hx as [[<- <-]|[_ Hx]]; [|by eauto]. split; [done|]. exists md. split; [done|].
      intros k m Hk Hm. by apply (Hreg k m).
    + intros x jx k m Hx Hk Hin. apply lookup_insert_Some in Hx as [[<- <-]|[_ Hx]]; [|by eauto]. exists md. split; [done|].
      by apply (Hreg k m).
    + intros jx mx chunk t x Hjx Hcx Ht. destruct (s_chunk0 jx mx chunk t x Hjx Hcx Ht) as (? & ? & Hfree). split_and!; try done.
      intros Hle. rewrite lookup_insert_ne; [by auto|]. intros <-. specialize (Hch jx mx chunk t Hjx Hcx Ht). lia.
  - destruct Hr. constructor; [|done]. intros x jx mx k m Hx Hjx. rewrite lookup_insert_ne in Hjx by congruence. eauto.
Qed.

(** A module changes its slots only. *)
Lemma inv_mod X i ks hs w so ca j md md' :
  inv X i ks hs w so ca → w_mods w !! j = Some md →
  Memories md' = Memories md → heldMemories md' = heldMemories md → Closed md' = Closed md →
  slots_inv (w_slots w) (w_mems w) (<[j := md']> (w_mods w)) so ca → inv X i ks hs (set_mod w j md') so ca.
Proof.
  intros [Ha [C1 C2 C3 C4] Hs Hr] Hj Em Eh Ec Hs'. constructor; try done; cbn; [|by eapply calls_mod]. constructor; try done.
  - intros k m Hk Hoc. destruct (C1 k m Hk Hoc) as (mo & Hmo & Hcl). destruct (decide (owner m = j)) as [E|Hne].
    + rewrite E in Hmo |- *. rewrite list_lookup_insert_eq by (by eapply lookup_lt_Some). exists md'. split; [done|]. by simplify_eq; rewrite Ec.
    + rewrite list_lookup_insert_ne by done. eauto.
  - intros k m Hk. rewrite (holders_upd 0 _ j md) by done. specialize (C2 k m Hk). unfold share. rewrite Em, Eh, Ec. lia.
  - intros x mx k Hx Hk. apply lookup_upd in Hx as [(-> & -> & _)|[_ Hx]]; [|by eauto]. rewrite Em, Eh in Hk. eauto.
Qed.

(** [chunk] is module [j]'s, its slots from [next] on not given out yet. *)
Record chunk_ready (w : world) (so : gmap nat nat) (j : nat) (md : Mod) (chunk : list nat) (next : nat) : Prop := {
  cr_reg : ∀ t s, chunk !! t = Some s → (s < length (w_slots w))%nat ∧
    (∀ k m, w_mems w !! k = Some m → s ∈ reached m ↔ k ∈ Memories md) ∧ ((next ≤ t)%nat → so !! s = None);
  cr_inj : ∀ t t' s, chunk !! t = Some s → chunk !! t' = Some s → t = t';
  cr_own : ∀ j' md' chunk' t t' s, j' ≠ j → w_mods w !! j' = Some md' → slotChunk md' = Some chunk' →
    chunk' !! t' = Some s → chunk !! t ≠ Some s;
}.

Lemma slots_chunk w so ca j md md' chunk :
  slots_inv (w_slots w) (w_mems w) (w_mods w) so ca → w_mods w !! j = Some md → Memories md' = Memories md →
  slotChunk md' = Some chunk → chunk_ready w so j md chunk (slotNext md') →
  slots_inv (w_slots w) (w_mems w) (<[j := md']> (w_mods w)) so ca.
Proof.
  intros [] Hj Em Ec [].
  assert (∀ x mx, w_mods w !! x = Some mx → ∃ mx', <[j := md']> (w_mods w) !! x = Some mx' ∧ Memories mx' = Memories mx) as Hforw.
  { intros x mx Hx. destruct (decide (x = j)) as [->|Hne].
    - rewrite list_lookup_insert_eq by (by eapply lookup_lt_Some). simplify_eq. eauto.
    - rewrite list_lookup_insert_ne by done. eauto. }
  constructor; try done.
  - intros s x Hs. destruct (s_of0 s x Hs) as (? & mx & Hmx & Hreg). split; [done|].
    destruct (Hforw x mx Hmx) as (mx' & Hmx' & E). exists mx'. by rewrite E.
  - intros s x k m Hs Hk Hr. destruct (s_reach0 s x k m Hs Hk Hr) as (mx & Hmx & Hin).
    destruct (Hforw x mx Hmx) as (mx' & Hmx' & E). exists mx'. by rewrite E.
  - intros x mx c t s Hx Hc Ht. apply lookup_upd in Hx as [(-> & -> & _)|[_ Hx]]; [|by eauto]. simplify_eq. rewrite Em. eauto.
  - intros x x' mx mx' c c' t t' s Hx Hx' Hc Hc' Ht Ht'.
    apply lookup_upd in Hx as [(-> & -> & _)|[Hne Hx]]; apply lookup_upd in Hx' as [(-> & -> & _)|[Hne' Hx']]; simplify_eq.
    + eauto.
    + by destruct (cr_own0 x' mx' c' t t' s).
    + by destruct (cr_own0 x mx c t' t s).
    + eauto.
Qed.

(** The next slot of a chunk. *)
Lemma chunk_slot_ok X i ks hs w so ca j md chunk next s n :
  inv X i ks hs w so ca → w_mods w !! j = Some md → chunk_ready w so j md chunk next → chunk !! next = Some s →
  inv X i ks hs (set_mod w j (mkMod (Memories md) (heldMemories md) (Closed md) n (Some chunk) (S next))) (<[s := j]> so) ca.
Proof.
  intros Hinv Hj Hr Hs. set (md' := mkMod _ _ _ _ _ _). pose proof Hr as [Hreg Hinj Hown].
  assert (inv X i ks hs (set_mod w j md') so ca) as Hinv1.
  { eapply inv_mod; try done. eapply slots_chunk; [by destruct Hinv|done..|]. constructor; try done.
    intros t x Hx. destruct (Hreg t x Hx) as (? & ? & Hf). split_and!; try done. cbn. intros. apply Hf. lia. }
  destruct (Hreg next s Hs) as (Hlt & Hiff & Hfree).
  assert (w_mods (set_mod w j md') !! j = Some md') as Hj' by (cbn; by rewrite list_lookup_insert_eq by (by eapply lookup_lt_Some)).
  eapply inv_assign; [exact Hinv1|by apply Hfree|done|exact Hj'|done|].
  intros j' mj c t Hmj Hc Ht. cbn in Hmj. apply lookup_upd in Hmj as [(-> & -> & _)|[Hne Hmj]].
  - injection Hc as <-. rewrite (Hinj t next s Ht Hs). cbn. lia.
  - by destruct (Hown j' mj c next t s Hne Hmj Hc Ht).
Qed.

Lemma callers_upd full s m :
  same_mem m (set_callers m (appendLive full (callers m) s)) ∧
  ∀ x, x ∈ reached (set_callers m (appendLive full (callers m) s)) ↔ x ∈ reached m ∨ x ∈ [s].
Proof. split; [done|]. intros x. rewrite !in_reached. cbn. rewrite appendLive_in, list_elem_of_singleton. naive_solver. Qed.

Lemma chunks_upd full c m :
  same_mem m (set_callerChunks m (appendLive full (callerChunks m) c)) ∧
  ∀ x, x ∈ reached (set_callerChunks m (appendLive full (callerChunks m) c)) ↔ x ∈ reached m ∨ x ∈ c.
Proof. split; [done|]. intros x. rewrite !in_reached. cbn. setoid_rewrite appendLive_in. naive_solver. Qed.

(** A slot that does not exist yet is nobody's. *)
Lemma fresh_slot X i ks hs w so ca s :
  inv X i ks hs w so ca → (length (w_slots w) ≤ s)%nat →
  so !! s = None ∧ (∀ k m, w_mems w !! k = Some m → s ∉ reached m) ∧
  ∀ j md chunk t, w_mods w !! j = Some md → slotChunk md = Some chunk → chunk !! t ≠ Some s.
Proof.
  intros [_ _ [] _] Hle. split_and!.
  - destruct (so !! s) as [j|] eqn:E; [|done]. destruct (s_of0 s j E) as [? _]. lia.
  - intros k m Hk Hin. specialize (s_bound0 k m s Hk Hin). lia.
  - intros j md chunk t Hj Hc Ht. destruct (s_chunk0 j md chunk t s Hj Hc Ht) as [? _]. lia.
Qed.

(** A fresh slot, registered with a module's memories, is given to the module. *)
Lemma fresh_slot_ok X i ks hs w w' so ca s j md :
  inv X i ks hs w so ca → w_mods w !! j = Some md → s = length (w_slots w) →
  registered [s] (Memories md) (w_mems w) (w_mems w') → w_heap w' = w_heap w → w_mods w' = w_mods w →
  w_slots w' = w_slots w ++ [slotIdle] → inv X i ks hs w' (<[s := j]> so) ca.
Proof.
  intros Hinv Hj Es Hreg Eh Em Esl.
  destruct (fresh_slot _ _ _ _ _ _ _ s Hinv) as (Hso & Hnr & Hnc); [lia|].
  assert (inv X i ks hs w' so ca) as Hinv'.
  { eapply (inv_registered _ _ _ _ w w' _ _ [s] (Memories md) 1); try done.
    intros x Hx. apply list_elem_of_singleton in Hx as ->. rewrite Esl, length_app. cbn. lia. }
  eapply inv_assign; try done.
  - rewrite Esl, length_app. cbn. lia.
  - by rewrite Em.
  - intros k m' Hk. destruct (proj2 Hreg k m' Hk) as (m & Hm & _ & Hx). rewrite Hx, list_elem_of_singleton.
    specialize (Hnr k m Hm). naive_solver.
  - intros j' md' chunk t Hj' Hc Ht. rewrite Em in Hj'. by destruct (Hnc j' md' chunk t Hj' Hc).
Qed.

(** A fresh chunk. *)
Lemma fresh_chunk_ok X i ks hs w w' so ca j md chunk n :
  inv X i ks hs w so ca → w_mods w !! j = Some md → chunk = seq (S (length (w_slots w))) n →
  registered chunk (Memories md) (w_mems w) (w_mems w') → w_heap w' = w_heap w → w_mods w' = w_mods w →
  w_slots w' = (w_slots w ++ [slotIdle]) ++ replicate n slotIdle →
  inv X i ks hs w' so ca ∧ chunk_ready w' so j md chunk 0.
Proof.
  intros Hinv Hj Ech Hreg Eh Em Esl.
  assert (∀ t s, chunk !! t = Some s → s = S (length (w_slots w) + t) ∧ (t < n)%nat) as Hat.
  { intros t s Ht. subst. apply lookup_seq in Ht. lia. }
  assert (length (w_slots w') = S (length (w_slots w) + n)) as Hlen
    by (rewrite Esl, !length_app, length_replicate; cbn; lia). split.
  - eapply (inv_registered _ _ _ _ w w' _ _ chunk (Memories md) (S n)); try done; [by rewrite Esl, <- app_assoc|].
    intros x Hx. apply list_elem_of_lookup_1 in Hx as [t Ht]. apply Hat in Ht. lia.
  - constructor.
    + intros t s Ht. pose proof (Hat t s Ht). destruct (fresh_slot _ _ _ _ _ _ _ s Hinv) as (Hso & Hnr & _); [lia|].
      split; [lia|]. split; [|done]. intros k m' Hk. destruct (proj2 Hreg k m' Hk) as (m & Hm & _ & ->).
      specialize (Hnr k m Hm). apply list_elem_of_lookup_2 in Ht. naive_solver.
    + intros t t' s Ht Ht'. apply Hat in Ht, Ht'. lia.
    + intros j' md' chunk' t t' s _ Hj' Hc Ht' Ht. rewrite Em in Hj'. apply Hat in Ht.
      destruct (fresh_slot _ _ _ _ _ _ _ s Hinv) as (_ & _ & Hnc); [lia|]. by destruct (Hnc j' md' chunk' t' Hj' Hc).
Qed.

Lemma own_chunk_ready X i ks hs w so ca j md chunk :
  inv X i ks hs w so ca → w_mods w !! j = Some md → slotChunk md = Some chunk → chunk_ready w so j md chunk (slotNext md).
Proof.
  intros [_ _ [] _] Hj Hc. constructor.
  - intros t s Ht. eauto.
  - intros t t' s Ht Ht'. by destruct (s_disjoint0 j j md md chunk chunk t t' s).
  - intros j' md' chunk' t t' s Hne Hj' Hc' Ht' Ht. by destruct (s_disjoint0 j' j md' md chunk' chunk t' t s).
Qed.

(** The chunk path of [CallSlotFor]: the current chunk, or a fresh one. *)
Lemma slot_chunk_ok X w so ca full i md chunk next s w1 :
  inv X 0 [] [] w so ca → w_mods w !! i = Some md →
  (w1, chunk, next) =
    (let w0 := set_slots w (w_slots w ++ [slotIdle]) in
     let fresh := seq (length (w_slots w0)) callSlotsPerChunk in
     let wf := register (λ mem, set_callerChunks mem (appendLive full (callerChunks mem) fresh))
       (set_slots w0 (w_slots w0 ++ replicate callSlotsPerChunk slotIdle)) (Memories md) in
     match slotChunk md with
     | Some chunk => if (slotNext md =? callSlotsPerChunk)%nat then (wf, fresh, 0%nat) else (w0, chunk, slotNext md)
     | None => (wf, fresh, 0%nat)
     end) →
  chunk !! next = Some s →
  inv X 0 [] [] (set_mod w1 i (mkMod (Memories md) (heldMemories md) (Closed md) (slotsSingly md) (Some chunk) (S next)))
    (<[s := i]> so) ca.
Proof.
  intros Hinv Hmd E Hs. cbn zeta in E. set (w0 := set_slots w (w_slots w ++ [slotIdle])) in *.
  set (fresh := seq (length (w_slots w0)) callSlotsPerChunk) in *.
  set (wi := set_slots w0 (w_slots w0 ++ replicate callSlotsPerChunk slotIdle)) in *.
  set (wf := register _ _ _) in E.
  destruct (register_spec _ fresh wi (Memories md) (chunks_upd full fresh)) as (E1 & E2 & E3 & Hreg).
  fold wf in E1, E2, E3, Hreg.
  destruct (fresh_chunk_ok X 0 [] [] w wf so ca i md fresh callSlotsPerChunk) as [Hinvf Hready]; try done.
  { unfold fresh, w0. cbn [w_slots set_slots]. rewrite length_app. change (length [slotIdle]) with 1%nat. by rewrite Nat.add_1_r. }
  assert (inv X 0 [] [] w0 so ca) as Hinv0.
  { eapply (inv_registered _ _ _ _ w w0 _ _ [] [] 1); try done; [|by intros x Hx; apply elem_of_nil in Hx].
    split; [done|]. intros k m Hk. exists m. split; [done|]. split; [done|]. set_solver. }
  assert ((w1, chunk, next) = (wf, fresh, 0%nat) ∨ (w1, chunk, next) = (w0, chunk, slotNext md) ∧ slotChunk md = Some chunk) as Hc.
  { destruct (slotChunk md) as [c|]; [destruct (slotNext md =? _)%nat|]; [by left|right; by simplify_eq|by left]. }
  destruct Hc as [[= -> -> ->]|[[= -> ->] Hch]].
  - eapply (chunk_slot_ok X 0 [] [] wf so ca i md fresh 0); [done|by rewrite E3|done|done].
  - eapply (chunk_slot_ok X 0 [] [] w0 so ca i md chunk); [done|done|by eapply own_chunk_ready|done].
Qed.

Lemma slot_ok X w so ca full i w' s :
  inv X 0 [] [] w so ca → CallSlotFor full (set_slots w (w_slots w ++ [slotIdle])) i (length (w_slots w)) = Ok (w', s) →
  inv X 0 [] [] w' (<[s := i]> so) ca.
Proof.
  intros Hinv. unfold CallSlotFor. cbn [w_mods set_slots]. destruct (w_mods w !! i) as [md|] eqn:Hmd; [|done].
  destruct (Nat.eqb_spec (length (Memories md)) 0) as [E0|_].
  { intros [= <- <-]. eapply fresh_slot_ok; try done. split; [done|]. intros k m Hk. exists m. split; [done|]. split; [done|].
    apply nil_length_inv in E0 as ->. set_solver. }
  destruct (slotsSingly md <? callSlotsSingly).
  { intros [= <- <-]. set (md1 := mkMod _ _ _ _ _ _). set (wi := set_mod _ _ _).
    destruct (register_spec _ [length (w_slots w)] wi (Memories md) (callers_upd full (length (w_slots w)))) as (E1 & E2 & E3 & Hreg).
    eapply (fresh_slot_ok X 0 [] [] (set_mod w i md1) _ so ca _ i md1); try done.
    1: { eapply inv_mod; try done. eapply slots_mod; [by destruct Hinv|done..]. }
    cbn. by rewrite list_lookup_insert_eq by (by eapply lookup_lt_Some). }
  intros E. pose proof (slot_chunk_ok X w so ca full i md) as Hok. cbn zeta in Hok.
  destruct (slotChunk md) as [c|]; [destruct (slotNext md =? callSlotsPerChunk)%nat|];
    match type of E with context [match ?l !! ?t with _ => _ end] => destruct (l !! t) as [x|] eqn:Hx; [|done] end;
    injection E as <- <-; eapply Hok; done.
Qed.

(** ** Instantiation *)

Lemma inv_cnt X i ks hs hs' w so ca : (∀ k, cnt k hs = cnt k hs') → inv X i ks hs w so ca → inv X i ks hs' w so ca.
Proof. intros E [? [] ? ?]. constructor; try done. constructor; try done. intros k m Hk. rewrite <- E. eauto. Qed.

(** Registered imports are holds that no module has yet. *)
Lemma import_memory_ok X hs w w' so ca k :
  inv X 0 [] hs w so ca → import_memory w k = Ok w' →
  inv X 0 [] (k :: hs) w' so ca ∧ w_heap w' = w_heap w ∧ w_mods w' = w_mods w ∧
  length (w_mems w') = length (w_mems w) ∧ (k < length (w_mems w))%nat.
Proof.
  intros Hinv. unfold import_memory. destruct (w_mems w !! k) as [m|] eqn:Hk; [|done].
  destruct (ownerClosed m) eqn:Hoc; [done|]. intros [= <-]. pose proof (lookup_lt_Some _ _ _ Hk).
  split; [|by cbn; rewrite length_insert]. destruct (inv_counts _ _ _ _ _ _ _ Hinv) as [C1 C2 C3 C4].
  eapply inv_holder; [exact Hinv|exact Hk|done..|]. constructor.
  - intros j mj Hj. apply lookup_upd in Hj as [(-> & -> & _)|[_ Hj]]; [exact (C1 k m Hk)|exact (C1 j mj Hj)].
  - intros j mj Hj. rewrite cnt_cons. apply lookup_upd in Hj as [(-> & -> & _)|[Hne Hj]].
    + rewrite decide_True by done. cbn [owner importers set_importers]. specialize (C2 k m Hk). lia.
    + rewrite decide_False by done. specialize (C2 j mj Hj). lia.
  - intros j mj Hj. apply lookup_upd in Hj as [(-> & -> & _)|[_ Hj]]; [|by eauto]. cbn. intros Hrel.
    destruct (C3 k m Hk Hrel). congruence.
  - intros j mdj x Hj Hx. apply upd_is_Some. eauto.
Qed.

Lemma import_all_ok X hs w w' so ca ks :
  inv X 0 [] hs w so ca → import_all w ks = Ok w' →
  inv X 0 [] (ks ++ hs) w' so ca ∧ w_heap w' = w_heap w ∧ w_mods w' = w_mods w ∧
  length (w_mems w') = length (w_mems w) ∧ ∀ k, k ∈ ks → (k < length (w_mems w))%nat.
Proof.
  revert w hs. induction ks as [|k ks IH]; intros w hs Hinv; cbn.
  { intros [= <-]. split_and!; try done. intros k. by rewrite elem_of_nil. }
  destruct (import_memory w k) as [w1| | |] eqn:E; try done. cbn [obind].
  destruct (import_memory_ok X hs w w1 so ca k Hinv E) as (Hinv1 & Eh & Em & El & Hlt). intros E'.
  destruct (IH w1 (k :: hs) Hinv1 E') as (Hinv' & Eh' & Em' & El' & Hlt'). split_and!; try congruence.
  - eapply inv_cnt; [|exact Hinv']. intros x. rewrite cnt_app, !cnt_cons, cnt_app. lia.
  - intros x. rewrite elem_of_cons. intros [->|Hx]; [done|]. rewrite <- El. auto.
Qed.

Lemma hold_all_ok X hs w w' so ca others ks :
  inv X 0 [] hs w so ca → hold_all w others = Ok (w', ks) →
  inv X 0 [] (ks ++ hs) w' so ca ∧ w_heap w' = w_heap w ∧ w_mods w' = w_mods w ∧
  length (w_mems w') = length (w_mems w) ∧ ∀ k, k ∈ ks → (k < length (w_mems w))%nat.
Proof.
  revert w hs ks. induction others as [|o others IH]; intros w hs ks Hinv; cbn.
  { intros [= <- <-]. split_and!; try done. intros k. by rewrite elem_of_nil. }
  unfold holdMemoriesOf. destruct (w_mods w !! o) as [mo|]; [|done].
  destruct (import_all w (Memories mo)) as [w1| | |] eqn:E; try done. cbn [obind].
  destruct (import_all_ok X hs w w1 so ca _ Hinv E) as (Hinv1 & Eh & Em & El & Hlt).
  destruct (hold_all w1 others) as [[w2 ks2]| | |] eqn:E'; try done. cbn [obind]. intros [= <- <-].
  destruct (IH w1 _ ks2 Hinv1 E') as (Hinv' & Eh' & Em' & El' & Hlt'). split_and!; try congruence.
  - eapply inv_cnt; [|exact Hinv']. intros x. rewrite !cnt_app. lia.
  - intros x. rewrite elem_of_app. intros [Hx|Hx]; [auto|]. rewrite <- El. auto.
Qed.

(** What is left in the pool when an array is taken out of it. *)
Lemma acquired_pool h h' id :
  pool_ok h → (∀ c b, pools h !! c = Some b → NoDup (sl_arr <$> b)) → acquired h h' id →
  ∀ c b, pools h' !! c = Some b →
    NoDup (sl_arr <$> b) ∧ ∀ s, s ∈ b → sl_arr s ≠ id ∧ ∃ b0, pools h !! c = Some b0 ∧ s ∈ b0.
Proof.
  intros Hp Hnd (_ & _ & [(-> & _ & ->)|(_ & c0 & b0 & i & s0 & Hb0 & Hi & <- & ->)]) c b Hb.
  { split; [by eauto|]. intros s Hs. split; [|by eauto]. destruct (Hp c b s Hb Hs) as (_ & _ & _ & a & Ea & _).
    apply lookup_lt_Some in Ea. lia. }
  pose proof (list_elem_of_lookup_2 _ _ _ Hi) as Hin0. apply lookup_insert_Some in Hb as [[<- <-]|[Hne Hb]].
  - pose proof (Hnd c0 b0 Hb0) as Hnd0. split.
    { rewrite list_fmap_delete. eapply sublist_NoDup; [exact Hnd0|apply sublist_delete]. }
    intros s Hs. apply list_elem_of_lookup_1 in Hs as [t Ht].
    assert (∃ t', t' ≠ i ∧ b0 !! t' = Some s) as (t' & Hne & Ht').
    { destruct (decide (t < i)%nat).
      - rewrite list_lookup_delete_lt in Ht by done. exists t. split; [lia|done].
      - rewrite list_lookup_delete_ge in Ht by lia. exists (S t). split; [lia|done]. }
    split; [|exists b0; split; [done|by eapply list_elem_of_lookup_2]]. intros E. apply Hne.
    eapply (NoDup_lookup _ _ _ (sl_arr s0) Hnd0); rewrite list_lookup_fmap; [rewrite Ht'|rewrite Hi]; cbn; congruence.
  - split; [by eauto|]. intros s Hs. split; [|by eauto]. intros E. apply Hne.
    destruct (Hp c b s Hb Hs) as (_ & _ & _ & a & Ea & Hl & _). destruct (Hp c0 b0 s0 Hb0 Hin0) as (_ & _ & _ & a0 & Ea0 & Hl0 & _).
    rewrite E in Ea. congruence.
Qed.

(** The array of a new memory leaves the pool, or is new. *)
Lemma arrays_new h h' ms m :
  arrays_inv h ms → acquired h h' (array_id (inst m)) → mem_ok h' m → arrays_inv h' (ms ++ [m]).
Proof.
  intros [Hp Hnd Hmem Hsep Hap] Hacq Hm. set (id := array_id (inst m)) in *.
  pose proof (acquired_pool h h' id Hp Hnd Hacq) as Hpool. destruct Hacq as (_ & Hoth & Hsrc).
  assert (∀ k mk, ms !! k = Some mk → owns mk → array_id (inst mk) ≠ id ∧ (array_id (inst mk) < length (arrays h))%nat) as Hold.
  { intros k mk Hk Ho. destruct (wf_array _ _ (mo_wf _ _ (Hmem k mk Hk) Ho)) as (a & Ea & _).
    apply lookup_lt_Some in Ea. change (array_id (live (inst mk))) with (array_id (inst mk)) in Ea. split; [|done].
    destruct Hsrc as [(-> & _)|(_ & c & b & i & s & Hb & Hi & <- & _)]; [lia|]. apply not_eq_sym.
    eapply Hap; [exact Hk|exact Ho|exact Hb|by eapply list_elem_of_lookup_2]. }
  constructor.
  - intros c b s Hb Hs. destruct (proj2 (Hpool c b Hb) s Hs) as (Hne & b0 & Hb0 & Hs0).
    eapply entry_at; [|by eapply Hp]. intros a Ha. rewrite Hoth; [done|done|by eapply lookup_lt_Some].
  - intros c b Hb. by apply (Hpool c b).
  - intros k mk Hk. apply lookup_app_Some in Hk as [Hk|[_ Hk]].
    + eapply (mem_ok_at h); [|by eauto]. intros Ho a Ha. destruct (Hold k mk Hk Ho). by rewrite Hoth.
    + apply list_lookup_singleton_Some in Hk as [_ <-]. done.
  - intros k k' mk mk' Hk Hk' Ho Ho' E. apply lookup_app_Some in Hk as [Hk|[Hle Hk]]; apply lookup_app_Some in Hk' as [Hk'|[Hle' Hk']].
    + eauto.
    + apply list_lookup_singleton_Some in Hk' as [_ <-]. by destruct (Hold k mk Hk Ho).
    + apply list_lookup_singleton_Some in Hk as [_ <-]. by destruct (Hold k' mk' Hk' Ho').
    + apply list_lookup_singleton_Some in Hk as [? _], Hk' as [? _]. lia.
  - intros k mk c b s Hk Ho Hb Hs. destruct (Hpool c b Hb) as [_ Hin]. destruct (Hin s Hs) as (Hne & b0 & Hb0 & Hs0).
    apply lookup_app_Some in Hk as [Hk|[_ Hk]]; [by eapply Hap|]. by apply list_lookup_singleton_Some in Hk as [_ <-].
Qed.

Lemma holders_none i mds o k :
  (∀ j md, mds !! j = Some md → k ∉ Memories md ++ heldMemories md) → holders i mds o k = 0.
Proof.
  revert i. induction mds as [|md mds IH]; intros i H; [done|]. cbn. rewrite IH by (intros j mj Hj; by apply (H (S j) mj)).
  specialize (H 0%nat md eq_refl). rewrite not_elem_of_app in H. destruct H as [H1 H2]. unfold share.
  rewrite !cnt_none by done. by destruct (Closed md), (i =? o)%nat.
Qed.

(** The counts of a new module: the holds registered for it become its own. *)
Lemma counts_new hs mds ms m imports held :
  counts_inv 0 [] hs mds ms → (∀ x, cnt x hs = cnt x imports + cnt x held) →
  (∀ k, k ∈ imports ++ held → (k < length ms)%nat) → released m = false →
  counts_inv 0 [] [] (mds ++ [new_mod (imports ++ [length ms]) held]) (ms ++ [new_mem m (length mds)]).
Proof.
  intros [C1 C2 C3 C4] Hcnt Hlt Hrel.
  assert (∀ j md k, mds !! j = Some md → k ∈ Memories md ++ heldMemories md → (k < length ms)%nat) as Hval.
  { intros j md k Hj Hk. destruct (C4 j md k Hj Hk). by eapply lookup_lt_Some. }
  constructor.
  - intros k mk Hk Hoc. apply lookup_app_Some in Hk as [Hk|[_ Hk]]; [|by apply list_lookup_singleton_Some in Hk as [_ <-]].
    destruct (C1 k mk Hk Hoc) as (mo & ? & ?). exists mo. split; [by apply lookup_app_l_Some|done].
  - intros k mk Hk. rewrite holders_app. change (cnt k []) with 0. unfold share, new_mod. cbn [Closed Memories heldMemories].
    rewrite cnt_app, cnt_cons. change (cnt k []) with 0. pose proof (cnt_nonneg k imports).
    apply lookup_app_Some in Hk as [Hk|[Hle Hk]].
    + specialize (C2 k mk Hk). change (cnt k []) with 0 in C2. rewrite Hcnt in C2. pose proof (lookup_lt_Some _ _ _ Hk).
      rewrite decide_False by lia. destruct (0 + length mds =? owner mk)%nat, (0 =? owner mk)%nat; lia.
    + apply list_lookup_singleton_Some in Hk as [Ek <-]. cbn [owner new_mem importers].
      assert (k = length ms) as -> by lia. rewrite holders_none, Nat.eqb_refl, cnt_none; [by destruct (0 =? length mds)%nat|..].
      * intros Hin. specialize (Hlt (length ms)). rewrite elem_of_app in Hlt. specialize (Hlt (or_intror Hin)). lia.
      * intros j md Hj Hin. specialize (Hval j md _ Hj Hin). lia.
  - intros k mk Hk Hr. apply lookup_app_Some in Hk as [Hk|[_ Hk]]; [by eauto|]. apply list_lookup_singleton_Some in Hk as [_ <-].
    cbn in Hr. congruence.
  - intros j md k Hj Hk. apply lookup_lt_is_Some. rewrite length_app. cbn.
    apply lookup_app_Some in Hj as [Hj|[_ Hj]]; [specialize (Hval j md k Hj Hk); lia|].
    apply list_lookup_singleton_Some in Hj as [_ <-]. cbn in Hk. specialize (Hlt k). set_solver by lia.
Qed.

Lemma slots_new sl mds ms so ca mm md :
  slots_inv sl ms mds so ca → (∀ j mj k, mds !! j = Some mj → k ∈ Memories mj → (k < length ms)%nat) →
  reached mm = [] → slotChunk md = None → slots_inv sl (ms ++ [mm]) (mds ++ [md]) so ca.
Proof.
  intros [] Hval Hr Hc.
  assert (∀ k m, (ms ++ [mm]) !! k = Some m → ms !! k = Some m ∨ k = length ms ∧ reached m = []) as Hms.
  { intros k m Hk. apply lookup_app_Some in Hk as [Hk|[Hle Hk]]; [by left|].
    apply list_lookup_singleton_Some in Hk as [? <-]. right. split; [lia|done]. }
  assert (∀ j mj, (mds ++ [md]) !! j = Some mj → mds !! j = Some mj ∨ slotChunk mj = None) as Hmds.
  { intros j mj Hj. apply lookup_app_Some in Hj as [Hj|[_ Hj]]; [by left|]. apply list_lookup_singleton_Some in Hj as [_ <-]. by right. }
  constructor; try done.
  - intros s j Hj. destruct (s_of0 s j Hj) as (? & mj & Hmj & Hreg). split; [done|]. exists mj. split; [by apply lookup_app_l_Some|].
    intros k m Hk Hm. destruct (Hms k m Hm) as [?|[-> _]]; [by eauto|]. specialize (Hval j mj _ Hmj Hk). lia.
  - intros s j k m Hj Hm Hin. destruct (Hms k m Hm) as [Hm'|[_ E]]; [|rewrite E in Hin; by apply elem_of_nil in Hin].
    destruct (s_reach0 s j k m Hj Hm' Hin) as (mj & ? & ?). exists mj. split; [by apply lookup_app_l_Some|done].
  - intros k m s Hm Hin. destruct (Hms k m Hm) as [Hm'|[_ E]]; [by eauto|rewrite E in Hin; by apply elem_of_nil in Hin].
  - intros j mj chunk t s Hj Hch Ht. destruct (Hmds j mj Hj) as [Hj'|?]; [|congruence].
    destruct (s_chunk0 j mj chunk t s Hj' Hch Ht) as (? & Hiff & ?). split; [done|]. split; [|done].
    intros k m Hm. destruct (Hms k m Hm) as [Hm'|[-> E]]; [by eauto|]. rewrite E, elem_of_nil. split; [done|].
    intros Hk. specialize (Hval j mj _ Hj' Hk). lia.
  - intros j j' mj mj' chunk chunk' t t' s Hj Hj' Hch Hch'. destruct (Hmds j mj Hj), (Hmds j' mj' Hj'); try congruence. eauto.
Qed.

Lemma calls_new X sl mds ms so ca mm md :
  calls_inv X sl ms mds so ca → slots_inv sl ms mds so ca → owns mm → recycle mm = None →
  calls_inv X sl (ms ++ [mm]) (mds ++ [md]) so ca.
Proof.
  intros [] Hs Ho Hrec. constructor.
  - intros s j mj k m Hca Hj Hmj Hk Hm. destruct (s_of _ _ _ _ _ Hs s j Hj) as (_ & mj' & Hmj' & _).
    rewrite lookup_app_l in Hmj by (by eapply lookup_lt_Some).
    apply lookup_app_Some in Hm as [Hm|[_ Hm]]; [by eauto|]. by apply list_lookup_singleton_Some in Hm as [_ <-].
  - intros k m HX Hm Hr. apply lookup_app_Some in Hm as [Hm|[_ Hm]]; [by eauto|].
    apply list_lookup_singleton_Some in Hm as [_ <-]. rewrite Hrec in Hr. by destruct Hr.
Qed.

Lemma instantiate_ok noPool X pick w others imports sec limitPages w' so ca :
  inv X 0 [] [] w so ca → sec_ok (w_heap w) sec limitPages →
  instantiate noPool pick w others imports sec limitPages = Ok w' → inv X 0 [] [] w' so ca.
Proof.
  intros Hinv Hsec. unfold instantiate.
  destruct (hold_all w others) as [[w1 held]| | |] eqn:E1; try done. cbn [obind].
  destruct (hold_all_ok X [] w w1 so ca others held Hinv E1) as (Hinv1 & Eh1 & Em1 & El1 & Hlt1).
  destruct (import_all w1 imports) as [w2| | |] eqn:E2; try done. cbn [obind].
  destruct (import_all_ok X _ w1 w2 so ca imports Hinv1 E2) as (Hinv2 & Eh2 & Em2 & El2 & Hlt2).
  destruct Hinv2 as [Ha Hc Hs Hr].
  destruct (NewMemoryInstance_spec noPool pick (w_heap w2) sec limitPages (a_pool _ _ Ha)) as (h' & m & E & Hw & _ & _ & _ & _ & Hpl & Hsh & Hacq).
  { by rewrite Eh2, Eh1. }
  rewrite E. cbn [obind]. intros [= <-]. pose proof (wf_live _ _ Hw) as Hlive.
  assert (owns (new_mem m (length (w_mods w2)))) as Ho by (by left). constructor; cbn.
  - eapply arrays_new; [exact Ha|exact Hacq|]. pose proof (wf_alloc _ _ Hw) as Ealloc. pose proof (size_bounds _ _ Hw).
    constructor; cbn; try done.
    + intros _. change m with (inst (new_mem m 0)). rewrite live_inst by done. done.
    + rewrite Hpl, Hsh. by destruct (IsShared sec).
    + split; [exact (wf_exp _ _ Hw)|done].
    + rewrite Ealloc. cbn. lia.
  - eapply counts_new; [exact Hc| | |done].
    2: { intros k. rewrite elem_of_app, El2. intros [?|?]; [auto|]. rewrite El1. auto. }
    intros x. rewrite !cnt_app. change (cnt x []) with 0. lia.
  - eapply slots_new; try done. intros j mj k Hj Hk. eapply lookup_lt_is_Some.
    apply (c_valid _ _ _ _ _ Hc j mj k Hj). apply elem_of_app. by left.
  - eapply calls_new; done.
Qed.
