(* ===== verification/MemoryIsolation.v ===== *)
(** The release protocol keeps memories apart: what the invariant of
    [MemoryKeep] means in every reachable state, runs that reach interesting
    ones, and the states in which the protection is lost. *)
From Stdlib Require Import ZArith Lia.
From stdpp Require Import base list numbers option tactics gmap.
From S2P Require Import Prelude WasmMemory MemoryRelease MemorySystem MemoryKeep.
Local Open Scope Z_scope.
Local Open Scope go_scope.

(** * Theorems *)

Definition sinv (σ : sys) : Prop := inv (λ _, False) 0 [] [] (sw σ) (slot_of σ) (calls σ).

Lemma initial_inv cells : sinv (initial cells).
Proof.
  constructor; constructor; cbn; try done; try (intros * H; by rewrite ?lookup_nil, ?lookup_empty in H).
Qed.

(** Every step keeps the invariant. *)
Lemma step_inv noPool σ σ' : sys_step noPool false σ σ' → sinv σ → sinv σ'.
Proof.
  unfold sinv. destruct 1; cbn; intros Hinv.
  - by eapply instantiate_ok.
  - subst. by eapply slot_ok.
  - by apply collect_ok.
  - by eapply enter_ok.
  - by eapply check_ok.
  - destruct (ExitCall_ok noPool so w ca s i b Hinv) as (w1 & E & Hinv'); [done..|]. by replace w' with w1 by congruence.
  - eapply store_ok; try done. by eapply (r_safe _ _ _ _ _ _ (inv_calls _ _ _ _ _ _ _ Hinv)).
  - done.
  - eapply native_ok; try done. by eapply (r_safe _ _ _ _ _ _ (inv_calls _ _ _ _ _ _ _ Hinv)).
  - eapply grow_ok; [exact Hinv|done| |done|done]. intros Hr; match goal with H : _ = true → _ |- _ => by destruct (H Hr) end.
  - by eapply write_ok.
  - destruct (w_mods w !! i) as [md|] eqn:E; [|exfalso; by match goal with H : close _ _ _ = _ |- _ => unfold close in H; rewrite E in H end].
    destruct (close_ok noPool so ca (λ _, False) w i md Hinv E) as (w1 & E1 & Hinv'). by replace w' with w1 by congruence.
Qed.

Lemma reachable_inv noPool cells σ : reachable noPool false cells σ → sinv σ.
Proof. induction 1; [apply initial_inv|by eapply step_inv]. Qed.

(** C10. Isolation.  In every state that any interleaving of instantiations
    without a custom allocator, calls, stores to the memories a module declares
    or imports, growth, host writes and closes can reach, if no call grows a
    memory that was released meanwhile and none stores to a memory its module
    only holds: each memory that is not released is well formed, no two of them
    share an array, none has an array that is in the pool, and every pooled
    array is zero beyond the length that the next taker clears. *)
Theorem memories_isolated noPool cells σ :
  reachable noPool false cells σ →
  pool_ok (w_heap (sw σ)) ∧
  (∀ k m, w_mems (sw σ) !! k = Some m → released (inst m) = false →
    wf (w_heap (sw σ)) (inst m) ∧
    (∀ k' m', w_mems (sw σ) !! k' = Some m' → released (inst m') = false → k' ≠ k → array_id (inst m') ≠ array_id (inst m)) ∧
    (∀ c b s, pools (w_heap (sw σ)) !! c = Some b → s ∈ b → sl_arr s ≠ array_id (inst m))).
Proof.
  intros H. destruct (inv_arrays _ _ _ _ _ _ _ (reachable_inv _ _ _ H)) as [Hp _ Hm Hsep Hap]. split; [done|].
  intros k m Hk Hrel. assert (owns m) as Ho by (by left). split; [|split].
  - pose proof (mo_wf _ _ (Hm k m Hk) Ho) as Hw. by rewrite live_inst in Hw.
  - intros k' m' Hk' Hrel' Hne E. apply Hne. eapply Hsep; [done|done|by left|done|done].
  - intros c b s Hb Hs. by eapply Hap.
Qed.

(** C11. Use after release.  In the same states, a memory that a running call's
    module declares or imports keeps its array: whether or not it was released
    meanwhile, the array still holds the memory, it is not in the pool, and no
    other memory has it.  (A memory that is only held through an imported
    function may lose it: [held_memory_pooled_in_flight].) *)
Theorem running_call_protected noPool cells w so ca s i md k m :
  reachable noPool false cells (mkSys w so ca) →
  ca !! s = Some true → so !! s = Some i → w_mods w !! i = Some md → k ∈ Memories md → w_mems w !! k = Some m →
  wf (w_heap w) (live (inst m)) ∧
  (∀ k' m', w_mems w !! k' = Some m' → released (inst m') = false → k' ≠ k → array_id (inst m') ≠ array_id (inst m)) ∧
  (∀ c b s, pools (w_heap w) !! c = Some b → s ∈ b → sl_arr s ≠ array_id (inst m)).
Proof.
  intros H Hca Hso Hmd Hk Hm. destruct (reachable_inv _ _ _ H) as [[Hp _ Hmem Hsep Hap] _ _ [Hsafe _]].
  pose proof (Hsafe s i md k m Hca Hso Hmd Hk Hm) as Ho. split; [by apply mo_wf; [eapply Hmem|]|]. split.
  - intros k' m' Hk' Hrel' Hne E. apply Hne. eapply Hsep; [done|done|by left|done|done].
  - intros c b x Hb Hx. by eapply Hap.
Qed.

(** No release is lost: an array that a close has parked is owed by a call
    that is still on a slot registered with the memory and will look for it. *)
Theorem no_lost_release noPool cells w so ca k m :
  reachable noPool false cells (mkSys w so ca) → w_mems w !! k = Some m → is_Some (recycle m) →
  ∃ s, s ∈ reached m ∧ w_slots w !! s = Some slotHandoff ∧ is_Some (ca !! s).
Proof.
  intros H Hk Hr. destruct (reachable_inv _ _ _ H) as [_ _ Hs [_ Hpend]].
  destruct (Hpend k m (λ f, f) Hk Hr) as (s & Hin & Hst). exists s. split; [done|]. split; [done|].
  destruct (ca !! s) eqn:E; [by eexists|]. by pose proof (s_idle _ _ _ _ _ Hs s _ Hst E).
Qed.

Lemma drain noPool n : ∀ w so ca,
  size ca = n → sinv (mkSys w so ca) → ∃ w', rtc (sys_step noPool false) (mkSys w so ca) (mkSys w' so ∅) ∧ sinv (mkSys w' so ∅).
Proof.
  induction n as [|n IH]; intros w so ca Hn Hinv.
  { apply map_size_empty_inv in Hn as ->. exists w. split; [apply rtc_refl|done]. }
  destruct (map_choose ca) as (s & b & Hs); [intros ->; by rewrite map_size_empty in Hn|].
  destruct (s_calls _ _ _ _ _ (inv_slots _ _ _ _ _ _ _ Hinv) s b Hs) as [[i Hi] _].
  destruct (ExitCall_ok noPool so w ca s i b Hinv Hs Hi) as (w1 & E & Hinv1).
  destruct (IH w1 so (delete s ca)) as (w' & Hrtc & Hinv'); [|done|].
  { rewrite map_size_delete, Hs. cbn. lia. }
  exists w'. split; [|done]. eapply rtc_l; [|exact Hrtc]. by eapply ss_exit.
Qed.

(** C12. From every state reachable in the same way the calls in flight can leave, one after
    another and without a panic, and when the last one has left no array is
    parked: each released memory has given its array up. *)
Theorem releases_complete noPool cells w so ca :
  reachable noPool false cells (mkSys w so ca) →
  ∃ w', rtc (sys_step noPool false) (mkSys w so ca) (mkSys w' so ∅) ∧ ∀ k m, w_mems w' !! k = Some m → recycle m = None.
Proof.
  intros H. destruct (drain noPool (size ca) w so ca eq_refl (reachable_inv _ _ _ H)) as (w' & Hrtc & Hinv').
  exists w'. split; [done|]. intros k m Hk. destruct (recycle m) as [x|] eqn:E; [|done].
  destruct (r_pending _ _ _ _ _ _ (inv_calls _ _ _ _ _ _ _ Hinv') k m (λ f, f) Hk) as (s & _ & Hst); [by rewrite E|].
  by pose proof (s_idle _ _ _ _ _ (inv_slots _ _ _ _ _ _ _ Hinv') s _ Hst eq_refl).
Qed.

(** Closing a module never panics, whatever runs meanwhile and however its
    memories are imported or held. *)
Theorem close_total noPool cells w so ca i md :
  reachable noPool false cells (mkSys w so ca) → w_mods w !! i = Some md → ∃ w', close noPool w i = Ok w' ∧ reachable noPool false cells (mkSys w' so ca).
Proof.
  intros H Hmd. destruct (close_ok noPool so ca (λ _, False) w i md (reachable_inv _ _ _ H) Hmd) as (w' & E & _).
  exists w'. split; [done|]. eapply reach_step; [exact H|]. by eapply ss_close.
Qed.

(** * Runs *)

(** The result of a computation that succeeds. *)
Definition the {A} (d : A) (x : out A) : A := match x with Ok a => a | _ => d end.
Definition is_ok {A} (x : out A) : bool := match x with Ok _ => true | _ => false end.

Lemma the_ok {A} (d : A) x : is_ok x = true → x = Ok (the d x).
Proof. by destruct x. Qed.

Definition run_sec : Memory := mkMemory 1 1 4 false false 0.
Definition run_0 : world := sw (initial [0]).
Definition run_1 : world := the run_0 (instantiate false None run_0 [] [] run_sec 4).
Definition run_2 : world := the run_1 (instantiate false None run_1 [0%nat] [0%nat] run_sec 4).
Definition run_2_slot : out (world * nat) :=
  CallSlotFor false (set_slots run_2 (w_slots run_2 ++ [slotIdle])) 0 (length (w_slots run_2)).
Definition run_3 : world := fst (the (run_2, 0%nat) run_2_slot).
Definition run_4 : world := set_slots run_3 (Enter (w_slots run_3) 0).
Definition run_5 : world := the run_4 (close false run_4 1).
Definition run_6 : world := the run_5 (close false run_5 0).

Definition run_slots : gmap nat nat := <[0%nat := 0%nat]> ∅.
Definition run_calls : gmap nat bool := <[0%nat := true]> (<[0%nat := false]> ∅).

Lemma run_sec_ok h : marks h = [0] → sec_ok h run_sec 4.
Proof. intros E. split_and!; cbn; try lia. rewrite E. intros v [= <-]. lia. Qed.

Lemma run_3_ok : run_2_slot = Ok (run_3, 0%nat).
Proof.
  assert (is_ok run_2_slot = true) as Hok by (vm_compute; reflexivity). apply (the_ok (run_2, 0%nat)) in Hok.
  assert (snd (the (run_2, 0%nat) run_2_slot) = 0%nat) as E by (vm_compute; reflexivity).
  unfold run_3. destruct (the (run_2, 0%nat) run_2_slot). cbn in E. by subst.
Qed.

(** Two modules with a memory each, the second importing the first's; a call
    runs on the first. *)
Lemma run_4_reachable : reachable false false [0] (mkSys run_4 run_slots run_calls).
Proof.
  eapply reach_step; [|eapply (ss_check false false run_4 0 0 (mkMod [0%nat] [] false 1 None 0) run_slots (<[0%nat := false]> ∅)); vm_compute; reflexivity].
  eapply reach_step; [|eapply (ss_enter false false run_3 0 0 run_slots ∅); vm_compute; reflexivity].
  eapply reach_step; [|eapply (ss_slot false false false run_2 0 0 run_3 0%nat ∅ ∅); [vm_compute; reflexivity|exact run_3_ok]].
  eapply reach_step; [|eapply (ss_instantiate false false None run_1 [0%nat] [0%nat] run_sec 4 run_2); [|apply the_ok; vm_compute; reflexivity]].
  2: { apply run_sec_ok. vm_compute. reflexivity. }
  eapply reach_step; [apply reach_initial|].
  eapply (ss_instantiate false false None run_0 [] [] run_sec 4 run_1); [|apply the_ok; vm_compute; reflexivity].
  by apply run_sec_ok.
Qed.

(** The same after both modules were closed: the call is still running. *)
Lemma run_6_reachable : reachable false false [0] (mkSys run_6 run_slots run_calls).
Proof.
  eapply reach_step; [|eapply (ss_close false false run_5 0); apply the_ok; vm_compute; reflexivity].
  eapply reach_step; [exact run_4_reachable|eapply (ss_close false false run_4 1); apply the_ok; vm_compute; reflexivity].
Qed.

Definition mem_at (w : world) (k : nat) : MemState := nth k (w_mems w) (new_mem sample_memory 0).

Lemma mem_at_ok w k : (k <? length (w_mems w))%nat = true → w_mems w !! k = Some (mem_at w k).
Proof. intros H%Nat.ltb_lt. unfold mem_at. rewrite nth_lookup. by destruct (lookup_lt_is_Some_2 _ _ H) as [x ->]. Qed.

Lemma memories_isolated_witness :
  wf (w_heap run_4) (inst (mem_at run_4 0)) ∧ array_id (inst (mem_at run_4 1)) ≠ array_id (inst (mem_at run_4 0)).
Proof.
  destruct (memories_isolated false [0] _ run_4_reachable) as [_ H].
  destruct (H 0%nat (mem_at run_4 0) ltac:(apply mem_at_ok; vm_compute; reflexivity) ltac:(vm_compute; reflexivity)) as (Hw & Hne & _).
  split; [exact Hw|].
  apply (Hne 1%nat (mem_at run_4 1) ltac:(apply mem_at_ok; vm_compute; reflexivity) ltac:(vm_compute; reflexivity) ltac:(discriminate)).
Defined.

Lemma running_call_protected_witness :
  released (inst (mem_at run_6 0)) = true ∧ wf (w_heap run_6) (live (inst (mem_at run_6 0))).
Proof.
  split; [vm_compute; reflexivity|].
  exact (proj1 (running_call_protected false [0] run_6 run_slots run_calls 0 0 (mkMod [0%nat] [] true 1 None 0) 0 (mem_at run_6 0)
    run_6_reachable ltac:(vm_compute; reflexivity) ltac:(vm_compute; reflexivity) ltac:(vm_compute; reflexivity)
    ltac:(apply list_elem_of_singleton; reflexivity) ltac:(apply mem_at_ok; vm_compute; reflexivity))).
Defined.

Lemma no_lost_release_witness :
  ∃ s, s ∈ reached (mem_at run_6 0) ∧ w_slots run_6 !! s = Some slotHandoff ∧ is_Some (run_calls !! s).
Proof.
  exact (no_lost_release false [0] run_6 run_slots run_calls 0 (mem_at run_6 0) run_6_reachable
    ltac:(apply mem_at_ok; vm_compute; reflexivity) ltac:(vm_compute; eexists; reflexivity)).
Defined.

Lemma releases_complete_witness :
  ∃ w', rtc (sys_step false false) (mkSys run_6 run_slots run_calls) (mkSys w' run_slots ∅) ∧ ∀ k m, w_mems w' !! k = Some m → recycle m = None.
Proof. exact (releases_complete false [0] run_6 run_slots run_calls run_6_reachable). Defined.

Lemma close_total_witness :
  ∃ w', close false run_4 0 = Ok w' ∧ reachable false false [0] (mkSys w' run_slots run_calls).
Proof.
  exact (close_total false [0] run_4 run_slots run_calls 0 (mkMod [0%nat] [] false 1 None 0) run_4_reachable
    ltac:(vm_compute; reflexivity)).
Defined.

(** * Where the protection ends

    The system in which calls grow released memories and store to held ones. *)

Definition wide_sec : Memory := mkMemory 2 2 4 false false 0.

(** A module with a memory of two pages and a call running on it, which has
    written the second page; then the module is closed, the call executes
    [memory.grow 1] and leaves. *)
Definition leak_1 : world := the run_0 (instantiate false None run_0 [] [] wide_sec 4).
Definition leak_slot : out (world * nat) :=
  CallSlotFor false (set_slots leak_1 (w_slots leak_1 ++ [slotIdle])) 0 (length (w_slots leak_1)).
Definition leak_2 : world := fst (the (leak_1, 0%nat) leak_slot).
Definition leak_3 : world := set_slots leak_2 (Enter (w_slots leak_2) 0).
Definition leak_4 : world := set_heap leak_3 (guest_store (w_heap leak_3) (inst (mem_at leak_3 0)) 65536 [7]).
Definition leak_5 : world := the leak_4 (close false leak_4 0).
Definition leak_grown : out (heap * MemoryInstance * (Z * bool) * bool) :=
  Grow64 (w_heap leak_5) (inst (mem_at leak_5 0)) 1.
Definition leak_6 : world :=
  let '(h, m, _, _) := the (w_heap leak_5, inst (mem_at leak_5 0), (0, false), false) leak_grown in
  set_mem (set_heap leak_5 h) 0 (set_inst (mem_at leak_5 0) m).
Definition leak_7 : world := the leak_6 (ExitCall false leak_6 0 0).

(** The module of [leak_1] is instantiated again: the byte at 65536 of its
    fresh memory, and what [memory.grow] had returned. *)
Definition leak_run : out (Z * option Z) :=
  let* '(_, _, (previous, _), _) := leak_grown in
  let* '(h, m) := NewMemoryInstance false (Some 0%nat) (w_heap leak_7) wide_sec None 4 in
  Ok (previous, contents h m !! Z.to_nat 65536).

Lemma slot_result (w : world) (r : out (world * nat)) : is_ok r = true → snd (the (w, 0%nat) r) = 0%nat → r = Ok (fst (the (w, 0%nat) r), 0%nat).
Proof. destruct r as [[w' s]| | |]; try done. cbn. by intros _ ->. Qed.

Lemma leak_6_step : sys_step false true (mkSys leak_5 run_slots run_calls) (mkSys leak_6 run_slots run_calls).
Proof.
  assert (is_ok leak_grown = true) as Hok by (vm_compute; reflexivity).
  apply (the_ok (w_heap leak_5, inst (mem_at leak_5 0), (0, false), false)) in Hok. unfold leak_6.
  destruct (the _ leak_grown) as [[[h m] r] told].
  eapply (ss_grow false true leak_5 0 (mem_at leak_5 0) 1 h m r told); [|by right|lia|exact Hok].
  apply mem_at_ok. vm_compute. reflexivity.
Qed.

Lemma leak_7_reachable : reachable false true [0] (mkSys leak_7 run_slots (delete 0%nat run_calls)).
Proof.
  eapply reach_step; [|eapply (ss_exit false true leak_6 0 0 true leak_7); [vm_compute; reflexivity..|apply the_ok; vm_compute; reflexivity]].
  eapply reach_step; [|exact leak_6_step].
  eapply reach_step; [|eapply (ss_close false true leak_4 0); apply the_ok; vm_compute; reflexivity].
  eapply reach_step; [|eapply (ss_store false true leak_3 0 0 (mkMod [0%nat] [] false 1 None 0) 0 (mem_at leak_3 0) 65536 [7]);
    [vm_compute; reflexivity..|by left|apply mem_at_ok; vm_compute; reflexivity|lia|vm_compute; discriminate]].
  eapply reach_step; [|eapply (ss_check false true leak_3 0 0 (mkMod [0%nat] [] false 1 None 0) run_slots (<[0%nat := false]> ∅)); vm_compute; reflexivity].
  eapply reach_step; [|eapply (ss_enter false true leak_2 0 0 run_slots ∅); vm_compute; reflexivity].
  eapply reach_step; [|eapply (ss_slot false true false leak_1 0 0 leak_2 0%nat ∅ ∅); [vm_compute; reflexivity|apply slot_result; vm_compute; reflexivity]].
  eapply reach_step; [apply reach_initial|].
  eapply (ss_instantiate false true None run_0 [] [] wide_sec 4 leak_1); [|apply the_ok; vm_compute; reflexivity].
  split_and!; cbn; try lia. intros v [= <-]. lia.
Qed.

(** A memory that was released while a call runs on it, and that the call
    then grows, leaks: [Grow64] counts from the size zero that a released memory
    reports, so it shrinks the memory, and the deferred release puts the array
    into the pool with bytes beyond the length that the next taker clears; the
    next instance reads what the first one wrote. *)
Theorem grow_after_release_leaks :
  reachable false true [0] (mkSys leak_7 run_slots (delete 0%nat run_calls)) ∧
  ¬ pool_ok (w_heap leak_7) ∧ leak_run = Ok (0, Some 7).
Proof.
  split; [exact leak_7_reachable|]. split; [|vm_compute; reflexivity]. intros Hp.
  set (b := default [] (pools (w_heap leak_7) !! (2 * MemoryPageSize))).
  assert (pools (w_heap leak_7) !! (2 * MemoryPageSize) = Some b) as Hb by (vm_compute; reflexivity).
  destruct (Hp (2 * MemoryPageSize) b (nth 0 b (mkSlice 9 0 0 0)) Hb) as (_ & _ & _ & a & Ea & _ & Hz).
  { assert ((0 <? length b)%nat = true) as Hl by (vm_compute; reflexivity). apply Nat.ltb_lt in Hl.
    apply list_elem_of_In, nth_In. lia. }
  specialize (Hz 65536). assert (a !! Z.to_nat 65536 = Some 7) as E7.
  { assert (arrays (w_heap leak_7) !! sl_arr (nth 0 b (mkSlice 9 0 0 0)) ≫= (λ a, a !! Z.to_nat 65536) = Some 7) as H
      by (vm_compute; reflexivity). by rewrite Ea in H. }
  rewrite E7 in Hz. assert (Some 7 = Some 0) as Hbad; [|done]. apply Hz. vm_compute. split; [discriminate|reflexivity].
Qed.

(** Module 0 owns a memory; module 1 imports a function of it and has a memory
    of its own; a call of module 1 runs in that function while both are closed. *)
Definition held_1 : world := the run_0 (instantiate false None run_0 [] [] run_sec 4).
Definition held_2 : world := the held_1 (instantiate false None held_1 [0%nat] [] wide_sec 4).
Definition held_slot : out (world * nat) :=
  CallSlotFor false (set_slots held_2 (w_slots held_2 ++ [slotIdle])) 1 (length (w_slots held_2)).
Definition held_3 : world := fst (the (held_2, 0%nat) held_slot).
Definition held_4 : world := set_slots held_3 (Enter (w_slots held_3) 0).
Definition held_5 : world := the held_4 (close false held_4 0).
Definition held_6 : world := the held_5 (close false held_5 1).
Definition held_slots : gmap nat nat := <[0%nat := 1%nat]> ∅.

Lemma held_6_reachable : reachable false false [0] (mkSys held_6 held_slots run_calls).
Proof.
  eapply reach_step; [|eapply (ss_close false false held_5 1); apply the_ok; vm_compute; reflexivity].
  eapply reach_step; [|eapply (ss_close false false held_4 0); apply the_ok; vm_compute; reflexivity].
  eapply reach_step; [|eapply (ss_check false false held_4 0 1 (mkMod [1%nat] [0%nat] false 1 None 0) held_slots (<[0%nat := false]> ∅)); vm_compute; reflexivity].
  eapply reach_step; [|eapply (ss_enter false false held_3 0 1 held_slots ∅); vm_compute; reflexivity].
  eapply reach_step; [|eapply (ss_slot false false false held_2 1 0 held_3 0%nat ∅ ∅); [vm_compute; reflexivity|apply slot_result; vm_compute; reflexivity]].
  eapply reach_step; [|eapply (ss_instantiate false false None held_1 [0%nat] [] wide_sec 4 held_2); [|apply the_ok; vm_compute; reflexivity]].
  2: { split_and!; cbn; try lia. assert (marks (w_heap held_1) = [0]) as -> by (vm_compute; reflexivity). intros v [= <-]. lia. }
  eapply reach_step; [apply reach_initial|].
  eapply (ss_instantiate false false None run_0 [] [] run_sec 4 held_1); [|apply the_ok; vm_compute; reflexivity].
  by apply run_sec_ok.
Qed.

(** A memory that a module reaches only through an imported function is not
    protected by that module's calls: the slot of the call is not registered
    with it, and closing both modules puts its array in the pool while the call
    still runs. *)
Theorem held_memory_pooled_in_flight :
  reachable false false [0] (mkSys held_6 held_slots run_calls) ∧
  run_calls !! 0%nat = Some true ∧ held_slots !! 0%nat = Some 1%nat ∧
  (heldMemories <$> (w_mods held_4 !! 1%nat)) = Some [0%nat] ∧
  (0%nat ∉ reached (mem_at held_6 0)) ∧
  (sl_arr <$> default [] (pools (w_heap held_6) !! MemoryPageSize)) = [array_id (inst (mem_at held_5 0))].
Proof.
  split; [exact held_6_reachable|]. split; [reflexivity|]. split; [reflexivity|]. split; [vm_compute; reflexivity|].
  split; [|vm_compute; reflexivity].
  assert (bool_decide (0%nat ∈ reached (mem_at held_6 0)) = false) as H by (vm_compute; reflexivity).
  by apply bool_decide_eq_false in H.
Qed.
