(* ===== verification/GcHeap.v ===== *)
(** The managed heap of the GC proposal: [internal/wasm/gc_heap.go].

    A reference to a struct, an array or an exception is a tagged word holding
    the index of a slot of the heap's table and the generation of that slot.  The
    generation is bumped whenever the slot changes hands, so that a word that
    outlives its object names nothing.  Objects are Go allocations, modelled as
    indices into [objects]; a slot holds such a pointer, and two slots may hold
    the same one (an exception thrown twice). *)
From Stdlib Require Import ZArith Lia String.
From stdpp Require Import base list numbers option tactics.
From S2P Require Import Prelude.
Local Open Scope Z_scope.
Local Open Scope go_scope.

(** The traps guest code can cause; a Go panic of any other kind is [Panic]. *)
Inductive trap : Type :=
| ErrRuntimeNullReference
| ErrRuntimeCastFailure
| ErrRuntimeOutOfBoundsArrayAccess
| ErrRuntimeInvalidTableAccess
| ErrRuntimeOutOfBoundsMemoryAccess
| ErrRuntimeIndirectCallTypeMismatch.

Abbreviation gres := (outcome trap).

(** * References *)

Definition GCRefNull : Z := 0.
Definition gcRefI31Tag : Z := Z.shiftl 1 63.
Definition gcRefHeapTag : Z := Z.shiftl 1 62.
Definition gcRefI31Mask : Z := Z.shiftl 1 31 - 1.
Definition gcRefIndexMask : Z := Z.shiftl 1 32 - 1.
Definition gcRefGenShift : Z := 32.
Definition gcRefGenMask : Z := Z.shiftl 1 30 - 1.

Definition EncodeI31 (v : Z) : Z := Z.lor gcRefI31Tag (Z.land v gcRefI31Mask).

Definition IsI31 (ref : Z) : bool := negb (Z.land ref gcRefI31Tag =? 0).

Definition IsGCHeapRef (ref : Z) : bool :=
  (Z.land ref gcRefI31Tag =? 0) && negb (Z.land ref gcRefHeapTag =? 0).

Definition DecodeI31S (ref : Z) : Z :=
  let v := u32 (Z.land ref gcRefI31Mask) in
  if negb (Z.land v (Z.shiftl 1 30) =? 0) then Z.lor v (2 ^ 32 - 1 - u32 gcRefI31Mask) else v.

Definition DecodeI31U (ref : Z) : Z := u32 (Z.land ref gcRefI31Mask).

(** [|] and [+] have one precedence in Go and associate to the left. *)
Definition handleFor (index gen : Z) : Z :=
  u64 (Z.lor (Z.lor gcRefHeapTag (Z.shiftl (Z.land gen gcRefGenMask) gcRefGenShift)) index + 1).

(** * Types and objects *)

(** A [ValueType] is the word the decoder makes of it. *)
Definition ValueTypeI32 : Z := 0x7f.
Definition ValueTypeI64 : Z := 0x7e.
Definition ValueTypeF32 : Z := 0x7d.
Definition ValueTypeF64 : Z := 0x7c.
Definition ValueTypeV128 : Z := 0x7b.
Definition ValueTypeI8 : Z := 0x78.
Definition ValueTypeI16 : Z := 0x77.

Inductive CompositeKind : Type := CompositeKindFunc | CompositeKindStruct | CompositeKindArray.

#[global] Instance CompositeKind_eq_dec : EqDecision CompositeKind.
Proof. solve_decision. Defined.

(** The part of [FunctionType] that describes structs and arrays; a field is its
    storage type. *)
Record FunctionType := mkFT { ft_kind : CompositeKind; ft_fields : list Z; FieldSlots : option (list Z) }.

Definition SlotsForStorageType (st : Z) : Z := if st =? ValueTypeV128 then 2 else 1.

(** The starts of the fields, and the total. *)
Fixpoint field_slots (fields : list Z) (slot : Z) : list Z :=
  match fields with
  | [] => [slot]
  | fd :: fields => slot :: field_slots fields (u32 (slot + SlotsForStorageType fd))
  end.

Definition CacheFieldSlots (f : FunctionType) : FunctionType :=
  if decide (ft_kind f = CompositeKindFunc) then f
  else match FieldSlots f with
       | Some _ => f
       | None => mkFT (ft_kind f) (ft_fields f) (Some (field_slots (ft_fields f) 0))
       end.

(** [o_type] is [None] for an exception. *)
Record GCObject := mkObj { o_type : option FunctionType; o_typeID : Z; Fields : list Z }.

Record gcSlot := mkSlot { obj : option nat; gen : Z; marked : bool }.

(** [slots] is the table, whatever its capacity; [free] is newest last. *)
Record GCHeap := mkHeap { slots : list gcSlot; used : Z; free : list Z; allocs : Z; nextAt : Z }.

Definition gcInitialThreshold : Z := 1024.
Definition gcInitialSlots : Z := 64.

Definition zero_slot : gcSlot := mkSlot None 0 false.
Definition zero_heap : GCHeap := mkHeap [] 0 [] 0 0.

Definition set_slots (h : GCHeap) (s : list gcSlot) : GCHeap := mkHeap s (used h) (free h) (allocs h) (nextAt h).

(** * Operations *)

(** The index an allocation takes: the newest freed one, or the next, growing the
    table when it is full. *)
Definition take_index (h : GCHeap) : Z * GCHeap :=
  match list.last (free h) with
  | Some index => (index, mkHeap (slots h) (used h) (take (length (free h) - 1) (free h)) (allocs h) (nextAt h))
  | None =>
      let sl := if used h =? zlen (slots h)
                then slots h ++ replicate (Z.to_nat (Z.max (2 * zlen (slots h)) gcInitialSlots - zlen (slots h))) zero_slot
                else slots h in
      (u32 (used h), mkHeap sl (used h + 1) (free h) (allocs h) (nextAt h))
  end.

Definition Alloc (h : GCHeap) (o : nat) : gres (GCHeap * (Z * bool)) :=
  let '(index, h) := take_index h in
  match slots h !! Z.to_nat index with
  | None => Panic
  | Some s =>
      let gen := u32 (gen s + 1) in
      let sl := <[Z.to_nat index := mkSlot (Some o) gen (marked s)]> (slots h) in
      let allocs := allocs h + 1 in
      let nextAt := if nextAt h =? 0 then gcInitialThreshold else nextAt h in
      Ok (mkHeap sl (used h) (free h) allocs nextAt, (handleFor index gen, nextAt <=? allocs))
  end.

(** The index of the slot a word names. *)
Definition slotOf (h : GCHeap) (ref : Z) : option nat :=
  if negb (IsGCHeapRef ref) then None
  else
    let i := u64 (Z.land ref gcRefIndexMask - 1) in
    if zlen (slots h) <=? i then None
    else match slots h !! Z.to_nat i with
         | None => None
         | Some s =>
             if negb (Z.land (gen s) gcRefGenMask =? Z.land (Z.shiftr ref gcRefGenShift) gcRefGenMask) then None
             else if decide (obj s = None) then None else Some (Z.to_nat i)
         end.

(** The pointer a slot holds. *)
Definition obj_at (h : GCHeap) (i : nat) : option nat := slots h !! i ≫= obj.

Definition Deref (h : GCHeap) (ref : Z) : gres nat :=
  if ref =? GCRefNull then Err ErrRuntimeNullReference
  else match slotOf h ref with
       | None => Err ErrRuntimeCastFailure
       | Some i => match obj_at h i with Some o => Ok o | None => Panic end
       end.

Definition TypeIDOf (objects : list GCObject) (h : GCHeap) (ref : Z) : option Z :=
  slotOf h ref ≫= λ i, obj_at h i ≫= λ o, o_typeID <$> objects !! o.

Definition Live (h : GCHeap) : Z := used h - zlen (free h).

(** ** Words of an object *)

Definition packStorage (st v : Z) : Z :=
  if st =? ValueTypeI8 then u8 v else if st =? ValueTypeI16 then u16 v else v.

Definition is_array (t : FunctionType) : bool := bool_decide (ft_kind t = CompositeKindArray).

(** A nil type, an exception's, makes the method panic. *)
Definition IsArray (o : GCObject) : gres bool :=
  match o_type o with None => Panic | Some t => Ok (is_array t) end.

Definition ElemSlots (o : GCObject) : gres Z :=
  match o_type o with
  | None => Panic
  | Some t =>
      if is_array t then match ft_fields t with [] => Panic | st :: _ => Ok (SlotsForStorageType st) end
      else Ok 1
  end.

Definition Len (o : GCObject) : gres Z :=
  let* n := ElemSlots o in Ok (zlen (Fields o) / n).

(** The loop of [vectorSlotStorage]: [starts] are the slots after the field's. *)
Fixpoint vector_slot_storage (fields starts : list Z) (slot : Z) : gres Z :=
  match fields with
  | [] => Ok ValueTypeI64
  | st :: fields =>
      match starts with
      | [] => Panic
      | next :: starts => if slot <? next then Ok st else vector_slot_storage fields starts slot
      end
  end.

Definition vectorSlotStorage (t : FunctionType) (slot : Z) : gres Z :=
  match FieldSlots t with
  | Some (_ :: starts) => vector_slot_storage (ft_fields t) starts (u32 slot)
  | Some [] | None => match ft_fields t with [] => Ok ValueTypeI64 | _ => Panic end
  end.

Definition slotStorage (o : GCObject) (slot : Z) : gres Z :=
  match o_type o with
  | None => Panic
  | Some t =>
      let fields := ft_fields t in
      let plain := match fields !! Z.to_nat slot with Some st => Ok st | None => Ok ValueTypeI64 end in
      if is_array t then match fields with [] => Panic | st :: _ => Ok st end
      else match FieldSlots t with
           | Some sl =>
               match sl !! length fields with
               | None => Panic
               | Some total => if negb (total =? zlen fields) then vectorSlotStorage t slot else plain
               end
           | None => plain
           end
  end.

Definition Get (o : GCObject) (i : Z) (signed : bool) : gres Z :=
  match (if 0 <=? i then Fields o !! Z.to_nat i else None) with
  | None => Panic
  | Some v =>
      let* st := slotStorage o i in
      Ok (if st =? ValueTypeI8 then if signed then u32 (i8 v) else u8 v
          else if st =? ValueTypeI16 then if signed then u32 (i16 v) else u16 v
          else v)
  end.

Definition Set_ (o : GCObject) (i v : Z) : gres GCObject :=
  let* st := slotStorage o i in
  if (0 <=? i) && (i <? zlen (Fields o))
  then Ok (mkObj (o_type o) (o_typeID o) (<[Z.to_nat i := packStorage st v]> (Fields o)))
  else Panic.

(** * References *)

Lemma land_pow2_test x n : 0 ≤ n → (Z.land x (Z.shiftl 1 n) =? 0) = negb (Z.testbit x n).
Proof.
  intros Hn. destruct (Z.testbit x n) eqn:E; cbn [negb].
  - apply Z.eqb_neq. intros H0. apply (f_equal (λ z, Z.testbit z n)) in H0.
    rewrite Z.land_spec, testbit_shiftl_1, E, Z.eqb_refl, Z.bits_0 in H0 by done. done.
  - apply Z.eqb_eq, Z.bits_inj'. intros i Hi. rewrite Z.land_spec, testbit_shiftl_1, Z.bits_0 by done.
    destruct (Z.eqb_spec i n) as [->|]; [by rewrite E|by rewrite andb_false_r].
Qed.

Lemma IsGCHeapRef_bits ref : IsGCHeapRef ref = negb (Z.testbit ref 63) && Z.testbit ref 62.
Proof. unfold IsGCHeapRef, gcRefI31Tag, gcRefHeapTag. rewrite !land_pow2_test by done. by rewrite negb_involutive. Qed.

Lemma testbit_div x n : 0 ≤ n → Z.testbit x n = Z.odd (x `div` 2 ^ n).
Proof. intros Hn. rewrite Z.testbit_odd, Z.shiftr_div_pow2 by done. done. Qed.

Lemma lor_add_low x i : 0 ≤ i < 2 ^ 32 → Z.lor (x * 2 ^ 32) i = x * 2 ^ 32 + i.
Proof. intros Hi. rewrite Z.lor_comm, <- Z.shiftl_mul_pow2, lor_shiftl_add, Z.shiftl_mul_pow2 by lia. lia. Qed.

Lemma gen_mask g : Z.land g gcRefGenMask = g `mod` 2 ^ 30.
Proof. exact (land_ones_mod g 30 ltac:(lia)). Qed.

Lemma index_mask ref : Z.land ref gcRefIndexMask = ref `mod` 2 ^ 32.
Proof. exact (land_ones_mod ref 32 ltac:(lia)). Qed.

(** A handle, as a number. *)
Lemma handleFor_val i g : 0 ≤ i < 2 ^ 32 - 1 → handleFor i g = (2 ^ 30 + g `mod` 2 ^ 30) * 2 ^ 32 + (i + 1).
Proof.
  intros Hi. unfold handleFor. rewrite gen_mask. pose proof (Z.mod_pos_bound g (2 ^ 30) ltac:(lia)) as Hg.
  change gcRefGenShift with 32. rewrite Z.shiftl_mul_pow2 by lia.
  assert (Z.lor gcRefHeapTag (g `mod` 2 ^ 30 * 2 ^ 32) = (2 ^ 30 + g `mod` 2 ^ 30) * 2 ^ 32) as ->.
  { change gcRefHeapTag with (2 ^ 30 * 2 ^ 32). rewrite <- !Z.shiftl_mul_pow2, <- Z.shiftl_lor by lia. f_equal.
    change (2 ^ 30) with (Z.shiftl 1 30) at 1. rewrite Z.lor_comm, lor_shiftl_add by lia. lia. }
  rewrite lor_add_low by lia. rewrite wrap_small by lia. lia.
Qed.

Lemma handleFor_parts i g :
  0 ≤ i < 2 ^ 32 - 1 →
  IsGCHeapRef (handleFor i g) = true ∧ Z.land (handleFor i g) gcRefIndexMask = i + 1 ∧
  Z.land (Z.shiftr (handleFor i g) gcRefGenShift) gcRefGenMask = g `mod` 2 ^ 30.
Proof.
  intros Hi. rewrite handleFor_val by done. pose proof (Z.mod_pos_bound g (2 ^ 30) ltac:(lia)) as Hg.
  set (r := g `mod` 2 ^ 30) in *. split; [|split].
  - rewrite IsGCHeapRef_bits, !testbit_div by lia.
    rewrite (Z.div_small _ (2 ^ 63)) by lia.
    replace ((2 ^ 30 + r) * 2 ^ 32 + (i + 1)) with (1 * 2 ^ 62 + (r * 2 ^ 32 + (i + 1))) by lia.
    rewrite Z.div_add_l, Z.div_small by lia. done.
  - rewrite index_mask, Z.add_comm, Z_mod_plus_full, Z.mod_small by lia. done.
  - rewrite gen_mask. change gcRefGenShift with 32. rewrite Z.shiftr_div_pow2 by lia.
    rewrite Z.div_add_l, (Z.div_small (i + 1)) by lia.
    replace (2 ^ 30 + r + 0) with (r + 1 * 2 ^ 30) by lia. by rewrite Z_mod_plus_full, Z.mod_small.
Qed.

(** The word [ref] has the shape of a handle to the slot [i] at generation [g]. *)
Definition handle_of (ref : Z) (i : nat) (g : Z) : Prop :=
  IsGCHeapRef ref = true ∧ Z.land ref gcRefIndexMask = Z.of_nat i + 1 ∧
  Z.land (Z.shiftr ref gcRefGenShift) gcRefGenMask = g `mod` 2 ^ 30.

Lemma handleFor_of i g : Z.of_nat i < 2 ^ 32 - 1 → handle_of (handleFor (Z.of_nat i) g) i g.
Proof. intros Hi. apply handleFor_parts. lia. Qed.

(** A word names a slot when it is a handle to it at its generation and the slot
    is taken. *)
Lemma slotOf_Some h ref i :
  zlen (slots h) < 2 ^ 64 →
  slotOf h ref = Some i ↔ ∃ s, slots h !! i = Some s ∧ obj s ≠ None ∧ handle_of ref i (gen s).
Proof.
  intros Hlen. unfold slotOf, handle_of. pose proof (zlen_nonneg (slots h)).
  destruct (IsGCHeapRef ref); cbn [negb]; [|split; [done|by intros (s & _ & _ & ? & _)]].
  rewrite index_mask. pose proof (Z.mod_pos_bound ref (2 ^ 32) ltac:(lia)) as Hr. set (low := ref `mod` 2 ^ 32) in *.
  destruct (decide (low = 0)) as [E0|E0].
  { rewrite E0. change (u64 (0 - 1)) with (2 ^ 64 - 1). rewrite (proj2 (Z.leb_le _ _)) by lia.
    split; [done|]. intros (s & _ & _ & _ & ? & _). lia. }
  rewrite (wrap_small 64 (low - 1)) by lia. destruct (Z.leb_spec (zlen (slots h)) (low - 1)) as [Hge|Hlt].
  { split; [done|]. intros (s & Hs & _ & _ & ? & _). apply lookup_lt_Some in Hs. unfold zlen in *. lia. }
  destruct (lookup_lt_is_Some_2 (slots h) (Z.to_nat (low - 1))) as [s Hs]; [unfold zlen in *; lia|]. rewrite Hs.
  rewrite (gen_mask (gen s)). destruct (Z.eqb_spec (gen s `mod` 2 ^ 30) (Z.land (Z.shiftr ref gcRefGenShift) gcRefGenMask)) as [Eg|Eg]; cbn [negb].
  - case_decide as Ho; split; [done| |intros [= <-]|].
    + intros (s' & Hs' & Ho' & _ & Ei & _). replace (Z.to_nat (low - 1)) with i in Hs by lia. congruence.
    + exists s. split_and!; try done. lia.
    + intros (s' & Hs' & Ho' & _ & Ei & _). f_equal. lia.
  - split; [done|]. intros (s' & Hs' & Ho' & _ & Ei & Eg'). replace (Z.to_nat (low - 1)) with i in Hs by lia. congruence.
Qed.

(** * Well-formed heaps *)

Record wf (h : GCHeap) : Prop := {
  wf_used : 0 ≤ used h ≤ zlen (slots h);
  wf_limit : used h ≤ 2 ^ 32 - 1;
  wf_len : zlen (slots h) ≤ 2 ^ 33;
  wf_unused : ∀ i s, slots h !! i = Some s → used h ≤ Z.of_nat i → s = zero_slot;
  wf_gen : ∀ i s, slots h !! i = Some s → 0 ≤ gen s < 2 ^ 32 ∧ Z.odd (gen s) = bool_decide (obj s ≠ None);
  wf_nodup : NoDup (free h);
  wf_free : ∀ i, i ∈ free h ↔ 0 ≤ i < used h ∧ ∃ s, slots h !! Z.to_nat i = Some s ∧ obj s = None;
}.

Lemma wf_len64 h : wf h → zlen (slots h) < 2 ^ 64.
Proof. intros [_ _ ? _ _ _ _]. lia. Qed.

Lemma zero_heap_wf : wf zero_heap.
Proof.
  split; cbn; try lia; try done; [apply NoDup_nil_2|]. intros i. split; [by intros ?%elem_of_nil|]. intros [? _]. lia.
Qed.

(** ** Allocation *)

(** There is a freed slot, or an index left. *)
Definition room (h : GCHeap) : Prop := free h ≠ [] ∨ used h < 2 ^ 32 - 1.

(** The heap once the index [i] has been taken: [i] is empty, and not free. *)
Record taken (h h1 : GCHeap) (i : nat) : Prop := {
  tk_used : used h ≤ used h1 ≤ zlen (slots h1);
  tk_limit : used h1 ≤ 2 ^ 32 - 1;
  tk_len : zlen (slots h1) ≤ 2 ^ 33;
  tk_old : ∀ j s, slots h !! j = Some s → slots h1 !! j = Some s;
  tk_new : ∀ j s, slots h1 !! j = Some s → slots h !! j = Some s ∨ s = zero_slot;
  tk_unused : ∀ j s, slots h1 !! j = Some s → used h1 ≤ Z.of_nat j → s = zero_slot;
  tk_index : Z.of_nat i < used h1 ∧ ∃ s, slots h1 !! i = Some s ∧ obj s = None;
  tk_nodup : NoDup (free h1);
  tk_free : ∀ j, j ∈ free h1 ↔
    0 ≤ j < used h1 ∧ j ≠ Z.of_nat i ∧ ∃ s, slots h1 !! Z.to_nat j = Some s ∧ obj s = None;
}.

Lemma take_freed h l index :
  wf h → free h = l ++ [index] →
  taken h (mkHeap (slots h) (used h) l (allocs h) (nextAt h)) (Z.to_nat index).
Proof.
  intros [Hu Hl Hlen Hun Hg Hnd Hfr] El.
  destruct (proj1 (Hfr index)) as (Hi & s & Hs & Ho); [rewrite El; apply elem_of_app; right; by left|].
  rewrite El in Hnd. apply list.NoDup_app in Hnd as (Hnd & Hdis & _).
  split; cbn; try done; try lia; auto.
  - split; [lia|]. eauto.
  - intros j. split.
    + intros Hj. destruct (proj1 (Hfr j)) as (? & ?); [rewrite El; apply elem_of_app; by left|].
      split; [done|]. split; [|done]. intros E. rewrite Z2Nat.id in E by lia. apply (Hdis j Hj). rewrite E. by left.
    + intros (Hj & Hne & Hs'). assert (j ∈ free h) as Hin by (by apply Hfr). rewrite El in Hin.
      apply elem_of_app in Hin as [?|Hin]; [done|]. apply list_elem_of_singleton in Hin. lia.
Qed.

(** The table, grown when it is full. *)
Definition grown (h : GCHeap) : list gcSlot :=
  if used h =? zlen (slots h)
  then slots h ++ replicate (Z.to_nat (Z.max (2 * zlen (slots h)) gcInitialSlots - zlen (slots h))) zero_slot
  else slots h.

Lemma grown_spec h :
  wf h → used h < 2 ^ 32 - 1 →
  used h < zlen (grown h) ≤ 2 ^ 33 ∧ (∀ j s, slots h !! j = Some s → grown h !! j = Some s) ∧
  (∀ j s, grown h !! j = Some s → slots h !! j = Some s ∨ s = zero_slot ∧ zlen (slots h) ≤ Z.of_nat j).
Proof.
  intros [Hu Hl Hlen _ _ _ _] Hlt. unfold grown. destruct (Z.eqb_spec (used h) (zlen (slots h))) as [E|E].
  - pose proof (zlen_nonneg (slots h)). unfold gcInitialSlots. split_and!.
    + rewrite zlen_app. unfold zlen in *. rewrite length_replicate. lia.
    + rewrite zlen_app. unfold zlen in *. rewrite length_replicate. lia.
    + intros j s Hj. by apply lookup_app_l_Some.
    + intros j s [Hj|[Hge Hj]]%lookup_app_Some; [by left|]. apply lookup_replicate in Hj as [-> _].
      right. split; [done|]. unfold zlen. lia.
  - split; [lia|]. split; [done|]. auto.
Qed.

Lemma take_next h :
  wf h → free h = [] → used h < 2 ^ 32 - 1 →
  taken h (mkHeap (grown h) (used h + 1) (free h) (allocs h) (nextAt h)) (Z.to_nat (used h)).
Proof.
  intros Hwf Ef Hlt. destruct (grown_spec h Hwf Hlt) as (Hlen & Hold & Hnew). destruct Hwf as [Hu Hl _ Hun Hg Hnd Hfr].
  assert (∀ j s, grown h !! j = Some s → used h ≤ Z.of_nat j → s = zero_slot) as Hun'.
  { intros j s Hj Hge. destruct (Hnew j s Hj) as [?|[-> _]]; [by eapply Hun|done]. }
  split; cbn; try done; try lia; eauto.
  - intros j s Hj. destruct (Hnew j s Hj) as [?|[-> _]]; auto.
  - intros j s Hj Hge. apply (Hun' j s Hj). lia.
  - split; [lia|]. destruct (lookup_lt_is_Some_2 (grown h) (Z.to_nat (used h))) as [s Hs]; [unfold zlen in *; lia|].
    exists s. split; [done|]. by rewrite (Hun' _ _ Hs) by lia.
  - intros j. rewrite Ef. split; [by intros ?%elem_of_nil|]. intros (Hj & Hne & s & Hs & Ho).
    destruct (Hnew _ s Hs) as [Hs'|[-> Hge]]; [|lia]. rewrite <- Ef. apply Hfr. split; [lia|]. eauto.
Qed.

Lemma take_index_ok h :
  wf h → room h → ∃ i h1, take_index h = (Z.of_nat i, h1) ∧ taken h h1 i ∧ allocs h1 = allocs h ∧ nextAt h1 = nextAt h.
Proof.
  intros Hwf Hroom. unfold take_index. destruct (list.last (free h)) as [index|] eqn:El.
  - apply last_Some in El as [l El]. pose proof (take_freed h l index Hwf El) as Ht. rewrite El.
    assert (take (length (l ++ [index]) - 1) (l ++ [index]) = l) as ->.
    { rewrite length_app. cbn. replace (length l + 1 - 1)%nat with (length l) by lia. apply take_app_length. }
    exists (Z.to_nat index). eexists. split; [|by split]. f_equal.
    destruct Hwf as [_ _ _ _ _ _ Hfr]. destruct (proj1 (Hfr index)) as [? _]; [rewrite El; apply elem_of_app; right; by left|]. lia.
  - apply last_None in El. destruct Hroom as [?|Hlt]; [done|]. pose proof (take_next h Hwf El Hlt) as Ht.
    exists (Z.to_nat (used h)). eexists. split; [|by split]. fold (grown h).
    destruct Hwf as [Hu _ _ _ _ _ _]. rewrite wrap_small, Z2Nat.id by lia. done.
Qed.

Lemma odd_false_even g : Z.odd g = false → ∃ k, g = 2 * k.
Proof. intros H. rewrite <- Z.negb_even in H. apply negb_false_iff, Z.even_spec in H as [k ->]. by exists k. Qed.

Lemma odd_true g : Z.odd g = true → ∃ k, g = 2 * k + 1.
Proof. intros [k ->]%Z.odd_spec. by exists k. Qed.

(** The generation of an empty slot does not wrap when it is handed out. *)
Lemma next_gen g : 0 ≤ g < 2 ^ 32 → Z.odd g = false → u32 (g + 1) = g + 1 ∧ g + 1 < 2 ^ 32 ∧ Z.odd (g + 1) = true.
Proof.
  intros Hg Ho. pose proof Ho as Ho'. apply odd_false_even in Ho' as [k ->]. rewrite wrap_small by lia.
  split; [done|]. split; [lia|]. by rewrite Z.odd_add, Ho.
Qed.

Lemma taken_gen h h1 i j s :
  wf h → taken h h1 i → slots h1 !! j = Some s → 0 ≤ gen s < 2 ^ 32 ∧ Z.odd (gen s) = bool_decide (obj s ≠ None).
Proof.
  intros Hwf Ht Hs. destruct (tk_new _ _ _ Ht _ _ Hs) as [Hs'| ->]; [by eapply wf_gen|].
  rewrite bool_decide_eq_false_2 by (intros H; by apply H). cbn. split; [lia|done].
Qed.

(** Filling the slot that was taken. *)
Lemma taken_filled h h1 i s o mk a n :
  wf h → taken h h1 i → slots h1 !! i = Some s → obj s = None →
  u32 (gen s + 1) = gen s + 1 ∧ wf (mkHeap (<[i := mkSlot (Some o) (gen s + 1) mk]> (slots h1)) (used h1) (free h1) a n).
Proof.
  intros Hwf Ht Hs Ho. destruct (taken_gen _ _ _ _ _ Hwf Ht Hs) as [Hg Hodd].
  rewrite bool_decide_eq_false_2 in Hodd by (intros H; by apply H).
  destruct (next_gen (gen s) Hg Hodd) as (Eg & Hg1 & Hodd1). split; [done|].
  pose proof (lookup_lt_Some _ _ _ Hs) as Hlen. destruct (tk_index _ _ _ Ht) as [Hi _].
  destruct (wf_used _ Hwf) as [Hu0 _]. pose proof (tk_used _ _ _ Ht). pose proof (tk_len _ _ _ Ht).
  split; cbn; unfold zlen in *; rewrite ?length_insert; try (apply Ht); try lia.
  - intros j s' Hj Hge. rewrite list_lookup_insert_ne in Hj by lia. by eapply tk_unused.
  - intros j s' Hj. apply list_lookup_insert_Some in Hj as [(-> & <- & _)|(_ & Hj)]; [|by eapply taken_gen].
    cbn [gen obj]. split; [lia|]. by rewrite Hodd1, bool_decide_eq_true_2.
  - intros j. rewrite (tk_free _ _ _ Ht j). split.
    + intros (Hj & Hne & s' & Hs' & Ho'). split; [done|]. exists s'. by rewrite list_lookup_insert_ne by lia.
    + intros (Hj & s' & Hs' & Ho'). split; [done|].
      apply list_lookup_insert_Some in Hs' as [(_ & <- & _)|(Hne & Hs')]; [done|]. split; [lia|]. eauto.
Qed.

(** An allocation: a slot that was empty now holds the object, under a handle
    that named nothing, and every other slot is as it was. *)
Lemma Alloc_ok h o :
  wf h → room h → ∃ i h' g want,
    Alloc h o = Ok (h', (handleFor (Z.of_nat i) g, want)) ∧ wf h' ∧ Z.of_nat i < 2 ^ 32 - 1 ∧ obj_at h i = None ∧
    (∃ mk, slots h' !! i = Some (mkSlot (Some o) g mk)) ∧
    g = from_option gen 0 (slots h !! i) + 1 ∧
    (∀ j s, j ≠ i → slots h !! j = Some s → slots h' !! j = Some s) ∧
    (∀ j s, j ≠ i → slots h' !! j = Some s → slots h !! j = Some s ∨ s = zero_slot).
Proof.
  intros Hwf Hroom. destruct (take_index_ok h Hwf Hroom) as (i & h1 & E & Ht & _ & _).
  destruct (tk_index _ _ _ Ht) as (Hi & s & Hs & Ho). pose proof (tk_limit _ _ _ Ht) as Hlim.
  set (n := if nextAt h1 =? 0 then gcInitialThreshold else nextAt h1).
  destruct (taken_filled h h1 i s o (marked s) (allocs h1 + 1) n Hwf Ht Hs Ho) as [Eg Hwf'].
  unfold Alloc. rewrite E, Nat2Z.id, Hs, Eg. eexists i, _, (gen s + 1), _. split; [reflexivity|].
  pose proof (lookup_lt_Some _ _ _ Hs).
  split; [exact Hwf'|]. split; [lia|]. cbn [slots]. split_and!.
  - unfold obj_at. destruct (slots h !! i) as [s'|] eqn:E'; [|done]. cbn. apply (tk_old _ _ _ Ht) in E'. congruence.
  - exists (marked s). by rewrite list_lookup_insert_eq.
  - f_equal. destruct (slots h !! i) as [s'|] eqn:E'; cbn; [apply (tk_old _ _ _ Ht) in E'; congruence|].
    destruct (tk_new _ _ _ Ht i s Hs) as [?| ->]; [congruence|done].
  - intros j s' Hne Hj. rewrite list_lookup_insert_ne by done. by apply (tk_old _ _ _ Ht).
  - intros j s' Hne Hj. rewrite list_lookup_insert_ne in Hj by done. by apply (tk_new _ _ _ Ht).
Qed.

(** What words name after an allocation. *)
Lemma Alloc_slotOf h o h' ref want :
  wf h → room h → Alloc h o = Ok (h', (ref, want)) →
  ∃ i, slotOf h ref = None ∧ slotOf h' ref = Some i ∧ obj_at h' i = Some o ∧
    (∀ w j, slotOf h w = Some j → slotOf h' w = Some j ∧ obj_at h' j = obj_at h j) ∧
    (∀ w j, slotOf h' w = Some j → slotOf h w = Some j ∨ j = i).
Proof.
  intros Hwf Hroom E. destruct (Alloc_ok h o Hwf Hroom) as (i & h1 & g & want' & E' & Hwf' & Hi & Ho & (mk & Hs) & Hg & Hold & Hnew).
  assert (h1 = h' ∧ ref = handleFor (Z.of_nat i) g) as [-> ->] by (rewrite E in E'; by injection E').
  pose proof (wf_len64 h Hwf) as Hl. pose proof (wf_len64 h' Hwf') as Hl'. exists i.
  assert (∀ j s, slots h !! j = Some s → obj s ≠ None → j ≠ i) as Hne.
  { intros j s Hj Hn ->. unfold obj_at in Ho. rewrite Hj in Ho. done. }
  split_and!.
  - destruct (slotOf h (handleFor (Z.of_nat i) g)) as [j|] eqn:Ej; [|done]. apply slotOf_Some in Ej as (s & Hj & Hn & _ & Hix & _); [|done].
    destruct (handleFor_of i g) as (_ & Hix' & _); [done|]. assert (j = i) as -> by lia.
    unfold obj_at in Ho. by rewrite Hj in Ho.
  - apply slotOf_Some; [done|]. eexists. split; [exact Hs|]. split; [done|]. by apply handleFor_of.
  - unfold obj_at. by rewrite Hs.
  - intros w j Hj. apply slotOf_Some in Hj as (s & Hj & Hn & Hh); [|done].
    pose proof (Hold j s (Hne j s Hj Hn) Hj) as Hj'. split; [apply slotOf_Some; [done|]; eauto|]. unfold obj_at. by rewrite Hj, Hj'.
  - intros w j Hj. apply slotOf_Some in Hj as (s & Hj & Hn & Hh); [|done]. destruct (decide (j = i)) as [->|Hji]; [by right|left].
    destruct (Hnew j s Hji Hj) as [?| ->]; [apply slotOf_Some; [done|]; eauto|done].
Qed.
