(* ===== verification/GcCollect.v ===== *)
(** The collector: [collectGarbageLocked] of [internal/wasm/gc_collect.go], run
    while every execution stands still.

    Roots are words: the stacks and buffers of the calls in flight, scanned
    conservatively, and the globals and tables of the module instances.  A
    collection keeps exactly the slots reachable from the roots, with their
    objects and generations, so that a word names after it what it named before
    if that was reachable, and nothing otherwise. *)
From Stdlib Require Import ZArith Lia String.
From stdpp Require Import base list numbers option tactics.
From S2P Require Import Prelude GcHeap.
Local Open Scope Z_scope.
Local Open Scope go_scope.

(** * The code *)

(** What a collection sees of a call in flight: its buffer, the words its engine
    offers, and whether those were all. *)
Record ExecRoots := mkExecRoots { e_buf : list Z; e_words : list Z; e_complete : bool }.

(** A module instance: its globals (type and current value) and tables; an entry
    may be nil. *)
Record ModRoots := mkModRoots { m_globals : list (option (Z * Z)); m_tables : list (option (list Z)) }.

Definition flagConcreteRef : Z := Z.shiftl 1 9.
Definition ValueTypeExnref : Z := 0x69.
Definition ValueTypeNullExnref : Z := 0x74.

Definition IsRef (v : Z) : bool :=
  let k := u8 v in
  ((u8 ValueTypeExnref <=? k) && (k <=? u8 ValueTypeNullExnref)) || negb (Z.land v flagConcreteRef =? 0).

(** The mark stack is a list of pointers, its top first. *)
Definition mark (hp : GCHeap * list nat) (ref : Z) : GCHeap * list nat :=
  let '(h, pending) := hp in
  match slotOf h ref with
  | None => (h, pending)
  | Some i =>
      match slots h !! i with
      | None => (h, pending)
      | Some s =>
          if marked s then (h, pending)
          else (set_slots h (<[i := mkSlot (obj s) (gen s) true]> (slots h)),
                match obj s with Some o => o :: pending | None => pending end)
      end
  end.

Definition scan_exec (acc : GCHeap * list nat * bool) (e : ExecRoots) : GCHeap * list nat * bool :=
  let '(hp, complete) := acc in
  let hp := foldl mark hp (e_buf e) in
  let hp := foldl mark hp (e_words e) in
  (hp, if e_complete e then complete else false).

(** The words [scanModuleRootsLocked] visits. *)
Definition module_words (m : ModRoots) : list Z :=
  omap (λ g, match g with Some (vt, lo) => if IsRef vt then Some lo else None | None => None end) (m_globals m) ++
  concat (omap id (m_tables m)).

Definition scanModuleRootsLocked (hp : GCHeap * list nat) (mods : list ModRoots) : GCHeap * list nat :=
  foldl mark hp (concat (module_words <$> mods)).

(** The marking loop. *)
Fixpoint drain (fuel : nat) (objects : list GCObject) (h : GCHeap) (pending : list nat) : gres GCHeap :=
  match pending with
  | [] => Ok h
  | o :: pending =>
      match fuel with
      | O => NoFuel
      | S fuel =>
          match objects !! o with
          | None => Panic
          | Some ob =>
              let '(h, pending) := foldl mark (h, pending) (Fields ob) in
              drain fuel objects h pending
          end
      end
  end.

Definition sweep_slot (h : GCHeap) (i : Z) : GCHeap :=
  match slots h !! Z.to_nat i with
  | None => h
  | Some s =>
      if bool_decide (obj s = None) || marked s then h
      else mkHeap (<[Z.to_nat i := mkSlot None (u32 (gen s + 1)) (marked s)]> (slots h)) (used h)
             (free h ++ [i]) (allocs h) (nextAt h)
  end.

Definition sweep (h : GCHeap) : GCHeap := foldl sweep_slot h (seqZ 0 (used h)).

Definition unmark (s : gcSlot) : gcSlot := mkSlot (obj s) (gen s) false.
Definition clear_marks (h : GCHeap) : GCHeap :=
  let n := Z.to_nat (used h) in set_slots h ((unmark <$> take n (slots h)) ++ drop n (slots h)).

(** The threshold of the next collection. *)
Definition rearm (h : GCHeap) : GCHeap :=
  mkHeap (slots h) (used h) (free h) 0 (used h - zlen (free h) + gcInitialThreshold).

(** As many rounds of the marking loop as the table has slots are enough: every
    round but the first of a slot is for one that was not marked. *)
Definition collectGarbageLocked (objects : list GCObject) (h : GCHeap) (execs : list ExecRoots) (mods : list ModRoots) : gres GCHeap :=
  let h := clear_marks h in
  let '(h, pending, complete) := foldl scan_exec (h, [], true) execs in
  if negb complete then Ok (rearm h)
  else
    let '(h, pending) := scanModuleRootsLocked (h, pending) mods in
    let* h := drain (length (slots h)) objects h pending in
    Ok (rearm (sweep h)).

(** * Reachability *)

Section reach.
Variable objects : list GCObject.
Variable h : GCHeap.
Variable roots : list Z.

(** A slot is reachable when a root names it, or a field of the object of a
    reachable slot does. *)
Inductive reachable : nat → Prop :=
| reach_root w i : w ∈ roots → slotOf h w = Some i → reachable i
| reach_field i o ob w j :
    reachable i → obj_at h i = Some o → objects !! o = Some ob → w ∈ Fields ob → slotOf h w = Some j → reachable j.
End reach.

(** The words a complete collection starts from. *)
Definition root_words (execs : list ExecRoots) (mods : list ModRoots) : list Z :=
  concat ((λ e, e_buf e ++ e_words e) <$> execs) ++ concat (module_words <$> mods).

(** Every pointer in the table is one. *)
Definition objects_ok (objects : list GCObject) (h : GCHeap) : Prop :=
  ∀ i o, obj_at h i = Some o → is_Some (objects !! o).

(** * Marking *)

(** Heaps that differ in their marks only. *)
Record same (h h' : GCHeap) : Prop := {
  same_slots : unmark <$> slots h' = unmark <$> slots h;
  same_used : used h' = used h;
  same_free : free h' = free h;
}.

Lemma same_refl h : same h h.
Proof. by split. Qed.
Lemma same_trans h1 h2 h3 : same h1 h2 → same h2 h3 → same h1 h3.
Proof. intros [E1 E2 E3] [F1 F2 F3]. split; congruence. Qed.

Lemma same_lookup h h' i s :
  same h h' → slots h !! i = Some s → ∃ s', slots h' !! i = Some s' ∧ obj s' = obj s ∧ gen s' = gen s.
Proof.
  intros [E _ _] Hs. assert ((unmark <$> slots h') !! i = Some (unmark s)) as H by (rewrite E, list_lookup_fmap, Hs; done).
  rewrite list_lookup_fmap in H. apply fmap_Some in H as (s' & Hs' & Eu). exists s'. split; [done|].
  unfold unmark in Eu. by injection Eu.
Qed.

Lemma same_sym h h' : same h h' → same h' h.
Proof. intros [E1 E2 E3]. by split. Qed.

Lemma same_length h h' : same h h' → length (slots h') = length (slots h).
Proof. intros [E _ _]. by rewrite <- (length_fmap unmark), E, length_fmap. Qed.

Lemma same_obj_at h h' i : same h h' → obj_at h' i = obj_at h i.
Proof.
  intros Hsm. unfold obj_at. destruct (slots h !! i) as [s|] eqn:Hs.
  - destruct (same_lookup h h' i s Hsm Hs) as (s' & -> & Ho & _). done.
  - destruct (slots h' !! i) as [s'|] eqn:Hs'; [|done].
    destruct (same_lookup h' h i s' (same_sym _ _ Hsm) Hs') as (? & ? & _). congruence.
Qed.

Lemma same_slotOf h h' w : zlen (slots h) < 2 ^ 64 → same h h' → slotOf h' w = slotOf h w.
Proof.
  intros Hl Hsm. assert (zlen (slots h') < 2 ^ 64) as Hl' by (unfold zlen; rewrite (same_length h h' Hsm); done).
  apply option_eq. intros i. rewrite !slotOf_Some by done. split; intros (s & Hs & Hn & Hh).
  - destruct (same_lookup h' h i s (same_sym _ _ Hsm) Hs) as (s' & ? & Eo & Eg). exists s'. rewrite Eo, Eg. done.
  - destruct (same_lookup h h' i s Hsm Hs) as (s' & ? & Eo & Eg). exists s'. rewrite Eo, Eg. done.
Qed.

Definition is_marked (h : GCHeap) (i : nat) : Prop := marked <$> slots h !! i = Some true.

#[global] Instance is_marked_dec h i : Decision (is_marked h i).
Proof. unfold is_marked. apply _. Defined.

Lemma is_marked_Some h i : is_marked h i ↔ ∃ s, slots h !! i = Some s ∧ marked s = true.
Proof. unfold is_marked. rewrite fmap_Some. split; intros (s & ? & ?); eauto. Qed.

(** How many slots are not marked. *)
Definition unmarked (l : list gcSlot) : nat := length (filter (λ s, marked s = false) l).

Lemma unmarked_insert l i s s' :
  l !! i = Some s → marked s = false → marked s' = true → S (unmarked (<[i := s']> l)) = unmarked l.
Proof.
  intros Hs Hm Hm'. unfold unmarked. rewrite insert_take_drop by (by eapply lookup_lt_Some).
  rewrite <- (take_drop_middle l i s Hs) at 3. rewrite !list.filter_app, !filter_cons, !length_app.
  rewrite decide_False by congruence. rewrite decide_True by done. cbn. lia.
Qed.

(** One word: the slot it names is marked, and its object pushed if it was not. *)
Lemma mark_spec h p w :
  zlen (slots h) < 2 ^ 64 →
  let '(h', p') := mark (h, p) w in
  same h h' ∧ (∀ j, is_marked h' j ↔ is_marked h j ∨ slotOf h w = Some j) ∧
  (length p' + unmarked (slots h') = length p + unmarked (slots h))%nat ∧
  (∀ o, o ∈ p' → o ∈ p ∨ ∃ j, slotOf h w = Some j ∧ obj_at h j = Some o) ∧
  (∀ o, o ∈ p → o ∈ p') ∧
  (∀ j o, is_marked h' j → ¬ is_marked h j → obj_at h j = Some o → o ∈ p').
Proof.
  intros Hl. unfold mark. destruct (slotOf h w) as [i|] eqn:Ei.
  2: { split_and!; try done; [|by left]. intros j. split; [auto|]. by intros [?|?]. }
  apply slotOf_Some in Ei as (s & Hs & Hn & _); [|done]. rewrite Hs.
  destruct (marked s) eqn:Em.
  { split_and!; try done; [|by left]. intros j. split; [auto|]. intros [?|[= <-]]; [done|]. apply is_marked_Some. by exists s. }
  destruct (obj s) as [o|] eqn:Eo; [|done]. pose proof (lookup_lt_Some _ _ _ Hs) as Hlt.
  assert (∀ j, is_marked (set_slots h (<[i := mkSlot (Some o) (gen s) true]> (slots h))) j ↔ is_marked h j ∨ Some i = Some j) as Hmk.
  { intros j. rewrite !is_marked_Some. cbn [slots set_slots]. split.
    - intros (s' & Hs' & Hm'). apply list_lookup_insert_Some in Hs' as [(-> & _)|(_ & ?)]; [by right|left; eauto].
    - intros [(s' & Hs' & Hm')|[= <-]]; [|eexists; by rewrite list_lookup_insert_eq].
      exists s'. rewrite list_lookup_insert_ne; [done|]. intros ->. congruence. }
  assert (obj_at h i = Some o) as Hat by (unfold obj_at; by rewrite Hs).
  split_and!; try done.
  - split; try done. cbn [slots set_slots]. apply list_eq. intros j. rewrite !list_lookup_fmap.
    destruct (decide (i = j)) as [<-|Hne]; [|by rewrite list_lookup_insert_ne].
    rewrite list_lookup_insert_eq, Hs by done. unfold unmark. cbn. by rewrite Eo.
  - cbn [length slots set_slots]. rewrite <- (unmarked_insert (slots h) i s (mkSlot (Some o) (gen s) true)) by done. lia.
  - intros o' [->|?]%elem_of_cons; [right; eauto|by left].
  - intros o' ?. by right.
  - intros j o' [?|[= <-]]%Hmk Hnm Ho'; [done|]. rewrite Hat in Ho'. injection Ho' as <-. by left.
Qed.

Lemma mark_all_spec ws : ∀ h p,
  zlen (slots h) < 2 ^ 64 →
  let '(h', p') := foldl mark (h, p) ws in
  same h h' ∧ (∀ j, is_marked h' j ↔ is_marked h j ∨ ∃ w, w ∈ ws ∧ slotOf h w = Some j) ∧
  (length p' + unmarked (slots h') = length p + unmarked (slots h))%nat ∧
  (∀ o, o ∈ p' → o ∈ p ∨ ∃ w j, w ∈ ws ∧ slotOf h w = Some j ∧ obj_at h j = Some o) ∧
  (∀ o, o ∈ p → o ∈ p') ∧
  (∀ j o, is_marked h' j → ¬ is_marked h j → obj_at h j = Some o → o ∈ p').
Proof.
  induction ws as [|w ws IH]; intros h p Hl; cbn [foldl].
  { split_and!; try done; [|by left]. intros j. split; [by left|]. intros [?|(w & Hw & _)]; [done|].
    by apply elem_of_nil in Hw. }
  pose proof (mark_spec h p w Hl) as H1. destruct (mark (h, p) w) as [h1 p1]. destruct H1 as (Hs1 & Hm1 & Hc1 & Hp1 & Hk1 & Hn1).
  assert (zlen (slots h1) < 2 ^ 64) as Hl1 by (unfold zlen; rewrite (same_length _ _ Hs1); done).
  specialize (IH h1 p1 Hl1). destruct (foldl mark (h1, p1) ws) as [h2 p2].
  destruct IH as (Hs2 & Hm2 & Hc2 & Hp2 & Hk2 & Hn2).
  assert (∀ w', slotOf h1 w' = slotOf h w') as Esl by (intros; by apply same_slotOf).
  assert (∀ j, obj_at h1 j = obj_at h j) as Eob by (intros; by apply same_obj_at).
  split_and!.
  - by eapply same_trans.
  - intros j. rewrite Hm2, Hm1. setoid_rewrite Esl. setoid_rewrite elem_of_cons.
    split; [intros [[?|?]|(w' & ? & ?)]; eauto 6|intros [?|(w' & [->|?] & ?)]; eauto 6].
  - lia.
  - intros o Ho. destruct (Hp2 o Ho) as [Ho1|(w' & j & Hw' & Hj & Hob)].
    + destruct (Hp1 o Ho1) as [?|(j & Hj & Hob)]; [by left|]. right. exists w, j. split; [by left|done].
    + right. exists w', j. rewrite Esl in Hj. rewrite Eob in Hob. split; [by right|done].
  - auto.
  - intros j o Hj2 Hnj Hob. destruct (decide (is_marked h1 j)); [by apply Hk2, (Hn1 j o)|].
    by apply (Hn2 j o); [| |rewrite Eob].
Qed.

(** * The marking loop *)

Section drain.
Variable objects : list GCObject.
Variable h0 : GCHeap.
Variable roots : list Z.
Hypothesis Hlen : zlen (slots h0) < 2 ^ 64.
Hypothesis Hobjects : objects_ok objects h0.

(** The words of the fields of [o] that name a slot name a marked one. *)
Definition scanned (h : GCHeap) (o : nat) : Prop :=
  ∀ ob w j, objects !! o = Some ob → w ∈ Fields ob → slotOf h0 w = Some j → is_marked h j.

(** The loop's invariant: what is marked is reachable and either scanned or
    pending, what is pending is the object of a marked slot, and what the roots
    name is marked. *)
Record marking (h : GCHeap) (pending : list nat) : Prop := {
  mk_same : same h0 h;
  mk_sound : ∀ j, is_marked h j → reachable objects h0 roots j;
  mk_pending : ∀ o, o ∈ pending → ∃ j, is_marked h j ∧ obj_at h0 j = Some o;
  mk_closed : ∀ j o, is_marked h j → obj_at h0 j = Some o → o ∈ pending ∨ scanned h o;
  mk_roots : ∀ w j, w ∈ roots → slotOf h0 w = Some j → is_marked h j;
}.

Lemma marking_step h o pending ob :
  marking h (o :: pending) → objects !! o = Some ob →
  let '(h', p') := foldl mark (h, pending) (Fields ob) in
  marking h' p' ∧ (length p' + unmarked (slots h') = length pending + unmarked (slots h))%nat.
Proof.
  intros [Hsame Hsound Hpend Hclosed Hroots] Hob.
  assert (zlen (slots h) < 2 ^ 64) as Hl by (unfold zlen; rewrite (same_length _ _ Hsame); done).
  pose proof (mark_all_spec (Fields ob) h pending Hl) as H. destruct (foldl mark (h, pending) (Fields ob)) as [h' p'].
  destruct H as (Hs & Hm & Hc & Hp & Hk & Hn). split; [|done].
  assert (∀ w, slotOf h w = slotOf h0 w) as Esl by (intros; by apply same_slotOf).
  assert (∀ j, obj_at h j = obj_at h0 j) as Eob by (intros; by apply same_obj_at).
  destruct (Hpend o ltac:(by left)) as (jo & Hjo & Hoo).
  assert (∀ w j, w ∈ Fields ob → slotOf h0 w = Some j → reachable objects h0 roots j) as Hreach.
  { intros w j Hw Hj. eapply reach_field; eauto. }
  split.
  - by eapply same_trans.
  - intros j [Hj|(w & Hw & Hj)]%Hm; [by apply Hsound|]. rewrite Esl in Hj. eauto.
  - intros o' Ho'. destruct (Hp o' Ho') as [?|(w & j & Hw & Hj & Hj')].
    + destruct (Hpend o' ltac:(by right)) as (j & Hj & ?). exists j. split; [apply Hm; by left|done].
    + exists j. split; [apply Hm; right; eauto|by rewrite <- Eob].
  - intros j o' Hj Ho'. destruct (decide (is_marked h j)) as [Hjm|Hjm]; [|left; by apply (Hn j o'); [| |rewrite Eob]].
    destruct (Hclosed j o' Hjm Ho') as [[->|?]%elem_of_cons|Hsc].
    + right. intros ob' w j' Hob' Hw Hj'. assert (ob' = ob) as -> by congruence. apply Hm. right. exists w. by rewrite Esl.
    + left. by apply Hk.
    + right. intros ob' w j' Hob' Hw Hj'. apply Hm. left. by eapply Hsc.
  - intros w j Hw Hj. apply Hm. left. eauto.
Qed.

Lemma marking_done h : marking h [] → same h0 h ∧ ∀ j, is_marked h j ↔ reachable objects h0 roots j.
Proof.
  intros [Hsame Hsound _ Hclosed Hroots]. split; [done|]. intros j. split; [auto|].
  induction 1 as [|i o ob w j Hr IHr Ho Hob Hw Hj]; [eauto|].
  destruct (Hclosed i o IHr Ho) as [?%elem_of_nil|Hsc]; [done|]. by eapply Hsc.
Qed.

(** The loop ends, with exactly the reachable slots marked. *)
Lemma drain_ok fuel h pending :
  marking h pending → (length pending + unmarked (slots h) ≤ fuel)%nat →
  ∃ h', drain fuel objects h pending = Ok h' ∧ same h0 h' ∧ ∀ j, is_marked h' j ↔ reachable objects h0 roots j.
Proof.
  revert h pending. induction fuel as [|fuel IH]; intros h pending Hmk Hf.
  - destruct pending; [|cbn in Hf; lia]. exists h. split; [done|]. by apply marking_done.
  - destruct pending as [|o pending].
    + exists h. split; [done|]. by apply marking_done.
    + destruct (mk_pending _ _ Hmk o ltac:(by left)) as (j & _ & Hj). destruct (Hobjects j o Hj) as [ob Hob].
      cbn [drain]. rewrite Hob. pose proof (marking_step h o pending ob Hmk Hob) as Hst.
      destruct (foldl mark (h, pending) (Fields ob)) as [h' p']. destruct Hst as [Hmk' Hc]. apply IH; [done|].
      cbn in Hf. lia.
Qed.
End drain.

(** * Roots *)

Lemma clear_marks_ok h : wf h → same h (clear_marks h) ∧ ∀ j, ¬ is_marked (clear_marks h) j.
Proof.
  intros Hwf. unfold clear_marks. set (n := Z.to_nat (used h)). split.
  - split; try done. cbn [slots set_slots]. rewrite <- (take_drop n (slots h)) at 3. rewrite !fmap_app. f_equal.
    rewrite <- list_fmap_compose. by apply list_fmap_ext.
  - intros j Hj. apply is_marked_Some in Hj as (s & Hs & Hm). cbn [slots set_slots] in Hs.
    apply lookup_app_Some in Hs as [Hs|[Hge Hs]].
    + rewrite list_lookup_fmap in Hs. apply fmap_Some in Hs as (s' & _ & ->). done.
    + rewrite lookup_drop in Hs. rewrite length_fmap, length_take in *.
      pose proof (wf_used h Hwf). unfold zlen in *.
      rewrite (wf_unused h Hwf _ s Hs) in Hm by lia. done.
Qed.

(** Scanning the executions is marking their words. *)
Lemma scan_execs_words execs hp c :
  foldl scan_exec (hp, c) execs =
  (foldl mark hp (concat ((λ e, e_buf e ++ e_words e) <$> execs)), c && forallb e_complete execs).
Proof.
  revert hp c. induction execs as [|e execs IH]; intros hp c; cbn; [by rewrite andb_true_r|].
  rewrite IH, !foldl_app. f_equal. destruct (e_complete e); cbn; [done|by rewrite andb_false_r].
Qed.

(** * Sweeping *)

Definition dead_slot (s : gcSlot) : bool := negb (bool_decide (obj s = None) || marked s).

Definition swept (s : gcSlot) : gcSlot := if dead_slot s then mkSlot None (u32 (gen s + 1)) (marked s) else s.

(** The slot at [i] is about to be freed. *)
Definition dead (h : GCHeap) (i : Z) : bool := from_option dead_slot false (slots h !! Z.to_nat i).

Lemma sweep_slot_ok h i :
  0 ≤ i →
  used (sweep_slot h i) = used h ∧ length (slots (sweep_slot h i)) = length (slots h) ∧
  (∀ j, slots (sweep_slot h i) !! j = (if decide (Z.of_nat j = i) then swept else id) <$> slots h !! j) ∧
  free (sweep_slot h i) = free h ++ (if dead h i then [i] else []).
Proof.
  intros Hi. unfold sweep_slot, dead. destruct (slots h !! Z.to_nat i) as [s|] eqn:Es; cbn [from_option].
  - unfold dead_slot. destruct (bool_decide (obj s = None) || marked s) eqn:Ed; cbn [negb].
    + split_and!; try done; [|by rewrite app_nil_r]. intros j. case_decide as Ej; [|by rewrite option_fmap_id].
      subst i. rewrite Nat2Z.id in Es. rewrite Es. cbn. unfold swept, dead_slot. by rewrite Ed.
    + cbn [used slots free]. split_and!; try done; [by rewrite length_insert|].
      intros j. case_decide as Ej.
      * subst i. rewrite Nat2Z.id in *. pose proof (lookup_lt_Some _ _ _ Es).
        rewrite list_lookup_insert_eq, Es by done. cbn. unfold swept, dead_slot. by rewrite Ed.
      * rewrite list_lookup_insert_ne by lia. by rewrite option_fmap_id.
  - split_and!; try done; [|by rewrite app_nil_r]. intros j. case_decide as Ej; [|by rewrite option_fmap_id].
    subst i. rewrite Nat2Z.id in Es. by rewrite Es.
Qed.

Lemma sweep_list_ok l : ∀ h,
  NoDup l → Forall (λ i, 0 ≤ i) l →
  let h' := foldl sweep_slot h l in
  used h' = used h ∧ length (slots h') = length (slots h) ∧
  (∀ j, slots h' !! j = (if decide (Z.of_nat j ∈ l) then swept else id) <$> slots h !! j) ∧
  ∃ fr, free h' = free h ++ fr ∧ NoDup fr ∧ ∀ i, i ∈ fr ↔ i ∈ l ∧ dead h i = true.
Proof.
  induction l as [|i l IH]; intros h Hnd Hpos; cbn [foldl].
  { split_and!; try done.
    - intros j. rewrite decide_False by (by intros ?%elem_of_nil). by rewrite option_fmap_id.
    - exists []. split; [by rewrite app_nil_r|]. split; [apply NoDup_nil_2|]. intros i. split; [by intros ?%elem_of_nil|].
      by intros [?%elem_of_nil _]. }
  apply list.NoDup_cons in Hnd as [Hni Hnd]. inversion_clear Hpos as [|?? Hi Hpos'].
  destruct (sweep_slot_ok h i Hi) as (Hu1 & Hl1 & Hs1 & Hf1).
  destruct (IH (sweep_slot h i) Hnd Hpos') as (Hu & Hl & Hs & fr & Hfr & Hndf & Hin).
  assert (∀ k, k ∈ l → dead (sweep_slot h i) k = dead h k) as Hd.
  { intros k Hk. unfold dead. rewrite Hs1. rewrite decide_False; [by rewrite option_fmap_id|].
    intros E. apply Hni. assert (0 ≤ k) by (rewrite Forall_forall in Hpos'; apply Hpos'; by apply list_elem_of_In).
    by replace i with k by lia. }
  split; [congruence|]. split; [congruence|]. split.
  - intros j. rewrite Hs, Hs1. destruct (decide (Z.of_nat j = i)) as [E|E].
    + rewrite decide_False by (by rewrite E). rewrite decide_True by (rewrite E; by left). by rewrite option_fmap_id.
    + rewrite option_fmap_id. destruct (decide (Z.of_nat j ∈ l)).
      * by rewrite decide_True by (by right).
      * by rewrite decide_False by (by intros [?|?]%elem_of_cons).
  - exists ((if dead h i then [i] else []) ++ fr). split; [by rewrite Hfr, Hf1, app_assoc|]. split.
    + destruct (dead h i); [|done]. apply NoDup_cons_2; [|done]. intros [? _]%Hin. done.
    + intros k. rewrite elem_of_app, elem_of_cons, Hin. split.
      * intros [Hk|[Hk Hdk]]; [destruct (dead h i) eqn:E; [|by apply elem_of_nil in Hk]|].
        -- apply list_elem_of_singleton in Hk as ->. auto.
        -- rewrite Hd in Hdk by done. auto.
      * intros [[->|Hk] Hdk]; [left; rewrite Hdk; by left|right]. by rewrite Hd.
Qed.

(** After a sweep: the dead slots in use are empty, one generation later, and
    free. *)
Lemma sweep_ok h :
  0 ≤ used h →
  used (sweep h) = used h ∧ length (slots (sweep h)) = length (slots h) ∧
  (∀ j, slots (sweep h) !! j = (if decide (Z.of_nat j < used h) then swept else id) <$> slots h !! j) ∧
  ∃ fr, free (sweep h) = free h ++ fr ∧ NoDup fr ∧ ∀ i, i ∈ fr ↔ 0 ≤ i < used h ∧ dead h i = true.
Proof.
  intros Hu. destruct (sweep_list_ok (seqZ 0 (used h)) h) as (H1 & H2 & H3 & fr & H4 & H5 & H6).
  - apply NoDup_seqZ.
  - apply Forall_forall. intros i Hi. apply list_elem_of_In, elem_of_seqZ in Hi. lia.
  - unfold sweep. split_and!; try done.
    + intros j. rewrite H3. destruct (decide (Z.of_nat j ∈ seqZ 0 (used h))) as [Hj|Hj]; rewrite elem_of_seqZ in Hj.
      * by rewrite decide_True by lia.
      * by rewrite decide_False by lia.
    + exists fr. split; [done|]. split; [done|]. intros i. rewrite H6, elem_of_seqZ. split; intros [??]; (split; [lia|done]).
Qed.

(** * Collections *)

Lemma same_wf h h' : wf h → same h h' → (∀ j, is_marked h' j → obj_at h j ≠ None) → wf h'.
Proof.
  intros Hwf Hsm Hmk. pose proof (same_length h h' Hsm) as El. pose proof (same_sym _ _ Hsm) as Hsm'.
  pose proof Hsm as [_ Eu Ef]. destruct Hwf as [H1 H2 H3 Hun Hg Hnd Hfr].
  split; rewrite ?Eu, ?Ef; unfold zlen in *; rewrite ?El; try done.
  - intros i s Hs Hge. destruct (same_lookup h' h i s Hsm' Hs) as (s0 & Hs0 & Eo & Eg). pose proof (Hun i s0 Hs0 Hge) as ->.
    destruct s as [o g [|]]; cbn in *; subst; [|done]. exfalso. apply (Hmk i); [by apply is_marked_Some; eauto|].
    unfold obj_at. by rewrite Hs0.
  - intros i s Hs. destruct (same_lookup h' h i s Hsm' Hs) as (s0 & Hs0 & <- & <-). eauto.
  - intros i. rewrite Hfr. split; intros (Hi & s & Hs & Ho); (split; [done|]).
    + destruct (same_lookup h h' _ s Hsm Hs) as (s' & ? & ? & _). exists s'. split; congruence.
    + destruct (same_lookup h' h _ s Hsm' Hs) as (s' & ? & ? & _). exists s'. split; congruence.
Qed.

(** The generation of a slot that is freed. *)
Lemma freed_gen g : Z.odd g = true → 0 ≤ u32 (g + 1) < 2 ^ 32 ∧ Z.odd (u32 (g + 1)) = false.
Proof.
  intros Ho. unfold wrap. split; [apply Z.mod_pos_bound; lia|]. apply odd_true in Ho as [k ->].
  rewrite <- Z.bit0_odd, Z.mod_pow2_bits_low by lia. rewrite Z.bit0_odd.
  replace (2 * k + 1 + 1) with (2 * (k + 1)) by lia. by rewrite Z.odd_mul.
Qed.

Lemma dead_slot_true s : dead_slot s = true ↔ obj s ≠ None ∧ marked s = false.
Proof. unfold dead_slot. rewrite negb_true_iff, orb_false_iff, bool_decide_eq_false. done. Qed.

Lemma sweep_wf h : wf h → wf (sweep h).
Proof.
  intros Hwf. destruct (sweep_ok h) as (Eu & El & Hs & fr & Ef & Hndf & Hfr); [apply (wf_used h Hwf)|].
  destruct Hwf as [H1 H2 H3 Hun Hg Hnd Hfree].
  assert (∀ j s, slots (sweep h) !! j = Some s → ∃ s0, slots h !! j = Some s0 ∧ s = if decide (Z.of_nat j < used h) then swept s0 else s0) as Hinv.
  { intros j s. rewrite Hs. intros (s0 & ? & ->)%fmap_Some. exists s0. split; [done|]. by case_decide. }
  split; rewrite ?Eu, ?Ef; unfold zlen in *; rewrite ?El; try done.
  - intros i s (s0 & Hs0 & ->)%Hinv Hge. rewrite decide_False by lia. eauto.
  - intros i s (s0 & Hs0 & ->)%Hinv. case_decide; [|eauto]. unfold swept. destruct (dead_slot s0) eqn:Ed; [|eauto].
    apply dead_slot_true in Ed as [Ho _]. destruct (Hg i s0 Hs0) as [_ Hodd]. rewrite bool_decide_eq_true_2 in Hodd by done.
    rewrite bool_decide_eq_false_2 by (intros H'; by apply H'). by apply freed_gen.
  - apply list.NoDup_app. split; [done|]. split; [|done]. intros i (_ & s & Hi & Ho)%Hfree [_ Hd]%Hfr.
    unfold dead in Hd. rewrite Hi in Hd. cbn in Hd. by apply dead_slot_true in Hd as [? _].
  - intros i. rewrite elem_of_app, Hfree, Hfr. setoid_rewrite Hs. split.
    + intros [(Hi & s & Es & Ho)|(Hi & Hd)]; (split; [done|]).
      * exists (swept s). rewrite Es, decide_True by lia. split; [done|]. unfold swept.
        by destruct (dead_slot s) eqn:Ed.
      * unfold dead in Hd. destruct (slots h !! Z.to_nat i) as [s|]; [|done]. cbn in Hd. exists (swept s).
        rewrite decide_True by lia. split; [done|]. unfold swept. by rewrite Hd.
    + intros (Hi & s & (s0 & Es & ->)%fmap_Some & Ho). rewrite decide_True in Ho by lia.
      unfold swept in Ho. unfold dead. rewrite Es. cbn. destruct (dead_slot s0); [by right|left]. eauto.
Qed.

(** What a word names after a sweep is what it named before, if that is marked. *)
Lemma sweep_slotOf h w i : wf h → slotOf (sweep h) w = Some i ↔ slotOf h w = Some i ∧ is_marked h i.
Proof.
  intros Hwf. pose proof (sweep_wf h Hwf) as Hwf'. destruct (sweep_ok h) as (_ & _ & Hs & _); [apply (wf_used h Hwf)|].
  rewrite !slotOf_Some, is_marked_Some by (by apply wf_len64). split.
  - intros (s & Es & Ho & Hh). rewrite Hs in Es. apply fmap_Some in Es as (s0 & Es & ->).
    case_decide as Hi; [|rewrite (wf_unused h Hwf i s0 Es) in Ho by lia; done].
    unfold swept in Ho, Hh. destruct (dead_slot s0) eqn:Ed; [done|]. split; [eauto|]. exists s0. split; [done|].
    destruct (marked s0) eqn:Em; [done|]. assert (dead_slot s0 = true) by (by apply dead_slot_true). congruence.
  - intros [(s & Es & Ho & Hh) (s1 & Es1 & Hm)]. assert (s1 = s) as -> by congruence. exists s. split; [|done].
    rewrite Hs, Es. cbn. case_decide; [|done]. unfold swept. destruct (dead_slot s) eqn:Ed; [|done].
    apply dead_slot_true in Ed as [_ ?]. congruence.
Qed.

Lemma sweep_obj_at h i : wf h → is_marked h i → obj_at (sweep h) i = obj_at h i.
Proof.
  intros Hwf (s & Es & Hm)%is_marked_Some. destruct (sweep_ok h) as (_ & _ & Hs & _); [apply (wf_used h Hwf)|].
  unfold obj_at. rewrite Hs, Es. cbn. case_decide; [|done]. unfold swept. destruct (dead_slot s) eqn:Ed; [|done].
  apply dead_slot_true in Ed as [_ ?]. congruence.
Qed.

(** An unmarked slot in use is empty, and free, after a sweep. *)
Lemma sweep_freed h i : wf h → Z.of_nat i < used h → ¬ is_marked h i → Z.of_nat i ∈ free (sweep h) ∧ obj_at (sweep h) i = None.
Proof.
  intros Hwf Hi Hnm. pose proof (wf_used h Hwf) as Hu.
  destruct (sweep_ok h) as (Eu & _ & Hs & _); [lia|].
  destruct (lookup_lt_is_Some_2 (slots h) i) as [s Es]; [unfold zlen in *; lia|].
  assert (slots (sweep h) !! i = Some (swept s)) as Hsw by (rewrite Hs, Es, decide_True by done; done).
  assert (obj (swept s) = None) as Ho.
  { unfold swept. destruct (dead_slot s) eqn:Ed; [done|]. destruct (obj s) eqn:Eo; [|done]. exfalso.
    assert (dead_slot s = true); [|congruence]. apply dead_slot_true. split; [congruence|].
    destruct (marked s) eqn:Em; [|done]. exfalso. apply Hnm, is_marked_Some. eauto. }
  split; [|unfold obj_at; by rewrite Hsw]. apply (wf_free _ (sweep_wf h Hwf)). rewrite Eu, Nat2Z.id. split; [lia|]. eauto.
Qed.

Lemma rearm_wf h : wf h → wf (rearm h).
Proof. intros [? ? ? ? ? ? ?]. by split. Qed.

Lemma sweep_objects objects h h1 : objects_ok objects h → same h h1 → wf h1 → objects_ok objects (sweep h1).
Proof.
  intros Hob Hs Hwf1 i o Ho. destruct (sweep_ok h1) as (_ & _ & Hsl & _); [apply (wf_used h1 Hwf1)|]. apply (Hob i o).
  rewrite <- (same_obj_at h h1) by done. unfold obj_at in *. rewrite Hsl in Ho. destruct (slots h1 !! i) as [s|]; [|done].
  cbn in *. case_decide; [|done]. unfold swept in Ho. by destruct (dead_slot s).
Qed.

Lemma same_objects objects h h1 : objects_ok objects h → same h h1 → objects_ok objects h1.
Proof. intros Hob Hs i o Ho. apply (Hob i o). by rewrite <- (same_obj_at h h1). Qed.

(** The roots, marked: the loop's invariant holds when it starts. *)
Lemma marking_start objects h ws :
  wf h →
  let '(h', p) := foldl mark (clear_marks h, []) ws in
  marking objects h ws h' p ∧ (length p + unmarked (slots h') ≤ length (slots h'))%nat.
Proof.
  intros Hwf. destruct (clear_marks_ok h Hwf) as [Hsm Hno]. pose proof (wf_len64 h Hwf) as Hl.
  assert (zlen (slots (clear_marks h)) < 2 ^ 64) as Hlc by (unfold zlen; rewrite (same_length _ _ Hsm); done).
  pose proof (mark_all_spec ws (clear_marks h) [] Hlc) as H. destruct (foldl mark (clear_marks h, []) ws) as [h' p].
  destruct H as (Hs & Hm & Hc & Hp & _ & Hn).
  assert (∀ w, slotOf (clear_marks h) w = slotOf h w) as Esl by (intros; by apply same_slotOf).
  assert (∀ j, obj_at (clear_marks h) j = obj_at h j) as Eob by (intros; by apply same_obj_at).
  split.
  - split.
    + by eapply same_trans.
    + intros j [?|(w & Hw & Hj)]%Hm; [by destruct (Hno j)|]. rewrite Esl in Hj. by eapply reach_root.
    + intros o [?%elem_of_nil|(w & j & Hw & Hj & Ho)]%Hp; [done|]. exists j. rewrite Eob in Ho. split; [|done]. apply Hm. eauto.
    + intros j o Hj Ho. left. apply (Hn j o); [done|apply Hno|]. by rewrite Eob.
    + intros w j Hw Hj. apply Hm. right. exists w. by rewrite Esl.
  - rewrite (same_length _ _ Hs). cbn in Hc. rewrite Hc. apply length_filter.
Qed.

Lemma reachable_obj objects h roots i : wf h → reachable objects h roots i → obj_at h i ≠ None.
Proof.
  intros Hwf Hr. assert (∃ w, slotOf h w = Some i) as [w Hw] by (destruct Hr; eauto).
  apply slotOf_Some in Hw as (s & Hs & Ho & _); [|by apply wf_len64]. unfold obj_at. by rewrite Hs.
Qed.

(** A collection that sees every root. *)
Lemma collect_complete objects h execs mods :
  wf h → objects_ok objects h → forallb e_complete execs = true →
  ∃ h1, collectGarbageLocked objects h execs mods = Ok (rearm (sweep h1)) ∧ wf h1 ∧ same h h1 ∧
    ∀ j, is_marked h1 j ↔ reachable objects h (root_words execs mods) j.
Proof.
  intros Hwf Hob Hc. unfold collectGarbageLocked, scanModuleRootsLocked. rewrite scan_execs_words, Hc. cbn [negb andb].
  pose proof (marking_start objects h (root_words execs mods) Hwf) as Hst.
  unfold root_words in Hst at 1. rewrite foldl_app in Hst.
  destruct (foldl mark (clear_marks h, []) _) as [h2 p2]. destruct (foldl mark (h2, p2) _) as [h3 p3].
  destruct Hst as [Hmk Hf]. pose proof (wf_len64 h Hwf) as Hl.
  destruct (drain_ok objects h (root_words execs mods) Hl Hob (length (slots h3)) h3 p3 Hmk Hf) as (h1 & Ed & Hs & Hm).
  exists h1. rewrite Ed. split; [done|]. split; [|done].
  apply (same_wf h h1 Hwf Hs). intros j Hj. eapply reachable_obj; [done|]. by apply Hm.
Qed.

(** One that does not frees nothing. *)
Lemma collect_incomplete objects h execs mods :
  wf h → forallb e_complete execs = false →
  ∃ h1, collectGarbageLocked objects h execs mods = Ok (rearm h1) ∧ wf h1 ∧ same h h1.
Proof.
  intros Hwf Hc. unfold collectGarbageLocked. rewrite scan_execs_words, Hc. cbn [negb andb].
  pose proof (marking_start objects h (concat ((λ e, e_buf e ++ e_words e) <$> execs)) Hwf) as Hst.
  destruct (foldl mark (clear_marks h, []) _) as [h1 p]. destruct Hst as [Hmk _]. exists h1. split; [done|].
  pose proof (mk_same _ _ _ _ _ Hmk) as Hs. split; [|done]. apply (same_wf h h1 Hwf Hs).
  intros j Hj. eapply reachable_obj; [done|]. by eapply mk_sound.
Qed.

(** The words name the same slots, with the same objects. *)
Lemma same_named h h1 : wf h → same h h1 → ∀ w, slotOf (rearm h1) w = slotOf h w.
Proof. intros Hwf Hs w. change (slotOf (rearm h1) w) with (slotOf h1 w). apply same_slotOf; [by apply wf_len64|done]. Qed.

(** * Theorems *)

(** C13. A collection that can see every root keeps exactly what is reachable: a
    word names a slot afterwards if and only if it named it before and the slot is
    reachable from the roots - through any number of objects, cycles included -
    and the slot then holds the object it held; every other slot in use is empty
    and on the free list. *)
Theorem collect_exact objects h execs mods :
  wf h → objects_ok objects h → forallb e_complete execs = true →
  ∃ h', collectGarbageLocked objects h execs mods = Ok h' ∧
    (∀ w i, slotOf h' w = Some i ↔ slotOf h w = Some i ∧ reachable objects h (root_words execs mods) i) ∧
    (∀ i, reachable objects h (root_words execs mods) i → obj_at h' i = obj_at h i) ∧
    (∀ i, Z.of_nat i < used h → ¬ reachable objects h (root_words execs mods) i →
          Z.of_nat i ∈ free h' ∧ obj_at h' i = None).
Proof.
  intros Hwf Hob Hc. destruct (collect_complete objects h execs mods Hwf Hob Hc) as (h1 & -> & Hwf1 & Hs & Hm).
  exists (rearm (sweep h1)). split; [done|].
  change (slotOf (rearm (sweep h1))) with (slotOf (sweep h1)).
  change (obj_at (rearm (sweep h1))) with (obj_at (sweep h1)). change (free (rearm (sweep h1))) with (free (sweep h1)).
  split_and!.
  - intros w i. rewrite sweep_slotOf, Hm by done. by rewrite (same_slotOf h h1) by (by try apply wf_len64).
  - intros i Hr. rewrite sweep_obj_at by (by try apply Hm). by apply same_obj_at.
  - intros i Hi Hr. apply sweep_freed; [done|by rewrite (same_used h h1 Hs)|by rewrite Hm].
Qed.

(** A collection always comes to an end - the mark stack empties within as many
    rounds as the table has slots, whatever the objects point at - without a
    crash, leaving a well-formed heap that waits for 1024 allocations over what it
    keeps; it takes no slot into use and shortens no free list. *)
Theorem collect_terminates objects h execs mods :
  wf h → objects_ok objects h →
  ∃ h', collectGarbageLocked objects h execs mods = Ok h' ∧ wf h' ∧ objects_ok objects h' ∧
    allocs h' = 0 ∧ nextAt h' = Live h' + gcInitialThreshold ∧ Live h' ≤ Live h.
Proof.
  intros Hwf Hob. destruct (forallb e_complete execs) eqn:Hc.
  - destruct (collect_complete objects h execs mods Hwf Hob Hc) as (h1 & -> & Hwf1 & Hs & Hm).
    exists (rearm (sweep h1)). split; [done|]. split; [by apply rearm_wf, sweep_wf|].
    destruct (sweep_ok h1) as (Eu & _ & _ & fr & Ef & _); [apply (wf_used h1 Hwf1)|].
    split; [exact (sweep_objects objects h h1 Hob Hs Hwf1)|]. split_and!; try done.
    + unfold Live. cbn [used free rearm]. rewrite Eu, Ef, (same_used h h1 Hs), (same_free h h1 Hs), zlen_app.
      pose proof (zlen_nonneg fr). lia.
  - destruct (collect_incomplete objects h execs mods Hwf Hc) as (h1 & -> & Hwf1 & Hs).
    exists (rearm h1). split; [done|]. split; [by apply rearm_wf|].
    split; [exact (same_objects objects h h1 Hob Hs)|]. split_and!; try done.
    + unfold Live. cbn [used free rearm]. by rewrite (same_used h h1 Hs), (same_free h h1 Hs).
Qed.

(** A collection that is told some call's words could not all be offered frees
    nothing: every word names what it named, and the free list is as it was. *)
Theorem collect_incomplete_keeps objects h execs mods :
  wf h → forallb e_complete execs = false →
  ∃ h', collectGarbageLocked objects h execs mods = Ok h' ∧ free h' = free h ∧
    ∀ w, slotOf h' w = slotOf h w ∧ Deref h' w = Deref h w.
Proof.
  intros Hwf Hc. destruct (collect_incomplete objects h execs mods Hwf Hc) as (h1 & -> & _ & Hs).
  exists (rearm h1). split; [done|]. split; [exact (same_free h h1 Hs)|]. intros w.
  assert (slotOf (rearm h1) w = slotOf h w) as E by (by apply same_named). split; [done|].
  unfold Deref. rewrite E. destruct (slotOf h w) as [i|]; [|done].
  change (obj_at (rearm h1) i) with (obj_at h1 i). by rewrite (same_obj_at h h1).
Qed.

(** ** A heap with a cycle and garbage *)

(** Slots 0 and 1 point at each other and slot 2 at slot 0; a table holds the
    handle of slot 0, so slot 2 is garbage. *)
Definition demo_objects : list GCObject :=
  [mkObj None 0 [handleFor 1 1]; mkObj None 0 [handleFor 0 1; 7]; mkObj None 0 [handleFor 0 1]].
Definition demo_heap : GCHeap := mkHeap [mkSlot (Some 0%nat) 1 false; mkSlot (Some 1%nat) 1 true; mkSlot (Some 2%nat) 1 false] 3 [] 3 1024.
Definition demo_mods : list ModRoots := [mkModRoots [Some (ValueTypeI32, handleFor 2 1); None] [None; Some [handleFor 0 1]]].

Lemma demo_wf : wf demo_heap.
Proof.
  split; unfold zlen; cbn; try lia.
  - intros [|[|[|[]]]] s Hs Hge; cbn in *; try lia; done.
  - intros [|[|[|[]]]] s Hs; cbn in Hs; try done; injection Hs as <-; cbn; (split; [lia|done]).
  - apply NoDup_nil_2.
  - intros i. split; [by intros ?%elem_of_nil|]. intros (Hi & s & Hs & Ho).
    destruct (Z.to_nat i) as [|[|[|[]]]]; cbn in Hs; try done; injection Hs as <-; done.
Qed.

Lemma demo_objects_ok : objects_ok demo_objects demo_heap.
Proof. intros [|[|[|[]]]] o Ho; try done; injection Ho as <-; by eexists. Qed.

Lemma collect_exact_witness :
  ∃ h', collectGarbageLocked demo_objects demo_heap [] demo_mods = Ok h' ∧
    slotOf h' (handleFor 1 1) = Some 1%nat ∧ slotOf h' (handleFor 2 1) = None ∧ free h' = [2].
Proof.
  destruct (collect_exact demo_objects demo_heap [] demo_mods demo_wf demo_objects_ok eq_refl) as (h' & E & Hw & _).
  exists h'. split; [done|].
  assert (reachable demo_objects demo_heap (root_words [] demo_mods) 0) as H0.
  { eapply (reach_root _ _ _ (handleFor 0 1)); [by left|reflexivity]. }
  split; [apply Hw; split; [reflexivity|]; eapply (reach_field _ _ _ 0 0 _ (handleFor 1 1)); [exact H0| | | |]; try reflexivity; by left|].
  vm_compute in E. injection E as <-. split; reflexivity.
Defined.

Lemma collect_terminates_witness :
  ∃ h', collectGarbageLocked demo_objects demo_heap [mkExecRoots [] [handleFor 2 1] false] demo_mods = Ok h' ∧ wf h' ∧ nextAt h' = 1027.
Proof.
  destruct (collect_terminates demo_objects demo_heap [mkExecRoots [] [handleFor 2 1] false] demo_mods demo_wf demo_objects_ok)
    as (h' & E & Hw & _).
  exists h'. split; [done|]. split; [done|]. vm_compute in E. injection E as <-. reflexivity.
Defined.

Lemma collect_incomplete_keeps_witness :
  ∃ h', collectGarbageLocked demo_objects demo_heap [mkExecRoots [] [] false] [] = Ok h' ∧ slotOf h' (handleFor 2 1) = Some 2%nat.
Proof.
  destruct (collect_incomplete_keeps demo_objects demo_heap [mkExecRoots [] [] false] [] demo_wf eq_refl) as (h' & E & _ & Hw).
  exists h'. split; [done|]. rewrite (proj1 (Hw _)). reflexivity.
Defined.
