(* ===== verification/GcOps.v ===== *)
(** The runtime operations of the GC proposal: [RunGC] of [internal/wasm/gc.go],
    the helpers it is made of, [Store.TypeIDIsSubtypeOf] and the handles of
    exceptions of [internal/wasm/exception.go].

    Both engines execute every struct, array and i31 instruction by a call of
    [RunGC] with a mode and up to five words; the checks validation has made are
    hypotheses of the theorems ([operands_ok]), the checks left to run time are the
    traps of the definitions, and a Go crash is [Panic]. *)
From Stdlib Require Import ZArith Lia String.
From stdpp Require Import base list numbers option tactics.
From S2P Require Import Prelude GcHeap GcCollect.
Local Open Scope Z_scope.
Local Open Scope go_scope.

(** * State *)

(** What an operation sees of its module instance.  [TypeIDOfReference] is the
    engine's answer for a function reference; [typeSupers] belongs to the store. *)
Record ModuleInstance := mkInst {
  TypeSection : list FunctionType;
  TypeIDs : list Z;
  ElementInstances : list (list Z);
  DataInstances : list (list Z);
  TypeIDOfReference : Z → Z;
  typeSupers : list Z;
}.

(** The managed heap, the objects it points at, and whether a collection has been
    asked for. *)
Record gcState := mkState { g_objects : list GCObject; g_heap : GCHeap; g_requested : bool }.

Definition set_object (st : gcState) (p : nat) (o : GCObject) : gcState :=
  mkState (<[p := o]> (g_objects st)) (g_heap st) (g_requested st).

(** A Go loop over a range, whose body may fail. *)
Fixpoint for_each {A B} (f : A → B → gres A) (l : list B) (a : A) : gres A :=
  match l with
  | [] => Ok a
  | x :: l => let* a := f a x in for_each f l a
  end.

(** * Helpers *)

Definition index {A} (l : list A) (i : Z) : gres A :=
  match (if 0 <=? i then l !! Z.to_nat i else None) with Some x => Ok x | None => Panic end.

(** [l[lo:hi]], and the list with those words replaced. *)
Definition slice_words (l : list Z) (lo hi : Z) : gres (list Z) :=
  if (0 <=? lo) && (lo <=? hi) && (hi <=? zlen l) then Ok (take (Z.to_nat (hi - lo)) (drop (Z.to_nat lo) l)) else Panic.
Definition put_words (l : list Z) (lo : Z) (ws : list Z) : list Z :=
  take (Z.to_nat lo) l ++ ws ++ drop (Z.to_nat lo + length ws) l.

Definition structSlots (def : FunctionType) : gres Z :=
  match FieldSlots def with
  | Some sl => index sl (zlen (ft_fields def))
  | None => Ok (zlen (ft_fields def))
  end.

Definition newGCObject (def : FunctionType) (id n : Z) : GCObject :=
  mkObj (Some def) id (replicate (Z.to_nat n) 0).

Definition maxGCArrayLen : Z := Z.shiftl 1 28.

Definition checkArrayLen (n : Z) : gres Z :=
  if maxGCArrayLen <? n then Err ErrRuntimeOutOfBoundsArrayAccess else Ok n.

Definition checkArrayRange (arrayLen offset length : Z) : gres unit :=
  if arrayLen <? u64 (offset + length) then Err ErrRuntimeOutOfBoundsArrayAccess else Ok tt.

Definition arraySlot (o : GCObject) (i flags : Z) : gres Z :=
  let* len := Len o in
  if len <=? i then Err ErrRuntimeOutOfBoundsArrayAccess
  else
    let* n := ElemSlots o in
    let slot := u64 (i * n) in
    let slot := if negb (Z.land flags 2 =? 0) then u64 (slot + 1) else slot in
    Ok (i64 slot).

Definition fillWords (dst : list Z) (stride lo hi : Z) : gres (list Z) :=
  if stride =? 1 then Ok ((λ _, lo) <$> dst)
  else
    for_each (λ dst k,
        let i := k * stride in
        if i + 1 <? zlen dst then Ok (<[Z.to_nat (i + 1) := hi]> (<[Z.to_nat i := lo]> dst)) else Panic)
      (seqZ 0 ((zlen dst + stride - 1) / stride)) dst.

Definition storageWidth (st : Z) : Z :=
  if st =? ValueTypeI8 then 1
  else if st =? ValueTypeI16 then 2
  else if (st =? ValueTypeI32) || (st =? ValueTypeF32) then 4
  else if st =? ValueTypeV128 then 16
  else 8.

(** The element type of an array type; anything else has none at index 0. *)
Definition elem_type (def : FunctionType) : gres Z := index (ft_fields def) 0.

Section module.
Variable m : ModuleInstance.

Definition allocRef (st : gcState) (o : GCObject) : gres (gcState * Z) :=
  let* '(h, (ref, wantGC)) := Alloc (g_heap st) (length (g_objects st)) in
  Ok (mkState (g_objects st ++ [o]) h (g_requested st || wantGC), ref).

Definition newArray (typeIndex n : Z) : gres GCObject :=
  let* def := index (TypeSection m) typeIndex in
  let* ty := elem_type def in
  let* id := index (TypeIDs m) typeIndex in
  let* len := checkArrayLen n in
  Ok (newGCObject def id (len * SlotsForStorageType ty)).

Definition checkSegmentRange (fromData : bool) (segment src length width : Z) : gres unit :=
  if negb fromData then
    if OutOfRange (u32 segment) (zlen (ElementInstances m)) then Err ErrRuntimeInvalidTableAccess
    else
      let* elems := index (ElementInstances m) segment in
      if zlen elems <? u64 (src + length) then Err ErrRuntimeInvalidTableAccess else Ok tt
  else
    if OutOfRange (u32 segment) (zlen (DataInstances m)) then Err ErrRuntimeOutOfBoundsMemoryAccess
    else
      let* data := index (DataInstances m) segment in
      if zlen data <? u64 (src + u64 (length * width)) then Err ErrRuntimeOutOfBoundsMemoryAccess else Ok tt.

(** The word at [base]: up to eight bytes, little-endian. *)
Definition data_word (data : list Z) (base width : Z) : gres Z :=
  for_each (λ v b, let* byte := index data (u64 (base + b)) in Ok (Z.lor v (u64 (Z.shiftl byte (8 * b)))))
    (seqZ 0 (Z.min width 8)) 0.

Definition fillArrayFromSegment (o : GCObject) (dst : Z) (fromData : bool) (segment src length width : Z) : gres GCObject :=
  if negb fromData then
    let* elems := index (ElementInstances m) segment in
    for_each (λ o i,
        let* n := ElemSlots o in
        let* w := index elems (u64 (src + i)) in
        Set_ o (i64 (u64 (u64 (dst + i) * n))) w)
      (seqZ 0 length) o
  else
    let* data := index (DataInstances m) segment in
    let* stride := ElemSlots o in
    for_each (λ o i,
        let base := u64 (src + u64 (i * width)) in
        let slot := u64 (u64 (dst + i) * stride) in
        for_each (λ o w, let* v := data_word data (u64 (base + w * 8)) width in Set_ o (i64 (u64 (slot + w))) v)
          (seqZ 0 stride) o)
      (seqZ 0 length) o.

(** ** Type tests *)

Definition NoFunctionTypeID : Z := 2 ^ 32 - 1.

(** The loop of [TypeIDIsSubtypeOf], [n] rounds from its end. *)
Fixpoint super_walk (n : nat) (actual target : Z) : bool :=
  match n with
  | O => false
  | S n =>
      if OutOfRange actual (zlen (typeSupers m)) then false
      else match typeSupers m !! Z.to_nat actual with
           | None => false
           | Some actual =>
               if actual =? NoFunctionTypeID then false
               else if actual =? target then true
               else super_walk n actual target
           end
  end.

Definition TypeIDIsSubtypeOf (actual target : Z) : bool :=
  if actual =? target then true else super_walk (S (length (typeSupers m))) actual target.

Definition runtimeTypeIDOf (st : gcState) (ref : Z) (kind : CompositeKind) : option Z :=
  if decide (kind = CompositeKindFunc) then Some (TypeIDOfReference m ref)
  else TypeIDOf (g_objects st) (g_heap st) ref.

Definition EncodeRefTarget (indexOrKind : Z) (nullable concrete : bool) : Z :=
  let d := Z.shiftl indexOrKind 2 in
  let d := if nullable then Z.lor d 1 else d in
  if concrete then Z.lor d 2 else d.

Definition ValueTypeFuncref : Z := 0x70.
Definition ValueTypeExternref : Z := 0x6f.
Definition ValueTypeAnyref : Z := 0x6e.
Definition ValueTypeEqref : Z := 0x6d.
Definition ValueTypeI31ref : Z := 0x6c.
Definition ValueTypeStructref : Z := 0x6b.
Definition ValueTypeArrayref : Z := 0x6a.

(** The object a reference names, with its pointer. *)
Definition deref (st : gcState) (ref : Z) : gres (nat * GCObject) :=
  let* p := Deref (g_heap st) ref in
  match g_objects st !! p with Some o => Ok (p, o) | None => Panic end.

Definition refMatchesTarget (st : gcState) (ref desc : Z) : gres bool :=
  let nullable := negb (Z.land desc 1 =? 0) in
  let concrete := negb (Z.land desc 2 =? 0) in
  if ref =? 0 then Ok nullable
  else if concrete then
    let idx := u32 (Z.shiftr desc 2) in
    if OutOfRange idx (zlen (TypeIDs m)) then Ok false
    else
      let* def := index (TypeSection m) idx in
      match runtimeTypeIDOf st ref (ft_kind def) with
      | None => Ok false
      | Some actual => let* id := index (TypeIDs m) idx in Ok (TypeIDIsSubtypeOf actual id)
      end
  else
    let vt := Z.shiftr desc 2 in
    if (vt =? ValueTypeFuncref) || (vt =? ValueTypeExternref) || (vt =? ValueTypeExnref) || (vt =? ValueTypeAnyref)
    then Ok true
    else if vt =? ValueTypeEqref then Ok (IsI31 ref || IsGCHeapRef ref)
    else if vt =? ValueTypeI31ref then Ok (IsI31 ref)
    else if (vt =? ValueTypeStructref) || (vt =? ValueTypeArrayref) then
      if negb (IsGCHeapRef ref) then Ok false
      else
        let* '(_, o) := deref st ref in
        let* arr := IsArray o in
        Ok (if vt =? ValueTypeStructref then negb arr else arr)
    else Ok false.

(** ** Operations *)

(** The modes, in the order of their constants. *)
Inductive GCMode : Type :=
| GCCheckRefTest | GCCheckRefCast | GCCheckIndirectCall
| GCStructNew | GCStructNewDefault | GCStructGet | GCStructSet
| GCArrayNew | GCArrayNewDefault | GCArrayNewFixed | GCArrayNewData | GCArrayNewElem
| GCArrayInitData | GCArrayInitElem | GCArrayGet | GCArraySet | GCArrayLen | GCArrayFill | GCArrayCopy
| GCRefEq | GCRefI31 | GCI31GetS | GCI31GetU.

(** The five allocating modes; [allocGC] is called with no other. *)
Definition allocGC (st : gcState) (mode : GCMode) (typeIndex count init initHi : Z) (scratch : list Z) : gres (gcState * Z) :=
  if OutOfRange (u32 typeIndex) (zlen (TypeIDs m)) then Panic
  else
    let* def := index (TypeSection m) typeIndex in
    let* id := index (TypeIDs m) typeIndex in
    let* o :=
      match mode with
      | GCStructNewDefault => let* n := structSlots def in Ok (newGCObject def id n)
      | GCStructNew | GCArrayNewFixed =>
          for_each (λ o '(i, v), Set_ o i v) (zip (seqZ 0 (zlen scratch)) scratch) (newGCObject def id (zlen scratch))
      | GCArrayNew | GCArrayNewDefault =>
          let* ty := elem_type def in
          let slots := SlotsForStorageType ty in
          let* len := checkArrayLen count in
          let o := newGCObject def id (len * slots) in
          match mode with
          | GCArrayNew =>
              let* ws := fillWords (Fields o) slots (packStorage ty init) initHi in
              Ok (mkObj (o_type o) (o_typeID o) ws)
          | _ => Ok o
          end
      | _ => Panic
      end in
    allocRef st o.

Definition set_fields (o : GCObject) (ws : list Z) : GCObject := mkObj (o_type o) (o_typeID o) ws.

(** The type of an object, which an exception's is not. *)
Definition type_of (o : GCObject) : gres FunctionType :=
  match o_type o with Some t => Ok t | None => Panic end.

Definition new_from_segment (st : gcState) (fromData : bool) (a b c d : Z) : gres (gcState * Z) :=
  let* def := index (TypeSection m) a in
  let* ty := elem_type def in
  let width := storageWidth ty in
  let* _ := checkSegmentRange fromData b c d width in
  let* o := newArray a d in
  let* o := fillArrayFromSegment o 0 fromData b c d width in
  allocRef st o.

Definition init_from_segment (st : gcState) (fromData : bool) (a b c d e : Z) : gres (gcState * Z) :=
  let* '(p, o) := deref st a in
  let* len := Len o in
  let* _ := checkArrayRange len b e in
  let* t := type_of o in
  let* ty := elem_type t in
  let width := storageWidth ty in
  let* _ := checkSegmentRange fromData c d e width in
  let* o := fillArrayFromSegment o b fromData c d e width in
  Ok (set_object st p o, 0).

Definition array_fill (st : gcState) (a b c d e : Z) : gres (gcState * Z) :=
  let* '(p, o) := deref st a in
  let* len := Len o in
  let* _ := checkArrayRange len b d in
  let* stride := ElemSlots o in
  let lo := u64 (b * stride) in
  let* ws := slice_words (Fields o) lo (u64 (u64 (b + d) * stride)) in
  let* t := type_of o in
  let* ty := elem_type t in
  let* ws := fillWords ws stride (packStorage ty c) e in
  Ok (set_object st p (set_fields o (put_words (Fields o) lo ws)), 0).

(** The two arrays may be one: the words are read before they are written. *)
Definition array_copy (st : gcState) (a b c d e : Z) : gres (gcState * Z) :=
  let* '(p, dst) := deref st a in
  let* '(_, src) := deref st c in
  let* dlen := Len dst in
  let* _ := checkArrayRange dlen b e in
  let* slen := Len src in
  let* _ := checkArrayRange slen d e in
  let* stride := ElemSlots dst in
  let lo := u64 (b * stride) in
  let* old := slice_words (Fields dst) lo (u64 (u64 (b + e) * stride)) in
  let* ws := slice_words (Fields src) (u64 (d * stride)) (u64 (u64 (d + e) * stride)) in
  Ok (set_object st p (set_fields dst (put_words (Fields dst) lo (take (length old) ws))), 0).

Definition RunGC (st : gcState) (mode : GCMode) (a b c d e : Z) (scratch : list Z) : gres (gcState * Z) :=
  match mode with
  | GCCheckRefTest | GCCheckRefCast =>
      let* ok := refMatchesTarget st a b in
      match mode, ok with
      | GCCheckRefCast, false => Err ErrRuntimeCastFailure
      | _, _ => Ok (st, if ok then 1 else 0)
      end
  | GCCheckIndirectCall =>
      if negb (TypeIDIsSubtypeOf (u32 a) (u32 b)) then Err ErrRuntimeIndirectCallTypeMismatch else Ok (st, 0)
  | GCStructNew | GCStructNewDefault | GCArrayNew | GCArrayNewDefault | GCArrayNewFixed =>
      allocGC st mode a b c d scratch
  | GCArrayNewData => new_from_segment st true a b c d
  | GCArrayNewElem => new_from_segment st false a b c d
  | GCArrayInitData => init_from_segment st true a b c d e
  | GCArrayInitElem => init_from_segment st false a b c d e
  | GCStructGet =>
      let* '(_, o) := deref st a in
      let* v := Get o (i64 b) (negb (Z.land c 1 =? 0)) in
      Ok (st, v)
  | GCStructSet =>
      let* '(p, o) := deref st a in
      let* o := Set_ o (i64 b) c in
      Ok (set_object st p o, 0)
  | GCArrayGet =>
      let* '(_, o) := deref st a in
      let* slot := arraySlot o b c in
      let* v := Get o slot (negb (Z.land c 1 =? 0)) in
      Ok (st, v)
  | GCArraySet =>
      let* '(p, o) := deref st a in
      let* slot := arraySlot o b d in
      let* o := Set_ o slot c in
      Ok (set_object st p o, 0)
  | GCArrayLen =>
      let* '(_, o) := deref st a in
      let* len := Len o in
      Ok (st, len)
  | GCArrayFill => array_fill st a b c d e
  | GCArrayCopy => array_copy st a b c d e
  | GCRefEq => Ok (st, if a =? b then 1 else 0)
  | GCRefI31 => Ok (st, EncodeI31 (u32 a))
  | GCI31GetS => if a =? GCRefNull then Err ErrRuntimeNullReference else Ok (st, DecodeI31S a)
  | GCI31GetU => if a =? GCRefNull then Err ErrRuntimeNullReference else Ok (st, DecodeI31U a)
  end.
End module.

(** ** Exceptions *)

(** [exn] is the pointer of the exception's object, [params] its values. *)
Definition Ref (st : gcState) (exn : nat) (params : list Z) : gres (gcState * Z) :=
  match g_objects st !! exn with
  | None => Panic
  | Some o =>
      let* '(h, (ref, collect)) := Alloc (g_heap st) exn in
      Ok (mkState (<[exn := set_fields o params]> (g_objects st)) h (g_requested st || collect), ref)
  end.

Definition ExnRefNull : Z := 0.

Definition Lookup (st : gcState) (ref : Z) : gres (option nat) :=
  if ref =? ExnRefNull then Ok None
  else match slotOf (g_heap st) ref with
       | None => Ok None
       | Some i =>
           match obj_at (g_heap st) i with
           | None => Panic
           | Some p =>
               match g_objects st !! p with
               | None => Panic
               | Some o => Ok (if decide (o_type o = None) then Some p else None)
               end
           end
       end.
