(* ===== verification/GcTyping.v ===== *)
(** Typing of the managed heap: the layout of objects, and that no operation of
    [RunGC] on operands validation accepts crashes or leaves an object whose words
    do not match its type. *)
From Stdlib Require Import ZArith Lia String.
From stdpp Require Import base list numbers option tactics.
From S2P Require Import Prelude GcHeap GcCollect GcOps.
Local Open Scope Z_scope.
Local Open Scope go_scope.

(** * Layout *)

(** The storage type of each word of a struct: a field is one word, a vector field
    two. *)
Definition word_types (fields : list Z) : list Z :=
  fields ≫= λ st, replicate (Z.to_nat (SlotsForStorageType st)) st.

Definition words (fields : list Z) : Z := zlen (word_types fields).

Lemma slots_cases st : SlotsForStorageType st = 2 ∧ st = ValueTypeV128 ∨ SlotsForStorageType st = 1 ∧ st ≠ ValueTypeV128.
Proof. unfold SlotsForStorageType. destruct (Z.eqb_spec st ValueTypeV128); auto. Qed.

Lemma words_cons st fields : words (st :: fields) = SlotsForStorageType st + words fields.
Proof.
  unfold words, word_types. cbn. rewrite zlen_app. unfold zlen at 1. rewrite length_replicate.
  destruct (slots_cases st) as [[-> _]|[-> _]]; lia.
Qed.

Lemma words_ge fields : zlen fields ≤ words fields.
Proof.
  induction fields as [|st fields IH]; [done|]. rewrite words_cons, zlen_cons. destruct (slots_cases st) as [[-> _]|[-> _]]; lia.
Qed.

(** With as many words as fields there is no vector, and a word is a field. *)
Lemma word_types_plain fields : words fields = zlen fields → word_types fields = fields.
Proof.
  induction fields as [|st fields IH]; intros E; [done|]. rewrite words_cons, zlen_cons in E. pose proof (words_ge fields).
  unfold word_types in *. cbn. destruct (slots_cases st) as [[Es _]|[Es _]]; rewrite Es in *; [lia|]. cbn. f_equal. apply IH. lia.
Qed.

(** A type the decoder makes. *)
Definition valid_type (t : FunctionType) : Prop :=
  match ft_kind t with
  | CompositeKindFunc => False
  | CompositeKindArray => ∃ st, ft_fields t = [st]
  | CompositeKindStruct =>
      words (ft_fields t) < 2 ^ 32 ∧
      match FieldSlots t with
      | Some sl => sl = field_slots (ft_fields t) 0
      | None => words (ft_fields t) = zlen (ft_fields t)
      end
  end.

(** The storage types of the words an object of the type and of [n] words has. *)
Definition storage (t : FunctionType) (n : nat) : list Z :=
  match ft_kind t, ft_fields t with
  | CompositeKindArray, st :: _ => replicate n st
  | CompositeKindArray, [] => []
  | _, fields => word_types fields
  end.

(** The object's words are those of its type. *)
Definition shaped (o : GCObject) : Prop :=
  zlen (Fields o) < 2 ^ 62 ∧
  match o_type o with
  | None => True
  | Some t =>
      valid_type t ∧
      match ft_kind t with
      | CompositeKindArray => ∀ st, ft_fields t = [st] → (SlotsForStorageType st | zlen (Fields o))
      | _ => zlen (Fields o) = words (ft_fields t)
      end
  end.

Lemma field_slots_head fields s : ∃ starts, field_slots fields s = s :: starts.
Proof. destruct fields; eexists; done. Qed.

Lemma field_slots_last fields : ∀ s,
  0 ≤ s → s + words fields < 2 ^ 32 → field_slots fields s !! length fields = Some (s + words fields).
Proof.
  induction fields as [|st fields IH]; intros s Hs Hw; [unfold words, zlen; cbn; f_equal; lia|].
  rewrite words_cons in *. pose proof (words_ge fields). pose proof (zlen_nonneg fields).
  cbn [field_slots length lookup list_lookup]. destruct (slots_cases st) as [[E _]|[E _]]; rewrite E in *;
    rewrite wrap_small by lia; rewrite IH by lia; f_equal; lia.
Qed.

(** The scan of the starts finds the field a word belongs to. *)
Lemma vector_slot_storage_ok fields : ∀ s starts slot,
  field_slots fields s = s :: starts → 0 ≤ s → s ≤ slot < s + words fields → s + words fields < 2 ^ 32 →
  ∃ st, vector_slot_storage fields starts slot = Ok st ∧ word_types fields !! Z.to_nat (slot - s) = Some st.
Proof.
  induction fields as [|st fields IH]; intros s starts slot Ef Hs Hslot Hw; [unfold words, zlen in Hslot; cbn in Hslot; lia|].
  rewrite words_cons in *. pose proof (words_ge fields). pose proof (zlen_nonneg fields).
  assert (SlotsForStorageType st = 1 ∨ SlotsForStorageType st = 2) as Hn by (destruct (slots_cases st) as [[? _]|[? _]]; auto).
  cbn [field_slots] in Ef. injection Ef as <-. rewrite (wrap_small 32) by lia.
  destruct (field_slots_head fields (s + SlotsForStorageType st)) as [starts E]. rewrite E. cbn [vector_slot_storage].
  unfold word_types in *. cbn [mbind list_bind]. set (n := SlotsForStorageType st) in *.
  destruct (Z.ltb_spec slot (s + n)) as [Hlt|Hge].
  - exists st. split; [done|]. rewrite lookup_app_l by (rewrite length_replicate; lia). apply lookup_replicate. split; [done|lia].
  - destruct (IH (s + n) starts slot E) as (st' & Hst & Hl); [lia..|]. exists st'. split; [done|].
    rewrite lookup_app_r by (rewrite length_replicate; lia). rewrite length_replicate.
    by replace (Z.to_nat (slot - s) - Z.to_nat n)%nat with (Z.to_nat (slot - (s + n))) by lia.
Qed.

(** [slotStorage] answers the storage type of the word. *)
Lemma slotStorage_ok o t slot :
  o_type o = Some t → shaped o → 0 ≤ slot < zlen (Fields o) →
  ∃ st, slotStorage o slot = Ok st ∧ storage t (length (Fields o)) !! Z.to_nat slot = Some st.
Proof.
  intros Et [_ Hsh] Hs. rewrite Et in Hsh. destruct Hsh as [Hv Hlen]. unfold slotStorage, storage, is_array. rewrite Et.
  unfold valid_type in Hv. destruct (ft_kind t) eqn:Ek; [done| |].
  - rewrite bool_decide_eq_false_2 by done. destruct Hv as [Hw Hfs].
    assert (words (ft_fields t) = zlen (ft_fields t) → ∃ st,
      match ft_fields t !! Z.to_nat slot with Some st => Ok st | None => Ok ValueTypeI64 end = (Ok st : gres Z) ∧
      word_types (ft_fields t) !! Z.to_nat slot = Some st) as Hplain.
    { intros E. rewrite word_types_plain by done. destruct (lookup_lt_is_Some_2 (ft_fields t) (Z.to_nat slot)) as [st ->];
        [unfold zlen in *; lia|]. eauto. }
    destruct (FieldSlots t) as [sl|] eqn:Esl; [|by apply Hplain]. subst sl.
    rewrite field_slots_last, Z.add_0_l by lia.
    destruct (Z.eqb_spec (words (ft_fields t)) (zlen (ft_fields t))) as [E|E]; cbn [negb]; [by apply Hplain|].
    unfold vectorSlotStorage. rewrite Esl. destruct (field_slots_head (ft_fields t) 0) as [starts Es]. rewrite Es.
    rewrite (wrap_small 32) by lia. destruct (vector_slot_storage_ok _ 0 starts slot Es) as (st & H1 & H2); [lia..|].
    rewrite Z.sub_0_r in H2. eauto.
  - rewrite bool_decide_eq_true_2 by done. destruct Hv as [st ->]. exists st. split; [done|].
    apply lookup_replicate. unfold zlen in Hs. split; [done|lia].
Qed.

(** The value of a word read back. *)
Definition widen (st : Z) (signed : bool) (v : Z) : Z :=
  if st =? ValueTypeI8 then if signed then u32 (i8 v) else u8 v
  else if st =? ValueTypeI16 then if signed then u32 (i16 v) else u16 v
  else v.

Lemma Get_ok o t i signed :
  o_type o = Some t → shaped o → 0 ≤ i < zlen (Fields o) →
  ∃ st v, storage t (length (Fields o)) !! Z.to_nat i = Some st ∧ Fields o !! Z.to_nat i = Some v ∧
    Get o i signed = Ok (widen st signed v).
Proof.
  intros Et Hsh Hi. destruct (slotStorage_ok o t i Et Hsh Hi) as (st & Es & Hst).
  destruct (lookup_lt_is_Some_2 (Fields o) (Z.to_nat i)) as [v Hv]; [unfold zlen in *; lia|].
  exists st, v. split; [done|]. split; [done|]. unfold Get. rewrite (proj2 (Z.leb_le 0 i)), Hv, Es by lia. done.
Qed.

Lemma Set_ok o t i v :
  o_type o = Some t → shaped o → 0 ≤ i < zlen (Fields o) →
  ∃ st, storage t (length (Fields o)) !! Z.to_nat i = Some st ∧
    Set_ o i v = Ok (set_fields o (<[Z.to_nat i := packStorage st v]> (Fields o))).
Proof.
  intros Et Hsh Hi. destruct (slotStorage_ok o t i Et Hsh Hi) as (st & Es & Hst). exists st. split; [done|].
  unfold Set_. rewrite Es, (in_range_true 0 i (zlen (Fields o))) by lia. done.
Qed.

Lemma shaped_fields o ws : shaped o → length ws = length (Fields o) → shaped (set_fields o ws).
Proof. unfold shaped, zlen. intros H E. cbn. by rewrite E. Qed.

(** * Loops *)

Lemma for_each_app {A B} (f : A → B → gres A) l1 l2 a :
  for_each f (l1 ++ l2) a = obind (for_each f l1 a) (for_each f l2).
Proof. revert a. induction l1 as [|x l1 IH]; intros a; [done|]. cbn. destruct (f a x); cbn; auto. Qed.

(** A loop over a range keeps an invariant indexed by its counter. *)
Lemma for_each_range {A} (I : Z → A → Prop) (f : A → Z → gres A) n a :
  0 ≤ n → I 0 a → (∀ k a, 0 ≤ k < n → I k a → ∃ a', f a k = Ok a' ∧ I (k + 1) a') →
  ∃ a', for_each f (seqZ 0 n) a = Ok a' ∧ I n a'.
Proof.
  intros Hn H0 Hstep. assert (∀ k : nat, Z.of_nat k ≤ n → ∃ a', for_each f (seqZ 0 (Z.of_nat k)) a = Ok a' ∧ I (Z.of_nat k) a') as H.
  { induction k as [|k IH]; intros Hk; [exists a; done|]. destruct IH as (a1 & E1 & I1); [lia|].
    replace (Z.of_nat (S k)) with (Z.of_nat k + 1) by lia. rewrite seqZ_app, for_each_app, E1 by lia. cbn [obind].
    destruct (Hstep (Z.of_nat k) a1) as (a2 & E2 & I2); [lia|done|]. exists a2. split; [|done].
    rewrite Z.add_0_l. change (seqZ (Z.of_nat k) 1) with [0 + Z.of_nat k]. rewrite Z.add_0_l. cbn [for_each].
    by rewrite E2. }
  specialize (H (Z.to_nat n)). rewrite Z2Nat.id in H by lia. apply H. lia.
Qed.

(** The storage type of a word. *)
Definition st_at (t : FunctionType) (n : nat) (j : Z) : Z := default ValueTypeI64 (storage t n !! Z.to_nat j).

(** [o'] is [o] with the words from [lo] to [hi] set to [g], packed. *)
Record region (t : FunctionType) (g : Z → Z) (lo : Z) (o : GCObject) (hi : Z) (o' : GCObject) : Prop := {
  rg_type : o_type o' = Some t;
  rg_id : o_typeID o' = o_typeID o;
  rg_len : length (Fields o') = length (Fields o);
  rg_shaped : shaped o';
  rg_in : ∀ j, lo ≤ j < hi → Fields o' !! Z.to_nat j = Some (packStorage (st_at t (length (Fields o)) j) (g (j - lo)));
  rg_out : ∀ j, 0 ≤ j < lo ∨ hi ≤ j → Fields o' !! Z.to_nat j = Fields o !! Z.to_nat j;
}.

Lemma region_start t g lo o : o_type o = Some t → shaped o → region t g lo o lo o.
Proof. intros Ht Hs. split; try done. intros j Hj. lia. Qed.

Lemma region_step t g lo o hi o' :
  region t g lo o hi o' → 0 ≤ lo ≤ hi → hi < zlen (Fields o) →
  ∃ o'', Set_ o' hi (g (hi - lo)) = Ok o'' ∧ region t g lo o (hi + 1) o''.
Proof.
  intros [Ht Hid Hl Hs Hin Hout] Hlo Hhi. assert (0 ≤ hi < zlen (Fields o')) as Hr by (unfold zlen in *; rewrite Hl; lia).
  destruct (Set_ok o' t hi (g (hi - lo)) Ht Hs Hr) as (st & Hst & E). eexists. split; [exact E|]. unfold zlen in *.
  split; try done; cbn [Fields o_type set_fields]; rewrite ?length_insert; try done.
  - apply shaped_fields; [done|]. by rewrite length_insert.
  - intros j Hj. destruct (decide (j = hi)) as [->|Hne].
    + rewrite list_lookup_insert_eq by lia. unfold st_at. by rewrite <- Hl, Hst.
    + rewrite list_lookup_insert_ne by lia. apply Hin. lia.
  - intros j Hj. rewrite list_lookup_insert_ne by lia. apply Hout. lia.
Qed.

(** ** Arrays *)

Definition array_type (t : FunctionType) (st : Z) : Prop := ft_kind t = CompositeKindArray ∧ ft_fields t = [st].
Definition array_of (o : GCObject) (st : Z) : Prop := ∃ t, o_type o = Some t ∧ array_type t st.

Lemma ElemSlots_ok o st : array_of o st → ElemSlots o = Ok (SlotsForStorageType st).
Proof. intros (t & Et & Ek & Ef). unfold ElemSlots, is_array. by rewrite Et, bool_decide_eq_true_2, Ef. Qed.

Lemma Len_ok o st : array_of o st → Len o = Ok (zlen (Fields o) / SlotsForStorageType st).
Proof. intros Ha. unfold Len. by rewrite (ElemSlots_ok o st Ha). Qed.

(** An array's words are its elements'. *)
Lemma array_words o st :
  array_of o st → shaped o →
  zlen (Fields o) = zlen (Fields o) / SlotsForStorageType st * SlotsForStorageType st ∧ zlen (Fields o) < 2 ^ 62.
Proof.
  intros (t & Et & Ek & Ef) [Hl Hs]. split; [|done]. rewrite Et in Hs. destruct Hs as [_ Hd]. rewrite Ek in Hd.
  destruct (Hd st Ef) as [k E]. rewrite E. destruct (slots_cases st) as [[-> _]|[-> _]]; by rewrite Z.div_mul.
Qed.

Lemma st_at_array t st n j : array_type t st → 0 ≤ j < Z.of_nat n → st_at t n j = st.
Proof.
  intros [Ek Ef] Hj. unfold st_at, storage. rewrite Ek, Ef. rewrite lookup_replicate_2 by lia. done.
Qed.

Lemma new_array_shaped t id st n :
  array_type t st → 0 ≤ n ≤ maxGCArrayLen →
  let o := newGCObject t id (n * SlotsForStorageType st) in
  shaped o ∧ zlen (Fields o) = n * SlotsForStorageType st ∧ array_of o st.
Proof.
  intros [Ek Ef] Hn. change maxGCArrayLen with (2 ^ 28) in Hn.
  assert (zlen (replicate (Z.to_nat (n * SlotsForStorageType st)) 0) = n * SlotsForStorageType st) as E.
  { unfold zlen. rewrite length_replicate. destruct (slots_cases st) as [[-> _]|[-> _]]; lia. }
  cbn zeta. split; [|split; [exact E|by exists t]]. unfold shaped, newGCObject, valid_type. cbn [Fields o_type]. rewrite E, Ek, Ef.
  destruct (slots_cases st) as [[Es _]|[Es _]]; rewrite Es; (split; [lia|]); (split; [eauto|]); intros st' [= <-];
    rewrite Es; by exists n.
Qed.

(** Filling writes the element over and over. *)
Lemma fillWords_ok dst stride lo hi :
  stride = 1 ∨ stride = 2 → (stride | zlen dst) →
  ∃ ws, fillWords dst stride lo hi = Ok ws ∧ length ws = length dst ∧
    ∀ j, 0 ≤ j < zlen dst → ws !! Z.to_nat j = Some (if j mod stride =? 0 then lo else hi).
Proof.
  intros Hst [n Hn]. unfold fillWords. pose proof (zlen_nonneg dst) as Hpos. destruct Hst as [-> | ->].
  - eexists. split; [reflexivity|]. split; [by rewrite length_fmap|]. intros j Hj. rewrite list_lookup_fmap, Z.mod_1_r.
    destruct (lookup_lt_is_Some_2 dst (Z.to_nat j)) as [x ->]; [unfold zlen in *; lia|done].
  - cbn [Z.eqb Pos.eqb]. replace ((zlen dst + 2 - 1) / 2) with n by (rewrite Hn; apply Z.div_unique with 1; lia).
    set (I k ws := length ws = length dst ∧ ∀ j, 0 ≤ j < 2 * k → ws !! Z.to_nat j = Some (if j mod 2 =? 0 then lo else hi)).
    destruct (for_each_range I (λ dst k, if k * 2 + 1 <? zlen dst
        then Ok (<[Z.to_nat (k * 2 + 1):=hi]> (<[Z.to_nat (k * 2):=lo]> dst)) else Panic) n dst) as (ws & E & El & Hws).
    + lia.
    + split; [done|]. intros j Hj. lia.
    + intros k ws Hk [El Hws]. rewrite (proj2 (Z.ltb_lt _ _)) by (unfold zlen in *; lia). eexists. split; [reflexivity|].
      split; [by rewrite !length_insert|]. intros j Hj. unfold zlen in *.
      destruct (decide (j = k * 2 + 1)) as [->|H1]; [|destruct (decide (j = k * 2)) as [->|H2]].
      * rewrite list_lookup_insert_eq by (rewrite length_insert; lia).
        by rewrite Z.add_comm, Z_mod_plus_full.
      * rewrite list_lookup_insert_ne, list_lookup_insert_eq by lia. by rewrite Z_mod_mult.
      * rewrite !list_lookup_insert_ne by lia. apply Hws. lia.
    + exists ws. split; [exact E|]. split; [done|]. intros j Hj. apply Hws. lia.
Qed.

(** ** Segments *)

Lemma index_ok {A} (l : list A) i x : 0 ≤ i → l !! Z.to_nat i = Some x → index l i = Ok x.
Proof. intros Hi Hx. unfold index. by rewrite (proj2 (Z.leb_le 0 i) Hi), Hx. Qed.

Lemma index_lt {A} (l : list A) i : 0 ≤ i < zlen l → ∃ x, index l i = Ok x ∧ l !! Z.to_nat i = Some x.
Proof.
  intros Hi. destruct (lookup_lt_is_Some_2 l (Z.to_nat i)) as [x Hx]; [unfold zlen in Hi; lia|].
  exists x. split; [apply index_ok; [lia|done]|done].
Qed.

Lemma le_decode_snoc l b : le_decode (l ++ [b]) = le_decode l + b * 2 ^ (8 * zlen l).
Proof.
  induction l as [|x l IH]; [unfold zlen; cbn; lia|]. cbn [app le_decode]. rewrite IH, zlen_cons. pose proof (zlen_nonneg l).
  replace (8 * (1 + zlen l)) with (8 + 8 * zlen l) by lia. rewrite Z.pow_add_r by lia. lia.
Qed.

Lemma le_decode_range l : Forall is_byte l → 0 ≤ le_decode l < 2 ^ (8 * zlen l).
Proof.
  induction 1 as [|x l Hx _ IH]; [unfold zlen; cbn; lia|]. cbn [le_decode]. rewrite zlen_cons. pose proof (zlen_nonneg l).
  replace (8 * (1 + zlen l)) with (8 + 8 * zlen l) by lia. rewrite Z.pow_add_r by lia. unfold is_byte in Hx. lia.
Qed.

Definition bytes_at (data : list Z) (base n : Z) : list Z := take (Z.to_nat n) (drop (Z.to_nat base) data).

Lemma bytes_at_snoc data base k b :
  0 ≤ base → 0 ≤ k → data !! Z.to_nat (base + k) = Some b → bytes_at data base (k + 1) = bytes_at data base k ++ [b].
Proof.
  intros Hb Hk Hl. unfold bytes_at. replace (Z.to_nat (k + 1)) with (S (Z.to_nat k)) by lia. apply take_S_r.
  rewrite lookup_drop. by replace (Z.to_nat base + Z.to_nat k)%nat with (Z.to_nat (base + k)) by lia.
Qed.

Lemma zlen_bytes_at data base n : 0 ≤ base → 0 ≤ n → base + n ≤ zlen data → zlen (bytes_at data base n) = n.
Proof. intros Hb Hn Hl. unfold bytes_at, zlen in *. rewrite length_take, length_drop. lia. Qed.

Lemma data_word_ok data base width :
  Forall is_byte data → zlen data < 2 ^ 63 → 0 ≤ base → 0 ≤ width → base + Z.min width 8 ≤ zlen data →
  data_word data base width = Ok (le_decode (bytes_at data base (Z.min width 8))).
Proof.
  intros Hd Hlen Hb Hw Hin. unfold data_word.
  destruct (for_each_range (λ k v, v = le_decode (bytes_at data base k))
    (λ v b, let* byte := index data (u64 (base + b)) in Ok (Z.lor v (u64 (Z.shiftl byte (8 * b))))) (Z.min width 8) 0) as (v & E & ->);
    [lia|done| |done].
  intros k v Hk ->. destruct (index_lt data (base + k)) as (b & E & Hl); [lia|].
  rewrite (wrap_small 64) by lia. rewrite E. cbn [obind]. eexists. split; [reflexivity|].
  rewrite (bytes_at_snoc data base k b), le_decode_snoc, zlen_bytes_at by (done || lia).
  assert (is_byte b) as Hbb by (rewrite Forall_forall in Hd; apply Hd, list_elem_of_In; by eapply list_elem_of_lookup_2).
  assert (Forall is_byte (bytes_at data base k)) as Hbs by (by apply Forall_take, Forall_drop).
  apply le_decode_range in Hbs. rewrite zlen_bytes_at in Hbs by lia.
  rewrite wrap_small; [apply lor_shiftl_add; [lia|exact Hbs]|]. rewrite Z.shiftl_mul_pow2 by lia. unfold is_byte in Hbb.
  pose proof (Z.pow_le_mono_r 2 (8 * k) 56 ltac:(lia) ltac:(lia)). nia.
Qed.

Lemma storageWidth_cases st :
  SlotsForStorageType st = 2 ∧ storageWidth st = 16 ∨ SlotsForStorageType st = 1 ∧ 1 ≤ storageWidth st ≤ 8.
Proof.
  unfold SlotsForStorageType, storageWidth. destruct (Z.eqb_spec st ValueTypeV128) as [->|]; [left; done|right].
  repeat case_match; split; done || lia.
Qed.

(** The word of an array an element read from a data segment gives. *)
Definition segment_word (st : Z) (data : list Z) (src j : Z) : Z :=
  let n := SlotsForStorageType st in
  le_decode (bytes_at data (src + j `div` n * storageWidth st + j `mod` n * 8) (Z.min (storageWidth st) 8)).

Lemma fill_elements_ok m o st t dst segment data src length :
  o_type o = Some t → array_type t st → shaped o → 0 ≤ segment → DataInstances m !! Z.to_nat segment = Some data →
  Forall is_byte data → zlen data < 2 ^ 63 → 0 ≤ dst → 0 ≤ length → 0 ≤ src →
  (dst + length) * SlotsForStorageType st ≤ zlen (Fields o) → src + length * storageWidth st ≤ zlen data →
  ∃ o', fillArrayFromSegment m o dst true segment src length (storageWidth st) = Ok o' ∧
    region t (segment_word st data src) (dst * SlotsForStorageType st) o ((dst + length) * SlotsForStorageType st) o'.
Proof.
  intros Et Ha Hsh Hseg Hdata Hbytes Hdl Hdst Hlen Hsrc Hfit Hin. unfold fillArrayFromSegment. cbn [negb].
  rewrite (index_ok _ _ _ Hseg Hdata). cbn [obind]. rewrite (ElemSlots_ok o st) by (by exists t). cbn [obind].
  destruct Hsh as [Hl62 Hsh']. pose proof (conj Hl62 Hsh') as Hsh.
  set (n := SlotsForStorageType st) in *. set (width := storageWidth st) in *. set (g := segment_word st data src).
  assert (n = 2 ∧ width = 16 ∨ n = 1 ∧ 1 ≤ width ≤ 8) as Hn by apply storageWidth_cases.
  destruct (for_each_range (λ k o', region t g (dst * n) o ((dst + k) * n) o')
    (λ o i, for_each (λ o w, let* v := data_word data (u64 (u64 (src + u64 (i * width)) + w * 8)) width in
        Set_ o (i64 (u64 (u64 (u64 (dst + i) * n) + w))) v) (seqZ 0 n) o) length o) as (o' & E & H'); [done| | |by exists o'].
  { rewrite Z.add_0_r. by apply region_start. }
  intros k o1 Hk H1. assert (0 ≤ k * width ≤ length * width - width) as Hkw by (destruct Hn as [[_ ->]|[_ ?]]; nia).
  rewrite !(wrap_small 64 (k * width)), (wrap_small 64 (src + k * width)) by lia.
  assert (0 ≤ (dst + k) * n ∧ (dst + k) * n + n ≤ zlen (Fields o) ∧ (dst + k) < 2 ^ 62) as (Hs0 & Hs1 & Hs2) by (destruct Hn as [[-> _]|[-> _]]; lia).
  rewrite (wrap_small 64 (dst + k)), (wrap_small 64 ((dst + k) * n)) by lia.
  destruct (for_each_range (λ w o', region t g (dst * n) o ((dst + k) * n + w) o')
    (λ o w, let* v := data_word data (u64 (src + k * width + w * 8)) width in
        Set_ o (i64 (u64 ((dst + k) * n + w))) v) n o1) as (o2 & E2 & H2); [lia|by rewrite Z.add_0_r| |].
  - intros w o2 Hw H2. rewrite (wrap_small 64 (src + _ + _)), (wrap_small 64 ((dst + k) * n + w)) by lia.
    rewrite data_word_ok by (done || lia). cbn [obind]. rewrite swrap_small by lia.
    destruct (region_step t g (dst * n) o ((dst + k) * n + w) o2 H2) as (o3 & E3 & H3); [nia|lia|].
    exists o3. rewrite Z.add_assoc. split; [|done]. rewrite <- E3. f_equal. unfold g, segment_word. fold n width.
    replace ((dst + k) * n + w - dst * n) with (k * n + w) by lia.
    by rewrite <- (Z.div_unique (k * n + w) n k w), <- (Z.mod_unique (k * n + w) n k w) by lia.
  - exists o2. split; [done|]. by replace ((dst + (k + 1)) * n) with ((dst + k) * n + n) by lia.
Qed.

(** The same over an element segment, whose arrays hold references. *)
Lemma fill_references_ok m o st t dst segment elems src length width :
  o_type o = Some t → array_type t st → SlotsForStorageType st = 1 → shaped o → 0 ≤ segment →
  ElementInstances m !! Z.to_nat segment = Some elems → zlen elems < 2 ^ 63 → 0 ≤ dst → 0 ≤ length → 0 ≤ src →
  dst + length ≤ zlen (Fields o) → src + length ≤ zlen elems →
  ∃ o', fillArrayFromSegment m o dst false segment src length width = Ok o' ∧
    region t (λ j, default 0 (elems !! Z.to_nat (src + j))) dst o (dst + length) o'.
Proof.
  intros Et Ha Hn Hsh Hseg Helems Hel Hdst Hlen Hsrc Hfit Hin. unfold fillArrayFromSegment. cbn [negb].
  rewrite (index_ok _ _ _ Hseg Helems). cbn [obind]. pose proof (proj1 Hsh) as Hl62.
  apply (for_each_range (λ k o', region t (λ j, default 0 (elems !! Z.to_nat (src + j))) dst o (dst + k) o')); [done| |].
  { rewrite Z.add_0_r. by apply region_start. }
  intros k o1 Hk H1. rewrite (ElemSlots_ok o1 st) by (exists t; split; [apply H1|done]). cbn [obind]. rewrite Hn, Z.mul_1_r.
  rewrite !(wrap_small 64) by (rewrite ?wrap_small by lia; lia). rewrite swrap_small by lia.
  destruct (index_lt elems (src + k)) as (w & -> & Hw); [lia|]. cbn [obind].
  destruct (region_step t _ dst o (dst + k) o1 H1) as (o2 & E2 & H2); [lia..|].
  exists o2. split; [|by rewrite Z.add_assoc]. rewrite <- E2. f_equal. replace (src + (dst + k - dst)) with (src + k) by lia.
  by rewrite Hw.
Qed.

(** Words written one after the other from the first. *)
Lemma fill_scratch_ok t id scratch :
  shaped (newGCObject t id (zlen scratch)) →
  ∃ o', for_each (λ o '(i, v), Set_ o i v) (zip (seqZ 0 (zlen scratch)) scratch) (newGCObject t id (zlen scratch)) = Ok o' ∧
    region t (λ j, default 0 (scratch !! Z.to_nat j)) 0 (newGCObject t id (zlen scratch)) (zlen scratch) o'.
Proof.
  intros Hsh. set (o := newGCObject t id (zlen scratch)) in *.
  assert (zip (seqZ 0 (zlen scratch)) scratch = (λ i, (i, default 0 (scratch !! Z.to_nat i))) <$> seqZ 0 (zlen scratch)) as ->.
  { apply list_eq. intros i. rewrite list_lookup_fmap. destruct (decide (i < length scratch)%nat) as [Hi|Hi].
    - destruct (lookup_lt_is_Some_2 scratch i Hi) as [v Hv].
      assert (seqZ 0 (zlen scratch) !! i = Some (Z.of_nat i)) as Hs by (apply lookup_seqZ; unfold zlen; lia).
      rewrite Hs. cbn. rewrite Nat2Z.id, Hv. apply lookup_zip_Some. done.
    - rewrite (lookup_ge_None_2 (zip _ _)) by (rewrite length_zip_with; lia).
      rewrite (lookup_ge_None_2 (seqZ _ _)); [done|]. rewrite length_seqZ. unfold zlen. lia. }
  assert (∀ l o, for_each (λ o '(i, v), Set_ o i v) ((λ i, (i, default 0 (scratch !! Z.to_nat i))) <$> l) o =
     for_each (λ o i, Set_ o i (default 0 (scratch !! Z.to_nat i))) l o) as ->.
  { induction l as [|x l IH]; intros o'; [done|]. cbn. destruct (Set_ o' x _); cbn; auto. }
  assert (zlen (Fields o) = zlen scratch) as El by (unfold o, zlen; cbn; rewrite length_replicate; lia).
  apply (for_each_range (λ k o', region t (λ j, default 0 (scratch !! Z.to_nat j)) 0 o k o')).
  - apply zlen_nonneg.
  - by apply region_start.
  - intros k o1 Hk H1. destruct (region_step t _ 0 o k o1 H1) as (o2 & E2 & H2); [lia..|]. exists o2. split; [|done].
    rewrite <- E2. by rewrite Z.sub_0_r.
Qed.

(** ** Slices *)

Lemma slice_words_ok l lo hi :
  0 ≤ lo ≤ hi → hi ≤ zlen l → ∃ ws, slice_words l lo hi = Ok ws ∧ zlen ws = hi - lo ∧
    ∀ j, 0 ≤ j < hi - lo → ws !! Z.to_nat j = l !! Z.to_nat (lo + j).
Proof.
  intros Hlo Hhi. unfold slice_words. rewrite (proj2 (Z.leb_le 0 lo)), (proj2 (Z.leb_le lo hi)), (proj2 (Z.leb_le hi (zlen l))) by lia.
  eexists. split; [reflexivity|]. split; [exact (zlen_bytes_at l lo (hi - lo) ltac:(lia) ltac:(lia) ltac:(lia))|].
  intros j Hj. rewrite lookup_take_lt, lookup_drop by lia. f_equal. lia.
Qed.

Lemma put_words_ok l lo ws :
  0 ≤ lo → lo + zlen ws ≤ zlen l → length (put_words l lo ws) = length l ∧
    (∀ j, lo ≤ j < lo + zlen ws → put_words l lo ws !! Z.to_nat j = ws !! Z.to_nat (j - lo)) ∧
    (∀ j, 0 ≤ j < lo ∨ lo + zlen ws ≤ j → put_words l lo ws !! Z.to_nat j = l !! Z.to_nat j).
Proof.
  intros Hlo Hfit. unfold put_words, zlen in *.
  assert (length (take (Z.to_nat lo) l) = Z.to_nat lo) as Et by (rewrite length_take; lia). split_and!.
  - rewrite !length_app, Et, length_drop. lia.
  - intros j Hj. rewrite lookup_app_r, Et by lia. rewrite lookup_app_l by lia. f_equal. lia.
  - intros j [Hj|Hj]; [rewrite lookup_app_l, lookup_take_lt by lia; done|].
    rewrite lookup_app_r, Et by lia. rewrite lookup_app_r by lia. rewrite lookup_drop. f_equal. lia.
Qed.
