(* ===== verification/GcSound.v ===== *)
(** Soundness of the GC operations: what each does to a well-typed heap, on every
    branch, and that none crashes on operands validation accepts. *)
From Stdlib Require Import ZArith Lia String.
From stdpp Require Import base list numbers option tactics.
From S2P Require Import Prelude GcHeap GcCollect GcOps GcTyping.
Local Open Scope Z_scope.
Local Open Scope go_scope.

(** * Well-typed states *)

Record state_ok (st : gcState) : Prop := {
  ok_heap : wf (g_heap st);
  ok_objects : objects_ok (g_objects st) (g_heap st);
  ok_shaped : Forall shaped (g_objects st);
}.

(** What instantiation guarantees of the module. *)
Record module_ok (m : ModuleInstance) : Prop := {
  mo_ids : length (TypeIDs m) = length (TypeSection m);
  mo_types : zlen (TypeSection m) < 2 ^ 32;
  mo_data : Forall (λ d, Forall is_byte d ∧ zlen d < 2 ^ 63) (DataInstances m);
  mo_elems : Forall (λ l : list Z, zlen l < 2 ^ 63) (ElementInstances m);
  mo_segments : zlen (DataInstances m) < 2 ^ 32 ∧ zlen (ElementInstances m) < 2 ^ 32;
}.

(** The operation does not crash, and its result satisfies [P]. *)
Definition safe {A} (P : A → Prop) (r : gres A) : Prop :=
  match r with Ok x => P x | Err _ => True | Panic | NoFuel => False end.

Lemma safe_bind {A B} (Q : A → Prop) (P : B → Prop) (r : gres A) (k : A → gres B) :
  safe Q r → (∀ x, Q x → safe P (k x)) → safe P (let* x := r in k x).
Proof. destruct r; cbn; auto. Qed.

Lemma safe_mono {A} (P Q : A → Prop) (r : gres A) : (∀ x, P x → Q x) → safe P r → safe Q r.
Proof. destruct r; cbn; auto. Qed.

(** The reference names the object at [p]. *)
Definition names (st : gcState) (ref : Z) (p : nat) (o : GCObject) : Prop :=
  Deref (g_heap st) ref = Ok p ∧ g_objects st !! p = Some o.

Lemma deref_names st ref p o : deref st ref = Ok (p, o) ↔ names st ref p o.
Proof.
  unfold deref, names. destruct (Deref (g_heap st) ref) as [q| | |]; cbn [obind]; [|by split; [|intros [? _]]..].
  destruct (g_objects st !! q) as [o'|] eqn:E; split; [|intros [[= ->] ?]; congruence|done|intros [[= ->] ?]; congruence].
  intros H. injection H as -> ->. done.
Qed.

Lemma names_shaped st ref p o : state_ok st → names st ref p o → shaped o.
Proof.
  intros Hst [_ Ho]. pose proof (ok_shaped st Hst) as Hs. rewrite Forall_forall in Hs.
  apply Hs, list_elem_of_In. by eapply list_elem_of_lookup_2.
Qed.

(** Dereferencing finds an object, or traps. *)
Lemma deref_safe st ref : state_ok st → safe (λ '(p, o), names st ref p o) (deref st ref).
Proof.
  intros [Hwf Hob _]. unfold deref, names, Deref. destruct (ref =? GCRefNull); [done|].
  destruct (slotOf (g_heap st) ref) as [i|] eqn:Ei; [|done].
  pose proof Ei as Es. apply slotOf_Some in Es as (s & Hs & Hn & _); [|by apply wf_len64].
  destruct (obj_at (g_heap st) i) as [p|] eqn:Ep; cbn [obind].
  - destruct (Hob i p Ep) as [o Ho]. by rewrite Ho.
  - unfold obj_at in Ep. rewrite Hs in Ep. cbn in Ep. congruence.
Qed.

(** Replacing an object by one of the same shape. *)
Lemma set_object_ok st p o : state_ok st → is_Some (g_objects st !! p) → shaped o → state_ok (set_object st p o).
Proof.
  intros [Hwf Hob Hsh] [o0 Ho0] Ho. split; cbn [g_heap g_objects set_object]; [done| |by apply Forall_insert].
  intros i q Hq. destruct (Hob i q Hq) as [oq Hoq]. destruct (decide (p = q)) as [->|Hne].
  - rewrite list_lookup_insert_eq by (by eapply lookup_lt_Some). eauto.
  - rewrite list_lookup_insert_ne by done. eauto.
Qed.

(** Allocation, at the level of the state: the reference names the new object and
    every other names what it named. *)
Lemma allocRef_ok st o :
  state_ok st → room (g_heap st) → shaped o →
  ∃ st' ref, allocRef st o = Ok (st', ref) ∧ state_ok st' ∧ names st' ref (length (g_objects st)) o ∧
    (∀ w p o', names st w p o' → names st' w p o') ∧ (∀ p, ¬ ∃ o', names st ref p o').
Proof.
  intros [Hwf Hob Hsh] Hroom Ho. destruct (Alloc_ok (g_heap st) (length (g_objects st)) Hwf Hroom) as (i & h' & g & want & E & Hwf' & _).
  destruct (Alloc_slotOf _ _ _ _ _ Hwf Hroom E) as (j & Hno & Hj & Hat & Hold & Hnew).
  unfold allocRef. rewrite E. cbn [obind]. eexists _, _. split; [reflexivity|]. split_and!.
  - split; cbn [g_heap g_objects]; [done| |by apply Forall_app; split; [|constructor]].
    intros k q Hq. destruct (decide (q = length (g_objects st))) as [->|Hne]; [rewrite list_lookup_middle by done; eauto|].
    enough (∃ k', obj_at (g_heap st) k' = Some q) as [k' Hk'].
    { destruct (Hob k' q Hk') as [oq Hoq]. exists oq. by apply lookup_app_l_Some. }
    destruct (Alloc_ok (g_heap st) (length (g_objects st)) Hwf Hroom) as (i' & h'' & g' & want' & E' & _ & _ & _ & (mk & Hi) & _ & _ & Hn').
    assert (h'' = h') as -> by (rewrite E in E'; by injection E'). unfold obj_at in *.
    destruct (slots h' !! k) as [s|] eqn:Hs; [|done]. cbn in Hq. destruct (decide (k = i')) as [->|Hki].
    + rewrite Hi in Hs. injection Hs as <-. cbn in Hq. congruence.
    + destruct (Hn' k s Hki Hs) as [Hs'| ->]; [exists k; by rewrite Hs'|done].
  - split; cbn [g_heap g_objects]; [|by rewrite list_lookup_middle]. unfold Deref. rewrite Hj, Hat.
    case_match eqn:Enull; [|done]. apply Z.eqb_eq in Enull. rewrite Enull in Hj. discriminate Hj.
  - intros w p o' [Hd Ho']. split; cbn [g_heap g_objects]; [|by apply lookup_app_l_Some]. unfold Deref in *.
    destruct (w =? GCRefNull); [done|]. destruct (slotOf (g_heap st) w) as [k|] eqn:Ek; [|done].
    destruct (Hold w k Ek) as [-> ->]. done.
  - intros p (o' & Hd & _). unfold Deref in Hd. rewrite Hno in Hd. by destruct (_ =? GCRefNull).
Qed.

(** * Operations on arrays *)

Definition is_u32 (x : Z) : Prop := 0 ≤ x < 2 ^ 32.

Lemma checkArrayRange_ok len offset length :
  is_u32 offset → is_u32 length →
  checkArrayRange len offset length = if len <? offset + length then Err ErrRuntimeOutOfBoundsArrayAccess else Ok tt.
Proof. unfold is_u32, checkArrayRange. intros ? ?. by rewrite wrap_small by lia. Qed.

(** The bounds, in words, of a range of elements inside an array. *)
Lemma range_words o st b n :
  array_of o st → shaped o → 0 ≤ b → 0 ≤ n → b + n ≤ zlen (Fields o) / SlotsForStorageType st →
  u64 (b * SlotsForStorageType st) = b * SlotsForStorageType st ∧
  u64 (u64 (b + n) * SlotsForStorageType st) = (b + n) * SlotsForStorageType st ∧
  0 ≤ b * SlotsForStorageType st ≤ (b + n) * SlotsForStorageType st ∧ (b + n) * SlotsForStorageType st ≤ zlen (Fields o).
Proof.
  intros Ha Hsh Hb Hn Hle. destruct (array_words o st Ha Hsh) as [E Hl].
  set (q := zlen (Fields o) / SlotsForStorageType st) in *. rewrite E in *.
  destruct (slots_cases st) as [[Es _]|[Es _]]; rewrite Es in *; rewrite (wrap_small 64 (b + n)), !wrap_small by lia; lia.
Qed.

Lemma array_fill_ok st a b c d e p o ty :
  state_ok st → names st a p o → array_of o ty → is_u32 b → is_u32 d →
  let n := SlotsForStorageType ty in
  (zlen (Fields o) / n < b + d → array_fill st a b c d e = Err ErrRuntimeOutOfBoundsArrayAccess) ∧
  (b + d ≤ zlen (Fields o) / n →
   ∃ ws, array_fill st a b c d e = Ok (set_object st p (set_fields o ws), 0) ∧ length ws = length (Fields o) ∧
    (∀ j, b * n ≤ j < (b + d) * n → ws !! Z.to_nat j = Some (if j mod n =? 0 then packStorage ty c else e)) ∧
    (∀ j, 0 ≤ j < b * n ∨ (b + d) * n ≤ j → ws !! Z.to_nat j = Fields o !! Z.to_nat j)).
Proof.
  intros Hst Hn Ha Hb Hd n. pose proof (names_shaped _ _ _ _ Hst Hn) as Hsh. apply deref_names in Hn.
  unfold array_fill. rewrite Hn. cbn [obind]. rewrite (Len_ok o ty Ha). cbn [obind]. rewrite checkArrayRange_ok by done.
  fold n. destruct (Z.ltb_spec (zlen (Fields o) / n) (b + d)) as [Hlt|Hge]; (split; intros ?; [|]); try lia; [done|].
  cbn [obind]. rewrite (ElemSlots_ok o ty Ha). cbn [obind]. fold n. unfold is_u32 in *.
  destruct (range_words o ty b d Ha Hsh) as (Eb & Ebd & Hr & Hfit); [lia|lia|fold n; lia|]. fold n in Eb, Ebd, Hr, Hfit. rewrite Eb, Ebd.
  destruct (slice_words_ok (Fields o) (b * n) ((b + d) * n)) as (ws & -> & Hwl & _); [lia..|]. cbn [obind].
  destruct Ha as (t & Et & Ek & Ef). unfold type_of, elem_type. rewrite Et. cbn [obind]. rewrite Ef.
  assert (n = 1 ∨ n = 2) as Hnn by (unfold n; destruct (slots_cases ty) as [[? _]|[? _]]; auto).
  destruct (fillWords_ok ws n (packStorage ty c) e Hnn) as (ws' & E' & Hl' & Hw'); [rewrite Hwl; exists d; lia|].
  change (index [ty] 0) with (Ok ty : gres Z). cbn [obind]. rewrite E'. cbn [obind].
  assert (zlen ws' = d * n) as El by (unfold zlen in *; rewrite Hl'; lia).
  destruct (put_words_ok (Fields o) (b * n) ws') as (Hpl & Hpin & Hpout); [lia..|].
  eexists. split; [reflexivity|]. split; [done|]. split.
  - intros j Hj. rewrite Hpin, Hw' by lia. do 2 f_equal.
    replace j with (j - b * n + b * n) at 2 by lia. by rewrite Z_mod_plus_full.
  - intros j Hj. apply Hpout. lia.
Qed.

(** A copy reads every word before it writes one, so that it may be of an array to
    itself. *)
Lemma array_copy_ok st a b c d e p dst q src ty ty' :
  state_ok st → names st a p dst → names st c q src → array_of dst ty → array_of src ty' →
  SlotsForStorageType ty' = SlotsForStorageType ty → is_u32 b → is_u32 d → is_u32 e →
  let n := SlotsForStorageType ty in
  (zlen (Fields dst) / n < b + e ∨ zlen (Fields src) / n < d + e →
   array_copy st a b c d e = Err ErrRuntimeOutOfBoundsArrayAccess) ∧
  (b + e ≤ zlen (Fields dst) / n ∧ d + e ≤ zlen (Fields src) / n →
   ∃ ws, array_copy st a b c d e = Ok (set_object st p (set_fields dst ws), 0) ∧ length ws = length (Fields dst) ∧
    (∀ j, b * n ≤ j < (b + e) * n → ws !! Z.to_nat j = Fields src !! Z.to_nat (d * n + (j - b * n))) ∧
    (∀ j, 0 ≤ j < b * n ∨ (b + e) * n ≤ j → ws !! Z.to_nat j = Fields dst !! Z.to_nat j)).
Proof.
  intros Hst Hn Hn' Ha Ha' Es Hb Hd He n. pose proof (names_shaped _ _ _ _ Hst Hn) as Hsh. pose proof (names_shaped _ _ _ _ Hst Hn') as Hsh'.
  apply deref_names in Hn, Hn'. unfold array_copy. rewrite Hn. cbn [obind]. rewrite Hn'. cbn [obind].
  rewrite (Len_ok dst ty Ha). cbn [obind]. rewrite checkArrayRange_ok by done. rewrite (Len_ok src ty' Ha'). rewrite Es. fold n.
  destruct (Z.ltb_spec (zlen (Fields dst) / n) (b + e)) as [Hlt|Hge]; [split; [done|lia]|]. cbn [obind].
  rewrite checkArrayRange_ok by done.
  destruct (Z.ltb_spec (zlen (Fields src) / n) (d + e)) as [Hlt'|Hge']; [split; [done|lia]|]. split; [lia|]. intros _. cbn [obind].
  rewrite (ElemSlots_ok dst ty Ha). cbn [obind]. fold n. unfold is_u32 in *.
  destruct (range_words dst ty b e Ha Hsh) as (Eb & Ebe & Hr & Hfit); [lia|lia|fold n; lia|]. fold n in Eb, Ebe, Hr, Hfit.
  destruct (range_words src ty' d e Ha' Hsh') as (Ed & Ede & Hr' & Hfit'); [lia|lia|rewrite Es; fold n; lia|]. rewrite Es in Ed, Ede, Hr', Hfit'. fold n in Ed, Ede, Hr', Hfit'.
  rewrite Eb, Ebe, Ed, Ede.
  destruct (slice_words_ok (Fields dst) (b * n) ((b + e) * n)) as (old & -> & Hol & _); [lia..|]. cbn [obind].
  destruct (slice_words_ok (Fields src) (d * n) ((d + e) * n)) as (ws & -> & Hwl & Hw); [lia..|]. cbn [obind].
  rewrite take_ge by (unfold zlen in *; lia). destruct (put_words_ok (Fields dst) (b * n) ws) as (Hpl & Hpin & Hpout); [lia..|].
  eexists. split; [reflexivity|]. split; [done|]. split.
  - intros j Hj. by rewrite Hpin, Hw by lia.
  - intros j Hj. apply Hpout. lia.
Qed.

(** Whether the flags select the high word of a vector. *)
Definition high (flags : Z) : Z := if Z.land flags 2 =? 0 then 0 else 1.

Lemma arraySlot_ok o ty i flags :
  array_of o ty → shaped o → 0 ≤ i → high flags < SlotsForStorageType ty →
  let n := SlotsForStorageType ty in
  arraySlot o i flags = (if zlen (Fields o) / n <=? i then Err ErrRuntimeOutOfBoundsArrayAccess else Ok (i * n + high flags)) ∧
  (i < zlen (Fields o) / n → 0 ≤ i * n + high flags < zlen (Fields o)).
Proof.
  intros Ha Hsh Hi Hh n. destruct (array_words o ty Ha Hsh) as [E Hl]. unfold arraySlot. rewrite (Len_ok o ty Ha). cbn [obind]. fold n in E, Hh. fold n.
  assert (0 ≤ high flags) as Hh0 by (unfold high; case_match; lia). assert (0 < n) as Hn by (unfold n; destruct (slots_cases ty) as [[-> _]|[-> _]]; lia).
  assert (i < zlen (Fields o) / n → 0 ≤ i * n + high flags < zlen (Fields o)) as Hr by nia.
  split; [|exact Hr]. destruct (Z.leb_spec (zlen (Fields o) / n) i) as [Hge|Hlt]; [done|]. specialize (Hr Hlt).
  rewrite (ElemSlots_ok o ty Ha). cbn [obind]. fold n. rewrite (wrap_small 64 (i * n)) by lia. unfold high in *.
  destruct (Z.land flags 2 =? 0); cbn [negb]; rewrite ?(wrap_small 64) by lia; rewrite swrap_small by lia; f_equal; lia.
Qed.

(** * Segments *)

Section module.
Variable m : ModuleInstance.
Hypothesis Hm : module_ok m.

(** The words of the segment, and whether the range is inside it. *)
Definition segment_fits (fromData : bool) (segment src length width : Z) : Prop :=
  if fromData
  then ∃ data, DataInstances m !! Z.to_nat segment = Some data ∧ src + length * width ≤ zlen data
  else ∃ elems, ElementInstances m !! Z.to_nat segment = Some elems ∧ src + length ≤ zlen elems.

Lemma checkSegmentRange_safe fromData segment src length width :
  is_u32 segment → is_u32 src → is_u32 length → 0 ≤ width ≤ 16 →
  safe (λ _, segment_fits fromData segment src length width) (checkSegmentRange m fromData segment src length width).
Proof.
  unfold is_u32. intros Hs Hsrc Hl Hw. unfold checkSegmentRange, segment_fits, OutOfRange. rewrite (wrap_small 32) by lia.
  rewrite (wrap_small 64 (length * width)) by nia. rewrite (wrap_small 64 (src + length * width)) by nia.
  rewrite (wrap_small 64 (src + length)) by lia. destruct fromData; cbn [negb].
  - destruct (Z.leb_spec (zlen (DataInstances m)) segment); [done|].
    destruct (index_lt (DataInstances m) segment) as (d & -> & Hd); [lia|]. cbn [obind].
    destruct (Z.ltb_spec (zlen d) (src + length * width)); cbn; [done|eauto].
  - destruct (Z.leb_spec (zlen (ElementInstances m)) segment); [done|].
    destruct (index_lt (ElementInstances m) segment) as (d & -> & Hd); [lia|]. cbn [obind].
    destruct (Z.ltb_spec (zlen d) (src + length)); cbn; [done|eauto].
Qed.

(** Elements read from a segment that has them go where they should. *)
Lemma fill_segment_ok o t ty dst fromData segment src length :
  o_type o = Some t → array_type t ty → (fromData = false → SlotsForStorageType ty = 1) → shaped o →
  is_u32 segment → is_u32 src → is_u32 length → 0 ≤ dst →
  dst + length ≤ zlen (Fields o) / SlotsForStorageType ty → segment_fits fromData segment src length (storageWidth ty) →
  ∃ o' g, fillArrayFromSegment m o dst fromData segment src length (storageWidth ty) = Ok o' ∧
    region t g (dst * SlotsForStorageType ty) o ((dst + length) * SlotsForStorageType ty) o' ∧
    (∀ data, fromData = true → DataInstances m !! Z.to_nat segment = Some data → g = segment_word ty data src).
Proof.
  intros Et Ha H1 Hsh Hseg Hsrc Hlen Hdst Hfit Hin. unfold is_u32 in *. pose proof (array_words o ty (ex_intro _ t (conj Et Ha)) Hsh) as [E _].
  assert ((dst + length) * SlotsForStorageType ty ≤ zlen (Fields o)) as Hfit'
    by (destruct (slots_cases ty) as [[Es _]|[Es _]]; rewrite Es in *; lia).
  destruct fromData; cbn [segment_fits] in Hin.
  - destruct Hin as (data & Hd & Hle). pose proof (mo_data m Hm) as Hds. rewrite Forall_forall in Hds.
    destruct (Hds data) as [Hb Hdl]; [apply list_elem_of_In; by eapply list_elem_of_lookup_2|].
    destruct (fill_elements_ok m o ty t dst segment data src length) as (o' & Eo & Hr); try done; try lia.
    exists o', (segment_word ty data src). split; [done|]. split; [done|]. intros data' _ ?. congruence.
  - destruct Hin as (elems & He & Hle). pose proof (mo_elems m Hm) as Hes. rewrite Forall_forall in Hes.
    pose proof (Hes elems ltac:(apply list_elem_of_In; by eapply list_elem_of_lookup_2)) as Hel. specialize (H1 eq_refl).
    rewrite H1, !Z.mul_1_r in *.
    destruct (fill_references_ok m o ty t dst segment elems src length (storageWidth ty)) as (o' & Eo & Hr); try done; try lia.
    eexists o', _. split; [done|]. split; [exact Hr|]. done.
Qed.

Lemma storageWidth_bound ty : 0 ≤ storageWidth ty ≤ 16.
Proof. destruct (storageWidth_cases ty) as [[_ ->]|[_ ?]]; lia. Qed.

(** [array.init_data] and [array.init_elem]. *)
Lemma init_from_segment_safe st fromData a b c d e :
  state_ok st → is_u32 b → is_u32 c → is_u32 d → is_u32 e →
  (∀ p o, names st a p o → ∃ ty, array_of o ty ∧ (fromData = false → SlotsForStorageType ty = 1)) →
  safe (λ '(st', _), state_ok st') (init_from_segment m st fromData a b c d e).
Proof.
  intros Hst Hb Hc Hd He Ha. unfold init_from_segment. eapply safe_bind; [by apply deref_safe|]. intros [p o] Hn.
  destruct (Ha p o Hn) as (ty & Hao & H1). pose proof (names_shaped _ _ _ _ Hst Hn) as Hsh.
  rewrite (Len_ok o ty Hao). cbn [obind]. rewrite checkArrayRange_ok by done. destruct (Z.ltb_spec (zlen (Fields o) / SlotsForStorageType ty) (b + e)); [done|].
  cbn [obind]. destruct Hao as (t & Et & Ek & Ef). unfold type_of, elem_type. rewrite Et. cbn [obind]. rewrite Ef.
  change (index [ty] 0) with (Ok ty : gres Z). cbn [obind].
  eapply safe_bind; [apply checkSegmentRange_safe; try done; apply storageWidth_bound|]. intros [] Hin. cbn beta in Hin.
  destruct (fill_segment_ok o t ty b fromData c d e) as (o' & g & -> & Hr & _); try done; [unfold is_u32 in *; lia|].
  cbn. apply set_object_ok; [done|destruct Hn; eauto|apply Hr].
Qed.

(** [array.new_data] and [array.new_elem]. *)
Lemma new_from_segment_safe st fromData a b c d t ty :
  state_ok st → room (g_heap st) → is_u32 b → is_u32 c → is_u32 d →
  0 ≤ a → TypeSection m !! Z.to_nat a = Some t → array_type t ty → (fromData = false → SlotsForStorageType ty = 1) →
  safe (λ '(st', _), state_ok st') (new_from_segment m st fromData a b c d).
Proof.
  intros Hst Hroom Hb Hc Hd H0 Ht Ha H1. unfold new_from_segment, newArray, elem_type. rewrite !(index_ok _ _ _ H0 Ht). cbn [obind].
  pose proof Ha as [Ek Ef]. rewrite !Ef. change (index [ty] 0) with (Ok ty : gres Z). cbn [obind].
  eapply safe_bind; [apply checkSegmentRange_safe; try done; apply storageWidth_bound|]. intros [] Hin. cbn beta in Hin.
  destruct (index_lt (TypeIDs m) a) as (id & -> & _).
  { pose proof (lookup_lt_Some _ _ _ Ht). unfold zlen. rewrite (mo_ids m Hm). lia. }
  cbn [obind]. unfold checkArrayLen. destruct (Z.ltb_spec maxGCArrayLen d) as [|Hle]; [done|]. cbn [obind]. unfold is_u32 in *.
  destruct (new_array_shaped t id ty d Ha) as (Hsh & Hlen & _); [lia|].
  destruct (fill_segment_ok (newGCObject t id (d * SlotsForStorageType ty)) t ty 0 fromData b c d) as (o' & g & -> & Hr & _); try done.
  { rewrite Hlen. destruct (slots_cases ty) as [[-> _]|[-> _]]; rewrite Z.div_mul; lia. }
  cbn [obind]. destruct (allocRef_ok st o' Hst Hroom (rg_shaped _ _ _ _ _ _ Hr)) as (st' & ref & -> & Hst' & _). done.
Qed.

(** * New objects *)

Definition struct_type (t : FunctionType) : Prop := ft_kind t = CompositeKindStruct ∧ valid_type t.

Lemma struct_words t : struct_type t → words (ft_fields t) < 2 ^ 32 ∧ structSlots t = Ok (words (ft_fields t)).
Proof.
  intros [Ek Hv]. unfold valid_type in Hv. rewrite Ek in Hv. destruct Hv as [Hw Hfs]. split; [done|]. unfold structSlots.
  destruct (FieldSlots t) as [sl|]; [subst sl|by rewrite Hfs]. pose proof (zlen_nonneg (ft_fields t)).
  apply index_ok; [done|]. unfold zlen. rewrite Nat2Z.id. rewrite field_slots_last by lia. f_equal.
Qed.

Lemma zlen_zeros n : 0 ≤ n → zlen (replicate (Z.to_nat n) 0) = n.
Proof. intros Hn. unfold zlen. rewrite length_replicate. lia. Qed.

Lemma new_struct_shaped t id : struct_type t → shaped (newGCObject t id (words (ft_fields t))).
Proof.
  intros Ht. destruct (struct_words t Ht) as [Hw _]. destruct Ht as [Ek Hv]. pose proof (words_ge (ft_fields t)).
  pose proof (zlen_nonneg (ft_fields t)). unfold shaped, newGCObject. cbn [Fields o_type]. rewrite Ek, zlen_zeros by lia.
  split; [lia|]. done.
Qed.

Lemma new_fixed_shaped t id ty n :
  array_type t ty → 0 ≤ n < 2 ^ 62 → (SlotsForStorageType ty | n) → shaped (newGCObject t id n).
Proof.
  intros [Ek Ef] Hn Hd. unfold shaped, newGCObject, valid_type. cbn [Fields o_type]. rewrite Ek, Ef, zlen_zeros by lia.
  split; [lia|]. split; [eauto|]. by intros st' [= <-].
Qed.

(** What validation guarantees of the operands of an allocation. *)
Definition alloc_operands (mode : GCMode) (t : FunctionType) (scratch : list Z) : Prop :=
  match mode with
  | GCStructNew => struct_type t ∧ zlen scratch = words (ft_fields t)
  | GCStructNewDefault => struct_type t
  | GCArrayNew | GCArrayNewDefault => ∃ ty, array_type t ty
  | GCArrayNewFixed => ∃ ty, array_type t ty ∧ zlen scratch < 2 ^ 62 ∧ (SlotsForStorageType ty | zlen scratch)
  | _ => False
  end.

Lemma allocGC_safe st mode a b c d scratch t :
  state_ok st → room (g_heap st) → is_u32 a → 0 ≤ b → TypeSection m !! Z.to_nat a = Some t → alloc_operands mode t scratch →
  safe (λ '(st', _), state_ok st') (allocGC m st mode a b c d scratch).
Proof.
  intros Hst Hroom Ha Hb Ht Hop. unfold allocGC, is_u32 in *. pose proof (lookup_lt_Some _ _ _ Ht) as Hlt.
  assert (0 ≤ a < zlen (TypeIDs m)) as Hid by (unfold zlen; rewrite (mo_ids m Hm); lia).
  rewrite (wrap_small 32 a) by lia. unfold OutOfRange. rewrite (proj2 (Z.leb_gt _ _)) by lia.
  rewrite (index_ok _ a _ ltac:(lia) Ht). cbn [obind]. destruct (index_lt (TypeIDs m) a Hid) as (id & -> & _). cbn [obind].
  apply (safe_bind shaped).
  2: { intros o Ho. destruct (allocRef_ok st o Hst Hroom Ho) as (st' & ref & -> & Hst' & _). done. }
  assert (shaped (newGCObject t id (zlen scratch)) →
    safe shaped (for_each (λ o '(i, v), Set_ o i v) (zip (seqZ 0 (zlen scratch)) scratch) (newGCObject t id (zlen scratch)))) as Hscratch.
  { intros Hsh. destruct (fill_scratch_ok t id scratch Hsh) as (o' & -> & Hr). apply Hr. }
  destruct mode; cbn [alloc_operands] in Hop; try done.
  - destruct Hop as [Hs E]. apply Hscratch. rewrite E. by apply new_struct_shaped.
  - destruct (struct_words t Hop) as [_ ->]. cbn. by apply new_struct_shaped.
  - destruct Hop as (ty & Hat). pose proof Hat as [_ Ef]. unfold elem_type. rewrite Ef. change (index [ty] 0) with (Ok ty : gres Z).
    cbn [obind]. unfold checkArrayLen. destruct (Z.ltb_spec maxGCArrayLen b) as [|Hle]; [done|]. cbn [obind].
    destruct (new_array_shaped t id ty b Hat) as (Hsh & Hlen & _); [lia|].
    destruct (fillWords_ok (Fields (newGCObject t id (b * SlotsForStorageType ty))) (SlotsForStorageType ty) (packStorage ty c) d) as (ws & -> & Hl & _).
    { destruct (slots_cases ty) as [[-> _]|[-> _]]; auto. }
    { rewrite Hlen. by exists b. }
    cbn [obind safe]. exact (shaped_fields _ ws Hsh Hl).
  - destruct Hop as (ty & Hat). pose proof Hat as [_ Ef]. unfold elem_type. rewrite Ef. change (index [ty] 0) with (Ok ty : gres Z).
    cbn [obind]. unfold checkArrayLen. destruct (Z.ltb_spec maxGCArrayLen b) as [|Hle]; [done|]. cbn [obind safe].
    apply (new_array_shaped t id ty b Hat). lia.
  - destruct Hop as (ty & Hat & Hl & Hd). apply Hscratch. pose proof (zlen_nonneg scratch). apply (new_fixed_shaped t id ty); [done|lia|done].
Qed.

(** * Every operation *)

(** What validation guarantees of the operands. *)
Definition operands_ok (st : gcState) (mode : GCMode) (a b c d e : Z) (scratch : list Z) : Prop :=
  match mode with
  | GCCheckRefTest | GCCheckRefCast =>
      0 ≤ b ∧ ((Z.shiftr b 2 = ValueTypeStructref ∨ Z.shiftr b 2 = ValueTypeArrayref) → ∀ p o, names st a p o → o_type o ≠ None)
  | GCCheckIndirectCall | GCRefEq | GCRefI31 | GCI31GetS | GCI31GetU => True
  | GCStructNew | GCStructNewDefault | GCArrayNew | GCArrayNewDefault | GCArrayNewFixed =>
      room (g_heap st) ∧ is_u32 a ∧ 0 ≤ b ∧ ∃ t, TypeSection m !! Z.to_nat a = Some t ∧ alloc_operands mode t scratch
  | GCArrayNewData | GCArrayNewElem =>
      room (g_heap st) ∧ is_u32 a ∧ is_u32 b ∧ is_u32 c ∧ is_u32 d ∧
      ∃ t ty, TypeSection m !! Z.to_nat a = Some t ∧ array_type t ty ∧ (mode = GCArrayNewElem → SlotsForStorageType ty = 1)
  | GCArrayInitData | GCArrayInitElem =>
      is_u32 b ∧ is_u32 c ∧ is_u32 d ∧ is_u32 e ∧
      ∀ p o, names st a p o → ∃ ty, array_of o ty ∧ (mode = GCArrayInitElem → SlotsForStorageType ty = 1)
  | GCStructGet | GCStructSet => ∀ p o, names st a p o → o_type o ≠ None ∧ 0 ≤ b < zlen (Fields o)
  | GCArrayGet => 0 ≤ b ∧ ∀ p o, names st a p o → ∃ ty, array_of o ty ∧ high c < SlotsForStorageType ty
  | GCArraySet => 0 ≤ b ∧ ∀ p o, names st a p o → ∃ ty, array_of o ty ∧ high d < SlotsForStorageType ty
  | GCArrayLen => ∀ p o, names st a p o → ∃ ty, array_of o ty
  | GCArrayFill => is_u32 b ∧ is_u32 d ∧ ∀ p o, names st a p o → ∃ ty, array_of o ty
  | GCArrayCopy =>
      is_u32 b ∧ is_u32 d ∧ is_u32 e ∧
      ∀ p o q o', names st a p o → names st c q o' →
        ∃ ty ty', array_of o ty ∧ array_of o' ty' ∧ SlotsForStorageType ty' = SlotsForStorageType ty
  end.

Lemma refMatchesTarget_safe st a b :
  state_ok st → operands_ok st GCCheckRefTest a b 0 0 0 [] → safe (λ _, True) (refMatchesTarget m st a b).
Proof.
  intros Hst [Hb Ht]. unfold refMatchesTarget. destruct (a =? 0); [done|]. destruct (Z.land b 2 =? 0); cbn [negb].
  - destruct (_ || (Z.shiftr b 2 =? ValueTypeAnyref)); [done|]. destruct (_ =? ValueTypeEqref); [done|]. destruct (_ =? ValueTypeI31ref); [done|].
    destruct (_ || _) eqn:Evt; [|done]. destruct (negb (IsGCHeapRef a)); [done|]. eapply safe_bind; [by apply deref_safe|]. intros [p o] Hn.
    assert (o_type o ≠ None) as Ho.
    { eapply Ht; [|exact Hn]. apply orb_true_iff in Evt as [?%Z.eqb_eq|?%Z.eqb_eq]; auto. }
    unfold IsArray. by destruct (o_type o).
  - unfold OutOfRange. set (idx := u32 (Z.shiftr b 2)). pose proof (wrap_range 32 (Z.shiftr b 2) ltac:(lia)) as Hi. fold idx in Hi.
    destruct (Z.leb_spec (zlen (TypeIDs m)) idx) as [|Hlt]; [done|].
    assert (0 ≤ idx < zlen (TypeSection m)) as Hix by (unfold zlen in *; rewrite (mo_ids m Hm) in Hlt; lia).
    destruct (index_lt (TypeSection m) idx Hix) as (t & -> & _). cbn [obind]. destruct (runtimeTypeIDOf m st a (ft_kind t)); [|done].
    destruct (index_lt (TypeIDs m) idx) as (id & -> & _); [lia|done].
Qed.

(** A word of an object, read or written. *)
Lemma access_safe st p o i :
  state_ok st → g_objects st !! p = Some o → o_type o ≠ None → 0 ≤ i < zlen (Fields o) → ∀ v signed,
  safe (λ _, True) (Get o i signed) ∧ safe (λ o', state_ok (set_object st p o')) (Set_ o i v).
Proof.
  intros Hst Ho Hty Hi v signed. destruct (o_type o) as [t|] eqn:Et; [|done].
  assert (shaped o) as Hsh.
  { pose proof (ok_shaped st Hst) as Hs. rewrite Forall_forall in Hs. apply Hs, list_elem_of_In. by eapply list_elem_of_lookup_2. }
  destruct (Get_ok o t i signed Et Hsh Hi) as (st0 & v0 & _ & _ & ->). destruct (Set_ok o t i v Et Hsh Hi) as (st1 & _ & ->).
  split; [done|]. cbn. apply set_object_ok; [done|eauto|]. apply shaped_fields; [done|]. by rewrite length_insert.
Qed.

Lemma access_i64 st a p o b : state_ok st → names st a p o → 0 ≤ b < zlen (Fields o) → i64 b = b.
Proof. intros Hst Hn Hb. destruct (names_shaped _ _ _ _ Hst Hn) as [Hl _]. apply swrap_small; lia. Qed.

Lemma array_access_safe st a b flags :
  state_ok st → 0 ≤ b → (∀ p o, names st a p o → ∃ ty, array_of o ty ∧ high flags < SlotsForStorageType ty) →
  safe (λ '(p, o, slot), names st a p o ∧ o_type o ≠ None ∧ 0 ≤ slot < zlen (Fields o))
    (let* '(p, o) := deref st a in let* slot := arraySlot o b flags in Ok (p, o, slot)).
Proof.
  intros Hst Hb Ha. eapply safe_bind; [by apply deref_safe|]. intros [p o] Hn. destruct (Ha p o Hn) as (ty & Hao & Hh).
  destruct (arraySlot_ok o ty b flags Hao (names_shaped _ _ _ _ Hst Hn) Hb Hh) as [-> Hr].
  destruct (Z.leb_spec (zlen (Fields o) / SlotsForStorageType ty) b) as [|Hlt]; [done|]. cbn. split; [done|].
  split; [destruct Hao as (t & -> & _); done|auto].
Qed.

Lemma RunGC_reads_safe st mode a b c d e scratch :
  mode ∈ [GCStructGet; GCStructSet; GCArrayGet; GCArraySet; GCArrayLen] → state_ok st → operands_ok st mode a b c d e scratch →
  safe (λ '(st', _), state_ok st') (RunGC m st mode a b c d e scratch).
Proof.
  intros Hin Hst Hop. repeat (apply elem_of_cons in Hin as [->|Hin]); [..|by apply elem_of_nil in Hin]; cbn [RunGC operands_ok] in *.
  - eapply safe_bind; [by apply deref_safe|]. intros [p o] Hn. destruct (Hop p o Hn) as [Ht Hb]. rewrite (access_i64 st a p o b) by done.
    eapply safe_bind; [exact (proj1 (access_safe st p o b Hst (proj2 Hn) Ht Hb 0 _))|]. done.
  - eapply safe_bind; [by apply deref_safe|]. intros [p o] Hn. destruct (Hop p o Hn) as [Ht Hb]. rewrite (access_i64 st a p o b) by done.
    eapply safe_bind; [exact (proj2 (access_safe st p o b Hst (proj2 Hn) Ht Hb c false))|]. done.
  - destruct Hop as [Hb Ha]. pose proof (array_access_safe st a b c Hst Hb Ha) as H. destruct (deref st a) as [[p o]| | |]; cbn [obind] in *; try done.
    destruct (arraySlot o b c) as [slot| | |]; cbn [obind] in *; try done. destruct H as (Hn & Ht & Hs).
    eapply safe_bind; [exact (proj1 (access_safe st p o slot Hst (proj2 Hn) Ht Hs 0 _))|]. done.
  - destruct Hop as [Hb Ha]. pose proof (array_access_safe st a b d Hst Hb Ha) as H. destruct (deref st a) as [[p o]| | |]; cbn [obind] in *; try done.
    destruct (arraySlot o b d) as [slot| | |]; cbn [obind] in *; try done. destruct H as (Hn & Ht & Hs).
    eapply safe_bind; [exact (proj2 (access_safe st p o slot Hst (proj2 Hn) Ht Hs c false))|]. done.
  - eapply safe_bind; [by apply deref_safe|]. intros [p o] Hn. destruct (Hop p o Hn) as [ty Ha]. by rewrite (Len_ok o ty Ha).
Qed.

Lemma RunGC_bulk_safe st mode a b c d e scratch :
  mode ∈ [GCArrayFill; GCArrayCopy; GCArrayInitData; GCArrayInitElem] → state_ok st → operands_ok st mode a b c d e scratch →
  safe (λ '(st', _), state_ok st') (RunGC m st mode a b c d e scratch).
Proof.
  intros Hin Hst Hop.
  assert (∀ p o ws, names st a p o → length ws = length (Fields o) → state_ok (set_object st p (set_fields o ws))) as Hset.
  { intros p o ws Hn Hl. apply set_object_ok; [done|destruct Hn; eauto|]. apply shaped_fields; [by eapply names_shaped|done]. }
  repeat (apply elem_of_cons in Hin as [->|Hin]); [..|by apply elem_of_nil in Hin]; cbn [RunGC operands_ok] in *.
  - destruct Hop as (Hb & Hd & Ha). pose proof (deref_safe st a Hst) as Hs. destruct (deref st a) as [[p o]|er| |] eqn:Ed; try done;
      [|unfold array_fill; by rewrite Ed]. destruct (Ha p o Hs) as [ty Hao].
    destruct (array_fill_ok st a b c d e p o ty Hst Hs Hao Hb Hd) as [H1 H2].
    destruct (Z.lt_ge_cases (zlen (Fields o) / SlotsForStorageType ty) (b + d)) as [Hlt|Hge]; [by rewrite H1|].
    destruct (H2 Hge) as (ws & -> & Hl & _). by apply Hset.
  - destruct Hop as (Hb & Hd & He & Ha). pose proof (deref_safe st a Hst) as Hs. destruct (deref st a) as [[p o]|er| |] eqn:Ed; try done;
      [|unfold array_copy; by rewrite Ed]. pose proof (deref_safe st c Hst) as Hs'.
    destruct (deref st c) as [[q o']|er| |] eqn:Ed'; try done; [|unfold array_copy; rewrite Ed; cbn; by rewrite Ed'].
    destruct (Ha p o q o' Hs Hs') as (ty & ty' & Hao & Hao' & En).
    destruct (array_copy_ok st a b c d e p o q o' ty ty' Hst Hs Hs' Hao Hao' En Hb Hd He) as [H1 H2].
    destruct (Z.lt_ge_cases (zlen (Fields o) / SlotsForStorageType ty) (b + e)) as [Hlt|Hge]; [rewrite H1 by auto; done|].
    destruct (Z.lt_ge_cases (zlen (Fields o') / SlotsForStorageType ty) (d + e)) as [Hlt'|Hge']; [rewrite H1 by auto; done|].
    destruct (H2 (conj Hge Hge')) as (ws & -> & Hl & _). by apply Hset.
  - destruct Hop as (Hb & Hc & Hd & He & Ha). apply init_from_segment_safe; try done. intros p o Hn. destruct (Ha p o Hn) as (ty & Hao & _). by exists ty.
  - destruct Hop as (Hb & Hc & Hd & He & Ha). apply init_from_segment_safe; try done. intros p o Hn. destruct (Ha p o Hn) as (ty & Hao & H1).
    exists ty. auto.
Qed.

(** No operation on operands validation accepts crashes: it returns, in a state
    that is well typed again, or traps. *)
Lemma RunGC_safe st mode a b c d e scratch :
  state_ok st → operands_ok st mode a b c d e scratch →
  safe (λ '(st', _), state_ok st') (RunGC m st mode a b c d e scratch).
Proof.
  intros Hst Hop. destruct mode;
    try (eapply RunGC_reads_safe; [apply list_elem_of_In; cbn; tauto|done|exact Hop]);
    try (eapply RunGC_bulk_safe; [apply list_elem_of_In; cbn; tauto|done|exact Hop]);
    cbn [RunGC operands_ok] in *;
    try (destruct Hop as (Hr & Ha & Hb & t & Ht & Hao); by eapply allocGC_safe);
    try (destruct Hop as (Hr & [Ha _] & Hb & Hc & Hd & t & ty & Ht & Hat & H1); eapply new_from_segment_safe; eauto; done);
    try done.
  - eapply safe_bind; [by apply refMatchesTarget_safe|]. done.
  - eapply safe_bind; [by apply refMatchesTarget_safe|]. intros [|] _; done.
  - by destruct (negb _).
  - by destruct (a =? GCRefNull).
  - by destruct (a =? GCRefNull).
Qed.
End module.

(** * What the operations compute *)

(** [array.copy] moves the words of the range as they were before it started,
    into that range and nowhere else - also when source and destination are one
    array and overlap - and traps, changing nothing, exactly when either range runs
    past the end of its array. *)
Theorem array_copy_words m st a b c d e p dst q src ty ty' :
  state_ok st → names st a p dst → names st c q src → array_of dst ty → array_of src ty' →
  SlotsForStorageType ty' = SlotsForStorageType ty → is_u32 b → is_u32 d → is_u32 e →
  let n := SlotsForStorageType ty in
  (zlen (Fields dst) / n < b + e ∨ zlen (Fields src) / n < d + e →
   RunGC m st GCArrayCopy a b c d e [] = Err ErrRuntimeOutOfBoundsArrayAccess) ∧
  (b + e ≤ zlen (Fields dst) / n ∧ d + e ≤ zlen (Fields src) / n →
   ∃ ws, RunGC m st GCArrayCopy a b c d e [] = Ok (set_object st p (set_fields dst ws), 0) ∧
    length ws = length (Fields dst) ∧
    ∀ j, 0 ≤ j → ws !! Z.to_nat j =
      if decide (b * n ≤ j < (b + e) * n) then Fields src !! Z.to_nat (d * n + (j - b * n)) else Fields dst !! Z.to_nat j).
Proof.
  intros Hst Hn Hn' Ha Ha' En Hb Hd He n. cbn [RunGC].
  destruct (array_copy_ok st a b c d e p dst q src ty ty' Hst Hn Hn' Ha Ha' En Hb Hd He) as [H1 H2].
  split; [exact H1|]. intros Hin. destruct (H2 Hin) as (ws & E & Hl & H3 & H4). exists ws. split; [exact E|]. split; [exact Hl|].
  intros j Hj. case_decide; [by apply H3|apply H4; fold n; lia].
Qed.

(** Packing before a read changes nothing the read sees. *)
Lemma widen_pack st signed v : widen st signed (packStorage st v) = widen st signed v.
Proof.
  unfold widen, packStorage. destruct (st =? ValueTypeI8); [|destruct (st =? ValueTypeI16)]; try done; destruct signed.
  all: try (f_equal; apply swrap_eq; [lia|]); unfold wrap; by rewrite Z.mod_mod.
Qed.

(** What is written into a field of an object is what is read back, cut to the
    width of the field's storage type and extended as the read asks, and every other
    word of every object - the other half of a vector included - reads as before,
    through whatever reference. *)
Theorem struct_set_get m st a b c p o t w b' flags q o' :
  state_ok st → names st a p o → o_type o = Some t → 0 ≤ b < zlen (Fields o) →
  names st w q o' → o_type o' ≠ None → 0 ≤ b' < zlen (Fields o') →
  ∃ st', RunGC m st GCStructSet a b c 0 0 [] = Ok (st', 0) ∧
    if decide (p = q ∧ b = b')
    then RunGC m st' GCStructGet w b' flags 0 0 [] =
           Ok (st', widen (st_at t (length (Fields o)) b) (negb (Z.land flags 1 =? 0)) c)
    else ∃ v, RunGC m st GCStructGet w b' flags 0 0 [] = Ok (st, v) ∧ RunGC m st' GCStructGet w b' flags 0 0 [] = Ok (st', v).
Proof.
  intros Hst Hn Et Hb Hn' Et' Hb'. pose proof (names_shaped _ _ _ _ Hst Hn) as Hsh. pose proof (names_shaped _ _ _ _ Hst Hn') as Hsh'.
  pose proof (access_i64 st a p o b Hst Hn Hb) as Eb. pose proof (access_i64 st w q o' b' Hst Hn' Hb') as Eb'.
  destruct (o_type o') as [t'|] eqn:Et2; [|done]. set (signed := negb (Z.land flags 1 =? 0)).
  destruct (Set_ok o t b c Et Hsh Hb) as (ty & Hty & Es). set (o1 := set_fields o _) in Es.
  assert (shaped o1) as Hsh1 by (apply shaped_fields; [done|by rewrite length_insert]).
  pose proof Hn as [_ Hpo]. pose proof Hn' as [Hdw Hqo]. pose proof (lookup_lt_Some _ _ _ Hpo) as Hplt.
  exists (set_object st p o1). cbn [RunGC]. fold signed. rewrite (proj2 (deref_names _ _ _ _) Hn). cbn [obind]. rewrite Eb, Es. cbn [obind]. split; [done|].
  assert (∀ o2, <[p := o1]> (g_objects st) !! q = Some o2 → deref (set_object st p o1) w = Ok (q, o2)) as Hd.
  { intros o2 Ho2. by apply deref_names. }
  rewrite Eb'. destruct (decide (p = q)) as [<-|Hpq].
  - assert (o' = o ∧ t' = t) as [-> ->] by (split; congruence). rewrite (Hd o1) by (by rewrite list_lookup_insert_eq). cbn [obind].
    assert (zlen (Fields o1) = zlen (Fields o)) as El by (unfold o1, zlen; cbn; by rewrite length_insert).
    assert (length (Fields o1) = length (Fields o)) as El' by (unfold zlen in El; lia).
    destruct (Get_ok o1 t b' signed Et Hsh1) as (ty1 & v1 & Hty1 & Hv1 & ->); [lia|]. cbn [obind]. rewrite El' in Hty1.
    unfold o1 in Hv1. cbn in Hv1. destruct (decide (b = b')) as [<-|Hbb].
    + rewrite decide_True by done. rewrite list_lookup_insert_eq in Hv1 by (unfold zlen in *; lia). injection Hv1 as <-.
      assert (ty1 = ty) as -> by congruence. unfold st_at. rewrite Hty. cbn. by rewrite widen_pack.
    + rewrite decide_False by (by intros [_ ?]). rewrite list_lookup_insert_ne in Hv1 by lia.
      rewrite (proj2 (deref_names _ _ _ _) Hn'). cbn [obind]. destruct (Get_ok o t b' signed Et Hsh Hb') as (ty2 & v2 & Hty2 & Hv2 & ->).
      assert (ty2 = ty1 ∧ v2 = v1) as [-> ->] by (split; congruence). eauto.
  - rewrite decide_False by (by intros [? _]). rewrite (Hd o') by (by rewrite list_lookup_insert_ne).
    rewrite (proj2 (deref_names _ _ _ _) Hn'). cbn [obind].
    destruct (Get_ok o' t' b' signed Et2 Hsh' Hb') as (ty2 & v2 & _ & _ & ->). eauto.
Qed.

(** [array.new_data] makes an array of the segment's elements: when the segment
    has them and their number is within the limit, the reference it returns names a
    new array of that length whose every element - each half of it, for a vector -
    reads back as the little-endian integer of its bytes, and everything else the
    guest can name is as it was. *)
Theorem array_new_data_reads m st a b c d t ty data :
  module_ok m → state_ok st → room (g_heap st) → is_u32 a → is_u32 b → is_u32 c → 0 ≤ d ≤ maxGCArrayLen →
  TypeSection m !! Z.to_nat a = Some t → array_type t ty → DataInstances m !! Z.to_nat b = Some data →
  c + d * storageWidth ty ≤ zlen data →
  ∃ st' ref, RunGC m st GCArrayNewData a b c d 0 [] = Ok (st', ref) ∧ state_ok st' ∧
    (∀ w p o, names st w p o → names st' w p o ∧ w ≠ ref) ∧
    RunGC m st' GCArrayLen ref 0 0 0 0 [] = Ok (st', d) ∧
    ∀ i flags, 0 ≤ i < d → high flags < SlotsForStorageType ty →
      RunGC m st' GCArrayGet ref i flags 0 0 [] =
      Ok (st', widen ty (negb (Z.land flags 1 =? 0))
                 (le_decode (bytes_at data (c + i * storageWidth ty + high flags * 8) (Z.min (storageWidth ty) 8)))).
Proof.
  intros Hm Hst Hroom Ha Hb Hc Hd Ht Hat Hdata Hin. pose proof Hat as [Ek Ef]. unfold is_u32 in *. change maxGCArrayLen with (2 ^ 28) in Hd.
  cbn [RunGC]. unfold new_from_segment, newArray, elem_type. rewrite !(index_ok _ a _ ltac:(lia) Ht). cbn [obind].
  rewrite !Ef. change (index [ty] 0) with (Ok ty : gres Z). cbn [obind].
  pose proof (storageWidth_bound ty) as Hw. pose proof (lookup_lt_Some _ _ _ Hdata) as Hbl. unfold checkSegmentRange. cbn [negb].
  rewrite (wrap_small 32 b), (wrap_small 64 (d * _)), (wrap_small 64 (c + _)) by nia. unfold OutOfRange.
  rewrite (proj2 (Z.leb_gt _ _)) by (unfold zlen; lia). rewrite (index_ok _ b _ ltac:(lia) Hdata). cbn [obind].
  rewrite (proj2 (Z.ltb_ge _ _)) by lia. cbn [obind].
  destruct (index_lt (TypeIDs m) a) as (id & -> & _).
  { pose proof (lookup_lt_Some _ _ _ Ht). unfold zlen. rewrite (mo_ids m Hm). lia. }
  cbn [obind]. unfold checkArrayLen. change maxGCArrayLen with (2 ^ 28). rewrite (proj2 (Z.ltb_ge _ _)) by lia. cbn [obind].
  destruct (new_array_shaped t id ty d Hat) as (Hsh & Hlen & _); [change maxGCArrayLen with (2 ^ 28); lia|].
  set (o := newGCObject t id (d * SlotsForStorageType ty)) in *. set (n := SlotsForStorageType ty) in *.
  assert (0 < n) as Hn by (unfold n; destruct (slots_cases ty) as [[-> _]|[-> _]]; lia).
  destruct (fill_segment_ok m Hm o t ty 0 true b c d) as (o' & g & -> & Hr & Hg); try done; unfold is_u32; try lia.
  { fold n. rewrite Hlen, Z.div_mul by lia. lia. }
  { exists data. done. }
  specialize (Hg data eq_refl Hdata). subst g. fold n in Hr. cbn [obind]. pose proof (rg_shaped _ _ _ _ _ _ Hr) as Hsh'.
  destruct (allocRef_ok st o' Hst Hroom Hsh') as (st' & ref & -> & Hst' & Hn' & Hold & Hfresh). exists st', ref.
  assert (array_of o' ty) as Hao by (exists t; split; [apply Hr|done]).
  assert (zlen (Fields o') = d * n) as Hlen' by (rewrite <- Hlen; unfold zlen; by rewrite (rg_len _ _ _ _ _ _ Hr)).
  rewrite (proj2 (deref_names _ _ _ _) Hn'). cbn [obind]. rewrite (Len_ok o' ty Hao). fold n. rewrite Hlen', Z.div_mul by lia.
  split; [done|]. split; [done|]. split; [|split; [done|]].
  { intros w p o2 Hw2. split; [auto|]. intros ->. apply (Hfresh p). eauto. }
  intros i flags Hi Hh. destruct (arraySlot_ok o' ty i flags Hao Hsh') as [-> Hrange]; [lia|done|]. fold n in Hrange. fold n.
  rewrite Hlen', Z.div_mul in * by lia. rewrite (proj2 (Z.leb_gt _ _)) by lia. cbn [obind]. specialize (Hrange ltac:(lia)).
  destruct (Get_ok o' t (i * n + high flags) (negb (Z.land flags 1 =? 0)) (rg_type _ _ _ _ _ _ Hr) Hsh') as (ty' & v & Hty' & Hv & ->); [lia|].
  cbn [obind]. do 2 f_equal. assert (ty' = ty) as ->.
  { unfold storage in Hty'. rewrite Ek, Ef in Hty'. by apply lookup_replicate in Hty' as [-> _]. }
  rewrite (rg_in _ _ _ _ _ _ Hr) in Hv by lia. injection Hv as <-.
  rewrite (st_at_array t ty); [|done|rewrite length_replicate; lia].
  rewrite widen_pack. f_equal. unfold segment_word. fold n. assert (0 ≤ high flags) by (unfold high; case_match; lia).
  rewrite <- (Z.div_unique (i * n + high flags - 0 * n) n i (high flags)), <- (Z.mod_unique (i * n + high flags - 0 * n) n i (high flags)) by lia. done.
Qed.

(** C38. How an array access fails: through null it traps as a null reference,
    through any other word that names no object - an i31, a host reference, a stale
    handle - as a failed cast, past the end of the array as an out-of-bounds access,
    and otherwise it does not fail; reading and writing agree on all of it. *)
Theorem array_access_outcome m st a b v flags :
  state_ok st → 0 ≤ b → (∀ p o, names st a p o → ∃ ty, array_of o ty ∧ high flags < SlotsForStorageType ty) →
  let get := RunGC m st GCArrayGet a b flags 0 0 [] in
  let set := RunGC m st GCArraySet a b v flags 0 [] in
  (a = GCRefNull → get = Err ErrRuntimeNullReference ∧ set = Err ErrRuntimeNullReference) ∧
  (a ≠ GCRefNull → (∀ p o, ¬ names st a p o) → get = Err ErrRuntimeCastFailure ∧ set = Err ErrRuntimeCastFailure) ∧
  (∀ p o n, names st a p o → Len o = Ok n → n ≤ b →
     get = Err ErrRuntimeOutOfBoundsArrayAccess ∧ set = Err ErrRuntimeOutOfBoundsArrayAccess) ∧
  (∀ p o n, names st a p o → Len o = Ok n → b < n →
     (∃ x, get = Ok (st, x)) ∧ ∃ o', set = Ok (set_object st p o', 0) ∧ Len o' = Ok n).
Proof.
  intros Hst Hb Ha get set. unfold get, set. cbn [RunGC]. split; [|split; [|split]].
  - intros ->. done.
  - intros Hn Hno. pose proof (deref_safe st a Hst) as Hs. unfold deref, Deref in *. rewrite (proj2 (Z.eqb_neq _ _) Hn) in *.
    destruct (slotOf (g_heap st) a) as [i|]; [|done]. exfalso. destruct (obj_at (g_heap st) i) as [p|]; cbn [obind] in Hs; [|done].
    destruct (g_objects st !! p) as [o|] eqn:Ho; [|done]. by apply (Hno p o).
  - intros p o n Hn Hl Hle. destruct (Ha p o Hn) as (ty & Hao & Hh). rewrite (Len_ok o ty Hao) in Hl. injection Hl as <-.
    destruct (arraySlot_ok o ty b flags Hao (names_shaped _ _ _ _ Hst Hn) Hb Hh) as [E _]. rewrite (proj2 (deref_names _ _ _ _) Hn). cbn [obind].
    rewrite E, (proj2 (Z.leb_le _ _) Hle). done.
  - intros p o n Hn Hl Hlt. destruct (Ha p o Hn) as (ty & Hao & Hh). rewrite (Len_ok o ty Hao) in Hl. injection Hl as <-.
    pose proof (names_shaped _ _ _ _ Hst Hn) as Hsh. pose proof Hao as (t & Et & Hat).
    destruct (arraySlot_ok o ty b flags Hao Hsh Hb Hh) as [E Hr]. rewrite (proj2 (deref_names _ _ _ _) Hn). cbn [obind].
    rewrite E, (proj2 (Z.leb_gt _ _) Hlt). cbn [obind]. specialize (Hr Hlt).
    destruct (Get_ok o t _ (negb (Z.land flags 1 =? 0)) Et Hsh Hr) as (s0 & x & _ & _ & ->). destruct (Set_ok o t _ v Et Hsh Hr) as (s1 & _ & ->).
    cbn [obind]. split; [eauto|]. eexists. split; [reflexivity|]. rewrite (Len_ok _ ty) by (by exists t). f_equal. f_equal.
    unfold zlen. cbn. by rewrite length_insert.
Qed.
