(* ===== verification/GcHistory.v ===== *)
(** Histories of a store's managed heap: any interleaving of the operations of
    guests, throws and collections.

    The state stays well typed, and a word never comes to name another object than
    the one it was handed out for - before the generations of the slots wrap, which
    takes [2^29] allocations. *)
From Stdlib Require Import ZArith Lia String.
From stdpp Require Import base list numbers option tactics relations.
From S2P Require Import Prelude GcHeap GcCollect GcOps GcTyping GcSound.
Local Open Scope Z_scope.
Local Open Scope go_scope.

(** * Events *)

(** An operation of a module of the store, a new exception, a reference to one, a
    collection. *)
Inductive event : Type :=
| EvRun (m : ModuleInstance) (mode : GCMode) (a b c d e : Z) (scratch : list Z)
| EvException (params : list Z)
| EvRef (exn : nat) (params : list Z)
| EvCollect (execs : list ExecRoots) (mods : list ModRoots).

(** A collection leaves the objects alone and answers the request. *)
Definition collect (st : gcState) (execs : list ExecRoots) (mods : list ModRoots) : gres gcState :=
  let* h := collectGarbageLocked (g_objects st) (g_heap st) execs mods in
  Ok (mkState (g_objects st) h false).

(** One event; a trap leaves the state as it was. *)
Definition step (st : gcState) (ev : event) : gres gcState :=
  let settle r := match r with
                  | Ok (st', _) => Ok st'
                  | Err _ => Ok st
                  | Panic => Panic
                  | NoFuel => NoFuel
                  end in
  match ev with
  | EvRun m mode a b c d e scratch => settle (RunGC m st mode a b c d e scratch)
  | EvException params => Ok (mkState (g_objects st ++ [mkObj None 0 params]) (g_heap st) (g_requested st))
  | EvRef exn params => settle (Ref st exn params)
  | EvCollect execs mods => collect st execs mods
  end.

Fixpoint run (st : gcState) (evs : list event) : gres gcState :=
  match evs with [] => Ok st | ev :: evs => let* st := step st ev in run st evs end.

Definition zero_state : gcState := mkState [] zero_heap false.

(** What validation and the engines guarantee of an event; exceptions are referred
    to as exceptions. *)
Definition event_ok (st : gcState) (ev : event) : Prop :=
  match ev with
  | EvRun m mode a b c d e scratch => module_ok m ∧ operands_ok m st mode a b c d e scratch
  | EvException params => zlen params < 2 ^ 62
  | EvRef exn params => room (g_heap st) ∧ zlen params < 2 ^ 62 ∧ ∃ o, g_objects st !! exn = Some o ∧ o_type o = None
  | EvCollect _ _ => True
  end.

Fixpoint events_ok (st : gcState) (evs : list event) : Prop :=
  match evs with
  | [] => True
  | ev :: evs => event_ok st ev ∧ ∀ st', step st ev = Ok st' → events_ok st' evs
  end.

(** * The heap evolves *)

(** A slot keeps its object as long as it keeps its generation. *)
Definition evolves (h h' : GCHeap) : Prop :=
  ∀ i s, slots h !! i = Some s → ∃ s', slots h' !! i = Some s' ∧ gen s ≤ gen s' ∧ (gen s = gen s' → obj s' = obj s).

#[global] Instance evolves_preorder : PreOrder evolves.
Proof.
  split.
  - intros h i s Hs. exists s. split; [done|]. split; [lia|done].
  - intros h1 h2 h3 H12 H23 i s Hs. destruct (H12 i s Hs) as (s2 & Hs2 & Hg2 & Ho2). destruct (H23 i s2 Hs2) as (s3 & Hs3 & Hg3 & Ho3).
    exists s3. split; [done|]. split; [lia|]. intros E. rewrite Ho3, Ho2 by lia. done.
Qed.

(** Generations at most [2 n]. *)
Definition young (n : Z) (h : GCHeap) : Prop := ∀ i s, slots h !! i = Some s → gen s ≤ 2 * n.

Lemma Alloc_evolves h o n :
  wf h → room h → 0 ≤ n → young n h → ∃ h' r, Alloc h o = Ok (h', r) ∧ evolves h h' ∧ young (n + 1) h'.
Proof.
  intros Hwf Hroom Hn Hy. destruct (Alloc_ok h o Hwf Hroom) as (i & h' & g & want & E & Hwf' & Hi & Hat & (mk & Hs) & Hg & Hold & Hnew).
  assert (g ≤ 2 * n + 1) as Hg'.
  { rewrite Hg. destruct (slots h !! i) as [s|] eqn:Es; cbn; [specialize (Hy i s Es); lia|lia]. }
  eexists h', _. split; [exact E|]. split.
  - intros j s Hj. destruct (decide (j = i)) as [->|Hne]; [|exists s; split; [auto|]; split; [lia|done]].
    rewrite Hj in Hg. cbn in Hg. eexists. split; [exact Hs|]. cbn. lia.
  - intros j s Hj. destruct (decide (j = i)) as [->|Hne].
    + assert (s = mkSlot (Some o) g mk) as -> by congruence. cbn. lia.
    + destruct (Hnew j s Hne Hj) as [Hj'| ->]; [specialize (Hy j s Hj')|cbn]; lia.
Qed.

(** A sweep keeps the bound: the generation of a slot in use is odd. *)
Lemma sweep_evolves h n : wf h → n < 2 ^ 30 → young n h → evolves h (sweep h) ∧ young n (sweep h).
Proof.
  intros Hwf Hn Hy. destruct (sweep_ok h) as (_ & _ & Hs & _); [apply (wf_used h Hwf)|].
  assert (∀ i s, slots h !! i = Some s → dead_slot s = true → u32 (gen s + 1) = gen s + 1 ∧ gen s + 1 ≤ 2 * n) as Hd.
  { intros i s Es Hd. apply dead_slot_true in Hd as [Ho _]. destruct (wf_gen h Hwf i s Es) as [Hg Hodd].
    rewrite bool_decide_eq_true_2 in Hodd by done. apply odd_true in Hodd as [k Ek]. specialize (Hy i s Es).
    rewrite wrap_small by lia. lia. }
  split.
  - intros i s Es. eexists. rewrite Hs, Es. split; [reflexivity|]. case_decide; [|cbn; split; [lia|done]]. cbn. unfold swept.
    destruct (dead_slot s) eqn:Ed; [|split; [lia|done]]. destruct (Hd i s Es Ed) as [E _]. cbn. rewrite E. lia.
  - intros i s. rewrite Hs. intros (s0 & Es & ->)%fmap_Some. pose proof (Hy i s0 Es). case_decide; [|done]. unfold swept.
    destruct (dead_slot s0) eqn:Ed; [|done]. destruct (Hd i s0 Es Ed) as [E ?]. cbn. lia.
Qed.

Lemma same_evolves h h' n : same h h' → young n h → evolves h h' ∧ young n h'.
Proof.
  intros Hs Hy. split.
  - intros i s Es. destruct (same_lookup h h' i s Hs Es) as (s' & ? & ? & ?). exists s'. split; [done|]. split; [lia|done].
  - intros i s Es. destruct (same_lookup h' h i s (same_sym _ _ Hs) Es) as (s' & Es' & _ & <-). by apply (Hy i).
Qed.

(** A collection, complete or not. *)
Lemma collection_ok objects h execs mods :
  wf h → objects_ok objects h →
  ∃ h', collectGarbageLocked objects h execs mods = Ok h' ∧ wf h' ∧ objects_ok objects h' ∧
    ∀ n, n < 2 ^ 30 → young n h → evolves h h' ∧ young n h'.
Proof.
  intros Hwf Hob. destruct (forallb e_complete execs) eqn:Hc.
  - destruct (collect_complete objects h execs mods Hwf Hob Hc) as (h1 & -> & Hwf1 & Hs & _).
    exists (rearm (sweep h1)). split; [done|]. split; [by apply rearm_wf, sweep_wf|].
    split; [exact (sweep_objects objects h h1 Hob Hs Hwf1)|]. intros n Hn Hy. destruct (same_evolves h h1 n Hs Hy) as [He Hy1].
    destruct (sweep_evolves h1 n Hwf1 Hn Hy1) as [He2 Hy2]. split; [by trans h1|exact Hy2].
  - destruct (collect_incomplete objects h execs mods Hwf Hc) as (h1 & -> & Hwf1 & Hs).
    exists (rearm h1). split; [done|]. split; [by apply rearm_wf|]. split; [exact (same_objects objects h h1 Hob Hs)|].
    intros n _ Hy. exact (same_evolves h h1 n Hs Hy).
Qed.

(** * Events *)

(** An operation leaves the heap alone, or allocates once. *)
Lemma RunGC_heap m st mode a b c d e scratch st' v :
  operands_ok m st mode a b c d e scratch → RunGC m st mode a b c d e scratch = Ok (st', v) →
  g_heap st' = g_heap st ∨ room (g_heap st) ∧ ∃ o r, Alloc (g_heap st) o = Ok (g_heap st', r).
Proof.
  intros Hop H.
  assert (∀ o, allocRef st o = Ok (st', v) → room (g_heap st) → room (g_heap st) ∧ ∃ o r, Alloc (g_heap st) o = Ok (g_heap st', r)) as Hal.
  { intros o Ho Hr. unfold allocRef in Ho. go_inv. destruct a0 as [h [ref want]]. go_inv. split; [done|]. cbn. eauto. }
  destruct mode; cbn [RunGC operands_ok] in *;
    unfold allocGC, new_from_segment, init_from_segment, array_fill, array_copy in H;
    go_inv; repeat (case_match; go_inv); try (left; done); try done; right; destruct Hop as [Hroom _]; eauto.
Qed.

(** A second reference to an exception: its object is shared. *)
Lemma Ref_ok st exn params o :
  state_ok st → room (g_heap st) → zlen params < 2 ^ 62 → g_objects st !! exn = Some o → o_type o = None →
  ∃ st' ref, Ref st exn params = Ok (st', ref) ∧ state_ok st' ∧ g_objects st' = <[exn := set_fields o params]> (g_objects st) ∧
    ∃ r, Alloc (g_heap st) exn = Ok (g_heap st', r).
Proof.
  intros Hst Hroom Hp Ho Ht.
  assert (shaped (set_fields o params)) as Hsh by (split; [done|]; cbn; by rewrite Ht).
  pose proof (set_object_ok st exn (set_fields o params) Hst ltac:(eauto) Hsh) as [Hwf Hob Hshs]. cbn [g_heap g_objects set_object] in *.
  destruct (Alloc_ok (g_heap st) exn Hwf Hroom) as (i & h' & g & want & E & Hwf' & _ & _ & (mk & Hs) & _ & _ & Hnew).
  unfold Ref. rewrite Ho, E. cbn [obind]. eexists _, _. split; [reflexivity|]. split; [|eauto]. split; [done| |done].
  intros k q Hq. cbn [g_heap g_objects] in *. unfold obj_at in Hq. destruct (slots h' !! k) as [s|] eqn:Ek; [|done]. cbn in Hq.
  destruct (decide (k = i)) as [->|Hne].
  - assert (q = exn) as -> by (rewrite Hs in Ek; injection Ek as <-; cbn in Hq; congruence).
    rewrite list_lookup_insert_eq by (by eapply lookup_lt_Some). eauto.
  - destruct (Hnew k s Hne Ek) as [Hk| ->]; [|done]. apply (Hob k q). unfold obj_at. by rewrite Hk.
Qed.

Lemma push_exception_ok st params :
  state_ok st → zlen params < 2 ^ 62 → state_ok (mkState (g_objects st ++ [mkObj None 0 params]) (g_heap st) (g_requested st)).
Proof.
  intros [Hwf Hob Hsh] Hp. split; cbn [g_heap g_objects]; [done| |by apply Forall_app; split; [|constructor]].
  intros i p Hi. destruct (Hob i p Hi) as [o Ho]. exists o. by apply lookup_app_l_Some.
Qed.

(** An event keeps the state well typed, and the heap evolves. *)
Lemma step_ok st ev :
  state_ok st → event_ok st ev →
  ∃ st', step st ev = Ok st' ∧ state_ok st' ∧
    ∀ n, 0 ≤ n < 2 ^ 30 → young n (g_heap st) → evolves (g_heap st) (g_heap st') ∧ young (n + 1) (g_heap st').
Proof.
  intros Hst Hev.
  assert (∀ n, 0 ≤ n < 2 ^ 30 → young n (g_heap st) → evolves (g_heap st) (g_heap st) ∧ young (n + 1) (g_heap st)) as Hid.
  { intros n Hn Hy. split; [done|]. intros i s Hs. specialize (Hy i s Hs). lia. }
  assert (∀ h' o r, room (g_heap st) → Alloc (g_heap st) o = Ok (h', r) →
    ∀ n, 0 ≤ n < 2 ^ 30 → young n (g_heap st) → evolves (g_heap st) h' ∧ young (n + 1) h') as Hal.
  { intros h' o r Hr Ho n Hn Hy. destruct (Alloc_evolves (g_heap st) o n (ok_heap st Hst) Hr ltac:(lia) Hy) as (h1 & r1 & E & He).
    assert (h1 = h') as -> by congruence. done. }
  destruct ev as [m mode a b c d e scratch|params|exn params|execs mods]; cbn [step event_ok] in *.
  - destruct Hev as [Hm Hop]. pose proof (RunGC_safe m Hm st mode a b c d e scratch Hst Hop) as Hs.
    destruct (RunGC m st mode a b c d e scratch) as [[st' v]|er| |] eqn:E; cbn in Hs; try done; eexists; (split; [done|]); (split; [done|]); [|done].
    destruct (RunGC_heap _ _ _ _ _ _ _ _ _ _ _ Hop E) as [->|(Hr & o & r & Ho)]; [done|by eapply Hal].
  - eexists. split; [done|]. split; [by apply push_exception_ok|done].
  - destruct Hev as (Hroom & Hp & o & Ho & Ht). destruct (Ref_ok st exn params o Hst Hroom Hp Ho Ht) as (st' & ref & -> & Hst' & _ & r & Hr).
    exists st'. split; [done|]. split; [done|]. by eapply Hal.
  - destruct (collection_ok (g_objects st) (g_heap st) execs mods (ok_heap st Hst) (ok_objects st Hst)) as (h' & E & Hwf' & Hob' & He).
    unfold collect. rewrite E. cbn [obind]. eexists. split; [done|]. split; [by split; [| |apply Hst]|].
    intros n Hn Hy. cbn [g_heap]. destruct (He n ltac:(lia) Hy) as [? Hy']. split; [done|]. intros i s Hs. specialize (Hy' i s Hs). lia.
Qed.

Lemma run_ok evs : ∀ st,
  state_ok st → events_ok st evs →
  ∃ st', run st evs = Ok st' ∧ state_ok st' ∧
    ∀ n, 0 ≤ n → n + zlen evs < 2 ^ 30 → young n (g_heap st) → evolves (g_heap st) (g_heap st') ∧ young (n + zlen evs) (g_heap st').
Proof.
  induction evs as [|ev evs IH]; intros st Hst Hev; cbn [run events_ok] in *.
  - exists st. split; [done|]. split; [done|]. intros n Hn _ Hy. split; [done|]. change (zlen []) with 0. by rewrite Z.add_0_r.
  - destruct Hev as [Hev Hevs]. destruct (step_ok st ev Hst Hev) as (st1 & E1 & Hst1 & He1). rewrite E1. cbn [obind].
    destruct (IH st1 Hst1 (Hevs st1 E1)) as (st2 & E2 & Hst2 & He2). exists st2. split; [done|]. split; [done|].
    intros n Hn Hb Hy. rewrite zlen_cons in *. pose proof (zlen_nonneg evs). destruct (He1 n ltac:(lia) Hy) as [Ha Hy1].
    destruct (He2 (n + 1) ltac:(lia) ltac:(lia) Hy1) as [Hb2 Hy2]. split; [by trans (g_heap st1)|]. by replace (n + (1 + zlen evs)) with (n + 1 + zlen evs) by lia.
Qed.

Lemma events_ok_app evs1 evs2 : ∀ st st1, events_ok st (evs1 ++ evs2) → run st evs1 = Ok st1 → events_ok st evs1 ∧ events_ok st1 evs2.
Proof.
  induction evs1 as [|ev evs1 IH]; intros st st1 Hev E; cbn [app events_ok run] in *; [by injection E as <-|].
  destruct Hev as [Hev Hevs]. destruct (step st ev) as [st'| | |] eqn:Es; cbn [obind] in E; try done.
  destruct (IH st' st1 (Hevs st' eq_refl) E) as [H1 H2]. split; [|done]. split; [done|]. by intros st'' [= <-].
Qed.

Lemma zero_state_ok : state_ok zero_state.
Proof. split; [apply zero_heap_wf| |by constructor]. intros i o Ho. done. Qed.

Lemma zero_young : young 0 (g_heap zero_state).
Proof. intros i s Hs. done. Qed.

(** A word that resolves now and later resolves to one object, while generations
    have not wrapped. *)
Lemma evolves_names h h' n w i j :
  wf h → wf h' → evolves h h' → young n h → young n h' → 2 * n < 2 ^ 30 → slotOf h w = Some i → slotOf h' w = Some j →
  j = i ∧ obj_at h' i = obj_at h i.
Proof.
  intros Hwf Hwf' He Hy Hy' Hn Hi Hj. apply slotOf_Some in Hi as (s & Hs & _ & _ & Hix & Hg); [|by apply wf_len64].
  apply slotOf_Some in Hj as (s' & Hs' & _ & _ & Hjx & Hg'); [|by apply wf_len64]. assert (j = i) as -> by lia. split; [done|].
  destruct (He i s Hs) as (s1 & Hs1 & _ & Ho). assert (s1 = s') as -> by congruence. unfold obj_at. rewrite Hs, Hs'. apply Ho.
  pose proof (wf_gen h Hwf i s Hs) as [? _]. pose proof (wf_gen h' Hwf' i s' Hs') as [? _]. pose proof (Hy i s Hs). pose proof (Hy' i s' Hs').
  rewrite !Z.mod_small in * by lia. congruence.
Qed.

Lemma Deref_slotOf h w p : Deref h w = Ok p → ∃ i, slotOf h w = Some i ∧ obj_at h i = Some p.
Proof.
  unfold Deref. destruct (w =? GCRefNull); [done|]. destruct (slotOf h w) as [i|]; [|done].
  destruct (obj_at h i) as [q|] eqn:E; [|done]. intros [= <-]. eauto.
Qed.

(** * Theorems *)

(** C14. Type safety of the managed heap, over whole histories: starting from a new
    store, any interleaving of GC operations of any modules, throws and collections
    - as long as each has operands its validator accepts and the table has room -
    never crashes the host, and leaves a well-formed heap whose every pointer is
    an object with exactly the words of its type. *)
Theorem history_type_safe evs :
  events_ok zero_state evs → ∃ st, run zero_state evs = Ok st ∧ state_ok st.
Proof. intros Hev. destruct (run_ok evs zero_state zero_state_ok Hev) as (st & E & Hst & _). eauto. Qed.

(** C15. References do not alias: in a history of fewer than [2^29] events, a word
    that names an object at one moment and names one at a later moment names the
    same one, however often slots have been freed and handed out in between - a
    stale reference traps. *)
Theorem reference_never_aliases evs1 evs2 st1 st2 w p1 p2 :
  events_ok zero_state (evs1 ++ evs2) → zlen (evs1 ++ evs2) < 2 ^ 29 →
  run zero_state evs1 = Ok st1 → run st1 evs2 = Ok st2 →
  Deref (g_heap st1) w = Ok p1 → Deref (g_heap st2) w = Ok p2 → p1 = p2.
Proof.
  intros Hev Hn E1 E2 H1 H2. destruct (events_ok_app _ _ _ _ Hev E1) as [Hev1 Hev2].
  rewrite zlen_app in Hn. pose proof (zlen_nonneg evs1). pose proof (zlen_nonneg evs2).
  destruct (run_ok evs1 zero_state zero_state_ok Hev1) as (st1' & E1' & Hst1 & He1). assert (st1' = st1) as -> by congruence.
  destruct (run_ok evs2 st1 Hst1 Hev2) as (st2' & E2' & Hst2 & He2). assert (st2' = st2) as -> by congruence.
  destruct (He1 0 ltac:(lia) ltac:(lia) zero_young) as [_ Hy1]. rewrite Z.add_0_l in Hy1.
  destruct (He2 (zlen evs1) ltac:(lia) ltac:(lia) Hy1) as [He Hy2].
  apply Deref_slotOf in H1 as (i & Hi & Ho1). apply Deref_slotOf in H2 as (j & Hj & Ho2).
  assert (young (zlen evs1 + zlen evs2) (g_heap st1)) as Hy1' by (intros k s Hs; specialize (Hy1 k s Hs); lia).
  destruct (evolves_names (g_heap st1) (g_heap st2) (zlen evs1 + zlen evs2) w i j (ok_heap _ Hst1) (ok_heap _ Hst2) He Hy1' Hy2 ltac:(lia) Hi Hj) as [-> Eo].
  congruence.
Qed.

(** Every collection of the history finds the slot the word names reachable. *)
Fixpoint kept (w : Z) (st : gcState) (evs : list event) : Prop :=
  match evs with
  | [] => True
  | ev :: evs =>
      match ev with
      | EvCollect execs mods =>
          ∃ i, slotOf (g_heap st) w = Some i ∧ reachable (g_objects st) (g_heap st) (root_words execs mods) i
      | _ => True
      end ∧ ∀ st', step st ev = Ok st' → kept w st' evs
  end.

Lemma Deref_keep h h' w p :
  (∀ i, slotOf h w = Some i → slotOf h' w = Some i ∧ obj_at h' i = obj_at h i) → Deref h w = Ok p → Deref h' w = Ok p.
Proof.
  intros Hk. unfold Deref. destruct (w =? GCRefNull); [done|]. destruct (slotOf h w) as [i|]; [|done].
  destruct (Hk i eq_refl) as [-> ->]. done.
Qed.

Lemma collect_keeps objects h execs mods h' w p i :
  wf h → objects_ok objects h → collectGarbageLocked objects h execs mods = Ok h' →
  slotOf h w = Some i → reachable objects h (root_words execs mods) i → Deref h w = Ok p → Deref h' w = Ok p.
Proof.
  intros Hwf Hob E Hi Hr. apply Deref_keep. intros j Hj. assert (j = i) as -> by congruence.
  destruct (forallb e_complete execs) eqn:Hc.
  - destruct (collect_complete objects h execs mods Hwf Hob Hc) as (h1 & E1 & Hwf1 & Hs & Hm). rewrite E1 in E. injection E as <-.
    change (slotOf (rearm (sweep h1)) w) with (slotOf (sweep h1) w). change (obj_at (rearm (sweep h1)) i) with (obj_at (sweep h1) i).
    rewrite sweep_slotOf, sweep_obj_at, (same_obj_at h h1), (same_slotOf h h1) by (done || by (apply wf_len64) || by apply Hm).
    split; [|done]. split; [done|by apply Hm].
  - destruct (collect_incomplete objects h execs mods Hwf Hc) as (h1 & E1 & _ & Hs). rewrite E1 in E. injection E as <-.
    change (obj_at (rearm h1) i) with (obj_at h1 i). rewrite (same_named h h1), (same_obj_at h h1) by done. done.
Qed.

Lemma step_keeps st ev st' w p :
  state_ok st → event_ok st ev → kept w st [ev] → step st ev = Ok st' → Deref (g_heap st) w = Ok p → Deref (g_heap st') w = Ok p.
Proof.
  intros Hst Hev [Hk _] E Hd.
  assert (∀ o h' r, room (g_heap st) → Alloc (g_heap st) o = Ok (h', r) → Deref h' w = Ok p) as Hal.
  { intros o h' [ref want] Hr Ho. destruct (Alloc_slotOf _ _ _ _ _ (ok_heap st Hst) Hr Ho) as (i & _ & _ & _ & Hold & _).
    eapply Deref_keep; [|exact Hd]. auto. }
  destruct ev as [m mode a b c d e scratch|params|exn params|execs mods]; cbn [step event_ok] in *.
  - destruct Hev as [Hm Hop]. destruct (RunGC m st mode a b c d e scratch) as [[st1 v]|er| |] eqn:Er; try done; injection E as <-; [|done].
    destruct (RunGC_heap _ _ _ _ _ _ _ _ _ _ _ Hop Er) as [->|(Hr & o & r & Ho)]; [done|by eapply Hal].
  - by injection E as <-.
  - destruct Hev as (Hroom & Hp & o & Ho & Ht). destruct (Ref_ok st exn params o Hst Hroom Hp Ho Ht) as (st1 & ref & Er & _ & _ & r & Hr).
    rewrite Er in E. injection E as <-. by eapply Hal.
  - destruct Hk as (i & Hi & Hr). unfold collect in E. go_inv. cbn [g_heap].
    by eapply collect_keeps; [apply Hst|apply Hst|..].
Qed.

(** C16. No reference dangles: a word that names an object, and whose slot each
    collection of the history can reach from the roots it is given, still names
    that object at the end, whatever else happens - allocations that grow the table
    and writes that rearrange the object graph included. *)
Theorem reference_survives evs st st' w p :
  state_ok st → events_ok st evs → kept w st evs → run st evs = Ok st' →
  Deref (g_heap st) w = Ok p → Deref (g_heap st') w = Ok p.
Proof.
  revert st. induction evs as [|ev evs IH]; intros st Hst Hev Hk E Hd; cbn [run events_ok kept] in *; [by injection E as <-|].
  destruct Hev as [Hev Hevs], Hk as [Hk Hks]. destruct (step_ok st ev Hst Hev) as (st1 & E1 & Hst1 & _). rewrite E1 in E. cbn [obind] in E.
  apply (IH st1); [done|by apply Hevs|by apply Hks|done|]. by eapply (step_keeps st ev); [..|exact Hd].
Qed.

(** * Runtime types *)

Section supers.
Variable m : ModuleInstance.

(** Type IDs are unsigned. *)
Hypothesis Hids : Forall (λ b, 0 ≤ b < 2 ^ 32) (typeSupers m).

(** [b] is the declared supertype of [a]. *)
Definition super (a b : Z) : Prop := 0 ≤ a ∧ typeSupers m !! Z.to_nat a = Some b ∧ b ≠ NoFunctionTypeID.

Lemma super_range a b : super a b → 0 ≤ a < zlen (typeSupers m).
Proof. intros (H0 & Hs & _). apply lookup_lt_Some in Hs. unfold zlen. lia. Qed.

Lemma walk_finds path : ∀ n a t, chain super a path t → path ≠ [] → (length path ≤ n)%nat → super_walk m n a t = true.
Proof.
  induction path as [|b path IH]; intros n a t Hc Hne Hl; [done|]. destruct Hc as [(H0 & Hs & Hb) Hc]. cbn in Hl.
  destruct n as [|n]; [lia|]. cbn [super_walk]. unfold OutOfRange. pose proof (lookup_lt_Some _ _ _ Hs).
  rewrite (proj2 (Z.leb_gt _ _)) by (unfold zlen; lia). rewrite Hs, (proj2 (Z.eqb_neq _ _)) by done.
  destruct (Z.eqb_spec b t); [done|]. apply IH; [done| |lia]. by intros ->.
Qed.

Lemma walk_sound n : ∀ a t, 0 ≤ a → super_walk m n a t = true → rtc super a t.
Proof.
  induction n as [|n IH]; intros a t Ha Hw; [done|]. cbn [super_walk] in Hw. destruct (OutOfRange a (zlen (typeSupers m))) eqn:Er; [done|].
  destruct (typeSupers m !! Z.to_nat a) as [b|] eqn:Es; [|done]. destruct (Z.eqb_spec b NoFunctionTypeID); [done|].
  assert (super a b) as Hab by done. destruct (Z.eqb_spec b t) as [<-|]; [by apply rtc_once|].
  apply rtc_l with b; [done|]. apply IH; [|done]. by apply (Forall_lookup_1 _ _ _ _ Hids Es).
Qed.

(** The runtime subtype test is the declared relation: it answers true exactly
    when the target is the type itself or reached from it by declared supertypes,
    for every table of supertypes - its loop is long enough for any chain, and ends
    on a cyclic one. *)
Theorem TypeIDIsSubtypeOf_rtc actual target :
  0 ≤ actual → TypeIDIsSubtypeOf m actual target = true ↔ rtc super actual target.
Proof.
  intros Ha. unfold TypeIDIsSubtypeOf. destruct (Z.eqb_spec actual target) as [->|Hne]; [by split|].
  split; [by apply walk_sound|]. intros Hr. destruct (chain_simple super actual target Hr) as (path & Hc & Hnd).
  apply (walk_finds path); [done| |pose proof (chain_length super (zlen (typeSupers m)) actual path target super_range Hc Hnd); unfold zlen in *; lia]. by intros ->.
Qed.
End supers.

(** * A small history *)

(** A struct of a byte, a vector and an i32, an array of i16, and a data segment. *)
Definition demo_struct : FunctionType := CacheFieldSlots (mkFT CompositeKindStruct [ValueTypeI8; ValueTypeV128; ValueTypeI32] None).
Definition demo_array : FunctionType := CacheFieldSlots (mkFT CompositeKindArray [ValueTypeI16] None).
Definition demo_inst : ModuleInstance :=
  mkInst [demo_struct; demo_array] [0; 1] [] [[1; 2; 3; 255; 5]] (λ _, 0) [NoFunctionTypeID; 0; 1].

Lemma demo_inst_ok : module_ok demo_inst.
Proof.
  split; cbn; try done. constructor; [|by constructor]. split; [|done].
  repeat constructor; unfold is_byte; lia.
Qed.

Lemma demo_struct_ok : struct_type demo_struct.
Proof. by vm_compute. Qed.

(** Allocating a struct is an event validation accepts, in any state with room. *)
Definition ev_new : event := EvRun demo_inst GCStructNewDefault 0 0 0 0 0 [].

Lemma ev_new_ok st : room (g_heap st) → event_ok st ev_new.
Proof.
  intros Hr. split; [apply demo_inst_ok|]. cbn. split; [done|]. split; [done|]. split; [done|].
  exists demo_struct. split; [done|apply demo_struct_ok].
Qed.

Definition ref0 : Z := handleFor 0 1.
Definition root0 : list ModRoots := [mkModRoots [] [Some [ref0]]].

(** Allocate a struct, collect it while a table holds it, allocate another. *)
Definition demo_events : list event := [ev_new; EvCollect [] root0; ev_new].

Definition st1 : gcState := Eval vm_compute in match run zero_state [ev_new] with Ok st => st | _ => zero_state end.
Definition st3 : gcState := Eval vm_compute in match run zero_state demo_events with Ok st => st | _ => zero_state end.

Lemma demo_events_ok : events_ok zero_state demo_events.
Proof.
  cbn [demo_events events_ok]. split; [apply ev_new_ok; by right|]. intros s1 E1. vm_compute in E1. injection E1 as <-.
  split; [done|]. intros s2 E2. vm_compute in E2. injection E2 as <-. split; [apply ev_new_ok; by right|]. done.
Qed.

Lemma history_type_safe_witness : ∃ st, run zero_state demo_events = Ok st ∧ state_ok st.
Proof. exact (history_type_safe demo_events demo_events_ok). Defined.

Lemma reference_never_aliases_witness :
  ∃ p1 p2, Deref (g_heap st1) ref0 = Ok p1 ∧ Deref (g_heap st3) ref0 = Ok p2 ∧ p1 = p2.
Proof.
  exists 0%nat, 0%nat. split; [reflexivity|]. split; [reflexivity|].
  refine (reference_never_aliases [ev_new] [EvCollect [] root0; ev_new] st1 st3 ref0 0 0 demo_events_ok _ _ _ _ _); reflexivity.
Defined.

(** With nothing holding the struct the same slot is handed out again, and the old
    reference traps. *)
Example stale_reference_traps :
  match run zero_state [ev_new; EvCollect [] []; ev_new] with
  | Ok st => Deref (g_heap st) ref0 = Err ErrRuntimeCastFailure ∧ Deref (g_heap st) (handleFor 0 3) = Ok 1%nat
  | _ => False
  end.
Proof. vm_compute. done. Qed.

Lemma st1_ok : state_ok st1.
Proof.
  destruct (run_ok [ev_new] zero_state zero_state_ok) as (st & E & Hst & _); [|vm_compute in E; injection E as <-; exact Hst].
  split; [apply ev_new_ok; by right|]. done.
Qed.

Lemma reference_survives_witness : Deref (g_heap st3) ref0 = Ok 0%nat.
Proof.
  refine (reference_survives [EvCollect [] root0; ev_new] st1 st3 ref0 0 st1_ok _ _ _ _); [| |reflexivity|reflexivity].
  - destruct demo_events_ok as [_ H]. apply H. reflexivity.
  - split; [|intros s2 E2; vm_compute in E2; injection E2 as <-; by split].
    exists 0%nat. split; [reflexivity|]. eapply (reach_root _ _ _ ref0); [by left|reflexivity].
Defined.

Lemma TypeIDIsSubtypeOf_rtc_witness : rtc (super demo_inst) 2 0.
Proof.
  refine (proj1 (TypeIDIsSubtypeOf_rtc demo_inst _ 2 0 _) _); [|lia|reflexivity].
  repeat constructor; vm_compute; done.
Defined.

Lemma names0 : names st1 ref0 0 (newGCObject demo_struct 0 4).
Proof. by split. Qed.

(** The signed byte 200 and the low half of the vector. *)
Lemma struct_set_get_witness :
  ∃ st', RunGC demo_inst st1 GCStructSet ref0 0 456 0 0 [] = Ok (st', 0) ∧
    RunGC demo_inst st' GCStructGet ref0 0 1 0 0 [] = Ok (st', 2 ^ 32 - 56).
Proof.
  destruct (struct_set_get demo_inst st1 ref0 0 456 0 _ demo_struct ref0 0 1 0 _ st1_ok names0 eq_refl ltac:(done) names0 ltac:(done) ltac:(done))
    as (st' & E & H).
  exists st'. split; [exact E|]. rewrite decide_True in H by done. rewrite H. reflexivity.
Defined.

Lemma array_new_data_reads_witness :
  ∃ st' ref, RunGC demo_inst st1 GCArrayNewData 1 0 1 2 0 [] = Ok (st', ref) ∧
    RunGC demo_inst st' GCArrayGet ref 1 1 0 0 [] = Ok (st', 1535).
Proof.
  destruct (array_new_data_reads demo_inst st1 1 0 1 2 demo_array ValueTypeI16 [1; 2; 3; 255; 5] demo_inst_ok st1_ok) as (st' & ref & E & _ & _ & _ & H);
    try done; [by right|]. exists st', ref. split; [exact E|]. rewrite (H 1 1) by done. reflexivity.
Defined.

(** Moving two elements of an array up by one, over themselves. *)
Definition st_array : gcState :=
  mkState [mkObj (Some demo_array) 1 [10; 20; 30; 40]] (mkHeap [mkSlot (Some 0%nat) 1 false] 1 [] 1 1024) false.

Lemma st_array_ok : state_ok st_array.
Proof.
  split.
  - split; unfold zlen; cbn; try lia; try apply NoDup_nil_2.
    + intros [|[]] s Hs Hge; cbn in *; try lia; done.
    + intros [|[]] s Hs; cbn in Hs; try done; injection Hs as <-; cbn. by split; [lia|].
    + intros i. split; [by intros ?%elem_of_nil|]. intros (Hi & s & Hs & Ho). destruct (Z.to_nat i) as [|[]]; cbn in Hs; try done. by injection Hs as <-.
  - intros [|[]] o Ho; try done. injection Ho as <-. by eexists.
  - constructor; [|by constructor]. split; [done|]. cbn. split; [by eexists|]. intros st [= <-]. by exists 4.
Qed.

Lemma array_copy_words_witness :
  ∃ st', RunGC demo_inst st_array GCArrayCopy ref0 1 ref0 0 3 [] = Ok (st', 0) ∧
    Fields <$> g_objects st' = [[10; 10; 20; 30]].
Proof.
  assert (names st_array ref0 0 (mkObj (Some demo_array) 1 [10; 20; 30; 40])) as Hn by done.
  destruct (array_copy_words demo_inst st_array ref0 1 ref0 0 3 0 _ 0 _ ValueTypeI16 ValueTypeI16 st_array_ok Hn Hn) as [_ H];
    try (by exists demo_array); try done. destruct (H ltac:(done)) as (ws & E & _). eexists. split; [exact E|].
  vm_compute in E. injection E as E. rewrite <- E. reflexivity.
Defined.

(** * Element segments are not roots *)

(** A module whose passive element segment holds the struct, as a segment whose
    initialiser is [struct.new] does once the module is instantiated. *)
Definition demo_elem_inst : ModuleInstance :=
  mkInst [demo_struct; CacheFieldSlots (mkFT CompositeKindArray [ValueTypeAnyref] None)] [0; 1] [[ref0]] [] (λ _, 0) [].

(** A collection scans the globals and the tables of an instance, not its element
    segments: an object only a segment holds is freed, and an array made from the
    segment afterwards holds a reference that traps. *)
Theorem element_segment_object_lost :
  ∃ st1 st2 st3 arr, run zero_state [ev_new] = Ok st1 ∧ Deref (g_heap st1) ref0 = Ok 0%nat ∧
    collect st1 [] [mkModRoots [] []] = Ok st2 ∧
    RunGC demo_elem_inst st2 GCArrayNewElem 1 0 0 1 0 [] = Ok (st3, arr) ∧
    RunGC demo_elem_inst st3 GCArrayGet arr 0 0 0 0 [] = Ok (st3, ref0) ∧
    RunGC demo_elem_inst st3 GCStructGet ref0 0 0 0 0 [] = Err ErrRuntimeCastFailure.
Proof.
  eexists _, _, _, _. split; [vm_compute; reflexivity|]. split; [vm_compute; reflexivity|].
  split; [vm_compute; reflexivity|]. split; [vm_compute; reflexivity|]. split; vm_compute; reflexivity.
Qed.

Lemma array_access_outcome_witness :
  RunGC demo_inst st_array GCArrayGet ref0 4 0 0 0 [] = Err ErrRuntimeOutOfBoundsArrayAccess ∧
  ∃ x, RunGC demo_inst st_array GCArrayGet ref0 3 0 0 0 [] = Ok (st_array, x).
Proof.
  assert (∀ p o, names st_array ref0 p o → ∃ ty, array_of o ty ∧ high 0 < SlotsForStorageType ty) as Ha.
  { intros p o [Hd Ho]. vm_compute in Hd. injection Hd as <-. injection Ho as <-. exists ValueTypeI16. split; [by exists demo_array|done]. }
  assert (names st_array ref0 0 (mkObj (Some demo_array) 1 [10; 20; 30; 40])) as Hn by done. split.
  - destruct (array_access_outcome demo_inst st_array ref0 4 0 0 st_array_ok ltac:(done) Ha) as (_ & _ & H & _).
    by apply (H _ _ 4 Hn).
  - destruct (array_access_outcome demo_inst st_array ref0 3 0 0 st_array_ok ltac:(done) Ha) as (_ & _ & _ & H).
    by apply (H _ _ 4 Hn).
Defined.
