(* ===== verification/GcHandshake.v ===== *)
(** The stop-the-world handshake around a collection: [GCExecution] and
    [gcController] of [internal/wasm/gc_collect.go].

    Calls in flight ([GCExecution]s, numbered) run on goroutines of their own and
    take the atomic steps below in any order: loads and stores of atomics, and what
    a mutex makes atomic.  A step of a call is [act], which is [None] where the
    goroutine would block.  The list of cells only grows; a cell is its index, and a
    walk from the head goes down from the number of cells it found. *)
From Stdlib Require Import ZArith Lia String.
From stdpp Require Import base list numbers option tactics.
From S2P Require Import Prelude.
Local Open Scope nat_scope.

(** * Program points *)

(** Where [waitOut], or the same wait inside [parkLocked], returns to. *)
Inductive cont : Type := KUnregister | KRun | KSafepoint.

(** The next atomic action of a call.  A walk at [i] has the cells below [i] to
    visit; a [Hand] point has loaded an execution from cell [i]. *)
Inductive pc : Type :=
(* not registered, and registration: publishGCExecution, take *)
| Idle | RegClear | TakeHead | Take (i : nat) | TakeCas (i : nat) | TakeLock | RegCheck
(* in the guest, and Unregister *)
| Running | UnregCas | UnregCheck
(* enterGo, wake, leaveGo *)
| EnterCheck | WakeLock | InGo | LeaveCheck
(* waitOut *)
| WoLock (k : cont) | WoPark (k : cont) | WoBcast (k : cont) | WoTest (k : cont) | WoSleep (k : cont) | WoRelock (k : cont) | WoDone (k : cont)
(* Safepoint, parkLocked *)
| SpLock | SpTop | SpWanted | SpResume | SpQuit | SpColl | SpStart
(* the collector *)
| CPark | CSignal (i : nat) | CSignalHand (i e : nat) | CCheck (i : nat) | CHand (i e : nat) | CWait | CSleep | CRelock
| CScan (i : nat) | CScanHand (i e : nat) | CSweep | CUnpark | CClear (i : nat) | CClearHand (i e : nat) | CBcast | CUnlock
(* RequestGC *)
| ReqCheck | ReqWanted | ReqHead | ReqWalk (i : nat) | ReqHand (i e : nat) | ReqLock | ReqTest | ReqSet (i : nat) | ReqSetHand (i e : nat).

(** * State *)

Record hs := mkHs {
  mu : option nat;
  collecting : bool;
  wanted : bool;
  cells : list (option nat);
  cellof : list nat;
  parked : list bool;
  pause : list bool;
  pcs : list pc;
}.

Definition set_mu (s : hs) (m : option nat) : hs := mkHs m (collecting s) (wanted s) (cells s) (cellof s) (parked s) (pause s) (pcs s).
Definition set_collecting (s : hs) (b : bool) : hs := mkHs (mu s) b (wanted s) (cells s) (cellof s) (parked s) (pause s) (pcs s).
Definition set_wanted (s : hs) (b : bool) : hs := mkHs (mu s) (collecting s) b (cells s) (cellof s) (parked s) (pause s) (pcs s).
Definition set_cells (s : hs) (l : list (option nat)) : hs := mkHs (mu s) (collecting s) (wanted s) l (cellof s) (parked s) (pause s) (pcs s).
Definition set_cellof (s : hs) (t i : nat) : hs := mkHs (mu s) (collecting s) (wanted s) (cells s) (<[t := i]> (cellof s)) (parked s) (pause s) (pcs s).
Definition set_parked (s : hs) (t : nat) (b : bool) : hs := mkHs (mu s) (collecting s) (wanted s) (cells s) (cellof s) (<[t := b]> (parked s)) (pause s) (pcs s).
Definition set_pause (s : hs) (t : nat) (b : bool) : hs := mkHs (mu s) (collecting s) (wanted s) (cells s) (cellof s) (parked s) (<[t := b]> (pause s)) (pcs s).
Definition set_pcs (s : hs) (l : list pc) : hs := mkHs (mu s) (collecting s) (wanted s) (cells s) (cellof s) (parked s) (pause s) l.

Definition goto (s : hs) (t : nat) (p : pc) : hs := set_pcs s (<[t := p]> (pcs s)).

(** [cond.Broadcast]: every sleeper is to take the mutex again. *)
Definition wake_pc (p : pc) : pc :=
  match p with WoSleep k => WoRelock k | CSleep => CRelock | p => p end.
Definition broadcast (s : hs) : hs := set_pcs s (wake_pc <$> pcs s).

Definition acquire (s : hs) (t : nat) (p : pc) : option hs :=
  match mu s with None => Some (goto (set_mu s (Some t)) t p) | Some _ => None end.
Definition release (s : hs) (t : nat) (p : pc) : hs := goto (set_mu s None) t p.

(** [c.exec.Load()]. *)
Definition exec_at (s : hs) (i : nat) : option nat := mjoin (cells s !! i).

(** What a call does next where it has the choice. *)
Inductive choice : Type := Register | Unregister | EnterGo | LeaveGo | Safepoint | RequestGC.

Definition waited (k : cont) : pc := match k with KUnregister => Idle | _ => Running end.

(** * Steps *)

(** [RegisterGCExecutionInto], [publishGCExecution] and [take]. *)
Definition register_step (s : hs) (t : nat) (ch : choice) (p : pc) : option hs :=
  match p with
  | Idle => match ch with Register => Some (goto s t RegClear) | _ => None end
  | RegClear => Some (goto (set_parked s t false) t TakeHead)
  | TakeHead => Some (goto s t (Take (length (cells s))))
  | Take O => Some (goto s t TakeLock)
  | Take (S i) => Some (goto s t (match exec_at s i with None => TakeCas i | Some _ => Take i end))
  | TakeCas i =>
      Some (match exec_at s i with
            | None => goto (set_cellof (set_cells s (<[i := Some t]> (cells s))) t i) t RegCheck
            | Some _ => goto s t (Take i)
            end)
  | TakeLock =>
      match mu s with
      | Some _ => None
      | None => Some (goto (set_cellof (set_cells s (cells s ++ [Some t])) t (length (cells s))) t RegCheck)
      end
  | RegCheck => Some (goto s t (if collecting s then WoLock KRun else Running))
  | _ => None
  end.

(** A call in the guest, or in Go for it, does what it chooses to.  [Safepoint] is a
    parking point of an engine: it reads the call's pause flag, and parks only when the
    flag is set ([parkIfPaused], and [operationKindGCSafepoint] of the interpreter). *)
Definition guest_step (s : hs) (t : nat) (ch : choice) (p : pc) : option hs :=
  match p with
  | Running =>
      match ch with
      | Unregister => Some (goto s t UnregCas)
      | EnterGo => Some (goto (set_parked s t true) t EnterCheck)
      | Safepoint => asked ← pause s !! t; Some (goto s t (if (asked : bool) then SpLock else Running))
      | RequestGC => Some (goto s t ReqCheck)
      | Register | LeaveGo => None
      end
  | InGo =>
      match ch with
      | LeaveGo => Some (goto (set_parked s t false) t LeaveCheck)
      | Unregister => Some (goto s t UnregCas)
      | _ => None
      end
  | _ => None
  end.

(** [Unregister]. *)
Definition unregister_step (s : hs) (t : nat) (p : pc) : option hs :=
  match p with
  | UnregCas =>
      i ← cellof s !! t;
      Some (if decide (exec_at s i = Some t) then goto (set_cells s (<[i := None]> (cells s))) t UnregCheck else goto s t Idle)
  | UnregCheck => Some (goto s t (if collecting s then WoLock KUnregister else Idle))
  | _ => None
  end.

(** [enterGo], [wake] and [leaveGo], once the parked flag has been stored. *)
Definition go_step (s : hs) (t : nat) (p : pc) : option hs :=
  match p with
  | EnterCheck => Some (goto s t (if collecting s then WakeLock else InGo))
  | WakeLock => match mu s with Some _ => None | None => Some (goto (broadcast s) t InGo) end
  | LeaveCheck => Some (goto s t (if collecting s then WoLock KRun else Running))
  | _ => None
  end.

(** [waitOut], and the wait of [parkLocked]. *)
Definition wait_step (s : hs) (t : nat) (p : pc) : option hs :=
  match p with
  | WoLock k => acquire s t (WoPark k)
  | WoPark k => Some (goto (set_parked s t true) t (WoBcast k))
  | WoBcast k => Some (goto (broadcast s) t (WoTest k))
  | WoTest k => Some (if collecting s then release s t (WoSleep k) else goto s t (WoDone k))
  | WoSleep _ => None
  | WoRelock k => acquire s t (WoTest k)
  | WoDone k =>
      let s := set_parked s t false in
      Some (match k with KSafepoint => goto s t SpResume | _ => release s t (waited k) end)
  | _ => None
  end.

(** [Safepoint] and [parkLocked], up to the decision to collect. *)
Definition safepoint_step (s : hs) (t : nat) (p : pc) : option hs :=
  match p with
  | SpLock => acquire s t SpTop
  | SpTop => Some (goto s t (if collecting s then WoPark KSafepoint else SpWanted))
  | SpResume => Some (goto (set_pause s t false) t SpTop)
  | SpWanted => Some (goto s t (if wanted s then SpColl else SpQuit))
  | SpQuit => Some (release (set_pause s t false) t Running)
  | SpColl => Some (goto (set_wanted s false) t SpStart)
  | SpStart => Some (goto (set_collecting s true) t CPark)
  | _ => None
  end.

(** The collector: the rest of [parkLocked], with [othersParkedLocked] and the walk of [collectGarbageLocked] over the calls. *)
Definition collector_step (s : hs) (t : nat) (p : pc) : option hs :=
  match p with
  | CPark => Some (goto (set_parked s t true) t (CSignal (length (cells s))))
  | CSignal O => Some (goto s t (CCheck (length (cells s))))
  | CSignal (S i) =>
      Some (goto s t (match exec_at s i with Some e => if decide (e = t) then CSignal i else CSignalHand i e | None => CSignal i end))
  | CSignalHand i e => Some (goto (set_pause s e true) t (CSignal i))
  | CCheck O => Some (goto s t (CScan (length (cells s))))
  | CCheck (S i) =>
      Some (goto s t (match exec_at s i with Some e => if decide (e = t) then CCheck i else CHand i e | None => CCheck i end))
  | CHand i e => b ← parked s !! e; Some (goto s t (if (b : bool) then CCheck i else CWait))
  | CWait => Some (release s t CSleep)
  | CSleep => None
  | CRelock => acquire s t (CCheck (length (cells s)))
  | CScan O => Some (goto s t CSweep)
  | CScan (S i) => Some (goto s t (match exec_at s i with Some e => CScanHand i e | None => CScan i end))
  | CScanHand i _ => Some (goto s t (CScan i))
  | CSweep => Some (goto (set_collecting s false) t CUnpark)
  | CUnpark => Some (goto (set_parked s t false) t (CClear (length (cells s))))
  | CClear O => Some (goto s t CBcast)
  | CClear (S i) => Some (goto s t (match exec_at s i with Some e => CClearHand i e | None => CClear i end))
  | CClearHand i e => Some (goto (set_pause s e false) t (CClear i))
  | CBcast => Some (goto (broadcast s) t CUnlock)
  | CUnlock => Some (release s t Running)
  | _ => None
  end.

(** [RequestGC]. *)
Definition request_step (s : hs) (t : nat) (p : pc) : option hs :=
  match p with
  | ReqCheck => Some (goto s t (if collecting s then Running else ReqWanted))
  | ReqWanted => Some (goto s t (if wanted s then ReqHead else ReqLock))
  | ReqHead => Some (goto s t (ReqWalk (length (cells s))))
  | ReqWalk O => Some (goto s t Running)
  | ReqWalk (S i) => Some (goto s t (match exec_at s i with Some e => ReqHand i e | None => ReqWalk i end))
  | ReqHand i e => Some (goto (set_pause s e true) t (ReqWalk i))
  | ReqLock => acquire s t ReqTest
  | ReqTest =>
      Some (if wanted s || collecting s then release s t Running
            else goto (set_wanted s true) t (ReqSet (length (cells s))))
  | ReqSet O => Some (release s t Running)
  | ReqSet (S i) => Some (goto s t (match exec_at s i with Some e => ReqSetHand i e | None => ReqSet i end))
  | ReqSetHand i e => Some (goto (set_pause s e true) t (ReqSet i))
  | _ => None
  end.

(** One atomic step of the call [t]. *)
Definition act (s : hs) (t : nat) (ch : choice) : option hs :=
  p ← pcs s !! t;
  match p with
  | Idle | RegClear | TakeHead | Take _ | TakeCas _ | TakeLock | RegCheck => register_step s t ch p
  | Running | InGo => guest_step s t ch p
  | UnregCas | UnregCheck => unregister_step s t p
  | EnterCheck | WakeLock | LeaveCheck => go_step s t p
  | WoLock _ | WoPark _ | WoBcast _ | WoTest _ | WoSleep _ | WoRelock _ | WoDone _ => wait_step s t p
  | SpLock | SpTop | SpResume | SpWanted | SpQuit | SpColl | SpStart => safepoint_step s t p
  | CPark | CSignal _ | CSignalHand _ _ | CCheck _ | CHand _ _ | CWait | CSleep | CRelock | CScan _ | CScanHand _ _ | CSweep | CUnpark | CClear _ | CClearHand _ _ | CBcast | CUnlock => collector_step s t p
  | ReqCheck | ReqWanted | ReqHead | ReqWalk _ | ReqHand _ _ | ReqLock | ReqTest | ReqSet _ | ReqSetHand _ _ => request_step s t p
  end.

(** [n] calls, none registered, no cell yet. *)
Definition start (n : nat) : hs :=
  mkHs None false false [] (replicate n 0) (replicate n false) (replicate n false) (replicate n Idle).

Inductive steps (n : nat) : hs → Prop :=
| steps_start : steps n (start n)
| steps_act s t ch s' : steps n s → act s t ch = Some s' → steps n s'.
