(* ===== verification/GcStop.v ===== *)
(** The stop-the-world handshake stops the world: the invariant of [GcHandshake]
    under every interleaving, and what it means for a collection. *)
From Stdlib Require Import ZArith Lia String.
From stdpp Require Import base list numbers option tactics.
From S2P Require Import Prelude GcHandshake.
Local Open Scope nat_scope.

(** * What a program point says *)

(** The mutex is held. *)
Definition holds (p : pc) : bool :=
  match p with
  | WoPark _ | WoBcast _ | WoTest _ | WoDone _ | SpTop | SpWanted | SpResume | SpQuit | SpColl | SpStart
  | CPark | CSignal _ | CSignalHand _ _ | CCheck _ | CHand _ _ | CWait | CScan _ | CScanHand _ _ | CSweep
  | CUnpark | CClear _ | CClearHand _ _ | CBcast | CUnlock | ReqTest | ReqSet _ | ReqSetHand _ _ => true
  | _ => false
  end.

(** The call is the collector, and a collection is under way. *)
Definition coll (p : pc) : bool :=
  match p with
  | CPark | CSignal _ | CSignalHand _ _ | CCheck _ | CHand _ _ | CWait | CSleep | CRelock | CScan _ | CScanHand _ _ | CSweep => true
  | _ => false
  end.

(** The mutex is held and no collection is under way. *)
Definition quiet (p : pc) : bool :=
  match p with
  | SpWanted | SpColl | SpStart | SpResume | SpQuit | WoDone _ | CUnpark | CClear _ | CClearHand _ _ | CBcast | CUnlock => true
  | _ => false
  end.

(** The call is in its cell. *)
Definition registered (p : pc) : bool :=
  match p with
  | Idle | RegClear | TakeHead | Take _ | TakeCas _ | TakeLock | UnregCheck => false
  | WoLock k | WoPark k | WoBcast k | WoTest k | WoSleep k | WoRelock k | WoDone k => match k with KUnregister => false | _ => true end
  | _ => true
  end.

(** [Unregister] has emptied the cell and not returned. *)
Definition leaving (p : pc) : bool :=
  match p with
  | UnregCheck => true
  | WoLock KUnregister | WoPark KUnregister | WoBcast KUnregister | WoTest KUnregister | WoSleep KUnregister
  | WoRelock KUnregister | WoDone KUnregister => true
  | _ => false
  end.

Definition hooked (p : pc) : bool := registered p || leaving p.

(** The call may be running guest code, or allocating: its stack moves. *)
Definition active (p : pc) : bool :=
  match p with
  | Running | SpLock | ReqCheck | ReqWanted | ReqHead | ReqWalk _ | ReqHand _ _ | ReqLock => true
  | _ => false
  end.

Definition unparked (p : pc) : bool :=
  match p with
  | Running | SpLock | ReqCheck | ReqWanted | ReqHead | ReqWalk _ | ReqHand _ _ | ReqLock | ReqTest | ReqSet _ | ReqSetHand _ _
  | SpTop | SpWanted | SpResume | SpQuit | SpColl | SpStart | CClear _ | CClearHand _ _ | CBcast | CUnlock
  | RegCheck | TakeHead | Take _ | TakeCas _ | TakeLock | LeaveCheck => true
  | _ => false
  end.

Definition resting (p : pc) : bool :=
  match p with
  | InGo | EnterCheck | WakeLock | WoBcast _ | WoTest _ | WoSleep _ | WoRelock _
  | CSignal _ | CSignalHand _ _ | CCheck _ | CHand _ _ | CWait | CSleep | CRelock | CScan _ | CScanHand _ _ | CSweep | CUnpark => true
  | _ => false
  end.

(** The call will broadcast, or show the collector something new, before it rests. *)
Definition waker (p : pc) : bool :=
  match p with
  | RegCheck | Running | UnregCas | UnregCheck | EnterCheck | WakeLock | LeaveCheck | WoLock _ | WoPark _ | WoBcast _
  | SpLock | SpTop | SpResume | SpQuit
  | ReqCheck | ReqWanted | ReqHead | ReqWalk _ | ReqHand _ _ | ReqLock | ReqTest | ReqSet _ | ReqSetHand _ _ => true
  | _ => false
  end.

(** The execution the collection has in hand. *)
Definition in_hand (p : pc) : option nat :=
  match p with CSignalHand _ e | CHand _ e | CScanHand _ e => Some e | _ => None end.

(** The cells the collector's check has still to pass. *)
Definition to_pass (p : pc) : option (nat * option nat) :=
  match p with
  | CCheck i => Some (i, None)
  | CHand i e => Some (i, Some e)
  | CScan _ | CScanHand _ _ | CSweep => Some (0, None)
  | _ => None
  end.

(** The call may come to a parking point of its own, or is on its way from one. *)
Definition at_large (p : pc) : bool := active p || match p with ReqTest | ReqSet _ | ReqSetHand _ _ => true | _ => false end.

(** The cells whose calls the collector has still to ask, and the one it is asking. *)
Definition to_ask (p : pc) : option (nat * option nat) :=
  match p with
  | CSignal i => Some (i, None)
  | CSignalHand i e => Some (i, Some e)
  | CCheck _ | CHand _ _ | CWait | CSleep | CRelock | CScan _ | CScanHand _ _ | CSweep => Some (0, None)
  | _ => None
  end.

(** The cells a registration still means to try. *)
Definition taking (p : pc) : option nat :=
  match p with Take i => Some i | TakeCas i => Some (S i) | _ => None end.

(** The collector waits for others to stop. *)
Definition waiting (p : pc) : bool := match p with CWait | CSleep => true | _ => false end.

(** The call sleeps on the condition variable. *)
Definition asleep (p : pc) : bool := match p with WoSleep _ | CSleep => true | _ => false end.

(** A collection is over, and its broadcast is still to come. *)
Definition ending (p : pc) : bool := match p with CUnpark | CClear _ | CClearHand _ _ | CBcast => true | _ => false end.

(** * The invariant *)

(** What a call's point says of the state. *)
Record local (s : hs) (t : nat) (p : pc) : Prop := {
  l_mu : holds p = true ↔ mu s = Some t;
  l_coll : coll p = true → collecting s = true;
  l_quiet : quiet p = true → collecting s = false;
  l_unparked : unparked p = true → parked s !! t = Some false;
  l_resting : resting p = true → parked s !! t = Some true;
  l_cell : registered p = true → ∃ i, cellof s !! t = Some i ∧ cells s !! i = Some (Some t);
  l_take : ∀ i, taking p = Some i → i ≤ length (cells s);
}.

Record inv (s : hs) : Prop := {
  i_len : length (cellof s) = length (pcs s) ∧ length (parked s) = length (pcs s) ∧ length (pause s) = length (pcs s);
  i_local : ∀ t p, pcs s !! t = Some p → local s t p;
  i_occupied : ∀ i t, cells s !! i = Some (Some t) → cellof s !! t = Some i ∧ ∃ p, pcs s !! t = Some p ∧ registered p = true;
  i_unique : ∀ t u p q, pcs s !! t = Some p → pcs s !! u = Some q → coll p = true → coll q = true → t = u;
  i_someone : collecting s = true → ∃ t p, pcs s !! t = Some p ∧ coll p = true;
  i_hand : ∀ c p e, pcs s !! c = Some p → in_hand p = Some e → ∃ q, pcs s !! e = Some q ∧ hooked q = true;
  i_passed : ∀ c p i h e q,
    pcs s !! c = Some p → to_pass p = Some (i, h) → pcs s !! e = Some q → e ≠ c → active q = true →
    ∃ j, cellof s !! e = Some j ∧ (j < i ∨ j = i ∧ h = Some e);
  i_asked : ∀ c p i h e q,
    pcs s !! c = Some p → to_ask p = Some (i, h) → pcs s !! e = Some q → e ≠ c → at_large q = true →
    pause s !! e = Some true ∨ h = Some e ∨ ∃ j, cellof s !! e = Some j ∧ j < i;
  i_wake : ∀ c p, pcs s !! c = Some p → waiting p = true → ∃ e q, e ≠ c ∧ pcs s !! e = Some q ∧ waker q = true;
  i_owner : ∀ t, mu s = Some t → is_Some (pcs s !! t);
  i_sleep : ∀ t p, pcs s !! t = Some p → asleep p = true → collecting s = true ∨ ∃ c q, pcs s !! c = Some q ∧ ending q = true;
}.

Lemma holds_unique s t u p q :
  inv s → pcs s !! t = Some p → pcs s !! u = Some q → holds p = true → holds q = true → t = u.
Proof.
  intros Hinv Hp Hq H1 H2. apply (l_mu _ _ _ (i_local s Hinv t p Hp)) in H1. apply (l_mu _ _ _ (i_local s Hinv u q Hq)) in H2. congruence.
Qed.

(** ** Waking *)

Lemma wake_kept p :
  holds (wake_pc p) = holds p ∧ coll (wake_pc p) = coll p ∧ quiet (wake_pc p) = quiet p ∧ registered (wake_pc p) = registered p ∧
  hooked (wake_pc p) = hooked p ∧ active (wake_pc p) = active p ∧ unparked (wake_pc p) = unparked p ∧ resting (wake_pc p) = resting p ∧
  waker (wake_pc p) = waker p ∧ in_hand (wake_pc p) = in_hand p ∧ to_pass (wake_pc p) = to_pass p ∧ taking (wake_pc p) = taking p ∧
  at_large (wake_pc p) = at_large p ∧ to_ask (wake_pc p) = to_ask p.
Proof. by destruct p; try destruct k. Qed.

(** Waking the sleepers keeps the invariant. *)
Lemma broadcast_inv s : inv s → inv (broadcast s).
Proof.
  intros [Hlen Hloc Hocc Huni Hsome Hhand Hpass Hask Hwake Howner Hsleep].
  assert (∀ t p, pcs (broadcast s) !! t = Some p → ∃ p0, pcs s !! t = Some p0 ∧ p = wake_pc p0) as Hinv.
  { intros t p. cbn. rewrite list_lookup_fmap. by intros (p0 & ? & ->)%fmap_Some; eauto. }
  assert (∀ t p, pcs s !! t = Some p → pcs (broadcast s) !! t = Some (wake_pc p)) as Hfwd.
  { intros t p Hp. cbn. by rewrite list_lookup_fmap, Hp. }
  split; cbn [mu collecting cells cellof parked pause pcs broadcast set_pcs].
  - by rewrite length_fmap.
  - intros t p (p0 & Hp0 & ->)%Hinv. destruct (Hloc t p0 Hp0). destruct (wake_kept p0) as (E1 & E2 & E3 & E4 & _ & _ & E5 & E6 & _ & _ & _ & E7 & _).
    split; cbn; by rewrite ?E1, ?E2, ?E3, ?E4, ?E5, ?E6, ?E7.
  - intros i t Hi. destruct (Hocc i t Hi) as (? & p & Hp & Hr). split; [done|]. exists (wake_pc p). split; [by apply Hfwd|].
    by destruct (wake_kept p) as (_ & _ & _ & -> & _).
  - intros t u p q (p0 & Hp & ->)%Hinv (q0 & Hq & ->)%Hinv. destruct (wake_kept p0) as (_ & -> & _), (wake_kept q0) as (_ & -> & _). eauto.
  - intros Hc. destruct (Hsome Hc) as (t & p & Hp & Hcp). exists t, (wake_pc p). split; [by apply Hfwd|].
    by destruct (wake_kept p) as (_ & -> & _).
  - intros c p e (p0 & Hp & ->)%Hinv. destruct (wake_kept p0) as (_ & _ & _ & _ & _ & _ & _ & _ & _ & -> & _). intros He.
    destruct (Hhand c p0 e Hp He) as (q & Hq & Hh). exists (wake_pc q). split; [by apply Hfwd|]. by destruct (wake_kept q) as (_ & _ & _ & _ & -> & _).
  - intros c p i h e q (p0 & Hp & ->)%Hinv. destruct (wake_kept p0) as (_ & _ & _ & _ & _ & _ & _ & _ & _ & _ & -> & _).
    intros Hi (q0 & Hq & ->)%Hinv. destruct (wake_kept q0) as (_ & _ & _ & _ & _ & -> & _). eauto.
  - intros c p i h e q (p0 & Hp & ->)%Hinv. destruct (wake_kept p0) as (_ & _ & _ & _ & _ & _ & _ & _ & _ & _ & _ & _ & _ & ->).
    intros Hi (q0 & Hq & ->)%Hinv. destruct (wake_kept q0) as (_ & _ & _ & _ & _ & _ & _ & _ & _ & _ & _ & _ & -> & _). eauto.
  - intros c p (p0 & Hp & ->)%Hinv Hw. destruct p0; try done; try (by destruct k). destruct (Hwake c CWait Hp eq_refl) as (e & q & ? & Hq & ?).
    exists e, (wake_pc q). split; [done|]. split; [by apply Hfwd|]. by destruct (wake_kept q) as (_ & _ & _ & _ & _ & _ & _ & _ & -> & _).
  - intros t Ht. destruct (Howner t Ht) as [p Hp]. eauto.
  - intros t p (p0 & _ & ->)%Hinv. by destruct p0.
Qed.

(** * Steps *)

(** A step, without the waking that goes with it. *)
Definition act_plain (s : hs) (t : nat) (ch : choice) : option hs :=
  match pcs s !! t with
  | Some WakeLock => match mu s with Some _ => None | None => Some (goto s t InGo) end
  | Some (WoBcast k) => Some (goto s t (WoTest k))
  | Some CBcast => Some (goto s t CUnlock)
  | _ => act s t ch
  end.

(** The steps that wake the sleepers. *)
Definition wakes (p : pc) : bool := match p with WakeLock | WoBcast _ | CBcast => true | _ => false end.

(** Every step is one without waking, possibly from the state with the sleepers
    woken. *)
Lemma act_is_plain s t ch s' :
  inv s → act s t ch = Some s' →
  ∃ s1 p, inv s1 ∧ pcs s1 !! t = Some p ∧ act_plain s1 t ch = Some s' ∧ (wakes p = true → ∀ c q, pcs s1 !! c = Some q → asleep q = false).
Proof.
  intros Hinv Hact. destruct (pcs s !! t) as [p|] eqn:Hp; [|unfold act in Hact; by rewrite Hp in Hact].
  assert (∀ p, pcs s !! t = Some p → pcs (broadcast s) !! t = Some (wake_pc p)) as Hw.
  { intros q Hq. cbn. by rewrite list_lookup_fmap, Hq. }
  assert (∀ c q, pcs (broadcast s) !! c = Some q → asleep q = false) as Hno.
  { intros c q Hc. cbn in Hc. rewrite list_lookup_fmap in Hc. by apply fmap_Some in Hc as ([] & _ & ->). }
  destruct p; try (eexists s, _; split; [done|]; split; [exact Hp|]; split; [unfold act_plain; by rewrite Hp|done]);
    eexists (broadcast s), _; (split; [by apply broadcast_inv|]); (split; [exact (Hw _ Hp)|]); (split; [|done]);
    unfold act_plain; rewrite (Hw _ Hp); cbn [wake_pc];
    unfold act in Hact; rewrite Hp in Hact; exact Hact.
Qed.

(** Case analysis on the step a call takes. *)
Ltac step_cases :=
  match goal with
  | Hact : act_plain ?s ?t ?ch = Some ?s', Hp : pcs ?s !! ?t = Some ?p |- _ =>
      unfold act_plain, act in Hact; rewrite Hp in Hact; unfold mbind, option_bind in Hact;
      destruct p; cbn beta iota in Hact;
      unfold register_step, guest_step, unregister_step, go_step, wait_step, safepoint_step, collector_step, request_step, acquire, release in Hact;
      unfold mbind, option_bind in Hact; cbn beta iota in Hact;
      repeat (match type of Hact with
              | context [match ?x with _ => _ end] =>
                  lazymatch x with context [match _ with _ => _ end] => fail | _ => let E := fresh "E" in destruct x eqn:E end
              end; cbn beta iota in Hact);
      try discriminate Hact; injection Hact as <-
  end.

(** Case analysis on whether a call looked up after a step is the one that took it. *)
Ltac pcs_case :=
  repeat match goal with
  | H : pcs _ !! _ = Some _ |- _ => progress cbn in H
  | H : <[?t := ?p]> (pcs ?s) !! ?u = Some ?q |- _ =>
      apply list_lookup_insert_Some in H; destruct H as [(<- & <- & _)|(? & H)]
  end.

Section step.
Variables (s : hs) (t : nat) (ch : choice) (s' : hs) (p : pc).
Hypothesis Hinv : inv s.
Hypothesis Hp : pcs s !! t = Some p.
Hypothesis Hact : act_plain s t ch = Some s'.
Hypothesis Hwoke : wakes p = true → ∀ c q, pcs s !! c = Some q → asleep q = false.

Lemma act_len : length (cellof s') = length (pcs s') ∧ length (parked s') = length (pcs s') ∧ length (pause s') = length (pcs s').
Proof. destruct (i_len s Hinv) as (H1 & H2 & H3). step_cases; cbn; rewrite ?length_insert; done. Qed.

Lemma exec_at_None i : i < length (cells s) → exec_at s i = None → cells s !! i = Some None.
Proof. intros Hi. unfold exec_at. destruct (lookup_lt_is_Some_2 (cells s) i Hi) as [x Hx]. rewrite Hx. cbn. by intros ->. Qed.

Lemma exec_at_Some i e : exec_at s i = Some e → cells s !! i = Some (Some e).
Proof. unfold exec_at. destruct (cells s !! i) as [x|]; [|done]. cbn. by intros ->. Qed.

Lemma act_local_own q : pcs s' !! t = Some q → local s' t q.
Proof.
  pose proof (i_local s Hinv t p Hp) as [L1 L2 L3 L4 L5 L6 L7]. pose proof (lookup_lt_Some _ _ _ Hp) as Hlt.
  destruct (i_len s Hinv) as (Hl1 & Hl2 & Hl3).
  step_cases; intros Hq; cbn in Hq; rewrite list_lookup_insert_eq in Hq by done; injection Hq as <-; try (match goal with k : cont |- _ => destruct k end); cbn in L1, L2, L3, L4, L5, L6, L7.
  all: split; cbn; rewrite ?list_lookup_insert_eq by congruence; try done.
  all: try (first [assumption | intuition congruence | by apply L6 | intros j [= <-]; try specialize (L7 _ eq_refl); lia]).
  - intros _. exists i. split; [done|]. apply list_lookup_insert_eq. by apply (L7 (S i)).
  - intros _. eexists. split; [done|]. by apply list_lookup_middle.
Qed.

(** The step of another call. *)
Lemma act_local_other u q : u ≠ t → pcs s' !! u = Some q → local s' u q.
Proof.
  intros Hne. pose proof (i_local s Hinv t p Hp) as [L1 L2 L3 L4 L5 L6 L7]. pose proof (i_occupied s Hinv) as Hocc.
  pose proof (i_unique s Hinv) as Huni.
  step_cases; intros Hq; cbn in Hq; rewrite list_lookup_insert_ne in Hq by done; destruct (i_local s Hinv u q Hq) as [M1 M2 M3 M4 M5 M6 M7];
    try (match goal with k : cont |- _ => destruct k end); cbn in L1, L2, L3, L4, L5, L6, L7.
  all: split; cbn; rewrite ?list_lookup_insert_ne by done; try done.
  all: try (first [assumption | intuition congruence]).
  all: rewrite ?length_insert, ?length_app; try (intros j Hj; specialize (M7 j Hj); lia).
  - intros Hr. destruct (M6 Hr) as (j & Hj & Hc). exists j. split; [done|]. rewrite list_lookup_insert_ne; [done|]. intros ->.
    assert (exec_at s j = Some u) by (unfold exec_at; by rewrite Hc). congruence.
  - intros Hr. destruct (M6 Hr) as (j & Hj & Hc). exists j. split; [done|]. by apply lookup_app_l_Some.
  - intros Hr. destruct (M6 Hr) as (j & Hj & Hc). exists j. split; [done|]. rewrite list_lookup_insert_ne; [done|]. intros ->.
    assert (exec_at s j = Some u) by (unfold exec_at; by rewrite Hc). congruence.
  - intros Hq'. assert (holds q = true) as Hh by (by destruct q). apply M1 in Hh. assert (mu s = Some t) by (by apply L1). congruence.
  - intros Hq'. exfalso. apply Hne. by apply (Huni u t q CSweep).
Qed.

Lemma act_occupied i u : cells s' !! i = Some (Some u) → cellof s' !! u = Some i ∧ ∃ q, pcs s' !! u = Some q ∧ registered q = true.
Proof.
  pose proof (i_local s Hinv t p Hp) as [L1 L2 L3 L4 L5 L6 L7]. pose proof (i_occupied s Hinv) as Hocc. pose proof (lookup_lt_Some _ _ _ Hp) as Hlt.
  destruct (i_len s Hinv) as (Hl1 & Hl2 & Hl3).
  step_cases; try (match goal with k : cont |- _ => destruct k end); cbn in L1, L2, L3, L4, L5, L6, L7 |- *; intros Hi.
  all: try (destruct (Hocc i u Hi) as (Hc & q & Hq & Hr); split; [done|]; destruct (decide (u = t)) as [->|Hne];
            [first [exfalso; rewrite Hp in Hq; injection Hq as <-; discriminate Hr
                   |rewrite list_lookup_insert_eq by done; eexists; split; [reflexivity|]; (done || congruence)]
            |rewrite list_lookup_insert_ne by done; eauto]).
  - assert (∀ j, cells s !! j ≠ Some (Some t)) as Hno.
    { intros j Hj. destruct (Hocc j t Hj) as (_ & q & Hq & Hr). rewrite Hp in Hq. injection Hq as <-. discriminate Hr. }
    apply list_lookup_insert_Some in Hi as [(-> & [= <-] & _)|(Hij & Hi)].
    + rewrite !list_lookup_insert_eq by congruence. eauto.
    + destruct (Hocc i u Hi) as (Hc & q & Hq & Hr). assert (u ≠ t) by (intros ->; by apply (Hno i)).
      rewrite !list_lookup_insert_ne by done. eauto.
  - assert (∀ j, cells s !! j ≠ Some (Some t)) as Hno.
    { intros j Hj. destruct (Hocc j t Hj) as (_ & q & Hq & Hr). rewrite Hp in Hq. injection Hq as <-. discriminate Hr. }
    apply lookup_app_Some in Hi as [Hi|[Hge Hi]].
    + destruct (Hocc i u Hi) as (Hc & q & Hq & Hr). assert (u ≠ t) by (intros ->; by apply (Hno i)).
      rewrite !list_lookup_insert_ne by done. eauto.
    + destruct (i - length (cells s)) as [|[]] eqn:Ei; try done. injection Hi as <-. assert (i = length (cells s)) as -> by lia.
      rewrite !list_lookup_insert_eq by congruence. eauto.
  - apply list_lookup_insert_Some in Hi as [(_ & ? & _)|(Hij & Hi)]; [done|]. destruct (Hocc i u Hi) as (Hc & q & Hq & Hr).
    split; [done|]. assert (u ≠ t) by congruence. rewrite list_lookup_insert_ne by done. eauto.
  - exfalso. destruct (L6 eq_refl) as (j & Hj & Hc). assert (exec_at s j = Some t) by (unfold exec_at; by rewrite Hc). congruence.
Qed.

Lemma act_unique u v q r : pcs s' !! u = Some q → pcs s' !! v = Some r → coll q = true → coll r = true → u = v.
Proof.
  pose proof (i_unique s Hinv) as Huni. pose proof (i_someone s Hinv) as Hsome. pose proof (i_local s Hinv) as Hloc.
  pose proof (l_quiet _ _ _ (i_local s Hinv t p Hp)) as L3.
  step_cases; try (match goal with k : cont |- _ => destruct k end); intros Hq Hr Hcq Hcr; pcs_case; try done.
  all: try (first [by eapply Huni | symmetry; by eapply Huni]).
  - exfalso. pose proof (l_coll _ _ _ (Hloc u q Hq) Hcq). specialize (L3 eq_refl). congruence.
  - exfalso. pose proof (l_coll _ _ _ (Hloc v r Hr) Hcr). specialize (L3 eq_refl). congruence.
Qed.

Lemma act_someone : collecting s' = true → ∃ u q, pcs s' !! u = Some q ∧ coll q = true.
Proof.
  pose proof (i_someone s Hinv) as Hsome. pose proof (lookup_lt_Some _ _ _ Hp) as Hlt.
  assert (∀ p', coll p' = coll p → collecting s = true → ∃ u q, <[t:=p']> (pcs s) !! u = Some q ∧ coll q = true) as Hkeep.
  { intros p' E Hc. destruct (Hsome Hc) as (u & q & Hq & Hcq). destruct (decide (u = t)) as [->|Hne].
    - exists t, p'. rewrite list_lookup_insert_eq by done. split; [done|]. rewrite E. congruence.
    - exists u, q. by rewrite list_lookup_insert_ne. }
  step_cases; try (match goal with k : cont |- _ => destruct k end); cbn; intros Hc.
  all: try congruence; try (by apply Hkeep).
  all: (eexists t, _; rewrite list_lookup_insert_eq by done; split; [reflexivity|done]).
Qed.

Lemma act_hand c q e : pcs s' !! c = Some q → in_hand q = Some e → ∃ r, pcs s' !! e = Some r ∧ hooked r = true.
Proof.
  pose proof (i_hand s Hinv) as Hhand. pose proof (lookup_lt_Some _ _ _ Hp) as Hlt. pose proof (i_local s Hinv) as Hloc.
  pose proof (i_local s Hinv t p Hp) as [L1 L2 L3 L4 L5 L6 L7]. pose proof (i_occupied s Hinv) as Hocc.
  assert (∀ p', (hooked p = true → hooked p' = true) → ∀ r, pcs s !! e = Some r → hooked r = true → ∃ r, <[t:=p']> (pcs s) !! e = Some r ∧ hooked r = true) as Hkeep.
  { intros p' E r Hr Hh. destruct (decide (e = t)) as [->|Hne].
    - exists p'. rewrite list_lookup_insert_eq by done. split; [done|]. apply E. congruence.
    - exists r. by rewrite list_lookup_insert_ne. }
  step_cases; try (match goal with k : cont |- _ => destruct k end); cbn in L1, L2, L3, L4, L5, L6, L7 |- *; intros Hq He.
  all: apply list_lookup_insert_Some in Hq as [(<- & <- & _)|(Hne & Hq)]; try done.
  all: try (destruct (Hhand c q e Hq He) as (r & Hr & Hh); eapply Hkeep; [|exact Hr|exact Hh]; done).
  all: try (injection He as <-; match goal with E : exec_at s _ = Some _ |- _ => apply exec_at_Some, Hocc in E as (_ & r & Hr & Hh) end;
            eapply Hkeep; [|exact Hr|unfold hooked; by rewrite Hh]; done).
  all: exfalso; assert (coll q = true ∧ holds q = true) as [Hcq Hhq] by (by destruct q).
  - destruct (L6 eq_refl) as (j & Hj & Hc). assert (exec_at s j = Some t) by (unfold exec_at; by rewrite Hc). congruence.
  - pose proof (l_coll _ _ _ (Hloc c q Hq) Hcq). congruence.
  - apply Hne. by apply (holds_unique s t c _ q Hinv Hp Hq).
Qed.

Lemma to_pass_holds q i h : to_pass q = Some (i, h) → holds q = true ∧ coll q = true.
Proof. by destruct q. Qed.

Lemma act_passed c q i h e r :
  pcs s' !! c = Some q → to_pass q = Some (i, h) → pcs s' !! e = Some r → e ≠ c → active r = true →
  ∃ j, cellof s' !! e = Some j ∧ (j < i ∨ j = i ∧ h = Some e).
Proof.
  pose proof (i_passed s Hinv) as Hpass. pose proof (lookup_lt_Some _ _ _ Hp) as Hlt. pose proof (i_local s Hinv) as Hloc.
  pose proof (i_local s Hinv t p Hp) as [L1 L2 L3 L4 L5 L6 L7]. pose proof (i_occupied s Hinv) as Hocc.
  step_cases; try (match goal with k : cont |- _ => destruct k end); cbn in L1, L2, L3, L4, L5, L6, L7 |- *; intros Hq Hi Hr Hec Ha.
  all: apply list_lookup_insert_Some in Hq as [(<- & <- & _)|(Hne & Hq)]; try done;
       apply list_lookup_insert_Some in Hr as [(<- & <- & _)|(Hne' & Hr)]; try done.
  all: rewrite ?(list_lookup_insert_ne (cellof s)) by done.
  all: try exact (Hpass c q i h e r Hq Hi Hr Hec Ha).
  all: try (eapply (Hpass c q i h t _ Hq Hi Hp); [done|reflexivity]).
  all: try (exfalso; destruct (to_pass_holds q i h Hi) as [Hh Hcq]; pose proof (l_coll _ _ _ (Hloc c q Hq) Hcq);
            first [congruence | apply Hne; by apply (holds_unique s t c _ q Hinv Hp Hq)]).
  all: destruct (l_cell _ _ _ (Hloc e r Hr)) as (j & Hj & Hcj); [by destruct r|].
  all: injection Hi as <- <-; try (destruct (Hpass t _ _ _ e r Hp eq_refl Hr Hec Ha) as (j' & Hj' & Hlt');
         assert (j' = j) as -> by congruence).
  all: exists j; split; [done|].
  all: try (destruct Hlt' as [?|[-> [=]]]; auto; lia).
  all: try (left; by eapply lookup_lt_Some).
  all: try match goal with E : exec_at s _ = Some _ |- _ => apply exec_at_Some in E end.
  all: destruct Hlt' as [Hlt'|[-> Heq]]; [|try discriminate Heq].
  - left. destruct (decide (j = n)) as [->|]; [congruence|lia].
  - destruct (decide (j = n)) as [->|]; [right; split; [done|congruence]|left; lia].
  - left. destruct (decide (j = n)) as [->|]; [|lia]. assert (exec_at s n = Some e) by (unfold exec_at; by rewrite Hcj). congruence.
  - by left.
  - exfalso. injection Heq as ->. assert (unparked r = true) as Hu by (by destruct r). apply (l_unparked _ _ _ (Hloc e r Hr)) in Hu. congruence.
Qed.

Lemma to_ask_coll q i h : to_ask q = Some (i, h) → coll q = true.
Proof. by destruct q. Qed.

(** A call at large is one the collector has asked, or has still to ask. *)
Lemma act_asked c q i h e r :
  pcs s' !! c = Some q → to_ask q = Some (i, h) → pcs s' !! e = Some r → e ≠ c → at_large r = true →
  pause s' !! e = Some true ∨ h = Some e ∨ ∃ j, cellof s' !! e = Some j ∧ j < i.
Proof.
  pose proof (i_asked s Hinv) as Hask. pose proof (lookup_lt_Some _ _ _ Hp) as Hlt. pose proof (i_local s Hinv) as Hloc.
  pose proof (i_local s Hinv t p Hp) as [L1 L2 L3 L4 L5 L6 L7]. pose proof (i_occupied s Hinv) as Hocc. destruct (i_len s Hinv) as (Hl1 & Hl2 & Hl3).
  step_cases; try (match goal with k : cont |- _ => destruct k end); cbn in L1, L2, L3, L4, L5, L6, L7 |- *; intros Hq Hi Hr Hec Ha.
  all: apply list_lookup_insert_Some in Hq as [(<- & <- & _)|(Hne & Hq)]; try done;
       apply list_lookup_insert_Some in Hr as [(<- & <- & _)|(Hne' & Hr)]; try done.
  all: rewrite ?(list_lookup_insert_ne (cellof s)) by done.
  all: try exact (Hask c q i h e r Hq Hi Hr Hec Ha).
  all: try (eapply (Hask c q i h t _ Hq Hi Hp); [done|reflexivity]).
  all: try (exfalso; pose proof (l_coll _ _ _ (Hloc c q Hq) (to_ask_coll q i h Hi)); try specialize (L3 eq_refl); congruence).
  (* pause flags set by another *)
  all: assert (∀ x y, pause s !! x = Some true → <[y:=true]> (pause s) !! x = Some true) as Hset by
         (intros x y Hx; destruct (decide (x = y)) as [->|]; [apply list_lookup_insert_eq; by eapply lookup_lt_Some|by rewrite list_lookup_insert_ne]).
  all: try (destruct (Hask c q i h e r Hq Hi Hr Hec Ha) as [?|?]; [left; by apply Hset|by right]).
  all: try (destruct (Hask c q i h t _ Hq Hi Hp) as [?|?]; [done|reflexivity|left; by apply Hset|by right]).
  all: try (injection Hi as <- <-; destruct (l_cell _ _ _ (Hloc e r Hr)) as (j & Hj & Hcj); [by destruct r|]).
  all: try (right; right; exists j; split; [done|by eapply lookup_lt_Some]).
  all: destruct (Hask t _ _ _ e r Hp eq_refl Hr Hec Ha) as [?|[?|(j' & Hj' & Hlt')]].
  all: try (left; first [assumption|by apply Hset]); try discriminate.
  all: try (match goal with H : Some _ = Some _ |- _ => injection H as -> end; left; apply list_lookup_insert_eq; rewrite Hl3; by eapply lookup_lt_Some).
  all: try (assert (j' = j) as -> by congruence); try lia; try (by right; right; exists j).
  all: destruct (decide (j = n)) as [->|Hjn]; [|right; right; exists j; split; [done|lia]].
  all: try match goal with E : exec_at s _ = Some _ |- _ => apply exec_at_Some in E end.
  all: try (exfalso; congruence); try (right; left; congruence).
  all: exfalso; assert (exec_at s n = Some e) by (unfold exec_at; by rewrite Hcj); congruence.
Qed.

Lemma act_wake c q : pcs s' !! c = Some q → waiting q = true → ∃ e r, e ≠ c ∧ pcs s' !! e = Some r ∧ waker r = true.
Proof.
  pose proof (i_wake s Hinv) as Hwake. pose proof (lookup_lt_Some _ _ _ Hp) as Hlt. pose proof (i_local s Hinv) as Hloc.
  assert (∀ p', (waker p = true → waker p' = true) → ∀ q, t ≠ c → pcs s !! c = Some q → waiting q = true →
     ∃ e r, e ≠ c ∧ <[t:=p']> (pcs s) !! e = Some r ∧ waker r = true) as Hkeep.
  { intros p' Hpp' q' Hne Hq Hw. destruct (Hwake c q' Hq Hw) as (e & r & Hec & Hr & Hwr). exists e. destruct (decide (e = t)) as [->|Het].
    - exists p'. rewrite list_lookup_insert_eq by done. split; [done|]. split; [done|]. apply Hpp'. congruence.
    - exists r. by rewrite list_lookup_insert_ne. }
  assert (waiting q = true → coll q = true) as Hwc by (by destruct q).
  step_cases; try (match goal with k : cont |- _ => destruct k end); cbn; intros Hq Hw.
  all: apply list_lookup_insert_Some in Hq as [(<- & <- & _)|(Hne & Hq)]; try done.
  all: try (apply (Hkeep _) with q; [done..]).
  all: try (exfalso; pose proof (l_coll _ _ _ (Hloc c q Hq) (Hwc Hw)); congruence).
  all: try (exfalso; destruct q; try done; [apply Hne; by apply (holds_unique s t c _ CWait Hinv Hp Hq)|by pose proof (Hwoke eq_refl c _ Hq)]).
  - exfalso. destruct (l_cell _ _ _ (Hloc t _ Hp) eq_refl) as (j & Hj & Hc). assert (exec_at s j = Some t) by (unfold exec_at; by rewrite Hc). congruence.
  - exfalso. destruct q; try done; [|by pose proof (Hwoke eq_refl c _ Hq)]. pose proof (proj1 (l_mu _ _ _ (Hloc c _ Hq)) eq_refl). congruence.
  - match goal with E : parked s !! ?x = Some false |- _ => rename x into e; rename E into Epk end.
    destruct (i_hand s Hinv t _ e Hp eq_refl) as (r & Hr & Hh).
    assert (e ≠ t) as Het by (intros ->; pose proof (l_resting _ _ _ (Hloc t _ Hp) eq_refl); congruence).
    exists e, r. rewrite list_lookup_insert_ne by done. split; [done|]. split; [done|].
    destruct (waker r) eqn:Ew; [done|]. exfalso. destruct (resting r) eqn:Er; [pose proof (l_resting _ _ _ (Hloc e r Hr) Er); congruence|].
    apply Het. apply (holds_unique s e t r _ Hinv Hr Hp); [|done]. by destruct r; try done; try destruct k.
  - destruct (Hwake t _ Hp eq_refl) as (e & r & Het & Hr & Hw'). exists e, r. by rewrite list_lookup_insert_ne.
Qed.

Lemma act_owner u : mu s' = Some u → is_Some (pcs s' !! u).
Proof.
  pose proof (i_owner s Hinv) as Howner. pose proof (lookup_lt_Some _ _ _ Hp) as Hlt.
  assert (is_Some (pcs s !! u) ∨ u = t → length (pcs s') = length (pcs s) → is_Some (pcs s' !! u)) as Hl.
  { intros Hu El. apply lookup_lt_is_Some. rewrite El. by destruct Hu as [?%lookup_lt_is_Some| ->]. }
  intros Hm. apply Hl; step_cases; cbn in Hm |- *; rewrite ?length_insert; try done; try (left; by apply Howner); right; congruence.
Qed.

Lemma act_sleep u q :
  pcs s' !! u = Some q → asleep q = true → collecting s' = true ∨ ∃ c r, pcs s' !! c = Some r ∧ ending r = true.
Proof.
  pose proof (i_sleep s Hinv) as Hsleep. pose proof (lookup_lt_Some _ _ _ Hp) as Hlt.
  assert (∀ p' u q, (ending p = true → ending p' = true) → pcs s !! u = Some q → asleep q = true →
     collecting s = true ∨ ∃ c r, <[t:=p']> (pcs s) !! c = Some r ∧ ending r = true) as Hkeep.
  { intros p' v r Hpp' Hr Ha. destruct (Hsleep v r Hr Ha) as [?|(c & r' & Hr' & He)]; [by left|right]. exists c. destruct (decide (c = t)) as [->|Hct].
    - exists p'. rewrite list_lookup_insert_eq by done. split; [done|]. apply Hpp'. congruence.
    - exists r'. by rewrite list_lookup_insert_ne. }
  step_cases; try (match goal with k : cont |- _ => destruct k end); cbn; intros Hq Ha.
  all: apply list_lookup_insert_Some in Hq as [(<- & <- & _)|(Hne & Hq)]; try done.
  all: try (by left).
  all: try (by apply (Hkeep _ u q)).
  all: try (pose proof (Hwoke eq_refl u q Hq); congruence).
  all: try (left; by apply (l_coll _ _ _ (i_local s Hinv t _ Hp))).
  all: try (match goal with |- _ ∨ ∃ c r, <[t:=?p']> _ !! c = _ ∧ _ => by destruct (Hkeep p' u q) as [?|?]; [done|done|done|congruence|right] end).
  all: right; eexists t, _; (rewrite list_lookup_insert_eq by done); (split; [reflexivity|done]).
Qed.
End step.

Lemma start_inv n : inv (start n).
Proof.
  assert (∀ t p, replicate n Idle !! t = Some p → p = Idle ∧ t < n) as Hi by (intros t p; by intros [-> ?]%lookup_replicate).
  split; cbn; rewrite ?length_replicate; try done.
  - intros t p [-> Ht]%Hi. split; cbn; try done.
  - intros t u p q [-> _]%Hi _. done.
  - intros c p e [-> _]%Hi. done.
  - intros c p i h e q [-> _]%Hi. done.
  - intros c p i h e q [-> _]%Hi. done.
  - intros c p [-> _]%Hi. done.
  - intros c p [-> _]%Hi. done.
Qed.

Lemma act_inv s t ch s' : inv s → act s t ch = Some s' → inv s'.
Proof.
  intros Hinv Hact. destruct (act_is_plain s t ch s' Hinv Hact) as (s1 & p & Hinv1 & Hp & Hact1 & Hwoke). split.
  - by eapply act_len.
  - intros u q Hq. destruct (decide (u = t)) as [->|Hne]; [by eapply act_local_own|by eapply act_local_other].
  - intros i u. by eapply act_occupied.
  - intros u v q r. by eapply act_unique.
  - by eapply act_someone.
  - intros c q e. by eapply act_hand.
  - intros c q i h e r. by eapply act_passed.
  - intros c q i h e r. by eapply act_asked.
  - intros c q. by eapply act_wake.
  - intros u. by eapply act_owner.
  - intros u q. by eapply act_sleep.
Qed.

Lemma steps_inv n s : steps n s → inv s.
Proof. induction 1 as [|s t ch s' _ IH Hact]; [apply start_inv|by eapply act_inv]. Qed.

(** * Theorems *)

Definition scanning (p : pc) : bool := match p with CScan _ | CScanHand _ _ | CSweep => true | _ => false end.

(** C22. The world stands still: in every state any interleaving of calls can reach,
    while one call scans roots or sweeps, no other call runs guest code, allocates
    or holds the mutex - calls that registered, returned from Go, or asked for a
    collection of their own meanwhile included - and no other call collects. *)
Theorem collection_alone n s c p e q :
  steps n s → pcs s !! c = Some p → scanning p = true → pcs s !! e = Some q → e ≠ c →
  active q = false ∧ holds q = false ∧ coll q = false ∧ collecting s = true.
Proof.
  intros Hs Hp Hsc Hq Hec. pose proof (steps_inv n s Hs) as Hinv.
  assert (holds p = true ∧ coll p = true ∧ to_pass p = Some (0, None)) as (Hh & Hc & Ht) by (by destruct p).
  split; [|split; [|split]].
  - destruct (active q) eqn:Ea; [|done]. destruct (i_passed s Hinv c p 0 None e q Hp Ht Hq Hec Ea) as (j & _ & [?|[_ [=]]]). lia.
  - destruct (holds q) eqn:E; [|done]. destruct Hec. by apply (holds_unique s e c q p).
  - destruct (coll q) eqn:E; [|done]. destruct Hec. by apply (i_unique s Hinv e c q p).
  - by apply (l_coll _ _ _ (i_local s Hinv c p Hp)).
Qed.

(** An execution the collection has in hand - one it is about to signal, to
    examine or to scan - is still registered, or its [Unregister] has not returned:
    the caller cannot reuse its stack, nor the execution, under the scan. *)
Theorem unregister_waits n s c p e :
  steps n s → pcs s !! c = Some p → in_hand p = Some e →
  ∃ q, pcs s !! e = Some q ∧ (registered q = true ∨ leaving q = true).
Proof.
  intros Hs Hp He. destruct (i_hand s (steps_inv n s Hs) c p e Hp He) as (q & Hq & Hh). exists q. split; [done|].
  by apply orb_true_iff.
Qed.

(** ** Runs *)

Fixpoint acts (s : hs) (l : list (nat * choice)) : option hs :=
  match l with [] => Some s | (t, ch) :: l => s ← act s t ch; acts s l end.

Lemma acts_steps n l : ∀ s s', steps n s → acts s l = Some s' → steps n s'.
Proof.
  induction l as [|[t ch] l IH]; intros s s' Hs E; cbn in E; [by injection E as <-|].
  destruct (act s t ch) as [s1|] eqn:E1; cbn in E; [|done]. apply (IH s1); [by eapply steps_act|done].
Qed.

(** Two calls start; the first asks for a collection and, while the second is in Go,
    runs it up to the scan. *)
Definition demo_run : list (nat * choice) :=
  replicate 6 (0, Register) ++ replicate 7 (1, Register) ++ replicate 10 (0, RequestGC) ++ replicate 2 (1, EnterGo) ++
  replicate 15 (0, Safepoint).

Definition demo_scan : hs := Eval vm_compute in match acts (start 2) demo_run with Some s => s | None => start 2 end.

Lemma demo_scan_steps : steps 2 demo_scan.
Proof. apply (acts_steps 2 demo_run (start 2)); [constructor|reflexivity]. Qed.

Lemma collection_alone_witness : pcs demo_scan = [CScan 2; InGo] ∧ active InGo = false.
Proof. split; [reflexivity|]. exact (proj1 (collection_alone 2 demo_scan 0 (CScan 2) 1 InGo demo_scan_steps eq_refl eq_refl eq_refl ltac:(done))). Defined.

(** The second call has left Go, found the collection, and sleeps. *)
Definition demo_hand : hs :=
  Eval vm_compute in match acts demo_scan ((0, Safepoint) :: replicate 2 (1, Unregister)) with Some s => s | None => demo_scan end.

Lemma demo_hand_steps : steps 2 demo_hand.
Proof. apply (acts_steps 2 ((0, Safepoint) :: replicate 2 (1, Unregister)) demo_scan); [apply demo_scan_steps|reflexivity]. Qed.

Lemma unregister_waits_witness : pcs demo_hand = [CScanHand 1 1; UnregCheck] ∧ ∃ q, pcs demo_hand !! 1 = Some q ∧ (registered q = true ∨ leaving q = true).
Proof. split; [reflexivity|]. exact (unregister_waits 2 demo_hand 0 _ 1 demo_hand_steps eq_refl eq_refl). Defined.

(** After the sweep [gc.collecting] is false while the collector still walks the
    cells to clear the pause flags: an execution it has in hand there can be
    unregistered and already be filled in again by [RegisterGCExecutionInto]. *)
Theorem clearing_holds_unregistered :
  ∃ s, steps 2 s ∧ pcs s = [CClearHand 1 1; RegClear].
Proof.
  eexists. split; [|].
  - apply (acts_steps 2 (replicate 8 (0, Safepoint) ++ replicate 3 (1, Unregister) ++ [(1, Register)]) demo_scan);
      [apply demo_scan_steps|vm_compute; reflexivity].
  - reflexivity.
Qed.
