(* ===== verification/GcHalt.v ===== *)
(** The stop-the-world handshake gets a collection done: from every reachable state of
    [GcHandshake] in which one is under way some call can move, and only so many moves fit
    in before the sweep. *)
From Stdlib Require Import ZArith Lia String.
From stdpp Require Import base list numbers option tactics.
From S2P Require Import Prelude GcHandshake GcStop.
Local Open Scope nat_scope.

(** * Some call can move *)

Lemma goto_same s t p : pcs s !! t = Some p → goto s t p = s.
Proof. intros Hp. unfold goto, set_pcs. rewrite list_insert_id by done. by destruct s. Qed.

(** Case analysis on a step, with the waking that goes with it. *)
Ltac act_cases :=
  match goal with
  | Hact : act ?s ?t ?ch = Some ?s', Hp : pcs ?s !! ?t = Some ?p |- _ =>
      unfold act in Hact; rewrite Hp in Hact; unfold mbind, option_bind in Hact; destruct p; cbn beta iota in Hact;
      unfold register_step, guest_step, unregister_step, go_step, wait_step, safepoint_step, collector_step, request_step, acquire, release in Hact;
      unfold mbind, option_bind in Hact; cbn beta iota in Hact;
      repeat (match type of Hact with
              | context [match ?x with _ => _ end] =>
                  lazymatch x with context [match _ with _ => _ end] => fail | _ => let E := fresh "E" in destruct x eqn:E end
              end; cbn beta iota in Hact);
      try discriminate Hact; injection Hact as <-
  end.

(** A step changes the state, unless it comes to a parking point that nobody asked the
    call to stop at. *)
Lemma act_changes s t ch s' p :
  pcs s !! t = Some p → act s t ch = Some s' → (p = Running → ch = Safepoint → pause s !! t = Some true) → s' ≠ s.
Proof.
  intros Hp Hact Hpause Heq. assert (pcs s' !! t = Some p) as Hp' by (by rewrite Heq). clear Heq. pose proof (lookup_lt_Some _ _ _ Hp) as Hlt.
  act_cases; cbn in Hp'; rewrite list_lookup_insert_eq in Hp' by (rewrite ?length_fmap; done); try discriminate Hp'; try (injection Hp'; lia).
  specialize (Hpause eq_refl eq_refl). congruence.
Qed.

(** A call moves unless it rests in Go or is not registered, sleeps, needs the mutex, or
    comes to such a parking point. *)
Lemma act_moves s t p :
  inv s → pcs s !! t = Some p → p ≠ Idle → p ≠ InGo → asleep p = false → mu s = None ∨ holds p = true →
  (p = Running → pause s !! t = Some true) → ∃ s', act s t Safepoint = Some s' ∧ s' ≠ s.
Proof.
  intros Hinv Hp Hi Hg Ha Hm Hpause. cut (∃ s', act s t Safepoint = Some s').
  { intros [s' Hact]. exists s'. split; [done|]. eapply act_changes; eauto. }
  pose proof (lookup_lt_Some _ _ _ Hp) as Hlt. destruct (i_len s Hinv) as (Hl1 & Hl2 & Hl3). unfold act. rewrite Hp.
  cbn [mbind option_bind]. unfold register_step, guest_step, unregister_step, go_step, wait_step, safepoint_step, collector_step, request_step, acquire.
  assert (∀ A (x y : A), holds p = false → ∃ s', match mu s with None => Some x | Some _ => None end = Some s') as Hfree.
  { intros A x _ Hh. destruct Hm as [->|?]; [eauto|congruence]. }
  destruct p; try done; try (by apply Hfree); try (eexists; reflexivity); try (repeat case_match; eexists; reflexivity).
  - rewrite (Hpause eq_refl). cbn. eauto.
  - destruct (lookup_lt_is_Some_2 (cellof s) t) as [i ->]; [lia|]. cbn. eauto.
  - destruct (i_hand s Hinv t _ e Hp eq_refl) as (r & Hr & _). apply lookup_lt_Some in Hr.
    destruct (lookup_lt_is_Some_2 (parked s) e) as [b ->]; [lia|]. cbn. eauto.
Qed.

Lemma asleep_not_rest p : asleep p = true → p ≠ Idle ∧ p ≠ InGo.
Proof. by destruct p. Qed.

(** While a collection is under way some call moves: what a sleeping collector waits for
    is a call that it asked to stop, and that will. *)
Lemma collecting_moves s : inv s → collecting s = true → ∃ u s', act s u Safepoint = Some s' ∧ s' ≠ s.
Proof.
  intros Hinv Hc. destruct (i_someone s Hinv Hc) as (c & p & Hp & Hcp). destruct (mu s) as [u|] eqn:Hmu.
  - destruct (i_owner s Hinv u Hmu) as [q Hq]. pose proof (proj2 (l_mu _ _ _ (i_local s Hinv u q Hq)) Hmu) as Hh.
    exists u. apply (act_moves s u q Hinv Hq); [by destruct q..|by right|by intros ->].
  - destruct (asleep p) eqn:Ea; [|exists c; apply (act_moves s c p Hinv Hp); [by destruct p..|done|by left|by intros ->]].
    destruct (i_wake s Hinv c p Hp) as (e & q & Hec & Hq & Hw); [by destruct p|].
    exists e. apply (act_moves s e q Hinv Hq); [by destruct q..|by left|]. intros ->.
    destruct (i_asked s Hinv c p 0 None e Running Hp) as [?|[?|(j & _ & ?)]]; [by destruct p|done..|lia].
Qed.

(** A call sleeps only while a collection is under way, or its last broadcast ahead. *)
Lemma sleeping_ends s t p :
  inv s → pcs s !! t = Some p → asleep p = true → collecting s = false →
  ∃ c q s', pcs s !! c = Some q ∧ ending q = true ∧ act s c Safepoint = Some s' ∧ s' ≠ s.
Proof.
  intros Hinv Hp Ha Hc. destruct (i_sleep s Hinv t p Hp Ha) as [?|(c & q & Hq & He)]; [congruence|].
  destruct (act_moves s c q Hinv Hq) as (s' & ? & ?); [by destruct q..|right; by destruct q|by intros ->|]. by exists c, q, s'.
Qed.

(** * How many moves fit in *)

(** The call is on its way into a cell, which it may have to add. *)
Definition joining (p : pc) : bool := match p with Idle | RegClear | TakeHead | Take _ | TakeCas _ | TakeLock => true | _ => false end.

(** The most cells there can be before the sweep. *)
Definition room (s : hs) : nat := length (cells s) + sum_list_with (λ p, Nat.b2n (joining p)) (pcs s).

(** What one broadcast can cost [n] sleepers, the collector with [K] cells to check
    again among them. *)
Definition rousing (n K : nat) : nat := n * (4 * K + 4) + 2.

(** The most moves a call at a point makes until it rests for the collection. *)
Definition effort (n K : nat) (p : pc) : nat :=
  let W := rousing n K in
  let run := 2 * W + 8 in
  match p with
  | WoSleep _ | WoDone _ | SpWanted | SpResume | SpQuit | SpColl | SpStart | CSleep | CUnpark | CClear _ | CClearHand _ _ | CBcast | CUnlock => 0
  | WoTest _ => 1
  | WoRelock _ => 2
  | WoBcast _ => W
  | WoPark _ => W + 1
  | WoLock _ | SpTop => W + 2
  | UnregCheck | LeaveCheck | RegCheck | SpLock => W + 3
  | UnregCas | TakeLock => W + 4
  | InGo => W + 5
  | Take i => W + 5 + 2 * i
  | TakeCas i => W + 6 + 2 * i
  | TakeHead => W + 6 + 2 * K
  | RegClear => W + 7 + 2 * K
  | Idle => W + 8 + 2 * K
  | WakeLock => 2 * W + 6
  | EnterCheck => 2 * W + 7
  | Running => run
  | ReqCheck => run + 1
  | ReqTest => run + 1
  | ReqLock => run + 2
  | ReqWalk i | ReqSet i => run + 1 + 2 * i
  | ReqHand i _ | ReqSetHand i _ => run + 2 + 2 * i
  | ReqHead => run + 2 + 2 * K
  | ReqWanted => run + 3 + 2 * K
  | CSweep => 1
  | CScan i => 2 + 2 * i
  | CScanHand i _ => 3 + 2 * i
  | CWait => 1
  | CCheck i => 3 + 2 * K + 2 * i
  | CHand i _ => 4 + 2 * K + 2 * i
  | CRelock => 4 + 4 * K
  | CSignal i => 4 + 4 * K + 2 * i
  | CSignalHand i _ => 5 + 4 * K + 2 * i
  | CPark => 5 + 6 * K
  end.

Definition patience (s : hs) : nat := sum_list_with (effort (length (pcs s)) (room s)) (pcs s).

(** ** Sums over the calls *)

Lemma share_insert (f : pc → nat) l t p p' :
  l !! t = Some p → sum_list_with f (<[t:=p']> l) + f p = sum_list_with f l + f p'.
Proof.
  revert t. induction l as [|q l IH]; intros [|t] Ht; try done.
  - injection Ht as ->. cbn. lia.
  - change (<[S t:=p']> (q :: l)) with (q :: <[t:=p']> l). cbn [sum_list_with]. specialize (IH t Ht). lia.
Qed.

Lemma share_le (f g : pc → nat) l l' b :
  Forall2 (λ p q, f p ≤ g q + b) l l' → sum_list_with f l ≤ sum_list_with g l' + length l' * b.
Proof. induction 1; cbn in *; lia. Qed.

Lemma effort_mono n K K' p : K ≤ K' → effort n K p ≤ effort n K' p.
Proof. intros HK. assert (rousing n K ≤ rousing n K') by (unfold rousing; nia). destruct p; cbn; lia. Qed.

Lemma joining_woken p : joining (wake_pc p) = joining p.
Proof. by destruct p. Qed.

Lemma effort_woken n K p : effort n K (wake_pc p) ≤ effort n K p + (4 * K + 4).
Proof. destruct p; cbn; lia. Qed.

Lemma Forall2_self {A} (P : A → A → Prop) l : (∀ x, P x x) → Forall2 P l l.
Proof. intros H. induction l; by constructor. Qed.

(** A move from [p] to [p'], with a broadcast or without. *)
Lemma patience_move s s' t p p' (woke : bool) d :
  pcs s !! t = Some p → wake_pc p = p → pcs s' = <[t:=p']> (if woke then wake_pc <$> pcs s else pcs s) →
  length (cells s') + Nat.b2n (joining p') ≤ length (cells s) + Nat.b2n (joining p) →
  (length (cells s) ≤ room s → effort (length (pcs s)) (room s) p' + 1 + (if woke then length (pcs s) * (4 * room s + 4) else 0) ≤
    effort (length (pcs s)) (room s) p + d) →
  patience s' + 1 ≤ patience s + d.
Proof.
  intros Hp Hwp Hpcs Hroom Heff. set (l := if woke then wake_pc <$> pcs s else pcs s) in *. set (n := length (pcs s)) in *. set (K := room s) in *.
  assert (l !! t = Some p) as Hl by (unfold l; destruct woke; [by rewrite list_lookup_fmap, Hp; cbn; rewrite Hwp|done]).
  assert (∀ b (f : pc → nat), (∀ q, f (wake_pc q) ≤ f q + b) → sum_list_with f l ≤ sum_list_with f (pcs s) + (if woke then n * b else 0)) as Hsum.
  { intros b f Hf. unfold l, n. destruct woke; [|lia]. apply (share_le f f). apply Forall2_fmap_l, Forall2_self, Hf. }
  assert (length (pcs s') = n) as Hn by (rewrite Hpcs, length_insert; unfold l; destruct woke; by rewrite ?length_fmap).
  assert (room s' ≤ K) as HK.
  { unfold K, room. rewrite Hpcs. pose proof (share_insert (λ q, Nat.b2n (joining q)) l t p p' Hl) as E. cbv beta in E.
    pose proof (Hsum 0 (λ q, Nat.b2n (joining q)) ltac:(intros q; cbv beta; rewrite joining_woken; lia)) as E2. cbv beta in E2. destruct woke; lia. }
  unfold patience at 1. rewrite Hn, Hpcs.
  pose proof (share_insert (effort n (room s')) l t p p' Hl) as E1. pose proof (share_insert (effort n K) l t p p' Hl) as E2.
  assert (sum_list_with (effort n (room s')) (<[t:=p']> l) ≤ sum_list_with (effort n K) (<[t:=p']> l)) as E3.
  { rewrite <- (Nat.add_0_r (sum_list_with (effort n K) _)), <- (Nat.mul_0_r (length (<[t:=p']> l))). apply share_le, Forall2_self.
    intros q. pose proof (effort_mono n _ _ q HK). lia. }
  pose proof (Hsum _ _ (effort_woken n K)) as E4. specialize (Heff ltac:(unfold K, room; lia)). unfold patience. fold n K.
  destruct woke; lia.
Qed.

(** ** The moves of a collection *)

(** An allocation on the way to a parking point. *)
Definition allocates (s : hs) (t : nat) (ch : choice) : nat := match pcs s !! t, ch with Some Running, RequestGC => 1 | _, _ => 0 end.

(** The calls move [k] times, [a] of them to allocate, each time while a collection is
    under way and each time changing the state. *)
Inductive under_way : hs → nat → nat → hs → Prop :=
| uw_none s : under_way s 0 0 s
| uw_move s t ch s1 k a s2 :
    collecting s = true → act s t ch = Some s1 → s1 ≠ s → under_way s1 k a s2 → under_way s (S k) (allocates s t ch + a) s2.

Lemma patience_step s t ch s' :
  inv s → collecting s = true → act s t ch = Some s' → s' ≠ s → patience s' + 1 ≤ patience s + 2 * allocates s t ch.
Proof.
  intros Hinv Hc Hact Hne. destruct (pcs s !! t) as [p|] eqn:Hp; [|unfold act in Hact; by rewrite Hp in Hact].
  pose proof (i_local s Hinv t p Hp) as [_ _ L3 _ _ L6 L7]. unfold allocates. rewrite Hp.
  act_cases; cbn in L3, L6, L7; try (specialize (L3 eq_refl); congruence).
  all: try (eapply (patience_move s _ t _ _ false); [exact Hp|reflexivity|reflexivity|cbn; rewrite ?length_insert, ?length_app; cbn; lia|cbn; intros; unfold rousing; lia]).
  all: try (eapply (patience_move s _ t _ _ true); [exact Hp|reflexivity|reflexivity|cbn; lia|cbn; intros; unfold rousing; lia]).
  - by rewrite goto_same in Hne.
  - exfalso. destruct (L6 eq_refl) as (i & Hi & Hcell). assert (exec_at s i = Some t) by (unfold exec_at; by rewrite Hcell). congruence.
  - rewrite Hc, orb_true_r in *. done.
Qed.

Lemma under_way_bounded s k a s' : under_way s k a s' → inv s → k ≤ patience s + 2 * a.
Proof.
  induction 1 as [s|s t ch s1 k a s2 Hc Hact Hne _ IH]; intros Hinv; [lia|].
  specialize (IH (act_inv s t ch s1 Hinv Hact)). pose proof (patience_step s t ch s1 Hinv Hc Hact Hne). lia.
Qed.

Lemma ends_by_sweep s t ch s' : act s t ch = Some s' → collecting s = true → collecting s' = false → pcs s !! t = Some CSweep.
Proof.
  intros Hact Hc Hc'. destruct (pcs s !! t) as [p|] eqn:Hp; [|unfold act in Hact; by rewrite Hp in Hact].
  act_cases; cbn in Hc'; congruence.
Qed.

(** C23. Every collection gets done, and nobody sleeps past it: in every reachable state
    with a collection under way some call has a move that changes the state - its next
    atomic action, or a parking point that reads its pause flag set; no return from Go, no
    new call and no allocation is needed - and until the sweep, the only step that ends a
    collection, the calls have only [patience] moves between them, whatever the
    interleaving, and two more for each allocation they make meanwhile.  A call sleeps only
    while a collection is under way, or while one that is over has a call that can move and
    has its broadcast ahead. *)
Theorem collection_ends n s :
  steps n s →
  (collecting s = true →
    (∃ u s', act s u Safepoint = Some s' ∧ s' ≠ s) ∧
    (∀ k a s', under_way s k a s' → k ≤ patience s + 2 * a) ∧
    (∀ t ch s', act s t ch = Some s' → collecting s' = false → pcs s !! t = Some CSweep)) ∧
  (∀ t p, pcs s !! t = Some p → asleep p = true → collecting s = true ∨
    ∃ c q s', pcs s !! c = Some q ∧ ending q = true ∧ act s c Safepoint = Some s' ∧ s' ≠ s).
Proof.
  intros Hs. pose proof (steps_inv n s Hs) as Hinv. split.
  - intros Hc. split; [by apply collecting_moves|]. split; [intros k a s' Hu; by apply under_way_bounded with s'|].
    intros t ch s' Hact Hc'. by apply (ends_by_sweep s t ch s').
  - intros t p Hp Ha. destruct (collecting s) eqn:Hc; [by left|right]. by apply (sleeping_ends s t p).
Qed.

(** * A run *)

(** Two calls in the guest; the first has asked for a collection, runs it, and sleeps: the
    second is the only call that can move, at a parking point that reads its flag set. *)
Definition demo_asked : hs :=
  Eval vm_compute in
  match acts (start 2) (replicate 6 (0, Register) ++ replicate 7 (1, Register) ++ replicate 10 (0, RequestGC) ++ replicate 14 (0, Safepoint)) with
  | Some s => s | None => start 2
  end.

Lemma demo_asked_steps : steps 2 demo_asked.
Proof.
  apply (acts_steps 2 (replicate 6 (0, Register) ++ replicate 7 (1, Register) ++ replicate 10 (0, RequestGC) ++ replicate 14 (0, Safepoint)) (start 2));
    [constructor|reflexivity].
Qed.

Lemma collection_ends_witness : pcs demo_asked = [CSleep; Running] ∧ ∃ u s', act demo_asked u Safepoint = Some s' ∧ s' ≠ demo_asked.
Proof. split; [reflexivity|]. exact (proj1 (proj1 (collection_ends 2 demo_asked demo_asked_steps) eq_refl)). Defined.
