(* ===== verification/GcTypes.v ===== *)
(** The static types of the GC proposal: the heap type lattice, subtyping, and the
    validation of the declared subtype relation, of [internal/wasm/gc.go] and
    [module.go]. *)
From Stdlib Require Import ZArith Lia String.
From stdpp Require Import base list numbers option tactics relations.
From S2P Require Import Prelude GcHeap GcCollect GcOps.
Local Open Scope Z_scope.
Local Open Scope go_scope.

(** * Value types *)

Definition ValueTypeNullFuncref : Z := 0x73.
Definition ValueTypeNullExternref : Z := 0x72.
Definition ValueTypeNullref : Z := 0x71.
Definition flagNonNullable : Z := Z.shiftl 1 8.

Definition Kind (v : Z) : Z := u8 v.
Definition IsNullable (v : Z) : bool := IsRef v && (Z.land v flagNonNullable =? 0).
Definition IsConcreteRef (v : Z) : bool := negb (Z.land v flagConcreteRef =? 0).
Definition TypeIndex (v : Z) : Z := u32 (Z.shiftr v 32).
Definition AsNonNullable (v : Z) : Z := Z.lor v flagNonNullable.
Definition AsNullable (v : Z) : Z := Z.ldiff v flagNonNullable.
Definition ValueTypeConcreteRef (typeIndex : Z) (nullable : bool) : Z :=
  let v := Z.lor (Z.lor ValueTypeFuncref flagConcreteRef) (Z.shiftl typeIndex 32) in
  if negb nullable then Z.lor v flagNonNullable else v.

(** * The lattice *)

Definition heapTypeParent (kind : Z) : option Z :=
  if kind =? Kind ValueTypeEqref then Some (Kind ValueTypeAnyref)
  else if (kind =? Kind ValueTypeI31ref) || (kind =? Kind ValueTypeStructref) || (kind =? Kind ValueTypeArrayref)
  then Some (Kind ValueTypeEqref)
  else None.

Definition concreteTop (k : CompositeKind) : Z :=
  match k with
  | CompositeKindStruct => Kind ValueTypeStructref
  | CompositeKindArray => Kind ValueTypeArrayref
  | CompositeKindFunc => Kind ValueTypeFuncref
  end.

Definition bottomKind (kind : Z) : option Z :=
  if (kind =? Kind ValueTypeAnyref) || (kind =? Kind ValueTypeEqref) || (kind =? Kind ValueTypeI31ref) ||
     (kind =? Kind ValueTypeStructref) || (kind =? Kind ValueTypeArrayref) then Some (Kind ValueTypeNullref)
  else if kind =? Kind ValueTypeFuncref then Some (Kind ValueTypeNullFuncref)
  else if kind =? Kind ValueTypeExternref then Some (Kind ValueTypeNullExternref)
  else if kind =? Kind ValueTypeExnref then Some (Kind ValueTypeNullExnref)
  else None.

(** The climb from [a]; [None] is a loop longer than the fuel. *)
Fixpoint climb (fuel : nat) (a b : Z) : option bool :=
  match fuel with
  | O => None
  | S fuel =>
      if a =? b then Some true
      else match heapTypeParent a with Some parent => climb fuel parent b | None => Some false end
  end.

(** Three rounds are enough: [climb_total]. *)
Definition isAbstractSubtype (a b : Z) : bool :=
  bool_decide (bottomKind b = Some a) || default false (climb 3 a b).

(** * Type sections *)

Record FieldType := mkField { f_type : Z; f_mutable : bool }.

#[global] Instance FieldType_eq_dec : EqDecision FieldType.
Proof. solve_decision. Defined.

(** A defined type: the fields of [FunctionType] that say what it is. *)
Record TypeDef := mkDef {
  Params : list Z;
  Results : list Z;
  td_kind : CompositeKind;
  td_fields : list FieldType;
  HasSupertype : bool;
  Supertype : Z;
  Extensible : bool;
  RecGroupSize : Z;
  RecGroupPosition : Z;
  CanonicalIndex : Z;
}.

Definition typeAt (types : list TypeDef) (i : Z) : option TypeDef :=
  if OutOfRange i (zlen types) then None else types !! Z.to_nat i.

Definition canonicalIndex (types : list TypeDef) (i : Z) : Z :=
  match typeAt types i with Some def => CanonicalIndex def | None => i end.

(** The loop of [concreteIsSubtypeOf], [n] rounds from its end. *)
Fixpoint concrete_walk (n : nat) (types : list TypeDef) (a b : Z) : bool :=
  match n with
  | O => false
  | S n =>
      if a =? b then true
      else match typeAt types a with
           | None => false
           | Some def => if negb (HasSupertype def) then false else concrete_walk n types (canonicalIndex types (Supertype def)) b
           end
  end.

Definition concreteIsSubtypeOf (types : list TypeDef) (a b : Z) : bool :=
  concrete_walk (S (length types)) types (canonicalIndex types a) (canonicalIndex types b).

Definition isHeapSubtype (types : list TypeDef) (a b : Z) : bool :=
  if IsConcreteRef a then
    if IsConcreteRef b then concreteIsSubtypeOf types (TypeIndex a) (TypeIndex b)
    else
      let top := match typeAt types (TypeIndex a) with
                 | Some def => concreteTop (td_kind def)
                 | None => Kind ValueTypeFuncref
                 end in
      isAbstractSubtype top (Kind b)
  else if IsConcreteRef b then
    let bot := match typeAt types (TypeIndex b) with
               | Some def => default 0 (bottomKind (concreteTop (td_kind def)))
               | None => Kind ValueTypeNullFuncref
               end in
    Kind a =? bot
  else isAbstractSubtype (Kind a) (Kind b).

Definition refTypeMatches (types : list TypeDef) (actual expected : Z) : bool :=
  if negb (IsRef actual) || negb (IsRef expected) then false
  else if negb (IsNullable actual) || IsNullable expected then isHeapSubtype types actual expected
  else false.

Definition valueTypeMatches (types : list TypeDef) (actual expected : Z) : bool :=
  (actual =? expected) || refTypeMatches types actual expected.

(** ** Validation *)

(** What the errors of [validateTypeSection] say; [i] is the type's index. *)
Inductive type_error : Type :=
| EFeature (i : Z) | EUnknownSupertype (i : Z) | EFinal (i : Z) | EForward (i : Z)
| EKind (i : Z) | EArity (i : Z) | EParam (i j : Z) | EResult (i j : Z) | EFewerFields (i : Z) | EField (i j : Z) | EElement (i : Z).

Abbreviation tres := (outcome type_error).

Definition checkFieldSubtype (types : list TypeDef) (sub super : FieldType) : bool :=
  if negb (eqb (f_mutable sub) (f_mutable super)) then false
  else if f_mutable super then f_type sub =? f_type super
  else valueTypeMatches types (f_type sub) (f_type super).

(** A loop over two slices whose first is at least as long: the index of the first
    pair that fails. *)
Fixpoint first_mismatch {A} (ok : A → A → bool) (l1 l2 : list A) (j : Z) : option Z :=
  match l1, l2 with
  | x :: l1, y :: l2 => if ok x y then first_mismatch ok l1 l2 (j + 1) else Some j
  | _, _ => None
  end.

Definition checkSubtypeStructure (types : list TypeDef) (i : Z) (t super : TypeDef) : tres unit :=
  if negb (bool_decide (td_kind t = td_kind super)) then Err (EKind i)
  else match td_kind t with
       | CompositeKindFunc =>
           if negb (zlen (Params t) =? zlen (Params super)) || negb (zlen (Results t) =? zlen (Results super)) then Err (EArity i)
           else match first_mismatch (λ p sp, valueTypeMatches types sp p) (Params t) (Params super) 0 with
                | Some j => Err (EParam i j)
                | None =>
                    match first_mismatch (valueTypeMatches types) (Results t) (Results super) 0 with
                    | Some j => Err (EResult i j)
                    | None => Ok tt
                    end
                end
       | CompositeKindStruct =>
           if zlen (td_fields t) <? zlen (td_fields super) then Err (EFewerFields i)
           else match first_mismatch (checkFieldSubtype types) (td_fields t) (td_fields super) 0 with
                | Some j => Err (EField i j)
                | None => Ok tt
                end
       | CompositeKindArray =>
           match td_fields t, td_fields super with
           | f :: _, sf :: _ => if checkFieldSubtype types f sf then Ok tt else Err (EElement i)
           | _, _ => Panic
           end
       end.

Definition validateType (gc : bool) (types : list TypeDef) (i : Z) (t : TypeDef) : tres unit :=
  if negb (HasSupertype t) then Ok tt
  else if negb gc then Err (EFeature i)
  else match typeAt types (Supertype t) with
       | None => Err (EUnknownSupertype i)
       | Some super =>
           if negb (Extensible super) then Err (EFinal i)
           else if i <=? Supertype t then Err (EForward i)
           else checkSubtypeStructure types i t super
       end.

Fixpoint validate_types (gc : bool) (types l : list TypeDef) (i : Z) : tres unit :=
  match l with
  | [] => Ok tt
  | t :: l => let* _ := validateType gc types i t in validate_types gc types l (i + 1)
  end.

Definition validateTypeSection (gc : bool) (types : list TypeDef) : tres unit := validate_types gc types types 0.

(** * When two definitions are the same up to the types they name

    [R] relates the type indices of the first section to those of the second. *)
Inductive vt_equiv (R : Z → Z → Prop) (v : Z) : Z → Prop :=
| vt_abstract : IsConcreteRef v = false → vt_equiv R v v
| vt_concrete v' : IsConcreteRef v = true → IsConcreteRef v' = true → IsNullable v = IsNullable v' →
    R (TypeIndex v) (TypeIndex v') → vt_equiv R v v'.

Inductive field_equiv (R : Z → Z → Prop) (f f' : FieldType) : Prop :=
| mk_field_equiv : f_mutable f = f_mutable f' → vt_equiv R (f_type f) (f_type f') → field_equiv R f f'.

Inductive def_equiv (R : Z → Z → Prop) (d d' : TypeDef) : Prop :=
| mk_def_equiv :
    td_kind d = td_kind d' → Forall2 (vt_equiv R) (Params d) (Params d') → Forall2 (vt_equiv R) (Results d) (Results d') →
    (td_kind d ≠ CompositeKindFunc → Forall2 (field_equiv R) (td_fields d) (td_fields d')) →
    HasSupertype d = HasSupertype d' → Extensible d = Extensible d' →
    (HasSupertype d = true → R (Supertype d) (Supertype d')) → def_equiv R d d'.

(** What canonicalization promises to subtyping: the canonical type of a type is a
    type of the section that is its own canonical type, is not above it, and has the
    same definition up to canonical indices. *)
Class Canonical (types : list TypeDef) : Prop := canonical_def i d :
  0 ≤ i → typeAt types i = Some d →
  ∃ dc, typeAt types (CanonicalIndex d) = Some dc ∧ CanonicalIndex dc = CanonicalIndex d ∧ 0 ≤ CanonicalIndex d ≤ i ∧
    def_equiv (λ x y, canonicalIndex types x = canonicalIndex types y) d dc.

(** * The abstract lattice *)

Lemma heapTypeParent_cases a p : heapTypeParent a = Some p → a = 0x6d ∧ p = 0x6e ∨ (a = 0x6c ∨ a = 0x6b ∨ a = 0x6a) ∧ p = 0x6d.
Proof.
  unfold heapTypeParent. destruct (Z.eqb_spec a (Kind ValueTypeEqref)) as [->|]; [intros [= <-]; by left|].
  destruct (_ || _) eqn:E; [intros [= <-]; right; split; [|done]|done].
  apply orb_true_iff in E as [[?%Z.eqb_eq|?%Z.eqb_eq]%orb_true_iff|?%Z.eqb_eq]; auto.
Qed.

Lemma climb_any n b : climb (S n) 0x6e b = Some (0x6e =? b).
Proof. cbn [climb]. by destruct (0x6e =? b). Qed.

Lemma climb_eq n b : climb (S (S n)) 0x6d b = Some ((0x6d =? b) || (0x6e =? b)).
Proof.
  change (climb (S (S n)) 0x6d b) with (if 0x6d =? b then Some true else climb (S n) 0x6e b). rewrite climb_any. by destruct (0x6d =? b).
Qed.

(** Climbing never takes more than three rounds. *)
Lemma climb_total a b : is_Some (climb 3 a b).
Proof.
  cbn [climb]. destruct (a =? b); [eauto|]. destruct (heapTypeParent a) as [p|] eqn:Ep; [|eauto].
  apply heapTypeParent_cases in Ep as [[-> ->]|[_ ->]].
  - pose proof (climb_any 1 b) as E. cbn [climb] in E. rewrite E. eauto.
  - pose proof (climb_eq 0 b) as E. cbn [climb] in E. rewrite E. eauto.
Qed.

(** The pairs of the lattice. *)
Definition lattice : list (Z * Z) :=
  [(0x6d, 0x6e); (0x6c, 0x6d); (0x6c, 0x6e); (0x6b, 0x6d); (0x6b, 0x6e); (0x6a, 0x6d); (0x6a, 0x6e);
   (0x71, 0x6e); (0x71, 0x6d); (0x71, 0x6c); (0x71, 0x6b); (0x71, 0x6a); (0x73, 0x70); (0x72, 0x6f); (0x74, 0x69)].

Lemma bottomKind_lattice a b : bottomKind b = Some a → (a, b) ∈ lattice.
Proof.
  unfold bottomKind. intros Hb.
  repeat (match type of Hb with context [if ?c then _ else _] => destruct c eqn:?E end);
    repeat match goal with H : _ || _ = true |- _ => apply orb_true_iff in H as [H|H] end;
    try discriminate Hb; injection Hb as <-; match goal with H : (b =? _) = true |- _ => apply Z.eqb_eq in H as -> end;
    apply list_elem_of_In; cbn; tauto.
Qed.

Lemma isAbstractSubtype_lattice a b : isAbstractSubtype a b = true ↔ a = b ∨ (a, b) ∈ lattice.
Proof.
  split.
  - unfold isAbstractSubtype. intros [Hb%bool_decide_eq_true|Hc]%orb_true_iff; [right; by apply bottomKind_lattice|].
    change (climb 3 a b) with (if a =? b then Some true else match heapTypeParent a with Some p => climb 2 p b | None => Some false end) in Hc.
    destruct (Z.eqb_spec a b) as [->|]; [by left|right].
    destruct (heapTypeParent a) as [p|] eqn:Ep; [|done].
    apply heapTypeParent_cases in Ep as [[-> ->]|[Ha ->]].
    + rewrite climb_any in Hc. cbn [default id] in Hc. apply Z.eqb_eq in Hc as <-. apply list_elem_of_In; cbn; tauto.
    + rewrite climb_eq in Hc. apply list_elem_of_In.
      cbn [default id] in Hc. apply orb_true_iff in Hc as [<-%Z.eqb_eq|<-%Z.eqb_eq]; destruct Ha as [->|[->| ->]]; cbn; tauto.
  - intros [->|H]; [unfold isAbstractSubtype; cbn [climb]; by rewrite Z.eqb_refl, orb_true_r|].
    apply list_elem_of_In in H. cbn in H. repeat (destruct H as [[= <- <-]|H]; [reflexivity|]). done.
Qed.

Lemma isAbstractSubtype_refl a : isAbstractSubtype a a = true.
Proof. apply isAbstractSubtype_lattice. by left. Qed.

Lemma isAbstractSubtype_trans a b c : isAbstractSubtype a b = true → isAbstractSubtype b c = true → isAbstractSubtype a c = true.
Proof.
  rewrite !isAbstractSubtype_lattice. intros [->|H1]; [done|]. intros [<-|H2]; [by right|]. right.
  assert (forallb (λ x, forallb (λ y, negb (snd x =? fst y) || bool_decide ((fst x, snd y) ∈ lattice)) lattice) lattice = true) as H by (by vm_compute).
  rewrite forallb_forall in H. specialize (H _ (proj1 (list_elem_of_In _ _) H1)). rewrite forallb_forall in H.
  specialize (H _ (proj1 (list_elem_of_In _ _) H2)). cbn [fst snd] in H. rewrite Z.eqb_refl in H. by apply bool_decide_eq_true in H.
Qed.
