(* ===== verification/GcSubtype.v ===== *)
(** Subtyping in a validated type section: it is a preorder, its concrete part is the
    closure of the declared supertypes, and a subtype extends the layout of its
    supertypes. *)
From Stdlib Require Import ZArith Lia String.
From stdpp Require Import base list numbers option tactics relations.
From S2P Require Import Prelude GcHeap GcCollect GcOps GcTyping GcTypes.
Local Open Scope Z_scope.
Local Open Scope go_scope.

(** What validation leaves of a type section: supertypes are declared before, open,
    and structurally above. *)
Definition validated (types : list TypeDef) : Prop :=
  ∀ i d, 0 ≤ i → typeAt types i = Some d → HasSupertype d = true → 0 ≤ Supertype d →
  ∃ s, typeAt types (Supertype d) = Some s ∧ Supertype d < i ∧ Extensible s = true ∧ checkSubtypeStructure types i d s = Ok tt.

(** Indices are unsigned words. *)
Definition indexed (types : list TypeDef) : Prop := Forall (λ d, 0 ≤ Supertype d) types.

Lemma typeAt_Some types i d : 0 ≤ i → typeAt types i = Some d ↔ types !! Z.to_nat i = Some d.
Proof.
  intros Hi. unfold typeAt, OutOfRange. destruct (Z.leb_spec (zlen types) i) as [H|H]; [|done]. split; [done|].
  intros E%lookup_lt_Some. unfold zlen in H. lia.
Qed.

Lemma typeAt_range types i d : typeAt types i = Some d → i < zlen types.
Proof. unfold typeAt, OutOfRange. by destruct (Z.leb_spec (zlen types) i). Qed.

Lemma indexed_at types i d : indexed types → typeAt types i = Some d → 0 ≤ Supertype d.
Proof. unfold typeAt. intros H. destruct (OutOfRange _ _); [done|]. by apply (Forall_lookup_1 _ _ _ _ H). Qed.

Lemma validate_types_at gc types l : ∀ i, validate_types gc types l i = Ok tt →
  ∀ k d, l !! k = Some d → validateType gc types (i + Z.of_nat k) d = Ok tt.
Proof.
  induction l as [|t l IH]; intros i Hv k d Hk; [done|]. cbn [validate_types] in Hv. apply obind_Ok in Hv as ([] & Ht & Hv).
  destruct k as [|k]; [injection Hk as <-; by rewrite Z.add_0_r|]. specialize (IH _ Hv k d Hk).
  by replace (i + Z.of_nat (S k)) with (i + 1 + Z.of_nat k) by lia.
Qed.

Lemma validateTypeSection_validated gc types : validateTypeSection gc types = Ok tt → validated types.
Proof.
  intros Hv i d Hi Hd Hs Hs0. rewrite typeAt_Some in Hd by done. pose proof (validate_types_at _ _ _ _ Hv _ _ Hd) as H.
  rewrite Z.add_0_l, Z2Nat.id in H by done. unfold validateType in H. rewrite Hs in H. destruct gc; [|done]. cbn in H.
  destruct (typeAt types (Supertype d)) as [s|]; [|done]. destruct (Extensible s) eqn:Ee; [|done]. cbn in H.
  destruct (Z.leb_spec i (Supertype d)); [done|]. by exists s.
Qed.

Lemma structure_kind types i d s : checkSubtypeStructure types i d s = Ok tt → td_kind d = td_kind s.
Proof. unfold checkSubtypeStructure. by destruct (decide (td_kind d = td_kind s)) as [|?]; [|rewrite bool_decide_false]. Qed.

Section section_.
Context (types : list TypeDef) `{!Canonical types} (Hval : validated types) (Hidx : indexed types).

(** One step up, between canonical indices. *)
Definition cstep (x y : Z) : Prop :=
  0 ≤ x ∧ ∃ d, typeAt types x = Some d ∧ HasSupertype d = true ∧ y = canonicalIndex types (Supertype d).

Lemma canonical_nonneg i : 0 ≤ i → 0 ≤ canonicalIndex types i.
Proof.
  intros Hi. unfold canonicalIndex. destruct (typeAt types i) as [d|] eqn:Ed; [|done].
  destruct (canonical_def i d Hi Ed) as (_ & _ & _ & ? & _). lia.
Qed.

Lemma cstep_nonneg x y : cstep x y → 0 ≤ y.
Proof. intros (Hx & d & Hd & Hs & ->). apply canonical_nonneg. by eapply indexed_at. Qed.

Lemma walk_chain path : ∀ n a t, chain cstep a path t → (length path < n)%nat → concrete_walk n types a t = true.
Proof.
  induction path as [|b path IH]; intros n a t Hc Hl; (destruct n as [|n]; [cbn in Hl; lia|]); cbn [concrete_walk chain] in *.
  - by rewrite Hc, Z.eqb_refl.
  - destruct (a =? t); [done|]. destruct Hc as [(Ha & d & -> & -> & ->) Hc]. cbn in Hl |- *. apply IH; [done|lia].
Qed.

Lemma walk_rtc n : ∀ a t, 0 ≤ a → concrete_walk n types a t = true → rtc cstep a t.
Proof.
  induction n as [|n IH]; intros a t Ha Hw; [done|]. cbn [concrete_walk] in Hw.
  destruct (Z.eqb_spec a t) as [->|]; [done|]. destruct (typeAt types a) as [d|] eqn:Ed; [|done].
  destruct (HasSupertype d) eqn:Es; [|done]. cbn in Hw.
  assert (cstep a (canonicalIndex types (Supertype d))) as Hstep by (split; [done|]; by exists d).
  eapply rtc_l; [exact Hstep|]. apply IH; [by eapply cstep_nonneg|done].
Qed.

(** The walk is the closure of the declared supertypes; its bound is enough. *)
Lemma concreteIsSubtypeOf_rtc a b : 0 ≤ a →
  concreteIsSubtypeOf types a b = true ↔ rtc cstep (canonicalIndex types a) (canonicalIndex types b).
Proof.
  intros Ha. unfold concreteIsSubtypeOf. split; [apply walk_rtc; by apply canonical_nonneg|].
  intros (path & Hc & Hnd)%chain_simple. apply walk_chain with path; [done|].
  pose proof (chain_length cstep (zlen types) _ _ _ ltac:(intros x y (Hx & d & Hd & _); split; [done|by eapply typeAt_range]) Hc Hnd).
  unfold zlen in *. lia.
Qed.

Lemma canonical_kind i d : 0 ≤ i → typeAt types i = Some d →
  ∃ dc, typeAt types (canonicalIndex types i) = Some dc ∧ td_kind dc = td_kind d ∧ canonicalIndex types (canonicalIndex types i) = canonicalIndex types i.
Proof.
  intros Hi Hd. destruct (canonical_def i d Hi Hd) as (dc & Hdc & Hcc & _ & Heq).
  assert (canonicalIndex types i = CanonicalIndex d) as -> by (unfold canonicalIndex; by rewrite Hd).
  exists dc. split_and!; [done|by destruct Heq|]. unfold canonicalIndex. by rewrite Hdc.
Qed.

Lemma cstep_kind x y dx : typeAt types x = Some dx → cstep x y → ∃ dy, typeAt types y = Some dy ∧ td_kind dy = td_kind dx.
Proof.
  intros Hdx (Hx & d & Hd & Hs & ->). rewrite Hdx in Hd. injection Hd as <-.
  pose proof (indexed_at _ _ _ Hidx Hdx) as Hp. destruct (Hval x dx Hx Hdx Hs Hp) as (s & Hsd & _ & _ & Hst).
  destruct (canonical_kind _ _ Hp Hsd) as (dc & Hdc & Hk & _). exists dc. split; [done|]. rewrite Hk. symmetry. by eapply structure_kind.
Qed.

Lemma rtc_kind x y : rtc cstep x y → ∀ dx, typeAt types x = Some dx → ∃ dy, typeAt types y = Some dy ∧ td_kind dy = td_kind dx.
Proof.
  induction 1 as [x|x y z Hxy _ IH]; intros dx Hdx; [by exists dx|].
  destruct (cstep_kind _ _ _ Hdx Hxy) as (dy & Hdy & Hk). destruct (IH dy Hdy) as (dz & Hdz & Hk'). exists dz. split; [done|congruence].
Qed.

(** Subtypes are of one kind; an index that is not a type is below itself only. *)
Lemma subtype_kind a b : 0 ≤ a → 0 ≤ b → concreteIsSubtypeOf types a b = true →
  td_kind <$> typeAt types a = td_kind <$> typeAt types b.
Proof.
  intros Ha Hb Hr%concreteIsSubtypeOf_rtc; [|done]. destruct (typeAt types a) as [da|] eqn:Ea.
  - destruct (canonical_kind _ _ Ha Ea) as (dc & Hdc & Hk & _). destruct (rtc_kind _ _ Hr _ Hdc) as (dy & Hdy & Hk').
    destruct (typeAt types b) as [db|] eqn:Eb; [|by unfold canonicalIndex in Hdy; rewrite Eb, Eb in Hdy].
    destruct (canonical_kind _ _ Hb Eb) as (dc' & Hdc' & Hk'' & _). cbn. f_equal. congruence.
  - replace (canonicalIndex types a) with a in Hr by (unfold canonicalIndex; by rewrite Ea).
    assert (a = canonicalIndex types b) as E by (inversion Hr as [|? ? ? (_ & d & Hd & _) _]; [done|by rewrite Ea in Hd]).
    destruct (typeAt types b) as [db|] eqn:Eb; [|done]. destruct (canonical_kind _ _ Hb Eb) as (dc & Hdc & _). by rewrite <- E, Ea in Hdc.
Qed.

(** ** The preorder *)

Definition topOf (i : Z) : Z := match typeAt types i with Some def => concreteTop (td_kind def) | None => Kind ValueTypeFuncref end.
Definition botOf (i : Z) : Z :=
  match typeAt types i with Some def => default 0 (bottomKind (concreteTop (td_kind def))) | None => Kind ValueTypeNullFuncref end.

Lemma TypeIndex_nonneg v : 0 ≤ TypeIndex v.
Proof. apply wrap_range. lia. Qed.

Lemma subtype_tops a b : 0 ≤ a → 0 ≤ b → concreteIsSubtypeOf types a b = true → topOf a = topOf b ∧ botOf a = botOf b.
Proof.
  intros Ha Hb Hs%subtype_kind; [|done..]. unfold topOf, botOf.
  destruct (typeAt types a) as [da|], (typeAt types b) as [db|]; cbn in Hs; [|done..].
  by injection Hs as ->.
Qed.

Lemma bot_below_top i : isAbstractSubtype (botOf i) (topOf i) = true.
Proof. unfold botOf, topOf. destruct (typeAt types i) as [d|]; [destruct (td_kind d)|]; reflexivity. Qed.

(** The tops and bottoms there are. *)
Lemma top_bot_cases i : topOf i ∈ [0x6b; 0x6a; 0x70] ∧ botOf i ∈ [0x71; 0x73].
Proof. unfold botOf, topOf. destruct (typeAt types i) as [d|]; [destruct (td_kind d)|]; split; apply list_elem_of_In; cbn; tauto. Qed.

(** Nothing but a bottom is below it. *)
Lemma below_bot a i : isAbstractSubtype a (botOf i) = true → a = botOf i.
Proof.
  intros [->|H]%isAbstractSubtype_lattice; [done|]. destruct (top_bot_cases i) as [_ Hb].
  apply list_elem_of_In in H, Hb. cbn in Hb. destruct Hb as [E|[E|[]]]; rewrite <- E in H; cbn in H;
    by repeat (destruct H as [H|H]; [discriminate H|]).
Qed.

Lemma top_not_bot i j : topOf i ≠ botOf j.
Proof.
  destruct (top_bot_cases i) as [Ht _], (top_bot_cases j) as [_ Hb]. intros E. rewrite E in Ht.
  apply list_elem_of_In in Ht, Hb. cbn in *. lia.
Qed.

Lemma isHeapSubtype_unfold a b : isHeapSubtype types a b =
  if IsConcreteRef a then
    if IsConcreteRef b then concreteIsSubtypeOf types (TypeIndex a) (TypeIndex b) else isAbstractSubtype (topOf (TypeIndex a)) (Kind b)
  else if IsConcreteRef b then Kind a =? botOf (TypeIndex b) else isAbstractSubtype (Kind a) (Kind b).
Proof. done. Qed.

Lemma isHeapSubtype_refl a : isHeapSubtype types a a = true.
Proof.
  rewrite isHeapSubtype_unfold. destruct (IsConcreteRef a); [|apply isAbstractSubtype_refl].
  unfold concreteIsSubtypeOf. cbn [concrete_walk]. by rewrite Z.eqb_refl.
Qed.

Lemma isHeapSubtype_trans a b c : isHeapSubtype types a b = true → isHeapSubtype types b c = true → isHeapSubtype types a c = true.
Proof.
  rewrite !isHeapSubtype_unfold. pose proof (TypeIndex_nonneg a) as Ha. pose proof (TypeIndex_nonneg b) as Hb. pose proof (TypeIndex_nonneg c) as Hc.
  destruct (IsConcreteRef a), (IsConcreteRef b), (IsConcreteRef c); intros H1 H2.
  - apply concreteIsSubtypeOf_rtc in H1, H2; [|done..]. apply concreteIsSubtypeOf_rtc; [done|]. by etrans.
  - apply subtype_tops in H1 as [-> _]; done.
  - apply Z.eqb_eq in H2. rewrite H2 in H1. by apply below_bot, top_not_bot in H1.
  - by eapply isAbstractSubtype_trans.
  - apply subtype_tops in H2 as [_ <-]; done.
  - apply Z.eqb_eq in H1 as ->. eapply isAbstractSubtype_trans; [apply bot_below_top|done].
  - apply Z.eqb_eq in H2. rewrite H2 in H1. apply below_bot in H1. by apply Z.eqb_eq.
  - by eapply isAbstractSubtype_trans.
Qed.

Lemma refTypeMatches_spec a b : refTypeMatches types a b = true ↔
  IsRef a = true ∧ IsRef b = true ∧ (IsNullable a = true → IsNullable b = true) ∧ isHeapSubtype types a b = true.
Proof.
  unfold refTypeMatches. destruct (IsRef a), (IsRef b), (IsNullable a), (IsNullable b); cbn; intuition congruence.
Qed.

Lemma valueTypeMatches_trans a b c : valueTypeMatches types a b = true → valueTypeMatches types b c = true → valueTypeMatches types a c = true.
Proof.
  unfold valueTypeMatches. intros [->%Z.eqb_eq|H1]%orb_true_iff; [done|].
  intros [<-%Z.eqb_eq|H2]%orb_true_iff; [by rewrite H1, orb_true_r|].
  apply refTypeMatches_spec in H1 as (Ha & _ & Hn1 & H1). apply refTypeMatches_spec in H2 as (_ & Hc & Hn2 & H2). apply orb_true_iff. right.
  apply refTypeMatches_spec. split_and!; auto. by eapply isHeapSubtype_trans.
Qed.

(** ** What a subtype offers *)

Definition field_sub (f' f : FieldType) : Prop :=
  f_mutable f' = f_mutable f ∧ valueTypeMatches types (f_type f') (f_type f) = true ∧
  (f_mutable f = true → valueTypeMatches types (f_type f) (f_type f') = true).

(** Every field of the supertype is there, at its place. *)
Definition fields_sub (l' l : list FieldType) : Prop := ∀ k f, l !! k = Some f → ∃ f', l' !! k = Some f' ∧ field_sub f' f.

Definition matches (v' v : Z) : Prop := valueTypeMatches types v' v = true.

(** A value of the first type can be used as one of the second: called with the
    arguments of the second, read and written at its fields. *)
Definition def_sub (d' d : TypeDef) : Prop :=
  td_kind d' = td_kind d ∧
  match td_kind d with
  | CompositeKindFunc => Forall2 matches (Params d) (Params d') ∧ Forall2 matches (Results d') (Results d)
  | _ => fields_sub (td_fields d') (td_fields d)
  end.

#[local] Instance matches_preorder : PreOrder matches.
Proof using Type*. split; [intros a; unfold matches, valueTypeMatches; by rewrite Z.eqb_refl|intros a b c; apply valueTypeMatches_trans]. Qed.

Lemma field_sub_trans f1 f2 f3 : field_sub f1 f2 → field_sub f2 f3 → field_sub f1 f3.
Proof using Type*.
  intros (E1 & H1 & M1) (E2 & H2 & M2). split_and!; [congruence|by eapply valueTypeMatches_trans|].
  intros Hm. eapply valueTypeMatches_trans; [by apply M2|]. apply M1. congruence.
Qed.

Lemma fields_sub_trans l1 l2 l3 : fields_sub l1 l2 → fields_sub l2 l3 → fields_sub l1 l3.
Proof using Type*.
  intros H1 H2 k f Hf. destruct (H2 k f Hf) as (f2 & Hf2 & Hs2). destruct (H1 k f2 Hf2) as (f1 & Hf1 & Hs1).
  exists f1. split; [done|by eapply field_sub_trans].
Qed.

Lemma def_sub_trans d1 d2 d3 : def_sub d1 d2 → def_sub d2 d3 → def_sub d1 d3.
Proof using Type*.
  unfold def_sub. intros [E1 H1] [E2 H2]. rewrite E2 in H1. split; [congruence|].
  destruct (td_kind d3); [|by eapply fields_sub_trans..]. destruct H1 as [P1 R1], H2 as [P2 R2]. split; by etrans.
Qed.

(** Words that differ in names of one canonical type match both ways. *)
Lemma vt_equiv_matches v v' : vt_equiv (λ x y, canonicalIndex types x = canonicalIndex types y) v v' → matches v v' ∧ matches v' v.
Proof using Type*.
  intros [Ec|w Ec Ec' En HR]; [by split|].
  assert (∀ a b, IsConcreteRef a = true → IsConcreteRef b = true → IsNullable a = IsNullable b →
    canonicalIndex types (TypeIndex a) = canonicalIndex types (TypeIndex b) → matches a b) as H; [|by split; apply H].
  intros a b Ha Hb Hn Hc. unfold matches, valueTypeMatches. apply orb_true_iff. right. apply refTypeMatches_spec.
  assert (∀ x, IsConcreteRef x = true → IsRef x = true) as Hr by (intros x Hx; unfold IsRef, IsConcreteRef in *; by rewrite Hx, orb_true_r).
  split_and!; [by apply Hr..|by rewrite Hn|]. rewrite isHeapSubtype_unfold, Ha, Hb.
  apply concreteIsSubtypeOf_rtc; [apply TypeIndex_nonneg|by rewrite Hc].
Qed.

Lemma Forall2_lookup_sub {A} (P Q : A → A → Prop) l l' : (∀ a b, P a b → Q b a) → Forall2 P l l' → ∀ k b, l' !! k = Some b → ∃ a, l !! k = Some a ∧ Q b a.
Proof using Type*. clear. intros H HF k b Hb. destruct (Forall2_lookup_r _ _ _ _ _ HF Hb) as (a & Ha & HP). eauto. Qed.

Lemma equiv_def_sub d dc : def_equiv (λ x y, canonicalIndex types x = canonicalIndex types y) d dc → def_sub d dc ∧ def_sub dc d.
Proof using Type*.
  intros [Hk HP HR HF Hh Hx Hs]. unfold def_sub. rewrite Hk. 
  assert (∀ f f', field_equiv (λ x y, canonicalIndex types x = canonicalIndex types y) f f' → field_sub f f' ∧ field_sub f' f) as Hf.
  { intros f f' [Em Et]. apply vt_equiv_matches in Et as [H1 H2]. by repeat split. }
  destruct (td_kind dc) eqn:Ek.
  - split; split; [done| |done|]; split; [apply Forall2_flip; eapply Forall2_impl; [exact HP|]|eapply Forall2_impl; [exact HR|]|
      eapply Forall2_impl; [exact HP|]|apply Forall2_flip; eapply Forall2_impl; [exact HR|]]; intros v v' Hv; by apply vt_equiv_matches in Hv as [? ?].
  - rewrite Hk in HF. specialize (HF ltac:(done)). split; (split; [done|]); intros k f Hkf.
    + destruct (Forall2_lookup_r _ _ _ _ _ HF Hkf) as (f' & ? & [? ?]%Hf). eauto.
    + destruct (Forall2_lookup_l _ _ _ _ _ HF Hkf) as (f' & ? & [? ?]%Hf). eauto.
  - rewrite Hk in HF. specialize (HF ltac:(done)). split; (split; [done|]); intros k f Hkf.
    + destruct (Forall2_lookup_r _ _ _ _ _ HF Hkf) as (f' & ? & [? ?]%Hf). eauto.
    + destruct (Forall2_lookup_l _ _ _ _ _ HF Hkf) as (f' & ? & [? ?]%Hf). eauto.
Qed.

Lemma first_mismatch_None {A} (ok : A → A → bool) l1 : ∀ l2 j, (length l2 ≤ length l1)%nat → first_mismatch ok l1 l2 j = None →
  ∀ k b, l2 !! k = Some b → ∃ a, l1 !! k = Some a ∧ ok a b = true.
Proof using Type*.
  clear. induction l1 as [|a l1 IH]; intros [|b l2] j Hl Hm k c Hk; try done; [cbn in Hl; lia|].
  cbn in Hm. destruct (ok a b) eqn:Eo; [|done]. destruct k as [|k]; [injection Hk as <-; by exists a|].
  apply (IH l2 (j + 1)); [cbn in Hl; lia|done|done].
Qed.

Lemma first_mismatch_Forall2 {A} (ok : A → A → bool) l1 l2 j : length l1 = length l2 → first_mismatch ok l1 l2 j = None → Forall2 (λ a b, ok a b = true) l1 l2.
Proof using Type*.
  clear. intros Hl Hm. apply Forall2_same_length_lookup. split; [done|]. intros k a b Ha Hb.
  destruct (first_mismatch_None ok l1 l2 j ltac:(lia) Hm k b Hb) as (a' & Ha' & ?). by simplify_eq.
Qed.

Lemma checkFieldSubtype_sub f' f : checkFieldSubtype types f' f = true → field_sub f' f.
Proof using Type*.
  unfold checkFieldSubtype, field_sub. destruct (eqb (f_mutable f') (f_mutable f)) eqn:E; [|done]. apply eqb_prop in E. cbn [negb].
  destruct (f_mutable f) eqn:Em; intros H; [|by rewrite E].
  apply Z.eqb_eq in H as ->. unfold valueTypeMatches. by rewrite Z.eqb_refl.
Qed.

(** Structural validation is the relation; that the panic of an array without an
    element is not reached is part of the hypothesis. *)
Lemma structure_def_sub i d s : (td_kind s = CompositeKindArray → length (td_fields s) = 1%nat) →
  checkSubtypeStructure types i d s = Ok tt → def_sub d s.
Proof using Type*.
  intros Harr H. pose proof (structure_kind _ _ _ _ H) as Hk. split; [done|]. unfold checkSubtypeStructure in H. rewrite bool_decide_true in H by done.
  cbn [negb] in H. rewrite Hk in H. destruct (td_kind s) eqn:Es.
  - destruct (negb (zlen (Params d) =? zlen (Params s))) eqn:E1; [done|]. destruct (negb (zlen (Results d) =? zlen (Results s))) eqn:E2; [done|].
    apply negb_false_iff, Z.eqb_eq in E1, E2. unfold zlen in E1, E2. cbn [orb] in H.
    destruct (first_mismatch _ (Params d) _ 0) eqn:Ep; [done|]. destruct (first_mismatch _ (Results d) _ 0) eqn:Er; [done|].
    split; [apply Forall2_flip|]; (eapply first_mismatch_Forall2; [|eassumption]; lia).
  - destruct (Z.ltb_spec (zlen (td_fields d)) (zlen (td_fields s))) as [|Hl]; [done|]. assert (length (td_fields s) ≤ length (td_fields d))%nat as Hl' by (unfold zlen in Hl; lia).
    destruct (first_mismatch _ _ _ 0) eqn:Ef; [done|]. intros k f Hf.
    destruct (first_mismatch_None _ _ _ _ Hl' Ef k f Hf) as (f' & Hf' & ?). exists f'. split; [done|by apply checkFieldSubtype_sub].
  - specialize (Harr eq_refl). destruct (td_fields d) as [|f' l'], (td_fields s) as [|f l]; try done.
    destruct (checkFieldSubtype types f' f) eqn:E; [|done]. destruct l; [|done]. intros [|k] f0 Hf; [|done]. injection Hf as <-.
    exists f'. split; [done|by apply checkFieldSubtype_sub].
Qed.

Context (Harr : Forall (λ d, td_kind d = CompositeKindArray → length (td_fields d) = 1%nat) types).

Lemma cstep_def_sub x y dx dy : typeAt types x = Some dx → typeAt types y = Some dy → cstep x y → def_sub dx dy.
Proof using Type*.
  intros Hdx Hdy (Hx & d & Hd & Hs & ->). rewrite Hdx in Hd. injection Hd as <-.
  pose proof (indexed_at _ _ _ Hidx Hdx) as Hp. destruct (Hval x dx Hx Hdx Hs Hp) as (s & Hsd & _ & _ & Hst).
  apply def_sub_trans with s.
  - eapply structure_def_sub; [|done]. unfold typeAt in Hsd. destruct (OutOfRange _ _); [done|]. exact (Forall_lookup_1 _ _ _ _ Harr Hsd).
  - destruct (canonical_def _ _ Hp Hsd) as (dc & Hdc & _ & _ & Heq). unfold canonicalIndex in Hdy. rewrite Hsd, Hdc in Hdy. injection Hdy as <-.
    exact (proj1 (equiv_def_sub _ _ Heq)).
Qed.

Lemma def_sub_refl d : def_sub d d.
Proof using Type*.
  split; [done|]. assert (fields_sub (td_fields d) (td_fields d)) as Hf.
  { intros k f Hk. exists f. split; [done|]. unfold field_sub, valueTypeMatches. by rewrite Z.eqb_refl. }
  by destruct (td_kind d).
Qed.

Lemma rtc_def_sub x y : rtc cstep x y → ∀ dx dy, typeAt types x = Some dx → typeAt types y = Some dy → def_sub dx dy.
Proof using Type*.
  induction 1 as [x|x y z Hxy _ IH]; intros dx dz Hdx Hdz; [simplify_eq; apply def_sub_refl|].
  destruct (cstep_kind _ _ _ Hdx Hxy) as (dy & Hdy & _). apply def_sub_trans with dy; [by eapply cstep_def_sub|by apply IH].
Qed.

Lemma subtype_def_sub i j di dj : 0 ≤ i → 0 ≤ j → typeAt types i = Some di → typeAt types j = Some dj →
  concreteIsSubtypeOf types i j = true → def_sub di dj.
Proof using Type*.
  intros Hi Hj Hdi Hdj Hs%concreteIsSubtypeOf_rtc; [|done].
  destruct (canonical_def _ _ Hi Hdi) as (ci & Hci & _ & _ & Ei), (canonical_def _ _ Hj Hdj) as (cj & Hcj & _ & _ & Ej).
  apply equiv_def_sub in Ei as [? _], Ej as [_ ?]. unfold canonicalIndex in Hs. rewrite Hdi, Hdj in Hs.
  apply def_sub_trans with ci; [done|]. apply def_sub_trans with cj; [|done]. by eapply rtc_def_sub.
Qed.
End section_.

(** * Layout *)

Definition layout_of (d : TypeDef) : FunctionType := CacheFieldSlots (mkFT (td_kind d) (f_type <$> td_fields d) None).

Lemma numeric_match types a b : valueTypeMatches types a b = true → a = b ∨ IsRef a = true ∧ IsRef b = true.
Proof. intros [H%Z.eqb_eq|(H1 & H2 & _)%refTypeMatches_spec]%orb_true_iff; auto. Qed.

Lemma match_slots types a b : valueTypeMatches types a b = true → SlotsForStorageType a = SlotsForStorageType b.
Proof.
  intros [->|[Ha Hb]]%numeric_match; [done|].
  assert (∀ v, IsRef v = true → SlotsForStorageType v = 1) as H; [|by rewrite !H].
  intros v Hv. unfold SlotsForStorageType. destruct (Z.eqb_spec v ValueTypeV128) as [->|]; [by vm_compute in Hv|done].
Qed.

(** A field that is in both starts at one slot in both. *)
Lemma fields_sub_slots types l : ∀ l' slot, fields_sub types l' l → ∀ k f, l !! k = Some f →
  field_slots (f_type <$> l') slot !! k = field_slots (f_type <$> l) slot !! k.
Proof.
  induction l as [|f l IH]; intros l' slot Hsub k g Hk; [done|].
  destruct (Hsub 0%nat f eq_refl) as (f' & Hf' & _ & Hm & _). destruct l' as [|f0 l']; [done|]. injection Hf' as ->.
  destruct k as [|k]; [done|]. cbn. rewrite (match_slots _ _ _ Hm). apply (IH l' _) with g; [|done].
  intros k' f1 Hk'. exact (Hsub (S k') f1 Hk').
Qed.
