(* ===== verification/GcTypeKeys.v ===== *)
(** The structural keys of types, of [internal/wasm/gc.go] and [module.go]: two rec
    groups have one key exactly when they are the same group. *)
From Stdlib Require Import ZArith Lia String Ascii.
From Stdlib Require Import DecimalString DecimalN.
From stdpp Require Import base list numbers option tactics strings sets.
From S2P Require Import Prelude GcHeap GcCollect GcOps GcTypes.
Local Open Scope string_scope.
Local Open Scope Z_scope.

(** * Names and keys *)

(** [strconv.FormatUint] in base 10. *)
Definition FormatUint (n : Z) : string := NilEmpty.string_of_uint (N.to_uint (Z.to_N n)).

(** The heap and the short name of a type of [gcRefNames]. *)
Definition gcRefNames (t : Z) : option (string * string) :=
  if t =? ValueTypeNullExnref then Some ("noexn", "nullexnref")
  else if t =? ValueTypeNullFuncref then Some ("nofunc", "nullfuncref")
  else if t =? ValueTypeNullExternref then Some ("noextern", "nullexternref")
  else if t =? ValueTypeNullref then Some ("none", "nullref")
  else if t =? ValueTypeAnyref then Some ("any", "anyref")
  else if t =? ValueTypeEqref then Some ("eq", "eqref")
  else if t =? ValueTypeI31ref then Some ("i31", "i31ref")
  else if t =? ValueTypeStructref then Some ("struct", "structref")
  else if t =? ValueTypeArrayref then Some ("array", "arrayref")
  else None.

Definition ValueTypeName (t : Z) : string :=
  if IsConcreteRef t then
    if IsNullable t then "(ref null " +:+ FormatUint (TypeIndex t) +:+ ")" else "(ref " +:+ FormatUint (TypeIndex t) +:+ ")"
  else
    let u := AsNullable t in
    if u =? ValueTypeI32 then "i32"
    else if u =? ValueTypeI64 then "i64"
    else if u =? ValueTypeF32 then "f32"
    else if u =? ValueTypeF64 then "f64"
    else if u =? ValueTypeV128 then "v128"
    else if u =? ValueTypeFuncref then if negb (IsNullable t) then "(ref func)" else "funcref"
    else if u =? ValueTypeExternref then if negb (IsNullable t) then "(ref extern)" else "externref"
    else if u =? ValueTypeExnref then if negb (IsNullable t) then "(ref exn)" else "exnref"
    else if u =? ValueTypeI8 then "i8"
    else if u =? ValueTypeI16 then "i16"
    else match gcRefNames u with
         | Some (heap, short) => if negb (IsNullable t) then "(ref " +:+ heap +:+ ")" else short
         | None => "unknown"
         end.

Definition concat_str (l : list string) : string := foldr String.append "" l.

(** [writeCompositeKey], without the buffer it appends to. *)
Definition writeCompositeKey (f : TypeDef) (super : string) (fieldName : Z → string) : string :=
  match td_kind f with
  | CompositeKindFunc => ""
  | k => "|" +:+ (if decide (k = CompositeKindStruct) then "struct" else "array") +:+
         concat_str ((λ fd, " " +:+ (if f_mutable fd then "mut " else "") +:+ fieldName (f_type fd)) <$> td_fields f)
  end +:+
  (if HasSupertype f then "|sub" +:+ super else "") +:+
  (if Extensible f then "|open" else "").

(** [FunctionType.buildKey], which [key] caches. *)
Definition buildKey (f : TypeDef) : string :=
  concat_str (ValueTypeName <$> Params f) +:+
  (match Params f with [] => "v_" | _ => "_" end) +:+
  concat_str (ValueTypeName <$> Results f) +:+
  (match Results f with [] => "v" | _ => "" end) +:+
  (if 1 <? RecGroupSize f then "|rec" +:+ FormatUint (RecGroupPosition f) +:+ "/" +:+ FormatUint (RecGroupSize f) else "") +:+
  writeCompositeKey f (FormatUint (Supertype f)) ValueTypeName.

Definition kindNumber (k : CompositeKind) : Z :=
  match k with CompositeKindFunc => 0 | CompositeKindStruct => 1 | CompositeKindArray => 2 end.

Section keys.
Context (start end_ : Z) (refOutside : Z → string).

(** The closures of [RecGroupKey]. *)
Definition ref_key (idx : Z) : string :=
  if (start <=? idx) && (idx <? end_) then "@" +:+ FormatUint (idx - start) else refOutside idx.

Definition valueType_key (vt : Z) : string :=
  if negb (IsConcreteRef vt) then ValueTypeName vt
  else if IsNullable vt then "null" +:+ ref_key (TypeIndex vt)
  else ref_key (TypeIndex vt).

(** One round of its loop. *)
Definition member_key (t : TypeDef) : string :=
  "k" +:+ FormatUint (kindNumber (td_kind t)) +:+
  concat_str ((λ p, " " +:+ valueType_key p) <$> Params t) +:+ "_" +:+
  concat_str ((λ r, " " +:+ valueType_key r) <$> Results t) +:+
  writeCompositeKey t (if HasSupertype t then ref_key (Supertype t) else "none") valueType_key +:+ ";".
End keys.

(** The slice [types[start:end]]. *)
Definition slice (types : list TypeDef) (start end_ : Z) : list TypeDef := take (Z.to_nat (end_ - start)) (drop (Z.to_nat start) types).

Definition RecGroupKey (types : list TypeDef) (start end_ : Z) (refOutside : Z → string) : string :=
  concat_str (member_key start end_ refOutside <$> slice types start end_).

(** * Reading strings back *)

Lemma str_app_cons c a b : String c a +:+ b = String c (a +:+ b).
Proof. done. Qed.

Lemma str_app_assoc (a b c : string) : (a +:+ b) +:+ c = a +:+ (b +:+ c).
Proof. induction a as [|x a IH]; [done|]. by rewrite !str_app_cons, IH. Qed.

Lemma str_app_nil (a : string) : a +:+ "" = a.
Proof. induction a as [|x a IH]; [done|]. by rewrite str_app_cons, IH. Qed.

Lemma str_app_inj_l (w a b : string) : w +:+ a = w +:+ b → a = b.
Proof. induction w as [|x w IH]; [done|]. rewrite !str_app_cons. intros [= H]. auto. Qed.

Definition is_term (c : ascii) : bool := existsb (Ascii.eqb c) [" "; "_"; "|"; ";"]%char.

(** No character of [w] ends a word. *)
Fixpoint free (w : string) : bool := match w with EmptyString => true | String c w => negb (is_term c) && free w end.

(** [s] is empty or begins with a character that ends a word. *)
Definition ends (s : string) : bool := match s with EmptyString => true | String c _ => is_term c end.

Lemma free_split w : ∀ w' s s', free w = true → free w' = true → ends s = true → ends s' = true → w +:+ s = w' +:+ s' → w = w' ∧ s = s'.
Proof.
  induction w as [|c w IH]; intros [|c' w'] s s' Hw Hw' Hs Hs' E; rewrite ?str_app_cons in E.
  - done.
  - change ("" +:+ s) with s in E. rewrite E in Hs. cbn in Hs, Hw'. by rewrite Hs in Hw'.
  - change ("" +:+ s') with s' in E. rewrite <- E in Hs'. cbn in Hs', Hw. by rewrite Hs' in Hw.
  - injection E as -> E. cbn in Hw, Hw'. apply andb_true_iff in Hw as [_ Hw], Hw' as [_ Hw'].
    by destruct (IH w' s s' Hw Hw' Hs Hs' E) as [-> ->].
Qed.

Lemma free_app a b : free (a +:+ b) = free a && free b.
Proof. induction a as [|c a IH]; [done|]. rewrite str_app_cons. cbn. by rewrite IH, andb_assoc. Qed.

Lemma FormatUint_free n : free (FormatUint n) = true.
Proof. unfold FormatUint. generalize (N.to_uint (Z.to_N n)). intros d. by induction d. Qed.

Lemma FormatUint_inj a b : 0 ≤ a → 0 ≤ b → FormatUint a = FormatUint b → a = b.
Proof.
  intros Ha Hb E. apply (f_equal NilEmpty.uint_of_string) in E. unfold FormatUint in E. rewrite !NilEmpty.usu in E. injection E as E.
  apply Unsigned.to_uint_inj in E. lia.
Qed.

Definition first (s : string) : option ascii := match s with EmptyString => None | String c _ => Some c end.

(** The spellings of value types: without separators, or one of the names that
    begin with an opening parenthesis. *)
Definition core (w : string) : string := substring 5 (String.length w) w.
Definition word (w : string) : bool :=
  free w && bool_decide (first w ≠ Some "("%char) || bool_decide (w = "(ref " +:+ core w) && free (core w).

Lemma word_inv w : word w = true → (free w = true ∧ first w ≠ Some "("%char) ∨ ∃ c, w = "(ref " +:+ c ∧ free c = true.
Proof.
  unfold word. intros [[H1 H2%bool_decide_eq_true]%andb_true_iff|[H1%bool_decide_eq_true H2]%andb_true_iff]%orb_true_iff; [by left|right; eauto].
Qed.

Lemma first_app w s : ends s = true → first (w +:+ s) = Some "("%char → first w = Some "("%char.
Proof. destruct w as [|c w]; [|done]. change ("" +:+ s) with s. intros Hs E. destruct s as [|c s]; [done|]. injection E as ->. by vm_compute in Hs. Qed.

Lemma word_split w w' s s' : word w = true → word w' = true → ends s = true → ends s' = true → w +:+ s = w' +:+ s' → w = w' ∧ s = s'.
Proof.
  intros [[Hw Hf]|(c & -> & Hc)]%word_inv [[Hw' Hf']|(c' & -> & Hc')]%word_inv Hs Hs' E.
  - by apply free_split.
  - destruct Hf. apply (first_app w s Hs). by rewrite E.
  - destruct Hf'. apply (first_app w' s' Hs'). by rewrite <- E.
  - rewrite !str_app_assoc in E. apply str_app_inj_l in E. by destruct (free_split c c' s s' Hc Hc' Hs Hs' E) as [-> ->].
Qed.

(** A list of items, each after a space. *)
Section items.
Context {A : Type} (item : A → string) (ok : A → bool).
Hypothesis Hitem : ∀ a a' s s', ok a = true → ok a' = true → ends s = true → ends s' = true → item a +:+ s = item a' +:+ s' → a = a' ∧ s = s'.

(** [s] ends the list as well. *)
Definition closes (s : string) : bool := match s with EmptyString => true | String c _ => is_term c && negb (Ascii.eqb c " ") end.

Lemma closes_ends s : closes s = true → ends s = true.
Proof. destruct s as [|c s]; [done|]. cbn. by intros [? _]%andb_true_iff. Qed.

Definition items (l : list A) : string := concat_str ((λ a, " " +:+ item a) <$> l).

Lemma items_cons a l s : items (a :: l) +:+ s = String " " (item a +:+ (items l +:+ s)).
Proof. unfold items. cbn. by rewrite !str_app_assoc. Qed.

Lemma items_ends l s : closes s = true → ends (items l +:+ s) = true.
Proof. destruct l; [apply closes_ends|done]. Qed.

Lemma items_split l : ∀ l' s s', forallb ok l = true → forallb ok l' = true → closes s = true → closes s' = true →
  items l +:+ s = items l' +:+ s' → l = l' ∧ s = s'.
Proof.
  induction l as [|a l IH]; intros [|a' l'] s s' Hl Hl' Hs Hs' E; rewrite ?items_cons in E.
  - done.
  - change (items [] +:+ s) with s in E. by rewrite E in Hs.
  - change (items [] +:+ s') with s' in E. by rewrite <- E in Hs'.
  - cbn in Hl, Hl'. apply andb_true_iff in Hl as [Ha Hl], Hl' as [Ha' Hl']. injection E as E.
    apply Hitem in E as [-> E]; [|done|done|by apply items_ends..]. by destruct (IH l' s s' Hl Hl' Hs Hs' E) as [-> ->].
Qed.
End items.

(** * The value types of the binary format *)

Definition numeric_types : list Z := [ValueTypeI32; ValueTypeI64; ValueTypeF32; ValueTypeF64; ValueTypeV128; ValueTypeI8; ValueTypeI16].
Definition abstract_refs : list Z :=
  [ValueTypeExnref; ValueTypeArrayref; ValueTypeStructref; ValueTypeI31ref; ValueTypeEqref; ValueTypeAnyref; ValueTypeExternref;
   ValueTypeFuncref; ValueTypeNullref; ValueTypeNullExternref; ValueTypeNullFuncref; ValueTypeNullExnref].
Definition abstract_types : list Z := numeric_types ++ abstract_refs ++ (AsNonNullable <$> abstract_refs).

(** The words that encode a value or storage type. *)
Definition valid_vt (v : Z) : bool :=
  if IsConcreteRef v then bool_decide (v = ValueTypeConcreteRef (TypeIndex v) (IsNullable v)) else bool_decide (v ∈ abstract_types).

Definition valid_def (d : TypeDef) : bool :=
  forallb valid_vt (Params d) && forallb valid_vt (Results d) && forallb (λ f, valid_vt (f_type f)) (td_fields d).

Lemma abstract_names : Forall (λ v, word (ValueTypeName v) = true ∧ (first (ValueTypeName v) ∉ [Some "m"; Some "@"; Some "#"; Some "?"]%char) ∧
  (substring 0 4 (ValueTypeName v) = "null" → (first (substring 4 1 (ValueTypeName v)) ∉ [Some "@"; Some "#"; Some "?"]%char))) abstract_types.
Proof. apply (bool_decide_eq_true _). vm_compute. reflexivity. Qed.

Lemma abstract_names_inj : NoDup (ValueTypeName <$> abstract_types).
Proof. apply (bool_decide_eq_true _). vm_compute. reflexivity. Qed.

Lemma name_inj v v' : v ∈ abstract_types → v' ∈ abstract_types → ValueTypeName v = ValueTypeName v' → v = v'.
Proof.
  intros (i & Hi)%list_elem_of_lookup_1 (j & Hj)%list_elem_of_lookup_1 E.
  assert (i = j) as -> by (eapply NoDup_lookup; [exact abstract_names_inj|by rewrite list_lookup_fmap, Hi|rewrite list_lookup_fmap, Hj; cbn; by rewrite E]).
  congruence.
Qed.

(** [no_first H] closes a goal whose [H] lists an impossible first character. *)
Ltac no_first H := apply list_elem_of_In in H; cbn in H; repeat (destruct H as [H|H]; [discriminate H|]); destruct H.

(** How a caller of [RecGroupKey] spells the references that leave the group. *)
Definition outside_key (s : string) : bool := free s && bool_decide (first s ∈ [Some "#"; Some "?"]%char).

Section groups.
Context (start end_ start' end_' : Z) (out out' : Z → string).
Hypothesis Hout : ∀ i, outside_key (out i) = true.
Hypothesis Hout' : ∀ i, outside_key (out' i) = true.

Abbreviation ref := (ref_key start end_ out).
Abbreviation ref' := (ref_key start' end_' out').

(** Two references are the same: by position inside their groups, by the caller's
    identity outside. *)
Inductive ref_equiv (R : Z → Z → Prop) (i j : Z) : Prop :=
| ref_inside : start ≤ i < end_ → start' ≤ j < end_' → i - start = j - start' → ref_equiv R i j
| ref_outside : ¬ start ≤ i < end_ → ¬ start' ≤ j < end_' → R i j → ref_equiv R i j.

Lemma inside_spec s e i : (s <=? i) && (i <? e) = true ↔ s ≤ i < e.
Proof. lia. Qed.

Lemma ref_key_equiv i j : ref i = ref' j ↔ ref_equiv (λ i j, out i = out' j) i j.
Proof.
  unfold ref_key. pose proof (Hout i) as Hi. pose proof (Hout' j) as Hj. unfold outside_key in Hi, Hj.
  apply andb_true_iff in Hi as [_ Hi%bool_decide_eq_true], Hj as [_ Hj%bool_decide_eq_true].
  destruct ((start <=? i) && (i <? end_)) eqn:E1, ((start' <=? j) && (j <? end_')) eqn:E2;
    rewrite <- ?not_true_iff_false, ?inside_spec in E1, E2.
  - split.
    + intros E%str_app_inj_l%FormatUint_inj; [by constructor|lia..].
    + intros [_ _ ->|H]; [done|lia].
  - split; [|intros [|]; lia]. intros E. rewrite <- E in Hj. no_first Hj.
  - split; [|intros [|]; lia]. intros E. rewrite E in Hi. no_first Hi.
  - split; [by constructor|]. by intros [|].
Qed.
End groups.

Section ref_words.
Context (start end_ : Z) (out : Z → string) (Hout : ∀ i, outside_key (out i) = true).

Lemma ref_key_word i : free (ref_key start end_ out i) = true ∧ first (ref_key start end_ out i) ∈ [Some "@"; Some "#"; Some "?"]%char.
Proof.
  unfold ref_key. destruct (_ && _); [split; [rewrite free_app, FormatUint_free; done|apply list_elem_of_In; by left]|].
  pose proof (Hout i) as [H1 H2%bool_decide_eq_true]%andb_true_iff. split; [done|by right].
Qed.

Lemma valueType_key_word v : valid_vt v = true →
  word (valueType_key start end_ out v) = true ∧ first (valueType_key start end_ out v) ≠ Some "m"%char.
Proof.
  unfold valid_vt, valueType_key. destruct (IsConcreteRef v); cbn [negb]; intros H%bool_decide_eq_true.
  - destruct (ref_key_word (TypeIndex v)) as [Hf Hh]. destruct (IsNullable v).
    + split; [|done]. unfold word. apply orb_true_iff. left. rewrite free_app, Hf. done.
    + split; [unfold word; apply orb_true_iff; left; rewrite Hf; apply bool_decide_eq_true|];
        intros E; rewrite E in Hh; no_first Hh.
  - destruct (proj1 (list.Forall_forall _ _) abstract_names v H) as (Hw & Hm & _). split; [done|]. intros E. rewrite E in Hm. apply Hm, list_elem_of_In. by left.
Qed.
End ref_words.

Lemma name_not_ref v r : v ∈ abstract_types → first r ∈ [Some "@"; Some "#"; Some "?"]%char →
  ValueTypeName v ≠ r ∧ ValueTypeName v ≠ "null" +:+ r.
Proof.
  intros Hv Hr. destruct (proj1 (list.Forall_forall _ _) abstract_names v Hv) as (_ & H1 & H2). split; intros E; rewrite E in H1, H2.
  - apply H1. by right.
  - destruct r as [|c r]; [by no_first Hr|]. apply H2; [reflexivity|done].
Qed.

Lemma list_map_equiv {A B} (f g : A → B) (P : A → A → Prop) l l' :
  (∀ a a', a ∈ l → a' ∈ l' → f a = g a' ↔ P a a') → f <$> l = g <$> l' ↔ Forall2 P l l'.
Proof.
  revert l'. induction l as [|a l IH]; intros [|a' l'] H; cbn.
  - split; [constructor|done].
  - split; [done|inversion 1].
  - split; [done|inversion 1].
  - assert (f <$> l = g <$> l' ↔ Forall2 P l l') as IH' by (apply IH; intros; apply H; by right).
    specialize (H a a' ltac:(by left) ltac:(by left)). split.
    + intros [= E1 E2]. constructor; [by apply H|by apply IH'].
    + intros (E1 & E2)%Forall2_cons. f_equal; [by apply H|by apply IH'].
Qed.
Definition field_item (f : bool * string) : string := (if f.1 then "mut " else "") +:+ f.2.
Definition field_ok (f : bool * string) : bool := word f.2 && bool_decide (first f.2 ≠ Some "m"%char).

Lemma field_split f f' s s' : field_ok f = true → field_ok f' = true → ends s = true → ends s' = true →
  field_item f +:+ s = field_item f' +:+ s' → f = f' ∧ s = s'.
Proof.
  unfold field_ok, field_item. destruct f as [m w], f' as [m' w']. cbn [fst snd].
  intros [Hw Hm%bool_decide_eq_true]%andb_true_iff [Hw' Hm'%bool_decide_eq_true]%andb_true_iff Hs Hs' E. rewrite !str_app_assoc in E.
  assert (m = m') as <-.
  { destruct m, m'; try done; exfalso.
    - destruct w' as [|c w']; [|apply Hm'; by injection E as ->]. change ("" +:+ ("" +:+ s')) with s' in E. by rewrite <- E in Hs'.
    - destruct w as [|c w]; [|apply Hm; by injection E as ->]. change ("" +:+ ("" +:+ s)) with s in E. by rewrite E in Hs. }
  apply str_app_inj_l in E. by destruct (word_split w w' s s' Hw Hw' Hs Hs' E) as [-> ->].
Qed.

Lemma open_split (x x' : bool) s s' :
  (if x then "|open" else "") +:+ ";" +:+ s = (if x' then "|open" else "") +:+ ";" +:+ s' → x = x' ∧ s = s'.
Proof. destruct x, x'; intros E; try discriminate E; (split; [done|]); by repeat apply str_app_inj_l in E. Qed.

(** The end of a definition's key. *)
Lemma sub_split (h h' x x' : bool) r r' s s' : (h = true → free r = true) → (h' = true → free r' = true) →
  (if h then "|sub" +:+ r else "") +:+ (if x then "|open" else "") +:+ ";" +:+ s =
  (if h' then "|sub" +:+ r' else "") +:+ (if x' then "|open" else "") +:+ ";" +:+ s' →
  h = h' ∧ (h = true → r = r') ∧ x = x' ∧ s = s'.
Proof.
  assert (∀ (x : bool) s, ends ((if x then "|open" else "") +:+ ";" +:+ s) = true) as Hends by (by intros []).
  intros Hr Hr'. destruct h, h'; rewrite ?str_app_assoc; intros E.
  - apply str_app_inj_l, free_split in E as [-> E]; [|auto..]. by destruct (open_split _ _ _ _ E) as [-> ->].
  - by destruct x'.
  - by destruct x.
  - apply str_app_inj_l in E. by destruct (open_split _ _ _ _ E) as [-> ->].
Qed.

Section equivalence.
Context (start end_ start' end_' : Z) (out out' : Z → string).
Hypothesis Hout : ∀ i, outside_key (out i) = true.
Hypothesis Hout' : ∀ i, outside_key (out' i) = true.

Abbreviation R := (ref_equiv start end_ start' end_' (λ i j, out i = out' j)).
Abbreviation vt_key := (valueType_key start end_ out).
Abbreviation vt_key' := (valueType_key start' end_' out').

Lemma valueType_key_equiv v v' : valid_vt v = true → valid_vt v' = true → vt_key v = vt_key' v' ↔ vt_equiv R v v'.
Proof.
  intros Hv Hv'.
  pose proof (ref_key_word start end_ out Hout (TypeIndex v)) as [_ Hr]. pose proof (ref_key_word start' end_' out' Hout' (TypeIndex v')) as [_ Hr'].
  pose proof (ref_key_equiv start end_ start' end_' out out' Hout Hout' (TypeIndex v) (TypeIndex v')) as HR.
  unfold valid_vt in Hv, Hv'. split.
  - unfold valueType_key. destruct (IsConcreteRef v) eqn:Ec, (IsConcreteRef v') eqn:Ec'; cbn [negb]; intros E.
    + apply vt_concrete; [done..| |].
      * destruct (IsNullable v), (IsNullable v'); try done; [rewrite <- E in Hr'; no_first Hr'|rewrite E in Hr; no_first Hr].
      * apply HR. destruct (IsNullable v), (IsNullable v'); [by apply str_app_inj_l in E|rewrite <- E in Hr'; no_first Hr'|rewrite E in Hr; no_first Hr|done].
    + apply bool_decide_eq_true in Hv'. destruct (name_not_ref _ _ Hv' Hr) as [H1 H2]. by destruct (IsNullable v); symmetry in E.
    + apply bool_decide_eq_true in Hv. destruct (name_not_ref _ _ Hv Hr') as [H1 H2]. by destruct (IsNullable v').
    + apply bool_decide_eq_true in Hv, Hv'. apply name_inj in E as ->; [|done..]. by constructor.
  - intros [Ec|w Ec Ec' En Hw]; unfold valueType_key.
    + by rewrite Ec.
    + rewrite Ec, Ec', En. cbn [negb].
      apply (ref_key_equiv start end_ start' end_' out out' Hout Hout') in Hw. by rewrite Hw.
Qed.


(** The parts of [member_key], as items. *)
Definition params_key (k : Z → string) (l : list Z) : string := items id (k <$> l).
Definition fields_key (k : Z → string) (l : list FieldType) : string := items field_item ((λ f, (f_mutable f, k (f_type f))) <$> l).

Definition body_key (d : TypeDef) (k : Z → string) : string :=
  match td_kind d with
  | CompositeKindFunc => ""
  | CompositeKindStruct => "|struct" +:+ fields_key k (td_fields d)
  | CompositeKindArray => "|array" +:+ fields_key k (td_fields d)
  end.

Lemma member_key_parts s e o d t : member_key s e o d +:+ t =
  "k" +:+ FormatUint (kindNumber (td_kind d)) +:+ params_key (valueType_key s e o) (Params d) +:+ "_" +:+
  params_key (valueType_key s e o) (Results d) +:+ body_key d (valueType_key s e o) +:+
  (if HasSupertype d then "|sub" +:+ (if HasSupertype d then ref_key s e o (Supertype d) else "none") else "") +:+
  (if Extensible d then "|open" else "") +:+ ";" +:+ t.
Proof.
  unfold member_key, writeCompositeKey, body_key, params_key, fields_key, items. rewrite <- !list_fmap_compose.
  rewrite !str_app_assoc. destruct (td_kind d); rewrite ?str_app_assoc; reflexivity.
Qed.

Definition body_end (h x : bool) (r t : string) : string := (if h then "|sub" +:+ r else "") +:+ (if x then "|open" else "") +:+ ";" +:+ t.

Lemma body_end_closes h x r t : closes (body_end h x r t) = true.
Proof. by destruct h, x. Qed.

Lemma valid_words s e o l : (∀ i, outside_key (o i) = true) → forallb valid_vt l = true → forallb word (valueType_key s e o <$> l) = true.
Proof. intros Ho Hl. rewrite forallb_forall in *. intros w (v & <- & Hv)%in_map_iff. by apply valueType_key_word; auto. Qed.

Lemma valid_fields s e o l : (∀ i, outside_key (o i) = true) → forallb (λ f, valid_vt (f_type f)) l = true →
  forallb field_ok ((λ f, (f_mutable f, valueType_key s e o (f_type f))) <$> l) = true.
Proof.
  intros Ho Hl. rewrite forallb_forall in *. intros w (f & <- & Hf)%in_map_iff. unfold field_ok. cbn [snd].
  destruct (valueType_key_word s e o Ho (f_type f) (Hl f Hf)) as [-> Hm]. by apply bool_decide_eq_true.
Qed.

Lemma params_split l l' t t' : forallb valid_vt l = true → forallb valid_vt l' = true → closes t = true → closes t' = true →
  params_key vt_key l +:+ t = params_key vt_key' l' +:+ t' → Forall2 (vt_equiv R) l l' ∧ t = t'.
Proof.
  intros Hl Hl' Ht Ht' E. apply (items_split id word) in E as [E ->]; [|by intros ????; apply word_split|by apply valid_words..|done|done].
  split; [|done]. apply (list_map_equiv vt_key vt_key'); [|done]. rewrite forallb_forall in Hl, Hl'.
  intros v v' Hv Hv'. apply valueType_key_equiv; [apply Hl|apply Hl']; by apply list_elem_of_In.
Qed.

Lemma fields_equiv l l' : forallb (λ f, valid_vt (f_type f)) l = true → forallb (λ f, valid_vt (f_type f)) l' = true →
  (λ f, (f_mutable f, vt_key (f_type f))) <$> l = (λ f, (f_mutable f, vt_key' (f_type f))) <$> l' ↔ Forall2 (field_equiv R) l l'.
Proof.
  intros Hl Hl'. rewrite forallb_forall in Hl, Hl'. apply list_map_equiv. intros f f' Hf%list_elem_of_In Hf'%list_elem_of_In.
  pose proof (valueType_key_equiv (f_type f) (f_type f') (Hl f Hf) (Hl' f' Hf')) as H. split.
  - intros [= E1 E2]. constructor; [done|by apply H].
  - intros [-> E2]. f_equal. by apply H.
Qed.

Lemma body_split d d' t t' : td_kind d = td_kind d' → valid_def d = true → valid_def d' = true → closes t = true → closes t' = true →
  body_key d vt_key +:+ t = body_key d' vt_key' +:+ t' →
  (td_kind d ≠ CompositeKindFunc → Forall2 (field_equiv R) (td_fields d) (td_fields d')) ∧ t = t'.
Proof.
  intros Hk [_ Hd]%andb_true_iff [_ Hd']%andb_true_iff Ht Ht'. unfold body_key, fields_key. rewrite <- Hk.
  assert (∀ p, (p +:+ fields_key vt_key (td_fields d)) +:+ t = (p +:+ fields_key vt_key' (td_fields d')) +:+ t' →
    Forall2 (field_equiv R) (td_fields d) (td_fields d') ∧ t = t') as H.
  { intros p E. rewrite !str_app_assoc in E. apply str_app_inj_l in E.
    apply (items_split field_item field_ok) in E as [E ->]; [|by intros ????; apply field_split|by apply valid_fields..|done|done].
    split; [|done]. by apply fields_equiv. }
  destruct (td_kind d); intros E; [done|apply H in E as [? ->]; auto..].
Qed.

Lemma member_split d d' t t' : valid_def d = true → valid_def d' = true →
  member_key start end_ out d +:+ t = member_key start' end_' out' d' +:+ t' → def_equiv R d d' ∧ t = t'.
Proof.
  intros Hd Hd' E. rewrite !member_key_parts in E. apply str_app_inj_l in E.
  pose proof Hd as [[Hp Hr]%andb_true_iff _]%andb_true_iff. pose proof Hd' as [[Hp' Hr']%andb_true_iff _]%andb_true_iff.
  apply free_split in E as [Ek E]; [|apply FormatUint_free..|by apply items_ends|by apply items_ends].
  assert (td_kind d = td_kind d') as Hk by (apply FormatUint_inj in Ek; destruct (td_kind d), (td_kind d'); done).
  apply params_split in E as [HP E]; [|done..]. apply str_app_inj_l in E.
  assert (∀ d k u, closes u = true → closes (body_key d k +:+ u) = true) as Hb by (by intros d0 k u Hu; unfold body_key; destruct (td_kind d0)).
  apply params_split in E as [HR E]; [|done|done|apply Hb, body_end_closes..].
  apply body_split in E as [HF E]; [|done|done|done|apply body_end_closes..].
  apply sub_split in E as (Eh & Er & Ex & ->); [|intros ->; by apply ref_key_word..].
  split; [|done]. constructor; try done. intros Hh. specialize (Er Hh). rewrite <- Eh, Hh in Er.
  by apply (ref_key_equiv _ _ _ _ _ _ Hout Hout').
Qed.

Lemma member_key_equiv d d' : valid_def d = true → valid_def d' = true →
  member_key start end_ out d = member_key start' end_' out' d' ↔ def_equiv R d d'.
Proof.
  intros Hd Hd'. split.
  - intros E. apply (member_split d d' "" ""); [done..|]. by rewrite !str_app_nil.
  - intros [Hk HP HR HF Hh Hx Hs]. rewrite <- (str_app_nil (member_key start _ _ _)), <- (str_app_nil (member_key start' _ _ _)), !member_key_parts.
    pose proof Hd as [[Hp Hr]%andb_true_iff Hf]%andb_true_iff. pose proof Hd' as [[Hp' Hr']%andb_true_iff Hf']%andb_true_iff.
    assert (∀ l l', forallb valid_vt l = true → forallb valid_vt l' = true → Forall2 (vt_equiv R) l l' → params_key vt_key l = params_key vt_key' l') as Hlist.
    { intros l l' Hl Hl' H. unfold params_key. f_equal. rewrite forallb_forall in Hl, Hl'. revert H. apply list_map_equiv.
      intros v v' Hv Hv'. apply valueType_key_equiv; [apply Hl|apply Hl']; by apply list_elem_of_In. }
    rewrite (Hlist _ _ Hp Hp' HP), (Hlist _ _ Hr Hr' HR), <- Hk, <- Hh, <- Hx.
    assert (body_key d vt_key = body_key d' vt_key') as ->.
    { unfold body_key. rewrite <- Hk. destruct (td_kind d); [done|..]; unfold fields_key; do 2 f_equal; apply fields_equiv; auto. }
    destruct (HasSupertype d); [|done]. specialize (Hs eq_refl). by apply (ref_key_equiv _ _ _ _ _ _ Hout Hout') in Hs as ->.
Qed.

Definition group_key (s e : Z) (o : Z → string) (l : list TypeDef) : string := concat_str (member_key s e o <$> l).

(** [t] does not continue a group. *)
Definition group_end (t : string) : Prop := first t ≠ Some "k"%char.

Lemma group_split l : ∀ l' t t', forallb valid_def l = true → forallb valid_def l' = true → group_end t → group_end t' →
  group_key start end_ out l +:+ t = group_key start' end_' out' l' +:+ t' → Forall2 (def_equiv R) l l' ∧ t = t'.
Proof.
  assert (∀ s e o d l t, group_key s e o (d :: l) +:+ t = member_key s e o d +:+ (group_key s e o l +:+ t)) as Hcons
    by (intros; unfold group_key; cbn; by rewrite str_app_assoc).
  induction l as [|d l IH]; intros [|d' l'] t t' Hl Hl' Ht Ht' E; rewrite ?Hcons in E.
  - split; [constructor|done].
  - change (group_key start end_ out [] +:+ t) with t in E. by rewrite E in Ht.
  - change (group_key start' end_' out' [] +:+ t') with t' in E. by rewrite <- E in Ht'.
  - cbn in Hl, Hl'. apply andb_true_iff in Hl as [Hd Hl], Hl' as [Hd' Hl']. apply member_split in E as [HE E]; [|done..].
    destruct (IH l' t t' Hl Hl' Ht Ht' E) as [? ->]. split; [by constructor|done].
Qed.

Lemma group_key_equiv l l' : forallb valid_def l = true → forallb valid_def l' = true →
  group_key start end_ out l = group_key start' end_' out' l' ↔ Forall2 (def_equiv R) l l'.
Proof.
  intros Hl Hl'. split.
  - intros E. apply (group_split l l' "" ""); [done..|]. by rewrite E.
  - intros H. unfold group_key. f_equal. revert H. apply list_map_equiv. rewrite forallb_forall in Hl, Hl'.
    intros d d' Hd Hd'. apply member_key_equiv; [apply Hl|apply Hl']; by apply list_elem_of_In.
Qed.
End equivalence.
