(* ===== verification/GcCanon.v ===== *)
(** Canonicalization of a type section ([CanonicalizeTypes] of [internal/wasm/gc.go]):
    two types get one canonical index exactly when they are the same type under the
    iso-recursive rule. *)
From Stdlib Require Import ZArith Lia String Ascii.
From stdpp Require Import base list numbers option tactics strings sets gmap.
From S2P Require Import Prelude GcHeap GcCollect GcOps GcTypes GcSubtype GcTypeKeys.
Local Open Scope string_scope.
Local Open Scope Z_scope.

(** * Rec groups *)

(** The bounds [ForEachRecGroup] passes on, from the group that begins at [start]. *)
Fixpoint group_bounds (fuel : nat) (types : list TypeDef) (start : Z) : list (Z * Z) :=
  match fuel with
  | O => []
  | S fuel =>
      match typeAt types start with
      | None => []
      | Some t =>
          let n := if RecGroupSize t <? 1 then 1 else RecGroupSize t in
          let end_ := Z.min (start + n) (zlen types) in
          (start, end_) :: group_bounds fuel types end_
      end
  end.

Definition rec_groups (types : list TypeDef) : list (Z * Z) := group_bounds (length types) types 0.

(** The callback changes [s] and never a [RecGroupSize]. *)
Definition ForEachRecGroup {S : Type} (types : list TypeDef) (f : Z → Z → S → S) (s : S) : S :=
  fold_left (λ s g, f g.1 g.2 s) (rec_groups types) s.

(** * Canonicalization *)

Definition set_canonical (d : TypeDef) (c : Z) : TypeDef :=
  mkDef (Params d) (Results d) (td_kind d) (td_fields d) (HasSupertype d) (Supertype d) (Extensible d) (RecGroupSize d) (RecGroupPosition d) c.

(** How a group names a type outside it. *)
Definition outside (types : list TypeDef) (idx : Z) : string :=
  match typeAt types idx with
  | Some def => "#" +:+ FormatUint (CanonicalIndex def)
  | None => "?" +:+ FormatUint idx
  end.

(** The loop that numbers [types[start:end]]. *)
Definition number_group (types : list TypeDef) (start end_ canonStart : Z) : list TypeDef :=
  imap (λ i d, if (start <=? Z.of_nat i) && (Z.of_nat i <? end_) then set_canonical d (u32 (canonStart + (Z.of_nat i - start))) else d) types.

Definition canonicalize_group (start end_ : Z) (s : list TypeDef * gmap string Z) : list TypeDef * gmap string Z :=
  let '(types, interned) := s in
  let key := RecGroupKey types start end_ (outside types) in
  let '(canonStart, interned) := match interned !! key with Some c => (c, interned) | None => (start, <[key := start]> interned) end in
  (number_group types start end_ canonStart, interned).

Definition CanonicalizeTypes (types : list TypeDef) : list TypeDef := (ForEachRecGroup types canonicalize_group (types, ∅)).1.

(** The head of [validateBeforeFunctionBodies]. *)
Definition prepare_types (enabled : bool) (types : list TypeDef) : list TypeDef :=
  let types := imap (λ i d, set_canonical d (u32 (Z.of_nat i))) types in
  if enabled then CanonicalizeTypes types else types.

(** * The iso-recursive rule *)

(** Types at one position of two groups that are alike, member by member, where
    references agree inside by position and outside by the same rule. *)
Inductive iso (T T' : list TypeDef) : Z → Z → Prop :=
| iso_group s e s' e' p :
    (s, e) ∈ rec_groups T → (s', e') ∈ rec_groups T' → 0 ≤ p < e - s →
    Forall2 (def_equiv (ref_equiv s e s' e' (iso T T'))) (slice T s e) (slice T' s' e') →
    iso T T' (s + p) (s' + p).

(** The types a definition names. *)
Definition vt_refs (v : Z) : list Z := if IsConcreteRef v then [TypeIndex v] else [].
Definition refs (d : TypeDef) : list Z :=
  (Params d ≫= vt_refs) ++ (Results d ≫= vt_refs) ++ (td_fields d ≫= λ f, vt_refs (f_type f)) ++ (if HasSupertype d then [Supertype d] else []).

(** What the decoder checks of a section. *)
Record section_ok (types : list TypeDef) : Prop := {
  ok_length : zlen types < 2 ^ 32;
  ok_valid : Forall (λ d, valid_def d = true) types;
  ok_indexed : indexed types;
  ok_sizes : ∀ s e d, (s, e) ∈ rec_groups types → d ∈ slice types s e → RecGroupSize d ≤ 1 ∨ RecGroupSize d = e - s;
  ok_arrays : Forall (λ d, td_kind d = CompositeKindArray → length (td_fields d) = 1%nat) types;
  ok_refs : ∀ s e d i, (s, e) ∈ rec_groups types → d ∈ slice types s e → i ∈ refs d → i < e;
}.

(** * Groups tile the section *)

Inductive tiles : Z → list (Z * Z) → Z → Prop :=
| tiles_nil a : tiles a [] a
| tiles_cons a e B z : a < e → tiles e B z → tiles a ((a, e) :: B) z.

Lemma group_bounds_tiles types fuel : ∀ a, 0 ≤ a ≤ zlen types → zlen types - a ≤ Z.of_nat fuel → tiles a (group_bounds fuel types a) (zlen types).
Proof.
  induction fuel as [|fuel IH]; intros a Ha Hf.
  - assert (a = zlen types) as -> by lia. constructor.
  - cbn [group_bounds]. destruct (typeAt types a) as [t|] eqn:Et.
    + pose proof (typeAt_range _ _ _ Et). destruct (Z.ltb_spec (RecGroupSize t) 1); constructor; try lia; apply IH; lia.
    + assert (a = zlen types) as ->; [|constructor]. destruct (decide (a < zlen types)) as [Hlt|]; [|lia].
      unfold typeAt, OutOfRange in Et. rewrite (proj2 (Z.leb_gt _ _) Hlt) in Et. apply lookup_ge_None in Et. unfold zlen in *. lia.
Qed.

Lemma rec_groups_tiles types : tiles 0 (rec_groups types) (zlen types).
Proof. apply group_bounds_tiles; unfold zlen; lia. Qed.

Lemma tiles_range a B z : tiles a B z → a ≤ z ∧ ∀ s e, (s, e) ∈ B → a ≤ s ∧ s < e ∧ e ≤ z.
Proof.
  induction 1 as [a|a e B z Hae _ [IH1 IH2]]; [split; [lia|intros s e []%elem_of_nil]|]. split; [lia|].
  intros s e' [[= -> ->]|H]%elem_of_cons; [lia|]. specialize (IH2 _ _ H). lia.
Qed.

Lemma tiles_cover a B z i : tiles a B z → a ≤ i < z → ∃ s e, (s, e) ∈ B ∧ s ≤ i < e.
Proof.
  induction 1 as [a|a e B z Hae _ IH]; intros Hi; [lia|]. destruct (decide (i < e)); [exists a, e; split; [by left|lia]|].
  destruct IH as (s & e' & H & ?); [lia|]. exists s, e'. split; [by right|done].
Qed.

Lemma tiles_disjoint a B z : tiles a B z → ∀ s e s' e' i, (s, e) ∈ B → (s', e') ∈ B → s ≤ i < e → s' ≤ i < e' → s = s' ∧ e = e'.
Proof.
  induction 1 as [a|a e B z Hae HB IH]; intros s1 e1 s2 e2 i H1 H2; [by apply elem_of_nil in H1|].
  apply tiles_range in HB as [_ Hr]. apply elem_of_cons in H1 as [[= -> ->]|H1], H2 as [[= -> ->]|H2]; intros Hi1 Hi2; [done| | |by eapply IH].
  - specialize (Hr _ _ H2). lia.
  - specialize (Hr _ _ H1). lia.
Qed.

(** * What the keys depend on *)

Lemma elem_vt_refs v i : i ∈ vt_refs v ↔ IsConcreteRef v = true ∧ i = TypeIndex v.
Proof. unfold vt_refs. destruct (IsConcreteRef v); [rewrite list_elem_of_singleton; tauto|]. split; [by intros ?%elem_of_nil|by intros []]. Qed.

Lemma elem_refs d i : i ∈ refs d ↔
  (∃ v, v ∈ Params d ∧ i ∈ vt_refs v) ∨ (∃ v, v ∈ Results d ∧ i ∈ vt_refs v) ∨ (∃ f, f ∈ td_fields d ∧ i ∈ vt_refs (f_type f)) ∨
  (HasSupertype d = true ∧ i = Supertype d).
Proof.
  unfold refs. rewrite !elem_of_app, !list_elem_of_bind.
  assert (i ∈ (if HasSupertype d then [Supertype d] else []) ↔ HasSupertype d = true ∧ i = Supertype d) as -> by
    (destruct (HasSupertype d); [rewrite list_elem_of_singleton; tauto|]; split; [by intros ?%elem_of_nil|by intros []]).
  by setoid_rewrite (and_comm (_ ∈ vt_refs _)).
Qed.

Lemma vt_equiv_mono R R' v v' : (∀ i j, i ∈ vt_refs v → j ∈ vt_refs v' → R i j → R' i j) → vt_equiv R v v' → vt_equiv R' v v'.
Proof.
  intros H E. revert H. destruct E as [Ec|w Ec Ec' En HR]; intros H; [by constructor|].
  apply vt_concrete; [done..|]. apply H; [by apply elem_vt_refs..|done].
Qed.

Lemma Forall2_mono_in {A B} (P Q : A → B → Prop) l l' : (∀ a b, a ∈ l → b ∈ l' → P a b → Q a b) → Forall2 P l l' → Forall2 Q l l'.
Proof. intros H. induction 1 as [|a b l l' Hab _ IH]; constructor; [apply H; [by left..|done]|apply IH; intros; apply H; [by right..|done]]. Qed.

Lemma def_equiv_mono R R' d d' : (∀ i j, i ∈ refs d → j ∈ refs d' → R i j → R' i j) → def_equiv R d d' → def_equiv R' d d'.
Proof.
  intros H [Hk HP HR HF Hh Hx Hs].
  assert (∀ v v' : Z, (∀ i, i ∈ vt_refs v → i ∈ refs d) → (∀ i, i ∈ vt_refs v' → i ∈ refs d') → vt_equiv R v v' → vt_equiv R' v v') as Hv
    by (intros v v' H1 H2; apply vt_equiv_mono; auto).
  constructor; try done.
  - revert HP. apply Forall2_mono_in. intros v v' Hin Hin'. apply Hv; intros i Hi; apply elem_refs; eauto.
  - revert HR. apply Forall2_mono_in. intros v v' Hin Hin'. apply Hv; intros i Hi; apply elem_refs; eauto.
  - intros Hf. specialize (HF Hf). revert HF. apply Forall2_mono_in. intros f f' Hin Hin' [Hm Ht]. constructor; [done|].
    revert Ht. apply Hv; intros i Hi; apply elem_refs; eauto 6.
  - intros Hh'. apply H; [apply elem_refs; auto 6|apply elem_refs; rewrite <- Hh; auto 6|auto].
Qed.

Lemma Forall2_refl_in {A} (P : A → A → Prop) l : (∀ a, a ∈ l → P a a) → Forall2 P l l.
Proof. induction l as [|a l IH]; constructor; [apply H; by left|apply IH; intros; apply H; by right]. Qed.

Lemma def_equiv_refl (R : Z → Z → Prop) d : (∀ i, i ∈ refs d → R i i) → def_equiv R d d.
Proof.
  intros H.
  assert (∀ v : Z, (∀ i, i ∈ vt_refs v → i ∈ refs d) → vt_equiv R v v) as Hv.
  { intros v Hr. destruct (IsConcreteRef v) eqn:Ec; [|by constructor]. apply vt_concrete; [done..|]. apply H, Hr. by apply elem_vt_refs. }
  constructor; try done.
  - apply Forall2_refl_in. intros v Hin. apply Hv. intros i Hi. apply elem_refs. eauto.
  - apply Forall2_refl_in. intros v Hin. apply Hv. intros i Hi. apply elem_refs. eauto.
  - intros _. apply Forall2_refl_in. intros f Hin. constructor; [done|]. apply Hv. intros i Hi. apply elem_refs. eauto 6.
  - intros Hs. apply H, elem_refs. auto 6.
Qed.

Lemma outside_ok types i : outside_key (outside types i) = true.
Proof.
  unfold outside_key, outside. apply andb_true_iff. split.
  - destruct (typeAt types i); rewrite free_app, FormatUint_free; done.
  - apply bool_decide_eq_true, list_elem_of_In. destruct (typeAt types i); cbn; auto.
Qed.

(** ** Definitions without their canonical index *)

Definition erase (d : TypeDef) : TypeDef := set_canonical d 0.
Definition same (types types' : list TypeDef) : Prop := erase <$> types = erase <$> types'.

#[global] Instance same_equivalence : Equivalence same.
Proof. split; unfold same; [by intros ?|by intros ??|intros ???; apply eq_trans]. Qed.

Lemma same_types_length types types' : same types types' → length types = length types'.
Proof. intros H. apply (f_equal length) in H. by rewrite !length_fmap in H. Qed.

Lemma same_at types types' i d : same types types' → typeAt types i = Some d → ∃ d', typeAt types' i = Some d' ∧ erase d = erase d'.
Proof.
  intros H. unfold typeAt, zlen. rewrite (same_types_length _ _ H). destruct (OutOfRange _ _); [done|]. intros Hd.
  assert ((erase <$> types') !! Z.to_nat i = Some (erase d)) as Hd' by (rewrite <- H; by rewrite list_lookup_fmap, Hd).
  rewrite list_lookup_fmap in Hd'. destruct (types' !! Z.to_nat i) as [d'|]; [|done].
  apply (inj Some) in Hd'. by exists d'.
Qed.

Lemma same_rec_groups types types' : same types types' → rec_groups types = rec_groups types'.
Proof.
  intros H. unfold rec_groups. rewrite (same_types_length _ _ H). generalize (length types') as fuel, 0. intros fuel.
  induction fuel as [|fuel IH]; intros a; [done|]. cbn [group_bounds].
  destruct (typeAt types a) as [d|] eqn:Ed.
  - destruct (same_at _ _ _ _ H Ed) as (d' & Ed' & E). rewrite Ed'.
    assert (RecGroupSize d = RecGroupSize d') as -> by (apply (f_equal RecGroupSize) in E; done).
    unfold zlen. rewrite (same_types_length _ _ H). f_equal. apply IH.
  - destruct (typeAt types' a) as [d'|] eqn:Ed'; [|done]. symmetry in H. destruct (same_at _ _ _ _ H Ed') as (? & ? & _). congruence.
Qed.

Lemma same_slice types types' s e : same types types' → same (slice types s e) (slice types' s e).
Proof. intros H. unfold same, slice in *. by rewrite !fmap_take, !fmap_drop, H. Qed.

Lemma same_Forall2 types types' : same types types' → Forall2 (λ d d', erase d = erase d') types types'.
Proof.
  revert types'. induction types as [|d types IH]; intros [|d' types'] H; try done.
  unfold same in H. rewrite !fmap_cons in H. constructor; [exact (f_equal (λ l, default (erase d) (head l)) H)|apply IH; exact (f_equal tail H)].
Qed.

Lemma refs_erase d : refs (erase d) = refs d.
Proof. done. Qed.
Lemma valid_erase d : valid_def (erase d) = valid_def d.
Proof. done. Qed.

Lemma same_elem types types' d : same types types' → d ∈ types → ∃ d', d' ∈ types' ∧ erase d = erase d'.
Proof.
  intros H Hd. assert (erase d ∈ erase <$> types') as (d' & ? & ?)%list_elem_of_fmap by (rewrite <- H; by apply list_elem_of_fmap_2). eauto.
Qed.

Lemma same_ok types types' : same types types' → section_ok types → section_ok types'.
Proof.
  intros H [Hl Hv Hi Hz Ha Hr]. pose proof H as H'. symmetry in H'. split.
  - unfold zlen. by rewrite <- (same_types_length _ _ H).
  - apply list.Forall_forall. intros d (d' & Hd' & E)%(same_elem _ _ _ H'). rewrite <- valid_erase, E. exact (proj1 (list.Forall_forall _ _) Hv d' Hd').
  - apply list.Forall_forall. intros d (d' & Hd' & E)%(same_elem _ _ _ H'). apply (f_equal Supertype) in E. cbn in E. rewrite E. exact (proj1 (list.Forall_forall _ _) Hi d' Hd').
  - intros s e d Hg Hd. rewrite <- (same_rec_groups _ _ H) in Hg. destruct (same_elem _ _ _ (same_slice _ _ s e H') Hd) as (d' & Hd' & E).
    apply (f_equal RecGroupSize) in E. cbn in E. rewrite E. by apply (Hz s e).
  - apply list.Forall_forall. intros d (d' & Hd' & E)%(same_elem _ _ _ H'). pose proof (f_equal td_kind E) as Ek. pose proof (f_equal td_fields E) as Ef.
    cbn in Ek, Ef. rewrite Ek, Ef. exact (proj1 (list.Forall_forall _ _) Ha d' Hd').
  - intros s e d i Hg Hd Hin. rewrite <- (same_rec_groups _ _ H) in Hg.
    destruct (same_elem _ _ _ (same_slice _ _ s e H') Hd) as (d' & Hd' & E). apply (Hr s e d'); [done..|]. by rewrite <- refs_erase, <- E, refs_erase.
Qed.

(** * The loop *)

Lemma number_group_same types s e c : same (number_group types s e c) types.
Proof.
  apply list_eq. intros i. unfold number_group. rewrite !list_lookup_fmap, list_lookup_imap.
  destruct (types !! i) as [d|]; [|done]. cbn. by destruct (_ && _).
Qed.

Lemma number_group_at types s e c i : 0 ≤ i →
  typeAt (number_group types s e c) i = (λ d, if decide (s ≤ i < e) then set_canonical d (u32 (c + (i - s))) else d) <$> typeAt types i.
Proof.
  intros Hi. unfold typeAt, number_group, zlen. rewrite length_imap. destruct (OutOfRange _ _); [done|].
  rewrite list_lookup_imap, Z2Nat.id by done. destruct (types !! Z.to_nat i) as [d|]; [|done]. cbn. f_equal.
  destruct (decide _), (_ && _) eqn:E; try done; lia.
Qed.

Lemma slice_at types s e i d : 0 ≤ s → slice types s e !! i = Some d ↔ (Z.of_nat i < e - s ∧ typeAt types (s + Z.of_nat i) = Some d).
Proof.
  intros Hs. unfold slice. rewrite typeAt_Some, lookup_take_Some, lookup_drop by lia.
  replace (Z.to_nat (s + Z.of_nat i)) with (Z.to_nat s + i)%nat by lia. intuition lia.
Qed.

Lemma slice_elem types s e d : 0 ≤ s → d ∈ slice types s e ↔ ∃ i, s ≤ i < e ∧ typeAt types i = Some d.
Proof.
  intros Hs. split.
  - intros (i & Hi)%list_elem_of_lookup_1. apply slice_at in Hi as [? ?]; [|done]. exists (s + Z.of_nat i). split; [lia|done].
  - intros (i & Hi & Hd). apply (list_elem_of_lookup_2 _ (Z.to_nat (i - s))). apply slice_at; [done|].
    rewrite Z2Nat.id by lia. split; [lia|]. by replace (s + (i - s)) with i by lia.
Qed.

Lemma slice_length types s e : 0 ≤ s ≤ e → e ≤ zlen types → zlen (slice types s e) = e - s.
Proof. unfold slice, zlen. rewrite length_take, length_drop. lia. Qed.

Lemma ok_at types i d : section_ok types → typeAt types i = Some d → valid_def d = true ∧ 0 ≤ Supertype d.
Proof.
  intros [_ Hv Hi _ _ _] Hd. unfold typeAt in Hd. destruct (OutOfRange _ _); [done|].
  split; [exact (Forall_lookup_1 _ _ _ _ Hv Hd)|exact (Forall_lookup_1 _ _ _ _ Hi Hd)].
Qed.

Lemma refs_nonneg types i d r : section_ok types → typeAt types i = Some d → r ∈ refs d → 0 ≤ r.
Proof.
  intros Hok Hd Hr. apply elem_refs in Hr as [(v & _ & Hv)|[(v & _ & Hv)|[(f & _ & Hv)|[_ ->]]]]; [..|by eapply ok_at].
  all: apply elem_vt_refs in Hv as [_ ->]; apply TypeIndex_nonneg.
Qed.

Lemma slice_valid types s e : section_ok types → forallb valid_def (slice types s e) = true.
Proof.
  intros [_ Hv _ _ _ _]. apply forallb_forall. intros d Hd%list_elem_of_In. unfold slice in Hd.
  apply elem_of_take in Hd as (i & Hd & _). rewrite lookup_drop in Hd. exact (Forall_lookup_1 _ _ _ _ Hv Hd).
Qed.

(** The key of a group as the loop computes it. *)
Definition key_of (types : list TypeDef) (s e : Z) : string := RecGroupKey types s e (outside types).

Lemma key_of_equiv types types' s e s' e' : section_ok types → section_ok types' →
  key_of types s e = key_of types' s' e' ↔
  Forall2 (def_equiv (ref_equiv s e s' e' (λ i j, outside types i = outside types' j))) (slice types s e) (slice types' s' e').
Proof.
  intros H H'. apply (group_key_equiv s e s' e' (outside types) (outside types')); [apply outside_ok..|by apply slice_valid|by apply slice_valid].
Qed.

Lemma key_of_length types s e s' e' : section_ok types → (s, e) ∈ rec_groups types → (s', e') ∈ rec_groups types →
  key_of types s e = key_of types s' e' → e - s = e' - s'.
Proof.
  intros Hok Hg Hg' H%key_of_equiv%Forall2_length; [|done..].
  pose proof (tiles_range _ _ _ (rec_groups_tiles types)) as [_ Hr]. pose proof (Hr _ _ Hg). pose proof (Hr _ _ Hg').
  pose proof (slice_length types s e ltac:(lia) ltac:(lia)) as Hl1. pose proof (slice_length types s' e' ltac:(lia) ltac:(lia)) as Hl2.
  unfold zlen in *. lia.
Qed.

Lemma def_equiv_erase R d d1 d2 : erase d1 = erase d2 → def_equiv R d d1 → def_equiv R d d2.
Proof.
  unfold erase, set_canonical. intros E. injection E as E1 E2 E3 E4 E5 E6 E7 _ _. intros [Hk HP HR HF Hh Hx Hs].
  constructor; congruence || (rewrite <- ?E1, <- ?E2, <- ?E4, <- ?E6; done).
Qed.

(** Numbering later groups leaves the key of a group alone. *)
Lemma key_of_frame types types' s e : section_ok types → same types types' → (s, e) ∈ rec_groups types →
  (∀ i, 0 ≤ i < s → canonicalIndex types i = canonicalIndex types' i) → key_of types s e = key_of types' s e.
Proof.
  intros Hok Hs Hg Hc. pose proof (same_ok _ _ Hs Hok) as Hok'. apply key_of_equiv; [done..|].
  pose proof (tiles_range _ _ _ (rec_groups_tiles types)) as [_ Hr]. pose proof (Hr _ _ Hg) as Hb.
  pose proof (same_Forall2 _ _ (same_slice _ _ s e Hs)) as HF.
  revert HF. apply Forall2_mono_in. intros d d' Hd _ E.
  assert (def_equiv (ref_equiv s e s e (λ i j, outside types i = outside types' j)) d d) as H.
  { apply def_equiv_refl. intros i Hi. pose proof (ok_refs _ Hok _ _ _ _ Hg Hd Hi) as Hlt.
    apply slice_elem in Hd as (k & Hk & Hd); [|lia]. pose proof (refs_nonneg _ _ _ _ Hok Hd Hi).
    destruct (decide (s ≤ i)); [by apply ref_inside|]. apply ref_outside; [lia..|].
    specialize (Hc i ltac:(lia)). unfold canonicalIndex in Hc. unfold outside.
    destruct (typeAt types i) as [di|] eqn:Ei.
    - destruct (same_at _ _ _ _ Hs Ei) as (di' & Ei' & _). rewrite Ei' in Hc |- *. by rewrite Hc.
    - destruct (typeAt types' i) as [di'|] eqn:Ei'; [|done]. symmetry in Hs. destruct (same_at _ _ _ _ Hs Ei') as (? & ? & _). congruence. }
  by eapply def_equiv_erase.
Qed.

(** The groups below [a] are numbered. *)
Record canon_inv (types0 : list TypeDef) (a : Z) (types : list TypeDef) (interned : gmap string Z) : Prop := {
  ci_same : same types types0;
  ci_key : ∀ s e, (s, e) ∈ rec_groups types0 → e ≤ a →
    ∃ s0, interned !! key_of types s e = Some s0 ∧ 0 ≤ s0 ≤ s ∧ ∀ i, s ≤ i < e → canonicalIndex types i = s0 + (i - s);
  ci_interned : ∀ k s0, interned !! k = Some s0 → ∃ e0, (s0, e0) ∈ rec_groups types0 ∧ e0 ≤ a ∧ key_of types s0 e0 = k;
}.

Lemma rec_group_range types s e : (s, e) ∈ rec_groups types → 0 ≤ s ∧ s < e ∧ e ≤ zlen types.
Proof. apply (tiles_range _ _ _ (rec_groups_tiles types)). Qed.

Lemma rec_group_unique types s e s' e' i : (s, e) ∈ rec_groups types → (s', e') ∈ rec_groups types → s ≤ i < e → s' ≤ i < e' → s = s' ∧ e = e'.
Proof. apply (tiles_disjoint _ _ _ (rec_groups_tiles types)). Qed.

Lemma typeAt_is_Some types i : 0 ≤ i < zlen types → is_Some (typeAt types i).
Proof. intros Hi. unfold typeAt, OutOfRange. rewrite (proj2 (Z.leb_gt _ _)) by lia. apply lookup_lt_is_Some. unfold zlen in Hi. lia. Qed.

Lemma number_group_below types s e c i : 0 ≤ i < s → canonicalIndex (number_group types s e c) i = canonicalIndex types i.
Proof.
  intros Hi. unfold canonicalIndex. rewrite number_group_at by lia. destruct (typeAt types i); [|done]. cbn. by rewrite decide_False by lia.
Qed.

Lemma number_group_inside types s e c i : 0 ≤ s ≤ i → i < e → e ≤ zlen types → 0 ≤ c → c + (e - s) < 2 ^ 32 →
  canonicalIndex (number_group types s e c) i = c + (i - s).
Proof.
  intros Hi He Hl Hc Hc'. unfold canonicalIndex. rewrite number_group_at by lia.
  destruct (typeAt_is_Some types i ltac:(lia)) as [d ->]. cbn. rewrite decide_True by lia. cbn. apply wrap_small. lia.
Qed.

Lemma canon_step types0 a e types interned : section_ok types0 → (a, e) ∈ rec_groups types0 → canon_inv types0 a types interned →
  let '(types', interned') := canonicalize_group a e (types, interned) in canon_inv types0 e types' interned'.
Proof.
  intros Hok Hg [Hs Hkey Hint]. pose proof (same_ok _ _ (symmetry Hs) Hok) as Hokt.
  pose proof (rec_group_range _ _ _ Hg) as Hr. pose proof (ok_length _ Hok) as Hlen. pose proof (same_rec_groups _ _ Hs) as Hrg.
  assert (zlen types = zlen types0) as Hzl by (unfold zlen; by rewrite (same_types_length _ _ Hs)).
  cbn [canonicalize_group]. fold (key_of types a e).
  destruct (match interned !! key_of types a e with Some c => _ | None => _ end) as [c interned'] eqn:Ec.
  assert (0 ≤ c ∧ c + (e - a) ≤ e ∧ interned' !! key_of types a e = Some c ∧
    (∀ k s0, interned !! k = Some s0 → interned' !! k = Some s0) ∧
    (∀ k s0, interned' !! k = Some s0 → interned !! k = Some s0 ∨ k = key_of types a e ∧ s0 = a)) as (Hc0 & Hc & Hck & Hold & Hnew).
  { destruct (interned !! key_of types a e) as [c0|] eqn:El; injection Ec as <- <-.
    - destruct (Hint _ _ El) as (e0 & Hg0 & Hea & Ek). rewrite <- Hrg in Hg, Hg0.
      pose proof (key_of_length _ _ _ _ _ Hokt Hg0 Hg Ek). rewrite Hrg in Hg0. pose proof (rec_group_range _ _ _ Hg0). split_and!; auto; lia.
    - split_and!; [lia|lia|by rewrite lookup_insert_eq| |].
      + intros k s0 Hk. rewrite lookup_insert_ne; [done|]. intros E. by rewrite <- E, El in Hk.
      + intros k s0 Hk. destruct (decide (k = key_of types a e)) as [->|]; [rewrite lookup_insert_eq in Hk; injection Hk as <-; auto|].
        rewrite lookup_insert_ne in Hk by done. auto. }
  assert (∀ s e', (s, e') ∈ rec_groups types0 → s ≤ a → key_of types s e' = key_of (number_group types a e c) s e') as Hframe.
  { intros s e' Hg' Hsa. apply key_of_frame; [done|symmetry; apply number_group_same|by rewrite Hrg|]. intros i Hi. symmetry. apply number_group_below. lia. }
  split.
  - etrans; [apply number_group_same|done].
  - intros s e' Hg' He'. pose proof (rec_group_range _ _ _ Hg') as Hr'. destruct (decide (e' ≤ a)) as [Hea|Hea].
    + destruct (Hkey s e' Hg' Hea) as (s0 & Hk & Hs0 & Hi). exists s0. split_and!; [rewrite <- Hframe by (done || lia); auto|lia..|].
      intros i Hi'. rewrite number_group_below by lia. auto.
    + destruct (rec_group_unique _ _ _ _ _ (e' - 1) Hg Hg' ltac:(lia) ltac:(lia)) as [<- <-]. exists c. split_and!; [by rewrite <- Hframe by (done || lia)|lia..|].
      intros i Hi. apply number_group_inside; lia.
  - intros k s0 [Hk|[-> ->]]%Hnew.
    + destruct (Hint _ _ Hk) as (e0 & Hg0 & He0 & <-). pose proof (rec_group_range _ _ _ Hg0). exists e0. split_and!; [done|lia|]. symmetry. apply Hframe; [done|lia].
    + exists e. split_and!; [done|lia|]. symmetry. apply Hframe; [done|lia].
Qed.

Lemma canon_loop types0 B : section_ok types0 → ∀ a types interned, tiles a B (zlen types0) → (∀ g, g ∈ B → g ∈ rec_groups types0) →
  canon_inv types0 a types interned →
  ∃ interned', canon_inv types0 (zlen types0) (fold_left (λ s g, canonicalize_group g.1 g.2 s) B (types, interned)).1 interned'.
Proof.
  intros Hok. induction B as [|[s e] B IH]; intros a types interned HB Hin Hinv; inversion HB; subst; [by exists interned|].
  cbn [fold_left fst snd]. pose proof (canon_step _ s e _ _ Hok (Hin _ (list_elem_of_here _ _)) Hinv) as H'.
  destruct (canonicalize_group s e (types, interned)) as [types' interned']. apply (IH e); [done| |done]. intros g Hg. apply Hin. by right.
Qed.

(** The state the loop leaves. *)
Lemma canonicalize_inv types : section_ok types → ∃ interned, canon_inv types (zlen types) (CanonicalizeTypes types) interned.
Proof.
  intros Hok. apply (canon_loop types (rec_groups types) Hok 0); [apply rec_groups_tiles|done|].
  split; [done| |by intros k s0; rewrite lookup_empty]. intros s e Hg. pose proof (rec_group_range _ _ _ Hg). lia.
Qed.

(** * Identities of types

    A numbering of two sections that agrees exactly on alike groups, outside
    references being alike when their numbers agree, decides [iso]. *)
Section identity.
Context (T T' : list TypeDef) (HT : section_ok T) (HT' : section_ok T') (id id' : Z → Z).
Hypothesis Hid : ∀ s e s' e' i j, (s, e) ∈ rec_groups T → (s', e') ∈ rec_groups T' → s ≤ i < e → s' ≤ j < e' →
  id i = id' j ↔ i - s = j - s' ∧ Forall2 (def_equiv (ref_equiv s e s' e' (λ x y, id x = id' y))) (slice T s e) (slice T' s' e').

Lemma group_of types i : 0 ≤ i < zlen types → ∃ s e, (s, e) ∈ rec_groups types ∧ s ≤ i < e.
Proof using. intros Hi. eapply tiles_cover; [apply rec_groups_tiles|done]. Qed.

(** References of a group's member are types of the section. *)
Lemma member_refs types s e d i : section_ok types → (s, e) ∈ rec_groups types → d ∈ slice types s e → i ∈ refs d → 0 ≤ i < e ∧ e ≤ zlen types.
Proof using.
  intros Hok Hg Hd Hi. pose proof (rec_group_range _ _ _ Hg). pose proof (ok_refs _ Hok _ _ _ _ Hg Hd Hi).
  apply slice_elem in Hd as (k & _ & Hd); [|lia]. pose proof (refs_nonneg _ _ _ _ Hok Hd Hi). lia.
Qed.

Lemma identity_iso n : ∀ i j, 0 ≤ i < zlen T → 0 ≤ j < zlen T' → i < Z.of_nat n → id i = id' j → iso T T' i j.
Proof using HT HT' Hid.
  induction n as [|n IH]; intros i j Hi Hj Hn E; [lia|].
  destruct (group_of T i Hi) as (s & e & Hg & Hse), (group_of T' j Hj) as (s' & e' & Hg' & Hse').
  destruct (proj1 (Hid s e s' e' i j Hg Hg' Hse Hse') E) as [Ep HF].
  replace i with (s + (i - s)) by lia. replace j with (s' + (i - s)) by lia. clear Ep. apply (iso_group _ _ s e s' e'); [done|done|lia|].
  revert HF. apply Forall2_mono_in. intros d d' Hd Hd'. apply def_equiv_mono. intros x y Hx Hy.
  pose proof (member_refs _ _ _ _ _ HT Hg Hd Hx). pose proof (member_refs _ _ _ _ _ HT' Hg' Hd' Hy).
  intros [|Hnx Hny HR]; [by apply ref_inside|]. apply ref_outside; [done..|]. apply IH; lia || done.
Qed.

Lemma iso_identity n : ∀ i j, i < Z.of_nat n → iso T T' i j → id i = id' j.
Proof using HT HT' Hid.
  induction n as [|n IH]; intros i j Hn E; destruct E as [s e s' e' p Hg Hg' Hp HF]; pose proof (rec_group_range _ _ _ Hg); [lia|].
  pose proof (Forall2_length _ _ _ HF) as Hl. pose proof (rec_group_range _ _ _ Hg').
  pose proof (slice_length T s e ltac:(lia) ltac:(lia)) as Hl1. pose proof (slice_length T' s' e' ltac:(lia) ltac:(lia)) as Hl2. unfold zlen in Hl1, Hl2.
  apply (Hid s e s' e'); [done|done|lia|lia|]. split; [lia|].
  revert HF. apply Forall2_mono_in. intros d d' Hd Hd'. apply def_equiv_mono. intros x y Hx Hy.
  pose proof (member_refs _ _ _ _ _ HT Hg Hd Hx). pose proof (member_refs _ _ _ _ _ HT' Hg' Hd' Hy).
  intros [|Hnx Hny HR]; [by apply ref_inside|]. apply ref_outside; [done..|]. apply IH; [lia|done].
Qed.

Lemma identity_decides i j : 0 ≤ i < zlen T → 0 ≤ j < zlen T' → id i = id' j ↔ iso T T' i j.
Proof using HT HT' Hid.
  intros Hi Hj. split; [apply (identity_iso (S (Z.to_nat i))); lia|apply (iso_identity (S (Z.to_nat i))); lia].
Qed.
End identity.

(** * Canonical indices decide the rule *)

Section canonical.
Context (types T : list TypeDef) (interned : gmap string Z).
Hypothesis Hok : section_ok types.
Hypothesis Hinv : canon_inv types (zlen types) T interned.

Abbreviation canon := (canonicalIndex T).

Lemma T_ok : section_ok T.
Proof using Hok Hinv. eapply same_ok; [symmetry; apply (ci_same _ _ _ _ Hinv)|done]. Qed.

Lemma T_length : zlen T = zlen types.
Proof using Hinv. unfold zlen. by rewrite (same_types_length _ _ (ci_same _ _ _ _ Hinv)). Qed.

(** A group and the group it is numbered after. *)
Lemma canon_group s e : (s, e) ∈ rec_groups T →
  ∃ s0 e0, (s0, e0) ∈ rec_groups T ∧ interned !! key_of T s e = Some s0 ∧ 0 ≤ s0 ≤ s ∧ e0 - s0 = e - s ∧ key_of T s0 e0 = key_of T s e ∧
    ∀ i, s ≤ i < e → canon i = s0 + (i - s).
Proof using Hok Hinv.
  intros Hg. pose proof (rec_group_range _ _ _ Hg) as Hr. pose proof T_length. pose proof (same_rec_groups _ _ (ci_same _ _ _ _ Hinv)) as Hrg.
  pose proof Hg as Hg'. rewrite Hrg in Hg'. destruct (ci_key _ _ _ _ Hinv s e Hg' ltac:(lia)) as (s0 & Hk & Hs0 & Hi).
  destruct (ci_interned _ _ _ _ Hinv _ _ Hk) as (e0 & Hg0 & _ & Ek). rewrite <- Hrg in Hg0. exists s0, e0. split_and!; try done; try lia.
  apply (key_of_length T); [apply T_ok|done..].
Qed.

Lemma canon_eq s e s' e' i j : (s, e) ∈ rec_groups T → (s', e') ∈ rec_groups T → s ≤ i < e → s' ≤ j < e' →
  canon i = canon j ↔ i - s = j - s' ∧ key_of T s e = key_of T s' e'.
Proof using Hok Hinv.
  intros Hg Hg' Hi Hj. destruct (canon_group s e Hg) as (s0 & e0 & Hg0 & Hk & _ & Hl & Ek & Hc).
  destruct (canon_group s' e' Hg') as (s1 & e1 & Hg1 & Hk' & _ & Hl' & Ek' & Hc'). rewrite (Hc i Hi), (Hc' j Hj). split.
  - intros E. destruct (rec_group_unique _ _ _ _ _ (s0 + (i - s)) Hg0 Hg1 ltac:(lia) ltac:(lia)) as [-> ->]. split; [lia|congruence].
  - intros [E1 E2]. rewrite E2, Hk' in Hk. injection Hk as ->. lia.
Qed.

Lemma canon_range i : 0 ≤ i < zlen T → 0 ≤ canon i ≤ i.
Proof using Hok Hinv.
  intros Hi. destruct (group_of T i Hi) as (s & e & Hg & Hse). destruct (canon_group s e Hg) as (s0 & e0 & _ & _ & Hs0 & _ & _ & Hc).
  rewrite (Hc i Hse). lia.
Qed.

Lemma canon_idem i : 0 ≤ i < zlen T → canon (canon i) = canon i.
Proof using Hok Hinv.
  intros Hi. destruct (group_of T i Hi) as (s & e & Hg & Hse). destruct (canon_group s e Hg) as (s0 & e0 & Hg0 & _ & _ & Hl & Ek & Hc).
  apply (canon_eq s0 e0 s e); [done|done| |done|]; rewrite (Hc i Hse); [lia|]. split; [lia|done].
Qed.

Lemma outside_eq i j : 0 ≤ i < zlen T → 0 ≤ j < zlen T → outside T i = outside T j ↔ canon i = canon j.
Proof using Hok Hinv.
  intros Hi Hj. pose proof (canon_range i Hi) as Hci. pose proof (canon_range j Hj) as Hcj. unfold outside, canonicalIndex in *.
  destruct (typeAt_is_Some T i Hi) as [di Hdi], (typeAt_is_Some T j Hj) as [dj Hdj]. rewrite Hdi in Hci |- *. rewrite Hdj in Hcj |- *. split; [|by intros ->].
  intros E%str_app_inj_l%FormatUint_inj; [done|lia..].
Qed.

Lemma canon_alike s e s' e' i j : (s, e) ∈ rec_groups T → (s', e') ∈ rec_groups T → s ≤ i < e → s' ≤ j < e' →
  canon i = canon j ↔ i - s = j - s' ∧ Forall2 (def_equiv (ref_equiv s e s' e' (λ x y, canon x = canon y))) (slice T s e) (slice T s' e').
Proof using Hok Hinv.
  intros Hg Hg' Hi Hj. rewrite (canon_eq s e s' e') by done. rewrite key_of_equiv by apply T_ok.
  split; (intros [Ep HF]; split; [done|]); revert HF; apply Forall2_mono_in; intros d d' Hd Hd'; apply def_equiv_mono; intros x y Hx Hy;
    pose proof (member_refs _ _ _ _ _ T_ok Hg Hd Hx); pose proof (member_refs _ _ _ _ _ T_ok Hg' Hd' Hy);
    (intros [|Hnx Hny HR]; [by apply ref_inside|]); (apply ref_outside; [done..|]); apply outside_eq; lia || done.
Qed.

Lemma canon_iso i j : 0 ≤ i < zlen T → 0 ≤ j < zlen T → canon i = canon j ↔ iso T T i j.
Proof using Hok Hinv. apply identity_decides; [apply T_ok..|]. apply canon_alike. Qed.

Lemma canonical_section : Canonical T.
Proof using Hok Hinv.
  intros i d Hi Hd. pose proof (typeAt_range _ _ _ Hd) as Hlt. assert (CanonicalIndex d = canon i) as -> by (unfold canonicalIndex; by rewrite Hd).
  pose proof (canon_range i ltac:(lia)) as Hr. pose proof (canon_idem i ltac:(lia)) as Hid.
  destruct (typeAt_is_Some T (canon i) ltac:(lia)) as [dc Hdc]. exists dc.
  split_and!; [done|by unfold canonicalIndex at 1 in Hid; rewrite Hdc in Hid|lia|lia|].
  destruct (group_of T i ltac:(lia)) as (s & e & Hg & Hse). destruct (canon_group s e Hg) as (s0 & e0 & Hg0 & _ & Hs0 & Hl & Ek & Hc).
  rewrite (Hc i Hse) in Hdc. pose proof Ek as HF. symmetry in HF. apply key_of_equiv in HF; [|apply T_ok..].
  assert (slice T s e !! Z.to_nat (i - s) = Some d) as H1.
  { apply slice_at; [lia|]. rewrite Z2Nat.id by lia. split; [lia|]. by replace (s + (i - s)) with i by lia. }
  assert (slice T s0 e0 !! Z.to_nat (i - s) = Some dc) as H2 by (apply slice_at; [lia|]; rewrite Z2Nat.id by lia; split; [lia|done]).
  pose proof (Forall2_lookup_lr _ _ _ _ _ _ HF H1 H2) as HE. revert HE.
  apply def_equiv_mono. intros x y Hx Hy.
  pose proof (member_refs _ _ _ _ _ T_ok Hg (list_elem_of_lookup_2 _ _ _ H1) Hx). pose proof (member_refs _ _ _ _ _ T_ok Hg0 (list_elem_of_lookup_2 _ _ _ H2) Hy).
  intros [Hx1 Hy1 Exy|_ _ HR]; [|apply outside_eq; [lia..|done]]. by apply (canon_eq s e s0 e0).
Qed.
End canonical.

(** * Sections the validator has prepared *)

Lemma reset_same types : same (imap (λ i d, set_canonical d (u32 (Z.of_nat i))) types) types.
Proof. apply list_eq. intros i. rewrite !list_lookup_fmap, list_lookup_imap. by destruct (types !! i). Qed.

Lemma prepared types : section_ok types → let T := prepare_types true types in
  same T types ∧ section_ok T ∧ Canonical T ∧ ∃ types' interned, section_ok types' ∧ zlen types' = zlen types ∧ canon_inv types' (zlen types') T interned.
Proof.
  intros Hok. unfold prepare_types. set (types' := imap _ types). pose proof (reset_same types) as Hs. fold types' in Hs.
  assert (section_ok types') as Hok' by (eapply same_ok; [symmetry; exact Hs|done]). destruct (canonicalize_inv types' Hok') as [interned Hinv].
  split_and!.
  - etrans; [apply (ci_same _ _ _ _ Hinv)|done].
  - by eapply T_ok.
  - by eapply canonical_section.
  - exists types', interned. split_and!; [done|unfold zlen; by rewrite (same_types_length _ _ Hs)|done].
Qed.

(** What canonicalization and validation leave of a decoded section. *)
Record checked (T : list TypeDef) : Prop := {
  ch_ok : section_ok T;
  ch_canonical : Canonical T;
  ch_valid : validated T;
  ch_iso : ∀ i j, 0 ≤ i < zlen T → 0 ≤ j < zlen T → canonicalIndex T i = canonicalIndex T j ↔ iso T T i j;
}.

Lemma prepare_checked gc types : section_ok types → validateTypeSection gc (prepare_types true types) = Ok tt → checked (prepare_types true types).
Proof.
  intros Hok Hv. destruct (prepared types Hok) as (Hs & HT & Hc & types' & interned & Hok' & _ & Hinv).
  split; [done|done|by eapply validateTypeSection_validated|]. intros i j. by eapply canon_iso.
Qed.

(** A type and its declared supertype, or one type under two indices. *)
Definition declared (T : list TypeDef) (i j : Z) : Prop :=
  iso T T i j ∨ 0 ≤ i ∧ ∃ d, typeAt T i = Some d ∧ HasSupertype d = true ∧ j = Supertype d.

Section checked_.
Context (T : list TypeDef) (HT : checked T).

#[local] Instance T_canonical : Canonical T := ch_canonical T HT.

Lemma iso_range i j : iso T T i j → 0 ≤ i < zlen T ∧ 0 ≤ j < zlen T.
Proof using.
  intros [s e s' e' p Hg Hg' Hp HF]. apply Forall2_length in HF. pose proof (rec_group_range _ _ _ Hg). pose proof (rec_group_range _ _ _ Hg').
  pose proof (slice_length T s e ltac:(lia) ltac:(lia)). pose proof (slice_length T s' e' ltac:(lia) ltac:(lia)). unfold zlen in *. lia.
Qed.

Lemma declared_rtc i j : 0 ≤ i < zlen T → rtc (declared T) i j → 0 ≤ j < zlen T ∧ rtc (cstep T) (canonicalIndex T i) (canonicalIndex T j).
Proof using HT.
  intros Hi. induction 1 as [i|i j k Hij _ IH]; [done|].
  assert (0 ≤ j < zlen T ∧ rtc (cstep T) (canonicalIndex T i) (canonicalIndex T j)) as [Hj Hstep].
  { destruct Hij as [Hiso|(_ & d & Hd & Hs & ->)].
    - pose proof (iso_range _ _ Hiso) as [_ ?]. split; [done|]. by rewrite (proj2 (ch_iso T HT i j ltac:(lia) ltac:(lia)) Hiso).
    - pose proof (indexed_at _ _ _ (ok_indexed _ (ch_ok T HT)) Hd) as Hp. destruct (ch_valid T HT i d ltac:(lia) Hd Hs Hp) as (s & Hs' & Hlt & _).
      split; [lia|]. destruct (ch_canonical T HT i d ltac:(lia) Hd) as (dc & Hdc & _ & Hr & [_ _ _ _ Eh _ Es]).
      assert (canonicalIndex T i = CanonicalIndex d) as -> by (unfold canonicalIndex; by rewrite Hd). apply rtc_once. split; [lia|].
      exists dc. split_and!; [done|congruence|]. rewrite (Es Hs). done. }
  destruct (IH Hj) as [Hk Hrest]. split; [done|]. by etrans.
Qed.

Lemma canonical_range i : 0 ≤ i < zlen T → 0 ≤ canonicalIndex T i ≤ i ∧ canonicalIndex T (canonicalIndex T i) = canonicalIndex T i.
Proof using HT.
  intros Hi. destruct (typeAt_is_Some T i Hi) as [d Hd]. destruct (ch_canonical T HT i d ltac:(lia) Hd) as (dc & Hdc & E & Hr & _).
  assert (canonicalIndex T i = CanonicalIndex d) as -> by (unfold canonicalIndex; by rewrite Hd). split; [done|]. unfold canonicalIndex. by rewrite Hdc.
Qed.

Lemma canonical_iso i : 0 ≤ i < zlen T → iso T T i (canonicalIndex T i) ∧ iso T T (canonicalIndex T i) i.
Proof using HT. intros Hi. destruct (canonical_range i Hi) as [? ?]. split; apply (ch_iso T HT); lia. Qed.

Lemma rtc_declared x y : rtc (cstep T) x y → 0 ≤ x < zlen T → rtc (declared T) x y.
Proof using HT.
  induction 1 as [x|x y z (Hx & d & Hd & Hs & ->) _ IH]; intros Hr; [done|].
  pose proof (indexed_at _ _ _ (ok_indexed _ (ch_ok T HT)) Hd) as Hp. destruct (ch_valid T HT x d Hx Hd Hs Hp) as (s & Hs' & Hlt & _).
  destruct (canonical_range (Supertype d) ltac:(lia)) as [? _]. apply rtc_l with (Supertype d); [right; split; [done|]; by exists d|].
  apply rtc_l with (canonicalIndex T (Supertype d)); [left; apply canonical_iso; lia|]. apply IH. lia.
Qed.

Lemma subtype_declared i j : 0 ≤ i < zlen T → 0 ≤ j < zlen T → concreteIsSubtypeOf T i j = true ↔ rtc (declared T) i j.
Proof using HT.
  intros Hi Hj. rewrite (concreteIsSubtypeOf_rtc T (ok_indexed _ (ch_ok T HT))) by lia. split.
  - intros H. destruct (canonical_range i Hi) as [? _]. apply rtc_l with (canonicalIndex T i); [left; by apply canonical_iso|].
    etrans; [apply rtc_declared; [done|lia]|]. apply rtc_once. left. by apply canonical_iso.
  - intros H. by apply declared_rtc.
Qed.
End checked_.

(** * The theorems *)

(** C25. In a decoded section the canonical index of a type is the least index of a type
    that is the same under the iso-recursive rule, and two types are the same exactly
    when their canonical indices are equal; nothing else of the section changes. *)
Theorem CanonicalizeTypes_iso types : section_ok types →
  let T := CanonicalizeTypes types in
  same T types ∧
  (∀ i j, 0 ≤ i < zlen T → 0 ≤ j < zlen T → canonicalIndex T i = canonicalIndex T j ↔ iso T T i j) ∧
  ∀ i, 0 ≤ i < zlen T → iso T T i (canonicalIndex T i) ∧ ∀ j, 0 ≤ j < zlen T → iso T T i j → canonicalIndex T i ≤ j.
Proof.
  intros Hok T. destruct (canonicalize_inv types Hok) as [interned Hinv]. pose proof (canon_iso types T interned Hok Hinv) as Hiso.
  pose proof (canon_range types T interned Hok Hinv) as Hr. pose proof (canon_idem types T interned Hok Hinv) as Hid.
  split_and!; [apply (ci_same _ _ _ _ Hinv)|done|]. intros i Hi. specialize (Hr i Hi) as Hri. split.
  - apply Hiso; [done|lia|]. symmetry. by apply Hid.
  - intros j Hj H. apply Hiso in H as ->; [|done..]. specialize (Hr j Hj). lia.
Qed.

(** In a section that validation accepts, matching of value types is reflexive and
    transitive, and a concrete type matches another exactly when declared supertypes
    lead from the one to the other, types that are the same being interchangeable. *)
Theorem valueTypeMatches_preorder gc types : section_ok types →
  let T := prepare_types true types in
  validateTypeSection gc T = Ok tt →
  (∀ a, valueTypeMatches T a a = true) ∧
  (∀ a b c, valueTypeMatches T a b = true → valueTypeMatches T b c = true → valueTypeMatches T a c = true) ∧
  ∀ i j, 0 ≤ i < zlen T → 0 ≤ j < zlen T → concreteIsSubtypeOf T i j = true ↔ rtc (declared T) i j.
Proof.
  intros Hok T Hv. pose proof (prepare_checked gc types Hok Hv) as Hc. fold T in Hc. pose proof (ch_canonical T Hc). split_and!.
  - intros a. unfold valueTypeMatches. by rewrite Z.eqb_refl.
  - intros a b c. apply valueTypeMatches_trans; [done|apply (ch_valid T Hc)|apply (ok_indexed _ (ch_ok T Hc))].
  - by apply subtype_declared.
Qed.

(** C37. In a section that validation accepts, a subtype can stand for its supertype: a
    function takes and returns what the supertype's signature asks, and an aggregate
    has every field of the supertype, at the slot the supertype's layout gives it. *)
Theorem subtype_substitutable gc types : section_ok types →
  let T := prepare_types true types in
  validateTypeSection gc T = Ok tt →
  ∀ i j di dj, 0 ≤ i → 0 ≤ j → typeAt T i = Some di → typeAt T j = Some dj → concreteIsSubtypeOf T i j = true →
  def_sub T di dj ∧
  ∀ k f slot, td_kind dj ≠ CompositeKindFunc → td_fields dj !! k = Some f → FieldSlots (layout_of dj) ≫= (.!! k) = Some slot →
    FieldSlots (layout_of di) ≫= (.!! k) = Some slot.
Proof.
  intros Hok T Hv i j di dj Hi Hj Hdi Hdj Hs. pose proof (prepare_checked gc types Hok Hv) as Hc. fold T in Hc. pose proof (ch_canonical T Hc).
  pose proof (subtype_def_sub T (ch_valid T Hc) (ok_indexed _ (ch_ok T Hc)) (ok_arrays _ (ch_ok T Hc)) i j di dj Hi Hj Hdi Hdj Hs) as Hd.
  split; [done|]. intros k f slot Hk Hf. destruct Hd as [Ek Hd]. unfold layout_of, CacheFieldSlots. cbn [ft_kind].
  rewrite Ek, !decide_False by done. cbn. intros <-. apply (fields_sub_slots T (td_fields dj) (td_fields di) 0) with f; [|done].
  by destruct (td_kind dj).
Qed.

(** ** A section *)

Definition demo_field (m : bool) (v : Z) : FieldType := mkField v m.
Definition demo_aggregate (fields : list FieldType) (super : option Z) (ext : bool) (n p : Z) : TypeDef :=
  mkDef [] [] CompositeKindStruct fields (bool_decide (is_Some super)) (default 0 super) ext n p 0.

(** Types 0 and 2 are the same, and so are their extensions 1 and 3; 4 to 7 are two
    groups of two mutually recursive types. *)
Definition demo_types : list TypeDef :=
  [demo_aggregate [demo_field true ValueTypeI32] None true 0 0;
   demo_aggregate [demo_field true ValueTypeI32; demo_field false ValueTypeV128; demo_field false (ValueTypeConcreteRef 0 true)] (Some 0) false 0 0;
   demo_aggregate [demo_field true ValueTypeI32] None true 0 0;
   demo_aggregate [demo_field true ValueTypeI32; demo_field false ValueTypeV128; demo_field false (ValueTypeConcreteRef 2 true)] (Some 2) false 0 0;
   mkDef [ValueTypeConcreteRef 5 false] [] CompositeKindFunc [] false 0 false 2 0 0;
   demo_aggregate [demo_field false (ValueTypeConcreteRef 4 true)] None false 2 1;
   mkDef [ValueTypeConcreteRef 7 false] [] CompositeKindFunc [] false 0 false 2 0 0;
   demo_aggregate [demo_field false (ValueTypeConcreteRef 6 true)] None false 2 1].

Definition section_okb (types : list TypeDef) : bool :=
  (zlen types <? 2 ^ 32) && forallb (λ d, valid_def d && (0 <=? Supertype d) && (bool_decide (td_kind d ≠ CompositeKindArray) || (zlen (td_fields d) =? 1))) types &&
  forallb (λ g, forallb (λ d, ((RecGroupSize d <=? 1) || (RecGroupSize d =? g.2 - g.1)) && forallb (λ i, i <? g.2) (refs d)) (slice types g.1 g.2)) (rec_groups types).

Lemma section_okb_ok types : section_okb types = true → section_ok types.
Proof.
  unfold section_okb. rewrite !andb_true_iff, !forallb_forall. intros [[Hl Hd] Hg]. setoid_rewrite forallb_forall in Hg.
  assert (∀ d, d ∈ types → valid_def d = true ∧ 0 ≤ Supertype d ∧ (td_kind d = CompositeKindArray → length (td_fields d) = 1%nat)) as H.
  { intros d Hin%list_elem_of_In. specialize (Hd d Hin). apply andb_true_iff in Hd as [[? ?]%andb_true_iff Ha]. split_and!; [done|lia|].
    intros Hk. apply orb_true_iff in Ha as [Ha%bool_decide_eq_true|Ha%Z.eqb_eq]; [done|unfold zlen in Ha; lia]. }
  split; [lia| | | | |]; try (apply list.Forall_forall; intros d Hin; by apply H).
  - intros s e d Hin%list_elem_of_In Hin'%list_elem_of_In. specialize (Hg _ Hin _ Hin'). apply andb_true_iff in Hg as [Hg _]. cbn in Hg. lia.
  - intros s e d i Hin%list_elem_of_In Hin'%list_elem_of_In Hi%list_elem_of_In. specialize (Hg _ Hin _ Hin'). apply andb_true_iff in Hg as [_ Hg].
    rewrite forallb_forall in Hg. specialize (Hg i Hi). cbn in Hg. lia.
Qed.

Lemma demo_ok : section_ok demo_types.
Proof. apply section_okb_ok. by vm_compute. Qed.

Lemma CanonicalizeTypes_iso_witness : iso (CanonicalizeTypes demo_types) (CanonicalizeTypes demo_types) 7 5.
Proof. apply (proj1 (proj2 (CanonicalizeTypes_iso demo_types demo_ok)) 7 5); [by vm_compute..|reflexivity]. Defined.

Lemma valueTypeMatches_preorder_witness : rtc (declared (prepare_types true demo_types)) 3 0.
Proof.
  apply (proj2 (proj2 (valueTypeMatches_preorder true demo_types demo_ok ltac:(vm_compute; reflexivity))) 3 0); [by vm_compute..|vm_compute; reflexivity].
Defined.

Lemma subtype_substitutable_witness :
  ∃ di dj, typeAt (prepare_types true demo_types) 3 = Some di ∧ typeAt (prepare_types true demo_types) 0 = Some dj ∧
    def_sub (prepare_types true demo_types) di dj.
Proof.
  eexists _, _. split; [reflexivity|]. split; [reflexivity|].
  refine (proj1 (subtype_substitutable true demo_types demo_ok _ 3 0 _ _ _ _ _ _ _)); [vm_compute; reflexivity|lia|lia|reflexivity|reflexivity|vm_compute; reflexivity].
Defined.
