(* ===== verification/GcTypeIds.v ===== *)
(** The type IDs of a store ([store.go] of [internal/wasm]): modules share one table of
    types, and the subtype test on IDs is the static one. *)
From Stdlib Require Import ZArith Lia String Ascii.
From stdpp Require Import base list numbers option tactics strings sets gmap relations.
From S2P Require Import Prelude GcHeap GcCollect GcOps GcHistory GcTypes GcSubtype GcTypeKeys GcCanon.
Local Open Scope string_scope.
Local Open Scope Z_scope.

(** * Interning *)

(** The part of [Store] that knows types. *)
Record TypeStore := mkStore { typeIDs : gmap string Z; store_supers : list Z; functionMaxTypes : Z }.

(** [None] is the error of a full store. *)
Definition getFunctionTypeIDByKey (s : TypeStore) (key : string) (super : Z) : TypeStore * option Z :=
  match typeIDs s !! key with
  | Some id => (s, Some id)
  | None =>
      let l := Z.of_nat (size (typeIDs s)) in
      if functionMaxTypes s <=? u32 l then (s, None)
      else
        let id := u32 l in
        (mkStore (<[key := id]> (typeIDs s)) (store_supers s ++ [super]) (functionMaxTypes s), Some id)
  end.

Definition GetFunctionTypeID (s : TypeStore) (t : TypeDef) : TypeStore * option Z :=
  getFunctionTypeIDByKey s (buildKey t) NoFunctionTypeID.

Definition hasConcreteRef (t : TypeDef) : bool := existsb IsConcreteRef (Params t) || existsb IsConcreteRef (Results t).

Definition isPlainFuncType (types : list TypeDef) (start end_ : Z) : bool :=
  if negb (end_ - start =? 1) then false
  else match typeAt types start with
       | None => false
       | Some t => bool_decide (td_kind t = CompositeKindFunc) && negb (HasSupertype t) && negb (Extensible t) && negb (hasConcreteRef t)
       end.

(** An element of the slice [ret]. *)
Definition idAt (ret : list Z) (i : Z) : Z := default 0 (ret !! Z.to_nat i).

(** How a store-wide key names a type outside its group. *)
Definition outside_id (ret : list Z) (idx : Z) : string :=
  if OutOfRange idx (zlen ret) then "?" +:+ FormatUint idx else "#tid=" +:+ FormatUint (idAt ret idx).

Definition groupKey (ts : list TypeDef) (ret : list Z) (start end_ : Z) : string :=
  if isPlainFuncType ts start end_ then "" else RecGroupKey ts start end_ (outside_id ret).

Definition memberKey (groupKey : string) (start i : Z) (t : TypeDef) : string :=
  if decide (groupKey = "") then buildKey t else groupKey +:+ "@" +:+ FormatUint (i - start).

(** The supertype recorded with type [i]. *)
Definition superID (ret : list Z) (i : Z) (t : TypeDef) : Z :=
  if HasSupertype t && (Supertype t <? i) then idAt ret (Supertype t) else NoFunctionTypeID.

(** The inner loop of [GetFunctionTypeIDs], over what is left of the group; [false]
    is its early return. *)
Fixpoint intern_members (gkey : string) (start : Z) (l : list TypeDef) (i : Z) (s : TypeStore) (ret : list Z) : TypeStore * list Z * bool :=
  match l with
  | [] => (s, ret, true)
  | t :: l =>
      match getFunctionTypeIDByKey s (memberKey gkey start i t) (superID ret i t) with
      | (s, None) => (s, ret, false)
      | (s, Some id) => intern_members gkey start l (i + 1) s (<[Z.to_nat i := id]> ret)
      end
  end.

Definition intern_group (ts : list TypeDef) (start end_ : Z) (st : TypeStore * list Z * bool) : TypeStore * list Z * bool :=
  let '(s, ret, ok) := st in
  if negb ok then st else intern_members (groupKey ts ret start end_) start (slice ts start end_) start s ret.

Definition GetFunctionTypeIDs (s : TypeStore) (ts : list TypeDef) : TypeStore * option (list Z) :=
  let '(s, ret, ok) := ForEachRecGroup ts (intern_group ts) (s, replicate (length ts) 0, true) in
  (s, if ok then Some ret else None).

(** * Keys of plain functions *)

Definition plain (t : TypeDef) : Prop :=
  td_kind t = CompositeKindFunc ∧ HasSupertype t = false ∧ Extensible t = false ∧ hasConcreteRef t = false.

(** No name begins another. *)
Lemma names_prefix_free :
  forallb (λ a, forallb (λ b, bool_decide (a = b) || negb (String.prefix (ValueTypeName a) (ValueTypeName b))) abstract_types) abstract_types = true.
Proof. by vm_compute. Qed.

Lemma names_first :
  forallb (λ a, negb (String.prefix "_" (ValueTypeName a)) && negb (String.prefix "k" (ValueTypeName a)) && negb (String.prefix "v_" (ValueTypeName a)) &&
    (2 <=? String.length (ValueTypeName a))%nat) abstract_types = true.
Proof. by vm_compute. Qed.

Lemma prefix_app a b : String.prefix a (a +:+ b) = true.
Proof. induction a as [|c a IH]; [by destruct b|]. rewrite str_app_cons. cbn. by destruct (ascii_dec c c). Qed.

Lemma app_prefix a : ∀ b s t, a +:+ s = b +:+ t → String.prefix a b = true ∨ String.prefix b a = true.
Proof.
  induction a as [|c a IH]; intros [|c' b] s t E; [by left|by left|by right|].
  rewrite !str_app_cons in E. injection E as -> E. cbn. destruct (ascii_dec c' c'); [|done]. by eapply IH.
Qed.

Lemma name_split v v' s s' : v ∈ abstract_types → v' ∈ abstract_types → ValueTypeName v +:+ s = ValueTypeName v' +:+ s' → v = v' ∧ s = s'.
Proof.
  intros Hv%list_elem_of_In Hv'%list_elem_of_In E. pose proof names_prefix_free as H. rewrite forallb_forall in H.
  assert (v = v') as <-; [|by apply str_app_inj_l in E].
  destruct (app_prefix _ _ _ _ E) as [Hp|Hp].
  - specialize (H _ Hv). rewrite forallb_forall in H. specialize (H _ Hv'). rewrite Hp, orb_false_r in H. by apply bool_decide_eq_true in H.
  - specialize (H _ Hv'). rewrite forallb_forall in H. specialize (H _ Hv). rewrite Hp, orb_false_r in H. by apply bool_decide_eq_true in H.
Qed.

(** [s] is empty or begins with an underscore. *)
Definition names_end (s : string) : Prop := s = "" ∨ ∃ r, s = String "_" r.

Definition names (l : list Z) : string := concat_str (ValueTypeName <$> l).

Lemma name_no_end v s t : v ∈ abstract_types → names_end s → s ≠ ValueTypeName v +:+ t.
Proof.
  intros Hv%list_elem_of_In Hs E. pose proof names_first as H. rewrite forallb_forall in H. specialize (H _ Hv).
  rewrite !andb_true_iff, !negb_true_iff in H. destruct H as [[[H1 _] _] H2].
  destruct Hs as [->|[r ->]], (ValueTypeName v) as [|c w]; try done. rewrite str_app_cons in E. injection E as <- _. by destruct w.
Qed.

Lemma names_split l : ∀ l' s s', Forall (.∈ abstract_types) l → Forall (.∈ abstract_types) l' → names_end s → names_end s' →
  names l +:+ s = names l' +:+ s' → l = l' ∧ s = s'.
Proof.
  assert (∀ v l s, names (v :: l) +:+ s = ValueTypeName v +:+ (names l +:+ s)) as Hcons by (intros; unfold names; cbn; by rewrite str_app_assoc).
  induction l as [|v l IH]; intros [|v' l'] s s' Hl Hl' Hs Hs' E; rewrite ?Hcons in E.
  - done.
  - apply list.Forall_cons in Hl' as [Hv' _]. by apply name_no_end in E.
  - apply list.Forall_cons in Hl as [Hv _]. symmetry in E. by apply name_no_end in E.
  - apply list.Forall_cons in Hl as [Hv Hl], Hl' as [Hv' Hl']. apply name_split in E as [-> E]; [|done..].
    by destruct (IH l' s s' Hl Hl' Hs Hs' E) as [-> ->].
Qed.

Lemma plain_names t : plain t → valid_def t = true → Forall (.∈ abstract_types) (Params t) ∧ Forall (.∈ abstract_types) (Results t).
Proof.
  intros (_ & _ & _ & Hc) [[Hp Hr]%andb_true_iff _]%andb_true_iff. unfold hasConcreteRef in Hc. apply orb_false_iff in Hc as [Hcp Hcr].
  assert (∀ l, forallb valid_vt l = true → existsb IsConcreteRef l = false → Forall (.∈ abstract_types) l) as H; [|by split; apply H].
  intros l Hl Hn. rewrite forallb_forall in Hl. apply list.Forall_forall. intros v Hv%list_elem_of_In. specialize (Hl v Hv). unfold valid_vt in Hl.
  destruct (IsConcreteRef v) eqn:E; [|by apply bool_decide_eq_true in Hl].
  assert (existsb IsConcreteRef l = true) as Hn' by (apply existsb_exists; eauto). congruence.
Qed.

Lemma buildKey_plain t : plain t → RecGroupSize t ≤ 1 →
  buildKey t = (match Params t with [] => "v_" | _ => names (Params t) +:+ "_" end) +:+ (match Results t with [] => "v" | _ => names (Results t) end).
Proof.
  intros (Hk & Hs & He & _) Hn. unfold buildKey, writeCompositeKey. rewrite Hk, Hs, He, (proj2 (Z.ltb_ge _ _)) by done.
  unfold names. change (concat_str (ValueTypeName <$> [])) with "". destruct (Params t) as [|p ps], (Results t) as [|r rs]; rewrite ?str_app_nil, ?str_app_assoc; reflexivity.
Qed.

(** What stands for no parameters or no results begins no name and no name begins it. *)
Lemma names_no_v : forallb (λ a, negb (String.prefix "v_" (ValueTypeName a)) && negb (String.prefix (ValueTypeName a) "v_") && negb (String.prefix (ValueTypeName a) "v")) abstract_types = true.
Proof. by vm_compute. Qed.

Lemma params_no_v v l s t : v ∈ abstract_types → "v_" +:+ s ≠ names (v :: l) +:+ t.
Proof.
  intros Hv%list_elem_of_In E. unfold names in E. cbn [fmap list_fmap concat_str foldr] in E. rewrite str_app_assoc in E.
  pose proof names_no_v as H. rewrite forallb_forall in H. specialize (H _ Hv). rewrite !andb_true_iff, !negb_true_iff in H. destruct H as [[H1 H2] _].
  apply app_prefix in E as [E|E]; congruence.
Qed.

Lemma results_no_v v l : v ∈ abstract_types → "v" ≠ names (v :: l).
Proof.
  intros Hv%list_elem_of_In E. unfold names in E. cbn [fmap list_fmap concat_str foldr] in E.
  pose proof names_no_v as H. rewrite forallb_forall in H. specialize (H _ Hv). rewrite !andb_true_iff, !negb_true_iff in H. destruct H as [_ H].
  rewrite E in H. by rewrite prefix_app in H.
Qed.

Lemma plain_key_inj t t' : plain t → plain t' → valid_def t = true → valid_def t' = true → RecGroupSize t ≤ 1 → RecGroupSize t' ≤ 1 →
  buildKey t = buildKey t' → Params t = Params t' ∧ Results t = Results t'.
Proof.
  intros Ht Ht' Hv Hv' Hs Hs' E. rewrite !buildKey_plain in E by done.
  destruct (plain_names t Ht Hv) as [HP HR], (plain_names t' Ht' Hv') as [HP' HR'].
  set (R := match Results t with [] => "v" | _ => _ end) in E. set (R' := match Results t' with [] => "v" | _ => _ end) in E.
  assert (Params t = Params t' ∧ R = R') as [EP ER].
  { destruct (Params t) as [|p ps] eqn:EP, (Params t') as [|p' ps'] eqn:EP'; rewrite ?str_app_assoc in E.
    - by apply str_app_inj_l in E.
    - by apply params_no_v in E; [|apply list.Forall_cons in HP' as [? _]].
    - symmetry in E. by apply params_no_v in E; [|apply list.Forall_cons in HP as [? _]].
    - apply names_split in E as [-> E]; [|done|done|right; eauto|right; eauto]. by apply str_app_inj_l in E. }
  split; [done|]. subst R R'. destruct (Results t) as [|r rs], (Results t') as [|r' rs'].
  - done.
  - by apply results_no_v in ER; [|apply list.Forall_cons in HR' as [? _]].
  - symmetry in ER. by apply results_no_v in ER; [|apply list.Forall_cons in HR as [? _]].
  - apply (names_split _ _ "" ""); [done|done|by left|by left|by rewrite ER].
Qed.

(** No plain key begins like a group's. *)
Lemma plain_key_first t s : plain t → valid_def t = true → RecGroupSize t ≤ 1 → buildKey t ≠ String "k" s.
Proof.
  intros Ht Hv Hs. rewrite buildKey_plain by done. destruct (plain_names t Ht Hv) as [HP _].
  destruct (Params t) as [|p ps]; [done|]. apply list.Forall_cons in HP as [Hp%list_elem_of_In _].
  pose proof names_first as H. rewrite forallb_forall in H. specialize (H _ Hp). rewrite !andb_true_iff, !negb_true_iff in H. destruct H as [[[_ H] _] Hl].
  unfold names. cbn [fmap list_fmap concat_str foldr]. rewrite !str_app_assoc. destruct (ValueTypeName p) as [|c w]; [done|].
  rewrite str_app_cons. intros [= -> _]. cbn in H. by destruct w.
Qed.

(** * Keys of group members *)

Definition type_key (T : list TypeDef) (ret : list Z) (s e i : Z) (t : TypeDef) : string := memberKey (groupKey T ret s e) s i t.

Lemma outside_id_ok ret i : outside_key (outside_id ret i) = true.
Proof.
  unfold outside_key, outside_id. apply andb_true_iff. split.
  - destruct (OutOfRange _ _); rewrite free_app, FormatUint_free; done.
  - apply bool_decide_eq_true, list_elem_of_In. destruct (OutOfRange _ _); cbn; auto.
Qed.

Lemma plain_spec T s e : isPlainFuncType T s e = true ↔ e - s = 1 ∧ ∃ t, typeAt T s = Some t ∧ plain t.
Proof.
  unfold isPlainFuncType, plain. destruct (Z.eqb_spec (e - s) 1) as [He|He]; cbn [negb]; [|intuition discriminate].
  destruct (typeAt T s) as [t|]; [|split; [done|by intros (_ & t & ? & _)]].
  rewrite !andb_true_iff, !negb_true_iff, bool_decide_eq_true. split; [intros [[[? ?] ?] ?]; eauto 8|intros (_ & t' & [= <-] & ? & ? & ? & ?); done].
Qed.

Lemma slice_single T s e t : 0 ≤ s → e - s = 1 → typeAt T s = Some t → slice T s e = [t].
Proof.
  intros Hs He Ht. apply list_eq. intros i. apply option_eq. intros d. rewrite slice_at by done. destruct i as [|i].
  - rewrite Z.add_0_r. cbn. split; [intros [_ ?]; congruence|intros [= <-]; split; [lia|done]].
  - split; [intros [? _]; lia|done].
Qed.

Lemma group_key_first T s e o : (s, e) ∈ rec_groups T → ∃ r, RecGroupKey T s e o = String "k" r.
Proof.
  intros Hg. pose proof (rec_group_range _ _ _ Hg). pose proof (slice_length T s e ltac:(lia) ltac:(lia)) as Hl. unfold RecGroupKey.
  destruct (slice T s e) as [|d l]; [unfold zlen in Hl; cbn in Hl; lia|]. cbn [fmap list_fmap concat_str foldr]. unfold member_key.
  rewrite str_app_assoc, str_app_cons. by eexists.
Qed.

(** The relation of two groups their keys decide. *)
Definition alike (T T' : list TypeDef) (ret ret' : list Z) (s e s' e' : Z) : Prop :=
  Forall2 (def_equiv (ref_equiv s e s' e' (λ x y, outside_id ret x = outside_id ret' y))) (slice T s e) (slice T' s' e').

Lemma hasConcreteRef_equiv R d d' : def_equiv R d d' → hasConcreteRef d = hasConcreteRef d'.
Proof.
  intros [_ HP HR _ _ _ _]. unfold hasConcreteRef.
  assert (∀ l l', Forall2 (vt_equiv R) l l' → existsb IsConcreteRef l = existsb IsConcreteRef l') as H; [|by rewrite (H _ _ HP), (H _ _ HR)].
  induction 1 as [|v v' l l' Hv _ IH]; [done|]. cbn. rewrite IH. by destruct Hv as [->|v' -> -> _ _].
Qed.

Lemma def_equiv_plain R d d' : def_equiv R d d' → plain d → plain d'.
Proof. intros HE. pose proof (hasConcreteRef_equiv _ _ _ HE) as Hc. destruct HE as [Hk _ _ _ Hh Hx _]. unfold plain. by rewrite Hk, Hh, Hx, Hc. Qed.

Lemma def_equiv_sym R d d' : def_equiv R d d' → def_equiv (λ x y, R y x) d' d.
Proof.
  assert (∀ v v', vt_equiv R v v' → vt_equiv (λ x y, R y x) v' v) as Hv by (intros v ? [|v' ? ? ? ?]; [by constructor|by apply vt_concrete]).
  assert (∀ l l', Forall2 (vt_equiv R) l l' → Forall2 (vt_equiv (λ x y, R y x)) l' l) as Hl
    by (intros l l' H; apply Forall2_flip; eapply Forall2_impl; [exact H|apply Hv]).
  intros [Hk HP HR HF Hh Hx Hs]. constructor; try done; [by apply Hl|by apply Hl| |rewrite <- Hh; apply Hs].
  rewrite <- Hk. intros Hf. apply Forall2_flip. eapply Forall2_impl; [exact (HF Hf)|]. intros f f' [Em Et]. by constructor; [|apply Hv].
Qed.

(** Plain functions have one key when they have one signature. *)
Lemma plain_key_equiv R d d' : plain d → plain d' → valid_def d = true → valid_def d' = true → RecGroupSize d ≤ 1 → RecGroupSize d' ≤ 1 →
  buildKey d = buildKey d' ↔ def_equiv R d d'.
Proof.
  intros Hp Hp' Hv Hv' Hs Hs'. pose proof (plain_names d Hp Hv) as [HP HR].
  assert (∀ v, v ∈ abstract_types → IsConcreteRef v = false) as Habs.
  { intros v Hv0%list_elem_of_In. assert (forallb (λ v, negb (IsConcreteRef v)) abstract_types = true) as H by (by vm_compute).
    rewrite forallb_forall in H. specialize (H v Hv0). by apply negb_true_iff in H. }
  rewrite list.Forall_forall in HP, HR. split.
  - intros [EP ER]%plain_key_inj; [|done..]. destruct Hp as (Hk & Hh & Hx & _), Hp' as (Hk' & Hh' & Hx' & _). constructor; try congruence.
    + rewrite <- EP. apply Forall2_refl_in. intros v Hin. constructor. by apply Habs, HP.
    + rewrite <- ER. apply Forall2_refl_in. intros v Hin. constructor. by apply Habs, HR.
  - intros [_ EP ER _ _ _ _]. rewrite !buildKey_plain by done.
    assert (∀ l l', (∀ v, v ∈ l → v ∈ abstract_types) → Forall2 (vt_equiv R) l l' → l = l') as H; [|by rewrite (H _ _ HP EP), (H _ _ HR ER)].
    intros l l' Hl HF. induction HF as [|v v' l l' Hv0 _ IH]; [done|]. rewrite IH by (intros; apply Hl; by right). f_equal.
    destruct Hv0 as [|v' Hc]; [done|]. rewrite Habs in Hc by (apply Hl; by left). done.
Qed.

Lemma type_key_cases T ret s e i d : (s, e) ∈ rec_groups T →
  type_key T ret s e i d = if isPlainFuncType T s e then buildKey d else RecGroupKey T s e (outside_id ret) +:+ "@" +:+ FormatUint (i - s).
Proof.
  intros Hg. unfold type_key, memberKey, groupKey. destruct (isPlainFuncType T s e); [by rewrite decide_True|].
  destruct (group_key_first T s e (outside_id ret) Hg) as [k Hk]. rewrite decide_False; [done|]. by rewrite Hk.
Qed.

Section two_groups.
Context (T T' : list TypeDef) (ret ret' : list Z) (HT : section_ok T) (HT' : section_ok T') (s e s' e' : Z).
Hypothesis Hg : (s, e) ∈ rec_groups T.
Hypothesis Hg' : (s', e') ∈ rec_groups T'.

Lemma alike_length : alike T T' ret ret' s e s' e' → e - s = e' - s'.
Proof using Hg Hg'.
  intros H%Forall2_length. pose proof (rec_group_range _ _ _ Hg). pose proof (rec_group_range _ _ _ Hg').
  pose proof (slice_length T s e ltac:(lia) ltac:(lia)). pose proof (slice_length T' s' e' ltac:(lia) ltac:(lia)). unfold zlen in *. lia.
Qed.

Lemma alike_at p d d' : alike T T' ret ret' s e s' e' → 0 ≤ p < e - s → typeAt T (s + p) = Some d → typeAt T' (s' + p) = Some d' →
  def_equiv (ref_equiv s e s' e' (λ x y, outside_id ret x = outside_id ret' y)) d d'.
Proof using Hg Hg'.
  intros Ha Hp Hd Hd'. pose proof (alike_length Ha). pose proof (rec_group_range _ _ _ Hg). pose proof (rec_group_range _ _ _ Hg').
  apply (Forall2_lookup_lr _ _ _ (Z.to_nat p) _ _ Ha); apply slice_at; try lia; rewrite Z2Nat.id by lia; (split; [lia|done]).
Qed.

Lemma alike_plain : alike T T' ret ret' s e s' e' → isPlainFuncType T s e = isPlainFuncType T' s' e'.
Proof using HT HT' Hg Hg'.
  intros Ha. pose proof (alike_length Ha). pose proof (rec_group_range _ _ _ Hg). pose proof (rec_group_range _ _ _ Hg').
  destruct (typeAt_is_Some T s ltac:(lia)) as [d Hd], (typeAt_is_Some T' s' ltac:(lia)) as [d' Hd'].
  pose proof (alike_at 0 d d' Ha ltac:(lia)) as HE. rewrite !Z.add_0_r in HE. specialize (HE Hd Hd').
  apply eq_iff_eq_true. rewrite !plain_spec. split; intros (He & t & Ht & Hp); (split; [lia|]).
  - exists d'. split; [done|]. rewrite Hd in Ht. injection Ht as <-. by eapply def_equiv_plain.
  - exists d. split; [done|]. rewrite Hd' in Ht. injection Ht as <-. eapply def_equiv_plain; [by apply def_equiv_sym|done].
Qed.

(** Members have one key when their groups are alike and they sit at one position. *)
Lemma type_key_equiv i j d d' : s ≤ i < e → s' ≤ j < e' → typeAt T i = Some d → typeAt T' j = Some d' →
  type_key T ret s e i d = type_key T' ret' s' e' j d' ↔ i - s = j - s' ∧ alike T T' ret ret' s e s' e'.
Proof using HT HT' Hg Hg'.
  intros Hi Hj Hd Hd'. pose proof (rec_group_range _ _ _ Hg) as Hr. pose proof (rec_group_range _ _ _ Hg') as Hr'.
  destruct (group_key_first T s e (outside_id ret) Hg) as [k Hk], (group_key_first T' s' e' (outside_id ret') Hg') as [k' Hk'].
  destruct (ok_at _ _ _ HT Hd) as [Hv _], (ok_at _ _ _ HT' Hd') as [Hv' _].
  assert (isPlainFuncType T s e = true → plain d ∧ e - s = 1 ∧ slice T s e = [d] ∧ RecGroupSize d ≤ 1) as Hp.
  { intros (He & t & Ht & Hp)%plain_spec. assert (i = s) as -> by lia. rewrite Hd in Ht. injection Ht as <-.
    pose proof (slice_single T s e d ltac:(lia) He Hd) as Hsl. split_and!; try done.
    destruct (ok_sizes _ HT s e d Hg) as [|]; [rewrite Hsl; by apply list_elem_of_singleton|done|lia]. }
  assert (isPlainFuncType T' s' e' = true → plain d' ∧ e' - s' = 1 ∧ slice T' s' e' = [d'] ∧ RecGroupSize d' ≤ 1) as Hp'.
  { intros (He & t & Ht & Hpl)%plain_spec. assert (j = s') as -> by lia. rewrite Hd' in Ht. injection Ht as <-.
    pose proof (slice_single T' s' e' d' ltac:(lia) He Hd') as Hsl. split_and!; try done.
    destruct (ok_sizes _ HT' s' e' d' Hg') as [|]; [rewrite Hsl; by apply list_elem_of_singleton|done|lia]. }
  pose proof alike_plain as Hal. rewrite (type_key_cases T ret s e i d Hg), (type_key_cases T' ret' s' e' j d' Hg').
  destruct (isPlainFuncType T s e) eqn:Ep, (isPlainFuncType T' s' e') eqn:Ep'.
  - destruct (Hp eq_refl) as (Hpl & He & Hsl & Hsz), (Hp' eq_refl) as (Hpl' & He' & Hsl' & Hsz'). unfold alike. rewrite Hsl, Hsl'.
    rewrite (plain_key_equiv (ref_equiv s e s' e' (λ x y, outside_id ret x = outside_id ret' y)) d d') by done.
    split; [intros HE; split; [lia|by apply Forall2_cons]|by intros [_ [HE _]%Forall2_cons]].
  - destruct (Hp eq_refl) as (Hpl & _ & _ & Hsz). rewrite Hk', str_app_cons. split; [by intros E%plain_key_first|by intros [_ ?%Hal]].
  - destruct (Hp' eq_refl) as (Hpl & _ & _ & Hsz). rewrite Hk, str_app_cons. split; [by intros E; symmetry in E; apply plain_key_first in E|by intros [_ ?%Hal]].
  - split.
    + intros E. apply (group_split s e s' e' (outside_id ret) (outside_id ret')) in E as [Ha E];
        [|apply outside_id_ok|apply outside_id_ok|by apply slice_valid|by apply slice_valid|done|done].
      apply str_app_inj_l, FormatUint_inj in E; [by split|lia|lia].
    + intros [Ep1 Ha]. rewrite Ep1. f_equal.
      apply (group_key_equiv s e s' e' (outside_id ret) (outside_id ret')); [apply outside_id_ok..|by apply slice_valid|by apply slice_valid|done].
Qed.
End two_groups.

(** * The store *)

(** IDs are dense, and each has one key and one recorded supertype. *)
Record store_wf (s : TypeStore) : Prop := {
  sw_max : 0 ≤ functionMaxTypes s < 2 ^ 32;
  sw_size : Z.of_nat (size (typeIDs s)) ≤ functionMaxTypes s;
  sw_supers : length (store_supers s) = size (typeIDs s);
  sw_words : Forall (λ x, 0 ≤ x < 2 ^ 32) (store_supers s);
  sw_range : ∀ k id, typeIDs s !! k = Some id → 0 ≤ id < Z.of_nat (size (typeIDs s));
  sw_inj : ∀ k k' id, typeIDs s !! k = Some id → typeIDs s !! k' = Some id → k = k';
}.

(** Nothing of a store is ever changed, only added to. *)
Record extends (s s' : TypeStore) : Prop := {
  ex_ids : typeIDs s ⊆ typeIDs s';
  ex_supers : store_supers s `prefix_of` store_supers s';
}.

#[global] Instance extends_preorder : PreOrder extends.
Proof. split; [by intros s; split|]. intros s1 s2 s3 [H1 H2] [H3 H4]. split; by etrans. Qed.

Lemma extends_id s s' k id : extends s s' → typeIDs s !! k = Some id → typeIDs s' !! k = Some id.
Proof. intros [H _] Hk. by eapply lookup_weaken. Qed.

Lemma extends_super s s' i x : extends s s' → store_supers s !! i = Some x → store_supers s' !! i = Some x.
Proof. intros [_ [l ->]] H. by apply lookup_app_l_Some. Qed.

(** The members below [a] have the IDs of their keys. *)
Definition entries (s : TypeStore) (T : list TypeDef) (ret : list Z) (a : Z) : Prop :=
  ∀ b e j d, (b, e) ∈ rec_groups T → b ≤ j < e → j < a → typeAt T j = Some d → typeIDs s !! type_key T ret b e j d = Some (idAt ret j).

Lemma entries_mono s s' T ret a : extends s s' → entries s T ret a → entries s' T ret a.
Proof. intros Hx H b e j d Hg Hj Ha Hd. eapply extends_id; [done|]. by apply H. Qed.

(** A section that has passed validation. *)
Definition accepted (T : list TypeDef) : Prop := section_ok T ∧ validated T.

(** Why a key is in the store, and the supertype that goes with it. *)
Inductive origin (s : TypeStore) (k : string) : Z → Prop :=
| origin_signature t : plain t → valid_def t = true → RecGroupSize t ≤ 1 → k = buildKey t → origin s k NoFunctionTypeID
| origin_member T ret b e i d : accepted T → zlen ret = zlen T → (b, e) ∈ rec_groups T → b ≤ i < e → typeAt T i = Some d →
    entries s T ret i → k = type_key T ret b e i d → origin s k (superID ret i d).

Lemma origin_mono s s' k x : extends s s' → origin s k x → origin s' k x.
Proof. intros Hx [t ? ? ? ->|T ret b e i d ? ? ? ? ? Hent ->]; [by eapply origin_signature|eapply origin_member; try done; by eapply entries_mono]. Qed.

(** The invariant of a store. *)
Record store_inv (s : TypeStore) : Prop := {
  si_wf : store_wf s;
  si_origin : ∀ k id, typeIDs s !! k = Some id → ∃ x, origin s k x ∧ store_supers s !! Z.to_nat id = Some x;
}.

Lemma superID_validated T ret i d : accepted T → 0 ≤ i → typeAt T i = Some d →
  superID ret i d = (if HasSupertype d then idAt ret (Supertype d) else NoFunctionTypeID) ∧
  (HasSupertype d = true → 0 ≤ Supertype d < i).
Proof.
  intros [Hok Hval] Hi Hd. destruct (ok_at _ _ _ Hok Hd) as [_ Hp]. unfold superID. destruct (HasSupertype d) eqn:Hs; [|by split].
  destruct (Hval i d Hi Hd Hs Hp) as (s & _ & Hlt & _). rewrite (proj2 (Z.ltb_lt _ _)) by done. split; [done|lia].
Qed.

(** An entry's ID is one of the store's. *)
Lemma entry_nonneg s T ret a j : store_wf s → entries s T ret a → 0 ≤ j < zlen T → j < a → 0 ≤ idAt ret j < 2 ^ 32 - 1.
Proof.
  intros Hw He Hj Ha. destruct (group_of T j Hj) as (b & e & Hg & Hbe). destruct (typeAt_is_Some T j Hj) as [d Hd].
  pose proof (sw_range _ Hw _ _ (He b e j d Hg Hbe Ha Hd)). pose proof (sw_max _ Hw). pose proof (sw_size _ Hw). lia.
Qed.

Lemma outside_id_inj ret ret' x y : 0 ≤ x < zlen ret → 0 ≤ y < zlen ret' → 0 ≤ idAt ret x → 0 ≤ idAt ret' y →
  outside_id ret x = outside_id ret' y ↔ idAt ret x = idAt ret' y.
Proof.
  intros Hx Hy H1 H2. unfold outside_id, OutOfRange. rewrite (proj2 (Z.leb_gt _ x)), (proj2 (Z.leb_gt _ y)) by lia.
  split; [|by intros ->]. by intros E%str_app_inj_l%FormatUint_inj.
Qed.

(** A key decides the supertype that goes with it. *)
Lemma origin_unique s k x y : store_wf s → origin s k x → origin s k y → x = y.
Proof.
  intros Hw.
  assert (∀ t T ret b e i d, plain t → valid_def t = true → RecGroupSize t ≤ 1 → accepted T → (b, e) ∈ rec_groups T → b ≤ i < e → typeAt T i = Some d →
    buildKey t = type_key T ret b e i d → superID ret i d = NoFunctionTypeID) as Hsig.
  { intros t T ret b e i d Hp Hv Hs Hacc Hg Hi Hd E. rewrite (type_key_cases T ret b e i d Hg) in E. destruct (isPlainFuncType T b e) eqn:Ep.
    - apply plain_spec in Ep as (He & t' & Ht' & Hp'). assert (i = b) as -> by lia. rewrite Hd in Ht'. injection Ht' as <-.
      unfold superID. by destruct Hp' as (_ & -> & _).
    - destruct (group_key_first T b e (outside_id ret) Hg) as [r Hr]. rewrite Hr, str_app_cons in E. by apply plain_key_first in E. }
  intros [t Hp Hv Hs ->|T ret b e i d HT Hl Hg Hi Hd He ->] [t' Hp' Hv' Hs' E|T' ret' b' e' i' d' HT' Hl' Hg' Hi' Hd' He' E].
  - done.
  - symmetry. by eapply (Hsig t).
  - by eapply (Hsig t').
  - pose proof (rec_group_range _ _ _ Hg). pose proof (rec_group_range _ _ _ Hg'). pose proof HT as [Hok _]. pose proof HT' as [Hok' _].
    destruct (superID_validated T ret i d HT ltac:(lia) Hd) as [-> Hsup], (superID_validated T' ret' i' d' HT' ltac:(lia) Hd') as [-> Hsup'].
    destruct (proj1 (type_key_equiv T T' ret ret' Hok Hok' b e b' e' Hg Hg' i i' d d' Hi Hi' Hd Hd') E) as [Ep Ha].
    pose proof (alike_at T T' ret ret' b e b' e' Hg Hg' (i - b) d d' Ha ltac:(lia)) as HE.
    replace (b + (i - b)) with i in HE by lia. replace (b' + (i - b)) with i' in HE by lia. specialize (HE Hd Hd').
    destruct HE as [_ _ _ _ Hh _ Hsr]. rewrite <- Hh in Hsup' |- *. destruct (HasSupertype d); [|done].
    specialize (Hsup eq_refl). specialize (Hsup' eq_refl). specialize (Hsr eq_refl).
    destruct (typeAt_is_Some T (Supertype d) ltac:(lia)) as [p Hpd], (typeAt_is_Some T' (Supertype d') ltac:(lia)) as [p' Hpd'].
    destruct Hsr as [H1 H2 H3|H1 H2 H3].
    + pose proof (He b e _ p Hg H1 ltac:(lia) Hpd) as E1. pose proof (He' b' e' _ p' Hg' H2 ltac:(lia) Hpd') as E2.
      rewrite (proj2 (type_key_equiv T T' ret ret' Hok Hok' b e b' e' Hg Hg' _ _ p p' H1 H2 Hpd Hpd')) in E1 by done. congruence.
    + pose proof (entry_nonneg s T ret i (Supertype d) Hw He ltac:(lia) ltac:(lia)). pose proof (entry_nonneg s T' ret' i' (Supertype d') Hw He' ltac:(lia) ltac:(lia)).
      apply outside_id_inj in H3; [done|lia..].
Qed.

Lemma origin_word s k x : store_wf s → origin s k x → 0 ≤ x < 2 ^ 32.
Proof.
  intros Hw [t _ _ _ _|T ret b e i d HT Hl Hg Hi Hd He _]; [done|]. pose proof (rec_group_range _ _ _ Hg).
  destruct (superID_validated T ret i d HT ltac:(lia) Hd) as [-> Hp]. destruct (HasSupertype d); [|done]. specialize (Hp eq_refl).
  pose proof (typeAt_range _ _ _ Hd). pose proof (entry_nonneg s T ret i (Supertype d) Hw He ltac:(lia) ltac:(lia)). lia.
Qed.

Lemma getID_spec s k x : store_inv s → origin s k x →
  let '(s', r) := getFunctionTypeIDByKey s k x in
  store_inv s' ∧ extends s s' ∧ ∀ id, r = Some id → typeIDs s' !! k = Some id ∧ store_supers s' !! Z.to_nat id = Some x.
Proof.
  intros [Hw Ho] Hx. unfold getFunctionTypeIDByKey. destruct (typeIDs s !! k) as [id|] eqn:Ek.
  { split_and!; [done|done|]. intros ? [= <-]. split; [done|]. destruct (Ho k id Ek) as (y & Hy & Hs). by rewrite (origin_unique s k x y Hw Hx Hy). }
  pose proof (sw_max s Hw) as Hmax. pose proof (sw_size s Hw) as Hsz. rewrite wrap_small by lia.
  destruct (Z.leb_spec (functionMaxTypes s) (Z.of_nat (size (typeIDs s)))) as [|Hlt]; [by split_and!|].
  set (s' := mkStore _ _ _). assert (extends s s') as Hext by (split; [by apply insert_subseteq|by eexists]).
  assert (size (typeIDs s') = S (size (typeIDs s))) as Hsz' by (by apply map_size_insert_None).
  assert (∀ k' id, typeIDs s' !! k' = Some id → k' = k ∧ id = Z.of_nat (size (typeIDs s)) ∨ typeIDs s !! k' = Some id ∧ id < Z.of_nat (size (typeIDs s))) as Hcase.
  { intros k' id Hk'. destruct (decide (k' = k)) as [->|Hne].
    - left. cbn in Hk'. rewrite lookup_insert_eq in Hk'. by injection Hk' as <-.
    - right. cbn in Hk'. rewrite lookup_insert_ne in Hk' by done. split; [done|]. apply (sw_range s Hw) in Hk'. lia. }
  assert (store_supers s' !! size (typeIDs s) = Some x) as Hnew by (change (store_supers s') with (store_supers s ++ [x])%list; rewrite <- (sw_supers s Hw), lookup_app_r, Nat.sub_diag by done; done).
  split_and!; [|done|].
  - split; [split|].
    + done.
    + rewrite Hsz'. cbn. lia.
    + rewrite Hsz'. cbn. rewrite length_app, (sw_supers s Hw). cbn. lia.
    + cbn. apply Forall_app. split; [apply (sw_words s Hw)|]. apply list.Forall_singleton. by eapply origin_word.
    + intros k' id Hk'. rewrite Hsz'. destruct (Hcase k' id Hk') as [[_ ->]|[Hk _]]; [lia|]. apply (sw_range s Hw) in Hk. lia.
    + intros k1 k2 id H1 H2. destruct (Hcase k1 id H1) as [[-> ->]|[H1' ?]], (Hcase k2 _ H2) as [[-> ?]|[H2' ?]]; try done; try lia.
      by eapply (sw_inj s Hw).
    + intros k' id Hk'. destruct (Hcase k' id Hk') as [[-> ->]|[Hk _]].
      * exists x. rewrite Nat2Z.id. split; [by eapply origin_mono|done].
      * destruct (Ho k' id Hk) as (y & Hy & Hs). exists y. split; [by eapply origin_mono|by eapply extends_super].
  - intros ? [= <-]. rewrite Nat2Z.id. split; [|done]. cbn. by rewrite lookup_insert_eq.
Qed.

(** The recorded supertypes of the members below [a]. *)
Definition supers_at (s : TypeStore) (T : list TypeDef) (ret : list Z) (a : Z) : Prop :=
  ∀ j d, 0 ≤ j < a → typeAt T j = Some d → store_supers s !! Z.to_nat (idAt ret j) = Some (superID ret j d).

Lemma groupKey_frame T ret ret' b e : section_ok T → (b, e) ∈ rec_groups T → zlen ret = zlen ret' →
  (∀ x, 0 ≤ x < b → idAt ret x = idAt ret' x) → groupKey T ret b e = groupKey T ret' b e.
Proof.
  intros Hok Hg Hl Hx. unfold groupKey. destruct (isPlainFuncType T b e); [done|]. pose proof (rec_group_range _ _ _ Hg).
  apply (group_key_equiv b e b e (outside_id ret) (outside_id ret')); [apply outside_id_ok..|by apply slice_valid|by apply slice_valid|].
  apply Forall2_refl_in. intros d Hd. apply def_equiv_refl. intros x Hxr. destruct (member_refs _ _ _ _ _ Hok Hg Hd Hxr) as [Hr _].
  destruct (decide (b ≤ x)); [apply ref_inside; lia|]. apply ref_outside; [lia..|]. unfold outside_id. by rewrite Hl, Hx by lia.
Qed.

Lemma slice_cons T i e : 0 ≤ i < e → e ≤ zlen T → ∃ d, typeAt T i = Some d ∧ slice T i e = d :: slice T (i + 1) e.
Proof.
  intros Hi He. destruct (typeAt_is_Some T i ltac:(lia)) as [d Hd]. exists d. split; [done|]. apply typeAt_Some in Hd; [|lia].
  unfold slice. replace (Z.to_nat (e - i)) with (S (Z.to_nat (e - (i + 1)))) by lia. replace (Z.to_nat (i + 1)) with (S (Z.to_nat i)) by lia.
  by rewrite (drop_S _ _ _ Hd).
Qed.

Lemma idAt_set ret i id j : 0 ≤ i < zlen ret → 0 ≤ j → idAt (<[Z.to_nat i := id]> ret) j = if decide (j = i) then id else idAt ret j.
Proof.
  intros Hi Hj. unfold idAt. destruct (decide (j = i)) as [->|Hne].
  - rewrite list_lookup_insert_eq; [done|]. unfold zlen in Hi. lia.
  - rewrite list_lookup_insert_ne; [done|]. lia.
Qed.

(** Recording one more member. *)
Lemma record_member s s' T ret b e i d id : accepted T → zlen ret = zlen T → (b, e) ∈ rec_groups T → b ≤ i < e → typeAt T i = Some d →
  extends s s' → entries s T ret i → supers_at s T ret i →
  typeIDs s' !! type_key T ret b e i d = Some id → store_supers s' !! Z.to_nat id = Some (superID ret i d) →
  let ret' := <[Z.to_nat i := id]> ret in entries s' T ret' (i + 1) ∧ supers_at s' T ret' (i + 1).
Proof.
  intros Hacc Hl Hg Hi Hd Hext He Hs Hid Hsup ret'. pose proof (rec_group_range _ _ _ Hg) as Hr. pose proof Hacc as [Hok _].
  assert (∀ j, 0 ≤ j → idAt ret' j = if decide (j = i) then id else idAt ret j) as Hat by (intros j Hj; apply idAt_set; lia).
  assert (∀ b' e' j t, (b', e') ∈ rec_groups T → b' ≤ i → type_key T ret' b' e' j t = type_key T ret b' e' j t) as Hkey.
  { intros b' e' j t Hg' Hb. unfold type_key. f_equal. apply groupKey_frame; [done|done|unfold ret', zlen; by rewrite length_insert|].
    intros x Hx. rewrite Hat, decide_False by lia. done. }
  split.
  - intros b' e' j t Hg' Hj Hlt Ht. rewrite Hkey by (done || lia). pose proof (rec_group_range _ _ _ Hg'). rewrite Hat by lia.
    destruct (decide (j = i)) as [->|Hne].
    + destruct (rec_group_unique _ _ _ _ _ i Hg Hg' Hi Hj) as [<- <-]. rewrite Hd in Ht. by injection Ht as <-.
    + eapply extends_id; [done|]. apply He; [done|done|lia|done].
  - intros j t Hj Ht.
    assert (superID ret' j t = superID ret j t) as ->.
    { destruct (superID_validated T ret' j t Hacc ltac:(lia) Ht) as [-> Hp]. destruct (superID_validated T ret j t Hacc ltac:(lia) Ht) as [-> _].
      destruct (HasSupertype t); [|done]. specialize (Hp eq_refl). rewrite Hat, decide_False by lia. done. }
    rewrite Hat by lia. destruct (decide (j = i)) as [->|Hne]; [rewrite Hd in Ht; by injection Ht as <-|].
    eapply extends_super; [done|]. apply Hs; [lia|done].
Qed.

Lemma intern_members_spec T b e : accepted T → (b, e) ∈ rec_groups T → ∀ n i s ret, e - i = Z.of_nat n → b ≤ i → zlen ret = zlen T →
  store_inv s → entries s T ret i → supers_at s T ret i →
  let '(s', ret', ok) := intern_members (groupKey T ret b e) b (slice T i e) i s ret in
  store_inv s' ∧ extends s s' ∧ (ok = true → zlen ret' = zlen T ∧ entries s' T ret' e ∧ supers_at s' T ret' e).
Proof.
  intros Hacc Hg. pose proof (rec_group_range _ _ _ Hg) as Hr. pose proof Hacc as [Hok _]. induction n as [|n IH]; intros i s ret Hn Hbi Hl Hinv He Hs.
  { assert (i = e) as -> by lia. unfold slice. rewrite Z.sub_diag. by cbn. }
  destruct (slice_cons T i e ltac:(lia) ltac:(lia)) as (d & Hd & ->). cbn [intern_members]. fold (type_key T ret b e i d).
  pose proof (getID_spec s (type_key T ret b e i d) (superID ret i d) Hinv ltac:(by eapply (origin_member s _ T ret b e i d); done || lia)) as Hget.
  destruct (getFunctionTypeIDByKey s _ _) as [s1 [id|]]; destruct Hget as (Hinv1 & Hext1 & Hid); [|done].
  destruct (Hid id eq_refl) as [Hk Hsup].
  destruct (record_member s s1 T ret b e i d id Hacc Hl Hg ltac:(lia) Hd Hext1 He Hs Hk Hsup) as [He1 Hs1].
  assert (zlen (<[Z.to_nat i := id]> ret) = zlen ret) as Hl1 by (unfold zlen; by rewrite length_insert).
  specialize (IH (i + 1) s1 (<[Z.to_nat i := id]> ret) ltac:(lia) ltac:(lia) (eq_trans Hl1 Hl) Hinv1 He1 Hs1).
  rewrite (groupKey_frame T ret (<[Z.to_nat i := id]> ret) b e Hok Hg (eq_sym Hl1)) by (intros x Hx; rewrite idAt_set, decide_False by lia; done).
  destruct (intern_members _ _ _ _ _ _) as [[s2 ret2] ok2]. destruct IH as (Hinv2 & Hext2 & Hend). split_and!; [done|by etrans|done].
Qed.

Lemma intern_groups_spec T B : accepted T → ∀ a s ret, tiles a B (zlen T) → (∀ g, g ∈ B → g ∈ rec_groups T) → zlen ret = zlen T →
  store_inv s → entries s T ret a → supers_at s T ret a →
  let '(s', ret', ok) := fold_left (λ st g, intern_group T g.1 g.2 st) B (s, ret, true) in
  store_inv s' ∧ extends s s' ∧ (ok = true → zlen ret' = zlen T ∧ entries s' T ret' (zlen T) ∧ supers_at s' T ret' (zlen T)).
Proof.
  intros Hacc. induction B as [|[b e] B IH]; intros a s ret HB Hin Hl Hinv He Hs; inversion HB; subst; [done|]. cbn [fold_left fst snd intern_group negb].
  pose proof (Hin _ (list_elem_of_here _ _)) as Hg. pose proof (rec_group_range _ _ _ Hg) as Hr.
  pose proof (intern_members_spec T b e Hacc Hg (Z.to_nat (e - b)) b s ret ltac:(lia) ltac:(lia) Hl Hinv He Hs) as Hm.
  destruct (intern_members _ _ _ _ _ _) as [[s1 ret1] ok1]. destruct Hm as (Hinv1 & Hext1 & Hend). destruct ok1.
  - destruct (Hend eq_refl) as (Hl1 & He1 & Hs1). specialize (IH e s1 ret1 ltac:(done) ltac:(intros g Hg'; apply Hin; by right) Hl1 Hinv1 He1 Hs1).
    destruct (fold_left _ B _) as [[s2 ret2] ok2]. destruct IH as (? & ? & ?). split_and!; [done|by etrans|done].
  - assert (∀ B, fold_left (λ st g, intern_group T g.1 g.2 st) B (s1, ret1, false) = (s1, ret1, false)) as -> by (by intros B'; induction B').
    by split_and!.
Qed.

(** * Modules that share a store *)

(** What the instances of a store's modules hold after any sequence of registrations:
    each section that got IDs, with them.  A registration that fails keeps what it
    had added; lone signatures come from host functions and table lookups. *)
Inductive stores (max : Z) : TypeStore → list (list TypeDef * list Z) → Prop :=
| stores_new : stores max (mkStore ∅ [] max) []
| stores_module gc types s l s' r : stores max s l → section_ok types →
    validateTypeSection gc (prepare_types true types) = Ok tt →
    GetFunctionTypeIDs s (prepare_types true types) = (s', r) →
    stores max s' (match r with Some ret => (prepare_types true types, ret) :: l | None => l end)
| stores_signature t s l s' r : stores max s l → plain t → valid_def t = true → RecGroupSize t ≤ 1 →
    GetFunctionTypeID s t = (s', r) → stores max s' l.

(** The IDs [ret] of section [T] are those of the store. *)
Record registered (s : TypeStore) (T : list TypeDef) (ret : list Z) : Prop := {
  rg_checked : checked T;
  rg_length : zlen ret = zlen T;
  rg_entries : entries s T ret (zlen T);
  rg_supers : supers_at s T ret (zlen T);
}.

Lemma registered_mono s s' T ret : extends s s' → registered s T ret → registered s' T ret.
Proof.
  intros Hx [Hc Hl He Hs]. split; [done|done|by eapply entries_mono|]. intros j d Hj Hd. eapply extends_super; [done|]. by apply Hs.
Qed.

Lemma idAt_zero n i : idAt (replicate n 0) i = 0.
Proof. unfold idAt. destruct (replicate n 0 !! Z.to_nat i) eqn:E; [|done]. by apply lookup_replicate in E as [-> _]. Qed.

Lemma GetFunctionTypeIDs_spec s T : checked T → store_inv s →
  let '(s', r) := GetFunctionTypeIDs s T in store_inv s' ∧ extends s s' ∧ ∀ ret, r = Some ret → registered s' T ret.
Proof.
  intros Hc Hinv. assert (accepted T) as Hacc by (split; apply Hc). unfold GetFunctionTypeIDs, ForEachRecGroup.
  pose proof (intern_groups_spec T (rec_groups T) Hacc 0 s (replicate (length T) 0) (rec_groups_tiles T) ltac:(done)) as H.
  destruct (fold_left _ _ _) as [[s' ret] ok]. destruct H as (Hinv' & Hext & Hend).
  - unfold zlen. by rewrite length_replicate.
  - done.
  - intros b e j d Hg Hj Hlt. pose proof (rec_group_range _ _ _ Hg). lia.
  - intros j d Hj. lia.
  - split_and!; [done|done|]. destruct ok; [|done]. intros ? [= <-]. destruct (Hend eq_refl) as (? & ? & ?). by split.
Qed.

Lemma stores_inv max s l : 0 ≤ max < 2 ^ 32 → stores max s l → store_inv s ∧ ∀ T ret, (T, ret) ∈ l → registered s T ret.
Proof.
  intros Hmax. induction 1 as [|gc types s l s' r _ [Hinv Hreg] Hok Hv HG|t s l s' r _ [Hinv Hreg] Hp Hvt Hsz HG].
  - split; [|by intros T ret ?%elem_of_nil]. split; [split|]; cbn; try lia.
    + rewrite map_size_empty. lia.
    + by rewrite map_size_empty.
    + constructor.
    + by intros k id; rewrite lookup_empty.
    + by intros k k' id; rewrite lookup_empty.
    + by intros k id; rewrite lookup_empty.
  - pose proof (GetFunctionTypeIDs_spec s _ (prepare_checked gc types Hok Hv) Hinv) as H. rewrite HG in H. destruct H as (Hinv' & Hext & Hr).
    split; [done|]. intros T ret Hin.
    destruct r as [ret0|]; [apply elem_of_cons in Hin as [[= -> ->]|Hin]; [by apply Hr|]|]; (eapply registered_mono; [done|by apply Hreg]).
  - pose proof (getID_spec s (buildKey t) NoFunctionTypeID Hinv ltac:(by eapply origin_signature)) as H.
    unfold GetFunctionTypeID in HG. rewrite HG in H. destruct H as (Hinv' & Hext & _). split; [done|].
    intros T ret Hin. eapply registered_mono; [done|by apply Hreg].
Qed.

(** Within one store an ID stands for one type. *)
Lemma ids_iso s T ret T' ret' i j : store_inv s → registered s T ret → registered s T' ret' → 0 ≤ i < zlen T → 0 ≤ j < zlen T' →
  idAt ret i = idAt ret' j ↔ iso T T' i j.
Proof.
  intros Hinv [Hc Hl He _] [Hc' Hl' He' _] Hi Hj. pose proof (ch_ok T Hc) as Hok. pose proof (ch_ok T' Hc') as Hok'. pose proof (si_wf s Hinv) as Hw.
  apply identity_decides; [done..| |done|done]. clear i j Hi Hj. intros b e b' e' i j Hg Hg' Hi Hj.
  pose proof (rec_group_range _ _ _ Hg). pose proof (rec_group_range _ _ _ Hg').
  destruct (typeAt_is_Some T i ltac:(lia)) as [d Hd], (typeAt_is_Some T' j ltac:(lia)) as [d' Hd'].
  pose proof (He b e i d Hg Hi ltac:(lia) Hd) as Hk. pose proof (He' b' e' j d' Hg' Hj ltac:(lia) Hd') as Hk'.
  assert (idAt ret i = idAt ret' j ↔ type_key T ret b e i d = type_key T' ret' b' e' j d') as ->.
  { split; [intros E; rewrite E in Hk; by eapply (sw_inj s Hw)|intros E; rewrite E in Hk; congruence]. }
  rewrite (type_key_equiv T T' ret ret' Hok Hok' b e b' e' Hg Hg') by done.
  split; (intros [Ep HF]; split; [done|]); revert HF; apply Forall2_mono_in; intros t t' Ht Ht'; apply def_equiv_mono; intros x y Hx Hy;
    destruct (member_refs _ _ _ _ _ Hok Hg Ht Hx) as [Hx1 Hx2], (member_refs _ _ _ _ _ Hok' Hg' Ht' Hy) as [Hy1 Hy2];
    pose proof (entry_nonneg s T ret (zlen T) x Hw He ltac:(lia) ltac:(lia)); pose proof (entry_nonneg s T' ret' (zlen T') y Hw He' ltac:(lia) ltac:(lia));
    (intros [|Hnx Hny HR]; [by apply ref_inside|]); (apply ref_outside; [done..|]); apply outside_id_inj; lia || done.
Qed.

Section subtypes.
Context (s : TypeStore) (m : ModuleInstance) (Hinv : store_inv s) (Hm : typeSupers m = store_supers s).

Lemma id_super T ret i d : registered s T ret → 0 ≤ i → typeAt T i = Some d → HasSupertype d = true →
  0 ≤ Supertype d < i ∧ super m (idAt ret i) (idAt ret (Supertype d)).
Proof using Hinv Hm.
  intros [Hc Hl He Hs] Hi Hd Hh. pose proof (typeAt_range _ _ _ Hd). assert (accepted T) as Hacc by (split; apply Hc).
  destruct (superID_validated T ret i d Hacc Hi Hd) as [E Hsup]. rewrite Hh in E. specialize (Hsup Hh). split; [done|].
  pose proof (entry_nonneg s T ret (zlen T) i (si_wf s Hinv) He ltac:(lia) ltac:(lia)) as H1.
  pose proof (entry_nonneg s T ret (zlen T) (Supertype d) (si_wf s Hinv) He ltac:(lia) ltac:(lia)) as H2.
  unfold super. rewrite Hm, (Hs i d ltac:(lia) Hd), E. unfold NoFunctionTypeID. split_and!; [lia|done|lia].
Qed.

Lemma super_id T ret i y : registered s T ret → 0 ≤ i < zlen T → super m (idAt ret i) y →
  ∃ d, typeAt T i = Some d ∧ HasSupertype d = true ∧ 0 ≤ Supertype d < i ∧ y = idAt ret (Supertype d).
Proof using Hinv Hm.
  intros [Hc Hl He Hs] Hi (_ & Hy & Hne). destruct (typeAt_is_Some T i Hi) as [d Hd]. exists d. assert (accepted T) as Hacc by (split; apply Hc).
  destruct (superID_validated T ret i d Hacc ltac:(lia) Hd) as [E Hsup]. rewrite Hm, (Hs i d ltac:(lia) Hd), E in Hy. injection Hy as <-.
  destruct (HasSupertype d); [|done]. split_and!; try done; by apply Hsup.
Qed.

Lemma declared_ids T ret i j : registered s T ret → 0 ≤ i < zlen T → rtc (declared T) i j → 0 ≤ j < zlen T ∧ rtc (super m) (idAt ret i) (idAt ret j).
Proof using Hinv Hm.
  intros Hr Hi. induction 1 as [i|i j k Hij _ IH]; [done|]. destruct Hij as [Hiso|(_ & d & Hd & Hh & ->)].
  - pose proof (iso_range T _ _ Hiso) as [_ Hj]. destruct (IH Hj) as [? ?]. split; [done|].
    by rewrite (proj2 (ids_iso s T ret T ret i j Hinv Hr Hr Hi Hj) Hiso).
  - destruct (id_super T ret i d Hr ltac:(lia) Hd Hh) as [Hp Hsup]. destruct (IH ltac:(lia)) as [? ?]. split; [done|]. by eapply rtc_l.
Qed.

Lemma ids_declared T ret x y : rtc (super m) x y → registered s T ret → ∀ i, 0 ≤ i < zlen T → x = idAt ret i →
  ∃ k, 0 ≤ k < zlen T ∧ y = idAt ret k ∧ rtc (declared T) i k.
Proof using Hinv Hm.
  intros H Hr. induction H as [x|x y z Hxy _ IH]; intros i Hi ->; [by exists i|].
  destruct (super_id T ret i y Hr Hi Hxy) as (d & Hd & Hh & Hp & ->). destruct (IH (Supertype d) ltac:(lia) eq_refl) as (k & Hk & -> & Hrtc).
  exists k. split_and!; [lia|lia|done|]. eapply rtc_l; [|exact Hrtc]. right. split; [lia|]. by exists d.
Qed.
End subtypes.

(** * The theorems *)

(** Whatever modules and signatures a store has registered, also after failures, two
    of its modules give one type ID to two of their types exactly when the types are
    the same under the iso-recursive rule. *)
Theorem type_ids_iso max s l : 0 ≤ max < 2 ^ 32 → stores max s l →
  ∀ T ret T' ret', (T, ret) ∈ l → (T', ret') ∈ l → ∀ i j, 0 ≤ i < zlen T → 0 ≤ j < zlen T' →
  idAt ret i = idAt ret' j ↔ iso T T' i j.
Proof. intros Hmax Hs T ret T' ret' Hin Hin' i j. destruct (stores_inv max s l Hmax Hs) as [Hinv Hreg]. apply (ids_iso s); auto. Qed.

(** C24. The runtime subtype test on the IDs of two modules' types answers true exactly when
    the first module's validator finds the one type a subtype of a type that is the
    other; within one module it is the validator's test. *)
Theorem runtime_subtyping_static max s l m : 0 ≤ max < 2 ^ 32 → stores max s l → typeSupers m = store_supers s →
  ∀ T ret T' ret', (T, ret) ∈ l → (T', ret') ∈ l → ∀ i j, 0 ≤ i < zlen T → 0 ≤ j < zlen T' →
  (TypeIDIsSubtypeOf m (idAt ret i) (idAt ret' j) = true ↔ ∃ k, 0 ≤ k < zlen T ∧ concreteIsSubtypeOf T i k = true ∧ iso T T' k j) ∧
  (T = T' → ret = ret' → TypeIDIsSubtypeOf m (idAt ret i) (idAt ret' j) = concreteIsSubtypeOf T i j).
Proof.
  intros Hmax Hs Hm T ret T' ret' Hin Hin' i j Hi Hj. destruct (stores_inv max s l Hmax Hs) as [Hinv Hreg].
  pose proof (Hreg _ _ Hin) as Hr. pose proof (Hreg _ _ Hin') as Hr'. pose proof (si_wf s Hinv) as Hw.
  pose proof (entry_nonneg s T ret (zlen T) i Hw (rg_entries _ _ _ Hr) ltac:(lia) ltac:(lia)) as Hid.
  assert (TypeIDIsSubtypeOf m (idAt ret i) (idAt ret' j) = true ↔ ∃ k, 0 ≤ k < zlen T ∧ concreteIsSubtypeOf T i k = true ∧ iso T T' k j) as H.
  { rewrite TypeIDIsSubtypeOf_rtc by (try (rewrite Hm; apply (sw_words s Hw)); lia). split.
    - intros Hrtc. destruct (ids_declared s m Hinv Hm T ret _ _ Hrtc Hr i Hi eq_refl) as (k & Hk & E & Hd). exists k. split; [done|].
      split; [by apply (subtype_declared T (rg_checked _ _ _ Hr))|]. by apply (ids_iso s T ret T' ret' k j Hinv Hr Hr' Hk Hj).
    - intros (k & Hk & Hd & Hiso). apply (subtype_declared T (rg_checked _ _ _ Hr)) in Hd; [|done..].
      rewrite <- (proj2 (ids_iso s T ret T' ret' k j Hinv Hr Hr' Hk Hj) Hiso). by apply (declared_ids s m Hinv Hm T). }
  split; [done|]. intros <- <-. apply eq_iff_eq_true. rewrite H. split; [|intros Hc; exists j; split; [done|split; [done|]]].
  - intros (k & Hk & Hd & Hiso). apply (subtype_declared T (rg_checked _ _ _ Hr)) in Hd; [|done..].
    apply (subtype_declared T (rg_checked _ _ _ Hr)); [done..|]. etrans; [exact Hd|]. apply rtc_once. by left.
  - by apply (ids_iso s T ret T ret j j Hinv Hr Hr Hj Hj).
Qed.

(** ** Two modules *)

(** A module with the first two types of [demo_types] only, in a store where the
    others come first. *)
Definition demo_small : list TypeDef := take 2 demo_types.

Definition demo_reg (types : list TypeDef) (s : TypeStore) : TypeStore * list Z :=
  let '(s, r) := GetFunctionTypeIDs s (prepare_types true types) in (s, default [] r).
Definition demo_store1 := demo_reg demo_types (mkStore ∅ [] 100).
Definition demo_store2 := demo_reg demo_small demo_store1.1.
Definition demo_modules : list (list TypeDef * list Z) :=
  [(prepare_types true demo_small, demo_store2.2); (prepare_types true demo_types, demo_store1.2)].

Lemma demo_stores : stores 100 demo_store2.1 demo_modules.
Proof.
  apply (stores_module 100 true demo_small demo_store1.1 [(prepare_types true demo_types, demo_store1.2)] demo_store2.1 (Some demo_store2.2));
    [|apply section_okb_ok; vm_compute; reflexivity|vm_compute; reflexivity|vm_compute; reflexivity].
  apply (stores_module 100 true demo_types (mkStore ∅ [] 100) [] demo_store1.1 (Some demo_store1.2)); [constructor|apply demo_ok|vm_compute; reflexivity|vm_compute; reflexivity].
Qed.

Lemma type_ids_iso_witness : iso (prepare_types true demo_small) (prepare_types true demo_types) 1 3.
Proof.
  apply (type_ids_iso 100 demo_store2.1 demo_modules ltac:(lia) demo_stores _ demo_store2.2 _ demo_store1.2);
    [by left|by right; left|by vm_compute|by vm_compute|vm_compute; reflexivity].
Defined.

Lemma runtime_subtyping_static_witness :
  ∃ k, 0 ≤ k < 2 ∧ concreteIsSubtypeOf (prepare_types true demo_small) 1 k = true ∧ iso (prepare_types true demo_small) (prepare_types true demo_types) k 2.
Proof.
  refine (proj1 (proj1 (runtime_subtyping_static 100 demo_store2.1 demo_modules (mkInst [] [] [] [] (λ _, 0) (store_supers demo_store2.1)) _ demo_stores eq_refl
    (prepare_types true demo_small) demo_store2.2 (prepare_types true demo_types) demo_store1.2 _ _ 1 2 _ _)) _); [lia|by left|by right; left|by vm_compute|by vm_compute|vm_compute; reflexivity].
Defined.
