(* ===== verification/GcTypeDecode.v ===== *)
(** The decoder of type sections ([internal/wasm/binary]: [section.go], [function.go],
    [value.go]): it never panics, and what it returns is a section that
    canonicalization and subtyping can work on. *)
From Stdlib Require Import ZArith Lia String.
From stdpp Require Import base list numbers option tactics relations.
From S2P Require Import Prelude Leb128 GcHeap GcCollect GcOps GcTypes GcSubtype GcTypeKeys GcCanon.
Local Open Scope Z_scope.
Local Open Scope go_scope.

(** * Features *)

Definition CoreFeatureMultiValue : Z := Z.shiftl 1 1.
Definition CoreFeatureSIMD : Z := Z.shiftl 1 6.
Definition CoreFeatureGC : Z := Z.shiftl CoreFeatureSIMD 9.
Definition IsEnabled (f feature : Z) : bool := negb (Z.land f feature =? 0).

(** * Decoding *)

(** The errors, without their texts. *)
Inductive dec_error : Type :=
| DEof | DLeb (e : leb_error) | DFeature (feature : Z) | DValueType (b : Z) | DHeapType (ht : Z) | DByte (b : Z)
| DSupertypes (count : Z) | DMutability (b : Z) | DUnknownType (idx : Z).

Abbreviation dres := (outcome dec_error).

Definition RequireEnabled (f feature : Z) : dres unit := if Z.land f feature =? 0 then Err (DFeature feature) else Ok tt.

Definition readByte (buf : list Z) (offset : Z) : dres (Z * Z) :=
  if zlen buf <=? offset then Err DEof
  else if offset <? 0 then Panic
  else match buf !! Z.to_nat offset with Some b => Ok (b, offset + 1) | None => Panic end.

(** [buf[offset:]] *)
Definition from (buf : list Z) (offset : Z) : dres (list Z) :=
  if (0 <=? offset) && (offset <=? zlen buf) then Ok (drop (Z.to_nat offset) buf) else Panic.

(** A decoder of [leb128] at an offset: the value and the offset after it. *)
Definition load (dec : list Z → leb_result) (buf : list Z) (offset : Z) : dres (Z * Z) :=
  let* rest := from buf offset in
  match dec rest with
  | Ok (v, n) => Ok (v, offset + n)
  | Err e => Err (DLeb e)
  | Panic => Panic
  | NoFuel => NoFuel
  end.

Definition HeapTypeFunc : Z := -16.
Definition HeapTypeExtern : Z := -17.
Definition HeapTypeExn : Z := -23.

(** The switch of [AbstractHeapTypeValueType] lists -23 to -12. *)
Definition AbstractHeapTypeValueType (ht : Z) : option Z :=
  if bool_decide (ht ∈ [HeapTypeFunc; HeapTypeExtern; HeapTypeExn; -12; -13; -14; -15; -18; -19; -20; -21; -22])
  then Some (u8 (ht + 0x80)) else None.

Definition IsGCHeapType (v : Z) : bool :=
  bool_decide (Kind v ∈ [Kind ValueTypeNullExnref; Kind ValueTypeNullFuncref; Kind ValueTypeNullExternref; Kind ValueTypeNullref; Kind ValueTypeAnyref;
    Kind ValueTypeEqref; Kind ValueTypeI31ref; Kind ValueTypeStructref; Kind ValueTypeArrayref]).

Definition RefPrefixNullable : Z := 0x63.
Definition RefPrefixNonNullable : Z := 0x64.

Definition decodeRefType (f : Z) (buf : list Z) (offset : Z) (nullable : bool) : dres (Z * Z) :=
  let* '(ht, offset) := load LoadInt33AsInt64 buf offset in
  let* vt :=
    if ht =? HeapTypeFunc then Ok ValueTypeFuncref
    else if ht =? HeapTypeExtern then Ok ValueTypeExternref
    else if ht =? HeapTypeExn then Ok ValueTypeExnref
    else if ht <? 0 then
      match AbstractHeapTypeValueType ht with
      | None => Err (DHeapType ht)
      | Some abstract => let* _ := RequireEnabled f CoreFeatureGC in Ok abstract
      end
    else Ok (ValueTypeConcreteRef (u32 ht) nullable) in
  Ok (if negb nullable then AsNonNullable vt else vt, offset).

Definition decodeValueType (f : Z) (buf : list Z) (offset : Z) : dres (Z * Z) :=
  let* '(b, offset) := readByte buf offset in
  if bool_decide (b ∈ [Kind ValueTypeI32; Kind ValueTypeF32; Kind ValueTypeI64; Kind ValueTypeF64; Kind ValueTypeExternref; Kind ValueTypeFuncref;
    Kind ValueTypeV128; Kind ValueTypeExnref]) then Ok (b, offset)
  else if (b =? RefPrefixNullable) || (b =? RefPrefixNonNullable) then decodeRefType f buf offset (b =? RefPrefixNullable)
  else if IsGCHeapType b then let* _ := RequireEnabled f CoreFeatureGC in Ok (b, offset)
  else Err (DValueType b).

(** The loop of [decodeValueTypes]; [num] values are left.  A round takes at least a
    byte, so the length of the input is fuel enough ([decodeValueTypes_fuel]). *)
Fixpoint decodeValueTypes_loop (fuel : nat) (f : Z) (buf : list Z) (offset num : Z) : dres (list Z * Z) :=
  if num <=? 0 then Ok ([], offset)
  else match fuel with
       | O => NoFuel
       | S fuel =>
           let* '(vt, offset) := decodeValueType f buf offset in
           let* '(vts, offset) := decodeValueTypes_loop fuel f buf offset (num - 1) in
           Ok (vt :: vts, offset)
       end.

Definition decodeValueTypes (f : Z) (buf : list Z) (offset num : Z) : dres (list Z * Z) :=
  decodeValueTypes_loop (S (length buf)) f buf offset num.

Definition decodeStorageType (f : Z) (buf : list Z) (offset : Z) : dres (Z * Z) :=
  let* '(b, o) := readByte buf offset in
  if (b =? ValueTypeI8) || (b =? ValueTypeI16) then Ok (b, o) else decodeValueType f buf offset.

(** The type a decoder fills in. *)
Definition new_def : TypeDef := mkDef [] [] CompositeKindFunc [] false 0 false 0 0 0.

Definition decodeFuncBody (f : Z) (buf : list Z) (offset : Z) (ret : TypeDef) : dres (TypeDef * Z) :=
  let* '(paramCount, offset) := load LoadVecSize buf offset in
  let* '(paramTypes, offset) := decodeValueTypes f buf offset paramCount in
  let* '(resultCount, offset) := load LoadVecSize buf offset in
  let* _ := if 1 <? resultCount then RequireEnabled f CoreFeatureMultiValue else Ok tt in
  let* '(resultTypes, offset) := decodeValueTypes f buf offset resultCount in
  Ok (mkDef paramTypes resultTypes (td_kind ret) (td_fields ret) (HasSupertype ret) (Supertype ret) (Extensible ret)
        (RecGroupSize ret) (RecGroupPosition ret) (CanonicalIndex ret), offset).

(** The loop over the fields, [count] of which are left. *)
Fixpoint decode_fields (fuel : nat) (f : Z) (buf : list Z) (offset count : Z) : dres (list FieldType * Z) :=
  if count <=? 0 then Ok ([], offset)
  else match fuel with
       | O => NoFuel
       | S fuel =>
           let* '(st, offset) := decodeStorageType f buf offset in
           let* '(mut, o) := readByte buf offset in
           if 1 <? mut then Err (DMutability mut)
           else
             let* '(fields, offset) := decode_fields fuel f buf o (count - 1) in
             Ok (mkField st (mut =? 1) :: fields, offset)
       end.

Definition decodeAggregateBody (f : Z) (buf : list Z) (offset : Z) (isArray : bool) (ret : TypeDef) : dres (TypeDef * Z) :=
  let kind := if isArray then CompositeKindArray else CompositeKindStruct in
  let* '(count, offset) := if isArray then Ok (1, offset) else load LoadVecSize buf offset in
  let* '(fields, offset) := decode_fields (S (length buf)) f buf offset count in
  Ok (mkDef (Params ret) (Results ret) kind fields (HasSupertype ret) (Supertype ret) (Extensible ret)
        (RecGroupSize ret) (RecGroupPosition ret) (CanonicalIndex ret), offset).

Definition compositeFunc : Z := 0x60.
Definition compositeStruct : Z := 0x5f.
Definition compositeArray : Z := 0x5e.
Definition subFinal : Z := 0x4f.
Definition subOpen : Z := 0x50.

Definition decodeCompositeType (f : Z) (buf : list Z) (offset : Z) (ret : TypeDef) : dres (TypeDef * Z) :=
  let* '(b, offset) := readByte buf offset in
  if b =? compositeFunc then decodeFuncBody f buf offset ret
  else if (b =? compositeStruct) || (b =? compositeArray) then
    let* _ := RequireEnabled f CoreFeatureGC in decodeAggregateBody f buf offset (b =? compositeArray) ret
  else Err (DByte b).

Definition set_sub (ret : TypeDef) (has : bool) (super : Z) (ext : bool) : TypeDef :=
  mkDef (Params ret) (Results ret) (td_kind ret) (td_fields ret) has super ext (RecGroupSize ret) (RecGroupPosition ret) (CanonicalIndex ret).

Definition decodeDefinedType (f : Z) (buf : list Z) (offset : Z) (ret : TypeDef) : dres (TypeDef * Z) :=
  let* '(b, o) := readByte buf offset in
  if (b =? subFinal) || (b =? subOpen) then
    let* _ := RequireEnabled f CoreFeatureGC in
    let ext := b =? subOpen in
    let* '(count, offset) := load LoadUint32 buf o in
    if 1 <? count then Err (DSupertypes count)
    else if count =? 1 then
      let* '(idx, offset) := load LoadUint32 buf offset in
      decodeCompositeType f buf offset (set_sub ret true idx ext)
    else decodeCompositeType f buf offset (set_sub ret (HasSupertype ret) (Supertype ret) ext)
  else decodeCompositeType f buf offset ret.

(** The first reference that is not below [max], of those a loop visits. *)
Definition unknown_ref (max : Z) (vts : list Z) : option Z :=
  list.head (List.filter (λ i, max <=? i) (vts ≫= vt_refs)).

Definition validateTypeForwardRefs (ft : TypeDef) (max : Z) : dres unit :=
  match unknown_ref max (Params ft) with
  | Some i => Err (DUnknownType i)
  | None =>
      match unknown_ref max (Results ft) with
      | Some i => Err (DUnknownType i)
      | None =>
          match unknown_ref max (f_type <$> td_fields ft) with
          | Some i => Err (DUnknownType i)
          | None => if HasSupertype ft && (max <=? Supertype ft) then Err (DUnknownType (Supertype ft)) else Ok tt
          end
      end
  end.

Definition set_group (d : TypeDef) (size pos : Z) : TypeDef :=
  mkDef (Params d) (Results d) (td_kind d) (td_fields d) (HasSupertype d) (Supertype d) (Extensible d) size pos (CanonicalIndex d).

(** The first inner loop of a rec group, from its member [j]. *)
Fixpoint decode_group (fuel : nat) (f : Z) (buf : list Z) (offset recCount j : Z) : dres (list TypeDef * Z) :=
  if recCount <=? j then Ok ([], offset)
  else match fuel with
       | O => NoFuel
       | S fuel =>
           let* '(ft, offset) := decodeDefinedType f buf offset new_def in
           let* '(fts, offset) := decode_group fuel f buf offset recCount (j + 1) in
           Ok (set_group ft recCount j :: fts, offset)
       end.

Fixpoint validate_group (fts : list TypeDef) (max : Z) : dres unit :=
  match fts with
  | [] => Ok tt
  | ft :: fts => let* _ := validateTypeForwardRefs ft max in validate_group fts max
  end.

(** One round of the outer loop, on the types read so far. *)
Definition decode_entry (f : Z) (buf : list Z) (offset : Z) (result : list TypeDef) : dres (list TypeDef * Z) :=
  let* '(b, o) := readByte buf offset in
  if b =? 0x4e then
    let* '(recCount, offset) := load LoadUint32 buf o in
    let startIdx := u32 (zlen result) in
    let* '(fts, offset) := decode_group (S (length buf)) f buf offset recCount 0 in
    let* _ := validate_group fts (u32 (startIdx + recCount)) in
    Ok (result ++ fts, offset)
  else
    let* '(ft, offset) := decodeDefinedType f buf offset new_def in
    let selfRef := if IsEnabled f CoreFeatureGC then 1 else 0 in
    let* _ := validateTypeForwardRefs ft (u32 (u32 (zlen result) + selfRef)) in
    Ok (result ++ [ft], offset).

Fixpoint decode_entries (fuel : nat) (f : Z) (buf : list Z) (offset vs : Z) (result : list TypeDef) : dres (list TypeDef * Z) :=
  if vs <=? 0 then Ok (result, offset)
  else match fuel with
       | O => NoFuel
       | S fuel => let* '(result, offset) := decode_entry f buf offset result in decode_entries fuel f buf offset (vs - 1) result
       end.

(** [sectionSize] only sizes the slice the types are collected in. *)
Definition decodeTypeSection (f : Z) (buf : list Z) (offset : Z) : dres (list TypeDef * Z) :=
  let* '(vs, offset) := load LoadVecSize buf offset in decode_entries (S (length buf)) f buf offset vs [].

(** * Outcomes of a decoder *)

(** [r] is an error, or a value for which [P] holds with an offset from [lo] on. *)
Definition decodes {A} (buf : list Z) (lo : Z) (r : dres (A * Z)) (P : A → Z → Prop) : Prop :=
  match r with Ok (a, o) => lo ≤ o ≤ zlen buf ∧ P a o | Err _ => True | Panic => False | NoFuel => False end.

Lemma decodes_bind {A B} buf lo lo' (r : dres (A * Z)) (k : A → Z → dres (B * Z)) P Q :
  decodes buf lo r P → (∀ a o, lo ≤ o ≤ zlen buf → P a o → decodes buf lo' (k a o) Q) →
  decodes buf lo' (let* x := r in let '(a, o) := x in k a o) Q.
Proof. destruct r as [[a o]| | |]; try done. intros [Ho HP] Hk. by apply Hk. Qed.

Lemma decodes_check {B} buf lo (r : dres unit) (k : dres (B * Z)) Q :
  r ≠ Panic → r ≠ NoFuel → (r = Ok tt → decodes buf lo k Q) → decodes buf lo (let* _ := r in k) Q.
Proof. destruct r as [[]| | |]; try done. intros _ _ H. by apply H. Qed.

Lemma decodes_mono {A} buf lo lo' (r : dres (A * Z)) P Q : decodes buf lo r P → lo' ≤ lo → (∀ a o, lo ≤ o ≤ zlen buf → P a o → Q a o) → decodes buf lo' r Q.
Proof. destruct r as [[a o]| | |]; try done. intros [Ho HP] Hl H. split; [lia|auto]. Qed.

Lemma RequireEnabled_safe f feature : RequireEnabled f feature ≠ Panic ∧ RequireEnabled f feature ≠ NoFuel.
Proof. unfold RequireEnabled. by destruct (_ =? 0). Qed.

Section decoder.
Context (f : Z) (buf : list Z) (Hbuf : Forall is_byte buf).

Lemma readByte_spec offset : 0 ≤ offset ≤ zlen buf → decodes buf (offset + 1) (readByte buf offset) (λ b o, o = offset + 1 ∧ is_byte b).
Proof using Hbuf.
  intros Ho. unfold readByte. destruct (Z.leb_spec (zlen buf) offset); [done|]. rewrite (proj2 (Z.ltb_ge _ _)) by lia.
  destruct (buf !! Z.to_nat offset) as [b|] eqn:E; [|apply lookup_ge_None in E; unfold zlen in *; lia].
  cbn. split; [lia|]. split; [done|]. exact (Forall_lookup_1 _ _ _ _ Hbuf E).
Qed.

(** What the integer decoders promise: they stay in their input. *)
Definition leb_spec (dec : list Z → leb_result) (P : Z → Prop) : Prop :=
  ∀ rest, Forall is_byte rest → match dec rest with Ok (v, n) => P v ∧ 0 < n ≤ zlen rest | Err _ => True | _ => False end.

Lemma load_spec dec P offset : leb_spec dec P → 0 ≤ offset ≤ zlen buf → decodes buf (offset + 1) (load dec buf offset) (λ v _, P v).
Proof using Hbuf.
  intros Hdec Ho. unfold load, from. rewrite (proj2 (Z.leb_le _ _)), (proj2 (Z.leb_le _ _)) by lia. cbn [andb obind].
  pose proof (Hdec (drop (Z.to_nat offset) buf) ltac:(by apply Forall_drop)) as H.
  destruct (dec _) as [[v n]| | |]; try done. destruct H as [HP Hn]. cbn. unfold zlen in *. rewrite length_drop in Hn. split; [lia|done].
Qed.
End decoder.

Lemma LoadUint32_stays : leb_spec LoadUint32 (λ v, 0 ≤ v < 2 ^ 32).
Proof.
  intros rest Hr. rewrite LoadUint32_ref by done. unfold uleb_ref. destruct (terminator (take 5 rest)) as [j|] eqn:Et; [|by destruct (_ <? _)%nat].
  destruct (Z.ltb_spec (uleb (take j rest)) (2 ^ 32)); [|done]. apply terminator_le in Et. rewrite length_take in Et.
  pose proof (uleb_bound (take j rest)). unfold zlen. lia.
Qed.

Lemma LoadVecSize_stays : leb_spec LoadVecSize (λ v, 0 ≤ v < 2 ^ 32).
Proof.
  intros rest Hr. pose proof (LoadUint32_stays rest Hr) as H. unfold LoadVecSize. destruct (LoadUint32 rest) as [[v n]| | |]; try done.
  cbn. by destruct (_ <? _).
Qed.

Lemma int33Finish_stays b shift n ret : match int33Finish b shift n ret with Ok (v, k) => - 2 ^ 32 ≤ v < 2 ^ 32 ∧ k = n ∧ n ≤ 5 | Err _ => True | _ => False end.
Proof.
  unfold int33Finish. set (r := if (shift <? 33) && _ then _ else ret).
  assert (- 2 ^ 32 ≤ Z.shiftr (i64 (Z.shiftl r 31)) 31 < 2 ^ 32) as Hv.
  { pose proof (swrap_range 64 (Z.shiftl r 31) ltac:(lia)). rewrite Z.shiftr_div_pow2 by lia. split; [apply Z.div_le_lower_bound; lia|apply Z.div_lt_upper_bound; lia]. }
  unfold maxVarintLen33, maxVarintLen32. destruct (Z.ltb_spec 5 n); [done|]. destruct (n =? 5); [destruct (negb _); [done|]|]; (split; [done|lia]).
Qed.

Lemma LoadInt33_loop_stays rest n : ∀ i b shift ret, 0 ≤ i → i + Z.of_nat n = 5 → i ≤ zlen rest →
  match LoadInt33AsInt64_loop n rest i b shift ret with Ok (v, k) => - 2 ^ 32 ≤ v < 2 ^ 32 ∧ i ≤ k ≤ zlen rest ∧ (n ≠ 0%nat → i < k) | Err _ => True | _ => False end.
Proof.
  induction n as [|n IH]; intros i b shift ret Hi Hn Hl; cbn [LoadInt33AsInt64_loop].
  - pose proof (int33Finish_stays b shift (u64 i) ret) as H. rewrite wrap_small in H |- * by lia. destruct (int33Finish b shift i ret) as [[v k]| | |]; try done.
    destruct H as (? & -> & ?). split_and!; [lia..|done].
  - destruct (rest !! Z.to_nat i) as [b'|] eqn:E; [|done]. apply lookup_lt_Some in E.
    destruct (_ =? 0).
    + pose proof (int33Finish_stays b' (shift + 7) (u64 (i + 1)) (Z.lor ret (i64 (Z.shiftl (Z.land b' int33Mask2) shift)))) as H.
      rewrite wrap_small in H |- * by lia. destruct (int33Finish _ _ _ _) as [[v k]| | |]; try done. destruct H as (? & -> & ?). unfold zlen in *. split_and!; lia.
    + specialize (IH (i + 1) b' (shift + 7) (Z.lor ret (i64 (Z.shiftl (Z.land b' int33Mask2) shift))) ltac:(lia) ltac:(lia) ltac:(unfold zlen in *; lia)).
      destruct (LoadInt33AsInt64_loop _ _ _ _ _ _) as [[v k]| | |]; try done. destruct IH as (? & ? & ?). split_and!; lia.
Qed.

Lemma LoadInt33_stays : leb_spec LoadInt33AsInt64 (λ v, - 2 ^ 32 ≤ v < 2 ^ 32).
Proof.
  intros rest Hr. unfold LoadInt33AsInt64. pose proof (LoadInt33_loop_stays rest 5 0 0 0 0 ltac:(lia) ltac:(lia) ltac:(unfold zlen; lia)) as H.
  assert (match LoadInt33AsInt64_loop 5 rest 0 0 0 0 with Ok (v, n) => - 2 ^ 32 ≤ v < 2 ^ 32 ∧ 0 < n ≤ zlen rest | Err _ => True | _ => False end) as Hloop.
  { destruct (LoadInt33AsInt64_loop 5 rest 0 0 0 0) as [[v n]| | |]; try done. destruct H as (? & ? & H). specialize (H ltac:(done)). split; [done|lia]. }
  destruct rest as [|b rest]; [done|]. destruct (Z.ltb_spec b 0x80) as [Hb|]; [|done]. split; [|rewrite zlen_cons; pose proof (zlen_nonneg rest); lia].
  apply list.Forall_cons in Hr as [Hb' _]. unfold is_byte in Hb'.
  pose proof (swrap_range 8 (u8 (Z.shiftl b 1)) ltac:(lia)) as Hs. set (x := swrap 8 _) in *.
  assert (- 64 ≤ Z.shiftr x 1 < 64) as Hx by (rewrite Z.shiftr_div_pow2 by lia; split; [apply Z.div_le_lower_bound; lia|apply Z.div_lt_upper_bound; lia]).
  rewrite swrap_small by lia. lia.
Qed.

(** * Value types *)

Definition valid_value (v : Z) (o : Z) : Prop := valid_vt v = true.

(** The low bits of a concrete reference say what it is. *)
Definition concrete_bits (nullable : bool) : Z := if nullable then 0x270 else 0x370.

Lemma concrete_eq i n : 0 ≤ i → ValueTypeConcreteRef i n = concrete_bits n + i * 2 ^ 32.
Proof.
  intros Hi. unfold ValueTypeConcreteRef. change (Z.lor ValueTypeFuncref flagConcreteRef) with 0x270. rewrite lor_shiftl_add by lia. destruct n; cbn [negb]; [done|].
  unfold flagNonNullable. rewrite Z.lor_comm. change (Z.shiftl 1 8) with 256. 
  rewrite <- (lor_shiftl_add 0x270 i 32) by lia. rewrite Z.lor_assoc. change (Z.lor 256 0x270) with 0x370. by rewrite lor_shiftl_add by lia.
Qed.

Lemma land_low c i m : 0 ≤ m < 2 ^ 32 → Z.land (c + i * 2 ^ 32) m = Z.land (c `mod` 2 ^ 32) m.
Proof.
  intros Hm. assert (m = Z.land (Z.ones 32) m) as -> by (rewrite Z.land_comm, Z.land_ones, Z.mod_small by lia; done).
  rewrite !Z.land_assoc, !Z.land_ones by lia. rewrite Z.mod_add by lia. by rewrite Z.mod_mod by lia.
Qed.

Lemma concrete_fields i n : 0 ≤ i < 2 ^ 32 → let v := ValueTypeConcreteRef i n in
  IsConcreteRef v = true ∧ TypeIndex v = i ∧ IsNullable v = n ∧ AsNonNullable (ValueTypeConcreteRef i false) = ValueTypeConcreteRef i false.
Proof.
  intros Hi v. subst v. rewrite !concrete_eq by lia. split_and!.
  - unfold IsConcreteRef, flagConcreteRef. rewrite land_low by (by vm_compute). by destruct n.
  - unfold TypeIndex. rewrite Z.shiftr_div_pow2 by lia. rewrite Z.div_add by lia. rewrite (Z.div_small (concrete_bits n)) by (by destruct n). apply wrap_small. lia.
  - unfold IsNullable, IsRef, flagConcreteRef, flagNonNullable. rewrite !land_low by (by vm_compute).
    destruct n; cbn [concrete_bits]; rewrite orb_true_r; done.
  - unfold AsNonNullable, flagNonNullable. rewrite <- (lor_shiftl_add (concrete_bits false) i 32) by (cbn; lia).
    rewrite Z.lor_comm, Z.lor_assoc. by change (Z.lor (Z.shiftl 1 8) (concrete_bits false)) with (concrete_bits false).
Qed.

Lemma concrete_valid i n : 0 ≤ i < 2 ^ 32 →
  valid_vt (if negb n then AsNonNullable (ValueTypeConcreteRef i n) else ValueTypeConcreteRef i n) = true.
Proof.
  intros Hi. destruct (concrete_fields i n Hi) as (Hc & Ht & Hn & Ha).
  assert ((if negb n then AsNonNullable (ValueTypeConcreteRef i n) else ValueTypeConcreteRef i n) = ValueTypeConcreteRef i n) as -> by (by destruct n).
  unfold valid_vt. by rewrite Hc, Ht, Hn, bool_decide_true.
Qed.

Lemma abstract_valid v : v ∈ abstract_types → valid_vt v = true.
Proof.
  intros Hv%list_elem_of_In. assert (forallb valid_vt abstract_types = true) as H by (by vm_compute). rewrite forallb_forall in H. by apply H.
Qed.

Lemma ref_valid v n : v ∈ abstract_refs → valid_vt (if negb n then AsNonNullable v else v) = true.
Proof.
  intros Hv. apply abstract_valid. unfold abstract_types. rewrite !elem_of_app. destruct n; cbn [negb]; [by right; left|right; right].
  by apply list_elem_of_fmap_2.
Qed.

Lemma AbstractHeapTypeValueType_ref ht v : AbstractHeapTypeValueType ht = Some v → v ∈ abstract_refs.
Proof.
  unfold AbstractHeapTypeValueType. case_bool_decide as H; [|done]. intros [= <-]. apply list_elem_of_In in H. cbn in H.
  apply list_elem_of_In. repeat (destruct H as [<-|H]; [vm_compute; tauto|]). done.
Qed.

Section values.
Context (f : Z) (buf : list Z) (Hbuf : Forall is_byte buf).

Lemma decodeRefType_spec offset n : 0 ≤ offset ≤ zlen buf → decodes buf (offset + 1) (decodeRefType f buf offset n) valid_value.
Proof using Hbuf.
  intros Ho. unfold decodeRefType. eapply decodes_bind; [eapply load_spec; [done|exact LoadInt33_stays|done]|].
  intros ht o Ho1 Hht. cbn beta in Hht.
  assert (∀ vt : dres Z, (∀ v, vt = Ok v → valid_vt (if negb n then AsNonNullable v else v) = true) → vt ≠ Panic → vt ≠ NoFuel →
    decodes buf (offset + 1) (let* vt := vt in Ok (if negb n then AsNonNullable vt else vt, o)) valid_value) as H.
  { intros vt Hv Hp Hf. destruct vt; try done. cbn. split; [lia|]. by apply Hv. }
  apply H; clear H.
  - intros v Hv.
    destruct (ht =? HeapTypeFunc); [injection Hv as <-; apply ref_valid, list_elem_of_In; cbn; tauto|].
    destruct (ht =? HeapTypeExtern); [injection Hv as <-; apply ref_valid, list_elem_of_In; cbn; tauto|].
    destruct (ht =? HeapTypeExn); [injection Hv as <-; apply ref_valid, list_elem_of_In; cbn; tauto|].
    destruct (Z.ltb_spec ht 0).
    + destruct (AbstractHeapTypeValueType ht) as [a|] eqn:Ea; [|done]. apply obind_Ok in Hv as (_ & _ & [= <-]).
      apply ref_valid. by eapply AbstractHeapTypeValueType_ref.
    + injection Hv as <-. rewrite wrap_small by lia. apply concrete_valid. lia.
  - destruct (RequireEnabled_safe f CoreFeatureGC) as [Hp _]. repeat (destruct (_ =? _); [done|]). destruct (ht <? 0); [|done].
    destruct (AbstractHeapTypeValueType ht); [|done]. by destruct (RequireEnabled f CoreFeatureGC).
  - destruct (RequireEnabled_safe f CoreFeatureGC) as [_ Hp]. repeat (destruct (_ =? _); [done|]). destruct (ht <? 0); [|done].
    destruct (AbstractHeapTypeValueType ht); [|done]. by destruct (RequireEnabled f CoreFeatureGC).
Qed.

Lemma decodeValueType_spec offset : 0 ≤ offset ≤ zlen buf → decodes buf (offset + 1) (decodeValueType f buf offset) valid_value.
Proof using Hbuf.
  intros Ho. unfold decodeValueType. eapply decodes_bind; [by apply readByte_spec|]. intros b o Ho1 [-> Hb].
  case_bool_decide as Hin.
  { cbn. split; [lia|]. apply abstract_valid. apply list_elem_of_In in Hin. cbn in Hin. apply list_elem_of_In. vm_compute. tauto. }
  destruct (_ || _).
  { eapply decodes_mono; [apply decodeRefType_spec; lia|lia|done]. }
  destruct (IsGCHeapType b) eqn:Eg; [|done]. destruct (RequireEnabled_safe f CoreFeatureGC). apply decodes_check; [done..|]. intros _. cbn. split; [lia|].
  unfold IsGCHeapType, Kind in Eg. apply bool_decide_eq_true in Eg. rewrite wrap_small in Eg by (unfold is_byte in Hb; lia).
  apply abstract_valid. apply list_elem_of_In in Eg. cbn in Eg. apply list_elem_of_In. vm_compute. tauto.
Qed.

Lemma decodeStorageType_spec offset : 0 ≤ offset ≤ zlen buf → decodes buf (offset + 1) (decodeStorageType f buf offset) valid_value.
Proof using Hbuf.
  intros Ho. unfold decodeStorageType. eapply decodes_bind; [by apply readByte_spec|]. intros b o Ho1 [-> Hb].
  destruct (_ || _) eqn:E.
  - cbn. split; [lia|]. apply abstract_valid. apply orb_true_iff in E as [E%Z.eqb_eq|E%Z.eqb_eq]; rewrite E; apply list_elem_of_In; vm_compute; tauto.
  - eapply decodes_mono; [by apply decodeValueType_spec|lia|done].
Qed.

Lemma decodeValueTypes_loop_spec fuel : ∀ offset num, 0 ≤ offset ≤ zlen buf → zlen buf - offset < Z.of_nat fuel →
  decodes buf offset (decodeValueTypes_loop fuel f buf offset num) (λ vts _, forallb valid_vt vts = true ∧ zlen vts = Z.max 0 num).
Proof using Hbuf.
  induction fuel as [|fuel IH]; intros offset num Ho Hf; cbn [decodeValueTypes_loop]; (destruct (Z.leb_spec num 0); [cbn; split; [lia|]; split; [done|unfold zlen; cbn; lia]|]); [lia|].
  eapply decodes_bind; [by apply decodeValueType_spec|]. intros v o Ho1 Hv. eapply decodes_bind; [apply (IH o (num - 1)); lia|].
  intros vts o2 Ho2 [Hvs Hl]. cbn. rewrite Hv, Hvs, zlen_cons. split; [lia|]. split; [done|lia].
Qed.

Lemma decodeValueTypes_spec offset num : 0 ≤ offset ≤ zlen buf →
  decodes buf offset (decodeValueTypes f buf offset num) (λ vts _, forallb valid_vt vts = true ∧ zlen vts = Z.max 0 num).
Proof using Hbuf. intros Ho. apply decodeValueTypes_loop_spec; [done|]. unfold zlen in *. lia. Qed.

Lemma decode_fields_spec fuel : ∀ offset count, 0 ≤ offset ≤ zlen buf → zlen buf - offset < Z.of_nat fuel →
  decodes buf offset (decode_fields fuel f buf offset count) (λ fs _, forallb (λ d, valid_vt (f_type d)) fs = true ∧ zlen fs = Z.max 0 count).
Proof using Hbuf.
  induction fuel as [|fuel IH]; intros offset count Ho Hf; cbn [decode_fields]; (destruct (Z.leb_spec count 0); [cbn; split; [lia|]; split; [done|unfold zlen; cbn; lia]|]); [lia|].
  eapply decodes_bind; [by apply decodeStorageType_spec|]. intros v o Ho1 Hv. eapply decodes_bind; [apply readByte_spec; [done|lia]|].
  intros mut o2 Ho2 [-> Hm]. destruct (1 <? mut); [done|]. eapply decodes_bind; [apply (IH (o + 1) (count - 1)); lia|].
  intros fs o3 Ho3 [Hfs Hl]. cbn. rewrite Hv, Hfs, zlen_cons. split; [lia|]. split; [done|lia].
Qed.
End values.

(** * Definitions *)

Definition okd (d : TypeDef) : Prop := valid_def d = true ∧ 0 ≤ Supertype d ∧ (td_kind d = CompositeKindArray → length (td_fields d) = 1%nat).

(** What the body of a definition is read into. *)
Definition fresh (d : TypeDef) : Prop :=
  Params d = [] ∧ Results d = [] ∧ td_kind d = CompositeKindFunc ∧ td_fields d = [] ∧ 0 ≤ Supertype d ∧ RecGroupSize d = 0.

Definition read_def (d : TypeDef) (o : Z) : Prop := okd d ∧ RecGroupSize d = 0.

Lemma unknown_ref_None max l : unknown_ref max l = None ↔ ∀ i, i ∈ l ≫= vt_refs → i < max.
Proof.
  unfold unknown_ref. split.
  - intros H i Hi. destruct (Z.leb_spec max i); [|done].
    assert (In i (List.filter (λ i, max <=? i) (l ≫= vt_refs))) as Hin by (apply filter_In; split; [by apply list_elem_of_In|lia]).
    by destruct (List.filter _ _).
  - intros H. destruct (List.filter _ _) as [|i r] eqn:E; [done|].
    assert (In i (List.filter (λ i, max <=? i) (l ≫= vt_refs))) as [Hi Hm]%filter_In by (rewrite E; by left).
    apply list_elem_of_In, H in Hi. lia.
Qed.

Lemma validateTypeForwardRefs_safe d max : validateTypeForwardRefs d max ≠ Panic ∧ validateTypeForwardRefs d max ≠ NoFuel.
Proof. unfold validateTypeForwardRefs. repeat (destruct (unknown_ref _ _); [done|]). by destruct (_ && _). Qed.

(** The check is about the references of the definition, all of them. *)
Lemma validateTypeForwardRefs_spec d max : validateTypeForwardRefs d max = Ok tt ↔ ∀ i, i ∈ refs d → i < max.
Proof.
  unfold validateTypeForwardRefs.
  assert (∀ i, i ∈ refs d ↔ i ∈ Params d ≫= vt_refs ∨ i ∈ Results d ≫= vt_refs ∨ i ∈ (f_type <$> td_fields d) ≫= vt_refs ∨ (HasSupertype d = true ∧ i = Supertype d)) as Hr.
  { intros i. unfold refs. rewrite !elem_of_app.
    assert ((td_fields d ≫= λ f, vt_refs (f_type f)) = (f_type <$> td_fields d) ≫= vt_refs) as -> by (induction (td_fields d) as [|x l IH]; [done|cbn; by f_equal]).
    destruct (HasSupertype d); [rewrite list_elem_of_singleton; tauto|]. rewrite elem_of_nil. intuition discriminate. }
  setoid_rewrite Hr.
  destruct (unknown_ref max (Params d)) eqn:E1; [split; [done|]; intros H; exfalso; assert (unknown_ref max (Params d) = None) by (apply unknown_ref_None; auto); congruence|].
  destruct (unknown_ref max (Results d)) eqn:E2; [split; [done|]; intros H; exfalso; assert (unknown_ref max (Results d) = None) by (apply unknown_ref_None; auto); congruence|].
  destruct (unknown_ref max (f_type <$> td_fields d)) eqn:E3;
    [split; [done|]; intros H; exfalso; assert (unknown_ref max (f_type <$> td_fields d) = None) by (apply unknown_ref_None; auto); congruence|].
  rewrite unknown_ref_None in E1, E2, E3. destruct (HasSupertype d); cbn [andb].
  - destruct (Z.leb_spec max (Supertype d)).
    + split; [done|]. intros Hx. specialize (Hx (Supertype d) ltac:(auto)). lia.
    + split; [|done]. intros _ i [?|[?|[?|[_ ->]]]]; auto.
  - split; [|done]. intros _ i [?|[?|[?|[? _]]]]; auto; done.
Qed.

Section definitions.
Context (f : Z) (buf : list Z) (Hbuf : Forall is_byte buf).

Lemma decodeFuncBody_spec offset ret : fresh ret → 0 ≤ offset ≤ zlen buf → decodes buf offset (decodeFuncBody f buf offset ret) read_def.
Proof using Hbuf.
  intros (HP & HR & Hk & HF & Hs & Hn) Ho. unfold decodeFuncBody.
  eapply decodes_bind; [eapply load_spec; [done|exact LoadVecSize_stays|done]|]. intros np o1 Ho1 _.
  eapply decodes_bind; [apply decodeValueTypes_spec; [done|lia]|]. intros ps o2 Ho2 [Hps _].
  eapply decodes_bind; [eapply load_spec; [done|exact LoadVecSize_stays|lia]|]. intros nr o3 Ho3 _.
  apply decodes_check; [destruct (1 <? nr); [apply RequireEnabled_safe|done]..|]. intros _.
  eapply decodes_bind; [apply decodeValueTypes_spec; [done|lia]|]. intros rs o4 Ho4 [Hrs _].
  cbn. split; [lia|]. split; [|done]. split; [|cbn; split; [done|by rewrite Hk]]. unfold valid_def. cbn. by rewrite Hps, Hrs, HF.
Qed.

Lemma decodeAggregateBody_spec offset isArray ret : fresh ret → 0 ≤ offset ≤ zlen buf → decodes buf offset (decodeAggregateBody f buf offset isArray ret) read_def.
Proof using Hbuf.
  intros (HP & HR & Hk & HF & Hs & Hn) Ho. unfold decodeAggregateBody.
  eapply (decodes_bind buf offset offset _ _ (λ n _, isArray = true → n = 1)).
  { destruct isArray; [cbn; split; [lia|done]|]. eapply decodes_mono; [eapply load_spec; [done|exact LoadVecSize_stays|done]|lia|done]. }
  intros n o1 Ho1 Hone. eapply decodes_bind; [apply (decode_fields_spec f buf Hbuf); [lia|unfold zlen in *; lia]|]. intros fs o2 Ho2 [Hfs Hl].
  cbn. split; [lia|]. split; [|done]. split; [unfold valid_def; cbn; by rewrite HP, HR, Hfs|]. cbn. split; [done|].
  destruct isArray; [|done]. intros _. specialize (Hone eq_refl). unfold zlen in Hl. lia.
Qed.

Lemma decodeCompositeType_spec offset ret : fresh ret → 0 ≤ offset ≤ zlen buf → decodes buf (offset + 1) (decodeCompositeType f buf offset ret) read_def.
Proof using Hbuf.
  intros Hf Ho. unfold decodeCompositeType. eapply decodes_bind; [by apply readByte_spec|]. intros b o1 Ho1 [-> _].
  destruct (b =? compositeFunc); [apply decodeFuncBody_spec; [done|lia]|]. destruct (_ || _); [|done].
  destruct (RequireEnabled_safe f CoreFeatureGC). apply decodes_check; [done..|]. intros _. apply decodeAggregateBody_spec; [done|lia].
Qed.

Lemma decodeDefinedType_spec offset : 0 ≤ offset ≤ zlen buf → decodes buf (offset + 1) (decodeDefinedType f buf offset new_def) read_def.
Proof using Hbuf.
  intros Ho. unfold decodeDefinedType. eapply decodes_bind; [by apply readByte_spec|]. intros b o1 Ho1 [-> _].
  destruct (_ || _); [|by apply decodeCompositeType_spec].
  destruct (RequireEnabled_safe f CoreFeatureGC). apply decodes_check; [done..|]. intros _.
  eapply decodes_bind; [eapply load_spec; [done|exact LoadUint32_stays|lia]|]. intros n o2 Ho2 _.
  destruct (1 <? n); [done|]. destruct (n =? 1).
  - eapply decodes_bind; [eapply load_spec; [done|exact LoadUint32_stays|lia]|]. intros idx o3 Ho3 Hidx. cbn beta in Hidx.
    eapply decodes_mono; [apply decodeCompositeType_spec; [|lia]|lia|done]. unfold fresh. cbn. split_and!; done || lia.
  - eapply decodes_mono; [apply decodeCompositeType_spec; [done|lia]|lia|done].
Qed.

Lemma decode_group_spec fuel : ∀ offset n j, 0 ≤ offset ≤ zlen buf → zlen buf - offset < Z.of_nat fuel →
  decodes buf offset (decode_group fuel f buf offset n j)
    (λ fts o, Forall okd fts ∧ Forall (λ d, RecGroupSize d = n) fts ∧ zlen fts = Z.max 0 (n - j) ∧ zlen fts ≤ o - offset).
Proof using Hbuf.
  induction fuel as [|fuel IH]; intros offset n j Ho Hf; cbn [decode_group];
    (destruct (Z.leb_spec n j); [cbn; split; [lia|]; split_and!; [constructor..|unfold zlen; cbn; lia|unfold zlen; cbn; lia]|]); [lia|].
  eapply decodes_bind; [by apply decodeDefinedType_spec|]. intros d o1 Ho1 [Hd _]. eapply decodes_bind; [apply (IH o1 n (j + 1)); lia|].
  intros ds o2 Ho2 (Hds & Hsz & Hl & Hb). cbn. split; [lia|]. rewrite zlen_cons. split_and!; [by constructor|by constructor|lia|lia].
Qed.
End definitions.

(** * Sections *)

(** A section put together group by group. *)
Inductive grouped : list TypeDef → list (Z * Z) → Prop :=
| grouped_nil : grouped [] []
| grouped_snoc R B d G : grouped R B → (if RecGroupSize d <? 1 then 1 else RecGroupSize d) = zlen (d :: G) →
    grouped (R ++ d :: G) (B ++ [(zlen R, zlen R + zlen (d :: G))]).

Lemma grouped_length R B : grouped R B → (length B ≤ length R)%nat.
Proof. induction 1 as [|R B d G _ IH _]; [done|]. rewrite !length_app. cbn. lia. Qed.

Lemma grouped_bounds R B : grouped R B → ∀ rest fuel, (length R ≤ fuel)%nat →
  group_bounds fuel (R ++ rest) 0 = B ++ group_bounds (fuel - length B) (R ++ rest) (zlen R).
Proof.
  induction 1 as [|R B d G HRB IH Hn]; intros rest fuel Hf; [by rewrite Nat.sub_0_r|].
  rewrite length_app in Hf. cbn in Hf. pose proof (grouped_length _ _ HRB).
  assert ((R ++ d :: G) ++ rest = R ++ d :: G ++ rest) as -> by (by rewrite <- (assoc_L app)).
  rewrite (IH (d :: G ++ rest) fuel) by lia. rewrite <- (assoc_L app). f_equal.
  destruct (fuel - length B)%nat as [|k] eqn:Ek; [lia|]. cbn [group_bounds].
  assert (typeAt (R ++ d :: G ++ rest) (zlen R) = Some d) as Hd.
  { apply typeAt_Some; [unfold zlen; lia|]. unfold zlen. rewrite Nat2Z.id. by apply list_lookup_middle. }
  rewrite Hd, Hn. cbn [app]. pose proof (zlen_app R (d :: G ++ rest)) as H1. pose proof (zlen_app (d :: G) rest) as H2. pose proof (zlen_nonneg rest).
  cbn [app] in H2. rewrite Z.min_l by lia. f_equal. rewrite length_app. cbn [length].
  replace (fuel - (length B + 1))%nat with k by lia. f_equal. rewrite zlen_app. done.
Qed.

Lemma grouped_rec_groups R B : grouped R B → rec_groups R = B.
Proof.
  intros H. unfold rec_groups. pose proof (grouped_bounds R B H [] (length R) ltac:(done)) as E. rewrite app_nil_r in E. rewrite E.
  assert (typeAt R (zlen R) = None) as HN by (unfold typeAt, OutOfRange; by rewrite Z.leb_refl).
  destruct (length R - length B)%nat; cbn [group_bounds]; rewrite ?HN; apply app_nil_r.
Qed.

(** What the decoder has checked of the types read so far. *)
Definition built (R : list TypeDef) : Prop :=
  Forall okd R ∧ ∃ B, grouped R B ∧
    ∀ s e d, (s, e) ∈ B → d ∈ slice R s e → (RecGroupSize d ≤ 1 ∨ RecGroupSize d = e - s) ∧ ∀ i, i ∈ refs d → i < e.

Lemma slice_app_old R G s e : e ≤ zlen R → 0 ≤ s ≤ e → slice (R ++ G) s e = slice R s e.
Proof.
  intros He Hs. unfold slice, zlen in *. rewrite drop_app_le by lia. rewrite take_app_le; [done|]. rewrite length_drop. lia.
Qed.

Lemma slice_app_new R G : slice (R ++ G) (zlen R) (zlen R + zlen G) = G.
Proof.
  unfold slice, zlen. rewrite Nat2Z.id, drop_app_length. apply take_ge. lia.
Qed.

Lemma built_snoc R d G : built R → Forall okd (d :: G) →
  (if RecGroupSize d <? 1 then 1 else RecGroupSize d) = zlen (d :: G) →
  (∀ g, g ∈ d :: G → RecGroupSize g ≤ 1 ∨ RecGroupSize g = zlen (d :: G)) →
  (∀ g i, g ∈ d :: G → i ∈ refs g → i < zlen R + zlen (d :: G)) → built (R ++ d :: G).
Proof.
  intros (HR & B & HB & Hok) HG Hn Hsz Hrefs. split; [by apply Forall_app|]. exists (B ++ [(zlen R, zlen R + zlen (d :: G))]).
  split; [by constructor|]. intros s e g [Hg|[= -> ->]%list_elem_of_singleton]%elem_of_app Hin.
  - pose proof Hg as Hg'. rewrite <- (grouped_rec_groups _ _ HB) in Hg'. pose proof (rec_group_range _ _ _ Hg').
    rewrite slice_app_old in Hin by lia. by apply Hok.
  - rewrite slice_app_new in Hin. split; [|intros i Hi; by apply (Hrefs g)]. destruct (Hsz g Hin); [by left|right; lia].
Qed.

Lemma built_ok R : built R → zlen R < 2 ^ 32 → section_ok R.
Proof.
  intros (HR & B & HB & Hok) Hl. pose proof (grouped_rec_groups _ _ HB) as E. split.
  - done.
  - eapply Forall_impl; [exact HR|]. by intros d (? & _ & _).
  - eapply Forall_impl; [exact HR|]. by intros d (_ & ? & _).
  - intros s e d Hg Hd. rewrite E in Hg. by apply (Hok s e d).
  - eapply Forall_impl; [exact HR|]. by intros d (_ & _ & ?).
  - intros s e d i Hg Hd. rewrite E in Hg. by apply (Hok s e d).
Qed.

Lemma validate_group_spec fts max : validate_group fts max ≠ Panic ∧ validate_group fts max ≠ NoFuel ∧
  (validate_group fts max = Ok tt → ∀ d i, d ∈ fts → i ∈ refs d → i < max).
Proof.
  induction fts as [|d fts (IH1 & IH2 & IH3)]; [split_and!; [done|done|by intros _ d i ?%elem_of_nil]|].
  cbn. destruct (validateTypeForwardRefs_safe d max). destruct (validateTypeForwardRefs d max) as [[]| | |] eqn:E; try done. cbn.
  split_and!; [done|done|]. intros Hv g i [->|Hg]%elem_of_cons; [by apply validateTypeForwardRefs_spec|by apply IH3].
Qed.

Section section_.
Context (f : Z) (buf : list Z) (Hbuf : Forall is_byte buf) (Hlen : zlen buf < 2 ^ 32).

Lemma decode_entry_spec offset R : 0 ≤ offset ≤ zlen buf → zlen R ≤ offset → built R →
  decodes buf (offset + 1) (decode_entry f buf offset R) (λ R' o, built R' ∧ zlen R' ≤ o).
Proof using Hbuf Hlen.
  intros Ho HR Hb. pose proof (zlen_nonneg R). unfold decode_entry. eapply decodes_bind; [by apply readByte_spec|]. intros b o1 Ho1 [-> _].
  destruct (b =? 0x4e).
  - eapply decodes_bind; [eapply load_spec; [done|exact LoadUint32_stays|lia]|]. intros n o2 Ho2 Hn. cbn beta in Hn.
    eapply decodes_bind; [apply decode_group_spec; [done|lia|unfold zlen in *; lia]|]. intros fts o3 Ho3 (Hok & Hsz & Hl & Hl').
    destruct (validate_group_spec fts (u32 (u32 (zlen R) + n))) as (Hv1 & Hv2 & Hv). apply decodes_check; [done..|]. intros Hval. specialize (Hv Hval).
    cbn. split; [lia|]. rewrite zlen_app. split; [|lia].
    rewrite !wrap_small in Hv by (rewrite ?wrap_small by lia; lia).
    destruct fts as [|d G]; [by rewrite app_nil_r|]. rewrite list.Forall_forall in Hsz. pose proof (zlen_cons d G). pose proof (zlen_nonneg G).
    apply built_snoc; [done|done| |intros g Hg; right; rewrite (Hsz g Hg); lia|intros g i Hg Hi; specialize (Hv g i Hg Hi); lia].
    rewrite (Hsz d) by by left. rewrite (proj2 (Z.ltb_ge _ _)) by lia. lia.
  - eapply decodes_bind; [by apply decodeDefinedType_spec|]. intros d o2 Ho2 [Hok Hsz].
    destruct (validateTypeForwardRefs_safe d (u32 (u32 (zlen R) + (if IsEnabled f CoreFeatureGC then 1 else 0)))) as [Hv1 Hv2].
    apply decodes_check; [done..|]. intros Hv. rewrite validateTypeForwardRefs_spec in Hv. cbn. split; [lia|]. rewrite zlen_app.
    change (zlen [d]) with 1. split; [|lia].
    rewrite !wrap_small in Hv by (rewrite ?wrap_small by lia; destruct (IsEnabled f CoreFeatureGC); lia).
    apply built_snoc; [done|by constructor|by rewrite Hsz|intros g ->%list_elem_of_singleton; left; lia|].
    intros g i ->%list_elem_of_singleton Hi. specialize (Hv i Hi). change (zlen [d]) with 1. destruct (IsEnabled f CoreFeatureGC); lia.
Qed.

Lemma decode_entries_spec fuel : ∀ offset vs R, 0 ≤ offset ≤ zlen buf → zlen buf - offset < Z.of_nat fuel → zlen R ≤ offset → built R →
  decodes buf offset (decode_entries fuel f buf offset vs R) (λ R' o, built R' ∧ zlen R' ≤ o).
Proof using Hbuf Hlen.
  induction fuel as [|fuel IH]; intros offset vs R Ho Hf HR Hb; cbn [decode_entries]; (destruct (vs <=? 0); [cbn; split; [lia|done]|]); [lia|].
  eapply decodes_bind; [by apply decode_entry_spec|]. intros R' o Ho' [Hb' HR']. eapply decodes_mono; [apply (IH o); [lia|lia|done|done]|lia|done].
Qed.
End section_.

(** * The binary format

    The grammar of type sections, integers in any of their encodings. *)
Definition u32_bytes (n : Z) (bs : list Z) : Prop := leb_encoding bs ∧ (length bs ≤ 5)%nat ∧ uleb bs = n ∧ 0 ≤ n < 2 ^ 32.
Definition s33_bytes (n : Z) (bs : list Z) : Prop := leb_encoding bs ∧ (length bs ≤ 5)%nat ∧ sleb bs = n ∧ - 2 ^ 32 ≤ n < 2 ^ 32.

Definition ref_prefix (nullable : bool) : Z := if nullable then RefPrefixNullable else RefPrefixNonNullable.

Inductive vt_bytes : Z → list Z → Prop :=
| vt_bytes_short v : v ∈ [ValueTypeI32; ValueTypeI64; ValueTypeF32; ValueTypeF64; ValueTypeV128] ++ abstract_refs → vt_bytes v [v]
| vt_bytes_heap v (n : bool) bs : v ∈ abstract_refs → s33_bytes (v - 0x80) bs → vt_bytes (if n then v else AsNonNullable v) (ref_prefix n :: bs)
| vt_bytes_index i n bs : 0 ≤ i → s33_bytes i bs → vt_bytes (ValueTypeConcreteRef i n) (ref_prefix n :: bs).

Inductive storage_bytes (v : Z) (bs : list Z) : Prop :=
| storage_packed : v = ValueTypeI8 ∨ v = ValueTypeI16 → bs = [v] → storage_bytes v bs
| storage_value : vt_bytes v bs → storage_bytes v bs.

Definition field_bytes (fd : FieldType) (bs : list Z) : Prop := ∃ sb, storage_bytes (f_type fd) sb ∧ bs = sb ++ [if f_mutable fd then 1 else 0].

(** Items one after the other, and a vector of them. *)
Inductive seq_bytes {A} (P : A → list Z → Prop) : list A → list Z → Prop :=
| seq_bytes_nil : seq_bytes P [] []
| seq_bytes_cons a l ab lb : P a ab → seq_bytes P l lb → seq_bytes P (a :: l) (ab ++ lb).

Definition vec_bytes {A} (P : A → list Z → Prop) (l : list A) (bs : list Z) : Prop :=
  ∃ nb lb, u32_bytes (zlen l) nb ∧ seq_bytes P l lb ∧ bs = nb ++ lb.

Inductive composite_bytes (d : TypeDef) : list Z → Prop :=
| composite_func pb rb : td_kind d = CompositeKindFunc → td_fields d = [] → vec_bytes vt_bytes (Params d) pb → vec_bytes vt_bytes (Results d) rb →
    composite_bytes d (compositeFunc :: pb ++ rb)
| composite_struct fb : td_kind d = CompositeKindStruct → Params d = [] → Results d = [] → vec_bytes field_bytes (td_fields d) fb →
    composite_bytes d (compositeStruct :: fb)
| composite_array fd fb : td_kind d = CompositeKindArray → Params d = [] → Results d = [] → td_fields d = [fd] → field_bytes fd fb →
    composite_bytes d (compositeArray :: fb).

Inductive def_bytes (d : TypeDef) : list Z → Prop :=
| def_plain cb : HasSupertype d = false → Supertype d = 0 → Extensible d = false → composite_bytes d cb → def_bytes d cb
| def_sub_none nb cb : HasSupertype d = false → Supertype d = 0 → u32_bytes 0 nb → composite_bytes d cb →
    def_bytes d ((if Extensible d then subOpen else subFinal) :: nb ++ cb)
| def_sub_one nb sb cb : HasSupertype d = true → u32_bytes 1 nb → u32_bytes (Supertype d) sb → composite_bytes d cb →
    def_bytes d ((if Extensible d then subOpen else subFinal) :: nb ++ sb ++ cb).

(** A type of its own, or a rec group; the positions are what the decoder notes. *)
Inductive group_bytes : list TypeDef → list Z → Prop :=
| group_single d bs : RecGroupSize d = 0 → RecGroupPosition d = 0 → CanonicalIndex d = 0 → def_bytes d bs → group_bytes [d] bs
| group_rec G nb gb : u32_bytes (zlen G) nb → seq_bytes def_bytes G gb →
    (∀ k d, G !! k = Some d → RecGroupSize d = zlen G ∧ RecGroupPosition d = Z.of_nat k ∧ CanonicalIndex d = 0) →
    group_bytes G (0x4e :: nb ++ gb).

Definition section_bytes (gs : list (list TypeDef)) (bs : list Z) : Prop := vec_bytes group_bytes gs bs.

(** ** Reading the format *)

(** [dec] reads [v] from the bytes [bs], wherever they are. *)
Definition reads {A} (dec : list Z → Z → dres (A * Z)) (v : A) (bs : list Z) : Prop :=
  ∀ pre rest, Forall is_byte (pre ++ bs ++ rest) → zlen (pre ++ bs ++ rest) < 2 ^ 32 →
  dec (pre ++ bs ++ rest) (zlen pre) = Ok (v, zlen pre + zlen bs).

Lemma from_app pre rest : from (pre ++ rest) (zlen pre) = Ok rest.
Proof.
  unfold from. pose proof (zlen_nonneg pre). pose proof (zlen_nonneg rest). rewrite zlen_app, (proj2 (Z.leb_le _ _)), (proj2 (Z.leb_le _ _)) by lia.
  cbn. unfold zlen. by rewrite Nat2Z.id, drop_app_length.
Qed.

Lemma readByte_reads b : reads readByte b [b].
Proof.
  intros pre rest _ _. unfold readByte. pose proof (zlen_nonneg pre). pose proof (zlen_nonneg rest).
  rewrite (proj2 (Z.leb_gt _ _)) by (rewrite zlen_app; cbn [app]; rewrite zlen_cons; lia). rewrite (proj2 (Z.ltb_ge _ _)) by lia.
  assert (Z.to_nat (zlen pre) = length pre) as -> by (unfold zlen; lia). change ([b] ++ rest) with (b :: rest). by rewrite list_lookup_middle.
Qed.

Lemma LoadUint32_reads n bs : u32_bytes n bs → reads (load LoadUint32) n bs.
Proof.
  intros (He & Hl & Hu & Hn) pre rest Hb _. unfold load. rewrite from_app. cbn [obind]. apply Forall_app in Hb as [_ Hb].
  rewrite LoadUint32_ref, uleb_ref_encoding by (done || lia). rewrite Hu. done.
Qed.

Lemma LoadVecSize_reads n bs pre rest : u32_bytes n bs → Forall is_byte (pre ++ bs ++ rest) → zlen (pre ++ bs ++ rest) < 2 ^ 32 → n ≤ zlen rest →
  load LoadVecSize (pre ++ bs ++ rest) (zlen pre) = Ok (n, zlen pre + zlen bs).
Proof.
  intros (He & Hl & Hu & Hn) Hb Hlen Hr. unfold load. rewrite from_app. cbn [obind]. apply Forall_app in Hb as [_ Hb].
  unfold LoadVecSize. rewrite LoadUint32_ref, uleb_ref_encoding by (done || lia). rewrite Hu. cbn [obind].
  rewrite !zlen_app in Hlen. pose proof (zlen_nonneg pre). unfold zlen in *. rewrite length_app, wrap_small by lia. by rewrite (proj2 (Z.ltb_ge _ _)) by lia.
Qed.

Lemma LoadInt33_reads n bs : s33_bytes n bs → reads (load LoadInt33AsInt64) n bs.
Proof.
  intros (He & Hl & Hu & Hn) pre rest Hb _. unfold load. rewrite from_app. cbn [obind]. apply Forall_app in Hb as [_ Hb]. pose proof He as [_ Ht].
  rewrite LoadInt33_ref; [rewrite sleb_ref_encoding; [by rewrite Hu|done|done|rewrite Hu; cbn; lia]|done| |].
  - right. exists (length bs). apply terminator_le in Ht as Ht'. rewrite take_app_ge by lia. by apply terminator_app.
  - apply (encoding_sign_bits 5 33); [done|lia|lia|]. rewrite Hu. cbn. lia.
Qed.

Lemma reads_bind {A B} (d : list Z → Z → dres (A * Z)) (k : A → list Z → Z → dres (B * Z)) a b bs1 bs2 :
  reads d a bs1 → reads (k a) b bs2 → reads (λ buf o, let* '(a, o) := d buf o in k a buf o) b (bs1 ++ bs2).
Proof.
  intros H1 H2 pre rest. rewrite <- (assoc_L app bs1). intros Hb Hl. rewrite H1 by done. cbn [obind].
  specialize (H2 (pre ++ bs1) rest). rewrite <- (assoc_L app pre) in H2. rewrite !zlen_app in *. rewrite H2 by done. by rewrite Z.add_assoc.
Qed.

Lemma reads_ret {A} (a : A) : reads (λ _ o, Ok (a, o)) a [].
Proof. intros pre rest _ _. by rewrite Z.add_0_r. Qed.

Lemma reads_then {A B} (d : list Z → Z → dres (A * Z)) (k : A → list Z → Z → dres (B * Z)) a b bs :
  reads d a bs → reads (k a) b [] → reads (λ buf o, let* '(a, o) := d buf o in k a buf o) b bs.
Proof. intros H1 H2. rewrite <- (app_nil_r bs). by apply (reads_bind d k a). Qed.

(** A byte that is looked at: the decoder goes on after it or before it. *)
Lemma reads_peek {A} (k : Z → Z → list Z → Z → dres (A * Z)) a b bs :
  reads (λ buf o, k b (o + 1) buf o) a (b :: bs) → reads (λ buf o, let* '(b, o') := readByte buf o in k b o' buf o) a (b :: bs).
Proof.
  intros H pre rest Hb Hl. pose proof (readByte_reads b pre (bs ++ rest) Hb Hl) as Hr. cbn [app] in *. rewrite Hr. cbn [obind]. by apply H.
Qed.

Lemma reads_skip {A} (d : list Z → Z → dres (A * Z)) a b bs : reads d a bs → reads (λ buf o, d buf (o + 1)) a (b :: bs).
Proof.
  intros H pre rest Hb Hl. specialize (H (pre ++ [b]) rest). rewrite <- (assoc_L app) in H. cbn [app] in *.
  rewrite (zlen_app pre [b]) in H. change (zlen [b]) with 1 in H. rewrite zlen_cons. cbn beta. rewrite H by done. do 2 f_equal. lia.
Qed.

Lemma reads_byte {A} (k : Z → list Z → Z → dres (A * Z)) a b bs :
  reads (k b) a bs → reads (λ buf o, let* '(b, o) := readByte buf o in k b buf o) a (b :: bs).
Proof. intros H. apply (reads_bind readByte k b a [b] bs); [apply readByte_reads|done]. Qed.

(** A decoder that is the same, on every input. *)
Lemma reads_ext {A} (d d' : list Z → Z → dres (A * Z)) a bs : (∀ buf o, d buf o = d' buf o) → reads d a bs → reads d' a bs.
Proof. intros He H pre rest Hb Hl. rewrite <- He. by apply H. Qed.

(** Every item takes a byte at least. *)
Definition nonempty {A} (P : A → list Z → Prop) : Prop := ∀ a bs, P a bs → bs ≠ [].

Lemma seq_bytes_length {A} (P : A → list Z → Prop) l bs : nonempty P → seq_bytes P l bs → (length l ≤ length bs)%nat.
Proof.
  intros Hne. induction 1 as [|a l ab lb Ha _ IH]; [done|]. rewrite length_app. cbn. apply Hne in Ha. destruct ab; [done|]. cbn. lia.
Qed.

(** A vector: its count, then its items. *)
Lemma reads_vec {A B} (P : A → list Z → Prop) (k : Z → list Z → Z → dres (B * Z)) l b bs bs' : nonempty P →
  vec_bytes P l bs → (∀ lb, seq_bytes P l lb → reads (k (zlen l)) b (lb ++ bs')) →
  reads (λ buf o, let* '(n, o) := load LoadVecSize buf o in k n buf o) b (bs ++ bs').
Proof.
  intros Hne (nb & lb & Hn & Hs & ->) Hk pre rest. rewrite <- !(assoc_L app). intros Hb Hl.
  rewrite (LoadVecSize_reads (zlen l)); [|done..|].
  - cbn [obind]. specialize (Hk lb Hs (pre ++ nb) rest). rewrite <- !(assoc_L app) in Hk. rewrite !zlen_app in *. rewrite Hk by done. do 2 f_equal. lia.
  - pose proof (seq_bytes_length P l lb Hne Hs). unfold zlen. rewrite !length_app. lia.
Qed.

(** ** The decoders read the format *)

Section completeness.
Context (f : Z) (HGC : RequireEnabled f CoreFeatureGC = Ok tt) (HMV : RequireEnabled f CoreFeatureMultiValue = Ok tt).

(** The heap types -23 to -12 are the abstract ones. *)
Lemma abstract_heap v : v ∈ abstract_refs →
  ((if v - 0x80 =? HeapTypeFunc then Ok ValueTypeFuncref
   else if v - 0x80 =? HeapTypeExtern then Ok ValueTypeExternref
   else if v - 0x80 =? HeapTypeExn then Ok ValueTypeExnref
   else if v - 0x80 <? 0 then
     match AbstractHeapTypeValueType (v - 0x80) with
     | None => Err (DHeapType (v - 0x80))
     | Some abstract => let* _ := RequireEnabled f CoreFeatureGC in Ok abstract
     end
   else Ok (ValueTypeConcreteRef (u32 (v - 0x80)) true)) : dres Z) = Ok v.
Proof using HGC.
  rewrite HGC. intros H%list_elem_of_In. cbn in H. repeat (destruct H as [<-|H]; [by vm_compute|]). done.
Qed.

Lemma decodeRefType_heap v n bs : v ∈ abstract_refs → s33_bytes (v - 0x80) bs →
  reads (λ buf o, decodeRefType f buf o n) (if n then v else AsNonNullable v) bs.
Proof using HGC.
  intros Hv Hbs. unfold decodeRefType. eapply reads_then; [by apply LoadInt33_reads|].
  assert ((v - 0x80 <? 0) = true) as Hneg.
  { apply list_elem_of_In in Hv. cbn in Hv. repeat (destruct Hv as [<-|Hv]; [done|]). done. }
  pose proof (abstract_heap v Hv) as E. rewrite Hneg in E |- *. rewrite E. cbn [obind]. destruct n; apply reads_ret.
Qed.

Lemma decodeRefType_index i n bs : 0 ≤ i → s33_bytes i bs → reads (λ buf o, decodeRefType f buf o n) (ValueTypeConcreteRef i n) bs.
Proof using HGC.
  intros Hi Hbs. pose proof Hbs as (_ & _ & _ & _ & Hi'). unfold decodeRefType. eapply reads_then; [by apply LoadInt33_reads|].
  unfold HeapTypeFunc, HeapTypeExtern, HeapTypeExn. rewrite !(proj2 (Z.eqb_neq i _)), (proj2 (Z.ltb_ge i 0)) by lia. cbn [obind].
  rewrite wrap_small by lia. destruct (concrete_fields i n ltac:(lia)) as (_ & _ & _ & Ha). destruct n; cbn [negb]; rewrite ?Ha; apply reads_ret.
Qed.

(** The bytes that are a type, and the two that announce one. *)
Definition short_byte (b : Z) : bool := bool_decide (b ∈ [Kind ValueTypeI32; Kind ValueTypeF32; Kind ValueTypeI64; Kind ValueTypeF64;
  Kind ValueTypeExternref; Kind ValueTypeFuncref; Kind ValueTypeV128; Kind ValueTypeExnref]).

Lemma short_cases v : v ∈ [ValueTypeI32; ValueTypeI64; ValueTypeF32; ValueTypeF64; ValueTypeV128] ++ abstract_refs →
  short_byte v = true ∨ short_byte v = false ∧ (v =? RefPrefixNullable) || (v =? RefPrefixNonNullable) = false ∧ IsGCHeapType v = true.
Proof using.
  intros H%list_elem_of_In. cbn in H. repeat (destruct H as [<-|H]; [first [by left|by right]|]). done.
Qed.

Lemma prefix_cases n : short_byte (ref_prefix n) = false ∧ (ref_prefix n =? RefPrefixNullable) || (ref_prefix n =? RefPrefixNonNullable) = true ∧
  (ref_prefix n =? RefPrefixNullable) = n.
Proof using. by destruct n. Qed.

Lemma decodeValueType_reads v bs : vt_bytes v bs → reads (decodeValueType f) v bs.
Proof using HGC.
  intros H. unfold decodeValueType. destruct H as [v Hv|v n bs Hv Hbs|i n bs Hi Hbs]; apply reads_byte; fold (short_byte (ref_prefix n)) || fold (short_byte v).
  - destruct (short_cases v Hv) as [->|(-> & -> & ->)]; rewrite ?HGC; apply reads_ret.
  - destruct (prefix_cases n) as (-> & -> & ->). by apply decodeRefType_heap.
  - destruct (prefix_cases n) as (-> & -> & ->). by apply decodeRefType_index.
Qed.

Lemma vt_bytes_first v bs : vt_bytes v bs → ∃ b bs', bs = b :: bs' ∧ b ≠ ValueTypeI8 ∧ b ≠ ValueTypeI16.
Proof using.
  intros [v' Hv|v' n bs' _ _|i n bs' _ _]; [|by destruct n; eexists _, _..].
  eexists _, _. split; [done|]. apply list_elem_of_In in Hv. cbn in Hv. repeat (destruct Hv as [<-|Hv]; [by vm_compute|]). done.
Qed.

Lemma decodeStorageType_reads v bs : storage_bytes v bs → reads (decodeStorageType f) v bs.
Proof using HGC.
  intros [Hv ->|H]; unfold decodeStorageType.
  - eapply (reads_peek (λ b o' buf o, if (b =? ValueTypeI8) || (b =? ValueTypeI16) then Ok (b, o') else decodeValueType f buf o)).
    intros pre rest _ _. destruct Hv as [-> | ->]; done.
  - destruct (vt_bytes_first v bs H) as (b & bs' & -> & Hb & Hb').
    eapply (reads_peek (λ b o' buf o, if (b =? ValueTypeI8) || (b =? ValueTypeI16) then Ok (b, o') else decodeValueType f buf o)).
    rewrite (proj2 (Z.eqb_neq b _)), (proj2 (Z.eqb_neq b _)) by done. by apply decodeValueType_reads.
Qed.

Lemma vt_bytes_nonempty : nonempty vt_bytes.
Proof using. intros v bs (b & bs' & -> & _)%vt_bytes_first. done. Qed.

Lemma field_bytes_nonempty : nonempty field_bytes.
Proof using. intros fd bs (sb & _ & ->). by destruct sb. Qed.

(** A loop that has fuel for each item. *)
Lemma decodeValueTypes_loop_reads vts bs : seq_bytes vt_bytes vts bs → ∀ fuel, (length vts ≤ fuel)%nat →
  reads (λ buf o, decodeValueTypes_loop fuel f buf o (zlen vts)) vts bs.
Proof using HGC.
  induction 1 as [|v vts vb lb Hv Hs IH]; intros fuel Hf.
  - apply (reads_ext (λ _ o, Ok ([], o))); [intros; by destruct fuel|apply reads_ret].
  - destruct fuel as [|fuel]; [cbn in Hf; lia|]. cbn [decodeValueTypes_loop]. rewrite zlen_cons. pose proof (zlen_nonneg vts).
    rewrite (proj2 (Z.leb_gt _ _)) by lia. replace (1 + zlen vts - 1) with (zlen vts) by lia.
    eapply reads_bind; [by apply decodeValueType_reads|]. cbn in Hf. eapply reads_then; [apply IH; lia|]. apply reads_ret.
Qed.

Lemma decode_fields_reads fs bs : seq_bytes field_bytes fs bs → ∀ fuel, (length fs ≤ fuel)%nat →
  reads (λ buf o, decode_fields fuel f buf o (zlen fs)) fs bs.
Proof using HGC.
  induction 1 as [|fd fs fb lb (sb & Hsb & ->) Hs IH]; intros fuel Hf.
  - apply (reads_ext (λ _ o, Ok ([], o))); [intros; by destruct fuel|apply reads_ret].
  - destruct fuel as [|fuel]; [cbn in Hf; lia|]. cbn [decode_fields]. rewrite zlen_cons. pose proof (zlen_nonneg fs).
    rewrite (proj2 (Z.leb_gt _ _)) by lia. replace (1 + zlen fs - 1) with (zlen fs) by lia. rewrite <- (assoc_L app).
    eapply reads_bind; [by apply decodeStorageType_reads|]. cbn [app].
    apply (reads_byte (λ m buf o, if 1 <? m then Err (DMutability m) else
      let* '(fields, offset) := decode_fields fuel f buf o (zlen fs) in Ok (mkField (f_type fd) (m =? 1) :: fields, offset))).
    rewrite (proj2 (Z.ltb_ge _ _)) by (destruct (f_mutable fd); lia). cbn in Hf. eapply reads_then; [apply IH; lia|].
    assert (mkField (f_type fd) ((if f_mutable fd then 1 else 0) =? 1) = fd) as -> by (destruct fd as [t m]; by destruct m). apply reads_ret.
Qed.

(** A loop's fuel depends on the input. *)
Lemma reads_fuel {A B} (P : A → list Z → Prop) (d : nat → list Z → Z → dres (B * Z)) l b bs : nonempty P → seq_bytes P l bs →
  (∀ fuel, (length l ≤ fuel)%nat → reads (d fuel) b bs) → reads (λ buf o, d (S (length buf)) buf o) b bs.
Proof using.
  intros Hne Hs H pre rest Hb Hl. apply H; [|done..]. apply (seq_bytes_length P) in Hs; [|done]. rewrite !length_app. lia.
Qed.

Lemma decodeValueTypes_reads vts bs : seq_bytes vt_bytes vts bs → reads (λ buf o, decodeValueTypes f buf o (zlen vts)) vts bs.
Proof using HGC.
  intros Hs. apply (reads_fuel vt_bytes (λ fuel buf o, decodeValueTypes_loop fuel f buf o (zlen vts)) vts); [apply vt_bytes_nonempty|done|].
  by apply decodeValueTypes_loop_reads.
Qed.

Lemma reads_vt_vec {B} (k : list Z → list Z → Z → dres (B * Z)) (c : Z → dres unit) vts b bs bs' : vec_bytes vt_bytes vts bs →
  c (zlen vts) = Ok tt → reads (k vts) b bs' →
  reads (λ buf o, let* '(n, o) := load LoadVecSize buf o in let* _ := c n in let* '(vts, o) := decodeValueTypes f buf o n in k vts buf o) b (bs ++ bs').
Proof using HGC.
  intros Hv Hc Hk. apply (reads_vec vt_bytes (λ n buf o, let* _ := c n in let* '(vts, o) := decodeValueTypes f buf o n in k vts buf o) vts);
    [apply vt_bytes_nonempty|done|].
  intros lb Hlb. rewrite Hc. cbn [obind]. eapply reads_bind; [by apply decodeValueTypes_reads|done].
Qed.

(** The body of [d] in a definition that is [fresh]. *)
Definition with_body (d ret : TypeDef) : TypeDef :=
  mkDef (Params d) (Results d) (td_kind d) (td_fields d) (HasSupertype ret) (Supertype ret) (Extensible ret)
    (RecGroupSize ret) (RecGroupPosition ret) (CanonicalIndex ret).

Lemma decodeFuncBody_reads d ret pb rb : fresh ret → td_kind d = CompositeKindFunc → td_fields d = [] →
  vec_bytes vt_bytes (Params d) pb → vec_bytes vt_bytes (Results d) rb →
  reads (λ buf o, decodeFuncBody f buf o ret) (with_body d ret) (pb ++ rb).
Proof using HGC HMV.
  intros (_ & _ & Hk' & Hf' & _) Hk Hf Hp Hr. unfold decodeFuncBody.
  apply (reads_vt_vec (λ ps buf o, let* '(n, o) := load LoadVecSize buf o in
    let* _ := if 1 <? n then RequireEnabled f CoreFeatureMultiValue else Ok tt in
    let* '(rs, o) := decodeValueTypes f buf o n in
    Ok (mkDef ps rs (td_kind ret) (td_fields ret) (HasSupertype ret) (Supertype ret) (Extensible ret)
      (RecGroupSize ret) (RecGroupPosition ret) (CanonicalIndex ret), o)) (λ _, Ok tt) (Params d)); [done..|].
  rewrite <- (app_nil_r rb). apply (reads_vt_vec (λ rs buf o, Ok (mkDef (Params d) rs (td_kind ret) (td_fields ret) (HasSupertype ret) (Supertype ret)
    (Extensible ret) (RecGroupSize ret) (RecGroupPosition ret) (CanonicalIndex ret), o))
    (λ n, if 1 <? n then RequireEnabled f CoreFeatureMultiValue else Ok tt) (Results d)); [done|by destruct (1 <? _)|].
  unfold with_body. rewrite Hk, Hf, Hk', Hf'. apply reads_ret.
Qed.

Lemma fields_reads fs bs : seq_bytes field_bytes fs bs → reads (λ buf o, decode_fields (S (length buf)) f buf o (zlen fs)) fs bs.
Proof using HGC.
  intros Hs. apply (reads_fuel field_bytes (λ fuel buf o, decode_fields fuel f buf o (zlen fs)) fs); [apply field_bytes_nonempty|done|].
  by apply decode_fields_reads.
Qed.

Lemma decodeStruct_reads d ret fb : fresh ret → td_kind d = CompositeKindStruct → Params d = [] → Results d = [] →
  vec_bytes field_bytes (td_fields d) fb → reads (λ buf o, decodeAggregateBody f buf o false ret) (with_body d ret) fb.
Proof using HGC.
  intros (HP' & HR' & _) Hk HP HR Hf. unfold decodeAggregateBody. rewrite <- (app_nil_r fb).
  eapply (reads_vec field_bytes); [apply field_bytes_nonempty|done|]. intros lb Hlb.
  eapply reads_bind; [by apply fields_reads|]. unfold with_body. rewrite HP, HR, HP', HR', Hk. apply reads_ret.
Qed.

Lemma decodeArray_reads d ret fd fb : fresh ret → td_kind d = CompositeKindArray → Params d = [] → Results d = [] →
  td_fields d = [fd] → field_bytes fd fb → reads (λ buf o, decodeAggregateBody f buf o true ret) (with_body d ret) fb.
Proof using HGC.
  intros (HP' & HR' & _) Hk HP HR Hf Hfd. unfold decodeAggregateBody. cbn [obind].
  eapply reads_then; [apply (fields_reads [fd])|].
  - rewrite <- (app_nil_r fb). by repeat constructor.
  - unfold with_body. rewrite HP, HR, HP', HR', Hk, Hf. apply reads_ret.
Qed.

Lemma decodeCompositeType_reads d ret bs : fresh ret → composite_bytes d bs → reads (λ buf o, decodeCompositeType f buf o ret) (with_body d ret) bs.
Proof using HGC HMV.
  intros Hf [pb rb Hk HF HP HR|fb Hk HP HR HF|fd fb Hk HP HR HF Hfd]; unfold decodeCompositeType; apply reads_byte.
  - by apply decodeFuncBody_reads.
  - change (compositeStruct =? compositeFunc) with false. change ((_ =? _) || _) with true. rewrite HGC. by apply decodeStruct_reads.
  - change (compositeArray =? compositeFunc) with false. change ((_ =? _) || _) with true. rewrite HGC. by apply (decodeArray_reads d ret fd).
Qed.

(** A definition as it is before it has its place in a group. *)
Definition unplaced (d : TypeDef) : TypeDef := set_group d 0 0.

Lemma composite_first d bs : composite_bytes d bs → ∃ b bs', bs = b :: bs' ∧ (b =? subFinal) || (b =? subOpen) = false ∧ (b =? 0x4e) = false.
Proof using. by intros [? ?|?|? ?]; eexists _, _. Qed.

(** After the byte of a subtype: the supertypes, then the body. *)
Lemma decodeDefinedType_sub (ext : bool) a bs :
  reads (λ buf o, let* '(count, offset) := load LoadUint32 buf o in
    if 1 <? count then Err (DSupertypes count)
    else if count =? 1 then
      let* '(idx, offset) := load LoadUint32 buf offset in decodeCompositeType f buf offset (set_sub new_def true idx ext)
    else decodeCompositeType f buf offset (set_sub new_def false 0 ext)) a bs →
  reads (λ buf o, decodeDefinedType f buf o new_def) a ((if ext then subOpen else subFinal) :: bs).
Proof using HGC.
  intros H. unfold decodeDefinedType. set (b := if ext then subOpen else subFinal).
  apply (reads_peek (λ b o' buf o,
    if (b =? subFinal) || (b =? subOpen) then
      let* _ := RequireEnabled f CoreFeatureGC in
      let* '(count, offset) := load LoadUint32 buf o' in
      if 1 <? count then Err (DSupertypes count)
      else if count =? 1 then
        let* '(idx, offset) := load LoadUint32 buf offset in decodeCompositeType f buf offset (set_sub new_def true idx (b =? subOpen))
      else decodeCompositeType f buf offset (set_sub new_def false 0 (b =? subOpen))
    else decodeCompositeType f buf o new_def)).
  assert ((b =? subFinal) || (b =? subOpen) = true ∧ (b =? subOpen) = ext) as [-> ->] by (by destruct ext).
  rewrite HGC. cbn [obind]. by apply (reads_skip _ a b bs) in H.
Qed.

Lemma decodeDefinedType_reads d bs : CanonicalIndex d = 0 → def_bytes d bs → reads (λ buf o, decodeDefinedType f buf o new_def) (unplaced d) bs.
Proof using HGC HMV.
  intros Hc H. unfold decodeDefinedType.
  assert (∀ ret, fresh ret → HasSupertype ret = HasSupertype d → Supertype ret = Supertype d → Extensible ret = Extensible d → RecGroupPosition ret = 0 →
    CanonicalIndex ret = 0 → with_body d ret = unplaced d) as Hbody.
  { intros ret (_ & _ & _ & _ & _ & E) E1 E2 E3 E4 E5. unfold with_body, unplaced, set_group. by rewrite E, E1, E2, E3, E4, E5, Hc. }
  assert (fresh new_def) as Hnew by done.
  destruct H as [cb H1 H2 H3 Hcb|nb cb H1 H2 Hn Hcb|nb sb cb H1 Hn Hsb Hcb].
  - destruct (composite_first d cb Hcb) as (b & bs' & -> & Hb & _).
    apply (reads_peek (λ b o' buf o, if (b =? subFinal) || (b =? subOpen) then _ else decodeCompositeType f buf o new_def)). rewrite Hb.
    rewrite <- (Hbody new_def) by done. by apply decodeCompositeType_reads.
  - apply decodeDefinedType_sub. eapply reads_bind; [by apply LoadUint32_reads|]. cbn [Z.ltb Z.compare Z.eqb].
    rewrite <- (Hbody (set_sub new_def false 0 (Extensible d))) by done. by apply decodeCompositeType_reads.
  - pose proof Hsb as (_ & _ & _ & Hs). assert (fresh (set_sub new_def true (Supertype d) (Extensible d))) as Hf by (unfold fresh; cbn; split_and!; done || lia).
    apply decodeDefinedType_sub. eapply reads_bind; [by apply LoadUint32_reads|]. change (1 <? 1) with false. change (1 =? 1) with true. cbn match.
    eapply reads_bind; [by apply LoadUint32_reads|]. rewrite <- (Hbody (set_sub new_def true (Supertype d) (Extensible d))) by done.
    by apply decodeCompositeType_reads.
Qed.

Lemma def_bytes_first d bs : def_bytes d bs → ∃ b bs', bs = b :: bs' ∧ (b =? 0x4e) = false.
Proof using.
  intros [cb _ _ _ (b & bs' & -> & _ & Hb)%composite_first|nb cb _ _ _ _|nb sb cb _ _ _ _]; [by eexists _, _|..]; by destruct (Extensible d); eexists _, _.
Qed.

Lemma def_bytes_nonempty : nonempty def_bytes.
Proof using. intros d bs (b & bs' & -> & _)%def_bytes_first. done. Qed.

(** The members of a group of [n] from the one at [j]. *)
Definition placed (n j : Z) (G : list TypeDef) : Prop :=
  ∀ k d, G !! k = Some d → RecGroupSize d = n ∧ RecGroupPosition d = j + Z.of_nat k ∧ CanonicalIndex d = 0.

Lemma decode_group_reads G bs : seq_bytes def_bytes G bs → ∀ fuel n j, (length G ≤ fuel)%nat → n = j + zlen G → placed n j G →
  reads (λ buf o, decode_group fuel f buf o n j) G bs.
Proof using HGC HMV.
  induction 1 as [|d G db lb Hd Hs IH]; intros fuel n j Hf -> Hp.
  - apply (reads_ext (λ _ o, Ok ([], o))); [|apply reads_ret]. intros buf o. unfold zlen. cbn [length]. rewrite Z.add_0_r.
    by destruct fuel; cbn [decode_group]; rewrite Z.leb_refl.
  - destruct fuel as [|fuel]; [cbn in Hf; lia|]. cbn [decode_group]. rewrite !zlen_cons in Hp |- *. pose proof (zlen_nonneg G).
    destruct (Hp 0%nat d eq_refl) as (Hsz & Hpos & Hci). rewrite (proj2 (Z.leb_gt _ _)) by lia.
    eapply reads_bind; [by apply decodeDefinedType_reads|]. cbn in Hf. eapply reads_then.
    + apply (IH fuel (j + (1 + zlen G)) (j + 1)); [lia|lia|]. intros k d' Hk. destruct (Hp (S k) d' Hk) as (? & ? & ?). split_and!; [done|lia|done].
    + assert (set_group (unplaced d) (j + (1 + zlen G)) j = d) as ->; [|apply reads_ret].
      destruct d as [P R kd fs hs su ex sz pos ci]. cbn in Hsz, Hpos, Hci |- *. subst sz pos ci. unfold set_group, unplaced. cbn. by rewrite Z.add_0_r.
Qed.

(** What the check after a group wants to hold. *)
Definition refs_below (max : Z) (G : list TypeDef) : Prop := ∀ d i, d ∈ G → i ∈ refs d → i < max.

Lemma validate_group_ok max G : refs_below max G → validate_group G max = Ok tt.
Proof using.
  induction G as [|d G IH]; intros H; [done|]. cbn. rewrite (proj2 (validateTypeForwardRefs_spec d max)); [|intros i; apply H; by left].
  apply IH. intros d' i Hd. apply H. by right.
Qed.

Lemma decode_entry_reads R G bs : group_bytes G bs → zlen R + zlen G < 2 ^ 32 → refs_below (zlen R + zlen G) G →
  reads (λ buf o, decode_entry f buf o R) (R ++ G) bs.
Proof using HGC HMV.
  intros H Hl Hr. pose proof (zlen_nonneg R). pose proof (zlen_nonneg G). unfold decode_entry.
  set (recd buf o := let* '(recCount, offset) := load LoadUint32 buf o in
    let* '(fts, offset) := decode_group (S (length buf)) f buf offset recCount 0 in
    let* _ := validate_group fts (u32 (u32 (zlen R) + recCount)) in Ok (R ++ fts, offset)).
  set (single buf o := let* '(ft, offset) := decodeDefinedType f buf o new_def in
    let* _ := validateTypeForwardRefs ft (u32 (u32 (zlen R) + 1)) in Ok (R ++ [ft], offset)).
  apply (reads_ext (λ buf o, let* '(b, o') := readByte buf o in if b =? 0x4e then recd buf o' else single buf o)).
  { intros buf o. assert (IsEnabled f CoreFeatureGC = true) as ->; [|done]. unfold IsEnabled. unfold RequireEnabled in HGC. by destruct (_ =? 0). }
  destruct H as [d bs Hsz Hpos Hci Hd|G nb gb Hn Hs Hp].
  - destruct (def_bytes_first d bs Hd) as (b & bs' & -> & Hb).
    apply (reads_peek (λ b o' buf o, if b =? 0x4e then recd buf o' else single buf o)). rewrite Hb. unfold single.
    eapply reads_then; [by apply decodeDefinedType_reads|]. change (zlen [d]) with 1 in *. rewrite !wrap_small by (rewrite ?wrap_small by lia; lia).
    assert (unplaced d = d) as -> by (destruct d; cbn in Hsz, Hpos; subst; done).
    rewrite (proj2 (validateTypeForwardRefs_spec d _)); [apply reads_ret|]. intros i. apply Hr. by left.
  - apply (reads_peek (λ b o' buf o, if b =? 0x4e then recd buf o' else single buf o)). rewrite Z.eqb_refl.
    apply (reads_skip recd). unfold recd.
    eapply reads_bind; [by apply LoadUint32_reads|]. eapply reads_then.
    + apply (reads_fuel def_bytes (λ fuel buf o, decode_group fuel f buf o (zlen G) 0) G); [apply def_bytes_nonempty|done|].
      intros fuel Hf. by apply decode_group_reads.
    + rewrite !wrap_small by (rewrite ?wrap_small by lia; lia). rewrite validate_group_ok by done. apply reads_ret.
Qed.

Lemma group_bytes_nonempty : nonempty group_bytes.
Proof using. by intros G bs [d bs' _ _ _ (b & bs2 & -> & _)%def_bytes_first|? ? ? _ _ _]. Qed.

(** Each group refers to the types before it and to its own. *)
Fixpoint closed (n : Z) (gs : list (list TypeDef)) : Prop :=
  match gs with [] => True | G :: gs => refs_below (n + zlen G) G ∧ closed (n + zlen G) gs end.

Lemma decode_entries_reads gs bs : seq_bytes group_bytes gs bs → ∀ fuel R, (length gs ≤ fuel)%nat → zlen R + zlen (concat gs) < 2 ^ 32 →
  closed (zlen R) gs → reads (λ buf o, decode_entries fuel f buf o (zlen gs) R) (R ++ concat gs) bs.
Proof using HGC HMV.
  induction 1 as [|G gs gb lb HG Hs IH]; intros fuel R Hf Hl Hc.
  - rewrite app_nil_r. apply (reads_ext (λ _ o, Ok (R, o))); [intros; by destruct fuel|apply reads_ret].
  - destruct fuel as [|fuel]; [cbn in Hf; lia|]. cbn [decode_entries concat] in *. rewrite zlen_app in Hl. destruct Hc as [Hr Hc].
    pose proof (zlen_nonneg (concat gs)). pose proof (zlen_nonneg gs). rewrite zlen_cons, (proj2 (Z.leb_gt _ _)) by lia.
    replace (1 + zlen gs - 1) with (zlen gs) by lia. eapply reads_bind; [apply decode_entry_reads; [done|lia|done]|].
    rewrite (assoc_L app). cbn in Hf. apply IH; rewrite ?zlen_app; [lia|lia|done].
Qed.
End completeness.

(** * Type sections *)

Lemma read_type_section f buf offset : Forall is_byte buf → zlen buf < 2 ^ 32 → 0 ≤ offset ≤ zlen buf →
  decodes buf (offset + 1) (decodeTypeSection f buf offset) (λ types o, section_ok types ∧ zlen types ≤ o).
Proof.
  intros Hb Hl Ho. unfold decodeTypeSection. eapply decodes_bind; [eapply load_spec; [done|exact LoadVecSize_stays|done]|].
  intros vs o Ho' _. eapply decodes_mono; [apply (decode_entries_spec f buf Hb Hl (S (length buf)) o vs [])|lia|].
  - lia.
  - unfold zlen in *. lia.
  - unfold zlen. cbn. lia.
  - split; [constructor|]. exists []. split; [constructor|]. by intros s e d ?%elem_of_nil.
  - intros types o' Ho2 [Hbuilt Hn]. split; [|done]. apply built_ok; [done|lia].
Qed.

(** C34. The decoder of type sections is safe on any input: whatever the bytes (fewer than
    2^32) and the offset in them, it does not panic, and it ends: an error, or types and
    an offset after the section that is still in the input.  The types are no more than
    the bytes read.  They are a section that canonicalization can work on (the value types are well
    formed, the references stay in their rec group or before it, an array has one
    field); so if [validateTypeSection] accepts them once they are prepared, all that is proved of a checked
    section holds of them. *)
Theorem decodeTypeSection_safe f buf offset : Forall is_byte buf → zlen buf < 2 ^ 32 → 0 ≤ offset ≤ zlen buf →
  match decodeTypeSection f buf offset with
  | Ok (types, o) =>
      offset < o ≤ zlen buf ∧ zlen types ≤ o ∧ section_ok types ∧
      ∀ gc, validateTypeSection gc (prepare_types true types) = Ok tt → checked (prepare_types true types)
  | Err _ => True
  | Panic | NoFuel => False
  end.
Proof.
  intros Hb Hl Ho. pose proof (read_type_section f buf offset Hb Hl Ho) as H.
  destruct (decodeTypeSection f buf offset) as [[types o]| | |]; try done. destruct H as (Ho' & Hok & Hn).
  split_and!; [lia|lia|done|done|]. intros gc. by apply prepare_checked.
Qed.

(** C35. With the GC and multi-value features, the decoder reads the binary format: from
    the bytes of a section, with its integers in any encoding that LEB128 allows, wherever
    they are in the input and whatever follows, it gives the types of the section, with
    their places in their rec groups, and the offset after the bytes. *)
Theorem decodeTypeSection_reads f gs bs pre rest :
  RequireEnabled f CoreFeatureGC = Ok tt → RequireEnabled f CoreFeatureMultiValue = Ok tt →
  section_bytes gs bs → closed 0 gs → zlen (concat gs) < 2 ^ 32 →
  Forall is_byte (pre ++ bs ++ rest) → zlen (pre ++ bs ++ rest) < 2 ^ 32 →
  decodeTypeSection f (pre ++ bs ++ rest) (zlen pre) = Ok (concat gs, zlen pre + zlen bs).
Proof.
  intros HGC HMV Hs Hc Hl. revert pre rest. change (reads (decodeTypeSection f) (concat gs) bs). unfold decodeTypeSection.
  rewrite <- (app_nil_r bs). eapply (reads_vec group_bytes); [apply group_bytes_nonempty|done|]. intros lb Hlb. rewrite app_nil_r.
  apply (reads_fuel group_bytes (λ fuel buf o, decode_entries fuel f buf o (zlen gs) []) gs); [apply group_bytes_nonempty|done|].
  intros fuel Hf. by apply (decode_entries_reads f HGC HMV gs lb Hlb fuel []).
Qed.

(** ** Concrete sections *)

(** A function type; and a rec group of a structure that refers to itself and an array
    of bytes. *)
Definition demo_func : TypeDef := mkDef [ValueTypeI32] [] CompositeKindFunc [] false 0 false 0 0 0.
Definition demo_struct : TypeDef := mkDef [] [] CompositeKindStruct [mkField (ValueTypeConcreteRef 1 true) true] false 0 true 2 0 0.
Definition demo_array : TypeDef := mkDef [] [] CompositeKindArray [mkField ValueTypeI8 false] false 0 false 2 1 0.
Definition demo_groups : list (list TypeDef) := [[demo_func]; [demo_struct; demo_array]].
Definition demo_section : list Z := [0x02; 0x60; 0x01; 0x7f; 0x00; 0x4e; 0x02; 0x50; 0x00; 0x5f; 0x01; 0x63; 0x01; 0x01; 0x5e; 0x78; 0x00].
Definition all_features : Z := Z.lor CoreFeatureGC CoreFeatureMultiValue.

Lemma bytes_ok (l : list Z) : forallb (λ b, (0 <=? b) && (b <? 256)) l = true → Forall is_byte l.
Proof. induction l as [|b l IH]; [by constructor|]. cbn. intros [H1 H2]%andb_true_iff. constructor; [unfold is_byte; lia|by apply IH]. Qed.

Lemma u32_one b : 0 ≤ b < 128 → u32_bytes b [b].
Proof.
  intros Hb. split_and!; [apply leb_encoding_one; unfold is_byte; lia|cbn; lia| |lia|lia]. unfold uleb. rewrite Z.mod_small; lia.
Qed.

Lemma demo_section_bytes : section_bytes demo_groups demo_section.
Proof.
  exists [2], (drop 1 demo_section). split; [by apply (u32_one 2)|]. split; [|done].
  apply (seq_bytes_cons _ _ _ [0x60; 1; 0x7f; 0] (drop 5 demo_section)).
  - apply group_single; [done..|]. apply def_plain; [done..|]. apply (composite_func _ [1; 0x7f] [0]); [done..| |].
    + exists [1], [0x7f]. split; [by apply (u32_one 1)|]. split; [|done]. apply (seq_bytes_cons _ _ _ [0x7f] []); [|constructor].
      apply vt_bytes_short. by apply list_elem_of_In; left.
    + exists [0], []. split; [by apply (u32_one 0)|]. split; [constructor|done].
  - apply (seq_bytes_cons _ _ _ (drop 5 demo_section) []); [|constructor]. apply (group_rec _ [2] (drop 7 demo_section)); [by apply (u32_one 2)| |].
    + apply (seq_bytes_cons _ _ _ [0x50; 0x00; 0x5f; 0x01; 0x63; 0x01; 0x01] [0x5e; 0x78; 0x00]); [|apply (seq_bytes_cons _ _ _ [0x5e; 0x78; 0x00] []); [|constructor]].
      * apply (def_sub_none demo_struct [0]); [done..|by apply (u32_one 0)|]. apply (composite_struct demo_struct [1; 0x63; 1; 1]); [done..|].
        exists [1], [0x63; 1; 1]. split; [by apply (u32_one 1)|]. split; [|done]. apply (seq_bytes_cons _ _ _ [0x63; 1; 1] []); [|constructor].
        exists [0x63; 1]. split; [|done]. apply storage_value, (vt_bytes_index 1 true [1]); [done|].
        split_and!; [apply leb_encoding_one; unfold is_byte; lia|cbn; lia|done|done|done].
      * apply def_plain; [done..|]. apply (composite_array demo_array (mkField ValueTypeI8 false) [0x78; 0]); [done..|].
        exists [0x78]. split; [|done]. apply storage_packed; [by left|done].
    + intros [|[|k]] d; [intros [= <-]|intros [= <-]|done]; done.
Qed.

Lemma decodeTypeSection_safe_witness : ∃ types o, decodeTypeSection all_features demo_section 0 = Ok (types, o) ∧ section_ok types.
Proof.
  pose proof (decodeTypeSection_safe all_features demo_section 0 ltac:(by apply bytes_ok) ltac:(done) ltac:(done)) as H.
  exists (concat demo_groups), 17. assert (decodeTypeSection all_features demo_section 0 = Ok (concat demo_groups, 17)) as E by (by vm_compute).
  rewrite E in H. split; [done|]. by destruct H as (_ & _ & H & _).
Defined.

Lemma decodeTypeSection_reads_witness : decodeTypeSection all_features ([0; 1] ++ demo_section ++ [3]) 2 = Ok (concat demo_groups, 19).
Proof.
  apply (decodeTypeSection_reads all_features demo_groups demo_section [0; 1] [3]); [done|done|apply demo_section_bytes| |done|by apply bytes_ok|done].
  cbn [closed demo_groups]. split; [|split; [|done]]; intros d i Hd%list_elem_of_In Hi%list_elem_of_In.
  - destruct Hd as [<-|[]]. by vm_compute in Hi.
  - destruct Hd as [<-|[<-|[]]]; vm_compute in Hi; [|done]. by destruct Hi as [<-|[]].
Defined.

(** ** Without the features *)

(** A rec group and a concrete reference are read when no feature is enabled: the bytes 0x4e
    and 0x63 are not checked against the features. *)
Theorem rec_group_not_gated : decodeTypeSection 0 [1; 0x4e; 1; 0x60; 0; 0] 0 = Ok ([mkDef [] [] CompositeKindFunc [] false 0 false 1 0 0], 6).
Proof. by vm_compute. Qed.

Theorem concrete_ref_not_gated : decodeValueType 0 [0x63; 0] 0 = Ok (ValueTypeConcreteRef 0 true, 2).
Proof. by vm_compute. Qed.
