(* ===== verification/CmHandles.v ===== *)
(** The handle table of a component instance ([internal/component/instance/resource.go]):
    its index space, the resources it holds, their loans and their borrow scopes, and the
    resource builtins ([graph.go]). *)
From Stdlib Require Import ZArith Lia.
From stdpp Require Import base list numbers option tactics gmap relations.
From S2P Require Import Prelude.
Local Open Scope Z_scope.
Local Open Scope go_scope.

(** * Data *)

(** A resource handle.  [borrowScope] is the task a borrow is scoped to, by its place in
    the list of tasks; a [*resourceEntry] is a place in the list of resources. *)
Record resourceEntry := mkResource { typeIdx : Z; rep : Z; own : bool; lendCount : Z; borrowScope : option nat }.

(** What a slot can hold, as a pointer of its kind. *)
Inductive tableEntry : Type :=
| EResource (e : nat) | EWaitableSet (s : nat) | ESubtask (st : nat) | EStreamEnd (e : nat) | EFutureEnd (e : nat) | EErrorContext (ec : nat).

#[global] Instance tableEntry_eq_dec : EqDecision tableEntry.
Proof. solve_decision. Defined.

(** [free] is the stack of freed indices, the last one first. *)
Record handleTable := mkTable { entries : gmap Z tableEntry; next : Z; free : list Z }.

(** The table with the objects its resource entries point to: the resources, in the
    order in which they were made, and the [numBorrows] of each task. *)
Record handles := mkHandles { table : handleTable; resources : list resourceEntry; numBorrows : list Z }.

Inductive handle_error : Type :=
| UnknownHandle (h : Z) (live : nat) | NotResource (h : Z) | WrongType (h typ : Z) | IsBorrow (h : Z) | HasLends (h n : Z) | NoScope (h : Z) | NoLends (h : Z).

Abbreviation hres := (outcome handle_error).

(** * The index space *)

Definition newHandleTable : handleTable := mkTable ∅ 1 [].

Definition addEntryLocked (t : handleTable) (e : tableEntry) : handleTable * Z :=
  match free t with
  | h :: free' => (mkTable (<[h := e]> (entries t)) (next t) free', h)
  | [] => (mkTable (<[next t := e]> (entries t)) (u32 (next t + 1)) [], next t)
  end.

Definition getEntry (t : handleTable) (h : Z) : option tableEntry := entries t !! h.

Definition removeEntry (t : handleTable) (h : Z) : handleTable * option tableEntry :=
  match entries t !! h with
  | None => (t, None)
  | Some e => (mkTable (delete h (entries t)) (next t) (h :: free t), Some e)
  end.

(** * Resource handles *)

Definition addEntry (s : handles) (e : tableEntry) : handles * Z :=
  let '(t, h) := addEntryLocked (table s) e in (mkHandles t (resources s) (numBorrows s), h).

(** [delete] and the push to the free list, which the operations have in line. *)
Definition retire (s : handles) (h : Z) : handles :=
  mkHandles (mkTable (delete h (entries (table s))) (next (table s)) (h :: free (table s))) (resources s) (numBorrows s).

(** A new resource is a place no pointer names yet: [newResourceEntry] hands out each slot of
    a slab once. *)
Definition newResource (s : handles) (e : resourceEntry) : handles * Z :=
  let '(t, h) := addEntryLocked (table s) (EResource (length (resources s))) in
  (mkHandles t (resources s ++ [e])%list (numBorrows s), h).

Definition add (s : handles) (typ r : Z) (o : bool) : handles * Z := newResource s (mkResource typ r o 0 None).
Definition NewOwn (s : handles) (typ r : Z) : handles * Z := add s typ r true.
Definition NewBorrow (s : handles) (typ r : Z) : handles * Z := add s typ r false.

Definition set_numBorrows (s : handles) (t : nat) (n : Z) : handles := mkHandles (table s) (resources s) (<[t := n]> (numBorrows s)).

(** [scope] is a task; the panic on a nil scope has no counterpart. *)
Definition NewBorrowScoped (s : handles) (typ r : Z) (scope : nat) : hres (handles * Z) :=
  match numBorrows s !! scope with
  | None => Panic
  | Some n => Ok (newResource (set_numBorrows s scope (n + 1)) (mkResource typ r false 0 (Some scope)))
  end.

Definition liveCountLocked (s : handles) (typ : Z) : nat :=
  length (List.filter (λ '(_, e), match e with EResource p => match resources s !! p with Some r => typeIdx r =? typ | None => false end | _ => false end)
    (map_to_list (entries (table s)))).

(** [lookup]: the pointer, and the resource it points to. *)
Definition lookupHandle (s : handles) (typ h : Z) : hres (nat * resourceEntry) :=
  match entries (table s) !! h with
  | None => Err (UnknownHandle h (liveCountLocked s typ))
  | Some (EResource p) =>
      match resources s !! p with
      | None => Panic
      | Some e => if negb (typeIdx e =? typ) then Err (WrongType h (typeIdx e)) else Ok (p, e)
      end
  | Some _ => Err (NotResource h)
  end.

Definition Rep (s : handles) (typ h : Z) : hres Z := let* '(_, e) := lookupHandle s typ h in Ok (rep e).

Definition TakeOwn (s : handles) (typ h : Z) : hres (handles * Z) :=
  let* '(_, e) := lookupHandle s typ h in
  if negb (own e) then Err (IsBorrow h)
  else if negb (lendCount e =? 0) then Err (HasLends h (lendCount e))
  else Ok (retire s h, rep e).

Definition Drop (s : handles) (typ h : Z) : hres handles :=
  let* '(_, e) := lookupHandle s typ h in
  if negb (lendCount e =? 0) then Err (HasLends h (lendCount e))
  else if negb (own e) then
    match borrowScope e with
    | None => Err (NoScope h)
    | Some t => match numBorrows s !! t with None => Panic | Some n => Ok (retire (set_numBorrows s t (n - 1)) h) end
    end
  else Ok (retire s h).

Definition IsOwn (s : handles) (typ h : Z) : hres bool := let* '(_, e) := lookupHandle s typ h in Ok (own e).

Definition DropOwned (s : handles) (h : Z) : hres (handles * Z) :=
  match entries (table s) !! h with
  | None => Err (UnknownHandle h 0)
  | Some (EResource p) =>
      match resources s !! p with
      | None => Panic
      | Some e =>
          if negb (own e) then Err (IsBorrow h)
          else if negb (lendCount e =? 0) then Err (HasLends h (lendCount e))
          else Ok (retire s h, rep e)
      end
  | Some _ => Err (NotResource h)
  end.

Definition set_lends (s : handles) (p : nat) (e : resourceEntry) (n : Z) : handles :=
  mkHandles (table s) (<[p := mkResource (typeIdx e) (rep e) (own e) n (borrowScope e)]> (resources s)) (numBorrows s).

Definition Lend (s : handles) (typ h : Z) : hres handles :=
  let* '(p, e) := lookupHandle s typ h in Ok (set_lends s p e (lendCount e + 1)).

Definition entryForLend (s : handles) (typ h : Z) : hres nat := let* '(p, _) := lookupHandle s typ h in Ok p.

Definition Unlend (s : handles) (typ h : Z) : hres handles :=
  let* '(p, e) := lookupHandle s typ h in
  if lendCount e =? 0 then Err (NoLends h) else Ok (set_lends s p e (lendCount e - 1)).

(** [h.lendCount++] and [h.lendCount--] through a pointer ([addLender], [deliverResolve]). *)
Definition bump (s : handles) (p : nat) (d : Z) : hres handles :=
  match resources s !! p with None => Panic | Some e => Ok (set_lends s p e (lendCount e + d)) end.

(** * Destructors

    A callback as what it does to the state of its owner. *)
Section dtors.
Context {W E : Type}.
Definition dtor : Type := Z → W → W * option E.

Definition compose_dtors (prev new : dtor) : dtor :=
  λ r w, let '(w, err) := prev r w in let '(w, err2) := new r w in (w, match err with None => err2 | Some _ => err end).

Definition registerDtor (dtors : gmap Z dtor) (typ : Z) (d : dtor) : gmap Z dtor :=
  match dtors !! typ with None => <[typ := d]> dtors | Some prev => <[typ := compose_dtors prev d]> dtors end.

Definition dtorFor (dtors : gmap Z dtor) (typ : Z) : option dtor := dtors !! typ.

(** [resource.drop]: what is dropped, and the state and error of the destructor, if one ran. *)
Definition resource_drop (s : handles) (dtors : gmap Z dtor) (typ h : Z) (w : W) : hres (handles * W * option E) :=
  let '(d, r) :=
    match IsOwn s typ h with
    | Ok true => match dtorFor dtors typ with Some d => (Some d, match Rep s typ h with Ok r => r | _ => 0 end) | None => (None, 0) end
    | _ => (None, 0)
    end in
  let* s := Drop s typ h in
  match d with None => Ok (s, w, None) | Some d => let '(w, err) := d r w in Ok (s, w, err) end.
End dtors.

(** [resource.new] and [resource.rep]. *)
Definition resource_new (s : handles) (typ r : Z) : handles * Z := NewOwn s typ r.
Definition resource_rep (s : handles) (typ h : Z) : hres Z := Rep s typ h.

(** * Arguments of a host call

    The kind of a parameter, and the argument that was lifted for it ([None] when lifting
    failed). *)
Inductive param : Type := POwn (typ : Z) | PBorrow (typ : Z) | PPlain.

Inductive arg_error : Type := ALift | AHandle (e : handle_error).

Definition resolveHandleArg (s : handles) (p : param) (v : Z) : hres (handles * Z) :=
  match p with
  | POwn typ => TakeOwn s typ v
  | PBorrow typ => let* r := Rep s typ v in Ok (s, r)
  | PPlain => Ok (s, v)
  end.

(** The loop of [liftHostArgsPlanned] and [liftHostArgsSpilled]: the table after it, the
    handles lent, and the arguments. *)
Fixpoint liftHostArgs (s : handles) (params : list (param * option Z)) : handles * list (Z * Z) * outcome arg_error (list Z) :=
  match params with
  | [] => (s, [], Ok [])
  | (_, None) :: _ => (s, [], Err ALift)
  | (p, Some v) :: params =>
      let '(s, lent) :=
        match p with
        | PBorrow typ => match Lend s typ v with Ok s => (s, [(typ, v)]) | _ => (s, []) end
        | _ => (s, [])
        end in
      match resolveHandleArg s p v with
      | Ok (s, a) => let '(s, lent', r) := liftHostArgs s params in (s, (lent ++ lent')%list, let* l := r in Ok (a :: l))
      | Err e => (s, lent, Err (AHandle e))
      | Panic => (s, lent, Panic)
      | NoFuel => (s, lent, NoFuel)
      end
  end.

(** The deferred release, which ignores errors. *)
Fixpoint release (s : handles) (lent : list (Z * Z)) : handles :=
  match lent with
  | [] => s
  | (typ, h) :: lent => release (match Unlend s typ h with Ok s => s | _ => s end) lent
  end.

(** The loop of [liftAsyncHostArgsPlanned] and [liftAsyncHostArgsSpilled]: the lenders a
    subtask records are pointers. *)
Fixpoint liftAsyncHostArgs (s : handles) (params : list (param * option Z)) : handles * list nat * outcome arg_error (list Z) :=
  match params with
  | [] => (s, [], Ok [])
  | (_, None) :: _ => (s, [], Err ALift)
  | (p, Some v) :: params =>
      let '(s, lenders) :=
        match p with
        | PBorrow typ => match entryForLend s typ v with Ok q => (match bump s q 1 with Ok s => s | _ => s end, [q]) | _ => (s, []) end
        | _ => (s, [])
        end in
      match resolveHandleArg s p v with
      | Ok (s, a) => let '(s, lenders', r) := liftAsyncHostArgs s params in (s, (lenders ++ lenders')%list, let* l := r in Ok (a :: l))
      | Err e => (s, lenders, Err (AHandle e))
      | Panic => (s, lenders, Panic)
      | NoFuel => (s, lenders, NoFuel)
      end
  end.

(** [deliverResolve] on a list of lenders. *)
Fixpoint deliver (s : handles) (lenders : list nat) : hres handles :=
  match lenders with [] => Ok s | p :: lenders => let* s := bump s p (-1) in deliver s lenders end.

(** * The index space: invariant *)

Record twf (t : handleTable) : Prop := {
  twf_next : 1 ≤ next t;
  twf_live : ∀ h e, entries t !! h = Some e → 1 ≤ h < next t;
  twf_free : ∀ h, h ∈ free t ↔ 1 ≤ h < next t ∧ entries t !! h = None;
  twf_nodup : NoDup (free t)
}.

Lemma twf_new : twf newHandleTable.
Proof. split; cbn; [lia|by intros h e; rewrite lookup_empty| |constructor]. intros h. rewrite elem_of_nil. lia. Qed.

(** The index an addition takes: not in use, not 0, and the table with it. *)
Lemma addEntryLocked_spec t e t' h : twf t → next t < 2 ^ 32 - 1 → addEntryLocked t e = (t', h) →
  twf t' ∧ entries t !! h = None ∧ 1 ≤ h < next t' ∧ entries t' = <[h := e]> (entries t) ∧ next t ≤ next t' ≤ next t + 1.
Proof.
  intros [Hn Hl Hf Hd] Hb. unfold addEntryLocked. destruct (free t) as [|g fr] eqn:E; intros [= <- <-]; cbn [entries next free].
  - rewrite wrap_small by lia.
    assert (entries t !! next t = None) as HN by (destruct (entries t !! next t) eqn:Ee; [apply Hl in Ee; lia|done]).
    split_and!; [|done|lia|lia|done|lia|lia]. split; cbn [entries next free].
    + lia.
    + intros h e' [[<- _]|[_ He]]%lookup_insert_Some; [lia|]. apply Hl in He. lia.
    + intros h. split; [by intros ?%elem_of_nil|]. rewrite lookup_insert_None. intros (Hh & HhN & Hne). exfalso.
      assert (1 ≤ h < next t) as Hh' by lia. specialize (proj2 (Hf h) (conj Hh' HhN)). by intros ?%elem_of_nil.
    + constructor.
  - assert (1 ≤ g < next t ∧ entries t !! g = None) as [Hg HgN] by (apply Hf; by left).
    apply list.NoDup_cons in Hd as [Hgf Hd]. split_and!; [|done|lia|lia|done|lia|lia]. split; cbn [entries next free].
    + done.
    + intros h e' [[<- _]|[_ He]]%lookup_insert_Some; [lia|]. by apply Hl in He.
    + intros h. rewrite lookup_insert_None. specialize (Hf h). rewrite elem_of_cons in Hf. split.
      * intros Hin. destruct (proj1 Hf (or_intror Hin)) as [? ?]. split; [done|]. split; [done|]. intros Heq. subst. contradiction.
      * intros (Hh & HhN & Hne). destruct (proj2 Hf (conj Hh HhN)) as [->|?]; done.
    + done.
Qed.

Lemma twf_retire t h e : twf t → entries t !! h = Some e → twf (mkTable (delete h (entries t)) (next t) (h :: free t)).
Proof.
  intros [Hn Hl Hf Hd] He. pose proof (Hl h e He) as Hh. split; cbn [entries next free].
  - done.
  - intros h' e' [_ ?]%lookup_delete_Some. by eapply Hl.
  - intros h'. rewrite elem_of_cons, Hf, lookup_delete_None. split.
    + intros [->|[? ?]]; [by split; [|left]|by split; [|right]].
    + intros [? [?|?]]; [left; congruence|by right].
  - constructor; [|done]. rewrite Hf. intros [_ ?]. congruence.
Qed.

(** ** The table of the Canonical ABI

    An array of optional elements, the first of which is never in use, and a stack of
    freed indices. *)
Record refTable := mkRef { array : list (option tableEntry); rfree : list Z }.

Definition ref_new : refTable := mkRef [None] [].
Definition ref_get (r : refTable) (i : Z) : option tableEntry := if i <? 0 then None else mjoin (array r !! Z.to_nat i).
Definition ref_add (r : refTable) (e : tableEntry) : refTable * Z :=
  match rfree r with
  | i :: fr => (mkRef (<[Z.to_nat i := Some e]> (array r)) fr, i)
  | [] => (mkRef (array r ++ [Some e]) [], zlen (array r))
  end.
Definition ref_remove (r : refTable) (i : Z) : refTable * option tableEntry :=
  match ref_get r i with
  | None => (r, None)
  | Some e => (mkRef (<[Z.to_nat i := None]> (array r)) (i :: rfree r), Some e)
  end.

(** What a client does with a table, and what it sees. *)
Inductive table_op : Type := TAdd (e : tableEntry) | TGet (h : Z) | TRemove (h : Z).
Inductive table_result : Type := RIndex (h : Z) | REntry (e : option tableEntry).

Fixpoint run_table (t : handleTable) (ops : list table_op) : list table_result :=
  match ops with
  | [] => []
  | TAdd e :: ops => let '(t, h) := addEntryLocked t e in RIndex h :: run_table t ops
  | TGet h :: ops => REntry (getEntry t h) :: run_table t ops
  | TRemove h :: ops => let '(t, e) := removeEntry t h in REntry e :: run_table t ops
  end.

Fixpoint run_ref (r : refTable) (ops : list table_op) : list table_result :=
  match ops with
  | [] => []
  | TAdd e :: ops => let '(r, h) := ref_add r e in RIndex h :: run_ref r ops
  | TGet h :: ops => REntry (ref_get r h) :: run_ref r ops
  | TRemove h :: ops => let '(r, e) := ref_remove r h in REntry e :: run_ref r ops
  end.

Record table_sim (t : handleTable) (r : refTable) : Prop := {
  ts_wf : twf t;
  ts_len : zlen (array r) = next t;
  ts_get : ∀ h, ref_get r h = entries t !! h;
  ts_free : rfree r = free t
}.

Lemma ref_get_insert r fr i x h : 0 ≤ i < zlen (array r) → ref_get (mkRef (<[Z.to_nat i := x]> (array r)) fr) h = if bool_decide (h = i) then x else ref_get r h.
Proof.
  intros Hi. unfold ref_get, zlen in *. cbn [array]. case_bool_decide as E.
  - subst h. rewrite (proj2 (Z.ltb_ge _ _)) by lia. rewrite list_lookup_insert_eq by lia. done.
  - destruct (Z.ltb_spec h 0); [done|]. by rewrite list_lookup_insert_ne by lia.
Qed.

Lemma table_sim_add t r e : table_sim t r → next t < 2 ^ 32 - 1 →
  snd (ref_add r e) = snd (addEntryLocked t e) ∧ table_sim (fst (addEntryLocked t e)) (fst (ref_add r e)).
Proof.
  intros [Hwf Hl Hg Hf] Hb. destruct (addEntryLocked t e) as [t' h] eqn:E. pose proof (addEntryLocked_spec t e t' h Hwf Hb E) as (Hwf' & _).
  pose proof (twf_next _ Hwf). unfold addEntryLocked in E. unfold ref_add. rewrite Hf. destruct (free t) as [|g fr] eqn:Efr; injection E as <- <-; cbn [fst snd].
  - split; [done|]. split; [done|cbn; rewrite zlen_app, wrap_small by lia; change (zlen [Some e]) with 1; lia| |done]. intros h. cbn [entries].
    unfold ref_get. cbn [array]. unfold zlen in Hl.
    destruct (decide (h = next t)) as [->|Hne].
    + rewrite lookup_insert_eq, (proj2 (Z.ltb_ge _ _)), <- Hl, Nat2Z.id by lia. by rewrite list_lookup_middle.
    + rewrite lookup_insert_ne, <- Hg by done. unfold ref_get. destruct (Z.ltb_spec h 0); [done|]. destruct (decide (Z.to_nat h < length (array r))%nat).
      * by rewrite lookup_app_l by done.
      * rewrite !lookup_ge_None_2; [done|lia|rewrite length_app; cbn; lia].
  - pose proof (proj1 (twf_free _ Hwf g)) as Hgf. rewrite Efr in Hgf. destruct Hgf as [Hgr _]; [by left|].
    split; [done|]. split; [done|cbn; unfold zlen in *; by rewrite length_insert| |done]. intros h. cbn [entries].
    rewrite ref_get_insert by lia.
    case_bool_decide as Eh; [subst; by rewrite lookup_insert_eq|by rewrite lookup_insert_ne].
Qed.

Lemma table_sim_remove t r h : table_sim t r →
  snd (ref_remove r h) = snd (removeEntry t h) ∧ table_sim (fst (removeEntry t h)) (fst (ref_remove r h)).
Proof.
  intros [Hwf Hl Hg Hf]. unfold ref_remove, removeEntry. rewrite Hg. destruct (entries t !! h) as [e|] eqn:E; [|split; [done|by split]].
  cbn [fst snd]. split; [done|]. pose proof (twf_live _ Hwf h e E). pose proof (twf_retire t h e Hwf E). split; [done| | |cbn; by rewrite Hf].
  - cbn. unfold zlen in *. by rewrite length_insert.
  - intros h'. cbn [entries]. rewrite ref_get_insert by lia. case_bool_decide as Eh; [subst; by rewrite lookup_delete_eq|by rewrite lookup_delete_ne].
Qed.

Lemma removeEntry_next t h : next (fst (removeEntry t h)) = next t.
Proof. unfold removeEntry. by destruct (entries t !! h). Qed.

Lemma addEntryLocked_next t e : 0 ≤ next t < 2 ^ 32 - 1 → next (fst (addEntryLocked t e)) ≤ next t + 1.
Proof. intros. unfold addEntryLocked. destruct (free t); cbn; [rewrite wrap_small|]; lia. Qed.

Lemma run_table_sim ops : ∀ t r, table_sim t r → next t + zlen ops < 2 ^ 32 → run_table t ops = run_ref r ops.
Proof.
  induction ops as [|op ops IH]; intros t r Hs Hb; [done|]. rewrite zlen_cons in Hb. pose proof (zlen_nonneg ops). pose proof (twf_next _ (ts_wf _ _ Hs)).
  destruct op as [e|h|h]; cbn [run_table run_ref].
  - destruct (table_sim_add t r e Hs ltac:(lia)) as [E Hs']. pose proof (addEntryLocked_next t e ltac:(lia)).
    destruct (addEntryLocked t e), (ref_add r e). cbn in *. subst. f_equal. apply IH; [done|lia].
  - unfold getEntry. rewrite (ts_get _ _ Hs). f_equal. apply IH; [done|lia].
  - destruct (table_sim_remove t r h Hs) as [E Hs']. pose proof (removeEntry_next t h).
    destruct (removeEntry t h), (ref_remove r h). cbn in *. subst. f_equal. apply IH; [done|lia].
Qed.

(** A client of the handle table sees exactly the table of the Canonical ABI, an array
    with a stack of freed indices: the same index for every addition and the same entry, or
    none, for every lookup and removal, in any sequence of fewer than 2^32 - 1 operations. *)
Theorem handle_table_refines ops : zlen ops < 2 ^ 32 - 1 → run_table newHandleTable ops = run_ref ref_new ops.
Proof.
  intros H. apply run_table_sim; [|change (next newHandleTable) with 1; lia]. split; [apply twf_new|done| |done]. intros h. cbn [entries newHandleTable]. rewrite lookup_empty.
  unfold ref_get. destruct (Z.ltb_spec h 0); [done|]. cbn [array ref_new]. by destruct (Z.to_nat h) as [|[|k]].
Qed.

Lemma handle_table_refines_witness :
  run_ref ref_new [TAdd (EResource 0); TAdd (EResource 1); TRemove 1; TRemove 1; TAdd (EResource 2); TGet 1; TGet 0] =
  [RIndex 1; RIndex 2; REntry (Some (EResource 0)); REntry None; RIndex 1; REntry (Some (EResource 2)); REntry None].
Proof. rewrite <- handle_table_refines; [by vm_compute|done]. Defined.
