(* ===== verification/CmBorrows.v ===== *)
(** Loans and borrow scopes of the handle table: what the counters count, over histories of
    calls, failed ones included, drops and subtasks. *)
From Stdlib Require Import ZArith Lia.
From stdpp Require Import base list numbers option tactics gmap relations.
From S2P Require Import Prelude CmHandles.
Local Open Scope Z_scope.
Local Open Scope go_scope.

(** * The invariant of a table and its resources *)

(** The handles whose resource has a property. *)
Definition tagged (s : handles) (P : resourceEntry → bool) (e : tableEntry) : bool :=
  match e with EResource p => match resources s !! p with Some r => P r | None => false end | _ => false end.
Definition having (s : handles) (P : resourceEntry → bool) : gmap Z tableEntry := filter (λ x, tagged s P x.2 = true) (entries (table s)).

(** The borrows scoped to a task. *)
Definition in_scope (t : nat) (r : resourceEntry) : bool := bool_decide (borrowScope r = Some t).
Definition scoped (s : handles) (t : nat) : gmap Z tableEntry := having s (in_scope t).

Record hwf (s : handles) : Prop := {
  hw_table : twf (table s);
  hw_ptr : ∀ h p, entries (table s) !! h = Some (EResource p) → (p < length (resources s))%nat;
  hw_inj : ∀ h h' p, entries (table s) !! h = Some (EResource p) → entries (table s) !! h' = Some (EResource p) → h = h';
  hw_scope : ∀ p e t, resources s !! p = Some e → borrowScope e = Some t → own e = false ∧ (t < length (numBorrows s))%nat;
  hw_count : ∀ t n, numBorrows s !! t = Some n → n = Z.of_nat (size (scoped s t))
}.

(** The handle [h] names the resource [e], at [p]. *)
Definition names (s : handles) (h : Z) (p : nat) (e : resourceEntry) : Prop :=
  entries (table s) !! h = Some (EResource p) ∧ resources s !! p = Some e.

Lemma lookupHandle_Ok s typ h p e : lookupHandle s typ h = Ok (p, e) ↔ names s h p e ∧ typeIdx e = typ.
Proof.
  unfold lookupHandle, names. destruct (entries (table s) !! h) as [[q|?|?|?|?|?]|] eqn:E; try (split; [done|by intros [[? ?] ?]]).
  destruct (resources s !! q) as [e'|] eqn:Er; [|split; [done|by intros [[[= ->] ?] ?]; congruence]].
  destruct (Z.eqb_spec (typeIdx e') typ); cbn [negb].
  - split; [intros [= <- <-]; done|]. intros [[[= <-] He] _]. congruence.
  - split; [done|]. intros [[[= <-] He] Ht]. congruence.
Qed.

Lemma lookupHandle_total s typ h : hwf s → lookupHandle s typ h ≠ Panic ∧ lookupHandle s typ h ≠ NoFuel.
Proof.
  intros Hwf. unfold lookupHandle. destruct (entries (table s) !! h) as [[q|?|?|?|?|?]|] eqn:E; try done.
  destruct (lookup_lt_is_Some_2 (resources s) q) as [e ->]; [by eapply hw_ptr|]. by destruct (negb _).
Qed.

Lemma names_fun s h p e p' e' : names s h p e → names s h p' e' → p = p' ∧ e = e'.
Proof. intros [H1 H2] [H3 H4]. split; congruence. Qed.

(** A lookup answers by what the handle names. *)
Lemma lookupHandle_cases s typ h : hwf s →
  (∃ p e, names s h p e ∧ typeIdx e = typ ∧ lookupHandle s typ h = Ok (p, e)) ∨ (∃ err, lookupHandle s typ h = Err err ∧ ∀ p e, names s h p e → typeIdx e ≠ typ).
Proof.
  intros Hwf. destruct (lookupHandle_total s typ h Hwf) as [H1 H2]. destruct (lookupHandle s typ h) as [[p e]|err| |] eqn:E; [|right|done|done].
  - left. exists p, e. apply lookupHandle_Ok in E as [? ?]. done.
  - exists err. split; [done|]. intros p e Hn Ht. assert (lookupHandle s typ h = Ok (p, e)) by (by apply lookupHandle_Ok). congruence.
Qed.

(** ** Changes of a state *)

Lemma having_lookup s P h e : having s P !! h = Some e ↔ entries (table s) !! h = Some e ∧ tagged s P e = true.
Proof. unfold having. by rewrite map_lookup_filter_Some. Qed.

(** A state with the same entries and resources that look the same. *)
Lemma having_ext s s' P : entries (table s') = entries (table s) →
  (∀ h e, entries (table s) !! h = Some e → tagged s' P e = tagged s P e) → having s' P = having s P.
Proof. intros He Hs. unfold having. rewrite He. apply map_filter_ext. intros h e Hh. cbn. by rewrite (Hs h e Hh). Qed.

Definition ignores_lends (P : resourceEntry → bool) : Prop := ∀ e n, P (mkResource (typeIdx e) (rep e) (own e) n (borrowScope e)) = P e.

Lemma in_scope_ignores t : ignores_lends (in_scope t).
Proof. done. Qed.

Lemma having_set_lends s p e n P : ignores_lends P → resources s !! p = Some e → having (set_lends s p e n) P = having s P.
Proof.
  intros HP Hp. apply having_ext; [done|]. intros h [q|?|?|?|?|?] _; try done. cbn. destruct (decide (q = p)) as [->|]; [|by rewrite list_lookup_insert_ne by done].
  rewrite list_lookup_insert_eq by (by eapply lookup_lt_Some). rewrite Hp. apply HP.
Qed.

Lemma hwf_set_lends s p e n : hwf s → resources s !! p = Some e → hwf (set_lends s p e n).
Proof.
  intros [Ht Hp Hi Hs Hc] Hpe. split; cbn.
  - done.
  - intros h q Hq. rewrite length_insert. by eapply Hp.
  - done.
  - intros q e' t [(<- & <- & _)|[_ Hq]]%list_lookup_insert_Some Hsc'; [cbn in *; by eapply Hs|by eapply Hs].
  - intros t m Hm. unfold scoped. rewrite having_set_lends by done. by apply Hc.
Qed.

Lemma names_set_lends s p e n h q : resources s !! p = Some e →
  (∃ e', names (set_lends s p e n) h q e') ↔ (∃ e', names s h q e').
Proof.
  intros Hp. unfold names. cbn. split; intros (e' & He & Hq).
  - apply list_lookup_insert_Some in Hq as [(<- & _ & _)|[_ Hq]]; eauto.
  - destruct (decide (q = p)) as [->|]; [|exists e'; by rewrite list_lookup_insert_ne by done].
    eexists. split; [done|]. rewrite list_lookup_insert_eq by (by eapply lookup_lt_Some). done.
Qed.

Lemma having_retire s h P : having (retire s h) P = delete h (having s P).
Proof.
  apply map_eq. intros h'. apply option_eq. intros e. rewrite lookup_delete_Some, !having_lookup. cbn. rewrite lookup_delete_Some.
  split; [intros [[? ?] ?]; done|intros (? & ? & ?); done].
Qed.

Lemma names_tagged s h p e P : names s h p e → having s P !! h = if P e then Some (EResource p) else None.
Proof.
  intros [Hh He]. destruct (having s P !! h) as [x|] eqn:E.
  - apply having_lookup in E as [E Ht]. rewrite Hh in E. injection E as <-. cbn in Ht. rewrite He in Ht. by rewrite Ht.
  - destruct (P e) eqn:EP; [|done]. assert (having s P !! h = Some (EResource p)) as E'; [|congruence]. apply having_lookup. split; [done|]. cbn. by rewrite He.
Qed.

(** Removing a handle that is not a scoped borrow. *)
Lemma hwf_retire s h p e : hwf s → names s h p e → borrowScope e = None → hwf (retire s h).
Proof.
  intros [Ht Hp Hi Hs Hc] Hn Hno. pose proof Hn as [Hh He]. split; cbn.
  - by eapply twf_retire.
  - intros h' q [_ ?]%lookup_delete_Some. by eapply Hp.
  - intros h1 h2 q [_ ?]%lookup_delete_Some [_ ?]%lookup_delete_Some. by eapply Hi.
  - done.
  - intros t n Hn'. rewrite (Hc t n Hn'). unfold scoped. rewrite having_retire, delete_id; [done|].
    rewrite (names_tagged s h p e) by done. unfold in_scope. by rewrite bool_decide_false by (by rewrite Hno).
Qed.

Lemma hwf_retire_scoped s h p e t n : hwf s → names s h p e → borrowScope e = Some t → numBorrows s !! t = Some n →
  hwf (retire (set_numBorrows s t (n - 1)) h).
Proof.
  intros [Ht Hp Hi Hs Hc] Hn Hsc Hnb. pose proof Hn as [Hh He]. split; cbn.
  - by eapply twf_retire.
  - intros h' q [_ ?]%lookup_delete_Some. by eapply Hp.
  - intros h1 h2 q [_ ?]%lookup_delete_Some [_ ?]%lookup_delete_Some. by eapply Hi.
  - intros q e' t' Hq Hq'. rewrite length_insert. by eapply Hs.
  - intros t' n' Hn'. unfold scoped. rewrite having_retire. change (having (set_numBorrows s t (n - 1))) with (having s).
    pose proof (names_tagged s h p e (in_scope t') Hn) as Hl. unfold in_scope in Hl at 2. rewrite Hsc in Hl.
    apply list_lookup_insert_Some in Hn' as [(<- & <- & _)|[Hne Hn']].
    + rewrite bool_decide_true in Hl by done. rewrite (Hc t n Hnb), map_size_delete_Some by (by eexists). unfold scoped.
      assert (size (having s (in_scope t)) ≠ 0%nat) by (rewrite map_size_ne_0_lookup; eauto). lia.
    + rewrite bool_decide_false in Hl by congruence. rewrite (Hc t' n' Hn'). by rewrite delete_id.
Qed.

(** ** New resources *)

Lemma newResource_spec s e s' h : hwf s → next (table s) < 2 ^ 32 - 1 → newResource s e = (s', h) →
  entries (table s) !! h = None ∧ entries (table s') = <[h := EResource (length (resources s))]> (entries (table s)) ∧
  resources s' = resources s ++ [e] ∧ numBorrows s' = numBorrows s ∧ next (table s) ≤ next (table s') ≤ next (table s) + 1 ∧
  1 ≤ h ∧ twf (table s') ∧
  (∀ P, having s' P = if P e then <[h := EResource (length (resources s))]> (having s P) else having s P).
Proof.
  intros Hwf Hb. unfold newResource. destruct (addEntryLocked (table s) _) as [t h'] eqn:E. intros [= <- <-]. cbn.
  pose proof (addEntryLocked_spec _ _ _ _ (hw_table _ Hwf) Hb E) as (Ht & HN & Hh & He & Hnx). split_and!; [done..|lia|lia|lia|done|].
  intros P. apply map_eq. intros g. apply option_eq. intros x. rewrite having_lookup. cbn. rewrite He.
  assert (∀ g' x', entries (table s) !! g' = Some x' → tagged (mkHandles t (resources s ++ [e]) (numBorrows s)) P x' = tagged s P x') as Hold.
  { intros g' [q|?|?|?|?|?] Hx; try done. cbn. rewrite lookup_app_l; [done|]. by eapply (hw_ptr s Hwf). }
  assert (tagged (mkHandles t (resources s ++ [e]) (numBorrows s)) P (EResource (length (resources s))) = P e) as Hnew.
  { cbn. rewrite list_lookup_middle by done. done. }
  rewrite lookup_insert_Some. destruct (P e) eqn:Hd; rewrite ?lookup_insert_Some, having_lookup; split.
  - intros [[[<- <-]|[? Hx]] Hs]; [by left|right]. split; [done|]. split; [done|]. rewrite <- (Hold g x); done.
  - intros [[<- <-]|(? & Hx & Hs)]; [split; [by left|congruence]|]. split; [by right|]. rewrite (Hold g x); done.
  - intros [[[<- <-]|[? Hx]] Hs]; [congruence|]. split; [done|]. rewrite <- (Hold g x); done.
  - intros [Hx Hs]. split; [right; split; [|done]|rewrite (Hold g x); done]. intros ->. congruence.
Qed.

Lemma hwf_new s e s' h : hwf s → next (table s) < 2 ^ 32 - 1 → borrowScope e = None → newResource s e = (s', h) → hwf s'.
Proof.
  intros Hwf Hb He Hn. destruct (newResource_spec s e s' h Hwf Hb Hn) as (HN & Hes & Hr & Hnb & _ & _ & Ht & Hsc). destruct Hwf as [_ Hp Hi Hs Hc]. split.
  - done.
  - intros g q. rewrite Hes, Hr, length_app. intros [[<- [= <-]]|[_ Hq]]%lookup_insert_Some; cbn; [lia|]. apply Hp in Hq. lia.
  - intros g1 g2 q. rewrite Hes. intros [[<- [= <-]]|[_ H1]]%lookup_insert_Some [[<- Hq]|[_ H2]]%lookup_insert_Some; [done| | |by eapply Hi].
    + apply Hp in H2. lia.
    + injection Hq as <-. apply Hp in H1. lia.
  - intros q e' t. rewrite Hr, Hnb. intros [Hq|[_ Hq]]%lookup_app_Some; [by apply (Hs q)|]. apply list_lookup_singleton_Some in Hq as [_ <-]. congruence.
  - intros t n. rewrite Hnb. unfold scoped. rewrite Hsc. unfold in_scope at 1. intros Hq. rewrite bool_decide_false by (by rewrite He). by apply Hc.
Qed.

Lemma NewBorrowScoped_Ok s typ r t s' h : NewBorrowScoped s typ r t = Ok (s', h) → ∃ n s1,
  numBorrows s !! t = Some n ∧ newResource s (mkResource typ r false 0 (Some t)) = (s1, h) ∧
  s' = mkHandles (table s1) (resources s1) (<[t := n + 1]> (numBorrows s)).
Proof.
  unfold NewBorrowScoped, newResource. destruct (numBorrows s !! t) as [n|]; [|done]. cbn. intros [= H].
  destruct (addEntryLocked (table s) _) as [t' h'] eqn:E. injection H as <- <-. by eexists _, _.
Qed.

Lemma hwf_new_scoped s typ r t s' h : hwf s → next (table s) < 2 ^ 32 - 1 → NewBorrowScoped s typ r t = Ok (s', h) → hwf s'.
Proof.
  intros Hwf Hb (n & s1 & En & Hn & ->)%NewBorrowScoped_Ok. set (e := mkResource typ r false 0 (Some t)) in *.
  destruct (newResource_spec s e s1 h Hwf Hb Hn) as (HN & Hes & Hr & _ & _ & _ & Ht' & Hsc).
  pose proof (lookup_lt_Some _ _ _ En) as Hlt. destruct Hwf as [Ht Hp Hi Hs Hc]. split; cbn.
  - done.
  - intros g q. rewrite Hes, Hr, length_app. intros [[<- [= <-]]|[_ Hq]]%lookup_insert_Some; cbn; [lia|]. apply Hp in Hq. lia.
  - intros g1 g2 q. rewrite Hes. intros [[<- [= <-]]|[_ H1]]%lookup_insert_Some [[<- Hq]|[_ H2]]%lookup_insert_Some; [done| | |by eapply Hi].
    + apply Hp in H2. lia.
    + injection Hq as <-. apply Hp in H1. lia.
  - intros q e' u. rewrite Hr, length_insert. intros [Hq|[_ Hq]]%lookup_app_Some; [by apply (Hs q)|].
    apply list_lookup_singleton_Some in Hq as [_ <-]. cbn. intros [= <-]. done.
  - intros u m Hm. change (having s1 (in_scope u)) with (scoped s1 u) in *.
    assert (scoped (mkHandles (table s1) (resources s1) (<[t := n + 1]> (numBorrows s))) u = having s1 (in_scope u)) as -> by done.
    rewrite Hsc. unfold in_scope at 1. cbn [borrowScope e]. apply list_lookup_insert_Some in Hm as [(<- & <- & _)|[Hne Hm]].
    + rewrite bool_decide_true by done. rewrite map_size_insert_None; [pose proof (Hc t n En) as HE; unfold scoped in HE; lia|].
      destruct (having s (in_scope t) !! h) eqn:E; [|done]. apply having_lookup in E as [E _]. congruence.
    + rewrite bool_decide_false by congruence. by apply Hc.
Qed.

(** * Loans *)

Definition nloans (p : nat) (loans : list nat) : Z := Z.of_nat (length (filter (λ q, q = p) loans)).

Lemma nloans_nil p : nloans p [] = 0.
Proof. done. Qed.
Lemma nloans_cons p q l : nloans p (q :: l) = (if decide (q = p) then 1 else 0) + nloans p l.
Proof. unfold nloans. rewrite filter_cons. case_decide; cbn; lia. Qed.
Lemma nloans_perm p l l' : l ≡ₚ l' → nloans p l = nloans p l'.
Proof. intros H. unfold nloans. by rewrite H. Qed.
Lemma nloans_pos p l : 0 < nloans p l ↔ p ∈ l.
Proof.
  induction l as [|q l IH]; [rewrite nloans_nil, elem_of_nil; lia|]. rewrite nloans_cons, elem_of_cons, <- IH.
  assert (0 ≤ nloans p l) by (unfold nloans; lia). case_decide; split; intros; [by left|lia|right; lia|]. destruct H1; [congruence|lia].
Qed.

(** [loans] are all the loans there are, as the pointers they were made on. *)
Record lends_ok (s : handles) (loans : list nat) : Prop := {
  lo_count : ∀ p e, resources s !! p = Some e → lendCount e = nloans p loans;
  lo_live : ∀ p, p ∈ loans → ∃ h, entries (table s) !! h = Some (EResource p)
}.

Lemma lends_ok_perm s l l' : l ≡ₚ l' → lends_ok s l → lends_ok s l'.
Proof. intros Hp [H1 H2]. split; [intros p e He; rewrite <- (nloans_perm p l l' Hp); by apply H1|]. intros p Hin. apply H2. by rewrite Hp. Qed.

(** A change of the table that keeps the handles that are lent. *)
Definition keeps (s s' : handles) (loans : list nat) : Prop :=
  ∀ h p e, p ∈ loans → names s h p e → ∃ e', names s' h p e' ∧ typeIdx e' = typeIdx e ∧ rep e' = rep e ∧ own e' = own e.

Lemma keeps_refl s loans : keeps s s loans.
Proof. intros h p e _ H. by exists e. Qed.

Lemma keeps_trans s s' s'' loans : keeps s s' loans → keeps s' s'' loans → keeps s s'' loans.
Proof.
  intros H1 H2 h p e Hp Hn. destruct (H1 h p e Hp Hn) as (e1 & Hn1 & E1 & E2 & E3). destruct (H2 h p e1 Hp Hn1) as (e2 & Hn2 & F1 & F2 & F3).
  exists e2. split; [done|]. split_and!; congruence.
Qed.

Lemma keeps_sub s s' l l' : (∀ p, p ∈ l' → p ∈ l) → keeps s s' l → keeps s s' l'.
Proof. intros Hs H h p e Hp. apply H. by apply Hs. Qed.

(** ** One lemma per operation *)

(** What an operation on the state [s] with the loans [loans] leaves. *)
Record after (s s' : handles) (loans loans' : list nat) : Prop := {
  af_wf : hwf s';
  af_lends : lends_ok s' loans';
  af_keeps : keeps s s' loans';
  af_next : next (table s) ≤ next (table s') ≤ next (table s) + 1
}.

Lemma new_after s e s1 s' h loans : hwf s → lends_ok s loans → next (table s) < 2 ^ 32 - 1 → lendCount e = 0 →
  newResource s e = (s1, h) → table s' = table s1 → resources s' = resources s1 → hwf s' → after s s' loans loans.
Proof.
  intros Hwf [Hc Hl] Hb He Hn Et Er Hwf'. destruct (newResource_spec s e s1 h Hwf Hb Hn) as (HN & Hes & Hr & _ & Hnx & _). rewrite <- Et in Hes, Hnx. rewrite <- Er in Hr.
  assert (∀ p, p ∈ loans → (p < length (resources s))%nat) as Hlt by (intros p [g Hg]%Hl; by eapply (hw_ptr s Hwf)).
  split; [done| |intros g p x Hp [Hg Hx]|done].
  - split.
    + intros p x. rewrite Hr. intros [Hx|[Hlen Hx]]%lookup_app_Some; [by apply Hc|]. apply list_lookup_singleton_Some in Hx as [Hz <-].
      rewrite He. destruct (decide (p ∈ loans)) as [Hin|Hin]; [apply Hlt in Hin; lia|]. rewrite <- nloans_pos in Hin.
      assert (0 ≤ nloans p loans) by (unfold nloans; lia). lia.
    + intros p Hp. destruct (Hl p Hp) as [g Hg]. exists g. rewrite Hes, lookup_insert_ne; [done|]. intros ->. congruence.
  - exists x. split; [|done]. split; [|rewrite Hr; by apply lookup_app_l_Some]. rewrite Hes, lookup_insert_ne; [done|]. intros ->. congruence.
Qed.

(** A handle with no loan is retired: what is lent stays. *)
Lemma retire_after s h p e loans s' : hwf s → lends_ok s loans → names s h p e → lendCount e = 0 → hwf s' →
  table s' = table (retire s h) → resources s' = resources s → after s s' loans loans.
Proof.
  intros Hwf [Hc Hl] [Hh He] Hz Hwf' Et Er.
  assert (∀ g q, q ∈ loans → entries (table s) !! g = Some (EResource q) → entries (table s') !! g = Some (EResource q)) as Hkeep.
  { intros g q Hq Hg. rewrite Et. cbn. rewrite lookup_delete_ne; [done|]. intros <-. assert (q = p) as -> by congruence.
    apply nloans_pos in Hq. rewrite <- (Hc p e He) in Hq. lia. }
  split; [done| |intros g q x Hq [Hg Hx]|rewrite Et; cbn; lia].
  - split; [intros q x; rewrite Er; apply Hc|]. intros q Hq. destruct (Hl q Hq) as [g Hg]. exists g. by apply Hkeep.
  - exists x. split; [|done]. split; [by apply Hkeep|by rewrite Er].
Qed.

Lemma set_lends_after s h p e n loans loans' : hwf s → lends_ok s loans → names s h p e →
  (∀ q, nloans q loans' = if decide (q = p) then n else nloans q loans) → (∀ q, q ∈ loans' → q = p ∨ q ∈ loans) →
  after s (set_lends s p e n) loans loans'.
Proof.
  intros Hwf [Hc Hl] [Hh He] Hn Hsub. pose proof (lookup_lt_Some _ _ _ He) as Hlt. split; [by apply hwf_set_lends| |intros g q x Hq [Hg Hx]|cbn; lia].
  - split; cbn.
    + intros q x [(<- & <- & _)|[Hne Hx]]%list_lookup_insert_Some; [cbn; by rewrite Hn, decide_True|]. rewrite Hn, decide_False by congruence. by apply Hc.
    + intros q Hq. destruct (Hsub q Hq) as [->|Hin]; [by eexists|by apply Hl].
  - unfold names. cbn. destruct (decide (q = p)) as [->|Hne].
    + eexists. split; [split; [done|by apply list_lookup_insert_eq]|]. cbn. assert (x = e) as -> by congruence. done.
    + exists x. by rewrite list_lookup_insert_ne by done.
Qed.

Lemma lend_after s h p e loans : hwf s → lends_ok s loans → names s h p e → after s (set_lends s p e (lendCount e + 1)) loans (p :: loans).
Proof.
  intros Hwf Hlo Hn. eapply set_lends_after; [done|done|done| |].
  - intros q. rewrite nloans_cons. destruct Hn as [_ He]. pose proof (lo_count _ _ Hlo p e He). repeat case_decide; subst; try done; lia.
  - intros q. by rewrite elem_of_cons.
Qed.

Lemma unlend_after s h p e loans : hwf s → lends_ok s (p :: loans) → names s h p e →
  lendCount e ≠ 0 ∧ after s (set_lends s p e (lendCount e - 1)) (p :: loans) loans.
Proof.
  intros Hwf Hlo Hn. pose proof Hn as [_ He]. pose proof (lo_count _ _ Hlo p e He) as Hc. rewrite nloans_cons, decide_True in Hc by done.
  assert (0 ≤ nloans p loans) by (unfold nloans; lia). split; [lia|]. eapply set_lends_after; [done|done|done| |].
  - intros q. rewrite nloans_cons. repeat case_decide; subst; try done; lia.
  - intros q Hq. right. by right.
Qed.

(** A loan through a pointer. *)
Lemma bump_after s p loans : hwf s → lends_ok s loans → p ∈ loans → ∃ s', bump s p 1 = Ok s' ∧ after s s' loans (p :: loans).
Proof.
  intros Hwf Hlo Hp. destruct (lo_live _ _ Hlo p Hp) as [h Hh]. destruct (lookup_lt_is_Some_2 (resources s) p) as [e He]; [by eapply hw_ptr|].
  unfold bump. rewrite He. eexists. split; [done|]. by apply (lend_after s h).
Qed.

Lemma unbump_after s p loans : hwf s → lends_ok s (p :: loans) → ∃ s', bump s p (-1) = Ok s' ∧ after s s' (p :: loans) loans.
Proof.
  intros Hwf Hlo. destruct (lo_live _ _ Hlo p ltac:(by left)) as [h Hh]. destruct (lookup_lt_is_Some_2 (resources s) p) as [e He]; [by eapply hw_ptr|].
  unfold bump. rewrite He. eexists. split; [done|]. replace (lendCount e + -1) with (lendCount e - 1) by lia. by apply (unlend_after s h).
Qed.

(** ** Lists of loans *)

(** A handle that was lent by its type and index, and the pointer behind it. *)
Definition lent_as (s : handles) (x : Z * Z) (p : nat) : Prop := ∃ e, names s x.2 p e ∧ typeIdx e = x.1.

Lemma lent_as_keeps s s' x p loans : keeps s s' loans → p ∈ loans → lent_as s x p → lent_as s' x p.
Proof. intros Hk Hp (e & Hn & Ht). destruct (Hk _ _ _ Hp Hn) as (e' & Hn' & Ht' & _). exists e'. split; [done|congruence]. Qed.

Lemma lent_as_keeps_all s s' lent ps loans : keeps s s' loans → (∀ p, p ∈ ps → p ∈ loans) → Forall2 (lent_as s) lent ps → Forall2 (lent_as s') lent ps.
Proof.
  intros Hk Hs H. induction H as [|x p lent ps Hx _ IH]; constructor.
  - eapply lent_as_keeps; [exact Hk|apply Hs; by left|done].
  - apply IH. intros q Hq. apply Hs. by right.
Qed.

Lemma Lend_Ok s typ h s' loans : hwf s → lends_ok s loans → Lend s typ h = Ok s' → ∃ p, lent_as s' (typ, h) p ∧ after s s' loans (p :: loans).
Proof.
  intros Hwf Hlo H. unfold Lend in H. apply obind_Ok in H as ([p e] & [Hn Ht]%lookupHandle_Ok & [= <-]).
  exists p. pose proof (lend_after s h p e loans Hwf Hlo Hn) as Ha. split; [|done].
  destruct (af_keeps _ _ _ _ Ha h p e ltac:(by left) Hn) as (e' & Hn' & Ht' & _). exists e'. split; [done|cbn; congruence].
Qed.

(** The release of a loan, by type and index, succeeds. *)
Lemma Unlend_Ok s x p loans : hwf s → lends_ok s (p :: loans) → lent_as s x p → ∃ s', Unlend s x.1 x.2 = Ok s' ∧ after s s' (p :: loans) loans.
Proof.
  intros Hwf Hlo (e & Hn & Ht). destruct (unlend_after s x.2 p e loans Hwf Hlo Hn) as [Hz Ha]. eexists. split; [|exact Ha].
  unfold Unlend. rewrite (proj2 (lookupHandle_Ok s x.1 x.2 p e) (conj Hn Ht)). cbn [obind]. by rewrite (proj2 (Z.eqb_neq _ _)).
Qed.

(** The whole of a release, when no error is ignored. *)
Fixpoint release_all (s : handles) (lent : list (Z * Z)) : hres handles :=
  match lent with [] => Ok s | (typ, h) :: lent => let* s := Unlend s typ h in release_all s lent end.

Lemma release_all_Ok lent : ∀ s ps loans, hwf s → lends_ok s (ps ++ loans) → Forall2 (lent_as s) lent ps →
  ∃ s', release_all s lent = Ok s' ∧ release s lent = s' ∧ hwf s' ∧ lends_ok s' loans ∧ keeps s s' loans ∧ next (table s') = next (table s).
Proof.
  induction lent as [|[typ h] lent IH]; intros s ps loans Hwf Hlo Hps; inversion Hps as [|x p lent' ps' Hp Hps']; subst; cbn [release_all release].
  - exists s. split_and!; [done..|apply keeps_refl|done].
  - cbn in Hlo. destruct (Unlend_Ok s (typ, h) p (ps' ++ loans) Hwf Hlo Hp) as (s1 & E & [Hwf1 Hlo1 Hk1 Hn1]). cbn [fst snd] in E. rewrite E. cbn [obind].
    assert (next (table s1) = next (table s)) as Hn1'.
    { unfold Unlend in E. apply obind_Ok in E as ([q e] & _ & E). destruct (_ =? 0); [done|]. by injection E as <-. }
    destruct (IH s1 ps' loans Hwf1 Hlo1) as (s' & E1 & E2 & Hwf' & Hlo' & Hk' & Hn').
    { eapply lent_as_keeps_all; [exact Hk1| |done]. intros q Hq. apply elem_of_app. by left. }
    exists s'. split_and!; [done..| |congruence]. eapply keeps_trans; [eapply keeps_sub; [|exact Hk1]|done]. intros q Hq. apply elem_of_app. by right.
Qed.

Lemma deliver_Ok ps : ∀ s loans, hwf s → lends_ok s (ps ++ loans) →
  ∃ s', deliver s ps = Ok s' ∧ hwf s' ∧ lends_ok s' loans ∧ keeps s s' loans ∧ next (table s') = next (table s).
Proof.
  induction ps as [|p ps IH]; intros s loans Hwf Hlo; cbn [deliver].
  - exists s. split_and!; [done..|apply keeps_refl|done].
  - cbn in Hlo. destruct (unbump_after s p (ps ++ loans) Hwf Hlo) as (s1 & E & [Hwf1 Hlo1 Hk1 Hn1]). rewrite E. cbn [obind].
    assert (next (table s1) = next (table s)) as Hn1'.
    { unfold bump in E. destruct (resources s !! p); [|done]. by injection E as <-. }
    destruct (IH s1 loans Hwf1 Hlo1) as (s' & E1 & Hwf' & Hlo' & Hk' & Hn').
    exists s'. split_and!; [done..| |congruence]. eapply keeps_trans; [eapply keeps_sub; [|exact Hk1]|done]. intros q Hq. apply elem_of_app. by right.
Qed.

(** ** What consumes a handle *)

Lemma own_unscoped s h p e : hwf s → names s h p e → own e = true → borrowScope e = None.
Proof. intros Hwf [_ He] Ho. destruct (borrowScope e) as [t|] eqn:E; [|done]. destruct (hw_scope s Hwf p e t He E). congruence. Qed.

Lemma TakeOwn_Ok s typ h s' r : TakeOwn s typ h = Ok (s', r) ↔
  ∃ p e, names s h p e ∧ typeIdx e = typ ∧ own e = true ∧ lendCount e = 0 ∧ s' = retire s h ∧ r = rep e.
Proof.
  unfold TakeOwn. split.
  - intros ([p e] & [Hn Ht]%lookupHandle_Ok & H)%obind_Ok. exists p, e. destruct (own e); [|done]. cbn [negb] in H.
    destruct (Z.eqb_spec (lendCount e) 0); [|done]. by injection H as <- <-.
  - intros (p & e & Hn & Ht & Ho & Hz & -> & ->). rewrite (proj2 (lookupHandle_Ok s typ h p e) (conj Hn Ht)). cbn [obind]. by rewrite Ho, Hz.
Qed.

Lemma DropOwned_Ok s h s' r : DropOwned s h = Ok (s', r) ↔ ∃ p e, names s h p e ∧ own e = true ∧ lendCount e = 0 ∧ s' = retire s h ∧ r = rep e.
Proof.
  unfold DropOwned, names. split.
  - intros H. destruct (entries (table s) !! h) as [[p|?|?|?|?|?]|]; try done. destruct (resources s !! p) as [e|] eqn:E; [|done].
    exists p, e. destruct (own e); [|done]. cbn [negb] in H. destruct (Z.eqb_spec (lendCount e) 0); [|done]. by injection H as <- <-.
  - intros (p & e & [-> ->] & Ho & Hz & -> & ->). by rewrite Ho, Hz.
Qed.

(** [Drop], of an own handle or of a borrow in its scope. *)
Lemma Drop_Ok s typ h s' : Drop s typ h = Ok s' ↔
  ∃ p e, names s h p e ∧ typeIdx e = typ ∧ lendCount e = 0 ∧
    (own e = true ∧ s' = retire s h ∨
     own e = false ∧ ∃ t n, borrowScope e = Some t ∧ numBorrows s !! t = Some n ∧ s' = retire (set_numBorrows s t (n - 1)) h).
Proof.
  unfold Drop. split.
  - intros ([p e] & [Hn Ht]%lookupHandle_Ok & H)%obind_Ok. exists p, e. destruct (Z.eqb_spec (lendCount e) 0); [|done]. cbn [negb] in H.
    split_and!; [done..|]. destruct (own e); cbn [negb] in H; [left; by injection H as <-|right]. split; [done|].
    destruct (borrowScope e) as [t|]; [|done]. destruct (numBorrows s !! t) as [n|] eqn:En; [|done]. exists t, n. by injection H as <-.
  - intros (p & e & Hn & Ht & Hz & H). rewrite (proj2 (lookupHandle_Ok s typ h p e) (conj Hn Ht)). cbn [obind]. rewrite Hz.
    destruct H as [[-> ->]|(-> & t & n & -> & -> & ->)]; done.
Qed.

Lemma take_after s h p e loans : hwf s → lends_ok s loans → names s h p e → own e = true → lendCount e = 0 → after s (retire s h) loans loans.
Proof. intros Hwf Hlo Hn Ho Hz. eapply retire_after; [done..| |done|done]. eapply hwf_retire; [done|done|by eapply own_unscoped]. Qed.

Lemma Drop_after s typ h s' loans : hwf s → lends_ok s loans → Drop s typ h = Ok s' → after s s' loans loans.
Proof.
  intros Hwf Hlo (p & e & Hn & Ht & Hz & H)%Drop_Ok. destruct H as [[Ho ->]|(Ho & t & n & Hs & Hb & ->)]; [by eapply take_after|].
  eapply (retire_after s h p e); [done..| |done|done]. by eapply hwf_retire_scoped.
Qed.

(** Adding and removing an entry of another kind. *)
Definition other (e : tableEntry) : Prop := match e with EResource _ => False | _ => True end.

Lemma other_after s t' loans : hwf s → lends_ok s loans → twf t' →
  (∀ h p, entries t' !! h = Some (EResource p) ↔ entries (table s) !! h = Some (EResource p)) → next (table s) ≤ next t' ≤ next (table s) + 1 →
  after s (mkHandles t' (resources s) (numBorrows s)) loans loans ∧ ∀ P, having (mkHandles t' (resources s) (numBorrows s)) P = having s P.
Proof.
  intros [Ht Hp Hi Hs Hc] [Hlc Hll] Ht' He Hn.
  assert (∀ P, having (mkHandles t' (resources s) (numBorrows s)) P = having s P) as Hh.
  { intros P. apply map_eq. intros h. apply option_eq. intros x. rewrite !having_lookup. cbn. destruct x as [p|?|?|?|?|?]; cbn; [by rewrite He|split; by intros [_ ?]..]. }
  split; [|done]. split; [split; cbn| | |done].
  - done.
  - intros h p Hh'. apply (Hp h). by apply He.
  - intros h h' p H1 H2. eapply Hi; by apply He.
  - done.
  - intros t n Hn'. rewrite (Hc t n Hn'). unfold scoped. by rewrite Hh.
  - split; [done|]. intros p Hin. destruct (Hll p Hin) as [h Hh']. exists h. by apply He.
  - intros h p e _ [H1 H2]. exists e. split; [|done]. split; [by apply He|done].
Qed.

Lemma addEntry_after s e s' h loans : hwf s → lends_ok s loans → other e → next (table s) < 2 ^ 32 - 1 → addEntry s e = (s', h) →
  after s s' loans loans ∧ ∀ P, having s' P = having s P.
Proof.
  intros Hwf Hlo He Hb. unfold addEntry. destruct (addEntryLocked (table s) e) as [t' h'] eqn:E. intros [= <- <-].
  destruct (addEntryLocked_spec _ _ _ _ (hw_table _ Hwf) Hb E) as (Ht & HN & _ & Hes & Hn). apply other_after; [done..| |lia].
  intros g p. rewrite Hes, lookup_insert_Some. split; [intros [[<- ->]|[_ ?]]; done|]. intros Hg. right. split; [|done]. intros ->. congruence.
Qed.

Lemma removeEntry_after s h e loans : hwf s → lends_ok s loans → entries (table s) !! h = Some e → other e →
  after s (retire s h) loans loans ∧ ∀ P, having (retire s h) P = having s P.
Proof.
  intros Hwf Hlo He Ho. apply other_after; [done..| | |cbn; lia].
  - eapply twf_retire; [apply Hwf|done].
  - intros g p. cbn. rewrite lookup_delete_Some. split; [by intros [_ ?]|]. intros Hg. split; [|done]. intros ->. rewrite He in Hg. by injection Hg as ->.
Qed.

(** * Histories *)

Inductive ledger_entry : Type := Minted (typ r : Z) | Consumed (typ r : Z).

(** The table; the handles that each synchronous call in flight has lent; the lenders of each subtask;
    the tasks that have ended; the handles lent by calls that failed before their release was
    deferred; and a record of the own handles made and used up. *)
Record hist := mkHist { hh : handles; calls : list (list (Z * Z)); subtasks : list (list nat); ended : list nat; lost : list (Z * Z); ledger : list ledger_entry }.

Definition hist0 : hist := mkHist (mkHandles newHandleTable [] []) [] [] [] [] [].

(** What happens to a table: handles are made ([H_own], [H_borrow], [H_scoped]), used up
    ([H_drop], [H_take], [H_drop_owned]) and lent, to a synchronous call, from [H_call] to
    [H_return], or to a subtask, from [H_subtask] to [H_deliver]; a call whose
    arguments do not lift fails and leaves what it has lent ([H_fail]); tasks begin and end; and
    entries of other kinds come and go. *)
Inductive hstep : hist → hist → Prop :=
| H_own s s' h typ r cs ss ed lo lg : NewOwn s typ r = (s', h) → hstep (mkHist s cs ss ed lo lg) (mkHist s' cs ss ed lo (Minted typ r :: lg))
| H_borrow s s' h typ r cs ss ed lo lg : NewBorrow s typ r = (s', h) → hstep (mkHist s cs ss ed lo lg) (mkHist s' cs ss ed lo lg)
| H_task s cs ss ed lo lg : hstep (mkHist s cs ss ed lo lg) (mkHist (mkHandles (table s) (resources s) (numBorrows s ++ [0])) cs ss ed lo lg)
| H_scoped s s' h typ r t cs ss ed lo lg : t ∉ ed → NewBorrowScoped s typ r t = Ok (s', h) → hstep (mkHist s cs ss ed lo lg) (mkHist s' cs ss ed lo lg)
| H_drop s s' typ h cs ss ed lo lg : Drop s typ h = Ok s' →
    hstep (mkHist s cs ss ed lo lg) (mkHist s' cs ss ed lo (match IsOwn s typ h, Rep s typ h with Ok true, Ok r => Consumed typ r :: lg | _, _ => lg end))
| H_take s s' typ h r cs ss ed lo lg : TakeOwn s typ h = Ok (s', r) → hstep (mkHist s cs ss ed lo lg) (mkHist s' cs ss ed lo (Consumed typ r :: lg))
| H_drop_owned s s' h p e r cs ss ed lo lg : DropOwned s h = Ok (s', r) → names s h p e →
    hstep (mkHist s cs ss ed lo lg) (mkHist s' cs ss ed lo (Consumed (typeIdx e) r :: lg))
| H_end s t cs ss ed lo lg : numBorrows s !! t = Some 0 → hstep (mkHist s cs ss ed lo lg) (mkHist s cs ss (t :: ed) lo lg)
| H_call s cs ss ed lo lg : hstep (mkHist s cs ss ed lo lg) (mkHist s (cs ++ [[]]) ss ed lo lg)
| H_lend s s' typ h i lent cs ss ed lo lg : cs !! i = Some lent → Lend s typ h = Ok s' →
    hstep (mkHist s cs ss ed lo lg) (mkHist s' (<[i := lent ++ [(typ, h)]]> cs) ss ed lo lg)
| H_return s i lent cs ss ed lo lg : cs !! i = Some lent → hstep (mkHist s cs ss ed lo lg) (mkHist (release s lent) (delete i cs) ss ed lo lg)
| H_fail s i lent cs ss ed lo lg : cs !! i = Some lent → hstep (mkHist s cs ss ed lo lg) (mkHist s (delete i cs) ss ed (lent ++ lo) lg)
| H_subtask s cs ss ed lo lg : hstep (mkHist s cs ss ed lo lg) (mkHist s cs (ss ++ [[]]) ed lo lg)
| H_add_lender s s' typ h p i lenders cs ss ed lo lg : ss !! i = Some lenders → entryForLend s typ h = Ok p → bump s p 1 = Ok s' →
    hstep (mkHist s cs ss ed lo lg) (mkHist s' cs (<[i := lenders ++ [p]]> ss) ed lo lg)
| H_deliver s s' i lenders cs ss ed lo lg : ss !! i = Some lenders → deliver s lenders = Ok s' → hstep (mkHist s cs ss ed lo lg) (mkHist s' cs (delete i ss) ed lo lg)
| H_entry s s' e h cs ss ed lo lg : other e → addEntry s e = (s', h) → hstep (mkHist s cs ss ed lo lg) (mkHist s' cs ss ed lo lg)
| H_remove s t' h e cs ss ed lo lg : removeEntry (table s) h = (t', Some e) → other e →
    hstep (mkHist s cs ss ed lo lg) (mkHist (mkHandles t' (resources s) (numBorrows s)) cs ss ed lo lg).

(** [n] steps from the empty table. *)
Inductive hreach : nat → hist → Prop :=
| hreach_0 : hreach 0 hist0
| hreach_S n x y : hreach n x → hstep x y → hreach (S n) y.

(** ** The invariant of a history *)

Definition is_owned (typ r : Z) (e : resourceEntry) : bool := own e && (typeIdx e =? typ) && (rep e =? r).
Definition entry_is (typ r : Z) (minted : bool) (l : ledger_entry) : Prop :=
  match l with Minted a b => minted = true ∧ a = typ ∧ b = r | Consumed a b => minted = false ∧ a = typ ∧ b = r end.
#[global] Instance entry_is_dec typ r b l : Decision (entry_is typ r b l).
Proof. destruct l; cbn; apply _. Defined.

(** How often a resource was made the content of an own handle, less how often one was used up. *)
Definition balance (lg : list ledger_entry) (typ r : Z) : Z :=
  Z.of_nat (length (filter (entry_is typ r true) lg)) - Z.of_nat (length (filter (entry_is typ r false) lg)).

(** Every loan, by the pointer behind it. *)
Definition all_loans (s : handles) (x : hist) (ptrs : list (list nat)) : Prop :=
  Forall2 (Forall2 (lent_as s)) (lost x :: calls x) ptrs ∧ lends_ok s (concat ptrs ++ concat (subtasks x)).

Record hinv (x : hist) : Prop := {
  hi_wf : hwf (hh x);
  hi_loans : ∃ ptrs, all_loans (hh x) x ptrs;
  hi_ended : ∀ t, t ∈ ended x → numBorrows (hh x) !! t = Some 0;
  hi_ledger : ∀ typ r, Z.of_nat (size (having (hh x) (is_owned typ r))) = balance (ledger x) typ r
}.

(** ** Preservation *)

Lemma concat_insert_snoc {A} (L : list (list A)) i l x : L !! i = Some l → concat (<[i := l ++ [x]]> L) ≡ₚ x :: concat L.
Proof.
  intros H. rewrite insert_take_drop by (by eapply lookup_lt_Some). rewrite <- (take_drop_middle L i l H) at 3. rewrite !concat_app. cbn [concat].
  rewrite <- (assoc_L app l). cbn [app]. rewrite <- Permutation_middle. rewrite (assoc_L app). rewrite <- Permutation_middle. by rewrite <- (assoc_L app).
Qed.

Lemma concat_delete {A} (L : list (list A)) i l : L !! i = Some l → concat L ≡ₚ l ++ concat (delete i L).
Proof.
  intros H. rewrite <- (take_drop_middle L i l H) at 1. rewrite delete_take_drop, !concat_app. cbn [concat]. rewrite (assoc_L app), (Permutation_app_comm _ l). by rewrite <- (assoc_L app).
Qed.

Lemma Forall2_lent_keeps s s' cs ptrs loans : keeps s s' loans → (∀ p, p ∈ concat ptrs → p ∈ loans) →
  Forall2 (Forall2 (lent_as s)) cs ptrs → Forall2 (Forall2 (lent_as s')) cs ptrs.
Proof.
  intros Hk Hs H. induction H as [|lent ps cs ptrs Hx _ IH]; constructor.
  - eapply lent_as_keeps_all; [exact Hk| |done]. intros p Hp. apply Hs. cbn. apply elem_of_app. by left.
  - apply IH. intros p Hp. apply Hs. cbn. apply elem_of_app. by right.
Qed.

Lemma all_loans_after s s' x y ptrs : all_loans s x ptrs → calls y = calls x → subtasks y = subtasks x → lost y = lost x →
  after s s' (concat ptrs ++ concat (subtasks x)) (concat ptrs ++ concat (subtasks x)) → all_loans s' y ptrs.
Proof.
  intros [H1 H2] Hc Hs Hl [Hwf Hlo Hk _]. split; [|by rewrite Hs]. rewrite Hc, Hl. eapply Forall2_lent_keeps; [exact Hk| |done].
  intros p Hp. apply elem_of_app. by left.
Qed.

(** An operation that makes, keeps or uses up handles, but lends nothing. *)
Lemma hinv_simple s s' cs ss ed lo lg lg' : hinv (mkHist s cs ss ed lo lg) →
  (∀ loans, lends_ok s loans → after s s' loans loans) → (∀ t, t ∈ ed → numBorrows s' !! t = numBorrows s !! t) →
  (∀ typ r, Z.of_nat (size (having s' (is_owned typ r))) - Z.of_nat (size (having s (is_owned typ r))) = balance lg' typ r - balance lg typ r) →
  hinv (mkHist s' cs ss ed lo lg').
Proof.
  intros [Hwf (ptrs & Hl) He Hg] Ha Hb Hlg. cbn in *. pose proof (Ha _ (proj2 Hl)) as Haf. split; cbn.
  - apply Haf.
  - exists ptrs. by eapply all_loans_after.
  - intros t Ht. rewrite Hb by done. by apply He.
  - intros typ r. specialize (Hg typ r). specialize (Hlg typ r). lia.
Qed.

Lemma balance_cons e lg typ r : balance (e :: lg) typ r - balance lg typ r =
  (if decide (entry_is typ r true e) then 1 else 0) - (if decide (entry_is typ r false e) then 1 else 0).
Proof. unfold balance. rewrite !filter_cons. repeat case_decide; cbn; lia. Qed.

Lemma entry_is_decide (P : resourceEntry → bool) e typ r : own e = true →
  (if is_owned typ r e then 1 else 0) = (if decide (typeIdx e = typ ∧ rep e = r) then 1 else 0).
Proof.
  intros Ho. unfold is_owned. rewrite Ho. cbn [andb]. destruct (Z.eqb_spec (typeIdx e) typ), (Z.eqb_spec (rep e) r); case_decide; cbn; try done; lia.
Qed.

Lemma having_new_size s e s' h P : hwf s → next (table s) < 2 ^ 32 - 1 → newResource s e = (s', h) →
  Z.of_nat (size (having s' P)) = Z.of_nat (size (having s P)) + if P e then 1 else 0.
Proof.
  intros Hwf Hb Hn. destruct (newResource_spec s e s' h Hwf Hb Hn) as (HN & _ & _ & _ & _ & _ & _ & Hsc). rewrite Hsc. destruct (P e); [|lia].
  rewrite map_size_insert_None; [lia|]. destruct (having s P !! h) eqn:E; [|done]. apply having_lookup in E as [E _]. congruence.
Qed.

Lemma having_retire_size s h p e P : names s h p e → Z.of_nat (size (having (retire s h) P)) = Z.of_nat (size (having s P)) - if P e then 1 else 0.
Proof.
  intros Hn. pose proof (names_tagged s h p e P Hn) as Hl. rewrite having_retire. destruct (P e).
  - rewrite map_size_delete_Some by (by eexists). assert (size (having s P) ≠ 0%nat) by (rewrite map_size_ne_0_lookup; eauto). lia.
  - rewrite delete_id by done. lia.
Qed.

Lemma hinv_new s e s' h cs ss ed lo lg lg' : hinv (mkHist s cs ss ed lo lg) → next (table s) < 2 ^ 32 - 1 → lendCount e = 0 → borrowScope e = None →
  newResource s e = (s', h) →
  (∀ typ r, (if is_owned typ r e then 1 else 0) = balance lg' typ r - balance lg typ r) → hinv (mkHist s' cs ss ed lo lg').
Proof.
  intros Hi Hb Hz Hs Hn Hg. pose proof (hi_wf _ Hi) as Hwf. cbn in Hwf.
  destruct (newResource_spec s e s' h Hwf Hb Hn) as (_ & _ & _ & Hnb & _). eapply hinv_simple; [done| | |].
  - intros loans Hlo. eapply (new_after s e s'); [done..|]. by eapply hwf_new.
  - intros t _. by rewrite Hnb.
  - intros typ r. rewrite (having_new_size s e s' h _ Hwf Hb Hn), <- Hg. lia.
Qed.

Lemma hinv_consume s h p e cs ss ed lo lg : hinv (mkHist s cs ss ed lo lg) → names s h p e → own e = true → lendCount e = 0 →
  hinv (mkHist (retire s h) cs ss ed lo (Consumed (typeIdx e) (rep e) :: lg)).
Proof.
  intros Hi Hn Ho Hz. pose proof (hi_wf _ Hi) as Hwf. cbn in Hwf. eapply hinv_simple; [done| |done|].
  - intros loans Hlo. by eapply take_after.
  - intros typ r. rewrite (having_retire_size s h p e _ Hn), balance_cons, (entry_is_decide (λ _, true)) by done. cbn.
    repeat case_decide; intuition (try done; try lia).
Qed.

Lemma hinv_scoped s s' h typ r t cs ss ed lo lg : hinv (mkHist s cs ss ed lo lg) → next (table s) < 2 ^ 32 - 1 → t ∉ ed →
  NewBorrowScoped s typ r t = Ok (s', h) → hinv (mkHist s' cs ss ed lo lg).
Proof.
  intros Hi Hb Ht Hn. pose proof (hi_wf _ Hi) as Hwf. cbn in Hwf. pose proof (hwf_new_scoped s typ r t s' h Hwf Hb Hn) as Hwf'.
  destruct (NewBorrowScoped_Ok _ _ _ _ _ _ Hn) as (n & s1 & En & Hn1 & ->). set (e := mkResource typ r false 0 (Some t)) in *.
  eapply hinv_simple; [done| | |].
  - intros loans Hlo. by eapply (new_after s e s1).
  - intros u Hu. cbn. rewrite list_lookup_insert_ne; [done|]. by intros ->.
  - intros typ' r'. change (having (mkHandles (table s1) (resources s1) (<[t := n + 1]> (numBorrows s)))) with (having s1).
    rewrite (having_new_size s e s1 h _ Hwf Hb Hn1). cbn. lia.
Qed.

Lemma hinv_drop s s' typ h cs ss ed lo lg : hinv (mkHist s cs ss ed lo lg) → Drop s typ h = Ok s' →
  hinv (mkHist s' cs ss ed lo (match IsOwn s typ h, Rep s typ h with Ok true, Ok r => Consumed typ r :: lg | _, _ => lg end)).
Proof.
  intros Hi H. pose proof (hi_wf _ Hi) as Hwf. cbn in Hwf. pose proof H as (p & e & Hn & Ht & Hz & Hd)%Drop_Ok.
  unfold IsOwn, Rep. rewrite (proj2 (lookupHandle_Ok s typ h p e) (conj Hn Ht)). cbn [obind].
  destruct Hd as [[Ho ->]|(Ho & t & n & Hs & Hb & ->)]; rewrite Ho.
  - rewrite <- Ht. by eapply hinv_consume.
  - eapply hinv_simple; [done| | |].
    + intros loans Hlo. by eapply Drop_after.
    + intros u Hu. cbn. rewrite list_lookup_insert_ne; [done|]. intros ->.
      (* the task of a scoped borrow has not ended *)
      pose proof (hi_ended _ Hi u Hu) as Hzero. cbn in Hzero. rewrite Hb in Hzero. injection Hzero as ->.
      pose proof (hw_count _ Hwf u 0 Hb) as Hc. assert (size (scoped s u) = 0%nat) as Hsz by lia. apply map_size_empty_iff in Hsz.
      pose proof (names_tagged s h p e (in_scope u) Hn) as Hl. unfold scoped in Hsz. rewrite Hsz, lookup_empty in Hl. unfold in_scope in Hl.
      by rewrite bool_decide_true in Hl.
    + intros typ' r. change (having (retire (set_numBorrows s t (n - 1)) h)) with (having (retire s h)).
      rewrite (having_retire_size s h p e _ Hn). assert (is_owned typ' r e = false) as -> by (unfold is_owned; by rewrite Ho). cbn. lia.
Qed.

Lemma is_owned_ignores typ r : ignores_lends (is_owned typ r).
Proof. done. Qed.

(** Lending changes the loans, and nothing else. *)
Lemma set_lends_having s p e n typ r : resources s !! p = Some e → having (set_lends s p e n) (is_owned typ r) = having s (is_owned typ r).
Proof. apply having_set_lends, is_owned_ignores. Qed.

Lemma Unlend_having s typ h s' typ' r : Unlend s typ h = Ok s' → having s' (is_owned typ' r) = having s (is_owned typ' r) ∧ numBorrows s' = numBorrows s.
Proof.
  unfold Unlend. intros ([p e] & [[_ He] _]%lookupHandle_Ok & H)%obind_Ok. destruct (_ =? 0); [done|]. injection H as <-. split; [by apply set_lends_having|done].
Qed.

Lemma release_having lent : ∀ s typ r, having (release s lent) (is_owned typ r) = having s (is_owned typ r) ∧ numBorrows (release s lent) = numBorrows s.
Proof.
  induction lent as [|[t h] lent IH]; intros s typ r; cbn [release]; [done|].
  destruct (Unlend s t h) as [s1| | |] eqn:E; try apply IH. destruct (Unlend_having _ _ _ _ typ r E) as [E1 E2], (IH s1 typ r) as [E3 E4]. split; congruence.
Qed.

Lemma bump_having s p d s' typ r : bump s p d = Ok s' → having s' (is_owned typ r) = having s (is_owned typ r) ∧ numBorrows s' = numBorrows s.
Proof. unfold bump. destruct (resources s !! p) as [e|] eqn:He; [|done]. intros [= <-]. split; [by apply set_lends_having|done]. Qed.

Lemma deliver_having ps : ∀ s s' typ r, deliver s ps = Ok s' → having s' (is_owned typ r) = having s (is_owned typ r) ∧ numBorrows s' = numBorrows s.
Proof.
  induction ps as [|p ps IH]; intros s s' typ r; cbn [deliver]; [by intros [= ->]|]. intros (s1 & E & H)%obind_Ok.
  destruct (bump_having _ _ _ _ typ r E) as [E1 E2], (IH _ _ typ r H) as [E3 E4]. split; congruence.
Qed.

(** The loans move from one list to another, on a table that keeps what is lent. *)
Lemma hinv_loans s s' cs cs' ss ss' ed lo lo' lg : hinv (mkHist s cs ss ed lo lg) → hwf s' →
  (∀ ptrs, all_loans s (mkHist s cs ss ed lo lg) ptrs → ∃ ptrs', all_loans s' (mkHist s' cs' ss' ed lo' lg) ptrs') →
  (∀ typ r, having s' (is_owned typ r) = having s (is_owned typ r)) → numBorrows s' = numBorrows s → hinv (mkHist s' cs' ss' ed lo' lg).
Proof.
  intros [_ (ptrs & Hl) He Hg] Hwf Ha Hh Hb. split; cbn in *; [done|by eapply Ha| |].
  - intros t Ht. rewrite Hb. by apply He.
  - intros typ r. rewrite Hh. apply Hg.
Qed.

Lemma hinv_lend s s' typ h i lent cs ss ed lo lg : hinv (mkHist s cs ss ed lo lg) → cs !! i = Some lent → Lend s typ h = Ok s' →
  hinv (mkHist s' (<[i := lent ++ [(typ, h)]]> cs) ss ed lo lg).
Proof.
  intros Hi Hc H. pose proof (hi_wf _ Hi) as Hwf. cbn in Hwf. pose proof H as ([p e] & [[Hh He] _]%lookupHandle_Ok & [= Hs'])%obind_Ok.
  eapply hinv_loans; [done| | | |by rewrite <- Hs'].
  - rewrite <- Hs'. by apply hwf_set_lends.
  - intros ptrs [Hcs Hlo]. cbn in *. change ((lo :: cs) !! S i = Some lent) in Hc. destruct (Forall2_lookup_l _ _ _ _ _ Hcs Hc) as (ps & Hp & Hps).
    destruct (Lend_Ok s typ h s' _ Hwf Hlo H) as (q & Hq & [_ Hlo' Hk _]). exists (<[S i := ps ++ [q]]> ptrs).
    assert (Forall2 (Forall2 (lent_as s')) (lo :: cs) ptrs) as Hcs'.
    { eapply Forall2_lent_keeps; [exact Hk| |done]. intros x Hx. right. apply elem_of_app. by left. }
    split; cbn.
    + change (lo :: <[i := lent ++ [(typ, h)]]> cs) with (<[S i := lent ++ [(typ, h)]]> (lo :: cs)). apply Forall2_insert; [done|]. apply Forall2_app; [|by repeat constructor].
      destruct (Forall2_lookup_l _ _ _ _ _ Hcs' Hc) as (ps' & Hp' & Hps'). congruence.
    + eapply lends_ok_perm; [|exact Hlo']. by rewrite (concat_insert_snoc ptrs (S i) ps q Hp).
  - intros. rewrite <- Hs'. by apply set_lends_having.
Qed.

Lemma hinv_return s i lent cs ss ed lo lg : hinv (mkHist s cs ss ed lo lg) → cs !! i = Some lent → hinv (mkHist (release s lent) (delete i cs) ss ed lo lg).
Proof.
  intros Hi Hc. pose proof Hi as [Hwf (ptrs & Hcs & Hlo) _ _]. cbn in *.
  change ((lo :: cs) !! S i = Some lent) in Hc. destruct (Forall2_lookup_l _ _ _ _ _ Hcs Hc) as (ps & Hp & Hps).
  assert (lends_ok s (ps ++ concat (delete (S i) ptrs) ++ concat ss)) as Hlo1.
  { eapply lends_ok_perm; [|exact Hlo]. by rewrite (concat_delete ptrs (S i) ps Hp), <- (assoc_L app). }
  destruct (release_all_Ok lent s ps _ Hwf Hlo1 Hps) as (s' & _ & Hs' & Hwf' & Hlo' & Hk & _). rewrite <- Hs' in *.
  eapply hinv_loans; [done|done| | |].
  - intros _ _. exists (delete (S i) ptrs). split; cbn; [|done]. change (lo :: delete i cs) with (delete (S i) (lo :: cs)). eapply Forall2_lent_keeps; [exact Hk| |by apply Forall2_delete].
    intros x Hx. apply elem_of_app. by left.
  - intros. by apply release_having.
  - by apply (release_having lent s 0 0).
Qed.

(** A call that fails keeps its loans, on no list but that of the lost ones. *)
Lemma hinv_fail s i lent cs ss ed lo lg : hinv (mkHist s cs ss ed lo lg) → cs !! i = Some lent → hinv (mkHist s (delete i cs) ss ed (lent ++ lo) lg).
Proof.
  intros Hi Hc. eapply hinv_loans; [done|by apply hi_wf in Hi| |done|done]. intros ptrs [Hcs Hlo]. cbn in *.
  inversion Hcs as [|? pl ? ptrs' Hpl Hcs']; subst. destruct (Forall2_lookup_l _ _ _ _ _ Hcs' Hc) as (ps & Hp & Hps).
  exists ((ps ++ pl) :: delete i ptrs'). split; cbn.
  - constructor; [by apply Forall2_app|by apply Forall2_delete].
  - eapply lends_ok_perm; [|exact Hlo]. cbn. rewrite (concat_delete ptrs' i ps Hp). by rewrite !(assoc_L app), (Permutation_app_comm pl ps).
Qed.

Lemma hinv_add_lender s s' typ h p i lenders cs ss ed lo lg : hinv (mkHist s cs ss ed lo lg) → ss !! i = Some lenders → entryForLend s typ h = Ok p →
  bump s p 1 = Ok s' → hinv (mkHist s' cs (<[i := lenders ++ [p]]> ss) ed lo lg).
Proof.
  intros Hi Hss Hf H. pose proof (hi_wf _ Hi) as Hwf. cbn in Hwf. unfold entryForLend in Hf.
  apply obind_Ok in Hf as ([q e] & [[Hh He] _]%lookupHandle_Ok & [= ->]). pose proof H as H'. unfold bump in H. rewrite He in H. injection H as Hs'.
  eapply hinv_loans; [done| | | |by rewrite <- Hs'].
  - rewrite <- Hs'. by apply hwf_set_lends.
  - intros ptrs [Hcs Hlo]. cbn in *. exists ptrs. destruct (lend_after s h p e _ Hwf Hlo (conj Hh He)) as [_ Hlo' Hk _]. rewrite Hs' in Hlo', Hk. split; cbn.
    + eapply Forall2_lent_keeps; [exact Hk| |done]. intros x Hx. right. apply elem_of_app. by left.
    + eapply lends_ok_perm; [|exact Hlo']. rewrite (concat_insert_snoc ss i lenders p Hss). by rewrite <- Permutation_middle.
  - intros. by eapply bump_having.
Qed.

Lemma hinv_deliver s s' i lenders cs ss ed lo lg : hinv (mkHist s cs ss ed lo lg) → ss !! i = Some lenders → deliver s lenders = Ok s' →
  hinv (mkHist s' cs (delete i ss) ed lo lg).
Proof.
  intros Hi Hss H. pose proof Hi as [Hwf (ptrs & Hcs & Hlo) _ _]. cbn in *.
  assert (lends_ok s (lenders ++ concat ptrs ++ concat (delete i ss))) as Hlo1.
  { eapply lends_ok_perm; [|exact Hlo]. rewrite (concat_delete ss i lenders Hss), !(assoc_L app). by rewrite (Permutation_app_comm (concat ptrs) lenders). }
  destruct (deliver_Ok lenders s _ Hwf Hlo1) as (s1 & E & Hwf' & Hlo' & Hk & _). rewrite H in E. injection E as <-.
  eapply hinv_loans; [done|done| | |].
  - intros _ _. exists ptrs. split; cbn; [|done]. eapply Forall2_lent_keeps; [exact Hk| |done]. intros x Hx. apply elem_of_app. by left.
  - intros. by eapply deliver_having.
  - by eapply (deliver_having lenders s s' 0 0).
Qed.

(** An empty list of loans more. *)
Lemma hinv_call s cs ss ed lo lg : hinv (mkHist s cs ss ed lo lg) → hinv (mkHist s (cs ++ [[]]) ss ed lo lg).
Proof.
  intros Hi. eapply hinv_loans; [done|by apply hi_wf in Hi| |done|done]. intros ptrs [Hcs Hlo]. exists (ptrs ++ [[]]). cbn in *. split.
  - refine (Forall2_app (l1:=lo :: cs) (l2:=[[]]) _ _); [exact Hcs|]. by repeat constructor.
  - cbn. rewrite concat_app. cbn. by rewrite app_nil_r.
Qed.

Lemma hinv_subtask s cs ss ed lo lg : hinv (mkHist s cs ss ed lo lg) → hinv (mkHist s cs (ss ++ [[]]) ed lo lg).
Proof.
  intros Hi. eapply hinv_loans; [done|by apply hi_wf in Hi| |done|done]. intros ptrs [Hcs Hlo]. exists ptrs. cbn in *. split; [done|].
  cbn. rewrite concat_app. cbn. by rewrite app_nil_r.
Qed.

Lemma hinv_task s cs ss ed lo lg : hinv (mkHist s cs ss ed lo lg) → hinv (mkHist (mkHandles (table s) (resources s) (numBorrows s ++ [0])) cs ss ed lo lg).
Proof.
  intros [[Ht Hp Hi Hs Hc] (ptrs & Hcs & Hlo) He Hg]. cbn in *. split; cbn; [split; cbn|exists ptrs; split; [done|split; apply Hlo]| |done]; try done.
  - intros p e t H1 H2. rewrite length_app. destruct (Hs p e t H1 H2). split; [done|lia].
  - intros t n [Hn|[Hlen Hn]]%lookup_app_Some; [by apply Hc|]. apply list_lookup_singleton_Some in Hn as [Ht0 <-].
    change 0 with (Z.of_nat 0). f_equal. symmetry. apply map_size_empty_iff. apply map_eq. intros h. rewrite lookup_empty. apply eq_None_not_Some. intros [x Hx].
    apply having_lookup in Hx as [Hx Hx2]. destruct x as [p|?|?|?|?|?]; try done. cbn in *. destruct (resources s !! p) as [e|] eqn:E; [|done].
    unfold in_scope in Hx2. apply bool_decide_eq_true in Hx2. destruct (Hs p e t E Hx2). lia.
  - intros t Ht'. apply lookup_app_l_Some. by apply He.
Qed.

Lemma hstep_inv x y : hinv x → next (table (hh x)) < 2 ^ 32 - 1 → hstep x y → hinv y.
Proof.
  intros Hi Hb Hst. destruct Hst; cbn in Hb.
  - eapply (hinv_new s (mkResource typ r true 0 None)); [done..|]. intros typ' r'. rewrite balance_cons, (entry_is_decide (λ _, true)) by done. cbn. repeat case_decide; intuition (try done; try lia).
  - eapply (hinv_new s (mkResource typ r false 0 None)); [done..|]. intros typ' r'. cbn. lia.
  - by apply hinv_task.
  - by eapply hinv_scoped.
  - by eapply hinv_drop.
  - apply TakeOwn_Ok in H as (p & e & Hn & <- & Ho & Hz & -> & ->). by eapply hinv_consume.
  - apply DropOwned_Ok in H as (q & x & Hn & Ho & Hz & -> & ->). destruct (names_fun _ _ _ _ _ _ Hn H0) as [-> ->]. by eapply hinv_consume.
  - destruct Hi as [Hwf Hl He Hg]. split; cbn in *; [done..| |done]. intros u [->|Hu]%elem_of_cons; [done|by apply He].
  - by apply hinv_call.
  - by eapply hinv_lend.
  - by eapply hinv_return.
  - by eapply hinv_fail.
  - by apply hinv_subtask.
  - by eapply hinv_add_lender.
  - by eapply hinv_deliver.
  - pose proof Hi as [Hwf (ptrs & Hl) _ _]. cbn in Hwf, Hl. pose proof (addEntry_after s e s' h _ Hwf (proj2 Hl) H Hb H0) as [_ Hh].
    eapply hinv_simple; [done| | |].
    + intros loans Hlo. by eapply addEntry_after.
    + intros u _. unfold addEntry in H0. destruct (addEntryLocked _ _). by injection H0 as <- _.
    + intros typ r. rewrite Hh. lia.
  - unfold removeEntry in H. destruct (entries (table s) !! h) as [e'|] eqn:E; [|done]. injection H as <- ->.
    pose proof Hi as [Hwf (ptrs & Hl) _ _]. cbn in Hwf, Hl. destruct (removeEntry_after s h e _ Hwf (proj2 Hl) E H0) as [_ Hh].
    eapply hinv_simple; [done| |done|].
    + intros loans Hlo. by eapply (removeEntry_after s h e loans).
    + intros typ r. change (mkHandles _ (resources s) (numBorrows s)) with (retire s h). rewrite Hh. lia.
Qed.

(** A step takes at most one index more. *)
Lemma hstep_next x y : hinv x → next (table (hh x)) < 2 ^ 32 - 1 → hstep x y → next (table (hh y)) ≤ next (table (hh x)) + 1.
Proof.
  intros Hi Hb Hst. pose proof (twf_next _ (hw_table _ (hi_wf _ Hi))) as Hn.
  assert (∀ s e s' h, 0 ≤ next (table s) < 2 ^ 32 - 1 → newResource s e = (s', h) → next (table s') ≤ next (table s) + 1) as Hnew.
  { intros s e s' h Hs H. unfold newResource in H. pose proof (addEntryLocked_next (table s) (EResource (length (resources s))) Hs).
    destruct (addEntryLocked _ _). by injection H as <- _. }
  destruct Hst; cbn in *; try lia.
  - eapply Hnew; [|done]. lia.
  - eapply Hnew; [|done]. lia.
  - apply NewBorrowScoped_Ok in H0 as (n & s1 & _ & H0 & ->). cbn. eapply Hnew; [|done]. lia.
  - apply Drop_Ok in H as (p & e & _ & _ & _ & [[_ ->]|(_ & t & n & _ & _ & ->)]); cbn; lia.
  - apply TakeOwn_Ok in H as (p & e & _ & _ & _ & _ & -> & _). cbn. lia.
  - apply DropOwned_Ok in H as (q & e' & _ & _ & _ & -> & _). cbn. lia.
  - unfold Lend in H0. apply obind_Ok in H0 as ([p e] & _ & [= <-]). cbn. lia.
  - destruct Hi as [Hwf (ptrs & Hcs & Hlo) _ _]. cbn in *. change ((lo :: cs) !! S i = Some lent) in H. destruct (Forall2_lookup_l _ _ _ _ _ Hcs H) as (ps & Hp & Hps).
    destruct (release_all_Ok lent s ps (concat (delete (S i) ptrs) ++ concat ss) Hwf) as (s' & _ & -> & _ & _ & _ & ->); [|done|lia].
    eapply lends_ok_perm; [|exact Hlo]. by rewrite (concat_delete ptrs (S i) ps Hp), <- (assoc_L app).
  - unfold bump in H1. destruct (resources s !! p); [|done]. injection H1 as <-. cbn. lia.
  - destruct Hi as [Hwf (ptrs & Hcs & Hlo) _ _]. cbn in *.
    destruct (deliver_Ok lenders s (concat ptrs ++ concat (delete i ss)) Hwf) as (s1 & E & _ & _ & _ & Hn1); [|rewrite E in H0; injection H0 as <-; lia].
    eapply lends_ok_perm; [|exact Hlo]. rewrite (concat_delete ss i lenders H), !(assoc_L app). by rewrite (Permutation_app_comm (concat ptrs) lenders).
  - unfold addEntry in H0. pose proof (addEntryLocked_next (table s) e ltac:(lia)). destruct (addEntryLocked _ _). by injection H0 as <- _.
  - unfold removeEntry in H. destruct (entries (table s) !! h); [|done]. injection H as <- _. cbn. lia.
Qed.

Lemma hreach_inv n x : hreach n x → Z.of_nat n < 2 ^ 32 - 1 → hinv x ∧ next (table (hh x)) ≤ 1 + Z.of_nat n.
Proof.
  induction 1 as [|n x y Hx IH Hst]; intros Hn.
  - split; [|cbn; lia]. split; cbn; [split; cbn|exists [[]]| |]; try done.
    + apply twf_new.
    + split; [by repeat constructor|]. split; cbn; [done|by intros p ?%elem_of_nil].
    + by intros t ?%elem_of_nil.
  - destruct IH as [Hi Hb]; [lia|]. split; [eapply hstep_inv; [done|lia|done]|]. pose proof (hstep_next x y Hi ltac:(lia) Hst). lia.
Qed.

(** * What the counters count *)

Lemma in_concat_iff {A} (L : list (list A)) x : x ∈ concat L ↔ ∃ l, x ∈ l ∧ l ∈ L.
Proof.
  induction L as [|l L IH]; cbn; [split; [by intros ?%elem_of_nil|by intros (l & _ & ?%elem_of_nil)]|].
  rewrite elem_of_app, IH. setoid_rewrite elem_of_cons. split; [intros [?|(l' & ? & ?)]; eauto|intros (l' & ? & [->|?]); eauto].
Qed.

Lemma filter_none {A} (P : A → Prop) `{∀ x, Decision (P x)} l : (∀ x, x ∈ l → ¬ P x) → filter P l = [].
Proof.
  intros Hl. induction l as [|x l IH]; [done|]. rewrite filter_cons_False by (apply Hl; by left). apply IH. intros y Hy. apply Hl. by right.
Qed.

(** The loans on a handle: by the calls in flight, by the subtasks through the pointer, and
    those that failed calls have left. *)
Definition loans_on (x : hist) (h : Z) (p : nat) : Z :=
  Z.of_nat (length (filter (λ y, y.2 = h) (concat (calls x)))) + nloans p (concat (subtasks x)) + Z.of_nat (length (filter (λ y, y.2 = h) (lost x))).

Lemma calls_count s lent ps h p e : hwf s → names s h p e → Forall2 (lent_as s) lent ps →
  Z.of_nat (length (filter (λ y, y.2 = h) lent)) = nloans p ps.
Proof.
  intros Hwf [Hh He]. induction 1 as [|y q lent ps (e' & [Hq He'] & _) _ IH]; [done|]. rewrite filter_cons, nloans_cons.
  assert (y.2 = h ↔ q = p) as Hiff by (split; [intros <-; rewrite Hq in Hh; by injection Hh|intros ->; by eapply (hw_inj s Hwf)]).
  repeat case_decide; try tauto; cbn; lia.
Qed.

Lemma Forall2_concat {A B} (R : A → B → Prop) L L' : Forall2 (Forall2 R) L L' → Forall2 R (concat L) (concat L').
Proof. induction 1; cbn; [constructor|]. by apply Forall2_app. Qed.

Lemma hinv_loans_on x h p e : hinv x → names (hh x) h p e → lendCount e = loans_on x h p.
Proof.
  intros [Hwf (ptrs & Hcs & Hlo) _ _] Hn. rewrite (lo_count _ _ Hlo p e (proj2 Hn)). unfold loans_on, nloans. rewrite filter_app, length_app.
  pose proof (calls_count _ _ _ h p e Hwf Hn (Forall2_concat _ _ _ Hcs)) as Hc. unfold nloans in Hc. cbn [concat] in Hc. rewrite filter_app, length_app in Hc. lia.
Qed.

(** A handle that a call has lent is in the table, under the type it was lent as. *)
Lemma hinv_lent x lent typ h : hinv x → lent ∈ lost x :: calls x → (typ, h) ∈ lent → ∃ p e, names (hh x) h p e ∧ typeIdx e = typ ∧ 0 < lendCount e.
Proof.
  intros [Hwf (ptrs & Hcs & Hlo) _ _] [i Hl]%list_elem_of_lookup_1 [j Hj]%list_elem_of_lookup_1. destruct (Forall2_lookup_l _ _ _ _ _ Hcs Hl) as (ps & Hp & Hps).
  destruct (Forall2_lookup_l _ _ _ _ _ Hps Hj) as (p & Hpj & e & Hn' & Ht). exists p, e. split_and!; [done..|].
  rewrite (lo_count _ _ Hlo p e (proj2 Hn')). apply nloans_pos, elem_of_app. left. apply in_concat_iff.
  exists ps. split; by eapply list_elem_of_lookup_2.
Qed.

(** C26. A handle's counter of loans is exact: in every state that fewer than 2^32 - 1 operations
    reach, the count of a handle is the number of times that synchronous calls in flight have
    it lent, plus the number of times that it lends to subtasks whose result is not delivered yet,
    plus the number of times that a call lent it that failed to lift a later argument, which
    nothing releases.  Everything that is lent, by any of the three, is still in the table, under
    the type it was lent as; and where no call has failed, the handle that no call and no subtask
    has can be taken. *)
Theorem loans_counted n x : hreach n x → Z.of_nat n < 2 ^ 32 - 1 →
  (∀ h p e, names (hh x) h p e → lendCount e = loans_on x h p) ∧
  (∀ lent typ h, lent ∈ calls x ∨ lent = lost x → (typ, h) ∈ lent → ∃ p e, names (hh x) h p e ∧ typeIdx e = typ ∧ 0 < lendCount e) ∧
  (∀ lenders p, lenders ∈ subtasks x → p ∈ lenders → ∃ h e, names (hh x) h p e ∧ 0 < lendCount e) ∧
  (∀ h p e, names (hh x) h p e → own e = true → lost x = [] →
    (∀ lent y, lent ∈ calls x → y ∈ lent → y.2 ≠ h) → (∀ lenders, lenders ∈ subtasks x → p ∉ lenders) →
    TakeOwn (hh x) (typeIdx e) h = Ok (retire (hh x) h, rep e)).
Proof.
  intros Hx Hn. destruct (hreach_inv n x Hx Hn) as [Hi _]. pose proof Hi as [Hwf (ptrs & Hcs & Hlo) _ _]. split_and!.
  - intros h p e. by apply hinv_loans_on.
  - intros lent typ h Hl. apply hinv_lent; [done|]. rewrite elem_of_cons. tauto.
  - intros lenders p Hl Hp. assert (p ∈ concat ptrs ++ concat (subtasks x)) as Hin by (apply elem_of_app; right; apply in_concat_iff; by exists lenders).
    destruct (lo_live _ _ Hlo p Hin) as [h Hh]. destruct (lookup_lt_is_Some_2 (resources (hh x)) p) as [e He]; [by eapply (hw_ptr _ Hwf)|].
    exists h, e. split; [done|]. rewrite (lo_count _ _ Hlo p e He). by apply nloans_pos.
  - intros h p e Hh Ho Hl Hc Hs. apply TakeOwn_Ok. exists p, e. split_and!; try done. rewrite (hinv_loans_on x h p e Hi Hh). unfold loans_on. rewrite Hl.
    rewrite filter_none by (intros y (lent & Hy & Hin)%in_concat_iff; by eapply Hc).
    assert (¬ 0 < nloans p (concat (subtasks x))) as Hz by (rewrite nloans_pos, in_concat_iff; intros (l & Hp & Hin); by eapply Hs).
    assert (0 ≤ nloans p (concat (subtasks x))) by (unfold nloans; lia). cbn. lia.
Qed.

(** ** What is lent stays *)

Definition same_as (s : handles) (h : Z) (p : nat) (e : resourceEntry) : Prop :=
  ∃ e', names s h p e' ∧ typeIdx e' = typeIdx e ∧ rep e' = rep e ∧ own e' = own e.

Lemma same_as_refl s h p e : names s h p e → same_as s h p e.
Proof. intros H. by exists e. Qed.

Lemma same_as_trans s h p e e' : typeIdx e' = typeIdx e → rep e' = rep e → own e' = own e → same_as s h p e' → same_as s h p e.
Proof. intros H1 H2 H3 (x & Hx & E1 & E2 & E3). exists x. split; [done|]. split_and!; congruence. Qed.

Lemma set_lends_same s q x n h p e : resources s !! q = Some x → names s h p e → same_as (set_lends s q x n) h p e.
Proof.
  intros Hq [Hh He]. unfold same_as, names. cbn. destruct (decide (p = q)) as [->|].
  - eexists. split; [split; [done|apply list_lookup_insert_eq; by eapply lookup_lt_Some]|]. cbn. assert (x = e) as -> by congruence. done.
  - exists e. by rewrite list_lookup_insert_ne by done.
Qed.

Lemma release_same lent : ∀ s h p e, names s h p e → same_as (release s lent) h p e.
Proof.
  induction lent as [|[typ g] lent IH]; intros s h p e Hn; cbn [release]; [by apply same_as_refl|].
  destruct (Unlend s typ g) as [s1| | |] eqn:E; try by apply IH. unfold Unlend in E. apply obind_Ok in E as ([q x] & [[_ Hq] _]%lookupHandle_Ok & E).
  destruct (_ =? 0); [done|]. injection E as <-. destruct (set_lends_same s q x (lendCount x - 1) h p e Hq Hn) as (e1 & Hn1 & E1 & E2 & E3).
  eapply same_as_trans; [done..|]. by apply IH.
Qed.

Lemma deliver_same ps : ∀ s s' h p e, deliver s ps = Ok s' → names s h p e → same_as s' h p e.
Proof.
  induction ps as [|q ps IH]; intros s s' h p e; cbn [deliver]; [intros [= ->]; apply same_as_refl|].
  intros (s1 & E & H)%obind_Ok Hn. unfold bump in E. destruct (resources s !! q) as [x|] eqn:Hq; [|done]. injection E as <-.
  destruct (set_lends_same s q x (lendCount x + -1) h p e Hq Hn) as (e1 & Hn1 & E1 & E2 & E3). eapply same_as_trans; [done..|]. by eapply IH.
Qed.

Lemma newResource_same s x s' g h p e : hwf s → next (table s) < 2 ^ 32 - 1 → newResource s x = (s', g) → names s h p e → names s' h p e.
Proof.
  intros Hwf Hb Hn [Hh He]. destruct (newResource_spec s x s' g Hwf Hb Hn) as (HN & Hes & Hr & _). split.
  - rewrite Hes, lookup_insert_ne; [done|]. intros ->. congruence.
  - rewrite Hr. by apply lookup_app_l_Some.
Qed.

Lemma retire_same s g h p e : h ≠ g → names s h p e → names (retire s g) h p e.
Proof. intros Hne [Hh He]. split; [|done]. cbn. by rewrite lookup_delete_ne. Qed.

Lemma step_same x y h p e : hinv x → next (table (hh x)) < 2 ^ 32 - 1 → hstep x y → names (hh x) h p e → lendCount e ≠ 0 → same_as (hh y) h p e.
Proof.
  intros Hi Hb Hst Hn Hz. pose proof (hi_wf _ Hi) as Hwf.
  assert (∀ g q e', names (hh x) g q e' → lendCount e' = 0 → h ≠ g) as Hne.
  { intros g q e' Hg Hz' ->. destruct (names_fun _ _ _ _ _ _ Hn Hg) as [-> ->]. done. }
  destruct Hst; cbn in *; try by apply same_as_refl.
  - apply same_as_refl. by eapply (newResource_same s (mkResource typ r true 0 None)).
  - apply same_as_refl. by eapply (newResource_same s (mkResource typ r false 0 None)).
  - apply NewBorrowScoped_Ok in H0 as (n & s1 & _ & H0 & ->). apply same_as_refl. exact (newResource_same _ _ _ _ _ _ _ Hwf Hb H0 Hn).
  - apply Drop_Ok in H as (q & e' & Hg & _ & Hz' & H). specialize (Hne _ _ _ Hg Hz'). apply same_as_refl.
    destruct H as [[_ ->]|(_ & t & n & _ & _ & ->)]; exact (retire_same s h0 h p e Hne Hn).
  - apply TakeOwn_Ok in H as (q & e' & Hg & _ & _ & Hz' & -> & _). apply same_as_refl. apply retire_same; [exact (Hne _ _ _ Hg Hz')|done].
  - apply DropOwned_Ok in H as (q & e' & Hg & _ & Hz' & -> & _). apply same_as_refl. apply retire_same; [exact (Hne _ _ _ Hg Hz')|done].
  - unfold Lend in H0. apply obind_Ok in H0 as ([q e'] & [[_ Hq] _]%lookupHandle_Ok & [= <-]). exact (set_lends_same s q e' _ h p e Hq Hn).
  - by apply release_same.
  - unfold bump in H1. destruct (resources s !! p0) as [e'|] eqn:Hq; [|done]. injection H1 as <-. exact (set_lends_same s p0 e' _ h p e Hq Hn).
  - by eapply deliver_same.
  - apply same_as_refl. unfold addEntry in H0. destruct (addEntryLocked (table s) e0) as [t' g] eqn:E. injection H0 as <- <-.
    destruct (addEntryLocked_spec _ _ _ _ (hw_table _ Hwf) Hb E) as (_ & HN & _ & Hes & _). destruct Hn as [Hh He]. split; [|done]. cbn. rewrite Hes, lookup_insert_ne; [done|].
    intros ->. congruence.
  - apply same_as_refl. unfold removeEntry in H. destruct (entries (table s) !! h0) as [e'|] eqn:E; [|done]. injection H as <- ->.
    apply (retire_same s h0); [|done]. intros ->. destruct Hn as [Hh _]. rewrite Hh in E. by injection E as <-.
Qed.

(** C27. While a handle is lent it cannot go away: no operation on the table (drops, transfers
    and returns of other calls included) removes it or changes what it names, so the host keeps
    working on the resource that it was lent.  And the release of what was lent succeeds, for a
    call that returns, whose errors the code ignores, and for a subtask that is delivered. *)
Theorem lent_handle_stays n x : hreach n x → Z.of_nat n < 2 ^ 32 - 2 →
  (∀ h p e, names (hh x) h p e → 0 < loans_on x h p →
    TakeOwn (hh x) (typeIdx e) h = Err (if own e then HasLends h (lendCount e) else IsBorrow h) ∧
    Drop (hh x) (typeIdx e) h = Err (HasLends h (lendCount e)) ∧
    ∀ y, hstep x y → ∃ e', names (hh y) h p e' ∧ typeIdx e' = typeIdx e ∧ rep e' = rep e ∧ own e' = own e) ∧
  (∀ lent, lent ∈ calls x → release_all (hh x) lent = Ok (release (hh x) lent)) ∧
  (∀ lenders, lenders ∈ subtasks x → ∃ s', deliver (hh x) lenders = Ok s').
Proof.
  intros Hx Hn. destruct (hreach_inv n x Hx ltac:(lia)) as [Hi Hb]. pose proof Hi as [Hwf (ptrs & Hcs & Hlo) _ _]. split_and!.
  - intros h p e Hh Hl. rewrite <- (hinv_loans_on x h p e Hi Hh) in Hl. split_and!.
    + unfold TakeOwn. rewrite (proj2 (lookupHandle_Ok _ _ h p e) (conj Hh eq_refl)). cbn [obind]. destruct (own e); [|done]. cbn [negb]. by rewrite (proj2 (Z.eqb_neq (lendCount e) 0)) by lia.
    + unfold Drop. rewrite (proj2 (lookupHandle_Ok _ _ h p e) (conj Hh eq_refl)). cbn [obind]. by rewrite (proj2 (Z.eqb_neq (lendCount e) 0)) by lia.
    + intros y Hst. eapply step_same; [done|lia|done|done|lia].
  - intros lent [i Hl]%list_elem_of_lookup_1. change ((lost x :: calls x) !! S i = Some lent) in Hl. destruct (Forall2_lookup_l _ _ _ _ _ Hcs Hl) as (ps & Hp & Hps).
    destruct (release_all_Ok lent (hh x) ps (concat (delete (S i) ptrs) ++ concat (subtasks x)) Hwf) as (s' & E & -> & _); [|done|done].
    eapply lends_ok_perm; [|exact Hlo]. by rewrite (concat_delete ptrs (S i) ps Hp), <- (assoc_L app).
  - intros lenders [i Hl]%list_elem_of_lookup_1.
    destruct (deliver_Ok lenders (hh x) (concat ptrs ++ concat (delete i (subtasks x))) Hwf) as (s' & E & _); [|by exists s'].
    eapply lends_ok_perm; [|exact Hlo]. rewrite (concat_delete (subtasks x) i lenders Hl), !(assoc_L app). by rewrite (Permutation_app_comm (concat ptrs) lenders).
Qed.

(** C28. Own handles are neither lost nor duplicated: the own handles of a table for a resource
    are as many as were made for it less those that a drop or a transfer used up. *)
Theorem ownership_conserved n x : hreach n x → Z.of_nat n < 2 ^ 32 - 1 →
  ∀ typ r, Z.of_nat (size (having (hh x) (is_owned typ r))) = balance (ledger x) typ r.
Proof. intros Hx Hn. destruct (hreach_inv n x Hx Hn) as [Hi _]. apply Hi. Qed.

(** A borrow does not outlive the call it is scoped to: a task's count is the number of the
    handles scoped to it, so that once a task has ended, which its count only allows at zero, no handle
    is scoped to it, then or later. *)
Theorem borrows_end_with_task n x : hreach n x → Z.of_nat n < 2 ^ 32 - 1 →
  (∀ t c, numBorrows (hh x) !! t = Some c → c = Z.of_nat (size (scoped (hh x) t))) ∧
  (∀ t h p e, t ∈ ended x → names (hh x) h p e → borrowScope e ≠ Some t).
Proof.
  intros Hx Hn. destruct (hreach_inv n x Hx Hn) as [Hi _]. pose proof (hw_count _ (hi_wf _ Hi)) as Hc. split; [done|].
  intros t h p e Ht Hh Hs. pose proof (hi_ended _ Hi t Ht) as Hz. specialize (Hc t 0 Hz). assert (size (scoped (hh x) t) = 0%nat) as Hsz by lia.
  apply map_size_empty_iff in Hsz. pose proof (names_tagged _ h p e (in_scope t) Hh) as Hl. unfold scoped in Hsz. rewrite Hsz, lookup_empty in Hl.
  unfold in_scope in Hl. by rewrite bool_decide_true in Hl.
Qed.

(** * Calls

    The loop over the arguments of a call as steps of a history. *)

(** What an argument came from and where it is after the loop. *)
Definition arg_ok (s s' : handles) (pv : param * option Z) (a : Z) : Prop :=
  match pv with
  | (PBorrow typ, Some h) => ∃ p e, names s' h p e ∧ typeIdx e = typ ∧ rep e = a ∧ 0 < lendCount e
  | (POwn typ, Some h) => entries (table s') !! h = None ∧ ∃ p e, names s h p e ∧ typeIdx e = typ ∧ own e = true ∧ rep e = a
  | (PPlain, Some v) => a = v
  | (_, None) => False
  end.

(** [s'] has the handles of [s], less those that were taken. *)
Record fewer (s s' : handles) : Prop := {
  fw_gone : ∀ h, entries (table s) !! h = None → entries (table s') !! h = None;
  fw_same : ∀ h p e, names s h p e → entries (table s') !! h = None ∨ same_as s' h p e;
  fw_back : ∀ h p e, names s' h p e → ∃ e0, names s h p e0 ∧ typeIdx e0 = typeIdx e ∧ rep e0 = rep e ∧ own e0 = own e
}.

Lemma fewer_refl s : fewer s s.
Proof. split; [done|by right; apply same_as_refl|]. intros h p e Hn. by exists e. Qed.

Lemma fewer_trans s1 s2 s3 : fewer s1 s2 → fewer s2 s3 → fewer s1 s3.
Proof.
  intros [A1 A2 A3] [B1 B2 B3]. split; [auto| |].
  - intros h p e Hn. destruct (A2 h p e Hn) as [HN|(e' & Hn' & E1 & E2 & E3)]; [left; auto|]. destruct (B2 h p e' Hn') as [?|Hs]; [by left|right]. by eapply same_as_trans.
  - intros h p e Hn. destruct (B3 h p e Hn) as (e1 & Hn1 & E1 & E2 & E3). destruct (A3 h p e1 Hn1) as (e0 & Hn0 & F1 & F2 & F3). exists e0. split; [done|]. split_and!; congruence.
Qed.

Lemma fewer_set_lends s p e n : resources s !! p = Some e → fewer s (set_lends s p e n).
Proof.
  intros He. split; [done|intros; right; by apply set_lends_same|]. intros h q x [Hh Hx]. cbn in *.
  apply list_lookup_insert_Some in Hx as [(<- & <- & _)|[_ Hx]]; [by exists e|by exists x].
Qed.

Lemma fewer_retire s h : fewer s (retire s h).
Proof.
  split.
  - intros g Hg. cbn. by rewrite lookup_delete_None; right.
  - intros g p e Hn. destruct (decide (g = h)) as [->|Hne]; [left; apply lookup_delete_eq|right]. apply same_as_refl. by apply retire_same.
  - intros g p e [Hg He]. cbn in Hg. apply lookup_delete_Some in Hg as [_ Hg]. by exists e.
Qed.

Lemma arg_ok_back s s1 s' pv a : fewer s s1 → arg_ok s1 s' pv a → arg_ok s s' pv a.
Proof.
  intros Hf. destruct pv as [[typ|typ|] [h|]]; cbn; try done. intros (HN & p & e & Hn & Ht & Ho & Hr). split; [done|].
  destruct (fw_back _ _ Hf h p e Hn) as (e0 & Hn0 & E1 & E2 & E3). exists p, e0. split; [done|]. split_and!; congruence.
Qed.

(** Resolving an argument, on the table that its loan has left. *)
Lemma resolve_steps n s cs ss ed lo lg p v : hreach n (mkHist s cs ss ed lo lg) → hwf s →
  match resolveHandleArg s p v with
  | Ok (s', a) => ∃ m lg', hreach m (mkHist s' cs ss ed lo lg') ∧ (n ≤ m ≤ S n)%nat ∧ fewer s s' ∧
      match p with
      | POwn typ => entries (table s') !! v = None ∧ ∃ q e, names s v q e ∧ typeIdx e = typ ∧ own e = true ∧ rep e = a
      | PBorrow typ => s' = s ∧ m = n ∧ ∃ q e, names s v q e ∧ typeIdx e = typ ∧ rep e = a
      | PPlain => a = v
      end
  | Err _ => True
  | _ => False
  end.
Proof.
  intros Hr Hwf. destruct p as [typ|typ|]; cbn.
  - destruct (TakeOwn s typ v) as [[s' a]|err| |] eqn:E; [|done|exfalso|exfalso].
    + exists (S n), (Consumed typ a :: lg). split; [econstructor; [done|by econstructor]|]. split; [lia|].
      apply TakeOwn_Ok in E as (q & e & Hn & Ht & Ho & Hz & -> & ->). split; [apply fewer_retire|]. split; [apply lookup_delete_eq|]. by exists q, e.
    + unfold TakeOwn in E. destruct (lookupHandle_cases s typ v Hwf) as [(q & e & _ & _ & E')|(err & E' & _)]; rewrite E' in E; cbn in E; [|done]. by repeat case_match.
    + unfold TakeOwn in E. destruct (lookupHandle_cases s typ v Hwf) as [(q & e & _ & _ & E')|(err & E' & _)]; rewrite E' in E; cbn in E; [|done]. by repeat case_match.
  - unfold Rep. destruct (lookupHandle_cases s typ v Hwf) as [(q & e & Hn & Ht & ->)|(err & -> & _)]; cbn; [|done].
    exists n, lg. split_and!; [done|lia|lia|apply fewer_refl|done|done|]. by exists q, e.
  - exists n, lg. split_and!; [done|lia|lia|apply fewer_refl|done].
Qed.

(** The loan of an argument, before it is resolved. *)
Lemma lend_steps n s cs l0 i ss ed lo lg p v : hreach n (mkHist s cs ss ed lo lg) → cs !! i = Some l0 → hwf s →
  let '(s1, lent) := match p with PBorrow typ => match Lend s typ v with Ok s => (s, [(typ, v)]) | _ => (s, []) end | _ => (s, []) end in
  ∃ m, hreach m (mkHist s1 (<[i := l0 ++ lent]> cs) ss ed lo lg) ∧ (n ≤ m ≤ S n)%nat ∧ fewer s s1 ∧
    (match p with PBorrow _ => True | _ => m = n end) ∧
    (∀ typ, p = PBorrow typ → lent = [(typ, v)] ∨ lent = [] ∧ ∃ err, resolveHandleArg s1 p v = Err err).
Proof.
  intros Hr Hc Hwf.
  assert (hreach n (mkHist s (<[i := l0 ++ []]> cs) ss ed lo lg)) as Hsame by (by rewrite app_nil_r, list_insert_id).
  destruct p as [typ|typ|]; try (exists n; split_and!; [done|lia|lia|apply fewer_refl|done|done]).
  unfold Lend. destruct (lookupHandle_cases s typ v Hwf) as [(q & e & Hn & Ht & E)|(err & E & _)].
  - rewrite E. cbn [obind]. exists (S n). split_and!; [|lia|lia|apply fewer_set_lends; apply Hn|done|by intros t [= <-]; left].
    eapply hreach_S; [exact Hr|]. apply H_lend; [done|]. unfold Lend. by rewrite E.
  - rewrite E. cbn [obind]. exists n. split_and!; [done|lia|lia|apply fewer_refl|done|]. intros t [= <-]. right. split; [done|]. exists err. cbn. unfold Rep. by rewrite E.
Qed.

Lemma lift_steps params : ∀ n s cs l0 i ss ed lo lg s' lent r, hreach n (mkHist s cs ss ed lo lg) → cs !! i = Some l0 →
  Z.of_nat (n + length params) < 2 ^ 32 - 1 → liftHostArgs s params = (s', lent, r) →
  ∃ m lg', hreach m (mkHist s' (<[i := l0 ++ lent]> cs) ss ed lo lg') ∧ (n ≤ m ≤ n + length params)%nat ∧ fewer s s' ∧
    match r with Ok args => Forall2 (arg_ok s s') params args | Err _ => True | _ => False end.
Proof.
  induction params as [|[p [v|]] params IH]; intros n s cs l0 i ss ed lo lg s' lent r Hr Hc Hb H; cbn [liftHostArgs] in H.
  - injection H as <- <- <-. exists n, lg. rewrite app_nil_r, list_insert_id by done. split_and!; [done|lia|lia|apply fewer_refl|constructor].
  - destruct (hreach_inv n _ Hr ltac:(lia)) as [[Hwf _ _ _] _]. cbn in Hwf, Hb.
    pose proof (lend_steps n s cs l0 i ss ed lo lg p v Hr Hc Hwf) as Hl.
    destruct (match p with PBorrow typ => _ | _ => _ end) as [s1 lent1]. destruct Hl as (m1 & Hr1 & Hm1 & Hf1 & Hpm & Hlent1).
    destruct (hreach_inv m1 _ Hr1 ltac:(lia)) as [[Hwf1 _ _ _] _]. cbn in Hwf1.
    pose proof (resolve_steps m1 s1 _ ss ed lo lg p v Hr1 Hwf1) as Hres.
    destruct (resolveHandleArg s1 p v) as [[s2 a]|e| |] eqn:Er; [|injection H as <- <- <-; exists m1, lg; cbn [length]; split_and!; [exact Hr1|lia|lia|done|done]|done|done].
    destruct Hres as (m2 & lg2 & Hr2 & Hm2 & Hf2 & Ha). destruct (liftHostArgs s2 params) as [[s3 lent'] r'] eqn:El. injection H as <- <- <-.
    assert (m2 ≤ S n)%nat as Hm by (destruct p as [t|t|]; [lia|destruct Ha as (_ & -> & _); lia|lia]).
    destruct (IH m2 s2 (<[i := l0 ++ lent1]> cs) (l0 ++ lent1) i ss ed lo lg2 s3 lent' r' Hr2) as (m & lg' & Hrm & Hmm & Hf3 & Hargs).
    { apply list_lookup_insert_eq. by eapply lookup_lt_Some. } { lia. } { done. }
    rewrite list_insert_insert_eq, <- (assoc_L app) in Hrm. exists m, lg'.
    assert (fewer s s2) as Hf by (by eapply fewer_trans). split_and!; [done|cbn; lia|cbn; lia|by eapply fewer_trans|].
    destruct r' as [args|e| |]; cbn [obind]; try done. constructor.
    2: { eapply Forall2_impl; [exact Hargs|]. intros pv b. by apply arg_ok_back. }
    destruct p as [typ|typ|]; cbn; [| |exact Ha].
    + destruct Ha as (HN & q & e & Hn & Ht & Ho & Hrep). split; [by apply (fw_gone _ _ Hf3)|].
      destruct (fw_back _ _ Hf1 v q e Hn) as (e0 & Hn0 & E1 & E2 & E3). exists q, e0. split; [done|]. split_and!; congruence.
    + destruct Ha as (-> & _ & q & e & Hn & Ht & Hrep). destruct (Hlent1 typ eq_refl) as [->|[_ [err Herr]]]; [|congruence].
      destruct (hreach_inv m _ Hrm ltac:(cbn in Hb; lia)) as [Hi _].
      destruct (hinv_lent _ (l0 ++ [(typ, v)] ++ lent') typ v Hi) as (q' & e' & Hn' & Ht' & Hpos); cbn [calls hh] in *.
      { right. apply (list_elem_of_lookup_2 _ i). apply list_lookup_insert_eq. by eapply lookup_lt_Some. } { apply elem_of_app. right. apply elem_of_app. left. by left. }
      exists q', e'. split_and!; [done|done| |done].
      destruct (fw_same _ _ Hf3 v q e Hn) as [HN|(e2 & Hn2 & _ & E2 & _)]; [destruct Hn'; congruence|]. destruct (names_fun _ _ _ _ _ _ Hn' Hn2) as [_ ->]. congruence.
  - injection H as <- <- <-. exists n, lg. rewrite app_nil_r, list_insert_id by done. split_and!; [done|lia|lia|apply fewer_refl|done].
Qed.

(** Lifting the handle arguments of a synchronous call never panics and is a sequence of
    loans and transfers, so that all the above holds of the table it leaves.  When it succeeds, the
    host gets the resource behind each handle: a borrowed one is in the table and lent, and an
    owned one has left the table.  No other handle is made, and none is changed or removed but those taken. *)
Theorem call_args_lifted n x params s' lent r : hreach n x → Z.of_nat n + 1 + Z.of_nat (length params) < 2 ^ 32 - 1 →
  liftHostArgs (hh x) params = (s', lent, r) →
  ∃ m lg', hreach m (mkHist s' (calls x ++ [lent]) (subtasks x) (ended x) (lost x) lg') ∧ (m ≤ S n + length params)%nat ∧ fewer (hh x) s' ∧
    match r with Ok args => Forall2 (arg_ok (hh x) s') params args | Err _ => True | Panic | NoFuel => False end.
Proof.
  intros Hx Hb H. destruct x as [s cs ss ed lo lg]. cbn in *.
  destruct (lift_steps params (S n) s (cs ++ [[]]) [] (length cs) ss ed lo lg s' lent r) as (m & lg' & Hr & Hm & Hf & Ha); [|by apply list_lookup_middle|lia|done|].
  { eapply hreach_S; [exact Hx|]. constructor. }
  exists m, lg'. rewrite insert_app_r_alt, Nat.sub_diag in Hr by lia. split_and!; [done|lia|done|done].
Qed.

(** ** [resource.drop] *)

(** The destructor runs exactly when an own handle is dropped, on the resource of the handle;
    a borrow that is dropped never runs it. *)
Lemma resource_drop_Ok {W E} (s : handles) (dtors : gmap Z (@dtor W E)) typ h w s' w' err : resource_drop s dtors typ h w = Ok (s', w', err) ↔
  Drop s typ h = Ok s' ∧
  ∃ p e, names s h p e ∧ (w', err) = match dtors !! typ with Some d => if own e then d (rep e) w else (w, None) | None => (w, None) end.
Proof.
  unfold resource_drop, dtorFor. split.
  - destruct (Drop s typ h) as [s1| | |] eqn:Ed; try (by destruct (match IsOwn s typ h with Ok true => _ | _ => _ end)).
    pose proof Ed as (p & e & Hn & Ht & _)%Drop_Ok. pose proof (proj2 (lookupHandle_Ok s typ h p e) (conj Hn Ht)) as El.
    unfold IsOwn, Rep. rewrite El. cbn [obind]. intros H.
    destruct (own e) eqn:Eo; [destruct (dtors !! typ) as [d|] eqn:Edt|]; cbn [obind] in H.
    + destruct (d (rep e) w) as [w2 e2] eqn:Edw. injection H as <- <- <-. split; [done|]. exists p, e. by rewrite Eo, Edw.
    + injection H as <- <- <-. split; [done|]. exists p, e. split; [done|]. done.
    + injection H as <- <- <-. split; [done|]. exists p, e. rewrite Eo. split; [done|]. by destruct (dtors !! typ).
  - intros (Hd & p & e & Hn & He). rewrite Hd. pose proof Hd as (p' & e' & Hn' & Ht & _)%Drop_Ok. destruct (names_fun _ _ _ _ _ _ Hn Hn') as [<- <-].
    unfold IsOwn, Rep. rewrite (proj2 (lookupHandle_Ok s typ h p e) (conj Hn Ht)). cbn [obind].
    destruct (own e); [destruct (dtors !! typ) as [d|]|destruct (dtors !! typ)]; cbn [obind]; try (by injection He as -> ->). by rewrite <- He.
Qed.

(** Every destructor registered for a type runs, in the order of registration, and the first
    error is kept. *)
Fixpoint run_dtors {W E} (ds : list (@dtor W E)) (r : Z) (w : W) : W * option E :=
  match ds with
  | [] => (w, None)
  | d :: ds => let '(w, err) := d r w in let '(w, err') := run_dtors ds r w in (w, match err with Some e => Some e | None => err' end)
  end.

Lemma run_dtors_snoc {W E} (ds : list (@dtor W E)) d r w :
  run_dtors (ds ++ [d]) r w = let '(w, err) := run_dtors ds r w in let '(w, err2) := d r w in (w, match err with None => err2 | Some _ => err end).
Proof.
  revert w; induction ds as [|d' ds IH]; intros w; cbn.
  - by destruct (d r w) as [w1 [e|]].
  - destruct (d' r w) as [w1 e1]. rewrite IH. destruct (run_dtors ds r w1) as [w2 e2]. destruct (d r w2) as [w3 e3]. by destruct e1, e2.
Qed.

Lemma registerDtor_runs {W E} (dtors : gmap Z (@dtor W E)) typ ds d :
  (match dtorFor dtors typ with Some f => ds ≠ [] ∧ ∀ r w, f r w = run_dtors ds r w | None => ds = [] end) →
  ∃ f, dtorFor (registerDtor dtors typ d) typ = Some f ∧ ∀ r w, f r w = run_dtors (ds ++ [d]) r w.
Proof.
  intros H. unfold dtorFor, registerDtor in *. destruct (dtors !! typ) as [f|] eqn:Ef.
  - destruct H as [_ H]. eexists. split; [apply lookup_insert_eq|]. intros r w. rewrite run_dtors_snoc, <- H. done.
  - subst ds. eexists. split; [apply lookup_insert_eq|]. intros r w. cbn. by destruct (d r w) as [w1 [e|]].
Qed.

(** ** Concrete histories *)

(** An own handle, a borrow of the same resource scoped to a task, and a call that has the
    own handle lent. *)
Definition demo_own : handles := fst (NewOwn (hh hist0) 7 42).
Definition demo_task : handles := mkHandles (table demo_own) (resources demo_own) (numBorrows demo_own ++ [0]).
Definition demo_scoped : handles := match NewBorrowScoped demo_task 7 42 0 with Ok (s, _) => s | _ => demo_task end.
Definition demo_lent : handles := match Lend demo_scoped 7 1 with Ok s => s | _ => demo_scoped end.
Definition demo_hist : hist := mkHist demo_lent (<[0%nat := [] ++ [(7, 1)]]> ([] ++ [[]])) [] [] [] [Minted 7 42].

Lemma demo_reach : hreach 5 demo_hist.
Proof.
  apply (hreach_S 4 (mkHist demo_scoped ([] ++ [[]]) [] [] [] [Minted 7 42])); [|by apply H_lend].
  apply (hreach_S 3 (mkHist demo_scoped [] [] [] [] [Minted 7 42])); [|apply H_call].
  apply (hreach_S 2 (mkHist demo_task [] [] [] [] [Minted 7 42])); [|apply (H_scoped _ _ 2 7 42 0); [by intros ?%elem_of_nil|done]].
  apply (hreach_S 1 (mkHist demo_own [] [] [] [] [Minted 7 42])); [|apply H_task].
  apply (hreach_S 0 hist0); [constructor|by apply (H_own _ _ 1)].
Qed.

Lemma loans_counted_witness : ∃ e, names (hh demo_hist) 1 0 e ∧ lendCount e = 1.
Proof.
  destruct (loans_counted 5 demo_hist demo_reach ltac:(done)) as (H & _ & _). eexists. split; [by split|]. rewrite (H 1 0%nat); [|by split]. by vm_compute.
Defined.

Lemma lent_handle_stays_witness : Drop (hh demo_hist) 7 1 = Err (HasLends 1 1) ∧ release_all (hh demo_hist) [(7, 1)] = Ok (release (hh demo_hist) [(7, 1)]).
Proof.
  destruct (lent_handle_stays 5 demo_hist demo_reach ltac:(done)) as (H & H2 & _). split; [|apply H2; by left].
  by destruct (H 1 0%nat (mkResource 7 42 true 1 None)) as (_ & Hd & _); [by split|by vm_compute|].
Defined.

Lemma ownership_conserved_witness : Z.of_nat (size (having (hh demo_hist) (is_owned 7 42))) = 1.
Proof. rewrite (ownership_conserved 5 demo_hist demo_reach ltac:(done)). by vm_compute. Defined.

Lemma borrows_end_with_task_witness : 1 = Z.of_nat (size (scoped (hh demo_hist) 0)).
Proof. by apply (borrows_end_with_task 5 demo_hist demo_reach ltac:(done)). Defined.

Lemma call_args_lifted_witness : ∃ m lg', hreach m (mkHist (hh demo_hist) [[(7, 1)]; []] [] [] [] lg') ∧ (m ≤ 7)%nat.
Proof.
  destruct (call_args_lifted 5 demo_hist [(POwn 7, Some 1)] (hh demo_hist) [] (Err (AHandle (HasLends 1 1))) demo_reach ltac:(done)) as (m & lg' & Hr & Hm & _).
  - by vm_compute.
  - by exists m, lg'.
Defined.

(** ** A failed call

    A call whose arguments do not lift traps before its release is deferred: what it lent is
    lost, in a history that goes on without the call. *)
Theorem failed_call_loses n x params s' lent e : hreach n x → Z.of_nat n + 1 + Z.of_nat (length params) < 2 ^ 32 - 1 →
  liftHostArgs (hh x) params = (s', lent, Err e) →
  ∃ m lg', hreach m (mkHist s' (calls x) (subtasks x) (ended x) (lent ++ lost x) lg') ∧ (m ≤ n + 2 + length params)%nat.
Proof.
  intros Hx Hb H. destruct x as [s cs ss ed lo lg]. cbn in *.
  destruct (lift_steps params (S n) s (cs ++ [[]]) [] (length cs) ss ed lo lg s' lent (Err e)) as (m & lg' & Hr & Hm & _);
    [eapply hreach_S; [exact Hx|]; constructor|by apply list_lookup_middle|lia|done|].
  exists (S m), lg'. split; [|lia]. rewrite insert_app_r_alt, Nat.sub_diag in Hr by lia. eapply hreach_S; [exact Hr|].
  replace cs with (delete (length cs) (cs ++ [lent])) at 2 by (rewrite delete_middle; by rewrite app_nil_r).
  constructor. by apply list_lookup_middle.
Qed.

(** The handles that it lent until then stay lent for ever, and cannot be dropped. *)
Theorem failed_call_leaks_loans :
  let s := fst (NewOwn (mkHandles newHandleTable [] []) 7 42) in
  let '(s', lent, r) := liftHostArgs s [(PBorrow 7, Some 1); (POwn 7, Some 9)] in
  lent = [(7, 1)] ∧ (∃ e, r = Err e) ∧ DropOwned s' 1 = Err (HasLends 1 1).
Proof. vm_compute. split_and!; [done|by eexists|done]. Qed.
