(* ===== verification/CmStream.v ===== *)
(** The rendezvous of the two ends of a stream ([internal/component/instance/stream.go]),
    the stream builtins of a guest ([stream_builtins.go]) and the ends a host holds
    ([stream_host.go]). *)
From Stdlib Require Import ZArith Lia.
From stdpp Require Import base list numbers option tactics relations.
From S2P Require Import Prelude.
Local Open Scope Z_scope.
Local Open Scope go_scope.

(** * Buffers

    What a stream asks of a buffer ([copyBuffer]), of memory [M], buffers [B] and elements
    [V]: a buffer of a guest lies in its memory, one of the host is a list of values.
    [copyElements] is [None] where the copy traps. *)
Class CopyBuffers (M B V : Type) := {
  remain : B → Z;
  isZeroLength : B → bool;
  progressed : B → Z;
  newHostReadBuffer : list V → B;
  newHostWriteBuffer : Z → B;
  newGuestBuffer : M → nat → Z → Z → option B;
  copyElements : bool → M → B → B → Z → option (M * B * B)
}.

(** What a client may rely on: a copy of as many elements as both buffers have left moves
    both forward by that many, and a buffer keeps its length. *)
Class BufferLaws (M B V : Type) `{CopyBuffers M B V} := {
  bufok : B → Prop;
  len : B → Z;
  remain_len b : bufok b → remain b = len b - progressed b ∧ 0 ≤ progressed b ≤ len b;
  zero_len b : bufok b → isZeroLength b = (len b =? 0);
  host_read_ok vals : bufok (newHostReadBuffer vals) ∧ progressed (newHostReadBuffer vals) = 0;
  host_write_ok n : bufok (newHostWriteBuffer n) ∧ progressed (newHostWriteBuffer n) = 0;
  host_write_len n : len (newHostWriteBuffer n) = u32 n;
  host_read_len vals : len (newHostReadBuffer vals) = u32 (zlen vals);
  guest_ok m i ptr n b : newGuestBuffer m i ptr n = Some b → bufok b ∧ progressed b = 0 ∧ len b = u32 n;
  copy_ok num m dst src n m' dst' src' : bufok dst → bufok src → 0 ≤ n ≤ remain dst → n ≤ remain src →
    copyElements num m dst src n = Some (m', dst', src') →
    bufok dst' ∧ bufok src' ∧ len dst' = len dst ∧ len src' = len src ∧
    progressed dst' = progressed dst + n ∧ progressed src' = progressed src + n
}.

(** * Data *)

Inductive copyResult : Type := copyCompleted | copyDropped | copyCancelled.
Inductive copyState : Type := copyIdle | copyCopying | copyCancelling | copyDone.
Inductive endSide : Type := sideReadable | sideWritable.

#[global] Instance copyResult_eq_dec : EqDecision copyResult.
Proof. solve_decision. Defined.
#[global] Instance copyState_eq_dec : EqDecision copyState.
Proof. solve_decision. Defined.
#[global] Instance endSide_eq_dec : EqDecision endSide.
Proof. solve_decision. Defined.

Definition packCopyResult (r : copyResult) (progress : Z) : Z :=
  Z.lor (match r with copyCompleted => 0 | copyDropped => 1 | copyCancelled => 2 end) (u32 (Z.shiftl progress 4)).

Section stream.
Context {M B V : Type} `{CopyBuffers M B V}.

(** What a host does with its ends; an operation comes with what the host does when it is
    told the result ([onDone]). *)
Inductive hostOp : Type :=
| HWrite (vals : list V) (onDone : list hostOp)
| HRead (n : Z) (onDone : list hostOp)
| HClose (sd : endSide)
| HCancel (sd : endSide).

(** The two callbacks of an operation in progress, as what they capture: the end and the
    buffer; and for a host, what it does when it is told the result. *)
Record callback := mkCb { cb_side : endSide; cb_buf : nat; cb_host : option (list hostOp) }.

(** The parked side; the buffer is the one its callbacks capture.  [pendingInst] is [None]
    for a host. *)
Record parked := mkParked { pendingInst : option nat; pendingCb : callback }.

(** The thunk of a pending event, as what it captures; [reclaim] is whether it un-parks the buffer. *)
Record event := mkEvent { ev_result : copyResult; ev_buf : nat; ev_reclaim : bool }.

(** The end of a guest, in the table of instance [inst]; and whether it is in a waitable set. *)
Record streamEnd := mkEnd { inst : nat; state : copyState; livePending : bool; pendingEvent : option event; inSet : bool }.

(** Who has an end: a guest, the host, nobody while it is on its way as a value, or nobody any more. *)
Inductive holder : Type := AtGuest (e : streamEnd) | AtHost (i : nat) (st : copyState) | InTransit | Gone.

(** What happened at an end: an operation began, or its result was told. *)
Inductive entry : Type := Begun (sd : endSide) | Told (sd : endSide) (r : copyResult) (n : Z).

(** What the builtins and a host's calls ask of an instance: whether it may be left, whether
    a task is active and whether it is a synchronous one, and where the host is called from. *)
Record driver := mkDriver { mayLeave : bool; activeTask : bool; syncImplicit : bool; pumping : bool; inHostCall : Z }.

Record stream := mkStream {
  mem : M; bufs : list B; numeric : bool;
  dropped : bool; pending : option parked;
  readable : holder; writable : holder;
  drv : nat → driver; log : list entry
}.

Inductive stream_error : Type :=
| MayNotLeave | SyncTask | NotHeld | NoEvent | Busy (st : copyState) | NotCopying | InWaitableSet | BadBuffer | SameInstance | CopyTrap | BusyDrop | NotSchedulable | HostMisuse.

Abbreviation sres := (outcome stream_error).

Definition set_mem (w : stream) (m : M) : stream := mkStream m (bufs w) (numeric w) (dropped w) (pending w) (readable w) (writable w) (drv w) (log w).
Definition set_bufs (w : stream) (bs : list B) : stream := mkStream (mem w) bs (numeric w) (dropped w) (pending w) (readable w) (writable w) (drv w) (log w).
Definition set_dropped (w : stream) : stream := mkStream (mem w) (bufs w) (numeric w) true (pending w) (readable w) (writable w) (drv w) (log w).
Definition set_drv (w : stream) (d : nat → driver) : stream := mkStream (mem w) (bufs w) (numeric w) (dropped w) (pending w) (readable w) (writable w) d (log w).
Definition note (w : stream) (e : entry) : stream := mkStream (mem w) (bufs w) (numeric w) (dropped w) (pending w) (readable w) (writable w) (drv w) (log w ++ [e]).

Definition holder_of (w : stream) (sd : endSide) : holder := match sd with sideReadable => readable w | sideWritable => writable w end.
Definition set_holder (w : stream) (sd : endSide) (h : holder) : stream :=
  mkStream (mem w) (bufs w) (numeric w) (dropped w) (pending w)
    (match sd with sideReadable => h | sideWritable => readable w end) (match sd with sideReadable => writable w | sideWritable => h end) (drv w) (log w).

Definition set_state (e : streamEnd) (st : copyState) : streamEnd := mkEnd (inst e) st (livePending e) (pendingEvent e) (inSet e).
Definition set_event (e : streamEnd) (live : bool) (ev : option event) : streamEnd := mkEnd (inst e) (state e) live ev (inSet e).

Definition busy (st : copyState) : bool := match st with copyCopying | copyCancelling => true | _ => false end.

(** * The shared object *)

Definition setPending (w : stream) (p : option parked) : stream :=
  mkStream (mem w) (bufs w) (numeric w) (dropped w) p (readable w) (writable w) (drv w) (log w).
Definition resetPending (w : stream) : stream := setPending w None.

Section shared.
(** [done] calls [onCopyDone]. *)
Variable done : stream → callback → copyResult → sres stream.

(** [onCopy]: of a guest, it arms the event that can be cancelled as long as its buffer has
    room; of a host, it un-parks the buffer and tells the host at once. *)
Definition call_onCopy (w : stream) (cb : callback) : sres stream :=
  match cb_host cb with
  | None =>
      match holder_of w (cb_side cb), bufs w !! cb_buf cb with
      | AtGuest e, Some b => Ok (set_holder w (cb_side cb) (AtGuest (set_event e (0 <? remain b) (Some (mkEvent copyCompleted (cb_buf cb) true)))))
      | _, _ => Ok w
      end
  | Some _ => done (resetPending w) cb copyCompleted
  end.

(** A call of the nil [pendingOnCopyDone] panics. *)
Definition resetAndNotifyPending (w : stream) (r : copyResult) : sres stream :=
  match pending w with None => Panic | Some p => done (resetPending w) (pendingCb p) r end.

Definition shared_cancel (w : stream) : sres stream := resetAndNotifyPending w copyCancelled.

Definition shared_drop (w : stream) : sres stream :=
  if dropped w then Ok w
  else let w := set_dropped w in match pending w with Some _ => resetAndNotifyPending w copyDropped | None => Ok w end.

Definition same_instance (i : option nat) (p : parked) : bool :=
  match i with None => false | Some _ => bool_decide (i = pendingInst p) end.

(** [n] elements from the buffer [src] to the buffer [dst]. *)
Definition copy (w : stream) (dst src : nat) (n : Z) : sres stream :=
  match bufs w !! dst, bufs w !! src with
  | Some d, Some s =>
      match copyElements (numeric w) (mem w) d s n with
      | Some (m, d, s) => Ok (set_bufs (set_mem w m) (<[src := s]> (<[dst := d]> (bufs w))))
      | None => Err CopyTrap
      end
  | _, _ => Panic
  end.

Definition shared_write (w : stream) (i : option nat) (cb : callback) : sres stream :=
  if dropped w then done w cb copyDropped
  else match pending w with
  | None => Ok (setPending w (Some (mkParked i cb)))
  | Some p =>
      if same_instance i p && negb (numeric w) then Err SameInstance
      else match bufs w !! cb_buf cb, bufs w !! cb_buf (pendingCb p) with
      | Some src, Some pb =>
          if 0 <? remain pb then
            let* w :=
              if 0 <? remain src then
                let* w := copy w (cb_buf (pendingCb p)) (cb_buf cb) (Z.min (remain src) (remain pb)) in
                call_onCopy w (pendingCb p)
              else Ok w in
            done w cb copyCompleted
          else if isZeroLength src && isZeroLength pb then done w cb copyCompleted
          else
            let* w := resetAndNotifyPending w copyCompleted in
            Ok (setPending w (Some (mkParked i cb)))
      | _, _ => Panic
      end
  end.

Definition shared_read (w : stream) (i : option nat) (cb : callback) : sres stream :=
  if dropped w then done w cb copyDropped
  else match pending w with
  | None => Ok (setPending w (Some (mkParked i cb)))
  | Some p =>
      if same_instance i p && negb (numeric w) then Err SameInstance
      else match bufs w !! cb_buf cb, bufs w !! cb_buf (pendingCb p) with
      | Some dst, Some pb =>
          if 0 <? remain pb then
            let* w :=
              if 0 <? remain dst then
                let* w := copy w (cb_buf cb) (cb_buf (pendingCb p)) (Z.min (remain dst) (remain pb)) in
                call_onCopy w (pendingCb p)
              else Ok w in
            done w cb copyCompleted
          else
            let* w := resetAndNotifyPending w copyCompleted in
            Ok (setPending w (Some (mkParked i cb)))
      | _, _ => Panic
      end
  end.

Definition shared_op (sd : endSide) : stream → option nat → callback → sres stream :=
  match sd with sideReadable => shared_read | sideWritable => shared_write end.

(** * The ends of a host *)

Definition requireSchedulable (d : driver) : bool := negb (activeTask d && negb (pumping d) && (inHostCall d =? 0)).

(** [StreamWriter.Write] and [StreamReader.Read], on a fresh buffer. *)
Definition host_start (w : stream) (sd : endSide) (b : B) (k : list hostOp) : sres stream :=
  match holder_of w sd with
  | AtHost i st =>
      if negb (requireSchedulable (drv w i)) then Err NotSchedulable
      else if negb (bool_decide (st = copyIdle)) then Err HostMisuse
      else
        let buf := length (bufs w) in
        let w := note (set_holder (set_bufs w (bufs w ++ [b])) sd (AtHost i copyCopying)) (Begun sd) in
        shared_op sd w None (mkCb sd buf (Some k))
  | _ => Err NotHeld
  end.

Definition host_close (w : stream) (sd : endSide) : sres stream :=
  match holder_of w sd with
  | AtHost i st =>
      if negb (requireSchedulable (drv w i)) then Err NotSchedulable
      else if busy st then Err HostMisuse
      else let* w := shared_drop w in Ok (set_holder w sd (AtHost i copyDone))
  | _ => Err NotHeld
  end.

Definition host_cancel (w : stream) (sd : endSide) : sres stream :=
  match holder_of w sd with
  | AtHost i st =>
      if negb (requireSchedulable (drv w i)) then Err NotSchedulable
      else if negb (bool_decide (st = copyCopying)) then Ok w
      else
        let w := set_holder w sd (AtHost i copyCancelling) in
        match pending w with Some _ => shared_cancel w | None => Ok w end
  | _ => Err NotHeld
  end.

Definition host_op (w : stream) (op : hostOp) : sres stream :=
  match op with
  | HWrite vals k => host_start w sideWritable (newHostReadBuffer vals) k
  | HRead n k => host_start w sideReadable (newHostWriteBuffer n) k
  | HClose sd => host_close w sd
  | HCancel sd => host_cancel w sd
  end.

Fixpoint host_ops (w : stream) (ops : list hostOp) : sres stream :=
  match ops with [] => Ok w | op :: ops => let* w := host_op w op in host_ops w ops end.
End shared.

(** [onCopyDone]: of a guest, it arms the final event; of a host, it is [fire], which tells
    the result and lets the host act. *)
Fixpoint call_onCopyDone (fuel : nat) (w : stream) (cb : callback) (r : copyResult) : sres stream :=
  match fuel with
  | O => NoFuel
  | S fuel =>
      match cb_host cb with
      | None =>
          match holder_of w (cb_side cb) with
          | AtGuest e => Ok (set_holder w (cb_side cb) (AtGuest (set_event e false (Some (mkEvent r (cb_buf cb) false)))))
          | _ => Ok w
          end
      | Some k =>
          let st := if bool_decide (r = copyDropped) then copyDone else copyIdle in
          let w := match holder_of w (cb_side cb) with AtHost i _ => set_holder w (cb_side cb) (AtHost i st) | _ => w end in
          let w := note w (Told (cb_side cb) r (match bufs w !! cb_buf cb with Some b => progressed b | None => 0 end)) in
          host_ops (call_onCopyDone fuel) w k
      end
  end.

(** The callbacks that can still run: those of what is parked, and of what is asked for. *)
Fixpoint op_size (op : hostOp) : nat :=
  let sizes := fix sizes (ops : list hostOp) : nat := match ops with [] => 0%nat | op :: ops => (op_size op + sizes ops)%nat end in
  match op with HWrite _ k | HRead _ k => S (sizes k) | _ => 1%nat end.

Definition ops_size (ops : list hostOp) : nat := foldr (λ op n, (op_size op + n)%nat) 0%nat ops.

Definition cb_size (cb : callback) : nat := match cb_host cb with Some k => ops_size k | None => 0%nat end.
Definition potential (w : stream) : nat := match pending w with Some p => cb_size (pendingCb p) | None => 0%nat end.

Definition fuel_for (w : stream) : nat := S (potential w).
Definition host (w : stream) (op : hostOp) : sres stream := host_op (call_onCopyDone (S (potential w + op_size op))) w op.

(** * The builtins of a guest *)

Inductive answer : Type := Blocked | MustWait | Result (word : Z).

(** [getPendingEvent] on a stream end, which runs [streamEvent]. *)
Definition deliver_event (w : stream) (sd : endSide) (e : streamEnd) : sres (stream * answer) :=
  match pendingEvent e with
  | None => Panic
  | Some ev =>
      let w := if ev_reclaim ev then resetPending w else w in
      let st := if bool_decide (ev_result ev = copyDropped) then copyDone else copyIdle in
      let n := match bufs w !! ev_buf ev with Some b => progressed b | None => 0 end in
      Ok (note (set_holder w sd (AtGuest (set_state (set_event e (livePending e) None) st))) (Told sd (ev_result ev) n),
          Result (packCopyResult (ev_result ev) n))
  end.

(** The end of a copy or a cancellation: the result if it is there; an asynchronous call
    says that it is blocked, a synchronous one waits for the event. *)
Definition finish (w : stream) (sd : endSide) (async : bool) : sres (stream * answer) :=
  match holder_of w sd with
  | AtGuest e =>
      match pendingEvent e with
      | Some _ => deliver_event w sd e
      | None => Ok (w, if async then Blocked else MustWait)
      end
  | _ => Panic
  end.

(** [requireMayLeave] and, for a synchronous call, [requireNotSyncImplicit]. *)
Definition guest_guard (d : driver) (async : bool) : sres unit :=
  if negb (mayLeave d) then Err MayNotLeave
  else if negb async && activeTask d && syncImplicit d then Err SyncTask
  else Ok tt.

Definition armed (e : streamEnd) : bool := match pendingEvent e with Some _ => true | None => false end.

Definition streamCopy (w : stream) (sd : endSide) (async : bool) (ptr n : Z) : sres (stream * answer) :=
  match holder_of w sd with
  | AtGuest e =>
      let* _ := guest_guard (drv w (inst e)) async in
      if negb (bool_decide (state e = copyIdle)) then Err (Busy (state e))
      else if inSet e && negb async then Err InWaitableSet
      else match newGuestBuffer (mem w) (inst e) ptr n with
      | None => Err BadBuffer
      | Some b =>
          let buf := length (bufs w) in
          let w := set_bufs w (bufs w ++ [b]) in
          let w := note (set_holder w sd (AtGuest (set_state (set_event e false (pendingEvent e)) copyCopying))) (Begun sd) in
          let* w := shared_op (call_onCopyDone (fuel_for w)) sd w (Some (inst e)) (mkCb sd buf None) in
          finish w sd async
      end
  | _ => Err NotHeld
  end.

Definition cancelCopy (w : stream) (sd : endSide) (async : bool) : sres (stream * answer) :=
  match holder_of w sd with
  | AtGuest e =>
      let* _ := guest_guard (drv w (inst e)) async in
      if negb (bool_decide (state e = copyCopying)) then Err NotCopying
      else if inSet e && negb async then Err InWaitableSet
      else
        let w := set_holder w sd (AtGuest (set_state e copyCancelling)) in
        let* w := if negb (armed e) || livePending e then shared_cancel (call_onCopyDone (fuel_for w)) w else Ok w in
        finish w sd async
  | _ => Err NotHeld
  end.

Definition streamDrop (w : stream) (sd : endSide) : sres stream :=
  match holder_of w sd with
  | AtGuest e =>
      let* _ := guest_guard (drv w (inst e)) true in
      if busy (state e) then Err BusyDrop
      else
        let* w := shared_drop (call_onCopyDone (fuel_for w)) w in
        match holder_of w sd with
        | AtGuest e => if armed e then Panic (* [dropWaitable] *) else Ok (set_holder w sd Gone)
        | _ => Panic
        end
  | _ => Err NotHeld
  end.

(** [waitable.join], and a wait or a poll that finds the event of an end. *)
Definition join_end (w : stream) (sd : endSide) (b : bool) : sres stream :=
  match holder_of w sd with
  | AtGuest e => Ok (set_holder w sd (AtGuest (mkEnd (inst e) (state e) (livePending e) (pendingEvent e) b)))
  | _ => Err NotHeld
  end.

Definition take_event (w : stream) (sd : endSide) : sres (stream * answer) :=
  match holder_of w sd with AtGuest e => if armed e then deliver_event w sd e else Err NoEvent | _ => Err NotHeld end.

(** * Ends as values

    The readable end leaves a table as a value ([takeReadableStreamEnd]), and arrives at
    another guest or at the host. *)
Definition takeReadableStreamEnd (w : stream) : sres stream :=
  match readable w with
  | AtGuest e =>
      if negb (bool_decide (state e = copyIdle)) then Err (Busy (state e))
      else if inSet e then Err InWaitableSet
      else Ok (set_holder w sideReadable InTransit)
  | _ => Err NotHeld
  end.

Definition new_end (i : nat) : streamEnd := mkEnd i copyIdle false None false.

(** The host gives away a reader it does not use, and forgets it (which the code does not check). *)
Definition lower_readable (w : stream) (i : nat) : sres stream :=
  match readable w with
  | InTransit | AtHost _ copyIdle => Ok (set_holder w sideReadable (AtGuest (new_end i)))
  | _ => Err NotHeld
  end.

Definition lift_to_host (w : stream) (i : nat) : sres stream :=
  match readable w with InTransit => Ok (set_holder w sideReadable (AtHost i copyIdle)) | _ => Err NotHeld end.

(** [stream.new] and [NewStream]. *)
Definition streamNew (m : M) (num : bool) (d : nat → driver) (i : nat) : stream :=
  mkStream m [] num false None (AtGuest (new_end i)) (AtGuest (new_end i)) d [].

Definition NewStream (m : M) (num : bool) (d : nat → driver) (i : nat) : stream :=
  mkStream m [] num false None InTransit (AtHost i copyIdle) d [].
End stream.
