(* ===== verification/CmBuffer.v ===== *)
(** The buffers of a stream ([internal/component/instance/stream.go]): elements in the linear
    memory of a guest or in a list of the host's, and the copy between two of them. *)
From Stdlib Require Import ZArith Lia String.
From stdpp Require Import base list numbers option tactics gmap relations.
From S2P Require Import Prelude CmHandles CmStream AbiTypes AbiLayout AbiLoad AbiStore.
Local Open Scope Z_scope.
Local Open Scope go_scope.

(** * Data *)

(** Where the buffers of an instance lie, and the type of their elements as it names it: the
    linear memory the builtin uses, if any; the element type of the stream, if any, with its size and
    alignment; and what reading and writing elements needs.  [c_fuel] is for the walks over descriptors. *)
Record bufConf (G : Type) := mkConf {
  c_mem : option nat; c_elem : option TypeDesc; c_elemSz : Z; c_align : Z;
  c_resolve : Resolver; c_realloc : Realloc G; c_tag : Z → Z; c_fuel : nat
}.
Arguments mkConf {G}.
Arguments c_mem {G}.
Arguments c_elem {G}.
Arguments c_elemSz {G}.
Arguments c_align {G}.
Arguments c_resolve {G}.
Arguments c_realloc {G}.
Arguments c_tag {G}.
Arguments c_fuel {G}.

(** The linear memories, and the handle table of each instance. *)
Record mems (G : Type) := mkMems { worlds : list (world G); tables : list handles }.
Arguments mkMems {G}.
Arguments worlds {G}.
Arguments tables {G}.

Record guestBuffer := mkGuest { g_inst : nat; g_ptr : Z; g_length : Z; g_progress : Z }.
Record hostBuffer := mkHost { h_vals : list Value; h_progress : Z; h_length : Z }.
Inductive copyBuffer : Type := BGuest (g : guestBuffer) | BHost (h : hostBuffer).

Definition maxBufferLen : Z := 2 ^ 28 - 1.

Definition buf_remain (b : copyBuffer) : Z :=
  match b with BGuest g => u32 (g_length g - g_progress g) | BHost h => u32 (h_length h - h_progress h) end.
Definition buf_isZeroLength (b : copyBuffer) : bool := match b with BGuest g => g_length g =? 0 | BHost h => h_length h =? 0 end.
Definition buf_progressed (b : copyBuffer) : Z := match b with BGuest g => g_progress g | BHost h => h_progress h end.

Definition hostReadBuffer (vals : list Value) : copyBuffer := BHost (mkHost vals 0 (u32 (zlen vals))).
Definition hostWriteBuffer (n : Z) : copyBuffer := BHost (mkHost [] 0 (u32 n)).

Section buffers.
Context {G : Type}.
Variable conf : nat → bufConf G.

(** The bytes of the memory of an instance ([memoryBytesOf]), with the world and the view. *)
Definition memoryBytesOf (m : mems G) (c : bufConf G) : option (nat * world G * list Z) :=
  match c_mem c with
  | None => None
  | Some i =>
      match worlds m !! i with
      | None => None
      | Some w => match arrays w !! v_arr (live w) with Some a => Some (i, w, take (Z.to_nat (v_len (live w))) a) | None => None end
      end
  end.

Definition set_world (m : mems G) (i : nat) (w : world G) : mems G := mkMems (<[i := w]> (worlds m)) (tables m).
Definition set_table (m : mems G) (i : nat) (t : handles) : mems G := mkMems (worlds m) (<[i := t]> (tables m)).

Definition guest_buffer (m : mems G) (i : nat) (ptr n : Z) : option copyBuffer :=
  let c := conf i in
  let n := u32 n in
  if maxBufferLen <? n then None
  else match c_elem c with
  | Some _ =>
      if n =? 0 then Some (BGuest (mkGuest i ptr n 0))
      else match memoryBytesOf m c with
      | None => None
      | Some (_, _, mem) =>
          let align := if c_align c =? 0 then 1 else c_align c in
          if negb (ptr =? Align ptr align) then None
          else if zlen mem <? ptr + n * c_elemSz c then None
          else Some (BGuest (mkGuest i ptr n 0))
      end
  | None => Some (BGuest (mkGuest i ptr n 0))
  end.

(** An own handle that is read leaves the table of its instance, and the resource it
    names is what is passed on; one that is written is new in the table of its instance. *)
Definition lift_own (m : mems G) (i : nat) (c : bufConf G) (v : Value) : option (mems G * Value) :=
  match c_elem c with
  | Some (OwnDesc rt) =>
      match v, tables m !! i with
      | VU32 h, Some t => match TakeOwn t (c_tag c rt) h with Ok (t, r) => Some (set_table m i t, VU32 r) | _ => None end
      | _, _ => None
      end
  | _ => Some (m, v)
  end.

Definition lower_own (m : mems G) (i : nat) (c : bufConf G) (v : Value) : option (mems G * Value) :=
  match c_elem c with
  | Some (OwnDesc rt) =>
      match v, tables m !! i with
      | VU32 r, Some t => let '(t, h) := NewOwn t (c_tag c rt) r in Some (set_table m i t, VU32 h)
      | _, _ => None
      end
  | _ => Some (m, v)
  end.

(** The loop of [read], over the bytes as they were when it began. *)
Fixpoint read_elems (m : mems G) (mem : list Z) (i : nat) (c : bufConf G) (t : TypeDesc) (ptr : Z) (n : nat) : option (mems G * list Value * Z) :=
  match n with
  | O => Some (m, [], ptr)
  | S n =>
      match Load mem (c_fuel c) (c_resolve c) ptr t with
      | Ok v =>
          match lift_own m i c v with
          | Some (m, v) =>
              match read_elems m mem i c t (u32 (ptr + c_elemSz c)) n with
              | Some (m, vs, ptr) => Some (m, v :: vs, ptr)
              | None => None
              end
          | None => None
          end
      | _ => None
      end
  end.

(** The loop of [write], which rebinds the memory after every element. *)
Fixpoint write_elems (m : mems G) (i : nat) (c : bufConf G) (st : StoreStep) (k : nat) (w : world G) (mem : view) (ptr : Z) (vs : list Value) : option (mems G * Z) :=
  match vs with
  | [] => Some (set_world m k w, ptr)
  | v :: vs =>
      match lower_own m i c v with
      | Some (m, v) =>
          match StoreStep_Store (c_realloc c) (c_fuel c) st ptr v w mem with
          | (w, mem, Ok _) => write_elems m i c st k w mem (u32 (ptr + c_elemSz c)) vs
          | _ => None
          end
      | None => None
      end
  end.

Definition buf_read (m : mems G) (b : copyBuffer) (n : Z) : option (mems G * copyBuffer * list Value) :=
  match b with
  | BGuest g =>
      let c := conf (g_inst g) in
      match c_elem c with
      | None => Some (m, BGuest (mkGuest (g_inst g) (g_ptr g) (g_length g) (u32 (g_progress g + n))), repeat VNil (Z.to_nat n))
      | Some t =>
          match memoryBytesOf m c with
          | None => None
          | Some (_, _, mem) =>
              match read_elems m mem (g_inst g) c t (g_ptr g) (Z.to_nat n) with
              | Some (m, vs, ptr) => Some (m, BGuest (mkGuest (g_inst g) ptr (g_length g) (u32 (g_progress g + n))), vs)
              | None => None
              end
          end
      end
  | BHost h =>
      if u32 (zlen (h_vals h)) <? u32 (h_progress h + n) then None
      else Some (m, BHost (mkHost (h_vals h) (u32 (h_progress h + n)) (h_length h)), take (Z.to_nat n) (drop (Z.to_nat (h_progress h)) (h_vals h)))
  end.

Definition buf_write (m : mems G) (b : copyBuffer) (vs : list Value) : option (mems G * copyBuffer) :=
  let n := u32 (zlen vs) in
  match b with
  | BGuest g =>
      let c := conf (g_inst g) in
      match c_elem c with
      | None => Some (m, BGuest (mkGuest (g_inst g) (g_ptr g) (g_length g) (u32 (g_progress g + n))))
      | Some t =>
          match memoryBytesOf m c with
          | None => None
          | Some (k, w, _) =>
              match CompileStore (c_fuel c) t (c_resolve c) with
              | Ok st =>
                  match write_elems m (g_inst g) c st k w (live w) (g_ptr g) vs with
                  | Some (m, ptr) => Some (m, BGuest (mkGuest (g_inst g) ptr (g_length g) (u32 (g_progress g + n))))
                  | None => None
                  end
              | _ => None
              end
          end
      end
  | BHost h =>
      if h_length h <? u32 (h_progress h + n) then None
      else Some (m, BHost (mkHost (h_vals h ++ vs) (u32 (h_progress h + n)) (h_length h)))
  end.

(** [copy(dstMem[dp:dp+nb], srcMem[sp:sp+nb])], between two memories or within one. *)
Definition memmove (m : mems G) (cd cs : bufConf G) (dp sp nb : Z) : option (mems G) :=
  match memoryBytesOf m cd, memoryBytesOf m cs with
  | Some (k, w, dstMem), Some (_, _, srcMem) =>
      if zlen dstMem <? dp + nb then None
      else if zlen srcMem <? sp + nb then None
      else match arrays w !! v_arr (live w) with
      | Some a =>
          let bytes := take (Z.to_nat nb) (drop (Z.to_nat sp) srcMem) in
          Some (set_world m k (mkWorld (<[v_arr (live w) := list_inserts (Z.to_nat dp) bytes a]> (arrays w)) (live w) (guest w)))
      | None => None
      end
  | _, _ => None
  end.

Definition copyElementsMemmove (m : mems G) (dst src : guestBuffer) (n : Z) : option (mems G * guestBuffer * guestBuffer) :=
  if n =? 0 then Some (m, dst, src)
  else
    let cd := conf (g_inst dst) in
    let nb := u32 (n * c_elemSz cd) in
    match (if 0 <? nb then memmove m cd (conf (g_inst src)) (g_ptr dst) (g_ptr src) nb else Some m) with
    | Some m =>
        Some (m, mkGuest (g_inst dst) (u32 (g_ptr dst + nb)) (g_length dst) (u32 (g_progress dst + n)),
              mkGuest (g_inst src) (u32 (g_ptr src + nb)) (g_length src) (u32 (g_progress src + n)))
    | None => None
    end.

(** The general path: the elements as values. *)
Definition copy_values (m : mems G) (dst src : copyBuffer) (n : Z) : option (mems G * copyBuffer * copyBuffer) :=
  match buf_read m src n with
  | Some (m, src, vs) => match buf_write m dst vs with Some (m, dst) => Some (m, dst, src) | None => None end
  | None => None
  end.

Definition copy_elements (numeric : bool) (m : mems G) (dst src : copyBuffer) (n : Z) : option (mems G * copyBuffer * copyBuffer) :=
  match numeric, dst, src with
  | true, BGuest d, BGuest s =>
      match copyElementsMemmove m d s n with Some (m, d, s) => Some (m, BGuest d, BGuest s) | None => None end
  | _, _, _ => copy_values m dst src n
  end.

#[local] Instance buffers : CopyBuffers (mems G) copyBuffer Value := {
  remain := buf_remain; isZeroLength := buf_isZeroLength; progressed := buf_progressed;
  newHostReadBuffer := hostReadBuffer; newHostWriteBuffer := hostWriteBuffer; newGuestBuffer := guest_buffer;
  copyElements := copy_elements
}.

(** * The laws of the interface *)

Definition buf_len (b : copyBuffer) : Z := match b with BGuest g => g_length g | BHost h => h_length h end.
Definition buf_ok (b : copyBuffer) : Prop := 0 ≤ buf_progressed b ≤ buf_len b ∧ buf_len b < 2 ^ 32.

Lemma u32_bound x : 0 ≤ u32 x < 2 ^ 32.
Proof. unfold u32, wrap. apply Z.mod_pos_bound. lia. Qed.

Lemma read_elems_length m mem i c t n : ∀ ptr m' vs ptr', read_elems m mem i c t ptr n = Some (m', vs, ptr') → length vs = n.
Proof.
  revert m. induction n as [|n IH]; intros m ptr m' vs ptr'; cbn; [by intros [= <- <- <-]|].
  destruct (Load _ _ _ _ _) as [v| | |]; try done. destruct (lift_own m i c v) as [[m1 v1]|]; [|done].
  destruct (read_elems m1 _ _ _ _ _ _) as [[[m2 vs2] p2]|] eqn:E; [|done]. intros [= <- <- <-]. cbn. f_equal. by eapply IH.
Qed.

(** Reading returns as many elements as were asked for, and moves the buffer by them. *)
Lemma buf_read_ok m b n m' b' vs : buf_ok b → 0 ≤ n ≤ buf_remain b → buf_read m b n = Some (m', b', vs) →
  buf_ok b' ∧ buf_len b' = buf_len b ∧ buf_progressed b' = buf_progressed b + n ∧ zlen vs = n.
Proof.
  intros [Hp Hl] Hn. assert (buf_remain b = buf_len b - buf_progressed b) as Er by (destruct b; cbn in *; rewrite wrap_small; lia).
  rewrite Er in Hn. destruct b as [g|h]; cbn in Hn, Hp, Hl, Er |- *.
  - assert (u32 (g_progress g + n) = g_progress g + n) as Ew by (apply wrap_small; lia).
    destruct (c_elem (conf (g_inst g))) as [t|].
    + destruct (memoryBytesOf m _) as [[[k w] mem]|]; [|done]. destruct (read_elems _ _ _ _ _ _ _) as [[[m1 vs1] p1]|] eqn:E; [|done].
      intros [= <- <- <-]. apply read_elems_length in E. cbn. rewrite Ew. split_and!; [split; cbn; lia|done|done|unfold zlen; lia].
    + intros [= <- <- <-]. cbn. rewrite Ew. split_and!; [split; cbn; lia|done|done|]. unfold zlen. rewrite repeat_length. lia.
  - assert (u32 (h_progress h + n) = h_progress h + n) as Ew by (apply wrap_small; lia). rewrite Ew.
    destruct (u32 (zlen (h_vals h)) <? h_progress h + n) eqn:El; [done|]. apply Z.ltb_ge in El.
    intros [= <- <- <-]. cbn. split_and!; [split; cbn; lia|done|done|]. unfold zlen in *. rewrite length_take, length_drop.
    pose proof (Z.mod_le (Z.of_nat (length (h_vals h))) (2 ^ 32) ltac:(lia) ltac:(lia)). unfold u32, wrap in El. lia.
Qed.

Lemma buf_write_ok m b vs m' b' : buf_ok b → zlen vs ≤ buf_remain b → buf_write m b vs = Some (m', b') →
  buf_ok b' ∧ buf_len b' = buf_len b ∧ buf_progressed b' = buf_progressed b + zlen vs.
Proof.
  intros [Hp Hl] Hn. assert (buf_remain b = buf_len b - buf_progressed b) as Er by (destruct b; cbn in *; rewrite wrap_small; lia).
  rewrite Er in Hn. pose proof (zlen_nonneg vs). unfold buf_write. assert (u32 (zlen vs) = zlen vs) as Ez by (apply wrap_small; destruct b; cbn in *; lia). rewrite Ez.
  destruct b as [g|h]; cbn in Hn, Hp, Hl, Er |- *.
  - assert (u32 (g_progress g + zlen vs) = g_progress g + zlen vs) as Ew by (apply wrap_small; lia).
    destruct (c_elem (conf (g_inst g))) as [t|].
    + destruct (memoryBytesOf m _) as [[[k w] mem]|]; [|done]. destruct (CompileStore _ _ _) as [st| | |]; try done.
      destruct (write_elems _ _ _ _ _ _ _ _ _) as [[m1 p1]|]; [|done]. intros [= <- <-]. cbn. rewrite Ew. split_and!; [split; cbn; lia|done|done].
    + intros [= <- <-]. cbn. rewrite Ew. split_and!; [split; cbn; lia|done|done].
  - assert (u32 (h_progress h + zlen vs) = h_progress h + zlen vs) as Ew by (apply wrap_small; lia). rewrite Ew.
    destruct (h_length h <? h_progress h + zlen vs); [done|]. intros [= <- <-]. cbn. split_and!; [split; cbn; lia|done|done].
Qed.

Lemma memmove_bufs_ok m d s n m' d' s' : buf_ok (BGuest d) → buf_ok (BGuest s) → 0 ≤ n ≤ buf_remain (BGuest d) → n ≤ buf_remain (BGuest s) →
  copyElementsMemmove m d s n = Some (m', d', s') →
  buf_ok (BGuest d') ∧ buf_ok (BGuest s') ∧ g_length d' = g_length d ∧ g_length s' = g_length s ∧ g_progress d' = g_progress d + n ∧ g_progress s' = g_progress s + n.
Proof.
  intros [Hpd Hld] [Hps Hls] Hn1 Hn2. cbn in *. rewrite wrap_small in Hn1, Hn2 by lia. unfold copyElementsMemmove.
  destruct (n =? 0) eqn:E0.
  - apply Z.eqb_eq in E0 as ->. intros [= <- <- <-]. rewrite !Z.add_0_r. done.
  - assert (u32 (g_progress d + n) = g_progress d + n ∧ u32 (g_progress s + n) = g_progress s + n) as [E1 E2] by (split; apply wrap_small; lia).
    destruct (if 0 <? _ then _ else _) as [m1|]; [|done]. intros [= <- <- <-]. unfold buf_ok. cbn. rewrite E1, E2. lia.
Qed.

#[local] Instance buffer_laws : BufferLaws (mems G) copyBuffer Value.
Proof.
  refine {| bufok := buf_ok; len := buf_len |}; cbn.
  - intros [g|h] [Hp Hl]; cbn in *; (rewrite wrap_small by lia); lia.
  - by intros [g|h].
  - intros vals. split; [|done]. pose proof (u32_bound (zlen vals)). unfold buf_ok; cbn. lia.
  - intros n. split; [|done]. pose proof (u32_bound n). unfold buf_ok; cbn. lia.
  - done.
  - done.
  - intros m i ptr n b. unfold guest_buffer. pose proof (u32_bound n).
    destruct (maxBufferLen <? u32 n); [done|]. destruct (c_elem _); [destruct (u32 n =? 0)|].
    + intros [= <-]. unfold buf_ok; cbn. lia.
    + destruct (memoryBytesOf _ _) as [[[? ?] ?]|]; [|done]. destruct (negb _); [done|]. destruct (_ <? _); [done|]. intros [= <-]. unfold buf_ok; cbn. lia.
    + intros [= <-]. unfold buf_ok; cbn. lia.
  - intros num m dst src n m' dst' src' Hd Hs Hn1 Hn2.
    assert (copy_values m dst src n = Some (m', dst', src') → buf_ok dst' ∧ buf_ok src' ∧ buf_len dst' = buf_len dst ∧ buf_len src' = buf_len src ∧
      buf_progressed dst' = buf_progressed dst + n ∧ buf_progressed src' = buf_progressed src + n) as Hgen.
    { unfold copy_values. destruct (buf_read m src n) as [[[m1 s1] vs]|] eqn:E1; [|done]. destruct (buf_write m1 dst vs) as [[m2 d2]|] eqn:E2; [|done].
      intros [= <- <- <-]. apply buf_read_ok in E1 as (? & ? & ? & Ez); [|done|lia]. apply buf_write_ok in E2 as (? & ? & ?); [|done|lia]. rewrite Ez in *. done. }
    unfold copy_elements. destruct num, dst as [d|d], src as [s|s]; try exact Hgen.
    destruct (copyElementsMemmove m d s n) as [[[m1 d1] s1]|] eqn:E; [|done]. intros [= <- <- <-]. cbn.
    by apply (memmove_bufs_ok m d s n m1 d1 s1).
Defined.
End buffers.
