(* ===== verification/CmStreamInv.v ===== *)
(** The invariant of a stream: whatever its ends do, in whatever order, every operation is
    parked, told or about to be told, and both sides are told of the same elements.  A host
    may act on either end in a callback, but for those of operations of no elements. *)
From Stdlib Require Import ZArith Lia.
From stdpp Require Import base list numbers option tactics relations.
From S2P Require Import Prelude CmStream.
Local Open Scope Z_scope.
Local Open Scope go_scope.

Section inv.
Context {M B V : Type} `{BL : BufferLaws M B V}.

Abbreviation strm := (@stream M B V).
Abbreviation cback := (@callback V).

Definition other_side (sd : endSide) : endSide := match sd with sideReadable => sideWritable | sideWritable => sideReadable end.

(** ** Phases

    Where an end is in its operation: it has none; its buffer is in flight, in the middle of a call
    ([fresh]: nothing has happened to it yet); it is parked, for a guest without or with an event, for a host
    with what the host does when told; or its final event is armed. *)
Inductive phase : Type :=
| Rest | Flying (b : nat) (h : option (list (@hostOp V))) (fresh : bool) | Waiting (b : nat) | Armed (b : nat) | Hosted (b : nat) (k : list (@hostOp V)) | Final (b : nat) (r : copyResult).

Definition parked_at (w : strm) (sd : endSide) : Prop := match pending w with Some p => cb_side (pendingCb p) = sd | None => False end.

(** A host that does nothing in the callback of an operation of no elements; in any other
    it may act on either end, as it likes. *)
Fixpoint polite (op : @hostOp V) : bool :=
  let all := fix all (ops : list (@hostOp V)) : bool := match ops with [] => true | op :: ops => polite op && all ops end in
  match op with
  | HWrite vals k => (negb (u32 (zlen vals) =? 0) || match k with [] => true | _ => false end) && all k
  | HRead n k => (negb (u32 n =? 0) || match k with [] => true | _ => false end) && all k
  | HClose _ | HCancel _ => true
  end.

Definition polites (k : list (@hostOp V)) : Prop := Forall (λ op, polite op = true) k.

Definition has_phase (w : strm) (sd : endSide) (p : phase) : Prop :=
  match p with
  | Rest => ¬ parked_at w sd ∧
      match holder_of w sd with AtGuest e => busy (state e) = false ∧ pendingEvent e = None | AtHost _ st => busy st = false | _ => True end
  | Flying b h fresh => ¬ parked_at w sd ∧
      (∃ x, bufs w !! b = Some x ∧ (fresh = true → progressed x = 0 ∧ (∀ k, h = Some k → remain x = 0 → k = []))) ∧
      match holder_of w sd with
      | AtGuest e => h = None ∧ busy (state e) = true ∧ (fresh = true → pendingEvent e = None)
      | AtHost _ st => busy st = true ∧ ∃ k, h = Some k ∧ polites k
      | _ => False
      end
  | Waiting b => ∃ e, holder_of w sd = AtGuest e ∧ busy (state e) = true ∧ pendingEvent e = None ∧ pending w = Some (mkParked (Some (inst e)) (mkCb sd b None))
  | Armed b => ∃ e x, holder_of w sd = AtGuest e ∧ busy (state e) = true ∧ pendingEvent e = Some (mkEvent copyCompleted b true) ∧
      pending w = Some (mkParked (Some (inst e)) (mkCb sd b None)) ∧ bufs w !! b = Some x ∧ livePending e = (0 <? remain x)
  | Hosted b k => ∃ i st x, holder_of w sd = AtHost i st ∧ busy st = true ∧ pending w = Some (mkParked None (mkCb sd b (Some k))) ∧
      polites k ∧ bufs w !! b = Some x ∧ progressed x = 0 ∧ (remain x = 0 → k = [])
  | Final b r => ¬ parked_at w sd ∧ (r = copyDropped → dropped w = true) ∧
      ∃ e, holder_of w sd = AtGuest e ∧ busy (state e) = true ∧ pendingEvent e = Some (mkEvent r b false) ∧ livePending e = false
  end.

(** The buffer of the operation in progress. *)
Definition out_buf (p : phase) : option nat :=
  match p with Rest => None | Flying b _ _ | Waiting b | Armed b | Hosted b _ | Final b _ => Some b end.

Definition loose (p : phase) : Prop := match p with Rest | Flying _ _ _ | Final _ _ => True | _ => False end.

(** ** Accounts *)

Definition told_of (sd : endSide) (x : entry) : Z := match x with Told s _ n => if decide (s = sd) then n else 0 | _ => 0 end.
Definition begun_of (sd : endSide) (x : entry) : Z := match x with Begun s => if decide (s = sd) then 1 else 0 | _ => 0 end.
Definition ended_of (sd : endSide) (x : entry) : Z := match x with Told s _ _ => if decide (s = sd) then 1 else 0 | _ => 0 end.

Definition sum_log (f : entry → Z) (l : list entry) : Z := foldr (λ x n, f x + n) 0 l.

Lemma sum_log_snoc f l x : sum_log f (l ++ [x]) = sum_log f l + f x.
Proof. unfold sum_log. induction l as [|y l IH]; cbn in *; lia. Qed.

Definition progress_of (w : strm) (p : phase) : Z :=
  match out_buf p with Some b => match bufs w !! b with Some x => progressed x | None => 0 end | None => 0 end.

(** The elements that a side was told of, and those of its operation in progress. *)
Definition total (w : strm) (sd : endSide) (p : phase) : Z := sum_log (told_of sd) (log w) + progress_of w p.

Record sinv (w : strm) (ph : endSide → phase) : Prop := {
  si_phase : ∀ sd, has_phase w sd (ph sd);
  si_bufs : ∀ sd b, out_buf (ph sd) = Some b → ∃ x, bufs w !! b = Some x ∧ bufok x;
  si_apart : ∀ b, out_buf (ph sideReadable) = Some b → out_buf (ph sideWritable) = Some b → False;
  si_dropped : dropped w = true → pending w = None;
  si_total : total w sideReadable (ph sideReadable) = total w sideWritable (ph sideWritable);
  si_begun : ∀ sd, sum_log (begun_of sd) (log w) = sum_log (ended_of sd) (log w) + (match out_buf (ph sd) with Some _ => 1 | None => 0 end);
  si_told : ∀ sd n, Told sd copyDropped n ∈ log w → dropped w = true
}.

Definition upd (ph : endSide → phase) (sd : endSide) (p : phase) : endSide → phase := λ s, if decide (s = sd) then p else ph s.

Lemma upd_same ph sd p : upd ph sd p sd = p.
Proof. unfold upd. by rewrite decide_True. Qed.

Lemma upd_other ph sd p : upd ph sd p (other_side sd) = ph (other_side sd).
Proof. unfold upd. by destruct sd. Qed.

Lemma sinv_ext w ph ph' : (∀ s, ph s = ph' s) → sinv w ph → sinv w ph'.
Proof.
  intros E [A1 A2 A3 A4 A5 A6 A7]. split.
  - intros s. rewrite <- (E s). apply A1.
  - intros s. rewrite <- (E s). apply A2.
  - intros b. rewrite <- (E sideReadable), <- (E sideWritable). apply A3.
  - done.
  - by rewrite <- (E sideReadable), <- (E sideWritable).
  - intros s. rewrite <- (E s). apply A6.
  - done.
Qed.

Lemma side_cases (P : endSide → Prop) sd : P sd → P (other_side sd) → ∀ s, P s.
Proof. by destruct sd; intros ? ? []. Qed.

(** ** Frames *)

Lemma has_phase_frame (w w' : strm) sd p : has_phase w sd p → holder_of w' sd = holder_of w sd →
  (pending w' = pending w ∨ loose p ∧ ¬ parked_at w' sd) → (∀ b, out_buf p = Some b → bufs w' !! b = bufs w !! b) →
  (dropped w = true → dropped w' = true) → has_phase w' sd p.
Proof.
  intros Hp Hh Hpd Hb Hd.
  assert (¬ parked_at w sd → pending w' = pending w ∨ ¬ parked_at w' sd → ¬ parked_at w' sd) as Hpk.
  { unfold parked_at. intros H1 [->|?]; done. }
  destruct p as [|b h fr|b|b|b k|b r]; cbn [has_phase out_buf loose] in *; try rewrite Hh.
  - destruct Hp as [H1 H2]. split; [apply Hpk; tauto|done].
  - destruct Hp as (H1 & (x & Hx & Hf) & H3). split_and!; [apply Hpk; tauto| |done]. exists x. by rewrite (Hb b eq_refl).
  - destruct Hpd as [->|[[] _]]. done.
  - destruct Hpd as [->|[[] _]]. destruct Hp as (e & x & ? & ? & ? & ? & ? & ?). exists e, x. by rewrite (Hb b eq_refl).
  - destruct Hpd as [->|[[] _]]. destruct Hp as (i & st & x & ? & ? & ? & ? & ? & ? & ?). exists i, st, x. by rewrite (Hb b eq_refl).
  - destruct Hp as (H1 & H2 & H3). split_and!; [apply Hpk; tauto|auto|done].
Qed.

Lemma progress_frame (w w' : strm) p : (∀ b, out_buf p = Some b → bufs w' !! b = bufs w !! b) → progress_of w' p = progress_of w p.
Proof. intros Hb. unfold progress_of. destruct (out_buf p) as [b|]; [by rewrite Hb|done]. Qed.

(** A step of one side that leaves the buffers, and the other side, as they are. *)
Lemma sinv_side (w w' : strm) ph sd p : sinv w ph → bufs w' = bufs w → holder_of w' (other_side sd) = holder_of w (other_side sd) →
  (pending w' = pending w ∨ loose (ph (other_side sd)) ∧ ¬ parked_at w' (other_side sd)) → (dropped w = true → dropped w' = true) →
  (dropped w' = true → pending w' = None) → has_phase w' sd p → (out_buf p = None ∨ out_buf p = out_buf (ph sd)) →
  (∃ l, log w' = (log w ++ l)%list ∧ ∀ s, sum_log (told_of s) l = (if decide (s = sd) then progress_of w (ph sd) - progress_of w p else 0) ∧
    sum_log (begun_of s) l = 0 ∧ sum_log (ended_of s) l = (if decide (s = sd) then (match out_buf (ph sd) with Some _ => 1 | None => 0 end) - (match out_buf p with Some _ => 1 | None => 0 end) else 0) ∧
    ∀ n, Told s copyDropped n ∈ l → dropped w' = true) →
  sinv w' (upd ph sd p).
Proof.
  intros Hi Hb Hh Hpd Hd Hdp Hp Hout (l & Hl & Hsum).
  assert (∀ f l', sum_log f (l' ++ l) = sum_log f l' + sum_log f l) as Happ.
  { intros f l'. unfold sum_log. induction l' as [|y l' IH]; cbn in *; lia. }
  assert (∀ b, out_buf p = Some b → out_buf (ph sd) = Some b) as Hout' by (intros b E; destruct Hout; congruence).
  assert (∀ s b, out_buf (upd ph sd p s) = Some b → out_buf (ph s) = Some b) as Hall.
  { intros s b. unfold upd. destruct (decide (s = sd)) as [->|]; auto. }
  split.
  - apply (side_cases _ sd); [by rewrite upd_same|]. rewrite upd_other. apply (has_phase_frame w); [apply Hi|done|done|by intros; rewrite Hb|done].
  - intros s b E. rewrite Hb. apply (si_bufs _ _ Hi s b). auto.
  - intros b E1 E2. apply (si_apart _ _ Hi b); auto.
  - done.
  - pose proof (si_total _ _ Hi) as Ht. unfold total in *. rewrite Hl, !Happ.
    assert (∀ q, progress_of w' q = progress_of w q) as Hq by (intros q; apply progress_frame; by intros; rewrite Hb).
    rewrite !Hq. destruct (Hsum sideReadable) as (-> & _ & _), (Hsum sideWritable) as (-> & _ & _).
    unfold upd. destruct sd; repeat case_decide; try done; lia.
  - intros s. rewrite Hl, !Happ. destruct (Hsum s) as (_ & -> & -> & _). pose proof (si_begun _ _ Hi s).
    unfold upd. destruct (decide (s = sd)) as [->|]; lia.
  - intros s n. rewrite Hl, elem_of_app. intros [Hin|Hin]; [apply Hd; by apply (si_told _ _ Hi s n)|].
    destruct (Hsum s) as (_ & _ & _ & Ht). by eapply Ht.
Qed.

(** A step that tells nobody. *)
Lemma sinv_quiet (w w' : strm) ph sd p : sinv w ph → bufs w' = bufs w → log w' = log w → holder_of w' (other_side sd) = holder_of w (other_side sd) →
  (pending w' = pending w ∨ loose (ph (other_side sd)) ∧ ¬ parked_at w' (other_side sd)) → (dropped w = true → dropped w' = true) →
  (dropped w' = true → pending w' = None) → has_phase w' sd p → out_buf p = out_buf (ph sd) → sinv w' (upd ph sd p).
Proof.
  intros Hi Hb Hl Hh Hpd Hd Hdp Hp Ho. eapply sinv_side; try done; [by right|]. exists []. rewrite app_nil_r. split; [done|].
  intros s. unfold progress_of. rewrite Ho. split_and!; [by case_decide; cbn; lia|done|by case_decide; cbn; lia|by intros n ?%elem_of_nil].
Qed.

(** A step that tells the result of the operation. *)
Lemma sinv_tell (w w' : strm) ph sd p b r x : sinv w ph → bufs w' = bufs w → out_buf (ph sd) = Some b → bufs w !! b = Some x →
  log w' = (log w ++ [Told sd r (progressed x)])%list → holder_of w' (other_side sd) = holder_of w (other_side sd) →
  (pending w' = pending w ∨ loose (ph (other_side sd)) ∧ ¬ parked_at w' (other_side sd)) → (dropped w = true → dropped w' = true) →
  (dropped w' = true → pending w' = None) → has_phase w' sd p → out_buf p = None → (r = copyDropped → dropped w' = true) → sinv w' (upd ph sd p).
Proof.
  intros Hi Hb Ho Hx Hl Hh Hpd Hd Hdp Hp Hn Hr. eapply sinv_side; try done; [by left|]. exists [Told sd r (progressed x)]. split; [done|].
  intros s. unfold progress_of, sum_log. rewrite Ho, Hn, Hx. cbn [foldr told_of begun_of ended_of].
  split_and!; [destruct (decide (sd = s)), (decide (s = sd)); subst; done || lia..|].
  intros n [= <- <- _]%list_elem_of_singleton. by apply Hr.
Qed.

(** Whoever is parked is so in its phase. *)
Lemma parked_phase w ph p : sinv w ph → pending w = Some p → let sd := cb_side (pendingCb p) in
  ph sd = Waiting (cb_buf (pendingCb p)) ∧ cb_host (pendingCb p) = None ∨ ph sd = Armed (cb_buf (pendingCb p)) ∧ cb_host (pendingCb p) = None ∨
  ∃ k, ph sd = Hosted (cb_buf (pendingCb p)) k ∧ cb_host (pendingCb p) = Some k.
Proof.
  intros Hi Hp. cbn. pose proof (si_phase _ _ Hi (cb_side (pendingCb p))) as Hph.
  assert (parked_at w (cb_side (pendingCb p))) as Hpk by (unfold parked_at; by rewrite Hp).
  destruct (ph _) as [|b h fr|b|b|b k|b r]; cbn in Hph; [tauto|tauto| | | |tauto].
  - destruct Hph as (e & _ & _ & _ & E). rewrite Hp in E. injection E as E. left. by rewrite E.
  - destruct Hph as (e & x & _ & _ & _ & E & _). rewrite Hp in E. injection E as E. right; left. by rewrite E.
  - destruct Hph as (i & st & x & _ & _ & E & _). rewrite Hp in E. injection E as E. right; right. exists k. by rewrite E.
Qed.

Lemma unparked_loose w sd p : has_phase w sd p → ¬ parked_at w sd → loose p.
Proof.
  intros Hp Hn. destruct p as [|b h fr|b|b|b k|b r]; cbn in *; [done|done| | | |done]; exfalso; apply Hn; unfold parked_at.
  - destruct Hp as (e & _ & _ & _ & ->). done.
  - destruct Hp as (e & x & _ & _ & _ & -> & _). done.
  - destruct Hp as (i & st & x & _ & _ & -> & _). done.
Qed.

Lemma loose_unparked w sd p : has_phase w sd p → loose p → ¬ parked_at w sd.
Proof. by destruct p; cbn; [intros [? _]|intros [? _]|..|intros [? _]]. Qed.

Lemma parked_other w ph p : sinv w ph → pending w = Some p → loose (ph (other_side (cb_side (pendingCb p)))) ∧ out_buf (ph (cb_side (pendingCb p))) = Some (cb_buf (pendingCb p)).
Proof.
  intros Hi Hp. split.
  - apply (unparked_loose w (other_side (cb_side (pendingCb p)))); [apply Hi|]. unfold parked_at. rewrite Hp. by destruct (cb_side (pendingCb p)).
  - destruct (parked_phase w ph p Hi Hp) as [[-> _]|[[-> _]|(k & -> & _)]]; done.
Qed.

(** Who is parked. *)
Lemma parked_holder w ph p : sinv w ph → pending w = Some p → let sd := cb_side (pendingCb p) in
  (∃ e, holder_of w sd = AtGuest e ∧ busy (state e) = true ∧ pendingInst p = Some (inst e) ∧ cb_host (pendingCb p) = None) ∨
  (∃ i st k x, holder_of w sd = AtHost i st ∧ busy st = true ∧ pendingInst p = None ∧ cb_host (pendingCb p) = Some k ∧ polites k ∧
    bufs w !! cb_buf (pendingCb p) = Some x ∧ progressed x = 0 ∧ (remain x = 0 → k = [])).
Proof.
  intros Hi Hp sd. pose proof (si_phase _ _ Hi sd) as Hph.
  destruct (parked_phase w ph p Hi Hp) as [[E ->]|[[E ->]|(k & E & ->)]]; fold sd in E; rewrite E in Hph.
  - destruct Hph as (e & ? & ? & _ & Hpe). left. exists e. rewrite Hp in Hpe. injection Hpe as ->. done.
  - destruct Hph as (e & q & ? & ? & _ & Hpe & _). left. exists e. rewrite Hp in Hpe. injection Hpe as ->. done.
  - destruct Hph as (i & st & x & ? & ? & Hpe & ? & ? & ? & ?). right. exists i, st, k, x. rewrite Hp in Hpe. injection Hpe as ->. done.
Qed.

(** ** The moves of a shared object *)

(** Un-parking: the buffer is in flight. *)
Lemma sinv_unpark w w' ph p : sinv w ph → pending w = Some p → w' = resetPending w ∨ w' = resetPending (set_dropped w) →
  sinv w' (upd ph (cb_side (pendingCb p)) (Flying (cb_buf (pendingCb p)) (cb_host (pendingCb p)) false)).
Proof.
  intros Hi Hp Hw. destruct (parked_other w ph p Hi Hp) as [Hl Ho].
  assert (pending w' = None ∧ bufs w' = bufs w ∧ log w' = log w ∧ (∀ s, holder_of w' s = holder_of w s) ∧ (dropped w = true → dropped w' = true)) as (Hp' & Hb & Hlg & Hh & Hd).
  { destruct Hw as [->| ->]; by split_and!; try (by intros []). }
  apply (sinv_quiet w); [done|done|done|done|right|done|done| |done].
  { split; [done|]. unfold parked_at. rewrite Hp'. by intros []. }
  destruct (si_bufs _ _ Hi _ _ Ho) as (x & Hx & _). pose proof (si_phase _ _ Hi (cb_side (pendingCb p))) as Hph.
  cbn [has_phase]. rewrite Hh, Hb. split; [unfold parked_at; rewrite Hp'; by intros []|]. split; [exists x; by split|].
  destruct (parked_phase w ph p Hi Hp) as [[E ->]|[[E ->]|(k & E & ->)]]; rewrite E in Hph; cbn in Hph.
  - destruct Hph as (e & -> & He & _). by split_and!.
  - destruct Hph as (e & y & -> & He & _). by split_and!.
  - destruct Hph as (i & st & y & -> & Hst & _ & Hk & _). split; [done|]. by exists k.
Qed.

(** Arming the final event of a guest. *)
Lemma sinv_final w ph sd b fr r : sinv w ph → ph sd = Flying b None fr → (r = copyDropped → dropped w = true) →
  ∃ e, holder_of w sd = AtGuest e ∧ sinv (set_holder w sd (AtGuest (set_event e false (Some (mkEvent r b false))))) (upd ph sd (Final b r)).
Proof.
  intros Hi Hf Hr. pose proof (si_phase _ _ Hi sd) as Hph. rewrite Hf in Hph. destruct Hph as (Hpk & Hx & Hh).
  destruct (holder_of w sd) as [e|i st| |] eqn:Eh; [|by destruct Hh as (_ & k & ? & _)|done|done]. exists e. split; [done|].
  apply (sinv_quiet w); [done|done|done|by destruct sd|by left|done|apply Hi| |by rewrite Hf].
  cbn. split; [done|]. split; [done|]. exists (set_event e false (Some (mkEvent r b false))). by destruct sd, Hh as (_ & ? & _).
Qed.

(** Telling a host. *)
Lemma sinv_told w ph sd b k fr r x : sinv w ph → ph sd = Flying b (Some k) fr → bufs w !! b = Some x → (r = copyDropped → dropped w = true) →
  ∃ i st, holder_of w sd = AtHost i st ∧ polites k ∧ ∀ st', busy st' = false →
    sinv (note (set_holder w sd (AtHost i st')) (Told sd r (progressed x))) (upd ph sd Rest).
Proof.
  intros Hi Hf Hx Hr. pose proof (si_phase _ _ Hi sd) as Hph. rewrite Hf in Hph. destruct Hph as (Hpk & _ & Hh).
  destruct (holder_of w sd) as [e|i st| |] eqn:Eh; [by destruct Hh as (? & _)| |done|done]. exists i, st. split; [done|].
  destruct Hh as (_ & k' & [= <-] & Hk). split; [done|]. intros st' Hst. eapply (sinv_tell w _ ph sd Rest b r x); try done; [by rewrite Hf|by destruct sd|by left|apply Hi| ].
  cbn. split; [done|]. by destruct sd.
Qed.

(** Parking a fresh buffer. *)
Lemma sinv_park w ph sd b h p : sinv w ph → ph sd = Flying b h true → pending w = None → dropped w = false →
  p = mkParked (match holder_of w sd with AtGuest e => Some (inst e) | _ => None end) (mkCb sd b h) →
  sinv (setPending w (Some p)) (upd ph sd (match h with None => Waiting b | Some k => Hosted b k end)).
Proof.
  intros Hi Hf Hp Hd ->. pose proof (si_phase _ _ Hi sd) as Hph. rewrite Hf in Hph. destruct Hph as (Hpk & (x & Hx & Hfr) & Hh).
  assert (loose (ph (other_side sd))) as Hl.
  { apply (unparked_loose w (other_side sd)); [apply Hi|]. unfold parked_at. rewrite Hp. by intros []. }
  apply (sinv_quiet w); [done|done|done|done| |done|by intros Hd'; cbn in Hd'; congruence| |rewrite Hf; by destruct h].
  { right. split; [done|]. unfold parked_at. cbn. by destruct sd. }
  destruct (Hfr eq_refl) as [H0 Hk]. destruct (holder_of w sd) as [e|i st| |] eqn:Eh; [| |done|done].
  - destruct Hh as (-> & He & Hev). cbn. exists e. split_and!; [done|done|by apply Hev|done].
  - destruct Hh as (Hst & k & -> & Hpk'). cbn. exists i, st, x. split_and!; try done. by apply Hk.
Qed.

(** A copy between the buffer in flight of a side and the buffer that is parked. *)
Lemma sinv_copied w w' ph sd b h fr po pb x y x' y' n : sinv w ph → ph sd = Flying b h fr → out_buf (ph (other_side sd)) = Some pb →
  bufs w !! b = Some x → bufs w !! pb = Some y → bufok x' → bufok y' → progressed x' = progressed x + n → progressed y' = progressed y + n →
  (bufs w' = <[b := x']> (<[pb := y']> (bufs w)) ∨ bufs w' = <[pb := y']> (<[b := x']> (bufs w))) →
  log w' = log w → holder_of w' sd = holder_of w sd → dropped w' = dropped w → dropped w = false →
  ¬ parked_at w' sd → has_phase w' (other_side sd) po → out_buf po = Some pb →
  sinv w' (upd (upd ph sd (Flying b h false)) (other_side sd) po).
Proof.
  intros Hi Hf Hpb Hx Hy Hx' Hy' Px Py Hb Hl Hh Hd Hd0 Hpk Hpo Ho.
  assert (b ≠ pb) as Hne.
  { intros <-. apply (si_apart _ _ Hi b); destruct sd; cbn in *; rewrite ?Hf, ?Hpb; done. }
  assert (bufs w' !! b = Some x' ∧ bufs w' !! pb = Some y') as [Hbx Hby].
  { pose proof (lookup_lt_Some _ _ _ Hx). pose proof (lookup_lt_Some _ _ _ Hy).
    destruct Hb as [->| ->]; split; rewrite ?list_lookup_insert_ne by done; rewrite ?list_lookup_insert_eq by (rewrite ?length_insert; lia);
      rewrite ?list_lookup_insert_ne by done; rewrite ?list_lookup_insert_eq by lia; done. }
  set (ph' := upd _ _ _).
  assert (ph' sd = Flying b h false ∧ ph' (other_side sd) = po) as [E1 E2].
  { unfold ph'. split; [|by rewrite upd_same]. unfold upd. by destruct sd; repeat case_decide. }
  assert (∀ q, total w' q (ph' q) = total w q (ph q) + n) as Htot.
  { apply (side_cases _ sd); unfold total, progress_of; rewrite ?E1, ?E2, Hl; cbn [out_buf].
    - rewrite Hf. cbn [out_buf]. rewrite Hbx, Hx. lia.
    - rewrite Ho, Hpb, Hby, Hy. lia. }
  split.
  - apply (side_cases _ sd); [rewrite E1|by rewrite E2]. pose proof (si_phase _ _ Hi sd) as Hph. rewrite Hf in Hph.
    destruct Hph as (_ & _ & Hph). split; [done|]. split; [by exists x'|]. rewrite Hh. destruct (holder_of w sd) as [e|i st| |]; [|done..]. by destruct Hph as (? & ? & _).
  - refine (side_cases _ sd _ _); rewrite ?E1, ?E2, ?Ho; cbn; intros q [= <-]; [by exists x'|by exists y'].
  - intros q. destruct sd; cbn in *; rewrite E1, E2, Ho; cbn; congruence.
  - congruence.
  - rewrite !Htot. by rewrite (si_total _ _ Hi).
  - intros q. pose proof (si_begun _ _ Hi q) as Hq. rewrite Hl. revert q Hq. refine (side_cases _ sd _ _); rewrite ?E1, ?E2, ?Hf, ?Ho, ?Hpb; done.
  - intros q m. rewrite Hl, Hd. apply (si_told _ _ Hi).
Qed.

(** ** What a call leaves

    The side that acted is settled; the other side is too, unless it was in flight, and then
    it still is.  [bound] is on the callbacks that can still run. *)
Definition settled (p : phase) : Prop := match p with Flying _ _ _ => False | _ => True end.

(** The holder of an end in an operation, or about to begin one: a host may begin to cancel. *)
Definition lasts (h h' : holder) : Prop :=
  match h with AtHost i st => ∃ st', h' = AtHost i st' ∧ (busy st = true → busy st' = true) | _ => h' = h end.

Lemma lasts_refl h : lasts h h.
Proof. destruct h; cbn; eauto. Qed.

Lemma lasts_trans h1 h2 h3 : lasts h1 h2 → lasts h2 h3 → lasts h1 h3.
Proof. destruct h1; cbn; try (intros ->; done). intros (st2 & -> & H1) (st3 & -> & H2). eauto. Qed.

(** What a side keeps while the other one acts: an operation in flight stays so, and a guest
    that is at rest; the host may use an end it has. *)
Definition keeps (p p' : phase) (h h' : holder) : Prop :=
  match p with
  | Flying _ _ _ => p' = p ∧ lasts h h'
  | Rest => match h with AtHost _ _ => settled p' | _ => p' = Rest ∧ h' = h end
  | _ => settled p'
  end.

Lemma side_keeps_refl p h : keeps p p h h.
Proof. destruct p; cbn; try done; [by destruct h|]. split; [done|apply lasts_refl]. Qed.

Lemma keeps_settled p p' h h' : settled p → keeps p p' h h' → settled p'.
Proof. destruct p; cbn; try done. intros _. destruct h; try done; by intros [-> _]. Qed.

Lemma side_keeps_trans p q r h1 h2 h3 : keeps p q h1 h2 → keeps q r h2 h3 → keeps p r h1 h3.
Proof.
  intros H1 H2. destruct p; cbn in *; try (by eapply keeps_settled).
  - destruct h1; try (by eapply keeps_settled); destruct H1 as [-> ->]; exact H2.
  - destruct H1 as [-> H1], H2 as [-> H2]. split; [done|by eapply lasts_trans].
Qed.

(** Who holds an end. *)
Definition who (h : holder) : option (bool * nat) := match h with AtGuest e => Some (true, inst e) | AtHost i _ => Some (false, i) | _ => None end.
Definition same_holders (w w' : strm) : Prop := ∀ s, who (holder_of w' s) = who (holder_of w s).

Lemma same_holders_set w sd h : who h = who (holder_of w sd) → same_holders w (set_holder w sd h).
Proof. intros E s. by destruct sd, s. Qed.

Lemma same_holders_trans w1 w2 w3 : same_holders w1 w2 → same_holders w2 w3 → same_holders w1 w3.
Proof. intros H1 H2 s. by rewrite H2. Qed.

Definition host_size (h : option (list (@hostOp V))) : nat := match h with Some k => ops_size k | None => 0%nat end.

Definition post (w : strm) (ph : endSide → phase) (sd : endSide) (bound : nat) (r : outcome stream_error strm) : Prop :=
  match r with
  | Ok w' => ∃ ph', sinv w' ph' ∧ settled (ph' sd) ∧ keeps (ph (other_side sd)) (ph' (other_side sd)) (holder_of w (other_side sd)) (holder_of w' (other_side sd)) ∧ (potential w' ≤ bound)%nat ∧
      (dropped w = true → dropped w' = true) ∧ same_holders w w'
  | Err _ => True
  | Panic | NoFuel => False
  end.

Lemma post_weaken w ph sd n n' r : post w ph sd n r → (n ≤ n')%nat → post w ph sd n' r.
Proof. intros Hp Hn. destruct r as [w'| | |]; try done. destruct Hp as (ph' & ? & ? & ? & ? & ? & ?). exists ph'. split_and!; try done. lia. Qed.

Definition done_ok (T : nat) (done : strm → cback → copyResult → outcome stream_error strm) : Prop :=
  ∀ w ph sd b h fr r, sinv w ph → ph sd = Flying b h fr → (r = copyDropped → dropped w = true) → (potential w + host_size h ≤ T)%nat →
    post w ph sd (potential w + host_size h) (done w (mkCb sd b h) r) ∧
    (host_size h = 0%nat → ∃ w', done w (mkCb sd b h) r = Ok w' ∧ pending w' = pending w ∧ dropped w' = dropped w ∧ holder_of w' (other_side sd) = holder_of w (other_side sd)).

Lemma other_twice sd : other_side (other_side sd) = sd.
Proof. by destruct sd. Qed.

(** A new operation. *)
Lemma sinv_start w ph sd x hd h : sinv w ph → ph sd = Rest → bufok x → progressed x = 0 →
  match hd with
  | AtGuest e => h = None ∧ busy (state e) = true ∧ pendingEvent e = None
  | AtHost _ st => busy st = true ∧ ∃ k, h = Some k ∧ polites k ∧ (remain x = 0 → k = [])
  | _ => False
  end →
  sinv (note (set_holder (set_bufs w (bufs w ++ [x])) sd hd) (Begun sd)) (upd ph sd (Flying (length (bufs w)) h true)).
Proof.
  intros Hi Hr Ox Px Hhd. set (w' := note _ _).
  assert (∀ b y, bufs w !! b = Some y → bufs w' !! b = Some y) as Hold.
  { intros b y Hb. cbn. rewrite lookup_app_l; [done|by eapply lookup_lt_Some]. }
  assert (bufs w' !! length (bufs w) = Some x) as Hnew by (cbn; by apply list_lookup_middle).
  assert (∀ s b, out_buf (ph s) = Some b → bufs w' !! b = bufs w !! b) as Hsame.
  { intros s b Hb. destruct (si_bufs _ _ Hi s b Hb) as (y & Hy & _). rewrite Hy. by apply Hold. }
  pose proof (si_phase _ _ Hi sd) as Hph. rewrite Hr in Hph. destruct Hph as [Hpk _].
  assert (∀ f, sum_log f (log w') = sum_log f (log w) + f (Begun sd)) as Hlog by (intros f; apply sum_log_snoc).
  assert (∀ q, total w' q (upd ph sd (Flying (length (bufs w)) h true) q) = total w q (ph q)) as Htot.
  { refine (side_cases _ sd _ _); unfold total; rewrite Hlog; cbn [told_of].
    - rewrite upd_same, Hr. unfold progress_of. cbn [out_buf]. rewrite Hnew. lia.
    - rewrite upd_other, (progress_frame w w'); [lia|]. apply Hsame. }
  split.
  - refine (side_cases _ sd _ _); [rewrite upd_same|rewrite upd_other].
    + cbn [has_phase]. split; [by destruct sd|]. split.
      * exists x. split; [done|]. intros _. split; [done|]. intros k ->. destruct hd as [e|i st| |]; [by destruct Hhd as (? & _)| |done..]. by destruct Hhd as (_ & k' & [= <-] & _ & Hk).
      * replace (holder_of w' sd) with hd by by destruct sd. destruct hd as [e|i st| |]; [| |done..].
        { by destruct Hhd as (-> & ? & ?). } destruct Hhd as (? & k & -> & ? & _). split; [done|]. by exists k.
    + apply (has_phase_frame w); [apply Hi|by destruct sd|by left|apply Hsame|done].
  - refine (side_cases _ sd _ _); [rewrite upd_same|rewrite upd_other].
    + intros b [= <-]. by exists x.
    + intros b Hb. rewrite (Hsame _ _ Hb). by apply (si_bufs _ _ Hi (other_side sd)).
  - assert (out_buf (ph (other_side sd)) ≠ Some (length (bufs w))) as Hne.
    { intros Hb. destruct (si_bufs _ _ Hi _ _ Hb) as (y & Hy & _). apply lookup_lt_Some in Hy. lia. }
    intros b. unfold upd. destruct sd; cbn in *; repeat case_decide; try done; cbn; congruence.
  - apply Hi.
  - rewrite !Htot. apply Hi.
  - intros q. rewrite !Hlog. cbn [ended_of begun_of]. pose proof (si_begun _ _ Hi q) as Hq. revert q Hq. refine (side_cases _ sd _ _).
    + rewrite upd_same, Hr, decide_True by done. cbn. lia.
    + rewrite upd_other, decide_False by (by destruct sd). lia.
  - intros q n. cbn. rewrite elem_of_app. intros [Hin|Hin%list_elem_of_singleton]; [|done]. by apply (si_told _ _ Hi q n).
Qed.

Lemma settled_rest w sd p : has_phase w sd p → settled p →
  match holder_of w sd with AtGuest e => busy (state e) = false | AtHost _ st => busy st = false | _ => True end → p = Rest.
Proof.
  intros Hp Hs Hb. destruct p as [|b h fr|b|b|b k|b r]; cbn in *; [done|done|exfalso..].
  - destruct Hp as (e & E & ? & _). rewrite E in Hb. congruence.
  - destruct Hp as (e & x & E & ? & _). rewrite E in Hb. congruence.
  - destruct Hp as (i & st & x & E & ? & _). rewrite E in Hb. congruence.
  - destruct Hp as (_ & _ & e & E & ? & _). rewrite E in Hb. congruence.
Qed.

(** A change of the holder of a side that is at rest. *)
Lemma sinv_rest w ph sd hd : sinv w ph → ph sd = Rest →
  match hd with AtGuest e => busy (state e) = false ∧ pendingEvent e = None | AtHost _ st => busy st = false | _ => True end →
  sinv (set_holder w sd hd) ph.
Proof.
  intros Hi Hr Hhd. apply (sinv_ext _ (upd ph sd Rest)); [by intros s; unfold upd; case_decide; subst|].
  apply (sinv_quiet w); [done|done|done|by destruct sd|by left|done|apply Hi| |by rewrite Hr].
  pose proof (si_phase _ _ Hi sd) as Hph. rewrite Hr in Hph. destruct Hph as [Hpk _]. split; [done|]. by destruct sd.
Qed.

Section shared.
Variable done : strm → cback → copyResult → outcome stream_error strm.
Variable T : nat.
Hypothesis Hdone : done_ok T done.

(** Telling the parked side. *)
Lemma notify_ok w w' ph p r : sinv w ph → pending w = Some p → w' = resetPending w ∨ w' = resetPending (set_dropped w) →
  (r = copyDropped → dropped w' = true) → (potential w ≤ T)%nat →
  post w' ph (cb_side (pendingCb p)) (potential w) (done w' (pendingCb p) r) ∧
  (cb_size (pendingCb p) = 0%nat → ∃ w2, done w' (pendingCb p) r = Ok w2 ∧ pending w2 = None ∧ dropped w2 = dropped w' ∧
    holder_of w2 (other_side (cb_side (pendingCb p))) = holder_of w (other_side (cb_side (pendingCb p)))).
Proof using Hdone.
  intros Hi Hp Hw Hr HT. pose proof (sinv_unpark w w' ph p Hi Hp Hw) as Hi'.
  assert (potential w' = 0%nat ∧ pending w' = None ∧ ∀ s, holder_of w' s = holder_of w s) as (H0 & Hp' & Hh) by (destruct Hw as [->| ->]; done).
  assert (potential w = host_size (cb_host (pendingCb p))) as Hpot by (unfold potential; by rewrite Hp).
  destruct p as [i [sd b h]]. cbn in *.
  destruct (Hdone w' _ sd b h false r Hi' (upd_same _ _ _) Hr ltac:(lia)) as [H1 H2]. split.
  - rewrite H0 in H1. rewrite Hpot. unfold post in *. destruct (done w' _ r) as [w2| | |]; try done.
    destruct H1 as (ph' & ? & ? & Hk & ? & ? & ?). exists ph'. rewrite upd_other in Hk. done.
  - intros Hz. destruct (H2 Hz) as (w2 & -> & E & ? & Ho). exists w2. rewrite E, Ho, Hh. done.
Qed.

(** The other side, if it is parked, is not in flight. *)
Lemma parked_settled w ph p : sinv w ph → pending w = Some p → settled (ph (cb_side (pendingCb p))).
Proof using Type. intros Hi Hp. destruct (parked_phase w ph p Hi Hp) as [[-> _]|[[-> _]|(? & -> & _)]]; done. Qed.

Lemma parked_keeps w ph p s p' h h' : sinv w ph → pending w = Some p → cb_side (pendingCb p) = s → settled p' → keeps (ph s) p' h h'.
Proof using Type. intros Hi Hp <- H'. destruct (parked_phase w ph p Hi Hp) as [[-> _]|[[-> _]|(? & -> & _)]]; done. Qed.

Lemma shared_cancel_ok w ph p : sinv w ph → pending w = Some p → (potential w ≤ T)%nat →
  post w ph (cb_side (pendingCb p)) (potential w) (shared_cancel done w).
Proof using Hdone.
  intros Hi Hp HT. unfold shared_cancel, resetAndNotifyPending. rewrite Hp.
  destruct (notify_ok w (resetPending w) ph p copyCancelled Hi Hp ltac:(by left) ltac:(done) HT) as [H1 _]. exact H1.
Qed.

(** A host's end of a dropped stream is at rest, or in flight. *)
Lemma dropped_rest w ph sd i st : sinv w ph → dropped w = true → settled (ph sd) → holder_of w sd = AtHost i st → ph sd = Rest.
Proof using Type.
  intros Hi Hd Hs Eh. pose proof (si_dropped _ _ Hi Hd) as Hp. pose proof (si_phase _ _ Hi sd) as Hph.
  destruct (ph sd) as [|b h fr|b|b|b k|b r]; cbn in *; [done|done|exfalso..].
  - destruct Hph as (e & E & _). congruence.
  - destruct Hph as (e & x & E & _). congruence.
  - destruct Hph as (? & ? & x & _ & _ & E & _). congruence.
  - destruct Hph as (_ & _ & e & E & _). congruence.
Qed.

Lemma who_host w w' s i st : same_holders w w' → holder_of w s = AtHost i st → ∃ st', holder_of w' s = AtHost i st'.
Proof using Type. intros Hw Eh. specialize (Hw s). rewrite Eh in Hw. destruct (holder_of w' s) as [e|j st'| |]; try done. cbn in Hw. injection Hw as ->. by exists st'. Qed.

Lemma shared_drop_ok w ph sd : sinv w ph → ph sd = Rest → (potential w ≤ T)%nat →
  match shared_drop done w with
  | Ok w' => ∃ ph', sinv w' ph' ∧ ph' sd = Rest ∧ (match holder_of w sd with AtHost _ _ => True | h => holder_of w' sd = h end) ∧
      keeps (ph (other_side sd)) (ph' (other_side sd)) (holder_of w (other_side sd)) (holder_of w' (other_side sd)) ∧ (potential w' ≤ potential w)%nat ∧ dropped w' = true ∧ same_holders w w'
  | Err _ => True
  | _ => False
  end.
Proof using Hdone.
  intros Hi Hs HT. unfold shared_drop. destruct (dropped w) eqn:Ed.
  { exists ph. split_and!; try done; [by destruct (holder_of w sd)|apply side_keeps_refl]. }
  cbn. pose proof (si_phase _ _ Hi sd) as Hph. rewrite Hs in Hph. destruct Hph as [Hpk _]. destruct (pending w) as [p|] eqn:Hp.
  - unfold resetAndNotifyPending. cbn. rewrite Hp.
    assert (cb_side (pendingCb p) = other_side sd) as Hsd.
    { unfold parked_at in Hpk. rewrite Hp in Hpk. by destruct sd, (cb_side (pendingCb p)). }
    destruct (notify_ok w (resetPending (set_dropped w)) ph p copyDropped Hi Hp ltac:(by right) ltac:(done) HT) as [H1 _].
    rewrite Hsd in H1. unfold post in *. rewrite other_twice, Hs in H1. destruct (done _ _ _) as [w'| | |]; try done.
    destruct H1 as (ph' & Hi' & S1 & S2 & Hle & Hd & Hw). specialize (Hd eq_refl).
    assert (holder_of (resetPending (set_dropped w)) sd = holder_of w sd) as Eh by (by destruct sd). rewrite Eh in S2.
    assert (ph' sd = Rest ∧ match holder_of w sd with AtHost _ _ => True | h => holder_of w' sd = h end) as [Hr Hh].
    { cbn in S2. destruct (holder_of w sd) as [e|i st| |] eqn:E; try exact S2. split; [|done].
      destruct (who_host _ w' sd i st Hw Eh) as [st' E']. by apply (dropped_rest w' ph' sd i st'). }
    exists ph'. split_and!; try done. by apply (parked_keeps w ph p).
  - exists ph. split_and!; [|done|by destruct sd; cbn; [destruct (readable w)|destruct (writable w)]|by destruct sd; apply side_keeps_refl|unfold potential; cbn; by rewrite Hp|done|by intros []].
    apply (sinv_ext _ (upd ph sd (ph sd))); [by intros s; unfold upd; case_decide; subst|].
    apply (sinv_quiet w); [done..|by left|done|done| |done].
    apply (has_phase_frame w); [apply Hi|done|by left|done|done].
Qed.

(** The rendezvous: the elements move, and the parked side is notified. *)
Definition meet (w : strm) (p : @parked V) (b : nat) (x y : B) (sd : endSide) : outcome stream_error strm :=
  if 0 <? remain x then
    let* w := match sd with
              | sideReadable => copy w b (cb_buf (pendingCb p)) (Z.min (remain x) (remain y))
              | sideWritable => copy w (cb_buf (pendingCb p)) b (Z.min (remain x) (remain y))
              end in
    call_onCopy done w (pendingCb p)
  else Ok w.

Lemma copy_fields w sd b pb x y w' : bufok x → bufok y → bufs w !! b = Some x → bufs w !! pb = Some y → b ≠ pb → 0 < remain x → 0 < remain y →
  (match sd with sideReadable => copy w b pb (Z.min (remain x) (remain y)) | sideWritable => copy w pb b (Z.min (remain x) (remain y)) end) = Ok w' →
  ∃ x' y' n, (bufs w' = <[b := x']> (<[pb := y']> (bufs w)) ∨ bufs w' = <[pb := y']> (<[b := x']> (bufs w))) ∧ bufok x' ∧ bufok y' ∧
    progressed x' = progressed x + n ∧ progressed y' = progressed y + n ∧ n = Z.min (remain x) (remain y) ∧ bufs w' !! pb = Some y' ∧ bufs w' !! b = Some x' ∧
    len x' = len x ∧ len y' = len y ∧
    log w' = log w ∧ (∀ s, holder_of w' s = holder_of w s) ∧ dropped w' = dropped w ∧ pending w' = pending w.
Proof using Type.
  intros Ox Oy Hx Hy Hne Rx Ry. unfold copy. rewrite Hx, Hy.
  pose proof (lookup_lt_Some _ _ _ Hx). pose proof (lookup_lt_Some _ _ _ Hy).
  destruct sd; (destruct (copyElements _ _ _ _ _) as [[[m d] q]|] eqn:E; [|done]); intros [= <-]; cbn.
  - apply copy_ok in E as (? & ? & ? & ? & ? & ?); [|done|done|lia|lia]. exists d, q. eexists. split_and!; try done; [by right| |].
    + rewrite list_lookup_insert_eq by (rewrite length_insert; lia). done.
    + rewrite list_lookup_insert_ne, list_lookup_insert_eq by (done || lia). done.
  - apply copy_ok in E as (? & ? & ? & ? & ? & ?); [|done|done|lia|lia]. exists q, d. eexists. split_and!; try done; [by left| |].
    + rewrite list_lookup_insert_ne, list_lookup_insert_eq by (done || lia). done.
    + rewrite list_lookup_insert_eq by (rewrite length_insert; lia). done.
Qed.

Lemma meet_ok w ph sd b h fr p x y : sinv w ph → ph sd = Flying b h fr → pending w = Some p → cb_side (pendingCb p) = other_side sd →
  bufs w !! b = Some x → bufs w !! cb_buf (pendingCb p) = Some y → 0 < remain y → dropped w = false → (potential w ≤ T)%nat →
  match meet w p b x y sd with
  | Ok w' => ∃ ph' fr', sinv w' ph' ∧ ph' sd = Flying b h fr' ∧ settled (ph' (other_side sd)) ∧ (potential w' ≤ potential w)%nat ∧ same_holders w w'
  | Err _ => True
  | _ => False
  end.
Proof using Hdone.
  intros Hi Hf Hp Hsd Hx Hy Ry Hd HT. unfold meet.
  assert (out_buf (ph (other_side sd)) = Some (cb_buf (pendingCb p))) as Ho by (rewrite <- Hsd; by destruct (parked_other w ph p Hi Hp)).
  assert (settled (ph (other_side sd))) as Hset.
  { destruct (parked_phase w ph p Hi Hp) as [[E _]|[[E _]|(k & E & _)]]; rewrite Hsd in E; by rewrite E. }
  destruct (0 <? remain x) eqn:Rx; [|by exists ph, fr]. apply Z.ltb_lt in Rx.
  assert (bufok x) as Ox by (destruct (si_bufs _ _ Hi sd b) as (? & ? & ?); [by rewrite Hf|congruence]).
  assert (bufok y) as Oy by (destruct (si_bufs _ _ Hi (other_side sd) _ Ho) as (? & ? & ?); congruence).
  assert (b ≠ cb_buf (pendingCb p)) as Hne.
  { intros E. apply (si_apart _ _ Hi b); destruct sd; cbn in *; rewrite ?Hf, ?Ho; cbn; congruence. }
  set (c := match sd with sideReadable => _ | sideWritable => _ end). destruct c as [w1|e| |] eqn:Ec; subst c; cbn [obind]; [|done| |].
  2,3: unfold copy in Ec; rewrite Hx, Hy in Ec; by destruct sd; case_match; simplify_eq; repeat case_match.
  apply (copy_fields w sd b _ x y w1) in Ec as (x' & y' & n & Hb & Ox' & Oy' & Px & Py & _ & Hy' & _ & _ & _ & Hl & Hh & Hd1 & Hp1); [|done..].
  assert (¬ parked_at w1 sd) as Hnp by (unfold parked_at; rewrite Hp1, Hp, Hsd; by destruct sd).
  assert (∀ q, upd (upd ph sd (Flying b h false)) (other_side sd) q sd = Flying b h false) as Hsame by (intros q; unfold upd; by destruct sd; repeat case_decide).
  unfold call_onCopy. rewrite Hsd, Hh, Hy'.
  destruct (parked_holder w ph p Hi Hp) as [(e & Eh & He & Hpi & Ek)|(i & st & k & q & Eh & Hst & Hpi & Ek & Hk & _)]; rewrite Hsd in Eh; rewrite Eh, Ek.
  - exists (upd (upd ph sd (Flying b h false)) (other_side sd) (Armed (cb_buf (pendingCb p)))), false. split_and!; [|apply Hsame|by rewrite upd_same|unfold potential; cbn; by rewrite Hp1|].
    2:{ apply (same_holders_trans w w1); [intros s; by rewrite Hh|apply same_holders_set; by rewrite Hh, Eh]. }
    eapply (sinv_copied w _ ph sd b h fr _ (cb_buf (pendingCb p)) x y x' y' n); try done; [pose proof (Hh sd) as Hq; by destruct sd|].
    eexists _, y'. split_and!; [by destruct sd|done|done| |done|done]. cbn. rewrite Hp1, Hp. destruct p as [? []]; cbn in *. congruence.
  - assert (sinv (resetPending w1) (upd (upd ph sd (Flying b h false)) (other_side sd) (Flying (cb_buf (pendingCb p)) (Some k) false))) as Hi1.
    { eapply (sinv_copied w _ ph sd b h fr _ (cb_buf (pendingCb p)) x y x' y' n); try done; [pose proof (Hh sd) as Hq; by destruct sd|by intros []|].
      cbn [has_phase]. split; [by intros []|]. split; [by exists y'|]. cbn. replace (holder_of (resetPending w1) (other_side sd)) with (holder_of w (other_side sd)) by (rewrite <- Hh; by destruct sd).
      rewrite Eh. split; [done|]. by exists k. }
    assert (potential w = ops_size k) as Hpot by (unfold potential, cb_size; by rewrite Hp, Ek).
    destruct p as [pi [psd pb ph0]]. cbn in *. subst psd ph0.
    destruct (Hdone _ _ (other_side sd) pb (Some k) false copyCompleted Hi1 (upd_same _ _ _) ltac:(done) ltac:(cbn; lia)) as [H1 _].
    destruct (done (resetPending w1) _ copyCompleted) as [w2| | |]; try done. destruct H1 as (ph' & Hi' & S1 & S2 & Hle & _ & Hw).
    rewrite other_twice in S2. unfold upd in S2. rewrite decide_False, decide_True in S2 by (try done; by destruct sd). destruct S2 as [S2 _].
    exists ph', false. split_and!; try done; [|intros s; rewrite (Hw s), <- (Hh s); by destruct s]. rewrite Hpot. unfold potential in Hle; cbn in Hle. unfold potential. lia.
Qed.

(** The parked side is complete: it is told, and the buffer in flight takes its place. *)
Lemma swap_ok w ph sd b h i p y : sinv w ph → ph sd = Flying b h true → pending w = Some p → cb_side (pendingCb p) = other_side sd →
  bufs w !! cb_buf (pendingCb p) = Some y → remain y = 0 → dropped w = false →
  i = match holder_of w sd with AtGuest e => Some (inst e) | _ => None end → (potential w ≤ T)%nat →
  post w ph sd (host_size h) (let* w := resetAndNotifyPending done w copyCompleted in Ok (setPending w (Some (mkParked i (mkCb sd b h))))).
Proof using Hdone.
  intros Hi Hf Hp Hsd Hy Ry Hd -> HT.
  assert (cb_size (pendingCb p) = 0%nat) as Hz.
  { destruct (parked_holder w ph p Hi Hp) as [(e & _ & _ & _ & Ek)|(? & ? & k & q & _ & _ & _ & Ek & _ & Hq & _ & Hk)]; unfold cb_size; rewrite Ek; [done|].
    rewrite Hy in Hq. injection Hq as <-. by rewrite (Hk Ry). }
  destruct (notify_ok w (resetPending w) ph p copyCompleted Hi Hp ltac:(by left) ltac:(done) HT) as [H1 H2].
  destruct (H2 Hz) as (w2 & E & Hp2 & Hd2 & Hh2). unfold resetAndNotifyPending. rewrite Hp, E. rewrite E, Hsd in H1.
  destruct H1 as (ph' & Hi' & S1 & S2 & _ & _ & Hw). rewrite other_twice, Hf in S2. destruct S2 as [S2 _]. rewrite Hsd, other_twice in Hh2.
  cbn [obind post]. exists (upd ph' sd (match h with None => Waiting b | Some k => Hosted b k end)). rewrite upd_same, upd_other. split_and!.
  - apply (sinv_park _ ph' sd b h); [done|done|done|by rewrite Hd2|by rewrite Hh2].
  - by destruct h.
  - by apply (parked_keeps w ph p).
  - done.
  - by rewrite Hd.
  - intros s. pose proof (Hw s). by destruct s.
Qed.

Lemma other_parked w ph sd b h fr p : sinv w ph → ph sd = Flying b h fr → pending w = Some p → cb_side (pendingCb p) = other_side sd.
Proof using Type.
  intros Hi Hf Hp. pose proof (si_phase _ _ Hi sd) as Hph. rewrite Hf in Hph. destruct Hph as (Hn & _).
  unfold parked_at in Hn. rewrite Hp in Hn. by destruct sd, (cb_side (pendingCb p)).
Qed.

(** An operation, with what is the same for both ends. *)
Lemma shared_op_meet w sd b h i x : bufs w !! b = Some x →
  shared_op done sd w i (mkCb sd b h) =
    if dropped w then done w (mkCb sd b h) copyDropped
    else match pending w with
    | None => Ok (setPending w (Some (mkParked i (mkCb sd b h))))
    | Some p =>
        if same_instance i p && negb (numeric w) then Err SameInstance
        else match bufs w !! cb_buf (pendingCb p) with
        | Some y =>
            if 0 <? remain y then let* w := meet w p b x y sd in done w (mkCb sd b h) copyCompleted
            else if bool_decide (sd = sideWritable) && (isZeroLength x && isZeroLength y) then done w (mkCb sd b h) copyCompleted
            else let* w := resetAndNotifyPending done w copyCompleted in Ok (setPending w (Some (mkParked i (mkCb sd b h))))
        | None => Panic
        end
    end.
Proof using Type. intros Hx. destruct sd; cbn [shared_op]; unfold shared_read, shared_write, meet; cbn [cb_buf]; by rewrite Hx. Qed.

Lemma shared_op_ok w ph sd b h i : sinv w ph → ph sd = Flying b h true →
  i = match holder_of w sd with AtGuest e => Some (inst e) | _ => None end → (potential w + host_size h ≤ T)%nat →
  post w ph sd (potential w + host_size h) (shared_op done sd w i (mkCb sd b h)).
Proof using Hdone.
  intros Hi Hf Hinst HT. pose proof (Hdone w ph sd b h true) as Hd.
  assert (∃ x, bufs w !! b = Some x ∧ bufok x) as (x & Hx & Ox) by (apply (si_bufs _ _ Hi sd); by rewrite Hf).
  rewrite (shared_op_meet w sd b h i x Hx).
  destruct (dropped w) eqn:Ed; [by apply Hd|]. destruct (pending w) as [p|] eqn:Hp.
  2:{ cbn. exists (upd ph sd (match h with None => Waiting b | Some k => Hosted b k end)). rewrite upd_same, upd_other. split_and!.
      - by apply sinv_park; [| | | |rewrite Hinst].
      - by destruct h.
      - apply side_keeps_refl.
      - unfold potential, cb_size, host_size. cbn. lia.
      - by rewrite Ed.
      - by intros []. }
  destruct (same_instance i p && negb (numeric w)); [done|].
  pose proof (other_parked w ph sd b h true p Hi Hf Hp) as Hsd.
  destruct (parked_other w ph p Hi Hp) as [_ Ho]. destruct (si_bufs _ _ Hi _ _ Ho) as (y & Hy & Oy). rewrite Hy.
  destruct (0 <? remain y) eqn:Ry; [apply Z.ltb_lt in Ry|apply Z.ltb_ge in Ry].
  - pose proof (meet_ok w ph sd b h true p x y Hi Hf Hp Hsd Hx Hy Ry Ed ltac:(lia)) as Hm.
    destruct (meet w p b x y sd) as [w1|e| |]; try done. cbn [obind]. destruct Hm as (ph1 & fr1 & Hi1 & Hf1 & Hs1 & Hle & Hw1).
    destruct (Hdone w1 ph1 sd b h fr1 copyCompleted Hi1 Hf1 ltac:(done) ltac:(lia)) as [Hpost _].
    unfold post in *. destruct (done w1 _ _) as [w2| | |]; try done. destruct Hpost as (ph2 & ? & ? & Hk & ? & ? & ?). exists ph2. split_and!; try done; [|lia|by rewrite Ed|by eapply same_holders_trans].
    apply (parked_keeps w ph p); [done..|]. by apply (keeps_settled _ _ _ _ Hs1 Hk).
  - destruct (_ && _); [by apply Hd|].
    destruct (remain_len _ Oy) as [? ?]. assert (remain y = 0) as R0 by lia.
    pose proof (swap_ok w ph sd b h i p y Hi Hf Hp Hsd Hy R0 Ed Hinst ltac:(lia)) as Hs.
    unfold post in *. destruct (let* w0 := _ in _) as [w2| | |]; try done. destruct Hs as (ph2 & ? & ? & ? & ? & ? & ?). exists ph2. split_and!; try done. lia.
Qed.

Lemma ops_size_eq (k : list (@hostOp V)) : (fix sizes (ops : list (@hostOp V)) : nat := match ops with [] => 0%nat | op :: ops => (op_size op + sizes ops)%nat end) k = ops_size k.
Proof using Type. by induction k as [|op k IH]; cbn; [|rewrite IH]. Qed.

Lemma polites_eq (k : list (@hostOp V)) :
  (fix all (ops : list (@hostOp V)) : bool := match ops with [] => true | op :: ops => polite op && all ops end) k = true ↔ polites k.
Proof using Type.
  unfold polites. induction k as [|op k IH]; [split; [constructor|done]|].
  rewrite andb_true_iff, IH, Forall_cons. done.
Qed.

Lemma host_start_ok w ph sd x k : sinv w ph → settled (ph sd) → polites k → bufok x → progressed x = 0 → (remain x = 0 → k = []) →
  (potential w + ops_size k ≤ T)%nat → post w ph sd (potential w + ops_size k) (host_start done w sd x k).
Proof using Hdone.
  intros Hi Hs Hk Ox Px Rx HT. unfold host_start. destruct (holder_of w sd) as [e|i st| |] eqn:Eh; try done.
  destruct (negb _); [done|]. destruct (bool_decide (st = copyIdle)) eqn:Eb; [|done]. apply bool_decide_eq_true in Eb as ->. cbn [negb].
  assert (ph sd = Rest) as Hr by (apply (settled_rest w sd); [apply Hi|done|by rewrite Eh]).
  pose proof (sinv_start w ph sd x (AtHost i copyCopying) (Some k) Hi Hr Ox Px) as Hi'.
  specialize (Hi' ltac:(split; [done|by exists k])). set (w' := note _ _) in *.
  assert (holder_of w' sd = AtHost i copyCopying ∧ holder_of w' (other_side sd) = holder_of w (other_side sd)) as [Eh' Eo] by (by destruct sd).
  pose proof (shared_op_ok w' _ sd (length (bufs w)) (Some k) None Hi' (upd_same _ _ _)) as Hp. rewrite Eh' in Hp. specialize (Hp eq_refl HT).
  unfold post in *. destruct (shared_op _ _ _ _ _) as [w2| | |]; try done. destruct Hp as (ph2 & ? & ? & Hkp & ? & ? & Hw).
  exists ph2. rewrite upd_other, Eo in Hkp. split_and!; try done. apply (same_holders_trans w w'); [|done].
  unfold w'. change (same_holders w (set_holder w sd (AtHost i copyCopying))). apply same_holders_set. by rewrite Eh.
Qed.

Lemma host_close_ok w ph sd : sinv w ph → settled (ph sd) → (potential w ≤ T)%nat → post w ph sd (potential w) (host_close done w sd).
Proof using Hdone.
  intros Hi Hs HT. unfold host_close. destruct (holder_of w sd) as [e|i st| |] eqn:Eh; try done.
  destruct (negb _); [done|]. destruct (busy st) eqn:Eb; [done|].
  assert (ph sd = Rest) as Hr by (apply (settled_rest w sd); [apply Hi|done|by rewrite Eh]).
  pose proof (shared_drop_ok w ph sd Hi Hr HT) as Hd. destruct (shared_drop done w) as [w1| | |]; try done.
  destruct Hd as (ph1 & Hi1 & Hr1 & _ & Hk & Hle & Hdr & Hw). cbn. exists ph1. split_and!; [by apply sinv_rest|by rewrite Hr1|by destruct sd|unfold potential in *; cbn; lia|done|].
  apply (same_holders_trans w w1); [done|]. apply same_holders_set. by rewrite (Hw sd), Eh.
Qed.

(** A host that cancels an operation that is parked, or one in flight: then what is parked
    is the other side's, and that is cancelled. *)
Lemma host_cancel_ok w ph sd s : sinv w ph → settled (ph sd) → s = sd ∨ s = other_side sd → (potential w ≤ T)%nat →
  post w ph sd (potential w) (host_cancel done w s).
Proof using Hdone.
  intros Hi Hs Hsd HT. unfold host_cancel. destruct (holder_of w s) as [e|i st| |] eqn:Eh; try done.
  destruct (negb _); [done|]. destruct (bool_decide (st = copyCopying)) eqn:Eb; cbn [negb].
  2:{ exists ph. split_and!; [done|done|apply side_keeps_refl|lia|done|done]. }
  apply bool_decide_eq_true in Eb as ->. set (w1 := set_holder w s (AtHost i copyCancelling)).
  assert (same_holders w w1) as Hw1 by (apply same_holders_set; by rewrite Eh).
  assert (sinv w1 ph) as Hi1.
  { apply (sinv_ext _ (upd ph s (ph s))); [by intros q; unfold upd; case_decide; subst|].
    apply (sinv_quiet w); [done|done|done|by destruct s|by left|done|apply Hi| |done].
    pose proof (si_phase _ _ Hi s) as Hph. destruct (ph s) as [|b h fr|b|b|b k|b r]; cbn in Hph |- *.
    - rewrite Eh in Hph. destruct Hph as [_ Hph]. done.
    - rewrite Eh in Hph. destruct Hph as (Hn & Hx & Hst & Hk). split_and!; [exact Hn|exact Hx|]. by destruct s.
    - destruct Hph as (e & E & _). congruence.
    - destruct Hph as (e & x & E & _). congruence.
    - destruct Hph as (i' & st & x & E & _ & Hpd & Hrest). rewrite Eh in E. injection E as <- <-. exists i, copyCancelling, x. by destruct s.
    - destruct Hph as (_ & _ & e & E & _). congruence. }
  assert (holder_of w1 (other_side s) = holder_of w (other_side s)) as Ho by (by destruct s).
  assert (holder_of w1 s = AtHost i copyCancelling) as Eh1 by (by destruct s).
  assert (keeps (ph (other_side sd)) (ph (other_side sd)) (holder_of w (other_side sd)) (holder_of w1 (other_side sd))) as Hk1.
  { destruct Hsd as [->| ->]; [rewrite Ho; apply side_keeps_refl|]. rewrite Eh, Eh1. destruct (ph (other_side sd)); cbn; eauto. }
  cbn [pending w1 set_holder]. fold w1. destruct (pending w) as [p|] eqn:Hp.
  2:{ exists ph. split_and!; [done|done|exact Hk1|done|done|done]. }
  pose proof (shared_cancel_ok w1 ph p Hi1 Hp HT) as H1.
  assert (∀ q, cb_side (pendingCb p) = q → post w1 ph q (potential w) (shared_cancel done w1)) as H2 by (by intros q <-). clear H1.
  assert (post w1 ph sd (potential w) (shared_cancel done w1)) as H1.
  { destruct (decide (cb_side (pendingCb p) = sd)) as [E|E]; [by apply H2|].
    specialize (H2 (other_side sd) ltac:(by destruct sd, (cb_side (pendingCb p)))). unfold post in *. destruct (shared_cancel done w1) as [w2| | |]; try done.
    destruct H2 as (ph2 & ? & S1 & S2 & ? & ? & ?). rewrite other_twice in S2. exists ph2. split_and!; try done; [by apply (keeps_settled _ _ _ _ Hs S2)|].
    apply (parked_keeps w ph p); [done..| |done]. by destruct sd, (cb_side (pendingCb p)). }
  unfold post in *. destruct (shared_cancel done w1) as [w2| | |]; try done. destruct H1 as (ph2 & ? & ? & Hk2 & Hle & ? & Hw). exists ph2. split_and!; try done.
  - by eapply side_keeps_trans.
  - by eapply same_holders_trans.
Qed.

(** What a host does with the other end than the one it was told about. *)
Lemma post_other w ph sd n r : settled (ph sd) → settled (ph (other_side sd)) → (∃ i st, holder_of w (other_side sd) = AtHost i st) →
  post w ph (other_side sd) n r → post w ph sd n r.
Proof using Type.
  intros Hs Ho (i & st & Eh) Hp. unfold post in *. destruct r as [w2| | |]; try done. destruct Hp as (ph2 & ? & S1 & S2 & ? & ? & ?). rewrite other_twice in S2.
  exists ph2. split_and!; try done; [by apply (keeps_settled _ _ _ _ Hs S2)|]. rewrite Eh. by destruct (ph (other_side sd)).
Qed.

Lemma host_start_either w ph sd s x k : sinv w ph → settled (ph sd) → s = sd ∨ s = other_side sd → polites k → bufok x → progressed x = 0 → (remain x = 0 → k = []) →
  (potential w + ops_size k ≤ T)%nat → post w ph sd (potential w + ops_size k) (host_start done w s x k).
Proof using Hdone.
  intros Hi Hs [->| ->] Hk Ox Px Rx HT; [by apply host_start_ok|]. unfold host_start.
  destruct (holder_of w (other_side sd)) as [e|i st| |] eqn:Eh; try done. destruct (negb (requireSchedulable _)) eqn:Er; [done|].
  destruct (bool_decide (st = copyIdle)) eqn:Eb; [|done]. apply bool_decide_eq_true in Eb as ->. cbn [negb].
  assert (settled (ph (other_side sd))) as Ho.
  { pose proof (si_phase _ _ Hi (other_side sd)) as Hph. destruct (ph (other_side sd)); try done. cbn in Hph. rewrite Eh in Hph. by destruct Hph as (_ & _ & ? & _). }
  pose proof (host_start_ok w ph (other_side sd) x k Hi Ho Hk Ox Px Rx HT) as H1. unfold host_start in H1. rewrite Eh, Er in H1.
  rewrite bool_decide_true in H1 by done. cbn [negb] in H1. apply post_other; [done|done|by exists i, copyIdle|done].
Qed.

Lemma side_either (s sd : endSide) : s = sd ∨ s = other_side sd.
Proof. destruct s, sd; auto. Qed.

Lemma host_op_ok w ph sd op : sinv w ph → settled (ph sd) → polite op = true → (potential w + op_size op ≤ S T)%nat →
  post w ph sd (potential w + op_size op) (host_op done w op).
Proof using Hdone.
  intros Hi Hs Hp HT. destruct op as [vals k|n k|s|s]; cbn [polite op_size host_op] in *; rewrite ?ops_size_eq in *.
  - apply andb_true_iff in Hp as [Hz Hk%polites_eq].
    destruct (host_read_ok vals) as [Ox Px]. destruct (remain_len _ Ox) as [Hrm _]. rewrite host_read_len in Hrm.
    pose proof (host_start_either w ph sd sideWritable (newHostReadBuffer vals) k Hi Hs (side_either _ _) Hk Ox Px) as H1.
    eapply post_weaken; [apply H1; [|lia]|lia]. intros Hr. destruct k; [done|]. apply orb_true_iff in Hz as [Hz|]; [|done].
    apply negb_true_iff, Z.eqb_neq in Hz. lia.
  - apply andb_true_iff in Hp as [Hz Hk%polites_eq].
    destruct (host_write_ok n) as [Ox Px]. destruct (remain_len _ Ox) as [Hrm _]. rewrite host_write_len in Hrm.
    pose proof (host_start_either w ph sd sideReadable (newHostWriteBuffer n) k Hi Hs (side_either _ _) Hk Ox Px) as H1.
    eapply post_weaken; [apply H1; [|lia]|lia]. intros Hr. destruct k; [done|]. apply orb_true_iff in Hz as [Hz|]; [|done].
    apply negb_true_iff, Z.eqb_neq in Hz. lia.
  - eapply post_weaken; [|apply Nat.le_add_r]. destruct (side_either s sd) as [->| ->]; [apply host_close_ok; [done|done|lia]|].
    destruct (holder_of w (other_side sd)) as [e|i st| |] eqn:Eh; try (unfold host_close; by rewrite Eh).
    destruct (busy st) eqn:Eb. { unfold host_close. rewrite Eh, Eb. by destruct (negb _). }
    assert (settled (ph (other_side sd))) as Ho.
    { pose proof (si_phase _ _ Hi (other_side sd)) as Hph. destruct (ph (other_side sd)); try done. cbn in Hph. rewrite Eh in Hph. destruct Hph as (_ & _ & ? & _). congruence. }
    apply post_other; [done|done|by exists i, st|]. apply host_close_ok; [done|done|lia].
  - eapply post_weaken; [|apply Nat.le_add_r]. apply host_cancel_ok; [done|done|apply side_either|lia].
Qed.

Lemma host_ops_ok ops : ∀ w ph sd, sinv w ph → settled (ph sd) → polites ops → (potential w + ops_size ops ≤ S T)%nat →
  post w ph sd (potential w + ops_size ops) (host_ops done w ops).
Proof using Hdone.
  induction ops as [|op ops IH]; intros w ph sd Hi Hs Hp HT; cbn [host_ops].
  - exists ph. split_and!; [done|done|apply side_keeps_refl|lia|done|done].
  - apply Forall_cons in Hp as [Hop Hops]. cbn [ops_size foldr] in *. fold (ops_size ops) in *.
    pose proof (host_op_ok w ph sd op Hi Hs Hop ltac:(lia)) as H1. destruct (host_op done w op) as [w1| | |]; try done.
    destruct H1 as (ph1 & Hi1 & Hs1 & Hk1 & Hle & Hd1 & Hw1). cbn [obind].
    pose proof (IH w1 ph1 sd Hi1 Hs1 Hops ltac:(lia)) as H2. unfold post in *. destruct (host_ops done w1 ops) as [w2| | |]; try done.
    destruct H2 as (ph2 & Hi2 & Hs2 & Hk2 & Hle2 & Hd2 & Hw2). exists ph2. split_and!; [done|done|by eapply side_keeps_trans|lia|auto|by eapply same_holders_trans].
Qed.
End shared.

Lemma op_size_pos (op : @hostOp V) : (1 ≤ op_size op)%nat.
Proof. destruct op; cbn; lia. Qed.

Lemma call_guest n w ph sd b fr r : sinv w ph → ph sd = Flying b None fr → (r = copyDropped → dropped w = true) →
  post w ph sd (potential w + 0) (call_onCopyDone (S n) w (mkCb sd b None) r) ∧
  (0%nat = 0%nat → ∃ w', call_onCopyDone (S n) w (mkCb sd b None) r = Ok w' ∧ pending w' = pending w ∧ dropped w' = dropped w ∧ holder_of w' (other_side sd) = holder_of w (other_side sd)).
Proof.
  intros Hi Hf Hr. destruct (sinv_final w ph sd b fr r Hi Hf Hr) as (e & Eh & Hi'). cbn. rewrite Eh. split.
  - exists (upd ph sd (Final b r)). rewrite upd_same, upd_other. split_and!; [done|done|by destruct sd; apply side_keeps_refl|unfold potential; cbn; lia|done|]. apply same_holders_set. by rewrite Eh.
  - intros _. eexists. split_and!; [done..|by destruct sd].
Qed.

Lemma call_host n w sd b k r i st x : holder_of w sd = AtHost i st → bufs w !! b = Some x →
  call_onCopyDone (S n) w (mkCb sd b (Some k)) r =
  host_ops (call_onCopyDone n) (note (set_holder w sd (AtHost i (if bool_decide (r = copyDropped) then copyDone else copyIdle))) (Told sd r (progressed x))) k.
Proof. intros Eh Hx. unfold call_onCopyDone at 1. cbn [cb_host cb_side cb_buf]. rewrite Eh. cbn [bufs set_holder]. by rewrite Hx. Qed.

Lemma call_host_nil n w ph sd b fr r : sinv w ph → ph sd = Flying b (Some []) fr → (r = copyDropped → dropped w = true) →
  post w ph sd (potential w + 0) (call_onCopyDone (S n) w (mkCb sd b (Some [])) r) ∧
  (0%nat = 0%nat → ∃ w', call_onCopyDone (S n) w (mkCb sd b (Some [])) r = Ok w' ∧ pending w' = pending w ∧ dropped w' = dropped w ∧ holder_of w' (other_side sd) = holder_of w (other_side sd)).
Proof.
  intros Hi Hf Hr. destruct (si_bufs _ _ Hi sd b) as (x & Hx & _); [by rewrite Hf|].
  destruct (sinv_told w ph sd b [] fr r x Hi Hf Hx Hr) as (i & st & Eh & _ & Hi').
  specialize (Hi' (if bool_decide (r = copyDropped) then copyDone else copyIdle) ltac:(by case_bool_decide)).
  rewrite (call_host _ w sd b [] r i st x Eh Hx). split.
  - exists (upd ph sd Rest). rewrite upd_same, upd_other. split_and!; [done|done|by destruct sd; apply side_keeps_refl|unfold potential; cbn; lia|done|].
    intros s. by destruct sd, s; cbn in *; rewrite ?Eh.
  - intros _. eexists. split_and!; [done..|by destruct sd].
Qed.

Lemma call_ok T : done_ok T (call_onCopyDone (S T)).
Proof.
  induction T as [|T IH]; intros w ph sd b h fr r Hi Hf Hr HT; destruct h as [k|]; cbn [host_size] in *.
  - destruct k; [|cbn in HT; pose proof (op_size_pos h); lia]. by eapply call_host_nil.
  - by eapply call_guest.
  - split; [|intros Hz; destruct k; [by eapply call_host_nil|cbn in Hz; pose proof (op_size_pos h); lia]].
    destruct (si_bufs _ _ Hi sd b) as (x & Hx & _); [by rewrite Hf|].
    destruct (sinv_told w ph sd b k fr r x Hi Hf Hx Hr) as (i & st & Eh & Hk & Hi').
    rewrite (call_host _ w sd b k r i st x Eh Hx).
    specialize (Hi' (if bool_decide (r = copyDropped) then copyDone else copyIdle) ltac:(by case_bool_decide)). set (w1 := note _ _) in *.
    pose proof (host_ops_ok _ T IH k w1 _ sd Hi') as H1. rewrite upd_same in H1. specialize (H1 I Hk ltac:(unfold potential in *; cbn; lia)).
    unfold post in *. destruct (host_ops _ w1 k) as [w2| | |]; try done. destruct H1 as (ph2 & ? & ? & Hkp & ? & ? & Hw).
    exists ph2. rewrite upd_other in Hkp. split_and!; try done; [by destruct sd|].
    apply (same_holders_trans w w1); [|done]. unfold w1. change (same_holders w (set_holder w sd (AtHost i (if bool_decide (r = copyDropped) then copyDone else copyIdle)))). apply same_holders_set. by rewrite Eh.
  - by eapply call_guest.
Qed.

End inv.
