(* ===== verification/CmStreamRun.v ===== *)
(** Streams in use: whatever guests and hosts do with the ends of a stream, in whatever
    order, as long as a host does nothing in the callback of an operation of no elements
    ([polite]), no operation is lost, none panics, both sides are told of the same
    elements, and a cancellation answers at once. *)
From Stdlib Require Import ZArith Lia String.
From stdpp Require Import base list numbers option tactics gmap relations.
From S2P Require Import Prelude CmStream CmStreamInv CmHandles CmBuffer AbiTypes AbiLayout AbiLoad AbiStore.
Local Open Scope Z_scope.
Local Open Scope go_scope.

Section run.
Context {M B V : Type} `{BL : BufferLaws M B V}.

Abbreviation strm := (@stream M B V).

(** ** What happens to a stream *)

Inductive stream_op : Type :=
| GCopy (sd : endSide) (async : bool) (ptr n : Z)
| GEvent (sd : endSide)
| GCancel (sd : endSide) (async : bool)
| GDrop (sd : endSide)
| GJoin (sd : endSide) (b : bool)
| ETake | ELower (i : nat) | ELift (i : nat)
| HDo (op : @hostOp V)
| XMem (m : M) | XDriver (d : nat → driver).

Definition no_answer (r : outcome stream_error strm) : outcome stream_error (strm * option answer) := let* w := r in Ok (w, None).
Definition some_answer (r : outcome stream_error (strm * answer)) : outcome stream_error (strm * option answer) := let* '(w, a) := r in Ok (w, Some a).

Definition run_op (w : strm) (op : stream_op) : outcome stream_error (strm * option answer) :=
  match op with
  | GCopy sd async ptr n => some_answer (streamCopy w sd async ptr n)
  | GEvent sd => some_answer (take_event w sd)
  | GCancel sd async => some_answer (cancelCopy w sd async)
  | GDrop sd => no_answer (streamDrop w sd)
  | GJoin sd b => no_answer (join_end w sd b)
  | ETake => no_answer (takeReadableStreamEnd w)
  | ELower i => no_answer (lower_readable w i)
  | ELift i => no_answer (lift_to_host w i)
  | HDo op => no_answer (host w op)
  | XMem m => Ok (set_mem w m, None)
  | XDriver d => Ok (set_drv w d, None)
  end.

Definition polite_op (op : stream_op) : bool := match op with HDo op => polite op | _ => true end.

(** A stream after any sequence of operations, none of which trapped, and by hosts that do
    nothing in the callback of an operation of no elements. *)
Inductive sreach : strm → Prop :=
| sreach_guest m num d i : sreach (streamNew m num d i)
| sreach_host m num d i : sreach (NewStream m num d i)
| sreach_step w op w' a : sreach w → polite_op op = true → run_op w op = Ok (w', a) → sreach w'.

(** ** Every operation keeps the invariant *)

Definition quiet_state (w : strm) : Prop := ∃ ph, sinv w ph ∧ ∀ sd, settled (ph sd).

Definition op_post {A} (r : outcome stream_error (strm * A)) : Prop :=
  match r with Ok (w', _) => quiet_state w' | Err _ => True | _ => False end.

Lemma post_quiet w ph sd n r : post w ph sd n r → settled (ph (other_side sd)) → match r with Ok w' => quiet_state w' | Err _ => True | _ => False end.
Proof.
  destruct r as [w'| | |]; try done. intros (ph' & Hi & Hs & Hk & _) Ho. exists ph'. split; [done|].
  refine (side_cases _ sd _ _); [done|]. exact (keeps_settled _ _ _ _ Ho Hk).
Qed.

Lemma quiet_new (w : strm) : bufs w = [] → pending w = None → dropped w = false → log w = [] →
  (∀ sd, match holder_of w sd with AtGuest e => busy (state e) = false ∧ pendingEvent e = None | AtHost _ st => busy st = false | _ => True end) → quiet_state w.
Proof.
  intros Hb Hp Hd Hl Hh. exists (λ _, Rest). split; [|done]. split; [|done|done|done| | |].
  - intros sd. split; [unfold parked_at; rewrite Hp; by intros []|]. apply Hh.
  - unfold total. by rewrite Hl.
  - intros sd. by rewrite Hl.
  - intros sd n. rewrite Hl. by intros ?%elem_of_nil.
Qed.

(** A change that concerns neither the operations nor the elements. *)
Lemma quiet_frame w w' : quiet_state w → bufs w' = bufs w → pending w' = pending w → dropped w' = dropped w → log w' = log w →
  (∀ sd, holder_of w' sd = holder_of w sd) → quiet_state w'.
Proof.
  intros (ph & Hi & Hs) Hb Hp Hd Hl Hh. exists ph. split; [|done]. apply (sinv_ext _ (upd ph sideReadable (ph sideReadable))).
  { intros s. unfold upd. by case_decide; subst. }
  apply (sinv_quiet w); [done|done|done|apply Hh|by left|congruence|rewrite Hd, Hp; apply Hi| |done].
  apply (has_phase_frame w); [apply Hi|apply Hh|by left|by rewrite Hb|by rewrite Hd].
Qed.

(** An end that delivers its event is at rest. *)
Lemma deliver_ok w ph sd e : sinv w ph → settled (ph (other_side sd)) → settled (ph sd) → holder_of w sd = AtGuest e → armed e = true → op_post (deliver_event w sd e).
Proof.
  intros Hi Ho Hs Eh Ha. unfold deliver_event. unfold armed in Ha. destruct (pendingEvent e) as [ev|] eqn:Ee; [|done].
  pose proof (si_phase _ _ Hi sd) as Hph.
  assert (∃ b r, ev = mkEvent r b (match ph sd with Armed _ => true | _ => false end) ∧ out_buf (ph sd) = Some b ∧ (r = copyDropped → dropped w = true) ∧
    (ev_reclaim ev = true → parked_at w sd) ∧ (ev_reclaim ev = false → ¬ parked_at w sd)) as (b & r & -> & Hb & Hr & Hp1 & Hp2).
  { destruct (ph sd) as [|b h fr|b|b|b k|b r]; cbn in *.
    - rewrite Eh in Hph. destruct Hph as (_ & _ & ?). congruence.
    - done.
    - destruct Hph as (e' & E & _ & E2 & _). rewrite Eh in E. injection E as <-. congruence.
    - destruct Hph as (e' & x & E & _ & E2 & E3 & _). rewrite Eh in E. injection E as <-. rewrite Ee in E2. injection E2 as ->.
      exists b, copyCompleted. split_and!; try done. intros _. unfold parked_at. by rewrite E3.
    - destruct Hph as (i & st & x & E & _). congruence.
    - destruct Hph as (Hn & Hr & e' & E & _ & E2 & _). rewrite Eh in E. injection E as <-. rewrite Ee in E2. injection E2 as ->. by exists b, r. }
  destruct (si_bufs _ _ Hi sd b Hb) as (x & Hx & Ox). cbn [ev_reclaim ev_result ev_buf].
  set (rc := match ph sd with Armed _ => true | _ => false end) in *. set (w1 := if rc then resetPending w else w).
  assert (bufs w1 = bufs w ∧ log w1 = log w ∧ dropped w1 = dropped w ∧ (∀ s, holder_of w1 s = holder_of w s) ∧ (pending w1 = pending w ∧ rc = false ∨ pending w1 = None ∧ rc = true))
    as (Hb1 & Hl1 & Hd1 & Hh1 & Hp) by (subst w1; clearbody rc; destruct rc; split_and!; try done; try (by intros []); auto).
  rewrite Hb1, Hx. cbn [op_post]. set (e' := set_state _ _). exists (upd ph sd Rest). split.
  2:{ refine (side_cases _ sd _ _); [by rewrite upd_same|by rewrite upd_other]. }
  assert (¬ parked_at w1 sd) as Hn.
  { unfold parked_at. destruct Hp as [[-> Hf]|[-> _]]; [by apply Hp2|by intros []]. }
  eapply (sinv_tell w _ ph sd Rest b r x); try done.
  - cbn. by rewrite Hl1.
  - rewrite <- Hh1. by destruct sd.
  - cbn. destruct Hp as [[-> _]|[Hp Hrc]]; [by left|right]. specialize (Hp1 Hrc). split; [|unfold parked_at; cbn; rewrite Hp; by intros []]. unfold parked_at in Hp1.
    apply (unparked_loose w (other_side sd)); [apply Hi|]. unfold parked_at. intros Hq. destruct (pending w) as [p|]; [|done]. rewrite Hp1 in Hq. by destruct sd.
  - cbn. by rewrite Hd1.
  - cbn. rewrite Hd1. intros Hd. destruct Hp as [[-> _]|[-> _]]; [by apply Hi|done].
  - split; [done|]. destruct sd; cbn; (split; [by case_bool_decide|done]).
  - cbn. by rewrite Hd1.
Qed.

Lemma finish_ok w ph sd async e : sinv w ph → (∀ s, settled (ph s)) → holder_of w sd = AtGuest e → op_post (finish w sd async).
Proof.
  intros Hi Hs Eh. unfold finish. rewrite Eh. destruct (pendingEvent e) eqn:Ee; [|by exists ph].
  apply (deliver_ok w ph); [done|apply Hs|apply Hs|done|]. unfold armed. by rewrite Ee.
Qed.

Lemma guest_of (w w' : strm) sd e : same_holders w w' → holder_of w sd = AtGuest e → ∃ e', holder_of w' sd = AtGuest e' ∧ inst e' = inst e.
Proof.
  intros Hw Eh. specialize (Hw sd). rewrite Eh in Hw. destruct (holder_of w' sd) as [e'|i st| |]; cbn in Hw; try done. exists e'. split; congruence.
Qed.

(** The operation of a copy in progress, once the shared object has been asked. *)
Lemma copy_started (w : strm) ph sd e b : sinv w ph → (∀ s, settled (ph s)) → holder_of w sd = AtGuest e → state e = copyIdle → bufok b → progressed b = 0 →
  let w1 := note (set_holder (set_bufs w (bufs w ++ [b])) sd (AtGuest (set_state (set_event e false (pendingEvent e)) copyCopying))) (Begun sd) in
  ∃ ph1, sinv w1 ph1 ∧ ph1 sd = Flying (length (bufs w)) None true ∧ (∀ s, s ≠ sd → ph1 s = ph s) ∧
    post w1 ph1 sd (potential w1) (shared_op (call_onCopyDone (fuel_for w1)) sd w1 (Some (inst e)) (mkCb sd (length (bufs w)) None)).
Proof.
  intros Hi Hs Eh Est Ob Pb w1.
  assert (ph sd = Rest) as Hr by (apply (settled_rest w sd); [apply Hi|apply Hs|by rewrite Eh, Est]).
  pose proof (si_phase _ _ Hi sd) as Hph. rewrite Hr in Hph. destruct Hph as [_ Hev]. rewrite Eh in Hev. destruct Hev as [_ Hev].
  exists (upd ph sd (Flying (length (bufs w)) None true)). assert (sinv w1 (upd ph sd (Flying (length (bufs w)) None true))) as Hi1 by (by apply sinv_start).
  split_and!; [done|by rewrite upd_same|intros s Hne; unfold upd; by rewrite decide_False|].
  pose proof (shared_op_ok _ _ (call_ok (potential w1)) w1 _ sd (length (bufs w)) None (Some (inst e)) Hi1 (upd_same _ _ _)) as Hp.
  replace (holder_of w1 sd) with (AtGuest (set_state (set_event e false (pendingEvent e)) copyCopying)) in Hp by by destruct sd.
  specialize (Hp eq_refl ltac:(cbn; lia)). cbn [host_size] in Hp. by rewrite Nat.add_0_r in Hp.
Qed.

Lemma streamCopy_ok (w : strm) sd async ptr n : quiet_state w → op_post (streamCopy w sd async ptr n).
Proof.
  intros (ph & Hi & Hs). unfold streamCopy. destruct (holder_of w sd) as [e|i st| |] eqn:Eh; try done.
  destruct (guest_guard _ _) as [[]| | |] eqn:Eg; try done; try (unfold guest_guard in Eg; by repeat case_match). cbn [obind].
  case_bool_decide as Est; [|done]. cbn [negb]. destruct (_ && _); [done|].
  destruct (newGuestBuffer (mem w) (inst e) ptr n) as [b|] eqn:Eb; [|done]. apply guest_ok in Eb as (Ob & Pb & _).
  destruct (copy_started w ph sd e b Hi Hs Eh Est Ob Pb) as (ph1 & Hi1 & Hf & Ho & Hp). set (w1 := note _ _) in *.
  unfold post in Hp. destruct (shared_op _ sd w1 _ _) as [w2| | |]; try done. destruct Hp as (ph2 & Hi2 & Hs2 & Hk & _ & _ & Hw). cbn [obind].
  destruct (guest_of w1 w2 sd (set_state (set_event e false (pendingEvent e)) copyCopying) Hw) as (e' & Eh' & _); [by destruct sd|].
  apply (finish_ok w2 ph2 sd async e' Hi2); [|done]. refine (side_cases _ sd _ _); [done|].
  rewrite (Ho (other_side sd)) in Hk by (by destruct sd). exact (keeps_settled _ _ _ _ (Hs (other_side sd)) Hk).
Qed.

(** A side that waits, or has an event that can be superseded, is the parked one. *)
Lemma cancel_parked (w : strm) ph sd e : sinv w ph → settled (ph sd) → holder_of w sd = AtGuest e → busy (state e) = true →
  negb (armed e) || livePending e = true → ∃ p, pending w = Some p ∧ cb_side (pendingCb p) = sd.
Proof.
  intros Hi Hs Eh Hb Hl. unfold armed in Hl. pose proof (si_phase _ _ Hi sd) as Hph. destruct (ph sd) as [|b h fr|b|b|b k|b r]; cbn in Hph; [|done| | | |].
  - rewrite Eh in Hph. destruct Hph as (_ & ? & _). congruence.
  - destruct Hph as (e' & _ & _ & _ & Hp). by eexists.
  - destruct Hph as (e' & x & _ & _ & _ & Hp & _). by eexists.
  - destruct Hph as (i & st & x & E & _). congruence.
  - destruct Hph as (_ & _ & e' & E & _ & Ee & El). rewrite Eh in E. injection E as <-. rewrite Ee, El in Hl. done.
Qed.

Lemma sinv_cancelling (w : strm) ph sd e : sinv w ph → holder_of w sd = AtGuest e → busy (state e) = true → settled (ph sd) →
  sinv (set_holder w sd (AtGuest (set_state e copyCancelling))) ph.
Proof.
  intros Hi Eh Hb Hs. apply (sinv_ext _ (upd ph sd (ph sd))); [by intros s; unfold upd; case_decide; subst|].
  apply (sinv_quiet w); [done|done|done|by destruct sd|by left|done|apply Hi| |done].
  pose proof (si_phase _ _ Hi sd) as Hph. destruct (ph sd) as [|b h fr|b|b|b k|b r]; cbn in Hph |- *; [|done| | | |].
  - rewrite Eh in Hph. destruct Hph as (_ & ? & _). congruence.
  - destruct Hph as (e' & E & _ & He & Hp). rewrite Eh in E. injection E as <-. exists (set_state e copyCancelling). by destruct sd.
  - destruct Hph as (e' & x & E & _ & He & Hp & Hx & Hl). rewrite Eh in E. injection E as <-. exists (set_state e copyCancelling), x. by destruct sd.
  - destruct Hph as (i & st & x & E & _). congruence.
  - destruct Hph as (Hn & Hr & e' & E & _ & Ee & El). rewrite Eh in E. injection E as <-. split; [done|]. split; [done|]. exists (set_state e copyCancelling). by destruct sd.
Qed.

Lemma cancelCopy_ok (w : strm) sd async : quiet_state w → op_post (cancelCopy w sd async).
Proof.
  intros (ph & Hi & Hs). unfold cancelCopy. destruct (holder_of w sd) as [e|i st| |] eqn:Eh; try done.
  destruct (guest_guard _ _) as [[]| | |] eqn:Eg; try done; try (unfold guest_guard in Eg; by repeat case_match). cbn [obind].
  case_bool_decide as Est; [|done]. cbn [negb]. destruct (inSet e && _); [done|].
  assert (busy (state e) = true) as Hb by (by rewrite Est). pose proof (sinv_cancelling w ph sd e Hi Eh Hb (Hs sd)) as Hi1.
  set (w1 := set_holder w sd (AtGuest (set_state e copyCancelling))) in *.
  assert (holder_of w1 sd = AtGuest (set_state e copyCancelling)) as Eh1 by (by destruct sd).
  destruct (negb (armed e) || livePending e) eqn:El.
  - destruct (cancel_parked w1 ph sd (set_state e copyCancelling) Hi1 (Hs sd) Eh1 eq_refl El) as (p & Hp & Hsd).
    pose proof (shared_cancel_ok _ _ (call_ok (potential w1)) w1 ph p Hi1 Hp ltac:(lia)) as Hc. fold (fuel_for w1) in Hc. rewrite Hsd in Hc.
    unfold post in Hc. destruct (shared_cancel _ w1) as [w2| | |]; try done. destruct Hc as (ph2 & Hi2 & Hs2 & Hk & _ & _ & Hw). cbn [obind].
    destruct (guest_of w1 w2 sd _ Hw Eh1) as (e' & Eh' & _). apply (finish_ok w2 ph2 sd async e' Hi2); [|done].
    refine (side_cases _ sd _ _); [done|]. exact (keeps_settled _ _ _ _ (Hs (other_side sd)) Hk).
  - cbn [obind]. by apply (finish_ok w1 ph sd async _ Hi1 Hs Eh1).
Qed.

Lemma streamDrop_ok (w : strm) sd : quiet_state w → match streamDrop w sd with Ok w' => quiet_state w' | Err _ => True | _ => False end.
Proof.
  intros (ph & Hi & Hs). unfold streamDrop. destruct (holder_of w sd) as [e|i st| |] eqn:Eh; try done.
  destruct (guest_guard _ _) as [[]| | |] eqn:Eg; try done; try (unfold guest_guard in Eg; by repeat case_match). cbn [obind].
  destruct (busy (state e)) eqn:Eb; [done|].
  assert (ph sd = Rest) as Hr by (apply (settled_rest w sd); [apply Hi|apply Hs|by rewrite Eh]).
  pose proof (shared_drop_ok _ _ (call_ok (potential w)) w ph sd Hi Hr ltac:(lia)) as Hd. fold (fuel_for w) in Hd.
  destruct (shared_drop _ w) as [w1| | |]; try done. destruct Hd as (ph1 & Hi1 & Hr1 & Hh & Hk & _). rewrite Eh in Hh. cbn [obind]. rewrite Hh.
  pose proof (si_phase _ _ Hi sd) as Hph. rewrite Hr in Hph. destruct Hph as [_ Hev]. rewrite Eh in Hev. destruct Hev as [_ Hev].
  unfold armed. rewrite Hev. exists ph1. split; [by apply sinv_rest|]. refine (side_cases _ sd _ _); [by rewrite Hr1|].
  exact (keeps_settled _ _ _ _ (Hs (other_side sd)) Hk).
Qed.

Lemma host_ok (w : strm) op : quiet_state w → polite_op (HDo op) = true → match host w op with Ok w' => quiet_state w' | Err _ => True | _ => False end.
Proof.
  intros (ph & Hi & Hs) Hp. cbn in Hp.
  apply (post_quiet w ph sideReadable (potential w + op_size op)); [|apply Hs].
  apply (host_op_ok _ _ (call_ok (potential w + op_size op))); [done|apply Hs|done|lia].
Qed.

(** Changes of the holder of an end that is at rest. *)
Lemma quiet_hold (w : strm) sd h : quiet_state w →
  match holder_of w sd with AtGuest e => busy (state e) = false | AtHost _ st => busy st = false | _ => True end →
  match h with AtGuest e => busy (state e) = false ∧ pendingEvent e = None | AtHost _ st => busy st = false | _ => True end →
  quiet_state (set_holder w sd h).
Proof.
  intros (ph & Hi & Hs) Hb Hh. exists ph. split; [|done]. apply sinv_rest; [done| |done]. apply (settled_rest w sd); [apply Hi|apply Hs|done].
Qed.

Lemma join_ok (w : strm) sd b : quiet_state w → match join_end w sd b with Ok w' => quiet_state w' | Err _ => True | _ => False end.
Proof.
  intros (ph & Hi & Hs). unfold join_end. destruct (holder_of w sd) as [e|i st| |] eqn:Eh; try done. set (e' := mkEnd _ _ _ _ _).
  exists ph. split; [|done]. apply (sinv_ext _ (upd ph sd (ph sd))); [by intros s; unfold upd; case_decide; subst|].
  apply (sinv_quiet w); [done|done|done|by destruct sd|by left|done|apply Hi| |done].
  pose proof (si_phase _ _ Hi sd) as Hph. specialize (Hs sd). destruct (ph sd) as [|b0 h fr|b0|b0|b0 k|b0 r]; cbn in Hph |- *; [|done| | | |].
  - rewrite Eh in Hph. destruct Hph as [Hn Hm]. split; [exact Hn|]. destruct sd; exact Hm.
  - destruct Hph as (q & E & ? & He & Hp). rewrite Eh in E. injection E as <-. exists e'. by destruct sd.
  - destruct Hph as (q & x & E & ? & He & Hp & Hx & Hl). rewrite Eh in E. injection E as <-. exists e', x. by destruct sd.
  - destruct Hph as (i & st & x & E & _). congruence.
  - destruct Hph as (Hn & Hr & q & E & ? & Ee & El). rewrite Eh in E. injection E as <-. split; [done|]. split; [done|]. exists e'. by destruct sd.
Qed.

Lemma run_op_ok (w : strm) op : quiet_state w → polite_op op = true → op_post (run_op w op).
Proof.
  intros Hq Hp.
  assert (∀ r, match r with Ok w' => quiet_state w' | Err _ => True | _ => False end → op_post (no_answer r)) as Hno by (intros [r| | |]; done).
  assert (∀ r, op_post r → op_post (some_answer r)) as Hsome by (intros [[r a]| | |]; done).
  destruct op as [sd async ptr n|sd|sd async|sd|sd b| |i|i|op|m|d]; cbn [run_op].
  - by apply Hsome, streamCopy_ok.
  - apply Hsome. unfold take_event. destruct (holder_of w sd) as [e|i st| |] eqn:Eh; try done. destruct (armed e) eqn:Ea; [|done].
    destruct Hq as (ph & Hi & Hs). by apply (deliver_ok w ph).
  - by apply Hsome, cancelCopy_ok.
  - by apply Hno, streamDrop_ok.
  - by apply Hno, join_ok.
  - apply Hno. unfold takeReadableStreamEnd. destruct (readable w) as [e|i st| |] eqn:Eh; try done.
    case_bool_decide as Est; [|done]. cbn. destruct (inSet e); [done|]. apply quiet_hold; [done| |done]. cbn. by rewrite Eh, Est.
  - apply Hno. unfold lower_readable. destruct (readable w) as [e|j st| |] eqn:Eh; try done; [destruct st; try done|]; (apply quiet_hold; [done| |done]); cbn; by rewrite Eh.
  - apply Hno. unfold lift_to_host. destruct (readable w) as [e|j st| |] eqn:Eh; try done. apply quiet_hold; [done| |done]. cbn. by rewrite Eh.
  - by apply Hno, host_ok.
  - by apply (quiet_frame w).
  - by apply (quiet_frame w).
Qed.

Lemma sreach_quiet (w : strm) : sreach w → quiet_state w.
Proof.
  induction 1 as [m num d i|m num d i|w op w' a _ IH Hp Hr].
  - apply quiet_new; try done. by intros [].
  - apply quiet_new; try done. by intros [].
  - pose proof (run_op_ok w op IH Hp) as H1. by rewrite Hr in H1.
Qed.

(** ** What a run guarantees *)

Definition busy_end (w : strm) (sd : endSide) : bool :=
  match holder_of w sd with AtGuest e => busy (state e) | AtHost _ st => busy st | _ => false end.

Definition buf_progress (w : strm) (b : nat) : Z := match bufs w !! b with Some x => progressed x | None => 0 end.

(** The elements moved by the operation in progress at an end. *)
Definition in_progress (w : strm) (sd : endSide) : Z :=
  match holder_of w sd, pending w with
  | AtGuest (mkEnd _ _ _ (Some ev) _), _ => buf_progress w (ev_buf ev)
  | _, Some p => if decide (cb_side (pendingCb p) = sd) then buf_progress w (cb_buf (pendingCb p)) else 0
  | _, None => 0
  end.

(** Where the operation of an end is kept, and that an end without one keeps nothing. *)
Definition kept (w : strm) (sd : endSide) : Prop :=
  match holder_of w sd with
  | AtGuest e =>
      if busy (state e) then
        match pendingEvent e with
        | None => parked_at w sd
        | Some ev => (ev_reclaim ev = true ↔ parked_at w sd) ∧ (ev_result ev = copyDropped → dropped w = true)
        end
      else pendingEvent e = None ∧ ¬ parked_at w sd
  | AtHost _ st => if busy st then parked_at w sd else ¬ parked_at w sd
  | _ => ¬ parked_at w sd
  end.

Lemma quiet_kept (w : strm) ph sd : sinv w ph → settled (ph sd) → kept w sd ∧ busy_end w sd = (match out_buf (ph sd) with Some _ => true | None => false end) ∧
  in_progress w sd = progress_of w (ph sd).
Proof.
  intros Hi Hs. pose proof (si_phase _ _ Hi sd) as Hph. unfold kept, busy_end, in_progress, progress_of, buf_progress, parked_at in *.
  destruct (ph sd) as [|b h fr|b|b|b k|b r]; cbn in Hph, Hs |- *; [|done| | | |].
  - destruct Hph as [Hn Hh]. unfold parked_at in Hn. assert (match pending w with Some p => if decide (cb_side (pendingCb p) = sd) then buf_progress w (cb_buf (pendingCb p)) else 0 | None => 0 end = 0) as E.
    { destruct (pending w); [by rewrite decide_False|done]. }
    destruct (holder_of w sd) as [[i st l ev ins]|i st| |]; cbn in *; [destruct Hh as [-> ->]|rewrite Hh|..]; by split_and!.
  - destruct Hph as ([i st l ev ins] & -> & Hb & He & Hp). cbn in *. rewrite Hb, He, Hp. cbn. by rewrite decide_True.
  - destruct Hph as ([i st l ev ins] & x & -> & Hb & He & Hp & Hx & _). cbn in *. by rewrite Hb, He, Hp.
  - destruct Hph as (i & st & x & -> & Hb & Hp & _ & Hx & _). cbn. rewrite Hb, Hp. cbn. by rewrite decide_True.
  - destruct Hph as (Hn & Hr & [i st l ev ins] & -> & Hb & He & _). cbn in *. rewrite Hb, He. split_and!; try done.
Qed.

(** C29. An operation on a stream is never lost and never told twice, if hosts do nothing in the
    callback of an operation of no elements (where [CmStreamOut.nested_write_lost] loses one):
    whatever else guests and hosts do with the two ends, in whatever order and in callbacks on either end, an end is busy exactly while its operation is
    parked or its event is armed (and is parked as long as its event un-parks it), a dropped stream has nobody parked, only an
    operation on a dropped stream is told so, and every operation that began was told once,
    but the one in progress. *)
Theorem stream_operations_tracked (w : strm) sd : sreach w →
  kept w sd ∧ (dropped w = true → pending w = None) ∧ (∀ n, Told sd copyDropped n ∈ log w → dropped w = true) ∧
  sum_log (begun_of sd) (log w) = sum_log (ended_of sd) (log w) + Z.b2z (busy_end w sd).
Proof.
  intros (ph & Hi & Hs)%sreach_quiet. destruct (quiet_kept w ph sd Hi (Hs sd)) as (Hk & Hb & _).
  split_and!; [done|apply Hi|by apply (si_told _ _ Hi)|]. rewrite (si_begun _ _ Hi sd), Hb. by destruct (out_buf (ph sd)).
Qed.

(** C30. A stream neither loses nor invents an element: at any time of such a run, the elements that the
    readable end was told of, and those of its operation in progress, are as many as those
    of the writable end. *)
Theorem stream_conserves (w : strm) : sreach w →
  sum_log (told_of sideReadable) (log w) + in_progress w sideReadable = sum_log (told_of sideWritable) (log w) + in_progress w sideWritable.
Proof.
  intros (ph & Hi & Hs)%sreach_quiet. pose proof (si_total _ _ Hi) as Ht. unfold total in Ht.
  destruct (quiet_kept w ph sideReadable Hi (Hs _)) as (_ & _ & ->), (quiet_kept w ph sideWritable Hi (Hs _)) as (_ & _ & ->). done.
Qed.

(** No operation on a stream that is in use panics, and the callbacks it causes come to
    an end: it is done or it traps. *)
Theorem stream_never_panics (w : strm) op : sreach w → polite_op op = true →
  (∃ w' a, run_op w op = Ok (w', a) ∧ sreach w') ∨ ∃ e, run_op w op = Err e.
Proof.
  intros Hr Hp. pose proof (run_op_ok w op (sreach_quiet _ Hr) Hp) as H1.
  destruct (run_op w op) as [[w' a]|e| |] eqn:E; [left|right; by exists e|done..]. exists w', a. split; [done|]. by eapply sreach_step.
Qed.
End run.

(** ** A stream of bytes between two guests and the host *)

Fixpoint run {M B V} `{CopyBuffers M B V} (w : @stream M B V) (ops : list (@stream_op M V)) : outcome stream_error (@stream M B V) :=
  match ops with [] => Ok w | op :: ops => let* '(w, _) := run_op w op in run w ops end.

Lemma run_reach {M B V} `{BufferLaws M B V} ops : ∀ (w w' : @stream M B V), sreach w → forallb polite_op ops = true → run w ops = Ok w' → sreach w'.
Proof.
  induction ops as [|op ops IH]; cbn; intros w w' Hw Hp; [by intros [= <-]|].
  apply andb_true_iff in Hp as [Hp1 Hp2]. destruct (run_op w op) as [[w1 a]|e| |] eqn:E; try done. apply IH; [|done]. by eapply sreach_step.
Qed.

Module Demo.
(** Instance [i] has memory [i], of sixteen bytes. *)
Definition conf (i : nat) : bufConf unit :=
  mkConf (Some i) (Some (PrimitiveDesc Pu8)) 1 1 None (mkRealloc None None) (λ r, r) 10.
Definition memory (from : Z) : world unit := mkWorld [seqZ from 16] (mkView 0 16) tt.
Definition handles0 : handles := mkHandles newHandleTable [] [].
Definition machine : mems unit := mkMems [memory 0; memory 100] [handles0; handles0].
Definition guest_driver : driver := mkDriver true true false false 0.
Definition host_driver : driver := mkDriver true false false false 0.

#[export] Instance bufs : CopyBuffers (mems unit) copyBuffer Value := buffers conf.
#[export] Instance laws : BufferLaws (mems unit) copyBuffer Value := buffer_laws conf.

Definition start : @stream (mems unit) copyBuffer Value := streamNew machine true (λ _, guest_driver) 0.

(** The readable end moves to instance 1, which asks for five bytes; instance 0 writes
    three of them, and then cancels a write of its own. *)
Definition script : list (@stream_op (mems unit) Value) :=
  [ETake; ELower 1; GCopy sideReadable true 8 5; GCopy sideWritable true 0 3].
Definition state_after (ops : list (@stream_op (mems unit) Value)) : @stream (mems unit) copyBuffer Value :=
  match run start ops with Ok w => w | _ => start end.

Lemma state_reach ops : forallb polite_op ops = true → sreach (state_after ops).
Proof.
  intros Hp. unfold state_after. destruct (run start ops) as [w| | |] eqn:E; [|apply sreach_guest..].
  by apply (run_reach ops start w); [apply sreach_guest| |].
Qed.
End Demo.
Import Demo.

Lemma stream_operations_tracked_witness : let w := Demo.state_after Demo.script in
  busy_end w sideReadable = true ∧ log w = [Begun sideReadable; Begun sideWritable; Told sideWritable copyCompleted 3] ∧
  kept w sideReadable ∧ (dropped w = true → pending w = None) ∧ (∀ n, Told sideReadable copyDropped n ∈ log w → dropped w = true) ∧
  sum_log (begun_of sideReadable) (log w) = sum_log (ended_of sideReadable) (log w) + Z.b2z (busy_end w sideReadable).
Proof.
  cbv zeta. split; [reflexivity|]. split; [vm_compute; reflexivity|].
  apply (stream_operations_tracked (Demo.state_after Demo.script) sideReadable). by apply Demo.state_reach.
Defined.

Lemma stream_conserves_witness : let w := Demo.state_after Demo.script in
  in_progress w sideReadable = 3 ∧
  sum_log (told_of sideReadable) (log w) + in_progress w sideReadable = sum_log (told_of sideWritable) (log w) + in_progress w sideWritable.
Proof.
  cbv zeta. split; [vm_compute; reflexivity|]. apply (stream_conserves (Demo.state_after Demo.script)). by apply Demo.state_reach.
Defined.

Lemma stream_never_panics_witness : let w := Demo.state_after Demo.script in let op := GCancel sideReadable false in
  (∃ w' a, run_op w op = Ok (w', a) ∧ sreach w') ∨ ∃ e, run_op w op = Err e.
Proof. cbv zeta. apply (stream_never_panics (Demo.state_after Demo.script)); [by apply Demo.state_reach|reflexivity]. Defined.
