(* ===== verification/CmStreamOut.v ===== *)
(** What a copy on a stream and its cancellation answer to a guest, on every branch; and an
    operation of a host that is lost. *)
From Stdlib Require Import ZArith Lia.
From stdpp Require Import base list numbers option tactics relations.
From S2P Require Import Prelude CmStream CmStreamInv CmStreamRun CmHandles CmBuffer AbiTypes AbiLayout AbiLoad AbiStore.
Local Open Scope Z_scope.
Local Open Scope go_scope.

Section out.
Context {M B V : Type} `{BL : BufferLaws M B V}.

Abbreviation strm := (@stream M B V).
Abbreviation cback := (@callback V).

(** ** A buffer that is not parked stays as it is *)

Definition stays (b : nat) (x : B) (w : strm) : Prop := bufs w !! b = Some x ∧ ∀ p, pending w = Some p → cb_buf (pendingCb p) ≠ b.

Definition after (P : strm → Prop) (r : outcome stream_error strm) : Prop := match r with Ok w => P w | _ => True end.

Lemma after_bind (P : strm → Prop) r f : after P r → (∀ w, P w → after P (f w)) → after P (let* w := r in f w).
Proof. destruct r; cbn; auto. Qed.

Section shared.
Variable done : strm → cback → copyResult → outcome stream_error strm.
Variables (b : nat) (x : B).
Hypothesis Hdone : ∀ w cb r, stays b x w → after (stays b x) (done w cb r).

Lemma stays_reset w : stays b x w → stays b x (resetPending w).
Proof using Type. by intros [? _]. Qed.

Lemma stays_notify w r : stays b x w → after (stays b x) (resetAndNotifyPending done w r).
Proof using Hdone. intros Hw. unfold resetAndNotifyPending. destruct (pending w); [|done]. by apply Hdone, stays_reset. Qed.

Lemma stays_copy w dst src n : stays b x w → dst ≠ b → src ≠ b → after (stays b x) (copy w dst src n).
Proof using Type.
  intros [Hx Hp] Hd Hs. unfold copy. destruct (bufs w !! dst); [|done]. destruct (bufs w !! src); [|done].
  destruct (copyElements _ _ _ _ _) as [[[m d] s]|]; [|done]. cbn. split; [|done]. cbn. by rewrite !list_lookup_insert_ne.
Qed.

Lemma stays_onCopy w cb : stays b x w → after (stays b x) (call_onCopy done w cb).
Proof using Hdone.
  intros Hw. unfold call_onCopy. destruct (cb_host cb); [by apply Hdone, stays_reset|].
  destruct (holder_of w _); try done. destruct (bufs w !! _); done.
Qed.

Lemma stays_op w sd i cb : stays b x w → cb_buf cb ≠ b → after (stays b x) (shared_op done sd w i cb).
Proof using Hdone.
  intros Hw Hcb. destruct (bufs w !! cb_buf cb) as [y|] eqn:Hy.
  2:{ destruct sd; cbn; unfold shared_read, shared_write; (destruct (dropped w); [by apply Hdone|]); (destruct (pending w); [|by split; [apply Hw|intros p [= <-]]]);
      rewrite Hy; by destruct (_ && _). }
  destruct cb as [csd cbuf ch]. cbn in Hcb, Hy.
  assert (∀ p, pending w = Some p → cb_buf (pendingCb p) ≠ b) as Hne by apply Hw.
  assert (∀ w1, stays b x w1 → stays b x (setPending w1 (Some (mkParked i (mkCb csd cbuf ch))))) as Hpark by (intros w1 [? _]; split; [done|by intros p [= <-]]).
  destruct sd; cbn; unfold shared_read, shared_write; cbn [cb_buf]; rewrite Hy; (destruct (dropped w); [by apply Hdone|]);
    (destruct (pending w) as [p|]; [|by apply Hpark]); (destruct (_ && _); [done|]); specialize (Hne p eq_refl);
    (destruct (bufs w !! cb_buf (pendingCb p)) as [z|]; [|done]); (destruct (0 <? remain z); [apply after_bind; [|intros w1 ?; by apply Hdone]|]).
  1,3: destruct (0 <? remain y); [|done]; (apply after_bind; [by apply stays_copy|intros w1 ?; by apply stays_onCopy]).
  2: destruct (isZeroLength y && _); [by apply Hdone|].
  all: apply after_bind; [by apply stays_notify|intros w1 ?; by apply Hpark].
Qed.

Lemma stays_host w op : stays b x w → after (stays b x) (host_op done w op).
Proof using Hdone.
  intros Hw.
  assert (∀ sd y k, after (stays b x) (host_start done w sd y k)) as Hstart.
  { intros sd y k. unfold host_start. destruct (holder_of w sd); try done. destruct (negb _); [done|]. destruct (negb _); [done|].
    destruct Hw as [Hx Hp]. apply lookup_lt_Some in Hx as Hlt. apply stays_op; cbn; [|lia]. split; [cbn; by rewrite lookup_app_l|done]. }
  destruct op as [vals k|n k|sd|sd]; cbn [host_op]; [done..| |].
  - unfold host_close. destruct (holder_of w sd); try done. destruct (negb _); [done|]. destruct (busy _); [done|].
    apply after_bind; [|done]. unfold shared_drop. destruct (dropped w); [done|]. cbn. destruct (pending w) as [p|] eqn:Hp; [|by destruct Hw].
    by apply stays_notify.
  - unfold host_cancel. destruct (holder_of w sd); try done. destruct (negb _); [done|]. destruct (negb _); [done|]. cbn.
    destruct (pending w); [|done]. by apply stays_notify.
Qed.

Lemma stays_hosts ops : ∀ w, stays b x w → after (stays b x) (host_ops done w ops).
Proof using Hdone.
  induction ops as [|op ops IH]; intros w Hw; [done|]. cbn [host_ops]. apply after_bind; [by apply stays_host|apply IH].
Qed.
End shared.

Lemma stays_done b x fuel : ∀ w cb r, stays b x w → after (stays b x) (call_onCopyDone fuel w cb r).
Proof.
  induction fuel as [|fuel IH]; intros w cb r Hw; [done|]. cbn [call_onCopyDone]. destruct (cb_host cb) as [k|].
  - apply stays_hosts; [apply IH|]. by destruct (holder_of w (cb_side cb)).
  - by destruct (holder_of w (cb_side cb)).
Qed.

(** ** The branches of a copy *)

(** The callback of a guest arms its event, and the call that asked finds it. *)
Lemma finish_told (w w' : strm) sd e r b x fuel async : holder_of w sd = AtGuest e → bufs w !! b = Some x →
  call_onCopyDone (S fuel) w (mkCb sd b None) r = Ok w' → ∃ w2, finish w' sd async = Ok (w2, Result (packCopyResult r (progressed x))).
Proof.
  intros Eh Hx. cbn. rewrite Eh. intros [= <-]. unfold finish.
  replace (holder_of (set_holder w sd _) sd) with (AtGuest (set_event e false (Some (mkEvent r b false)))) by by destruct sd.
  cbn. rewrite Hx. by eexists.
Qed.

Definition copy_answer (w : strm) (sd : endSide) (async : bool) (x : B) : answer :=
  let wait := if async then Blocked else MustWait in
  if dropped w then Result (packCopyResult copyDropped 0)
  else match pending w with
  | None => wait
  | Some p =>
      match bufs w !! cb_buf (pendingCb p) with
      | None => wait
      | Some y =>
          if 0 <? remain y then Result (packCopyResult copyCompleted (Z.min (remain x) (remain y)))
          else if bool_decide (sd = sideWritable) && (isZeroLength x && isZeroLength y) then Result (packCopyResult copyCompleted 0)
          else wait
      end
  end.

(** A copy can trap only where it meets the other side. *)
Definition copy_meets (w : strm) (i : nat) (x : B) : bool :=
  negb (dropped w) && match pending w with
  | None => false
  | Some p => same_instance (Some i) p && negb (numeric w) || match bufs w !! cb_buf (pendingCb p) with Some y => (0 <? remain x) && (0 <? remain y) | None => false end
  end.

Lemma meet_fields (w w' : strm) ph sd b p x y T : sinv w ph → ph sd = Flying b None true → pending w = Some p → cb_side (pendingCb p) = other_side sd →
  bufs w !! b = Some x → progressed x = 0 → bufs w !! cb_buf (pendingCb p) = Some y → 0 < remain y → dropped w = false → (potential w ≤ T)%nat →
  meet (call_onCopyDone (S T)) w p b x y sd = Ok w' →
  ∃ e z, holder_of w' sd = AtGuest e ∧ bufs w' !! b = Some z ∧ progressed z = Z.min (remain x) (remain y).
Proof.
  intros Hi Hf Hp Hsd Hx Px Hy Ry Hd HT E.
  assert (∃ e, holder_of w' sd = AtGuest e) as [e He].
  { pose proof (meet_ok _ _ (call_ok T) w ph sd b None true p x y Hi Hf Hp Hsd Hx Hy Ry Hd HT) as Hm. rewrite E in Hm.
    destruct Hm as (ph' & fr & Hi' & Hf' & _). pose proof (si_phase _ _ Hi' sd) as Hph. rewrite Hf' in Hph. destruct Hph as (_ & _ & Hh).
    destruct (holder_of w' sd) as [e|i st| |]; [by exists e|by destruct Hh as (_ & k & ? & _)|done..]. }
  exists e. destruct (si_bufs _ _ Hi sd b ltac:(by rewrite Hf)) as (x0 & Hx0 & Ox). rewrite Hx in Hx0. injection Hx0 as <-.
  destruct (remain_len _ Ox) as [Rx Bx]. unfold meet in E. destruct (0 <? remain x) eqn:R0; [apply Z.ltb_lt in R0|apply Z.ltb_ge in R0; injection E as <-; exists x; split_and!; try done; lia].
  destruct (parked_other w ph p Hi Hp) as [_ Ho]. rewrite Hsd in Ho. destruct (si_bufs _ _ Hi _ _ Ho) as (y0 & Hy0 & Oy). rewrite Hy in Hy0. injection Hy0 as <-.
  assert (b ≠ cb_buf (pendingCb p)) as Hne.
  { intros Eb. apply (si_apart _ _ Hi b); destruct sd; cbn in *; rewrite ?Hf, ?Ho; cbn; congruence. }
  set (c := match sd with sideReadable => _ | sideWritable => _ end) in E. destruct c as [w1| | |] eqn:Ec; try done. subst c.
  apply (copy_fields w sd b _ x y w1) in Ec as (z & y' & n & _ & _ & _ & Pz & _ & -> & _ & Hz & _ & _ & _ & _ & _ & Hp1); [|done..].
  exists z. split_and!; [done| |lia]. cbn [obind] in E.
  pose proof (stays_onCopy (call_onCopyDone (S T)) b z (stays_done b z (S T)) w1 (pendingCb p)) as Hst. rewrite E in Hst. apply Hst.
  split; [done|]. rewrite Hp1, Hp. by intros q [= <-].
Qed.

(** Notifying a side that is complete causes nothing else. *)
Lemma swap_fields (w : strm) ph p y T : sinv w ph → pending w = Some p → bufs w !! cb_buf (pendingCb p) = Some y → remain y = 0 → (potential w ≤ T)%nat →
  ∃ w', resetAndNotifyPending (call_onCopyDone (S T)) w copyCompleted = Ok w' ∧ holder_of w' (other_side (cb_side (pendingCb p))) = holder_of w (other_side (cb_side (pendingCb p))).
Proof.
  intros Hi Hp Hy Ry HT. unfold resetAndNotifyPending. rewrite Hp.
  assert (cb_size (pendingCb p) = 0%nat) as Hz.
  { destruct (parked_holder w ph p Hi Hp) as [(e & _ & _ & _ & Ek)|(? & ? & k & q & _ & _ & _ & Ek & _ & Hq & _ & Hk)]; unfold cb_size; rewrite Ek; [done|].
    rewrite Hy in Hq. injection Hq as <-. by rewrite (Hk Ry). }
  destruct (notify_ok _ _ (call_ok T) w (resetPending w) ph p copyCompleted Hi Hp ltac:(by left) ltac:(done) HT) as [_ H2].
  destruct (H2 Hz) as (w2 & E & _ & _ & Hh). by exists w2.
Qed.

(** The operation, asked of the shared object, and the result its caller finds. *)
Lemma op_finish (w : strm) ph sd e b x async : sinv w ph → ph sd = Flying b None true → holder_of w sd = AtGuest e →
  bufs w !! b = Some x → progressed x = 0 → pendingEvent e = None →
  match (let* w' := shared_op (call_onCopyDone (fuel_for w)) sd w (Some (inst e)) (mkCb sd b None) in finish w' sd async) with
  | Ok (_, a) => a = copy_answer w sd async x
  | Err _ => copy_meets w (inst e) x = true
  | _ => True
  end.
Proof.
  intros Hi Hf Eh Hx Px Hev. rewrite (shared_op_meet _ w sd b None (Some (inst e)) x Hx). unfold copy_answer, copy_meets, fuel_for.
  assert (∀ (w1 : strm) e1 r z, holder_of w1 sd = AtGuest e1 → bufs w1 !! b = Some z → ∃ w2,
    (let* w' := call_onCopyDone (S (potential w)) w1 (mkCb sd b None) r in finish w' sd async) = Ok (w2, Result (packCopyResult r (progressed z)))) as Htold.
  { intros w1 e1 r z E1 Hz. destruct (call_onCopyDone _ _ _ _) as [w'|? | |] eqn:E; [|cbn in E; by rewrite E1 in E..]. by eapply finish_told. }
  assert (∀ w1 : strm, holder_of w1 sd = AtGuest e → finish w1 sd async = Ok (w1, if async then Blocked else MustWait)) as Hwait.
  { intros w1 E1. unfold finish. by rewrite E1, Hev. }
  assert (∀ (w1 : strm) q, holder_of (setPending w1 q) sd = holder_of w1 sd) as Hsp by (by intros; destruct sd).
  destruct (dropped w) eqn:Ed. { destruct (Htold w e copyDropped x Eh Hx) as (w2 & ->). by rewrite Px. }
  destruct (pending w) as [p|] eqn:Hp; cbn [negb andb obind]; [|by rewrite Hwait by by rewrite Hsp].
  destruct (same_instance (Some (inst e)) p && negb (numeric w)); [done|]. cbn [orb].
  pose proof (other_parked w ph sd b None true p Hi Hf Hp) as Hsd. destruct (parked_other w ph p Hi Hp) as [_ Ho].
  destruct (si_bufs _ _ Hi _ _ Ho) as (y & Hy & Oy). rewrite Hy. destruct (0 <? remain y) eqn:Ry.
  - apply Z.ltb_lt in Ry. destruct (meet _ w p b x y sd) as [w1|er| |] eqn:Em; cbn [obind]; [| |done..].
    + destruct (meet_fields w w1 ph sd b p x y (potential w) Hi Hf Hp Hsd Hx Px Hy Ry Ed ltac:(lia) Em) as (e1 & z & E1 & Hz & Pz).
      destruct (Htold w1 e1 copyCompleted z E1 Hz) as (w2 & ->). by rewrite Pz.
    + unfold meet in Em. by destruct (0 <? remain x).
  - destruct (_ && _). { destruct (Htold w e copyCompleted x Eh Hx) as (w2 & ->). by rewrite Px. }
    apply Z.ltb_ge in Ry. destruct (remain_len _ Oy) as [? ?].
    destruct (swap_fields w ph p y (potential w) Hi Hp Hy ltac:(lia) ltac:(lia)) as (w1 & -> & Hh). cbn [obind].
    rewrite Hsd, other_twice in Hh. by rewrite Hwait by (by rewrite Hsp, Hh).
Qed.

(** C31. What a read or a write of a guest answers, on every branch, in any state that a run
    in which hosts do nothing in the callback of an operation of no elements can reach: that the stream is
    dropped, if it is; if the other side is parked with room left, the number of
    elements that fit both buffers; nothing moved, for an empty write that meets an empty
    read; and that it has to wait otherwise, also where it takes the place of a parked side that is complete.  It traps
    only where it meets the other side. *)
Theorem stream_copy_outcome (w : strm) sd async ptr n e x : sreach w → holder_of w sd = AtGuest e → guest_guard (drv w (inst e)) async = Ok tt →
  state e = copyIdle → inSet e && negb async = false → newGuestBuffer (mem w) (inst e) ptr n = Some x →
  match streamCopy w sd async ptr n with
  | Ok (_, a) => a = copy_answer w sd async x
  | Err _ => copy_meets w (inst e) x = true
  | _ => False
  end.
Proof.
  intros Hr Eh Hg Est Hset Ex. pose proof (sreach_quiet w Hr) as Hq. pose proof (streamCopy_ok w sd async ptr n Hq) as Hok.
  destruct Hq as (ph & Hi & Hs). revert Hok. unfold streamCopy. rewrite Eh, Hg. cbn [obind]. rewrite bool_decide_true by done. cbn [negb]. rewrite Hset, Ex.
  apply guest_ok in Ex as (Ob & Pb & _). destruct (copy_started w ph sd e x Hi Hs Eh Est Ob Pb) as (ph1 & Hi1 & Hf & _ & _). set (w1 := note _ _) in *.
  assert (ph sd = Rest) as Hrest by (apply (settled_rest w sd); [apply Hi|apply Hs|by rewrite Eh, Est]).
  pose proof (si_phase _ _ Hi sd) as Hph. rewrite Hrest in Hph. destruct Hph as [_ Hev]. rewrite Eh in Hev. destruct Hev as [_ Hev].
  pose proof (op_finish w1 ph1 sd (set_state (set_event e false (pendingEvent e)) copyCopying) (length (bufs w)) x async Hi1 Hf) as Ho.
  specialize (Ho ltac:(by destruct sd) ltac:(cbn; by apply list_lookup_middle) Pb Hev). cbn [inst set_state set_event] in Ho.
  assert (∀ p, pending w = Some p → bufs w1 !! cb_buf (pendingCb p) = bufs w !! cb_buf (pendingCb p)) as Hold.
  { intros p Hp. destruct (parked_other w ph p Hi Hp) as [_ Hb]. destruct (si_bufs _ _ Hi _ _ Hb) as (y & Hy & _). cbn. rewrite lookup_app_l; [done|]. by eapply lookup_lt_Some. }
  assert (copy_answer w1 sd async x = copy_answer w sd async x) as E1.
  { unfold copy_answer. cbn [dropped pending w1 note set_holder set_bufs]. destruct (pending w) as [p|] eqn:Hp; [by rewrite (Hold p eq_refl)|done]. }
  assert (copy_meets w1 (inst e) x = copy_meets w (inst e) x) as E2.
  { unfold copy_meets. cbn [dropped pending numeric w1 note set_holder set_bufs]. destruct (pending w) as [p|] eqn:Hp; [by rewrite (Hold p eq_refl)|done]. }
  rewrite E1, E2 in Ho. destruct (let* w' := _ in _) as [[w' a]| | |]; done.
Qed.

(** What is left of the end of a copy that was told its result. *)
Definition told_alone (w w' : strm) (sd : endSide) (r : copyResult) (n : Z) : Prop :=
  busy_end w' sd = false ∧ ¬ parked_at w' sd ∧ holder_of w' (other_side sd) = holder_of w (other_side sd) ∧ log w' = (log w ++ [Told sd r n])%list.

Lemma cancel_unparks (w : strm) sd e b fuel async : pending w = Some (mkParked (Some (inst e)) (mkCb sd b None)) →
  ∃ w', (let* w1 := shared_cancel (call_onCopyDone (S fuel)) (set_holder w sd (AtGuest (set_state e copyCancelling))) in finish w1 sd async) =
    Ok (w', Result (packCopyResult copyCancelled (buf_progress w b))) ∧ told_alone w w' sd copyCancelled (buf_progress w b).
Proof.
  intros Hp. unfold shared_cancel, resetAndNotifyPending, finish, deliver_event. destruct sd; cbn; rewrite Hp; cbn; eexists; (split; [done|]); split_and!; try done; by intros [].
Qed.

Lemma cancel_event (w : strm) sd e ev async : pendingEvent e = Some ev → (ev_reclaim ev = false → ¬ parked_at w sd) →
  ∃ w', finish (set_holder w sd (AtGuest (set_state e copyCancelling))) sd async =
    Ok (w', Result (packCopyResult (ev_result ev) (buf_progress w (ev_buf ev)))) ∧ told_alone w w' sd (ev_result ev) (buf_progress w (ev_buf ev)).
Proof.
  intros He Hn. unfold finish. replace (holder_of (set_holder w sd _) sd) with (AtGuest (set_state e copyCancelling)) by by destruct sd.
  cbn [set_state pendingEvent]. rewrite He. unfold deliver_event. cbn [set_state pendingEvent]. rewrite He.
  assert (∀ r, busy (if bool_decide (r = copyDropped) then copyDone else copyIdle) = false) as Hb by (intros r; by case_bool_decide).
  destruct (ev_reclaim ev); (eexists; split; [done|]); split_and!.
  - destruct sd; apply Hb.
  - by intros [].
  - by destruct sd.
  - done.
  - destruct sd; apply Hb.
  - by destruct sd; apply Hn.
  - by destruct sd.
  - done.
Qed.

(** A cancellation always answers at once, and is about the copy that was cancelled only: a copy
    whose final event is armed answers that event, and any other that it was cancelled, with the elements it has moved. *)
Theorem stream_cancel_outcome (w : strm) sd async e : sreach w → holder_of w sd = AtGuest e → guest_guard (drv w (inst e)) async = Ok tt →
  state e = copyCopying → inSet e && negb async = false →
  let r := match pendingEvent e with Some ev => if livePending e then copyCancelled else ev_result ev | None => copyCancelled end in
  ∃ w', cancelCopy w sd async = Ok (w', Result (packCopyResult r (in_progress w sd))) ∧ told_alone w w' sd r (in_progress w sd).
Proof.
  intros (ph & Hi & Hs)%sreach_quiet Eh Hg Est Hset r. unfold cancelCopy. rewrite Eh, Hg. cbn [obind]. rewrite bool_decide_true by done. cbn [negb]. rewrite Hset.
  pose proof (si_phase _ _ Hi sd) as Hph. specialize (Hs sd). unfold r, in_progress, armed. rewrite Eh.
  destruct e as [i st l ev ins]. cbn in Est |- *. subst st.
  destruct (ph sd) as [|b h fr|b|b|b k|b q]; cbn in Hph; [|done| | | |].
  - rewrite Eh in Hph. destruct Hph as (_ & ? & _). done.
  - destruct Hph as (e' & E & _ & He & Hp). rewrite Eh in E. injection E as <-. cbn in *. subst ev.
    rewrite Hp. cbn. rewrite decide_True by done. by eapply (cancel_unparks _ _ (mkEnd _ _ _ _ _)).
  - destruct Hph as (e' & x & E & _ & He & Hp & Hx & Hl). rewrite Eh in E. injection E as <-. cbn in *. subst ev. destruct l.
    + by eapply (cancel_unparks _ _ (mkEnd _ _ _ _ _)).
    + by eapply (cancel_event _ _ (mkEnd _ _ _ _ _)).
  - destruct Hph as (? & ? & ? & E & _). congruence.
  - destruct Hph as (Hn & _ & e' & E & _ & He & Hl). rewrite Eh in E. injection E as <-. cbn in *. subst ev l.
    by eapply (cancel_event _ _ (mkEnd _ _ _ _ _)).
Qed.
End out.

(** ** Examples *)
Import Demo.

Lemma stream_copy_outcome_witness : let w := state_after [ETake; ELower 1; GCopy sideReadable true 8 5] in
  copy_answer w sideWritable true (BGuest (mkGuest 0 0 3 0)) = Result 48 ∧
  match streamCopy w sideWritable true 0 3 with
  | Ok (_, a) => a = copy_answer w sideWritable true (BGuest (mkGuest 0 0 3 0))
  | Err _ => copy_meets w 0 (BGuest (mkGuest 0 0 3 0)) = true
  | _ => False
  end.
Proof.
  cbv zeta. set (w := state_after _). split; [vm_compute; reflexivity|].
  apply (stream_copy_outcome w sideWritable true 0 3 (mkEnd 0 copyIdle false None false)); [by apply state_reach|vm_compute; reflexivity..].
Defined.

Lemma stream_cancel_outcome_witness : let w := state_after [ETake; ELower 1; GCopy sideReadable true 8 5; GCopy sideWritable true 0 3] in
  let e := mkEnd 1 copyCopying true (Some (mkEvent copyCompleted 0 true)) false in
  ∃ w', cancelCopy w sideReadable true = Ok (w', Result (packCopyResult copyCancelled (in_progress w sideReadable))) ∧
    in_progress w sideReadable = 3 ∧ told_alone w w' sideReadable copyCancelled (in_progress w sideReadable).
Proof.
  cbv zeta. set (w := state_after _).
  destruct (stream_cancel_outcome w sideReadable true (mkEnd 1 copyCopying true (Some (mkEvent copyCompleted 0 true)) false)) as (w' & E & H);
    [by apply state_reach|vm_compute; reflexivity..|]. exists w'. split; [exact E|]. split; [vm_compute; reflexivity|exact H].
Defined.

(** A host that asks for more in the callback of an operation of no elements: a writer of
    instance 0's host and a guest that reads.  The write that the callback parked is overwritten
    by the reader: it began and is never told, and nothing is left that could tell it. *)
Definition host_start_demo : @stream (mems unit) copyBuffer Value := NewStream machine true (λ _, mkDriver true false false false 0) 0.

Theorem nested_write_lost :
  match run host_start_demo [ELower 1; HDo (HWrite [] [HWrite [VU32 7] []]); GCopy sideReadable true 8 5] with
  | Ok w =>
      (* both writes began, only the first was told, the end is still busy, and the reader is parked *)
      sum_log (begun_of sideWritable) (log w) = 2 ∧ sum_log (ended_of sideWritable) (log w) = 1 ∧
      busy_end w sideWritable = true ∧ ¬ parked_at w sideWritable ∧ parked_at w sideReadable ∧
      (* a cancellation by the host cancels the read of the guest *)
      match run_op w (HDo (HCancel sideWritable)) with
      | Ok (w', _) => pending w' = None ∧
          match holder_of w' sideReadable with AtGuest e => pendingEvent e = Some (mkEvent copyCancelled 1 false) | _ => False end
      | _ => False
      end
  | _ => False
  end.
Proof. vm_compute. split_and!; try done. Qed.
