(* ===== verification/CmFuture.v ===== *)
(** Futures ([internal/component/instance/stream.go], [stream_builtins.go], [stream_host.go]):
    the rendezvous for one element, the builtins of a guest, and the ends a host holds. *)
From Stdlib Require Import ZArith Lia.
From stdpp Require Import base list numbers option tactics relations.
From S2P Require Import Prelude CmStream.
Local Open Scope Z_scope.
Local Open Scope go_scope.

Section future.
Context {M B V : Type} `{CopyBuffers M B V}.

(** What a host does with its ends ([FutureWriter] and [FutureReader]). *)
Inductive futureOp : Type :=
| FSet (v : V) (onDone : list futureOp)
| FGet (onDone : list futureOp)
| FClose (sd : endSide)
| FCancel.

(** The callback of an operation in progress, as what it captures. *)
Record fcallback := mkFCb { fc_side : endSide; fc_buf : nat; fc_host : option (list futureOp) }.
Record fparked := mkFParked { fp_inst : option nat; fp_cb : fcallback }.

(** The end of a guest; its event is the result, with the buffer it is about. *)
Record futureEnd := mkFEnd { fe_inst : nat; fe_state : copyState; fe_event : option (copyResult * nat); fe_inSet : bool }.

Inductive fholder : Type := FAtGuest (e : futureEnd) | FAtHost (i : nat) (st : copyState) | FInTransit | FGone.

(** What happened at an end; of a result, whether the buffer has no room left. *)
Inductive fentry : Type := FBegun (sd : endSide) | FTold (sd : endSide) (r : copyResult) (full : bool).

Record future := mkFuture {
  fmem : M; fbufs : list B; fnumeric : bool;
  fdropped : bool; fpending : option fparked;
  freadable : fholder; fwritable : fholder;
  fdrv : nat → driver; flog : list fentry
}.

Abbreviation fres := (outcome stream_error).

Definition fset_mem (w : future) (m : M) : future := mkFuture m (fbufs w) (fnumeric w) (fdropped w) (fpending w) (freadable w) (fwritable w) (fdrv w) (flog w).
Definition fset_bufs (w : future) (bs : list B) : future := mkFuture (fmem w) bs (fnumeric w) (fdropped w) (fpending w) (freadable w) (fwritable w) (fdrv w) (flog w).
Definition fset_dropped (w : future) : future := mkFuture (fmem w) (fbufs w) (fnumeric w) true (fpending w) (freadable w) (fwritable w) (fdrv w) (flog w).
Definition fset_drv (w : future) (d : nat → driver) : future := mkFuture (fmem w) (fbufs w) (fnumeric w) (fdropped w) (fpending w) (freadable w) (fwritable w) d (flog w).
Definition fnote (w : future) (e : fentry) : future := mkFuture (fmem w) (fbufs w) (fnumeric w) (fdropped w) (fpending w) (freadable w) (fwritable w) (fdrv w) (flog w ++ [e]).

Definition fholder_of (w : future) (sd : endSide) : fholder := match sd with sideReadable => freadable w | sideWritable => fwritable w end.
Definition fset_holder (w : future) (sd : endSide) (h : fholder) : future :=
  mkFuture (fmem w) (fbufs w) (fnumeric w) (fdropped w) (fpending w)
    (match sd with sideReadable => h | sideWritable => freadable w end) (match sd with sideReadable => fwritable w | sideWritable => h end) (fdrv w) (flog w).

Definition fset_state (e : futureEnd) (st : copyState) : futureEnd := mkFEnd (fe_inst e) st (fe_event e) (fe_inSet e).
Definition fset_event (e : futureEnd) (ev : option (copyResult * nat)) : futureEnd := mkFEnd (fe_inst e) (fe_state e) ev (fe_inSet e).

(** * The shared object *)

Definition fsetPending (w : future) (p : option fparked) : future :=
  mkFuture (fmem w) (fbufs w) (fnumeric w) (fdropped w) p (freadable w) (fwritable w) (fdrv w) (flog w).
Definition fresetPending (w : future) : future := fsetPending w None.

Section shared.
(** [done] calls [onCopyDone]. *)
Variable done : future → fcallback → copyResult → fres future.

Definition fresetAndNotifyPending (w : future) (r : copyResult) : fres future :=
  match fpending w with None => Panic | Some p => done (fresetPending w) (fp_cb p) r end.

Definition future_cancel (w : future) : fres future := fresetAndNotifyPending w copyCancelled.

Definition fsame_instance (i : option nat) (p : fparked) : bool :=
  match i with None => false | Some _ => bool_decide (i = fp_inst p) end.

(** One element from the buffer [src] to the buffer [dst]. *)
Definition fcopy (w : future) (dst src : nat) : fres future :=
  match fbufs w !! dst, fbufs w !! src with
  | Some d, Some s =>
      match copyElements (fnumeric w) (fmem w) d s 1 with
      | Some (m, d, s) => Ok (fset_bufs (fset_mem w m) (<[src := s]> (<[dst := d]> (fbufs w))))
      | None => Err CopyTrap
      end
  | _, _ => Panic
  end.

Definition future_read (w : future) (i : option nat) (cb : fcallback) : fres future :=
  if fdropped w then Panic
  else match fpending w with
  | None => Ok (fsetPending w (Some (mkFParked i cb)))
  | Some p =>
      if fsame_instance i p && negb (fnumeric w) then Err SameInstance
      else
        let* w := fcopy w (fc_buf cb) (fc_buf (fp_cb p)) in
        let* w := fresetAndNotifyPending w copyCompleted in
        done w cb copyCompleted
  end.

Definition future_write (w : future) (i : option nat) (cb : fcallback) : fres future :=
  if fdropped w then done w cb copyDropped
  else match fpending w with
  | None => Ok (fsetPending w (Some (mkFParked i cb)))
  | Some p =>
      if fsame_instance i p && negb (fnumeric w) then Err SameInstance
      else
        let* w := fcopy w (fc_buf (fp_cb p)) (fc_buf cb) in
        let* w := fresetAndNotifyPending w copyCompleted in
        done w cb copyCompleted
  end.

Definition future_op (sd : endSide) : future → option nat → fcallback → fres future :=
  match sd with sideReadable => future_read | sideWritable => future_write end.

Definition future_drop (w : future) : fres future :=
  if fdropped w then Ok w
  else let w := fset_dropped w in match fpending w with Some _ => fresetAndNotifyPending w copyDropped | None => Ok w end.

(** * The ends of a host *)

(** [FutureWriter.Set] and [FutureReader.Get], on a fresh buffer. *)
Definition future_start (w : future) (sd : endSide) (b : B) (k : list futureOp) : fres future :=
  match fholder_of w sd with
  | FAtHost i st =>
      if negb (requireSchedulable (fdrv w i)) then Err NotSchedulable
      else if negb (bool_decide (st = copyIdle)) then Err HostMisuse
      else
        let buf := length (fbufs w) in
        let w := fnote (fset_holder (fset_bufs w (fbufs w ++ [b])) sd (FAtHost i copyCopying)) (FBegun sd) in
        future_op sd w None (mkFCb sd buf (Some k))
  | _ => Err NotHeld
  end.

Definition future_close (w : future) (sd : endSide) : fres future :=
  match fholder_of w sd with
  | FAtHost i st =>
      if negb (requireSchedulable (fdrv w i)) then Err NotSchedulable
      else match sd with
      | sideWritable => if negb (bool_decide (st = copyDone)) then Err HostMisuse else future_drop w
      | sideReadable => if busy st then Err HostMisuse else let* w := future_drop w in Ok (fset_holder w sd (FAtHost i copyDone))
      end
  | _ => Err NotHeld
  end.

(** [FutureReader.Cancel]; a writer has no such method. *)
Definition future_host_cancel (w : future) : fres future :=
  match freadable w with
  | FAtHost i st =>
      if negb (requireSchedulable (fdrv w i)) then Err NotSchedulable
      else if negb (bool_decide (st = copyCopying)) then Ok w
      else
        let w := fset_holder w sideReadable (FAtHost i copyCancelling) in
        match fpending w with Some _ => future_cancel w | None => Ok w end
  | _ => Err NotHeld
  end.

Definition future_host_op (w : future) (op : futureOp) : fres future :=
  match op with
  | FSet v k => future_start w sideWritable (newHostReadBuffer [v]) k
  | FGet k => future_start w sideReadable (newHostWriteBuffer 1) k
  | FClose sd => future_close w sd
  | FCancel => future_host_cancel w
  end.

Fixpoint future_host_ops (w : future) (ops : list futureOp) : fres future :=
  match ops with [] => Ok w | op :: ops => let* w := future_host_op w op in future_host_ops w ops end.
End shared.

Definition full (w : future) (b : nat) : bool := match fbufs w !! b with Some x => remain x =? 0 | None => false end.

(** [onCopyDone]: of a guest, it arms the event; of a host, the end is done, whatever the
    result, and the host is told and acts. *)
Fixpoint future_onCopyDone (fuel : nat) (w : future) (cb : fcallback) (r : copyResult) : fres future :=
  match fuel with
  | O => NoFuel
  | S fuel =>
      match fc_host cb with
      | None =>
          match fholder_of w (fc_side cb) with
          | FAtGuest e => Ok (fset_holder w (fc_side cb) (FAtGuest (fset_event e (Some (r, fc_buf cb)))))
          | _ => Ok w
          end
      | Some k =>
          let w := match fholder_of w (fc_side cb) with FAtHost i _ => fset_holder w (fc_side cb) (FAtHost i copyDone) | _ => w end in
          future_host_ops (future_onCopyDone fuel) (fnote w (FTold (fc_side cb) r (full w (fc_buf cb)))) k
      end
  end.

(** The callbacks that can still run. *)
Fixpoint fop_size (op : futureOp) : nat :=
  let sizes := fix sizes (ops : list futureOp) : nat := match ops with [] => 0%nat | op :: ops => (fop_size op + sizes ops)%nat end in
  match op with FSet _ k | FGet k => S (sizes k) | _ => 1%nat end.

Definition fcb_size (cb : fcallback) : nat := match fc_host cb with Some k => foldr (λ op n, (fop_size op + n)%nat) 0%nat k | None => 0%nat end.
Definition fuel_of (w : future) : nat := match fpending w with Some p => fcb_size (fp_cb p) | None => 0%nat end.

Definition future_host (w : future) (op : futureOp) : fres future := future_host_op (future_onCopyDone (S (fuel_of w + fop_size op))) w op.

(** * The builtins of a guest *)

(** [getPendingEvent] on a future end, which runs [futureEvent]. *)
Definition future_event (w : future) (sd : endSide) (e : futureEnd) : fres (future * answer) :=
  match fe_event e with
  | None => Panic
  | Some (r, b) =>
      let st := if bool_decide (r = copyDropped) || bool_decide (r = copyCompleted) then copyDone else copyIdle in
      Ok (fnote (fset_holder w sd (FAtGuest (fset_state (fset_event e None) st))) (FTold sd r (full w b)),
          Result (match r with copyCompleted => 0 | copyDropped => 1 | copyCancelled => 2 end))
  end.

Definition future_finish (w : future) (sd : endSide) (async : bool) : fres (future * answer) :=
  match fholder_of w sd with
  | FAtGuest e => match fe_event e with Some _ => future_event w sd e | None => Ok (w, if async then Blocked else MustWait) end
  | _ => Panic
  end.

Definition futureCopy (w : future) (sd : endSide) (async : bool) (ptr : Z) : fres (future * answer) :=
  match fholder_of w sd with
  | FAtGuest e =>
      let* _ := guest_guard (fdrv w (fe_inst e)) async in
      if negb (bool_decide (fe_state e = copyIdle)) then Err (Busy (fe_state e))
      else if fe_inSet e && negb async then Err InWaitableSet
      else match newGuestBuffer (fmem w) (fe_inst e) ptr 1 with
      | None => Err BadBuffer
      | Some b =>
          let buf := length (fbufs w) in
          let w := fnote (fset_holder (fset_bufs w (fbufs w ++ [b])) sd (FAtGuest (fset_state e copyCopying))) (FBegun sd) in
          let* w := future_op (future_onCopyDone (S (fuel_of w))) sd w (Some (fe_inst e)) (mkFCb sd buf None) in
          future_finish w sd async
      end
  | _ => Err NotHeld
  end.

(** [cancelCopyHostFunc] on a future. *)
Definition futureCancel (w : future) (sd : endSide) (async : bool) : fres (future * answer) :=
  match fholder_of w sd with
  | FAtGuest e =>
      let* _ := guest_guard (fdrv w (fe_inst e)) async in
      if negb (bool_decide (fe_state e = copyCopying)) then Err NotCopying
      else if fe_inSet e && negb async then Err InWaitableSet
      else
        let w := fset_holder w sd (FAtGuest (fset_state e copyCancelling)) in
        let* w := match fe_event e with None => future_cancel (future_onCopyDone (S (fuel_of w))) w | Some _ => Ok w end in
        future_finish w sd async
  | _ => Err NotHeld
  end.

Definition futureDrop (w : future) (sd : endSide) : fres future :=
  match fholder_of w sd with
  | FAtGuest e =>
      let* _ := guest_guard (fdrv w (fe_inst e)) true in
      if bool_decide (sd = sideWritable) && negb (bool_decide (fe_state e = copyDone)) then Err BusyDrop
      else if busy (fe_state e) then Err BusyDrop
      else
        let* w := future_drop (future_onCopyDone (S (fuel_of w))) w in
        match fholder_of w sd with
        | FAtGuest e => match fe_event e with Some _ => Panic (* [dropWaitable] *) | None => Ok (fset_holder w sd FGone) end
        | _ => Panic
        end
  | _ => Err NotHeld
  end.

(** [waitable.join], and a wait or a poll that finds the event of an end. *)
Definition future_join (w : future) (sd : endSide) (b : bool) : fres future :=
  match fholder_of w sd with
  | FAtGuest e => Ok (fset_holder w sd (FAtGuest (mkFEnd (fe_inst e) (fe_state e) (fe_event e) b)))
  | _ => Err NotHeld
  end.

Definition future_take_event (w : future) (sd : endSide) : fres (future * answer) :=
  match fholder_of w sd with FAtGuest e => match fe_event e with Some _ => future_event w sd e | None => Err NoEvent end | _ => Err NotHeld end.

(** * Ends as values *)

Definition takeReadableFutureEnd (w : future) : fres future :=
  match freadable w with
  | FAtGuest e =>
      if negb (bool_decide (fe_state e = copyIdle)) then Err (Busy (fe_state e))
      else if fe_inSet e then Err InWaitableSet
      else Ok (fset_holder w sideReadable FInTransit)
  | _ => Err NotHeld
  end.

Definition new_fend (i : nat) : futureEnd := mkFEnd i copyIdle None false.

(** The host gives away a reader it does not use, and forgets it (which the code does not check). *)
Definition future_lower (w : future) (i : nat) : fres future :=
  match freadable w with
  | FInTransit | FAtHost _ copyIdle => Ok (fset_holder w sideReadable (FAtGuest (new_fend i)))
  | _ => Err NotHeld
  end.

Definition future_lift (w : future) (i : nat) : fres future :=
  match freadable w with FInTransit => Ok (fset_holder w sideReadable (FAtHost i copyIdle)) | _ => Err NotHeld end.

(** [future.new] and [NewFuture]. *)
Definition futureNew (m : M) (num : bool) (d : nat → driver) (i : nat) : future :=
  mkFuture m [] num false None (FAtGuest (new_fend i)) (FAtGuest (new_fend i)) d [].

Definition NewFuture (m : M) (num : bool) (d : nat → driver) (i : nat) : future :=
  mkFuture m [] num false None FInTransit (FAtHost i copyIdle) d [].
End future.
