(* ===== verification/CmFutureInv.v ===== *)
(** The invariant of a future: where each operation is, that its one value is passed at most
    once, and that the side which is done is so for good. *)
From Stdlib Require Import ZArith Lia.
From stdpp Require Import base list numbers option tactics relations.
From S2P Require Import Prelude CmStream CmStreamInv CmFuture.
Local Open Scope Z_scope.
Local Open Scope go_scope.

Section inv.
Context {M B V : Type} `{BL : BufferLaws M B V}.

Abbreviation fut := (@future M B V).
Abbreviation fop := (@futureOp V).

(** ** Phases

    An end is at rest; it leaves, in the middle of a drop; its buffer is in flight, in the middle
    of a call ([fin]: the value has been copied); it is parked, for a guest or a host; or
    the event of a guest is armed. *)
Inductive fphase : Type :=
| FRest | FLeaving | FFlying (b : nat) (h : option (list fop)) (fin : bool) | FWaiting (b : nat) | FHosted (b : nat) (k : list fop) | FFinal (b : nat) (r : copyResult).

Definition fparked_at (w : fut) (sd : endSide) : Prop := match fpending w with Some p => fc_side (fp_cb p) = sd | None => False end.

(** A host that acts, when it is told a result, on the end it was told about. *)
Definition on_end (sd : endSide) (op : fop) : bool :=
  match op with FSet _ _ => bool_decide (sd = sideWritable) | FGet _ | FCancel => bool_decide (sd = sideReadable) | FClose s => bool_decide (sd = s) end.

Definition courteous (sd : endSide) (k : list fop) : Prop := forallb (on_end sd) k = true.

(** The buffer has room for the value, or holds it. *)
Definition has_room (w : fut) (b : nat) (n : Z) : Prop := ∃ x, fbufs w !! b = Some x ∧ remain x = n.

Definition in_phase (w : fut) (sd : endSide) (p : fphase) : Prop :=
  match p with
  | FRest | FLeaving => ¬ fparked_at w sd ∧
      match fholder_of w sd with FAtGuest e => busy (fe_state e) = false ∧ fe_event e = None | FAtHost _ st => busy st = false | _ => True end
  | FFlying b h fin => ¬ fparked_at w sd ∧ has_room w b (if fin then 0 else 1) ∧
      match fholder_of w sd with
      | FAtGuest e => h = None ∧ busy (fe_state e) = true ∧ fe_event e = None
      | FAtHost _ st => busy st = true ∧ ∃ k, h = Some k ∧ courteous sd k
      | _ => False
      end
  | FWaiting b => has_room w b 1 ∧ ∃ e, fholder_of w sd = FAtGuest e ∧ busy (fe_state e) = true ∧ fe_event e = None ∧
      fpending w = Some (mkFParked (Some (fe_inst e)) (mkFCb sd b None))
  | FHosted b k => has_room w b 1 ∧ courteous sd k ∧ ∃ i st, fholder_of w sd = FAtHost i st ∧ busy st = true ∧ fpending w = Some (mkFParked None (mkFCb sd b (Some k)))
  | FFinal b r => ¬ fparked_at w sd ∧ has_room w b (if decide (r = copyCompleted) then 0 else 1) ∧ (r = copyDropped → sd = sideWritable ∧ fdropped w = true) ∧
      ∃ e, fholder_of w sd = FAtGuest e ∧ busy (fe_state e) = true ∧ fe_event e = Some (r, b)
  end.

Definition fbuf_of (p : fphase) : option nat :=
  match p with FRest | FLeaving => None | FFlying b _ _ | FWaiting b | FHosted b _ | FFinal b _ => Some b end.

Definition fsettled (p : fphase) : Prop := match p with FFlying _ _ _ | FLeaving => False | _ => True end.

(** An end is finished if it has passed the value, or can never start an operation again. *)
Definition finished (w : fut) (sd : endSide) (p : fphase) : Prop :=
  match p with
  | FLeaving => True
  | FFlying _ _ fin => fin = true
  | FFinal _ r => r = copyCompleted
  | FRest => match fholder_of w sd with FAtGuest e => fe_state e = copyDone | FAtHost _ st => st = copyDone | FInTransit => False | FGone => True end
  | _ => False
  end.

(** ** Accounts *)

Definition fsum (f : fentry → Z) (l : list fentry) : Z := foldr (λ x n, f x + n) 0 l.
Definition fbegun (sd : endSide) (x : fentry) : Z := match x with FBegun s => if decide (s = sd) then 1 else 0 | _ => 0 end.
Definition fended (sd : endSide) (x : fentry) : Z := match x with FTold s _ _ => if decide (s = sd) then 1 else 0 | _ => 0 end.
Definition fpassed (sd : endSide) (x : fentry) : Z := match x with FTold s copyCompleted _ => if decide (s = sd) then 1 else 0 | _ => 0 end.

Lemma fsum_snoc f l x : fsum f (l ++ [x]) = fsum f l + f x.
Proof. unfold fsum. induction l as [|y l IH]; cbn in *; lia. Qed.

(** The completions of an end, with the one that it has not been told of. *)
Definition passing (p : fphase) : Z :=
  match p with FFlying _ _ true => 1 | FFinal _ r => if decide (r = copyCompleted) then 1 else 0 | _ => 0 end.
Definition passed (w : fut) (sd : endSide) (p : fphase) : Z := fsum (fpassed sd) (flog w) + passing p.

Definition told_ok (w : fut) (x : fentry) : Prop :=
  match x with FTold s r f => (f = true ↔ r = copyCompleted) ∧ (r = copyDropped → s = sideWritable ∧ fdropped w = true) | _ => True end.

Record finv (w : fut) (ph : endSide → fphase) : Prop := {
  fi_phase : ∀ sd, in_phase w sd (ph sd);
  fi_bufs : ∀ sd b, fbuf_of (ph sd) = Some b → ∃ x, fbufs w !! b = Some x ∧ bufok x ∧ len x = 1;
  fi_apart : ∀ b, fbuf_of (ph sideReadable) = Some b → fbuf_of (ph sideWritable) = Some b → False;
  fi_dropped : fdropped w = true → fpending w = None;
  fi_reader : fdropped w = true ∨ finished w sideWritable (ph sideWritable) → finished w sideReadable (ph sideReadable);
  fi_same : passed w sideReadable (ph sideReadable) = passed w sideWritable (ph sideWritable);
  fi_once : ∀ sd, passed w sd (ph sd) = 0 ∨ passed w sd (ph sd) = 1 ∧ finished w sd (ph sd);
  fi_begun : ∀ sd, fsum (fbegun sd) (flog w) = fsum (fended sd) (flog w) + (match fbuf_of (ph sd) with Some _ => 1 | None => 0 end);
  fi_told : ∀ x, x ∈ flog w → told_ok w x
}.

Definition fupd (ph : endSide → fphase) (sd : endSide) (p : fphase) : endSide → fphase := λ s, if decide (s = sd) then p else ph s.

Lemma fupd_same ph sd p : fupd ph sd p sd = p.
Proof. unfold fupd. by rewrite decide_True. Qed.

Lemma fupd_other ph sd p : fupd ph sd p (other_side sd) = ph (other_side sd).
Proof. unfold fupd. by destruct sd. Qed.

Lemma finv_ext w ph ph' : (∀ s, ph s = ph' s) → finv w ph → finv w ph'.
Proof.
  intros E [A1 A2 A3 A4 A5 A6 A7 A8 A9]. pose proof (E sideReadable) as ER. pose proof (E sideWritable) as EW.
  split; rewrite <- ?ER, <- ?EW; try done; intros s; rewrite <- (E s); first [apply A1|apply A2|apply A7|apply A8].
Qed.

(** ** Frames *)

Lemma in_phase_frame (w w' : fut) sd p : in_phase w sd p → fholder_of w' sd = fholder_of w sd →
  (fpending w' = fpending w ∨ ¬ fparked_at w sd ∧ ¬ fparked_at w' sd) → (∀ b, fbuf_of p = Some b → fbufs w' !! b = fbufs w !! b) →
  (fdropped w = true → fdropped w' = true) → in_phase w' sd p.
Proof.
  intros Hp Hh Hpd Hb Hd.
  assert (¬ fparked_at w sd → ¬ fparked_at w' sd) as Hn by (unfold fparked_at; intros H1; destruct Hpd as [->|[_ ?]]; done).
  assert (∀ b n, fbuf_of p = Some b → has_room w b n → has_room w' b n) as Hr by (intros b n E (x & Hx & ?); exists x; by rewrite (Hb b E)).
  assert (∀ q, fpending w = Some q → fc_side (fp_cb q) = sd → fpending w' = fpending w) as Hq.
  { intros q E Es. destruct Hpd as [?|[Hc _]]; [done|]. unfold fparked_at in Hc. by rewrite E in Hc. }
  destruct p as [| |b h fin|b|b k|b r]; cbn [in_phase fbuf_of] in *; rewrite Hh.
  1,2: destruct Hp; split; [by apply Hn|done].
  - destruct Hp as (H1 & H2 & H3). split_and!; [by apply Hn|by apply Hr|done].
  - destruct Hp as (H1 & e & ? & ? & ? & E). split; [by apply Hr|]. exists e. split_and!; try done. by rewrite (Hq _ E eq_refl).
  - destruct Hp as (H1 & ? & i & st & ? & ? & E). split; [by apply Hr|]. split; [done|]. exists i, st. split_and!; try done. by rewrite (Hq _ E eq_refl).
  - destruct Hp as (H1 & H2 & H3 & H4). split_and!; [by apply Hn|by apply Hr| |done]. intros Er. destruct (H3 Er). auto.
Qed.

Lemma finished_frame (w w' : fut) sd p : fholder_of w' sd = fholder_of w sd → finished w' sd p ↔ finished w sd p.
Proof. intros Hh. destruct p; cbn; try done. by rewrite Hh. Qed.

Definition about (sd : endSide) (x : fentry) : Prop := match x with FBegun s | FTold s _ _ => s = sd end.

Lemma fsum_app f l l' : fsum f (l ++ l') = fsum f l + fsum f l'.
Proof. unfold fsum. induction l as [|y l IH]; cbn in *; lia. Qed.

Lemma about_zero sd s l : Forall (about sd) l → s ≠ sd → fsum (fbegun s) l = 0 ∧ fsum (fended s) l = 0 ∧ fsum (fpassed s) l = 0.
Proof.
  intros Hl Hs. induction Hl as [|x l Hx _ IH]; [done|]. destruct IH as (E1 & E2 & E3). unfold fsum in *. cbn [foldr]. rewrite E1, E2, E3.
  destruct x as [q|q r f]; cbn in *; subst q; [|destruct r]; cbn; rewrite ?decide_False by done; done.
Qed.

Definition busyZ (p : fphase) : Z := match fbuf_of p with Some _ => 1 | None => 0 end.

(** A step of one side. *)
Lemma finv_step (w w' : fut) ph sd p l : finv w ph → fholder_of w' (other_side sd) = fholder_of w (other_side sd) →
  (fpending w' = fpending w ∨ ¬ fparked_at w (other_side sd) ∧ ¬ fparked_at w' (other_side sd)) →
  (∀ b x, fbufs w !! b = Some x → fbufs w' !! b = Some x) →
  (fdropped w = true → fdropped w' = true) → (fdropped w' = true → fpending w' = None) → in_phase w' sd p →
  (∀ b, fbuf_of p = Some b → (∃ x, fbufs w' !! b = Some x ∧ bufok x ∧ len x = 1) ∧ fbuf_of (ph (other_side sd)) ≠ Some b) →
  flog w' = (flog w ++ l)%list → Forall (about sd) l → Forall (told_ok w') l →
  fsum (fbegun sd) l + busyZ (ph sd) = fsum (fended sd) l + busyZ p → fsum (fpassed sd) l + passing p = passing (ph sd) →
  (finished w sd (ph sd) → finished w' sd p) →
  (fdropped w' = true ∨ sd = sideWritable ∧ finished w' sd p → finished w sideReadable (ph sideReadable) ∨ sd = sideReadable ∧ finished w' sd p) →
  finv w' (fupd ph sd p).
Proof.
  intros Hi Hh Hpd Hb Hd Hdp Hp Hout Hl Hab Htold Hbusy Hpass Hmono Hnew.
  assert (∀ s b, fbuf_of (ph s) = Some b → fbufs w' !! b = fbufs w !! b) as Hsame.
  { intros s b E. destruct (fi_bufs _ _ Hi s b E) as (x & Hx & _). rewrite Hx. by apply Hb. }
  assert (∀ s, passed w' s (fupd ph sd p s) = passed w s (ph s)) as Hps.
  { refine (side_cases _ sd _ _); unfold passed; rewrite Hl, fsum_app; [rewrite fupd_same; lia|rewrite fupd_other].
    destruct (about_zero sd (other_side sd) l Hab) as (_ & _ & ->); [by destruct sd|lia]. }
  assert (∀ s, finished w s (ph s) → finished w' s (fupd ph sd p s)) as Hm.
  { refine (side_cases _ sd _ _); [by rewrite fupd_same|rewrite fupd_other]. by apply finished_frame. }
  assert (finished w' sideWritable (fupd ph sd p sideWritable) → finished w sideWritable (ph sideWritable) ∨ sd = sideWritable ∧ finished w' sd p) as Hw.
  { destruct sd; [|by right]. intros Hf. left. by apply (finished_frame w w' sideWritable (ph sideWritable) Hh). }
  split.
  - refine (side_cases _ sd _ _); [by rewrite fupd_same|rewrite fupd_other]. apply (in_phase_frame w); [apply Hi|done|done|by apply Hsame|done].
  - refine (side_cases _ sd _ _); [rewrite fupd_same; intros b Eb; apply (Hout b Eb)|rewrite fupd_other]. intros b E. rewrite (Hsame _ _ E). by apply (fi_bufs _ _ Hi (other_side sd)).
  - intros b E1 E2. destruct sd; cbn in *; [apply (Hout b E1); done|apply (Hout b E2); done].
  - done.
  - intros Hc. assert (finished w sideReadable (ph sideReadable) ∨ sd = sideReadable ∧ finished w' sd p) as [Hf|[-> Hf]]; [|by apply Hm|done].
    destruct Hc as [Hc|Hc]; [by apply Hnew; left|]. apply Hw in Hc as [Hc|Hc]; [left; apply (fi_reader _ _ Hi); by right|by apply Hnew; right].
  - rewrite !Hps. apply Hi.
  - intros s. rewrite Hps. destruct (fi_once _ _ Hi s) as [?|[? ?]]; [by left|right; auto].
  - intros s. rewrite Hl, !fsum_app. pose proof (fi_begun _ _ Hi s) as Hbg. fold (busyZ (ph s)) in Hbg. fold (busyZ (fupd ph sd p s)).
    unfold fupd. destruct (decide (s = sd)) as [->|Hne]; [lia|]. destruct (about_zero sd s l Hab Hne) as (-> & -> & _). lia.
  - intros x. rewrite Hl, elem_of_app. intros [Hx|Hx]; [|by eapply list.Forall_forall in Htold].
    apply (fi_told _ _ Hi) in Hx. destruct x as [|s r f]; [done|]. destruct Hx as [? Hx]. split; [done|]. intros E. destruct (Hx E). auto.
Qed.

(** ** Moves *)

Lemma ready_len (x : B) : bufok x → len x = 1 → progressed x = 0 → remain x = 1.
Proof. intros Ox Lx Px. destruct (remain_len x Ox). lia. Qed.

(** A new operation. *)
Lemma fstart (w : fut) ph sd x hd h : finv w ph → ph sd = FRest → ¬ finished w sd FRest → bufok x → len x = 1 → progressed x = 0 →
  match hd with
  | FAtGuest e => h = None ∧ busy (fe_state e) = true ∧ fe_event e = None
  | FAtHost _ st => busy st = true ∧ ∃ k, h = Some k ∧ courteous sd k
  | _ => False
  end →
  finv (fnote (fset_holder (fset_bufs w (fbufs w ++ [x])) sd hd) (FBegun sd)) (fupd ph sd (FFlying (length (fbufs w)) h false)).
Proof.
  intros Hi Hr Hnf Ox Lx Px Hhd. set (w' := fnote _ _).
  assert (fbufs w' !! length (fbufs w) = Some x) as Hnew by (cbn; by apply list_lookup_middle).
  pose proof (fi_phase _ _ Hi sd) as Hph. rewrite Hr in Hph. destruct Hph as [Hpk _].
  eapply (finv_step w w' ph sd _ [FBegun sd] Hi); try done.
  - by destruct sd.
  - by left.
  - intros b y Hb. cbn. rewrite lookup_app_l; [done|by eapply lookup_lt_Some].
  - apply Hi.
  - cbn [in_phase]. split; [done|]. split; [exists x; split; [done|by apply ready_len]|]. replace (fholder_of w' sd) with hd by by destruct sd. destruct hd; done.
  - intros b [= <-]. split; [by exists x|]. intros Hb. destruct (fi_bufs _ _ Hi _ _ Hb) as (y & Hy & _). apply lookup_lt_Some in Hy. lia.
  - by constructor.
  - by constructor.
  - rewrite Hr. cbn. by rewrite decide_True.
  - by rewrite Hr.
  - by rewrite Hr.
  - intros [Hd|[-> Hf]]; [|done]. left. apply (fi_reader _ _ Hi). by left.
Qed.

Lemma fpark (w : fut) ph sd b h i : finv w ph → ph sd = FFlying b h false → fpending w = None → fdropped w = false →
  i = match fholder_of w sd with FAtGuest e => Some (fe_inst e) | _ => None end →
  finv (fsetPending w (Some (mkFParked i (mkFCb sd b h)))) (fupd ph sd (match h with None => FWaiting b | Some k => FHosted b k end)).
Proof.
  intros Hi Hf Hp Hd ->. set (w' := fsetPending _ _). assert (∀ s, fholder_of w' s = fholder_of w s) as Hh by by intros [].
  pose proof (fi_phase _ _ Hi sd) as Hph. rewrite Hf in Hph. destruct Hph as (_ & Hroom & Hho).
  eapply (finv_step w w' ph sd _ [] Hi); try done.
  - right. unfold fparked_at. rewrite Hp. split; [by intros []|]. cbn. by destruct sd.
  - cbn. by rewrite Hd.
  - destruct (fholder_of w sd) as [e|j st| |] eqn:Eh; [destruct Hho as (-> & ? & ?)|destruct Hho as (? & k & -> & ?)|done..]; cbn [in_phase]; rewrite Hh, Eh.
    + split; [done|]. by exists e.
    + split; [done|]. split; [done|]. by exists j, st.
  - intros b' Eb. assert (fbuf_of (ph sd) = Some b') as Eb' by (rewrite Hf; destruct h; done). destruct (fi_bufs _ _ Hi sd b' Eb') as (x & ? & ? & ?). split; [by exists x|].
    intros Eo. apply (fi_apart _ _ Hi b'); destruct sd; done.
  - cbn. by rewrite app_nil_r.
  - rewrite Hf. by destruct h.
  - rewrite Hf. by destruct h.
  - rewrite Hf. done.
  - cbn. rewrite Hd. intros [?|[_ Hc]]; [done|]. by destruct h.
Qed.

(** Who is parked, is so in its phase. *)
Lemma fparked_phase (w : fut) ph p : finv w ph → fpending w = Some p → let sd := fc_side (fp_cb p) in let b := fc_buf (fp_cb p) in
  ¬ fparked_at w (other_side sd) ∧ fbuf_of (ph sd) = Some b ∧ passing (ph sd) = 0 ∧ ¬ finished w sd (ph sd) ∧ has_room w b 1 ∧ fsettled (ph sd) ∧
  match fholder_of w sd with
  | FAtGuest e => fc_host (fp_cb p) = None ∧ busy (fe_state e) = true ∧ fe_event e = None
  | FAtHost _ st => busy st = true ∧ ∃ k, fc_host (fp_cb p) = Some k ∧ courteous sd k
  | _ => False
  end.
Proof.
  intros Hi Hp. cbn. assert (¬ fparked_at w (other_side (fc_side (fp_cb p)))) as Hn by (unfold fparked_at; rewrite Hp; by destruct (fc_side _)).
  pose proof (fi_phase _ _ Hi (fc_side (fp_cb p))) as Hph.
  assert (fparked_at w (fc_side (fp_cb p))) as Hpk by (unfold fparked_at; by rewrite Hp).
  split; [done|]. destruct (ph _) as [| |b h fin|b|b k|b r]; cbn in Hph; [tauto..| | |tauto].
  - destruct Hph as (Hr & e & -> & ? & ? & E). rewrite Hp in E. injection E as ->. cbn in *. split_and!; try done. by intros [].
  - destruct Hph as (Hr & Hk & i & st & -> & ? & E). rewrite Hp in E. injection E as ->. cbn in *. cbn. split_and!; try done; [by intros []|by exists k].
Qed.

(** The parked side leaves its place; at the same time the other side may leave the future. *)
Lemma funpark (w w' : fut) ph p : finv w ph → fpending w = Some p →
  w' = fresetPending w ∨ w' = fresetPending (fset_dropped w) ∧ finished w sideReadable (ph sideReadable) →
  finv w' (fupd ph (fc_side (fp_cb p)) (FFlying (fc_buf (fp_cb p)) (fc_host (fp_cb p)) false)).
Proof.
  intros Hi Hp Hw. destruct (fparked_phase w ph p Hi Hp) as (Hn & Hb & Hpass & Hnf & Hroom & _ & Hho). set (sd := fc_side (fp_cb p)) in *.
  assert (fbufs w' = fbufs w ∧ flog w' = flog w ∧ fpending w' = None ∧ (∀ s, fholder_of w' s = fholder_of w s)) as (Eb & El & Ep & Eh) by (destruct Hw as [->|[-> _]]; split_and!; try done; by intros []).
  eapply (finv_step w w' ph sd _ [] Hi); try done.
  - right. split; [done|]. unfold fparked_at. rewrite Ep. by intros [].
  - by rewrite Eb.
  - by destruct Hw as [->|[-> _]].
  - cbn [in_phase]. rewrite Eh. unfold fparked_at, has_room. rewrite Ep, Eb. split; [by intros []|]. split; [exact Hroom|]. by destruct (fholder_of w sd).
  - intros b [= <-]. rewrite Eb. split; [by apply (fi_bufs _ _ Hi sd)|]. intros Eo. apply (fi_apart _ _ Hi (fc_buf (fp_cb p))); destruct sd; done.
  - by rewrite El, app_nil_r.
  - cbn. unfold busyZ. by rewrite Hb.
  - intros [Hd|[_ Hc]]; [|done]. left. destruct Hw as [->|[-> Hf]]; [|done]. apply (fi_reader _ _ Hi). by left.
Qed.

(** ** The callbacks *)

Lemma fset_holder_same (w : fut) sd h : fholder_of w sd = h → fset_holder w sd h = w.
Proof. intros <-. by destruct w, sd. Qed.

(** A host that was told has nothing left to do with its end but close it. *)
Lemma hosts_told done sd i k : ∀ w : fut, courteous sd k → fholder_of w sd = FAtHost i copyDone → fpending w = None →
  match future_host_ops done w k with Ok w' => w' = w ∨ w' = fset_dropped w | Err _ => True | _ => False end.
Proof.
  induction k as [|op k IH]; intros w Hk Hh Hp; [by left|]. apply andb_true_iff in Hk as [Hop Hk]. cbn [future_host_ops].
  assert (match future_host_op done w op with Ok w' => w' = w ∨ w' = fset_dropped w | Err _ => True | _ => False end) as H1.
  { assert (∀ w' : fut, w' = w ∨ w' = fset_dropped w → fset_holder w' sd (FAtHost i copyDone) = w') as Hsame.
    { intros w' Hw. apply fset_holder_same. destruct Hw as [->| ->]; [done|by destruct sd]. }
    destruct op as [v q|q|s|]; cbn [on_end] in Hop; apply bool_decide_eq_true in Hop; subst; cbn [future_host_op].
    - unfold future_start. rewrite Hh. by destruct (negb _).
    - unfold future_start. rewrite Hh. by destruct (negb _).
    - unfold future_close, future_drop. rewrite Hh. destruct (negb _); [done|]. cbn [fpending fset_dropped]. rewrite Hp.
      destruct s; [cbn [busy]|rewrite bool_decide_true by done; cbn [negb]]; destruct (fdropped w); cbn [obind]; rewrite ?Hsame; auto.
    - unfold future_host_cancel. cbn in Hh. rewrite Hh. destruct (negb _); [done|]. cbn. by left. }
  destruct (future_host_op done w op) as [w'| | |]; try done. cbn [obind].
  assert (fholder_of w' sd = FAtHost i copyDone ∧ fpending w' = None) as [Hh' Hp'] by (destruct H1 as [->| ->]; [done|by destruct sd]).
  specialize (IH w' Hk Hh' Hp'). destruct (future_host_ops done w' k) as [w2| | |]; try done.
  destruct H1 as [->| ->]; destruct IH as [->| ->]; auto.
Qed.

Lemma full_room (w : fut) b n : has_room w b n → full w b = (n =? 0).
Proof. intros (x & Hx & <-). unfold full. by rewrite Hx. Qed.

(** A host is told. *)
Lemma ftell (w : fut) ph sd b k fin r i st : finv w ph → ph sd = FFlying b (Some k) fin → fholder_of w sd = FAtHost i st → fpending w = None →
  (r = copyCompleted ↔ fin = true) → (r = copyDropped → sd = sideWritable ∧ fdropped w = true) → (r = copyCancelled → sd = sideReadable) →
  finv (fnote (fset_holder w sd (FAtHost i copyDone)) (FTold sd r (full w b))) (fupd ph sd FRest) ∧ finished w sideReadable (fupd ph sd FLeaving sideReadable).
Proof.
  intros Hi Hf Hh Hp Hr Hdr Hca. set (w' := fnote _ _). pose proof (fi_phase _ _ Hi sd) as Hph. rewrite Hf in Hph. destruct Hph as (Hnp & Hroom & _).
  assert (fholder_of w' sd = FAtHost i copyDone) as Hh' by by destruct sd.
  assert (sd = sideWritable → finished w sideReadable (ph sideReadable)) as Hfin.
  { intros ->. apply (fi_reader _ _ Hi). destruct r; [right; rewrite Hf; by apply Hr|left; by apply Hdr|by specialize (Hca eq_refl)]. }
  assert (full w b = fin) as Hfull by (rewrite (full_room _ _ _ Hroom); by destruct fin).
  split.
  - eapply (finv_step w w' ph sd FRest [_] Hi); try done.
    + by destruct sd.
    + by left.
    + split; [done|]. by rewrite Hh'.
    + by repeat constructor.
    + constructor; [|constructor]. cbn. rewrite Hfull. split; [by rewrite Hr|done].
    + rewrite Hf. cbn. by rewrite decide_True.
    + rewrite Hf. destruct fin; cbn; destruct r; rewrite ?decide_True by done; destruct Hr as [Hr1 Hr2]; try done; [by specialize (Hr2 eq_refl)|by specialize (Hr2 eq_refl)|by specialize (Hr1 eq_refl)].
    + intros _. cbn. by rewrite Hh'.
    + intros _. destruct sd; [right; split; [done|]; cbn; done|left; by apply Hfin].
  - unfold fupd. destruct sd; cbn; [done|by apply Hfin].
Qed.

Lemma fdrop_flag (w : fut) ph : finv w ph → fpending w = None → finished w sideReadable (ph sideReadable) → finv (fset_dropped w) ph.
Proof.
  intros Hi Hp Hf. apply (finv_ext _ (fupd ph sideReadable (ph sideReadable))); [intros s; unfold fupd; by case_decide; subst|].
  eapply (finv_step w _ ph sideReadable _ [] Hi); try done.
  - by left.
  - apply (in_phase_frame w); [apply Hi|done|by left|done|done].
  - intros b Eb. split; [by apply (fi_bufs _ _ Hi sideReadable)|]. intros Eo. by apply (fi_apart _ _ Hi b).
  - cbn. by rewrite app_nil_r.
  - intros _. by left.
Qed.

(** Who has an end does not change while operations run. *)
Definition fwho (h : fholder) : option bool := match h with FAtGuest _ => Some true | FAtHost _ _ => Some false | _ => None end.
Definition fsame_holders (w w' : fut) : Prop := ∀ s, fwho (fholder_of w' s) = fwho (fholder_of w s).

Lemma fsame_holders_set (w : fut) sd h : fwho h = fwho (fholder_of w sd) → fsame_holders w (fset_holder w sd h).
Proof. intros E s. by destruct sd, s. Qed.

Lemma fsame_holders_trans (w1 w2 w3 : fut) : fsame_holders w1 w2 → fsame_holders w2 w3 → fsame_holders w1 w3.
Proof. intros H1 H2 s. by rewrite H2. Qed.

Definition fdone_post (w : fut) ph sd (r : outcome stream_error fut) : Prop :=
  match r with
  | Ok w' => ∃ p, finv w' (fupd ph sd p) ∧ fsettled p ∧ fpending w' = None ∧ fholder_of w' (other_side sd) = fholder_of w (other_side sd) ∧ fsame_holders w w'
  | Err _ => True
  | _ => False
  end.

(** The event of a guest is armed. *)
Lemma farm (w : fut) ph sd b fin r e : finv w ph → ph sd = FFlying b None fin → fholder_of w sd = FAtGuest e →
  (r = copyCompleted ↔ fin = true) → (r = copyDropped → sd = sideWritable ∧ fdropped w = true) →
  finv (fset_holder w sd (FAtGuest (fset_event e (Some (r, b))))) (fupd ph sd (FFinal b r)).
Proof.
  intros Hi Hf Hh Hr Hdr. set (w' := fset_holder _ _ _). pose proof (fi_phase _ _ Hi sd) as Hph. rewrite Hf in Hph. destruct Hph as (Hnp & Hroom & Hho).
  rewrite Hh in Hho. destruct Hho as (_ & Hb & _). assert (Hrf : (if decide (r = copyCompleted) then 0 else 1) = (if fin then 0 else 1)).
  { destruct (decide (r = copyCompleted)) as [Hc|Hc]; [by rewrite (proj1 Hr Hc)|]. destruct fin; [by rewrite Hr in Hc|done]. }
  eapply (finv_step w w' ph sd _ [] Hi); try done.
  - by destruct sd.
  - by left.
  - apply Hi.
  - cbn [in_phase]. rewrite Hrf. split_and!; [done|done|done|]. eexists. split; [by destruct sd|done].
  - intros b' [= <-]. split; [apply (fi_bufs _ _ Hi sd); by rewrite Hf|]. intros Eo. apply (fi_apart _ _ Hi b); destruct sd; cbn in Eo; rewrite ?Hf; done.
  - cbn. by rewrite app_nil_r.
  - by rewrite Hf.
  - rewrite Hf. cbn. destruct fin; case_decide; done.
  - rewrite Hf. cbn. by rewrite Hr.
  - intros [Hd|[-> Hc]]; [left; apply (fi_reader _ _ Hi); by left|]. cbn in Hc. left. apply (fi_reader _ _ Hi). right. rewrite Hf. by apply Hr.
Qed.

Lemma fdone_ok n (w : fut) ph sd b h fin r : finv w ph → ph sd = FFlying b h fin → fpending w = None →
  (r = copyCompleted ↔ fin = true) → (r = copyDropped → sd = sideWritable ∧ fdropped w = true) → (r = copyCancelled → sd = sideReadable ∨ h = None) →
  fdone_post w ph sd (future_onCopyDone (S n) w (mkFCb sd b h) r).
Proof.
  intros Hi Hf Hp Hr Hdr Hca. pose proof (fi_phase _ _ Hi sd) as Hph. rewrite Hf in Hph. destruct Hph as (_ & _ & Hho).
  cbn [future_onCopyDone fc_host fc_side fc_buf]. destruct (fholder_of w sd) as [e|i st| |] eqn:Eh; try done.
  - destruct Hho as (-> & _). exists (FFinal b r). split_and!; [by eapply farm|done|done|by destruct sd|apply fsame_holders_set; by rewrite Eh].
  - destruct Hho as (Hb & k & -> & Hk). destruct (ftell w ph sd b k fin r i st Hi Hf Eh Hp Hr Hdr) as [Hi' Hfin]; [by intros Ec; destruct (Hca Ec)|].
    set (w1 := fnote _ _) in *. replace (fnote (fset_holder w sd (FAtHost i copyDone)) (FTold sd r (full (fset_holder w sd (FAtHost i copyDone)) b))) with w1 by done.
    assert (fholder_of w1 sd = FAtHost i copyDone ∧ fholder_of w1 (other_side sd) = fholder_of w (other_side sd)) as [Eh1 Eo1] by (by destruct sd).
    pose proof (hosts_told (future_onCopyDone n) sd i k w1 Hk Eh1 Hp) as Ht. destruct (future_host_ops _ w1 k) as [w2| | |]; try done.
    assert (fsame_holders w w1) as Hs by (apply (fsame_holders_set w sd (FAtHost i copyDone)); by rewrite Eh).
    exists FRest. destruct Ht as [->| ->]; [done|]. split_and!; [|done|done|by destruct sd|intros s; rewrite <- (Hs s); by destruct s].
    apply fdrop_flag; [done|done|]. unfold fupd in *. destruct sd; cbn in *; [done|by rewrite <- Eo1 in Hfin || done].
Qed.

(** ** The shared object *)

(** The parked side is told; [w'] is the future when it is. *)
Lemma fnotify_ok n (w w' : fut) ph p r : finv w ph → fpending w = Some p →
  w' = fresetPending w ∨ w' = fresetPending (fset_dropped w) ∧ finished w sideReadable (ph sideReadable) →
  r ≠ copyCompleted → (r = copyDropped → fc_side (fp_cb p) = sideWritable ∧ fdropped w' = true) → (r = copyCancelled → fc_side (fp_cb p) = sideReadable ∨ fc_host (fp_cb p) = None) →
  fdone_post w' ph (fc_side (fp_cb p)) (future_onCopyDone (S n) w' (fp_cb p) r).
Proof.
  intros Hi Hp Hw Hc Hd Hca. pose proof (funpark w w' ph p Hi Hp Hw) as Hi'.
  pose proof (fdone_ok n w' _ (fc_side (fp_cb p)) (fc_buf (fp_cb p)) (fc_host (fp_cb p)) false r Hi' (fupd_same _ _ _)) as Hok.
  specialize (Hok ltac:(by destruct Hw as [->|[-> _]]) ltac:(by split) Hd Hca).
  replace (mkFCb _ _ _) with (fp_cb p) in Hok by by destruct (fp_cb p).
  unfold fdone_post in *. destruct (future_onCopyDone _ _ _ _) as [w2| | |]; try done. destruct Hok as (q & Hq & ?). exists q. split; [|done].
  eapply finv_ext; [|exact Hq]. intros s. unfold fupd. by case_decide.
Qed.

(** The value is passed: both sides are in flight, with it copied. *)
Lemma fmet (w w1 : fut) ph sd b h p dst src : finv w ph → ph sd = FFlying b h false → fpending w = Some p → fc_side (fp_cb p) = other_side sd →
  fdropped w = false → dst ≠ src → (dst = b ∧ src = fc_buf (fp_cb p) ∨ src = b ∧ dst = fc_buf (fp_cb p)) → fcopy w dst src = Ok w1 →
  finv (fresetPending w1) (fupd (fupd ph sd (FFlying b h true)) (other_side sd) (FFlying (fc_buf (fp_cb p)) (fc_host (fp_cb p)) true)) ∧ fsame_holders w w1 ∧ fpending w1 = Some p.
Proof.
  intros Hi Hf Hp Hsd Hd Hne Hbb Hcp. destruct (fparked_phase w ph p Hi Hp) as (_ & Hb & Hpass & Hnf & Hroom & _ & Hho). rewrite Hsd in *.
  pose proof (fi_phase _ _ Hi sd) as Hph. rewrite Hf in Hph. destruct Hph as (_ & Hrb & Hhb). cbn in Hrb.
  destruct (fi_bufs _ _ Hi sd b ltac:(by rewrite Hf)) as (x & Hx & Ox & Lx). destruct (fi_bufs _ _ Hi _ _ Hb) as (y & Hy & Oy & Ly).
  assert (∃ d q, fbufs w !! dst = Some d ∧ fbufs w !! src = Some q ∧ bufok d ∧ bufok q ∧ len d = 1 ∧ len q = 1 ∧ remain d = 1 ∧ remain q = 1) as (d & q & Hdst & Hsrc & Od & Oq & Ld & Lq & Rd & Rq).
  { destruct Hrb as (x' & Hx' & Rx), Hroom as (y' & Hy' & Ry). rewrite Hx in Hx'. rewrite Hy in Hy'. injection Hx' as <-. injection Hy' as <-.
    destruct Hbb as [[-> ->]|[-> ->]]; [exists x, y|exists y, x]; done. }
  unfold fcopy in Hcp. rewrite Hdst, Hsrc in Hcp. destruct (copyElements _ _ d q 1) as [[[m d'] q']|] eqn:Ec; [|done]. injection Hcp as <-.
  apply copy_ok in Ec as (Od' & Oq' & Ld' & Lq' & Pd' & Pq'); [|done|done|lia|lia].
  destruct (remain_len d Od) as [Ed _], (remain_len q Oq) as [Eq _], (remain_len d' Od') as [Ed' _], (remain_len q' Oq') as [Eq' _].
  split; [|split; [by intros []|done]]. set (w2 := fresetPending _). set (ph2 := fupd _ _ _).
  assert (fbufs w2 !! dst = Some d' ∧ fbufs w2 !! src = Some q') as [Hd2 Hq2].
  { cbn. apply lookup_lt_Some in Hdst, Hsrc. rewrite list_lookup_insert_ne by done. rewrite !list_lookup_insert_eq by (rewrite ?length_insert; done). done. }
  assert (ph2 sd = FFlying b h true) as E1 by (unfold ph2, fupd; destruct sd; cbn; by repeat case_decide).
  assert (ph2 (other_side sd) = FFlying (fc_buf (fp_cb p)) (fc_host (fp_cb p)) true) as E2 by apply fupd_same.
  assert (∀ c, c = dst ∨ c = src → ∃ z, fbufs w2 !! c = Some z ∧ bufok z ∧ len z = 1 ∧ remain z = 0) as Hz.
  { intros c [->| ->]; [exists d'|exists q']; split_and!; try done; lia. }
  assert (∀ s, ∃ c ch, ph2 s = FFlying c ch true ∧ (c = dst ∨ c = src)) as Hall.
  { refine (side_cases _ sd _ _); [exists b, h|eexists _, _]; (split; [done|]); destruct Hbb as [[-> ->]|[-> ->]]; auto. }
  assert (∀ s, passed w s (ph s) = 0 ∧ passed w2 s (ph2 s) = 1) as Hpassed.
  { assert (∀ s, passing (ph s) = 0 ∧ ¬ finished w s (ph s)) as Hpz by (refine (side_cases _ sd _ _); [by rewrite Hf|done]).
    intros s. destruct (Hpz s) as [Hz0 Hnfs]. destruct (fi_once _ _ Hi s) as [H0|[_ ?]]; [|done]. split; [done|].
    destruct (Hall s) as (c & ch & -> & _). unfold passed in *. change (flog w2) with (flog w). cbn [passing]. lia. }
  assert (∀ s, finished w2 s (ph2 s)) as Hfin by (intros s; destruct (Hall s) as (c & ch & -> & _); done).
  split.
  - refine (side_cases _ sd _ _); [rewrite E1|rewrite E2]; cbn [in_phase]; (split; [by intros []|]).
    + split; [destruct (Hz b) as (z & ? & _ & _ & ?); [destruct Hbb as [[-> ->]|[-> ->]]; auto|by exists z]|]. by destruct sd.
    + split; [destruct (Hz (fc_buf (fp_cb p))) as (z & ? & _ & _ & ?); [destruct Hbb as [[-> ->]|[-> ->]]; auto|by exists z]|]. by destruct sd.
  - intros s c. destruct (Hall s) as (c' & ch & -> & Hc). intros [= <-]. destruct (Hz c' Hc) as (z & ? & ? & ? & _). by exists z.
  - intros c. destruct sd; cbn [other_side] in E2; rewrite E1, E2; cbn; intros [= <-] [= E]; destruct Hbb as [[-> ->]|[-> ->]]; congruence.
  - done.
  - intros _. apply Hfin.
  - destruct (Hpassed sideReadable) as [_ ->], (Hpassed sideWritable) as [_ ->]. done.
  - intros s. right. split; [apply Hpassed|apply Hfin].
  - intros s. cbn. pose proof (fi_begun _ _ Hi s) as Hbg. destruct (Hall s) as (c & ch & -> & _). cbn.
    assert (∃ c0, fbuf_of (ph s) = Some c0) as [c0 Ec0]; [|by rewrite Ec0 in Hbg]. revert s c ch Hbg. refine (side_cases _ sd _ _); intros; [rewrite Hf; by exists b|by eexists].
  - intros x0 Hx0. exact (fi_told _ _ Hi x0 Hx0).
Qed.

Definition fquiet (w : fut) : Prop := ∃ ph, finv w ph ∧ ∀ sd, fsettled (ph sd).

(** What an operation leaves, of a future in which [sd] is in flight. *)
Definition fop_post (w : fut) (r : outcome stream_error fut) : Prop :=
  match r with Ok w' => fquiet w' ∧ fsame_holders w w' | Err _ => True | _ => False end.

Lemma fdone_quiet (w0 w : fut) ph sd r : fdone_post w ph sd r → fsettled (ph (other_side sd)) → fsame_holders w0 w → fop_post w0 r.
Proof.
  intros Hd Ho Hs. destruct r as [w'| | |]; try done. destruct Hd as (p & Hi & Hp & _ & _ & Hw). split; [|by eapply fsame_holders_trans].
  exists (fupd ph sd p). split; [done|]. refine (side_cases _ sd _ _); [by rewrite fupd_same|by rewrite fupd_other].
Qed.

(** The rendezvous: the parked side is told first, then the one in flight. *)
Lemma fmeet_ok n (w w1 : fut) ph sd b h p dst src : finv w ph → ph sd = FFlying b h false → fpending w = Some p → fc_side (fp_cb p) = other_side sd →
  fdropped w = false → dst ≠ src → (dst = b ∧ src = fc_buf (fp_cb p) ∨ src = b ∧ dst = fc_buf (fp_cb p)) → fcopy w dst src = Ok w1 →
  fop_post w (let* w := fresetAndNotifyPending (future_onCopyDone (S n)) w1 copyCompleted in future_onCopyDone (S n) w (mkFCb sd b h) copyCompleted).
Proof.
  intros Hi Hf Hp Hsd Hd Hne Hbb Hcp. destruct (fmet w w1 ph sd b h p dst src Hi Hf Hp Hsd Hd Hne Hbb Hcp) as (Hi1 & Hs1 & Hp1).
  unfold fresetAndNotifyPending. rewrite Hp1. set (ph1 := fupd _ _ _) in *. set (w2 := fresetPending w1) in *.
  assert (fsame_holders w w2) as Hs2 by (intros s; rewrite <- (Hs1 s); by destruct s).
  assert (ph1 sd = FFlying b h true) as E1 by (unfold ph1, fupd; destruct sd; cbn; by repeat case_decide).
  pose proof (fdone_ok n w2 ph1 (other_side sd) _ _ true copyCompleted Hi1 (fupd_same _ _ _) ltac:(done) ltac:(by split) ltac:(done) ltac:(done)) as H1.
  replace (mkFCb (other_side sd) _ _) with (fp_cb p) in H1 by (rewrite <- Hsd; by destruct (fp_cb p)).
  destruct (future_onCopyDone (S n) w2 (fp_cb p) copyCompleted) as [w3| | |]; try done. cbn [obind]. destruct H1 as (q & Hi3 & Hq & Hp3 & _ & Hs3).
  pose proof (fdone_ok n w3 _ sd b h true copyCompleted Hi3 ltac:(unfold fupd at 1; destruct sd; cbn; exact E1) Hp3 ltac:(by split) ltac:(done) ltac:(done)) as H2.
  apply (fdone_quiet w w3 _ sd _ H2); [by rewrite fupd_same|]. by do 2 (eapply fsame_holders_trans; [eassumption|]).
Qed.

(** A copy between the buffers of both sides copies or traps. *)
Lemma fcopy_total (w : fut) ph p sd b h dst src r : finv w ph → ph sd = FFlying b h false → fpending w = Some p →
  (dst = b ∧ src = fc_buf (fp_cb p) ∨ src = b ∧ dst = fc_buf (fp_cb p)) → fcopy w dst src = r → match r with Panic | NoFuel => False | _ => True end.
Proof.
  intros Hi Hf Hp Hbb <-. destruct (fparked_phase w ph p Hi Hp) as (_ & Hb & _).
  destruct (fi_bufs _ _ Hi sd b ltac:(by rewrite Hf)) as (x & Hx & _). destruct (fi_bufs _ _ Hi _ _ Hb) as (y & Hy & _).
  unfold fcopy. destruct Hbb as [[-> ->]|[-> ->]]; rewrite Hx, Hy; by destruct (copyElements _ _ _ _ _) as [[[? ?] ?]|].
Qed.

Lemma fop_ok n (w : fut) ph sd b h i : finv w ph → ph sd = FFlying b h false → fsettled (ph (other_side sd)) →
  i = match fholder_of w sd with FAtGuest e => Some (fe_inst e) | _ => None end →
  fop_post w (future_op (future_onCopyDone (S n)) sd w i (mkFCb sd b h)).
Proof.
  intros Hi Hf Ho Hinst.
  assert (fdropped w = true → sd = sideWritable ∧ fop_post w (future_onCopyDone (S n) w (mkFCb sd b h) copyDropped)) as Hdrop.
  { intros Ed. assert (sd = sideWritable) as ->.
    { destruct sd; [|done]. pose proof (fi_reader _ _ Hi (or_introl Ed)) as Hc. by rewrite Hf in Hc. }
    split; [done|]. by apply (fdone_quiet w w ph sideWritable); [apply (fdone_ok n w ph sideWritable b h false copyDropped Hi Hf); [by apply Hi|by split|done|done]|done|]. }
  assert (∀ p, fpending w = Some p → fc_side (fp_cb p) = other_side sd ∧ b ≠ fc_buf (fp_cb p)) as Hpar.
  { intros p Hp. destruct (fparked_phase w ph p Hi Hp) as (_ & Hb & _ & _ & _ & Hs & _).
    assert (fc_side (fp_cb p) = other_side sd) as E by (destruct (decide (fc_side (fp_cb p) = sd)) as [E|?]; [rewrite E, Hf in Hs; done|destruct sd, (fc_side (fp_cb p)); done]).
    split; [done|]. rewrite E in Hb. intros ->. apply (fi_apart _ _ Hi (fc_buf (fp_cb p))); destruct sd; cbn in Hb; rewrite ?Hf, ?Hb; done. }
  assert (fpending w = None → fdropped w = false → fop_post w (Ok (fsetPending w (Some (mkFParked i (mkFCb sd b h)))))) as Hpk.
  { intros Hp Ed. split; [|by intros []]. eexists. split; [by apply (fpark w ph sd b h i)|]. refine (side_cases _ sd _ _); [rewrite fupd_same; by destruct h|by rewrite fupd_other]. }
  destruct sd; cbn [future_op]; unfold future_read, future_write; (destruct (fdropped w) eqn:Ed; [destruct (Hdrop eq_refl); done|]);
    (destruct (fpending w) as [p|] eqn:Hp; [|by apply Hpk]); destruct (Hpar p eq_refl) as [Hsd Hne]; (destruct (_ && _); [done|]); cbn [fc_buf].
  - destruct (fcopy w b _) as [w1| | |] eqn:Ec; cbn [obind]; [|done|..].
    + by apply (fmeet_ok n w w1 ph sideReadable b h p b (fc_buf (fp_cb p)) Hi); [..|left|].
    + by apply (fcopy_total w ph p sideReadable b h b (fc_buf (fp_cb p)) _ Hi Hf Hp) in Ec; [|left].
    + by apply (fcopy_total w ph p sideReadable b h b (fc_buf (fp_cb p)) _ Hi Hf Hp) in Ec; [|left].
  - destruct (fcopy w _ b) as [w1| | |] eqn:Ec; cbn [obind]; [|done|..].
    + by apply (fmeet_ok n w w1 ph sideWritable b h p (fc_buf (fp_cb p)) b Hi); [..|right|].
    + by apply (fcopy_total w ph p sideWritable b h (fc_buf (fp_cb p)) b _ Hi Hf Hp) in Ec; [|right].
    + by apply (fcopy_total w ph p sideWritable b h (fc_buf (fp_cb p)) b _ Hi Hf Hp) in Ec; [|right].
Qed.
End inv.
