(* ===== verification/CmFutureRun.v ===== *)
(** Futures in use: whatever guests and hosts do with the ends of a future, as long as a host
    that is told a result acts on the end it was told about ([courteous_op]), its value is
    passed at most once, a reader is never told that it was dropped, and nothing panics. *)
From Stdlib Require Import ZArith Lia.
From stdpp Require Import base list numbers option tactics relations.
From S2P Require Import Prelude CmStream CmStreamInv CmStreamRun CmFuture CmFutureInv CmHandles CmBuffer AbiTypes AbiLayout AbiLoad AbiStore.
Local Open Scope Z_scope.
Local Open Scope go_scope.

Section run.
Context {M B V : Type} `{BL : BufferLaws M B V}.

Abbreviation fut := (@future M B V).

(** ** What happens to a future *)

Inductive future_run_op : Type :=
| FGCopy (sd : endSide) (async : bool) (ptr : Z)
| FGEvent (sd : endSide)
| FGCancel (sd : endSide) (async : bool)
| FGDrop (sd : endSide)
| FGJoin (sd : endSide) (b : bool)
| FETake | FELower (i : nat) | FELift (i : nat)
| FHDo (op : @futureOp V)
| FXMem (m : M) | FXDriver (d : nat → driver).

Definition run_future_op (w : fut) (op : future_run_op) : outcome stream_error (fut * option answer) :=
  let mute r := let* w := r in Ok (w, None) in
  let say r := let* '(w, a) := r in Ok (w, Some a) in
  match op with
  | FGCopy sd async ptr => say (futureCopy w sd async ptr)
  | FGEvent sd => say (future_take_event w sd)
  | FGCancel sd async => say (futureCancel w sd async)
  | FGDrop sd => mute (futureDrop w sd)
  | FGJoin sd b => mute (future_join w sd b)
  | FETake => mute (takeReadableFutureEnd w)
  | FELower i => mute (future_lower w i)
  | FELift i => mute (future_lift w i)
  | FHDo op => mute (future_host w op)
  | FXMem m => Ok (fset_mem w m, None)
  | FXDriver d => Ok (fset_drv w d, None)
  end.

(** Hosts act, when they are told, on the end they were told about: what
    [close_reaches_assertion] does is ruled out, a [Get] in the callback of a [Set]. *)
Definition courteous_op (op : future_run_op) : bool :=
  match op with FHDo (FSet _ k) => forallb (on_end sideWritable) k | FHDo (FGet k) => forallb (on_end sideReadable) k | _ => true end.

(** A future after any sequence of operations of such hosts, none of which trapped. *)
Inductive freach : fut → Prop :=
| freach_guest m num d i : freach (futureNew m num d i)
| freach_host m num d i : freach (NewFuture m num d i)
| freach_step w op w' a : freach w → courteous_op op = true → run_future_op w op = Ok (w', a) → freach w'.

(** ** Every operation keeps the invariant *)

Definition fpost {A} (r : outcome stream_error (fut * A)) : Prop := match r with Ok (w', _) => fquiet w' | Err _ => True | _ => False end.
Definition fpost0 (r : outcome stream_error fut) : Prop := match r with Ok w' => fquiet w' | Err _ => True | _ => False end.

Lemma fquiet_new (w : fut) : fpending w = None → fdropped w = false → flog w = [] →
  (∀ sd, match fholder_of w sd with FAtGuest e => fe_state e = copyIdle ∧ fe_event e = None | FAtHost _ st => st = copyIdle | FInTransit => True | FGone => False end) → fquiet w.
Proof.
  intros Hp Hd Hl Hh. exists (λ _, FRest). split; [|done].
  assert (∀ sd, ¬ finished w sd FRest) as Hnf by (intros sd; specialize (Hh sd); cbn; destruct (fholder_of w sd) as [e| | |]; [destruct Hh as [-> _]|subst st|..]; auto).
  split; try done.
  - intros sd. specialize (Hh sd). cbn. unfold fparked_at. rewrite Hp. split; [by intros []|]. destruct (fholder_of w sd) as [e|i st| |]; try done; [by destruct Hh as [-> ->]|by subst].
  - intros [?|Hc]; [congruence|by apply Hnf in Hc].
  - unfold passed. by rewrite Hl.
  - intros sd. left. unfold passed. by rewrite Hl.
  - intros sd. by rewrite Hl.
  - intros x. rewrite Hl. by intros ?%elem_of_nil.
Qed.

(** An end that is not busy, has no event and is not in the middle of a drop is at rest. *)
Lemma frest (w : fut) sd p : in_phase w sd p → fsettled p →
  match fholder_of w sd with FAtGuest e => busy (fe_state e) = false | FAtHost _ st => busy st = false | _ => True end → p = FRest.
Proof.
  intros Hp Hs Hh. destruct p as [| |b h fin|b|b k|b r]; try done; cbn in Hp.
  - destruct Hp as (_ & e & E & ? & _). rewrite E in Hh. congruence.
  - destruct Hp as (_ & _ & i & st & E & ? & _). rewrite E in Hh. congruence.
  - destruct Hp as (_ & _ & _ & e & E & ? & _). rewrite E in Hh. congruence.
Qed.

(** A change of a holder at rest. *)
Lemma fhold (w : fut) ph sd h : finv w ph → fbuf_of (ph sd) = None → (¬ fparked_at w sd) → 
  match h with FAtGuest e => busy (fe_state e) = false ∧ fe_event e = None | FAtHost _ st => busy st = false | _ => True end →
  (finished w sd (ph sd) ↔ finished (fset_holder w sd h) sd FRest) → finv (fset_holder w sd h) (fupd ph sd FRest).
Proof.
  intros Hi Hb Hpk Hh Hf. assert (fholder_of (fset_holder w sd h) sd = h) as Eh by (by destruct sd).
  assert (passing (ph sd) = 0) as Hp0 by (destruct (ph sd); done).
  eapply (finv_step w _ ph sd FRest [] Hi); try done.
  - by destruct sd.
  - by left.
  - apply Hi.
  - split; [done|]. by rewrite Eh.
  - cbn. by rewrite app_nil_r.
  - unfold busyZ. by rewrite Hb.
  - apply Hf.
  - intros [Hd|[-> Hc]]; [left; apply (fi_reader _ _ Hi); by left|]. left. apply (fi_reader _ _ Hi). right. by apply Hf.
Qed.

(** An armed event is that of a final phase. *)
Lemma armed_final (w : fut) ph sd e r b : finv w ph → fsettled (ph sd) → fholder_of w sd = FAtGuest e → fe_event e = Some (r, b) → ph sd = FFinal b r.
Proof.
  intros Hi Hsd Eh Ee. pose proof (fi_phase _ _ Hi sd) as Hph. destruct (ph sd) as [| |b' h fin|b'|b' k|b' r']; try done; cbn in Hph; rewrite ?Eh in Hph.
  - destruct Hph as (_ & _ & ?). congruence.
  - destruct Hph as (_ & e' & E & _ & E2 & _). congruence.
  - destruct Hph as (_ & _ & i & st & ? & _). congruence.
  - destruct Hph as (_ & _ & _ & e' & E & _ & E2). injection E as <-. rewrite Ee in E2. by injection E2 as -> ->.
Qed.

(** An end that delivers its event is at rest. *)
Lemma fevent_ok (w : fut) ph sd e : finv w ph → (∀ s, fsettled (ph s)) → fholder_of w sd = FAtGuest e → fe_event e ≠ None → fpost (future_event w sd e).
Proof.
  intros Hi Hs Eh Hev. unfold future_event. destruct (fe_event e) as [[r b]|] eqn:Ee; [|done]. pose proof (fi_phase _ _ Hi sd) as Hph. pose proof (Hs sd) as Hsd.
  assert (ph sd = FFinal b r) as Hf by by eapply armed_final.
  rewrite Hf in Hph. destruct Hph as (Hnp & Hroom & Hdr & _). set (e' := fset_state _ _). set (w' := fnote _ _).
  assert (fholder_of w' sd = FAtGuest e') as Eh' by (by destruct sd).
  assert (fe_state e' = copyDone ↔ r ≠ copyCancelled) as Hst by (unfold e'; destruct r; cbn; split; try done).
  exists (fupd ph sd FRest). split; [|refine (side_cases _ sd _ _); [by rewrite fupd_same|rewrite fupd_other; apply Hs]].
  eapply (finv_step w w' ph sd FRest [_] Hi); try done.
  - by destruct sd.
  - by left.
  - apply Hi.
  - split; [done|]. rewrite Eh'. unfold e'. by destruct r.
  - by repeat constructor.
  - constructor; [|constructor]. cbn. rewrite (full_room _ _ _ Hroom). split; [case_decide; done|done].
  - rewrite Hf. cbn. by rewrite decide_True.
  - rewrite Hf. cbn. destruct r; cbn; rewrite ?decide_True by done; done.
  - rewrite Hf. cbn. rewrite Eh'. intros ->. by apply Hst.
  - cbn. rewrite Eh'. intros [Hd|[-> Hc]]; [left; apply (fi_reader _ _ Hi); by left|]. left. apply (fi_reader _ _ Hi). rewrite Hf. cbn.
    apply Hst in Hc. destruct r; [by right|left; by apply Hdr|done].
Qed.

Lemma ffinish_ok (w : fut) sd async : fquiet w → (∃ e, fholder_of w sd = FAtGuest e) → fpost (future_finish w sd async).
Proof.
  intros (ph & Hi & Hs) [e Eh]. unfold future_finish. rewrite Eh. destruct (fe_event e) eqn:Ee; [|by exists ph]. apply (fevent_ok w ph); [done..|by rewrite Ee].
Qed.

Lemma fguest_of (w w' : fut) sd e : fsame_holders w w' → fholder_of w sd = FAtGuest e → ∃ e', fholder_of w' sd = FAtGuest e'.
Proof. intros Hw Eh. specialize (Hw sd). rewrite Eh in Hw. destruct (fholder_of w' sd) as [e'| | |]; try done. by exists e'. Qed.

(** ** The operations *)

Lemma futureCopy_ok (w : fut) sd async ptr : fquiet w → fpost (futureCopy w sd async ptr).
Proof.
  intros (ph & Hi & Hs). unfold futureCopy. destruct (fholder_of w sd) as [e|i st| |] eqn:Eh; try done.
  destruct (guest_guard _ _) as [[]| | |] eqn:Eg; try done; try (unfold guest_guard in Eg; by repeat case_match). cbn [obind].
  case_bool_decide as Est; [|done]. cbn [negb]. destruct (_ && _); [done|].
  destruct (newGuestBuffer (fmem w) (fe_inst e) ptr 1) as [b|] eqn:Eb; [|done]. apply guest_ok in Eb as (Ob & Pb & Lb).
  assert (ph sd = FRest) as Hr by (apply (frest w sd); [apply Hi|apply Hs|by rewrite Eh, Est]).
  pose proof (fi_phase _ _ Hi sd) as Hph. rewrite Hr in Hph. destruct Hph as [_ Hev]. rewrite Eh in Hev. destruct Hev as [_ Hev].
  set (e1 := fset_state e copyCopying). pose proof (fstart w ph sd b (FAtGuest e1) None Hi Hr) as Hi1.
  specialize (Hi1 ltac:(cbn; rewrite Eh; congruence) Ob Lb Pb ltac:(done)). set (w1 := fnote _ _) in *.
  pose proof (fop_ok (fuel_of w1) w1 _ sd (length (fbufs w)) None (Some (fe_inst e)) Hi1 (fupd_same _ _ _)) as Hp.
  specialize (Hp ltac:(rewrite fupd_other; apply Hs) ltac:(by destruct sd)).
  destruct (future_op _ sd w1 _ _) as [w2| | |]; try done. destruct Hp as [Hq Hw]. cbn [obind].
  apply ffinish_ok; [done|]. apply (fguest_of w1 w2 sd e1 Hw). by destruct sd.
Qed.

(** A change of state of an end in operation. *)
Lemma fbusy_state (w : fut) ph sd h : finv w ph → (∀ s, fsettled (ph s)) →
  match fholder_of w sd, h with
  | FAtGuest e, FAtGuest e' => busy (fe_state e) = busy (fe_state e') ∧ (fe_state e = copyDone ↔ fe_state e' = copyDone) ∧ fe_event e' = fe_event e ∧ fe_inst e' = fe_inst e
  | FAtHost _ st, FAtHost _ st' => busy st = true ∧ busy st' = true
  | _, _ => False
  end → finv (fset_holder w sd h) ph.
Proof.
  intros Hi Hs Hh. apply (finv_ext _ (fupd ph sd (ph sd))); [intros s; unfold fupd; by case_decide; subst|].
  assert (fholder_of (fset_holder w sd h) sd = h) as Eh by (by destruct sd). pose proof (fi_phase _ _ Hi sd) as Hph. specialize (Hs sd).
  assert (finished w sd (ph sd) ↔ finished (fset_holder w sd h) sd (ph sd)) as Hf.
  { destruct (ph sd); try done. cbn. rewrite Eh. destruct (fholder_of w sd), h; try done; [apply Hh|]. destruct Hh. split; intros ->; done. }
  eapply (finv_step w _ ph sd _ [] Hi); try done.
  - by destruct sd.
  - by left.
  - apply Hi.
  - destruct (ph sd) as [| |b h' fin|b|b k|b r]; try done; cbn [in_phase] in *; rewrite Eh.
    + destruct Hph as [Hn Hx]. split; [done|]. destruct (fholder_of w sd), h; try done; [destruct Hh as (<- & _ & -> & _); done|destruct Hh; congruence].
    + destruct Hph as (Hr & e & E & Hb & Hev & Hp). rewrite E in Hh. destruct h as [e'|i st| |]; try done. destruct Hh as (H1 & _ & H3 & H4). split; [done|]. exists e'. rewrite H3, H4. split_and!; try done. congruence.
    + destruct Hph as (Hr & Hk & i & st & E & Hb & Hp). rewrite E in Hh. destruct h as [e'|i' st'| |]; try done. split; [done|]. split; [done|]. destruct Hh. by exists i', st'.
    + destruct Hph as (Hn & Hr & Hd & e & E & Hb & Hev). rewrite E in Hh. destruct h as [e'|i st| |]; try done. destruct Hh as (H1 & _ & H3 & _). split_and!; try done. exists e'. rewrite H3. split_and!; try done. congruence.
  - intros b Eb. split; [by apply (fi_bufs _ _ Hi sd)|]. intros Eo. apply (fi_apart _ _ Hi b); destruct sd; done.
  - cbn. by rewrite app_nil_r.
  - apply Hf.
  - intros [Hd|[-> Hc]]; [left; apply (fi_reader _ _ Hi); by left|]. left. apply (fi_reader _ _ Hi). right. by apply Hf.
Qed.

(** A cancellation of what is parked, by its own side. *)
Lemma fcancel_ok n (w : fut) ph p : finv w ph → (∀ s, fsettled (ph s)) → fpending w = Some p → (fc_side (fp_cb p) = sideReadable ∨ fc_host (fp_cb p) = None) →
  fop_post w (future_cancel (future_onCopyDone (S n)) w).
Proof.
  intros Hi Hs Hp Hc. unfold future_cancel, fresetAndNotifyPending. rewrite Hp.
  pose proof (fnotify_ok n w (fresetPending w) ph p copyCancelled Hi Hp ltac:(by left) ltac:(done) ltac:(done) ltac:(done)) as H1.
  apply (fdone_quiet w (fresetPending w) ph _ _ H1); [apply Hs|by intros []].
Qed.

Lemma futureCancel_ok (w : fut) sd async : fquiet w → fpost (futureCancel w sd async).
Proof.
  intros (ph & Hi & Hs). unfold futureCancel. destruct (fholder_of w sd) as [e|i st| |] eqn:Eh; try done.
  destruct (guest_guard _ _) as [[]| | |] eqn:Eg; try done; try (unfold guest_guard in Eg; by repeat case_match). cbn [obind].
  case_bool_decide as Est; [|done]. cbn [negb]. destruct (fe_inSet e && _); [done|].
  set (w1 := fset_holder w sd (FAtGuest (fset_state e copyCancelling))). assert (fholder_of w1 sd = FAtGuest (fset_state e copyCancelling)) as Eh1 by (by destruct sd).
  assert (finv w1 ph) as Hi1 by (apply fbusy_state; [done|done|]; rewrite Eh, Est; done).
  destruct (fe_event e) as [ev|] eqn:Ee; [cbn [obind]; apply ffinish_ok; [by exists ph|by eexists]|].
  assert (∃ b, fpending w = Some (mkFParked (Some (fe_inst e)) (mkFCb sd b None))) as [b Hp].
  { pose proof (fi_phase _ _ Hi sd) as Hph. specialize (Hs sd). destruct (ph sd) as [| |b h fin|b|b k|b r]; try done; cbn in Hph; rewrite ?Eh in Hph.
    - destruct Hph as (_ & ? & _). rewrite Est in *. done.
    - destruct Hph as (_ & e' & E & _ & _ & E2). injection E as <-. by exists b.
    - destruct Hph as (_ & _ & i & st & ? & _). congruence.
    - destruct Hph as (_ & _ & _ & e' & E & _ & E2). injection E as <-. congruence. }
  pose proof (fcancel_ok (fuel_of w1) w1 ph _ Hi1 Hs Hp ltac:(by right)) as Hc.
  destruct (future_cancel _ w1) as [w2| | |]; try done. destruct Hc as [Hq Hw]. cbn [obind]. apply ffinish_ok; [done|]. by apply (fguest_of w1 w2 sd _ Hw Eh1).
Qed.

(** The drop of an end that is finished, or about to leave. *)
Lemma fdrop_ok n (w : fut) ph sd : finv w ph → fbuf_of (ph sd) = None → finished w sd (ph sd) → fsettled (ph (other_side sd)) →
  match future_drop (future_onCopyDone (S n)) w with
  | Ok w' => ∃ ph', finv w' ph' ∧ ph' sd = ph sd ∧ fsettled (ph' (other_side sd)) ∧ fholder_of w' sd = fholder_of w sd
  | Err _ => True
  | _ => False
  end.
Proof.
  intros Hi Hb Hf Hs. unfold future_drop. destruct (fdropped w) eqn:Ed; [by exists ph|].
  assert (finished w sideReadable (ph sideReadable)) as HfR by (destruct sd; [done|]; apply (fi_reader _ _ Hi); by right).
  cbn [fpending fset_dropped]. destruct (fpending w) as [p|] eqn:Hp; [|exists ph; split_and!; [by apply fdrop_flag|done|done|by destruct sd]].
  destruct (fparked_phase w ph p Hi Hp) as (_ & Hbp & _ & Hnf & _).
  assert (fc_side (fp_cb p) = other_side sd) as E by (destruct (decide (fc_side (fp_cb p) = sd)) as [E|?]; [rewrite E in Hbp; congruence|destruct sd, (fc_side (fp_cb p)); done]).
  assert (sd = sideReadable) as -> by (destruct sd; [done|]; rewrite E in Hnf; cbn in Hnf; done).
  pose proof (fnotify_ok n w (fresetPending (fset_dropped w)) ph p copyDropped Hi Hp ltac:(by right) ltac:(done) ltac:(done) ltac:(done)) as Hn.
  unfold fresetAndNotifyPending. cbn [fpending fset_dropped]. rewrite Hp. rewrite E in Hn. unfold fdone_post in Hn.
  destruct (future_onCopyDone _ _ _ _) as [w'| | |]; try done. destruct Hn as (q & Hi' & Hq & _ & Hh & _).
  eexists. split; [exact Hi'|]. split_and!; try done.
Qed.

(** The readable end begins to leave. *)
Lemma fleave (w : fut) ph : finv w ph → ph sideReadable = FRest → finv w (fupd ph sideReadable FLeaving).
Proof.
  intros Hi Hr. pose proof (fi_phase _ _ Hi sideReadable) as Hph. rewrite Hr in Hph.
  eapply (finv_step w w ph sideReadable _ [] Hi); try done.
  - by left.
  - apply Hi.
  - by rewrite app_nil_r.
  - by rewrite Hr.
  - by rewrite Hr.
  - intros _. by right.
Qed.

(** A drop by the holder of an end at rest, who is [h] afterwards. *)
Lemma fdrop_end n (w : fut) ph sd h : finv w ph → ph sd = FRest → (∀ s, fsettled (ph s)) → (sd = sideWritable → finished w sd FRest) →
  match h with FAtHost _ st => st = copyDone | FGone => True | _ => False end →
  match future_drop (future_onCopyDone (S n)) w with
  | Ok w' => fquiet (fset_holder w' sd h) ∧ fholder_of w' sd = fholder_of w sd
  | Err _ => True
  | _ => False
  end.
Proof.
  intros Hi Hr Hs Hw Hh.
  assert (∃ ph1, finv w ph1 ∧ fbuf_of (ph1 sd) = None ∧ finished w sd (ph1 sd) ∧ ph1 (other_side sd) = ph (other_side sd)) as (ph1 & Hi1 & Hb1 & Hf1 & Ho1).
  { destruct sd; [exists (fupd ph sideReadable FLeaving); split; [by apply fleave|done]|exists ph; rewrite Hr; split_and!; try done; by apply Hw]. }
  pose proof (fdrop_ok n w ph1 sd Hi1 Hb1 Hf1 ltac:(rewrite Ho1; apply Hs)) as Hd.
  destruct (future_drop _ w) as [w'| | |]; try done. destruct Hd as (ph2 & Hi2 & E2 & Hs2 & Eh). split; [|done].
  assert (fbuf_of (ph2 sd) = None) as Hb2 by (by rewrite E2).
  assert (finished w' sd (ph2 sd)) as Hf2 by (rewrite E2; by apply (finished_frame w)).
  exists (fupd ph2 sd FRest). split; [|refine (side_cases _ sd _ _); [by rewrite fupd_same|by rewrite fupd_other]].
  apply fhold; [done|done| | |].
  - intros Hc. pose proof (fi_phase _ _ Hi2 sd) as Hph. destruct (ph2 sd); try done; by destruct Hph.
  - destruct h; try done. by subst.
  - split; [|done]. intros _. destruct sd, h; done.
Qed.

Lemma futureDrop_ok (w : fut) sd : fquiet w → fpost0 (futureDrop w sd).
Proof.
  intros (ph & Hi & Hs). unfold futureDrop. destruct (fholder_of w sd) as [e|i st| |] eqn:Eh; try done.
  destruct (guest_guard _ _) as [[]| | |] eqn:Eg; try done; try (unfold guest_guard in Eg; by repeat case_match). cbn [obind].
  destruct (bool_decide (sd = sideWritable) && _) eqn:Ew; [done|]. destruct (busy (fe_state e)) eqn:Eb; [done|].
  assert (ph sd = FRest) as Hr by (apply (frest w sd); [apply Hi|apply Hs|by rewrite Eh]).
  pose proof (fi_phase _ _ Hi sd) as Hph. rewrite Hr in Hph. destruct Hph as [_ Hev]. rewrite Eh in Hev. destruct Hev as [_ Hev].
  pose proof (fdrop_end (fuel_of w) w ph sd FGone Hi Hr Hs) as Hd.
  specialize (Hd ltac:(intros ->; cbn; cbn in Eh; rewrite Eh; cbn in Ew; apply negb_false_iff, bool_decide_eq_true in Ew; done) ltac:(done)).
  destruct (future_drop _ w) as [w1| | |]; try done. destruct Hd as [Hq Eh1]. cbn [obind]. by rewrite Eh1, Eh, Hev.
Qed.

Lemma fhost_start_ok n (w : fut) sd x k : fquiet w → bufok x → len x = 1 → progressed x = 0 → courteous sd k →
  fpost0 (future_start (future_onCopyDone (S n)) w sd x k).
Proof.
  intros (ph & Hi & Hs) Ox Lx Px Hk. unfold future_start. destruct (fholder_of w sd) as [e|i st| |] eqn:Eh; try done.
  destruct (negb _); [done|]. case_bool_decide as Est; [|done]. cbn [negb]. subst st.
  assert (ph sd = FRest) as Hr by (apply (frest w sd); [apply Hi|apply Hs|by rewrite Eh]).
  pose proof (fstart w ph sd x (FAtHost i copyCopying) (Some k) Hi Hr) as Hi1.
  specialize (Hi1 ltac:(cbn; by rewrite Eh) Ox Lx Px ltac:(split; [done|by exists k])). set (w1 := fnote _ _) in *.
  pose proof (fop_ok n w1 _ sd (length (fbufs w)) (Some k) None Hi1 (fupd_same _ _ _) ltac:(rewrite fupd_other; apply Hs) ltac:(by destruct sd)) as Hp.
  destruct (future_op _ sd w1 _ _) as [w2| | |]; try done. by destruct Hp.
Qed.

Lemma fhost_ok (w : fut) op : fquiet w → courteous_op (FHDo op) = true → fpost0 (future_host w op).
Proof.
  intros Hq Hc. unfold future_host. destruct op as [v k|k|sd|]; cbn [future_host_op]; cbn in Hc.
  - destruct (host_read_ok [v]) as [Ob Pb]. pose proof (host_read_len [v]) as Lb. by apply fhost_start_ok.
  - destruct (host_write_ok 1) as [Ob Pb]. pose proof (host_write_len 1) as Lb. by apply fhost_start_ok.
  - destruct Hq as (ph & Hi & Hs). unfold future_close. destruct (fholder_of w sd) as [e|i st| |] eqn:Eh; try done. destruct (negb _); [done|].
    destruct sd.
    + destruct (busy st) eqn:Eb; [done|]. assert (ph sideReadable = FRest) as Hr by (apply (frest w sideReadable); [apply Hi|apply Hs|by rewrite Eh]).
      pose proof (fdrop_end (fuel_of w + @fop_size V (FClose sideReadable)) w ph sideReadable (FAtHost i copyDone) Hi Hr Hs ltac:(done) eq_refl) as Hd.
      destruct (future_drop _ w) as [w1| | |]; try done. by destruct Hd.
    + case_bool_decide as Est; [|done]. cbn [negb]. subst st. assert (ph sideWritable = FRest) as Hr by (apply (frest w sideWritable); [apply Hi|apply Hs|by rewrite Eh]).
      pose proof (fdrop_end (fuel_of w + @fop_size V (FClose sideWritable)) w ph sideWritable (FAtHost i copyDone) Hi Hr Hs) as Hd.
      specialize (Hd ltac:(intros _; cbn in *; by rewrite Eh) eq_refl). destruct (future_drop _ w) as [w1| | |]; try done.
      destruct Hd as [Hq Eh1]. cbn [fpost0]. rewrite Eh in Eh1. by rewrite (fset_holder_same w1 sideWritable _ Eh1) in Hq.
  - destruct Hq as (ph & Hi & Hs). unfold future_host_cancel. destruct (freadable w) as [e|i st| |] eqn:Eh; try done. destruct (negb _); [done|].
    case_bool_decide as Est; [|by exists ph]. cbn [negb]. subst st. set (w1 := fset_holder w sideReadable (FAtHost i copyCancelling)).
    assert (finv w1 ph) as Hi1 by (apply fbusy_state; [done|done|]; cbn; by rewrite Eh).
    destruct (fpending w1) as [p|] eqn:Hp; [|by exists ph].
    assert (fc_side (fp_cb p) = sideReadable) as Hsd.
    { pose proof (fi_phase _ _ Hi sideReadable) as Hph. specialize (Hs sideReadable). cbn in Hp. destruct (ph sideReadable) as [| |b h fin|b|b k|b r]; try done; cbn in Hph; rewrite ?Eh in Hph.
      - by destruct Hph as (_ & ?).
      - destruct Hph as (_ & e & ? & _). congruence.
      - destruct Hph as (_ & _ & j & st & _ & _ & E). rewrite Hp in E. by injection E as ->.
      - destruct Hph as (_ & _ & _ & e & ? & _). congruence. }
    pose proof (fcancel_ok (fuel_of w + @fop_size V FCancel) w1 ph p Hi1 Hs Hp ltac:(by left)) as H1.
    destruct (future_cancel _ w1) as [w2| | |]; try done. by destruct H1.
Qed.

(** The readable end, idle, changes hands. *)
Lemma fmove (w : fut) h : fquiet w →
  match freadable w with FAtGuest e => fe_state e = copyIdle | FAtHost _ st => st = copyIdle | FInTransit => True | FGone => False end →
  match h with FAtGuest e => fe_state e = copyIdle ∧ fe_event e = None | FAtHost _ st => st = copyIdle | FInTransit => True | FGone => False end →
  fquiet (fset_holder w sideReadable h).
Proof.
  intros (ph & Hi & Hs) Hw Hh.
  assert (ph sideReadable = FRest) as Hr by (apply (frest w sideReadable); [apply Hi|apply Hs|]; cbn; destruct (freadable w) as [e|i st| |]; try done; by rewrite Hw).
  exists (fupd ph sideReadable FRest). split; [|intros s; unfold fupd; by case_decide].
  pose proof (fi_phase _ _ Hi sideReadable) as Hph. rewrite Hr in Hph. destruct Hph as [Hn _].
  apply fhold; [done|by rewrite Hr|done| |].
  - destruct h as [e|i st| |]; try done; [destruct Hh as [-> ->]|rewrite Hh]; done.
  - assert (∀ g : fholder, match g with FAtGuest e => fe_state e = copyIdle | FAtHost _ st => st = copyIdle | FInTransit => True | FGone => False end →
      ¬ match g with FAtGuest e => fe_state e = copyDone | FAtHost _ st => st = copyDone | FInTransit => False | FGone => True end) as Hn0.
    { intros [e|i st| |]; intros E; [rewrite E; done|rewrite E; done|tauto|done]. }
    rewrite Hr. cbn. split; intros Hx; exfalso; [by apply (Hn0 (freadable w))|apply (Hn0 h); [by destruct h; [destruct Hh|..]|done]].
Qed.

Lemma fjoin_ok (w : fut) sd b : fquiet w → fpost0 (future_join w sd b).
Proof.
  intros (ph & Hi & Hs). unfold future_join. destruct (fholder_of w sd) as [e|i st| |] eqn:Eh; try done.
  exists ph. split; [|done]. apply fbusy_state; [done..|]. by rewrite Eh.
Qed.

Lemma fquiet_frame (w w' : fut) : fquiet w → fbufs w' = fbufs w → fpending w' = fpending w → fdropped w' = fdropped w → flog w' = flog w →
  (∀ sd, fholder_of w' sd = fholder_of w sd) → fquiet w'.
Proof.
  intros (ph & Hi & Hs) Hb Hp Hd Hl Hh. exists ph. split; [|done]. destruct w as [m bs n d p r q dv l], w' as [m' bs' n' d' p' r' q' dv' l']. cbn in *. subst.
  pose proof (Hh sideReadable) as E1. pose proof (Hh sideWritable) as E2. cbn in E1, E2. subst. destruct Hi. by split.
Qed.

Lemma run_future_op_ok (w : fut) op : fquiet w → courteous_op op = true → fpost (run_future_op w op).
Proof.
  intros Hq Hc.
  assert (∀ r, fpost0 r → fpost (let* w := r in Ok (w, @None answer))) as Hmute by (intros [r| | |]; done).
  assert (∀ r, fpost r → fpost (let* '(w, a) := r in Ok (w, Some (a : answer)))) as Hsay by (intros [[r a]| | |]; done).
  destruct op as [sd async ptr|sd|sd async|sd|sd b| |i|i|op|m|d]; cbn [run_future_op].
  - by apply Hsay, futureCopy_ok.
  - apply Hsay. unfold future_take_event. destruct (fholder_of w sd) as [e|i st| |] eqn:Eh; try done. destruct (fe_event e) eqn:Ee; [|done].
    destruct Hq as (ph & Hi & Hs). apply (fevent_ok w ph); [done..|by rewrite Ee].
  - by apply Hsay, futureCancel_ok.
  - by apply Hmute, futureDrop_ok.
  - by apply Hmute, fjoin_ok.
  - apply Hmute. unfold takeReadableFutureEnd. destruct (freadable w) as [e|i st| |] eqn:Eh; try done.
    case_bool_decide as Est; [|done]. cbn. destruct (fe_inSet e); [done|]. apply fmove; [done|by rewrite Eh|done].
  - apply Hmute. unfold future_lower. destruct (freadable w) as [e|j st| |] eqn:Eh; try done; [destruct st; try done|]; (apply fmove; [done|by rewrite Eh|done]).
  - apply Hmute. unfold future_lift. destruct (freadable w) as [e|j st| |] eqn:Eh; try done. apply fmove; [done|by rewrite Eh|done].
  - by apply Hmute, fhost_ok.
  - by apply (fquiet_frame w).
  - by apply (fquiet_frame w).
Qed.

Lemma freach_quiet (w : fut) : freach w → fquiet w.
Proof.
  induction 1 as [m num d i|m num d i|w op w' a _ IH Hp Hr].
  - apply fquiet_new; try done. by intros [].
  - apply fquiet_new; try done. by intros [].
  - pose proof (run_future_op_ok w op IH Hp) as H1. by rewrite Hr in H1.
Qed.

(** ** What a run guarantees *)

Definition fbusy_end (w : fut) (sd : endSide) : bool := match fholder_of w sd with FAtGuest e => busy (fe_state e) | FAtHost _ st => busy st | _ => false end.

(** The completions of an end, with the one whose event is armed. *)
Definition passes (w : fut) (sd : endSide) : Z :=
  fsum (fpassed sd) (flog w) + match fholder_of w sd with FAtGuest e => match fe_event e with Some (copyCompleted, _) => 1 | _ => 0 end | _ => 0 end.

(** Whoever has the end can never begin an operation with it. *)
Definition spent (w : fut) (sd : endSide) : Prop :=
  match fholder_of w sd with
  | FAtGuest e => fe_state e = copyDone ∨ ∃ b, fe_event e = Some (copyCompleted, b)
  | FAtHost _ st => st = copyDone
  | FInTransit => False
  | FGone => True
  end.

Lemma settled_end (w : fut) ph sd : finv w ph → fsettled (ph sd) →
  passes w sd = passed w sd (ph sd) ∧ Z.b2z (fbusy_end w sd) = busyZ (ph sd) ∧ (finished w sd (ph sd) → spent w sd).
Proof.
  intros Hi Hs. pose proof (fi_phase _ _ Hi sd) as Hph. unfold passes, passed, fbusy_end, spent, busyZ.
  destruct (ph sd) as [| |b h fin|b|b k|b r]; try done; cbn in Hph |- *.
  - destruct Hph as [_ Hh]. destruct (fholder_of w sd) as [e|i st| |]; [destruct Hh as [-> ->]|rewrite Hh|..]; split_and!; try done; by left.
  - destruct Hph as (_ & e & -> & -> & -> & _). done.
  - destruct Hph as (_ & _ & i & st & -> & -> & _). done.
  - destruct Hph as (_ & _ & _ & e & -> & -> & ->). split_and!; [by destruct r|done|]. intros ->. right. by exists b.
Qed.

(** C32. The value of a future is passed at most once: in any run, whose hosts act in a callback on
    the end they were told about, both ends complete equally often, that
    is never or once; an end that has completed can never begin an operation again, whoever has it; and
    every operation that began was told its result exactly once, but the one in progress. *)
Theorem future_value_once (w : fut) : freach w →
  passes w sideReadable = passes w sideWritable ∧
  (∀ sd, passes w sd = 0 ∨ passes w sd = 1 ∧ spent w sd) ∧
  ∀ sd, fsum (fbegun sd) (flog w) = fsum (fended sd) (flog w) + Z.b2z (fbusy_end w sd).
Proof.
  intros (ph & Hi & Hs)%freach_quiet.
  assert (∀ sd, passes w sd = passed w sd (ph sd)) as Hp by (intros sd; apply settled_end; [done|apply Hs]).
  rewrite !Hp. split; [apply Hi|]. split; intros sd; rewrite ?Hp; destruct (settled_end w ph sd Hi (Hs sd)) as (_ & Hb & Hf).
  - destruct (fi_once _ _ Hi sd) as [?|[? ?]]; auto.
  - rewrite Hb. apply Hi.
Qed.

Lemma spent_finished (w : fut) ph sd : finv w ph → fsettled (ph sd) → spent w sd → finished w sd (ph sd).
Proof.
  intros Hi Hs Hsp. pose proof (fi_phase _ _ Hi sd) as Hph. unfold spent in Hsp.
  destruct (ph sd) as [| |b h fin|b|b k|b r]; try done; cbn in Hph |- *.
  - destruct Hph as [_ Hh]. destruct (fholder_of w sd) as [e|i st| |]; try done. destruct Hh as [_ Ee]. destruct Hsp as [?|[b Hb]]; [done|congruence].
  - destruct Hph as (_ & e & E & Hb & Ee & _). rewrite E in Hsp. destruct Hsp as [Hd|[b' Hb']]; [by rewrite Hd in Hb|congruence].
  - destruct Hph as (_ & _ & i & st & E & Hb & _). rewrite E in Hsp. by subst.
  - destruct Hph as (_ & _ & _ & e & E & Hb & Ee). rewrite E in Hsp. destruct Hsp as [Hd|[b' Hb']]; [by rewrite Hd in Hb|congruence].
Qed.

(** C33. The results of a future are honest, and its assertions hold, if hosts act in a callback on
    the end they were told about (a [Get] in the callback of a [Set] reaches the assertion,
    [close_reaches_assertion]): in any run of them a result says
    completed exactly if the buffer holds the value, told or armed; a reader is never told that the other
    side was dropped; nothing can be read from a future whose writable end is gone, so the
    panic of [sharedFuture.read] is out of reach; and no operation panics. *)
Theorem future_protocol (w : fut) : freach w →
  (∀ sd r f, FTold sd r f ∈ flog w → (f = true ↔ r = copyCompleted) ∧ (r = copyDropped → sd = sideWritable ∧ fdropped w = true)) ∧
  (∀ sd e r b, fholder_of w sd = FAtGuest e → fe_event e = Some (r, b) → (full w b = true ↔ r = copyCompleted) ∧ (r = copyDropped → sd = sideWritable ∧ fdropped w = true)) ∧
  (fdropped w = true ∨ spent w sideWritable → spent w sideReadable) ∧
  ∀ op, courteous_op op = true → (∃ w' a, run_future_op w op = Ok (w', a) ∧ freach w') ∨ ∃ e, run_future_op w op = Err e.
Proof.
  intros Hr. pose proof (freach_quiet w Hr) as Hq. pose proof Hq as (ph & Hi & Hs). split_and!.
  - intros sd r f Hin. exact (fi_told _ _ Hi _ Hin).
  - intros sd e r b Eh Ee. pose proof (fi_phase _ _ Hi sd) as Hph. specialize (Hs sd).
    assert (ph sd = FFinal b r) as Hf by by eapply armed_final. rewrite Hf in Hph. destruct Hph as (_ & Hroom & Hd & _).
    rewrite (full_room _ _ _ Hroom). split; [case_decide; done|done].
  - intros Hc. apply (settled_end w ph sideReadable Hi (Hs _)), (fi_reader _ _ Hi). destruct Hc as [?|Hc]; [by left|right]. by apply spent_finished.
  - intros op Hop. pose proof (run_future_op_ok w op Hq Hop) as H1.
    destruct (run_future_op w op) as [[w' a]|e| |] eqn:E; [left|right; by exists e|done..]. exists w', a. split; [done|]. by eapply freach_step.
Qed.
End run.

(** ** A future of a byte between two guests and a host *)
Import Demo.

Fixpoint run_future {M B V} `{CopyBuffers M B V} (w : @future M B V) (ops : list (@future_run_op M V)) : outcome stream_error (@future M B V) :=
  match ops with [] => Ok w | op :: ops => let* '(w, _) := run_future_op w op in run_future w ops end.

Lemma run_future_reach {M B V} `{BufferLaws M B V} ops : ∀ (w w' : @future M B V), freach w → forallb courteous_op ops = true → run_future w ops = Ok w' → freach w'.
Proof.
  induction ops as [|op ops IH]; cbn; intros w w' Hw Hp; [by intros [= <-]|].
  apply andb_true_iff in Hp as [Hp1 Hp2]. destruct (run_future_op w op) as [[w1 a]|e| |] eqn:E; try done. apply IH; [|done]. by eapply freach_step.
Qed.

Definition future_demo : @future (mems unit) copyBuffer Value := futureNew machine true (λ _, guest_driver) 0.

(** The readable end moves to instance 1, which reads; instance 0 writes, and drops its end. *)
Definition future_script : list (@future_run_op (mems unit) Value) :=
  [FETake; FELower 1; FGCopy sideReadable true 8; FGCopy sideWritable true 3; FGDrop sideWritable].
Definition future_after (ops : list (@future_run_op (mems unit) Value)) : @future (mems unit) copyBuffer Value :=
  match run_future future_demo ops with Ok w => w | _ => future_demo end.

Lemma future_after_reach ops : forallb courteous_op ops = true → freach (future_after ops).
Proof.
  intros Hp. unfold future_after. destruct (run_future future_demo ops) as [w| | |] eqn:E; [|apply freach_guest..].
  by apply (run_future_reach ops future_demo w); [apply freach_guest| |].
Qed.

Lemma future_value_once_witness : let w := future_after future_script in
  passes w sideReadable = 1 ∧ fwritable w = FGone ∧ passes w sideReadable = passes w sideWritable ∧
  (∀ sd, passes w sd = 0 ∨ passes w sd = 1 ∧ spent w sd) ∧
  ∀ sd, fsum (fbegun sd) (flog w) = fsum (fended sd) (flog w) + Z.b2z (fbusy_end w sd).
Proof.
  cbv zeta. split; [vm_compute; reflexivity|]. split; [vm_compute; reflexivity|].
  apply (future_value_once (future_after future_script)). by apply future_after_reach.
Defined.

Lemma future_protocol_witness : let w := future_after future_script in
  flog w = [FBegun sideReadable; FBegun sideWritable; FTold sideWritable copyCompleted true] ∧ fdropped w = true ∧
  (∀ op, courteous_op op = true → (∃ w' a, run_future_op w op = Ok (w', a) ∧ freach w') ∨ ∃ e, run_future_op w op = Err e).
Proof.
  cbv zeta. split; [vm_compute; reflexivity|]. split; [vm_compute; reflexivity|].
  apply (future_protocol (future_after future_script)). by apply future_after_reach.
Defined.

(** A host that holds both ends, and reads again while it is told that it closed the
    readable one: [FutureReader.Close] marks the end as done only after it has dropped it, so [Get] goes
    through to the assertion of [sharedFuture.read]. *)
Theorem close_reaches_assertion :
  run_future (NewFuture machine true (λ _, mkDriver true false false false 0) 0) [FELift 0; FHDo (FSet (VU32 7) [FGet []]); FHDo (FClose sideReadable)] = Panic.
Proof. reflexivity. Qed.
