(* ===== verification/WasmOpcodes.v ===== *)
(** The opcodes of [internal/wasm/instruction.go], by the names and values they have
    there.  A vector opcode is the number its LEB128 encoding denotes, an opcode of another
    prefix is the byte after the prefix. *)
From Stdlib Require Import ZArith.
Local Open Scope Z_scope.

(** * Instructions *)

Definition OpcodeUnreachable : Z := 0x00.
Definition OpcodeNop : Z := 0x01.
Definition OpcodeBlock : Z := 0x02.
Definition OpcodeLoop : Z := 0x03.
Definition OpcodeIf : Z := 0x04.
Definition OpcodeElse : Z := 0x05.
Definition OpcodeThrow : Z := 0x08.
Definition OpcodeThrowRef : Z := 0x0a.
Definition OpcodeLegacyTry : Z := 0x06.
Definition OpcodeLegacyCatch : Z := 0x07.
Definition OpcodeLegacyRethrow : Z := 0x09.
Definition OpcodeEnd : Z := 0x0b.
Definition OpcodeBr : Z := 0x0c.
Definition OpcodeBrIf : Z := 0x0d.
Definition OpcodeBrTable : Z := 0x0e.
Definition OpcodeReturn : Z := 0x0f.
Definition OpcodeCall : Z := 0x10.
Definition OpcodeCallIndirect : Z := 0x11.
Definition OpcodeDrop : Z := 0x1a.
Definition OpcodeSelect : Z := 0x1b.
Definition OpcodeTypedSelect : Z := 0x1c.
Definition OpcodeLegacyDelegate : Z := 0x18.
Definition OpcodeLegacyCatchAll : Z := 0x19.
Definition OpcodeTryTable : Z := 0x1f.
Definition OpcodeLocalGet : Z := 0x20.
Definition OpcodeLocalSet : Z := 0x21.
Definition OpcodeLocalTee : Z := 0x22.
Definition OpcodeGlobalGet : Z := 0x23.
Definition OpcodeGlobalSet : Z := 0x24.
Definition OpcodeTableGet : Z := 0x25.
Definition OpcodeTableSet : Z := 0x26.
Definition OpcodeI32Load : Z := 0x28.
Definition OpcodeI64Load : Z := 0x29.
Definition OpcodeF32Load : Z := 0x2a.
Definition OpcodeF64Load : Z := 0x2b.
Definition OpcodeI32Load8S : Z := 0x2c.
Definition OpcodeI32Load8U : Z := 0x2d.
Definition OpcodeI32Load16S : Z := 0x2e.
Definition OpcodeI32Load16U : Z := 0x2f.
Definition OpcodeI64Load8S : Z := 0x30.
Definition OpcodeI64Load8U : Z := 0x31.
Definition OpcodeI64Load16S : Z := 0x32.
Definition OpcodeI64Load16U : Z := 0x33.
Definition OpcodeI64Load32S : Z := 0x34.
Definition OpcodeI64Load32U : Z := 0x35.
Definition OpcodeI32Store : Z := 0x36.
Definition OpcodeI64Store : Z := 0x37.
Definition OpcodeF32Store : Z := 0x38.
Definition OpcodeF64Store : Z := 0x39.
Definition OpcodeI32Store8 : Z := 0x3a.
Definition OpcodeI32Store16 : Z := 0x3b.
Definition OpcodeI64Store8 : Z := 0x3c.
Definition OpcodeI64Store16 : Z := 0x3d.
Definition OpcodeI64Store32 : Z := 0x3e.
Definition OpcodeMemorySize : Z := 0x3f.
Definition OpcodeMemoryGrow : Z := 0x40.
Definition OpcodeI32Const : Z := 0x41.
Definition OpcodeI64Const : Z := 0x42.
Definition OpcodeF32Const : Z := 0x43.
Definition OpcodeF64Const : Z := 0x44.
Definition OpcodeI32Eqz : Z := 0x45.
Definition OpcodeI32Eq : Z := 0x46.
Definition OpcodeI32Ne : Z := 0x47.
Definition OpcodeI32LtS : Z := 0x48.
Definition OpcodeI32LtU : Z := 0x49.
Definition OpcodeI32GtS : Z := 0x4a.
Definition OpcodeI32GtU : Z := 0x4b.
Definition OpcodeI32LeS : Z := 0x4c.
Definition OpcodeI32LeU : Z := 0x4d.
Definition OpcodeI32GeS : Z := 0x4e.
Definition OpcodeI32GeU : Z := 0x4f.
Definition OpcodeI64Eqz : Z := 0x50.
Definition OpcodeI64Eq : Z := 0x51.
Definition OpcodeI64Ne : Z := 0x52.
Definition OpcodeI64LtS : Z := 0x53.
Definition OpcodeI64LtU : Z := 0x54.
Definition OpcodeI64GtS : Z := 0x55.
Definition OpcodeI64GtU : Z := 0x56.
Definition OpcodeI64LeS : Z := 0x57.
Definition OpcodeI64LeU : Z := 0x58.
Definition OpcodeI64GeS : Z := 0x59.
Definition OpcodeI64GeU : Z := 0x5a.
Definition OpcodeF32Eq : Z := 0x5b.
Definition OpcodeF32Ne : Z := 0x5c.
Definition OpcodeF32Lt : Z := 0x5d.
Definition OpcodeF32Gt : Z := 0x5e.
Definition OpcodeF32Le : Z := 0x5f.
Definition OpcodeF32Ge : Z := 0x60.
Definition OpcodeF64Eq : Z := 0x61.
Definition OpcodeF64Ne : Z := 0x62.
Definition OpcodeF64Lt : Z := 0x63.
Definition OpcodeF64Gt : Z := 0x64.
Definition OpcodeF64Le : Z := 0x65.
Definition OpcodeF64Ge : Z := 0x66.
Definition OpcodeI32Clz : Z := 0x67.
Definition OpcodeI32Ctz : Z := 0x68.
Definition OpcodeI32Popcnt : Z := 0x69.
Definition OpcodeI32Add : Z := 0x6a.
Definition OpcodeI32Sub : Z := 0x6b.
Definition OpcodeI32Mul : Z := 0x6c.
Definition OpcodeI32DivS : Z := 0x6d.
Definition OpcodeI32DivU : Z := 0x6e.
Definition OpcodeI32RemS : Z := 0x6f.
Definition OpcodeI32RemU : Z := 0x70.
Definition OpcodeI32And : Z := 0x71.
Definition OpcodeI32Or : Z := 0x72.
Definition OpcodeI32Xor : Z := 0x73.
Definition OpcodeI32Shl : Z := 0x74.
Definition OpcodeI32ShrS : Z := 0x75.
Definition OpcodeI32ShrU : Z := 0x76.
Definition OpcodeI32Rotl : Z := 0x77.
Definition OpcodeI32Rotr : Z := 0x78.
Definition OpcodeI64Clz : Z := 0x79.
Definition OpcodeI64Ctz : Z := 0x7a.
Definition OpcodeI64Popcnt : Z := 0x7b.
Definition OpcodeI64Add : Z := 0x7c.
Definition OpcodeI64Sub : Z := 0x7d.
Definition OpcodeI64Mul : Z := 0x7e.
Definition OpcodeI64DivS : Z := 0x7f.
Definition OpcodeI64DivU : Z := 0x80.
Definition OpcodeI64RemS : Z := 0x81.
Definition OpcodeI64RemU : Z := 0x82.
Definition OpcodeI64And : Z := 0x83.
Definition OpcodeI64Or : Z := 0x84.
Definition OpcodeI64Xor : Z := 0x85.
Definition OpcodeI64Shl : Z := 0x86.
Definition OpcodeI64ShrS : Z := 0x87.
Definition OpcodeI64ShrU : Z := 0x88.
Definition OpcodeI64Rotl : Z := 0x89.
Definition OpcodeI64Rotr : Z := 0x8a.
Definition OpcodeF32Abs : Z := 0x8b.
Definition OpcodeF32Neg : Z := 0x8c.
Definition OpcodeF32Ceil : Z := 0x8d.
Definition OpcodeF32Floor : Z := 0x8e.
Definition OpcodeF32Trunc : Z := 0x8f.
Definition OpcodeF32Nearest : Z := 0x90.
Definition OpcodeF32Sqrt : Z := 0x91.
Definition OpcodeF32Add : Z := 0x92.
Definition OpcodeF32Sub : Z := 0x93.
Definition OpcodeF32Mul : Z := 0x94.
Definition OpcodeF32Div : Z := 0x95.
Definition OpcodeF32Min : Z := 0x96.
Definition OpcodeF32Max : Z := 0x97.
Definition OpcodeF32Copysign : Z := 0x98.
Definition OpcodeF64Abs : Z := 0x99.
Definition OpcodeF64Neg : Z := 0x9a.
Definition OpcodeF64Ceil : Z := 0x9b.
Definition OpcodeF64Floor : Z := 0x9c.
Definition OpcodeF64Trunc : Z := 0x9d.
Definition OpcodeF64Nearest : Z := 0x9e.
Definition OpcodeF64Sqrt : Z := 0x9f.
Definition OpcodeF64Add : Z := 0xa0.
Definition OpcodeF64Sub : Z := 0xa1.
Definition OpcodeF64Mul : Z := 0xa2.
Definition OpcodeF64Div : Z := 0xa3.
Definition OpcodeF64Min : Z := 0xa4.
Definition OpcodeF64Max : Z := 0xa5.
Definition OpcodeF64Copysign : Z := 0xa6.
Definition OpcodeI32WrapI64 : Z := 0xa7.
Definition OpcodeI32TruncF32S : Z := 0xa8.
Definition OpcodeI32TruncF32U : Z := 0xa9.
Definition OpcodeI32TruncF64S : Z := 0xaa.
Definition OpcodeI32TruncF64U : Z := 0xab.
Definition OpcodeI64ExtendI32S : Z := 0xac.
Definition OpcodeI64ExtendI32U : Z := 0xad.
Definition OpcodeI64TruncF32S : Z := 0xae.
Definition OpcodeI64TruncF32U : Z := 0xaf.
Definition OpcodeI64TruncF64S : Z := 0xb0.
Definition OpcodeI64TruncF64U : Z := 0xb1.
Definition OpcodeF32ConvertI32S : Z := 0xb2.
Definition OpcodeF32ConvertI32U : Z := 0xb3.
Definition OpcodeF32ConvertI64S : Z := 0xb4.
Definition OpcodeF32ConvertI64U : Z := 0xb5.
Definition OpcodeF32DemoteF64 : Z := 0xb6.
Definition OpcodeF64ConvertI32S : Z := 0xb7.
Definition OpcodeF64ConvertI32U : Z := 0xb8.
Definition OpcodeF64ConvertI64S : Z := 0xb9.
Definition OpcodeF64ConvertI64U : Z := 0xba.
Definition OpcodeF64PromoteF32 : Z := 0xbb.
Definition OpcodeI32ReinterpretF32 : Z := 0xbc.
Definition OpcodeI64ReinterpretF64 : Z := 0xbd.
Definition OpcodeF32ReinterpretI32 : Z := 0xbe.
Definition OpcodeF64ReinterpretI64 : Z := 0xbf.
Definition OpcodeRefNull : Z := 0xd0.
Definition OpcodeRefIsNull : Z := 0xd1.
Definition OpcodeRefFunc : Z := 0xd2.
Definition OpcodeRefAsNonNull : Z := 0xd4.
Definition OpcodeBrOnNull : Z := 0xd5.
Definition OpcodeBrOnNonNull : Z := 0xd6.
Definition OpcodeI32Extend8S : Z := 0xc0.
Definition OpcodeI32Extend16S : Z := 0xc1.
Definition OpcodeI64Extend8S : Z := 0xc2.
Definition OpcodeI64Extend16S : Z := 0xc3.
Definition OpcodeI64Extend32S : Z := 0xc4.
Definition OpcodeRefEq : Z := 0xd3.
Definition OpcodeMiscPrefix : Z := 0xfc.
Definition OpcodeVecPrefix : Z := 0xfd.
Definition OpcodeAtomicPrefix : Z := 0xfe.
Definition OpcodeGCPrefix : Z := 0xfb.

(** * Garbage collection *)

Definition OpcodeGCStructNew : Z := 0.
Definition OpcodeGCStructNewDefault : Z := 1.
Definition OpcodeGCStructGet : Z := 2.
Definition OpcodeGCStructGetS : Z := 3.
Definition OpcodeGCStructGetU : Z := 4.
Definition OpcodeGCStructSet : Z := 5.
Definition OpcodeGCArrayNew : Z := 6.
Definition OpcodeGCArrayNewDefault : Z := 7.
Definition OpcodeGCArrayNewFixed : Z := 8.
Definition OpcodeGCArrayNewData : Z := 9.
Definition OpcodeGCArrayNewElem : Z := 10.
Definition OpcodeGCArrayGet : Z := 11.
Definition OpcodeGCArrayGetS : Z := 12.
Definition OpcodeGCArrayGetU : Z := 13.
Definition OpcodeGCArraySet : Z := 14.
Definition OpcodeGCArrayLen : Z := 15.
Definition OpcodeGCArrayFill : Z := 16.
Definition OpcodeGCArrayCopy : Z := 17.
Definition OpcodeGCArrayInitData : Z := 18.
Definition OpcodeGCArrayInitElem : Z := 19.
Definition OpcodeGCRefTest : Z := 20.
Definition OpcodeGCRefTestNull : Z := 21.
Definition OpcodeGCRefCast : Z := 22.
Definition OpcodeGCRefCastNull : Z := 23.
Definition OpcodeGCBrOnCast : Z := 24.
Definition OpcodeGCBrOnCastFail : Z := 25.
Definition OpcodeGCAnyConvertExtern : Z := 26.
Definition OpcodeGCExternConvertAny : Z := 27.
Definition OpcodeGCRefI31 : Z := 28.
Definition OpcodeGCI31GetS : Z := 29.
Definition OpcodeGCI31GetU : Z := 30.

(** * Miscellaneous instructions *)

Definition OpcodeMiscI32TruncSatF32S : Z := 0x00.
Definition OpcodeMiscI32TruncSatF32U : Z := 0x01.
Definition OpcodeMiscI32TruncSatF64S : Z := 0x02.
Definition OpcodeMiscI32TruncSatF64U : Z := 0x03.
Definition OpcodeMiscI64TruncSatF32S : Z := 0x04.
Definition OpcodeMiscI64TruncSatF32U : Z := 0x05.
Definition OpcodeMiscI64TruncSatF64S : Z := 0x06.
Definition OpcodeMiscI64TruncSatF64U : Z := 0x07.
Definition OpcodeMiscMemoryInit : Z := 0x08.
Definition OpcodeMiscDataDrop : Z := 0x09.
Definition OpcodeMiscMemoryCopy : Z := 0x0a.
Definition OpcodeMiscMemoryFill : Z := 0x0b.
Definition OpcodeMiscTableInit : Z := 0x0c.
Definition OpcodeMiscElemDrop : Z := 0x0d.
Definition OpcodeMiscTableCopy : Z := 0x0e.
Definition OpcodeMiscTableGrow : Z := 0x0f.
Definition OpcodeMiscTableSize : Z := 0x10.
Definition OpcodeMiscTableFill : Z := 0x11.

(** * Vector instructions *)

Definition OpcodeVecV128Load : Z := 0x00.
Definition OpcodeVecV128Load8x8s : Z := 0x01.
Definition OpcodeVecV128Load8x8u : Z := 0x02.
Definition OpcodeVecV128Load16x4s : Z := 0x03.
Definition OpcodeVecV128Load16x4u : Z := 0x04.
Definition OpcodeVecV128Load32x2s : Z := 0x05.
Definition OpcodeVecV128Load32x2u : Z := 0x06.
Definition OpcodeVecV128Load8Splat : Z := 0x07.
Definition OpcodeVecV128Load16Splat : Z := 0x08.
Definition OpcodeVecV128Load32Splat : Z := 0x09.
Definition OpcodeVecV128Load64Splat : Z := 0x0a.
Definition OpcodeVecV128Load32zero : Z := 0x5c.
Definition OpcodeVecV128Load64zero : Z := 0x5d.
Definition OpcodeVecV128Store : Z := 0x0b.
Definition OpcodeVecV128Load8Lane : Z := 0x54.
Definition OpcodeVecV128Load16Lane : Z := 0x55.
Definition OpcodeVecV128Load32Lane : Z := 0x56.
Definition OpcodeVecV128Load64Lane : Z := 0x57.
Definition OpcodeVecV128Store8Lane : Z := 0x58.
Definition OpcodeVecV128Store16Lane : Z := 0x59.
Definition OpcodeVecV128Store32Lane : Z := 0x5a.
Definition OpcodeVecV128Store64Lane : Z := 0x5b.
Definition OpcodeVecV128Const : Z := 0x0c.
Definition OpcodeVecV128i8x16Shuffle : Z := 0x0d.
Definition OpcodeVecI8x16ExtractLaneS : Z := 0x15.
Definition OpcodeVecI8x16ExtractLaneU : Z := 0x16.
Definition OpcodeVecI8x16ReplaceLane : Z := 0x17.
Definition OpcodeVecI16x8ExtractLaneS : Z := 0x18.
Definition OpcodeVecI16x8ExtractLaneU : Z := 0x19.
Definition OpcodeVecI16x8ReplaceLane : Z := 0x1a.
Definition OpcodeVecI32x4ExtractLane : Z := 0x1b.
Definition OpcodeVecI32x4ReplaceLane : Z := 0x1c.
Definition OpcodeVecI64x2ExtractLane : Z := 0x1d.
Definition OpcodeVecI64x2ReplaceLane : Z := 0x1e.
Definition OpcodeVecF32x4ExtractLane : Z := 0x1f.
Definition OpcodeVecF32x4ReplaceLane : Z := 0x20.
Definition OpcodeVecF64x2ExtractLane : Z := 0x21.
Definition OpcodeVecF64x2ReplaceLane : Z := 0x22.
Definition OpcodeVecI8x16Swizzle : Z := 0x0e.
Definition OpcodeVecI8x16Splat : Z := 0x0f.
Definition OpcodeVecI16x8Splat : Z := 0x10.
Definition OpcodeVecI32x4Splat : Z := 0x11.
Definition OpcodeVecI64x2Splat : Z := 0x12.
Definition OpcodeVecF32x4Splat : Z := 0x13.
Definition OpcodeVecF64x2Splat : Z := 0x14.
Definition OpcodeVecI8x16Eq : Z := 0x23.
Definition OpcodeVecI8x16Ne : Z := 0x24.
Definition OpcodeVecI8x16LtS : Z := 0x25.
Definition OpcodeVecI8x16LtU : Z := 0x26.
Definition OpcodeVecI8x16GtS : Z := 0x27.
Definition OpcodeVecI8x16GtU : Z := 0x28.
Definition OpcodeVecI8x16LeS : Z := 0x29.
Definition OpcodeVecI8x16LeU : Z := 0x2a.
Definition OpcodeVecI8x16GeS : Z := 0x2b.
Definition OpcodeVecI8x16GeU : Z := 0x2c.
Definition OpcodeVecI16x8Eq : Z := 0x2d.
Definition OpcodeVecI16x8Ne : Z := 0x2e.
Definition OpcodeVecI16x8LtS : Z := 0x2f.
Definition OpcodeVecI16x8LtU : Z := 0x30.
Definition OpcodeVecI16x8GtS : Z := 0x31.
Definition OpcodeVecI16x8GtU : Z := 0x32.
Definition OpcodeVecI16x8LeS : Z := 0x33.
Definition OpcodeVecI16x8LeU : Z := 0x34.
Definition OpcodeVecI16x8GeS : Z := 0x35.
Definition OpcodeVecI16x8GeU : Z := 0x36.
Definition OpcodeVecI32x4Eq : Z := 0x37.
Definition OpcodeVecI32x4Ne : Z := 0x38.
Definition OpcodeVecI32x4LtS : Z := 0x39.
Definition OpcodeVecI32x4LtU : Z := 0x3a.
Definition OpcodeVecI32x4GtS : Z := 0x3b.
Definition OpcodeVecI32x4GtU : Z := 0x3c.
Definition OpcodeVecI32x4LeS : Z := 0x3d.
Definition OpcodeVecI32x4LeU : Z := 0x3e.
Definition OpcodeVecI32x4GeS : Z := 0x3f.
Definition OpcodeVecI32x4GeU : Z := 0x40.
Definition OpcodeVecI64x2Eq : Z := 0xd6.
Definition OpcodeVecI64x2Ne : Z := 0xd7.
Definition OpcodeVecI64x2LtS : Z := 0xd8.
Definition OpcodeVecI64x2GtS : Z := 0xd9.
Definition OpcodeVecI64x2LeS : Z := 0xda.
Definition OpcodeVecI64x2GeS : Z := 0xdb.
Definition OpcodeVecF32x4Eq : Z := 0x41.
Definition OpcodeVecF32x4Ne : Z := 0x42.
Definition OpcodeVecF32x4Lt : Z := 0x43.
Definition OpcodeVecF32x4Gt : Z := 0x44.
Definition OpcodeVecF32x4Le : Z := 0x45.
Definition OpcodeVecF32x4Ge : Z := 0x46.
Definition OpcodeVecF64x2Eq : Z := 0x47.
Definition OpcodeVecF64x2Ne : Z := 0x48.
Definition OpcodeVecF64x2Lt : Z := 0x49.
Definition OpcodeVecF64x2Gt : Z := 0x4a.
Definition OpcodeVecF64x2Le : Z := 0x4b.
Definition OpcodeVecF64x2Ge : Z := 0x4c.
Definition OpcodeVecV128Not : Z := 0x4d.
Definition OpcodeVecV128And : Z := 0x4e.
Definition OpcodeVecV128AndNot : Z := 0x4f.
Definition OpcodeVecV128Or : Z := 0x50.
Definition OpcodeVecV128Xor : Z := 0x51.
Definition OpcodeVecV128Bitselect : Z := 0x52.
Definition OpcodeVecV128AnyTrue : Z := 0x53.
Definition OpcodeVecI8x16Abs : Z := 0x60.
Definition OpcodeVecI8x16Neg : Z := 0x61.
Definition OpcodeVecI8x16Popcnt : Z := 0x62.
Definition OpcodeVecI8x16AllTrue : Z := 0x63.
Definition OpcodeVecI8x16BitMask : Z := 0x64.
Definition OpcodeVecI8x16NarrowI16x8S : Z := 0x65.
Definition OpcodeVecI8x16NarrowI16x8U : Z := 0x66.
Definition OpcodeVecI8x16Shl : Z := 0x6b.
Definition OpcodeVecI8x16ShrS : Z := 0x6c.
Definition OpcodeVecI8x16ShrU : Z := 0x6d.
Definition OpcodeVecI8x16Add : Z := 0x6e.
Definition OpcodeVecI8x16AddSatS : Z := 0x6f.
Definition OpcodeVecI8x16AddSatU : Z := 0x70.
Definition OpcodeVecI8x16Sub : Z := 0x71.
Definition OpcodeVecI8x16SubSatS : Z := 0x72.
Definition OpcodeVecI8x16SubSatU : Z := 0x73.
Definition OpcodeVecI8x16MinS : Z := 0x76.
Definition OpcodeVecI8x16MinU : Z := 0x77.
Definition OpcodeVecI8x16MaxS : Z := 0x78.
Definition OpcodeVecI8x16MaxU : Z := 0x79.
Definition OpcodeVecI8x16AvgrU : Z := 0x7b.
Definition OpcodeVecI16x8ExtaddPairwiseI8x16S : Z := 0x7c.
Definition OpcodeVecI16x8ExtaddPairwiseI8x16U : Z := 0x7d.
Definition OpcodeVecI16x8Abs : Z := 0x80.
Definition OpcodeVecI16x8Neg : Z := 0x81.
Definition OpcodeVecI16x8Q15mulrSatS : Z := 0x82.
Definition OpcodeVecI16x8AllTrue : Z := 0x83.
Definition OpcodeVecI16x8BitMask : Z := 0x84.
Definition OpcodeVecI16x8NarrowI32x4S : Z := 0x85.
Definition OpcodeVecI16x8NarrowI32x4U : Z := 0x86.
Definition OpcodeVecI16x8ExtendLowI8x16S : Z := 0x87.
Definition OpcodeVecI16x8ExtendHighI8x16S : Z := 0x88.
Definition OpcodeVecI16x8ExtendLowI8x16U : Z := 0x89.
Definition OpcodeVecI16x8ExtendHighI8x16U : Z := 0x8a.
Definition OpcodeVecI16x8Shl : Z := 0x8b.
Definition OpcodeVecI16x8ShrS : Z := 0x8c.
Definition OpcodeVecI16x8ShrU : Z := 0x8d.
Definition OpcodeVecI16x8Add : Z := 0x8e.
Definition OpcodeVecI16x8AddSatS : Z := 0x8f.
Definition OpcodeVecI16x8AddSatU : Z := 0x90.
Definition OpcodeVecI16x8Sub : Z := 0x91.
Definition OpcodeVecI16x8SubSatS : Z := 0x92.
Definition OpcodeVecI16x8SubSatU : Z := 0x93.
Definition OpcodeVecI16x8Mul : Z := 0x95.
Definition OpcodeVecI16x8MinS : Z := 0x96.
Definition OpcodeVecI16x8MinU : Z := 0x97.
Definition OpcodeVecI16x8MaxS : Z := 0x98.
Definition OpcodeVecI16x8MaxU : Z := 0x99.
Definition OpcodeVecI16x8AvgrU : Z := 0x9b.
Definition OpcodeVecI16x8ExtMulLowI8x16S : Z := 0x9c.
Definition OpcodeVecI16x8ExtMulHighI8x16S : Z := 0x9d.
Definition OpcodeVecI16x8ExtMulLowI8x16U : Z := 0x9e.
Definition OpcodeVecI16x8ExtMulHighI8x16U : Z := 0x9f.
Definition OpcodeVecI32x4ExtaddPairwiseI16x8S : Z := 0x7e.
Definition OpcodeVecI32x4ExtaddPairwiseI16x8U : Z := 0x7f.
Definition OpcodeVecI32x4Abs : Z := 0xa0.
Definition OpcodeVecI32x4Neg : Z := 0xa1.
Definition OpcodeVecI32x4AllTrue : Z := 0xa3.
Definition OpcodeVecI32x4BitMask : Z := 0xa4.
Definition OpcodeVecI32x4ExtendLowI16x8S : Z := 0xa7.
Definition OpcodeVecI32x4ExtendHighI16x8S : Z := 0xa8.
Definition OpcodeVecI32x4ExtendLowI16x8U : Z := 0xa9.
Definition OpcodeVecI32x4ExtendHighI16x8U : Z := 0xaa.
Definition OpcodeVecI32x4Shl : Z := 0xab.
Definition OpcodeVecI32x4ShrS : Z := 0xac.
Definition OpcodeVecI32x4ShrU : Z := 0xad.
Definition OpcodeVecI32x4Add : Z := 0xae.
Definition OpcodeVecI32x4Sub : Z := 0xb1.
Definition OpcodeVecI32x4Mul : Z := 0xb5.
Definition OpcodeVecI32x4MinS : Z := 0xb6.
Definition OpcodeVecI32x4MinU : Z := 0xb7.
Definition OpcodeVecI32x4MaxS : Z := 0xb8.
Definition OpcodeVecI32x4MaxU : Z := 0xb9.
Definition OpcodeVecI32x4DotI16x8S : Z := 0xba.
Definition OpcodeVecI32x4ExtMulLowI16x8S : Z := 0xbc.
Definition OpcodeVecI32x4ExtMulHighI16x8S : Z := 0xbd.
Definition OpcodeVecI32x4ExtMulLowI16x8U : Z := 0xbe.
Definition OpcodeVecI32x4ExtMulHighI16x8U : Z := 0xbf.
Definition OpcodeVecI64x2Abs : Z := 0xc0.
Definition OpcodeVecI64x2Neg : Z := 0xc1.
Definition OpcodeVecI64x2AllTrue : Z := 0xc3.
Definition OpcodeVecI64x2BitMask : Z := 0xc4.
Definition OpcodeVecI64x2ExtendLowI32x4S : Z := 0xc7.
Definition OpcodeVecI64x2ExtendHighI32x4S : Z := 0xc8.
Definition OpcodeVecI64x2ExtendLowI32x4U : Z := 0xc9.
Definition OpcodeVecI64x2ExtendHighI32x4U : Z := 0xca.
Definition OpcodeVecI64x2Shl : Z := 0xcb.
Definition OpcodeVecI64x2ShrS : Z := 0xcc.
Definition OpcodeVecI64x2ShrU : Z := 0xcd.
Definition OpcodeVecI64x2Add : Z := 0xce.
Definition OpcodeVecI64x2Sub : Z := 0xd1.
Definition OpcodeVecI64x2Mul : Z := 0xd5.
Definition OpcodeVecI64x2ExtMulLowI32x4S : Z := 0xdc.
Definition OpcodeVecI64x2ExtMulHighI32x4S : Z := 0xdd.
Definition OpcodeVecI64x2ExtMulLowI32x4U : Z := 0xde.
Definition OpcodeVecI64x2ExtMulHighI32x4U : Z := 0xdf.
Definition OpcodeVecF32x4Ceil : Z := 0x67.
Definition OpcodeVecF32x4Floor : Z := 0x68.
Definition OpcodeVecF32x4Trunc : Z := 0x69.
Definition OpcodeVecF32x4Nearest : Z := 0x6a.
Definition OpcodeVecF32x4Abs : Z := 0xe0.
Definition OpcodeVecF32x4Neg : Z := 0xe1.
Definition OpcodeVecF32x4Sqrt : Z := 0xe3.
Definition OpcodeVecF32x4Add : Z := 0xe4.
Definition OpcodeVecF32x4Sub : Z := 0xe5.
Definition OpcodeVecF32x4Mul : Z := 0xe6.
Definition OpcodeVecF32x4Div : Z := 0xe7.
Definition OpcodeVecF32x4Min : Z := 0xe8.
Definition OpcodeVecF32x4Max : Z := 0xe9.
Definition OpcodeVecF32x4Pmin : Z := 0xea.
Definition OpcodeVecF32x4Pmax : Z := 0xeb.
Definition OpcodeVecF64x2Ceil : Z := 0x74.
Definition OpcodeVecF64x2Floor : Z := 0x75.
Definition OpcodeVecF64x2Trunc : Z := 0x7a.
Definition OpcodeVecF64x2Nearest : Z := 0x94.
Definition OpcodeVecF64x2Abs : Z := 0xec.
Definition OpcodeVecF64x2Neg : Z := 0xed.
Definition OpcodeVecF64x2Sqrt : Z := 0xef.
Definition OpcodeVecF64x2Add : Z := 0xf0.
Definition OpcodeVecF64x2Sub : Z := 0xf1.
Definition OpcodeVecF64x2Mul : Z := 0xf2.
Definition OpcodeVecF64x2Div : Z := 0xf3.
Definition OpcodeVecF64x2Min : Z := 0xf4.
Definition OpcodeVecF64x2Max : Z := 0xf5.
Definition OpcodeVecF64x2Pmin : Z := 0xf6.
Definition OpcodeVecF64x2Pmax : Z := 0xf7.
Definition OpcodeVecI32x4TruncSatF32x4S : Z := 0xf8.
Definition OpcodeVecI32x4TruncSatF32x4U : Z := 0xf9.
Definition OpcodeVecF32x4ConvertI32x4S : Z := 0xfa.
Definition OpcodeVecF32x4ConvertI32x4U : Z := 0xfb.
Definition OpcodeVecI32x4TruncSatF64x2SZero : Z := 0xfc.
Definition OpcodeVecI32x4TruncSatF64x2UZero : Z := 0xfd.
Definition OpcodeVecF64x2ConvertLowI32x4S : Z := 0xfe.
Definition OpcodeVecF64x2ConvertLowI32x4U : Z := 0xff.
Definition OpcodeVecF32x4DemoteF64x2Zero : Z := 0x5e.
Definition OpcodeVecF64x2PromoteLowF32x4Zero : Z := 0x5f.
Definition OpcodeVecI8x16RelaxedSwizzle : Z := 0x100.
Definition OpcodeVecI32x4RelaxedTruncF32x4S : Z := 0x101.
Definition OpcodeVecI32x4RelaxedTruncF32x4U : Z := 0x102.
Definition OpcodeVecI32x4RelaxedTruncF64x2SZero : Z := 0x103.
Definition OpcodeVecI32x4RelaxedTruncF64x2UZero : Z := 0x104.
Definition OpcodeVecF32x4RelaxedMadd : Z := 0x105.
Definition OpcodeVecF32x4RelaxedNmadd : Z := 0x106.
Definition OpcodeVecF64x2RelaxedMadd : Z := 0x107.
Definition OpcodeVecF64x2RelaxedNmadd : Z := 0x108.
Definition OpcodeVecI8x16RelaxedLaneselect : Z := 0x109.
Definition OpcodeVecI16x8RelaxedLaneselect : Z := 0x10a.
Definition OpcodeVecI32x4RelaxedLaneselect : Z := 0x10b.
Definition OpcodeVecI64x2RelaxedLaneselect : Z := 0x10c.
Definition OpcodeVecF32x4RelaxedMin : Z := 0x10d.
Definition OpcodeVecF32x4RelaxedMax : Z := 0x10e.
Definition OpcodeVecF64x2RelaxedMin : Z := 0x10f.
Definition OpcodeVecF64x2RelaxedMax : Z := 0x110.
Definition OpcodeVecI16x8RelaxedQ15mulrS : Z := 0x111.
Definition OpcodeVecI16x8RelaxedDotI8x16I7x16S : Z := 0x112.
Definition OpcodeVecI32x4RelaxedDotI8x16I7x16AddS : Z := 0x113.

(** * Atomic instructions *)

Definition OpcodeAtomicMemoryNotify : Z := 0x00.
Definition OpcodeAtomicMemoryWait32 : Z := 0x01.
Definition OpcodeAtomicMemoryWait64 : Z := 0x02.
Definition OpcodeAtomicFence : Z := 0x03.
Definition OpcodeAtomicI32Load : Z := 0x10.
Definition OpcodeAtomicI64Load : Z := 0x11.
Definition OpcodeAtomicI32Load8U : Z := 0x12.
Definition OpcodeAtomicI32Load16U : Z := 0x13.
Definition OpcodeAtomicI64Load8U : Z := 0x14.
Definition OpcodeAtomicI64Load16U : Z := 0x15.
Definition OpcodeAtomicI64Load32U : Z := 0x16.
Definition OpcodeAtomicI32Store : Z := 0x17.
Definition OpcodeAtomicI64Store : Z := 0x18.
Definition OpcodeAtomicI32Store8 : Z := 0x19.
Definition OpcodeAtomicI32Store16 : Z := 0x1a.
Definition OpcodeAtomicI64Store8 : Z := 0x1b.
Definition OpcodeAtomicI64Store16 : Z := 0x1c.
Definition OpcodeAtomicI64Store32 : Z := 0x1d.
Definition OpcodeAtomicI32RmwAdd : Z := 0x1e.
Definition OpcodeAtomicI64RmwAdd : Z := 0x1f.
Definition OpcodeAtomicI32Rmw8AddU : Z := 0x20.
Definition OpcodeAtomicI32Rmw16AddU : Z := 0x21.
Definition OpcodeAtomicI64Rmw8AddU : Z := 0x22.
Definition OpcodeAtomicI64Rmw16AddU : Z := 0x23.
Definition OpcodeAtomicI64Rmw32AddU : Z := 0x24.
Definition OpcodeAtomicI32RmwSub : Z := 0x25.
Definition OpcodeAtomicI64RmwSub : Z := 0x26.
Definition OpcodeAtomicI32Rmw8SubU : Z := 0x27.
Definition OpcodeAtomicI32Rmw16SubU : Z := 0x28.
Definition OpcodeAtomicI64Rmw8SubU : Z := 0x29.
Definition OpcodeAtomicI64Rmw16SubU : Z := 0x2a.
Definition OpcodeAtomicI64Rmw32SubU : Z := 0x2b.
Definition OpcodeAtomicI32RmwAnd : Z := 0x2c.
Definition OpcodeAtomicI64RmwAnd : Z := 0x2d.
Definition OpcodeAtomicI32Rmw8AndU : Z := 0x2e.
Definition OpcodeAtomicI32Rmw16AndU : Z := 0x2f.
Definition OpcodeAtomicI64Rmw8AndU : Z := 0x30.
Definition OpcodeAtomicI64Rmw16AndU : Z := 0x31.
Definition OpcodeAtomicI64Rmw32AndU : Z := 0x32.
Definition OpcodeAtomicI32RmwOr : Z := 0x33.
Definition OpcodeAtomicI64RmwOr : Z := 0x34.
Definition OpcodeAtomicI32Rmw8OrU : Z := 0x35.
Definition OpcodeAtomicI32Rmw16OrU : Z := 0x36.
Definition OpcodeAtomicI64Rmw8OrU : Z := 0x37.
Definition OpcodeAtomicI64Rmw16OrU : Z := 0x38.
Definition OpcodeAtomicI64Rmw32OrU : Z := 0x39.
Definition OpcodeAtomicI32RmwXor : Z := 0x3a.
Definition OpcodeAtomicI64RmwXor : Z := 0x3b.
Definition OpcodeAtomicI32Rmw8XorU : Z := 0x3c.
Definition OpcodeAtomicI32Rmw16XorU : Z := 0x3d.
Definition OpcodeAtomicI64Rmw8XorU : Z := 0x3e.
Definition OpcodeAtomicI64Rmw16XorU : Z := 0x3f.
Definition OpcodeAtomicI64Rmw32XorU : Z := 0x40.
Definition OpcodeAtomicI32RmwXchg : Z := 0x41.
Definition OpcodeAtomicI64RmwXchg : Z := 0x42.
Definition OpcodeAtomicI32Rmw8XchgU : Z := 0x43.
Definition OpcodeAtomicI32Rmw16XchgU : Z := 0x44.
Definition OpcodeAtomicI64Rmw8XchgU : Z := 0x45.
Definition OpcodeAtomicI64Rmw16XchgU : Z := 0x46.
Definition OpcodeAtomicI64Rmw32XchgU : Z := 0x47.
Definition OpcodeAtomicI32RmwCmpxchg : Z := 0x48.
Definition OpcodeAtomicI64RmwCmpxchg : Z := 0x49.
Definition OpcodeAtomicI32Rmw8CmpxchgU : Z := 0x4a.
Definition OpcodeAtomicI32Rmw16CmpxchgU : Z := 0x4b.
Definition OpcodeAtomicI64Rmw8CmpxchgU : Z := 0x4c.
Definition OpcodeAtomicI64Rmw16CmpxchgU : Z := 0x4d.
Definition OpcodeAtomicI64Rmw32CmpxchgU : Z := 0x4e.

(** * Tail calls and calls through references *)

Definition OpcodeTailCallReturnCall : Z := 0x12.
Definition OpcodeTailCallReturnCallIndirect : Z := 0x13.
Definition OpcodeCallRef : Z := 0x14.
Definition OpcodeReturnCallRef : Z := 0x15.

(** * Catch clauses *)

Definition CatchKindCatch : Z := 0x00.
Definition CatchKindCatchRef : Z := 0x01.
Definition CatchKindCatchAll : Z := 0x02.
Definition CatchKindCatchAllRef : Z := 0x03.
