(* ===== verification/WasmValidStack.v ===== *)
(** The state of the validation of a function body ([internal/wasm/func_validation.go]):
    the stack of operand types, the control blocks, the locals that are initialised, and
    the immediates instructions share. *)
From Stdlib Require Import ZArith Lia.
From stdpp Require Import base list numbers option tactics gmap sets.
From S2P Require Import Prelude Leb128 GcHeap GcCollect GcOps GcTypes GcTypeDecode WasmOpcodes.
Local Open Scope Z_scope.
Local Open Scope go_scope.

(** * Features *)

Definition CoreFeatureBulkMemoryOperations : Z := Z.shiftl 1 0.
Definition CoreFeatureNonTrappingFloatToIntConversion : Z := Z.shiftl 1 3.
Definition CoreFeatureReferenceTypes : Z := Z.shiftl 1 4.
Definition CoreFeatureSignExtensionOps : Z := Z.shiftl 1 5.
Definition CoreFeaturesThreads : Z := Z.shiftl CoreFeatureSIMD 1.
Definition CoreFeatureTailCall : Z := Z.shiftl CoreFeatureSIMD 2.
Definition CoreFeatureExceptionHandling : Z := Z.shiftl CoreFeatureSIMD 4.
Definition CoreFeatureTypedFunctionReferences : Z := Z.shiftl CoreFeatureSIMD 5.
Definition CoreFeatureRelaxedSIMD : Z := Z.shiftl CoreFeatureSIMD 6.
Definition CoreFeatureMultiMemory : Z := Z.shiftl CoreFeatureSIMD 7.
Definition CoreFeatureMemory64 : Z := Z.shiftl CoreFeatureSIMD 8.

(** * Errors *)

(** What the errors say, without their texts. *)
Inductive verr : Type :=
| VDec (e : dec_error)                 (* an immediate does not decode, or a feature is off *)
| VMissing (limit : nat)               (* an operand is missing *)
| VMismatch (have want : Z)
| VCount (want : list Z)               (* too few or too many values for a list of types *)
| VNoMemory | VAlignment (align : Z) | VOffset (offset : Z)
| VIndex (i : Z)                       (* an index that names nothing *)
| VReserved (i : Z)                    (* an immediate that has to be zero, or one *)
| VNotReference (t : Z) | VReference   (* a reference is needed, or not allowed *)
| VUninitialized (i : Z) | VImmutable (i : Z) | VUndeclared (i : Z)
| VNoDataCount | VKind (i : Z) | VPacked (op : Z) | VNoDefault (i : Z)
| VHierarchy (a b : Z) | VLabel (i : Z) | VElse (pc : Z) | VEnd (pc : Z) | VIllNested
| VInvalid (op : Z) | VTooManyValues (n : nat).

Abbreviation vres := (outcome verr).

Definition lift {A} (m : dres A) : vres A :=
  match m with Ok a => Ok a | Err e => Err (VDec e) | Panic => Panic | NoFuel => NoFuel end.

(** An immediate of the body: its value and the position after it. *)
Definition imm (dec : list Z → leb_result) (body : list Z) (pc : Z) : vres (Z * Z) := lift (load dec body pc).

(** A decoder that reads from a reader, without what is left to read. *)
Definition reader (dec : list Z → leb_result * list Z) (r : list Z) : leb_result := (dec r).1.

(** [body[pc]] *)
Definition byte_at (body : list Z) (pc : Z) : vres Z :=
  if pc <? 0 then Panic else match body !! Z.to_nat pc with Some b => Ok b | None => Panic end.

Definition require (f feature : Z) : vres unit := lift (RequireEnabled f feature).

(** [a[i]] for an index that was checked or is known to be valid. *)
Definition nth_or_panic {A} (l : list A) (i : Z) : vres A :=
  if i <? 0 then Panic else match l !! Z.to_nat i with Some a => Ok a | None => Panic end.

(** * What a body refers to *)

(** The module around a function: the arguments of [validateFunctionWithMaxStackValues]
    and the fields of [Module] it reads. *)
Record env := mkEnv {
  types : list TypeDef;              (* TypeSection *)
  functions : list Z;                (* type indices *)
  globals : list (Z * bool);         (* ValType, Mutable *)
  memories : list bool;              (* IsMemory64 *)
  tables : list (Z * bool);          (* Type, IsTable64 *)
  tags : list Z;                     (* type indices *)
  declaredFunctionIndexes : list Z;
  DataCountSection : option Z;
  DataSection : Z;                   (* how many segments *)
  ElementSection : list Z;           (* their types *)
  enabledFeatures : Z;
  functionType : TypeDef;
  localTypes : list Z;
}.

Definition memory_index_type (is64 : bool) : Z := if is64 then ValueTypeI64 else ValueTypeI32.
Definition table_index_type (is64 : bool) : Z := if is64 then ValueTypeI64 else ValueTypeI32.

(** * The stack of types *)

Definition valueTypeUnknown : Z := 0xFF.

(** The types, their top first, and the limits of the open blocks, the innermost first:
    how many of the types belong to the blocks around it. *)
Record valueTypeStack := mkVS { stack : list Z; stackLimits : list nat; maximumStackPointer : nat }.

Definition set_stack (s : valueTypeStack) (l : list Z) : valueTypeStack := mkVS l (stackLimits s) (maximumStackPointer s).

Definition stack_limit (s : valueTypeStack) : nat := match stackLimits s with l :: _ => l | [] => 0%nat end.

(** At one type above the limit, [s.stack[limit]] is the top. *)
Definition tryPop (s : valueTypeStack) : option (Z * valueTypeStack) :=
  match stack s with
  | [] => None
  | v :: rest =>
      if (length (stack s) <=? stack_limit s)%nat then None
      else if (length (stack s) =? stack_limit s + 1)%nat && (v =? valueTypeUnknown) then Some (valueTypeUnknown, s)
      else Some (v, set_stack s rest)
  end.

Definition pop (s : valueTypeStack) : vres (Z * valueTypeStack) :=
  match tryPop s with Some r => Ok r | None => Err (VMissing (stack_limit s)) end.

Definition isRefSubtypeOf (types : list TypeDef) (actual expected : Z) : bool := valueTypeMatches types actual expected.
Definition areRefTypesCompatible (types : list TypeDef) (a b : Z) : bool := isRefSubtypeOf types a b || isRefSubtypeOf types b a.

Definition popAndVerifyType (types : list TypeDef) (expected : Z) (s : valueTypeStack) : vres valueTypeStack :=
  match tryPop s with
  | None => Err (VMissing (stack_limit s))
  | Some (have, s) =>
      if negb (have =? valueTypeUnknown) && negb (expected =? valueTypeUnknown) && negb (isRefSubtypeOf types have expected)
      then Err (VMismatch have expected) else Ok s
  end.

Definition push (v : Z) (s : valueTypeStack) : valueTypeStack :=
  mkVS (v :: stack s) (stackLimits s) (Nat.max (maximumStackPointer s) (length (v :: stack s))).

Definition resetAtStackLimit (s : valueTypeStack) : valueTypeStack :=
  set_stack s (drop (length (stack s) - stack_limit s) (stack s)).

Definition unreachable (s : valueTypeStack) : valueTypeStack :=
  let s := resetAtStackLimit s in set_stack s (valueTypeUnknown :: stack s).

Definition popStackLimit (s : valueTypeStack) : valueTypeStack :=
  mkVS (stack s) (match stackLimits s with _ :: l => l | [] => [] end) (maximumStackPointer s).

Definition pushStackLimit (params : nat) (s : valueTypeStack) : valueTypeStack :=
  mkVS (stack s) ((length (stack s) - params)%nat :: stackLimits s) (maximumStackPointer s).

(** The first loop of [requireStackValues]: what it popped, in that order. *)
Fixpoint pop_values (n : nat) (s : valueTypeStack) : option (list Z * valueTypeStack) :=
  match n with
  | O => Some ([], s)
  | S n =>
      match tryPop s with
      | None => None
      | Some (v, s) => match pop_values n s with Some (l, s) => Some (v :: l, s) | None => None end
      end
  end.

(** Its last loop; [want] is reversed, as the values popped are. *)
Fixpoint check_values (types : list TypeDef) (have want : list Z) : vres unit :=
  match have, want with
  | v :: have, w :: want =>
      if negb (v =? valueTypeUnknown) && negb (w =? valueTypeUnknown) && negb (isRefSubtypeOf types v w)
      then Err (VMismatch v w) else check_values types have want
  | _, _ => Ok tt
  end.

Definition requireStackValues (types : list TypeDef) (want : list Z) (checkAboveLimit : bool) (s : valueTypeStack) : vres valueTypeStack :=
  match pop_values (length want) s with
  | None => Err (VCount want)
  | Some (have, s') =>
      let limit := stack_limit s in
      if checkAboveLimit &&
         negb ((limit =? length (stack s'))%nat ||
               ((limit + 1 =? length (stack s'))%nat && match stack s' with v :: _ => v =? valueTypeUnknown | [] => false end))
      then Err (VCount want)
      else let* _ := check_values types have (rev want) in Ok s'
  end.

Definition popParams := requireStackValues.
Definition popResults := requireStackValues.

(** Pops in the order of the list, and pushes in the order of the list. *)
Fixpoint pops (types : list TypeDef) (l : list Z) (s : valueTypeStack) : vres valueTypeStack :=
  match l with [] => Ok s | t :: l => let* s := popAndVerifyType types t s in pops types l s end.

Definition pushes (l : list Z) (s : valueTypeStack) : valueTypeStack := foldl (λ s t, push t s) s l.

(** An instruction that pops and then pushes values of given types. *)
Definition step_types (types : list TypeDef) (ins outs : list Z) (s : valueTypeStack) : vres valueTypeStack :=
  let* s := pops types ins s in Ok (pushes outs s).

(** * Control blocks *)

Record controlBlock := mkCB {
  startAt : Z; elseAt : Z; endAt : Z;
  blockType : TypeDef;
  blockTypeBytes : Z;
  cb_op : Z;                         (* zero for the outermost block, and for a block *)
  savedInitLocals : gset Z;
}.

(** The operand types and the control blocks, the innermost first, and the initialised
    locals of a type without a default; a nil map is the empty set. *)
Record stacks := mkSt { vs : valueTypeStack; cs : list controlBlock; initLocals : gset Z }.

Definition set_vs (s : stacks) (v : valueTypeStack) : stacks := mkSt v (cs s) (initLocals s).

Definition reset (ft : TypeDef) : stacks := mkSt (mkVS [] [] 0) [mkCB 0 0 0 ft 0 0 ∅] ∅.

(** What a branch to a block delivers. *)
Definition label_types (b : controlBlock) : list Z := if cb_op b =? OpcodeLoop then Params (blockType b) else Results (blockType b).

(** [&stack[len(stack)-index-1]], after the check of the index. *)
Definition label_at (s : stacks) (index : Z) : vres (list Z) :=
  if OutOfRange index (zlen (cs s)) then Err (VLabel index)
  else let* b := nth_or_panic (cs s) index in Ok (label_types b).

Definition validateCallSignature (types : list TypeDef) (ft : TypeDef) (s : valueTypeStack) : vres valueTypeStack :=
  let* s := pops types (rev (Params ft)) s in Ok (pushes (Results ft) s).

Definition validateReturnCall (e : env) (callee : TypeDef) (s : valueTypeStack) : vres valueTypeStack :=
  let* _ := require (enabledFeatures e) CoreFeatureTailCall in
  if negb (length (Results callee) =? length (Results (functionType e)))%nat then Err (VCount (Results (functionType e)))
  else requireStackValues (types e) (Results (functionType e)) false s.

(** * Locals *)

Definition local_type (e : env) (index : Z) : option Z :=
  let inputLen := zlen (Params (functionType e)) in
  if u32 (zlen (localTypes e) + inputLen) <=? index then None
  else if index <? inputLen then Params (functionType e) !! Z.to_nat index
  else localTypes e !! Z.to_nat (index - inputLen).

(** A local that is not a parameter and whose type has no default. *)
Definition needs_init (e : env) (index : Z) : bool :=
  let inputLen := zlen (Params (functionType e)) in
  (inputLen <=? index) &&
  match localTypes e !! Z.to_nat (index - inputLen) with Some lt => IsRef lt && negb (IsNullable lt) | None => false end.

Definition requireLocalInit (e : env) (index : Z) (s : stacks) : vres unit :=
  if needs_init e index && negb (bool_decide (index ∈ initLocals s)) then Err (VUninitialized index) else Ok tt.

Definition markLocalInit (e : env) (index : Z) (s : stacks) : stacks :=
  if needs_init e index then mkSt (vs s) (cs s) ({[index]} ∪ initLocals s) else s.

(** * Block types *)

Definition singleResultBlockType (vt : Z) : TypeDef := mkDef [] [vt] CompositeKindFunc [] false 0 false 0 0 0.

Definition fastBlockType (b : Z) : option TypeDef :=
  if b =? 0x40 then Some new_def
  else if b =? 0x7f then Some (singleResultBlockType ValueTypeI32)
  else if b =? 0x7e then Some (singleResultBlockType ValueTypeI64)
  else if b =? 0x7d then Some (singleResultBlockType ValueTypeF32)
  else if b =? 0x7c then Some (singleResultBlockType ValueTypeF64)
  else if b =? 0x7b then Some (singleResultBlockType ValueTypeV128)
  else if b =? 0x70 then Some (singleResultBlockType ValueTypeFuncref)
  else if b =? 0x6f then Some (singleResultBlockType ValueTypeExternref)
  else if b =? 0x69 then Some (singleResultBlockType ValueTypeExnref)
  else None.

(** The reference types of [DecodeBlockType], at the heap type after the prefix. *)
Definition decodeBlockRef (types : list TypeDef) (body : list Z) (pc : Z) (nullable : bool) : vres (TypeDef * Z) :=
  let* '(ht, pc) := imm (reader DecodeInt33AsInt64) body pc in
  let* vt :=
    if ht =? HeapTypeExn then Ok ValueTypeExnref
    else if ht =? HeapTypeFunc then Ok ValueTypeFuncref
    else if ht =? HeapTypeExtern then Ok ValueTypeExternref
    else if ht <? 0 then match AbstractHeapTypeValueType ht with Some vt => Ok vt | None => Err (VDec (DHeapType ht)) end
    else if zlen types <=? ht then Err (VIndex ht)
    else Ok (ValueTypeConcreteRef (u32 ht) nullable) in
  Ok (singleResultBlockType (if nullable then vt else AsNonNullable vt), pc).

(** The block type at a position, and the position after it. *)
Definition DecodeBlockType (types : list TypeDef) (f : Z) (body : list Z) (pc : Z) : vres (TypeDef * Z) :=
  let* '(raw, pc) := imm (reader DecodeInt33AsInt64) body pc in
  if raw =? -64 then Ok (new_def, pc)
  else if raw =? -1 then Ok (singleResultBlockType ValueTypeI32, pc)
  else if raw =? -2 then Ok (singleResultBlockType ValueTypeI64, pc)
  else if raw =? -3 then Ok (singleResultBlockType ValueTypeF32, pc)
  else if raw =? -4 then Ok (singleResultBlockType ValueTypeF64, pc)
  else if raw =? -5 then Ok (singleResultBlockType ValueTypeV128, pc)
  else if raw =? -16 then Ok (singleResultBlockType ValueTypeFuncref, pc)
  else if raw =? -17 then Ok (singleResultBlockType ValueTypeExternref, pc)
  else if raw =? -23 then Ok (singleResultBlockType ValueTypeExnref, pc)
  else if bool_decide (raw ∈ [-12; -13; -14; -15; -18; -19; -20; -21; -22])
  then Ok (singleResultBlockType (default 0 (AbstractHeapTypeValueType raw)), pc)
  else if raw =? -29 then decodeBlockRef types body pc true
  else if raw =? -28 then decodeBlockRef types body pc false
  else
    let* _ := require f CoreFeatureMultiValue in
    if (raw <? 0) || (zlen types <=? raw) then Err (VIndex raw)
    else let* t := nth_or_panic types raw in Ok (t, pc).

Definition decodeBlockTypeFast (types : list TypeDef) (f : Z) (body : list Z) (pos : Z) : vres (TypeDef * Z) :=
  match (if pos <? zlen body then byte_at body pos else Err (VIndex pos)) with
  | Ok b => match fastBlockType b with Some ft => Ok (ft, pos + 1) | None => DecodeBlockType types f body pos end
  | _ => DecodeBlockType types f body pos
  end.

(** The heap type after [ref.test], [ref.cast] and the casting branches. *)
Definition decodeHeapTypeImmediate (types : list TypeDef) (body : list Z) (pc : Z) (nullable : bool) : vres (Z * Z) :=
  let* '(ht, pc) := imm LoadInt33AsInt64 body pc in
  let* vt :=
    if ht <? 0 then match AbstractHeapTypeValueType ht with Some vt => Ok vt | None => Err (VDec (DHeapType ht)) end
    else if zlen types <=? ht then Err (VIndex ht)
    else Ok (ValueTypeConcreteRef (u32 ht) true) in
  Ok (if nullable then vt else AsNonNullable vt, pc).

(** * Memory arguments *)

Definition memArgMultiMemoryFlag : Z := 0x40.

(** Alignment, offset, memory index, and the position after them. *)
Definition readMemArg (f : Z) (body : list Z) (pc : Z) (memory64 : bool) : vres (Z * Z * Z * Z) :=
  let* '(rawAlign, pc) := imm LoadUint32 body pc in
  let* '(align, memoryIndex, pc) :=
    if negb (Z.land rawAlign memArgMultiMemoryFlag =? 0) then
      let* _ := require f CoreFeatureMultiMemory in
      let* '(memoryIndex, pc) := imm LoadUint32 body pc in
      Ok (Z.ldiff rawAlign memArgMultiMemoryFlag, memoryIndex, pc)
    else Ok (rawAlign, 0, pc) in
  if 32 <=? align then Err (VAlignment align)
  else let* '(offset, pc) := imm (if memory64 then LoadUint64 else LoadUint32) body pc in
       Ok (align, offset, memoryIndex, pc).

(** [None] is the [false] that [memArgError] explains. *)
Definition memArgIndexType (mems : list bool) (memoryIndex offset : Z) (memory64 : bool) : option Z :=
  if zlen mems <=? memoryIndex then None
  else if negb memory64 then Some ValueTypeI32
  else if default false (mems !! Z.to_nat memoryIndex) then Some ValueTypeI64
  else if 2 ^ 32 - 1 <? offset then None
  else Some ValueTypeI32.

Definition memArgError (mems : list bool) (memoryIndex offset : Z) : verr :=
  if zlen mems <=? memoryIndex then VIndex memoryIndex else VOffset offset.

(** The memory of a memarg: alignment, the type of its addresses, and the position after. *)
Definition memarg (e : env) (body : list Z) (pc : Z) : vres (Z * Z * Z) :=
  let memory64 := IsEnabled (enabledFeatures e) CoreFeatureMemory64 in
  if zlen (memories e) =? 0 then Err VNoMemory
  else let* '(align, offset, memoryIndex, pc) := readMemArg (enabledFeatures e) body pc memory64 in
       match memArgIndexType (memories e) memoryIndex offset memory64 with
       | None => Err (memArgError (memories e) memoryIndex offset)
       | Some addrType => Ok (align, addrType, pc)
       end.

(** [uint64(1)<<align] against a number of bytes. *)
Definition over_aligned (align bytes : Z) : bool := bytes <? Z.shiftl 1 align.
