(* ===== verification/WasmValidInstr.v ===== *)
(** The validation of the instructions that do not touch control blocks: the cases of
    [validateFunctionWithMaxStackValues] ([internal/wasm/func_validation.go]) and
    [internal/wasm/gc_validation.go].  A case takes the position after the opcode and
    returns the position of the next instruction. *)
From Stdlib Require Import ZArith Lia.
From stdpp Require Import base list numbers option tactics gmap sets.
From S2P Require Import Prelude Leb128 GcHeap GcCollect GcOps GcTypes GcTypeDecode WasmOpcodes WasmValidStack.
Local Open Scope Z_scope.
Local Open Scope go_scope.

(** A [case] that lists several opcodes, and one that spans a range. *)
Definition one_of (op : Z) (l : list Z) : bool := existsb (Z.eqb op) l.
Definition between (lo op hi : Z) : bool := (lo <=? op) && (op <=? hi).

Abbreviation I32 := ValueTypeI32.
Abbreviation I64 := ValueTypeI64.
Abbreviation F32 := ValueTypeF32.
Abbreviation F64 := ValueTypeF64.
Abbreviation V128 := ValueTypeV128.

(** * Loads and stores *)

(** The largest alignment in bytes, what is popped, top first, and what is pushed. *)
Definition memory_case (op addrType : Z) : option (Z * list Z * list Z) :=
  if op =? OpcodeI32Load then Some (32 / 8, [addrType], [I32])
  else if op =? OpcodeF32Load then Some (32 / 8, [addrType], [F32])
  else if op =? OpcodeI32Store then Some (32 / 8, [I32; addrType], [])
  else if op =? OpcodeF32Store then Some (32 / 8, [F32; addrType], [])
  else if op =? OpcodeI64Load then Some (64 / 8, [addrType], [I64])
  else if op =? OpcodeF64Load then Some (64 / 8, [addrType], [F64])
  else if op =? OpcodeI64Store then Some (64 / 8, [I64; addrType], [])
  else if op =? OpcodeF64Store then Some (64 / 8, [F64; addrType], [])
  else if op =? OpcodeI32Load8S then Some (1, [addrType], [I32])
  else if op =? OpcodeI32Load8U then Some (1, [addrType], [I32])
  else if one_of op [OpcodeI64Load8S; OpcodeI64Load8U] then Some (1, [addrType], [I64])
  else if op =? OpcodeI32Store8 then Some (1, [I32; addrType], [])
  else if op =? OpcodeI64Store8 then Some (1, [I64; addrType], [])
  else if one_of op [OpcodeI32Load16S; OpcodeI32Load16U] then Some (16 / 8, [addrType], [I32])
  else if one_of op [OpcodeI64Load16S; OpcodeI64Load16U] then Some (16 / 8, [addrType], [I64])
  else if op =? OpcodeI32Store16 then Some (16 / 8, [I32; addrType], [])
  else if op =? OpcodeI64Store16 then Some (16 / 8, [I64; addrType], [])
  else if one_of op [OpcodeI64Load32S; OpcodeI64Load32U] then Some (32 / 8, [addrType], [I64])
  else if op =? OpcodeI64Store32 then Some (32 / 8, [I64; addrType], [])
  else None.

Definition validate_load_store (e : env) (body : list Z) (op pc : Z) (s : valueTypeStack) : vres (valueTypeStack * Z) :=
  let* '(align, addrType, pc) := memarg e body pc in
  match memory_case op addrType with
  | None => Ok (s, pc)
  | Some (bytes, ins, outs) =>
      if over_aligned align bytes then Err (VAlignment align)
      else let* s := step_types (types e) ins outs s in Ok (s, pc)
  end.

Definition validate_memory_size_grow (e : env) (body : list Z) (op pc : Z) (s : valueTypeStack) : vres (valueTypeStack * Z) :=
  if zlen (memories e) =? 0 then Err VNoMemory
  else
    let* '(memoryIndex, next) := imm LoadUint32 body pc in
    if negb (IsEnabled (enabledFeatures e) CoreFeatureMultiMemory) && (negb (memoryIndex =? 0) || negb (next - pc =? 1))
    then Err (VReserved memoryIndex)
    else if zlen (memories e) <=? memoryIndex then Err (VIndex memoryIndex)
    else
      let* is64 := nth_or_panic (memories e) memoryIndex in
      let indexType := memory_index_type is64 in
      if op =? OpcodeMemoryGrow then let* s := step_types (types e) [indexType] [indexType] s in Ok (s, next)
      else Ok (push indexType s, next).

(** * Constants, locals and globals *)

Definition validate_const (body : list Z) (op pc : Z) (s : valueTypeStack) : vres (valueTypeStack * Z) :=
  if op =? OpcodeI32Const then let* '(_, pc) := imm LoadInt32 body pc in Ok (push I32 s, pc)
  else if op =? OpcodeI64Const then let* '(_, pc) := imm LoadInt64 body pc in Ok (push I64 s, pc)
  else if op =? OpcodeF32Const then Ok (push F32 s, pc + 4)
  else Ok (push F64 s, pc + 8).

Definition validate_variable (e : env) (body : list Z) (op pc : Z) (s : stacks) : vres (stacks * Z) :=
  let* '(index, pc) := imm LoadUint32 body pc in
  if op =? OpcodeLocalGet then
    match local_type e index with
    | None => Err (VIndex index)
    | Some t => let* _ := requireLocalInit e index s in Ok (set_vs s (push t (vs s)), pc)
    end
  else if op =? OpcodeLocalSet then
    match local_type e index with
    | None => Err (VIndex index)
    | Some expType => let* v := popAndVerifyType (types e) expType (vs s) in Ok (markLocalInit e index (set_vs s v), pc)
    end
  else if op =? OpcodeLocalTee then
    match local_type e index with
    | None => Err (VIndex index)
    | Some expType =>
        let* v := popAndVerifyType (types e) expType (vs s) in
        Ok (markLocalInit e index (set_vs s (push expType v)), pc)
    end
  else
    match (if OutOfRange index (zlen (globals e)) then None else globals e !! Z.to_nat index) with
    | None => Err (VIndex index)
    | Some (t, mutable) =>
        if op =? OpcodeGlobalGet then Ok (set_vs s (push t (vs s)), pc)
        else if negb mutable then Err (VImmutable index)
        else let* v := popAndVerifyType (types e) t (vs s) in Ok (set_vs s v, pc)
    end.

(** * Numeric instructions *)

(** Comparisons and operators of one type. *)
Definition numeric_operator (op : Z) : option (list Z * list Z) :=
  if op =? OpcodeI32Eqz then Some ([I32], [I32])
  else if one_of op [OpcodeI32Eq; OpcodeI32Ne; OpcodeI32LtS; OpcodeI32LtU; OpcodeI32GtS; OpcodeI32GtU; OpcodeI32LeS;
                     OpcodeI32LeU; OpcodeI32GeS; OpcodeI32GeU] then Some ([I32; I32], [I32])
  else if op =? OpcodeI64Eqz then Some ([I64], [I32])
  else if one_of op [OpcodeI64Eq; OpcodeI64Ne; OpcodeI64LtS; OpcodeI64LtU; OpcodeI64GtS; OpcodeI64GtU;
                     OpcodeI64LeS; OpcodeI64LeU; OpcodeI64GeS; OpcodeI64GeU] then Some ([I64; I64], [I32])
  else if one_of op [OpcodeF32Eq; OpcodeF32Ne; OpcodeF32Lt; OpcodeF32Gt; OpcodeF32Le; OpcodeF32Ge] then Some ([F32; F32], [I32])
  else if one_of op [OpcodeF64Eq; OpcodeF64Ne; OpcodeF64Lt; OpcodeF64Gt; OpcodeF64Le; OpcodeF64Ge] then Some ([F64; F64], [I32])
  else if one_of op [OpcodeI32Clz; OpcodeI32Ctz; OpcodeI32Popcnt] then Some ([I32], [I32])
  else if one_of op [OpcodeI32Add; OpcodeI32Sub; OpcodeI32Mul; OpcodeI32DivS; OpcodeI32DivU; OpcodeI32RemS; OpcodeI32RemU; OpcodeI32And;
                     OpcodeI32Or; OpcodeI32Xor; OpcodeI32Shl; OpcodeI32ShrS; OpcodeI32ShrU; OpcodeI32Rotl; OpcodeI32Rotr]
  then Some ([I32; I32], [I32])
  else if one_of op [OpcodeI64Clz; OpcodeI64Ctz; OpcodeI64Popcnt] then Some ([I64], [I64])
  else if one_of op [OpcodeI64Add; OpcodeI64Sub; OpcodeI64Mul; OpcodeI64DivS; OpcodeI64DivU; OpcodeI64RemS; OpcodeI64RemU; OpcodeI64And;
                     OpcodeI64Or; OpcodeI64Xor; OpcodeI64Shl; OpcodeI64ShrS; OpcodeI64ShrU; OpcodeI64Rotl; OpcodeI64Rotr]
  then Some ([I64; I64], [I64])
  else if one_of op [OpcodeF32Abs; OpcodeF32Neg; OpcodeF32Ceil; OpcodeF32Floor; OpcodeF32Trunc; OpcodeF32Nearest; OpcodeF32Sqrt]
  then Some ([F32], [F32])
  else if one_of op [OpcodeF32Add; OpcodeF32Sub; OpcodeF32Mul; OpcodeF32Div; OpcodeF32Min; OpcodeF32Max; OpcodeF32Copysign]
  then Some ([F32; F32], [F32])
  else if one_of op [OpcodeF64Abs; OpcodeF64Neg; OpcodeF64Ceil; OpcodeF64Floor; OpcodeF64Trunc; OpcodeF64Nearest; OpcodeF64Sqrt]
  then Some ([F64], [F64])
  else if one_of op [OpcodeF64Add; OpcodeF64Sub; OpcodeF64Mul; OpcodeF64Div; OpcodeF64Min; OpcodeF64Max; OpcodeF64Copysign]
  then Some ([F64; F64], [F64])
  else None.

Definition numeric_conversion (op : Z) : option (list Z * list Z) :=
  if op =? OpcodeI32WrapI64 then Some ([I64], [I32])
  else if one_of op [OpcodeI32TruncF32S; OpcodeI32TruncF32U] then Some ([F32], [I32])
  else if one_of op [OpcodeI32TruncF64S; OpcodeI32TruncF64U] then Some ([F64], [I32])
  else if one_of op [OpcodeI64ExtendI32S; OpcodeI64ExtendI32U] then Some ([I32], [I64])
  else if one_of op [OpcodeI64TruncF32S; OpcodeI64TruncF32U] then Some ([F32], [I64])
  else if one_of op [OpcodeI64TruncF64S; OpcodeI64TruncF64U] then Some ([F64], [I64])
  else if one_of op [OpcodeF32ConvertI32S; OpcodeF32ConvertI32U] then Some ([I32], [F32])
  else if one_of op [OpcodeF32ConvertI64S; OpcodeF32ConvertI64U] then Some ([I64], [F32])
  else if op =? OpcodeF32DemoteF64 then Some ([F64], [F32])
  else if one_of op [OpcodeF64ConvertI32S; OpcodeF64ConvertI32U] then Some ([I32], [F64])
  else if one_of op [OpcodeF64ConvertI64S; OpcodeF64ConvertI64U] then Some ([I64], [F64])
  else if op =? OpcodeF64PromoteF32 then Some ([F32], [F64])
  else if op =? OpcodeI32ReinterpretF32 then Some ([F32], [I32])
  else if op =? OpcodeI64ReinterpretF64 then Some ([F64], [I64])
  else if op =? OpcodeF32ReinterpretI32 then Some ([I32], [F32])
  else if op =? OpcodeF64ReinterpretI64 then Some ([I64], [F64])
  else None.

Definition sign_extension (op : Z) : option (list Z * list Z) :=
  if one_of op [OpcodeI32Extend8S; OpcodeI32Extend16S] then Some ([I32], [I32])
  else if one_of op [OpcodeI64Extend8S; OpcodeI64Extend16S; OpcodeI64Extend32S] then Some ([I64], [I64])
  else None.

Definition numeric_case (op : Z) : option (list Z * list Z) :=
  match numeric_operator op with Some r => Some r | None => numeric_conversion op end.

Definition validate_numeric (e : env) (op pc : Z) (s : valueTypeStack) : vres (valueTypeStack * Z) :=
  match numeric_case op with
  | Some (ins, outs) => let* s := step_types (types e) ins outs s in Ok (s, pc)
  | None =>
      match sign_extension op with
      | Some (ins, outs) =>
          let* _ := require (enabledFeatures e) CoreFeatureSignExtensionOps in
          let* s := step_types (types e) ins outs s in Ok (s, pc)
      | None => Err (VInvalid op)
      end
  end.

(** * References and tables *)

(** A reference operand, or an unknown one. *)
Definition pop_reference (s : valueTypeStack) : vres (Z * valueTypeStack) :=
  let* '(tp, s) := pop s in
  if negb (IsRef tp) && negb (tp =? valueTypeUnknown) then Err (VNotReference tp) else Ok (tp, s).

Definition non_null (tp : Z) : Z := if tp =? valueTypeUnknown then tp else AsNonNullable tp.

Definition validate_ref_null (e : env) (body : list Z) (pc : Z) (s : valueTypeStack) : vres (valueTypeStack * Z) :=
  let* reftype := byte_at body pc in
  if reftype =? ValueTypeExternref then Ok (push ValueTypeExternref s, pc + 1)
  else if reftype =? ValueTypeFuncref then Ok (push ValueTypeFuncref s, pc + 1)
  else if reftype =? ValueTypeExnref then Ok (push ValueTypeExnref s, pc + 1)
  else if IsGCHeapType reftype then
    let* _ := require (enabledFeatures e) CoreFeatureGC in Ok (push reftype s, pc + 1)
  else
    let* _ := require (enabledFeatures e) CoreFeatureTypedFunctionReferences in
    let* '(typeIdx, pc) := imm (reader DecodeUint32) body pc in
    if OutOfRange typeIdx (zlen (types e)) then Err (VIndex typeIdx)
    else Ok (push (ValueTypeConcreteRef typeIdx true) s, pc).

Definition validate_ref_func (e : env) (body : list Z) (pc : Z) (s : valueTypeStack) : vres (valueTypeStack * Z) :=
  let* '(index, pc) := imm LoadUint32 body pc in
  if negb (bool_decide (index ∈ declaredFunctionIndexes e)) then Err (VUndeclared index)
  else if IsEnabled (enabledFeatures e) CoreFeatureTypedFunctionReferences then
    let* t := nth_or_panic (functions e) index in Ok (push (ValueTypeConcreteRef t false) s, pc)
  else Ok (push ValueTypeFuncref s, pc).

Definition validate_ref (e : env) (body : list Z) (op pc : Z) (s : valueTypeStack) : vres (valueTypeStack * Z) :=
  let* _ := require (enabledFeatures e) CoreFeatureReferenceTypes in
  if op =? OpcodeRefNull then validate_ref_null e body pc s
  else if op =? OpcodeRefIsNull then let* '(_, s) := pop_reference s in Ok (push I32 s, pc)
  else validate_ref_func e body pc s.

Definition validate_ref_as_non_null (e : env) (pc : Z) (s : valueTypeStack) : vres (valueTypeStack * Z) :=
  let* _ := require (enabledFeatures e) CoreFeatureTypedFunctionReferences in
  let* '(tp, s) := pop_reference s in Ok (push (non_null tp) s, pc).

(** A round of the loop of [ref.eq], and the [popRef] of [validateGCInstruction]. *)
Definition popRef (types : list TypeDef) (want : Z) (s : valueTypeStack) : vres valueTypeStack :=
  let* '(have, s) := pop s in
  if negb (have =? valueTypeUnknown) && negb (isRefSubtypeOf types have want) then Err (VMismatch have want) else Ok s.

Definition validate_ref_eq (e : env) (pc : Z) (s : valueTypeStack) : vres (valueTypeStack * Z) :=
  let* _ := require (enabledFeatures e) CoreFeatureGC in
  let* s := popRef (types e) ValueTypeEqref s in
  let* s := popRef (types e) ValueTypeEqref s in
  Ok (push I32 s, pc).

Definition validate_table_get_set (e : env) (body : list Z) (op pc : Z) (s : valueTypeStack) : vres (valueTypeStack * Z) :=
  let* _ := require (enabledFeatures e) CoreFeatureReferenceTypes in
  let* '(tableIndex, pc) := imm LoadUint32 body pc in
  if zlen (tables e) <=? tableIndex then Err (VIndex tableIndex)
  else
    let* '(refType, is64) := nth_or_panic (tables e) tableIndex in
    let indexType := table_index_type is64 in
    let* s := if op =? OpcodeTableGet then step_types (types e) [indexType] [refType] s
              else step_types (types e) [refType; indexType] [] s in
    Ok (s, pc).

(** * Calls *)

(** [unreachable] after a call that returns for its caller. *)
Definition after_call (e : env) (tail : bool) (ft : TypeDef) (s : valueTypeStack) (pc : Z) : vres (valueTypeStack * Z) :=
  if tail then let* s := validateReturnCall e ft s in Ok (unreachable s, pc) else Ok (s, pc).

Definition validate_call (e : env) (body : list Z) (op pc : Z) (s : valueTypeStack) : vres (valueTypeStack * Z) :=
  let* '(index, pc) := imm LoadUint32 body pc in
  if OutOfRange index (zlen (functions e)) then Err (VIndex index)
  else
    let* i := nth_or_panic (functions e) index in
    let* ft := nth_or_panic (types e) i in
    let* s := validateCallSignature (types e) ft s in
    after_call e (op =? OpcodeTailCallReturnCall) ft s pc.

(** The top heap type of a value type's hierarchy. *)
Definition hierarchyTop (types : list TypeDef) (vt : Z) : Z :=
  let kind := if IsConcreteRef vt then match typeAt types (TypeIndex vt) with
                                       | Some def => concreteTop (td_kind def)
                                       | None => Kind ValueTypeFuncref
                                       end
              else Kind vt in
  if one_of kind [Kind ValueTypeNullref; Kind ValueTypeEqref; Kind ValueTypeI31ref; Kind ValueTypeStructref; Kind ValueTypeArrayref]
  then Kind ValueTypeAnyref
  else if kind =? Kind ValueTypeNullFuncref then Kind ValueTypeFuncref
  else if kind =? Kind ValueTypeNullExternref then Kind ValueTypeExternref
  else if kind =? Kind ValueTypeNullExnref then Kind ValueTypeExnref
  else kind.

Definition validate_call_indirect (e : env) (body : list Z) (op pc : Z) (s : valueTypeStack) : vres (valueTypeStack * Z) :=
  let* '(typeIndex, pc) := imm LoadUint32 body pc in
  if OutOfRange typeIndex (zlen (types e)) then Err (VIndex typeIndex)
  else
    let* '(tableIndex, pc) := imm LoadUint32 body pc in
    let* _ := if negb (tableIndex =? 0) then require (enabledFeatures e) CoreFeatureReferenceTypes else Ok tt in
    if zlen (tables e) <=? tableIndex then Err (VIndex tableIndex)
    else
      let* '(tableType, is64) := nth_or_panic (tables e) tableIndex in
      if negb (hierarchyTop (types e) tableType =? Kind ValueTypeFuncref) then Err (VMismatch tableType ValueTypeFuncref)
      else
        let* s := popAndVerifyType (types e) (table_index_type is64) s in
        let* ft := nth_or_panic (types e) typeIndex in
        let* s := validateCallSignature (types e) ft s in
        after_call e (op =? OpcodeTailCallReturnCallIndirect) ft s pc.

Definition validate_call_ref (e : env) (body : list Z) (op pc : Z) (s : valueTypeStack) : vres (valueTypeStack * Z) :=
  let* _ := require (enabledFeatures e) CoreFeatureTypedFunctionReferences in
  let* '(typeIndex, pc) := imm LoadUint32 body pc in
  if OutOfRange typeIndex (zlen (types e)) then Err (VIndex typeIndex)
  else
    let* s := popAndVerifyType (types e) (ValueTypeConcreteRef typeIndex true) s in
    let* ft := nth_or_panic (types e) typeIndex in
    let* s := validateCallSignature (types e) ft s in
    after_call e (op =? OpcodeReturnCallRef) ft s pc.

(** * Parametric instructions *)

Definition validate_drop (pc : Z) (s : valueTypeStack) : vres (valueTypeStack * Z) :=
  let* '(_, s) := pop s in Ok (s, pc).

(** The annotation of a typed [select]; the position after it.  What it says is not used. *)
Definition select_annotation (e : env) (body : list Z) (pc : Z) : vres Z :=
  let* _ := require (enabledFeatures e) CoreFeatureReferenceTypes in
  let* n := byte_at body pc in
  if negb (n =? 1) then Err (VReserved n)
  else
    let pc := pc + 1 in
    let* b := byte_at body pc in
    if (b =? RefPrefixNullable) || (b =? RefPrefixNonNullable) then
      let* '(ht, pc) := imm (reader DecodeInt33AsInt64) body (pc + 1) in
      if (ht =? HeapTypeFunc) || (ht =? HeapTypeExtern) || (ht =? HeapTypeExn) then Ok pc
      else if ht <? 0 then Err (VDec (DHeapType ht))
      else if zlen (types e) <=? ht then Err (VIndex ht)
      else Ok pc
    else if one_of b [I32; I64; F32; F64; ValueTypeExternref; ValueTypeFuncref; V128] then Ok (pc + 1)
    else Err (VDec (DValueType b)).

Definition validate_select (e : env) (body : list Z) (op pc : Z) (s : valueTypeStack) : vres (valueTypeStack * Z) :=
  let* s := popAndVerifyType (types e) I32 s in
  let* '(v1, s) := pop s in
  let* '(v2, s) := pop s in
  let* pc :=
    if op =? OpcodeTypedSelect then select_annotation e body pc
    else if IsRef v1 || IsRef v2 then Err VReference else Ok pc in
  if negb (v1 =? valueTypeUnknown) && negb (v2 =? valueTypeUnknown) && negb (areRefTypesCompatible (types e) v1 v2)
  then Err (VMismatch v1 v2)
  else
    let t := if v1 =? valueTypeUnknown then v2
             else if v2 =? valueTypeUnknown then v1
             else if isRefSubtypeOf (types e) v1 v2 then v2 else v1 in
    Ok (push t s, pc).

(** * Miscellaneous instructions *)

Definition trunc_sat (op : Z) : Z * Z :=
  if one_of op [OpcodeMiscI32TruncSatF32S; OpcodeMiscI32TruncSatF32U] then (F32, I32)
  else if one_of op [OpcodeMiscI32TruncSatF64S; OpcodeMiscI32TruncSatF64U] then (F64, I32)
  else if one_of op [OpcodeMiscI64TruncSatF32S; OpcodeMiscI64TruncSatF32U] then (F32, I64)
  else (F64, I64).

(** The index of a data segment. *)
Definition data_index (e : env) (body : list Z) (pc : Z) : vres Z :=
  match DataCountSection e with
  | None => Err VNoDataCount
  | Some _ =>
      let* '(index, pc) := imm LoadUint32 body pc in
      if OutOfRange index (DataSection e) then Err (VIndex index) else Ok pc
  end.

(** A memory index, which without multi-memory is a zero byte: the type of its addresses. *)
Definition misc_memory (e : env) (body : list Z) (pc : Z) : vres (Z * Z) :=
  let* '(memoryIndex, next) := imm LoadUint32 body pc in
  if negb (IsEnabled (enabledFeatures e) CoreFeatureMultiMemory) && (negb (memoryIndex =? 0) || negb (next - pc =? 1))
  then Err (VReserved memoryIndex)
  else if zlen (memories e) <=? memoryIndex then Err (VIndex memoryIndex)
  else let* is64 := nth_or_panic (memories e) memoryIndex in Ok (memory_index_type is64, next).

(** A table index, which without reference types is zero. *)
Definition misc_table (e : env) (body : list Z) (pc : Z) : vres (Z * Z * Z) :=
  let* '(tableIndex, pc) := imm LoadUint32 body pc in
  let* _ := if negb (tableIndex =? 0) then require (enabledFeatures e) CoreFeatureReferenceTypes else Ok tt in
  if zlen (tables e) <=? tableIndex then Err (VIndex tableIndex)
  else let* '(t, is64) := nth_or_panic (tables e) tableIndex in Ok (t, table_index_type is64, pc).

(** An element segment: its type. *)
Definition elem_index (e : env) (body : list Z) (pc : Z) : vres (Z * Z) :=
  let* '(elementIndex, pc) := imm LoadUint32 body pc in
  if OutOfRange elementIndex (zlen (ElementSection e)) then Err (VIndex elementIndex)
  else let* t := nth_or_panic (ElementSection e) elementIndex in Ok (t, pc).

(** The length a copy takes is of the narrower of two index types. *)
Definition length_type (dst src : Z) : Z := if src =? I32 then I32 else dst.

(** What a bulk memory instruction pops, top first, and the position after it. *)
Definition bulk_params (e : env) (body : list Z) (op pc : Z) : vres (list Z * Z) :=
  if op =? OpcodeMiscDataDrop then let* pc := data_index e body pc in Ok ([], pc)
  else if one_of op [OpcodeMiscMemoryInit; OpcodeMiscMemoryCopy; OpcodeMiscMemoryFill] then
    if zlen (memories e) =? 0 then Err VNoMemory
    else
      let* pc := if op =? OpcodeMiscMemoryInit then data_index e body pc else Ok pc in
      let* '(indexType, pc) := misc_memory e body pc in
      if op =? OpcodeMiscMemoryCopy then
        let* '(srcIndexType, pc) := misc_memory e body pc in
        Ok ([length_type indexType srcIndexType; srcIndexType; indexType], pc)
      else if op =? OpcodeMiscMemoryFill then Ok ([indexType; I32; indexType], pc)
      else Ok ([I32; I32; indexType], pc)
  else if op =? OpcodeMiscTableInit then
    let* '(elemType, pc) := elem_index e body pc in
    let* '(tableType, indexType, pc) := misc_table e body pc in
    if negb (isRefSubtypeOf (types e) elemType tableType) then Err (VMismatch elemType tableType)
    else Ok ([I32; I32; indexType], pc)
  else if op =? OpcodeMiscElemDrop then let* '(_, pc) := elem_index e body pc in Ok ([], pc)
  else
    let* '(dstType, dstIndexType, pc) := misc_table e body pc in
    let* '(srcType, srcIndexType, pc) := misc_table e body pc in
    if negb (isRefSubtypeOf (types e) srcType dstType) then Err (VMismatch srcType dstType)
    else Ok ([length_type dstIndexType srcIndexType; srcIndexType; dstIndexType], pc).

Definition table_case (op indexType reftype : Z) : list Z * list Z :=
  if op =? OpcodeMiscTableGrow then ([indexType; reftype], [indexType])
  else if op =? OpcodeMiscTableSize then ([], [indexType])
  else ([indexType; reftype; indexType], []).

Definition validate_misc (e : env) (body : list Z) (pc : Z) (s : valueTypeStack) : vres (valueTypeStack * Z) :=
  let* '(op, pc) := imm LoadUint32 body pc in
  if negb (u8 op =? op) then Err (VInvalid op)
  else if between OpcodeMiscI32TruncSatF32S op OpcodeMiscI64TruncSatF64U then
    let* _ := require (enabledFeatures e) CoreFeatureNonTrappingFloatToIntConversion in
    let '(inType, outType) := trunc_sat op in
    let* s := step_types (types e) [inType] [outType] s in Ok (s, pc)
  else if between OpcodeMiscMemoryInit op OpcodeMiscTableCopy then
    let* _ := require (enabledFeatures e) CoreFeatureBulkMemoryOperations in
    let* '(params, pc) := bulk_params e body op pc in
    let* s := step_types (types e) params [] s in Ok (s, pc)
  else if between OpcodeMiscTableGrow op OpcodeMiscTableFill then
    let* _ := require (enabledFeatures e) CoreFeatureReferenceTypes in
    let* '(tableIndex, pc) := imm LoadUint32 body pc in
    if zlen (tables e) <=? tableIndex then Err (VIndex tableIndex)
    else
      let* '(reftype, is64) := nth_or_panic (tables e) tableIndex in
      let '(params, results) := table_case op (table_index_type is64) reftype in
      let* s := step_types (types e) params results s in Ok (s, pc)
  else Err (VInvalid op).
