(* ===== verification/WasmValidSimd.v ===== *)
(** The validation of vector and atomic instructions: the cases of [OpcodeVecPrefix] and
    [OpcodeAtomicPrefix] in [validateFunctionWithMaxStackValues]
    ([internal/wasm/func_validation.go]). *)
From Stdlib Require Import ZArith Lia.
From stdpp Require Import base list numbers option tactics gmap sets.
From S2P Require Import Prelude Leb128 GcHeap GcCollect GcOps GcTypes GcTypeDecode WasmOpcodes WasmValidStack WasmValidInstr.
Local Open Scope Z_scope.
Local Open Scope go_scope.

(** * Vector opcodes *)

(** The opcode and how many bytes it takes, zero when it is malformed. *)
Definition ReadVecOpcode (body : list Z) (i : Z) : vres (Z * Z) :=
  let* b := byte_at body i in
  if b <? 0x80 then Ok (b, 1)
  else if zlen body <=? i + 1 then Ok (0, 0)
  else let* b1 := byte_at body (i + 1) in
       if 0x80 <=? b1 then Ok (0, 0) else Ok (Z.lor (Z.land b 0x7f) (Z.shiftl b1 7), 2).

(** ** The lists of the cases *)

Definition vec_test : list Z :=
  [OpcodeVecV128AnyTrue; OpcodeVecI8x16AllTrue; OpcodeVecI16x8AllTrue; OpcodeVecI32x4AllTrue; OpcodeVecI64x2AllTrue;
   OpcodeVecI8x16BitMask; OpcodeVecI16x8BitMask; OpcodeVecI32x4BitMask; OpcodeVecI64x2BitMask].

Definition vec_loads : list Z :=
  [OpcodeVecV128Load; OpcodeVecV128Load8x8s; OpcodeVecV128Load8x8u; OpcodeVecV128Load16x4s; OpcodeVecV128Load16x4u;
   OpcodeVecV128Load32x2s; OpcodeVecV128Load32x2u; OpcodeVecV128Load8Splat; OpcodeVecV128Load16Splat; OpcodeVecV128Load32Splat;
   OpcodeVecV128Load64Splat; OpcodeVecV128Load32zero; OpcodeVecV128Load64zero].

Definition vec_load_lanes : list Z :=
  [OpcodeVecV128Load8Lane; OpcodeVecV128Load16Lane; OpcodeVecV128Load32Lane; OpcodeVecV128Load64Lane].

Definition vec_store_lanes : list Z :=
  [OpcodeVecV128Store8Lane; OpcodeVecV128Store16Lane; OpcodeVecV128Store32Lane; OpcodeVecV128Store64Lane].

Definition vec_extract : list Z :=
  [OpcodeVecI8x16ExtractLaneS; OpcodeVecI8x16ExtractLaneU; OpcodeVecI16x8ExtractLaneS; OpcodeVecI16x8ExtractLaneU;
   OpcodeVecI32x4ExtractLane; OpcodeVecI64x2ExtractLane; OpcodeVecF32x4ExtractLane; OpcodeVecF64x2ExtractLane].

Definition vec_replace : list Z :=
  [OpcodeVecI8x16ReplaceLane; OpcodeVecI16x8ReplaceLane; OpcodeVecI32x4ReplaceLane; OpcodeVecI64x2ReplaceLane;
   OpcodeVecF32x4ReplaceLane; OpcodeVecF64x2ReplaceLane].

Definition vec_splat : list Z :=
  [OpcodeVecI8x16Splat; OpcodeVecI16x8Splat; OpcodeVecI32x4Splat; OpcodeVecI64x2Splat; OpcodeVecF32x4Splat; OpcodeVecF64x2Splat].

Definition vec_logic : list Z :=
  [OpcodeVecI8x16Swizzle; OpcodeVecV128And; OpcodeVecV128Or; OpcodeVecV128Xor; OpcodeVecV128AndNot].

Definition vec_ternary : list Z :=
  [OpcodeVecV128Bitselect; OpcodeVecI8x16RelaxedLaneselect; OpcodeVecI16x8RelaxedLaneselect; OpcodeVecI32x4RelaxedLaneselect;
   OpcodeVecI64x2RelaxedLaneselect; OpcodeVecF32x4RelaxedMadd; OpcodeVecF32x4RelaxedNmadd; OpcodeVecF64x2RelaxedMadd;
   OpcodeVecF64x2RelaxedNmadd; OpcodeVecI32x4RelaxedDotI8x16I7x16AddS].

Definition vec_shift : list Z :=
  [OpcodeVecI8x16Shl; OpcodeVecI8x16ShrS; OpcodeVecI8x16ShrU; OpcodeVecI16x8Shl; OpcodeVecI16x8ShrS; OpcodeVecI16x8ShrU;
   OpcodeVecI32x4Shl; OpcodeVecI32x4ShrS; OpcodeVecI32x4ShrU; OpcodeVecI64x2Shl; OpcodeVecI64x2ShrS; OpcodeVecI64x2ShrU].

Definition vec_compare : list Z :=
  [OpcodeVecI8x16Eq; OpcodeVecI8x16Ne; OpcodeVecI8x16LtS; OpcodeVecI8x16LtU; OpcodeVecI8x16GtS; OpcodeVecI8x16GtU;
   OpcodeVecI8x16LeS; OpcodeVecI8x16LeU; OpcodeVecI8x16GeS; OpcodeVecI8x16GeU; OpcodeVecI16x8Eq; OpcodeVecI16x8Ne;
   OpcodeVecI16x8LtS; OpcodeVecI16x8LtU; OpcodeVecI16x8GtS; OpcodeVecI16x8GtU; OpcodeVecI16x8LeS; OpcodeVecI16x8LeU;
   OpcodeVecI16x8GeS; OpcodeVecI16x8GeU; OpcodeVecI32x4Eq; OpcodeVecI32x4Ne; OpcodeVecI32x4LtS; OpcodeVecI32x4LtU;
   OpcodeVecI32x4GtS; OpcodeVecI32x4GtU; OpcodeVecI32x4LeS; OpcodeVecI32x4LeU; OpcodeVecI32x4GeS; OpcodeVecI32x4GeU;
   OpcodeVecI64x2Eq; OpcodeVecI64x2Ne; OpcodeVecI64x2LtS; OpcodeVecI64x2GtS; OpcodeVecI64x2LeS; OpcodeVecI64x2GeS;
   OpcodeVecF32x4Eq; OpcodeVecF32x4Ne; OpcodeVecF32x4Lt; OpcodeVecF32x4Gt; OpcodeVecF32x4Le; OpcodeVecF32x4Ge; OpcodeVecF64x2Eq;
   OpcodeVecF64x2Ne; OpcodeVecF64x2Lt; OpcodeVecF64x2Gt; OpcodeVecF64x2Le; OpcodeVecF64x2Ge; OpcodeVecI32x4DotI16x8S;
   OpcodeVecI8x16NarrowI16x8S; OpcodeVecI8x16NarrowI16x8U; OpcodeVecI16x8NarrowI32x4S; OpcodeVecI16x8NarrowI32x4U].

Definition vec_unary : list Z :=
  [OpcodeVecI8x16Neg; OpcodeVecI16x8Neg; OpcodeVecI32x4Neg; OpcodeVecI64x2Neg; OpcodeVecF32x4Neg; OpcodeVecF64x2Neg;
   OpcodeVecF32x4Sqrt; OpcodeVecF64x2Sqrt; OpcodeVecI8x16Abs; OpcodeVecI8x16Popcnt; OpcodeVecI16x8Abs; OpcodeVecI32x4Abs;
   OpcodeVecI64x2Abs; OpcodeVecF32x4Abs; OpcodeVecF64x2Abs; OpcodeVecF32x4Ceil; OpcodeVecF32x4Floor; OpcodeVecF32x4Trunc;
   OpcodeVecF32x4Nearest; OpcodeVecF64x2Ceil; OpcodeVecF64x2Floor; OpcodeVecF64x2Trunc; OpcodeVecF64x2Nearest;
   OpcodeVecI16x8ExtendLowI8x16S; OpcodeVecI16x8ExtendHighI8x16S; OpcodeVecI16x8ExtendLowI8x16U; OpcodeVecI16x8ExtendHighI8x16U;
   OpcodeVecI32x4ExtendLowI16x8S; OpcodeVecI32x4ExtendHighI16x8S; OpcodeVecI32x4ExtendLowI16x8U; OpcodeVecI32x4ExtendHighI16x8U;
   OpcodeVecI64x2ExtendLowI32x4S; OpcodeVecI64x2ExtendHighI32x4S; OpcodeVecI64x2ExtendLowI32x4U; OpcodeVecI64x2ExtendHighI32x4U;
   OpcodeVecI16x8ExtaddPairwiseI8x16S; OpcodeVecI16x8ExtaddPairwiseI8x16U; OpcodeVecI32x4ExtaddPairwiseI16x8S;
   OpcodeVecI32x4ExtaddPairwiseI16x8U; OpcodeVecF64x2PromoteLowF32x4Zero; OpcodeVecF32x4DemoteF64x2Zero;
   OpcodeVecF32x4ConvertI32x4S; OpcodeVecF32x4ConvertI32x4U; OpcodeVecF64x2ConvertLowI32x4S; OpcodeVecF64x2ConvertLowI32x4U;
   OpcodeVecI32x4TruncSatF32x4S; OpcodeVecI32x4TruncSatF32x4U; OpcodeVecI32x4TruncSatF64x2SZero;
   OpcodeVecI32x4TruncSatF64x2UZero; OpcodeVecI32x4RelaxedTruncF32x4S; OpcodeVecI32x4RelaxedTruncF32x4U;
   OpcodeVecI32x4RelaxedTruncF64x2SZero; OpcodeVecI32x4RelaxedTruncF64x2UZero].

Definition vec_binary : list Z :=
  [OpcodeVecI8x16Add; OpcodeVecI8x16AddSatS; OpcodeVecI8x16AddSatU; OpcodeVecI8x16Sub; OpcodeVecI8x16SubSatS;
   OpcodeVecI8x16SubSatU; OpcodeVecI16x8Add; OpcodeVecI16x8AddSatS; OpcodeVecI16x8AddSatU; OpcodeVecI16x8Sub;
   OpcodeVecI16x8SubSatS; OpcodeVecI16x8SubSatU; OpcodeVecI16x8Mul; OpcodeVecI32x4Add; OpcodeVecI32x4Sub; OpcodeVecI32x4Mul;
   OpcodeVecI64x2Add; OpcodeVecI64x2Sub; OpcodeVecI64x2Mul; OpcodeVecF32x4Add; OpcodeVecF32x4Sub; OpcodeVecF32x4Mul;
   OpcodeVecF32x4Div; OpcodeVecF64x2Add; OpcodeVecF64x2Sub; OpcodeVecF64x2Mul; OpcodeVecF64x2Div; OpcodeVecI8x16MinS;
   OpcodeVecI8x16MinU; OpcodeVecI8x16MaxS; OpcodeVecI8x16MaxU; OpcodeVecI8x16AvgrU; OpcodeVecI16x8MinS; OpcodeVecI16x8MinU;
   OpcodeVecI16x8MaxS; OpcodeVecI16x8MaxU; OpcodeVecI16x8AvgrU; OpcodeVecI32x4MinS; OpcodeVecI32x4MinU; OpcodeVecI32x4MaxS;
   OpcodeVecI32x4MaxU; OpcodeVecF32x4Min; OpcodeVecF32x4Max; OpcodeVecF64x2Min; OpcodeVecF64x2Max; OpcodeVecF32x4Pmin;
   OpcodeVecF32x4Pmax; OpcodeVecF64x2Pmin; OpcodeVecF64x2Pmax; OpcodeVecI16x8Q15mulrSatS; OpcodeVecI16x8ExtMulLowI8x16S;
   OpcodeVecI16x8ExtMulHighI8x16S; OpcodeVecI16x8ExtMulLowI8x16U; OpcodeVecI16x8ExtMulHighI8x16U; OpcodeVecI32x4ExtMulLowI16x8S;
   OpcodeVecI32x4ExtMulHighI16x8S; OpcodeVecI32x4ExtMulLowI16x8U; OpcodeVecI32x4ExtMulHighI16x8U; OpcodeVecI64x2ExtMulLowI32x4S;
   OpcodeVecI64x2ExtMulHighI32x4S; OpcodeVecI64x2ExtMulLowI32x4U; OpcodeVecI64x2ExtMulHighI32x4U; OpcodeVecI8x16RelaxedSwizzle;
   OpcodeVecF32x4RelaxedMin; OpcodeVecF32x4RelaxedMax; OpcodeVecF64x2RelaxedMin; OpcodeVecF64x2RelaxedMax;
   OpcodeVecI16x8RelaxedQ15mulrS; OpcodeVecI16x8RelaxedDotI8x16I7x16S].

(** ** Tables *)

Definition vec_max_align (op : Z) : Z :=
  if op =? OpcodeVecV128Load then 128 / 8
  else if one_of op [OpcodeVecV128Load8x8s; OpcodeVecV128Load8x8u; OpcodeVecV128Load16x4s; OpcodeVecV128Load16x4u;
                     OpcodeVecV128Load32x2s; OpcodeVecV128Load32x2u] then 64 / 8
  else if op =? OpcodeVecV128Load8Splat then 1
  else if op =? OpcodeVecV128Load16Splat then 16 / 8
  else if op =? OpcodeVecV128Load32Splat then 32 / 8
  else if op =? OpcodeVecV128Load64Splat then 64 / 8
  else if op =? OpcodeVecV128Load32zero then 32 / 8
  else 64 / 8.

(** The lane ceiling and the type extracted. *)
Definition vecExtractLanes (op : Z) : Z * Z :=
  if one_of op [OpcodeVecI8x16ExtractLaneS; OpcodeVecI8x16ExtractLaneU] then (16, I32)
  else if one_of op [OpcodeVecI16x8ExtractLaneS; OpcodeVecI16x8ExtractLaneU] then (8, I32)
  else if op =? OpcodeVecI32x4ExtractLane then (4, I32)
  else if op =? OpcodeVecI64x2ExtractLane then (2, I64)
  else if op =? OpcodeVecF32x4ExtractLane then (4, F32)
  else (2, F64).

Definition vecReplaceLanes (op : Z) : Z * Z :=
  if op =? OpcodeVecI8x16ReplaceLane then (16, I32)
  else if op =? OpcodeVecI16x8ReplaceLane then (8, I32)
  else if op =? OpcodeVecI32x4ReplaceLane then (4, I32)
  else if op =? OpcodeVecI64x2ReplaceLane then (2, I64)
  else if op =? OpcodeVecF32x4ReplaceLane then (4, F32)
  else (2, F64).

(** The largest alignment and the lane ceiling. *)
Definition vecStoreLanes (op : Z) : Z * Z :=
  if op =? OpcodeVecV128Store64Lane then (64 / 8, 128 / 64)
  else if op =? OpcodeVecV128Store32Lane then (32 / 8, 128 / 32)
  else if op =? OpcodeVecV128Store16Lane then (16 / 8, 128 / 16)
  else (1, 128 / 8).

Definition vecLoadLanes (op : Z) : Z * Z :=
  if op =? OpcodeVecV128Load64Lane then (64 / 8, 128 / 64)
  else if op =? OpcodeVecV128Load32Lane then (32 / 8, 128 / 32)
  else if op =? OpcodeVecV128Load16Lane then (16 / 8, 128 / 16)
  else (1, 128 / 8).

Definition vecSplatValueTypes (op : Z) : Z :=
  if one_of op [OpcodeVecI8x16Splat; OpcodeVecI16x8Splat; OpcodeVecI32x4Splat] then I32
  else if op =? OpcodeVecI64x2Splat then I64
  else if op =? OpcodeVecF32x4Splat then F32
  else F64.

(** ** Cases *)

(** What follows a vector opcode in the body: nothing, the sixteen bytes of a constant, the
    sixteen lanes of a shuffle, a lane below a ceiling, or a memory argument with the
    largest alignment and perhaps a lane after it. *)
Inductive vec_immediate : Type :=
| ImmNone
| ImmConst
| ImmShuffle
| ImmLane (laneCeil : Z)
| ImmMemory (maxAlign : Z) (laneCeil : option Z).

(** What is popped, top first, above the address if there is one, and what is pushed. *)
Definition vec_access (op : Z) : option (vec_immediate * list Z * list Z) :=
  if one_of op vec_loads then Some (ImmMemory (vec_max_align op) None, [], [V128])
  else if op =? OpcodeVecV128Store then Some (ImmMemory (128 / 8) None, [V128], [])
  else if one_of op vec_load_lanes then let '(alignMax, laneCeil) := vecLoadLanes op in Some (ImmMemory alignMax (Some laneCeil), [V128], [V128])
  else if one_of op vec_store_lanes then let '(alignMax, laneCeil) := vecStoreLanes op in Some (ImmMemory alignMax (Some laneCeil), [V128], [])
  else None.

Definition vec_lanes (op : Z) : option (vec_immediate * list Z * list Z) :=
  if one_of op vec_extract then let '(laneCeil, resultType) := vecExtractLanes op in Some (ImmLane laneCeil, [V128], [resultType])
  else if one_of op vec_replace then let '(laneCeil, paramType) := vecReplaceLanes op in Some (ImmLane laneCeil, [paramType; V128], [V128])
  else None.

Definition vec_bitwise (op : Z) : option (vec_immediate * list Z * list Z) :=
  if one_of op vec_splat then Some (ImmNone, [vecSplatValueTypes op], [V128])
  else if one_of op vec_logic then Some (ImmNone, [V128; V128], [V128])
  else if one_of op vec_ternary then Some (ImmNone, [V128; V128; V128], [V128])
  else if op =? OpcodeVecV128Not then Some (ImmNone, [V128], [V128])
  else if op =? OpcodeVecV128i8x16Shuffle then Some (ImmShuffle, [V128; V128], [V128])
  else None.

Definition vec_arithmetic (op : Z) : option (vec_immediate * list Z * list Z) :=
  if one_of op vec_shift then Some (ImmNone, [I32; V128], [V128])
  else if one_of op vec_compare then Some (ImmNone, [V128; V128], [V128])
  else if one_of op vec_unary then Some (ImmNone, [V128], [V128])
  else if one_of op vec_binary then Some (ImmNone, [V128; V128], [V128])
  else None.

Definition vec_case (op : Z) : option (vec_immediate * list Z * list Z) :=
  if op =? OpcodeVecV128Const then Some (ImmConst, [], [V128])
  else if one_of op vec_test then Some (ImmNone, [V128], [I32])
  else match vec_access op with
       | Some c => Some c
       | None => match vec_lanes op with
                 | Some c => Some c
                 | None => match vec_bitwise op with Some c => Some c | None => vec_arithmetic op end
                 end
       end.

(** A lane index below its ceiling; the position after it. *)
Definition lane_index (body : list Z) (pc laneCeil : Z) : vres Z :=
  if zlen body <=? pc then Err (VDec DEof)
  else let* lane := byte_at body pc in if laneCeil <=? lane then Err (VIndex lane) else Ok (pc + 1).

Definition validate_vec_memory (e : env) (body : list Z) (pc maxAlign : Z) (lane : option Z) (ins outs : list Z) (s : valueTypeStack)
    : vres (valueTypeStack * Z) :=
  let* '(align, addrType, pc) := memarg e body pc in
  if over_aligned align maxAlign then Err (VAlignment align)
  else
    let* pc := match lane with Some laneCeil => lane_index body pc laneCeil | None => Ok pc end in
    let* s := step_types (types e) (ins ++ [addrType]) outs s in Ok (s, pc).

(** The sixteen lanes of a shuffle, each below 32; the position after them. *)
Definition shuffle_lanes (body : list Z) (pc : Z) : vres Z :=
  if zlen body <=? pc + 15 then Err (VDec DEof)
  else if negb (forallb (λ l, l <? 32) (take 16 (drop (Z.to_nat pc) body))) then Err (VIndex 32)
  else Ok (pc + 16).

Definition validate_vec (e : env) (body : list Z) (pc : Z) (s : valueTypeStack) : vres (valueTypeStack * Z) :=
  let* '(op, size) := ReadVecOpcode body pc in
  if size =? 0 then Err (VInvalid OpcodeVecPrefix)
  else
    let pc := pc + size in
    let* _ := require (enabledFeatures e) CoreFeatureSIMD in
    let* _ := if OpcodeVecI8x16RelaxedSwizzle <=? op then require (enabledFeatures e) CoreFeatureRelaxedSIMD else Ok tt in
    match vec_case op with
    | None => Err (VInvalid op)
    | Some (ImmMemory maxAlign lane, ins, outs) => validate_vec_memory e body pc maxAlign lane ins outs s
    | Some (imm, ins, outs) =>
        let* pc := match imm with
                   | ImmConst => if zlen body <=? pc + 15 then Err (VDec DEof) else Ok (pc + 16)
                   | ImmShuffle => shuffle_lanes body pc
                   | ImmLane laneCeil => lane_index body pc laneCeil
                   | _ => Ok pc
                   end in
        let* s := step_types (types e) ins outs s in Ok (s, pc)
    end.

(** * Atomic instructions *)

(** The alignment in bytes and whether it has to be met exactly, what is popped, top
    first, and what is pushed. *)
Definition atomic_access (op addrType : Z) : option (bool * Z * list Z * list Z) :=
  if op =? OpcodeAtomicMemoryNotify then Some (false, 32 / 8, [I32; addrType], [I32])
  else if op =? OpcodeAtomicMemoryWait32 then Some (false, 32 / 8, [I64; I32; addrType], [I32])
  else if op =? OpcodeAtomicMemoryWait64 then Some (false, 64 / 8, [I64; I64; addrType], [I32])
  else if op =? OpcodeAtomicI32Load then Some (false, 32 / 8, [addrType], [I32])
  else if op =? OpcodeAtomicI64Load then Some (false, 64 / 8, [addrType], [I64])
  else if op =? OpcodeAtomicI32Load8U then Some (true, 1, [addrType], [I32])
  else if op =? OpcodeAtomicI32Load16U then Some (true, 16 / 8, [addrType], [I32])
  else if op =? OpcodeAtomicI64Load8U then Some (true, 1, [addrType], [I64])
  else if op =? OpcodeAtomicI64Load16U then Some (false, 16 / 8, [addrType], [I64])
  else if op =? OpcodeAtomicI64Load32U then Some (false, 32 / 8, [addrType], [I64])
  else if op =? OpcodeAtomicI32Store then Some (false, 32 / 8, [I32; addrType], [])
  else if op =? OpcodeAtomicI64Store then Some (false, 64 / 8, [I64; addrType], [])
  else if op =? OpcodeAtomicI32Store8 then Some (false, 1, [I32; addrType], [])
  else if op =? OpcodeAtomicI32Store16 then Some (false, 16 / 8, [I32; addrType], [])
  else if op =? OpcodeAtomicI64Store8 then Some (false, 1, [I64; addrType], [])
  else if op =? OpcodeAtomicI64Store16 then Some (false, 16 / 8, [I64; addrType], [])
  else if op =? OpcodeAtomicI64Store32 then Some (false, 32 / 8, [I64; addrType], [])
  else None.

Definition atomic_rmw (op addrType : Z) : option (bool * Z * list Z * list Z) :=
  if one_of op [OpcodeAtomicI32RmwAdd; OpcodeAtomicI32RmwSub; OpcodeAtomicI32RmwAnd;
                     OpcodeAtomicI32RmwOr; OpcodeAtomicI32RmwXor; OpcodeAtomicI32RmwXchg] then Some (false, 32 / 8, [I32; addrType], [I32])
  else if one_of op [OpcodeAtomicI32Rmw8AddU; OpcodeAtomicI32Rmw8SubU; OpcodeAtomicI32Rmw8AndU;
                     OpcodeAtomicI32Rmw8OrU; OpcodeAtomicI32Rmw8XorU; OpcodeAtomicI32Rmw8XchgU] then Some (false, 1, [I32; addrType], [I32])
  else if one_of op [OpcodeAtomicI32Rmw16AddU; OpcodeAtomicI32Rmw16SubU; OpcodeAtomicI32Rmw16AndU;
                     OpcodeAtomicI32Rmw16OrU; OpcodeAtomicI32Rmw16XorU; OpcodeAtomicI32Rmw16XchgU] then Some (false, 16 / 8, [I32; addrType], [I32])
  else if one_of op [OpcodeAtomicI64RmwAdd; OpcodeAtomicI64RmwSub; OpcodeAtomicI64RmwAnd;
                     OpcodeAtomicI64RmwOr; OpcodeAtomicI64RmwXor; OpcodeAtomicI64RmwXchg] then Some (false, 64 / 8, [I64; addrType], [I64])
  else if one_of op [OpcodeAtomicI64Rmw8AddU; OpcodeAtomicI64Rmw8SubU; OpcodeAtomicI64Rmw8AndU;
                     OpcodeAtomicI64Rmw8OrU; OpcodeAtomicI64Rmw8XorU; OpcodeAtomicI64Rmw8XchgU] then Some (false, 1, [I64; addrType], [I64])
  else if one_of op [OpcodeAtomicI64Rmw16AddU; OpcodeAtomicI64Rmw16SubU; OpcodeAtomicI64Rmw16AndU;
                     OpcodeAtomicI64Rmw16OrU; OpcodeAtomicI64Rmw16XorU; OpcodeAtomicI64Rmw16XchgU] then Some (false, 16 / 8, [I64; addrType], [I64])
  else if one_of op [OpcodeAtomicI64Rmw32AddU; OpcodeAtomicI64Rmw32SubU; OpcodeAtomicI64Rmw32AndU;
                     OpcodeAtomicI64Rmw32OrU; OpcodeAtomicI64Rmw32XorU; OpcodeAtomicI64Rmw32XchgU] then Some (false, 32 / 8, [I64; addrType], [I64])
  else None.

Definition atomic_cmpxchg (op addrType : Z) : option (bool * Z * list Z * list Z) :=
  if op =? OpcodeAtomicI32RmwCmpxchg then Some (false, 32 / 8, [I32; I32; addrType], [I32])
  else if op =? OpcodeAtomicI32Rmw8CmpxchgU then Some (false, 1, [I32; I32; addrType], [I32])
  else if op =? OpcodeAtomicI32Rmw16CmpxchgU then Some (false, 16 / 8, [I32; I32; addrType], [I32])
  else if op =? OpcodeAtomicI64RmwCmpxchg then Some (false, 64 / 8, [I64; I64; addrType], [I64])
  else if op =? OpcodeAtomicI64Rmw8CmpxchgU then Some (false, 1, [I64; I64; addrType], [I64])
  else if op =? OpcodeAtomicI64Rmw16CmpxchgU then Some (false, 16 / 8, [I64; I64; addrType], [I64])
  else if op =? OpcodeAtomicI64Rmw32CmpxchgU then Some (false, 32 / 8, [I64; I64; addrType], [I64])
  else None.

Definition atomic_case (op addrType : Z) : option (bool * Z * list Z * list Z) :=
  match atomic_access op addrType with
  | Some r => Some r
  | None => match atomic_rmw op addrType with Some r => Some r | None => atomic_cmpxchg op addrType end
  end.

Definition validate_atomic (e : env) (body : list Z) (pc : Z) (s : valueTypeStack) : vres (valueTypeStack * Z) :=
  let* op := byte_at body pc in
  let* _ := require (enabledFeatures e) CoreFeaturesThreads in
  let pc := pc + 1 in
  if op =? OpcodeAtomicFence then
    let* i := byte_at body pc in
    if negb (i =? 0) then Err (VReserved i) else Ok (s, pc + 1)
  else
    let* '(align, addrType, pc) := memarg e body pc in
    match atomic_case op addrType with
    | None => Err (VInvalid op)
    | Some (exact, bytes, ins, outs) =>
        if (if exact then negb (Z.shiftl 1 align =? bytes) else over_aligned align bytes) then Err (VAlignment align)
        else let* s := step_types (types e) ins outs s in Ok (s, pc)
    end.
