(* ===== verification/WasmValidGc.v ===== *)
(** The validation of the instructions of the GC proposal: [internal/wasm/gc_validation.go]
    and the case of [OpcodeGCPrefix] in [validateFunctionWithMaxStackValues]
    ([internal/wasm/func_validation.go]). *)
From Stdlib Require Import ZArith Lia.
From stdpp Require Import base list numbers option tactics gmap sets.
From S2P Require Import Prelude Leb128 GcHeap GcCollect GcOps GcTypes GcTypeDecode WasmOpcodes WasmValidStack WasmValidInstr.
Local Open Scope Z_scope.
Local Open Scope go_scope.

Definition unpackedType (st : Z) : Z := if (st =? ValueTypeI8) || (st =? ValueTypeI16) then I32 else st.

Definition isDefaultable (st : Z) : bool := negb (IsRef st) || IsNullable st.

#[global] Instance CompositeKind_eq_dec : EqDecision CompositeKind.
Proof. solve_decision. Defined.

Definition gcTypeAt (types : list TypeDef) (idx : Z) (want : CompositeKind) : vres TypeDef :=
  if OutOfRange idx (zlen types) then Err (VIndex idx)
  else let* t := nth_or_panic types idx in if negb (bool_decide (td_kind t = want)) then Err (VKind idx) else Ok t.

Definition fieldAt (t : TypeDef) (idx : Z) : vres FieldType :=
  if OutOfRange idx (zlen (td_fields t)) then Err (VIndex idx) else nth_or_panic (td_fields t) idx.

Definition checkPackedAccess (op st : Z) : vres unit :=
  let packed := (st =? ValueTypeI8) || (st =? ValueTypeI16) in
  if one_of op [OpcodeGCStructGet; OpcodeGCArrayGet] then if packed then Err (VPacked op) else Ok tt
  else if one_of op [OpcodeGCStructGetS; OpcodeGCStructGetU; OpcodeGCArrayGetS; OpcodeGCArrayGetU] then
    if negb packed then Err (VPacked op) else Ok tt
  else Ok tt.

(** [popVal] of the same type [count] times. *)
Fixpoint pop_times (types : list TypeDef) (count : nat) (want : Z) (s : valueTypeStack) : vres valueTypeStack :=
  match count with
  | O => Ok s
  | S count => let* s := popAndVerifyType types want s in pop_times types count want s
  end.

(** * The cases *)

Definition gc_struct_new (e : env) (body : list Z) (op pc : Z) (s : valueTypeStack) : vres (valueTypeStack * Z) :=
  let* '(idx, pc) := imm LoadUint32 body pc in
  let* t := gcTypeAt (types e) idx CompositeKindStruct in
  let* s :=
    if op =? OpcodeGCStructNewDefault then if forallb (λ f, isDefaultable (f_type f)) (td_fields t) then Ok s else Err (VNoDefault idx)
    else pops (types e) (rev ((λ f, unpackedType (f_type f)) <$> td_fields t)) s in
  Ok (push (ValueTypeConcreteRef idx false) s, pc).

Definition gc_struct_access (e : env) (body : list Z) (op pc : Z) (s : valueTypeStack) : vres (valueTypeStack * Z) :=
  let* '(typeIdx, pc) := imm LoadUint32 body pc in
  let* '(fieldIdx, pc) := imm LoadUint32 body pc in
  let* t := gcTypeAt (types e) typeIdx CompositeKindStruct in
  let* f := fieldAt t fieldIdx in
  let* _ := checkPackedAccess op (f_type f) in
  let* s :=
    if op =? OpcodeGCStructSet then
      if negb (f_mutable f) then Err (VImmutable fieldIdx) else popAndVerifyType (types e) (unpackedType (f_type f)) s
    else Ok s in
  let* s := popRef (types e) (ValueTypeConcreteRef typeIdx true) s in
  Ok (if op =? OpcodeGCStructSet then s else push (unpackedType (f_type f)) s, pc).

(** [t.Fields[0]] *)
Definition element (t : TypeDef) : vres FieldType := nth_or_panic (td_fields t) 0.

Definition gc_array_new (e : env) (body : list Z) (op pc : Z) (s : valueTypeStack) : vres (valueTypeStack * Z) :=
  let* '(idx, pc) := imm LoadUint32 body pc in
  let* '(count, pc) := if op =? OpcodeGCArrayNewFixed then imm LoadUint32 body pc else Ok (0, pc) in
  let* t := gcTypeAt (types e) idx CompositeKindArray in
  let* f := element t in
  let elem := f_type f in
  let* s :=
    if op =? OpcodeGCArrayNewDefault then
      if negb (isDefaultable elem) then Err (VNoDefault idx) else popAndVerifyType (types e) I32 s
    else if op =? OpcodeGCArrayNew then pops (types e) [I32; unpackedType elem] s
    else pop_times (types e) (Z.to_nat count) (unpackedType elem) s in
  Ok (push (ValueTypeConcreteRef idx false) s, pc).

(** The segment an array is made or filled from. *)
Definition gc_segment (e : env) (fromData : bool) (typeIdx segIdx elem : Z) : vres unit :=
  if fromData then
    if IsRef elem then Err VReference
    else match DataCountSection e with
         | None => Err VNoDataCount
         | Some n => if n <=? segIdx then Err (VIndex segIdx) else Ok tt
         end
  else if OutOfRange segIdx (zlen (ElementSection e)) then Err (VIndex segIdx)
  else let* t := nth_or_panic (ElementSection e) segIdx in
       if negb (isRefSubtypeOf (types e) t elem) then Err (VMismatch t elem) else Ok tt.

Definition gc_array_segment (e : env) (body : list Z) (op pc : Z) (s : valueTypeStack) : vres (valueTypeStack * Z) :=
  let* '(typeIdx, pc) := imm LoadUint32 body pc in
  let* '(segIdx, pc) := imm LoadUint32 body pc in
  let* t := gcTypeAt (types e) typeIdx CompositeKindArray in
  let* f := element t in
  let* _ := gc_segment e (one_of op [OpcodeGCArrayNewData; OpcodeGCArrayInitData]) typeIdx segIdx (f_type f) in
  let* s := pops (types e) [I32; I32] s in
  if one_of op [OpcodeGCArrayInitData; OpcodeGCArrayInitElem] then
    if negb (f_mutable f) then Err (VImmutable typeIdx)
    else
      let* s := popAndVerifyType (types e) I32 s in
      let* s := popRef (types e) (ValueTypeConcreteRef typeIdx true) s in Ok (s, pc)
  else Ok (push (ValueTypeConcreteRef typeIdx false) s, pc).

Definition gc_array_access (e : env) (body : list Z) (op pc : Z) (s : valueTypeStack) : vres (valueTypeStack * Z) :=
  let* '(idx, pc) := imm LoadUint32 body pc in
  let* t := gcTypeAt (types e) idx CompositeKindArray in
  let* f := element t in
  let* _ := checkPackedAccess op (f_type f) in
  let* s :=
    if op =? OpcodeGCArraySet then
      if negb (f_mutable f) then Err (VImmutable idx) else popAndVerifyType (types e) (unpackedType (f_type f)) s
    else Ok s in
  let* s := popAndVerifyType (types e) I32 s in
  let* s := popRef (types e) (ValueTypeConcreteRef idx true) s in
  Ok (if op =? OpcodeGCArraySet then s else push (unpackedType (f_type f)) s, pc).

Definition gc_array_fill (e : env) (body : list Z) (pc : Z) (s : valueTypeStack) : vres (valueTypeStack * Z) :=
  let* '(idx, pc) := imm LoadUint32 body pc in
  let* t := gcTypeAt (types e) idx CompositeKindArray in
  let* f := element t in
  if negb (f_mutable f) then Err (VImmutable idx)
  else
    let* s := pops (types e) [I32; unpackedType (f_type f); I32] s in
    let* s := popRef (types e) (ValueTypeConcreteRef idx true) s in Ok (s, pc).

Definition gc_array_copy (e : env) (body : list Z) (pc : Z) (s : valueTypeStack) : vres (valueTypeStack * Z) :=
  let* '(dstIdx, pc) := imm LoadUint32 body pc in
  let* '(srcIdx, pc) := imm LoadUint32 body pc in
  let* dst := gcTypeAt (types e) dstIdx CompositeKindArray in
  let* src := gcTypeAt (types e) srcIdx CompositeKindArray in
  let* fd := element dst in
  if negb (f_mutable fd) then Err (VImmutable dstIdx)
  else
    let* fs := element src in
    if negb (valueTypeMatches (types e) (f_type fs) (f_type fd)) then Err (VMismatch (f_type fs) (f_type fd))
    else
      let* s := pops (types e) [I32; I32] s in
      let* s := popRef (types e) (ValueTypeConcreteRef srcIdx true) s in
      let* s := popAndVerifyType (types e) I32 s in
      let* s := popRef (types e) (ValueTypeConcreteRef dstIdx true) s in Ok (s, pc).

Definition gc_convert (e : env) (op pc : Z) (s : valueTypeStack) : vres (valueTypeStack * Z) :=
  let '(from, to) := if op =? OpcodeGCExternConvertAny then (ValueTypeAnyref, ValueTypeExternref) else (ValueTypeExternref, ValueTypeAnyref) in
  let* '(have, s) := pop s in
  if have =? valueTypeUnknown then Ok (push to s, pc)
  else if negb (isRefSubtypeOf (types e) have from) then Err (VMismatch have from)
  else Ok (push (if negb (IsNullable have) then AsNonNullable to else to) s, pc).

Definition validateGCInstruction (e : env) (body : list Z) (op pc : Z) (s : valueTypeStack) : vres (valueTypeStack * Z) :=
  if one_of op [OpcodeGCStructNew; OpcodeGCStructNewDefault] then gc_struct_new e body op pc s
  else if one_of op [OpcodeGCStructGet; OpcodeGCStructGetS; OpcodeGCStructGetU; OpcodeGCStructSet] then gc_struct_access e body op pc s
  else if one_of op [OpcodeGCArrayNew; OpcodeGCArrayNewDefault; OpcodeGCArrayNewFixed] then gc_array_new e body op pc s
  else if one_of op [OpcodeGCArrayNewData; OpcodeGCArrayNewElem; OpcodeGCArrayInitData; OpcodeGCArrayInitElem] then gc_array_segment e body op pc s
  else if one_of op [OpcodeGCArrayGet; OpcodeGCArrayGetS; OpcodeGCArrayGetU; OpcodeGCArraySet] then gc_array_access e body op pc s
  else if op =? OpcodeGCArrayLen then let* s := popRef (types e) ValueTypeArrayref s in Ok (push I32 s, pc)
  else if op =? OpcodeGCArrayFill then gc_array_fill e body pc s
  else if op =? OpcodeGCArrayCopy then gc_array_copy e body pc s
  else if op =? OpcodeGCRefI31 then let* s := popAndVerifyType (types e) I32 s in Ok (push (AsNonNullable ValueTypeI31ref) s, pc)
  else if one_of op [OpcodeGCI31GetS; OpcodeGCI31GetU] then let* s := popRef (types e) ValueTypeI31ref s in Ok (push I32 s, pc)
  else if one_of op [OpcodeGCAnyConvertExtern; OpcodeGCExternConvertAny] then gc_convert e op pc s
  else Err (VInvalid op).

(** [ref.test] and [ref.cast]. *)
Definition gc_cast (e : env) (body : list Z) (op pc : Z) (s : valueTypeStack) : vres (valueTypeStack * Z) :=
  let nullable := (op =? OpcodeGCRefTestNull) || (op =? OpcodeGCRefCastNull) in
  let* '(target, pc) := decodeHeapTypeImmediate (types e) body pc nullable in
  let* '(actual, s) := pop s in
  let* _ :=
    if actual =? valueTypeUnknown then Ok tt
    else if negb (IsRef actual) then Err (VNotReference actual)
    else if negb (hierarchyTop (types e) actual =? hierarchyTop (types e) target) then Err (VHierarchy actual target)
    else Ok tt in
  Ok (push (if one_of op [OpcodeGCRefTest; OpcodeGCRefTestNull] then I32 else target) s, pc).

(** All but the last type, and the last. *)
Definition split_last (l : list Z) : option (list Z * Z) :=
  match rev l with [] => None | t :: r => Some (rev r, t) end.

Definition validateBrOnCast (e : env) (body : list Z) (op pc : Z) (s : stacks) : vres (stacks * Z) :=
  if zlen body <=? pc then Err (VDec DEof)
  else
    let* flags := byte_at body pc in
    if 3 <? flags then Err (VReserved flags)
    else
      let* '(label, pc) := imm LoadUint32 body (pc + 1) in
      let* '(rt1, pc) := decodeHeapTypeImmediate (types e) body pc (negb (Z.land flags 1 =? 0)) in
      let* '(rt2, pc) := decodeHeapTypeImmediate (types e) body pc (negb (Z.land flags 2 =? 0)) in
      if OutOfRange label (zlen (cs s)) then Err (VLabel label)
      else if negb (isRefSubtypeOf (types e) rt2 rt1) then Err (VMismatch rt2 rt1)
      else
        let diff := if IsNullable rt2 then AsNonNullable rt1 else rt1 in
        let* '(have, v) := pop (vs s) in
        if negb (have =? valueTypeUnknown) && negb (isRefSubtypeOf (types e) have rt1) then Err (VMismatch have rt1)
        else
          let '(branched, fallthrough_) := if op =? OpcodeGCBrOnCastFail then (diff, rt2) else (rt2, diff) in
          let* targetTypes := label_at s label in
          match split_last targetTypes with
          | None => Err (VLabel label)
          | Some (remaining, last) =>
              if negb (isRefSubtypeOf (types e) branched last) then Err (VMismatch branched last)
              else
                let* v := popResults (types e) remaining false v in
                Ok (set_vs s (push fallthrough_ (pushes remaining v)), pc)
          end.

(** The case of [OpcodeGCPrefix]. *)
Definition validate_gc (e : env) (body : list Z) (pc : Z) (s : stacks) : vres (stacks * Z) :=
  let* op := byte_at body pc in
  let* _ := require (enabledFeatures e) CoreFeatureGC in
  let pc := pc + 1 in
  if one_of op [OpcodeGCRefTest; OpcodeGCRefTestNull; OpcodeGCRefCast; OpcodeGCRefCastNull] then
    let* '(v, pc) := gc_cast e body op pc (vs s) in Ok (set_vs s v, pc)
  else if one_of op [OpcodeGCBrOnCast; OpcodeGCBrOnCastFail] then validateBrOnCast e body op pc s
  else let* '(v, pc) := validateGCInstruction e body op pc (vs s) in Ok (set_vs s v, pc).
