(* ===== verification/WasmValidate.v ===== *)
(** The validation of a function body: the control instructions and the walk of
    [validateFunctionWithMaxStackValues] ([internal/wasm/func_validation.go]). *)
From Stdlib Require Import ZArith Lia.
From stdpp Require Import base list numbers option tactics gmap sets.
From S2P Require Import Prelude Leb128 GcHeap GcCollect GcOps GcTypes GcTypeDecode WasmOpcodes.
From S2P Require Import WasmValidStack WasmValidInstr WasmValidSimd WasmValidGc.
Local Open Scope Z_scope.
Local Open Scope go_scope.

(** * Branches *)

Definition validate_br (e : env) (body : list Z) (pc : Z) (s : stacks) : vres (stacks * Z) :=
  let* '(index, pc) := imm LoadUint32 body pc in
  let* targetResultType := label_at s index in
  let* v := popResults (types e) targetResultType false (vs s) in
  Ok (set_vs s (unreachable v), pc).

Definition validate_br_if (e : env) (body : list Z) (pc : Z) (s : stacks) : vres (stacks * Z) :=
  let* '(index, pc) := imm LoadUint32 body pc in
  let* targetResultType := label_at s index in
  let* v := popAndVerifyType (types e) I32 (vs s) in
  let* v := popResults (types e) targetResultType false v in
  Ok (set_vs s (pushes targetResultType v), pc).

(** The label indices of [br_table]; a round takes at least a byte, so the length of the
    body is fuel enough. *)
Fixpoint read_labels (fuel : nat) (body : list Z) (n pc : Z) : vres (list Z * Z) :=
  if n <=? 0 then Ok ([], pc)
  else match fuel with
       | O => NoFuel
       | S fuel =>
           let* '(l, pc) := imm (reader DecodeUint32) body pc in
           let* '(ls, pc) := read_labels fuel body (n - 1) pc in
           Ok (l :: ls, pc)
       end.

(** The operands of the default label, its types last first; a type is marked unknown
    where the operand is. *)
Fixpoint pop_default (types : list TypeDef) (l : list Z) (s : valueTypeStack) : vres (list Z * valueTypeStack) :=
  match l with
  | [] => Ok ([], s)
  | exp :: l =>
      let* '(actual, s) := pop s in
      if negb (actual =? valueTypeUnknown) && negb (isRefSubtypeOf types actual exp) then Err (VMismatch actual exp)
      else
        let* '(marked, s) := pop_default types l s in
        Ok ((if actual =? valueTypeUnknown then valueTypeUnknown else exp) :: marked, s)
  end.

(** The types of the default label against those of another. *)
Fixpoint label_matches (types : list TypeDef) (d t : list Z) : bool :=
  match d, t with
  | [], [] => true
  | a :: d, b :: t => ((a =? valueTypeUnknown) || areRefTypesCompatible types a b) && label_matches types d t
  | _, _ => false
  end.

Fixpoint check_labels (e : env) (s : stacks) (d ls : list Z) : vres unit :=
  match ls with
  | [] => Ok tt
  | l :: ls =>
      let* t := label_at s l in
      if negb (label_matches (types e) d t) then Err (VLabel l) else check_labels e s d ls
  end.

Definition validate_br_table (e : env) (body : list Z) (pc : Z) (s : stacks) : vres (stacks * Z) :=
  let* '(nl, pc) := imm (reader DecodeUint32) body pc in
  let* '(ls, pc) := read_labels (length body) body nl pc in
  let* '(ln, pc) := imm (reader DecodeUint32) body pc in
  let* defaultLabelType := label_at s ln in
  let* v := popAndVerifyType (types e) I32 (vs s) in
  let* '(marked, v) :=
    if IsEnabled (enabledFeatures e) CoreFeatureReferenceTypes then
      let* '(m, v) := pop_default (types e) (rev defaultLabelType) v in Ok (rev m, v)
    else let* v := popResults (types e) defaultLabelType false v in Ok (defaultLabelType, v) in
  let* _ := check_labels e s marked ls in
  Ok (set_vs s (unreachable v), pc).

Definition validate_return (e : env) (pc : Z) (s : valueTypeStack) : vres (valueTypeStack * Z) :=
  let* s := requireStackValues (types e) (Results (functionType e)) false s in Ok (unreachable s, pc).

Definition validate_br_on_null (e : env) (body : list Z) (pc : Z) (s : stacks) : vres (stacks * Z) :=
  let* _ := require (enabledFeatures e) CoreFeatureTypedFunctionReferences in
  let* '(index, pc) := imm LoadUint32 body pc in
  let* targetResultType := label_at s index in
  let* '(tp, v) := pop_reference (vs s) in
  let* v := popResults (types e) targetResultType false v in
  Ok (set_vs s (push (non_null tp) (pushes targetResultType v)), pc).

Definition validate_br_on_non_null (e : env) (body : list Z) (pc : Z) (s : stacks) : vres (stacks * Z) :=
  let* _ := require (enabledFeatures e) CoreFeatureTypedFunctionReferences in
  let* '(index, pc) := imm LoadUint32 body pc in
  let* targetResultType := label_at s index in
  let* '(tp, v) := pop_reference (vs s) in
  match split_last targetResultType with
  | None => Err (VLabel index)
  | Some (remaining, lastTarget) =>
      let nonNullTp := non_null tp in
      if negb (nonNullTp =? valueTypeUnknown) && negb (isRefSubtypeOf (types e) nonNullTp lastTarget)
      then Err (VMismatch nonNullTp lastTarget)
      else let* v := popResults (types e) remaining false v in Ok (set_vs s (pushes remaining v), pc)
  end.

(** * Exceptions *)

Definition tag_params (e : env) (tagIndex : Z) : vres (list Z) :=
  if zlen (tags e) <=? tagIndex then Err (VIndex tagIndex)
  else
    let* i := nth_or_panic (tags e) tagIndex in
    let* t := nth_or_panic (types e) i in Ok (Params t).

Definition validate_throw (e : env) (body : list Z) (pc : Z) (s : valueTypeStack) : vres (valueTypeStack * Z) :=
  let* _ := require (enabledFeatures e) CoreFeatureExceptionHandling in
  let* '(tagIndex, pc) := imm LoadUint32 body pc in
  let* params := tag_params e tagIndex in
  let* s := pops (types e) (rev params) s in
  Ok (unreachable s, pc).

Definition validate_throw_ref (e : env) (pc : Z) (s : valueTypeStack) : vres (valueTypeStack * Z) :=
  let* _ := require (enabledFeatures e) CoreFeatureExceptionHandling in
  let* s := popAndVerifyType (types e) ValueTypeExnref s in
  Ok (unreachable s, pc).

(** What a catch clause delivers against what its label expects. *)
Fixpoint catch_matches (types : list TypeDef) (have want : list Z) : bool :=
  match have, want with
  | [], [] => true
  | a :: have, b :: want => isRefSubtypeOf types a b && catch_matches types have want
  | _, _ => false
  end.

Definition check_catch (e : env) (body : list Z) (pc : Z) (s : stacks) (catchTypes : list Z) : vres Z :=
  let* '(labelIdx, pc) := imm LoadUint32 body pc in
  let* expectedTypes := label_at s labelIdx in
  if negb (catch_matches (types e) catchTypes expectedTypes) then Err (VLabel labelIdx) else Ok pc.

(** A round of the loop over the catch clauses. *)
Definition validate_catch (e : env) (body : list Z) (pc : Z) (s : stacks) : vres Z :=
  let* catchKind := byte_at body pc in
  let pc := pc + 1 in
  if one_of catchKind [CatchKindCatch; CatchKindCatchRef] then
    let* '(tagIdx, pc) := imm LoadUint32 body pc in
    let* params := tag_params e tagIdx in
    check_catch e body pc s (params ++ (if catchKind =? CatchKindCatchRef then [AsNonNullable ValueTypeExnref] else []))
  else if one_of catchKind [CatchKindCatchAll; CatchKindCatchAllRef] then
    check_catch e body pc s (if catchKind =? CatchKindCatchAllRef then [AsNonNullable ValueTypeExnref] else [])
  else Err (VInvalid catchKind).

(** A clause takes at least two bytes, so the length of the body is fuel enough. *)
Fixpoint validate_catches (fuel : nat) (e : env) (body : list Z) (n pc : Z) (s : stacks) : vres Z :=
  if n <=? 0 then Ok pc
  else match fuel with
       | O => NoFuel
       | S fuel => let* pc := validate_catch e body pc s in validate_catches fuel e body (n - 1) pc s
       end.

(** * Blocks *)

(** What the instructions that open a block share: the block is pushed, its parameters
    are popped and pushed again, and the limit is set below them. *)
Definition enter_block (e : env) (b : controlBlock) (s : stacks) (v : valueTypeStack) : vres stacks :=
  let params := Params (blockType b) in
  let* v := popParams (types e) params false v in
  Ok (mkSt (pushStackLimit (length params) (pushes params v)) (b :: cs s) (initLocals s)).

Definition validate_block (e : env) (body : list Z) (op pc : Z) (s : stacks) : vres (stacks * Z) :=
  let* '(bt, next) := decodeBlockTypeFast (types e) (enabledFeatures e) body (pc + 1) in
  let b := mkCB pc 0 0 bt (next - (pc + 1)) (if op =? OpcodeBlock then 0 else op) (initLocals s) in
  let* v := if op =? OpcodeIf then popAndVerifyType (types e) I32 (vs s) else Ok (vs s) in
  let* s := enter_block e b s v in
  Ok (s, next).

(** The block is pushed without the initialised locals. *)
Definition validate_try_table (e : env) (body : list Z) (pc : Z) (s : stacks) : vres (stacks * Z) :=
  let* _ := require (enabledFeatures e) CoreFeatureExceptionHandling in
  let* '(bt, next) := decodeBlockTypeFast (types e) (enabledFeatures e) body (pc + 1) in
  let* '(catchCount, next) := imm LoadUint32 body next in
  let* next := validate_catches (length body) e body catchCount next s in
  let* s := enter_block e (mkCB (next - 1) 0 0 bt 0 OpcodeTryTable ∅) s (vs s) in
  Ok (s, next).

Definition validate_else (e : env) (pc : Z) (s : stacks) : vres (stacks * Z) :=
  match cs s with
  | [] => Panic
  | bl :: rest =>
      if negb (cb_op bl =? OpcodeIf) then Err (VElse pc)
      else
        let bl := mkCB (startAt bl) pc (endAt bl) (blockType bl) (blockTypeBytes bl) OpcodeElse (savedInitLocals bl) in
        let* v := popResults (types e) (Results (blockType bl)) true (vs s) in
        Ok (mkSt (pushes (Params (blockType bl)) (resetAtStackLimit v)) (bl :: rest) (savedInitLocals bl), pc + 1)
  end.

Definition validate_end (e : env) (pc : Z) (s : stacks) : vres (stacks * Z) :=
  match cs s with
  | [] => Panic
  | bl :: rest =>
      let init := match rest with [] => initLocals s | _ => savedInitLocals bl end in
      let ifMissingElse := (cb_op bl =? OpcodeIf) && (elseAt bl <=? startAt bl) in
      if ifMissingElse && negb (bool_decide (Results (blockType bl) = Params (blockType bl))) then Err (VCount (Results (blockType bl)))
      else
        let* v := requireStackValues (types e) (Results (blockType bl)) true (vs s) in
        Ok (mkSt (popStackLimit (pushes (Results (blockType bl)) (resetAtStackLimit v))) rest init, pc + 1)
  end.

(** * The walk *)

(** A case that changes only the operand types. *)
Definition on_values (s : stacks) (m : vres (valueTypeStack * Z)) : vres (stacks * Z) :=
  let* '(v, pc) := m in Ok (set_vs s v, pc).

(** One round of the walk, at the opcode at [pc]; the cases are in the order of the code. *)
Definition validate_instruction (e : env) (body : list Z) (pc : Z) (s : stacks) : vres (stacks * Z) :=
  let* op := byte_at body pc in
  let next := pc + 1 in
  match cs s with
  | [] => Err (VEnd pc)
  | _ =>
      if between OpcodeI32Load op OpcodeI64Store32 then on_values s (validate_load_store e body op next (vs s))
      else if between OpcodeMemorySize op OpcodeMemoryGrow then on_values s (validate_memory_size_grow e body op next (vs s))
      else if between OpcodeI32Const op OpcodeF64Const then on_values s (validate_const body op next (vs s))
      else if between OpcodeLocalGet op OpcodeGlobalSet then validate_variable e body op next s
      else if op =? OpcodeBr then validate_br e body next s
      else if op =? OpcodeBrIf then validate_br_if e body next s
      else if op =? OpcodeBrTable then validate_br_table e body next s
      else if op =? OpcodeThrow then on_values s (validate_throw e body next (vs s))
      else if op =? OpcodeThrowRef then on_values s (validate_throw_ref e next (vs s))
      else if op =? OpcodeTryTable then validate_try_table e body pc s
      else if one_of op [OpcodeCall; OpcodeTailCallReturnCall] then on_values s (validate_call e body op next (vs s))
      else if one_of op [OpcodeCallIndirect; OpcodeTailCallReturnCallIndirect] then on_values s (validate_call_indirect e body op next (vs s))
      else if one_of op [OpcodeCallRef; OpcodeReturnCallRef] then on_values s (validate_call_ref e body op next (vs s))
      else if between OpcodeI32Eqz op OpcodeI64Extend32S then on_values s (validate_numeric e op next (vs s))
      else if between OpcodeRefNull op OpcodeRefFunc then on_values s (validate_ref e body op next (vs s))
      else if op =? OpcodeRefAsNonNull then on_values s (validate_ref_as_non_null e next (vs s))
      else if op =? OpcodeBrOnNull then validate_br_on_null e body next s
      else if op =? OpcodeBrOnNonNull then validate_br_on_non_null e body next s
      else if op =? OpcodeRefEq then on_values s (validate_ref_eq e next (vs s))
      else if one_of op [OpcodeTableGet; OpcodeTableSet] then on_values s (validate_table_get_set e body op next (vs s))
      else if op =? OpcodeMiscPrefix then on_values s (validate_misc e body next (vs s))
      else if op =? OpcodeVecPrefix then on_values s (validate_vec e body next (vs s))
      else if op =? OpcodeBlock then validate_block e body op pc s
      else if op =? OpcodeGCPrefix then validate_gc e body next s
      else if op =? OpcodeAtomicPrefix then on_values s (validate_atomic e body next (vs s))
      else if op =? OpcodeLoop then validate_block e body op pc s
      else if op =? OpcodeIf then validate_block e body op pc s
      else if op =? OpcodeElse then validate_else e pc s
      else if op =? OpcodeEnd then validate_end e pc s
      else if op =? OpcodeReturn then on_values s (validate_return e next (vs s))
      else if op =? OpcodeDrop then on_values s (validate_drop next (vs s))
      else if one_of op [OpcodeSelect; OpcodeTypedSelect] then on_values s (validate_select e body op next (vs s))
      else if op =? OpcodeUnreachable then Ok (set_vs s (unreachable (vs s)), next)
      else if op =? OpcodeNop then Ok (s, next)
      else Err (VInvalid op)
  end.

(** The loop over the body; a round takes at least a byte, so the length of the body is
    fuel enough ([validation_total]). *)
Fixpoint validate_instructions (fuel : nat) (e : env) (body : list Z) (pc : Z) (s : stacks) : vres stacks :=
  if zlen body <=? pc then Ok s
  else match fuel with
       | O => NoFuel
       | S fuel => let* '(s, pc) := validate_instruction e body pc s in validate_instructions fuel e body pc s
       end.

Definition validateFunctionWithMaxStackValues (e : env) (maxStackValues : Z) (body : list Z) : vres unit :=
  let* s := validate_instructions (length body) e body 0 (reset (functionType e)) in
  match cs s with
  | _ :: _ => Err VIllNested
  | [] => if maxStackValues <? Z.of_nat (maximumStackPointer (vs s)) then Err (VTooManyValues (maximumStackPointer (vs s))) else Ok tt
  end.

Definition maximumValuesOnStack : Z := Z.shiftl 1 27.

Definition validateFunction (e : env) (body : list Z) : vres unit := validateFunctionWithMaxStackValues e maximumValuesOnStack body.
