(* ===== verification/WasmTyping.v ===== *)
(** The typing of function bodies as the specification of WebAssembly gives it: the
    signature of every instruction, and when a stretch of a body is a well-typed
    instruction sequence.  It is written after the specification (its opcode tables are
    numbers, not the names of the code) and says nothing of how a validator works.

    Operand types are listed top first; [bot] is below every type.  Where the validator of
    [internal/wasm/func_validation.go] accepts more than the specification, a rule has two
    forms: [lax] chooses the one of the code. *)
From Stdlib Require Import ZArith Lia.
From stdpp Require Import base list numbers option tactics gmap sets.
From S2P Require Import Prelude Leb128 GcHeap GcCollect GcOps GcTypes GcTypeDecode.
From S2P Require Import WasmValidStack WasmValidInstr WasmValidSimd WasmValidGc.
Local Open Scope Z_scope.
Local Open Scope go_scope.

(** * Signatures by opcode *)

Definition bot : Z := valueTypeUnknown.

Inductive shape : Type :=
| Un (t : Z) | Bin (t : Z) | Test (t : Z) | Rel (t : Z) | Cvt (from to : Z).

(** Operands, top first, and result. *)
Definition shape_types (s : shape) : list Z * list Z :=
  match s with
  | Un t => ([t], [t])
  | Bin t => ([t; t], [t])
  | Test t => ([t], [I32])
  | Rel t => ([t; t], [I32])
  | Cvt from to => ([from], [to])
  end.

Fixpoint in_table {A} (l : list (Z * Z * A)) (op : Z) : option A :=
  match l with
  | [] => None
  | (lo, hi, a) :: l => if between lo op hi then Some a else in_table l op
  end.

(** The numeric instructions of the core specification. *)
Definition spec_numeric : list (Z * Z * shape) :=
  [(0x45, 0x45, Test I32); (0x46, 0x4f, Rel I32); (0x50, 0x50, Test I64); (0x51, 0x5a, Rel I64);
   (0x5b, 0x60, Rel F32); (0x61, 0x66, Rel F64);
   (0x67, 0x69, Un I32); (0x6a, 0x78, Bin I32); (0x79, 0x7b, Un I64); (0x7c, 0x8a, Bin I64);
   (0x8b, 0x91, Un F32); (0x92, 0x98, Bin F32); (0x99, 0x9f, Un F64); (0xa0, 0xa6, Bin F64);
   (0xa7, 0xa7, Cvt I64 I32); (0xa8, 0xa9, Cvt F32 I32); (0xaa, 0xab, Cvt F64 I32);
   (0xac, 0xad, Cvt I32 I64); (0xae, 0xaf, Cvt F32 I64); (0xb0, 0xb1, Cvt F64 I64);
   (0xb2, 0xb3, Cvt I32 F32); (0xb4, 0xb5, Cvt I64 F32); (0xb6, 0xb6, Cvt F64 F32);
   (0xb7, 0xb8, Cvt I32 F64); (0xb9, 0xba, Cvt I64 F64); (0xbb, 0xbb, Cvt F32 F64);
   (0xbc, 0xbc, Cvt F32 I32); (0xbd, 0xbd, Cvt F64 I64); (0xbe, 0xbe, Cvt I32 F32); (0xbf, 0xbf, Cvt I64 F64)].

Definition spec_sign_extension : list (Z * Z * shape) := [(0xc0, 0xc1, Un I32); (0xc2, 0xc4, Un I64)].

(** The saturating truncations, after the prefix [0xfc]. *)
Definition spec_trunc_sat : list (Z * Z * shape) :=
  [(0, 1, Cvt F32 I32); (2, 3, Cvt F64 I32); (4, 5, Cvt F32 I64); (6, 7, Cvt F64 I64)].

(** Loads and stores: the width in bytes and the type of the value. *)
Definition spec_load : list (Z * Z * (Z * Z)) :=
  [(0x28, 0x28, (4, I32)); (0x29, 0x29, (8, I64)); (0x2a, 0x2a, (4, F32)); (0x2b, 0x2b, (8, F64));
   (0x2c, 0x2d, (1, I32)); (0x2e, 0x2f, (2, I32)); (0x30, 0x31, (1, I64)); (0x32, 0x33, (2, I64)); (0x34, 0x35, (4, I64))].

Definition spec_store : list (Z * Z * (Z * Z)) :=
  [(0x36, 0x36, (4, I32)); (0x37, 0x37, (8, I64)); (0x38, 0x38, (4, F32)); (0x39, 0x39, (8, F64));
   (0x3a, 0x3a, (1, I32)); (0x3b, 0x3b, (2, I32)); (0x3c, 0x3c, (1, I64)); (0x3d, 0x3d, (2, I64)); (0x3e, 0x3e, (4, I64))].

(** ** Vector instructions, after the prefix [0xfd] *)

Definition vu : list Z * list Z := ([V128], [V128]).
Definition vb : list Z * list Z := ([V128; V128], [V128]).
Definition vt : list Z * list Z := ([V128; V128; V128], [V128]).
Definition vtest : list Z * list Z := ([V128], [I32]).
Definition vshift : list Z * list Z := ([I32; V128], [V128]).

(** Those without an immediate. *)
Definition spec_vec : list (Z * Z * (list Z * list Z)) :=
  [(0x0e, 0x0e, vb); (0x0f, 0x11, ([I32], [V128])); (0x12, 0x12, ([I64], [V128])); (0x13, 0x13, ([F32], [V128]));
   (0x14, 0x14, ([F64], [V128])); (0x23, 0x4c, vb); (0x4d, 0x4d, vu); (0x4e, 0x51, vb); (0x52, 0x52, vt); (0x53, 0x53, vtest);
   (0x5e, 0x5f, vu); (0x60, 0x62, vu); (0x63, 0x64, vtest); (0x65, 0x66, vb); (0x67, 0x6a, vu); (0x6b, 0x6d, vshift);
   (0x6e, 0x73, vb); (0x74, 0x75, vu); (0x76, 0x79, vb); (0x7a, 0x7a, vu); (0x7b, 0x7b, vb); (0x7c, 0x7f, vu);
   (0x80, 0x81, vu); (0x82, 0x82, vb); (0x83, 0x84, vtest); (0x85, 0x86, vb); (0x87, 0x8a, vu); (0x8b, 0x8d, vshift);
   (0x8e, 0x93, vb); (0x94, 0x94, vu); (0x95, 0x99, vb); (0x9b, 0x9f, vb);
   (0xa0, 0xa1, vu); (0xa3, 0xa4, vtest); (0xa7, 0xaa, vu); (0xab, 0xad, vshift); (0xae, 0xae, vb); (0xb1, 0xb1, vb);
   (0xb5, 0xba, vb); (0xbc, 0xbf, vb);
   (0xc0, 0xc1, vu); (0xc3, 0xc4, vtest); (0xc7, 0xca, vu); (0xcb, 0xcd, vshift); (0xce, 0xce, vb); (0xd1, 0xd1, vb);
   (0xd5, 0xdf, vb);
   (0xe0, 0xe1, vu); (0xe3, 0xe3, vu); (0xe4, 0xeb, vb); (0xec, 0xed, vu); (0xef, 0xef, vu); (0xf0, 0xf7, vb); (0xf8, 0xff, vu);
   (0x100, 0x100, vb); (0x101, 0x104, vu); (0x105, 0x10c, vt); (0x10d, 0x112, vb); (0x113, 0x113, vt)].

(** Loads of a whole vector, and the lanes that are loaded and stored: their bytes. *)
Definition spec_vec_load : list (Z * Z * Z) :=
  [(0x00, 0x00, 16); (0x01, 0x06, 8); (0x07, 0x07, 1); (0x08, 0x08, 2); (0x09, 0x09, 4); (0x0a, 0x0a, 8); (0x5c, 0x5c, 4); (0x5d, 0x5d, 8)].
Definition spec_load_lane : list (Z * Z * Z) := [(0x54, 0x54, 1); (0x55, 0x55, 2); (0x56, 0x56, 4); (0x57, 0x57, 8)].
Definition spec_store_lane : list (Z * Z * Z) := [(0x58, 0x58, 1); (0x59, 0x59, 2); (0x5a, 0x5a, 4); (0x5b, 0x5b, 8)].

(** The number of lanes and the type of a lane as a value. *)
Definition spec_extract : list (Z * Z * (Z * Z)) :=
  [(0x15, 0x16, (16, I32)); (0x18, 0x19, (8, I32)); (0x1b, 0x1b, (4, I32)); (0x1d, 0x1d, (2, I64)); (0x1f, 0x1f, (4, F32)); (0x21, 0x21, (2, F64))].
Definition spec_replace : list (Z * Z * (Z * Z)) :=
  [(0x17, 0x17, (16, I32)); (0x1a, 0x1a, (8, I32)); (0x1c, 0x1c, (4, I32)); (0x1e, 0x1e, (2, I64)); (0x20, 0x20, (4, F32)); (0x22, 0x22, (2, F64))].

(** ** Atomic instructions, after the prefix [0xfe] *)

(** The widths of the seven accesses of a group, and the types they access. *)
Definition atomic_widths : list (Z * Z) := [(4, I32); (8, I64); (1, I32); (2, I32); (1, I64); (2, I64); (4, I64)].

(** From [0x10] on, groups of seven: loads, stores, six read-modify-writes, and
    compare-exchange.  The width, and the operands above the address. *)
Definition spec_atomic (op : Z) : option (Z * list Z * list Z) :=
  if op =? 0x00 then Some (4, [I32], [I32])
  else if op =? 0x01 then Some (4, [I64; I32], [I32])
  else if op =? 0x02 then Some (8, [I64; I64], [I32])
  else if between 0x10 op 0x4e then
    let group := (op - 0x10) / 7 in
    match atomic_widths !! Z.to_nat ((op - 0x10) mod 7) with
    | None => None
    | Some (w, t) =>
        if group =? 0 then Some (w, [], [t])
        else if group =? 1 then Some (w, [t], [])
        else if group =? 8 then Some (w, [t; t], [t])
        else Some (w, [t], [t])
    end
  else None.

(** * Rules *)

Section typing.
Context (lax : bool) (e : env) (body : list Z).

(** ** Subtyping *)

Definition sub (a b : Z) : Prop := a = b ∨ a = bot ∨ valueTypeMatches (types e) a b = true.
Definition subs : list Z → list Z → Prop := Forall2 sub.

(** The reference an instruction asks for: the code lets an operand of dead code pass as
    one of any type. *)
Definition reference (t : Z) : Prop := IsRef t = true ∨ (lax = true ∧ t = bot).

(** ** Immediates *)

Definition at_index {A} (l : list A) (i : Z) (a : A) : Prop := 0 ≤ i ∧ l !! Z.to_nat i = Some a.

Definition byte (pc b : Z) : Prop := at_index body pc b.
Definition u32_at (pc v pc' : Z) : Prop := imm LoadUint32 body pc = Ok (v, pc').
Definition enabled (feature : Z) : Prop := IsEnabled (enabledFeatures e) feature = true.

(** A memory argument: the alignment in bytes, and the type of the addresses. *)
Definition memarg_at (pc bytes at_ pc' : Z) : Prop :=
  ∃ align offset i is64,
    readMemArg (enabledFeatures e) body pc (IsEnabled (enabledFeatures e) CoreFeatureMemory64) = Ok (align, offset, i, pc') ∧
    at_index (memories e) i is64 ∧ at_ = memory_index_type is64 ∧ (is64 = false → offset < 2 ^ 32) ∧
    0 ≤ align ∧ bytes = 2 ^ align.

Definition memory_at (pc at_ pc' : Z) : Prop :=
  ∃ i is64, u32_at pc i pc' ∧ at_index (memories e) i is64 ∧ at_ = memory_index_type is64.

Definition table_at (pc t at_ pc' : Z) : Prop :=
  ∃ i is64, u32_at pc i pc' ∧ at_index (tables e) i (t, is64) ∧ at_ = table_index_type is64.

Definition data_at (pc pc' : Z) : Prop := ∃ i, DataCountSection e ≠ None ∧ u32_at pc i pc' ∧ 0 ≤ i < DataSection e.
Definition elem_at (pc t pc' : Z) : Prop := ∃ i, u32_at pc i pc' ∧ at_index (ElementSection e) i t.
Definition type_at (pc i : Z) (t : TypeDef) (pc' : Z) : Prop := u32_at pc i pc' ∧ at_index (types e) i t.

(** A type that can be called; the code takes any type for a function type. *)
Definition function_type (t : TypeDef) : Prop := lax = true ∨ td_kind t = CompositeKindFunc.

(** The narrower of two index types. *)
Definition min_index (a b : Z) : Z := if a =? I32 then I32 else b.

(** ** Miscellaneous instructions: what follows the opcode, and the signature *)

Inductive misc_at (op pc : Z) : Z → list Z → list Z → Prop :=
| M_trunc_sat s : in_table spec_trunc_sat op = Some s → misc_at op pc pc (shape_types s).1 (shape_types s).2
| M_memory_init at_ p pc' : op = 0x08 → data_at pc p → memory_at p at_ pc' → misc_at op pc pc' [I32; I32; at_] []
| M_data_drop pc' : op = 0x09 → data_at pc pc' → misc_at op pc pc' [] []
| M_memory_copy ad as_ p pc' : op = 0x0a → memory_at pc ad p → memory_at p as_ pc' → misc_at op pc pc' [min_index as_ ad; as_; ad] []
| M_memory_fill at_ pc' : op = 0x0b → memory_at pc at_ pc' → misc_at op pc pc' [at_; I32; at_] []
| M_table_init t t' at_ p pc' : op = 0x0c → elem_at pc t p → table_at p t' at_ pc' → sub t t' → misc_at op pc pc' [I32; I32; at_] []
| M_elem_drop t pc' : op = 0x0d → elem_at pc t pc' → misc_at op pc pc' [] []
| M_table_copy td ts ad as_ p pc' :
    op = 0x0e → table_at pc td ad p → table_at p ts as_ pc' → sub ts td → misc_at op pc pc' [min_index as_ ad; as_; ad] []
| M_table_grow t at_ pc' : op = 0x0f → table_at pc t at_ pc' → misc_at op pc pc' [at_; t] [at_]
| M_table_size t at_ pc' : op = 0x10 → table_at pc t at_ pc' → misc_at op pc pc' [] [at_]
| M_table_fill t at_ pc' : op = 0x11 → table_at pc t at_ pc' → misc_at op pc pc' [at_; t; at_] [].

(** ** Vector instructions *)

Definition lane_at (pc lanes pc' : Z) : Prop := ∃ i, byte pc i ∧ i < lanes ∧ pc' = pc + 1.

Inductive vec_at (op pc : Z) : Z → list Z → list Z → Prop :=
| V_plain ins outs : in_table spec_vec op = Some (ins, outs) → vec_at op pc pc ins outs
| V_const : op = 0x0c → vec_at op pc (pc + 16) [] [V128]
| V_shuffle : op = 0x0d → (∀ k, 0 ≤ k < 16 → ∃ b, byte (pc + k) b ∧ b < 32) → vec_at op pc (pc + 16) [V128; V128] [V128]
| V_load w bytes at_ pc' : in_table spec_vec_load op = Some w → memarg_at pc bytes at_ pc' → bytes ≤ w → vec_at op pc pc' [at_] [V128]
| V_store bytes at_ pc' : op = 0x0b → memarg_at pc bytes at_ pc' → bytes ≤ 16 → vec_at op pc pc' [V128; at_] []
| V_load_lane w bytes at_ p pc' :
    in_table spec_load_lane op = Some w → memarg_at pc bytes at_ p → bytes ≤ w → lane_at p (16 / w) pc' →
    vec_at op pc pc' [V128; at_] [V128]
| V_store_lane w bytes at_ p pc' :
    in_table spec_store_lane op = Some w → memarg_at pc bytes at_ p → bytes ≤ w → lane_at p (16 / w) pc' →
    vec_at op pc pc' [V128; at_] []
| V_extract n t pc' : in_table spec_extract op = Some (n, t) → lane_at pc n pc' → vec_at op pc pc' [V128] [t]
| V_replace n t pc' : in_table spec_replace op = Some (n, t) → lane_at pc n pc' → vec_at op pc pc' [t; V128] [V128].

(** ** Atomic instructions *)

Inductive atomic_at (op pc : Z) : Z → list Z → list Z → Prop :=
| A_fence : op = 0x03 → byte pc 0 → atomic_at op pc (pc + 1) [] []
| A_access w bytes at_ ins outs pc' :
    spec_atomic op = Some (w, ins, outs) → memarg_at pc bytes at_ pc' → (if lax then bytes ≤ w else bytes = w) →
    atomic_at op pc pc' (ins ++ [at_]) outs.

(** ** Instructions of the GC proposal *)

Definition kind_at (pc i : Z) (k : CompositeKind) (t : TypeDef) (pc' : Z) : Prop := type_at pc i t pc' ∧ td_kind t = k.
Definition array_at (pc i : Z) (f : FieldType) (pc' : Z) : Prop := ∃ t, kind_at pc i CompositeKindArray t pc' ∧ at_index (td_fields t) 0 f.
Definition packed (st : Z) : Prop := st = ValueTypeI8 ∨ st = ValueTypeI16.

(** The plain access reads what is not packed, the signed and unsigned ones what is. *)
Definition access (plain signed unsigned op st : Z) : Prop := (op = plain ∧ ¬ packed st) ∨ ((op = signed ∨ op = unsigned) ∧ packed st).

Definition heap_type_at (pc : Z) (nullable : bool) (t pc' : Z) : Prop := decodeHeapTypeImmediate (types e) body pc nullable = Ok (t, pc').

Inductive gc_at (op pc : Z) : Z → list Z → list Z → Prop :=
| G_struct_new i t pc' :
    op = 0 → kind_at pc i CompositeKindStruct t pc' →
    gc_at op pc pc' (rev ((λ f, unpackedType (f_type f)) <$> td_fields t)) [ValueTypeConcreteRef i false]
| G_struct_new_default i t pc' :
    op = 1 → kind_at pc i CompositeKindStruct t pc' → Forall (λ f, isDefaultable (f_type f) = true) (td_fields t) →
    gc_at op pc pc' [] [ValueTypeConcreteRef i false]
| G_struct_get i t j f p pc' :
    kind_at pc i CompositeKindStruct t p → u32_at p j pc' → at_index (td_fields t) j f → access 2 3 4 op (f_type f) →
    gc_at op pc pc' [ValueTypeConcreteRef i true] [unpackedType (f_type f)]
| G_struct_set i t j f p pc' :
    op = 5 → kind_at pc i CompositeKindStruct t p → u32_at p j pc' → at_index (td_fields t) j f → f_mutable f = true →
    gc_at op pc pc' [unpackedType (f_type f); ValueTypeConcreteRef i true] []
| G_array_new i f pc' :
    op = 6 → array_at pc i f pc' → gc_at op pc pc' [I32; unpackedType (f_type f)] [ValueTypeConcreteRef i false]
| G_array_new_default i f pc' :
    op = 7 → array_at pc i f pc' → isDefaultable (f_type f) = true → gc_at op pc pc' [I32] [ValueTypeConcreteRef i false]
| G_array_new_fixed i f n p pc' :
    op = 8 → array_at pc i f p → u32_at p n pc' →
    gc_at op pc pc' (replicate (Z.to_nat n) (unpackedType (f_type f))) [ValueTypeConcreteRef i false]
| G_array_data i f j n p pc' :
    op = 9 ∨ op = 18 → array_at pc i f p → u32_at p j pc' → IsRef (f_type f) = false → DataCountSection e = Some n → j < n →
    (op = 18 → f_mutable f = true) →
    gc_at op pc pc' (if op =? 9 then [I32; I32] else [I32; I32; I32; ValueTypeConcreteRef i true])
      (if op =? 9 then [ValueTypeConcreteRef i false] else [])
| G_array_elem i f t p pc' :
    op = 10 ∨ op = 19 → array_at pc i f p → elem_at p t pc' → sub t (f_type f) → (op = 19 → f_mutable f = true) →
    gc_at op pc pc' (if op =? 10 then [I32; I32] else [I32; I32; I32; ValueTypeConcreteRef i true])
      (if op =? 10 then [ValueTypeConcreteRef i false] else [])
| G_array_get i f pc' :
    array_at pc i f pc' → access 11 12 13 op (f_type f) → gc_at op pc pc' [I32; ValueTypeConcreteRef i true] [unpackedType (f_type f)]
| G_array_set i f pc' :
    op = 14 → array_at pc i f pc' → f_mutable f = true → gc_at op pc pc' [unpackedType (f_type f); I32; ValueTypeConcreteRef i true] []
| G_array_len : op = 15 → gc_at op pc pc [ValueTypeArrayref] [I32]
| G_array_fill i f pc' :
    op = 16 → array_at pc i f pc' → f_mutable f = true →
    gc_at op pc pc' [I32; unpackedType (f_type f); I32; ValueTypeConcreteRef i true] []
| G_array_copy i f j g p pc' :
    op = 17 → array_at pc i f p → array_at p j g pc' → f_mutable f = true → sub (f_type g) (f_type f) →
    gc_at op pc pc' [I32; I32; ValueTypeConcreteRef j true; I32; ValueTypeConcreteRef i true] []
| G_ref_test t t' pc' :
    op = 20 ∨ op = 21 → heap_type_at pc (op =? 21) t' pc' → IsRef t = true → hierarchyTop (types e) t = hierarchyTop (types e) t' →
    gc_at op pc pc' [t] [I32]
| G_ref_cast t t' pc' :
    op = 22 ∨ op = 23 → heap_type_at pc (op =? 23) t' pc' → IsRef t = true → hierarchyTop (types e) t = hierarchyTop (types e) t' →
    gc_at op pc pc' [t] [t']
| G_any_convert t : op = 26 → sub t ValueTypeExternref → t ≠ bot →
    gc_at op pc pc [t] [if IsNullable t then ValueTypeAnyref else AsNonNullable ValueTypeAnyref]
| G_extern_convert t : op = 27 → sub t ValueTypeAnyref → t ≠ bot →
    gc_at op pc pc [t] [if IsNullable t then ValueTypeExternref else AsNonNullable ValueTypeExternref]
| G_ref_i31 : op = 28 → gc_at op pc pc [I32] [AsNonNullable ValueTypeI31ref]
| G_i31_get : op = 29 ∨ op = 30 → gc_at op pc pc [ValueTypeI31ref] [I32].

(** ** Instructions that neither branch nor touch locals *)

(** The annotation of a typed [select]: one value type. *)
Definition annotation (t pc pc' : Z) : Prop :=
  byte (pc + 1) 1 ∧
  ((byte (pc + 2) t ∧ t ∈ [I32; I64; F32; F64; V128; ValueTypeFuncref; ValueTypeExternref] ∧ pc' = pc + 3) ∨
   (∃ (nullable : bool) ht, byte (pc + 2) (if nullable then RefPrefixNullable else RefPrefixNonNullable) ∧
      imm (reader DecodeInt33AsInt64) body (pc + 3) = Ok (ht, pc') ∧
      ((ht ∈ [HeapTypeFunc; HeapTypeExtern; HeapTypeExn] ∧ t = (if nullable then u8 (ht + 0x80) else AsNonNullable (u8 (ht + 0x80)))) ∨
       (0 ≤ ht < zlen (types e) ∧ t = ValueTypeConcreteRef ht nullable)))).

Inductive plain_at (pc : Z) : Z → list Z → list Z → Prop :=
| P_nop : byte pc 0x01 → plain_at pc (pc + 1) [] []
| P_drop t : byte pc 0x1a → plain_at pc (pc + 1) [t] []
| P_select t : byte pc 0x1b → IsRef t = false → plain_at pc (pc + 1) [I32; t; t] [t]
| P_select_t t t' pc' : byte pc 0x1c → annotation t' pc pc' → (lax = true ∨ t = t') → plain_at pc pc' [I32; t; t] [t]
| P_load op w t bytes at_ pc' :
    byte pc op → in_table spec_load op = Some (w, t) → memarg_at (pc + 1) bytes at_ pc' → bytes ≤ w → plain_at pc pc' [at_] [t]
| P_store op w t bytes at_ pc' :
    byte pc op → in_table spec_store op = Some (w, t) → memarg_at (pc + 1) bytes at_ pc' → bytes ≤ w → plain_at pc pc' [t; at_] []
| P_memory_size at_ pc' : byte pc 0x3f → memory_at (pc + 1) at_ pc' → plain_at pc pc' [] [at_]
| P_memory_grow at_ pc' : byte pc 0x40 → memory_at (pc + 1) at_ pc' → plain_at pc pc' [at_] [at_]
| P_i32_const n pc' : byte pc 0x41 → imm LoadInt32 body (pc + 1) = Ok (n, pc') → plain_at pc pc' [] [I32]
| P_i64_const n pc' : byte pc 0x42 → imm LoadInt64 body (pc + 1) = Ok (n, pc') → plain_at pc pc' [] [I64]
| P_f32_const : byte pc 0x43 → plain_at pc (pc + 5) [] [F32]
| P_f64_const : byte pc 0x44 → plain_at pc (pc + 9) [] [F64]
| P_global_get i t m pc' : byte pc 0x23 → u32_at (pc + 1) i pc' → at_index (globals e) i (t, m) → plain_at pc pc' [] [t]
| P_global_set i t pc' : byte pc 0x24 → u32_at (pc + 1) i pc' → at_index (globals e) i (t, true) → plain_at pc pc' [t] []
| P_table_get t at_ pc' : byte pc 0x25 → table_at (pc + 1) t at_ pc' → plain_at pc pc' [at_] [t]
| P_table_set t at_ pc' : byte pc 0x26 → table_at (pc + 1) t at_ pc' → plain_at pc pc' [t; at_] []
| P_numeric op s : byte pc op → in_table spec_numeric op = Some s → plain_at pc (pc + 1) (shape_types s).1 (shape_types s).2
| P_sign_extension op s :
    byte pc op → enabled CoreFeatureSignExtensionOps → in_table spec_sign_extension op = Some s →
    plain_at pc (pc + 1) (shape_types s).1 (shape_types s).2
| P_ref_null_abstract h : byte pc 0xd0 → byte (pc + 1) h → 0x69 ≤ h ≤ 0x74 → plain_at pc (pc + 2) [] [h]
| P_ref_null i t pc' :
    byte pc 0xd0 → imm (reader DecodeUint32) body (pc + 1) = Ok (i, pc') → at_index (types e) i t →
    plain_at pc pc' [] [ValueTypeConcreteRef i true]
| P_ref_is_null t : byte pc 0xd1 → IsRef t = true → plain_at pc (pc + 1) [t] [I32]
| P_ref_func i t pc' :
    byte pc 0xd2 → u32_at (pc + 1) i pc' → at_index (functions e) i t → i ∈ declaredFunctionIndexes e →
    plain_at pc pc' [] [if IsEnabled (enabledFeatures e) CoreFeatureTypedFunctionReferences then ValueTypeConcreteRef t false else ValueTypeFuncref]
(** Without typed function references a declared index does not have to be a function. *)
| P_ref_func_undefined i pc' :
    lax = true → IsEnabled (enabledFeatures e) CoreFeatureTypedFunctionReferences = false →
    byte pc 0xd2 → u32_at (pc + 1) i pc' → zlen (functions e) ≤ i → i ∈ declaredFunctionIndexes e →
    plain_at pc pc' [] [ValueTypeFuncref]
| P_ref_eq : byte pc 0xd3 → plain_at pc (pc + 1) [ValueTypeEqref; ValueTypeEqref] [I32]
| P_ref_as_non_null t : byte pc 0xd4 → reference t → plain_at pc (pc + 1) [t] [non_null t]
| P_call i ti ft pc' :
    byte pc 0x10 → u32_at (pc + 1) i pc' → at_index (functions e) i ti → at_index (types e) ti ft → function_type ft →
    plain_at pc pc' (rev (Params ft)) (rev (Results ft))
| P_call_indirect i ft t at_ p pc' :
    byte pc 0x11 → type_at (pc + 1) i ft p → function_type ft → table_at p t at_ pc' → hierarchyTop (types e) t = ValueTypeFuncref →
    plain_at pc pc' (at_ :: rev (Params ft)) (rev (Results ft))
| P_call_ref i ft pc' :
    byte pc 0x14 → type_at (pc + 1) i ft pc' → function_type ft →
    plain_at pc pc' (ValueTypeConcreteRef i true :: rev (Params ft)) (rev (Results ft))
| P_misc op p pc' ins outs : byte pc 0xfc → u32_at (pc + 1) op p → misc_at op p pc' ins outs → plain_at pc pc' ins outs
| P_vec op size pc' ins outs :
    byte pc 0xfd → ReadVecOpcode body (pc + 1) = Ok (op, size) → size ≠ 0 → vec_at op (pc + 1 + size) pc' ins outs → plain_at pc pc' ins outs
| P_atomic op pc' ins outs : byte pc 0xfe → byte (pc + 1) op → atomic_at op (pc + 2) pc' ins outs → plain_at pc pc' ins outs
| P_gc op pc' ins outs : byte pc 0xfb → byte (pc + 1) op → gc_at op (pc + 2) pc' ins outs → plain_at pc pc' ins outs.

(** ** Locals *)

(** [I] are the locals that are known to be set. *)
Inductive local_at (I : gset Z) (pc : Z) : Z → list Z → list Z → gset Z → Prop :=
| L_get i t pc' :
    byte pc 0x20 → u32_at (pc + 1) i pc' → local_type e i = Some t → (needs_init e i = true → i ∈ I) → local_at I pc pc' [] [t] I
| L_set i t pc' : byte pc 0x21 → u32_at (pc + 1) i pc' → local_type e i = Some t → local_at I pc pc' [t] [] ({[i]} ∪ I)
| L_tee i t pc' : byte pc 0x22 → u32_at (pc + 1) i pc' → local_type e i = Some t → local_at I pc pc' [t] [t] ({[i]} ∪ I).

(** ** Branches *)

(** The types a label takes; the labels are listed from the innermost. *)
Definition label_index (L : list (list Z)) (l : Z) (ts : list Z) : Prop := at_index L l ts.

Inductive labels_at : Z → list Z → Z → Prop :=
| La_nil pc : labels_at pc [] pc
| La_cons pc l p ls pc' : imm (reader DecodeUint32) body pc = Ok (l, p) → labels_at p ls pc' → labels_at pc (l :: ls) pc'.

(** An operand of [br_table], the default label's type for it, and another label's: the
    operand has to fit both.  The code compares the two labels instead, either way around. *)
Definition table_arg (a d t : Z) : Prop :=
  sub a d ∧ (if lax then a = bot ∨ areRefTypesCompatible (types e) d t = true else sub a t).

Inductive branch_at (L : list (list Z)) (pc : Z) : Z → list Z → list Z → Prop :=
| B_unreachable a b : byte pc 0x00 → branch_at L pc (pc + 1) a b
| B_br l ts pc' a b : byte pc 0x0c → u32_at (pc + 1) l pc' → label_index L l ts → branch_at L pc pc' (rev ts ++ a) b
| B_br_if l ts pc' : byte pc 0x0d → u32_at (pc + 1) l pc' → label_index L l ts → branch_at L pc pc' (I32 :: rev ts) (rev ts)
| B_br_table n ls ln d as_ p q pc' a b :
    byte pc 0x0e → imm (reader DecodeUint32) body (pc + 1) = Ok (n, p) → zlen ls = n → labels_at p ls q →
    imm (reader DecodeUint32) body q = Ok (ln, pc') → label_index L ln d → subs as_ (rev d) →
    Forall (λ l, ∃ t, label_index L l t ∧ Forall3 table_arg as_ (rev d) (rev t)) ls →
    branch_at L pc pc' (I32 :: as_ ++ a) b
| B_return a b : byte pc 0x0f → branch_at L pc (pc + 1) (rev (Results (functionType e)) ++ a) b
| B_return_call i ti ft pc' a b :
    byte pc 0x12 → u32_at (pc + 1) i pc' → at_index (functions e) i ti → at_index (types e) ti ft → function_type ft →
    subs (Results ft) (Results (functionType e)) → branch_at L pc pc' (rev (Params ft) ++ a) b
| B_return_call_indirect i ft t at_ p pc' a b :
    byte pc 0x13 → type_at (pc + 1) i ft p → function_type ft → table_at p t at_ pc' → hierarchyTop (types e) t = ValueTypeFuncref →
    subs (Results ft) (Results (functionType e)) → branch_at L pc pc' (at_ :: rev (Params ft) ++ a) b
| B_return_call_ref i ft pc' a b :
    byte pc 0x15 → type_at (pc + 1) i ft pc' → function_type ft → subs (Results ft) (Results (functionType e)) →
    branch_at L pc pc' (ValueTypeConcreteRef i true :: rev (Params ft) ++ a) b
| B_br_on_null l ts t pc' :
    byte pc 0xd5 → u32_at (pc + 1) l pc' → label_index L l ts → reference t →
    branch_at L pc pc' (t :: rev ts) (non_null t :: rev ts)
| B_br_on_non_null l ts t t' pc' :
    byte pc 0xd6 → u32_at (pc + 1) l pc' → label_index L l (ts ++ [t']) → reference t → sub (non_null t) t' →
    branch_at L pc pc' (t :: rev ts) (rev ts)
| B_br_on_cast (fail : bool) flags l rt1 rt2 ts t' p1 p2 pc' :
    byte pc 0xfb → byte (pc + 1) (if fail then 25 else 24) → byte (pc + 2) flags → flags ≤ 3 → u32_at (pc + 3) l p1 →
    heap_type_at p1 (Z.testbit flags 0) rt1 p2 → heap_type_at p2 (Z.testbit flags 1) rt2 pc' → sub rt2 rt1 →
    label_index L l (ts ++ [t']) →
    let diff := if IsNullable rt2 then AsNonNullable rt1 else rt1 in
    sub (if fail then diff else rt2) t' →
    branch_at L pc pc' (rt1 :: rev ts) ((if fail then rt2 else diff) :: rev ts)
| B_throw i ti ft pc' a b :
    byte pc 0x08 → u32_at (pc + 1) i pc' → at_index (tags e) i ti → at_index (types e) ti ft → branch_at L pc pc' (rev (Params ft) ++ a) b
| B_throw_ref a b : byte pc 0x0a → branch_at L pc (pc + 1) (ValueTypeExnref :: a) b.

(** The catch clauses of [try_table]. *)
Definition catch_types (kind : Z) (params : list Z) : list Z :=
  params ++ (if Z.odd kind then [AsNonNullable ValueTypeExnref] else []).

Inductive catches_at (L : list (list Z)) : Z → Z → Z → Prop :=
| Ca_nil pc : catches_at L 0 pc pc
| Ca_tag n kind i ti ft l ts pc p1 p2 pc' :
    byte pc kind → kind = 0 ∨ kind = 1 → u32_at (pc + 1) i p1 → at_index (tags e) i ti → at_index (types e) ti ft →
    u32_at p1 l p2 → label_index L l ts → subs (catch_types kind (Params ft)) ts → catches_at L n p2 pc' →
    catches_at L (n + 1) pc pc'
| Ca_all n kind l ts pc p1 pc' :
    byte pc kind → kind = 2 ∨ kind = 3 → u32_at (pc + 1) l p1 → label_index L l ts → subs (catch_types kind []) ts → catches_at L n p1 pc' →
    catches_at L (n + 1) pc pc'.

(** ** Sequences *)

Definition block_type_at (pc : Z) (bt : TypeDef) (pc' : Z) : Prop :=
  decodeBlockTypeFast (types e) (enabledFeatures e) body pc = Ok (bt, pc').

(** [code L I pc pc' ts ts' I']: under the labels [L] and with the locals [I] set, the
    bytes from [pc] up to [pc'] are instructions that turn operands of types [ts] into
    operands of types [ts'], and leave the locals [I'] set. *)
Inductive code : list (list Z) → gset Z → Z → Z → list Z → list Z → gset Z → Prop :=
| C_empty L I pc ts : code L I pc pc ts ts I
| C_instr L I I1 I2 pc p pc' ts ins outs rest :
    code L I pc p ts (ins ++ rest) I1 → instr L I1 p pc' ins outs I2 → code L I pc pc' ts (outs ++ rest) I2
| C_sub L I pc pc' ts ts1 ts2 I' : code L I pc pc' ts ts1 I' → subs ts1 ts2 → code L I pc pc' ts ts2 I'
with instr : list (list Z) → gset Z → Z → Z → list Z → list Z → gset Z → Prop :=
| I_plain L I pc pc' ins outs : plain_at pc pc' ins outs → instr L I pc pc' ins outs I
| I_local L I pc pc' ins outs I' : local_at I pc pc' ins outs I' → instr L I pc pc' ins outs I'
| I_branch L I pc pc' ins outs : branch_at L pc pc' ins outs → instr L I pc pc' ins outs I
| I_block L I I' pc p pe bt :
    byte pc 0x02 → block_type_at (pc + 1) bt p →
    code (Results bt :: L) I p pe (rev (Params bt)) (rev (Results bt)) I' → byte pe 0x0b →
    instr L I pc (pe + 1) (rev (Params bt)) (rev (Results bt)) I
| I_loop L I I' pc p pe bt :
    byte pc 0x03 → block_type_at (pc + 1) bt p →
    code (Params bt :: L) I p pe (rev (Params bt)) (rev (Results bt)) I' → byte pe 0x0b →
    instr L I pc (pe + 1) (rev (Params bt)) (rev (Results bt)) I
| I_if L I I' pc p pe bt :
    byte pc 0x04 → block_type_at (pc + 1) bt p → Results bt = Params bt →
    code (Results bt :: L) I p pe (rev (Params bt)) (rev (Results bt)) I' → byte pe 0x0b →
    instr L I pc (pe + 1) (I32 :: rev (Params bt)) (rev (Results bt)) I
| I_if_else L I I1 I2 pc p pm pe bt :
    byte pc 0x04 → block_type_at (pc + 1) bt p →
    code (Results bt :: L) I p pm (rev (Params bt)) (rev (Results bt)) I1 → byte pm 0x05 →
    code (Results bt :: L) I (pm + 1) pe (rev (Params bt)) (rev (Results bt)) I2 → byte pe 0x0b →
    instr L I pc (pe + 1) (I32 :: rev (Params bt)) (rev (Results bt)) I
| I_try_table L I I' pc p1 p2 n p pe bt :
    byte pc 0x1f → block_type_at (pc + 1) bt p1 → u32_at p1 n p2 → catches_at L n p2 p →
    code (Results bt :: L) I p pe (rev (Params bt)) (rev (Results bt)) I' → byte pe 0x0b →
    instr L I pc (pe + 1) (rev (Params bt)) (rev (Results bt)) I.

(** A whole body: it takes nothing, ends with the function's results, and is all there
    is. *)
Definition well_typed : Prop :=
  ∃ pe I', code [Results (functionType e)] ∅ 0 pe [] (rev (Results (functionType e))) I' ∧ byte pe 0x0b ∧ pe + 1 = zlen body.

End typing.
