(* ===== verification/WasmTables.v ===== *)
(** The opcode tables of the validator of function bodies: its cases, by the names of the
    opcodes, are the tables of the specification, by their numbers. *)
From Stdlib Require Import ZArith Lia.
From stdpp Require Import base list numbers option tactics gmap sets.
From S2P Require Import Prelude GcHeap GcCollect GcTypes WasmOpcodes WasmValidStack WasmValidInstr WasmValidSimd WasmValidGc WasmTyping.
Local Open Scope Z_scope.
Local Open Scope go_scope.

(** * Comparing rows *)

Fixpoint zs_eqb (l k : list Z) : bool :=
  match l, k with
  | [], [] => true
  | a :: l, b :: k => (a =? b) && zs_eqb l k
  | _, _ => false
  end.

Lemma zs_eqb_eq l : ∀ k, zs_eqb l k = true → l = k.
Proof. induction l as [|a l IH]; intros [|b k] H; try done. cbn in H. apply andb_true_iff in H as [->%Z.eqb_eq ->%IH]. done. Qed.

Definition all_known (l : list Z) : bool := forallb (λ t, negb (t =? bot)) l.

Lemma all_known_not l : all_known l = true → bot ∉ l.
Proof. unfold all_known. rewrite forallb_forall. intros H Hb%list_elem_of_In. specialize (H _ Hb). by rewrite Z.eqb_refl in H. Qed.

(** The same operands and results, or no instruction at all; no type is unknown, and there
    are not two results. *)
Definition same_types (c t : option (list Z * list Z)) : bool :=
  match c, t with
  | Some (i, o), Some (i', o') => zs_eqb i i' && zs_eqb o o' && zs_eqb (rev o) o && all_known i && all_known o
  | None, None => true
  | _, _ => false
  end.

Lemma same_types_eq c t : same_types c t = true → c = t.
Proof.
  destruct c as [[i o]|], t as [[i' o']|]; try done. cbn. rewrite !andb_true_iff. intros ((((H1 & H2) & _) & _) & _).
  by apply zs_eqb_eq in H1 as ->, H2 as ->.
Qed.

Lemma same_types_some i o t : same_types (Some (i, o)) t = true → t = Some (i, rev o) ∧ (bot ∉ i) ∧ (bot ∉ o).
Proof.
  cbn. destruct t as [[i' o']|]; [|done]. rewrite !andb_true_iff. intros ((((->%zs_eqb_eq & <-%zs_eqb_eq) & ->%zs_eqb_eq) & ?%all_known_not) & ?%all_known_not). done.
Qed.

Definition same_access (c t : option (Z * list Z * list Z)) : bool :=
  match c, t with
  | Some (w, i, o), Some (w', i', o') => (w =? w') && same_types (Some (i, o)) (Some (i', o'))
  | None, None => true
  | _, _ => false
  end.

Lemma same_access_eq c t : same_access c t = true → c = t.
Proof.
  destruct c as [[[w i] o]|], t as [[[w' i'] o']|]; try done. unfold same_access. intros [->%Z.eqb_eq H]%andb_true_iff.
  apply same_types_eq in H. congruence.
Qed.

Lemma same_access_some w i o t : same_access (Some (w, i, o)) t = true → t = Some (w, i, rev o) ∧ (bot ∉ i) ∧ (bot ∉ o).
Proof.
  unfold same_access. destruct t as [[[w' i'] o']|]; [|done]. intros [->%Z.eqb_eq H]%andb_true_iff.
  apply same_types_some in H as ([= <- <-] & ? & ?). done.
Qed.

(** A property of the first opcodes, and of those above all of a list or a table. *)

Lemma below_all n (P : Z → bool) op : forallb P (seqZ 0 n) = true → 0 ≤ op < n → P op = true.
Proof. rewrite forallb_forall. intros H Ho. apply H. apply list_elem_of_In, elem_of_seqZ. lia. Qed.

Lemma one_of_above n l op : forallb (λ x, x <? n) l = true → n ≤ op → one_of op l = false.
Proof.
  rewrite forallb_forall. intros H Hn. destruct (one_of op l) eqn:E; [|done]. unfold one_of in E.
  apply existsb_exists in E as (x & Hx & ->%Z.eqb_eq). specialize (H _ Hx). cbv beta in H. lia.
Qed.

Lemma in_table_above {A} n (l : list (Z * Z * A)) op : forallb (λ r, r.1.2 <? n) l = true → n ≤ op → in_table l op = None.
Proof.
  induction l as [|[[lo hi] a] l IH]; intros H Hn; [done|]. cbn in H. apply andb_true_iff in H as [Hh H]. cbn [in_table].
  unfold between. rewrite (proj2 (Z.leb_gt op hi)) by lia. rewrite andb_false_r. auto.
Qed.

(** * The tables *)

Definition shapes (l : list (Z * Z * shape)) (op : Z) : option (list Z * list Z) := shape_types <$> in_table l op.

Lemma numeric_table op : is_byte op → same_types (numeric_case op) (shapes spec_numeric op) = true.
Proof. apply (below_all 256 (λ op, same_types (numeric_case op) (shapes spec_numeric op))). vm_compute. reflexivity. Qed.

Lemma sign_extension_table op : is_byte op → same_types (sign_extension op) (shapes spec_sign_extension op) = true.
Proof. apply (below_all 256 (λ op, same_types (sign_extension op) (shapes spec_sign_extension op))). vm_compute. reflexivity. Qed.

Lemma trunc_sat_table op : 0 ≤ op < 8 → same_types (Some ([(trunc_sat op).1], [(trunc_sat op).2])) (shapes spec_trunc_sat op) = true.
Proof. apply (below_all 8 (λ op, same_types (Some ([(trunc_sat op).1], [(trunc_sat op).2])) (shapes spec_trunc_sat op))). vm_compute. reflexivity. Qed.

(** Loads and stores at one address type. *)
Definition access_types (op addrType : Z) : option (Z * list Z * list Z) :=
  match in_table spec_load op with
  | Some (w, t) => Some (w, [addrType], [t])
  | None => match in_table spec_store op with Some (w, t) => Some (w, [t; addrType], []) | None => None end
  end.

Lemma memory_table op is64 : is_byte op → same_access (memory_case op (memory_index_type is64)) (access_types op (memory_index_type is64)) = true.
Proof.
  destruct is64.
  - apply (below_all 256 (λ op, same_access (memory_case op (memory_index_type true)) (access_types op (memory_index_type true)))). vm_compute. reflexivity.
  - apply (below_all 256 (λ op, same_access (memory_case op (memory_index_type false)) (access_types op (memory_index_type false)))). vm_compute. reflexivity.
Qed.

(** The immediate, operands and results of a vector opcode by the specification's tables. *)
Definition vec_types (op : Z) : option (vec_immediate * list Z * list Z) :=
  if op =? 0x0b then Some (ImmMemory 16 None, [V128], [])
  else if op =? 0x0c then Some (ImmConst, [], [V128])
  else if op =? 0x0d then Some (ImmShuffle, [V128; V128], [V128])
  else match in_table spec_vec_load op with
       | Some w => Some (ImmMemory w None, [], [V128])
       | None =>
       match in_table spec_load_lane op with
       | Some w => Some (ImmMemory w (Some (16 / w)), [V128], [V128])
       | None =>
       match in_table spec_store_lane op with
       | Some w => Some (ImmMemory w (Some (16 / w)), [V128], [])
       | None =>
       match in_table spec_extract op with
       | Some (n, t) => Some (ImmLane n, [V128], [t])
       | None =>
       match in_table spec_replace op with
       | Some (n, t) => Some (ImmLane n, [t; V128], [V128])
       | None => (λ '(ins, outs), (ImmNone, ins, outs)) <$> in_table spec_vec op
       end end end end end.

#[global] Instance vec_immediate_eq_dec : EqDecision vec_immediate.
Proof. solve_decision. Defined.

Definition same_vec (c t : option (vec_immediate * list Z * list Z)) : bool :=
  match c, t with
  | Some (m, i, o), Some (m', i', o') => bool_decide (m = m') && same_types (Some (i, o)) (Some (i', o'))
  | None, None => true
  | _, _ => false
  end.

Lemma same_vec_eq c t : same_vec c t = true → c = t.
Proof.
  destruct c as [[[m i] o]|], t as [[[m' i'] o']|]; try done. unfold same_vec. intros [->%bool_decide_eq_true H]%andb_true_iff.
  apply same_types_eq in H. congruence.
Qed.

Lemma same_vec_some m i o t : same_vec (Some (m, i, o)) t = true → t = Some (m, i, rev o) ∧ (bot ∉ i) ∧ (bot ∉ o).
Proof.
  unfold same_vec. destruct t as [[[m' i'] o']|]; [|done]. intros [->%bool_decide_eq_true H]%andb_true_iff.
  apply same_types_some in H as ([= <- <-] & ? & ?). done.
Qed.

(** The vector opcodes end at [0x113]. *)
Lemma vec_table op : 0 ≤ op → same_vec (vec_case op) (vec_types op) = true.
Proof.
  intros Ho. destruct (Z.lt_ge_cases op 276).
  - apply (below_all 276 (λ op, same_vec (vec_case op) (vec_types op))); [vm_compute; reflexivity|lia].
  - unfold vec_types. rewrite !(in_table_above 276) by (vm_compute; done || lia).
    unfold vec_case, vec_access, vec_lanes, vec_bitwise, vec_arithmetic. rewrite !(one_of_above 276) by (vm_compute; done || lia).
    unfold OpcodeVecV128Const, OpcodeVecV128Store, OpcodeVecV128Not, OpcodeVecV128i8x16Shuffle.
    repeat (rewrite (proj2 (Z.eqb_neq op _)) by lia). done.
Qed.

(** The rule of the specification for a row of its tables. *)
Lemma vec_types_row op m i o :
  vec_types op = Some (m, i, o) →
  match m with
  | ImmNone => in_table spec_vec op = Some (i, o)
  | ImmConst => op = 0x0c ∧ i = [] ∧ o = [V128]
  | ImmShuffle => op = 0x0d ∧ i = [V128; V128] ∧ o = [V128]
  | ImmLane n => ∃ t, in_table spec_extract op = Some (n, t) ∧ i = [V128] ∧ o = [t] ∨ in_table spec_replace op = Some (n, t) ∧ i = [t; V128] ∧ o = [V128]
  | ImmMemory w None => in_table spec_vec_load op = Some w ∧ i = [] ∧ o = [V128] ∨ op = 0x0b ∧ w = 16 ∧ i = [V128] ∧ o = []
  | ImmMemory w (Some n) =>
      n = 16 / w ∧ i = [V128] ∧ (in_table spec_load_lane op = Some w ∧ o = [V128] ∨ in_table spec_store_lane op = Some w ∧ o = [])
  end.
Proof.
  unfold vec_types. destruct (Z.eqb_spec op 0x0b); [intros [= <- <- <-]; auto|]. destruct (Z.eqb_spec op 0x0c); [by intros [= <- <- <-]|].
  destruct (Z.eqb_spec op 0x0d); [by intros [= <- <- <-]|]. destruct (in_table spec_vec_load op) as [w|]; [intros [= <- <- <-]; auto|].
  destruct (in_table spec_load_lane op) as [w|]; [intros [= <- <- <-]; auto|].
  destruct (in_table spec_store_lane op) as [w|]; [intros [= <- <- <-]; auto|].
  destruct (in_table spec_extract op) as [[k t]|]; [intros [= <- <- <-]; eauto|].
  destruct (in_table spec_replace op) as [[k t]|]; [intros [= <- <- <-]; eauto|].
  destruct (in_table spec_vec op) as [[i' o']|]; [|done]. by intros [= <- <- <-].
Qed.

(** The operands of an atomic access above its address. *)
Definition atomic_types (op addrType : Z) : option (Z * list Z * list Z) :=
  match spec_atomic op with Some (w, i, o) => Some (w, i ++ [addrType], o) | None => None end.

Definition drop_exact (c : option (bool * Z * list Z * list Z)) : option (Z * list Z * list Z) :=
  match c with Some (_, w, i, o) => Some (w, i, o) | None => None end.

Lemma atomic_table op is64 : is_byte op → same_access (drop_exact (atomic_case op (memory_index_type is64))) (atomic_types op (memory_index_type is64)) = true.
Proof.
  destruct is64.
  - apply (below_all 256 (λ op, same_access (drop_exact (atomic_case op (memory_index_type true))) (atomic_types op (memory_index_type true)))). vm_compute. reflexivity.
  - apply (below_all 256 (λ op, same_access (drop_exact (atomic_case op (memory_index_type false))) (atomic_types op (memory_index_type false)))). vm_compute. reflexivity.
Qed.

Lemma shapes_some l op i o : shapes l op = Some (i, o) → ∃ sh, in_table l op = Some sh ∧ i = (shape_types sh).1 ∧ o = (shape_types sh).2.
Proof. unfold shapes. destruct (in_table l op) as [sh|]; [|done]. intros [= H]. exists sh. by rewrite H. Qed.

