(* ===== verification/WasmSoundStack.v ===== *)
(** What the stack operations of the validator of function bodies do to the operand types
    of the innermost block, and what its immediates are: the steps from which the
    soundness of the validation is built. *)
From Stdlib Require Import ZArith Lia.
From stdpp Require Import base list numbers option tactics gmap sets.
From S2P Require Import Prelude Leb128 GcHeap GcCollect GcOps GcTypes GcTypeDecode.
From S2P Require Import WasmOpcodes WasmValidStack WasmValidInstr WasmValidSimd WasmValidGc WasmValidate WasmTyping.
Local Open Scope Z_scope.
Local Open Scope go_scope.

(** * Outcomes *)

(** An outcome that satisfies [Q] if it is a value; it is a panic only if [panics], and
    the fuel is always enough. *)
Definition wp {A} (panics : Prop) (m : vres A) (Q : A → Prop) : Prop :=
  match m with Ok a => Q a | Err _ => True | Panic => panics | NoFuel => False end.

Lemma wp_bind {A B} panics (m : vres A) (k : A → vres B) Q : wp panics m (λ a, wp panics (k a) Q) → wp panics (obind m k) Q.
Proof. by destruct m. Qed.

Lemma wp_mono {A} panics (m : vres A) (Q R : A → Prop) : wp panics m Q → (∀ a, Q a → R a) → wp panics m R.
Proof. destruct m; cbn; auto. Qed.

Lemma wp_use {A B} panics (m : vres A) (k : A → vres B) Q R : wp panics m Q → (∀ a, Q a → wp panics (k a) R) → wp panics (obind m k) R.
Proof. intros H Hk. apply wp_bind. exact (wp_mono _ _ _ _ H Hk). Qed.

Lemma wp_require panics f feature (Q : unit → Prop) : (IsEnabled f feature = true → Q tt) → wp panics (require f feature) Q.
Proof. unfold require, RequireEnabled, IsEnabled. intros H. destruct (Z.land f feature =? 0); cbn; [done|]. by apply H. Qed.

Lemma wp_nth {A} panics (l : list A) i (Q : A → Prop) :
  0 ≤ i < zlen l → (∀ a, at_index l i a → Q a) → wp panics (nth_or_panic l i) Q.
Proof.
  intros Hi HQ. unfold nth_or_panic. rewrite (proj2 (Z.ltb_ge _ _)) by lia.
  destruct (l !! Z.to_nat i) as [a|] eqn:E; [apply HQ; split; [lia|done]|]. apply lookup_ge_None in E. unfold zlen in Hi. lia.
Qed.

(** An index nobody has checked may panic. *)
Lemma wp_nth_unchecked {A} (panics : Prop) (l : list A) i (Q : A → Prop) :
  (0 ≤ i < zlen l) ∨ panics → (∀ a, at_index l i a → Q a) → wp panics (nth_or_panic l i) Q.
Proof.
  intros [Hi|Hp] HQ; [by apply wp_nth|]. unfold nth_or_panic. destruct (Z.ltb_spec i 0); [done|].
  destruct (l !! Z.to_nat i) as [a|] eqn:E; [|done]. by apply HQ.
Qed.

Lemma wp_byte panics body pc (Q : Z → Prop) : 0 ≤ pc < zlen body → (∀ b, byte body pc b → Q b) → wp panics (byte_at body pc) Q.
Proof. exact (wp_nth panics body pc Q). Qed.

(** [wp_step] takes one bind, conditional or pair apart. *)
Ltac wp_step :=
  match goal with
  | |- wp _ (obind (require _ _) _) _ => apply wp_bind, wp_require; intros ?
  | |- wp _ (obind (Ok _) _) _ => cbn [obind]
  | |- wp _ (if ?b then Err _ else _) _ => let H := fresh "Hc" in destruct b eqn:H; [exact I|]
  | |- wp _ (obind (if ?b then Err _ else _) _) _ => let H := fresh "Hc" in destruct b eqn:H; [exact I|cbn [obind]]
  end.

(** * Immediates *)

Section immediates.
Context (body : list Z) (Hbytes : Forall is_byte body) (Hlen : zlen body < 2 ^ 63).

(** A decoder that stays in its input. *)
Definition stays (dec : list Z → leb_result) (P : Z → Prop) : Prop :=
  ∀ rest, Forall is_byte rest → zlen rest < 2 ^ 63 →
    match dec rest with Ok (v, n) => P v ∧ 0 < n ≤ zlen rest | Err _ => True | _ => False end.

Lemma wp_imm panics dec P pc (Q : Z * Z → Prop) :
  stays dec P → 0 ≤ pc ≤ zlen body →
  (∀ v pc', imm dec body pc = Ok (v, pc') → P v → pc < pc' ≤ zlen body → Q (v, pc')) → wp panics (imm dec body pc) Q.
Proof using Hbytes Hlen.
  intros Hdec Hpc HQ. unfold imm in *. unfold load, from in *. rewrite (proj2 (Z.leb_le 0 pc)), (proj2 (Z.leb_le pc _)) in * by lia.
  cbn [andb obind] in *.
  pose proof (Hdec (drop (Z.to_nat pc) body) ltac:(by apply Forall_drop)) as H. unfold zlen in *. rewrite length_drop in H.
  specialize (H ltac:(lia)). destruct (dec _) as [[v n]| | |]; try done. destruct H as [HP Hn]. apply HQ; [done..|lia].
Qed.
End immediates.

Lemma LoadUint32_in : stays LoadUint32 (λ v, 0 ≤ v < 2 ^ 32).
Proof. intros rest Hr _. exact (LoadUint32_stays rest Hr). Qed.

Lemma LoadInt33_in : stays LoadInt33AsInt64 (λ v, - 2 ^ 32 ≤ v < 2 ^ 32).
Proof. intros rest Hr _. exact (LoadInt33_stays rest Hr). Qed.

Lemma LoadUint64_in : stays LoadUint64 (λ v, 0 ≤ v < 2 ^ 64).
Proof.
  intros rest Hr _. rewrite LoadUint64_ref by done. unfold uleb_ref. destruct (terminator (take 10 rest)) as [j|] eqn:Et; [|by destruct (_ <? _)%nat].
  destruct (Z.ltb_spec (uleb (take j rest)) (2 ^ 64)); [|done]. apply terminator_le in Et. rewrite length_take in Et.
  pose proof (uleb_bound (take j rest)). unfold zlen. lia.
Qed.

Lemma LoadInt32_in : stays LoadInt32 (λ _, True).
Proof.
  intros rest Hr Hl. unfold LoadInt32.
  assert (∀ fuel i shift ret, 0 ≤ i ≤ zlen rest → (length rest < fuel + Z.to_nat i)%nat →
    match LoadInt32_loop fuel rest i shift ret with Ok (_, n) => True ∧ 0 < n ≤ zlen rest | Err _ => True | _ => False end) as Hloop.
  { induction fuel as [|fuel IH]; intros i shift ret Hi Hf; cbn [LoadInt32_loop]; [unfold zlen in Hi; lia|].
    destruct (rest !! Z.to_nat i) as [b|] eqn:E; [|done]. apply lookup_lt_Some in E.
    destruct (_ =? 0); [|apply IH; unfold zlen in *; lia]. destruct (int32OverflowCheck _ _ _); [done|].
    unfold zlen in *. rewrite wrap_small by lia. split; [done|lia]. }
  pose proof (zlen_nonneg rest). specialize (Hloop (S (length rest)) 0 0 0 ltac:(lia) ltac:(lia)).
  destruct rest as [|b rest]; [done|]. destruct (b <? 0x80); [|done]. split; [done|]. rewrite zlen_cons in *. pose proof (zlen_nonneg rest). lia.
Qed.

Lemma LoadInt64_in : stays LoadInt64 (λ _, True).
Proof.
  intros rest Hr Hl. unfold LoadInt64.
  assert (∀ fuel i shift ret, 0 ≤ i ≤ zlen rest → (length rest < fuel + Z.to_nat i)%nat →
    match LoadInt64_loop fuel rest i shift ret with Ok (_, n) => True ∧ 0 < n ≤ zlen rest | Err _ => True | _ => False end) as Hloop.
  { induction fuel as [|fuel IH]; intros i shift ret Hi Hf; cbn [LoadInt64_loop]; [unfold zlen in Hi; lia|].
    destruct (rest !! Z.to_nat i) as [b|] eqn:E; [|done]. apply lookup_lt_Some in E.
    destruct (_ =? 0); [|apply IH; unfold zlen in *; lia]. destruct (int64OverflowCheck _ _ _); [done|].
    unfold zlen in *. rewrite wrap_small by lia. split; [done|lia]. }
  pose proof (zlen_nonneg rest). specialize (Hloop (S (length rest)) 0 0 0 ltac:(lia) ltac:(lia)).
  destruct rest as [|b rest]; [done|]. destruct (b <? 0x80); [|done]. split; [done|]. rewrite zlen_cons in *. pose proof (zlen_nonneg rest). lia.
Qed.

Lemma DecodeUint32_in : stays (reader DecodeUint32) (λ v, 0 ≤ v < 2 ^ 32).
Proof.
  intros rest Hr _. unfold reader, DecodeUint32. change (Z.to_nat maxVarintLen32) with 5%nat. destruct (DecodeUint32_loop_agrees 5 [] rest 0 0 eq_refl) as [H _].
  cbn [app length] in H. change (Z.of_nat 0) with 0 in H. rewrite H, LoadUint32_loop_ref by done. rewrite <- LoadUint32_ref by done. exact (LoadUint32_stays rest Hr).
Qed.

Lemma DecodeInt33_in : stays (reader DecodeInt33AsInt64) (λ v, - 2 ^ 32 ≤ v < 2 ^ 32).
Proof.
  intros rest Hr _. unfold reader, DecodeInt33AsInt64. change (Z.to_nat maxVarintLen33) with 5%nat. destruct (DecodeInt33_loop_agrees 5 [] rest 0 0 0 eq_refl) as [E _].
  cbn [app length] in E. change (Z.of_nat 0) with 0 in E. rewrite E.
  pose proof (LoadInt33_loop_stays rest 5 0 0 0 0 ltac:(lia) ltac:(lia) ltac:(unfold zlen; lia)) as H.
  destruct (LoadInt33AsInt64_loop _ _ _ _ _ _) as [[v n]| | |]; try done. destruct H as (? & ? & H). specialize (H ltac:(done)). split; [done|lia].
Qed.

(** * The operand types of a block

    The types above the limit of the innermost block stand for a set of operand lists: if
    the lowest is unknown, the code is unreachable and any operands may lie there. *)

Fixpoint conc (seg ts : list Z) : Prop :=
  match seg with
  | [] => ts = []
  | [v] => v = bot ∨ ts = [v]
  | v :: seg => match ts with [] => False | t :: ts => t = v ∧ conc seg ts end
  end.

(** The lowest type is unknown. *)
Definition poly (seg : list Z) : Prop := last seg = Some bot.

(** Only unreachable code has unknown operands. *)
Definition wf (seg : list Z) : Prop := bot ∈ seg → poly seg.

Lemma conc_cons v seg ts : conc seg ts → conc (v :: seg) (v :: ts).
Proof. destruct seg; cbn; [intros ->; by right|done]. Qed.

Lemma conc_uncons v seg ts : v ≠ bot ∨ poly seg → conc (v :: seg) ts → ∃ ts', ts = v :: ts' ∧ conc seg ts'.
Proof.
  intros Hv H. destruct seg as [|w seg].
  - destruct Hv as [Hv|]; [|done]. destruct H as [?| ->]; [done|]. by exists [].
  - destruct ts as [|t ts]; [done|]. destruct H as [-> H]. by exists ts.
Qed.

Lemma conc_self seg : conc seg seg.
Proof. induction seg as [|v seg IH]; [done|by apply conc_cons]. Qed.

Lemma conc_bot ts : conc [bot] ts.
Proof. by left. Qed.

Lemma poly_cons v seg : poly seg → poly (v :: seg).
Proof. unfold poly. rewrite last_cons. by intros ->. Qed.

Lemma poly_app l seg : poly seg → poly (l ++ seg).
Proof. induction l; [done|]. intros. cbn. apply poly_cons. auto. Qed.

Definition pushable (outs seg : list Z) : Prop := bot ∉ outs ∨ poly seg.

Lemma conc_app outs seg ts : pushable outs seg → conc (outs ++ seg) ts → ∃ ts', ts = outs ++ ts' ∧ conc seg ts'.
Proof.
  revert ts; induction outs as [|v outs IH]; intros ts Hp H; [by exists ts|]. cbn [app] in H.
  apply conc_uncons in H as (ts' & -> & H).
  - destruct (IH ts') as (r & -> & Hr); [|done|by exists r]. destruct Hp as [Hp|]; [left; set_solver|by right].
  - destruct Hp as [Hp|Hp]; [left; set_solver|right; by apply poly_app].
Qed.

Lemma wf_app outs seg : pushable outs seg → wf seg → wf (outs ++ seg).
Proof.
  intros Hp Hwf H. apply elem_of_app in H as [H|H]; [|by apply poly_app, Hwf]. destruct Hp as [?|?]; [done|by apply poly_app].
Qed.

Lemma wf_bot : wf [bot].
Proof. done. Qed.

(** ** The types seen from the innermost block *)

(** [deep] are the types of the blocks around it. *)
Definition view (s : valueTypeStack) (seg deep : list Z) : Prop := stack s = seg ++ deep ∧ stack_limit s = length deep.

(** Same limits, and the innermost block has [seg']. *)
Definition viewed (s s' : valueTypeStack) (seg' deep : list Z) : Prop := stackLimits s' = stackLimits s ∧ view s' seg' deep.

Lemma viewed_trans s1 s2 s3 seg2 seg3 deep : viewed s1 s2 seg2 deep → viewed s2 s3 seg3 deep → viewed s1 s3 seg3 deep.
Proof. intros [H1 _] [H2 H]. split; [by rewrite H2|done]. Qed.

Lemma Forall2_rev {A B} (R : A → B → Prop) l k : Forall2 R l k → Forall2 R (rev l) (rev k).
Proof. induction 1; cbn [rev]; [constructor|]. apply Forall2_app; [done|by constructor]. Qed.

Lemma not_in_rev (x : Z) l : x ∉ l → x ∉ rev l.
Proof. by rewrite !list_elem_of_In, <- in_rev. Qed.

Section effects.
Context (e : env) (panics : Prop).

(** Operands of types [ins] are taken from the top of [seg], and [seg'] is left. *)
Definition popped (seg ins seg' : list Z) : Prop :=
  (∀ ts, conc seg' ts → ∃ as_, subs e as_ ins ∧ conc seg (as_ ++ ts)) ∧ wf seg' ∧ (poly seg → poly seg').

Lemma popped_nil seg : wf seg → popped seg [] seg.
Proof. intros Hwf. split_and!; [|done..]. intros ts H. exists []. split; [constructor|done]. Qed.

Lemma popped_app seg ins seg1 ins' seg2 : popped seg ins seg1 → popped seg1 ins' seg2 → popped seg (ins ++ ins') seg2.
Proof.
  intros (H1 & _ & P1) (H2 & W2 & P2). split_and!; [|done|auto]. intros ts H.
  destruct (H2 ts H) as (as2 & S2 & C2). destruct (H1 _ C2) as (as1 & S1 & C1).
  exists (as1 ++ as2). split; [by apply Forall2_app|]. by rewrite <- (assoc_L (++)).
Qed.

Lemma popped_sub seg ins ins' seg' : popped seg ins seg' → (∀ as_, subs e as_ ins → subs e as_ ins') → popped seg ins' seg'.
Proof. intros (H & W & P) Hs. split_and!; [|done..]. intros ts Hc. destruct (H ts Hc) as (as_ & ? & ?). exists as_. auto. Qed.

Lemma tryPop_view s seg deep : view s seg deep →
  tryPop s = match seg with
             | [] => None
             | [v] => if v =? bot then Some (bot, s) else Some (v, set_stack s deep)
             | v :: seg' => Some (v, set_stack s (seg' ++ deep))
             end.
Proof.
  intros [Hs Hl]. unfold tryPop. rewrite Hs, Hl. fold bot. destruct seg as [|v [|w seg]]; cbn [app].
  - destruct deep as [|v deep]; [done|]. by rewrite Nat.leb_refl.
  - cbn [length]. rewrite (proj2 (Nat.leb_gt _ _)) by lia. rewrite (proj2 (Nat.eqb_eq _ _)) by lia. done.
  - cbn [length]. rewrite length_app. rewrite (proj2 (Nat.leb_gt _ _)) by lia. rewrite (proj2 (Nat.eqb_neq _ _)) by lia. done.
Qed.

Lemma view_set s l deep seg : view s seg deep → viewed s (set_stack s (l ++ deep)) l deep.
Proof. intros [_ Hl]. by split. Qed.

(** A type on top, known or not, comes off. *)
Lemma wp_pop s seg deep (Q : Z * valueTypeStack → Prop) :
  view s seg deep → wf seg →
  (∀ v s' seg', viewed s s' seg' deep → wf seg' → (v = bot → poly seg') → (poly seg → poly seg') →
     (∀ ts, conc seg' ts → conc seg (v :: ts)) → Q (v, s')) →
  wp panics (pop s) Q.
Proof.
  intros Hv Hwf HQ. unfold pop. rewrite (tryPop_view _ _ _ Hv). destruct seg as [|v [|w seg]]; [done| |].
  - destruct (Z.eqb_spec v bot) as [->|Hn].
    + apply (HQ bot s [bot]); try done. intros ts _. by left.
    + apply (HQ v _ []); try done; [exact (view_set s [] deep _ Hv)|intros Hb; by apply elem_of_nil in Hb|by intros [= ?]|by intros ts ->; right].
  - apply (HQ v _ (w :: seg)); [exact (view_set s (w :: seg) deep _ Hv)|..].
    + intros H. assert (poly (v :: w :: seg)) as Hb by (apply Hwf; rewrite elem_of_cons; auto). unfold poly in *. rewrite last_cons in Hb. by destruct (last (w :: seg)) eqn:E; [|by apply last_None in E].
    + intros ->. assert (poly (bot :: w :: seg)) as Hb by (apply Hwf; rewrite elem_of_cons; auto). unfold poly in *. rewrite last_cons in Hb. by destruct (last (w :: seg)) eqn:E; [|by apply last_None in E].
    + unfold poly. rewrite last_cons. by destruct (last (w :: seg)) eqn:E; [|by apply last_None in E].
    + intros ts H. by apply conc_cons.
Qed.

Lemma popped_one seg v seg' t : (∀ ts, conc seg' ts → conc seg (v :: ts)) → wf seg' → (poly seg → poly seg') → sub e v t → popped seg [t] seg'.
Proof. intros Hc Hw Hp Hs. split_and!; [|done..]. intros ts H. exists [v]. split; [by constructor|]. by apply Hc. Qed.

(** What a check lets pass is a subtype. *)
Lemma checked_sub v t : t ≠ bot → negb (v =? bot) && negb (t =? bot) && negb (isRefSubtypeOf (types e) v t) = false → sub e v t.
Proof.
  intros Ht H. destruct (Z.eqb_spec v bot) as [->|]; [by right; left|]. destruct (Z.eqb_spec t bot); [done|].
  cbn in H. right; right. by apply negb_false_iff in H.
Qed.

Lemma checked_sub' v t : negb (v =? bot) && negb (isRefSubtypeOf (types e) v t) = false → sub e v t.
Proof.
  intros H. destruct (Z.eqb_spec v bot) as [->|]; [by right; left|]. cbn in H. right; right. by apply negb_false_iff in H.
Qed.

Lemma wp_popAndVerify s seg deep t (Q : valueTypeStack → Prop) :
  view s seg deep → wf seg → t ≠ bot →
  (∀ s' seg', viewed s s' seg' deep → popped seg [t] seg' → Q s') → wp panics (popAndVerifyType (types e) t s) Q.
Proof.
  intros Hv Hwf Ht HQ. pose proof (wp_pop s seg deep (λ r, wp panics
    (if negb (r.1 =? bot) && negb (t =? bot) && negb (isRefSubtypeOf (types e) r.1 t) then Err (VMismatch r.1 t) else Ok r.2) Q) Hv Hwf) as H.
  unfold popAndVerifyType. unfold pop in H. fold bot. destruct (tryPop s) as [[v s']|]; [|done]. cbn in H. apply H.
  clear H v s'. intros v' s2 seg' Hv' Hw' _ Hp Hc. cbn. destruct (negb _ && negb _ && negb _) eqn:E; [exact I|]. apply (HQ s2 seg'); [done|].
  apply (popped_one seg v'); [done..|]. by apply checked_sub.
Qed.

Lemma wp_popRef s seg deep t (Q : valueTypeStack → Prop) :
  view s seg deep → wf seg →
  (∀ s' seg', viewed s s' seg' deep → popped seg [t] seg' → Q s') → wp panics (popRef (types e) t s) Q.
Proof.
  intros Hv Hwf HQ. unfold popRef. apply wp_bind. apply (wp_pop s seg deep); [done..|].
  intros v s' seg' Hv' Hw' _ Hp Hc. cbn. fold bot. destruct (negb _ && negb _) eqn:E; [exact I|]. apply (HQ s' seg'); [done|].
  apply (popped_one seg v); [done..|]. by apply checked_sub'.
Qed.

Lemma popped_wf seg ins seg' : popped seg ins seg' → wf seg'.
Proof. by intros (_ & ? & _). Qed.

Lemma wp_pops l : ∀ s seg deep (Q : valueTypeStack → Prop),
  view s seg deep → wf seg → bot ∉ l →
  (∀ s' seg', viewed s s' seg' deep → popped seg l seg' → Q s') → wp panics (pops (types e) l s) Q.
Proof.
  induction l as [|t l IH]; intros s seg deep Q Hv Hwf Hl HQ; cbn [pops].
  - apply (HQ s seg); [done|by apply popped_nil].
  - apply wp_bind. apply (wp_popAndVerify s seg deep); [done..|set_solver|]. intros s1 seg1 Hv1 Hp1.
    apply (IH s1 seg1 deep); [by apply Hv1|by eapply popped_wf|set_solver|]. intros s2 seg2 Hv2 Hp2.
    apply (HQ s2 seg2); [by eapply viewed_trans|]. exact (popped_app _ [t] _ _ _ Hp1 Hp2).
Qed.

Lemma view_push s seg deep v : view s seg deep → viewed s (push v s) (v :: seg) deep.
Proof. intros [Hs Hl]. split; [done|]. split; [cbn; by rewrite Hs|done]. Qed.

Lemma view_pushes l : ∀ s seg deep, view s seg deep → viewed s (pushes l s) (rev l ++ seg) deep.
Proof.
  induction l as [|v l IH]; intros s seg deep Hv; cbn [pushes foldl rev]; [by split|].
  pose proof (view_push _ _ _ v Hv) as H1. rewrite <- (assoc_L (++)). eapply viewed_trans; [exact H1|]. apply (IH _ (v :: seg)), H1.
Qed.

Lemma view_reset s seg deep : view s seg deep → viewed s (resetAtStackLimit s) [] deep.
Proof.
  intros [Hs Hl]. split; [done|]. split; [|done]. cbn. rewrite Hs, Hl, length_app, Nat.add_sub. apply drop_app_length.
Qed.

Lemma view_unreachable s seg deep : view s seg deep → viewed s (unreachable s) [bot] deep.
Proof. intros Hv. destruct (view_reset _ _ _ Hv) as [Hl [Hs Hd]]. split; [done|]. split; [|done]. unfold unreachable. cbn [set_stack stack]. by rewrite Hs. Qed.

(** ** Lists of values *)

Lemma pop_values_view n : ∀ s seg deep, view s seg deep → wf seg →
  match pop_values n s with
  | None => True
  | Some (have, s') => length have = n ∧ ∃ seg', viewed s s' seg' deep ∧ wf seg' ∧ (poly seg → poly seg') ∧ (∀ ts, conc seg' ts → conc seg (have ++ ts))
  end.
Proof.
  induction n as [|n IH]; intros s seg deep Hv Hwf; cbn [pop_values].
  { split; [done|]. exists seg. by split_and!. }
  pose proof (wp_pop s seg deep (λ r, match pop_values n r.2 with
    | None => True
    | Some (have, s') => length (r.1 :: have) = S n ∧ ∃ seg', viewed s s' seg' deep ∧ wf seg' ∧ (poly seg → poly seg') ∧
                           (∀ ts, conc seg' ts → conc seg ((r.1 :: have) ++ ts)) end) Hv Hwf) as H.
  unfold pop in H. destruct (tryPop s) as [[v s1]|]; [|done]. cbn [wp] in H. cbn [fst snd] in H.
  destruct (pop_values n s1) as [[have s2]|] eqn:E; [|done]. apply H. clear H. intros v' s1' seg1 Hv1 Hw1 _ Hp1 Hc1. cbn [fst snd].
  specialize (IH s1' seg1 deep ltac:(by apply Hv1) Hw1). destruct (pop_values n s1') as [[have' s2']|]; [|done].
  destruct IH as (Hl & seg2 & Hv2 & Hw2 & Hp2 & Hc2). split; [cbn; by rewrite Hl|]. exists seg2.
  split_and!; [by eapply viewed_trans|done|auto|]. intros ts Hts. cbn. by apply Hc1, Hc2.
Qed.

Lemma check_values_sub have : ∀ want, bot ∉ want → length have = length want → wp panics (check_values (types e) have want) (λ _, subs e have want).
Proof.
  induction have as [|v have IH]; intros [|w want] Hb Hl; try done; cbn [check_values]; [constructor|]. fold bot.
  destruct (negb _ && negb _ && negb _) eqn:E; [exact I|]. eapply wp_mono; [apply IH; [set_solver|cbn in Hl; lia]|]. intros [] Hs. cbn beta in Hs.
  constructor; [|done]. apply checked_sub; [set_solver|done].
Qed.

(** [requireStackValues] takes the values, and with [above] nothing but unknown operands
    is left. *)
Lemma wp_require_values s seg deep want above (Q : valueTypeStack → Prop) :
  view s seg deep → wf seg → bot ∉ want →
  (∀ s' seg', viewed s s' seg' deep → popped seg (rev want) seg' → (above = true → seg' = [] ∨ seg' = [bot]) → Q s') →
  wp panics (requireStackValues (types e) want above s) Q.
Proof.
  intros Hv Hwf Hb HQ. unfold requireStackValues. pose proof (pop_values_view (length want) s seg deep Hv Hwf) as H.
  destruct (pop_values (length want) s) as [[have s']|]; [|done]. destruct H as (Hl & seg' & Hv' & Hw' & Hp' & Hc').
  cbv zeta. destruct (above && _) eqn:Ea; [exact I|]. apply wp_bind.
  eapply wp_mono; [apply check_values_sub; [by apply not_in_rev|by rewrite length_rev]|].
  intros [] Hs. cbn beta in Hs. apply (HQ s' seg'); [done| |].
  - split_and!; [|done..]. intros ts Hts. exists have. auto.
  - intros ->. cbn [andb] in Ea. apply negb_false_iff in Ea. destruct Hv' as (_ & Hst & Hli). destruct Hv as [_ Hli0]. rewrite Hli0, Hst, length_app in Ea.
    apply orb_true_iff in Ea as [E%Nat.eqb_eq|E]; [left; destruct seg'; [done|cbn in E; lia]|].
    apply andb_true_iff in E as [E1%Nat.eqb_eq E2]. destruct seg' as [|v [|]]; cbn in E1; try lia. right. cbn in E2. by apply Z.eqb_eq in E2 as ->.
Qed.

(** The values that were just pushed are the ones that come off. *)
Lemma wp_require_pushed s seg deep l want (Q : valueTypeStack → Prop) :
  view s (rev l ++ seg) deep → bot ∉ l → bot ∉ want → length l = length want →
  (∀ s', viewed s s' seg deep → subs e l want → Q s') → wp panics (requireStackValues (types e) want false s) Q.
Proof.
  intros Hv Hl Hb Hlen HQ. unfold requireStackValues.
  assert (∀ l' n s0, length l' = n → bot ∉ l' → view s0 (l' ++ seg) deep → ∃ s', pop_values n s0 = Some (l', s') ∧ viewed s0 s' seg deep) as Hpop.
  { clear. induction l' as [|v l' IH]; intros n s0 <- Hb Hv; [exists s0; by split|]. cbn [length pop_values].
    rewrite (tryPop_view _ _ _ Hv). cbn [app].
    assert (∃ s1, match l' ++ seg with [] => if v =? bot then Some (bot, s0) else Some (v, set_stack s0 deep) | _ => Some (v, set_stack s0 ((l' ++ seg) ++ deep)) end
      = Some (v, s1) ∧ viewed s0 s1 (l' ++ seg) deep) as (s1 & -> & Hv1).
    { destruct (l' ++ seg) eqn:E; [destruct (Z.eqb_spec v bot); [set_solver|]|]; eexists; (split; [done|]).
      - exact (view_set s0 [] deep _ Hv).
      - exact (view_set s0 _ deep _ Hv). }
    destruct (IH (length l') s1 eq_refl ltac:(set_solver) (proj2 Hv1)) as (s' & -> & Hv2). exists s'. split; [done|by eapply viewed_trans]. }
  destruct (Hpop (rev l) (length want) s) as (s' & -> & Hv'); [by rewrite length_rev|by apply not_in_rev|done|].
  cbv zeta. cbn [andb]. apply wp_bind. eapply wp_mono; [apply check_values_sub; [by apply not_in_rev|by rewrite !length_rev]|].
  intros [] Hs. cbn beta in Hs. apply HQ; [done|]. apply Forall2_rev in Hs. by rewrite !rev_involutive in Hs.
Qed.
End effects.
