(* ===== verification/WasmSoundInstr.v ===== *)
(** Soundness of the validation of the instructions that do not touch control blocks: each
    case of the validator accepts an instruction only with a signature that the typing
    rules give it, and changes the operand types by that signature. *)
From Stdlib Require Import ZArith Lia.
From stdpp Require Import base list numbers option tactics gmap sets.
From S2P Require Import Prelude Leb128 GcHeap GcCollect GcOps GcTypes GcTypeDecode.
From S2P Require Import WasmOpcodes WasmValidStack WasmValidInstr WasmValidSimd WasmValidGc WasmValidate WasmTyping WasmTables WasmSoundStack.
Local Open Scope Z_scope.
Local Open Scope go_scope.

(** * Modules *)

(** What the decoder and the earlier checks of a module guarantee: no type is the
    validator's mark for unknown operands, an array has an element, and a memory has
    64-bit addresses only with that feature. *)
Record valid_env (e : env) : Prop := {
  ve_types : Forall (λ d, (bot ∉ Params d) ∧ (bot ∉ Results d) ∧ (bot ∉ (f_type <$> td_fields d))) (types e);
  ve_array : Forall (λ d, td_kind d = CompositeKindArray → td_fields d ≠ []) (types e);
  ve_globals : Forall (λ g, g.1 ≠ bot) (globals e);
  ve_tables : Forall (λ t, t.1 ≠ bot) (tables e);
  ve_params : bot ∉ Params (functionType e);
  ve_results : bot ∉ Results (functionType e);
  ve_locals : bot ∉ localTypes e;
  ve_memory64 : IsEnabled (enabledFeatures e) CoreFeatureMemory64 = false → Forall (λ b, b = false) (memories e);
}.

(** What is only checked later, or one function at a time while the bodies are walked: the
    type indices of the functions and of the tags, and the functions that element segments
    declare. *)
Record indices_ok (e : env) : Prop := {
  ix_functions : Forall (λ i, 0 ≤ i < zlen (types e)) (functions e);
  ix_tags : Forall (λ i, 0 ≤ i < zlen (types e)) (tags e);
  ix_declared : Forall (λ i, i < zlen (functions e)) (declaredFunctionIndexes e);
}.

Lemma at_index_Forall {A} (P : A → Prop) l i a : Forall P l → at_index l i a → P a.
Proof. intros HF [_ H]. exact (Forall_lookup_1 _ _ _ _ HF H). Qed.

Lemma AsNonNullable_known v : AsNonNullable v ≠ bot.
Proof.
  unfold AsNonNullable. intros H. apply (f_equal (λ z, Z.testbit z 8)) in H. rewrite Z.lor_spec in H.
  change (Z.testbit flagNonNullable 8) with true in H. by rewrite orb_true_r in H.
Qed.

Lemma ConcreteRef_known i b : ValueTypeConcreteRef i b ≠ bot.
Proof.
  unfold ValueTypeConcreteRef. destruct b; cbn [negb]; [|apply AsNonNullable_known].
  intros H. apply (f_equal (λ z, Z.testbit z 9)) in H. rewrite !Z.lor_spec in H.
  change (Z.testbit flagConcreteRef 9) with true in H. by rewrite orb_true_r in H.
Qed.

Lemma index_type_known b : memory_index_type b ≠ bot.
Proof. by destruct b. Qed.

Lemma unpacked_known t : t ≠ bot → unpackedType t ≠ bot.
Proof. unfold unpackedType. by destruct (_ || _). Qed.

(** [known] proves that a type, or a list of types, is not unknown. *)
Create HintDb known.
#[export] Hint Resolve AsNonNullable_known ConcreteRef_known index_type_known unpacked_known : known.

Lemma known_nil : bot ∉ ([] : list Z).
Proof. apply not_elem_of_nil. Qed.

Lemma known_cons t l : t ≠ bot → bot ∉ l → bot ∉ t :: l.
Proof. rewrite not_elem_of_cons. auto. Qed.

#[export] Hint Resolve known_nil known_cons not_in_rev : known.

Ltac known := repeat first [apply known_cons | apply known_nil]; solve [done | auto with known].

(** * Steps *)

(** From operands [seg'] stands for, an instruction of a type in [R] leads back to
    operands [seg] stands for. *)
Definition step_ok (e : env) (R : list Z → list Z → Prop) (seg seg' : list Z) : Prop :=
  wf seg' ∧
  ∀ ts', conc seg' ts' → ∃ as_ ins outs rest, conc seg (as_ ++ rest) ∧ subs e as_ ins ∧ R ins outs ∧ ts' = outs ++ rest.

Lemma step_intro e (R : list Z → list Z → Prop) seg ins outs seg1 :
  popped e seg ins seg1 → pushable outs seg1 → R ins outs → step_ok e R seg (outs ++ seg1).
Proof.
  intros (Hc & Hw & _) Hp HR. split; [by apply wf_app|]. intros ts' H. apply conc_app in H as (rest & -> & H); [|done].
  destruct (Hc _ H) as (as_ & Hs & Hc'). by exists as_, ins, outs, rest.
Qed.

Lemma subs_app e l1 l2 k1 k2 : subs e l1 k1 → subs e l2 k2 → subs e (l1 ++ l2) (k1 ++ k2).
Proof. apply Forall2_app. Qed.

Lemma subs_refl e l : subs e l l.
Proof. induction l; [constructor|]. constructor; [by left|done]. Qed.

(** An instruction after which the code is unreachable. *)
Lemma step_unreachable e (R : list Z → list Z → Prop) seg ins seg1 :
  popped e seg ins seg1 → (∀ a b, R (ins ++ a) b) → step_ok e R seg [bot].
Proof.
  intros (Hc & _) HR. split; [apply wf_bot|]. intros ts' _.
  destruct (Hc seg1 (conc_self seg1)) as (as_ & Hs & Hc').
  exists (as_ ++ seg1), (ins ++ seg1), ts', []. rewrite !app_nil_r. split_and!; [done| |apply HR|done]. apply subs_app; [done|apply subs_refl].
Qed.

Lemma step_mono e (R R' : list Z → list Z → Prop) seg seg' : step_ok e R seg seg' → (∀ i o, R i o → R' i o) → step_ok e R' seg seg'.
Proof. intros [Hw H] HR. split; [done|]. intros ts' Hc. destruct (H ts' Hc) as (a & i & o & r & ? & ? & ? & ?). exists a, i, o, r. auto. Qed.

Section instructions.
Context (e : env) (body : list Z) (panics : Prop).
Context (Henv : valid_env e) (Hbytes : Forall is_byte body) (Hlen : zlen body < 2 ^ 63) (Hend : list.last body = Some OpcodeEnd).
(** The instruction at [pc] is accepted with a type in [R]. *)
Definition spec (s : valueTypeStack) (pc : Z) (R : Z → list Z → list Z → Prop) (m : vres (valueTypeStack * Z)) : Prop :=
  ∀ seg deep, view s seg deep → wf seg →
    wp panics m (λ r, pc < r.2 ∧ ∃ seg', viewed s r.1 seg' deep ∧ step_ok e (R r.2) seg seg').

(** Immediates, a byte at a time and as integers. *)
Lemma wp_imm' dec P pc (Q : Z * Z → Prop) :
  stays dec P → 0 ≤ pc ≤ zlen body →
  (∀ v pc', imm dec body pc = Ok (v, pc') → P v → pc < pc' ≤ zlen body → Q (v, pc')) → wp panics (imm dec body pc) Q.
Proof using Hbytes Hlen. by apply wp_imm. Qed.

Lemma byte_bound pc b : byte body pc b → 0 ≤ pc < zlen body.
Proof. intros [Hp H]. apply lookup_lt_Some in H. unfold zlen. lia. Qed.

(** An opcode that is not [end] is not the last byte. *)
Lemma byte_not_last pc b : byte body pc b → b ≠ OpcodeEnd → pc + 1 < zlen body.
Proof using Hend.
  intros Hb Hn. pose proof (byte_bound _ _ Hb) as Hp. destruct (Z.eq_dec (pc + 1) (zlen body)) as [He|]; [|lia].
  destruct Hb as [_ Hb]. rewrite last_lookup in Hend. unfold zlen in *. replace (pred (length body)) with (Z.to_nat pc) in Hend by lia. congruence.
Qed.

Lemma spec_types ins outs pc pc' (R : Z → list Z → list Z → Prop) s :
  bot ∉ ins → bot ∉ outs → pc < pc' → R pc' ins (rev outs) → spec s pc R (let* s := step_types (types e) ins outs s in Ok (s, pc')).
Proof.
  intros Hi Ho Hp HR seg deep Hv Hw. apply wp_bind. unfold step_types. apply wp_bind. apply (wp_pops e panics ins s seg deep); [done..|].
  intros s1 seg1 Hv1 Hp1. cbn. split; [done|]. exists (rev outs ++ seg1).
  split; [eapply viewed_trans; [exact Hv1|]; apply view_pushes, Hv1|]. apply (step_intro _ _ _ ins); [done|left; by apply not_in_rev|done].
Qed.

Lemma spec_push t pc pc' (R : Z → list Z → list Z → Prop) s : t ≠ bot → pc < pc' → R pc' [] [t] → spec s pc R (Ok (push t s, pc')).
Proof. intros Ht Hp HR. apply (spec_types [] [t]); [known..|done|done]. Qed.

Lemma spec_nothing pc pc' (R : Z → list Z → list Z → Prop) s : pc < pc' → R pc' [] [] → spec s pc R (Ok (s, pc')).
Proof. intros Hp HR. apply (spec_types [] []); [known..|done|done]. Qed.

(** ** Numeric instructions *)

Lemma byte_is_byte pc b : byte body pc b → is_byte b.
Proof using Hbytes. intros H. exact (at_index_Forall _ _ _ _ Hbytes H). Qed.

Lemma validate_numeric_sound op pc s : byte body pc op → spec s pc (plain_at true e body pc) (validate_numeric e op (pc + 1) s).
Proof using Hbytes.
  intros Hop. pose proof (byte_is_byte _ _ Hop) as Hb. unfold validate_numeric.
  pose proof (numeric_table op Hb) as Ht. destruct (numeric_case op) as [[ins outs]|].
  - apply same_types_some in Ht as (Ht & Hi & Ho). apply shapes_some in Ht as (sh & Ht & -> & Hsh).
    apply spec_types; [done|done|lia|]. rewrite Hsh. by eapply P_numeric.
  - pose proof (sign_extension_table op Hb) as Hs. destruct (sign_extension op) as [[ins outs]|]; [|intros ????; exact I].
    apply same_types_some in Hs as (Hs & Hi & Ho). apply shapes_some in Hs as (sh & Hs & -> & Hsh).
    intros seg deep Hv Hw. apply wp_bind, wp_require. intros Hf. apply spec_types; [done|done|lia| |done..]. rewrite Hsh. by eapply P_sign_extension.
Qed.

(** ** Memory *)

Lemma wp_eqn {A} (m : vres A) Q : wp panics m Q → wp panics m (λ a, m = Ok a ∧ Q a).
Proof. by destruct m. Qed.

Lemma readMemArg_spec pc memory64 :
  0 ≤ pc ≤ zlen body →
  wp panics (readMemArg (enabledFeatures e) body pc memory64)
    (λ r, let '(align, offset, i, pc') := r in 0 ≤ align ∧ 0 ≤ i ∧ (memory64 = false → offset < 2 ^ 32) ∧ pc < pc' ≤ zlen body).
Proof using Hbytes Hlen.
  intros Hpc. unfold readMemArg. apply wp_bind. apply (wp_imm' _ _ _ _ LoadUint32_in); [done|]. intros raw p1 _ Hraw Hp1. cbv beta iota.
  apply (wp_use _ _ _ (λ r, let '(align, i, p) := r in 0 ≤ align ∧ 0 ≤ i ∧ pc < p ≤ zlen body)).
  - destruct (negb _); [|cbn; lia]. apply wp_bind, wp_require. intros _. apply wp_bind.
    apply (wp_imm' _ _ _ _ LoadUint32_in); [lia|]. intros i p2 _ Hi Hp2. cbn. split; [apply Z.ldiff_nonneg; lia|lia].
  - intros [[align i] p2] (Ha & Hi & Hp2). destruct (32 <=? align); [exact I|]. apply wp_bind.
    assert (∃ P : Z → Prop, stays (if memory64 then LoadUint64 else LoadUint32) P ∧ (∀ v, P v → memory64 = false → v < 2 ^ 32)) as (P & HP & HP').
    { destruct memory64; eexists; (split; [first [exact LoadUint64_in|exact LoadUint32_in]|]); [done|]. intros v Hv _. cbn in Hv. lia. }
    apply (wp_imm' _ _ _ _ HP); [lia|]. intros off p3 _ Ho Hp3. cbn. split_and!; [done..|by apply HP'|lia|lia].
Qed.

Lemma at_index_in {A} (l : list A) i : 0 ≤ i < zlen l → ∃ a, at_index l i a.
Proof.
  intros Hi. destruct (l !! Z.to_nat i) as [a|] eqn:E; [exists a; split; [lia|done]|]. apply lookup_ge_None in E. unfold zlen in Hi. lia.
Qed.

Lemma memarg_spec pc :
  0 ≤ pc ≤ zlen body →
  wp panics (memarg e body pc)
    (λ r, let '(align, at_, pc') := r in
       0 ≤ align ∧ (∃ is64, at_ = memory_index_type is64) ∧ memarg_at e body pc (2 ^ align) at_ pc' ∧ pc < pc' ≤ zlen body).
Proof using Henv Hbytes Hlen.
  intros Hpc. unfold memarg. destruct (zlen (memories e) =? 0); [exact I|]. cbv zeta.
  eapply wp_use; [apply wp_eqn, readMemArg_spec; done|]. intros [[[align off] i] p] (Heq & Ha & Hi & Ho & Hp). cbn in Heq |- *.
  destruct (memArgIndexType _ _ _ _) as [at_|] eqn:E; [|exact I]. cbn. unfold memArgIndexType in E.
  destruct (Z.leb_spec (zlen (memories e)) i); [done|]. destruct (at_index_in (memories e) i ltac:(lia)) as [is64 Hm].
  assert (at_ = memory_index_type is64 ∧ (is64 = false → off < 2 ^ 32)) as [-> Hoff].
  { destruct (IsEnabled (enabledFeatures e) CoreFeatureMemory64) eqn:E64; cbn [negb] in E.
    - destruct Hm as [_ Hm]. rewrite Hm in E. cbn [default id] in E. destruct is64; [injection E as <-; done|].
      destruct (Z.ltb_spec (2 ^ 32 - 1) off); [done|]. injection E as <-. split; [done|lia].
    - injection E as <-. rewrite (at_index_Forall _ _ _ _ (ve_memory64 _ Henv E64) Hm). split; [done|auto]. }
  split; [done|]. split; [by exists is64|]. split; [|done]. exists align, off, i, is64. by split_and!.
Qed.

Lemma over_aligned_false align bytes : 0 ≤ align → over_aligned align bytes = false → 2 ^ align ≤ bytes.
Proof. intros Ha H. unfold over_aligned in H. rewrite Z.shiftl_1_l in H. lia. Qed.

Lemma validate_load_store_sound op pc s :
  byte body pc op → between OpcodeI32Load op OpcodeI64Store32 = true → spec s pc (plain_at true e body pc) (validate_load_store e body op (pc + 1) s).
Proof using Henv Hbytes Hlen.
  intros Hop Hr seg deep Hv Hw. pose proof (byte_bound _ _ Hop). unfold validate_load_store.
  eapply wp_use; [apply memarg_spec; lia|]. intros [[align at_] p] (Ha & [is64 ->] & Hm & Hp). cbv beta iota.
  pose proof (memory_table op is64 (byte_is_byte _ _ Hop)) as Ht. destruct (memory_case _ _) as [[[w ins] outs]|] eqn:Ec.
  - destruct (over_aligned align w) eqn:Eo; [exact I|]. apply over_aligned_false in Eo; [|done].
    apply same_access_some in Ht as (Ht & Hi & Ho). apply spec_types; [done|done|lia| |done|done]. unfold access_types in Ht.
    destruct (in_table spec_load op) as [[w' t]|] eqn:El.
    + injection Ht as -> <- <-. by eapply P_load.
    + destruct (in_table spec_store op) as [[w' t]|] eqn:Es; [|done]. injection Ht as -> <- <-. by eapply P_store.
  - exfalso. clear -Ec Hr. revert Ec. unfold between, OpcodeI32Load, OpcodeI64Store32 in Hr.
    assert (∀ o, 0x28 ≤ o < 0x3f → bool_decide (memory_case o (memory_index_type is64) ≠ None) = true) as H.
    { intros o Ho. pose proof (below_all 0x3f (λ o, (o <? 0x28) || bool_decide (memory_case o (memory_index_type is64) ≠ None)) o) as H.
      cbv beta in H. rewrite (proj2 (Z.ltb_ge o 0x28)) in H by lia. apply H; [destruct is64; vm_compute; reflexivity|lia]. }
    specialize (H op ltac:(lia)). by apply bool_decide_eq_true in H.
Qed.

(** [u32 v p H] takes an integer immediate: its value, the position after it, and the
    equation. *)
Ltac u32 v p H :=
  apply wp_bind; apply (wp_imm' _ _ _ _ LoadUint32_in); [lia|];
  let Hv := fresh "Hv" v in let Hp := fresh "Hp" p in intros v p H Hv Hp; cbv beta iota.

(** [nth_in x H] takes an element whose index is in range. *)
Ltac nth_in x H := apply wp_bind; apply wp_nth; [lia|]; intros x H; cbv beta iota.

Lemma validate_memory_size_grow_sound op pc s :
  byte body pc op → op = 0x3f ∨ op = 0x40 → spec s pc (plain_at true e body pc) (validate_memory_size_grow e body op (pc + 1) s).
Proof using Henv Hbytes Hlen.
  intros Hop Hr seg deep Hv Hw. pose proof (byte_bound _ _ Hop). unfold validate_memory_size_grow.
  wp_step. u32 i p Hi. wp_step. wp_step. nth_in is64 Hm.
  assert (memory_at e body (pc + 1) (memory_index_type is64) p) as Hmem by (exists i, is64; done).
  destruct (Z.eqb_spec op OpcodeMemoryGrow) as [->|Hn].
  - apply spec_types; [known..|lia|by eapply P_memory_grow|done|done].
  - apply spec_push; [known|lia| |done|done]. eapply P_memory_size; [|done]. by destruct Hr as [->| ->].
Qed.

Lemma validate_const_sound op pc s :
  byte body pc op → between OpcodeI32Const op OpcodeF64Const = true → spec s pc (plain_at true e body pc) (validate_const body op (pc + 1) s).
Proof using Hbytes Hlen.
  intros Hop Hr seg deep Hv Hw. pose proof (byte_bound _ _ Hop). unfold validate_const.
  destruct (Z.eqb_spec op OpcodeI32Const) as [->|?]; [|destruct (Z.eqb_spec op OpcodeI64Const) as [->|?]; [|destruct (Z.eqb_spec op OpcodeF32Const) as [->|?]]].
  - apply wp_bind. apply (wp_imm' _ _ _ _ LoadInt32_in); [lia|]. intros k p Hk _ Hp. apply spec_push; [done|lia|by eapply P_i32_const|done|done].
  - apply wp_bind. apply (wp_imm' _ _ _ _ LoadInt64_in); [lia|]. intros k p Hk _ Hp. apply spec_push; [done|lia|by eapply P_i64_const|done|done].
  - apply spec_push; [done|lia| |done|done]. replace (pc + 1 + 4) with (pc + 5) by lia. by apply P_f32_const.
  - apply spec_push; [done|lia| |done|done]. replace (pc + 1 + 8) with (pc + 9) by lia. apply P_f64_const.
    unfold between, OpcodeI32Const, OpcodeF64Const, OpcodeI64Const, OpcodeF32Const in *. by replace 0x44 with op by lia.
Qed.

(** ** References and tables *)

Lemma pop_reference_sound s seg deep (Q : Z * valueTypeStack → Prop) :
  view s seg deep → wf seg →
  (∀ v s' seg', viewed s s' seg' deep → wf seg' → (v = bot → poly seg') → reference true v → popped e seg [v] seg' → Q (v, s')) →
  wp panics (pop_reference s) Q.
Proof.
  intros Hv Hw HQ. unfold pop_reference. apply wp_bind. apply (wp_pop panics s seg deep); [done..|].
  intros v s' seg' Hv' Hw' Hb Hp Hc. cbn. fold bot. destruct (negb _ && negb _) eqn:E; [exact I|]. apply (HQ v s' seg'); [done..| |].
  - destruct (IsRef v) eqn:Er; [by left|]. right. split; [done|]. cbn in E. by apply negb_false_iff, Z.eqb_eq in E.
  - apply (popped_one e seg v); [done..|by left].
Qed.

Lemma pushable_one v seg : (v = bot → poly seg) → pushable [v] seg.
Proof. intros H. destruct (decide (v = bot)) as [->|Hn]; [right; auto|left; known]. Qed.

(** An instruction that has taken its operands and pushes one value. *)
Lemma step_push s s1 seg seg1 deep ins v (R : list Z → list Z → Prop) :
  viewed s s1 seg1 deep → popped e seg ins seg1 → (v = bot → poly seg1) → R ins [v] →
  ∃ seg', viewed s (push v s1) seg' deep ∧ step_ok e R seg seg'.
Proof.
  intros Hv Hp Hb HR. exists (v :: seg1). split; [eapply viewed_trans; [exact Hv|]; apply view_push, Hv|].
  apply (step_intro _ _ _ ins [v]); [done|by apply pushable_one|done].
Qed.

Lemma step_pop s s1 seg seg1 deep ins (R : list Z → list Z → Prop) :
  viewed s s1 seg1 deep → popped e seg ins seg1 → R ins [] → ∃ seg', viewed s s1 seg' deep ∧ step_ok e R seg seg'.
Proof. intros Hv Hp HR. exists seg1. split; [done|]. apply (step_intro _ _ _ ins []); [done|left; known|done]. Qed.

Lemma validate_ref_null_sound pc s :
  byte body pc OpcodeRefNull → spec s pc (plain_at true e body pc) (validate_ref_null e body (pc + 1) s).
Proof using Hbytes Hlen Hend.
  intros Hop seg deep Hv Hw. pose proof (byte_not_last _ _ Hop ltac:(done)). pose proof (byte_bound _ _ Hop). unfold validate_ref_null.
  apply wp_bind. apply wp_byte; [lia|]. intros h Hh. pose proof (byte_is_byte _ _ Hh) as Hhb.
  assert (∀ v, v = h → 0x69 ≤ h ≤ 0x74 → wp panics (Ok (push v s, pc + 1 + 1)) (λ r, pc < r.2 ∧ ∃ seg', viewed s r.1 seg' deep ∧ step_ok e (plain_at true e body pc r.2) seg seg')) as Hpush.
  { intros v -> Hrange. apply spec_push; [unfold bot, valueTypeUnknown; lia|lia| |done|done].
    replace (pc + 1 + 1) with (pc + 2) by lia. by apply P_ref_null_abstract. }
  destruct (Z.eqb_spec h ValueTypeExternref) as [E|?]; [by apply Hpush; [|rewrite E]|].
  destruct (Z.eqb_spec h ValueTypeFuncref) as [E|?]; [by apply Hpush; [|rewrite E]|].
  destruct (Z.eqb_spec h ValueTypeExnref) as [E|?]; [by apply Hpush; [|rewrite E]|].
  destruct (IsGCHeapType h) eqn:Eg.
  - wp_step. apply Hpush; [done|]. clear -Hhb Eg. revert Eg.
    pose proof (below_all 256 (λ h, implb (IsGCHeapType h) ((0x69 <=? h) && (h <=? 0x74))) h ltac:(vm_compute; reflexivity) Hhb) as Hall.
    cbv beta in Hall. intros Eg. rewrite Eg in Hall. cbn in Hall. lia.
  - wp_step. apply wp_bind. apply (wp_imm' _ _ _ _ DecodeUint32_in); [lia|]. intros i p Hi Hiv Hp. cbv beta iota.
    destruct (OutOfRange i _) eqn:Eo; [exact I|]. unfold OutOfRange in Eo. destruct (at_index_in (types e) i ltac:(lia)) as [t Ht].
    apply spec_push; [known|lia|by eapply P_ref_null|done|done].
Qed.

(** Only an unknown operand passes as one, and it passes as any. *)
Lemma sub_bot a : sub e a bot → a = bot.
Proof.
  intros [->|[->|H]]; [done..|]. unfold valueTypeMatches, refTypeMatches in H. change (IsRef bot) with false in H.
  rewrite orb_true_r, orb_false_r in H. by apply Z.eqb_eq in H.
Qed.

Lemma popped_bot seg seg' t : popped e seg [bot] seg' → popped e seg [t] seg'.
Proof.
  intros Hp. apply (popped_sub _ _ _ _ _ Hp). intros as_ Hs. inversion Hs as [|a ? ? ? Ha Hr]; subst. inversion Hr; subst.
  apply sub_bot in Ha as ->. constructor; [by right; left|constructor].
Qed.

Section references.
Context (Hidx : indices_ok e ∨ panics).

Lemma validate_ref_func_sound pc s :
  byte body pc OpcodeRefFunc → spec s pc (plain_at true e body pc) (validate_ref_func e body (pc + 1) s).
Proof using Henv Hbytes Hlen Hidx.
  intros Hop seg deep Hv Hw. pose proof (byte_bound _ _ Hop). unfold validate_ref_func.
  u32 i p Hi. destruct (bool_decide (i ∈ declaredFunctionIndexes e)) eqn:Ed; [|exact I]. apply bool_decide_eq_true in Ed. cbn [negb].
  destruct (Z.le_gt_cases (zlen (functions e)) i) as [Hout|Hrange].
  { destruct (IsEnabled _ _) eqn:Een; [|apply spec_push; [done|lia|by eapply P_ref_func_undefined|done|done]].
    apply wp_bind, wp_nth_unchecked; [|intros t [_ Ht%lookup_lt_Some]; unfold zlen in Hout; lia]. right. destruct Hidx as [Hi'|]; [|done].
    pose proof (proj1 (list.Forall_forall _ _) (ix_declared _ Hi') i Ed) as Hr. cbv beta in Hr. lia. }
  destruct (at_index_in (functions e) i ltac:(lia)) as [t Ht].
  pose proof (P_ref_func true e body pc i t p Hop Hi Ht Ed) as HR.
  destruct (IsEnabled _ _); [|apply spec_push; [done|lia|done|done|done]].
  apply wp_bind, wp_nth; [lia|]. intros t' Ht'. assert (t' = t) as -> by (destruct Ht', Ht; congruence). apply spec_push; [known|lia|done|done|done].
Qed.

Lemma validate_ref_sound op pc s :
  byte body pc op → between OpcodeRefNull op OpcodeRefFunc = true → spec s pc (plain_at true e body pc) (validate_ref e body op (pc + 1) s).
Proof using Henv Hbytes Hlen Hend Hidx.
  intros Hop Hr seg deep Hv Hw. unfold validate_ref. wp_step.
  destruct (Z.eqb_spec op OpcodeRefNull) as [->|?]; [by apply validate_ref_null_sound|].
  destruct (Z.eqb_spec op OpcodeRefIsNull) as [->|?].
  - apply wp_bind. apply (pop_reference_sound s seg deep); [done..|]. intros v s1 seg1 Hv1 Hw1 Hb Href Hp. cbn. split; [lia|].
    destruct Href as [Href|[_ ->]].
    + by apply (step_push _ _ _ seg1 _ [v]); [..|apply P_ref_is_null].
    + apply (step_push _ _ _ seg1 _ [ValueTypeFuncref]); [done| |done|by apply P_ref_is_null].
      by apply popped_bot.
  - assert (op = OpcodeRefFunc) as -> by (unfold between, OpcodeRefNull, OpcodeRefIsNull, OpcodeRefFunc in *; lia). by apply validate_ref_func_sound.
Qed.
End references.

Lemma validate_ref_as_non_null_sound pc s :
  byte body pc OpcodeRefAsNonNull → spec s pc (plain_at true e body pc) (validate_ref_as_non_null e (pc + 1) s).
Proof.
  intros Hop seg deep Hv Hw. unfold validate_ref_as_non_null. wp_step. apply wp_bind. apply (pop_reference_sound s seg deep); [done..|].
  intros v s1 seg1 Hv1 Hw1 Hb Href Hp. cbn. split; [lia|]. apply (step_push _ _ _ seg1 _ [v]); [done..| |by apply P_ref_as_non_null].
  unfold non_null. fold bot. destruct (Z.eqb_spec v bot); [auto|]. intros Hn. by apply AsNonNullable_known in Hn.
Qed.

Lemma validate_ref_eq_sound pc s : byte body pc OpcodeRefEq → spec s pc (plain_at true e body pc) (validate_ref_eq e (pc + 1) s).
Proof.
  intros Hop seg deep Hv Hw. unfold validate_ref_eq. wp_step. apply wp_bind. apply (wp_popRef e panics s seg deep); [done..|].
  intros s1 seg1 Hv1 Hp1. apply wp_bind. apply (wp_popRef e panics s1 seg1 deep); [apply Hv1|by eapply popped_wf|]. intros s2 seg2 Hv2 Hp2.
  cbn. split; [lia|]. apply (step_push _ _ _ seg2 _ [ValueTypeEqref; ValueTypeEqref]); [by eapply viewed_trans| |done|by apply P_ref_eq].
  exact (popped_app _ _ [_] _ [_] _ Hp1 Hp2).
Qed.

Lemma table_known i t b : at_index (tables e) i (t, b) → t ≠ bot.
Proof using Henv. intros H. exact (at_index_Forall _ _ _ _ (ve_tables _ Henv) H). Qed.

Lemma validate_table_get_set_sound op pc s :
  byte body pc op → op = OpcodeTableGet ∨ op = OpcodeTableSet → spec s pc (plain_at true e body pc) (validate_table_get_set e body op (pc + 1) s).
Proof using Henv Hbytes Hlen.
  intros Hop Hr seg deep Hv Hw. pose proof (byte_bound _ _ Hop). unfold validate_table_get_set. wp_step.
  u32 i p Hi. wp_step. apply wp_bind, wp_nth; [lia|]. intros [t b] Ht. cbv beta iota. pose proof (table_known _ _ _ Ht) as Hk.
  assert (table_at e body (pc + 1) t (table_index_type b) p) as Htab by (exists i, b; done).
  destruct (Z.eqb_spec op OpcodeTableGet) as [->|?].
  - apply (spec_types [table_index_type b] [t] pc p); [known..|lia|by eapply P_table_get|done|done].
  - destruct Hr as [->|Hr]; [done|]. apply (spec_types [t; table_index_type b] [] pc p); [known..|lia| |done|done]. rewrite Hr in Hop. by eapply P_table_set.
Qed.

(** ** Calls *)

Definition basic (L : list (list Z)) (pc pc' : Z) (ins outs : list Z) : Prop := plain_at true e body pc pc' ins outs ∨ branch_at true e body L pc pc' ins outs.

Lemma type_known i t : at_index (types e) i t → (bot ∉ Params t) ∧ (bot ∉ Results t).
Proof using Henv. intros H. by destruct (at_index_Forall _ _ _ _ (ve_types _ Henv) H) as (? & ? & _). Qed.

(** After the operands of a call are taken, the results are pushed, or the function returns
    with them. *)
Lemma after_call_sound L tail ft s s1 seg seg1 deep ins pc p :
  viewed s s1 seg1 deep → popped e seg ins seg1 → bot ∉ Results ft → pc < p →
  (tail = false → plain_at true e body pc p ins (rev (Results ft))) →
  (tail = true → subs e (Results ft) (Results (functionType e)) → ∀ a b, branch_at true e body L pc p (ins ++ a) b) →
  wp panics (after_call e tail ft (pushes (Results ft) s1) p) (λ r, pc < r.2 ∧ ∃ seg', viewed s r.1 seg' deep ∧ step_ok e (basic L pc r.2) seg seg').
Proof using Henv.
  intros Hv Hp Hk Hpc Hplain Htail. pose proof (view_pushes (Results ft) s1 seg1 deep (proj2 Hv)) as Hv2. destruct tail; cbn [after_call].
  - apply wp_bind. unfold validateReturnCall. wp_step. destruct (negb _) eqn:El; [exact I|]. apply negb_false_iff, Nat.eqb_eq in El.
    apply (wp_require_pushed e panics (pushes (Results ft) s1) seg1 deep (Results ft)); [apply Hv2|done|apply Henv|done|].
    intros s3 Hv3 Hs. cbn. split; [done|]. exists [bot]. split.
    + eapply viewed_trans; [exact Hv|]. eapply viewed_trans; [exact Hv2|]. eapply viewed_trans; [exact Hv3|]. by eapply view_unreachable, Hv3.
    + apply (step_unreachable _ _ _ ins seg1); [done|]. intros a b. right. by apply Htail.
  - cbn. split; [done|]. exists (rev (Results ft) ++ seg1). split; [by eapply viewed_trans|].
    apply (step_intro _ _ _ ins); [done|left; by apply not_in_rev|left; by apply Hplain].
Qed.

(** The signature of a callee, after operands [ins] were taken for the call itself. *)
Lemma call_signature_sound L i tail ft s s1 seg seg1 deep ins pc p :
  viewed s s1 seg1 deep → popped e seg ins seg1 → at_index (types e) i ft → pc < p →
  (tail = false → plain_at true e body pc p (ins ++ rev (Params ft)) (rev (Results ft))) →
  (tail = true → subs e (Results ft) (Results (functionType e)) → ∀ a b, branch_at true e body L pc p ((ins ++ rev (Params ft)) ++ a) b) →
  wp panics (let* s := validateCallSignature (types e) ft s1 in after_call e tail ft s p)
    (λ r, pc < r.2 ∧ ∃ seg', viewed s r.1 seg' deep ∧ step_ok e (basic L pc r.2) seg seg').
Proof using Henv.
  intros Hv Hp Ht Hpc Hplain Htail. destruct (type_known _ _ Ht) as [HP HR]. apply wp_bind. unfold validateCallSignature. apply wp_bind.
  apply (wp_pops e panics (rev (Params ft)) s1 seg1 deep); [apply Hv|by eapply popped_wf|by apply not_in_rev|]. intros s2 seg2 Hv2 Hp2. cbn [wp].
  apply (after_call_sound L tail ft s s2 seg seg2 deep (ins ++ rev (Params ft))); [by eapply viewed_trans|by eapply popped_app|done..].
Qed.

Section calls.
Context (Hidx : indices_ok e ∨ panics).

Lemma validate_call_sound L op pc s :
  byte body pc op → op = OpcodeCall ∨ op = OpcodeTailCallReturnCall → spec s pc (basic L pc) (validate_call e body op (pc + 1) s).
Proof using Henv Hbytes Hlen Hidx.
  intros Hop Hr seg deep Hv Hw. pose proof (byte_bound _ _ Hop). unfold validate_call. u32 i p Hi.
  destruct (OutOfRange i _) eqn:Eo; [exact I|]. unfold OutOfRange in Eo. nth_in ti Hti.
  apply wp_bind, wp_nth_unchecked; [|intros ft Hft; cbv beta iota].
  { destruct Hidx as [Hx|]; [left|by right]. by pose proof (at_index_Forall _ _ _ _ (ix_functions _ Hx) Hti). }
  assert (0 ≤ ti) by apply Hft.
  apply (call_signature_sound L ti _ ft s s seg seg deep []); [by split|by apply popped_nil|done|lia| |].
  - intros Hf. destruct Hr as [->| ->]; [|done]. eapply (P_call true e body pc i ti ft); [done..|by left].
  - intros Ht Hs a b. destruct Hr as [->| ->]; [done|]. eapply (B_return_call true e body L pc i ti ft); [done..|by left|done].
Qed.
End calls.

Lemma validate_call_indirect_sound L op pc s :
  byte body pc op → op = OpcodeCallIndirect ∨ op = OpcodeTailCallReturnCallIndirect → spec s pc (basic L pc) (validate_call_indirect e body op (pc + 1) s).
Proof using Henv Hbytes Hlen.
  intros Hop Hr seg deep Hv Hw. pose proof (byte_bound _ _ Hop). unfold validate_call_indirect. u32 i p Hi.
  destruct (OutOfRange i _) eqn:Eo; [exact I|]. unfold OutOfRange in Eo. u32 ti q Hti.
  apply (wp_use _ _ _ (λ _, True)); [destruct (negb (ti =? 0)); [by apply wp_require|done]|]. intros _ _. wp_step.
  apply wp_bind, wp_nth; [lia|]. intros [t b] Ht. cbv beta iota. destruct (hierarchyTop _ t =? _) eqn:Eh; [|exact I]. cbn [negb].
  apply Z.eqb_eq in Eh. change (Kind ValueTypeFuncref) with ValueTypeFuncref in Eh.
  apply wp_bind. apply (wp_popAndVerify e panics s seg deep); [done..|by destruct b|]. intros s1 seg1 Hv1 Hp1. nth_in ft Hft.
  assert (type_at e body (pc + 1) i ft p) as Htype by done.
  assert (table_at e body p t (table_index_type b) q) as Htab by (exists ti, b; done).
  apply (call_signature_sound L i _ ft s s1 seg seg1 deep [table_index_type b]); [done..|lia| |].
  - intros Hf. destruct Hr as [->| ->]; [|done]. eapply (P_call_indirect true e body pc i ft); [done..|by left|done|done].
  - intros Hf Hs a c. destruct Hr as [->| ->]; [done|]. eapply (B_return_call_indirect true e body L pc i ft t); [done|done|by left|done|done|done].
Qed.

Lemma validate_call_ref_sound L op pc s :
  byte body pc op → op = OpcodeCallRef ∨ op = OpcodeReturnCallRef → spec s pc (basic L pc) (validate_call_ref e body op (pc + 1) s).
Proof using Henv Hbytes Hlen.
  intros Hop Hr seg deep Hv Hw. pose proof (byte_bound _ _ Hop). unfold validate_call_ref. wp_step. u32 i p Hi.
  destruct (OutOfRange i _) eqn:Eo; [exact I|]. unfold OutOfRange in Eo.
  apply wp_bind. apply (wp_popAndVerify e panics s seg deep); [done..|known|]. intros s1 seg1 Hv1 Hp1. nth_in ft Hft.
  assert (type_at e body (pc + 1) i ft p) as Htype by done.
  apply (call_signature_sound L i _ ft s s1 seg seg1 deep [ValueTypeConcreteRef i true]); [done..|lia| |].
  - intros Hf. destruct Hr as [->| ->]; [|done]. eapply (P_call_ref true e body pc i ft); [done..|by left].
  - intros Hf Hs a c. destruct Hr as [->| ->]; [done|]. eapply (B_return_call_ref true e body L pc i ft); [done..|by left|done].
Qed.

(** ** Parametric instructions *)

Lemma validate_drop_sound pc s : byte body pc OpcodeDrop → spec s pc (plain_at true e body pc) (validate_drop (pc + 1) s).
Proof.
  intros Hop seg deep Hv Hw. unfold validate_drop. apply wp_bind. apply (wp_pop panics s seg deep); [done..|].
  intros v s1 seg1 Hv1 Hw1 Hb Hp Hc. cbn. split; [lia|]. apply (step_pop s s1 seg seg1 deep [v]); [done| |by apply P_drop].
  apply (popped_one e seg v); [done..|by left].
Qed.

(** The two operands of a [select] as two of the type it leaves. *)
Lemma select_operands v1 v2 :
  negb (v1 =? bot) && negb (v2 =? bot) && negb (areRefTypesCompatible (types e) v1 v2) = false →
  let t := if v1 =? bot then v2 else if v2 =? bot then v1 else if isRefSubtypeOf (types e) v1 v2 then v2 else v1 in
  sub e v1 t ∧ sub e v2 t ∧ (t = v1 ∨ t = v2) ∧ (t = bot → v2 = bot).
Proof.
  intros H. cbv zeta. destruct (Z.eqb_spec v1 bot) as [E1|H1]; [split_and!; [by right; left|by left|by right|done]|].
  destruct (Z.eqb_spec v2 bot) as [E2|H2]; [split_and!; [by left|by right; left|by left|done]|].
  cbn [negb andb] in H. apply negb_false_iff in H. unfold areRefTypesCompatible in H.
  destruct (isRefSubtypeOf (types e) v1 v2) eqn:E; [split_and!; [by right; right|by left|auto|done]|].
  split_and!; [by left|right; right; exact H|auto|done].
Qed.

Lemma one_of_In op l : one_of op l = true ↔ op ∈ l.
Proof.
  unfold one_of. rewrite existsb_exists. split.
  - intros (x & Hx & ->%Z.eqb_eq). by apply list_elem_of_In.
  - intros H. exists op. split; [by apply list_elem_of_In|apply Z.eqb_refl].
Qed.

Lemma select_annotation_sound pc :
  byte body pc OpcodeTypedSelect → wp panics (select_annotation e body (pc + 1)) (λ pc', ∃ t, annotation e body t pc pc' ∧ pc < pc').
Proof using Hbytes Hlen Hend.
  intros Hop. pose proof (byte_not_last _ _ Hop ltac:(done)). pose proof (byte_bound _ _ Hop). unfold select_annotation. wp_step.
  apply wp_bind, wp_byte; [lia|]. intros k Hk. destruct (Z.eqb_spec k 1) as [->|]; [|exact I]. cbn [negb]. cbv zeta.
  pose proof (byte_not_last _ _ Hk ltac:(done)). apply wp_bind, wp_byte; [lia|]. intros b Hb. replace (pc + 1 + 1) with (pc + 2) in * by lia.
  destruct (_ || _) eqn:Ep.
  - assert (∃ nullable : bool, b = if nullable then RefPrefixNullable else RefPrefixNonNullable) as [nullable ->].
    { apply orb_true_iff in Ep as [->%Z.eqb_eq| ->%Z.eqb_eq]; [by exists true|by exists false]. }
    assert (pc + 2 + 1 < zlen body) by (apply (byte_not_last _ _ Hb); by destruct nullable).
    apply wp_bind. apply (wp_imm' _ _ _ _ DecodeInt33_in); [lia|]. intros ht p Hht Hv Hp. cbv beta iota. replace (pc + 2 + 1) with (pc + 3) in * by lia.
    assert (∀ t, (ht ∈ [HeapTypeFunc; HeapTypeExtern; HeapTypeExn] ∧ t = (if nullable then u8 (ht + 0x80) else AsNonNullable (u8 (ht + 0x80)))) ∨
      (0 ≤ ht < zlen (types e) ∧ t = ValueTypeConcreteRef ht nullable) → ∃ t, annotation e body t pc p ∧ pc < p) as Hann.
    { intros t Ht. exists t. split; [|lia]. split; [done|]. right. by exists nullable, ht. }
    destruct (_ || _ || _) eqn:Eh; [|destruct (Z.ltb_spec ht 0); [exact I|]; destruct (Z.leb_spec (zlen (types e)) ht); [exact I|]].
    + cbn. eapply Hann. left. split; [|done]. rewrite !orb_true_iff, !Z.eqb_eq in Eh. rewrite !elem_of_cons. tauto.
    + cbn. eapply Hann. right. split; [lia|done].
  - destruct (one_of b _) eqn:Eb; [|exact I]. apply one_of_In in Eb. cbn. exists b. split; [|lia]. split; [done|]. left. split; [done|].
    split; [|lia]. rewrite !elem_of_cons in *. tauto.
Qed.

Lemma validate_select_sound op pc s :
  byte body pc op → op = OpcodeSelect ∨ op = OpcodeTypedSelect → spec s pc (plain_at true e body pc) (validate_select e body op (pc + 1) s).
Proof using Hbytes Hlen Hend.
  intros Hop Hr seg deep Hv Hw. unfold validate_select.
  apply wp_bind. apply (wp_popAndVerify e panics s seg deep); [done..|]. intros s1 seg1 Hv1 Hp1.
  apply wp_bind. apply (wp_pop panics s1 seg1 deep); [apply Hv1|by eapply popped_wf|]. intros v1 s2 seg2 Hv2 Hw2 Hb1 Hk2 Hc2. cbv beta iota.
  apply wp_bind. apply (wp_pop panics s2 seg2 deep); [apply Hv2|done|]. intros v2 s3 seg3 Hv3 Hw3 Hb2 Hk3 Hc3. cbv beta iota.
  apply (wp_use _ _ _ (λ p, pc < p ∧ ∀ t, t = v1 ∨ t = v2 → plain_at true e body pc p [I32; t; t] [t])).
  { destruct (Z.eqb_spec op OpcodeTypedSelect) as [->|Hn].
    - eapply wp_mono; [by apply select_annotation_sound|]. intros p (t' & Ht' & Hp). split; [done|]. intros t _.
      eapply P_select_t; [exact Hop|exact Ht'|by left].
    - destruct (_ || _) eqn:Er; [exact I|]. apply orb_false_iff in Er as [Er1 Er2]. destruct Hr as [->|]; [|done].
      cbn. split; [lia|]. intros t Ht. apply P_select; [done|]. by destruct Ht as [->| ->]. }
  intros p [Hp HR]. fold bot. destruct (negb _ && negb _ && negb _) eqn:E; [exact I|]. pose proof (select_operands _ _ E) as Ht. cbv zeta in Ht |- *.
  destruct Ht as (Hs1 & Hs2 & Heq & Hbot). set (t := if v1 =? bot then _ else _) in *. cbn. split; [done|].
  apply (step_push s s3 seg seg3 deep [I32; t; t]).
  - eapply viewed_trans; [exact Hv1|]. by eapply viewed_trans.
  - apply (popped_app e seg [I32] seg1 [t; t] seg3 Hp1). apply (popped_app e seg1 [t] seg2 [t] seg3).
    + by apply (popped_one e seg1 v1).
    + by apply (popped_one e seg2 v2).
  - auto.
  - by apply HR.
Qed.

(** ** Miscellaneous instructions *)

Lemma data_index_sound pc : 0 ≤ pc ≤ zlen body → wp panics (data_index e body pc) (λ p, data_at e body pc p ∧ pc < p ≤ zlen body).
Proof using Hbytes Hlen.
  intros Hpc. unfold data_index. destruct (DataCountSection e) eqn:Ed; [|exact I]. u32 i p Hi. destruct (OutOfRange _ _) eqn:Eo; [exact I|].
  unfold OutOfRange in Eo. cbn. split; [|done]. exists i. split_and!; [congruence|done|lia|lia].
Qed.

Lemma misc_memory_sound pc :
  0 ≤ pc ≤ zlen body → wp panics (misc_memory e body pc) (λ r, memory_at e body pc r.1 r.2 ∧ r.1 ≠ bot ∧ pc < r.2 ≤ zlen body).
Proof using Hbytes Hlen.
  intros Hpc. unfold misc_memory. u32 i p Hi. wp_step. wp_step. nth_in b Hb. cbn. split_and!; [by exists i, b|known|lia|lia].
Qed.

Lemma misc_table_sound pc :
  0 ≤ pc ≤ zlen body →
  wp panics (misc_table e body pc) (λ r, let '(t, a, p) := r in table_at e body pc t a p ∧ a ≠ bot ∧ t ≠ bot ∧ pc < p ≤ zlen body).
Proof using Henv Hbytes Hlen.
  intros Hpc. unfold misc_table. u32 i p Hi.
  apply (wp_use _ _ _ (λ _, True)); [destruct (negb (i =? 0)); [by apply wp_require|done]|]. intros _ _. wp_step.
  apply wp_bind, wp_nth; [lia|]. intros [t b] Ht. cbn. split_and!; [by exists i, b|by destruct b|by eapply table_known|lia|lia].
Qed.

Lemma elem_index_sound pc : 0 ≤ pc ≤ zlen body → wp panics (elem_index e body pc) (λ r, elem_at e body pc r.1 r.2 ∧ pc < r.2 ≤ zlen body).
Proof using Hbytes Hlen.
  intros Hpc. unfold elem_index. u32 i p Hi. destruct (OutOfRange _ _) eqn:Eo; [exact I|]. unfold OutOfRange in Eo. nth_in t Ht.
  cbn. split; [by exists i|done].
Qed.

Lemma length_type_known a b : a ≠ bot → length_type a b ≠ bot.
Proof. unfold length_type. by destruct (b =? I32). Qed.

Lemma min_index_length a b : min_index a b = length_type b a.
Proof. done. Qed.

Lemma bulk_params_sound op pc :
  0 ≤ pc ≤ zlen body → between OpcodeMiscMemoryInit op OpcodeMiscTableCopy = true →
  wp panics (bulk_params e body op pc) (λ r, misc_at e body op pc r.2 r.1 [] ∧ (bot ∉ r.1) ∧ pc < r.2).
Proof using Henv Hbytes Hlen.
  intros Hpc Hr. unfold bulk_params.
  destruct (Z.eqb_spec op OpcodeMiscDataDrop) as [->|N1].
  { eapply wp_use; [by apply data_index_sound|]. intros p [Hd Hp]. cbn. split_and!; [by apply M_data_drop|known|lia]. }
  destruct (one_of op _) eqn:Eo.
  - apply one_of_In in Eo. wp_step.
    apply (wp_use _ _ _ (λ p, pc ≤ p ≤ zlen body ∧ (op = OpcodeMiscMemoryInit → data_at e body pc p) ∧ (op ≠ OpcodeMiscMemoryInit → p = pc))).
    { destruct (Z.eqb_spec op OpcodeMiscMemoryInit) as [->|]; [|cbn; split_and!; [lia|lia|done|done]]. eapply wp_mono; [by apply data_index_sound|]. intros p [Hd Hp]. split_and!; [lia|lia|done|done]. }
    intros p (Hp & Hd & Hnd). eapply wp_use; [apply misc_memory_sound; lia|]. intros [a q] (Ha & Hka & Hq). cbn in Ha, Hka, Hq |- *.
    destruct (Z.eqb_spec op OpcodeMiscMemoryCopy) as [->|N2]; [|destruct (Z.eqb_spec op OpcodeMiscMemoryFill) as [->|N3]].
    + rewrite Hnd in * by done. eapply wp_use; [apply misc_memory_sound; lia|]. intros [a2 q2] (Ha2 & Hka2 & Hq2). cbn in Ha2, Hka2, Hq2 |- *.
      split_and!; [rewrite <- min_index_length; by eapply M_memory_copy| |lia]. pose proof (length_type_known a a2 Hka). known.
    + rewrite Hnd in * by done. cbn. split_and!; [by eapply M_memory_fill|known|lia].
    + assert (op = OpcodeMiscMemoryInit) as -> by (rewrite !elem_of_cons, elem_of_nil in Eo; tauto).
      cbn. split_and!; [eapply M_memory_init; [done|by apply Hd|done]|known|lia].
  - destruct (Z.eqb_spec op OpcodeMiscTableInit) as [->|N2]; [|destruct (Z.eqb_spec op OpcodeMiscElemDrop) as [->|N3]].
    + eapply wp_use; [by apply elem_index_sound|]. intros [t p] (Ht & Hp). cbn in Ht, Hp |- *.
      eapply wp_use; [apply misc_table_sound; lia|]. intros [[t' a] q] (Ht' & Hka & Hkt & Hq). cbn.
      destruct (isRefSubtypeOf _ _ _) eqn:Es; [|exact I]. cbn. split_and!; [|known|lia]. eapply M_table_init; [done..|]. by right; right.
    + eapply wp_use; [by apply elem_index_sound|]. intros [t p] (Ht & Hp). cbn in Ht, Hp |- *. split_and!; [by eapply M_elem_drop|known|lia].
    + assert (op = OpcodeMiscTableCopy) as ->.
      { unfold between, one_of, OpcodeMiscMemoryInit, OpcodeMiscTableCopy, OpcodeMiscDataDrop, OpcodeMiscMemoryCopy, OpcodeMiscMemoryFill, OpcodeMiscTableInit, OpcodeMiscElemDrop in *.
        cbn [existsb] in Eo. lia. }
      eapply wp_use; [by apply misc_table_sound|]. intros [[t1 a1] p] (Ht1 & Hka1 & Hkt1 & Hp). cbn.
      eapply wp_use; [apply misc_table_sound; lia|]. intros [[t2 a2] q] (Ht2 & Hka2 & Hkt2 & Hq). cbn.
      destruct (isRefSubtypeOf _ _ _) eqn:Es; [|exact I]. cbn.
      split_and!; [rewrite <- min_index_length; eapply M_table_copy; [done..|]; by right; right| |lia]. pose proof (length_type_known a1 a2 Hka1). known.
Qed.

Lemma validate_misc_sound pc s : byte body pc OpcodeMiscPrefix → spec s pc (plain_at true e body pc) (validate_misc e body (pc + 1) s).
Proof using Henv Hbytes Hlen.
  intros Hop seg deep Hv Hw. pose proof (byte_bound _ _ Hop). unfold validate_misc. u32 op p Hu. wp_step.
  assert (∀ q ins outs, misc_at e body op p q ins outs → plain_at true e body pc q ins outs) as HR by (intros; by eapply P_misc).
  destruct (between OpcodeMiscI32TruncSatF32S op OpcodeMiscI64TruncSatF64U) eqn:E1.
  { wp_step. unfold between, OpcodeMiscI32TruncSatF32S, OpcodeMiscI64TruncSatF64U in E1. pose proof (trunc_sat_table op ltac:(lia)) as Ht.
    destruct (trunc_sat op) as [it ot]. cbn [fst snd] in Ht. apply same_types_some in Ht as (Ht & Hi & Ho).
    apply shapes_some in Ht as (sh & Ht & Hsi & Hso). apply spec_types; [done|done|lia| |done|done]. rewrite Hsi, Hso. apply HR. by apply M_trunc_sat. }
  destruct (between OpcodeMiscMemoryInit op OpcodeMiscTableCopy) eqn:E2.
  { wp_step. eapply wp_use; [apply bulk_params_sound; [lia|done]|]. intros [ins q] (Hm & Hk & Hq). cbn in Hm, Hk, Hq |- *.
    apply spec_types; [done|known|lia|by apply HR|done|done]. }
  destruct (between OpcodeMiscTableGrow op OpcodeMiscTableFill) eqn:E3; [|exact I].
  wp_step. u32 i q Hi. wp_step. apply wp_bind, wp_nth; [lia|]. intros [t b] Ht. cbv beta iota. pose proof (table_known _ _ _ Ht) as Hk.
  assert (table_at e body p t (table_index_type b) q) as Htab by (exists i, b; done).
  assert (table_index_type b ≠ bot) as Hkb by by destruct b.
  unfold table_case. destruct (Z.eqb_spec op OpcodeMiscTableGrow) as [->|N1]; [|destruct (Z.eqb_spec op OpcodeMiscTableSize) as [->|N2]].
  - apply spec_types; [known..|lia|apply HR; by eapply M_table_grow|done|done].
  - apply spec_types; [known..|lia|apply HR; by eapply M_table_size|done|done].
  - apply spec_types; [known..|lia|apply HR; eapply M_table_fill; [|done]|done|done].
    unfold between, OpcodeMiscTableGrow, OpcodeMiscTableSize, OpcodeMiscTableFill in *. lia.
Qed.
End instructions.
