(* ===== verification/WasmSoundSimd.v ===== *)
(** Soundness of the validation of vector instructions, atomic instructions, and the
    instructions of the GC proposal that do not branch. *)
From Stdlib Require Import ZArith Lia.
From stdpp Require Import base list numbers option tactics gmap sets.
From S2P Require Import Prelude Leb128 GcHeap GcCollect GcOps GcTypes GcTypeDecode.
From S2P Require Import WasmOpcodes WasmValidStack WasmValidInstr WasmValidSimd WasmValidGc WasmValidate WasmTyping WasmTables WasmSoundStack WasmSoundInstr.
Local Open Scope Z_scope.
Local Open Scope go_scope.

Section instructions.
Context (e : env) (body : list Z) (panics : Prop).
Context (Henv : valid_env e) (Hbytes : Forall is_byte body) (Hlen : zlen body < 2 ^ 63) (Hend : list.last body = Some OpcodeEnd).

#[local] Abbreviation spec := (spec e panics).

(** ** Vector instructions *)

Lemma ReadVecOpcode_sound pc :
  0 ≤ pc < zlen body →
  wp panics (ReadVecOpcode body pc)
    (λ r, let '(op, size) := r in ReadVecOpcode body pc = Ok (op, size) ∧ 0 ≤ op < 2 ^ 14 ∧ 0 ≤ size ∧ pc + size ≤ zlen body).
Proof using Hbytes.
  intros Hpc. apply (wp_mono _ _ (λ r, ReadVecOpcode body pc = Ok r ∧ 0 ≤ r.1 < 2 ^ 14 ∧ 0 ≤ r.2 ∧ pc + r.2 ≤ zlen body)); [|by intros [op size]].
  apply wp_eqn. unfold ReadVecOpcode. apply wp_bind, wp_byte; [done|]. intros b Hb. pose proof (byte_is_byte body Hbytes _ _ Hb) as Hbb. unfold is_byte in Hbb.
  destruct (Z.ltb_spec b 0x80); [cbn; lia|]. destruct (Z.leb_spec (zlen body) (pc + 1)); [cbn; lia|].
  apply wp_bind, wp_byte; [lia|]. intros b1 Hb1. pose proof (byte_is_byte body Hbytes _ _ Hb1) as Hbb1. unfold is_byte in Hbb1.
  destruct (Z.leb_spec 0x80 b1); [cbn; lia|]. cbn. split; [|lia].
  assert (∀ x, 0 ≤ x < 256 → 0 ≤ Z.land x 0x7f < 128) as Hand by (intros x Hx; change 0x7f with (Z.ones 7); rewrite Z.land_ones by lia; apply Z.mod_pos_bound; lia).
  rewrite Z.shiftl_mul_pow2 by lia. specialize (Hand b ltac:(lia)). split; [apply Z.lor_nonneg; lia|].
  apply Z.log2_lt_cancel. rewrite Z.log2_lor by lia. apply Z.max_lub_lt.
  - eapply Z.le_lt_trans; [apply (Z.log2_le_mono _ 127); lia|]. vm_compute. done.
  - eapply Z.le_lt_trans; [apply (Z.log2_le_mono _ (127 * 2 ^ 7)); lia|]. vm_compute. done.
Qed.

Lemma lane_index_sound pc n : 0 ≤ pc ≤ zlen body → wp panics (lane_index body pc n) (λ p, lane_at body pc n p ∧ pc < p ≤ zlen body).
Proof.
  intros Hpc. unfold lane_index. destruct (Z.leb_spec (zlen body) pc); [exact I|]. apply wp_bind, wp_byte; [lia|]. intros b Hb.
  destruct (Z.leb_spec n b); [exact I|]. cbn. split; [by exists b|lia].
Qed.

Lemma validate_vec_memory_sound q pc maxAlign lane ins outs s (R : Z → list Z → list Z → Prop) :
  0 ≤ q → q < pc ≤ zlen body → bot ∉ ins → bot ∉ outs →
  (∀ bytes at_ p p', memarg_at e body pc bytes at_ p → bytes ≤ maxAlign →
     match lane with Some n => lane_at body p n p' | None => p' = p end → R p' (ins ++ [at_]) (rev outs)) →
  spec s q R (validate_vec_memory e body pc maxAlign lane ins outs s).
Proof using Henv Hbytes Hlen.
  intros Hq Hpc Hi Ho HR seg deep Hv Hw. unfold validate_vec_memory.
  eapply wp_use; [apply memarg_spec; [done..|lia]|]. intros [[align at_] p] (Ha & [is64 Hat] & Hm & Hp). cbv beta iota.
  destruct (over_aligned align maxAlign) eqn:Eo; [exact I|]. apply over_aligned_false in Eo; [|done].
  apply (wp_use _ _ _ (λ p', match lane with Some n => lane_at body p n p' | None => p' = p end ∧ p ≤ p')).
  { destruct lane; [|cbn; lia]. eapply wp_mono; [apply lane_index_sound; lia|]. intros p' [Hl Hp']. split; [done|lia]. }
  intros p' [Hl Hp']. apply spec_types; [|done|lia|by eapply HR|done|done].
  rewrite not_elem_of_app. split; [done|]. subst at_. known.
Qed.

Lemma shuffle_lanes_sound pc :
  0 ≤ pc ≤ zlen body → wp panics (shuffle_lanes body pc) (λ p, p = pc + 16 ∧ p ≤ zlen body ∧ ∀ k, 0 ≤ k < 16 → ∃ b, byte body (pc + k) b ∧ b < 32).
Proof.
  intros Hpc. unfold shuffle_lanes. destruct (Z.leb_spec (zlen body) (pc + 15)); [exact I|].
  destruct (forallb _ _) eqn:Ef; [|exact I]. cbn [negb]. cbn. split_and!; [done|lia|].
  intros k Hk. destruct (at_index_in body (pc + k) ltac:(lia)) as [b Hb]. exists b. split; [exact Hb|].
  rewrite forallb_forall in Ef. specialize (Ef b). cbv beta in Ef. assert (List.In b (take 16 (drop (Z.to_nat pc) body))) as Hin; [|specialize (Ef Hin); lia].
  apply list_elem_of_In. apply (list_elem_of_lookup_2 _ (Z.to_nat k)). rewrite lookup_take_lt by lia. rewrite lookup_drop.
  destruct Hb as [_ Hb]. rewrite <- Hb. f_equal. lia.
Qed.

Lemma validate_vec_sound pc s : byte body pc OpcodeVecPrefix → spec s pc (plain_at true e body pc) (validate_vec e body (pc + 1) s).
Proof using Henv Hbytes Hlen Hend.
  intros Hop. pose proof (byte_not_last body Hend _ _ Hop ltac:(done)). pose proof (byte_bound _ _ _ Hop). intros seg deep Hv Hw. unfold validate_vec.
  eapply wp_use; [apply ReadVecOpcode_sound; lia|]. intros [op size] (Hread & Hrange & Hsize & Hbound). cbv beta iota.
  destruct (Z.eqb_spec size 0); [exact I|]. cbv zeta. wp_step.
  apply (wp_use _ _ _ (λ _, True)); [destruct (_ <=? op); [by apply wp_require|done]|]. intros _ _.
  set (p := pc + 1 + size) in *.
  assert (∀ q ins outs, vec_at e body op p q ins outs → plain_at true e body pc q ins outs) as HR by (intros; by eapply P_vec).
  pose proof (vec_table op (proj1 Hrange)) as Ht. destruct (vec_case op) as [[[m ins] outs]|]; [|exact I].
  apply same_vec_some in Ht as (Ht & Hi & Ho). apply vec_types_row in Ht. destruct m as [| | |k|w lane].
  - apply spec_types; [done|done|lia|apply HR; by apply V_plain|done|done].
  - destruct Ht as (-> & -> & Hr). destruct (Z.leb_spec (zlen body) (p + 15)); [exact I|].
    apply spec_types; [done|done|lia|rewrite Hr; by apply HR, V_const|done|done].
  - destruct Ht as (-> & -> & Hr). eapply wp_use; [apply shuffle_lanes_sound; lia|]. intros q (-> & Hq & Hl).
    apply spec_types; [done|done|lia|rewrite Hr; by apply HR, V_shuffle|done|done].
  - eapply wp_use; [apply lane_index_sound; lia|]. intros q [Hl Hq]. apply spec_types; [done|done|lia| |done|done].
    destruct Ht as [t [(Ht & -> & ->)|(Ht & -> & ->)]]; apply HR; [by eapply V_extract|by eapply V_replace].
  - apply (validate_vec_memory_sound pc p w lane ins outs); [lia|lia|done|done| |done|done]. intros bytes a q q' Hm Hle Hl. apply HR.
    destruct lane as [k|].
    + destruct Ht as (-> & -> & [[Ht ->]|[Ht ->]]); [by eapply V_load_lane|by eapply V_store_lane].
    + subst q'. destruct Ht as [(Ht & -> & ->)|(-> & -> & -> & ->)]; [by eapply V_load|by eapply V_store].
Qed.

(** ** Atomic instructions *)

Lemma validate_atomic_sound pc s : byte body pc OpcodeAtomicPrefix → spec s pc (plain_at true e body pc) (validate_atomic e body (pc + 1) s).
Proof using Henv Hbytes Hlen Hend.
  intros Hop. pose proof (byte_not_last body Hend _ _ Hop ltac:(done)). pose proof (byte_bound _ _ _ Hop). intros seg deep Hv Hw. unfold validate_atomic.
  apply wp_bind, wp_byte; [lia|]. intros op Ho. pose proof (byte_is_byte body Hbytes _ _ Ho) as Hob. wp_step. cbv zeta.
  replace (pc + 1 + 1) with (pc + 2) by lia.
  assert (∀ q ins outs, atomic_at true e body op (pc + 2) q ins outs → plain_at true e body pc q ins outs) as HR by (intros; by eapply P_atomic).
  destruct (Z.eqb_spec op OpcodeAtomicFence) as [->|N].
  { pose proof (byte_not_last body Hend _ _ Ho ltac:(done)). apply wp_bind, wp_byte; [lia|]. intros i Hi.
    destruct (Z.eqb_spec i 0) as [->|]; [|exact I]. apply spec_nothing; [lia| |done|done]. apply HR. by apply A_fence. }
  eapply wp_use; [apply memarg_spec; [done..|lia]|]. intros [[align at_] p] (Ha & [is64 ->] & Hm & Hp). cbv beta iota.
  pose proof (atomic_table op is64 Hob) as Ht. destruct (atomic_case _ _) as [[[[exact_ w] ins] outs]|]; [|exact I].
  destruct (if exact_ then _ else _) eqn:Ee; [exact I|].
  assert (2 ^ align ≤ w) as Hle.
  { destruct exact_; [|by apply over_aligned_false]. apply negb_false_iff, Z.eqb_eq in Ee. rewrite Z.shiftl_1_l in Ee. lia. }
  cbn [drop_exact] in Ht. apply same_access_some in Ht as (Ht & Hi & Ho'). unfold atomic_types in Ht.
  destruct (spec_atomic op) as [[[w' i'] o']|] eqn:Es; [|done]. injection Ht as -> Hins Ho2.
  apply spec_types; [done|done|lia| |done|done]. apply HR. rewrite <- Hins, <- Ho2. by eapply A_access.
Qed.
End instructions.
