(* ===== verification/WasmSoundGc.v ===== *)
(** Soundness of the validation of the instructions of the GC proposal that do not
    branch. *)
From Stdlib Require Import ZArith Lia.
From stdpp Require Import base list numbers option tactics gmap sets.
From S2P Require Import Prelude Leb128 GcHeap GcCollect GcOps GcTypes GcTypeDecode.
From S2P Require Import WasmOpcodes WasmValidStack WasmValidInstr WasmValidSimd WasmValidGc WasmValidate WasmTyping WasmTables WasmSoundStack WasmSoundInstr.
Local Open Scope Z_scope.
Local Open Scope go_scope.

Section instructions.
Context (e : env) (body : list Z) (panics : Prop).
Context (Henv : valid_env e) (Hbytes : Forall is_byte body) (Hlen : zlen body < 2 ^ 63) (Hend : list.last body = Some OpcodeEnd).

(** ** Types and fields *)

Lemma gcTypeAt_sound i k : 0 ≤ i → wp panics (gcTypeAt (types e) i k) (λ t, at_index (types e) i t ∧ td_kind t = k).
Proof.
  intros Hi. unfold gcTypeAt. destruct (OutOfRange i _) eqn:Eo; [exact I|]. unfold OutOfRange in Eo. apply wp_bind, wp_nth; [lia|]. intros t Ht.
  destruct (bool_decide _) eqn:Ek; [|exact I]. by apply bool_decide_eq_true in Ek.
Qed.

(** [kind_in t H] reads a type of a kind. *)
Ltac kind_in t H := eapply wp_use; [apply gcTypeAt_sound; lia|]; intros t H; cbv beta iota.

Lemma field_known i t j f : at_index (types e) i t → at_index (td_fields t) j f → f_type f ≠ bot.
Proof using Henv.
  intros Ht [_ Hf] Hb. destruct (at_index_Forall _ _ _ _ (ve_types _ Henv) Ht) as (_ & _ & Hk). apply Hk. rewrite <- Hb.
  apply list_elem_of_fmap. exists f. split; [done|]. by eapply list_elem_of_lookup_2.
Qed.

Lemma fields_known i t : at_index (types e) i t → bot ∉ ((λ f, unpackedType (f_type f)) <$> td_fields t).
Proof using Henv.
  intros Ht (f & Hb & Hf)%list_elem_of_fmap. apply list_elem_of_lookup_1 in Hf as [j Hj].
  assert (f_type f ≠ bot) as Hk by (apply (field_known i t (Z.of_nat j) f); [done|]; split; [lia|by rewrite Nat2Z.id]).
  by apply unpacked_known in Hk.
Qed.

(** The element of an array type. *)
Lemma element_sound i t pc p (Q : FieldType → Prop) :
  u32_at body pc i p → at_index (types e) i t → td_kind t = CompositeKindArray →
  (∀ f, array_at e body pc i f p → f_type f ≠ bot → Q f) → wp panics (element t) Q.
Proof using Henv.
  intros Hu Ht Hk HQ. pose proof (at_index_Forall _ _ _ _ (ve_array _ Henv) Ht Hk) as Hne. unfold element. apply wp_nth.
  - unfold zlen. destruct (td_fields t); [done|cbn; lia].
  - intros f Hf. apply HQ; [|by eapply field_known]. exists t. by split_and!.
Qed.

Lemma fieldAt_sound t j : 0 ≤ j → wp panics (fieldAt t j) (λ f, at_index (td_fields t) j f).
Proof. intros Hj. unfold fieldAt. destruct (OutOfRange j _) eqn:Eo; [exact I|]. unfold OutOfRange in Eo. apply wp_nth; [lia|done]. Qed.

Lemma packed_or st : ((st =? ValueTypeI8) || (st =? ValueTypeI16) = true) ↔ packed st.
Proof. unfold packed. by rewrite orb_true_iff, !Z.eqb_eq. Qed.

(** The check of an access, for the three forms of a read. *)
Lemma checkPackedAccess_sound a b c op st :
  (a, b, c) = (2, 3, 4) ∨ (a, b, c) = (11, 12, 13) → op = a ∨ op = b ∨ op = c →
  wp panics (checkPackedAccess op st) (λ _, access a b c op st).
Proof.
  intros Habc Hop. pose proof (packed_or st) as Hp. unfold checkPackedAccess, access. cbv zeta.
  destruct ((st =? ValueTypeI8) || (st =? ValueTypeI16)).
  - assert (packed st) by (by apply Hp). destruct Habc as [[= -> -> ->]|[= -> -> ->]]; destruct Hop as [->|[->| ->]]; cbn; auto.
  - assert (¬ packed st) by (by rewrite <- Hp). destruct Habc as [[= -> -> ->]|[= -> -> ->]]; destruct Hop as [->|[->| ->]]; cbn; auto.
Qed.

(** ** Structures *)

(** The signature an instruction of the proposal has, from the opcode after the prefix. *)
Definition gc (op pc : Z) (p : Z) (ins outs : list Z) : Prop := gc_at e body op pc p ins outs.

Ltac u32 v p H :=
  apply wp_bind; apply (wp_imm' body panics Hbytes Hlen _ _ _ _ LoadUint32_in); [lia|];
  let Hv := fresh "Hv" v in let Hp := fresh "Hp" p in intros v p H Hv Hp; cbv beta iota.

Lemma gc_struct_new_sound op pc s :
  0 ≤ pc ≤ zlen body → op = 0 ∨ op = 1 → spec e panics s pc (gc op pc) (gc_struct_new e body op pc s).
Proof using Henv Hbytes Hlen.
  intros Hpc Hop seg deep Hv Hw. unfold gc_struct_new. u32 i p Hi. kind_in t Ht. destruct Ht as [Ht Hk].
  assert (kind_at e body pc i CompositeKindStruct t p) as Hkind by (split; [by split|done]). destruct Hop as [->| ->].
  - change (0 =? OpcodeGCStructNewDefault) with false. cbv iota. apply wp_bind. apply (wp_pops e panics _ s seg deep); [done..|apply not_in_rev; by eapply fields_known|]. intros s1 seg1 Hv1 Hp1. cbn [wp]. split; [cbn; lia|].
    eapply (step_push e s s1 seg seg1); [done|exact Hp1|intros H; by apply ConcreteRef_known in H|]. by eapply G_struct_new.
  - change (1 =? OpcodeGCStructNewDefault) with true. cbv iota. apply wp_bind. destruct (forallb _ _) eqn:Ef; [|exact I]. apply (spec_push e panics); [known|lia| |done|done]. eapply G_struct_new_default; [done..|].
    rewrite forallb_forall in Ef. apply list.Forall_forall. intros f Hf. apply Ef. by apply list_elem_of_In.
Qed.

Lemma gc_struct_access_sound op pc s :
  0 ≤ pc ≤ zlen body → op = 2 ∨ op = 3 ∨ op = 4 ∨ op = 5 → spec e panics s pc (gc op pc) (gc_struct_access e body op pc s).
Proof using Henv Hbytes Hlen.
  intros Hpc Hop seg deep Hv Hw. unfold gc_struct_access. u32 i p Hi. u32 j q Hj. kind_in t Ht. destruct Ht as [Ht Hk].
  assert (kind_at e body pc i CompositeKindStruct t p) as Hkind by (split; [by split|done]).
  eapply wp_use; [apply fieldAt_sound; lia|]. intros f Hf. pose proof (field_known _ _ _ _ Ht Hf) as Hfk. cbv beta.
  destruct (decide (op = 5)) as [->|Hn].
  - apply wp_bind. change (checkPackedAccess 5 (f_type f)) with (Ok () : vres ()). cbn [wp]. change (5 =? OpcodeGCStructSet) with true. cbv iota.
    destruct (f_mutable f) eqn:Em; [|exact I]. cbn [negb]. change (5 =? OpcodeGCStructSet) with true. cbv iota.
    apply wp_bind. apply (wp_popAndVerify e panics s seg deep); [done..|known|]. intros s1 seg1 Hv1 Hp1.
    apply wp_bind. apply (wp_popRef e panics s1 seg1 deep); [apply Hv1|by eapply popped_wf|]. intros s2 seg2 Hv2 Hp2. cbn [wp]. split; [cbn; lia|].
    eapply (step_pop e s s2 seg seg2); [by eapply viewed_trans|exact (popped_app _ _ [_] _ [_] _ Hp1 Hp2)|]. by eapply G_struct_set.
  - assert ((op =? OpcodeGCStructSet) = false) as -> by (apply Z.eqb_neq; done).
    eapply wp_use; [apply (checkPackedAccess_sound 2 3 4); [by left|tauto]|]. intros [] Ha. cbv beta in Ha. cbn [obind].
    apply wp_bind. apply (wp_popRef e panics s seg deep); [done..|]. intros s1 seg1 Hv1 Hp1. cbn [wp]. split; [cbn; lia|].
    eapply (step_push e s s1 seg seg1); [done|exact Hp1|intros H; by apply unpacked_known in H|]. by eapply G_struct_get.
Qed.

(** ** Arrays *)

Lemma wp_pop_times n t : ∀ s seg deep (Q : valueTypeStack → Prop),
  view s seg deep → wf seg → t ≠ bot →
  (∀ s' seg', viewed s s' seg' deep → popped e seg (replicate n t) seg' → Q s') → wp panics (pop_times (types e) n t s) Q.
Proof.
  induction n as [|n IH]; intros s seg deep Q Hv Hw Ht HQ; cbn [pop_times replicate].
  - apply (HQ s seg); [by split|by apply popped_nil].
  - apply wp_bind. apply (wp_popAndVerify e panics s seg deep); [done..|]. intros s1 seg1 Hv1 Hp1.
    apply (IH s1 seg1 deep); [apply Hv1|by eapply popped_wf|done|]. intros s2 seg2 Hv2 Hp2.
    apply (HQ s2 seg2); [by eapply viewed_trans|]. exact (popped_app _ _ [t] _ _ _ Hp1 Hp2).
Qed.

Lemma gc_array_new_sound op pc s :
  0 ≤ pc ≤ zlen body → op = 6 ∨ op = 7 ∨ op = 8 → spec e panics s pc (gc op pc) (gc_array_new e body op pc s).
Proof using Henv Hbytes Hlen.
  intros Hpc Hop seg deep Hv Hw. unfold gc_array_new. u32 i p Hi.
  apply (wp_use _ _ _ (λ r, p ≤ r.2 ∧ (op ≠ 8 → r.2 = p) ∧ (op = 8 → u32_at body p r.1 r.2))).
  { destruct (Z.eqb_spec op OpcodeGCArrayNewFixed) as [->|N]; [|cbn; split_and!; [lia|done|done]].
    apply (wp_imm' body panics Hbytes Hlen _ _ _ _ LoadUint32_in); [lia|]. intros n q Hn _ Hq. cbn. split_and!; [lia|done|done]. }
  intros [n q] (Hq & Hq0 & Hq8). cbn in Hq, Hq0, Hq8. cbv beta iota. kind_in t Ht. destruct Ht as [Ht Hk].
  apply wp_bind. apply (element_sound i t pc p); [done..|]. intros f Hf Hfk. cbv zeta.
  apply (wp_use _ _ _ (λ s1, ∃ seg1 ins, viewed s s1 seg1 deep ∧ popped e seg ins seg1 ∧ gc op pc q ins [ValueTypeConcreteRef i false])).
  - destruct Hop as [->|[->| ->]].
    + rewrite Hq0 by done. change (6 =? OpcodeGCArrayNewDefault) with false. change (6 =? OpcodeGCArrayNew) with true. cbv iota.
      apply (wp_pops e panics _ s seg deep); [done..|known|]. intros s1 seg1 Hv1 Hp1. exists seg1. eexists. split_and!; [done|exact Hp1|by apply G_array_new].
    + rewrite Hq0 by done. change (7 =? OpcodeGCArrayNewDefault) with true. cbv iota. destruct (isDefaultable _) eqn:Ed; [|exact I]. cbn [negb].
      apply (wp_popAndVerify e panics s seg deep); [done..|]. intros s1 seg1 Hv1 Hp1. exists seg1. eexists. split_and!; [done|exact Hp1|by eapply G_array_new_default].
    + change (8 =? OpcodeGCArrayNewDefault) with false. change (8 =? OpcodeGCArrayNew) with false. cbv iota.
      apply (wp_pop_times _ _ s seg deep); [done|done|known|]. intros s1 seg1 Hv1 Hp1. exists seg1. eexists. split_and!; [done|exact Hp1|].
      eapply G_array_new_fixed; [done..|by apply Hq8].
  - intros s1 (seg1 & ins & Hv1 & Hp1 & HR). cbn [wp]. split; [cbn; lia|]. eapply (step_push e s s1 seg seg1); [done|exact Hp1| |exact HR]. intros H. by apply ConcreteRef_known in H.
Qed.

Lemma gc_segment_sound fromData typeIdx j elem p q :
  u32_at body p j q → 0 ≤ j →
  wp panics (gc_segment e fromData typeIdx j elem)
    (λ _, if fromData then IsRef elem = false ∧ ∃ n, DataCountSection e = Some n ∧ j < n
          else ∃ t, elem_at e body p t q ∧ sub e t elem).
Proof.
  intros Hj Hj0. unfold gc_segment. destruct fromData.
  - destruct (IsRef elem) eqn:Er; [exact I|]. destruct (DataCountSection e) as [n|] eqn:Ed; [|exact I].
    destruct (Z.leb_spec n j); [exact I|]. cbn. split; [done|]. by exists n.
  - destruct (OutOfRange j _) eqn:Eo; [exact I|]. unfold OutOfRange in Eo. apply wp_bind, wp_nth; [lia|]. intros t Ht.
    destruct (isRefSubtypeOf _ _ _) eqn:Es; [|exact I]. cbn. exists t. split; [by exists j|by right; right].
Qed.

Lemma gc_array_segment_sound op pc s :
  0 ≤ pc ≤ zlen body → op = 9 ∨ op = 10 ∨ op = 18 ∨ op = 19 → spec e panics s pc (gc op pc) (gc_array_segment e body op pc s).
Proof using Henv Hbytes Hlen.
  intros Hpc Hop seg deep Hv Hw. unfold gc_array_segment. u32 i p Hi. u32 j q Hj. kind_in t Ht. destruct Ht as [Ht Hk].
  apply wp_bind. apply (element_sound i t pc p); [done..|]. intros f Hf Hfk.
  eapply wp_use; [eapply gc_segment_sound; [exact Hj|lia]|]. intros [] Hseg. cbv beta in Hseg.
  assert ((op = 18 ∨ op = 19 → f_mutable f = true) → gc op pc q (if one_of op [9; 10] then [I32; I32] else [I32; I32; I32; ValueTypeConcreteRef i true])
    (if one_of op [9; 10] then [ValueTypeConcreteRef i false] else [])) as HR.
  { intros Hm. destruct Hop as [->|[->|[->| ->]]]; cbn in Hseg |- *; first [destruct Hseg as (Hr & n & Hd & Hjn)|destruct Hseg as (te & Hte & Hs)].
    - apply (G_array_data e body 9 pc i f j n p q); [by left|done..].
    - apply (G_array_elem e body 10 pc i f te p q); [by left|done..].
    - apply (G_array_data e body 18 pc i f j n p q); [by right|done|done|done|done|done|auto].
    - apply (G_array_elem e body 19 pc i f te p q); [by right|done|done|done|auto]. }
  apply wp_bind. apply (wp_pops e panics _ s seg deep); [done..|known|]. intros s1 seg1 Hv1 Hp1.
  assert (one_of op [OpcodeGCArrayInitData; OpcodeGCArrayInitElem] = negb (one_of op [9; 10])) as -> by (by destruct Hop as [->|[->|[->| ->]]]).
  destruct (one_of op [9; 10]) eqn:E; cbn [negb]; cbv iota.
  - cbn [wp]. split; [cbn; lia|]. eapply (step_push e s s1 seg seg1); [done|exact Hp1|intros H; by apply ConcreteRef_known in H|].
    apply HR. destruct Hop as [->|[->|[->| ->]]]; [by intros [?|?]..|done|done].
  - destruct (f_mutable f) eqn:Em; [|exact I]. cbn [negb].
    apply wp_bind. apply (wp_popAndVerify e panics s1 seg1 deep); [apply Hv1|by eapply popped_wf|done|]. intros s2 seg2 Hv2 Hp2.
    apply wp_bind. apply (wp_popRef e panics s2 seg2 deep); [apply Hv2|by eapply popped_wf|]. intros s3 seg3 Hv3 Hp3. cbn [wp]. split; [cbn; lia|].
    eapply (step_pop e s s3 seg seg3); [eapply viewed_trans; [exact Hv1|by eapply viewed_trans]| |by apply HR].
    apply (popped_app _ _ [I32; I32] seg1 [I32; _] seg3 Hp1). exact (popped_app _ _ [_] _ [_] _ Hp2 Hp3).
Qed.

Lemma gc_array_access_sound op pc s :
  0 ≤ pc ≤ zlen body → op = 11 ∨ op = 12 ∨ op = 13 ∨ op = 14 → spec e panics s pc (gc op pc) (gc_array_access e body op pc s).
Proof using Henv Hbytes Hlen.
  intros Hpc Hop seg deep Hv Hw. unfold gc_array_access. u32 i p Hi. kind_in t Ht. destruct Ht as [Ht Hk].
  apply wp_bind. apply (element_sound i t pc p); [done..|]. intros f Hf Hfk.
  apply (wp_use _ _ _ (λ _, op ≠ 14 → access 11 12 13 op (f_type f))).
  { destruct (decide (op = 14)) as [->|]; [by intros []|]. eapply wp_mono; [apply (checkPackedAccess_sound 11 12 13); [by right|tauto]|done]. }
  intros [] Ha. cbv beta in Ha.
  apply (wp_use _ _ _ (λ s1, ∃ seg1 ins, viewed s s1 seg1 deep ∧ popped e seg ins seg1 ∧
    ((op = 14 ∧ f_mutable f = true ∧ ins = [unpackedType (f_type f)]) ∨ (op ≠ 14 ∧ ins = [])))).
  { destruct (Z.eqb_spec op OpcodeGCArraySet) as [->|N].
    - destruct (f_mutable f) eqn:Em; [|exact I]. cbn [negb]. apply (wp_popAndVerify e panics s seg deep); [done..|known|].
      intros s1 seg1 Hv1 Hp1. exists seg1. eexists. split_and!; [done|exact Hp1|by left].
    - exists seg, []. split_and!; [by split|by apply popped_nil|by right]. }
  intros s1 (seg1 & ins & Hv1 & Hp1 & Hcase).
  apply wp_bind. apply (wp_popAndVerify e panics s1 seg1 deep); [apply Hv1|by eapply popped_wf|done|]. intros s2 seg2 Hv2 Hp2.
  apply wp_bind. apply (wp_popRef e panics s2 seg2 deep); [apply Hv2|by eapply popped_wf|]. intros s3 seg3 Hv3 Hp3. cbn [wp]. split; [cbn; lia|].
  assert (viewed s s3 seg3 deep) as Hv' by (eapply viewed_trans; [exact Hv1|by eapply viewed_trans]).
  assert (popped e seg (ins ++ [I32; ValueTypeConcreteRef i true]) seg3) as Hp'.
  { apply (popped_app _ _ _ _ _ _ Hp1). exact (popped_app _ _ [_] _ [_] _ Hp2 Hp3). }
  destruct Hcase as [(-> & Hm & ->)|(Hn & ->)].
  - change (14 =? OpcodeGCArraySet) with true. cbv iota. eapply (step_pop e s s3 seg seg3); [done|exact Hp'|]. by eapply G_array_set.
  - assert ((op =? OpcodeGCArraySet) = false) as -> by (by apply Z.eqb_neq).
    eapply (step_push e s s3 seg seg3); [done|exact Hp'|intros H; by apply unpacked_known in H|]. apply G_array_get; [done|auto].
Qed.

Lemma gc_array_fill_sound pc s : 0 ≤ pc ≤ zlen body → spec e panics s pc (gc 16 pc) (gc_array_fill e body pc s).
Proof using Henv Hbytes Hlen.
  intros Hpc seg deep Hv Hw. unfold gc_array_fill. u32 i p Hi. kind_in t Ht. destruct Ht as [Ht Hk].
  apply wp_bind. apply (element_sound i t pc p); [done..|]. intros f Hf Hfk. destruct (f_mutable f) eqn:Em; [|exact I]. cbn [negb].
  apply wp_bind. apply (wp_pops e panics _ s seg deep); [done..|known|]. intros s1 seg1 Hv1 Hp1.
  apply wp_bind. apply (wp_popRef e panics s1 seg1 deep); [apply Hv1|by eapply popped_wf|]. intros s2 seg2 Hv2 Hp2. cbn [wp]. split; [cbn; lia|].
  eapply (step_pop e s s2 seg seg2); [by eapply viewed_trans|exact (popped_app _ _ [_; _; _] _ [_] _ Hp1 Hp2)|]. by apply G_array_fill.
Qed.

Lemma gc_array_copy_sound pc s : 0 ≤ pc ≤ zlen body → spec e panics s pc (gc 17 pc) (gc_array_copy e body pc s).
Proof using Henv Hbytes Hlen.
  intros Hpc seg deep Hv Hw. unfold gc_array_copy. u32 i p Hi. u32 j q Hj. kind_in dst Hd. destruct Hd as [Hd Hkd]. kind_in src Hs. destruct Hs as [Hs Hks].
  apply wp_bind. apply (element_sound i dst pc p); [done..|]. intros f Hf Hfk. destruct (f_mutable f) eqn:Em; [|exact I]. cbn [negb].
  apply wp_bind. apply (element_sound j src p q); [done..|]. intros g Hg Hgk. destruct (valueTypeMatches _ _ _) eqn:Es; [|exact I]. cbn [negb].
  apply wp_bind. apply (wp_pops e panics _ s seg deep); [done..|known|]. intros s1 seg1 Hv1 Hp1.
  apply wp_bind. apply (wp_popRef e panics s1 seg1 deep); [apply Hv1|by eapply popped_wf|]. intros s2 seg2 Hv2 Hp2.
  apply wp_bind. apply (wp_popAndVerify e panics s2 seg2 deep); [apply Hv2|by eapply popped_wf|done|]. intros s3 seg3 Hv3 Hp3.
  apply wp_bind. apply (wp_popRef e panics s3 seg3 deep); [apply Hv3|by eapply popped_wf|]. intros s4 seg4 Hv4 Hp4. cbn [wp]. split; [cbn; lia|].
  eapply (step_pop e s s4 seg seg4 _ [I32; I32; ValueTypeConcreteRef j true; I32; ValueTypeConcreteRef i true]).
  - eapply viewed_trans; [exact Hv1|]. eapply viewed_trans; [exact Hv2|]. by eapply viewed_trans.
  - apply (popped_app _ _ [_; _] _ [_; _; _] _ Hp1). apply (popped_app _ _ [_] _ [_; _] _ Hp2). exact (popped_app _ _ [_] _ [_] _ Hp3 Hp4).
  - eapply G_array_copy; [done..|]. by right; right.
Qed.

(** ** References *)

Lemma concrete_flag i b : negb (Z.land (ValueTypeConcreteRef i b) flagConcreteRef =? 0) = true.
Proof.
  apply negb_true_iff, Z.eqb_neq. intros H. apply (f_equal (λ z, Z.testbit z 9)) in H.
  rewrite Z.land_spec in H. change (Z.testbit flagConcreteRef 9) with true in H. rewrite andb_true_r, Z.bits_0 in H.
  unfold ValueTypeConcreteRef in H. destruct b; cbn [negb] in H; rewrite !Z.lor_spec in H; change (Z.testbit flagConcreteRef 9) with true in H;
    rewrite ?orb_true_r in H; cbn [orb] in H; done.
Qed.

Lemma AsNonNullable_ref v : IsRef v = true → IsRef (AsNonNullable v) = true.
Proof.
  unfold IsRef, AsNonNullable. cbv zeta. rewrite !orb_true_iff. intros [H|H].
  - left. assert (u8 (Z.lor v flagNonNullable) = u8 v) as ->; [|done].
    unfold wrap. rewrite <- !Z.land_ones by lia. apply Z.bits_inj'. intros k Hk. rewrite !Z.land_spec, Z.lor_spec, Z.testbit_ones by lia.
    destruct (Z.ltb_spec k 8); [|by rewrite !andb_false_r]. unfold flagNonNullable. rewrite Z.shiftl_spec by lia.
    rewrite (Z.testbit_neg_r 1) by lia. by rewrite orb_false_r.
  - right. apply negb_true_iff in H. apply negb_true_iff. apply Z.eqb_neq in H. apply Z.eqb_neq. intros H0. apply H.
    apply Z.bits_inj'. intros k Hk. apply (f_equal (λ z, Z.testbit z k)) in H0. rewrite Z.land_spec, Z.lor_spec, Z.bits_0 in H0.
    rewrite Z.land_spec, Z.bits_0. by destruct (Z.testbit v k), (Z.testbit flagConcreteRef k).
Qed.

Lemma abstract_ref ht vt : AbstractHeapTypeValueType ht = Some vt → IsRef vt = true ∧ vt ≠ bot.
Proof.
  unfold AbstractHeapTypeValueType. destruct (bool_decide _) eqn:E; [|done]. apply bool_decide_eq_true in E. intros [= <-].
  assert (forallb (λ h, IsRef (u8 (h + 0x80)) && negb (u8 (h + 0x80) =? bot))
    [HeapTypeFunc; HeapTypeExtern; HeapTypeExn; -12; -13; -14; -15; -18; -19; -20; -21; -22] = true) as H by (vm_compute; reflexivity).
  rewrite forallb_forall in H. specialize (H ht (proj1 (list_elem_of_In _ _) E)). apply andb_true_iff in H as [H1 H2].
  split; [done|]. by apply negb_true_iff, Z.eqb_neq in H2.
Qed.

Lemma heap_type_sound pc nullable :
  0 ≤ pc ≤ zlen body →
  wp panics (decodeHeapTypeImmediate (types e) body pc nullable)
    (λ r, heap_type_at e body pc nullable r.1 r.2 ∧ IsRef r.1 = true ∧ r.1 ≠ bot ∧ pc < r.2 ≤ zlen body).
Proof using Hbytes Hlen.
  intros Hpc. unfold heap_type_at. eapply wp_mono; [apply (wp_eqn panics _ (λ r, IsRef r.1 = true ∧ r.1 ≠ bot ∧ pc < r.2 ≤ zlen body))|by intros [t p] []].
  unfold decodeHeapTypeImmediate. apply wp_bind. apply (wp_imm' body panics Hbytes Hlen _ _ _ _ LoadInt33_in); [lia|]. intros ht p _ Hht Hp. cbv beta iota.
  apply (wp_use _ _ _ (λ vt, IsRef vt = true ∧ vt ≠ bot)).
  - destruct (ht <? 0).
    + destruct (AbstractHeapTypeValueType ht) as [vt|] eqn:Ea; [|exact I]. by apply abstract_ref in Ea.
    + destruct (_ <=? ht); [exact I|]. split; [|apply ConcreteRef_known]. unfold IsRef. cbv zeta. by rewrite concrete_flag, orb_true_r.
  - intros vt [Hr Hk]. destruct nullable; cbn; split_and!; first [done|lia|by apply AsNonNullable_ref|apply AsNonNullable_known].
Qed.

Lemma gc_convert_sound op pc s : op = 26 ∨ op = 27 → spec e panics s (pc - 1) (λ p, gc op pc p) (gc_convert e op pc s).
Proof.
  intros Hop seg deep Hv Hw. unfold gc_convert.
  assert (∃ from to, (if op =? OpcodeGCExternConvertAny then (ValueTypeAnyref, ValueTypeExternref) else (ValueTypeExternref, ValueTypeAnyref)) = (from, to) ∧
    from ≠ bot ∧ to ≠ bot ∧ IsNullable from = true ∧ ∀ t, sub e t from → t ≠ bot → gc op pc pc [t] [if IsNullable t then to else AsNonNullable to])
    as (from & to & -> & Hf & Ht & Hn & HR).
  { destruct Hop as [->| ->]; do 2 eexists; (split; [reflexivity|]); split_and!; try done; intros t Hs Hb; [by apply G_any_convert|by apply G_extern_convert]. }
  apply wp_bind. apply (wp_pop panics s seg deep); [done..|]. intros v s1 seg1 Hv1 Hw1 Hb Hp Hc. cbv beta iota. fold bot.
  destruct (Z.eqb_spec v bot) as [->|Hvb].
  - cbn [wp]. split; [cbn; lia|]. apply (step_push e s s1 seg seg1 deep [from]); [done| |done|].
    + apply (popped_one e seg bot); [done..|by right; left].
    + cbn. specialize (HR from ltac:(by left) Hf). by rewrite Hn in HR.
  - destruct (isRefSubtypeOf _ _ _) eqn:Es; [|exact I]. cbn [negb wp]. split; [cbn; lia|].
    apply (step_push e s s1 seg seg1 deep [v]); [done|apply (popped_one e seg v); [done..|by left]| |].
    + intros H. destruct (IsNullable v); [done|]. by apply AsNonNullable_known in H.
    + cbn. specialize (HR v ltac:(by right; right) Hvb). by destruct (IsNullable v).
Qed.

Lemma gc_cast_sound op pc s :
  0 ≤ pc ≤ zlen body → op = 20 ∨ op = 21 ∨ op = 22 ∨ op = 23 → spec e panics s pc (gc op pc) (gc_cast e body op pc s).
Proof using Hbytes Hlen.
  intros Hpc Hop seg deep Hv Hw. unfold gc_cast. cbv zeta. eapply wp_use; [by apply heap_type_sound|]. intros [t' p] (Hht & Hr' & Hk' & Hp). cbn in Hht, Hr', Hk', Hp.
  cbv beta iota. apply wp_bind. apply (wp_pop panics s seg deep); [done..|]. intros v s1 seg1 Hv1 Hw1 Hb Hpo Hc. cbv beta iota. fold bot.
  apply (wp_use _ _ _ (λ _, ∃ t, sub e v t ∧ IsRef t = true ∧ hierarchyTop (types e) t = hierarchyTop (types e) t')).
  { destruct (Z.eqb_spec v bot) as [->|N]; [cbn; exists t'; split_and!; [by right; left|done..]|].
    destruct (IsRef v) eqn:Er; [|exact I]. cbn [negb]. destruct (Z.eqb_spec (hierarchyTop (types e) v) (hierarchyTop (types e) t')); [|exact I].
    exists v. split_and!; [by left|done..]. }
  intros _ (t & Hs & Hr & Hh). cbn [wp]. split; [cbn; lia|].
  apply (step_push e s s1 seg seg1 deep [t]); [done|by apply (popped_one e seg v)| |].
  - intros H. destruct (one_of op _); done.
  - destruct Hop as [->|[->|[->| ->]]].
    + by apply (G_ref_test e body 20 pc t t' p); [left|..].
    + by apply (G_ref_test e body 21 pc t t' p); [right|..].
    + by apply (G_ref_cast e body 22 pc t t' p); [left|..].
    + by apply (G_ref_cast e body 23 pc t t' p); [right|..].
Qed.
(** ** All of them *)

Lemma spec_weaken pc0 s pc (R R' : Z → list Z → list Z → Prop) m :
  spec e panics s pc R m → pc0 ≤ pc → (∀ p i o, R p i o → R' p i o) → spec e panics s pc0 R' m.
Proof.
  intros H Hpc HR seg deep Hv Hw. eapply wp_mono; [exact (H seg deep Hv Hw)|]. intros r (Hp & seg' & Hv' & Hs). split; [lia|].
  exists seg'. split; [done|]. by eapply step_mono, HR.
Qed.

(** Instructions of one operand and one result, and no immediate. *)
Lemma spec_popRef t t' pc p s (R : Z → list Z → list Z → Prop) :
  t' ≠ bot → pc < p → R p [t] [t'] → spec e panics s pc R (let* s := popRef (types e) t s in Ok (push t' s, p)).
Proof.
  intros Ht Hp HR seg deep Hv Hw. apply wp_bind. apply (wp_popRef e panics s seg deep); [done..|]. intros s1 seg1 Hv1 Hp1. cbn [wp]. split; [done|].
  by apply (step_push e s s1 seg seg1 deep [t]).
Qed.

(** [gc_case H] takes a case of the switch: the opcode is one of its labels. *)
Ltac gc_case H := destruct (one_of _ _) eqn:H; [apply one_of_In in H; rewrite !elem_of_cons, elem_of_nil in H|clear H].

Lemma validateGCInstruction_sound op pc s :
  0 ≤ pc ≤ zlen body → spec e panics s (pc - 1) (gc op pc) (validateGCInstruction e body op pc s).
Proof using Henv Hbytes Hlen.
  intros Hpc. unfold validateGCInstruction.
  gc_case H1; [eapply spec_weaken; [apply gc_struct_new_sound; [done|tauto]|lia|done]|].
  gc_case H2; [eapply spec_weaken; [apply gc_struct_access_sound; [done|tauto]|lia|done]|].
  gc_case H3; [eapply spec_weaken; [apply gc_array_new_sound; [done|tauto]|lia|done]|].
  gc_case H4; [eapply spec_weaken; [apply gc_array_segment_sound; [done|tauto]|lia|done]|].
  gc_case H5; [eapply spec_weaken; [apply gc_array_access_sound; [done|tauto]|lia|done]|].
  destruct (Z.eqb_spec op OpcodeGCArrayLen) as [->|_]; [apply spec_popRef; [done|lia|by apply G_array_len]|].
  destruct (Z.eqb_spec op OpcodeGCArrayFill) as [->|_]; [eapply spec_weaken; [by apply gc_array_fill_sound|lia|done]|].
  destruct (Z.eqb_spec op OpcodeGCArrayCopy) as [->|_]; [eapply spec_weaken; [by apply gc_array_copy_sound|lia|done]|].
  destruct (Z.eqb_spec op OpcodeGCRefI31) as [->|_].
  { intros seg deep Hv Hw. apply wp_bind. apply (wp_popAndVerify e panics s seg deep); [done..|]. intros s1 seg1 Hv1 Hp1. cbn [wp]. split; [cbn; lia|].
    apply (step_push e s s1 seg seg1 deep [I32]); [done..|by apply G_ref_i31]. }
  gc_case H6; [apply spec_popRef; [done|lia|apply G_i31_get; tauto]|].
  gc_case H7; [apply gc_convert_sound; tauto|]. intros ????. exact I.
Qed.

Lemma plain_gc op pc p i o : byte body pc OpcodeGCPrefix → byte body (pc + 1) op → gc op (pc + 2) p i o → plain_at true e body pc p i o.
Proof. intros. by eapply P_gc. Qed.

Lemma gc_cast_plain op pc s :
  byte body pc OpcodeGCPrefix → byte body (pc + 1) op → one_of op [OpcodeGCRefTest; OpcodeGCRefTestNull; OpcodeGCRefCast; OpcodeGCRefCastNull] = true →
  spec e panics s pc (plain_at true e body pc) (gc_cast e body op (pc + 2) s).
Proof using Hbytes Hlen.
  intros H0 H1 Ho. pose proof (byte_bound _ _ _ H1). apply one_of_In in Ho. rewrite !elem_of_cons, elem_of_nil in Ho.
  eapply spec_weaken; [apply gc_cast_sound; [lia|tauto]|lia|]. intros p i o. by apply (plain_gc op).
Qed.

Lemma validateGCInstruction_plain op pc s :
  byte body pc OpcodeGCPrefix → byte body (pc + 1) op →
  spec e panics s pc (plain_at true e body pc) (validateGCInstruction e body op (pc + 2) s).
Proof using Henv Hbytes Hlen.
  intros H0 H1. pose proof (byte_bound _ _ _ H1). eapply spec_weaken; [apply validateGCInstruction_sound; lia|lia|].
  intros p i o. by apply (plain_gc op).
Qed.
End instructions.
