(* ===== verification/WasmSoundBranch.v ===== *)
(** Soundness of the validation of the instructions that use labels and locals: branches,
    returns, exceptions, and the accesses to locals and globals. *)
From Stdlib Require Import ZArith Lia.
From stdpp Require Import base list numbers option tactics gmap sets.
From S2P Require Import Prelude Leb128 GcHeap GcCollect GcOps GcTypes GcTypeDecode.
From S2P Require Import WasmOpcodes WasmValidStack WasmValidInstr WasmValidSimd WasmValidGc WasmValidate WasmTyping WasmTables WasmSoundStack WasmSoundInstr WasmSoundSimd WasmSoundGc.
Local Open Scope Z_scope.
Local Open Scope go_scope.

(** A block whose types are known. *)
Definition known_block (b : controlBlock) : Prop := (bot ∉ Params (blockType b)) ∧ (bot ∉ Results (blockType b)).

(** The labels of the open blocks. *)
Definition labels (l : list controlBlock) : list (list Z) := label_types <$> l.

Lemma split_last_some l r t : split_last l = Some (r, t) → l = r ++ [t].
Proof.
  unfold split_last. destruct (rev l) as [|x l'] eqn:E; [done|]. intros [= <- <-]. by rewrite <- (rev_involutive l), E.
Qed.

Section branches.
Context (e : env) (body : list Z) (panics : Prop).
Context (Henv : valid_env e) (Hbytes : Forall is_byte body) (Hlen : zlen body < 2 ^ 63) (Hend : list.last body = Some OpcodeEnd).
(** A case that leaves the control blocks and the initialised locals alone. *)
Definition branch_spec (s : stacks) (pc : Z) (m : vres (stacks * Z)) : Prop :=
  ∀ seg deep, Forall known_block (cs s) → view (vs s) seg deep → wf seg →
    wp panics m (λ r, pc < r.2 ∧ cs r.1 = cs s ∧ initLocals r.1 = initLocals s ∧
      ∃ seg', viewed (vs s) (vs r.1) seg' deep ∧ step_ok e (basic e body (labels (cs s)) pc r.2) seg seg').

Lemma spec_on_values s pc (R : Z → list Z → list Z → Prop) m :
  spec e panics (vs s) pc R m → (∀ p i o, R p i o → basic e body (labels (cs s)) pc p i o) → branch_spec s pc (on_values s m).
Proof.
  intros H HR seg deep _ Hv Hw. unfold on_values. eapply wp_use; [exact (H seg deep Hv Hw)|]. intros [v p] (Hp & seg' & Hv' & Hs). cbn. split_and!; [done..|].
  exists seg'. split; [done|]. by eapply step_mono, HR.
Qed.

Lemma spec_plain s pc m : spec e panics (vs s) pc (plain_at true e body pc) m → branch_spec s pc (on_values s m).
Proof. intros H. eapply spec_on_values; [exact H|]. intros p i o Hp. by left. Qed.

(** The end of a branch: after operands [ins] were taken, [outs] lie on the stack, or what
    follows is unreachable. *)
Lemma branch_to s seg deep pc p v seg1 ins outs :
  pc < p → viewed (vs s) v seg1 deep → popped e seg ins seg1 → pushable (rev outs) seg1 →
  branch_at true e body (labels (cs s)) pc p ins (rev outs) →
  wp panics (Ok (set_vs s (pushes outs v), p)) (λ r, pc < r.2 ∧ cs r.1 = cs s ∧ initLocals r.1 = initLocals s ∧
      ∃ seg', viewed (vs s) (vs r.1) seg' deep ∧ step_ok e (basic e body (labels (cs s)) pc r.2) seg seg').
Proof.
  intros Hp Hv Hpo Hk HR. cbn. split_and!; [done..|]. exists (rev outs ++ seg1). split.
  - eapply viewed_trans; [exact Hv|]. apply view_pushes, Hv.
  - apply (step_intro _ _ _ ins); [done..|by right].
Qed.

Lemma branch_away s seg deep pc p v seg1 ins :
  pc < p → viewed (vs s) v seg1 deep → popped e seg ins seg1 →
  (∀ a b, branch_at true e body (labels (cs s)) pc p (ins ++ a) b) →
  wp panics (Ok (set_vs s (unreachable v), p)) (λ r, pc < r.2 ∧ cs r.1 = cs s ∧ initLocals r.1 = initLocals s ∧
      ∃ seg', viewed (vs s) (vs r.1) seg' deep ∧ step_ok e (basic e body (labels (cs s)) pc r.2) seg seg').
Proof.
  intros Hp Hv Hpo HR. cbn. split_and!; [done..|]. exists [bot]. split.
  - eapply viewed_trans; [exact Hv|]. by eapply view_unreachable, Hv.
  - apply (step_unreachable _ _ _ ins seg1); [done|]. intros a b. right. apply HR.
Qed.

Lemma label_at_sound s l :
  0 ≤ l → Forall known_block (cs s) → wp panics (label_at s l) (λ ts, label_index (labels (cs s)) l ts ∧ bot ∉ ts).
Proof.
  intros Hl Hk. unfold label_at. destruct (OutOfRange l _) eqn:Eo; [exact I|]. unfold OutOfRange in Eo. apply wp_bind, wp_nth; [lia|].
  intros b Hb. cbn. split; [split; [done|]; unfold labels; rewrite list_lookup_fmap; by destruct Hb as [_ ->]|].
  destruct (at_index_Forall _ _ _ _ Hk Hb). unfold label_types. by destruct (_ =? _).
Qed.

Ltac u32 v p H :=
  apply wp_bind; apply (wp_imm' body panics Hbytes Hlen _ _ _ _ LoadUint32_in); [lia|];
  let Hv := fresh "Hv" v in let Hp := fresh "Hp" p in intros v p H Hv Hp; cbv beta iota.
Ltac u32r v p H :=
  apply wp_bind; apply (wp_imm' body panics Hbytes Hlen _ _ _ _ DecodeUint32_in); [lia|];
  let Hv := fresh "Hv" v in let Hp := fresh "Hp" p in intros v p H Hv Hp; cbv beta iota.
Ltac label ts Hi Hk := eapply wp_use; [apply label_at_sound; [lia|done]|]; intros ts [Hi Hk]; cbv beta.

(** [take H v s1 seg1] takes a list of operands off. *)
Ltac take_values v seg1 Hv1 Hp1 :=
  apply wp_bind; eapply (wp_require_values e panics); [eassumption|eassumption|eassumption|]; intros v seg1 Hv1 Hp1 _.

(** ** Branches *)

Lemma validate_br_sound pc s : byte body pc OpcodeBr → branch_spec s pc (validate_br e body (pc + 1) s).
Proof using Hbytes Hlen.
  intros Hop seg deep Hkb Hv Hw. pose proof (byte_bound _ _ _ Hop). unfold validate_br. u32 l p Hl. label ts Hi Hk.
  take_values v seg1 Hv1 Hp1. apply (branch_away s seg deep pc p v seg1 (rev ts)); [lia|done..|]. intros a b. by eapply B_br.
Qed.

Lemma validate_br_if_sound pc s : byte body pc OpcodeBrIf → branch_spec s pc (validate_br_if e body (pc + 1) s).
Proof using Hbytes Hlen.
  intros Hop seg deep Hkb Hv Hw. pose proof (byte_bound _ _ _ Hop). unfold validate_br_if. u32 l p Hl. label ts Hi Hk.
  apply wp_bind. apply (wp_popAndVerify e panics (vs s) seg deep); [done..|]. intros v1 seg1 Hv1 Hp1.
  pose proof (proj2 Hv1). pose proof (popped_wf _ _ _ _ Hp1). take_values v2 seg2 Hv2 Hp2.
  apply (branch_to s seg deep pc p v2 seg2 (I32 :: rev ts)); [lia|by eapply viewed_trans|exact (popped_app _ _ [_] _ _ _ Hp1 Hp2)|left; by apply not_in_rev|].
  by eapply B_br_if.
Qed.

Lemma validate_return_sound pc s : byte body pc OpcodeReturn → branch_spec s pc (on_values s (validate_return e (pc + 1) (vs s))).
Proof using Henv.
  intros Hop seg deep Hkb Hv Hw. pose proof (ve_results _ Henv). unfold validate_return, on_values. apply wp_bind. take_values v seg1 Hv1 Hp1.
  apply (branch_away s seg deep pc (pc + 1) v seg1 (rev (Results (functionType e)))); [lia|done..|]. intros a b. by apply B_return.
Qed.

Lemma unreachable_sound pc s : byte body pc OpcodeUnreachable → branch_spec s pc (Ok (set_vs s (unreachable (vs s)), pc + 1)).
Proof.
  intros Hop seg deep Hkb Hv Hw. apply (branch_away s seg deep pc (pc + 1) (vs s) seg []); [lia|by split|by apply popped_nil|].
  intros a b. by apply B_unreachable.
Qed.

(** ** [br_table] *)

Lemma read_labels_sound fuel : ∀ n pc,
  0 ≤ pc ≤ zlen body → 0 ≤ n → zlen body - pc < Z.of_nat fuel →
  wp panics (read_labels fuel body n pc) (λ r, labels_at body pc r.1 r.2 ∧ Forall (λ l, 0 ≤ l) r.1 ∧ zlen r.1 = n ∧ pc ≤ r.2 ≤ zlen body).
Proof using Hbytes Hlen.
  induction fuel as [|fuel IH]; intros n pc Hpc Hn Hf; [lia|]. cbn [read_labels]. destruct (Z.leb_spec n 0).
  { cbn. split_and!; [apply La_nil|constructor|unfold zlen; cbn; lia|lia|lia]. }
  u32r l p Hl. eapply wp_use; [apply (IH (n - 1) p); lia|]. intros [ls q] (Hls & Hpos & Hlen' & Hq). cbn in *.
  split_and!; [by eapply La_cons|constructor; [lia|done]|rewrite zlen_cons; lia|lia|lia].
Qed.

(** The operands of the default label are of its types, and where one is unknown the type
    is marked. *)
Definition marked_as (as_ d m : list Z) : Prop := Forall3 (λ a d m, sub e a d ∧ m = if a =? bot then bot else d) as_ d m.

Lemma pop_default_sound d : ∀ s seg deep (Q : list Z * valueTypeStack → Prop),
  view s seg deep → wf seg → bot ∉ d →
  (∀ as_ m s' seg', viewed s s' seg' deep → popped e seg as_ seg' → marked_as as_ d m → Q (m, s')) → wp panics (pop_default (types e) d s) Q.
Proof.
  induction d as [|t d IH]; intros s seg deep Q Hv Hw Hd HQ; cbn [pop_default].
  { apply (HQ [] [] s seg); [by split|by apply popped_nil|constructor]. }
  apply wp_bind. apply (wp_pop panics s seg deep); [done..|]. intros v s1 seg1 Hv1 Hw1 _ Hp1 Hc1. cbv beta iota. fold bot.
  destruct (negb _ && negb _) eqn:E; [exact I|]. apply checked_sub' in E. apply wp_bind. apply (IH s1 seg1 deep); [apply Hv1|done|set_solver|].
  intros as_ m s2 seg2 Hv2 Hp2 Hm. cbn. apply (HQ (v :: as_) _ s2 seg2); [by eapply viewed_trans| |by constructor].
  apply (popped_app e seg [v] seg1 as_ seg2); [|done]. apply (popped_one e seg v); [done..|by left].
Qed.

(** What fits the marked types of the default label fits the label. *)
Lemma label_matches_sound as_ d m t :
  marked_as as_ d m → bot ∉ d → label_matches (types e) m t = true → Forall3 (table_arg true e) as_ d t.
Proof.
  intros H. revert t. induction H as [|a x y as_ d m [Hs ->] H IH]; intros [|u t] Hd Hm; try done; [constructor|].
  cbn in Hm. apply andb_true_iff in Hm as [Hu Hm]. constructor; [|apply IH; [set_solver|done]].
  split; [done|]. destruct (Z.eqb_spec a bot); [by left|]. right. fold bot in Hu. destruct (Z.eqb_spec x bot); [set_solver|done].
Qed.

Lemma label_matches_length ty m : ∀ t, label_matches ty m t = true → length m = length t.
Proof. induction m as [|a m IH]; intros [|b t] H; try done. cbn in *. apply andb_true_iff in H as [_ H]. f_equal. auto. Qed.

Lemma label_matches_app ty m : ∀ t m' t', length m = length t →
  label_matches ty (m ++ m') (t ++ t') = label_matches ty m t && label_matches ty m' t'.
Proof. induction m as [|a m IH]; intros [|b t] m' t' Hl; try done. cbn. rewrite IH by (cbn in Hl; lia). by rewrite andb_assoc. Qed.

Lemma label_matches_rev ty m : ∀ t, label_matches ty m t = true → label_matches ty (rev m) (rev t) = true.
Proof.
  induction m as [|a m IH]; intros [|b t] H; try done. cbn in *. apply andb_true_iff in H as [H1 H2].
  rewrite label_matches_app by (rewrite !length_rev; by eapply label_matches_length). rewrite IH by done. cbn. by rewrite H1.
Qed.

Lemma check_labels_sound s as_ d m ls :
  Forall known_block (cs s) → Forall (λ l, 0 ≤ l) ls → marked_as as_ (rev d) (rev m) → bot ∉ d →
  wp panics (check_labels e s m ls) (λ _, Forall (λ l, ∃ t, label_index (labels (cs s)) l t ∧ Forall3 (table_arg true e) as_ (rev d) (rev t)) ls).
Proof.
  intros Hk Hpos Hm Hd. induction Hpos as [|l ls Hl _ IH]; cbn [check_labels]; [constructor|].
  label t Ht Hkt. destruct (label_matches _ _ _) eqn:E; [|exact I]. cbn [negb]. eapply wp_mono; [exact IH|]. intros [] HF. cbv beta in HF. constructor; [|done].
  exists t. split; [done|]. eapply label_matches_sound; [done|by apply not_in_rev|]. by apply label_matches_rev.
Qed.

Lemma marked_self d : bot ∉ d → marked_as d d d.
Proof.
  induction d as [|t d IH]; intros Hd; [constructor|]. constructor; [|apply IH; set_solver]. split; [by left|].
  destruct (Z.eqb_spec t bot); [set_solver|done].
Qed.

Lemma marked_sub as_ d m : marked_as as_ d m → subs e as_ d.
Proof. induction 1 as [|a x y ??? [Hs _]]; constructor; done. Qed.

Lemma default_operands_sound s v seg deep d (Q : list Z * valueTypeStack → Prop) :
  viewed (vs s) v seg deep → wf seg → bot ∉ d →
  (∀ as_ m v' seg', viewed v v' seg' deep → popped e seg as_ seg' → marked_as as_ (rev d) (rev m) → Q (m, v')) →
  wp panics (if IsEnabled (enabledFeatures e) CoreFeatureReferenceTypes
             then let* '(m, v) := pop_default (types e) (rev d) v in Ok (rev m, v)
             else let* v := popResults (types e) d false v in Ok (d, v)) Q.
Proof.
  intros Hv Hw Hd HQ. destruct (IsEnabled _ _).
  - apply wp_bind. apply (pop_default_sound (rev d) v seg deep); [apply Hv|done|by apply not_in_rev|]. intros as_ m v' seg' Hv' Hp Hm. cbn.
    apply (HQ as_ (rev m) v' seg'); [done..|]. by rewrite rev_involutive.
  - apply wp_bind. apply (wp_require_values e panics v seg deep); [apply Hv|done..|]. intros v' seg' Hv' Hp _. cbn.
    apply (HQ (rev d) d v' seg'); [done..|]. apply marked_self. by apply not_in_rev.
Qed.

Lemma validate_br_table_sound pc s : byte body pc OpcodeBrTable → branch_spec s pc (validate_br_table e body (pc + 1) s).
Proof using Henv Hbytes Hlen Hend.
  intros Hop seg deep Hkb Hv Hw. pose proof (byte_bound _ _ _ Hop). unfold validate_br_table. u32r n p Hn.
  eapply wp_use; [apply read_labels_sound; [lia|lia|unfold zlen in *; lia]|]. intros [ls q] (Hls & Hpos & Hzl & Hq). cbn in Hls, Hpos, Hzl, Hq. cbv beta iota.
  u32r ln p' Hln. label d Hd Hkd.
  apply wp_bind. apply (wp_popAndVerify e panics (vs s) seg deep); [done..|]. intros v1 seg1 Hv1 Hp1.
  apply wp_bind. apply (default_operands_sound s v1 seg1 deep d); [done|by eapply popped_wf|done|]. intros as_ m v2 seg2 Hv2 Hp2 Hm. cbv beta iota.
  eapply wp_use; [by apply (check_labels_sound s as_ d m)|]. intros [] HF.
  apply (branch_away s seg deep pc p' v2 seg2 (I32 :: as_)); [lia|by eapply viewed_trans|exact (popped_app _ _ [_] _ _ _ Hp1 Hp2)|].
  intros a b. eapply B_br_table; [exact Hop|exact Hn|exact Hzl|done..| |done]. by eapply marked_sub.
Qed.

(** ** Branches on references *)

(** The results of a branch, below the operand that decides it. *)
Lemma values_below s seg deep v1 seg1 ins ts (Q : valueTypeStack → Prop) :
  viewed (vs s) v1 seg1 deep → popped e seg ins seg1 → bot ∉ ts →
  (∀ v2 seg2, viewed (vs s) v2 seg2 deep → popped e seg (ins ++ rev ts) seg2 → (poly seg1 → poly seg2) → Q v2) →
  wp panics (popResults (types e) ts false v1) Q.
Proof.
  intros Hv Hp Hk HQ. apply (wp_require_values e panics v1 seg1 deep); [apply Hv|by eapply popped_wf|done|].
  intros v2 seg2 Hv2 Hp2 _. apply (HQ v2 seg2); [by eapply viewed_trans|by eapply popped_app|apply Hp2].
Qed.

Lemma validate_br_on_null_sound pc s : byte body pc OpcodeBrOnNull → branch_spec s pc (validate_br_on_null e body (pc + 1) s).
Proof using Hbytes Hlen.
  intros Hop seg deep Hkb Hv Hw. pose proof (byte_bound _ _ _ Hop). unfold validate_br_on_null. wp_step. u32 l p Hl. label ts Hi Hk.
  apply wp_bind. apply (pop_reference_sound e panics (vs s) seg deep); [done..|]. intros t v1 seg1 Hv1 Hw1 Hb Href Hp1. cbv beta iota.
  apply wp_bind. apply (values_below s seg deep v1 seg1 [t]); [done..|]. intros v2 seg2 Hv2 Hp2 Hpoly.
  assert (push (non_null t) (pushes ts v2) = pushes (ts ++ [non_null t]) v2) as -> by (unfold pushes; by rewrite foldl_app).
  apply (branch_to s seg deep pc p v2 seg2 ([t] ++ rev ts)); [lia|done|done|..]; rewrite rev_app_distr; cbn [rev app].
  - unfold non_null. fold bot. destruct (Z.eqb_spec t bot) as [->|]; [right; auto|left]. known.
  - by eapply B_br_on_null.
Qed.

Lemma validate_br_on_non_null_sound pc s : byte body pc OpcodeBrOnNonNull → branch_spec s pc (validate_br_on_non_null e body (pc + 1) s).
Proof using Hbytes Hlen.
  intros Hop seg deep Hkb Hv Hw. pose proof (byte_bound _ _ _ Hop). unfold validate_br_on_non_null. wp_step. u32 l p Hl. label ts Hi Hk.
  apply wp_bind. apply (pop_reference_sound e panics (vs s) seg deep); [done..|]. intros t v1 seg1 Hv1 Hw1 Hb Href Hp1. cbv beta iota.
  destruct (split_last ts) as [[remaining t']|] eqn:El; [|exact I]. apply split_last_some in El as ->. rewrite not_elem_of_app in Hk. destruct Hk as [Hk _].
  cbv zeta. destruct (negb _ && negb _) eqn:E; [exact I|]. apply checked_sub' in E.
  apply wp_bind. apply (values_below s seg deep v1 seg1 [t]); [done..|]. intros v2 seg2 Hv2 Hp2 _.
  apply (branch_to s seg deep pc p v2 seg2 ([t] ++ rev remaining)); [lia|done|done|left; by apply not_in_rev|]. by eapply B_br_on_non_null.
Qed.

Lemma small_flag flags : is_byte flags → negb (Z.land flags 1 =? 0) = Z.testbit flags 0 ∧ negb (Z.land flags 2 =? 0) = Z.testbit flags 1.
Proof.
  intros H. pose proof (below_all 256 (λ f, eqb (negb (Z.land f 1 =? 0)) (Z.testbit f 0) && eqb (negb (Z.land f 2 =? 0)) (Z.testbit f 1)) flags
    ltac:(vm_compute; reflexivity) H) as Hf. cbv beta in Hf. apply andb_true_iff in Hf as [H1 H2]. by apply eqb_prop in H1, H2.
Qed.

Lemma validateBrOnCast_sound op pc s :
  byte body pc OpcodeGCPrefix → byte body (pc + 1) op → op = OpcodeGCBrOnCast ∨ op = OpcodeGCBrOnCastFail →
  branch_spec s pc (validateBrOnCast e body op (pc + 2) s).
Proof using Hbytes Hlen.
  intros H0 H1 Hop seg deep Hkb Hv Hw. pose proof (byte_bound _ _ _ H1). unfold validateBrOnCast. destruct (Z.leb_spec (zlen body) (pc + 2)); [exact I|].
  apply wp_bind, wp_byte; [lia|]. intros flags Hfl. destruct (Z.ltb_spec 3 flags); [exact I|].
  destruct (small_flag flags) as [-> ->]; [by eapply byte_is_byte|]. u32 l p Hl.
  eapply wp_use; [apply (heap_type_sound e body panics Hbytes Hlen); lia|]. intros [rt1 p1] (Hh1 & _ & Hk1 & Hp1). cbn in Hh1, Hk1, Hp1. cbv beta iota.
  eapply wp_use; [apply (heap_type_sound e body panics Hbytes Hlen); lia|]. intros [rt2 p2] (Hh2 & _ & Hk2 & Hp2). cbn in Hh2, Hk2, Hp2. cbv beta iota.
  destruct (OutOfRange _ _); [exact I|]. destruct (isRefSubtypeOf _ rt2 rt1) eqn:Es; [|exact I]. cbn [negb]. cbv zeta.
  apply wp_bind. apply (wp_pop panics (vs s) seg deep); [done..|]. intros v v1 seg1 Hv1 Hw1 _ Hpo Hc. cbv beta iota.
  destruct (negb _ && negb _) eqn:E; [exact I|]. apply checked_sub' in E.
  set (diff := if IsNullable rt2 then AsNonNullable rt1 else rt1).
  assert (diff ≠ bot) as Hkd by (unfold diff; destruct (IsNullable rt2); [apply AsNonNullable_known|done]).
  assert (∃ fail : bool, op = (if fail then 25 else 24) ∧
    (if op =? OpcodeGCBrOnCastFail then (diff, rt2) else (rt2, diff)) = (if fail then diff else rt2, if fail then rt2 else diff)) as (fail & -> & ->).
  { destruct Hop as [->| ->]; [by exists false|by exists true]. }
  label ts Hi Hk. destruct (split_last ts) as [[remaining t']|] eqn:El; [|exact I]. apply split_last_some in El as ->. rewrite not_elem_of_app in Hk. destruct Hk as [Hk _].
  destruct (isRefSubtypeOf _ (if fail then diff else rt2) t') eqn:Et; [|exact I]. cbn [negb].
  apply wp_bind. apply (values_below s seg deep v1 seg1 [rt1]); [done|by apply (popped_one e seg v)|done|]. intros v2 seg2 Hv2 Hpp2 _.
  assert (∀ t, push t (pushes remaining v2) = pushes (remaining ++ [t]) v2) as -> by (intros; unfold pushes; by rewrite foldl_app).
  apply (branch_to s seg deep pc p2 v2 seg2 ([rt1] ++ rev remaining)); [lia|done|done|..]; rewrite rev_app_distr; cbn [rev app].
  - left. apply known_cons; [by destruct fail|by apply not_in_rev].
  - eapply (B_br_on_cast true e body _ pc fail flags l rt1 rt2 remaining t' p p1 p2); [done..|by replace (pc + 3) with (pc + 2 + 1) by lia|done|done|by right; right|done|by right; right].
Qed.

(** ** Exceptions *)

Section tags.
Context (Hidx : indices_ok e ∨ panics).

Lemma tag_params_sound i :
  0 ≤ i → wp panics (tag_params e i) (λ ts, ∃ ti ft, at_index (tags e) i ti ∧ at_index (types e) ti ft ∧ ts = Params ft ∧ bot ∉ ts).
Proof using Henv Hidx.
  intros Hi. unfold tag_params. destruct (Z.leb_spec (zlen (tags e)) i); [exact I|]. apply wp_bind, wp_nth; [lia|]. intros ti Hti.
  apply wp_bind, wp_nth_unchecked; [|intros ft Hft; cbn].
  { destruct Hidx as [Hx|]; [left|by right]. by pose proof (at_index_Forall _ _ _ _ (ix_tags _ Hx) Hti). }
  exists ti, ft. split_and!; [done..|]. by eapply type_known.
Qed.

Lemma validate_throw_sound pc s : byte body pc OpcodeThrow → branch_spec s pc (on_values s (validate_throw e body (pc + 1) (vs s))).
Proof using Henv Hbytes Hlen Hidx.
  intros Hop seg deep Hkb Hv Hw. pose proof (byte_bound _ _ _ Hop). unfold validate_throw, on_values. apply wp_bind. wp_step. u32 i p Hi.
  eapply wp_use; [apply tag_params_sound; lia|]. intros ts (ti & ft & Hti & Hft & -> & Hk).
  apply wp_bind. apply (wp_pops e panics _ (vs s) seg deep); [done|done|by apply not_in_rev|]. intros v seg1 Hv1 Hp1.
  apply (branch_away s seg deep pc p v seg1 (rev (Params ft))); [lia|done..|]. intros a b. by eapply B_throw.
Qed.
End tags.

Lemma validate_throw_ref_sound pc s : byte body pc OpcodeThrowRef → branch_spec s pc (on_values s (validate_throw_ref e (pc + 1) (vs s))).
Proof.
  intros Hop seg deep Hkb Hv Hw. unfold validate_throw_ref, on_values. apply wp_bind. wp_step.
  apply wp_bind. apply (wp_popAndVerify e panics (vs s) seg deep); [done..|]. intros v seg1 Hv1 Hp1.
  apply (branch_away s seg deep pc (pc + 1) v seg1 [ValueTypeExnref]); [lia|done..|]. intros a b. by apply B_throw_ref.
Qed.

(** ** The GC prefix *)

Lemma validate_gc_sound pc s : byte body pc OpcodeGCPrefix → branch_spec s pc (validate_gc e body (pc + 1) s).
Proof using Henv Hbytes Hlen Hend.
  intros Hop. pose proof (byte_not_last body Hend _ _ Hop ltac:(done)). pose proof (byte_bound _ _ _ Hop).
  intros seg deep Hkb Hv Hw. unfold validate_gc. apply wp_bind, wp_byte; [lia|]. intros op H1. wp_step. cbv zeta. replace (pc + 1 + 1) with (pc + 2) by lia.
  destruct (one_of op [OpcodeGCRefTest; _; _; _]) eqn:E1.
  { apply (spec_plain s pc (gc_cast e body op (pc + 2) (vs s))); [by apply gc_cast_plain|done..]. }
  destruct (one_of op [OpcodeGCBrOnCast; _]) eqn:E2.
  { apply one_of_In in E2. rewrite !elem_of_cons, elem_of_nil in E2. apply validateBrOnCast_sound; [done|done|tauto|done..]. }
  apply (spec_plain s pc (validateGCInstruction e body op (pc + 2) (vs s))); [by apply validateGCInstruction_plain|done..].
Qed.
End branches.
