(* ===== verification/WasmSoundBlock.v ===== *)
(** The blocks of a function body under validation: block types, catch clauses, and the
    invariant that ties the open control blocks to the typing of the code before them. *)
From Stdlib Require Import ZArith Lia.
From stdpp Require Import base list numbers option tactics gmap sets.
From S2P Require Import Prelude Leb128 GcHeap GcCollect GcOps GcTypes GcTypeDecode.
From S2P Require Import WasmOpcodes WasmValidStack WasmValidInstr WasmValidSimd WasmValidGc WasmValidate WasmTyping WasmTables.
From S2P Require Import WasmSoundStack WasmSoundInstr WasmSoundSimd WasmSoundGc WasmSoundBranch.
Local Open Scope Z_scope.
Local Open Scope go_scope.

(** * Block types and catch clauses *)

Definition known_types (t : TypeDef) : Prop := (bot ∉ Params t) ∧ (bot ∉ Results t).

Lemma single_known t : t ≠ bot → known_types (singleResultBlockType t).
Proof. intros H. split; cbn; known. Qed.

Lemma fast_known b t : fastBlockType b = Some t → known_types t.
Proof.
  unfold fastBlockType. repeat (destruct (_ =? _); [intros [= <-]; first [by apply single_known|split; cbn; known]|]). done.
Qed.

Section decoding.
Context (e : env) (body : list Z) (panics : Prop).
Context (Henv : valid_env e) (Hbytes : Forall is_byte body) (Hlen : zlen body < 2 ^ 63).

Ltac int33 v p H :=
  apply wp_bind; apply (wp_imm' body panics Hbytes Hlen _ _ _ _ DecodeInt33_in); [lia|];
  let Hv := fresh "Hv" v in let Hp := fresh "Hp" p in intros v p H Hv Hp; cbv beta iota.
Ltac u32 v p H :=
  apply wp_bind; apply (wp_imm' body panics Hbytes Hlen _ _ _ _ LoadUint32_in); [lia|];
  let Hv := fresh "Hv" v in let Hp := fresh "Hp" p in intros v p H Hv Hp; cbv beta iota.

Lemma decodeBlockRef_sound pc nullable :
  0 ≤ pc ≤ zlen body → wp panics (decodeBlockRef (types e) body pc nullable) (λ r, known_types r.1 ∧ pc < r.2 ≤ zlen body).
Proof using Hbytes Hlen.
  intros Hpc. unfold decodeBlockRef. int33 ht p Hh. apply (wp_use _ _ _ (λ vt, vt ≠ bot)).
  - repeat (destruct (ht =? _); [done|]). destruct (ht <? 0); [destruct (AbstractHeapTypeValueType ht) eqn:Ea; [by apply abstract_ref in Ea as [_ ?]|exact I]|].
    destruct (_ <=? ht); [exact I|]. apply ConcreteRef_known.
  - intros vt Hk. cbn. split; [|lia]. apply single_known. destruct nullable; [done|apply AsNonNullable_known].
Qed.

Lemma DecodeBlockType_sound pc :
  0 ≤ pc ≤ zlen body → wp panics (DecodeBlockType (types e) (enabledFeatures e) body pc) (λ r, known_types r.1 ∧ pc < r.2 ≤ zlen body).
Proof using Henv Hbytes Hlen.
  intros Hpc. unfold DecodeBlockType. int33 raw p Hr.
  assert (∀ t, known_types t → wp panics (Ok (t, p)) (λ r, known_types r.1 ∧ pc < r.2 ≤ zlen body)) as Hok by (intros t Ht; cbn; split; [done|lia]).
  destruct (raw =? -64); [apply Hok; split; cbn; known|]. do 8 (destruct (raw =? _); [by apply Hok, single_known|]).
  destruct (bool_decide _) eqn:Eb.
  { apply Hok, single_known. destruct (AbstractHeapTypeValueType raw) eqn:Ea; [by apply abstract_ref in Ea as [_ ?]|done]. }
  assert (∀ b, wp panics (decodeBlockRef (types e) body p b) (λ r, known_types r.1 ∧ pc < r.2 ≤ zlen body)) as Href.
  { intros b. eapply wp_mono; [apply decodeBlockRef_sound; lia|]. intros r [? ?]. split; [done|lia]. }
  do 2 (destruct (raw =? _); [apply Href|]). wp_step. destruct (_ || _) eqn:Eo; [exact I|]. apply wp_bind, wp_nth; [lia|]. intros t Ht. apply Hok.
  split; by eapply type_known.
Qed.

Lemma block_type_sound pos :
  0 ≤ pos ≤ zlen body →
  wp panics (decodeBlockTypeFast (types e) (enabledFeatures e) body pos) (λ r, block_type_at e body pos r.1 r.2 ∧ known_types r.1 ∧ pos < r.2 ≤ zlen body).
Proof using Henv Hbytes Hlen.
  intros Hpc. eapply wp_mono; [apply (wp_eqn panics _ (λ r, known_types r.1 ∧ pos < r.2 ≤ zlen body))|by intros [t p] []].
  unfold decodeBlockTypeFast. destruct (Z.ltb_spec pos (zlen body)); [|by apply DecodeBlockType_sound].
  destruct (byte_at body pos); [|by apply DecodeBlockType_sound..].
  destruct (fastBlockType _) eqn:Ef; [|by apply DecodeBlockType_sound]. cbn. split; [by eapply fast_known|lia].
Qed.

(** ** Catch clauses *)

Lemma catch_matches_subs have : ∀ want, catch_matches (types e) have want = true → subs e have want.
Proof.
  induction have as [|a have IH]; intros [|b want] H; try done; [constructor|]. cbn in H. apply andb_true_iff in H as [Ha H].
  constructor; [by right; right|by apply IH].
Qed.

Lemma check_catch_sound s pc ts :
  Forall known_block (cs s) → 0 ≤ pc ≤ zlen body →
  wp panics (check_catch e body pc s ts) (λ p, ∃ l t, u32_at body pc l p ∧ label_index (labels (cs s)) l t ∧ subs e ts t ∧ pc < p ≤ zlen body).
Proof using Hbytes Hlen.
  intros Hk Hpc. unfold check_catch. u32 l p Hl. eapply wp_use; [apply label_at_sound; [lia|done]|]. intros t [Ht _]. cbv beta.
  destruct (catch_matches _ _ _) eqn:E; [|exact I]. cbn. exists l, t. split_and!; [done|done|by apply catch_matches_subs|lia|lia].
Qed.

(** The loop reads the kind of a clause without a check. *)
Context (Hpanics : panics).

Lemma validate_catch_sound s pc :
  Forall known_block (cs s) → 0 ≤ pc ≤ zlen body →
  wp panics (validate_catch e body pc s)
    (λ p, pc < p ≤ zlen body ∧ ∀ n q, catches_at e body (labels (cs s)) n p q → catches_at e body (labels (cs s)) (n + 1) pc q).
Proof using Henv Hbytes Hlen Hpanics.
  intros Hk Hpc. unfold validate_catch. destruct (decide (pc < zlen body)).
  2: { unfold byte_at. rewrite (proj2 (Z.ltb_ge _ _)) by lia. rewrite (lookup_ge_None_2 body) by (unfold zlen in *; lia). exact Hpanics. }
  apply wp_bind, wp_byte; [lia|]. intros kind Hkind. cbv zeta. destruct (one_of kind [CatchKindCatch; _]) eqn:E1.
  - apply one_of_In in E1. rewrite !elem_of_cons, elem_of_nil in E1. u32 i p1 Hi. eapply wp_use; [apply tag_params_sound; [done|by right|lia]|].
    intros ps (ti & ft & Hti & Hft & -> & _). eapply wp_mono; [apply check_catch_sound; [done|lia]|]. intros p (lb & t & Hl & Ht & Hs & Hp). split; [lia|].
    intros n q Hn. eapply (Ca_tag e body _ n kind i ti ft lb t pc p1 p); [done|unfold CatchKindCatch, CatchKindCatchRef in E1; tauto|done..| |done].
    unfold catch_types. by destruct E1 as [->|[->|[]]].
  - destruct (one_of kind [CatchKindCatchAll; _]) eqn:E2; [|exact I].
    apply one_of_In in E2. rewrite !elem_of_cons, elem_of_nil in E2.
    eapply wp_mono; [apply check_catch_sound; [done|lia]|]. intros p (lb & t & Hl & Ht & Hs & Hp). split; [lia|].
    intros n q Hn. eapply (Ca_all e body _ n kind lb t pc p); [done|unfold CatchKindCatchAll, CatchKindCatchAllRef in E2; tauto|done..| |done].
    unfold catch_types. by destruct E2 as [->|[->|[]]].
Qed.

Lemma validate_catches_sound fuel s : ∀ n pc,
  Forall known_block (cs s) → 0 ≤ pc ≤ zlen body → 0 ≤ n → zlen body - pc < Z.of_nat fuel →
  wp panics (validate_catches fuel e body n pc s) (λ p, pc ≤ p ≤ zlen body ∧ catches_at e body (labels (cs s)) n pc p).
Proof using Henv Hbytes Hlen Hpanics.
  induction fuel as [|fuel IH]; intros n pc Hk Hpc Hn Hf; [lia|]. cbn [validate_catches]. destruct (Z.leb_spec n 0).
  { assert (n = 0) as -> by lia. cbn. split; [lia|apply Ca_nil]. }
  eapply wp_use; [by apply validate_catch_sound|]. intros p [Hp Hc]. eapply wp_mono; [apply (IH (n - 1) p); [done|lia|lia|lia]|].
  intros q [Hq Hca]. split; [lia|]. replace n with (n - 1 + 1) by lia. by apply Hc.
Qed.
End decoding.
