(* ===== verification/WasmSound.v ===== *)
(** The soundness of the validation of function bodies: what the validator accepts is
    well typed.  The control blocks that are open at a position are the frames of the
    typing derivation under construction; every instruction extends the innermost, and
    [end] turns it into one instruction of the frame around it. *)
From Stdlib Require Import ZArith Lia.
From stdpp Require Import base list numbers option tactics gmap sets.
From S2P Require Import Prelude Leb128 GcHeap GcCollect GcOps GcTypes GcTypeDecode.
From S2P Require Import WasmOpcodes WasmValidStack WasmValidInstr WasmValidSimd WasmValidGc WasmValidate WasmTyping WasmTables.
From S2P Require Import WasmSoundStack WasmSoundInstr WasmSoundSimd WasmSoundGc WasmSoundBranch WasmSoundBlock.
Local Open Scope Z_scope.
Local Open Scope go_scope.

(** * Frames *)

(** An open block: where its code starts, the locals set and the operands there, and the
    operand types it has now. *)
Record frame := mkFrame { f_block : controlBlock; f_start : Z; f_entry : gset Z; f_in : list Z; f_seg : list Z }.

Definition with_seg (f : frame) (seg : list Z) : frame := mkFrame (f_block f) (f_start f) (f_entry f) (f_in f) seg.

Definition frame_labels (fs : list frame) : list (list Z) := labels (f_block <$> fs).

Fixpoint frame_limits (fs : list frame) : list nat :=
  match fs with [] => [] | _ :: fs' => length (concat (f_seg <$> fs)) :: frame_limits fs' end.

Section frames.
Context (e : env) (body : list Z).

(** The code of a frame up to a position leaves [ins] above any operands the types of the
    frame stand for. *)
Definition at_frame (L : list (list Z)) (f : frame) (pc : Z) (ins : list Z) (I : gset Z) : Prop :=
  ∀ ts, conc (f_seg f) ts → code true e body L (f_entry f) (f_start f) pc (f_in f) (ins ++ ts) I.

(** Typed code from the start of a frame makes the whole block an instruction of the code
    around it; of an [if] this takes both branches, or one that changes no types. *)
Definition closes (f : frame) (L : list (list Z)) (pc_open : Z) (ins : list Z) : Prop :=
  let b := f_block f in
  let res := rev (Results (blockType b)) in
  let typed from pc I := code true e body (label_types b :: L) (f_entry f) from pc (f_in f) res I in
  let closed pe := instr true e body L (f_entry f) pc_open (pe + 1) ins res (f_entry f) in
  (∀ pe I, typed (f_start f) pe I → byte body pe OpcodeEnd → (cb_op b = OpcodeIf → Results (blockType b) = Params (blockType b)) → closed pe) ∧
  (cb_op b = OpcodeIf → elseAt b ≤ startAt b ∧
     ∀ pm I1, typed (f_start f) pm I1 → byte body pm OpcodeElse → ∀ pe I2, typed (pm + 1) pe I2 → byte body pe OpcodeEnd → closed pe).

(** A frame inside the frames [fs]: where the frame around it stopped. *)
Fixpoint suspended (f : frame) (fs : list frame) : Prop :=
  match fs with
  | [] => f_start f = 0 ∧ f_entry f = ∅ ∧ f_in f = [] ∧ blockType (f_block f) = functionType e ∧ cb_op (f_block f) = 0
  | g :: fs' =>
      (∃ pc_open ins, at_frame (frame_labels fs) g pc_open ins (f_entry f) ∧ wf (f_seg g) ∧ closes f (frame_labels fs) pc_open ins) ∧
      f_in f = rev (Params (blockType (f_block f))) ∧ savedInitLocals (f_block f) ⊆ f_entry f ∧ suspended g fs'
  end.

Record running (pc : Z) (s : stacks) (f : frame) (fs : list frame) (I : gset Z) : Prop := {
  r_cs : cs s = f_block <$> (f :: fs);
  r_stack : stack (vs s) = f_seg f ++ concat (f_seg <$> fs);
  r_limits : stackLimits (vs s) = frame_limits fs;
  r_wf : wf (f_seg f);
  r_at : at_frame (frame_labels (f :: fs)) f pc [] I;
  r_init : initLocals s ⊆ I;
  r_outer : suspended f fs;
  r_known : Forall known_block (cs s);
}.

(** After the last [end]. *)
Definition ended (pc : Z) : Prop :=
  ∃ pe I, code true e body [Results (functionType e)] ∅ 0 pe [] (rev (Results (functionType e))) I ∧ byte body pe OpcodeEnd ∧ pc = pe + 1.

Definition valid_state (pc : Z) (s : stacks) : Prop := (∃ f fs I, running pc s f fs I) ∨ (cs s = [] ∧ ended pc).

Lemma running_view pc s f fs I : running pc s f fs I → view (vs s) (f_seg f) (concat (f_seg <$> fs)).
Proof. intros H. split; [apply H|]. unfold stack_limit. rewrite (r_limits _ _ _ _ _ H). by destruct fs. Qed.

Lemma running_labels pc s f fs I : running pc s f fs I → labels (cs s) = frame_labels (f :: fs).
Proof. intros H. unfold frame_labels. by rewrite (r_cs _ _ _ _ _ H). Qed.

(** An operand list that comes off before the code goes on. *)
Lemma at_frame_popped L f pc I ins seg1 : at_frame L f pc [] I → popped e (f_seg f) ins seg1 → at_frame L (with_seg f seg1) pc ins I.
Proof.
  intros H (Hc & _) ts Hts. destruct (Hc ts Hts) as (as_ & Hs & Hc'). apply C_sub with (ts1 := as_ ++ ts); [exact (H _ Hc')|].
  apply subs_app; [done|apply subs_refl].
Qed.

(** An instruction at a frame. *)
Lemma at_frame_instr L f pc pc' ins outs I I' :
  pushable outs (f_seg f) → at_frame L f pc ins I → instr true e body L I pc pc' ins outs I' → at_frame L (with_seg f (outs ++ f_seg f)) pc' [] I'.
Proof.
  intros Hp H Hi ts Hts. cbn in Hts. apply conc_app in Hts as (rest & -> & Hts); [|done]. cbn [app]. eapply C_instr; [exact (H _ Hts)|exact Hi].
Qed.

Lemma at_frame_step L f pc pc' I I' (R : list Z → list Z → Prop) seg' :
  at_frame L f pc [] I → step_ok e R (f_seg f) seg' → (∀ i o, R i o → instr true e body L I pc pc' i o I') → at_frame L (with_seg f seg') pc' [] I'.
Proof.
  intros H [_ Hs] HR ts Hts. destruct (Hs ts Hts) as (as_ & ins & outs & rest & Hc & Hsub & Hi & ->).
  cbn [app]. eapply C_instr; [|by apply HR]. apply C_sub with (ts1 := as_ ++ rest); [exact (H _ Hc)|]. apply subs_app; [done|apply subs_refl].
Qed.

Lemma suspended_seg f fs seg : suspended f fs → suspended (with_seg f seg) fs.
Proof. by destruct fs. Qed.

(** The next instruction of the innermost frame. *)
Lemma running_step pc pc' s s' f fs I I' (R : list Z → list Z → Prop) seg' :
  running pc s f fs I → cs s' = cs s → viewed (vs s) (vs s') seg' (concat (f_seg <$> fs)) → step_ok e R (f_seg f) seg' →
  (∀ i o, R i o → instr true e body (labels (cs s)) I pc pc' i o I') → initLocals s' ⊆ I' → running pc' s' (with_seg f seg') fs I'.
Proof.
  intros H Hcs [Hl [Hst _]] Hs HR Hi. rewrite (running_labels _ _ _ _ _ H) in HR. constructor.
  - rewrite Hcs. apply H.
  - done.
  - rewrite Hl. apply H.
  - apply Hs.
  - eapply (at_frame_step (frame_labels (f :: fs))); [apply H|done|done].
  - done.
  - apply suspended_seg, H.
  - rewrite Hcs. apply H.
Qed.
End frames.

Section walk.
Context (e : env) (body : list Z) (panics : Prop).
Context (Henv : valid_env e) (Hbytes : Forall is_byte body) (Hlen : zlen body < 2 ^ 63) (Hend : list.last body = Some OpcodeEnd).
Context (Hpanics : IsEnabled (enabledFeatures e) CoreFeatureExceptionHandling = true → panics).

Definition goes_on (pc : Z) (r : stacks * Z) : Prop := pc < r.2 ∧ valid_state e body r.2 r.1.

Ltac u32 v p H :=
  apply wp_bind; apply (wp_imm' body panics Hbytes Hlen _ _ _ _ LoadUint32_in); [lia|];
  let Hv := fresh "Hv" v in let Hp := fresh "Hp" p in intros v p H Hv Hp; cbv beta iota.

Lemma branch_goes_on pc s f fs I m : running e body pc s f fs I → branch_spec e body panics s pc m → wp panics m (goes_on pc).
Proof.
  intros H Hm. eapply wp_mono; [exact (Hm _ _ (r_known _ _ _ _ _ _ _ H) (running_view _ _ _ _ _ _ _ H) (r_wf _ _ _ _ _ _ _ H))|].
  intros [s' p] (Hp & Hcs & Hi & seg' & Hv & Hs). split; [done|]. left. exists (with_seg f seg'), fs, I.
  eapply running_step; [done..| |by rewrite Hi; apply H]. intros i o [Hb|Hb]; [by apply I_plain|by apply I_branch].
Qed.

(** ** Locals and globals *)

Lemma local_type_known i t : 0 ≤ i → local_type e i = Some t → t ≠ bot.
Proof using Henv.
  intros Hi H. unfold local_type in H. destruct (_ <=? i); [done|]. destruct (i <? _); apply list_elem_of_lookup_2 in H; intros ->.
  - by apply (ve_params _ Henv).
  - by apply (ve_locals _ Henv).
Qed.

Lemma mark_goes_on pc p i s f fs I v seg' ins outs :
  running e body pc s f fs I → pc < p → viewed (vs s) v seg' (concat (f_seg <$> fs)) →
  step_ok e (λ a b, a = ins ∧ b = outs) (f_seg f) seg' → local_at e body I pc p ins outs ({[i]} ∪ I) → goes_on pc (markLocalInit e i (set_vs s v), p).
Proof.
  intros H Hp Hv Hs Hl. split; [done|]. left. exists (with_seg f seg'), fs, ({[i]} ∪ I). eapply running_step; [done| | |exact Hs|..].
  - unfold markLocalInit. by destruct (needs_init e i).
  - unfold markLocalInit. by destruct (needs_init e i).
  - intros a b [-> ->]. by apply I_local.
  - pose proof (r_init _ _ _ _ _ _ _ H). unfold markLocalInit. destruct (needs_init e i); cbn; [by apply union_mono_l|by apply union_subseteq_r'].
Qed.

Lemma local_goes_on op pc s f fs I i p t :
  running e body pc s f fs I → byte body pc op → op = OpcodeLocalGet ∨ op = OpcodeLocalSet ∨ op = OpcodeLocalTee →
  u32_at body (pc + 1) i p → 0 ≤ i → pc < p → local_type e i = Some t →
  wp panics (if op =? OpcodeLocalGet then let* _ := requireLocalInit e i s in Ok (set_vs s (push t (vs s)), p)
             else let* v := popAndVerifyType (types e) t (vs s) in
                  Ok (markLocalInit e i (set_vs s (if op =? OpcodeLocalSet then v else push t v)), p)) (goes_on pc).
Proof using Henv.
  intros H Hop Hcase Hi Hi0 Hp Ht. pose proof (running_view _ _ _ _ _ _ _ H) as Hv. pose proof (r_wf _ _ _ _ _ _ _ H) as Hw.
  pose proof (local_type_known _ _ Hi0 Ht) as Hk. destruct (decide (op = OpcodeLocalGet)) as [->|Hn].
  - change (OpcodeLocalGet =? OpcodeLocalGet) with true. cbv iota. unfold requireLocalInit. destruct (needs_init e i && _) eqn:En; [exact Logic.I|]. cbn [obind wp].
    split; [done|]. left. exists (with_seg f (t :: f_seg f)), fs, I. eapply (running_step e body pc p s _ f fs I I (λ a b, a = [] ∧ b = [t])); [done|done|by apply view_push|..|apply H].
    + apply (step_intro e _ _ [] [t]); [by apply popped_nil|left; known|done].
    + intros a b [-> ->]. apply I_local. eapply L_get; [done..|]. intros Hni. rewrite Hni in En. cbn in En. apply negb_false_iff, bool_decide_eq_true in En.
      by apply (r_init _ _ _ _ _ _ _ H).
  - rewrite (proj2 (Z.eqb_neq _ _) Hn). apply wp_bind. apply (wp_popAndVerify e panics (vs s) (f_seg f) (concat (f_seg <$> fs))); [done..|].
    intros v seg1 Hv1 Hp1. cbn [wp]. destruct (Z.eqb_spec op OpcodeLocalSet) as [->|Hn'].
    + apply (mark_goes_on pc p i s f fs I v seg1 [t] []); [done..| |by eapply L_set]. apply (step_intro e _ _ [t] []); [done|left; known|done].
    + destruct Hcase as [?|[?| ->]]; [done..|].
      apply (mark_goes_on pc p i s f fs I _ (t :: seg1) [t] [t]); [done..| | |by eapply L_tee].
      * eapply viewed_trans; [exact Hv1|]. apply view_push, Hv1.
      * apply (step_intro e _ _ [t] [t]); [done|left; known|done].
Qed.

Lemma global_sound op pc s i p t (m : bool) :
  byte body pc op → op = OpcodeGlobalGet ∨ op = OpcodeGlobalSet → u32_at body (pc + 1) i p → pc < p → at_index (globals e) i (t, m) →
  branch_spec e body panics s pc (if op =? OpcodeGlobalGet then Ok (set_vs s (push t (vs s)), p)
    else if negb m then Err (VImmutable i) else let* v := popAndVerifyType (types e) t (vs s) in Ok (set_vs s v, p)).
Proof using Henv.
  intros Hop Hcase Hi Hp Ht. pose proof (at_index_Forall _ _ _ _ (ve_globals _ Henv) Ht) as Hk. cbn in Hk. destruct (Z.eqb_spec op OpcodeGlobalGet) as [->|Hn].
  - apply (spec_plain e body panics s pc (Ok (push t (vs s), p))). apply spec_push; [done|done|by eapply P_global_get].
  - destruct Hcase as [?| ->]; [done|]. destruct m; [|intros ?????; exact Logic.I]. cbn [negb]. intros seg deep Hkb Hv Hw.
    apply wp_bind. apply (wp_popAndVerify e panics (vs s) seg deep); [done..|]. intros v seg1 Hv1 Hp1. cbn. split_and!; [done..|]. exists seg1. split; [done|].
    apply (step_intro e _ _ [t] []); [done|left; known|left; by eapply P_global_set].
Qed.

Lemma variable_goes_on op pc s f fs I :
  running e body pc s f fs I → byte body pc op → between OpcodeLocalGet op OpcodeGlobalSet = true →
  wp panics (validate_variable e body op (pc + 1) s) (goes_on pc).
Proof using Henv Hbytes Hlen.
  intros H Hop Hr. pose proof (byte_bound _ _ _ Hop). unfold validate_variable. u32 i p Hi.
  destruct (Z.eqb_spec op OpcodeLocalGet) as [->|N1].
  { destruct (local_type e i) as [t|] eqn:Et; [|exact Logic.I]. apply (local_goes_on OpcodeLocalGet pc s f fs I i p t); [done|done|tauto|done|lia|lia|done]. }
  destruct (Z.eqb_spec op OpcodeLocalSet) as [->|N2].
  { destruct (local_type e i) as [t|] eqn:Et; [|exact Logic.I]. apply (local_goes_on OpcodeLocalSet pc s f fs I i p t); [done|done|tauto|done|lia|lia|done]. }
  destruct (Z.eqb_spec op OpcodeLocalTee) as [->|N3].
  { destruct (local_type e i) as [t|] eqn:Et; [|exact Logic.I]. apply (local_goes_on OpcodeLocalTee pc s f fs I i p t); [done|done|tauto|done|lia|lia|done]. }
  unfold between in Hr. unfold OpcodeLocalGet, OpcodeLocalSet, OpcodeLocalTee, OpcodeGlobalGet, OpcodeGlobalSet in *.
  destruct (if OutOfRange i _ then None else _) as [[t m]|] eqn:Eg; [|exact Logic.I]. destruct (OutOfRange i _); [done|].
  apply (branch_goes_on pc s f fs I); [done|]. apply (global_sound op pc s i p t m); [done|unfold OpcodeGlobalGet, OpcodeGlobalSet; lia|done|lia|split; [lia|done]].
Qed.
(** ** Opening a block *)

(** The parameters of a block come off and go on again, above the limit of the block. *)
Lemma enter_goes_on pc p s f fs I v seg1 ins b :
  running e body pc s f fs I → pc < p → viewed (vs s) v seg1 (concat (f_seg <$> fs)) → popped e (f_seg f) ins seg1 →
  known_block b → savedInitLocals b ⊆ I →
  (closes e body (mkFrame b p I (rev (Params (blockType b))) []) (labels (cs s)) pc (ins ++ rev (Params (blockType b)))) →
  wp panics (let* s := enter_block e b s v in Ok (s, p)) (goes_on pc).
Proof.
  intros H Hp Hv Hpo Hk Hsaved Hcl. unfold enter_block. cbv zeta. apply wp_bind, wp_bind.
  apply (wp_require_values e panics v seg1 (concat (f_seg <$> fs))); [apply Hv|by eapply popped_wf|apply Hk|]. intros v2 seg2 Hv2 Hp2 _. cbn [wp].
  pose proof (viewed_trans _ _ _ _ _ _ Hv Hv2) as Hv'. destruct (view_pushes (Params (blockType b)) v2 _ _ (proj2 Hv2)) as [Hl3 [Hst3 _]].
  rewrite <- (assoc_L (++)) in Hst3. rewrite (running_labels _ _ _ _ _ _ _ H) in Hcl. split; [done|]. left.
  exists (mkFrame b p I (rev (Params (blockType b))) (rev (Params (blockType b)))), (with_seg f seg2 :: fs), I. constructor.
  - cbn. by rewrite (r_cs _ _ _ _ _ _ _ H).
  - exact Hst3.
  - cbn [fst vs pushStackLimit stackLimits]. rewrite Hst3, length_app, length_rev. cbn [frame_limits]. f_equal; [cbn; lia|].
    rewrite Hl3, (proj1 Hv'). apply H.
  - intros Hb. by destruct (not_in_rev _ _ (proj1 Hk) Hb).
  - intros ts Hts. cbn in Hts |- *. rewrite <- (app_nil_r (rev _)) in Hts. apply conc_app in Hts as (r & -> & ->); [|left; by apply not_in_rev, Hk].
    rewrite app_nil_r. apply C_empty.
  - apply H.
  - cbn [suspended f_block f_in]. split_and!; [|done|done|apply suspended_seg, H].
    exists pc, (ins ++ rev (Params (blockType b))). split_and!; [|by eapply popped_wf|exact Hcl].
    eapply at_frame_popped; [apply H|]. by eapply popped_app.
  - constructor; [done|apply H].
Qed.

Lemma block_goes_on op pc s f fs I :
  running e body pc s f fs I → byte body pc op → op = OpcodeBlock ∨ op = OpcodeLoop ∨ op = OpcodeIf →
  wp panics (validate_block e body op pc s) (goes_on pc).
Proof using Henv Hbytes Hlen.
  intros H Hop Hcase. pose proof (byte_bound _ _ _ Hop). unfold validate_block.
  eapply wp_use; [apply block_type_sound; [done..|lia]|]. intros [bt p] (Hbt & Hk & Hp). cbn in Hbt, Hk, Hp. cbv beta iota zeta.
  pose proof (running_view _ _ _ _ _ _ _ H) as Hv. pose proof (r_wf _ _ _ _ _ _ _ H) as Hw. pose proof (r_init _ _ _ _ _ _ _ H).
  destruct Hcase as [->|[->| ->]].
  - cbn [obind Z.eqb]. eapply (enter_goes_on pc p s f fs I (vs s) (f_seg f) []); [done|lia|by split|by apply popped_nil|done|done|].
    split; [|done]. intros pe J Hc Hb _. by eapply I_block.
  - change (OpcodeLoop =? OpcodeIf) with false. change (OpcodeLoop =? OpcodeBlock) with false. cbv iota. cbn [obind].
    eapply (enter_goes_on pc p s f fs I (vs s) (f_seg f) []); [done|lia|by split|by apply popped_nil|done|done|].
    split; [|done]. intros pe J Hc Hb _. by eapply I_loop.
  - change (OpcodeIf =? OpcodeIf) with true. change (OpcodeIf =? OpcodeBlock) with false. cbv iota.
    apply wp_bind. apply (wp_popAndVerify e panics (vs s) (f_seg f) (concat (f_seg <$> fs))); [done..|]. intros v seg1 Hv1 Hp1.
    eapply (enter_goes_on pc p s f fs I v seg1 [I32]); [done|lia|done..|].
    split; [intros pe J Hc Hb Heq; eapply I_if; try done; by apply Heq|].
    intros _. split; [cbn; lia|]. intros pm I1 Hc1 Hb1 pe I2 Hc2 Hb2. by eapply I_if_else.
Qed.

Lemma try_table_goes_on pc s f fs I :
  running e body pc s f fs I → byte body pc OpcodeTryTable → wp panics (validate_try_table e body pc s) (goes_on pc).
Proof using Henv Hbytes Hlen Hpanics.
  intros H Hop. pose proof (byte_bound _ _ _ Hop). unfold validate_try_table. wp_step.
  eapply wp_use; [apply block_type_sound; [done..|lia]|]. intros [bt p1] (Hbt & Hk & Hp1). cbn in Hbt, Hk, Hp1. cbv beta iota.
  u32 n p2 Hn. eapply wp_use; [apply validate_catches_sound; [done..|auto|apply H|lia|lia|unfold zlen in *; lia]|]. intros p [Hp Hca].
  pose proof (running_view _ _ _ _ _ _ _ H) as Hv. pose proof (r_wf _ _ _ _ _ _ _ H) as Hw.
  eapply (enter_goes_on pc p s f fs I (vs s) (f_seg f) []); [done|lia|by split|by apply popped_nil|done|apply empty_subseteq|].
  split; [|done]. intros pe J Hc Hb _. by eapply I_try_table.
Qed.

(** ** Closing a block *)

(** The results of a block and nothing else are on the stack. *)
Lemma results_sound pc s f fs I b (Q : valueTypeStack → Prop) :
  running e body pc s f fs I → known_block b →
  (∀ v seg1, viewed (vs s) v seg1 (concat (f_seg <$> fs)) →
     code true e body (frame_labels (f :: fs)) (f_entry f) (f_start f) pc (f_in f) (rev (Results (blockType b))) I → Q v) →
  wp panics (requireStackValues (types e) (Results (blockType b)) true (vs s)) Q.
Proof.
  intros H [_ Hk] HQ. pose proof (running_view _ _ _ _ _ _ _ H) as Hv.
  apply (wp_require_values e panics (vs s) (f_seg f) (concat (f_seg <$> fs))); [done|apply H|done|]. intros v seg1 Hv1 (Hc & _) Hab.
  apply (HQ v seg1 Hv1). assert (conc seg1 []) as Hnil by (destruct (Hab eq_refl) as [->| ->]; [done|apply conc_bot]).
  destruct (Hc [] Hnil) as (as_ & Hs & Hc'). rewrite app_nil_r in Hc'. eapply C_sub; [exact (r_at _ _ _ _ _ _ _ H _ Hc')|done].
Qed.

Lemma else_goes_on pc s f fs I :
  running e body pc s f fs I → byte body pc OpcodeElse → wp panics (validate_else e pc s) (goes_on pc).
Proof.
  intros H Hop. unfold validate_else. rewrite (r_cs _ _ _ _ _ _ _ H). cbn [fmap list_fmap].
  pose proof (r_known _ _ _ _ _ _ _ H) as Hkb. rewrite (r_cs _ _ _ _ _ _ _ H) in Hkb. inversion Hkb as [|? ? Hk Hks]; subst.
  pose proof (r_outer _ _ _ _ _ _ _ H) as Hout.
  destruct (Z.eqb_spec (cb_op (f_block f)) OpcodeIf) as [Hif|]; [|exact Logic.I]. cbn [negb]. cbv zeta.
  set (b := mkCB _ _ _ _ _ _ _). apply wp_bind. apply (results_sound pc s f fs I b); [done..|]. intros v seg1 Hv1 Hcode.
  destruct fs as [|g fs]; [exfalso; destruct Hout as (_ & _ & _ & _ & H0); by rewrite H0 in Hif|].
  cbn [suspended] in Hout. destruct Hout as ((po & ins & Hat & Hwg & _ & Hcl) & Hin & Hsv & Hout). destruct (Hcl Hif) as [_ Hcl2].
  assert (label_types b = label_types (f_block f)) as Hlab by (unfold label_types; by rewrite Hif).
  destruct (view_pushes (Params (blockType b)) _ _ _ (proj2 (view_reset _ _ _ (proj2 Hv1)))) as [Hl2 [Hst2 _]].
  split; [cbn; lia|]. left. exists (mkFrame b (pc + 1) (f_entry f) (f_in f) (rev (Params (blockType b)))), (g :: fs), (f_entry f). constructor.
  - done.
  - cbn [fst vs]. rewrite Hst2. by rewrite app_nil_r.
  - cbn [fst vs]. rewrite Hl2. cbn. rewrite (proj1 Hv1). apply H.
  - intros Hb. by destruct (not_in_rev _ _ (proj1 Hk) Hb).
  - intros ts Hts. cbn in Hts |- *. rewrite <- (app_nil_r (rev _)) in Hts. apply conc_app in Hts as (r & -> & ->); [|left; by apply not_in_rev, Hk].
    rewrite app_nil_r, Hin. apply C_empty.
  - exact Hsv.
  - cbn [suspended f_block f_in f_entry]. split_and!; [|done|done|done]. exists po, ins. split_and!; [done|done|]. split; [|done].
    cbn [f_block f_start f_entry f_in]. rewrite Hlab. intros pe J Hc Hb _. eapply Hcl2; [exact Hcode|exact Hop|exact Hc|exact Hb].
  - constructor; done.
Qed.

Lemma end_goes_on pc s f fs I :
  running e body pc s f fs I → byte body pc OpcodeEnd → wp panics (validate_end e pc s) (goes_on pc).
Proof.
  intros H Hop. unfold validate_end. rewrite (r_cs _ _ _ _ _ _ _ H). cbn [fmap list_fmap]. cbv zeta.
  pose proof (r_known _ _ _ _ _ _ _ H) as Hkb. rewrite (r_cs _ _ _ _ _ _ _ H) in Hkb. inversion Hkb as [|? ? Hk Hks]; subst.
  pose proof (r_outer _ _ _ _ _ _ _ H) as Hout. destruct (_ && _ && negb _) eqn:Ec; [exact Logic.I|].
  apply wp_bind. apply (results_sound pc s f fs I (f_block f)); [done..|]. intros v seg1 Hv1 Hcode. split; [cbn; lia|].
  set (res := Results (blockType (f_block f))) in *.
  destruct (view_pushes res _ _ _ (proj2 (view_reset _ _ _ (proj2 Hv1)))) as [Hl2 [Hst2 _]].
  destruct fs as [|g fs]; cbn [suspended] in Hout.
  - right. split; [done|]. destruct Hout as (Hs0 & He0 & Hi0 & Hbt & Hc0). exists pc, I. split_and!; [|done|done].
    unfold frame_labels, labels, label_types in Hcode. cbn in Hcode. rewrite Hc0, Hs0, He0, Hi0 in Hcode. subst res. by rewrite Hbt in *.
  - left. destruct Hout as ((po & ins & Hat & Hwg & Hcl) & Hin & Hsv & Hout). destruct Hcl as [Hcl1 Hcl2].
    exists (with_seg g (rev res ++ f_seg g)), fs, (f_entry f).
    assert (pushable (rev res) (f_seg g)) as Hpush by (left; apply not_in_rev, Hk). constructor.
    + done.
    + cbn [fst vs popStackLimit stack]. rewrite Hst2, app_nil_r. cbn. by rewrite <- (assoc_L (++)).
    + cbn [fst vs popStackLimit stackLimits]. rewrite Hl2. cbn [resetAtStackLimit set_stack stackLimits]. rewrite (proj1 Hv1), (r_limits _ _ _ _ _ _ _ H). done.
    + by apply wf_app.
    + change (frame_labels (with_seg g (rev res ++ f_seg g) :: fs)) with (frame_labels (g :: fs)).
      eapply at_frame_instr; [exact Hpush|exact Hat|]. apply (Hcl1 pc I); [exact Hcode|exact Hop|]. intros Hif. destruct (Hcl2 Hif) as [Hle _].
      rewrite Hif in Ec. change (OpcodeIf =? OpcodeIf) with true in Ec. rewrite (proj2 (Z.leb_le _ _) Hle) in Ec. cbn in Ec.
      apply negb_false_iff, bool_decide_eq_true in Ec. done.
    + exact Hsv.
    + by apply suspended_seg.
    + exact Hks.
Qed.
End walk.
