(* ===== verification/WasmSafety.v ===== *)
(** What the validation of function bodies guarantees: an accepted body is well typed, and
    the validation of any body ends, and does not panic where exception handling is off and
    the module has the indices in range that are checked only later ([indices_ok]). *)
From Stdlib Require Import ZArith Lia.
From stdpp Require Import base list numbers option tactics gmap sets.
From S2P Require Import Prelude Leb128 GcHeap GcCollect GcOps GcTypes GcTypeDecode.
From S2P Require Import WasmOpcodes WasmValidStack WasmValidInstr WasmValidSimd WasmValidGc WasmValidate WasmTyping WasmTables.
From S2P Require Import WasmSoundStack WasmSoundInstr WasmSoundSimd WasmSoundGc WasmSoundBranch WasmSoundBlock WasmSound.
Local Open Scope Z_scope.
Local Open Scope go_scope.

(** What the walk asks of a body: bytes, of a length an index can have, and [end] last. *)
Record body_ok (body : list Z) : Prop := {
  bo_bytes : Forall is_byte body;
  bo_length : zlen body < 2 ^ 63;
  bo_end : list.last body = Some OpcodeEnd;
}.

Section safety.
Context (e : env) (body : list Z) (panics : Prop).
Context (Henv : valid_env e) (Hbody : body_ok body).
Context (Hidx : indices_ok e ∨ panics).
Context (Hpanics : IsEnabled (enabledFeatures e) CoreFeatureExceptionHandling = true → panics).

(** ** One instruction *)

(** [by_op op c] takes a case of the switch that is one opcode. *)
Ltac by_op op c := destruct (Z.eqb_spec op c) as [->|_].
Ltac members H := apply one_of_In in H; rewrite !elem_of_cons, elem_of_nil in H.

Lemma instruction_goes_on pc s f fs I :
  running e body pc s f fs I → 0 ≤ pc < zlen body → wp panics (validate_instruction e body pc s) (goes_on e body pc).
Proof using Henv Hbody Hidx Hpanics.
  destruct Hbody as [Hbytes Hlen Hend]. intros H Hpc. unfold validate_instruction. apply wp_bind, wp_byte; [done|]. intros op Hop. cbv zeta.
  rewrite (r_cs _ _ _ _ _ _ _ H). cbn [fmap list_fmap].
  assert (∀ m, branch_spec e body panics s pc m → wp panics m (goes_on e body pc)) as Hbr by (intros m; by eapply branch_goes_on).
  assert (∀ m, spec e panics (vs s) pc (plain_at true e body pc) m → wp panics (on_values s m) (goes_on e body pc)) as Hplain by (intros m Hm; by apply Hbr, spec_plain).
  assert (∀ m, spec e panics (vs s) pc (basic e body (labels (cs s)) pc) m → wp panics (on_values s m) (goes_on e body pc)) as Hbasic.
  { intros m Hm. apply Hbr. by eapply spec_on_values. }
  destruct (between OpcodeI32Load op _) eqn:E1; [by apply Hplain, validate_load_store_sound|].
  destruct (between OpcodeMemorySize op _) eqn:E2; [apply Hplain, validate_memory_size_grow_sound; [done..|unfold between, OpcodeMemorySize, OpcodeMemoryGrow in E2; lia]|].
  destruct (between OpcodeI32Const op _) eqn:E3; [by apply Hplain, validate_const_sound|].
  destruct (between OpcodeLocalGet op _) eqn:E4; [by apply (variable_goes_on e body panics Henv Hbytes Hlen op pc s f fs I)|].
  by_op op OpcodeBr; [by apply Hbr, validate_br_sound|].
  by_op op OpcodeBrIf; [by apply Hbr, validate_br_if_sound|].
  by_op op OpcodeBrTable; [by apply Hbr, validate_br_table_sound|].
  by_op op OpcodeThrow; [by apply Hbr, validate_throw_sound|].
  by_op op OpcodeThrowRef; [by apply Hbr, validate_throw_ref_sound|].
  by_op op OpcodeTryTable; [by eapply try_table_goes_on|].
  destruct (one_of op [OpcodeCall; _]) eqn:E5; [members E5; apply Hbasic, validate_call_sound; [done..|tauto]|].
  destruct (one_of op [OpcodeCallIndirect; _]) eqn:E6; [members E6; apply Hbasic, validate_call_indirect_sound; [done..|tauto]|].
  destruct (one_of op [OpcodeCallRef; _]) eqn:E7; [members E7; apply Hbasic, validate_call_ref_sound; [done..|tauto]|].
  destruct (between OpcodeI32Eqz op _); [by apply Hplain, validate_numeric_sound|].
  destruct (between OpcodeRefNull op _) eqn:E8; [by apply Hplain, validate_ref_sound|].
  by_op op OpcodeRefAsNonNull; [by apply Hplain, validate_ref_as_non_null_sound|].
  by_op op OpcodeBrOnNull; [by apply Hbr, validate_br_on_null_sound|].
  by_op op OpcodeBrOnNonNull; [by apply Hbr, validate_br_on_non_null_sound|].
  by_op op OpcodeRefEq; [by apply Hplain, validate_ref_eq_sound|].
  destruct (one_of op [OpcodeTableGet; _]) eqn:E9; [members E9; apply Hplain, validate_table_get_set_sound; [done..|tauto]|].
  by_op op OpcodeMiscPrefix; [by apply Hplain, validate_misc_sound|].
  by_op op OpcodeVecPrefix; [by apply Hplain, validate_vec_sound|].
  by_op op OpcodeBlock; [apply (block_goes_on e body panics Henv Hbytes Hlen OpcodeBlock pc s f fs I); tauto|].
  by_op op OpcodeGCPrefix; [by apply Hbr, validate_gc_sound|].
  by_op op OpcodeAtomicPrefix; [by apply Hplain, validate_atomic_sound|].
  by_op op OpcodeLoop; [apply (block_goes_on e body panics Henv Hbytes Hlen OpcodeLoop pc s f fs I); tauto|].
  by_op op OpcodeIf; [apply (block_goes_on e body panics Henv Hbytes Hlen OpcodeIf pc s f fs I); tauto|].
  by_op op OpcodeElse; [by eapply else_goes_on|].
  by_op op OpcodeEnd; [by eapply end_goes_on|].
  by_op op OpcodeReturn; [by apply Hbr, validate_return_sound|].
  by_op op OpcodeDrop; [by apply Hplain, validate_drop_sound|].
  destruct (one_of op [OpcodeSelect; _]) eqn:E10; [members E10; apply Hplain, validate_select_sound; [done..|tauto]|].
  by_op op OpcodeUnreachable; [by apply Hbr, unreachable_sound|].
  by_op op OpcodeNop; [|exact Logic.I].
  replace (Ok (s, pc + 1) : vres _) with (on_values s (Ok (vs s, pc + 1))) by (cbn; by destruct s).
  apply Hplain, spec_nothing; [lia|by apply P_nop].
Qed.

(** ** The walk *)

Lemma start_running : known_types (functionType e) → running e body 0 (reset (functionType e)) (mkFrame (mkCB 0 0 0 (functionType e) 0 0 ∅) 0 ∅ [] []) [] ∅.
Proof.
  intros Hk. constructor; try done.
  - intros Hb. by apply elem_of_nil in Hb.
  - intros ts Hts. cbn in Hts. subst ts. apply C_empty.
  - constructor; [exact Hk|constructor].
Qed.

Lemma walk_goes_on fuel : ∀ pc s,
  valid_state e body pc s → 0 ≤ pc → (zlen body - pc <= Z.of_nat fuel) →
  wp panics (validate_instructions fuel e body pc s) (λ s', ∃ pc', zlen body ≤ pc' ∧ valid_state e body pc' s').
Proof using Henv Hbody Hidx Hpanics.
  induction fuel as [|fuel IH]; intros pc s Hs Hpc Hf; cbn [validate_instructions].
  - destruct (Z.leb_spec (zlen body) pc); [|lia]. by exists pc.
  - destruct (Z.leb_spec (zlen body) pc); [by exists pc|]. apply (wp_use _ _ _ (goes_on e body pc)).
    + destruct Hs as [(f & fs & I & Hr)|[Hcs _]]; [by eapply instruction_goes_on|].
      unfold validate_instruction. apply wp_bind, wp_byte; [done|]. intros op _. by rewrite Hcs.
    + intros [s' p] [Hp Hs']. cbn in Hp, Hs'. apply IH; [done|lia|lia].
Qed.

Lemma validation_goes_on maxStackValues :
  wp panics (validateFunctionWithMaxStackValues e maxStackValues body) (λ _, well_typed true e body).
Proof using Henv Hbody Hidx Hpanics.
  unfold validateFunctionWithMaxStackValues. eapply wp_use.
  - apply walk_goes_on; [left; do 3 eexists; apply start_running; split; apply Henv|lia|unfold zlen; lia].
  - intros s (pc & Hpc & Hs). destruct (cs s) as [|b rest] eqn:Ecs; [|exact Logic.I]. destruct (_ <? _); [exact Logic.I|]. cbn.
    destruct Hs as [(f & fs & I & Hr)|[_ (pe & I & Hc & Hb & ->)]]; [by rewrite (r_cs _ _ _ _ _ _ _ Hr) in Ecs|].
    exists pe, I. split_and!; [done..|]. pose proof (byte_bound _ _ _ Hb). lia.
Qed.
End safety.

(** * The properties *)

(** C4. An accepted body is well typed: under the typing rules, the code of the body takes
    nothing and leaves the results of the function, and its last [end] is the end of the
    body. *)
Theorem validation_sound e body :
  valid_env e → body_ok body → validateFunction e body = Ok tt → well_typed true e body.
Proof.
  intros He Hb H. pose proof (validation_goes_on e body True He Hb (or_intror Logic.I) (λ _, Logic.I) maximumValuesOnStack) as Hw.
  unfold validateFunction in H. by rewrite H in Hw.
Qed.

(** C17. The validation of a body ends, in any decoded module: the walk moves forward at
    every instruction, so the length of the body is fuel enough.  And it never panics,
    without exception handling, where the code reads the kind of a catch clause unchecked,
    in a module whose functions and tags have types in range and whose element segments
    declare functions in range, which the code checks one function at a time and only after the
    bodies ([call_of_unchecked_type], [ref_func_of_unchecked_index]). *)
Theorem validation_total e body :
  valid_env e → body_ok body →
  validateFunction e body ≠ NoFuel ∧
  (indices_ok e → IsEnabled (enabledFeatures e) CoreFeatureExceptionHandling = false → validateFunction e body ≠ Panic).
Proof.
  intros He Hb. split.
  - pose proof (validation_goes_on e body True He Hb (or_intror Logic.I) (λ _, Logic.I) maximumValuesOnStack) as Hw.
    unfold validateFunction. by destruct (validateFunctionWithMaxStackValues _ _ _).
  - intros Hi Hoff.
    pose proof (validation_goes_on e body False He Hb (or_introl Hi) ltac:(by rewrite Hoff) maximumValuesOnStack) as Hw.
    unfold validateFunction. by destruct (validateFunctionWithMaxStackValues _ _ _).
Qed.

(** C36. The operands and results the validator has for every opcode, written by the names
    of the opcodes, are the ones of the specification's tables, by their numbers: numeric
    and sign extension instructions, saturating truncations, loads and stores, atomics, and
    vector instructions with the alignments and lane bounds of their immediates; an opcode
    is in one exactly if it is in the other. *)
Theorem opcode_tables_agree op :
  is_byte op →
  numeric_case op = shapes spec_numeric op ∧
  sign_extension op = shapes spec_sign_extension op ∧
  (op < 8 → shapes spec_trunc_sat op = Some ([(trunc_sat op).1], [(trunc_sat op).2])) ∧
  (∀ is64, memory_case op (memory_index_type is64) = access_types op (memory_index_type is64)) ∧
  (∀ is64, drop_exact (atomic_case op (memory_index_type is64)) = atomic_types op (memory_index_type is64)) ∧
  (∀ v, 0 ≤ v → vec_case v = vec_types v).
Proof.
  intros Hop. split_and!.
  - by apply same_types_eq, numeric_table.
  - by apply same_types_eq, sign_extension_table.
  - intros H8. symmetry. apply same_types_eq, trunc_sat_table. unfold is_byte in Hop. lia.
  - intros is64. by apply same_access_eq, memory_table.
  - intros is64. by apply same_access_eq, atomic_table.
  - intros v Hv. by apply same_vec_eq, vec_table.
Qed.

(** * Bodies *)

Definition func_type (params results : list Z) : TypeDef := mkDef params results CompositeKindFunc [] false 0 false 0 0 0.
Definition struct_type : TypeDef := mkDef [] [] CompositeKindStruct [] false 0 false 0 0 0.

(** A module of functions and types, with a memory, and the function under validation. *)
Definition body_env (features : Z) (ts : list TypeDef) (ft : TypeDef) (locals : list Z) : env :=
  mkEnv ts [0] [] [false] [] [] [0] None 0 [] features ft locals.

Definition all_features : Z := 2 ^ 32 - 1.

Lemma body_env_ok features ts ft locals :
  forallb (λ d, negb (bool_decide (bot ∈ Params d)) && negb (bool_decide (bot ∈ Results d)) && bool_decide (td_fields d = []) &&
                negb (bool_decide (td_kind d = CompositeKindArray))) (ft :: ts) = true →
  bot ∉ locals → valid_env (body_env features ts ft locals).
Proof.
  intros Hts Hl. rewrite forallb_forall in Hts.
  assert (∀ d, List.In d (ft :: ts) → (bot ∉ Params d) ∧ (bot ∉ Results d) ∧ td_fields d = [] ∧ td_kind d ≠ CompositeKindArray) as H.
  { intros d Hd. specialize (Hts d Hd). rewrite !andb_true_iff, !negb_true_iff, !bool_decide_eq_false, bool_decide_eq_true in Hts. tauto. }
  constructor; cbn; try (repeat constructor; done).
  - apply list.Forall_forall. intros d Hd%list_elem_of_In. destruct (H d ltac:(by right)) as (? & ? & -> & _). split_and!; [done..|apply not_elem_of_nil].
  - apply list.Forall_forall. intros d Hd%list_elem_of_In. destruct (H d ltac:(by right)) as (_ & _ & _ & ?). done.
  - apply (H ft ltac:(by left)).
  - apply (H ft ltac:(by left)).
Qed.

Lemma body_env_indices features ts ft locals : ts ≠ [] → indices_ok (body_env features ts ft locals).
Proof.
  intros Hne. constructor; cbn; repeat constructor; destruct ts; try done; rewrite zlen_cons; pose proof (zlen_nonneg ts); lia.
Qed.

(** A loop with a branch, an [if] and a [br_table]. *)
Definition sample_body : list Z :=
  [0x02; 0x7f; 0x03; 0x40; 0x20; 0; 0x20; 1; 0x48; 0x0d; 0; 0x0b; 0x20; 0; 0x20; 1; 0x0e; 1; 0; 0; 0x0b; 0x04; 0x7f; 0x41; 1; 0x05; 0x00; 0x0b; 0x0b].
Definition sample_env : env := body_env 0 [func_type [I32; I32] [I32]] (func_type [I32; I32] [I32]) [].

Lemma sample_env_ok : valid_env sample_env.
Proof. apply body_env_ok; [by vm_compute|by intros ?%elem_of_nil]. Qed.

Lemma sample_body_ok : body_ok sample_body.
Proof. constructor; [|done|done]. apply bytes_ok. by vm_compute. Qed.

Lemma validation_sound_witness : validateFunction sample_env sample_body = Ok tt ∧ well_typed true sample_env sample_body.
Proof. split; [by vm_compute|]. apply (validation_sound sample_env sample_body sample_env_ok sample_body_ok). by vm_compute. Defined.

Lemma validation_total_witness : validateFunction sample_env sample_body ≠ NoFuel ∧ validateFunction sample_env sample_body ≠ Panic.
Proof.
  pose proof (validation_total sample_env sample_body sample_env_ok sample_body_ok) as [H1 H2]. split; [exact H1|]. apply H2; [by apply body_env_indices|by vm_compute].
Defined.

Lemma opcode_tables_agree_witness : numeric_case 0x6a = Some ([I32; I32], [I32]).
Proof. destruct (opcode_tables_agree 0x6a ltac:(unfold is_byte; lia)) as [H _]. rewrite H. reflexivity. Defined.

(** * What the validator accepts and the specification does not *)

(** [call_ref] calls the type of a structure, as a function that takes and leaves
    nothing. *)
Lemma struct_called :
  let e := body_env all_features [func_type [] []; struct_type] (func_type [] []) [] in
  td_kind struct_type = CompositeKindStruct ∧ validateFunction e [0xfb; 0x01; 0x01; 0x14; 0x01; 0x0b] = Ok tt.
Proof. by vm_compute. Qed.

(** A [br_table] whose default label takes a [funcref] branches to a label that takes a
    [nullfuncref] (0x73): any function reference becomes one. *)
Lemma br_table_narrows :
  let e := body_env all_features [func_type [] []] (func_type [ValueTypeFuncref] [ValueTypeFuncref]) [] in
  validateFunction e [0x02; 0x73; 0x20; 0x00; 0x41; 0x00; 0x0e; 0x01; 0x00; 0x01; 0x0b; 0x0b] = Ok tt ∧
  isRefSubtypeOf (types e) ValueTypeFuncref 0x73 = false.
Proof. by vm_compute. Qed.

(** The annotation of [select] does not have to be the type of the operands. *)
Lemma select_annotation_ignored :
  validateFunction (body_env all_features [func_type [] []] (func_type [] [I32]) []) [0x41; 1; 0x41; 2; 0x41; 3; 0x1c; 1; 0x7e; 0x0b] = Ok tt.
Proof. by vm_compute. Qed.

(** An atomic load of four bytes at an alignment of one. *)
Lemma atomic_unaligned :
  validateFunction (body_env all_features [func_type [] []] (func_type [] [I32]) []) [0x41; 0; 0xfe; 0x10; 0x00; 0x00; 0x0b] = Ok tt.
Proof. by vm_compute. Qed.

(** ** And what it does with well-formed bodies *)

(** A count of catch clauses that the body does not hold: the validator reads past it. *)
Lemma catch_past_body :
  let e := body_env all_features [func_type [] []] (func_type [] []) [] in
  validateFunction e [0x02; 0x40; 0x02; 0x40; 0x02; 0x40; 0x02; 0x40; 0x02; 0x40; 0x02; 0x40; 0x02; 0x40; 0x02; 0x40; 0x02; 0x40; 0x02; 0x40; 0x02; 0x40;
    0x1f; 0x40; 0x02; 0x02; 0x0b] = Panic.
Proof. by vm_compute. Qed.

(** A call of a function whose type index, 99, is out of range, in a module whose later
    functions have not been looked at: the validator panics, without exception handling. *)
Definition unchecked_env : env := mkEnv [func_type [] []] [0; 99] [] [false] [] [] [0; 1000] None 0 [] 0 (func_type [] []) [].

Lemma call_of_unchecked_type :
  IsEnabled (enabledFeatures unchecked_env) CoreFeatureExceptionHandling = false ∧
  validateFunction unchecked_env [0x10; 0x01; 0x0b] = Panic.
Proof. by vm_compute. Qed.

(** A [ref.func] of the index 1000 that an element segment declares and no function has:
    with typed function references the validator panics; without them it takes the index
    for a function reference. *)
Lemma ref_func_of_unchecked_index :
  let e features := mkEnv [func_type [] []] [0] [] [false] [] [] [0; 1000] None 0 [] features (func_type [] []) [] in
  let body := [0xd2; 0xe8; 0x07; 0x1a; 0x0b] in
  validateFunction (e (Z.lor CoreFeatureReferenceTypes CoreFeatureTypedFunctionReferences)) body = Panic ∧
  validateFunction (e CoreFeatureReferenceTypes) body = Ok tt.
Proof. by vm_compute. Qed.

(** A local of a type without a default that is set before a [try_table] counts as unset
    after it; after a [block] it does not. *)
Lemma try_table_forgets :
  let e := body_env all_features [func_type [] []] (func_type [] []) [ValueTypeConcreteRef 0 false] in
  validateFunction e [0xd2; 0; 0x21; 0; 0x02; 0x40; 0x0b; 0x20; 0; 0x1a; 0x0b] = Ok tt ∧
  validateFunction e [0xd2; 0; 0x21; 0; 0x1f; 0x40; 0x00; 0x0b; 0x20; 0; 0x1a; 0x0b] = Err (VUninitialized 0).
Proof. by vm_compute. Qed.
