(* ===== verification/CallRows.v ===== *)
(** Slices of the call-graph analyses of [internal/wasm], and the compressed rows
    their [solve] functions build: the edges of a graph as one slice of values
    grouped by key, with the position each group starts at.

    A slice is a list read and written with the bounds checks of Go.  The rows of
    [may_throw.go] and [call_effects.go] are built by the same code, keyed by the
    callee; those of [entry_check.go] are keyed by the caller.  Both are instances
    of [fill_pairs], whose specification [rows_spec] the analyses share. *)
From Stdlib Require Import ZArith Lia.
From stdpp Require Import base list numbers option tactics relations.
From S2P Require Import Prelude.
Local Open Scope Z_scope.
Local Open Scope go_scope.

(** * Slices *)

(** [l[i]], [l[i] = x], [l[i]++] of a uint32, and [l[a:b]], which panic out of range. *)
Definition aget {A} (l : list A) (i : Z) : outcome unit A :=
  if i <? 0 then Panic else match l !! Z.to_nat i with Some x => Ok x | None => Panic end.

Definition aset {A} (l : list A) (i : Z) (x : A) : outcome unit (list A) :=
  if (i <? 0) || (zlen l <=? i) then Panic else Ok (<[Z.to_nat i := x]> l).

Definition bump (l : list Z) (i : Z) : outcome unit (list Z) :=
  let* x := aget l i in aset l i (u32 (x + 1)).

Definition aslice {A} (l : list A) (a b : Z) : outcome unit (list A) :=
  if (0 <=? a) && (a <=? b) && (b <=? zlen l) then Ok (take (Z.to_nat (b - a)) (drop (Z.to_nat a) l)) else Panic.

(** * The loops that build rows *)

(** [for i := 1; i < len(edges); i += 2 { start[edges[i]+1]++ }]. *)
Fixpoint count_callees (edges start : list Z) : outcome unit (list Z) :=
  match edges with
  | _ :: callee :: edges => let* start := bump start (u32 (callee + 1)) in count_callees edges start
  | _ => Ok start
  end.

(** [for i := 0; i < n; i++ { start[i+1] += start[i] }], from [i], [k] rounds. *)
Fixpoint accumulate (k : nat) (i : Z) (start : list Z) : outcome unit (list Z) :=
  match k with
  | O => Ok start
  | S k =>
      let* a := aget start i in
      let* b := aget start (i + 1) in
      let* start := aset start (i + 1) (u32 (b + a)) in
      accumulate k (i + 1) start
  end.

(** The loop that puts each caller in the row of its callee. *)
Fixpoint fill_callers (edges fill callers : list Z) : outcome unit (list Z) :=
  match edges with
  | caller :: callee :: edges =>
      let* p := aget fill callee in
      let* callers := aset callers p caller in
      let* fill := bump fill callee in
      fill_callers edges fill callers
  | [] => Ok callers
  | [_] => Panic
  end.

(** The callers of each of [n] functions: where each one's row starts, and the rows. *)
Definition callers_rows (n : nat) (edges : list Z) : outcome unit (list Z * list Z) :=
  let* start := count_callees edges (replicate (S n) 0) in
  let* start := accumulate n 0 start in
  let* callers := fill_callers edges (take n start) (replicate (Nat.div2 (length edges)) 0) in
  Ok (start, callers).

(** The caller/callee pairs of a slice of edges. *)
Fixpoint pairs (l : list Z) : list (Z * Z) :=
  match l with a :: b :: l => (a, b) :: pairs l | _ => [] end.

(** The same loops over pairs of a key and a value. *)
Fixpoint count_keys (ps : list (Z * Z)) (start : list Z) : outcome unit (list Z) :=
  match ps with
  | (k, _) :: ps => let* start := bump start (u32 (k + 1)) in count_keys ps start
  | [] => Ok start
  end.

Fixpoint fill_pairs (ps : list (Z * Z)) (fill rows : list Z) : outcome unit (list Z * list Z) :=
  match ps with
  | (k, x) :: ps =>
      let* p := aget fill k in
      let* rows := aset rows p x in
      let* fill := bump fill k in
      fill_pairs ps fill rows
  | [] => Ok (fill, rows)
  end.

(** * Arrays as functions *)

Lemma aget_lookup {A} (l : list A) i x : 0 ≤ i → l !! Z.to_nat i = Some x → aget l i = Ok x.
Proof. intros Hi H. unfold aget. destruct (Z.ltb_spec i 0); [lia|]. by rewrite H. Qed.

Lemma aget_Ok {A} (l : list A) i x : aget l i = Ok x → 0 ≤ i < zlen l ∧ l !! Z.to_nat i = Some x.
Proof.
  unfold aget. destruct (Z.ltb_spec i 0); [done|]. destruct (l !! Z.to_nat i) eqn:E; [|done]. intros [= ->].
  split; [|done]. apply lookup_lt_Some in E. unfold zlen. lia.
Qed.

Lemma aset_in {A} (l : list A) i x : 0 ≤ i < zlen l → aset l i x = Ok (<[Z.to_nat i := x]> l).
Proof. intros H. unfold aset. destruct (Z.ltb_spec i 0), (Z.leb_spec (zlen l) i); try lia. done. Qed.

(** The slice [l] holds the values of [f] at the indices below [n]. *)
Definition rep {A} (n : Z) (l : list A) (f : Z → A) : Prop :=
  zlen l = n ∧ ∀ i, 0 ≤ i < n → l !! Z.to_nat i = Some (f i).

Section rep.
Context {A : Type}.
Implicit Types (l : list A) (f g : Z → A).

Lemma rep_len n l f : rep n l f → zlen l = n.
Proof. by intros [? _]. Qed.

Lemma rep_get n l f i : rep n l f → 0 ≤ i < n → aget l i = Ok (f i).
Proof. intros [_ H] Hi. apply aget_lookup; [lia|auto]. Qed.

Lemma rep_inv n l f i x : rep n l f → l !! Z.to_nat i = Some x → 0 ≤ i → x = f i ∧ i < n.
Proof.
  intros [Hl H] E Hi. pose proof (lookup_lt_Some _ _ _ E) as Hlt. assert (i < n) by (unfold zlen in Hl; lia).
  rewrite H in E by lia. by injection E.
Qed.

Lemma rep_set n l f i x : rep n l f → 0 ≤ i < n → ∃ l', aset l i x = Ok l' ∧ rep n l' (λ j, if j =? i then x else f j).
Proof.
  intros [Hl H] Hi. exists (<[Z.to_nat i := x]> l). split; [apply aset_in; lia|]. split.
  - unfold zlen in *. by rewrite length_insert.
  - intros j Hj. destruct (Z.eqb_spec j i) as [->|].
    + apply list_lookup_insert_eq. unfold zlen in Hl. lia.
    + rewrite list_lookup_insert_ne by lia. auto.
Qed.

Lemma rep_ext n l f g : rep n l f → (∀ i, 0 ≤ i < n → f i = g i) → rep n l g.
Proof. intros [Hl H] E. split; [done|]. intros i Hi. rewrite H by done. by rewrite E. Qed.

Lemma rep_replicate n (x : A) : rep (Z.of_nat n) (replicate n x) (λ _, x).
Proof. split; [unfold zlen; by rewrite length_replicate|]. intros i Hi. apply lookup_replicate_2. lia. Qed.

Lemma rep_take n m l f : rep n l f → 0 ≤ m ≤ n → rep m (take (Z.to_nat m) l) f.
Proof.
  intros [Hl H] Hm. split; [unfold zlen in *; rewrite length_take; lia|]. intros i Hi. rewrite lookup_take by lia.
  rewrite decide_True by lia. apply H. lia.
Qed.

Lemma rep_lookup l (d : A) : rep (zlen l) l (λ i, default d (l !! Z.to_nat i)).
Proof.
  split; [done|]. intros i Hi. destruct (l !! Z.to_nat i) eqn:E; [done|]. apply lookup_ge_None in E. unfold zlen in Hi. lia.
Qed.
End rep.

Lemma rep_bump n l f i : rep n l f → 0 ≤ i < n → 0 ≤ f i + 1 < 2 ^ 32 →
  ∃ l', bump l i = Ok l' ∧ rep n l' (λ j, if j =? i then f i + 1 else f j).
Proof.
  intros Hr Hi Hb. unfold bump. rewrite (rep_get n l f i) by done. cbn [obind]. rewrite wrap_small by done. by apply rep_set.
Qed.

Lemma aslice_in {A} (l : list A) a b : 0 ≤ a ≤ b → b ≤ zlen l → aslice l a b = Ok (take (Z.to_nat (b - a)) (drop (Z.to_nat a) l)).
Proof. intros. unfold aslice. destruct (Z.leb_spec 0 a), (Z.leb_spec a b), (Z.leb_spec b (zlen l)); try lia. done. Qed.

(** * The specification of rows *)

(** The values of key [k], how many there are, and how many values have a smaller key. *)
Definition row (ps : list (Z * Z)) (k : Z) : list Z := (filter (λ p, p.1 = k) ps).*2.
Definition cnt (ps : list (Z * Z)) (k : Z) : Z := zlen (row ps k).
Definition below (ps : list (Z * Z)) (k : Z) : Z := zlen (filter (λ p, p.1 < k) ps).

Definition keys_below (n : Z) (ps : list (Z * Z)) : Prop := Forall (λ p, 0 ≤ p.1 < n) ps.

Lemma row_nil k : row [] k = [].
Proof. done. Qed.

Lemma row_cons k x ps j : row ((k, x) :: ps) j = if k =? j then x :: row ps j else row ps j.
Proof. unfold row. rewrite filter_cons. cbn. destruct (Z.eqb_spec k j); case_decide; try congruence; done. Qed.

Lemma row_app ps qs k : row (ps ++ qs) k = row ps k ++ row qs k.
Proof. unfold row. by rewrite list.filter_app, fmap_app. Qed.

Lemma elem_of_row ps k x : x ∈ row ps k ↔ (k, x) ∈ ps.
Proof.
  unfold row. rewrite list_elem_of_fmap. split.
  - intros ([k' x'] & -> & [Hk H]%list_elem_of_filter). cbn in *. by subst.
  - intros H. exists (k, x). split; [done|]. by apply list_elem_of_filter.
Qed.

Lemma row_cnt_cons k x ps j : cnt ((k, x) :: ps) j = cnt ps j + (if j =? k then 1 else 0).
Proof. unfold cnt. rewrite row_cons, Z.eqb_sym. destruct (j =? k); [rewrite zlen_cons|]; lia. Qed.

Lemma cnt_nil k : cnt [] k = 0.
Proof. done. Qed.

Lemma row_cnt_nonneg ps k : 0 ≤ cnt ps k.
Proof. apply zlen_nonneg. Qed.

Lemma below_succ ps k : below ps (k + 1) = below ps k + cnt ps k.
Proof.
  unfold below, cnt, row. induction ps as [|[j x] ps IH]; [done|]. rewrite !filter_cons. cbn [fst].
  repeat case_decide; rewrite ?fmap_cons, ?zlen_cons; lia.
Qed.

Lemma below_0 n ps : keys_below n ps → below ps 0 = 0.
Proof.
  unfold below. induction 1 as [|[j x] ps Hj _ IH]; [done|]. rewrite filter_cons. cbn in *. case_decide; [lia|done].
Qed.

Lemma below_keys n ps : keys_below n ps → below ps n = zlen ps.
Proof.
  unfold below. induction 1 as [|[j x] ps Hj _ IH]; [done|]. rewrite filter_cons. cbn in *. case_decide; [|lia].
  by rewrite !zlen_cons, IH.
Qed.

Lemma below_mono ps i j : i ≤ j → below ps i ≤ below ps j.
Proof.
  intros Hij. unfold below, zlen. apply Nat2Z.inj_le, submseteq_length. apply sublist_submseteq.
  induction ps as [|[k x] ps IH]; [done|]. rewrite !filter_cons. cbn. repeat case_decide; try lia; [by constructor|by constructor|done].
Qed.

Lemma below_nonneg ps k : 0 ≤ below ps k.
Proof. apply zlen_nonneg. Qed.

Lemma below_le ps k : below ps k ≤ zlen ps.
Proof. unfold below, zlen. pose proof (length_filter (λ p : Z * Z, p.1 < k) ps). lia. Qed.

Lemma cnt_le ps k : cnt ps k ≤ zlen ps.
Proof. pose proof (below_succ ps k). pose proof (below_le ps (k + 1)). pose proof (below_nonneg ps k). lia. Qed.

(** * The loops meet it *)

Lemma count_keys_spec n ps : ∀ start f,
  rep (n + 1) start f → keys_below n ps → n < 2 ^ 32 - 1 →
  (∀ j, 0 ≤ f j ∧ f j + cnt ps (j - 1) < 2 ^ 32) →
  ∃ start', count_keys ps start = Ok start' ∧ rep (n + 1) start' (λ j, f j + cnt ps (j - 1)).
Proof.
  induction ps as [|[k x] ps IH]; intros start f Hr Hk Hn Hb; cbn [count_keys].
  - exists start. split; [done|]. eapply rep_ext; [done|]. intros i Hi. rewrite cnt_nil. lia.
  - apply list.Forall_cons in Hk as [Hk Hks]. cbn in Hk. rewrite wrap_small by lia.
    pose proof (Hb (k + 1)) as Hb1. rewrite row_cnt_cons in Hb1. replace (k + 1 - 1) with k in Hb1 by lia. rewrite Z.eqb_refl in Hb1.
    pose proof (row_cnt_nonneg ps k) as Hc.
    destruct (rep_bump (n + 1) start f (k + 1) Hr) as (s1 & -> & Hr1); [lia|lia|]. cbn [obind].
    destruct (IH s1 _ Hr1) as (s2 & -> & Hr2); [done|done| |].
    + intros j. cbn. specialize (Hb j). rewrite row_cnt_cons in Hb.
      destruct (Z.eqb_spec j (k + 1)) as [->|]; [replace (k + 1 - 1) with k in * by lia; lia|].
      destruct (Z.eqb_spec (j - 1) k); lia.
    + exists s2. split; [done|]. eapply rep_ext; [done|]. intros i Hi. cbn. rewrite row_cnt_cons.
      destruct (Z.eqb_spec i (k + 1)) as [->|]; [replace (k + 1 - 1) with k by lia; rewrite Z.eqb_refl; lia|].
      destruct (Z.eqb_spec (i - 1) k); lia.
Qed.

(** [g] sums [f]: what the loop of prefix sums leaves. *)
Lemma accumulate_spec n k : ∀ i start f g,
  rep (n + 1) start f → 0 ≤ i → i + Z.of_nat k = n →
  (∀ j, 0 ≤ j ≤ i → f j = g j) → (∀ j, i ≤ j < n → g (j + 1) = g j + f (j + 1)) →
  (∀ j, 0 ≤ j ≤ n → 0 ≤ g j < 2 ^ 32) →
  ∃ start', accumulate k i start = Ok start' ∧ rep (n + 1) start' g.
Proof.
  induction k as [|k IH]; intros i start f g Hr Hi Hk Hdone Hstep Hb; cbn [accumulate].
  - exists start. split; [done|]. eapply rep_ext; [done|]. intros j Hj. apply Hdone. lia.
  - rewrite (rep_get _ _ _ i Hr) by lia. cbn [obind]. rewrite (rep_get _ _ _ (i + 1) Hr) by lia. cbn [obind].
    assert (f (i + 1) + f i = g (i + 1)) as E by (rewrite (Hdone i), (Hstep i) by lia; lia).
    rewrite E, wrap_small by (apply Hb; lia).
    destruct (rep_set _ _ _ (i + 1) (g (i + 1)) Hr) as (s1 & -> & Hr1); [lia|]. cbn [obind].
    apply (IH (i + 1) s1 _ g Hr1); [lia|lia| | |done].
    + intros j Hj. destruct (Z.eqb_spec j (i + 1)) as [->|]; [done|]. apply Hdone. lia.
    + intros j Hj. destruct (Z.eqb_spec (j + 1) (i + 1)); [lia|]. apply Hstep. lia.
Qed.

(** While rows are filled: of [done], whose rows start where those of all the pairs
    do, each value is in its place, and [fill] points behind it. *)
Section fill.
Context (n : Z) (all : list (Z * Z)).

Definition placed (done : list (Z * Z)) (rows : list Z) : Prop :=
  zlen rows = zlen all ∧
  ∀ k j x, 0 ≤ k < n → row done k !! j = Some x → rows !! (Z.to_nat (below all k) + j)%nat = Some x.

Definition filled (done : list (Z * Z)) (fill rows : list Z) : Prop :=
  rep n fill (λ k, below all k + cnt done k) ∧ placed done rows.

Lemma filled_step done k x ps fill rows :
  all = done ++ (k, x) :: ps → keys_below n all → zlen all < 2 ^ 32 →
  filled done fill rows →
  ∃ p rows' fill', aget fill k = Ok p ∧ aset rows p x = Ok rows' ∧ bump fill k = Ok fill' ∧ filled (done ++ [(k, x)]) fill' rows'.
Proof.
  intros Eall Hk Hmax (Hf & Hl & Hrow).
  assert (0 ≤ k < n) as Hkn by (unfold keys_below in Hk; rewrite Eall in Hk; apply list.Forall_app in Hk as [_ [? _]%list.Forall_cons]; done).
  assert (∀ j, cnt all j = cnt done j + cnt ((k, x) :: ps) j) as Hc by (intros j; unfold cnt; rewrite Eall, row_app, zlen_app; done).
  assert (below all k + cnt done k + 1 ≤ below all (k + 1)) as Hpos.
  { rewrite below_succ, Hc, row_cnt_cons, Z.eqb_refl. pose proof (row_cnt_nonneg ps k). lia. }
  pose proof (below_le all (k + 1)). pose proof (below_nonneg all k) as Hb0.
  pose proof (row_cnt_nonneg done k) as Hc0.
  exists (below all k + cnt done k), (<[Z.to_nat (below all k + cnt done k) := x]> rows).
  destruct (rep_bump n fill _ k Hf Hkn) as (fill' & Eb & Hf'); [lia|].
  exists fill'. split; [by apply (rep_get _ _ _ k Hf)|]. split; [apply aset_in; lia|]. split; [done|].
  assert (∀ j, cnt (done ++ [(k, x)]) j = cnt done j + (if j =? k then 1 else 0)) as Hsn.
  { intros j. unfold cnt. rewrite row_app, row_cons, zlen_app, Z.eqb_sym. by destruct (j =? k). }
  split; [|split].
  - eapply rep_ext; [done|]. intros i Hi. cbn. rewrite Hsn. destruct (Z.eqb_spec i k) as [->|]; lia.
  - unfold zlen in *. by rewrite length_insert.
  - intros j i y Hj Hy. rewrite row_app, row_cons, row_nil in Hy.
    assert (∀ m, below all j ≤ m < below all (j + 1) → j ≠ k → m ≠ below all k + cnt done k) as Hne.
    { intros m Hm Hjk. destruct (Z.lt_total j k) as [?|[?|?]]; [|done|].
      - pose proof (below_mono all (j + 1) k ltac:(lia)). lia.
      - pose proof (below_mono all (k + 1) j ltac:(lia)). lia. }
    pose proof (below_nonneg all j) as Hbj.
    destruct (Z.eqb_spec k j) as [->|Hkj].
    + apply lookup_snoc_Some in Hy as [[Hi Hy]|[Hi <-]].
      * rewrite list_lookup_insert_ne by (unfold cnt, zlen; lia). by apply Hrow.
      * replace (Z.to_nat (below all j) + i)%nat with (Z.to_nat (below all j + cnt done j)) by (unfold cnt, zlen; lia).
        apply list_lookup_insert_eq. unfold zlen in *. lia.
    + rewrite app_nil_r in Hy. pose proof (lookup_lt_Some _ _ _ Hy) as Hi.
      rewrite list_lookup_insert_ne; [by apply Hrow|].
      specialize (Hne (below all j + Z.of_nat i)). rewrite below_succ, Hc in Hne.
      pose proof (row_cnt_nonneg ((k, x) :: ps) j). unfold cnt at 1, zlen at 1 in Hne. lia.
Qed.

Lemma fill_pairs_spec ps : ∀ done fill rows,
  (∃ after, all = done ++ ps ++ after) → keys_below n all → zlen all < 2 ^ 32 → filled done fill rows →
  ∃ fill' rows', fill_pairs ps fill rows = Ok (fill', rows') ∧ filled (done ++ ps) fill' rows'.
Proof.
  induction ps as [|[k x] ps IH]; intros done fill rows [after E] Hk Hmax Hf; cbn [fill_pairs].
  - exists fill, rows. split; [done|]. by rewrite app_nil_r.
  - destruct (filled_step _ _ _ _ _ _ E Hk Hmax Hf) as (p & rows' & fill' & -> & E1 & E2 & Hf'). cbn [obind]. rewrite E1. cbn [obind]. rewrite E2. cbn [obind].
    destruct (IH (done ++ [(k, x)]) fill' rows') as (f2 & r2 & E3 & Hf2); [exists after; by rewrite <- app_assoc|done|done|done|].
    exists f2, r2. split; [done|]. by rewrite <- app_assoc in Hf2.
Qed.

Lemma filled_init start :
  rep (n + 1) start (below all) → 0 ≤ n → filled [] (take (Z.to_nat n) start) (replicate (length all) 0).
Proof.
  intros Hr Hn. split; [|split].
  - eapply rep_ext; [eapply rep_take; [exact Hr|lia]|]. intros i Hi. rewrite cnt_nil. lia.
  - unfold zlen. by rewrite length_replicate.
  - intros k j x _ H. by rewrite row_nil in H.
Qed.

(** A full slice of rows gives each key its values. *)
Lemma placed_rows rows k :
  placed all rows → 0 ≤ k < n → aslice rows (below all k) (below all (k + 1)) = Ok (row all k).
Proof.
  intros (Hl & Hrow) Hk. pose proof (below_succ all k) as Es. pose proof (row_cnt_nonneg all k).
  pose proof (below_nonneg all k) as Hb.
  pose proof (below_le all (k + 1)).
  rewrite aslice_in by lia. f_equal. rewrite Es. replace (below all k + cnt all k - below all k) with (cnt all k) by lia.
  apply list_eq; intros j. destruct (row all k !! j) as [x|] eqn:E.
  - rewrite lookup_take_lt by (apply lookup_lt_Some in E; unfold cnt, zlen; lia). rewrite lookup_drop. by apply Hrow.
  - apply lookup_ge_None in E. apply lookup_take_ge. unfold cnt, zlen. lia.
Qed.
End fill.

(** What the three loops build of the pairs [ps] with keys below [n]. *)
Record rows_spec (n : Z) (ps : list (Z * Z)) (start rows : list Z) : Prop := {
  rs_start : rep (n + 1) start (below ps);
  rs_len : zlen rows = zlen ps;
  rs_row : ∀ k, 0 ≤ k < n → aslice rows (below ps k) (below ps (k + 1)) = Ok (row ps k);
}.

Lemma prefix_sums n ps start :
  rep (Z.of_nat n + 1) start (λ j, 0 + cnt ps (j - 1)) → keys_below (Z.of_nat n) ps → zlen ps < 2 ^ 32 →
  ∃ start', accumulate n 0 start = Ok start' ∧ rep (Z.of_nat n + 1) start' (below ps).
Proof.
  intros Hr Hk Hmax. apply (accumulate_spec (Z.of_nat n) n 0 start (λ j, 0 + cnt ps (j - 1)) (below ps) Hr); [lia|lia| | |].
  - intros j Hj. replace j with 0 by lia. pose proof (below_succ ps (-1)) as E. change (-1 + 1) with 0 in E.
    rewrite (below_0 _ _ Hk) in *. pose proof (row_cnt_nonneg ps (-1)). pose proof (below_nonneg ps (-1)). cbv beta. change (0 - 1) with (-1). lia.
  - intros j Hj. cbv beta. rewrite below_succ. replace (j + 1 - 1) with j by lia. lia.
  - intros j Hj. pose proof (below_le ps j). pose proof (below_nonneg ps j) as Hb. lia.
Qed.

(** A row is read back at the positions [start] gives. *)
Lemma rows_get n ps start rows k :
  rows_spec n ps start rows → 0 ≤ k < n →
  (let* a := aget start k in let* b := aget start (k + 1) in aslice rows a b) = Ok (row ps k).
Proof.
  intros [Hs _ Hr] Hk. rewrite (rep_get _ _ _ k Hs) by lia. cbn [obind]. rewrite (rep_get _ _ _ (k + 1) Hs) by lia. cbn [obind]. auto.
Qed.

(** * The rows of callers *)

(** The callers keyed by their callee. *)
Definition by_callee (edges : list Z) : list (Z * Z) := (λ p, (p.2, p.1)) <$> pairs edges.

Definition edges_ok (n : Z) (edges : list Z) : Prop :=
  Nat.Even (length edges) ∧ Forall (λ x, 0 ≤ x < n) edges ∧ zlen edges < 2 ^ 33.

Lemma even_ind (P : list Z → Prop) :
  P [] → (∀ a b l, P l → P (a :: b :: l)) → ∀ l, Nat.Even (length l) → P l.
Proof.
  intros H0 HS l. remember (length l) as k eqn:Ek. revert l Ek. induction k as [k IH] using lt_wf_ind. intros l Ek Hev.
  destruct l as [|a [|b l]]; [done| |].
  - cbn in Ek. subst. destruct Hev as [m Hm]. lia.
  - cbn in Ek. apply HS, (IH (length l)); [lia|done|]. destruct Hev as [m Hm]. exists (m - 1)%nat. lia.
Qed.

Lemma by_callee_length edges : Nat.Even (length edges) → length (by_callee edges) = Nat.div2 (length edges).
Proof. apply (even_ind (λ e, length (by_callee e) = Nat.div2 (length e))); [done|]. intros a b l IH. change (by_callee (a :: b :: l)) with ((b, a) :: by_callee l). cbn [length Nat.div2]. by rewrite IH. Qed.

Lemma pairs_app l a b : Nat.Even (length l) → pairs (l ++ [a; b]) = pairs l ++ [(a, b)].
Proof. intros H. apply (even_ind (λ e, pairs (e ++ [a; b]) = pairs e ++ [(a, b)])); [done| |done]. intros x y l' IH. cbn. by rewrite IH. Qed.

Lemma pairs_range n edges p : Forall (λ x, 0 ≤ x < n) edges → p ∈ pairs edges → 0 ≤ p.1 < n ∧ 0 ≤ p.2 < n.
Proof.
  intros H. remember (length edges) as k eqn:Ek. revert edges Ek H. induction k as [k IH] using lt_wf_ind. intros [|a [|b l]] Ek H Hp; cbn in Hp; [by apply not_elem_of_nil in Hp..|].
  apply list.Forall_cons in H as [Ha [Hb H]%list.Forall_cons]. apply elem_of_cons in Hp as [->|Hp]; [done|]. eapply (IH (length l)); [cbn in Ek; lia|done|done|done].
Qed.

Lemma by_callee_keys n edges : Forall (λ x, 0 ≤ x < n) edges → keys_below n (by_callee edges).
Proof.
  intros H. apply list.Forall_forall. intros p (q & -> & Hq)%list_elem_of_fmap. cbn. by apply (pairs_range n edges).
Qed.

Lemma count_callees_keys edges : Nat.Even (length edges) → ∀ start, count_callees edges start = count_keys (by_callee edges) start.
Proof.
  apply (even_ind (λ e, ∀ start, count_callees e start = count_keys (by_callee e) start)); [done|].
  intros a b l IH start. change (by_callee (a :: b :: l)) with ((b, a) :: by_callee l). cbn [count_callees count_keys]. destruct (bump start (u32 (b + 1))); cbn; [apply IH|done..].
Qed.

Lemma fill_callers_pairs edges : Nat.Even (length edges) → ∀ fill rows,
  fill_callers edges fill rows = (let* r := fill_pairs (by_callee edges) fill rows in Ok r.2).
Proof.
  apply (even_ind (λ e, ∀ fill rows, fill_callers e fill rows = (let* r := fill_pairs (by_callee e) fill rows in Ok r.2))); [done|].
  intros a b l IH fill rows. change (by_callee (a :: b :: l)) with ((b, a) :: by_callee l). cbn [fill_callers fill_pairs]. destruct (aget fill b) as [p| | |]; cbn; [|done..].
  destruct (aset rows p a) as [rows'| | |]; cbn; [|done..]. destruct (bump fill b) as [fill'| | |]; cbn; [apply IH|done..].
Qed.

Lemma callers_rows_spec n edges :
  edges_ok (Z.of_nat n) edges → Z.of_nat n < 2 ^ 32 - 1 →
  ∃ start rows, callers_rows n edges = Ok (start, rows) ∧ rows_spec (Z.of_nat n) (by_callee edges) start rows.
Proof.
  intros (Hev & Hr & Hmax) Hn. unfold callers_rows. rewrite count_callees_keys by done.
  pose proof (by_callee_keys _ _ Hr) as Hk. pose proof (by_callee_length _ Hev) as Hlen.
  assert (zlen (by_callee edges) < 2 ^ 32) as Hm.
  { unfold zlen in *. rewrite Hlen. destruct Hev as [m Hm]. rewrite Hm in Hmax |- *. rewrite Nat.div2_double. lia. }
  pose proof (rep_replicate (S n) 0) as Hr0. replace (Z.of_nat (S n)) with (Z.of_nat n + 1) in Hr0 by lia.
  destruct (count_keys_spec _ _ _ _ Hr0 Hk Hn) as (s1 & -> & Hs1).
  { intros j. pose proof (cnt_le (by_callee edges) (j - 1)). pose proof (row_cnt_nonneg (by_callee edges) (j - 1)). lia. }
  cbn [obind]. destruct (prefix_sums _ _ _ Hs1 Hk Hm) as (s2 & -> & Hs2). cbn [obind].
  rewrite fill_callers_pairs by done. rewrite <- Hlen.
  pose proof (filled_init _ _ _ Hs2 ltac:(lia)) as Hf. rewrite Nat2Z.id in Hf.
  destruct (fill_pairs_spec (Z.of_nat n) (by_callee edges) (by_callee edges) [] _ _ ltac:(exists []; by rewrite app_nil_r) Hk Hm Hf) as (fill' & rows' & -> & Hfull).
  exists s2, rows'. split; [done|]. split; [done|apply Hfull|]. intros k Hkn. by eapply placed_rows; [apply Hfull|].
Qed.

(** * What validation records *)

(** [CallEffects]: a bit for each thing a call may change. *)
Definition CallEffectGrowMemory : Z := 1.
Definition CallEffectSetGlobal : Z := 2.
Definition callEffectsAll : Z := Z.lor CallEffectGrowMemory CallEffectSetGlobal.


(** The local function [idx] throws by itself, or calls a function of the whole
    index space, or has effects by itself. *)
Inductive Event := Throws (idx : Z) | Call (idx callee : Z) | Mark (idx e : Z).

Fixpoint record_all {B} (record : B → Event → outcome unit B) (b : B) (evs : list Event) : outcome unit B :=
  match evs with [] => Ok b | ev :: evs => let* b := record b ev in record_all record b evs end.

(** The events of a module with [imports] imported and [n] local functions. *)
Definition event_ok (imports n : Z) (ev : Event) : Prop :=
  match ev with
  | Throws idx => 0 ≤ idx < n
  | Call idx callee => 0 ≤ idx < n ∧ 0 ≤ callee < imports + n
  | Mark idx e => 0 ≤ idx < n ∧ 0 ≤ e ≤ callEffectsAll
  end.

(** Function [x] of the whole space calls [y]. *)
Definition recorded_call (imports : Z) (evs : list Event) (x y : Z) : Prop :=
  ∃ idx, x = imports + idx ∧ Call idx y ∈ evs.

(** * Least fixpoints *)

Lemma rtc_closed {A} (E : A → A → Prop) (D P seed : A → Prop) :
  (∀ x y, E x y → D y) → (∀ x, D x → seed x → P x) → (∀ x y, E x y → P y → P x) →
  (∀ x, D x → P x → ∃ y, rtc E x y ∧ seed y) → ∀ x, D x → P x ↔ ∃ y, rtc E x y ∧ seed y.
Proof.
  intros HD Hs Hc Hd x Hx. split; [by apply Hd|]. intros (y & Hr & Hy). induction Hr as [x|x y z Hxy _ IH]; [auto|].
  eapply Hc; [exact Hxy|]. apply IH; [by eapply HD|done].
Qed.

(** A sum over a slice, one entry of which is assigned. *)
Lemma sum_insert {A} (f : A → nat) (l : list A) i x y :
  l !! i = Some x → (sum_list_with f (<[i := y]> l) + f x = sum_list_with f l + f y)%nat.
Proof.
  revert i; induction l as [|a l IH]; intros [|i] H; [done..| |]; simpl in *; [injection H as ->; lia|]. specialize (IH i H). lia.
Qed.

Lemma sum_le {A} (f : A → nat) k (l : list A) : Forall (λ x, (f x ≤ k)%nat) l → (sum_list_with f l ≤ k * length l)%nat.
Proof. induction 1; simpl; lia. Qed.

(** The rows of pairs of nodes hold nodes. *)
Lemma row_range n ps (Hps : Forall (λ p, 0 ≤ p.1 < n ∧ 0 ≤ p.2 < n) ps) f : Forall (λ c, 0 ≤ c < n) (row ps f).
Proof. apply list.Forall_forall. intros x Hx%elem_of_row. apply (proj1 (list.Forall_forall _ _) Hps _ Hx). Qed.

Lemma elem_of_by_callee edges x y : (y, x) ∈ by_callee edges ↔ (x, y) ∈ pairs edges.
Proof. unfold by_callee. rewrite list_elem_of_fmap. split; [by intros ([? ?] & [= -> ->] & ?)|]. intros H. by exists (x, y). Qed.
