(* ===== verification/MayThrow.v ===== *)
(** Which functions may throw: the whole-module fixpoint of
    [internal/wasm/may_throw.go].

    Validation records, body by body, which functions throw by themselves and which
    functions each calls; [solve] then propagates along the calls with a work list.
    A builder is the fold of the recorded events, in any order; the theorem states
    that [solve] returns, and that its answer is reachability over the recorded
    calls, neither more nor less. *)
From Stdlib Require Import ZArith Lia.
From stdpp Require Import base list numbers option tactics relations.
From S2P Require Import Prelude CallRows.
Local Open Scope Z_scope.
Local Open Scope go_scope.

(** * Code *)

Record mayThrowBuilder := mkMayThrow { direct : list bool; edges : list Z; imports : Z }.

(** The methods, on a builder that is not nil. *)
Definition throws (b : mayThrowBuilder) (idx : Z) : outcome unit mayThrowBuilder :=
  let* d := aset (direct b) (u32 (imports b + idx)) true in Ok (mkMayThrow d (edges b) (imports b)).

Definition call (b : mayThrowBuilder) (idx callee : Z) : outcome unit mayThrowBuilder :=
  Ok (mkMayThrow (direct b) (edges b ++ [u32 (imports b + idx); callee]) (imports b)).

(** [for i := uint32(0); i < b.imports; i++ { may[i] = true }]. *)
Fixpoint seed_imports (k : nat) (i : Z) (may : list bool) : outcome unit (list bool) :=
  match k with
  | O => Ok may
  | S k => let* may := aset may i true in seed_imports k (i + 1) may
  end.

(** The functions that may throw by themselves, the last of them on top. *)
Fixpoint seeds (may : list bool) (i : Z) (work : list Z) : list Z :=
  match may with
  | [] => work
  | m :: may => seeds may (i + 1) (if m then i :: work else work)
  end.

(** The work list is a list with its top first. *)
Fixpoint push (callers : list Z) (may : list bool) (work : list Z) : outcome unit (list bool * list Z) :=
  match callers with
  | [] => Ok (may, work)
  | caller :: callers =>
      let* m := aget may caller in
      if negb m then let* may := aset may caller true in push callers may (caller :: work)
      else push callers may work
  end.

Fixpoint propagate (fuel : nat) (start rows : list Z) (may : list bool) (work : list Z) : outcome unit (list bool) :=
  match work with
  | [] => Ok may
  | f :: work =>
      match fuel with
      | O => NoFuel
      | S fuel =>
          let* a := aget start f in
          let* b := aget start (f + 1) in
          let* callers := aslice rows a b in
          let* '(may, work) := push callers may work in
          propagate fuel start rows may work
      end
  end.

(** A function enters the work list once: as many rounds as there are functions. *)
Definition solve (b : mayThrowBuilder) : outcome unit (list bool) :=
  let n := length (direct b) in
  let* may := seed_imports (Z.to_nat (imports b)) 0 (direct b) in
  let* '(start, callers) := callers_rows n (edges b) in
  propagate n start callers may (seeds may 0 []).

Definition record_throw (b : mayThrowBuilder) (ev : Event) : outcome unit mayThrowBuilder :=
  match ev with Throws idx => throws b idx | Call idx callee => call b idx callee | Mark _ _ => Ok b end.

(** * Propagation *)

Section may_throw.
Context (n : Z) (ps : list (Z * Z)) (start rows : list Z).
Context (Hrows : rows_spec n ps start rows) (Hps : Forall (λ p, 0 ≤ p.1 < n ∧ 0 ≤ p.2 < n) ps).

Definition idle (m : bool) : nat := if m then 0%nat else 1%nat.

Lemma seed_imports_spec k : ∀ i may g, rep n may g → 0 ≤ i → i + Z.of_nat k ≤ n →
  ∃ may', seed_imports k i may = Ok may' ∧ rep n may' (λ j, g j || ((i <=? j) && (j <? i + Z.of_nat k))).
Proof using.
  induction k as [|k IH]; intros i may g Hr Hi Hk; cbn [seed_imports].
  - exists may. split; [done|]. eapply rep_ext; [done|]. intros j Hj. cbv beta. destruct (Z.leb_spec i j), (Z.ltb_spec j (i + Z.of_nat 0)); try lia; by rewrite orb_false_r.
  - destruct (rep_set _ _ _ i true Hr) as (m1 & -> & Hr1); [lia|]. cbn [obind].
    destruct (IH (i + 1) m1 _ Hr1) as (m2 & -> & Hr2); [lia|lia|]. exists m2. split; [done|]. eapply rep_ext; [done|]. intros j Hj. cbv beta.
    destruct (Z.eqb_spec j i), (Z.leb_spec (i + 1) j), (Z.leb_spec i j), (Z.ltb_spec j (i + 1 + Z.of_nat k)), (Z.ltb_spec j (i + Z.of_nat (S k)));
      try lia; cbn; by rewrite ?orb_true_r, ?orb_false_r.
Qed.

Lemma elem_of_seeds may : ∀ i work x, x ∈ seeds may i work ↔ x ∈ work ∨ ∃ j : nat, x = i + Z.of_nat j ∧ may !! j = Some true.
Proof using.
  induction may as [|m may IH]; intros i work x; cbn [seeds].
  - split; [by left|]. intros [?|(j & _ & Hj)]; [done|by rewrite lookup_nil in Hj].
  - rewrite IH. split.
    + intros [Hx|(j & -> & Hj)]; [|right; exists (S j); split; [lia|done]].
      destruct m; [|by left]. apply elem_of_cons in Hx as [->|Hx]; [|by left]. right. exists 0%nat. split; [lia|done].
    + intros [Hx|([|j] & -> & Hj)]; [left; destruct m; [by right|done]|left|right; exists j; split; [lia|done]].
      injection Hj as ->. apply elem_of_cons. left. lia.
Qed.

Lemma length_seeds may : ∀ i work, (length (seeds may i work) + sum_list_with idle may = length work + length may)%nat.
Proof using. induction may as [|m may IH]; intros i work; simpl; [lia|]. specialize (IH (i + 1) (if m then i :: work else work)). destruct m; simpl in *; lia. Qed.

Lemma push_spec cs : ∀ may work g, rep n may g → Forall (λ c, 0 ≤ c < n) cs →
  ∃ may' work' g', push cs may work = Ok (may', work') ∧ rep n may' g' ∧
    (∀ x, g' x = true ↔ g x = true ∨ x ∈ cs) ∧ (∀ x, x ∈ work' ↔ x ∈ work ∨ g x = false ∧ x ∈ cs) ∧
    (length work' + sum_list_with idle may' = length work + sum_list_with idle may)%nat.
Proof using.
  induction cs as [|c cs IH]; intros may work g Hr Hcs; cbn [push].
  - exists may, work, g. split_and!; try done; intros x; split; try tauto; [intros [?|H]; [done|by apply not_elem_of_nil in H]|intros [?|[_ H]]; [done|by apply not_elem_of_nil in H]].
  - apply list.Forall_cons in Hcs as [Hc Hcs]. rewrite (rep_get _ _ _ c Hr) by done. cbn [obind]. destruct (g c) eqn:Eg; cbn [negb].
    + destruct (IH may work g Hr Hcs) as (m' & w' & g' & -> & Hr' & Hg & Hw & Hl). exists m', w', g'. split_and!; try done.
      * intros x. rewrite Hg, elem_of_cons. split; [tauto|]. intros [?|[->|?]]; tauto.
      * intros x. rewrite Hw, elem_of_cons. split; [tauto|]. intros [?|[? [->|?]]]; [tauto|congruence|tauto].
    + destruct (rep_set _ _ _ c true Hr Hc) as (m1 & E1 & Hr1). rewrite E1. cbn [obind].
      destruct (IH m1 (c :: work) _ Hr1 Hcs) as (m' & w' & g' & -> & Hr' & Hg & Hw & Hl). exists m', w', g'. split_and!; try done.
      * intros x. rewrite Hg, elem_of_cons. destruct (Z.eqb_spec x c) as [->|]; tauto.
      * intros x. rewrite Hw, !elem_of_cons. destruct (Z.eqb_spec x c) as [->|]; [tauto|]. split; [tauto|]. intros [?|[? [?|?]]]; tauto.
      * rewrite aset_in in E1 by (rewrite (rep_len _ _ _ Hr); done). injection E1 as <-.
        pose proof (sum_insert idle may (Z.to_nat c) (g c) true (proj2 Hr c Hc)) as Hs. rewrite Eg in Hs. simpl in *. lia.
Qed.

Context (origin : Z → Prop) (Horigin : ∀ x y, (y, x) ∈ ps → origin y → origin x).

Record mt_inv (g : Z → bool) (work : list Z) : Prop := {
  mt_work : ∀ x, x ∈ work → 0 ≤ x < n ∧ g x = true;
  mt_closed : ∀ y x, (y, x) ∈ ps → g y = true → y ∈ work ∨ g x = true;
  mt_sound : ∀ x, 0 ≤ x < n → g x = true → origin x;
}.

Lemma mt_round f work g may' work' g' may :
  mt_inv g (f :: work) → push (row ps f) may work = Ok (may', work') →
  (∀ x, g' x = true ↔ g x = true ∨ x ∈ row ps f) → (∀ x, x ∈ work' ↔ x ∈ work ∨ g x = false ∧ x ∈ row ps f) →
  mt_inv g' work'.
Proof using Horigin Hps.
  intros [Hw Hc Hs] _ Hg Hw'. pose proof (row_range n ps Hps f) as Hrg. rewrite list.Forall_forall in Hrg. destruct (Hw f ltac:(by left)) as [Hf Hgf]. split.
  - intros x. rewrite Hw'. intros [Hx|[Hx Hr]]; [|split; [auto|apply Hg; by right]]. destruct (Hw x ltac:(by right)). split; [done|]. apply Hg. by left.
  - intros y x Hyx Hy. apply Hg in Hy. destruct (decide (y = f)) as [->|Hne]; [right; apply Hg; right; by apply elem_of_row|].
    destruct (g y) eqn:Egy.
    + destruct (Hc y x Hyx Egy) as [[?|Hin]%elem_of_cons|Hgx]; [done|left; apply Hw'; by left|right; apply Hg; by left].
    + left. apply Hw'. destruct Hy as [?|Hy]; [done|by right].
  - intros x Hx Hgx. apply Hg in Hgx as [Hgx|Hgx]; [by apply Hs|]. apply (Horigin x f); [by apply elem_of_row|by apply Hs].
Qed.

Lemma propagate_spec fuel : ∀ may work g,
  rep n may g → mt_inv g work → (length work + sum_list_with idle may ≤ fuel)%nat →
  ∃ may' g', propagate fuel start rows may work = Ok may' ∧ rep n may' g' ∧ mt_inv g' [] ∧ ∀ x, g x = true → g' x = true.
Proof using Horigin Hps Hrows.
  induction fuel as [|fuel IH]; intros may [|f work] g Hr Hi Hfu; cbn [propagate]; try (cbn in Hfu; lia).
  1, 2: exists may, g; done.
  destruct (mt_work _ _ Hi f ltac:(by left)) as [Hf _]. pose proof (rows_get _ _ _ _ f Hrows Hf) as Erow.
  destruct (aget start f) as [a| | |]; try discriminate. cbn [obind] in *. destruct (aget start (f + 1)) as [b| | |]; try discriminate. cbn [obind] in *. rewrite Erow. cbn [obind].
  destruct (push_spec (row ps f) may work g Hr (row_range n ps Hps f)) as (may1 & work1 & g1 & E1 & Hr1 & Hg1 & Hw1 & Hl1). rewrite E1. cbn [obind].
  destruct (IH may1 work1 g1 Hr1) as (may2 & g2 & -> & Hr2 & Hi2 & Hg2); [by eapply mt_round|cbn in Hfu; lia|].
  exists may2, g2. split_and!; try done. intros x Hx. apply Hg2, Hg1. by left.
Qed.
End may_throw.

(** ** The recorded events *)

Section events.
Context (base n : Z) (Himp : 0 ≤ base) (Hn : 0 ≤ n) (Hmax : base + n < 2 ^ 32 - 1).

Lemma recorded_snoc evs ev x y :
  recorded_call base (evs ++ [ev]) x y ↔ recorded_call base evs x y ∨ ∃ idx, x = base + idx ∧ ev = Call idx y.
Proof using.
  unfold recorded_call. setoid_rewrite elem_of_app. setoid_rewrite list_elem_of_singleton. split.
  - intros (idx & -> & [?|<-]); [left|right]; by eexists.
  - intros [(idx & -> & ?)|(idx & -> & ->)]; exists idx; auto.
Qed.

Record mt_recorded (evs : list Event) (b : mayThrowBuilder) (g : Z → bool) : Prop := {
  mr_imports : imports b = base;
  mr_direct : rep (base + n) (direct b) g;
  mr_throws : ∀ x, g x = true ↔ ∃ idx, x = base + idx ∧ Throws idx ∈ evs;
  mr_even : Nat.Even (length (edges b));
  mr_range : Forall (λ x, 0 ≤ x < base + n) (edges b);
  mr_count : zlen (edges b) ≤ 2 * zlen evs;
  mr_calls : ∀ x y, (x, y) ∈ pairs (edges b) ↔ recorded_call base evs x y;
}.

Lemma throws_snoc evs ev idx : Throws idx ∈ evs ++ [ev] ↔ Throws idx ∈ evs ∨ ev = Throws idx.
Proof using. rewrite elem_of_app, list_elem_of_singleton. split; (intros [?|?]; [by left|by right]). Qed.

Lemma record_throw_step evs b g ev : mt_recorded evs b g → event_ok base n ev →
  ∃ b' g', record_throw b ev = Ok b' ∧ mt_recorded (evs ++ [ev]) b' g'.
Proof using Hn Himp Hmax.
  intros [Ei Hd Ht Hev Hr Hc Hcalls] Hok. assert (zlen (evs ++ [ev]) = zlen evs + 1) as El by (rewrite zlen_app; done).
  destruct ev as [idx|idx callee|idx e]; cbn in Hok |- *.
  - unfold throws. rewrite Ei, wrap_small by lia. destruct (rep_set _ _ _ (base + idx) true Hd) as (d & -> & Hd'); [lia|]. cbn [obind].
    eexists _, _. split; [done|]. split; cbn; try done; [|lia|].
    + intros x. setoid_rewrite throws_snoc. destruct (Z.eqb_spec x (base + idx)) as [->|Hne].
      * split; [|done]. intros _. exists idx. auto.
      * rewrite Ht. split; [intros (i & -> & ?); eauto|]. intros (i & -> & [?|[= ->]]); [eauto|done].
    + intros x y. rewrite Hcalls, recorded_snoc. split; [by left|]. by intros [?|(? & _ & ?)].
  - unfold call. rewrite Ei, wrap_small by lia. eexists _, g. split; [done|]. split; cbn; try done.
    + intros x. setoid_rewrite throws_snoc. rewrite Ht. split; [intros (i & -> & ?); eauto|]. intros (i & -> & [?|?]); [eauto|done].
    + destruct Hev as [m Hm]. exists (S m). rewrite length_app, Hm. cbn. lia.
    + apply list.Forall_app. split; [done|]. repeat constructor; lia.
    + rewrite zlen_app. change (zlen [base + idx; callee]) with 2. lia.
    + intros x y. rewrite pairs_app, elem_of_app, list_elem_of_singleton, Hcalls, recorded_snoc by done. split.
      * intros [?|[= -> ->]]; [by left|right; by exists idx].
      * intros [?|(i & -> & [= -> ->])]; auto.
  - exists b, g. split; [done|]. split; try done; [|lia|].
    + intros x. setoid_rewrite throws_snoc. rewrite Ht. split; [intros (i & -> & ?); eauto|]. intros (i & -> & [?|?]); [eauto|done].
    + intros x y. rewrite Hcalls, recorded_snoc. split; [by left|]. by intros [?|(? & _ & ?)].
Qed.

Lemma record_throws evs : ∀ seen b g, mt_recorded seen b g → Forall (event_ok base n) evs →
  ∃ b' g', record_all record_throw b evs = Ok b' ∧ mt_recorded (seen ++ evs) b' g'.
Proof using Hn Himp Hmax.
  induction evs as [|ev evs IH]; intros seen b g Hb Hevs; cbn [record_all].
  - exists b, g. by rewrite app_nil_r.
  - apply list.Forall_cons in Hevs as [Hev Hevs]. destruct (record_throw_step _ _ _ _ Hb Hev) as (b1 & g1 & -> & H1). cbn [obind].
    destruct (IH _ _ _ H1 Hevs) as (b2 & g2 & -> & H2). exists b2, g2. split; [done|]. by rewrite <- app_assoc in H2.
Qed.
End events.

Lemma recorded_range base n evs x y :
  Forall (event_ok base n) evs → 0 ≤ base → recorded_call base evs x y → 0 ≤ x < base + n ∧ 0 ≤ y < base + n.
Proof. intros H Hi (idx & -> & Hin). apply list.Forall_forall with (x := Call idx y) in H; [|done]. cbn in H. lia. Qed.

(** The builder validation starts with. *)
Definition newMayThrow (base : Z) (n : nat) : mayThrowBuilder :=
  mkMayThrow (replicate (Z.to_nat base + n) false) [] base.

(** ** Exactness *)

Lemma mt_recorded_new base n : 0 ≤ base → mt_recorded base (Z.of_nat n) [] (newMayThrow base n) (λ _, false).
Proof.
  intros Hi. split; cbn; try done.
  - pose proof (rep_replicate (Z.to_nat base + n) false) as H. by replace (Z.of_nat (Z.to_nat base + n)) with (base + Z.of_nat n) in H by lia.
  - intros x. split; [done|]. intros (? & _ & H). by apply not_elem_of_nil in H.
  - by exists 0%nat.
  - intros x y. unfold recorded_call. split; [intros H; by apply not_elem_of_nil in H|]. intros (? & _ & H). by apply not_elem_of_nil in H.
Qed.

(** The function throws by itself, or is imported. *)
Definition thrower (base : Z) (evs : list Event) (y : Z) : Prop := y < base ∨ ∃ idx, y = base + idx ∧ Throws idx ∈ evs.

Lemma mt_inv_init base n evs g may ps (N := base + n) (g0 := λ j, g j || ((0 <=? j) && (j <? 0 + base))) :
  Forall (event_ok base n) evs → 0 ≤ base → 0 ≤ n → rep N may g0 →
  (∀ x, g x = true ↔ ∃ idx, x = base + idx ∧ Throws idx ∈ evs) →
  (∀ x y, (y, x) ∈ ps ↔ recorded_call base evs x y) →
  mt_inv N ps (λ x, ∃ y, rtc (recorded_call base evs) x y ∧ thrower base evs y) g0 (seeds may 0 []) ∧
  ∀ x, 0 ≤ x < N → g0 x = true ↔ thrower base evs x.
Proof.
  intros Hevs Hi Hn Hr Ht Hedge.
  assert (∀ x, 0 ≤ x < N → g0 x = true ↔ thrower base evs x) as Hseed.
  { intros x Hx. unfold g0, thrower. rewrite orb_true_iff, andb_true_iff, Z.leb_le, Z.ltb_lt, Ht. split; [intros [?|[_ ?]]; [by right|left; lia]|intros [?|?]; [right; lia|by left]]. }
  split; [|done]. split.
  - intros x [Hx|(j & -> & Hj)]%elem_of_seeds; [by apply not_elem_of_nil in Hx|].
    pose proof (rep_inv _ _ _ (0 + Z.of_nat j) true Hr) as Hj'. replace (Z.to_nat (0 + Z.of_nat j)) with j in Hj' by lia. destruct (Hj' Hj) as [E ?]; [lia|]. split; [lia|done].
  - intros y x Hyx Hy. left. apply elem_of_seeds. right. apply Hedge in Hyx. destruct (recorded_range base n evs x y Hevs Hi Hyx) as [_ ?].
    exists (Z.to_nat y). split; [lia|]. rewrite (proj2 Hr) by done. by f_equal.
  - intros x Hx Hgx. exists x. split; [done|]. by apply Hseed.
Qed.

(** [solve] of the may-throw analysis returns for every sequence of recorded
    events, and marks exactly the functions from which the recorded calls reach an
    import or a function that throws by itself. *)
Theorem mayThrow_exact (base : Z) (n : nat) (evs : list Event)
  (Himp : 0 ≤ base) (Hmax : base + Z.of_nat n < 2 ^ 32 - 1)
  (Hevs : Forall (event_ok base (Z.of_nat n)) evs) (Hcount : zlen evs < 2 ^ 32) :
  ∃ b may, record_all record_throw (newMayThrow base n) evs = Ok b ∧ solve b = Ok may ∧
    zlen may = base + Z.of_nat n ∧
    ∀ x, 0 ≤ x < base + Z.of_nat n →
      (may !! Z.to_nat x = Some true ↔
       ∃ y, rtc (recorded_call base evs) x y ∧ thrower base evs y).
Proof.
  destruct (record_throws base (Z.of_nat n) ltac:(lia) ltac:(lia) ltac:(lia) evs [] _ _ (mt_recorded_new base n Himp) Hevs) as (b & g & Eb & [Ei Hd Ht Hev Hr Hc Hcalls]).
  rewrite app_nil_l in *. set (N := base + Z.of_nat n) in *. assert (Z.of_nat (length (direct b)) = N) as EN by apply (rep_len _ _ _ Hd).
  exists b. unfold solve. rewrite Eb, Ei.
  destruct (seed_imports_spec N (Z.to_nat base) 0 _ g Hd ltac:(lia) ltac:(lia)) as (may0 & -> & Hr0). cbn [obind]. rewrite Z2Nat.id in Hr0 by lia.
  destruct (callers_rows_spec (length (direct b)) (edges b)) as (start & rows & -> & Hrows); [rewrite EN; split_and!; [done|done|lia]|lia|].
  cbn [obind]. rewrite EN in Hrows.
  assert (∀ x y, (y, x) ∈ by_callee (edges b) ↔ recorded_call base evs x y) as Hedge by (intros x y; by rewrite <- Hcalls, elem_of_by_callee).
  destruct (mt_inv_init base (Z.of_nat n) evs g may0 _ Hevs Himp ltac:(lia) Hr0 Ht Hedge) as [Hinv Hseed].
  destruct (propagate_spec N _ start rows Hrows) with (fuel := length (direct b)) (3 := Hr0) (4 := Hinv) as (may & g' & E & Hr' & [_ Hcl Hso] & Hup).
  - apply list.Forall_forall. intros p (q & -> & Hq)%list_elem_of_fmap. cbn. destruct (pairs_range N _ _ Hr Hq). done.
  - intros x y Hyx (z & Hz & Hs). exists z. split; [|done]. apply rtc_l with y; [by apply Hedge|done].
  - pose proof (length_seeds may0 0 []) as Hl. pose proof (rep_len _ _ _ Hr0) as H0. unfold zlen in H0. cbn in Hl. lia.
  - exists may. split_and!; [done|done|by apply (rep_len _ _ _ Hr')|]. intros x Hx.
    rewrite (proj2 Hr') by done. transitivity (g' x = true); [split; [by intros [= ->]|by intros ->]|].
    apply (rtc_closed (recorded_call base evs) (λ x, 0 ≤ x < N) (λ x, g' x = true)); [| | | |done].
    + intros y z Hyz. by eapply recorded_range.
    + intros y Hy Hs. by apply Hup, Hseed.
    + intros y z Hyz Hz. apply Hedge in Hyz. destruct (Hcl z y Hyz Hz) as [H|?]; [by apply not_elem_of_nil in H|done].
    + intros y Hy Hg. by apply Hso.
Qed.

(** * Witness *)

(** The calls of may_throw_test.go: function 0 is imported. *)
Definition sample_events : list Event :=
  [Call 0 3; Call 2 4; Call 3 2; Throws 1; Call 4 5; Call 6 1; Call 7 0; Call 8 10].

Example sample_may_throw :
  (let* b := record_all record_throw (newMayThrow 1 10) sample_events in solve b) =
  Ok [true; true; true; true; true; false; false; true; true; false; false].
Proof. reflexivity. Qed.

Lemma sample_events_ok : Forall (event_ok 1 (Z.of_nat 10)) sample_events.
Proof. repeat constructor; cbn; lia. Qed.

Lemma mayThrow_exact_witness :
  ∃ b may, record_all record_throw (newMayThrow 1 10) sample_events = Ok b ∧ solve b = Ok may ∧
    zlen may = 1 + Z.of_nat 10 ∧
    ∀ x, 0 ≤ x < 1 + Z.of_nat 10 →
      (may !! Z.to_nat x = Some true ↔ ∃ y, rtc (recorded_call 1 sample_events) x y ∧ thrower 1 sample_events y).
Proof. apply (mayThrow_exact 1 10 sample_events); [lia|lia|exact sample_events_ok|by vm_compute]. Defined.
