(* ===== verification/CallEffects.v ===== *)
(** What a call may change: the whole-module fixpoint of
    [internal/wasm/call_effects.go].

    As for [MayThrow], with a set of effects for each function in place of a flag, and
    local functions only: a call to an import may do anything. *)
From Stdlib Require Import ZArith Lia.
From stdpp Require Import base list numbers option tactics relations.
From S2P Require Import Prelude CallRows.
Local Open Scope Z_scope.
Local Open Scope go_scope.

(** * Code *)

Record callEffectsBuilder := mkCallEffects { direct : list Z; edges : list Z; imports : Z }.

Definition newCallEffectsBuilder (functions : nat) (imports : Z) : callEffectsBuilder :=
  mkCallEffects (replicate functions 0) [] imports.

Definition mark (b : callEffectsBuilder) (idx e : Z) : outcome unit callEffectsBuilder :=
  let* old := aget (direct b) idx in
  let* d := aset (direct b) idx (Z.lor old e) in Ok (mkCallEffects d (edges b) (imports b)).

Definition call (b : callEffectsBuilder) (idx callee : Z) : outcome unit callEffectsBuilder :=
  if imports b <=? callee then Ok (mkCallEffects (direct b) (edges b ++ [idx; u32 (callee - imports b)]) (imports b))
  else let* d := aset (direct b) idx callEffectsAll in Ok (mkCallEffects d (edges b) (imports b)).

Fixpoint seeds (effects : list Z) (i : Z) (work : list Z) : list Z :=
  match effects with
  | [] => work
  | e :: effects => seeds effects (i + 1) (if negb (e =? 0) then i :: work else work)
  end.

(** One round for the callers of [f]; [effects[f]] is read again for each of them,
    since the loop may be changing it. *)
Fixpoint push (f : Z) (callers effects work : list Z) : outcome unit (list Z * list Z) :=
  match callers with
  | [] => Ok (effects, work)
  | caller :: callers =>
      let* ec := aget effects caller in
      let* ef := aget effects f in
      if negb (Z.lor ec ef =? ec) then
        let* effects := aset effects caller (Z.lor ec ef) in push f callers effects (caller :: work)
      else push f callers effects work
  end.

Fixpoint propagate (fuel : nat) (start rows effects work : list Z) : outcome unit (list Z) :=
  match work with
  | [] => Ok effects
  | f :: work =>
      match fuel with
      | O => NoFuel
      | S fuel =>
          let* a := aget start f in
          let* b := aget start (f + 1) in
          let* callers := aslice rows a b in
          let* '(effects, work) := push f callers effects work in
          propagate fuel start rows effects work
      end
  end.

(** A function enters the work list once at first, and then each time its effects
    grow, of which there are at most three values above none. *)
Definition solve (b : callEffectsBuilder) : outcome unit (list Z) :=
  let n := length (direct b) in
  let* '(start, callers) := callers_rows n (edges b) in
  propagate (4 * n) start callers (direct b) (seeds (direct b) 0 []).

Definition record_effect (b : callEffectsBuilder) (ev : Event) : outcome unit callEffectsBuilder :=
  match ev with Throws _ => Ok b | Call idx callee => call b idx callee | Mark idx e => mark b idx e end.

(** * Propagation *)

Section effects.
Context (n : Z) (ps : list (Z * Z)) (start rows : list Z).
Context (Hrows : rows_spec n ps start rows) (Hps : Forall (λ p, 0 ≤ p.1 < n ∧ 0 ≤ p.2 < n) ps).

Definition headroom (e : Z) : nat := Z.to_nat (3 - e).

Lemma lor_effects a b : 0 ≤ a ≤ 3 → 0 ≤ b ≤ 3 → 0 ≤ Z.lor a b ≤ 3 ∧ a ≤ Z.lor a b.
Proof using.
  intros Ha Hb. assert (a = 0 ∨ a = 1 ∨ a = 2 ∨ a = 3) as Ea by lia. assert (b = 0 ∨ b = 1 ∨ b = 2 ∨ b = 3) as Eb by lia.
  by destruct Ea as [->|[->|[->| ->]]], Eb as [->|[->|[->| ->]]].
Qed.

Lemma elem_of_eff_seeds effects : ∀ i work x,
  x ∈ seeds effects i work ↔ x ∈ work ∨ ∃ (j : nat) e, x = i + Z.of_nat j ∧ effects !! j = Some e ∧ e ≠ 0.
Proof using.
  induction effects as [|m effects IH]; intros i work x; cbn [seeds].
  - split; [by left|]. intros [?|(j & e & _ & Hj & _)]; [done|by rewrite lookup_nil in Hj].
  - rewrite IH. destruct (Z.eqb_spec m 0) as [->|Hm]; cbn [negb]; split.
    + intros [Hx|(j & e & -> & Hj & He)]; [by left|]. right. exists (S j), e. split; [lia|done].
    + intros [Hx|([|j] & e & -> & Hj & He)]; [by left|by injection Hj as <-|]. right. exists j, e. split; [lia|done].
    + intros [[->|Hx]%elem_of_cons|(j & e & -> & Hj & He)]; [right; exists 0%nat, m; split; [lia|done]|by left|]. right. exists (S j), e. split; [lia|done].
    + intros [Hx|([|j] & e & -> & Hj & He)]; [left; by right|left; apply elem_of_cons; left; lia|]. right. exists j, e. split; [lia|done].
Qed.

Lemma length_eff_seeds effects : ∀ i work, (length (seeds effects i work) ≤ length work + length effects)%nat.
Proof using. induction effects as [|m effects IH]; intros i work; simpl; [lia|]. specialize (IH (i + 1) (if negb (m =? 0) then i :: work else work)). destruct (negb (m =? 0)); simpl in *; lia. Qed.

Lemma eff_push_spec f cs : ∀ effects work g, rep n effects g → 0 ≤ f < n → Forall (λ c, 0 ≤ c < n) cs → (∀ x, 0 ≤ x < n → 0 ≤ g x ≤ 3) →
  ∃ effects' work' g', push f cs effects work = Ok (effects', work') ∧ rep n effects' g' ∧
    (∀ x, g' x = if bool_decide (x ∈ cs) then Z.lor (g x) (g f) else g x) ∧
    (∀ x, x ∈ work' ↔ x ∈ work ∨ Z.lor (g x) (g f) ≠ g x ∧ x ∈ cs) ∧
    (length work' + sum_list_with headroom effects' ≤ length work + sum_list_with headroom effects)%nat.
Proof using.
  induction cs as [|c cs IH]; intros effects work g Hr Hf Hcs Hg; cbn [push].
  - exists effects, work, g. split_and!; try done; intros x. split; [by left|]. intros [?|[_ H]]; [done|by apply not_elem_of_nil in H].
  - apply list.Forall_cons in Hcs as [Hc Hcs]. rewrite (rep_get _ _ _ c Hr), (rep_get _ _ _ f Hr) by done. cbn [obind].
    pose proof (Hg c Hc) as Hgc. pose proof (Hg f Hf) as Hgf. destruct (lor_effects _ _ Hgc Hgf) as [Hl3 Hle].
    destruct (Z.eqb_spec (Z.lor (g c) (g f)) (g c)) as [Eq|Hne]; cbn [negb].
    + destruct (IH effects work g Hr Hf Hcs Hg) as (e' & w' & g' & -> & Hr' & Hg' & Hw & Hl). exists e', w', g'. split_and!; try done.
      * intros x. rewrite Hg'. destruct (bool_decide_reflect (x ∈ cs)), (bool_decide_reflect (x ∈ c :: cs)) as [Hx|Hx]; try done; [by destruct Hx; right|].
        by apply elem_of_cons in Hx as [->|?].
      * intros x. rewrite Hw, elem_of_cons. split; [tauto|]. intros [?|[? [->|?]]]; tauto.
    + destruct (rep_set _ _ _ c (Z.lor (g c) (g f)) Hr Hc) as (e1 & E1 & Hr1). rewrite E1. cbn [obind].
      assert (f ≠ c) as Hfc by (intros ->; by rewrite Z.lor_diag in Hne).
      destruct (IH e1 (c :: work) _ Hr1 Hf Hcs) as (e' & w' & g' & -> & Hr' & Hg' & Hw & Hl).
      { intros x Hx. destruct (Z.eqb_spec x c); [done|auto]. }
      destruct (Z.eqb_spec f c) as [|_]; [done|]. exists e', w', g'. split_and!; try done.
      * intros x. rewrite Hg'. destruct (Z.eqb_spec x c) as [->|Hxc].
        -- rewrite (bool_decide_eq_true_2 (c ∈ c :: cs)) by left. case_bool_decide; [by rewrite <- Z.lor_assoc, Z.lor_diag|done].
        -- destruct (bool_decide_reflect (x ∈ cs)), (bool_decide_reflect (x ∈ c :: cs)) as [Hx|Hx]; try done; [by destruct Hx; right|by apply elem_of_cons in Hx as [?|?]].
      * intros x. rewrite Hw, !elem_of_cons. destruct (Z.eqb_spec x c) as [->|]; [tauto|]. split; [tauto|]. intros [?|[? [?|?]]]; tauto.
      * rewrite aset_in in E1 by (rewrite (rep_len _ _ _ Hr); done). injection E1 as <-.
        pose proof (sum_insert headroom effects (Z.to_nat c) (g c) (Z.lor (g c) (g f)) (proj2 Hr c Hc)) as Hs. unfold headroom in *. simpl in *. lia.
Qed.

Context (origin : Z → Z → Prop) (Horigin : ∀ k x y, (y, x) ∈ ps → origin k y → origin k x).

Record eff_inv (g : Z → Z) (work : list Z) : Prop := {
  ef_range : ∀ x, 0 ≤ x < n → 0 ≤ g x ≤ 3;
  ef_work : ∀ x, x ∈ work → 0 ≤ x < n;
  ef_closed : ∀ y x, (y, x) ∈ ps → y ∈ work ∨ Z.lor (g x) (g y) = g x;
  ef_sound : ∀ x k, 0 ≤ x < n → Z.testbit (g x) k = true → origin k x;
}.

Lemma eff_round f work g g' work' :
  eff_inv g (f :: work) →
  (∀ x, g' x = if bool_decide (x ∈ row ps f) then Z.lor (g x) (g f) else g x) →
  (∀ x, x ∈ work' ↔ x ∈ work ∨ Z.lor (g x) (g f) ≠ g x ∧ x ∈ row ps f) → eff_inv g' work'.
Proof using Horigin Hps.
  intros [Hra Hw Hc Hs] Hg Hw'. pose proof (row_range n ps Hps f) as Hrg. rewrite list.Forall_forall in Hrg. pose proof (Hw f ltac:(by left)) as Hf.
  split.
  - intros x Hx. rewrite Hg. case_bool_decide; [|auto]. apply lor_effects; auto.
  - intros x. rewrite Hw'. intros [Hx|[_ Hx]]; [|auto]. apply Hw. by right.
  - intros y x Hyx. destruct (decide (y ∈ work')) as [|Hy]; [by left|]. right.
    assert (g' y = g y) as ->.
    { rewrite Hg. case_bool_decide as Hr; [|done]. destruct (decide (Z.lor (g y) (g f) = g y)) as [->|Hn]; [done|]. destruct Hy. apply Hw'. by right. }
    rewrite Hg. destruct (decide (y = f)) as [->|Hne].
    + rewrite bool_decide_eq_true_2 by by apply elem_of_row. by rewrite <- Z.lor_assoc, Z.lor_diag.
    + destruct (Hc y x Hyx) as [[?|Hin]%elem_of_cons|E]; [done|destruct Hy; apply Hw'; by left|].
      case_bool_decide; [|done]. rewrite <- Z.lor_assoc, (Z.lor_comm (g f)), Z.lor_assoc. by rewrite E.
  - intros x k Hx. rewrite Hg. case_bool_decide as Hr; [|by apply Hs]. rewrite Z.lor_spec, orb_true_iff. intros [?|?]; [by apply Hs|].
    apply (Horigin k x f); [by apply elem_of_row|by apply Hs].
Qed.

Lemma eff_propagate_spec fuel : ∀ effects work g,
  rep n effects g → eff_inv g work → (length work + sum_list_with headroom effects ≤ fuel)%nat →
  ∃ effects' g', propagate fuel start rows effects work = Ok effects' ∧ rep n effects' g' ∧ eff_inv g' [] ∧
    ∀ x k, Z.testbit (g x) k = true → Z.testbit (g' x) k = true.
Proof using Horigin Hps Hrows.
  induction fuel as [|fuel IH]; intros effects [|f work] g Hr Hi Hfu; cbn [propagate]; try (cbn in Hfu; lia).
  1, 2: exists effects, g; done.
  pose proof (ef_work _ _ Hi f ltac:(by left)) as Hf. pose proof (rows_get _ _ _ _ f Hrows Hf) as Erow.
  destruct (aget start f) as [a| | |]; try discriminate. cbn [obind] in *. destruct (aget start (f + 1)) as [b| | |]; try discriminate. cbn [obind] in *. rewrite Erow. cbn [obind].
  destruct (eff_push_spec f (row ps f) effects work g Hr Hf (row_range n ps Hps f) (ef_range _ _ Hi)) as (e1 & work1 & g1 & E1 & Hr1 & Hg1 & Hw1 & Hl1). rewrite E1. cbn [obind].
  destruct (IH e1 work1 g1 Hr1) as (e2 & g2 & -> & Hr2 & Hi2 & Hg2); [by eapply eff_round|cbn in Hfu; lia|].
  exists e2, g2. split_and!; try done. intros x k Hx. apply Hg2. rewrite Hg1. case_bool_decide; [|done]. by rewrite Z.lor_spec, Hx.
Qed.
End effects.

(** ** The recorded events *)

(** Local function [x] calls local function [y], and what [x] does by itself: its
    marks, and everything when it calls an import. *)
Definition local_call (base : Z) (evs : list Event) (x y : Z) : Prop := 0 ≤ y ∧ Call x (base + y) ∈ evs.

Definition own_effect (base : Z) (evs : list Event) (k x : Z) : Prop :=
  (∃ e, Mark x e ∈ evs ∧ Z.testbit e k = true) ∨
  (∃ c, Call x c ∈ evs ∧ c < base ∧ Z.testbit callEffectsAll k = true).

Section effect_events.
Context (base n : Z) (Himp : 0 ≤ base) (Hn : 0 ≤ n) (Hmax : base + n < 2 ^ 32 - 1).

Record eff_recorded (evs : list Event) (b : callEffectsBuilder) (g : Z → Z) : Prop := {
  er_imports : imports b = base;
  er_direct : rep n (direct b) g;
  er_values : ∀ x, 0 ≤ x < n → 0 ≤ g x ≤ 3;
  er_own : ∀ x k, 0 ≤ x < n → Z.testbit (g x) k = true ↔ own_effect base evs k x;
  er_even : Nat.Even (length (edges b));
  er_range : Forall (λ x, 0 ≤ x < n) (edges b);
  er_count : zlen (edges b) ≤ 2 * zlen evs;
  er_calls : ∀ x y, (x, y) ∈ pairs (edges b) ↔ local_call base evs x y;
}.

(** What one more event adds. *)
Lemma local_call_snoc evs ev x y : local_call base (evs ++ [ev]) x y ↔ local_call base evs x y ∨ 0 ≤ y ∧ ev = Call x (base + y).
Proof using. unfold local_call. rewrite elem_of_app, list_elem_of_singleton. split; [intros [? [?| ->]]; auto|intros [[? ?]|[? ->]]; auto]. Qed.

Lemma own_effect_snoc evs ev k x :
  own_effect base (evs ++ [ev]) k x ↔ own_effect base evs k x ∨
    (∃ e, ev = Mark x e ∧ Z.testbit e k = true) ∨ (∃ c, ev = Call x c ∧ c < base ∧ Z.testbit callEffectsAll k = true).
Proof using.
  unfold own_effect. setoid_rewrite elem_of_app. setoid_rewrite list_elem_of_singleton. split.
  - intros [(e & [?|<-] & ?)|(c & [?|<-] & ? & ?)]; eauto 10.
  - intros [[(e & ? & ?)|(c & ? & ? & ?)]|[(e & -> & ?)|(c & -> & ? & ?)]]; eauto 10.
Qed.

(** A builder whose effects grow at one function by [e]. *)
Lemma eff_grow evs ev b g idx e d :
  eff_recorded evs b g → 0 ≤ idx < n → 0 ≤ e ≤ 3 →
  (∀ k x, own_effect base (evs ++ [ev]) k x ↔ own_effect base evs k x ∨ x = idx ∧ Z.testbit e k = true) →
  (∀ x y, local_call base (evs ++ [ev]) x y ↔ local_call base evs x y) →
  aset (direct b) idx (Z.lor (g idx) e) = Ok d →
  eff_recorded (evs ++ [ev]) (mkCallEffects d (edges b) (imports b)) (λ j, if j =? idx then Z.lor (g idx) e else g j).
Proof using.
  intros [Ei Hd Hv Ho Hev Hr Hc Hcalls] Hidx He Hown Hcl Hset. destruct (rep_set _ _ _ idx (Z.lor (g idx) e) Hd Hidx) as (d' & E & Hd'). rewrite E in Hset. injection Hset as ->.
  split; cbn; try done.
  - intros x Hx. destruct (Z.eqb_spec x idx) as [->|]; [|auto]. apply lor_effects; auto.
  - intros x k Hx. rewrite Hown. destruct (Z.eqb_spec x idx) as [->|].
    + rewrite Z.lor_spec, orb_true_iff, Ho by done. split; [intros [?|?]; auto|intros [?|[_ ?]]; auto].
    + rewrite Ho by done. split; [by left|]. by intros [?|[? _]].
  - rewrite zlen_app. change (zlen [ev]) with 1. lia.
  - intros x y. by rewrite Hcalls, Hcl.
Qed.

Lemma record_effect_step evs b g ev : eff_recorded evs b g → event_ok base n ev →
  ∃ b' g', record_effect b ev = Ok b' ∧ eff_recorded (evs ++ [ev]) b' g'.
Proof using Hn Himp Hmax.
  intros Hb Hok. pose proof Hb as [Ei Hd Hv Ho Hev Hr Hc Hcalls].
  assert (zlen (evs ++ [ev]) = zlen evs + 1) as El by (rewrite zlen_app; done).
  destruct ev as [idx|idx callee|idx e]; cbn in Hok |- *.
  - exists b, g. split; [done|]. split; try done; [|lia|].
    + intros x k Hx. rewrite own_effect_snoc, Ho by done. split; [by left|]. by intros [?|[(? & ? & _)|(? & ? & _)]].
    + intros x y. rewrite local_call_snoc, Hcalls. split; [by left|]. by intros [?|[_ ?]].
  - unfold call. rewrite Ei. destruct Hok as [Hidx Hcal]. destruct (Z.leb_spec base callee) as [Hge|Hlt].
    + rewrite wrap_small by lia. eexists _, g. split; [done|]. split; cbn; try done.
      * intros x k Hx. rewrite own_effect_snoc, Ho by done. split; [by left|]. intros [?|[(? & ? & _)|(c & [= -> ->] & ? & _)]]; [done|done|lia].
      * destruct Hev as [m Hm]. exists (S m). rewrite length_app, Hm. cbn. lia.
      * apply list.Forall_app. split; [done|]. repeat constructor; lia.
      * rewrite zlen_app. change (zlen [idx; callee - base]) with 2. lia.
      * intros x y. rewrite pairs_app, elem_of_app, list_elem_of_singleton, Hcalls, local_call_snoc by done. split.
        -- intros [?|[= -> ->]]; [by left|]. right. split; [lia|]. f_equal. lia.
        -- intros [?|[Hy [= -> ->]]]; [by left|]. right. f_equal. lia.
    + assert (Z.lor (g idx) callEffectsAll = callEffectsAll) as EA.
      { pose proof (Hv idx Hidx). assert (g idx = 0 ∨ g idx = 1 ∨ g idx = 2 ∨ g idx = 3) as [->|[->|[->| ->]]] by lia; done. }
      destruct (rep_set _ _ _ idx (Z.lor (g idx) callEffectsAll) Hd Hidx) as (d & E & _). pose proof E as E'. rewrite EA in E'. rewrite E', <- Ei. cbn [obind].
      eexists _, _. split; [done|]. eapply eff_grow with (e := callEffectsAll); try done.
      * intros k x. rewrite own_effect_snoc. split; [|intros [?|[-> ?]]; [by left|right; right; by exists callee]].
        intros [?|[(? & ? & _)|(c & [= -> ->] & ? & ?)]]; auto; done.
      * intros x y. rewrite local_call_snoc. split; [|by left]. intros [?|[? [= -> ->]]]; [done|lia].
  - destruct Hok as [Hidx He]. change callEffectsAll with 3 in He. unfold mark. rewrite (rep_get _ _ _ idx Hd Hidx). cbn [obind].
    destruct (rep_set _ _ _ idx (Z.lor (g idx) e) Hd Hidx) as (d & E & _). rewrite E. cbn [obind].
    eexists _, _. split; [done|]. eapply eff_grow with (e := e); try done.
    + intros k x. rewrite own_effect_snoc. split; [|intros [?|[-> ?]]; [by left|right; left; by exists e]].
      intros [?|[(? & [= -> ->] & ?)|(c & ? & _)]]; auto; done.
    + intros x y. rewrite local_call_snoc. split; [|by left]. by intros [?|[_ ?]].
Qed.

Lemma record_effects evs : ∀ seen b g, eff_recorded seen b g → Forall (event_ok base n) evs →
  ∃ b' g', record_all record_effect b evs = Ok b' ∧ eff_recorded (seen ++ evs) b' g'.
Proof using Hn Himp Hmax.
  induction evs as [|ev evs IH]; intros seen b g Hb Hevs; cbn [record_all].
  - exists b, g. by rewrite app_nil_r.
  - apply list.Forall_cons in Hevs as [Hev Hevs]. destruct (record_effect_step _ _ _ _ Hb Hev) as (b1 & g1 & -> & H1). cbn [obind].
    destruct (IH _ _ _ H1 Hevs) as (b2 & g2 & -> & H2). exists b2, g2. split; [done|]. by rewrite <- app_assoc in H2.
Qed.
End effect_events.

Lemma eff_recorded_new base n : 0 ≤ base → eff_recorded base (Z.of_nat n) [] (newCallEffectsBuilder n base) (λ _, 0).
Proof.
  intros Hi. split; cbn; try done.
  - apply rep_replicate.
  - intros x k _. rewrite Z.bits_0. split; [done|]. by intros [(? & ?%not_elem_of_nil & _)|(? & ?%not_elem_of_nil & _)].
  - by exists 0%nat.
  - intros x y. unfold local_call. split; [intros H; by apply not_elem_of_nil in H|]. intros (_ & H). by apply not_elem_of_nil in H.
Qed.

Lemma local_call_range base n evs x y :
  Forall (event_ok base n) evs → local_call base evs x y → 0 ≤ x < n ∧ 0 ≤ y < n.
Proof. intros H [Hy Hin]. apply list.Forall_forall with (x := Call x (base + y)) in H; [|done]. cbn in H. lia. Qed.

(** C21. [solve] of the call-effects analysis returns for every sequence of recorded
    events, and gives each function exactly the effects that some function the
    recorded calls reach from it has by itself. *)
Theorem callEffects_exact (base : Z) (n : nat) (evs : list Event)
  (Himp : 0 ≤ base) (Hmax : base + Z.of_nat n < 2 ^ 32 - 1)
  (Hevs : Forall (event_ok base (Z.of_nat n)) evs) (Hcount : zlen evs < 2 ^ 32) :
  ∃ b effects, record_all record_effect (newCallEffectsBuilder n base) evs = Ok b ∧ solve b = Ok effects ∧
    zlen effects = Z.of_nat n ∧
    ∀ x e k, effects !! Z.to_nat x = Some e → 0 ≤ x →
      (Z.testbit e k = true ↔ ∃ y, rtc (local_call base evs) x y ∧ own_effect base evs k y).
Proof.
  destruct (record_effects base (Z.of_nat n) ltac:(lia) ltac:(lia) ltac:(lia) evs [] _ _ (eff_recorded_new base n Himp) Hevs) as (b & g & Eb & [Ei Hd Hv Ho Hev Hr Hc Hcalls]).
  rewrite app_nil_l in *. assert (length (direct b) = n) as EN by (pose proof (rep_len _ _ _ Hd) as H; unfold zlen in H; lia).
  exists b. unfold solve. rewrite Eb, EN.
  destruct (callers_rows_spec n (edges b)) as (start & rows & -> & Hrows); [split_and!; [done|done|lia]|lia|]. cbn [obind].
  assert (∀ x y, (y, x) ∈ by_callee (edges b) ↔ local_call base evs x y) as Hedge by (intros x y; by rewrite <- Hcalls, elem_of_by_callee).
  destruct (eff_propagate_spec (Z.of_nat n) _ start rows Hrows) with (fuel := (4 * n)%nat) (effects := direct b) (work := seeds (direct b) 0 []) (g := g)
    (origin := λ k x, ∃ y, rtc (local_call base evs) x y ∧ own_effect base evs k y) as (eff & g' & E & Hr' & [_ _ Hcl Hso] & Hup).
  - apply list.Forall_forall. intros p (q & -> & Hq)%list_elem_of_fmap. cbn. destruct (pairs_range _ _ _ Hr Hq). done.
  - intros k x y Hyx (z & Hz & Hs). exists z. split; [|done]. apply rtc_l with y; [by apply Hedge|done].
  - done.
  - split; [done| | |].
    + intros x [Hx|(j & e & -> & Hj & _)]%elem_of_eff_seeds; [by apply not_elem_of_nil in Hx|]. apply lookup_lt_Some in Hj. lia.
    + intros y x Hyx. apply Hedge in Hyx. destruct (local_call_range base _ evs x y Hevs Hyx) as [Hx Hy].
      destruct (decide (g y = 0)) as [->|Hne]; [right; by rewrite Z.lor_0_r|]. left. apply elem_of_eff_seeds. right.
      exists (Z.to_nat y), (g y). split_and!; [lia|by apply (proj2 Hd)|done].
    + intros x k Hx Hk. exists x. split; [done|]. by apply Ho.
  - pose proof (length_eff_seeds (direct b) 0 []) as Hl. cbn [length] in Hl.
    pose proof (sum_le headroom 3 (direct b)) as Hs. unfold headroom in Hs at 1. rewrite list.Forall_forall in Hs.
    assert (sum_list_with headroom (direct b) ≤ 3 * length (direct b))%nat; [|lia]. apply Hs. intros e He.
    apply list_elem_of_lookup_1 in He as [i Hi]. pose proof (rep_inv _ _ _ (Z.of_nat i) e Hd) as Hi'. rewrite Nat2Z.id in Hi'. destruct (Hi' Hi) as [-> ?]; [lia|]. pose proof (Hv (Z.of_nat i)). lia.
  - exists eff. split_and!; [done|done|by apply (rep_len _ _ _ Hr')|]. intros x e k He Hx. destruct (rep_inv _ _ _ x e Hr' He Hx) as [-> Hxn].
    apply (rtc_closed (local_call base evs) (λ x, 0 ≤ x < Z.of_nat n) (λ x, Z.testbit (g' x) k = true)); [| | | |lia].
    + intros y z Hyz. by eapply local_call_range.
    + intros y Hy Hs. by apply Hup, Ho.
    + intros y z Hyz Hz. apply Hedge in Hyz. destruct (Hcl z y Hyz) as [H|<-]; [by apply not_elem_of_nil in H|]. by rewrite Z.lor_spec, Hz, orb_true_r.
    + intros y Hy Hg. by apply Hso.
Qed.

(** * Witness *)

(** A local function that grows a memory, one that sets a global, and their callers. *)
Definition sample_effects : list Event := [Mark 0 1; Mark 1 2; Call 2 1; Call 2 2; Call 3 3; Call 3 4; Call 4 0].

Example sample_call_effects :
  (let* b := record_all record_effect (newCallEffectsBuilder 6 1) sample_effects in solve b) = Ok [1; 2; 3; 3; 3; 0].
Proof. reflexivity. Qed.

Lemma callEffects_exact_witness :
  ∃ b effects, record_all record_effect (newCallEffectsBuilder 6 1) sample_effects = Ok b ∧ solve b = Ok effects ∧
    zlen effects = Z.of_nat 6 ∧
    ∀ x e k, effects !! Z.to_nat x = Some e → 0 ≤ x →
      (Z.testbit e k = true ↔ ∃ y, rtc (local_call 1 sample_effects) x y ∧ own_effect 1 sample_effects k y).
Proof.
  apply (callEffects_exact 1 6 sample_effects); [lia|lia| |by vm_compute].
  do 7 (apply Forall_cons_2; [repeat split; by vm_compute|]). by apply Forall_nil_2.
Defined.
