(* ===== verification/Tarjan.v ===== *)
(** Strongly connected components: [tarjan] of [internal/wasm/entry_check.go].

    The code keeps its own stack of frames rather than recursing; a frame is a node
    and the position of its next edge.  [tarjan_step] is one round of the loop over
    the frames, and [Inv] the invariant each round keeps: which nodes have been
    numbered, what is on the stack of unfinished nodes, what [low] says, and what
    the components found so far are.  The result: every node in exactly one
    component, two nodes in the same one exactly when each reaches the other, and no
    edge from a component to a later one. *)
From Stdlib Require Import ZArith Lia Sorted.
From stdpp Require Import base list numbers option tactics relations.
From S2P Require Import Prelude CallRows.
Local Open Scope Z_scope.
Local Open Scope go_scope.

(** * Code *)

Definition unvisited : Z := -1.

(** The variables of the function; both stacks are lists with their top first. *)
Record tstate := mkT {
  index : list Z; low : list Z; onStack : list bool; stack : list Z;
  sccs : list (list Z); frames : list (Z * Z); next : Z
}.

(** Number the node [w] and push it: what the code does for a root and for the
    target of an edge it has not visited. *)
Definition enter (start : list Z) (w : Z) (frames : list (Z * Z)) (s : tstate) : outcome unit tstate :=
  let* ix := aset (index s) w (next s) in
  let* lw := aset (low s) w (next s) in
  let* on := aset (onStack s) w true in
  let* first := aget start w in
  Ok (mkT ix lw on (w :: stack s) (sccs s) ((w, first) :: frames) (i32 (next s + 1))).

(** Pop a component off the stack, down to its root [v]. *)
Fixpoint pop_scc (v : Z) (stack : list Z) (on : list bool) (scc : list Z) : outcome unit (list Z * list bool * list Z) :=
  match stack with
  | [] => Panic
  | w :: stack =>
      let* on := aset on w false in
      if w =? v then Ok (stack, on, scc ++ [w]) else pop_scc v stack on (scc ++ [w])
  end.

(** The two halves of a round: the edge at [nx] is taken, or the node [v] of the top
    frame has none left and is finished. *)
Definition take_edge (start succ : list Z) (s : tstate) (v nx : Z) (rest : list (Z * Z)) : outcome unit tstate :=
  let* w := aget succ nx in
  let fr := (v, u32 (nx + 1)) :: rest in
  let* iw := aget (index s) w in
  if iw =? unvisited then enter start w fr s
  else
    let* on := aget (onStack s) w in
    if on then
      let* lv := aget (low s) v in
      let* lw := aset (low s) v (Z.min lv iw) in
      Ok (mkT (index s) lw (onStack s) (stack s) (sccs s) fr (next s))
    else Ok (mkT (index s) (low s) (onStack s) (stack s) (sccs s) fr (next s)).

Definition lower_parent (s : tstate) (v : Z) (rest : list (Z * Z)) : outcome unit (list Z) :=
  match rest with
  | [] => Ok (low s)
  | (parent, _) :: _ =>
      let* lp := aget (low s) parent in
      let* lv := aget (low s) v in
      aset (low s) parent (Z.min lp lv)
  end.

Definition finish_node (s : tstate) (v : Z) (rest : list (Z * Z)) : outcome unit tstate :=
  let* lw := lower_parent s v rest in
  let* lv := aget lw v in
  let* iv := aget (index s) v in
  if lv =? iv then
    let* '(st, on, scc) := pop_scc v (stack s) (onStack s) [] in
    Ok (mkT (index s) lw on st (sccs s ++ [scc]) rest (next s))
  else Ok (mkT (index s) lw (onStack s) (stack s) (sccs s) rest (next s)).

(** One round of [for len(frames) > 0]. *)
Definition tarjan_step (start succ : list Z) (s : tstate) : outcome unit tstate :=
  match frames s with
  | [] => Ok s
  | (v, nx) :: rest =>
      let* last := aget start (v + 1) in
      if nx <? last then take_edge start succ s v nx rest else finish_node s v rest
  end.

Fixpoint tarjan_loop (fuel : nat) (start succ : list Z) (s : tstate) : outcome unit tstate :=
  match frames s with
  | [] => Ok s
  | _ :: _ =>
      match fuel with
      | O => NoFuel
      | S fuel => let* s := tarjan_step start succ s in tarjan_loop fuel start succ s
      end
  end.

(** [for root := 0; root < n; root++], from [root], [k] rounds. *)
Fixpoint tarjan_roots (k : nat) (fuel : nat) (root : Z) (start succ : list Z) (s : tstate) : outcome unit tstate :=
  match k with
  | O => Ok s
  | S k =>
      let* ir := aget (index s) root in
      if negb (ir =? unvisited) then tarjan_roots k fuel (root + 1) start succ s
      else
        let* s := enter start root [] s in
        let* s := tarjan_loop fuel start succ s in
        tarjan_roots k fuel (root + 1) start succ s
  end.

(** A round takes an edge or finishes a node: no more rounds than there are of both. *)
Definition tarjan (n : nat) (start succ : list Z) : outcome unit (list (list Z)) :=
  let s := mkT (replicate n unvisited) (replicate n 0) (replicate n false) [] [] [] 0 in
  let* s := tarjan_roots n (length succ + n) 0 start succ s in
  Ok (sccs s).

(** * The graph *)

(** A graph on the nodes below [n]: the node [v] has the successors [adj v], which
    are the slice of [succ] from [st v] to [st (v + 1)]. *)
Record is_graph (n : Z) (start succ : list Z) (st : Z → Z) (adj : Z → list Z) : Prop := {
  g_size : 0 ≤ n < 2 ^ 31 - 1;
  g_start : rep (n + 1) start st;
  g_mono : ∀ v, 0 ≤ v < n → 0 ≤ st v ≤ st (v + 1);
  g_edges : 0 ≤ st 0 ∧ st n ≤ zlen succ;
  g_width : zlen succ < 2 ^ 32;
  g_row : ∀ v, 0 ≤ v < n → aslice succ (st v) (st (v + 1)) = Ok (adj v);
  g_adj : ∀ v w, 0 ≤ v < n → w ∈ adj v → 0 ≤ w < n;
}.

(** What a component list promises: no edge leads from a component to a later one,
    and in each everything reaches everything. *)
Definition edge (n : Z) (adj : Z → list Z) (v w : Z) : Prop := 0 ≤ v < n ∧ w ∈ adj v.

Definition callees_first (n : Z) (adj : Z → list Z) (comps : list (list Z)) : Prop :=
  ∀ i c v w, comps !! i = Some c → v ∈ c → edge n adj v w → w ∈ concat (take (S i) comps).

Definition strong (n : Z) (adj : Z → list Z) (comps : list (list Z)) : Prop :=
  ∀ c, c ∈ comps → c ≠ [] ∧ ∀ x y, x ∈ c → y ∈ c → rtc (edge n adj) x y.

Section graph.
Context (n : Z) (start succ : list Z) (st : Z → Z) (adj : Z → list Z) (G : is_graph n start succ st adj).
Abbreviation E := (edge n adj).

Lemma graph_bounds v : 0 ≤ v < n → 0 ≤ st v ∧ st v ≤ st (v + 1) ∧ st (v + 1) ≤ zlen succ.
Proof using G.
  intros Hv. pose proof (g_mono _ _ _ _ _ G v Hv). split_and!; try lia.
  assert (∀ k : nat, v + 1 + Z.of_nat k ≤ n → st (v + 1) ≤ st (v + 1 + Z.of_nat k)) as Hm.
  { induction k as [|k IH]; intros Hk; [rewrite Z.add_0_r; lia|].
    pose proof (g_mono _ _ _ _ _ G (v + 1 + Z.of_nat k)). replace (v + 1 + Z.of_nat (S k)) with (v + 1 + Z.of_nat k + 1) by lia. specialize (IH ltac:(lia)). lia. }
  specialize (Hm (Z.to_nat (n - (v + 1)))). pose proof (g_edges _ _ _ _ _ G). replace (v + 1 + Z.of_nat (Z.to_nat (n - (v + 1)))) with n in Hm by lia. lia.
Qed.

Lemma adj_length v : 0 ≤ v < n → zlen (adj v) = st (v + 1) - st v.
Proof using G.
  intros Hv. pose proof (g_row _ _ _ _ _ G v Hv) as H. pose proof (graph_bounds v Hv). rewrite aslice_in in H by lia. injection H as <-.
  unfold zlen in *. rewrite length_take, length_drop. lia.
Qed.

Lemma adj_get v k : 0 ≤ v < n → st v ≤ k < st (v + 1) →
  ∃ w, aget succ k = Ok w ∧ adj v !! Z.to_nat (k - st v) = Some w ∧ E v w ∧ 0 ≤ w < n.
Proof using G.
  intros Hv Hk. pose proof (g_row _ _ _ _ _ G v Hv) as H. pose proof (graph_bounds v Hv) as Hb. rewrite aslice_in in H by lia. injection H as H.
  destruct (lookup_lt_is_Some_2 succ (Z.to_nat k)) as [w Hw]; [unfold zlen in Hb; lia|].
  assert (adj v !! Z.to_nat (k - st v) = Some w) as Ha.
  { rewrite <- H, lookup_take_lt by lia. rewrite lookup_drop. by replace (Z.to_nat (st v) + Z.to_nat (k - st v))%nat with (Z.to_nat k) by lia. }
  assert (w ∈ adj v) as Hin by (by eapply list_elem_of_lookup_2).
  exists w. split; [by apply aget_lookup; [lia|]|]. split; [done|]. split; [done|]. by eapply (g_adj _ _ _ _ _ G).
Qed.

(** The edges of [v] a frame at position [k] has taken. *)
Definition taken (v k : Z) : list Z := take (Z.to_nat (k - st v)) (adj v).

Lemma taken_first v : taken v (st v) = [].
Proof using. unfold taken. by rewrite Z.sub_diag. Qed.

Lemma taken_all v k : 0 ≤ v < n → st (v + 1) ≤ k → taken v k = adj v.
Proof using G. intros Hv Hk. apply take_ge. pose proof (adj_length v Hv) as H. unfold zlen in H. lia. Qed.

Lemma elem_of_taken_succ v k w x : st v ≤ k → adj v !! Z.to_nat (k - st v) = Some w → x ∈ taken v (k + 1) ↔ x ∈ taken v k ∨ x = w.
Proof using.
  intros Hk Hw. unfold taken. replace (Z.to_nat (k + 1 - st v)) with (S (Z.to_nat (k - st v))) by lia.
  by rewrite (take_S_r _ _ w Hw), elem_of_app, list_elem_of_singleton.
Qed.

Lemma taken_adj v k x : x ∈ taken v k → x ∈ adj v.
Proof using. intros H. apply list_elem_of_lookup_1 in H as [i Hi]. apply lookup_take_Some in Hi as [Hi _]. by eapply list_elem_of_lookup_2. Qed.

(** * The invariant *)

Abbreviation gray fr := (fr.*1).

(** The edge from [v] to [w] has been taken: [v] is finished or its frame has. *)
Definition explored (fr : list (Z * Z)) (v w : Z) : Prop :=
  (∃ k, (v, k) ∈ fr ∧ w ∈ taken v k) ∨ ((v ∉ gray fr) ∧ w ∈ adj v).

(** [pend] may hold a node whose edge has been taken and that is not numbered yet. *)
Record Inv (pend : list Z) (ix lw : Z → Z) (stk : list Z) (comps : list (list Z)) (fr : list (Z * Z)) (nxt : Z) : Prop := {
  j_range : ∀ v, v ∈ stk ++ concat comps → 0 ≤ v < n;
  j_nodup : NoDup (stk ++ concat comps);
  j_new : ∀ v, 0 ≤ v < n → ix v = unvisited ↔ v ∉ stk ++ concat comps;
  j_index : ∀ v, v ∈ stk ++ concat comps → 0 ≤ ix v < nxt;
  j_next : nxt = zlen (stk ++ concat comps);
  j_sorted : StronglySorted (λ a b, ix b < ix a) stk;
  j_gray : sublist (gray fr) stk;
  j_pos : ∀ v k, (v, k) ∈ fr → st v ≤ k ≤ st (v + 1);
  j_path : Sorted (λ a b, E b a) (gray fr);
  j_seen : ∀ v w, v ∈ stk → explored fr v w → w ∈ stk ++ concat comps ∨ w ∈ pend;
  j_back : ∀ v w, v ∈ stk → explored fr v w → w ∈ stk → lw v ≤ ix w;
  j_low : ∀ v, v ∈ stk → lw v ≤ ix v ∧ ∃ y, y ∈ stk ∧ ix y = lw v ∧ rtc E v y;
  j_black : ∀ v, v ∈ stk → v ∉ gray fr → lw v < ix v;
  j_owner : ∀ v, v ∈ stk → ∃ g, g ∈ gray fr ∧ ix g ≤ ix v ∧ rtc E g v ∧ lw g ≤ lw v ∧ ∀ g', g' ∈ gray fr → ix g' ≤ ix v → ix g' ≤ ix g;
  j_closed : callees_first n adj comps;
  j_strong : strong n adj comps;
}.

Implicit Types (ix lw : Z → Z) (stk pend : list Z) (comps : list (list Z)) (fr rest : list (Z * Z)).

Definition upd {A} (f : Z → A) (i : Z) (x : A) (j : Z) : A := if j =? i then x else f j.

Lemma upd_eq {A} (f : Z → A) i x : upd f i x i = x.
Proof using. unfold upd. by rewrite Z.eqb_refl. Qed.

Lemma upd_ne {A} (f : Z → A) i x j : j ≠ i → upd f i x j = f j.
Proof using. intros H. unfold upd. by destruct (Z.eqb_spec j i). Qed.

Lemma gray_stack pend ix lw stk comps fr nxt v : Inv pend ix lw stk comps fr nxt → v ∈ gray fr → v ∈ stk.
Proof using. intros J Hv. eapply elem_of_sublist; [done|exact (j_gray _ _ _ _ _ _ _ J)]. Qed.

Lemma gray_nodup pend ix lw stk comps fr nxt : Inv pend ix lw stk comps fr nxt → NoDup (gray fr).
Proof using. intros J. eapply sublist_NoDup; [|exact (j_gray _ _ _ _ _ _ _ J)]. by destruct (proj1 (NoDup_app _ _) (j_nodup _ _ _ _ _ _ _ J)). Qed.

Lemma StronglySorted_sublist {A} (R : A → A → Prop) (l k : list A) : sublist l k → StronglySorted R k → StronglySorted R l.
Proof using.
  induction 1 as [|x l k Hs IH|x l k Hs IH]; intros Hk; [done| |]; inversion_clear Hk as [|?? Hk' Hf]; [|auto].
  constructor; [auto|]. rewrite list.Forall_forall in *. intros y Hy. apply Hf. eapply elem_of_sublist; [done|exact Hs].
Qed.

(** The other frames are below the top one. *)
Lemma gray_below pend ix lw stk comps v k rest nxt g :
  Inv pend ix lw stk comps ((v, k) :: rest) nxt → g ∈ gray rest → g ≠ v ∧ ix g < ix v.
Proof using.
  intros J Hg. pose proof (StronglySorted_sublist _ _ _ (j_gray _ _ _ _ _ _ _ J) (j_sorted _ _ _ _ _ _ _ J)) as Hs. cbn in Hs.
  inversion_clear Hs as [|?? _ Hf]. rewrite list.Forall_forall in Hf. specialize (Hf g Hg). cbn in Hf. split; [intros ->; lia|done].
Qed.

(** Taking an edge that leads to a numbered node, or to one about to be. *)
Lemma Inv_take ix lw lw' stk comps v k rest nxt pend w :
  Inv [] ix lw stk comps ((v, k) :: rest) nxt → st v ≤ k < st (v + 1) → adj v !! Z.to_nat (k - st v) = Some w →
  (∀ x, x ≠ v → lw' x = lw x) → lw' v ≤ lw v → (w ∈ stk → lw' v ≤ ix w) →
  (∃ y, y ∈ stk ∧ ix y = lw' v ∧ rtc E v y) → (w ∈ stk ++ concat comps ∨ w ∈ pend) →
  Inv pend ix lw' stk comps ((v, k + 1) :: rest) nxt.
Proof using.
  intros J Hk Hw Hne Hle Hback Hlow Hpend. pose proof (gray_nodup _ _ _ _ _ _ _ J) as Hnd. cbn in Hnd. apply list.NoDup_cons in Hnd as [Hv _].
  assert (∀ x, lw' x ≤ lw x) as Hle' by (intros x; destruct (decide (x = v)) as [->|]; [done|rewrite Hne by done; lia]).
  assert (∀ x y, explored ((v, k + 1) :: rest) x y → explored ((v, k) :: rest) x y ∨ (x = v ∧ y = w)) as Hex.
  { intros x y [(i & Hi & Hy)|[Hx Hy]]; [|by left; right].
    apply elem_of_cons in Hi as [[= -> ->]|Hi]; [|left; left; exists i; split; [by right|done]].
    apply (elem_of_taken_succ v k w) in Hy as [Hy| ->]; [|by right|lia|done]. left. left. exists k. split; [left|done]. }
  destruct J as [Hra Hnod Hnew Hidx Hnx Hso Hgr Hpos Hpath Hseen Hbk Hlo Hbl Hown Hcl Hstr]. split; try done.
  - intros x i [[= -> ->]|Hi]%elem_of_cons; [lia|]. apply Hpos. by right.
  - intros x y Hx [Hy|[-> ->]]%Hex; [|done]. destruct (Hseen x y Hx Hy) as [?|H]; [by left|by apply not_elem_of_nil in H].
  - intros x y Hx [Hy|[-> ->]]%Hex Hys; [|auto]. specialize (Hle' x). specialize (Hbk x y Hx Hy Hys). lia.
  - intros x Hx. destruct (decide (x = v)) as [->|Hxv]; [|rewrite Hne by done; auto]. split; [|done]. destruct (Hlo v Hx). lia.
  - intros x Hx Hxg. specialize (Hle' x). specialize (Hbl x Hx Hxg). lia.
  - intros x Hx. destruct (decide (x = v)) as [->|Hxv].
    + exists v. split_and!; [left|lia|done|lia|done].
    + rewrite (Hne x) by done. destruct (Hown x Hx) as (g & Hg & ? & ? & ? & ?). exists g. split_and!; try done. specialize (Hle' g). lia.
Qed.

(** Numbering a node and pushing it. *)
Lemma Inv_enter pend ix lw stk comps fr nxt w :
  Inv pend ix lw stk comps fr nxt → pend ⊆ [w] → 0 ≤ w < n → ix w = unvisited →
  (match fr with [] => True | (v, _) :: _ => E v w end) →
  Inv [] (upd ix w nxt) (upd lw w nxt) (w :: stk) comps ((w, st w) :: fr) (nxt + 1).
Proof using G.
  intros J Hpend Hwn Hw Hedge. pose proof (λ v, gray_stack _ _ _ _ _ _ _ v J) as Hgs.
  destruct J as [Hra Hnod Hnew Hidx Hnx Hso Hgr Hpos Hpath Hseen Hbk Hlo Hbl Hown Hcl Hstr].
  assert (w ∉ stk ++ concat comps) as Hwo by by apply Hnew. assert (w ∉ stk) as Hws by (intros ?; apply Hwo, elem_of_app; by left).
  assert (∀ v, v ∈ stk ++ concat comps → v ≠ w) as Hne by (by intros v Hv ->).
  assert (∀ v, v ∈ stk → v ≠ w) as Hnes by (by intros v Hv ->).
  assert (∀ x y, x ∈ w :: stk → explored ((w, st w) :: fr) x y → x ∈ stk ∧ explored fr x y) as Hex.
  { intros x y Hx [(i & Hi & Hy)|[Hxg Hy]].
    - apply elem_of_cons in Hi as [[= -> ->]|Hi]; [rewrite taken_first in Hy; by apply not_elem_of_nil in Hy|].
      split; [|left; by exists i]. apply Hgs. apply list_elem_of_fmap. by exists (x, i).
    - cbn in Hxg. apply not_elem_of_cons in Hxg as [? ?]. apply elem_of_cons in Hx as [?|?]; [done|]. split; [done|by right]. }
  pose proof (graph_bounds w Hwn) as Hb. split; cbn; try done.
  - intros v [->|Hv]%elem_of_cons; [done|auto].
  - by apply NoDup_cons_2.
  - intros v Hv. rewrite not_elem_of_cons. destruct (decide (v = w)) as [->|Hvw].
    + rewrite upd_eq. unfold unvisited. pose proof (zlen_nonneg (stk ++ concat comps)). split; [lia|tauto].
    + rewrite upd_ne, Hnew by done. tauto.
  - intros v [->|Hv]%elem_of_cons; [rewrite upd_eq; pose proof (zlen_nonneg (stk ++ concat comps)); lia|].
    rewrite upd_ne by auto. specialize (Hidx v Hv). lia.
  - rewrite zlen_cons. lia.
  - constructor.
    + clear -Hso Hnes. induction Hso as [|a l Hl IH Hf]; [constructor|]. constructor; [apply IH; intros v Hv; apply Hnes; by right|].
      rewrite list.Forall_forall in *. intros x Hx. rewrite !upd_ne by (apply Hnes; by (left || right)). auto.
    + apply list.Forall_forall. intros x Hx. rewrite upd_eq, upd_ne by auto. apply Hidx. apply elem_of_app. by left.
  - by apply sublist_skip.
  - intros v k [[= -> ->]|Hi]%elem_of_cons; [lia|auto].
  - constructor; [done|]. destruct fr as [|[p i] fr]; cbn; by constructor.
  - intros x y Hx Hy. left. destruct (Hex x y Hx Hy) as [Hxs Hy']. destruct (Hseen x y Hxs Hy') as [?|H%Hpend]; [by right|].
    apply list_elem_of_singleton in H as ->. left.
  - intros x y Hx Hy Hys. destruct (Hex x y Hx Hy) as [Hxs Hy']. rewrite (upd_ne lw) by auto. apply elem_of_cons in Hys as [->|Hys].
    + rewrite upd_eq. destruct (Hlo x Hxs) as [? _]. pose proof (Hidx x ltac:(apply elem_of_app; by left)). lia.
    + rewrite upd_ne by auto. auto.
  - intros v [->|Hv]%elem_of_cons.
    + rewrite !upd_eq. split; [lia|]. exists w. rewrite upd_eq. split_and!; [left|done|done].
    + rewrite !upd_ne by auto. destruct (Hlo v Hv) as (? & y & Hy & ? & ?). split; [done|]. exists y. rewrite upd_ne by auto. split_and!; [by right|done|done].
  - intros v Hv Hvg. apply not_elem_of_cons in Hvg as [? ?]. apply elem_of_cons in Hv as [?|Hv]; [done|]. rewrite !upd_ne by auto. auto.
  - intros v [->|Hv]%elem_of_cons.
    + exists w. rewrite !upd_eq. split_and!; [left|lia|done|lia|done].
    + destruct (Hown v Hv) as (g & Hg & ? & ? & ? & Hmax). exists g. rewrite !upd_ne by auto. split_and!; try done; [by right|].
      intros g' [->|Hg']%elem_of_cons; [|rewrite upd_ne by auto; auto]. rewrite upd_eq. pose proof (Hidx v ltac:(apply elem_of_app; by left)). lia.
Qed.

(** What the code does to [low] of the parent of a finished node. *)
Definition lowered (lw : Z → Z) (v : Z) (rest : list (Z * Z)) : Z → Z :=
  match rest with [] => lw | (p, _) :: _ => upd lw p (Z.min (lw p) (lw v)) end.

(** Finishing a node turns its frame's edges into explored ones and nothing else. *)
Lemma explored_finish v k rest x y :
  0 ≤ v < n → st (v + 1) ≤ k → explored rest x y → explored ((v, k) :: rest) x y.
Proof using G.
  intros Hv Hk [(i & Hi & Hy)|[Hx Hy]]; [left; exists i; split; [by right|done]|].
  destruct (decide (x = v)) as [->|Hxv]; [left; exists k; rewrite taken_all by done; split; [left|done]|].
  right. cbn. rewrite not_elem_of_cons. done.
Qed.

(** The largest frame at or below a node is its owner. *)
Lemma owner_top pend ix lw stk comps v k rest nxt x g :
  Inv pend ix lw stk comps ((v, k) :: rest) nxt → ix v ≤ ix x → g ∈ gray ((v, k) :: rest) →
  (∀ g', g' ∈ gray ((v, k) :: rest) → ix g' ≤ ix x → ix g' ≤ ix g) → g = v.
Proof using.
  intros J Hx Hg Hmax. apply elem_of_cons in Hg as [->|Hg]; [done|]. destruct (gray_below _ _ _ _ _ _ _ _ _ _ J Hg) as [_ ?].
  specialize (Hmax v ltac:(left) Hx). lia.
Qed.

Lemma Inv_retreat ix lw stk comps v k rest nxt :
  Inv [] ix lw stk comps ((v, k) :: rest) nxt → st (v + 1) ≤ k → lw v ≠ ix v →
  Inv [] ix (lowered lw v rest) stk comps rest nxt.
Proof using G.
  intros J Hk Hne. pose proof (gray_nodup _ _ _ _ _ _ _ J) as Hnd. cbn in Hnd. apply list.NoDup_cons in Hnd as [Hv _].
  assert (v ∈ stk) as Hvs by (eapply gray_stack; [exact J|left]). pose proof (j_range _ _ _ _ _ _ _ J v ltac:(apply elem_of_app; by left)) as Hvn.
  pose proof (λ g, gray_below _ _ _ _ _ _ _ _ _ g J) as Hbelow. pose proof (λ x g, owner_top _ _ _ _ _ _ _ _ _ x g J) as Htop.
  pose proof (λ x y, explored_finish v k rest x y Hvn Hk) as Hex.
  destruct J as [Hra Hnod Hnew Hidx Hnx Hso Hgr Hpos Hpath Hseen Hbk Hlo Hbl Hown Hcl Hstr].
  destruct (Hlo v Hvs) as (Hlv & y & Hy & Hyl & Hvy).
  destruct rest as [|[p i] rest].
  { destruct (Hown y Hy) as (g & Hg & Hgy & _). apply list_elem_of_singleton in Hg as ->. cbn in Hgy. lia. }
  assert (p ≠ v ∧ ix p < ix v) as [Hpv Hpi] by (apply Hbelow; left).
  assert (E p v) as Hedge by (cbn in Hpath; apply Sorted_inv in Hpath as [_ Hh]; by inversion Hh).
  assert (p ∈ stk) as Hps by (eapply elem_of_sublist; [|exact Hgr]; right; left).
  cbn [lowered]. set (lw1 := upd lw p (Z.min (lw p) (lw v))).
  assert (∀ x, x ≠ p → lw1 x = lw x) as Hlw1 by (intros x Hx; by apply upd_ne).
  assert (lw1 p = Z.min (lw p) (lw v)) as Hlwp by apply upd_eq.
  assert (∀ x, lw1 x ≤ lw x) as Hle by (intros x; destruct (decide (x = p)) as [->|]; [lia|rewrite Hlw1 by done; lia]).
  split; try done.
  - etrans; [|exact Hgr]. by apply sublist_cons.
  - intros x j Hx. apply Hpos. by right.
  - cbn in Hpath. by apply Sorted_inv in Hpath as [? _].
  - intros x z Hx Hz%Hex. by apply (Hseen x z).
  - intros x z Hx Hz%Hex Hzs. specialize (Hle x). specialize (Hbk x z Hx Hz Hzs). lia.
  - intros x Hx. destruct (decide (x = p)) as [->|Hxp]; [|rewrite Hlw1 by done; auto]. rewrite Hlwp. destruct (Hlo p Hx) as (Hlp & y' & Hy' & Hyl' & Hpy). split; [lia|].
    destruct (Z.le_gt_cases (lw p) (lw v)); [exists y'; split_and!; [done|lia|done]|]. exists y. split_and!; [done|lia|by apply rtc_l with v].
  - intros x Hx Hxg. destruct (decide (x = v)) as [->|Hxv]; [rewrite Hlw1 by done; lia|].
    specialize (Hle x). specialize (Hbl x Hx). rewrite Hlw1 by (intros ->; apply Hxg; left). apply Hbl. apply not_elem_of_cons. done.
  - intros x Hx. destruct (decide (x = p)) as [->|Hxp]; [exists p; split_and!; [left|lia|done|lia|done]|]. rewrite (Hlw1 x) by done.
    destruct (Hown x Hx) as (g & Hg & Hgx & Hgr' & Hgl & Hmax). destruct (decide (g = v)) as [->|Hgv].
    + exists p. rewrite Hlwp. split_and!; [left|lia|by apply rtc_l with v|lia|].
      intros g' [->|Hg']%elem_of_cons _; [cbn; lia|]. clear -Hgr Hso Hg'. pose proof (StronglySorted_sublist _ _ _ Hgr Hso) as Hs. cbn in Hs.
      inversion_clear Hs as [|?? Hs' _]. inversion_clear Hs' as [|?? _ Hf].
      rewrite list.Forall_forall in Hf. specialize (Hf g' Hg'). cbn in Hf. lia.
    + exists g. apply elem_of_cons in Hg as [?|Hg]; [done|]. split_and!; try done; [specialize (Hle g); lia|]. intros g' Hg'. apply Hmax. by right.
Qed.

(** A node that reaches nothing below itself is the root of a component, which is
    the part of the stack down to it. *)
Section pop.
Context ix lw seg rst comps v k rest nxt (J : Inv [] ix lw (seg ++ v :: rst) comps ((v, k) :: rest) nxt).
Context (Hk : st (v + 1) ≤ k) (Hroot : lw v = ix v).

Lemma pop_above x : x ∈ seg ++ [v] → ix v ≤ ix x.
Proof using J.
  pose proof (j_sorted _ _ _ _ _ _ _ J) as Hs. clear -Hs. induction seg as [|a l IH]; cbn in *.
  - intros ->%list_elem_of_singleton. lia.
  - inversion_clear Hs as [|?? Hs' Hf]. rewrite list.Forall_forall in Hf. intros [->|Hx]%elem_of_cons; [|auto].
    specialize (Hf v ltac:(apply elem_of_app; right; left)). cbn in Hf. lia.
Qed.

Lemma pop_below x : x ∈ rst → ix x < ix v.
Proof using J.
  pose proof (j_sorted _ _ _ _ _ _ _ J) as Hs. clear -Hs. induction seg as [|a l IH]; cbn in *; inversion_clear Hs as [|?? Hs' Hf]; [|auto].
  rewrite list.Forall_forall in Hf. intros Hx. apply (Hf x Hx).
Qed.

Lemma pop_split x : x ∈ seg ++ v :: rst ↔ x ∈ seg ++ [v] ∨ x ∈ rst.
Proof using. rewrite !elem_of_app, elem_of_cons, list_elem_of_singleton. tauto. Qed.

Lemma pop_stack x : x ∈ seg ++ v :: rst → ix v ≤ ix x → x ∈ seg ++ [v].
Proof using J. intros [?|H]%pop_split ?; [done|]. apply pop_below in H. lia. Qed.

Lemma pop_range : 0 ≤ v < n.
Proof using J. apply (j_range _ _ _ _ _ _ _ J). rewrite !elem_of_app. left. right. left. Qed.

(** Nothing in the part has a successor below it. *)
Lemma pop_edges x y : x ∈ seg ++ [v] → E x y → y ∈ concat comps ∨ y ∈ seg ++ [v].
Proof using G J Hk Hroot.
  intros Hx [Hxn Hy]. pose proof (pop_above x Hx) as Hxi. assert (x ∈ seg ++ v :: rst) as Hxs by (apply pop_split; by left).
  assert (explored ((v, k) :: rest) x y) as He.
  { destruct (decide (x = v)) as [->|Hxv]; [left; exists k; rewrite taken_all by done; split; [left|done]|]. right. split; [|done].
    intros [?|Hg]%elem_of_cons; [done|]. destruct (gray_below _ _ _ _ _ _ _ _ _ _ J Hg). lia. }
  destruct (j_seen _ _ _ _ _ _ _ J x y Hxs He) as [[Hys|Hyd]%elem_of_app|H]; [|by left|by apply not_elem_of_nil in H].
  right. apply pop_stack; [done|]. pose proof (j_back _ _ _ _ _ _ _ J x y Hxs He Hys).
  destruct (j_owner _ _ _ _ _ _ _ J x Hxs) as (g & Hg & _ & _ & Hgl & Hmax). rewrite (owner_top _ _ _ _ _ _ _ _ _ x g J Hxi Hg Hmax) in Hgl. lia.
Qed.

(** Everything in the part reaches everything in it, through the root. *)
Lemma pop_strong x y : x ∈ seg ++ [v] → y ∈ seg ++ [v] → rtc E x y.
Proof using J Hroot.
  assert (∀ x, x ∈ seg ++ [v] → rtc E v x) as Hdown.
  { intros z Hz. destruct (j_owner _ _ _ _ _ _ _ J z ltac:(apply pop_split; by left)) as (g & Hg & _ & Hr & _ & Hmax).
    by rewrite (owner_top _ _ _ _ _ _ _ _ _ z g J (pop_above z Hz) Hg Hmax) in Hr. }
  assert (∀ b : nat, ∀ x, x ∈ seg ++ [v] → ix x ≤ Z.of_nat b → rtc E x v) as Hup.
  { induction b as [b IH] using lt_wf_ind. intros z Hz Hb. destruct (decide (z = v)) as [->|Hzv]; [done|].
    assert (z ∈ seg ++ v :: rst) as Hzs by (apply pop_split; by left). destruct (j_low _ _ _ _ _ _ _ J z Hzs) as (_ & w & Hw & Hwl & Hr).
    pose proof (pop_above z Hz) as Hzi.
    destruct (j_owner _ _ _ _ _ _ _ J z Hzs) as (g & Hg & _ & _ & Hgl & Hmax). rewrite (owner_top _ _ _ _ _ _ _ _ _ z g J Hzi Hg Hmax) in Hgl.
    assert (w ∈ seg ++ [v]) as Hwv by (apply pop_stack; [done|lia]).
    assert (lw z < ix z) as Hlt.
    { apply (j_black _ _ _ _ _ _ _ J z Hzs). intros [?|Hz']%elem_of_cons; [done|]. destruct (gray_below _ _ _ _ _ _ _ _ _ _ J Hz'). lia. }
    pose proof (j_index _ _ _ _ _ _ _ J w ltac:(apply elem_of_app; by left)). etrans; [exact Hr|]. apply (IH (Z.to_nat (ix w))); [lia|done|lia]. }
  intros Hx Hy. etrans; [apply (Hup (Z.to_nat (ix x)) x Hx)|by apply Hdown].
  pose proof (j_index _ _ _ _ _ _ _ J x ltac:(apply elem_of_app; left; apply pop_split; by left)). lia.
Qed.

Lemma pop_nodes : rst ++ concat (comps ++ [seg ++ [v]]) ≡ₚ (seg ++ v :: rst) ++ concat comps.
Proof using.
  rewrite concat_app. cbn. rewrite app_nil_r. rewrite (Permutation_app_comm (concat comps)), (app_assoc rst), (Permutation_app_comm rst), <- (app_assoc seg). done.
Qed.

Lemma pop_lowered x : lowered lw v rest x = lw x.
Proof using J Hroot.
  destruct rest as [|[p i] rest']; [done|]. cbn. unfold upd. destruct (Z.eqb_spec x p) as [->|]; [|done].
  destruct (gray_below _ _ _ _ _ _ _ _ _ p J) as [_ Hp]; [left|].
  destruct (j_low _ _ _ _ _ _ _ J p) as [Hl _]; [|lia]. eapply gray_stack; [exact J|]. right. left.
Qed.

Lemma pop_gray : sublist (gray rest) rst.
Proof using J.
  pose proof (j_gray _ _ _ _ _ _ _ J) as Hs. cbn in Hs. assert (sublist (gray rest) ((seg ++ [v]) ++ rst)) as Hs'.
  { rewrite <- app_assoc. cbn. etrans; [|exact Hs]. by apply sublist_cons. }
  apply sublist_app_r in Hs' as (l1 & l2 & El & H1 & H2). destruct l1 as [|a l1]; [by rewrite El|].
  assert (a ∈ seg ++ [v]) as Ha by (eapply elem_of_sublist; [|exact H1]; left). apply pop_above in Ha.
  destruct (gray_below _ _ _ _ _ _ _ _ _ a J) as [_ ?]; [rewrite El; left|lia].
Qed.

Lemma pop_closed : callees_first n adj (comps ++ [seg ++ [v]]).
Proof using G J Hk Hroot.
  intros i c x y Hi Hx Hxy. apply lookup_app_Some in Hi as [Hi|[Hi Hc]].
  - pose proof (lookup_lt_Some _ _ _ Hi). rewrite take_app_le by lia. by eapply (j_closed _ _ _ _ _ _ _ J).
  - apply list_lookup_singleton_Some in Hc as [Hi0 <-]. rewrite take_ge by (rewrite length_app; cbn; lia).
    rewrite concat_app, elem_of_app. cbn. rewrite app_nil_r. by apply pop_edges with x.
Qed.

Lemma pop_all_strong : strong n adj (comps ++ [seg ++ [v]]).
Proof using G J Hk Hroot.
  intros c [Hc|Hc]%elem_of_app; [by apply (j_strong _ _ _ _ _ _ _ J)|]. apply list_elem_of_singleton in Hc as ->.
  split; [by destruct seg|]. apply pop_strong.
Qed.

Lemma pop_explored x y : explored rest x y → explored ((v, k) :: rest) x y.
Proof using G J Hk. apply explored_finish; [apply pop_range|done]. Qed.

Lemma Inv_pop : Inv [] ix (lowered lw v rest) rst (comps ++ [seg ++ [v]]) rest nxt.
Proof using G J Hk Hroot.
  pose proof pop_nodes as Hperm. pose proof pop_lowered as Hlw. assert (∀ x, x ∈ rst → x ∈ seg ++ v :: rst) as Hin by (intros x Hx; apply pop_split; by right).
  pose proof (j_path _ _ _ _ _ _ _ J) as Hpath. cbn in Hpath. apply Sorted_inv in Hpath as [Hpath _].
  split.
  - intros x. rewrite Hperm. apply (j_range _ _ _ _ _ _ _ J).
  - rewrite Hperm. apply (j_nodup _ _ _ _ _ _ _ J).
  - intros x. rewrite Hperm. apply (j_new _ _ _ _ _ _ _ J).
  - intros x. rewrite Hperm. apply (j_index _ _ _ _ _ _ _ J).
  - unfold zlen. rewrite Hperm. apply (j_next _ _ _ _ _ _ _ J).
  - eapply StronglySorted_sublist; [|exact (j_sorted _ _ _ _ _ _ _ J)]. apply sublist_inserts_l. by apply sublist_cons.
  - exact pop_gray.
  - intros x i Hx. apply (j_pos _ _ _ _ _ _ _ J). by right.
  - done.
  - intros x y Hx Hy%pop_explored. rewrite Hperm. apply (j_seen _ _ _ _ _ _ _ J x y); auto.
  - intros x y Hx Hy%pop_explored Hys. rewrite Hlw. apply (j_back _ _ _ _ _ _ _ J x y); auto.
  - intros x Hx. rewrite Hlw. destruct (j_low _ _ _ _ _ _ _ J x (Hin x Hx)) as (Hl & y & Hy & Hyl & Hr). split; [done|]. exists y. split_and!; [|done|done].
    apply pop_split in Hy as [Hy|?]; [|done]. apply pop_above in Hy. apply pop_below in Hx. lia.
  - intros x Hx Hxg. rewrite Hlw. apply (j_black _ _ _ _ _ _ _ J x); [auto|]. apply not_elem_of_cons. split; [|done]. intros ->. apply pop_below in Hx. cbn in Hx. lia.
  - intros x Hx. destruct (j_owner _ _ _ _ _ _ _ J x (Hin x Hx)) as (g & Hg & Hgx & Hr & Hgl & Hmax). exists g. rewrite !Hlw.
    apply elem_of_cons in Hg as [->|Hg]; [apply pop_below in Hx; cbn in Hgx; lia|]. split_and!; try done. intros g' Hg'. apply Hmax. by right.
  - exact pop_closed.
  - exact pop_all_strong.
Qed.
End pop.

(** The loop that pops the part of the stack down to [v]. *)
Lemma pop_scc_spec v rst seg : ∀ on scc,
  rep n on (λ x, bool_decide (x ∈ seg ++ v :: rst)) → NoDup (seg ++ v :: rst) → (∀ x, x ∈ seg ++ v :: rst → 0 ≤ x < n) →
  ∃ on', pop_scc v (seg ++ v :: rst) on scc = Ok (rst, on', scc ++ seg ++ [v]) ∧ rep n on' (λ x, bool_decide (x ∈ rst)).
Proof using.
  induction seg as [|a seg IH]; intros on scc Hr Hnd Hra; cbn [app pop_scc] in *; apply list.NoDup_cons in Hnd as [Ha Hnd].
  - destruct (rep_set _ _ _ v false Hr) as (on' & -> & Hr'); [apply Hra; left|]. cbn [obind]. rewrite Z.eqb_refl. exists on'. split; [done|].
    eapply rep_ext; [done|]. intros i Hi. cbn. destruct (Z.eqb_spec i v) as [->|Hne].
    + by rewrite bool_decide_eq_false_2.
    + apply bool_decide_ext. rewrite elem_of_cons. tauto.
  - destruct (rep_set _ _ _ a false Hr) as (on1 & -> & Hr1); [apply Hra; left|]. cbn [obind].
    destruct (Z.eqb_spec a v) as [->|Hav]; [destruct Ha; apply elem_of_app; right; left|].
    destruct (IH on1 (scc ++ [a])) as (on' & E & Hr'); [|done|intros x Hx; apply Hra; by right|].
    + eapply rep_ext; [done|]. intros i Hi. cbn. destruct (Z.eqb_spec i a) as [->|Hne]; [by rewrite bool_decide_eq_false_2|].
      apply bool_decide_ext. rewrite elem_of_cons. tauto.
    + exists on'. split; [|done]. rewrite E. by rewrite <- app_assoc.
Qed.

(** * The loops keep it *)

Lemma Inv_next pend ix lw stk comps fr nxt : Inv pend ix lw stk comps fr nxt → 0 ≤ nxt ≤ n.
Proof using G.
  intros J. rewrite (j_next _ _ _ _ _ _ _ J). pose proof (g_size _ _ _ _ _ G) as Hsz. split; [apply zlen_nonneg|].
  assert (stk ++ concat comps ⊆+ seqZ 0 n) as Hsum.
  { apply NoDup_submseteq; [apply (j_nodup _ _ _ _ _ _ _ J)|]. intros x Hx. apply elem_of_seqZ. apply (j_range _ _ _ _ _ _ _ J) in Hx. lia. }
  apply submseteq_length in Hsum. rewrite length_seqZ in Hsum. unfold zlen. lia.
Qed.

(** The rounds left: one for each edge not taken and each node not finished. *)
Definition frame_cost (p : Z * Z) : nat := Z.to_nat (st (p.1 + 1) - p.2 + 1).
Definition node_cost (ix : Z → Z) (v : Z) : nat := if ix v =? unvisited then frame_cost (v, st v) else 0%nat.
Definition rounds (ix : Z → Z) (fr : list (Z * Z)) : nat :=
  (sum_list_with frame_cost fr + sum_list_with (node_cost ix) (seqZ 0 n))%nat.

Lemma sum_upd {A} (f g : A → nat) (l : list A) w :
  NoDup l → w ∈ l → g w = 0%nat → (∀ x, x ≠ w → g x = f x) → (sum_list_with g l + f w = sum_list_with f l)%nat.
Proof using.
  intros Hnd Hw Hg Hne. induction Hnd as [|x l Hx Hnd IH]; [by apply not_elem_of_nil in Hw|]. simpl.
  apply elem_of_cons in Hw as [->|Hw].
  - rewrite Hg. assert (sum_list_with g l = sum_list_with f l) as ->; [|lia]. clear -Hx Hne. induction l as [|y l IH]; [done|]. simpl.
    apply not_elem_of_cons in Hx as [? ?]. by rewrite Hne, IH.
  - rewrite Hne by (by intros ->). specialize (IH Hw). lia.
Qed.

Lemma rounds_enter ix fr w nxt : 0 ≤ w < n → 0 ≤ nxt → ix w = unvisited → rounds (upd ix w nxt) ((w, st w) :: fr) = rounds ix fr.
Proof using.
  intros Hw Hn Hix. unfold rounds. simpl.
  pose proof (sum_upd (node_cost ix) (node_cost (upd ix w nxt)) (seqZ 0 n) w (NoDup_seqZ 0 n)) as H.
  assert (node_cost ix w = frame_cost (w, st w)) as E by (unfold node_cost; by rewrite Hix, Z.eqb_refl).
  rewrite E in H. rewrite <- H; [lia|apply elem_of_seqZ; lia| |].
  - unfold node_cost. rewrite upd_eq. unfold unvisited. destruct (Z.eqb_spec nxt (-1)); [lia|done].
  - intros x Hx. unfold node_cost. by rewrite upd_ne.
Qed.

(** A state, its invariant and the rounds left. *)
Definition keeps (pend : list Z) (fr : list (Z * Z)) (s : tstate) (c : nat) : Prop :=
  ∃ ix lw, rep n (index s) ix ∧ rep n (low s) lw ∧ rep n (onStack s) (λ x, bool_decide (x ∈ stack s)) ∧
    Inv pend ix lw (stack s) (sccs s) fr (next s) ∧ c = rounds ix fr ∧
    (∀ w, w ∈ pend → ix w = unvisited).

Lemma enter_keeps pend fr s c w :
  keeps pend fr s c → pend ⊆ [w] → 0 ≤ w < n → (∃ ix, rep n (index s) ix ∧ ix w = unvisited) →
  (match fr with [] => True | (v, _) :: _ => E v w end) →
  ∃ s', enter start w fr s = Ok s' ∧ keeps [] (frames s') s' c.
Proof using G.
  intros (ix & lw & Hix & Hlw & Hon & J & -> & _) Hp Hw (ix' & Hix' & Hwu) Hedge.
  assert (ix w = unvisited) as Hwi.
  { rewrite <- Hwu. pose proof (proj2 Hix w Hw) as E1. rewrite (proj2 Hix' w Hw) in E1. by injection E1. }
  pose proof (Inv_next _ _ _ _ _ _ _ J) as Hnx. pose proof (g_size _ _ _ _ _ G).
  unfold enter. destruct (rep_set _ _ _ w (next s) Hix Hw) as (i1 & -> & Hi1). cbn [obind].
  destruct (rep_set _ _ _ w (next s) Hlw Hw) as (l1 & -> & Hl1). cbn [obind].
  destruct (rep_set _ _ _ w true Hon Hw) as (o1 & -> & Ho1). cbn [obind].
  rewrite (rep_get _ _ _ w (g_start _ _ _ _ _ G)) by lia. cbn [obind]. rewrite swrap_small by lia.
  eexists. split; [done|]. exists (upd ix w (next s)), (upd lw w (next s)). cbn. split_and!; [done|done| |by eapply Inv_enter|symmetry; apply rounds_enter; [done|lia|done]|by intros ? ?%not_elem_of_nil].
  eapply rep_ext; [done|]. intros i Hi. cbn. destruct (Z.eqb_spec i w) as [->|Hne].
  - rewrite bool_decide_eq_true_2; [done|left].
  - apply bool_decide_ext. rewrite elem_of_cons. tauto.
Qed.

Lemma frame_node pend ix lw stk comps v k rest nxt :
  Inv pend ix lw stk comps ((v, k) :: rest) nxt → v ∈ stk ∧ 0 ≤ v < n ∧ st v ≤ k ≤ st (v + 1).
Proof using.
  intros J. assert (v ∈ stk) as Hvs by (eapply gray_stack; [exact J|left]). split; [done|]. split.
  - apply (j_range _ _ _ _ _ _ _ J). apply elem_of_app. by left.
  - apply (j_pos _ _ _ _ _ _ _ J v k). left.
Qed.

Section step.
Context (s : tstate) (ix lw : Z → Z) (v k : Z) (rest : list (Z * Z)).
Context (Hix : rep n (index s) ix) (Hlw : rep n (low s) lw) (Hon : rep n (onStack s) (λ x, bool_decide (x ∈ stack s))).
Context (J : Inv [] ix lw (stack s) (sccs s) ((v, k) :: rest) (next s)).

Lemma take_keeps : k < st (v + 1) →
  ∃ s', take_edge start succ s v k rest = Ok s' ∧ keeps [] (frames s') s' (rounds ix ((v, (k + 1)%Z) :: rest)).
Proof using G Hix Hlw Hon J.
  intros Hlt. destruct (frame_node _ _ _ _ _ _ _ _ _ J) as (Hvs & Hv & Hk). pose proof (graph_bounds v Hv) as Hb. pose proof (g_width _ _ _ _ _ G) as Hwd.
  destruct (j_low _ _ _ _ _ _ _ J v Hvs) as [Hlv Hlow]. unfold take_edge.
  destruct (adj_get v k Hv ltac:(lia)) as (w & -> & Hw & Hedge & Hwn). cbn [obind]. rewrite (rep_get _ _ _ w Hix Hwn). cbn [obind]. rewrite wrap_small by lia.
  pose proof (j_new _ _ _ _ _ _ _ J w Hwn) as Hnew.
  destruct (Z.eqb_spec (ix w) unvisited) as [Hu|Hvis].
  - apply (enter_keeps [w]); [|done|done|by exists ix|done].
    exists ix, lw. split_and!; try done; [|by intros x ->%list_elem_of_singleton]. eapply Inv_take; [exact J|lia|exact Hw|done|lia| |exact Hlow|right; left].
    intros Hws. apply Hnew in Hu. destruct Hu. apply elem_of_app. by left.
  - assert (w ∈ stack s ++ concat (sccs s)) as Hin by (destruct (decide (w ∈ stack s ++ concat (sccs s))) as [|Hn]; [done|by apply Hnew in Hn]).
    rewrite (rep_get _ _ _ w Hon Hwn). cbn [obind]. case_bool_decide as Hws.
    + rewrite (rep_get _ _ _ v Hlw Hv). cbn [obind]. destruct (rep_set _ _ _ v (Z.min (lw v) (ix w)) Hlw Hv) as (l1 & -> & Hl1). cbn [obind].
      eexists. split; [done|]. exists ix, (upd lw v (Z.min (lw v) (ix w))). cbn [index low onStack stack sccs frames next]. split_and!; try done; [|by intros ? ?%not_elem_of_nil].
      eapply Inv_take; [exact J|lia|exact Hw|intros x Hx; by apply upd_ne|rewrite upd_eq; lia|rewrite upd_eq; lia| |by left].
      rewrite upd_eq. destruct (Z.le_gt_cases (lw v) (ix w)); [rewrite Z.min_l by lia; done|]. rewrite Z.min_r by lia. exists w. split_and!; [done|done|by apply rtc_once].
    + eexists. split; [done|]. exists ix, lw. cbn [index low onStack stack sccs frames next]. split_and!; try done; [|by intros ? ?%not_elem_of_nil].
      eapply Inv_take; [exact J|lia|exact Hw|done|lia|done|exact Hlow|by left].
Qed.

Lemma lower_parent_spec : ∃ l1, lower_parent s v rest = Ok l1 ∧ rep n l1 (lowered lw v rest) ∧ lowered lw v rest v = lw v.
Proof using Hlw J.
  destruct (frame_node _ _ _ _ _ _ _ _ _ J) as (Hvs & Hv & _). destruct rest as [|[p i] rest']; [by exists (low s)|].
  assert (p ∈ stack s) as Hps by (eapply gray_stack; [exact J|right; left]).
  assert (0 ≤ p < n) as Hp by (apply (j_range _ _ _ _ _ _ _ J), elem_of_app; by left).
  destruct (gray_below _ _ _ _ _ _ _ _ _ p J) as [Hpv _]; [left|].
  cbn. rewrite (rep_get _ _ _ p Hlw Hp), (rep_get _ _ _ v Hlw Hv). cbn [obind]. destruct (rep_set _ _ _ p (Z.min (lw p) (lw v)) Hlw Hp) as (l1 & -> & Hl1).
  exists l1. split_and!; [done|done|by apply upd_ne].
Qed.

Lemma finish_keeps : st (v + 1) ≤ k → ∃ s', finish_node s v rest = Ok s' ∧ keeps [] (frames s') s' (rounds ix rest).
Proof using G Hix Hlw Hon J.
  intros Hge. destruct (frame_node _ _ _ _ _ _ _ _ _ J) as (Hvs & Hv & Hk). destruct lower_parent_spec as (l1 & E1 & Hl1 & El).
  unfold finish_node. rewrite E1. cbn [obind]. rewrite (rep_get _ _ _ v Hl1 Hv), (rep_get _ _ _ v Hix Hv), El. cbn [obind].
  destruct (Z.eqb_spec (lw v) (ix v)) as [Hroot|Hnr].
  - destruct (list_elem_of_split _ _ Hvs) as (seg & rst & Es). rewrite Es in J, Hon |- *.
    destruct (pop_scc_spec v rst seg (onStack s) [] Hon) as (on' & -> & Hon').
    { by destruct (proj1 (NoDup_app _ _) (j_nodup _ _ _ _ _ _ _ J)). }
    { intros x Hx. apply (j_range _ _ _ _ _ _ _ J), elem_of_app. by left. }
    cbn [obind]. eexists. split; [done|]. exists ix, (lowered lw v rest). cbn [index low onStack stack sccs frames next app]. split_and!; try done; [|by intros ? ?%not_elem_of_nil].
    eapply Inv_pop; [exact J|lia|done].
  - eexists. split; [done|]. exists ix, (lowered lw v rest). cbn [index low onStack stack sccs frames next]. split_and!; try done; [|by intros ? ?%not_elem_of_nil].
    eapply Inv_retreat; [exact J|lia|done].
Qed.
End step.

Lemma round_keeps s c : keeps [] (frames s) s c → frames s ≠ [] →
  ∃ s' c', tarjan_step start succ s = Ok s' ∧ keeps [] (frames s') s' c' ∧ (c' < c)%nat.
Proof using G.
  intros (ix & lw & Hix & Hlw & Hon & J & -> & _) Hfr. unfold tarjan_step. destruct (frames s) as [|[v k] rest] eqn:Ef; [done|].
  destruct (frame_node _ _ _ _ _ _ _ _ _ J) as (Hvs & Hv & Hk).
  rewrite (rep_get _ _ _ (v + 1) (g_start _ _ _ _ _ G)) by lia. cbn [obind]. destruct (Z.ltb_spec k (st (v + 1))) as [Hlt|Hge].
  - destruct (take_keeps _ _ _ _ _ _ Hix Hlw Hon J Hlt) as (s' & E & Hs'). exists s', (rounds ix ((v, (k + 1)%Z) :: rest)).
    split; [exact E|]. split; [done|]. unfold rounds, frame_cost. simpl. lia.
  - destruct (finish_keeps _ _ _ _ _ _ Hix Hlw Hon J Hge) as (s' & E & Hs'). exists s', (rounds ix rest).
    split; [exact E|]. split; [done|]. unfold rounds, frame_cost. simpl. lia.
Qed.

Lemma loop_keeps fuel : ∀ s c, keeps [] (frames s) s c → (c ≤ fuel)%nat →
  ∃ s' c', tarjan_loop fuel start succ s = Ok s' ∧ frames s' = [] ∧ keeps [] [] s' c' ∧ (c' ≤ c)%nat.
Proof using G.
  induction fuel as [|fuel IH]; intros s c Hs Hc; cbn [tarjan_loop]; destruct (frames s) as [|f fr] eqn:Ef; try (exists s, c; by rewrite ?Ef).
  - destruct (round_keeps s c) as (? & ? & _ & _ & ?); [by rewrite Ef|by rewrite Ef|lia].
  - destruct (round_keeps s c) as (s1 & c1 & -> & H1 & Hl); [by rewrite Ef|by rewrite Ef|]. cbn [obind].
    destruct (IH s1 c1 H1) as (s2 & c2 & -> & ? & ? & ?); [lia|]. exists s2, c2. split_and!; try done. lia.
Qed.

(** With no frame left nothing is on the stack. *)
Lemma keeps_idle s c : keeps [] [] s c → stack s = [].
Proof using.
  intros (ix & lw & _ & _ & _ & J & _ & _). destruct (stack s) as [|v stk] eqn:Es; [done|].
  destruct (j_owner _ _ _ _ _ _ _ J v ltac:(left)) as (g & Hg & _). by apply not_elem_of_nil in Hg.
Qed.

(** A numbered node stays so. *)
Definition numbered (s : tstate) (x : Z) : Prop := ∃ i, aget (index s) x = Ok i ∧ i ≠ unvisited.

Lemma aset_get {A} (l l' : list A) i j x : aset l i x = Ok l' → 0 ≤ j → aget l' j = if j =? i then Ok x else aget l j.
Proof using.
  unfold aset, aget. destruct (Z.ltb_spec i 0), (Z.leb_spec (zlen l) i); try done. intros [= <-] Hj. destruct (Z.ltb_spec j 0); [lia|].
  destruct (Z.eqb_spec j i) as [->|]; [rewrite list_lookup_insert_eq by (unfold zlen in *; lia); done|]. by rewrite list_lookup_insert_ne by lia.
Qed.

Lemma enter_numbered w fr s s' : enter start w fr s = Ok s' → 0 ≤ next s → numbered s' w ∧ ∀ x, numbered s x → numbered s' x.
Proof using.
  unfold enter. intros H Hn. go_inv. unfold numbered. cbn.
  assert (0 ≤ w) as Hw by (unfold aset in Hret; destruct (Z.ltb_spec w 0); [done|lia]). unfold unvisited. split.
  - exists (next s). rewrite (aset_get _ _ _ _ _ Hret) by done. rewrite Z.eqb_refl. split; [done|lia].
  - intros x (i & Hi & Hne). pose proof (aget_Ok _ _ _ Hi) as [Hx _]. rewrite (aset_get _ _ _ _ _ Hret) by lia.
    destruct (Z.eqb_spec x w); [exists (next s); split; [done|lia]|eauto].
Qed.

Lemma step_numbered s s' x : tarjan_step start succ s = Ok s' → 0 ≤ next s → numbered s x → numbered s' x.
Proof using.
  unfold tarjan_step. intros H Hn Hx. destruct (frames s) as [|[v k] rest]; [by injection H as <-|]. go_inv.
  - unfold take_edge in H. go_inv; [|done|done]. by eapply enter_numbered.
  - unfold finish_node in H. go_inv; [|done]. destruct a3 as [[? ?] ?]. by injection H as <-.
Qed.

Lemma loop_numbered fuel : ∀ s s' c x, keeps [] (frames s) s c → tarjan_loop fuel start succ s = Ok s' → numbered s x → numbered s' x.
Proof using G.
  induction fuel as [|fuel IH]; intros s s' c x Hs H Hx; cbn [tarjan_loop] in H; destruct (frames s) as [|f fr] eqn:Ef; try (by injection H as <-); [done|].
  destruct (round_keeps s c) as (s1 & c1 & E1 & H1 & _); [by rewrite Ef|by rewrite Ef|]. rewrite E1 in H. cbn [obind] in H.
  eapply IH; [exact H1|exact H|]. eapply step_numbered; [exact E1| |done].
  destruct Hs as (ix & lw & _ & _ & _ & J & _). by destruct (Inv_next _ _ _ _ _ _ _ J).
Qed.

Lemma keeps_next pend fr s c : keeps pend fr s c → 0 ≤ next s.
Proof using G. intros (ix & lw & _ & _ & _ & J & _). by destruct (Inv_next _ _ _ _ _ _ _ J). Qed.

(** A new root when nothing is pending. *)
Lemma root_keeps s c root : keeps [] [] s c → 0 ≤ root < n →
  aget (index s) root = Ok unvisited → ∃ s', enter start root [] s = Ok s' ∧ keeps [] (frames s') s' c.
Proof using G.
  intros Hs Hr Hu. apply (enter_keeps []); [done|intros x Hx; by apply not_elem_of_nil in Hx|done| |done].
  destruct Hs as (ix & lw & Hix & _). exists ix. split; [done|]. rewrite (rep_get _ _ _ root Hix Hr) in Hu. by injection Hu.
Qed.

Lemma roots_keeps k fuel : ∀ root s c, keeps [] [] s c → (c ≤ fuel)%nat → 0 ≤ root → root + Z.of_nat k = n →
  (∀ x, 0 ≤ x < root → numbered s x) →
  ∃ s' c', tarjan_roots k fuel root start succ s = Ok s' ∧ keeps [] [] s' c' ∧ ∀ x, 0 ≤ x < n → numbered s' x.
Proof using G.
  induction k as [|k IH]; intros root s c Hs Hc Hroot Hk Hnum; cbn [tarjan_roots].
  - exists s, c. split_and!; [done|done|]. intros x Hx. apply Hnum. lia.
  - pose proof Hs as (ix & lw & Hix & _). rewrite (rep_get _ _ _ root Hix) by lia. cbn [obind].
    assert (∀ s1, numbered s1 root → (∀ x, numbered s x → numbered s1 x) → ∀ x, 0 ≤ x < root + 1 → numbered s1 x) as Hnext.
    { intros s1 H1 Hm x Hx. destruct (decide (x = root)) as [->|]; [done|]. apply Hm, Hnum. lia. }
    destruct (Z.eqb_spec (ix root) unvisited) as [Hu|Hv]; cbn [negb].
    + destruct (root_keeps s c root Hs) as (s1 & E1 & H1); [lia|rewrite (rep_get _ _ _ root Hix) by lia; by f_equal|]. rewrite E1. cbn [obind].
      destruct (enter_numbered _ _ _ _ E1 (keeps_next _ _ _ _ Hs)) as [Hn1 Hm1].
      destruct (loop_keeps fuel s1 c H1 Hc) as (s2 & c2 & E2 & Ef & H2 & Hl). rewrite E2. cbn [obind].
      apply (IH (root + 1) s2 c2); [done|lia|lia|lia|]. apply Hnext; [by eapply loop_numbered|]. intros x Hx. eapply loop_numbered; eauto.
    + apply (IH (root + 1) s c); [done|done|lia|lia|]. apply Hnext; [|done]. exists (ix root). split; [apply rep_get with (n := n); [done|lia]|done].
Qed.

(** ** The result *)

Lemma start_sum (k : nat) : Z.of_nat k ≤ n → Z.of_nat (sum_list_with (λ v, frame_cost (v, st v)) (seqZ 0 (Z.of_nat k))) = st (Z.of_nat k) - st 0 + Z.of_nat k.
Proof using G.
  induction k as [|k IH]; intros Hk; [change (sum_list_with _ _) with 0%nat; change (Z.of_nat 0) with 0; lia|].
  replace (Z.of_nat (S k)) with (Z.of_nat k + 1) by lia.
  rewrite seqZ_app, sum_list_with_app, Nat2Z.inj_add, IH by lia. change (seqZ (0 + Z.of_nat k) 1) with [0 + Z.of_nat k].
  rewrite Z.add_0_l. pose proof (g_mono _ _ _ _ _ G (Z.of_nat k) ltac:(lia)). unfold frame_cost. simpl. lia.
Qed.

Lemma Inv_start : Inv [] (λ _, unvisited) (λ _, 0) [] [] [] 0.
Proof using.
  split; cbn; try done; try (by intros ? ?%not_elem_of_nil); try (by intros ? ? ?%not_elem_of_nil); try (by constructor).
  - intros v _. split; [intros _; apply not_elem_of_nil|done].
Qed.

Lemma keeps_start (s := mkT (replicate (Z.to_nat n) unvisited) (replicate (Z.to_nat n) 0) (replicate (Z.to_nat n) false) [] [] [] 0) :
  ∃ c, keeps [] [] s c ∧ (c ≤ length succ + Z.to_nat n)%nat.
Proof using G.
  pose proof (g_size _ _ _ _ _ G) as Hn. exists (rounds (λ _, unvisited) []). split.
  - exists (λ _, unvisited), (λ _, 0). assert (∀ A (x : A), rep n (replicate (Z.to_nat n) x) (λ _, x)) as Hr.
    { intros A x. pose proof (rep_replicate (Z.to_nat n) x) as H. by rewrite Z2Nat.id in H by lia. }
    split_and!; try apply Hr; [apply Inv_start|done|by intros ? ?%not_elem_of_nil].
  - pose proof (start_sum (Z.to_nat n)) as H. rewrite Z2Nat.id in H by lia. specialize (H ltac:(lia)).
    pose proof (g_edges _ _ _ _ _ G) as He. unfold zlen in He.
    unfold rounds. cbn [sum_list_with]. change (node_cost (λ _, unvisited)) with (λ v, frame_cost (v, st v)). lia.
Qed.

Lemma tarjan_result :
  ∃ comps, tarjan (Z.to_nat n) start succ = Ok comps ∧ concat comps ≡ₚ seqZ 0 n ∧
    callees_first n adj comps ∧ strong n adj comps.
Proof using G.
  unfold tarjan. pose proof (g_size _ _ _ _ _ G) as Hn. destruct keeps_start as (c & Hc & Hle).
  destruct (roots_keeps (Z.to_nat n) (length succ + Z.to_nat n) 0 _ c Hc Hle) as (s & c' & -> & Hs & Hnum); [lia|lia|lia|]. cbn [obind].
  pose proof (keeps_idle _ _ Hs) as Est. destruct Hs as (ix & lw & Hix & _ & _ & J & _). rewrite Est in J. exists (sccs s). split; [done|].
  destruct J as [Hra Hnod Hnew _ _ _ _ _ _ _ _ _ _ _ Hcl Hstr]. cbn [app] in *. split; [|done].
  apply NoDup_Permutation; [done|apply NoDup_seqZ|]. intros x. rewrite elem_of_seqZ. split; [intros H%Hra; lia|]. intros Hx.
  destruct (Hnum x ltac:(lia)) as (i & Hi & Hne). rewrite (rep_get _ _ _ x Hix) in Hi by lia. injection Hi as <-.
  destruct (decide (x ∈ concat (sccs s))) as [|Hout]; [done|]. destruct Hne. by apply Hnew; [lia|].
Qed.
End graph.

(** What follows of an ordered list of strong components: nothing leaves the ones
    found so far, so two nodes are in the same one exactly when each reaches the
    other. *)
Lemma elem_of_take_concat (comps : list (list Z)) i x : x ∈ concat (take i comps) ↔ ∃ j c, (j < i)%nat ∧ comps !! j = Some c ∧ x ∈ c.
Proof.
  rewrite list_elem_of_In, in_concat. split.
  - intros (c & Hin%list_elem_of_In & Hx%list_elem_of_In). apply list_elem_of_lookup_1 in Hin as [j Hj]. apply lookup_take_Some in Hj as [Hj Hji]. by exists j, c.
  - intros (j & c & Hji & Hj & Hx). exists c. split; apply list_elem_of_In; [|done]. apply list_elem_of_lookup_2 with j. by apply lookup_take_Some.
Qed.

Lemma components_closed n adj comps i x y :
  callees_first n adj comps → rtc (edge n adj) x y → x ∈ concat (take i comps) → y ∈ concat (take i comps).
Proof.
  intros Hc Hr. induction Hr as [|x y z Hxy _ IH]; [done|]. intros (j & c & Hji & Hj & Hx)%elem_of_take_concat. apply IH.
  pose proof (Hc j c x y Hj Hx Hxy) as (m & c' & Hm & Hmc & Hy)%elem_of_take_concat.
  apply elem_of_take_concat. exists m, c'. split; [lia|done].
Qed.

Lemma component_unique (comps : list (list Z)) i j c c' x :
  NoDup (concat comps) → comps !! i = Some c → comps !! j = Some c' → x ∈ c → x ∈ c' → i = j.
Proof.
  revert i j; induction comps as [|d comps IH]; intros i j Hnd Hi Hj Hx Hx'; [done|]. cbn in Hnd. apply NoDup_app in Hnd as (_ & Hd & Hnd).
  assert (∀ k e, comps !! k = Some e → x ∈ e → x ∈ concat comps) as Hin.
  { intros k e Hk He. rewrite <- (take_ge comps (length comps)) by lia. apply elem_of_take_concat. exists k, e. split; [by eapply lookup_lt_Some|done]. }
  destruct i as [|i], j as [|j]; cbn in Hi, Hj; [done| | |f_equal; by eapply IH].
  - injection Hi as ->. destruct (Hd x Hx). eauto.
  - injection Hj as ->. destruct (Hd x Hx'). eauto.
Qed.

(** C19. The component search returns for every graph, without running out of bounds:
    its components hold every node once, no edge leads from one to a later one, and
    two nodes share one exactly when each reaches the other. *)
Theorem tarjan_correct (n : Z) (start succ : list Z) (st : Z → Z) (adj : Z → list Z) (G : is_graph n start succ st adj) :
  ∃ comps, tarjan (Z.to_nat n) start succ = Ok comps ∧ concat comps ≡ₚ seqZ 0 n ∧ Forall (λ c, c ≠ []) comps ∧
    callees_first n adj comps ∧
    ∀ x y, 0 ≤ x < n →
      (∃ c, c ∈ comps ∧ x ∈ c ∧ y ∈ c) ↔ rtc (edge n adj) x y ∧ rtc (edge n adj) y x.
Proof.
  destruct (tarjan_result n start succ st adj G) as (comps & E & Hp & Hc & Hs). exists comps.
  split_and!; try done; [apply list.Forall_forall; intros c Hin; by apply Hs|]. intros x y Hx. split.
  - intros (c & Hin' & Hxc & Hyc). destruct (Hs c Hin') as [_ Hr]. split; by apply Hr.
  - intros [Hxy Hyx]. assert (x ∈ concat (take (length comps) comps)) as Hin by (rewrite take_ge by lia; rewrite Hp; apply elem_of_seqZ; lia).
    apply elem_of_take_concat in Hin as (i & c & _ & Hi & Hxc).
    assert (y ∈ concat (take (S i) comps)) as Hy.
    { eapply components_closed; [exact Hc|exact Hxy|]. apply elem_of_take_concat. exists i, c. split; [lia|done]. }
    apply elem_of_take_concat in Hy as (j & c' & Hji & Hj & Hy).
    assert (x ∈ concat (take (S j) comps)) as Hxj.
    { eapply components_closed; [exact Hc|exact Hyx|]. apply elem_of_take_concat. exists j, c'. split; [lia|done]. }
    apply elem_of_take_concat in Hxj as (m & d & Hmj & Hm & Hxd).
    assert (m = i) as -> by (eapply component_unique; [rewrite Hp; apply NoDup_seqZ|exact Hm|exact Hi|done|done]).
    assert (j = i) as -> by lia. rewrite Hi in Hj. injection Hj as <-. exists c. split_and!; [by eapply list_elem_of_lookup_2|done|done].
Qed.

(** * Graphs given by their rows *)

(** The slice of starts that goes with rows put one behind the other. *)
Definition starts (rs : list (list Z)) : list Z := (λ i, zlen (concat (take i rs))) <$> seq 0 (S (length rs)).

Lemma starts_rep rs : rep (zlen rs + 1) (starts rs) (λ i, zlen (concat (take (Z.to_nat i) rs))).
Proof.
  split.
  - unfold starts, zlen. rewrite length_fmap, length_seq. lia.
  - intros i Hi. unfold starts. rewrite list_lookup_fmap, lookup_seq_lt by (unfold zlen in Hi; lia). done.
Qed.

Lemma starts_snoc rs r : starts (rs ++ [r]) = starts rs ++ [zlen (concat (rs ++ [r]))].
Proof.
  unfold starts. rewrite length_app. replace (S (length rs + length [r])) with (S (length rs) + 1)%nat by (cbn; lia). rewrite seq_app, fmap_app. f_equal.
  - apply list_fmap_ext. intros i x Hx. apply lookup_seq in Hx as [-> Hx]. cbn in *. by rewrite take_app_le by lia.
  - cbn [seq fmap list_fmap]. rewrite take_ge; [done|]. rewrite length_app. cbn. lia.
Qed.

Lemma concat_split (rs : list (list Z)) i r : rs !! i = Some r → concat rs = concat (take i rs) ++ r ++ concat (drop (S i) rs).
Proof. intros H. rewrite <- (take_drop_middle rs i r H) at 1. by rewrite concat_app. Qed.

Lemma is_graph_concat rs :
  zlen rs < 2 ^ 31 - 1 → zlen (concat rs) < 2 ^ 32 → (∀ r w, r ∈ rs → w ∈ r → 0 ≤ w < zlen rs) →
  is_graph (zlen rs) (starts rs) (concat rs) (λ i, zlen (concat (take (Z.to_nat i) rs))) (λ i, default [] (rs !! Z.to_nat i)).
Proof.
  intros Hn Hc Hr. pose proof (zlen_nonneg rs) as Hn0.
  assert (∀ v, 0 ≤ v < zlen rs → ∃ r, rs !! Z.to_nat v = Some r ∧ concat (take (Z.to_nat (v + 1)) rs) = concat (take (Z.to_nat v) rs) ++ r) as Hstep.
  { intros v Hv. destruct (lookup_lt_is_Some_2 rs (Z.to_nat v)) as [r Er]; [unfold zlen in Hv; lia|]. exists r. split; [done|].
    replace (Z.to_nat (v + 1)) with (S (Z.to_nat v)) by lia. rewrite (take_S_r _ _ r Er), concat_app. cbn. by rewrite app_nil_r. }
  split.
  - lia.
  - apply starts_rep.
  - intros v Hv. destruct (Hstep v Hv) as (r & _ & E). rewrite E, zlen_app. pose proof (zlen_nonneg r). split; [apply zlen_nonneg|lia].
  - split; [done|]. unfold zlen at 2. rewrite Nat2Z.id, take_ge by lia. done.
  - done.
  - intros v Hv. destruct (Hstep v Hv) as (r & Er & E). rewrite E, zlen_app, Er. cbn [default].
    pose proof (concat_split _ _ _ Er) as Esp. set (pre := concat (take (Z.to_nat v) rs)) in *. set (post := concat (drop (S (Z.to_nat v)) rs)) in *.
    pose proof (zlen_nonneg pre). pose proof (zlen_nonneg r). pose proof (zlen_nonneg post).
    rewrite aslice_in by (rewrite ?Esp, ?zlen_app; lia). f_equal. replace (zlen pre + zlen r - zlen pre) with (zlen r) by lia.
    unfold zlen. rewrite !Nat2Z.id, Esp, drop_app_length. apply take_app_length.
  - intros v w Hv Hw. destruct (Hstep v Hv) as (r & Er & _). rewrite Er in Hw. eapply Hr; [by eapply list_elem_of_lookup_2|done].
Qed.

(** Distinct rows of a graph are no longer together than its edges. *)
Lemma rows_length n start succ st adj l : is_graph n start succ st adj → NoDup l → (∀ v, v ∈ l → 0 ≤ v < n) →
  Z.of_nat (sum_list_with (λ v, length (adj v)) l) ≤ zlen succ.
Proof.
  intros G Hnd Hl. assert (l ⊆+ seqZ 0 n) as Hsub by (apply NoDup_submseteq; [done|]; intros v Hv; apply elem_of_seqZ; specialize (Hl v Hv); lia).
  assert (sum_list_with (λ v, length (adj v)) l ≤ sum_list_with (λ v, length (adj v)) (seqZ 0 n))%nat as Hle.
  { clear -Hsub. revert Hsub. generalize (seqZ 0 n). intros k Hsub. induction Hsub; simpl; lia. }
  pose proof (start_sum n start succ st adj G (Z.to_nat n)) as Hs. pose proof (g_size _ _ _ _ _ G). rewrite Z2Nat.id in Hs by lia. specialize (Hs ltac:(lia)).
  pose proof (g_edges _ _ _ _ _ G) as He.
  assert (∀ k : nat, Z.of_nat k ≤ n → (sum_list_with (λ v, length (adj v)) (seqZ 0 (Z.of_nat k)) + k = sum_list_with (λ v, frame_cost st (v, st v)) (seqZ 0 (Z.of_nat k)))%nat) as Hk.
  { induction k as [|k IH]; intros Hk; [done|]. replace (Z.of_nat (S k)) with (Z.of_nat k + 1) by lia. rewrite seqZ_app, !sum_list_with_app by lia.
    change (seqZ (0 + Z.of_nat k) 1) with [0 + Z.of_nat k]. rewrite Z.add_0_l. specialize (IH ltac:(lia)).
    pose proof (adj_length n start succ st adj G (Z.of_nat k) ltac:(lia)) as Ha. unfold zlen in Ha.
    rewrite <- IH. cbn [sum_list_with]. unfold frame_cost. cbn [fst snd]. lia. }
  specialize (Hk (Z.to_nat n)). rewrite Z2Nat.id in Hk by lia. specialize (Hk ltac:(lia)). lia.
Qed.

(** * Witnesses *)

(** Two components of one node and one of two. *)
Definition sample_rows : list (list Z) := [[1]; [2]; [1]; [0; 2]].

Lemma sample_graph : is_graph 4 (starts sample_rows) (concat sample_rows)
  (λ i, zlen (concat (take (Z.to_nat i) sample_rows))) (λ i, default [] (sample_rows !! Z.to_nat i)).
Proof.
  apply (is_graph_concat sample_rows); [done|done|]. intros r w Hr Hw.
  assert (Forall (λ r, Forall (λ w, 0 ≤ w < 4) r) sample_rows) as H by (apply (bool_decide_unpack _); by vm_compute).
  rewrite list.Forall_forall in H. specialize (H r Hr). rewrite list.Forall_forall in H. by apply H.
Qed.

Example sample_components : tarjan 4 (starts sample_rows) (concat sample_rows) = Ok [[2; 1]; [0]; [3]].
Proof. reflexivity. Qed.

Lemma tarjan_correct_witness :
  ∃ comps, tarjan 4 (starts sample_rows) (concat sample_rows) = Ok comps ∧ concat comps ≡ₚ seqZ 0 4 ∧ Forall (λ c, c ≠ []) comps ∧
    callees_first 4 (λ i, default [] (sample_rows !! Z.to_nat i)) comps ∧
    ∀ x y, 0 ≤ x < 4 →
      (∃ c, c ∈ comps ∧ x ∈ c ∧ y ∈ c) ↔
      rtc (edge 4 (λ i, default [] (sample_rows !! Z.to_nat i))) x y ∧ rtc (edge 4 (λ i, default [] (sample_rows !! Z.to_nat i))) y x.
Proof. exact (tarjan_correct 4 _ _ _ _ sample_graph). Defined.
