(* ===== verification/EntryCheck.v ===== *)
(** Preemption checks on entry: [internal/wasm/entry_check.go].

    Compiled code can only be stopped where it checks.  [solve] chooses the functions
    that check on entry so that no code repeats without a check, and so that what a
    function does until the next one is its own body and at most [PreemptBudget] more;
    it also finds the calls that are sure to be short.  This file is the code, from
    the builder validation fills to [solve]; [EntryCheckSafe] states what it promises.

    The nodes of the call graph are the local functions, and the hub, numbered after
    them, for whatever an indirect call can reach.  Nodes fit an int32, as a module has
    at most 2^27 functions, so conversions of a node to int32 are left out. *)
From Stdlib Require Import ZArith Lia Sorted.
From stdpp Require Import base list numbers option tactics sorting.
From S2P Require Import Prelude CallRows Tarjan.
Local Open Scope Z_scope.
Local Open Scope go_scope.

Definition PreemptBudget : Z := Z.shiftl 1 16.

(** * The builder *)

Record entryCheckBuilder := mkEntry {
  imports : Z; size : list Z; edges : list Z; indirect : list Z; foreign : bool; unbounded : list bool
}.

(** Of the module only the bodies of its functions and [ForeignFuncRefs] matter. *)
Definition newEntryCheckBuilder (bodies : list (list Z)) (foreignFuncRefs : bool) (imports : Z) : entryCheckBuilder :=
  mkEntry imports ((λ body, u32 (zlen body)) <$> bodies) [] (replicate (length bodies) 0) foreignFuncRefs (replicate (length bodies) false).

(** The methods, on a builder that is not nil. *)
Definition markUnbounded (b : entryCheckBuilder) (idx : Z) : outcome unit entryCheckBuilder :=
  let* u := aset (unbounded b) idx true in
  Ok (mkEntry (imports b) (size b) (edges b) (indirect b) (foreign b) u).

Definition call (b : entryCheckBuilder) (idx callee : Z) : outcome unit entryCheckBuilder :=
  if imports b <=? callee then
    Ok (mkEntry (imports b) (size b) (edges b ++ [idx; u32 (callee - imports b)]) (indirect b) (foreign b) (unbounded b))
  else markUnbounded b idx.

Definition callIndirect (b : entryCheckBuilder) (idx : Z) : outcome unit entryCheckBuilder :=
  if foreign b then markUnbounded b idx
  else
    let* i := bump (indirect b) idx in
    Ok (mkEntry (imports b) (size b) (edges b) i (foreign b) (unbounded b)).

(** * The graph of calls *)

(** The local functions an indirect call can reach, in index order: [referenced] is
    the keys of the map in the order the range over it gives them. *)
Definition hub_successors (b : entryCheckBuilder) (referenced : list Z) : list Z :=
  let n := zlen (size b) in
  merge_sort Z.le ((λ idx, idx - imports b) <$> filter (λ idx, imports b ≤ idx ∧ idx - imports b < n) referenced).

Fixpoint count_callers (edges start : list Z) : outcome unit (list Z) :=
  match edges with
  | caller :: _ :: edges => let* start := bump start (u32 (caller + 1)) in count_callers edges start
  | [caller] => bump start (u32 (caller + 1))
  | [] => Ok start
  end.

Fixpoint count_indirect (indirect : list Z) (f : Z) (start : list Z) : outcome unit (list Z) :=
  match indirect with
  | [] => Ok start
  | k :: indirect =>
      let* start := if 0 <? k then bump start (f + 1) else Ok start in
      count_indirect indirect (f + 1) start
  end.

Fixpoint fill_callees (edges fill succ : list Z) : outcome unit (list Z * list Z) :=
  match edges with
  | caller :: callee :: edges =>
      let* p := aget fill caller in
      let* succ := aset succ p callee in
      let* fill := bump fill caller in
      fill_callees edges fill succ
  | [] => Ok (fill, succ)
  | [_] => Panic
  end.

Fixpoint fill_indirect (indirect : list Z) (f hub : Z) (fill succ : list Z) : outcome unit (list Z * list Z) :=
  match indirect with
  | [] => Ok (fill, succ)
  | k :: indirect =>
      if 0 <? k then
        let* p := aget fill f in
        let* succ := aset succ p hub in
        let* fill := bump fill f in
        fill_indirect indirect (f + 1) hub fill succ
      else fill_indirect indirect (f + 1) hub fill succ
  end.

(** [copy(l[at:], src)]. *)
Definition acopy {A} (l : list A) (at_ : Z) (src : list A) : outcome unit (list A) :=
  if (at_ <? 0) || (zlen l <? at_) then Panic
  else Ok (take (Z.to_nat at_) l ++ take (length l - Z.to_nat at_) src ++ drop (Z.to_nat at_ + length src) l).

(** [succStart] and [succ] of the [n] local functions and the hub. *)
Definition call_graph (b : entryCheckBuilder) (hubSucc : list Z) : outcome unit (list Z * list Z) :=
  let n := length (size b) in
  let hub := Z.of_nat n in
  let* start := count_callers (edges b) (replicate (S (S n)) 0) in
  let* start := count_indirect (indirect b) 0 start in
  let* h := aget start (hub + 1) in
  let* start := aset start (hub + 1) (u32 (h + u32 (zlen hubSucc))) in
  let* start := accumulate (S n) 0 start in
  let* total := aget start (hub + 1) in
  let* '(fill, succ) := fill_callees (edges b) (take (S n) start) (replicate (Z.to_nat total) 0) in
  let* '(fill, succ) := fill_indirect (indirect b) 0 hub fill succ in
  let* at_ := aget fill hub in
  let* succ := acopy succ at_ hubSucc in
  Ok (start, succ).

(** The successors of a node. *)
Definition node_row (start succ : list Z) (v : Z) : outcome unit (list Z) :=
  let* a := aget start v in let* b := aget start (v + 1) in aslice succ a b.

(** * The unchecked work *)

(** What the closures of [solve] share: who is checked, the unchecked work of each
    node, what an indirect call can reach and is not checked, heaviest first. *)
Record estate := mkE { needs : list bool; uc : list Z; byWork : list Z }.

Definition contribution (s : estate) (c : Z) : outcome unit Z :=
  let* nd := aget (needs s) c in if nd then Ok 0 else aget (uc s) c.

Fixpoint drop_checked (needs : list bool) (byWork : list Z) : outcome unit (list Z) :=
  match byWork with
  | [] => Ok []
  | c :: rest => let* nd := aget needs c in if nd then drop_checked needs rest else Ok byWork
  end.

Definition check (hub : Z) (s : estate) (c : Z) : outcome unit estate :=
  let* c := if c =? hub then match byWork s with [] => Panic | h :: _ => Ok h end else Ok c in
  let* nd := aset (needs s) c true in
  let* bw := drop_checked nd (byWork s) in
  let* u := aset (uc s) hub 0 in
  let* u := match bw with [] => Ok u | h :: _ => let* w := aget u h in aset u hub w end in
  Ok (mkE nd u bw).

(** The calls of one function: their work, the heaviest and its work. *)
Fixpoint bound_calls (b : entryCheckBuilder) (hub v : Z) (s : estate) (calls : list Z) (acc : Z * Z * Z) : outcome unit (Z * Z * Z) :=
  match calls with
  | [] => Ok acc
  | c :: calls =>
      let '(callWork, heaviest, heaviestWork) := acc in
      let* w := contribution s c in
      let* w := if c =? hub then let* k := aget (indirect b) v in Ok (u64 (w * k)) else Ok w in
      bound_calls b hub v s calls
        (u64 (callWork + w), if heaviestWork <? w then c else heaviest, if heaviestWork <? w then w else heaviestWork)
  end.

(** A round that does not end checks a function that was not: one round more than
    there are functions. *)
Fixpoint bound (fuel : nat) (b : entryCheckBuilder) (hub v : Z) (calls : list Z) (s : estate) : outcome unit estate :=
  match fuel with
  | O => NoFuel
  | S fuel =>
      let* '(callWork, heaviest, _) := bound_calls b hub v s calls (0, -1, 0) in
      let* sz := aget (size b) v in
      let* u := aset (uc s) v (u64 (sz + callWork)) in
      let s := mkE (needs s) u (byWork s) in
      if callWork <=? PreemptBudget then Ok s
      else let* s := check hub s heaviest in bound fuel b hub v calls s
  end.

(** * Cycles through the hub *)

(** The functions of the component that call indirectly are checked; [rest] are the
    others, and [pos] their positions in it plus one. *)
Fixpoint split_scc (b : entryCheckBuilder) (hub : Z) (scc : list Z) (needs : list bool) (pos rest callers : list Z)
  : outcome unit (list bool * list Z * list Z * list Z) :=
  match scc with
  | [] => Ok (needs, pos, rest, callers)
  | v :: scc =>
      if v =? hub then split_scc b hub scc needs pos rest callers
      else
        let* k := aget (indirect b) v in
        if 0 <? k then
          let* needs := aset needs v true in split_scc b hub scc needs pos rest (callers ++ [v])
        else
          let* pos := aset pos v (i32 (zlen rest + 1)) in split_scc b hub scc needs pos (rest ++ [v]) callers
  end.

(** The calls among [rest], by position. *)
Fixpoint rest_row (hub : Z) (pos row calls : list Z) : outcome unit (list Z) :=
  match row with
  | [] => Ok calls
  | c :: row =>
      if c =? hub then rest_row hub pos row calls
      else let* p := aget pos c in rest_row hub pos row (if 0 <? p then calls ++ [p - 1] else calls)
  end.

Fixpoint rest_rows (hub : Z) (start succ pos rest : list Z) (st calls : list Z) : outcome unit (list Z * list Z) :=
  match rest with
  | [] => Ok (st, calls)
  | v :: rest =>
      let* row := node_row start succ v in
      let* calls := rest_row hub pos row calls in
      rest_rows hub start succ pos rest (st ++ [u32 (zlen calls)]) calls
  end.

(** The functions of one component of [rest]: those on a cycle are checked. *)
Fixpoint order_sub (rest st calls : list Z) (long : bool) (sub : list Z) (needs : list bool) (order : list Z) : outcome unit (list bool * list Z) :=
  match sub with
  | [] => Ok (needs, order)
  | i :: sub =>
      let* row := node_row st calls i in
      let* v := aget rest i in
      let* needs := if long || bool_decide (i ∈ row) then aset needs v true else Ok needs in
      order_sub rest st calls long sub needs (order ++ [v])
  end.

Fixpoint order_subs (rest st calls : list Z) (subs : list (list Z)) (needs : list bool) (order : list Z) : outcome unit (list bool * list Z) :=
  match subs with
  | [] => Ok (needs, order)
  | sub :: subs =>
      let* '(needs, order) := order_sub rest st calls (1 <? zlen sub) sub needs order in
      order_subs rest st calls subs needs order
  end.

Definition breakHubCycles (b : entryCheckBuilder) (scc start succ : list Z) (needs : list bool) : outcome unit (list bool * list Z) :=
  let n := length (size b) in
  let hub := Z.of_nat n in
  let* '(needs, pos, rest, callers) := split_scc b hub scc needs (replicate n 0) [] [] in
  let* '(st, calls) := rest_rows hub start succ pos rest [0] [] in
  let* subs := tarjan (length rest) st calls in
  let* '(needs, order) := order_subs rest st calls subs needs [] in
  Ok (needs, order ++ [hub] ++ callers).

(** * The solution *)

Fixpoint mark_all (scc : list Z) (needs : list bool) : outcome unit (list bool) :=
  match scc with
  | [] => Ok needs
  | v :: scc => let* needs := aset needs v true in mark_all scc needs
  end.

(** The first thing done with a component: its cycles get their checks. *)
Definition break_cycles (b : entryCheckBuilder) (start succ : list Z) (scc : list Z) (needs : list bool) : outcome unit (list bool * list Z) :=
  let hub := zlen (size b) in
  if (1 <? zlen scc) && bool_decide (hub ∈ scc) then breakHubCycles b scc start succ needs
  else if 1 <? zlen scc then let* needs := mark_all scc needs in Ok (needs, scc)
  else
    let* v := aget scc 0 in
    let* row := node_row start succ v in
    if bool_decide (v ∈ row) then let* needs := aset needs v true in Ok (needs, scc) else Ok (needs, scc).

(** Heavier first, then by index. *)
Definition heavier (u : list Z) (x y : Z) : Prop :=
  default 0 (u !! Z.to_nat y) < default 0 (u !! Z.to_nat x) ∨ (default 0 (u !! Z.to_nat x) = default 0 (u !! Z.to_nat y) ∧ x ≤ y).
#[global] Instance heavier_dec u x y : Decision (heavier u x y).
Proof. unfold heavier. apply _. Defined.

Fixpoint unchecked_of (s : estate) (row bw : list Z) : outcome unit (list Z) :=
  match row with
  | [] => Ok bw
  | c :: row => let* w := contribution s c in unchecked_of s row (if 0 <? w then bw ++ [c] else bw)
  end.

Definition visit_hub (hub : Z) (row : list Z) (s : estate) : outcome unit estate :=
  let* bw := unchecked_of s row (byWork s) in
  let bw := merge_sort (heavier (uc s)) bw in
  let* u := match bw with [] => Ok (uc s) | h :: _ => let* w := aget (uc s) h in aset (uc s) hub w end in
  Ok (mkE (needs s) u bw).

Fixpoint visit_all (b : entryCheckBuilder) (start succ : list Z) (scc : list Z) (s : estate) : outcome unit estate :=
  let hub := zlen (size b) in
  match scc with
  | [] => Ok s
  | v :: scc =>
      let* row := node_row start succ v in
      let* s := if v =? hub then visit_hub hub row s else bound (S (length (size b))) b hub v row s in
      visit_all b start succ scc s
  end.

(** The work of a call, or [PreemptBudget + 1] when it is not sure to be short. *)
Fixpoint call_work (work row : list Z) (w : Z) : outcome unit Z :=
  match row with
  | [] => Ok w
  | c :: row =>
      let* wc := aget work c in
      if wc =? 0 then Ok (PreemptBudget + 1) else call_work work row (u64 (w + wc))
  end.

Definition short_call (b : entryCheckBuilder) (start succ : list Z) (scc : list Z) (work : list Z) : outcome unit (list Z) :=
  let hub := zlen (size b) in
  let* v := aget scc 0 in
  if (zlen scc =? 1) && (v <? hub) then
    let* ub := aget (unbounded b) v in
    let* k := aget (indirect b) v in
    if negb ub && (k =? 0) then
      let* sz := aget (size b) v in
      let* row := node_row start succ v in
      let* w := call_work work row sz in
      if w <=? PreemptBudget then aset work v (u32 w) else Ok work
    else Ok work
  else Ok work.

Fixpoint solve_sccs (b : entryCheckBuilder) (start succ : list Z) (sccs : list (list Z)) (s : estate) (work : list Z) : outcome unit (estate * list Z) :=
  match sccs with
  | [] => Ok (s, work)
  | scc :: sccs =>
      let* '(nd, scc) := break_cycles b start succ scc (needs s) in
      let* s := visit_all b start succ scc (mkE nd (uc s) (byWork s)) in
      let* work := short_call b start succ scc work in
      solve_sccs b start succ sccs s work
  end.

Definition solve (b : entryCheckBuilder) (referenced : list Z) : outcome unit (list bool * list Z) :=
  let referenced := if foreign b then [] else referenced in
  let n := length (size b) in
  let hubSucc := hub_successors b referenced in
  let* '(start, succ) := call_graph b hubSucc in
  let* sccs := tarjan (S n) start succ in
  let* '(s, work) := solve_sccs b start succ sccs (mkE (replicate (S n) false) (replicate (S n) 0) []) (replicate n 0) in
  Ok (take n (needs s), work).

(** * The examples of entry_check_test.go *)

Definition test_builder (sizes : list Z) (calls : list Z) (ind : list Z) : entryCheckBuilder :=
  mkEntry 0 sizes calls ind false (replicate (length sizes) false).

Example mutual_recursion : solve (test_builder [100; 100; 100] [0; 1; 1; 0; 2; 0] [0; 0; 0]) [] = Ok ([true; true; false], [0; 0; 0]).
Proof. reflexivity. Qed.

Example cycles_through_the_hub :
  solve (test_builder [100; 100; 100; 100] [1; 2; 2; 1; 2; 0; 3; 0] [1; 0; 0; 0]) [3; 1; 0; 2] = Ok ([true; true; true; false], [0; 0; 0; 0]).
Proof. reflexivity. Qed.

Example indirect_call_that_may_be_heavy :
  solve (test_builder [100; PreemptBudget + 1; 100] [] [1; 0; 0]) [1; 2] = Ok ([false; true; false], [0; 0; 100]).
Proof. reflexivity. Qed.

Example many_indirect_calls :
  solve (test_builder [100; 100; 50] [] [1000; 0; 0]) [1; 2] = Ok ([false; true; false], [0; 100; 50]).
Proof. reflexivity. Qed.

Example one_large_callee :
  solve (test_builder [100; PreemptBudget + 1] [0; 1] [0; 0]) [] = Ok ([false; true], [0; 0]).
Proof. reflexivity. Qed.
