(* ===== verification/EntryGraph.v ===== *)
(** The graph of calls [EntryCheck.solve] builds is the one its builder describes:
    each function's row holds its direct callees in order and then, when it calls
    indirectly, the hub; the hub's row is what an indirect call can reach. *)
From Stdlib Require Import ZArith Lia Sorted.
From stdpp Require Import base list numbers option tactics sorting.
From S2P Require Import Prelude CallRows Tarjan EntryCheck.
Local Open Scope Z_scope.
Local Open Scope go_scope.

(** * Builders *)

(** What holds of every builder validation fills: its slices have an entry per
    function, and its counters did not wrap around. *)
Record builder_ok (b : entryCheckBuilder) : Prop := {
  bo_count : zlen (size b) < 2 ^ 31 - 2;
  bo_imports : 0 ≤ imports b;
  bo_space : imports b + zlen (size b) < 2 ^ 32;
  bo_size : Forall (λ s, 0 ≤ s < 2 ^ 32) (size b);
  bo_even : Nat.Even (length (edges b));
  bo_edges : Forall (λ x, 0 ≤ x < zlen (size b)) (edges b);
  bo_total : zlen (pairs (edges b)) + 2 * zlen (size b) < 2 ^ 32;
  bo_indirect : zlen (indirect b) = zlen (size b) ∧ Forall (λ k, 0 ≤ k < 2 ^ 32) (indirect b);
  bo_unbounded : zlen (unbounded b) = zlen (size b);
}.

(** Reading [l[i]], zero out of range. *)
Definition at_ (l : list Z) (i : Z) : Z := default 0 (l !! Z.to_nat i).

Lemma at_rep l : rep (zlen l) l (at_ l).
Proof. apply rep_lookup. Qed.

Lemma at_get l i : 0 ≤ i < zlen l → aget l i = Ok (at_ l i).
Proof. intros H. by apply (rep_get (zlen l)); [apply at_rep|]. Qed.

Lemma at_Forall (P : Z → Prop) l i : Forall P l → 0 ≤ i < zlen l → P (at_ l i).
Proof.
  intros H Hi. destruct (at_rep l) as [_ Hr]. rewrite list.Forall_forall in H. apply H. eapply list_elem_of_lookup_2. by apply Hr.
Qed.

(** * Its pairs *)

Fixpoint hub_edges (indirect : list Z) (f hub : Z) : list (Z * Z) :=
  match indirect with
  | [] => []
  | k :: indirect => (if 0 <? k then [(f, hub)] else []) ++ hub_edges indirect (f + 1) hub
  end.

Definition hub_row (hub : Z) (hubSucc : list Z) : list (Z * Z) := (λ c, (hub, c)) <$> hubSucc.

Definition graph_pairs (b : entryCheckBuilder) (hubSucc : list Z) : list (Z * Z) :=
  let hub := zlen (size b) in pairs (edges b) ++ hub_edges (indirect b) 0 hub ++ hub_row hub hubSucc.

Lemma row_hub_edges hub ind : ∀ f v,
  row (hub_edges ind f hub) v = if (f <=? v) && (v <? f + zlen ind) && (0 <? at_ ind (v - f)) then [hub] else [].
Proof.
  induction ind as [|k ind IH]; intros f v; cbn [hub_edges].
  - rewrite row_nil. change (zlen []) with 0. destruct (Z.leb_spec f v), (Z.ltb_spec v (f + 0)); cbn; try done; lia.
  - rewrite row_app, IH, zlen_cons. pose proof (zlen_nonneg ind).
    destruct (Z.eq_dec v f) as [->|Hvf].
    + replace (f - f) with 0 by lia. change (at_ (k :: ind) 0) with k.
      destruct (Z.leb_spec (f + 1) f), (Z.leb_spec f f), (Z.ltb_spec f (f + (1 + zlen ind))); try lia. cbn [andb app].
      destruct (0 <? k); [rewrite row_cons, Z.eqb_refl|]; done.
    + assert (row (if 0 <? k then [(f, hub)] else []) v = []) as ->.
      { destruct (0 <? k); [|done]. rewrite row_cons. destruct (Z.eqb_spec f v); [lia|done]. }
      cbn [app]. destruct (Z.leb_spec (f + 1) v), (Z.leb_spec f v), (Z.ltb_spec v (f + 1 + zlen ind)), (Z.ltb_spec v (f + (1 + zlen ind))); try lia; try done. cbn [andb].
      unfold at_. replace (Z.to_nat (v - f)) with (S (Z.to_nat (v - (f + 1)))) by lia. done.
Qed.

Lemma row_hub_row hub l v : row (hub_row hub l) v = if hub =? v then l else [].
Proof.
  induction l as [|c l IH]; [by destruct (hub =? v)|]. change (hub_row hub (c :: l)) with ((hub, c) :: hub_row hub l). rewrite row_cons, IH. by destruct (hub =? v).
Qed.

Lemma hub_edges_keys hub ind : ∀ f, Forall (λ p, f ≤ p.1 < f + zlen ind) (hub_edges ind f hub) ∧ zlen (hub_edges ind f hub) ≤ zlen ind.
Proof.
  induction ind as [|k ind IH]; intros f; cbn [hub_edges]; [done|]. destruct (IH (f + 1)) as [Hk Hl]. rewrite zlen_app, zlen_cons. pose proof (zlen_nonneg ind). split.
  - apply list.Forall_app. split.
    + destruct (0 <? k); repeat constructor; cbn; lia.
    + eapply Forall_impl; [exact Hk|]. intros [? ?]. cbn. lia.
  - destruct (0 <? k); [change (zlen [(f, hub)]) with 1|change (zlen []) with 0]; lia.
Qed.

(** * The loops *)

Lemma count_callers_keys es : Nat.Even (length es) → ∀ start, count_callers es start = count_keys (pairs es) start.
Proof.
  apply (even_ind (λ e, ∀ start, count_callers e start = count_keys (pairs e) start)); [done|].
  intros a b l IH start. cbn [count_callers pairs count_keys]. destruct (bump start (u32 (a + 1))); cbn; [apply IH|done..].
Qed.

Lemma count_keys_app ps qs start : count_keys (ps ++ qs) start = (let* s := count_keys ps start in count_keys qs s).
Proof.
  revert start; induction ps as [|[k x] ps IH]; intros start; cbn [app count_keys]; [done|]. destruct (bump start (u32 (k + 1))); cbn; [apply IH|done..].
Qed.

Lemma count_indirect_keys hub ind : ∀ f start, 0 ≤ f → f + zlen ind < 2 ^ 32 → count_indirect ind f start = count_keys (hub_edges ind f hub) start.
Proof.
  induction ind as [|k ind IH]; intros f start Hf Hm; cbn [count_indirect hub_edges]; [done|]. rewrite zlen_cons in Hm. pose proof (zlen_nonneg ind).
  rewrite count_keys_app. destruct (0 <? k); cbn [count_keys obind].
  - rewrite wrap_small by lia. destruct (bump start (f + 1)); cbn; [apply IH; lia|done..].
  - apply IH; lia.
Qed.

Lemma fill_callees_pairs es : Nat.Even (length es) → ∀ fill rows, fill_callees es fill rows = fill_pairs (pairs es) fill rows.
Proof.
  apply (even_ind (λ e, ∀ fill rows, fill_callees e fill rows = fill_pairs (pairs e) fill rows)); [done|].
  intros a b l IH fill rows. cbn [fill_callees pairs fill_pairs]. destruct (aget fill a) as [p| | |]; cbn; [|done..].
  destruct (aset rows p b) as [rows'| | |]; cbn; [|done..]. destruct (bump fill a) as [fill'| | |]; cbn; [apply IH|done..].
Qed.

Lemma fill_pairs_app ps qs fill rows : fill_pairs (ps ++ qs) fill rows = (let* r := fill_pairs ps fill rows in fill_pairs qs r.1 r.2).
Proof.
  revert fill rows; induction ps as [|[k x] ps IH]; intros fill rows; cbn [app fill_pairs]; [done|].
  destruct (aget fill k) as [p| | |]; cbn; [|done..]. destruct (aset rows p x) as [rows'| | |]; cbn; [|done..]. destruct (bump fill k) as [fill'| | |]; cbn; [apply IH|done..].
Qed.

Lemma fill_indirect_pairs hub ind : ∀ f fill rows, fill_indirect ind f hub fill rows = fill_pairs (hub_edges ind f hub) fill rows.
Proof.
  induction ind as [|k ind IH]; intros f fill rows; cbn [fill_indirect hub_edges]; [done|]. rewrite fill_pairs_app. destruct (0 <? k); cbn [fill_pairs obind fst snd]; [|apply IH].
  destruct (aget fill f) as [p| | |]; cbn [obind]; [|done..]. destruct (aset rows p hub) as [rows'| | |]; cbn [obind]; [|done..].
  destruct (bump fill f) as [fill'| | |]; cbn [obind fst snd]; [apply IH|done..].
Qed.

(** Copying the hub's row completes the rows. *)
Lemma copy_placed n ps hubSucc rows (all := ps ++ hub_row n hubSucc) :
  keys_below n ps → 0 ≤ n → placed (n + 1) all ps rows →
  ∃ rows', acopy rows (below all n + cnt ps n) hubSucc = Ok rows' ∧ placed (n + 1) all all rows'.
Proof.
  intros Hk Hn [Hl Hrow].
  assert (∀ v, v ≠ n → row all v = row ps v) as Hne.
  { intros v Hv. unfold all. rewrite row_app, row_hub_row. destruct (Z.eqb_spec n v); [congruence|by rewrite app_nil_r]. }
  assert (row ps n = []) as Hn0.
  { destruct (row ps n) as [|x l] eqn:E; [done|]. assert (x ∈ row ps n) as Hx by (rewrite E; left). apply elem_of_row in Hx.
    unfold keys_below in Hk. rewrite list.Forall_forall in Hk. specialize (Hk _ Hx). cbn in Hk. lia. }
  assert (row all n = hubSucc) as Hhub by (unfold all; by rewrite row_app, row_hub_row, Z.eqb_refl, Hn0).
  assert (keys_below (n + 1) all) as Hka.
  { apply list.Forall_app. split; [eapply Forall_impl; [exact Hk|]; intros [? ?]; cbn; lia|].
    apply list.Forall_forall. intros p (c & -> & _)%list_elem_of_fmap. cbn. lia. }
  assert (zlen all = zlen ps + zlen hubSucc) as Hla by (unfold all; rewrite zlen_app; unfold zlen, hub_row; by rewrite length_fmap).
  assert (below all n = zlen ps) as Hb.
  { pose proof (below_succ all n) as H. unfold cnt in H. rewrite Hhub, (below_keys _ _ Hka) in H. lia. }
  unfold cnt. rewrite Hn0, Hb. change (zlen []) with 0. rewrite Z.add_0_r. pose proof (zlen_nonneg ps). pose proof (zlen_nonneg hubSucc).
  unfold acopy. destruct (Z.ltb_spec (zlen ps) 0), (Z.ltb_spec (zlen rows) (zlen ps)); try lia. cbn [orb].
  assert (length rows = (length ps + length hubSucc)%nat) as Hlr by (unfold zlen in *; lia).
  rewrite (take_ge hubSucc), (drop_ge rows), app_nil_r by (unfold zlen; lia). eexists. split; [done|]. split.
  - rewrite zlen_app, Hla. unfold zlen. rewrite length_take. lia.
  - intros v j x Hv Hx. destruct (decide (v = n)) as [->|Hvn].
    + rewrite Hhub in Hx. rewrite Hb, lookup_app_r by (rewrite length_take; unfold zlen; lia). rewrite length_take. rewrite <- Hx. f_equal. unfold zlen. lia.
    + rewrite (Hne v Hvn) in Hx. pose proof (Hrow v j x Hv Hx) as H'. rewrite lookup_app_l; [rewrite lookup_take_lt; [done|]|].
      all: pose proof (below_mono all (v + 1) n ltac:(lia)) as Hm; rewrite below_succ, Hb in Hm; unfold cnt in Hm; rewrite (Hne v Hvn) in Hm.
      all: apply lookup_lt_Some in Hx; pose proof (below_nonneg all v); unfold zlen in *; rewrite ?length_take; lia.
Qed.

(** ** The graph *)

Section graph.
Context (b : entryCheckBuilder) (Hb : builder_ok b) (hubSucc : list Z).
Context (Hhub : Forall (λ c, 0 ≤ c < zlen (size b)) hubSucc) (Hhl : zlen hubSucc ≤ zlen (size b)).
Abbreviation nf := (zlen (size b)).
Abbreviation ps := (graph_pairs b hubSucc).

Lemma graph_row v : 0 ≤ v < nf → row ps v = row (pairs (edges b)) v ++ (if 0 <? at_ (indirect b) v then [nf] else []).
Proof using Hb.
  intros Hv. unfold graph_pairs. rewrite !row_app, row_hub_edges, row_hub_row. destruct (bo_indirect _ Hb) as [-> _]. rewrite Z.sub_0_r.
  destruct (Z.eqb_spec nf v); [lia|]. destruct (Z.leb_spec 0 v), (Z.ltb_spec v (0 + nf)); try lia. cbn [andb]. by rewrite app_nil_r.
Qed.

Lemma pairs_keys v : row (pairs (edges b)) v ≠ [] → 0 ≤ v < nf.
Proof using Hb.
  destruct (row (pairs (edges b)) v) as [|x l] eqn:E; [done|]. intros _. assert ((v, x) ∈ pairs (edges b)) as Hx by (apply elem_of_row; rewrite E; left).
  apply (pairs_range nf _ _ (bo_edges _ Hb) Hx).
Qed.

Lemma hub_graph_row : row ps nf = hubSucc.
Proof using Hb.
  unfold graph_pairs. rewrite !row_app, row_hub_edges, row_hub_row, Z.eqb_refl. destruct (bo_indirect _ Hb) as [-> _].
  destruct (Z.ltb_spec nf (0 + nf)); [lia|]. rewrite andb_false_r. cbn [andb app].
  destruct (row (pairs (edges b)) nf) as [|x l] eqn:E; [done|]. destruct (pairs_keys nf) as [_ ?]; [by rewrite E|lia].
Qed.

Lemma graph_row_range v c : 0 ≤ v ≤ nf → c ∈ row ps v → 0 ≤ c ≤ nf.
Proof using Hb Hhub.
  intros Hv Hc. destruct (decide (v = nf)) as [->|].
  - rewrite hub_graph_row in Hc. rewrite list.Forall_forall in Hhub. specialize (Hhub _ Hc). cbn in Hhub. lia.
  - rewrite graph_row in Hc by lia. apply elem_of_app in Hc as [Hc|Hc].
    + apply elem_of_row in Hc. pose proof (pairs_range nf _ _ (bo_edges _ Hb) Hc) as H. cbn in H. lia.
    + destruct (0 <? at_ (indirect b) v); [apply list_elem_of_singleton in Hc as ->; lia|by apply not_elem_of_nil in Hc].
Qed.

Lemma inner_keys : keys_below nf (pairs (edges b) ++ hub_edges (indirect b) 0 nf).
Proof using Hb.
  apply list.Forall_app. split.
  - apply list.Forall_forall. intros p Hp. apply (pairs_range nf _ _ (bo_edges _ Hb) Hp).
  - destruct (bo_indirect _ Hb) as [<- _]. apply (hub_edges_keys (zlen (indirect b)) (indirect b) 0).
Qed.

Lemma pairs_total : zlen ps < 2 ^ 32.
Proof using Hb Hhl.
  unfold graph_pairs. rewrite !zlen_app. pose proof (bo_total _ Hb). destruct (hub_edges_keys nf (indirect b) 0) as [_ Hhe].
  destruct (bo_indirect _ Hb) as [E _]. unfold hub_row, zlen in *. rewrite length_fmap. lia.
Qed.

Lemma graph_keys : keys_below (nf + 1) ps.
Proof using Hb.
  unfold graph_pairs. rewrite app_assoc. apply list.Forall_app. split.
  - eapply Forall_impl; [exact inner_keys|]. intros [? ?]. cbn. lia.
  - apply list.Forall_forall. intros p (c & -> & _)%list_elem_of_fmap. cbn. pose proof (zlen_nonneg (size b)). lia.
Qed.

Lemma call_graph_spec : ∃ start succ, call_graph b hubSucc = Ok (start, succ) ∧ rows_spec (nf + 1) ps start succ.
Proof using Hb Hhub Hhl.
  unfold call_graph. pose proof (zlen_nonneg (size b)) as Hn. pose proof (bo_count _ Hb) as Hcount. destruct (bo_indirect _ Hb) as [Eind _].
  change (Z.of_nat (length (size b))) with nf. set (inner := pairs (edges b) ++ hub_edges (indirect b) 0 nf).
  assert (ps = inner ++ hub_row nf hubSucc) as Eps by (unfold inner, graph_pairs; by rewrite app_assoc).
  pose proof pairs_total as Htot. pose proof graph_keys as Hkeys. pose proof inner_keys as Hik. fold inner in Hik.
  assert (zlen ps = zlen inner + zlen hubSucc) as Hlen by (rewrite Eps, zlen_app; unfold hub_row, zlen; by rewrite length_fmap).
  pose proof (zlen_nonneg hubSucc). pose proof (zlen_nonneg inner).
  (* the counts *)
  rewrite count_callers_keys by apply Hb.
  pose proof (rep_replicate (S (S (length (size b)))) 0) as Hr0. replace (Z.of_nat (S (S (length (size b))))) with (nf + 1 + 1) in Hr0 by (unfold zlen; lia).
  destruct (count_keys_spec (nf + 1) inner _ _ Hr0) as (s1 & E1 & Hs1).
  { eapply Forall_impl; [exact Hik|]. intros [? ?]. cbn. lia. }
  { lia. }
  { intros j. pose proof (cnt_le inner (j - 1)). pose proof (row_cnt_nonneg inner (j - 1)). lia. }
  unfold inner in E1. rewrite count_keys_app in E1. apply obind_Ok in E1 as (s0 & -> & E1). cbn [obind].
  rewrite (count_indirect_keys nf) by lia. rewrite E1. cbn [obind].
  rewrite (rep_get _ _ _ (nf + 1) Hs1) by lia. cbn [obind].
  assert (∀ j, cnt ps j = cnt inner j + (if nf =? j then zlen hubSucc else 0)) as Hcnt.
  { intros j. unfold cnt. rewrite Eps, row_app, row_hub_row, zlen_app. by destruct (nf =? j). }
  replace (nf + 1 - 1) with nf by lia. pose proof (cnt_le ps nf) as Hcn. rewrite Hcnt, Z.eqb_refl in Hcn. pose proof (row_cnt_nonneg inner nf).
  rewrite (wrap_small 32 (zlen hubSucc)), wrap_small by lia.
  destruct (rep_set _ _ _ (nf + 1) (0 + cnt inner nf + zlen hubSucc) Hs1) as (s2 & -> & Hs2); [lia|]. cbn [obind].
  (* the starts *)
  pose proof (prefix_sums (S (length (size b))) ps s2) as Hpre. replace (Z.of_nat (S (length (size b)))) with (nf + 1) in Hpre by (unfold zlen; lia).
  destruct Hpre as (s3 & -> & Hs3); [|done|done|].
  { eapply rep_ext; [exact Hs2|]. intros j Hj. cbv beta. rewrite Hcnt. destruct (Z.eqb_spec j (nf + 1)) as [->|]; [replace (nf + 1 - 1) with nf by lia; rewrite Z.eqb_refl; lia|].
    destruct (Z.eqb_spec nf (j - 1)); lia. }
  cbn [obind]. rewrite (rep_get _ _ _ (nf + 1) Hs3) by lia. cbn [obind]. rewrite (below_keys _ _ Hkeys).
  (* the rows *)
  rewrite fill_callees_pairs by apply Hb. pose proof (filled_init (nf + 1) ps s3 Hs3 ltac:(lia)) as Hf0.
  replace (Z.to_nat (nf + 1)) with (S (length (size b))) in Hf0 by (unfold zlen; lia). replace (Z.to_nat (zlen ps)) with (length ps) by (unfold zlen; lia).
  destruct (fill_pairs_spec (nf + 1) ps inner [] _ _ ltac:(by exists (hub_row nf hubSucc)) Hkeys Htot Hf0) as (fill & rows & Ef & Hf & Hpl).
  unfold inner in Ef. rewrite fill_pairs_app in Ef. apply obind_Ok in Ef as ([f1 r1] & -> & Ef). cbn [obind fst snd] in Ef |- *.
  rewrite fill_indirect_pairs, Ef. cbn [obind]. rewrite (rep_get _ _ _ nf Hf) by lia. cbn [obind app].
  rewrite Eps in Hpl |- *. destruct (copy_placed nf inner hubSucc rows Hik Hn Hpl) as (rows' & -> & Hpl'). cbn [obind].
  exists s3, rows'. rewrite Eps in Hs3. split; [done|]. split; [done|apply Hpl'|]. intros k Hk. by apply placed_rows with (n := nf + 1).
Qed.

Lemma rows_graph start succ : rows_spec (nf + 1) ps start succ → is_graph (nf + 1) start succ (below ps) (row ps).
Proof using Hb Hhub Hhl.
  intros Hr. pose proof (bo_count _ Hb). pose proof (zlen_nonneg (size b)). split.
  - lia.
  - apply Hr.
  - intros v Hv. split; [apply below_nonneg|apply below_mono; lia].
  - split; [apply below_nonneg|]. rewrite (rs_len _ _ _ _ Hr). apply below_le.
  - rewrite (rs_len _ _ _ _ Hr). apply pairs_total.
  - apply Hr.
  - intros v w Hv Hw. apply graph_row_range in Hw; lia.
Qed.
End graph.
