(* ===== verification/EntryWork.v ===== *)
(** The unchecked work [EntryCheck.solve] computes: an invariant of its closures.

    [P] holds the nodes visited so far, callees first.  What a visited function does
    until the next check is its own body and its calls, each counted for what its
    callee does unless that is checked; the hub counts for the heaviest function it
    can reach that is not.  [Est] says the table of works bounds this, stays within
    the budget, and that [byWork] is led by the hub's heaviest.  Checking one more
    function only lowers what the others do. *)
From Stdlib Require Import ZArith Lia Sorted.
From stdpp Require Import base list numbers option tactics sorting.
From S2P Require Import Prelude CallRows Tarjan EntryCheck EntryGraph.
Local Open Scope Z_scope.
Local Open Scope go_scope.

Definition zsum {A} (f : A → Z) (l : list A) : Z := foldr (λ c acc, f c + acc) 0 l.

Lemma zsum_cons {A} (f : A → Z) (c : A) (l : list A) : zsum f (c :: l) = f c + zsum f l.
Proof. done. Qed.

Lemma zsum_app {A} (f : A → Z) (l : list A) (k : list A) : zsum f (l ++ k) = zsum f l + zsum f k.
Proof. induction l as [|x l IH]; [done|]. cbn [app]. rewrite !zsum_cons. lia. Qed.

Lemma zsum_le {A} (f : A → Z) (g : A → Z) (l : list A) : (∀ c, c ∈ l → f c ≤ g c) → zsum f l ≤ zsum g l.
Proof.
  induction l as [|c l IH]; intros H; [done|]. rewrite !zsum_cons. pose proof (H c ltac:(left)). specialize (IH (λ x Hx, H x ltac:(by right))). lia.
Qed.

Lemma zsum_0 {A} (l : list A) : zsum (λ _, 0) l = 0.
Proof. by induction l. Qed.

Lemma zsum_nonneg {A} (f : A → Z) (l : list A) : (∀ c, c ∈ l → 0 ≤ f c) → 0 ≤ zsum f l.
Proof. intros H. pose proof (zsum_le (λ _, 0) f l H) as Hs. rewrite zsum_0 in Hs. done. Qed.

Lemma zsum_ext {A} (f : A → Z) (g : A → Z) (l : list A) : (∀ c, c ∈ l → f c = g c) → zsum f l = zsum g l.
Proof. intros H. apply Z.le_antisymm; apply zsum_le; intros c Hc; rewrite H; done. Qed.

Lemma zsum_scale {A} (f : A → Z) (k : Z) (l : list A) : zsum (λ c, k * f c) l = k * zsum f l.
Proof. induction l as [|c l IH]; [cbn; lia|]. rewrite !zsum_cons. lia. Qed.

Section work.
Context (b : entryCheckBuilder) (Hb : builder_ok b) (rowf : Z → list Z).
Abbreviation nf := (zlen (size b)).
Abbreviation sz v := (at_ (size b) v).
Abbreviation ind v := (at_ (indirect b) v).

(** How often a function calls a node: the hub once for each indirect call. *)
Definition times (v c : Z) : Z := if c =? nf then ind v else 1.

Context (Hrow_local : ∀ v c, 0 ≤ v < nf → c ∈ rowf v → 0 ≤ c ≤ nf).
Context (Hrow_hub : ∀ c, c ∈ rowf nf → 0 ≤ c < nf).
Context (Hrow_size : ∀ v, 0 ≤ v < nf → 2 * zsum (times v) (rowf v) ≤ sz v).

Definition CAP : Z := 2 ^ 32 + PreemptBudget.

Implicit Types (N : Z → bool) (U : Z → Z) (P bw : list Z) (s : estate).

(** What one call of [c] by [v] adds. *)
Definition weight N U (v c : Z) : Z := if N c then 0 else U c * times v c.

Record Est P N U bw : Prop := {
  e_hub : N nf = false;
  e_zero : ∀ v, 0 ≤ v ≤ nf → v ∉ P → U v = 0;
  e_cap : ∀ v, 0 ≤ v < nf → 0 ≤ U v ≤ sz v + PreemptBudget;
  e_done : ∀ v, v ∈ P → 0 ≤ v < nf → (∀ c, c ∈ rowf v → c ∈ P ∨ N c = true) ∧ sz v + zsum (weight N U v) (rowf v) ≤ U v;
  e_hubP : nf ∈ P → ∀ c, c ∈ rowf nf → c ∈ P ∨ N c = true;
  e_head : match bw with [] => U nf = 0 | h :: _ => N h = false ∧ U nf = U h end;
  e_in : ∀ c, c ∈ bw → c ∈ rowf nf ∧ c ∈ P;
  e_sorted : StronglySorted (λ x y, U y ≤ U x) bw;
  e_covered : nf ∈ P → ∀ c, c ∈ rowf nf → N c = true ∨ U c = 0 ∨ c ∈ bw;
  e_nobw : nf ∉ P → bw = [];
}.

Lemma sz_range v : 0 ≤ v < nf → 0 ≤ sz v < 2 ^ 32.
Proof using Hb. apply (at_Forall (λ k, 0 ≤ k < 2 ^ 32)). apply Hb. Qed.

Lemma ind_nonneg v : 0 ≤ v < nf → 0 ≤ ind v < 2 ^ 32.
Proof using Hb. intros Hv. destruct (bo_indirect _ Hb) as [E H]. apply (at_Forall (λ k, 0 ≤ k < 2 ^ 32)); [done|lia]. Qed.

Lemma times_nonneg v c : 0 ≤ v < nf → 0 ≤ times v c.
Proof using Hb. intros Hv. unfold times. pose proof (ind_nonneg v Hv). destruct (c =? nf); lia. Qed.

Lemma Est_range P N U bw v : Est P N U bw → 0 ≤ v ≤ nf → 0 ≤ U v < CAP.
Proof using Hb Hrow_hub.
  intros H Hv. assert (∀ x, 0 ≤ x < nf → 0 ≤ U x < CAP) as Hl.
  { intros x Hx. pose proof (e_cap _ _ _ _ H x Hx). pose proof (sz_range x Hx). unfold CAP, PreemptBudget in *. lia. }
  destruct (decide (v = nf)) as [->|]; [|apply Hl; lia].
  pose proof (e_head _ _ _ _ H) as Hh. destruct bw as [|h bw]; [rewrite Hh; done|]. destruct Hh as [_ ->]. apply Hl, Hrow_hub, (e_in _ _ _ _ H). left.
Qed.

Lemma weight_nonneg P N U bw v c : Est P N U bw → 0 ≤ v < nf → c ∈ rowf v → 0 ≤ weight N U v c.
Proof using Hb Hrow_hub Hrow_local.
  intros H Hv Hc. unfold weight. destruct (N c); [lia|]. pose proof (Est_range _ _ _ _ c H (Hrow_local v c Hv Hc)). pose proof (times_nonneg v c Hv). nia.
Qed.

(** The calls of a function cannot overflow 64 bits: each takes two bytes of its body. *)
Lemma weights_small P N U bw v : Est P N U bw → 0 ≤ v < nf → 0 ≤ zsum (weight N U v) (rowf v) < 2 ^ 64 - 2 ^ 32.
Proof using Hb Hrow_hub Hrow_local Hrow_size.
  intros H Hv. split; [apply zsum_nonneg; intros c Hc; by eapply weight_nonneg|].
  assert (zsum (weight N U v) (rowf v) ≤ CAP * zsum (times v) (rowf v)) as Hle.
  { rewrite <- zsum_scale. apply zsum_le. intros c Hc. unfold weight. pose proof (Est_range _ _ _ _ c H (Hrow_local v c Hv Hc)).
    pose proof (times_nonneg v c Hv). destruct (N c); nia. }
  pose proof (Hrow_size v Hv). pose proof (sz_range v Hv). unfold CAP, PreemptBudget in *. change (Z.shiftl 1 16) with 65536 in *.
  assert (zsum (times v) (rowf v) < 2 ^ 31) by lia. nia.
Qed.

(** * Checking one more function *)

Lemma weight_mono N N' U U' v c : 0 ≤ times v c → (N c = true → N' c = true) → 0 ≤ U c → U' c ≤ U c → weight N' U' v c ≤ weight N U v c.
Proof using. intros Ht HN HU HUc. unfold weight. destruct (N' c) eqn:E'; [destruct (N c); nia|]. destruct (N c); [by specialize (HN eq_refl)|nia]. Qed.

Lemma drop_checked_spec nd N bw : rep (nf + 1) nd N → (∀ c, c ∈ bw → 0 ≤ c ≤ nf) →
  ∃ pre bw', drop_checked nd bw = Ok bw' ∧ bw = pre ++ bw' ∧ Forall (λ c, N c = true) pre ∧
    match bw' with [] => True | h :: _ => N h = false end.
Proof using.
  intros Hr. induction bw as [|c bw IH]; intros Hra; cbn [drop_checked]; [by exists [], []|].
  rewrite (rep_get _ _ _ c Hr) by (pose proof (Hra c ltac:(left)); lia). cbn [obind]. destruct (N c) eqn:Ec; [|by exists [], (c :: bw)].
  destruct IH as (pre & bw' & -> & -> & Hp & Hh); [intros x Hx; apply Hra; by right|]. exists (c :: pre), bw'. split_and!; [done|done|by constructor|done].
Qed.

Lemma StronglySorted_app_r {A} (R : A → A → Prop) (l k : list A) : StronglySorted R (l ++ k) → StronglySorted R k.
Proof using. induction l as [|x l IH]; [done|]. cbn. inversion_clear 1. auto. Qed.

Lemma StronglySorted_head {A} (R : A → A → Prop) (l k : list A) x y : StronglySorted R (l ++ x :: k) → head (l ++ x :: k) = Some y → y = x ∨ R y x.
Proof using.
  destruct l as [|z l]; cbn; [intros _ [= ->]; by left|]. inversion_clear 1 as [|?? _ Hf]. intros [= ->]. right. rewrite list.Forall_forall in Hf. apply Hf.
  apply elem_of_app. right. left.
Qed.

(** The table after [c] is checked, [bw'] what is left of [byWork]. *)
Lemma Est_check P N U bw c pre bw' x (N' := upd N c true) (U' := upd U nf x) :
  Est P N U bw → 0 ≤ c < nf → bw = pre ++ bw' → Forall (λ c, N' c = true) pre →
  match bw' with [] => x = 0 | h :: _ => N' h = false ∧ x = U h end → Est P N' U' bw' ∧ x ≤ U nf.
Proof using Hb Hrow_hub Hrow_local.
  intros H Hc Ebw Hpre Hhead.
  assert (∀ v, N v = true → N' v = true) as HN by (intros v Hv; unfold N', upd; by destruct (v =? c)).
  assert (∀ v, v ≠ nf → U' v = U v) as HU by (intros v Hv; by apply upd_ne). assert (U' nf = x) as HUn by apply upd_eq.
  assert (∀ y, y ∈ bw → y ≠ nf) as Hbn by (intros y Hy ->; apply (e_in _ _ _ _ H) in Hy as [Hy _]; apply Hrow_hub in Hy; lia).
  assert (x ≤ U nf) as Hx.
  { destruct bw' as [|h bw']; [rewrite Hhead; apply (Est_range _ _ _ _ nf H); pose proof (zlen_nonneg (size b)); lia|]. destruct Hhead as [_ ->].
    pose proof (e_head _ _ _ _ H) as Hh. pose proof (e_sorted _ _ _ _ H) as Hs. rewrite Ebw in Hh, Hs.
    destruct (pre ++ h :: bw') as [|y l] eqn:El; [by destruct pre|]. destruct Hh as [_ ->]. rewrite <- El in Hs.
    destruct (StronglySorted_head _ _ _ _ y Hs) as [->|?]; [by rewrite El|lia|done]. }
  split; [|done]. destruct H as [Hhub Hzero Hcap Hdone HhubP Hhd Hin Hsort Hcov Hnobw].
  assert (∀ y, y ∈ bw' → y ∈ bw) as Hsub by (intros y Hy; rewrite Ebw; apply elem_of_app; by right).
  split.
  - unfold N'. by rewrite upd_ne by lia.
  - intros v Hv HvP. destruct (decide (v = nf)) as [->|]; [|rewrite HU by done; auto]. rewrite HUn.
    rewrite (Hnobw HvP) in Ebw. destruct pre, bw'; try done.
  - intros v Hv. rewrite HU by lia. auto.
  - intros v Hv Hvn. destruct (Hdone v Hv Hvn) as [Hcl Hle]. split; [intros y Hy; destruct (Hcl y Hy); auto|]. rewrite HU by lia.
    assert (zsum (weight N' U' v) (rowf v) ≤ zsum (weight N U v) (rowf v)) as Hz; [|lia]. apply zsum_le. intros y Hy.
    assert (0 ≤ U y) as Hy0.
    { destruct (decide (y = nf)) as [->|]; [|apply Hcap; pose proof (Hrow_local v y Hvn Hy); lia]. destruct bw as [|h ?]; [lia|]. destruct Hhd as [_ ->]. apply Hcap, Hrow_hub, Hin. left. }
    apply weight_mono; [by apply times_nonneg|auto|done|]. destruct (decide (y = nf)) as [->|]; [lia|rewrite HU by done; lia].
  - intros HnP y Hy. destruct (HhubP HnP y Hy); auto.
  - rewrite HUn. destruct bw' as [|h bw']; [done|]. destruct Hhead as [? ->]. split; [done|]. rewrite HU; [done|]. apply Hbn, Hsub. left.
  - intros y Hy. apply Hin, Hsub, Hy.
  - rewrite Ebw in Hsort. apply StronglySorted_app_r in Hsort. clear -Hsort Hsub Hbn HU. induction Hsort as [|y l Hl IH Hf]; [constructor|].
    constructor; [apply IH; intros z Hz; apply Hsub; by right|]. rewrite list.Forall_forall in *. intros z Hz. rewrite !HU by (apply Hbn, Hsub; by (left || right)). auto.
  - intros HnP y Hy. destruct (Hcov HnP y Hy) as [?|[?|Hyb]]; [auto|right; left; rewrite HU; [done|apply Hrow_hub in Hy; lia]|].
    rewrite Ebw in Hyb. apply elem_of_app in Hyb as [Hyb|?]; [|by right; right]. rewrite list.Forall_forall in Hpre. left. by apply Hpre.
  - intros HnP. rewrite (Hnobw HnP) in Ebw. by destruct pre, bw'.
Qed.

(** A state of the closures.  While a function is being bounded the table holds a
    work for it that is not final: [Ua] is the table and [U] the invariant's. *)
Definition holds s N Ua bw : Prop := rep (nf + 1) (needs s) N ∧ rep (nf + 1) (uc s) Ua ∧ byWork s = bw.

Lemma check_spec P N U bw s Ua c :
  holds s N Ua bw → Est P N U bw → (∀ y, y ∈ bw → Ua y = U y) →
  (c = nf ∧ bw ≠ [] ∨ 0 ≤ c < nf ∧ N c = false) →
  ∃ s' c' x bw', check nf s c = Ok s' ∧ 0 ≤ c' < nf ∧ N c' = false ∧ holds s' (upd N c' true) (upd Ua nf x) bw' ∧
    Est P (upd N c' true) (upd U nf x) bw' ∧ (∀ y, y ∈ bw' → y ∈ bw).
Proof using Hb Hrow_hub Hrow_local.
  intros (Hnd & Huc & Ebw) H Hag Hc. pose proof (zlen_nonneg (size b)) as Hn. unfold check.
  assert (∃ c', (if c =? nf then match byWork s with [] => Panic | h :: _ => Ok h end else Ok c) = Ok c' ∧ 0 ≤ c' < nf ∧ N c' = false) as (c' & -> & Hc' & HNc).
  { rewrite Ebw. destruct Hc as [[-> Hbw]|[Hc HN]].
    - rewrite Z.eqb_refl. destruct bw as [|h bw]; [done|]. exists h. split; [done|]. split; [apply Hrow_hub, (e_in _ _ _ _ H); left|apply (e_head _ _ _ _ H)].
    - destruct (Z.eqb_spec c nf); [lia|]. by exists c. }
  cbn [obind]. destruct (rep_set _ _ _ c' true Hnd) as (nd & -> & Hnd'); [lia|]. cbn [obind]. rewrite Ebw.
  destruct (drop_checked_spec nd _ bw Hnd') as (pre & bw' & -> & Ebw' & Hpre & Hhead).
  { intros y Hy. apply (e_in _ _ _ _ H) in Hy as [Hy _]. apply Hrow_hub in Hy. lia. }
  cbn [obind]. destruct (rep_set _ _ _ nf 0 Huc) as (u0 & -> & Hu0); [lia|]. cbn [obind].
  set (x := match bw' with [] => 0 | h :: _ => U h end).
  assert (∀ y, y ∈ bw' → y ∈ bw) as Hsub by (intros y Hy; rewrite Ebw'; apply elem_of_app; by right).
  assert (∃ u1, match bw' with [] => Ok u0 | h :: _ => let* w := aget u0 h in aset u0 nf w end = Ok u1 ∧ rep (nf + 1) u1 (upd Ua nf x)) as (u1 & -> & Hu1).
  { destruct bw' as [|h bw']; [by exists u0|]. assert (h ∈ bw) as Hh by (apply Hsub; left).
    assert (0 ≤ h < nf) as Hhr by (apply Hrow_hub, (e_in _ _ _ _ H); done). rewrite (rep_get _ _ _ h Hu0) by lia. cbn [obind].
    destruct (Z.eqb_spec h nf); [lia|]. destruct (rep_set _ _ _ nf (Ua h) Hu0) as (u1 & -> & Hu1); [lia|]. exists u1. split; [done|].
    eapply rep_ext; [exact Hu1|]. intros i Hi. cbn. unfold upd. destruct (i =? nf); [by rewrite Hag|done]. }
  cbn [obind]. destruct (Est_check P N U bw c' pre bw' x H Hc' Ebw') as [H' _]; [exact Hpre|destruct bw'; done|].
  exists (mkE nd u1 bw'), c', x, bw'. do 3 (split; [done|]). by split.
Qed.

(** * Bounding one function *)

Lemma contribution_spec s N Ua bw c : holds s N Ua bw → 0 ≤ c ≤ nf → contribution s c = Ok (if N c then 0 else Ua c).
Proof using.
  intros (Hnd & Huc & _) Hc. unfold contribution. rewrite (rep_get _ _ _ c Hnd) by lia. cbn [obind]. destruct (N c); [done|]. apply (rep_get _ _ _ c Huc). lia.
Qed.

Lemma bound_calls_spec s N Ua bw v : holds s N Ua bw → 0 ≤ v < nf → ∀ calls cw h hw,
  (∀ c, c ∈ calls → 0 ≤ c ≤ nf ∧ 0 ≤ weight N Ua v c) → 0 ≤ cw → 0 ≤ hw → cw + zsum (weight N Ua v) calls < 2 ^ 64 →
  ∃ h' hw', bound_calls b nf v s calls (cw, h, hw) = Ok (cw + zsum (weight N Ua v) calls, h', hw') ∧ hw ≤ hw' ∧
    (∀ c, c ∈ calls → weight N Ua v c ≤ hw') ∧ (h' = h ∧ hw' = hw ∨ h' ∈ calls ∧ weight N Ua v h' = hw' ∧ hw < hw').
Proof using Hb.
  intros Hs Hv calls. induction calls as [|c calls IH]; intros cw h hw Hra Hcw Hhw Hsum; cbn [bound_calls].
  - exists h, hw. rewrite Z.add_0_r. split_and!; [done|done|by intros ? ?%not_elem_of_nil|by left].
  - destruct (Hra c ltac:(left)) as [Hc Hwc]. rewrite zsum_cons in Hsum |- *.
    assert (0 ≤ zsum (weight N Ua v) calls) as Hz by (apply zsum_nonneg; intros x Hx; apply Hra; by right).
    rewrite (contribution_spec _ _ _ _ c Hs Hc). cbn [obind].
    assert ((if c =? nf then let* k := aget (indirect b) v in Ok (u64 ((if N c then 0 else Ua c) * k)) else Ok (if N c then 0 else Ua c)) = Ok (weight N Ua v c)) as ->.
    { unfold weight, times in *. destruct (Z.eqb_spec c nf) as [->|]; [|destruct (N c); [done|by rewrite Z.mul_1_r]].
      rewrite at_get by (destruct (bo_indirect _ Hb); lia). cbn [obind]. f_equal. destruct (N nf); [done|]. apply wrap_small. lia. }
    cbn [obind]. rewrite wrap_small by lia. set (w := weight N Ua v c) in *.
    destruct (IH (cw + w) (if hw <? w then c else h) (if hw <? w then w else hw)) as (h' & hw' & -> & Hle & Hall & Hor).
    { intros x Hx. apply Hra. by right. } { lia. } { destruct (Z.ltb_spec hw w); lia. } { lia. }
    exists h', hw'. split; [f_equal; f_equal; f_equal; lia|]. split; [destruct (Z.ltb_spec hw w); lia|]. split.
    + intros x [->|Hx]%elem_of_cons; [fold w; destruct (Z.ltb_spec hw w); lia|by apply Hall].
    + destruct Hor as [[-> ->]|(? & ? & ?)]; [|right; split_and!; [by right|done|destruct (Z.ltb_spec hw w); lia]].
      destruct (Z.ltb_spec hw w); [right|by left]. split_and!; [left|done|lia].
Qed.

(** The functions not checked: what the rounds of [bound] use up. *)
Definition open N : nat := sum_list_with (λ x, if N x then 0%nat else 1%nat) (seqZ 0 nf).

Lemma open_check N c : 0 ≤ c < nf → N c = false → (open (upd N c true) < open N)%nat.
Proof using.
  intros Hc HN. unfold open.
  pose proof (sum_upd (λ x, if N x then 0%nat else 1%nat) (λ x, if upd N c true x then 0%nat else 1%nat) (seqZ 0 nf) c (NoDup_seqZ 0 nf)) as H.
  cbv beta in H. rewrite HN, upd_eq in H. specialize (H ltac:(apply elem_of_seqZ; lia) eq_refl ltac:(intros x Hx; by rewrite upd_ne)). lia.
Qed.

Lemma open_le N : (open N ≤ length (size b))%nat.
Proof using.
  pose proof (sum_le (λ x, if N x then 0%nat else 1%nat) 1 (seqZ 0 nf)) as H. unfold open. rewrite length_seqZ in H. unfold zlen in *. rewrite Nat2Z.id in H.
  etrans; [apply H; apply list.Forall_forall; intros x _; destruct (N x); lia|lia].
Qed.

Lemma Est_visit P N U bw v : Est P N U bw → v ∉ P → 0 ≤ v < nf → (∀ c, c ∈ rowf v → c ∈ P ∨ N c = true) →
  zsum (weight N U v) (rowf v) ≤ PreemptBudget → Est (v :: P) N (upd U v (sz v + zsum (weight N U v) (rowf v))) bw.
Proof using Hb Hrow_hub Hrow_local Hrow_size.
  intros H HvP Hv Hcl Hbud. pose proof (weights_small _ _ _ _ v H Hv) as Hws. pose proof (sz_range v Hv) as Hsz. set (u := sz v + zsum (weight N U v) (rowf v)) in *.
  destruct H as [Hhub Hzero Hcap Hdone HhubP Hhd Hin Hsort Hcov Hnobw].
  assert (∀ y, y ∈ bw → y ≠ v) as Hne by (intros y Hy ->; by apply Hin in Hy as [_ ?]).
  assert (∀ w, (∀ c, c ∈ rowf w → c ∈ P ∨ N c = true) → zsum (weight N (upd U v u) w) (rowf w) = zsum (weight N U w) (rowf w)) as Hsame.
  { intros w Hw. apply zsum_ext. intros c Hc. unfold weight. destruct (N c) eqn:Ec; [done|]. rewrite upd_ne; [done|]. intros ->. destruct (Hw v Hc); [done|congruence]. }
  split.
  - done.
  - intros w Hw HwP. apply not_elem_of_cons in HwP as [? ?]. rewrite upd_ne by done. auto.
  - intros w Hw. destruct (decide (w = v)) as [->|]; [rewrite upd_eq; unfold u; lia|rewrite upd_ne by done; auto].
  - intros w [->|Hw]%elem_of_cons Hwn.
    + split; [intros c Hc; destruct (Hcl c Hc); [left; by right|by right]|]. rewrite upd_eq, Hsame by done. unfold u. lia.
    + destruct (Hdone w Hw Hwn) as [Hc Hle]. split; [intros c Hcr; destruct (Hc c Hcr); [left; by right|by right]|].
      rewrite Hsame by done. rewrite upd_ne by (by intros ->). done.
  - intros [?|HnP]%elem_of_cons; [lia|]. intros c Hc. destruct (HhubP HnP c Hc); [left; by right|by right].
  - destruct bw as [|h bw]; [rewrite upd_ne by lia; done|]. destruct Hhd as [? E]. split; [done|]. rewrite (upd_ne _ _ _ nf) by lia. rewrite upd_ne; [done|apply Hne; left].
  - intros y Hy. destruct (Hin y Hy). split; [done|by right].
  - clear -Hsort Hne. induction Hsort as [|y l Hl IH Hf]; [constructor|]. constructor; [apply IH; intros z Hz; apply Hne; by right|].
    rewrite list.Forall_forall in *. intros z Hz. rewrite !upd_ne by (apply Hne; by (left || right)). auto.
  - intros [?|HnP]%elem_of_cons; [lia|]. intros c Hc. destruct (decide (c = v)) as [->|Hcv]; [|rewrite upd_ne by done; auto].
    left. destruct (HhubP HnP v Hc); [done|done].
  - intros HnP. apply Hnobw. intros ?. apply HnP. by right.
Qed.

Lemma bound_spec fuel : ∀ P N U Ua bw s v, holds s N Ua bw → Est P N U bw → v ∉ P → 0 ≤ v < nf → (∀ y, y ≠ v → Ua y = U y) →
  (∀ c, c ∈ rowf v → c ∈ P ∨ N c = true) → (open N < fuel)%nat →
  ∃ s' N' U' bw', bound fuel b nf v (rowf v) s = Ok s' ∧ holds s' N' U' bw' ∧ Est (v :: P) N' U' bw' ∧ ∀ x, N x = true → N' x = true.
Proof using Hb Hrow_hub Hrow_local Hrow_size.
  induction fuel as [|fuel IH]; intros P N U Ua bw s v Hs H HvP Hv Hag Hcl Hfu; [lia|]. cbn [bound].
  assert (∀ c, c ∈ rowf v → weight N Ua v c = weight N U v c) as Hsame.
  { intros c Hc. unfold weight. destruct (N c) eqn:Ec; [done|]. rewrite Hag; [done|]. intros ->. destruct (Hcl v Hc); [done|congruence]. }
  pose proof (zsum_ext _ _ _ Hsame) as Ez. pose proof (weights_small _ _ _ _ v H Hv) as Hws. pose proof (sz_range v Hv) as Hsz.
  destruct (bound_calls_spec s N Ua bw v Hs Hv (rowf v) 0 (-1) 0) as (h & hw & -> & Hhw & Hall & Hor); [|lia|lia|rewrite Ez; lia|].
  { intros c Hc. split; [by eapply Hrow_local|]. rewrite Hsame by done. by eapply weight_nonneg. }
  cbn [obind]. rewrite Z.add_0_l, Ez. rewrite at_get by lia. cbn [obind]. rewrite wrap_small by lia.
  destruct Hs as (Hnd & Huc & Ebw). destruct (rep_set _ _ _ v (sz v + zsum (weight N U v) (rowf v)) Huc) as (u1 & -> & Hu1); [lia|]. cbn [obind].
  destruct (Z.leb_spec (zsum (weight N U v) (rowf v)) PreemptBudget) as [Hle|Hgt].
  - eexists _, N, (upd U v (sz v + zsum (weight N U v) (rowf v))), bw. split; [done|]. split; [|split; [by apply Est_visit|done]].
    split_and!; [done| |done]. eapply rep_ext; [exact Hu1|]. intros y _. unfold upd. destruct (Z.eqb_spec y v); [done|by apply Hag].
  - destruct Hor as [[_ ->]|(Hin & Ehw & Hpos)].
    { assert (zsum (weight N U v) (rowf v) ≤ zsum (λ _, 0) (rowf v)) as Hz by (apply zsum_le; intros c Hc; rewrite <- Hsame by done; by apply Hall).
      rewrite zsum_0 in Hz. assert (0 < PreemptBudget) by done. lia. }
    rewrite Hsame in Ehw by done. pose proof (Hrow_local v h Hv Hin) as Hhr.
    assert (N h = false ∧ 0 < U h) as [HNh HUh].
    { unfold weight in Ehw. destruct (N h); [lia|]. split; [done|]. pose proof (Est_range _ _ _ _ h H Hhr). destruct (Z.eq_dec (U h) 0) as [E0|]; [rewrite E0 in Ehw; lia|lia]. }
    destruct (check_spec P N U bw (mkE (needs s) u1 (byWork s)) (upd Ua v (sz v + zsum (weight N U v) (rowf v))) h) as (s2 & c' & x & bw' & -> & Hc' & HNc & Hs2 & H2 & Hsub).
    { split_and!; [done|exact Hu1|done]. } { done. }
    { intros y Hy. rewrite upd_ne; [apply Hag|]; intros ->; by apply (e_in _ _ _ _ H) in Hy as [_ ?]. }
    { destruct (decide (h = nf)) as [->|]; [left; split; [done|]|right; split; [lia|done]]. intros ->. rewrite (e_head _ _ _ _ H) in HUh. lia. }
    cbn [obind]. destruct (IH P _ _ _ bw' s2 v Hs2 H2 HvP Hv) as (s' & N' & U' & bw'' & -> & Hs' & H' & Hm).
    { intros y Hy. unfold upd. destruct (y =? nf); [done|]. destruct (Z.eqb_spec y v); [done|by apply Hag]. }
    { intros c Hc. unfold upd. destruct (Hcl c Hc); [by left|right]. by destruct (c =? c'). }
    { pose proof (open_check N c' Hc' HNc). lia. }
    exists s', N', U', bw''. split_and!; [done|done|done|]. intros y Hy. apply Hm. unfold upd. by destruct (y =? c').
Qed.

(** * The hub *)

#[local] Instance heavier_trans u : Transitive (heavier u).
Proof using. intros x y z. unfold heavier. lia. Qed.

#[local] Instance heavier_total u : Total (heavier u).
Proof using. intros x y. unfold heavier. lia. Qed.

Lemma unchecked_of_spec s N U bw : holds s N U bw → ∀ row acc, (∀ c, c ∈ row → 0 ≤ c ≤ nf) →
  unchecked_of s row acc = Ok (acc ++ filter (λ c, N c = false ∧ 0 < U c) row).
Proof using.
  intros Hs row. induction row as [|c row IH]; intros acc Hra; cbn [unchecked_of]; [by rewrite app_nil_r|].
  rewrite (contribution_spec _ _ _ _ c Hs) by (apply Hra; left). cbn [obind]. rewrite IH by (intros x Hx; apply Hra; by right). rewrite filter_cons.
  destruct (N c) eqn:Ec; cbn.
  - case_decide as Hd; [by destruct Hd|done].
  - destruct (Z.ltb_spec 0 (U c)); case_decide as Hd; try (by rewrite <- app_assoc); [by destruct Hd|destruct Hd; lia|done].
Qed.

(** The heaviest functions of the hub's row first. *)
Lemma by_work_sorted s N U bw l : holds s N U bw → (∀ c, c ∈ l → 0 ≤ c ≤ nf) →
  StronglySorted (λ x y, U y ≤ U x) (merge_sort (heavier (uc s)) l) ∧ ∀ c, c ∈ merge_sort (heavier (uc s)) l ↔ c ∈ l.
Proof using.
  intros (_ & Huc & _) Hra. assert (∀ c, c ∈ merge_sort (heavier (uc s)) l ↔ c ∈ l) as Hin by (intros c; by rewrite merge_sort_Permutation).
  split; [|done]. pose proof (StronglySorted_merge_sort (heavier (uc s)) l) as Hs.
  assert (∀ c, c ∈ merge_sort (heavier (uc s)) l → default 0 (uc s !! Z.to_nat c) = U c) as Hget.
  { intros c Hc%Hin%Hra. by rewrite (proj2 Huc c) by lia. }
  clear Hin Hra. induction Hs as [|y k Hk IH Hf]; [constructor|]. constructor; [apply IH; intros c Hc; apply Hget; by right|].
  rewrite list.Forall_forall in *. intros z Hz. specialize (Hf z Hz). unfold heavier in Hf. rewrite !Hget in Hf by (by (left || right)). lia.
Qed.

Lemma Est_hub P N U bw : Est P N U [] → nf ∉ P → (∀ c, c ∈ rowf nf → c ∈ P ∨ N c = true) →
  StronglySorted (λ x y, U y ≤ U x) bw → (∀ c, c ∈ bw ↔ c ∈ rowf nf ∧ N c = false ∧ 0 < U c) →
  Est (nf :: P) N (upd U nf (match bw with [] => 0 | h :: _ => U h end)) bw.
Proof using Hb Hrow_hub Hrow_local.
  intros H HP Hcl Hsort Hbw. pose proof (λ v, Est_range _ _ _ _ v H) as Hrange. destruct H as [Hhub Hzero Hcap Hdone HhubP Hhd Hin _ Hcov Hnobw].
  assert (∀ y, y ∈ bw → 0 ≤ y < nf) as Hbr by (intros y [Hy _]%Hbw; by apply Hrow_hub). set (x := match bw with [] => 0 | h :: _ => U h end).
  split.
  - done.
  - intros v Hv HvP. apply not_elem_of_cons in HvP as [? ?]. rewrite upd_ne by done. auto.
  - intros v Hv. rewrite upd_ne by lia. auto.
  - intros v [->|Hv]%elem_of_cons Hvn; [lia|]. destruct (Hdone v Hv Hvn) as [Hc Hle].
    split; [intros c Hcr; destruct (Hc c Hcr); [left; by right|by right]|]. rewrite upd_ne by lia.
    rewrite (zsum_ext _ (weight N U v)); [done|]. intros c Hcr. unfold weight. destruct (N c) eqn:Ec; [done|]. rewrite upd_ne; [done|]. intros ->. destruct (Hc nf Hcr); [done|congruence].
  - intros _ c Hc. destruct (Hcl c Hc); [left; by right|by right].
  - destruct bw as [|h bw]; [by rewrite upd_eq|]. destruct (proj1 (Hbw h) ltac:(left)) as (? & ? & ?). split; [done|].
    rewrite upd_eq, upd_ne; [done|]. pose proof (Hbr h ltac:(left)). lia.
  - intros c Hc. destruct (proj1 (Hbw c) Hc) as (Hcr & HNc & _). split; [done|]. destruct (Hcl c Hcr); [by right|congruence].
  - clearbody x. clear -Hsort Hbr. induction Hsort as [|y l Hl IH Hf]; [constructor|]. constructor; [apply IH; intros z Hz; apply Hbr; by right|].
    rewrite list.Forall_forall in *. intros z Hz. pose proof (Hbr y ltac:(left)). pose proof (Hbr z ltac:(by right)). rewrite !upd_ne by lia. auto.
  - intros _ c Hc. pose proof (Hrow_hub c Hc). rewrite upd_ne by lia. destruct (N c) eqn:Ec; [by left|]. right.
    destruct (Z.eq_dec (U c) 0); [by left|right]. apply Hbw. split_and!; [done|done|]. pose proof (Hrange c). lia.
  - intros Hn. destruct Hn. left.
Qed.

Lemma visit_hub_spec P N U s bw : holds s N U bw → Est P N U bw → nf ∉ P → (∀ c, c ∈ rowf nf → c ∈ P ∨ N c = true) →
  ∃ s' U' bw', visit_hub nf (rowf nf) s = Ok s' ∧ holds s' N U' bw' ∧ Est (nf :: P) N U' bw'.
Proof using Hb Hrow_hub Hrow_local.
  intros Hs H HP Hcl. pose proof (e_nobw _ _ _ _ H HP) as ->. unfold visit_hub. destruct Hs as (Hnd & Huc & Ebw). rewrite Ebw.
  assert (holds s N U []) as Hs by done. pose proof (zlen_nonneg (size b)) as Hn.
  rewrite (unchecked_of_spec s N U []) by (done || (intros c Hc%Hrow_hub; lia)). cbn [obind app].
  destruct (by_work_sorted s N U [] (filter (λ c, N c = false ∧ 0 < U c) (rowf nf)) Hs) as [Hsort Hin].
  { intros c [_ Hc]%list_elem_of_filter. apply Hrow_hub in Hc. lia. }
  set (bw := merge_sort (heavier (uc s)) (filter (λ c, N c = false ∧ 0 < U c) (rowf nf))) in *.
  assert (∀ c, c ∈ bw ↔ c ∈ rowf nf ∧ N c = false ∧ 0 < U c) as Hbw by (intros c; rewrite Hin, list_elem_of_filter; tauto).
  assert (∃ u1, match bw with [] => Ok (uc s) | h :: _ => let* w := aget (uc s) h in aset (uc s) nf w end = Ok u1 ∧
    rep (nf + 1) u1 (upd U nf (match bw with [] => 0 | h :: _ => U h end))) as (u1 & -> & Hu1).
  { destruct bw as [|h bw'] eqn:E.
    - exists (uc s). split; [done|]. eapply rep_ext; [exact Huc|]. intros i Hi. unfold upd. destruct (Z.eqb_spec i nf) as [->|]; [apply (e_head _ _ _ _ H)|done].
    - assert (0 ≤ h < nf) as Hh by (apply Hrow_hub, Hbw; left). rewrite (rep_get _ _ _ h Huc) by lia. cbn [obind]. apply (rep_set _ _ _ nf (U h) Huc). lia. }
  cbn [obind]. eexists _, _, bw. split; [done|]. split; [split_and!; [done|exact Hu1|done]|]. by apply Est_hub.
Qed.

(** * Visiting a component *)

(** The nodes of [ord] can be visited in order: what each calls has been, or is checked. *)
Fixpoint visitable N P (ord : list Z) : Prop :=
  match ord with
  | [] => True
  | v :: ord => 0 ≤ v ≤ nf ∧ (v ∉ P) ∧ (∀ c, c ∈ rowf v → c ∈ P ∨ N c = true) ∧ visitable N (v :: P) ord
  end.

Lemma visitable_mono N N' P ord : (∀ x, N x = true → N' x = true) → visitable N P ord → visitable N' P ord.
Proof using.
  intros HN. revert P; induction ord as [|v ord IH]; intros P; cbn; [done|]. intros (? & ? & Hc & ?). split_and!; [lia|lia|done| |auto].
  intros c Hcr. destruct (Hc c Hcr); auto.
Qed.

Context (start succ : list Z) (Hrows : ∀ v, 0 ≤ v ≤ nf → node_row start succ v = Ok (rowf v)).

Lemma visit_all_spec ord : ∀ P N U bw s, holds s N U bw → Est P N U bw → visitable N P ord →
  ∃ s' N' U' bw', visit_all b start succ ord s = Ok s' ∧ holds s' N' U' bw' ∧ Est (rev ord ++ P) N' U' bw' ∧ ∀ x, N x = true → N' x = true.
Proof using Hb Hrow_hub Hrow_local Hrow_size Hrows.
  induction ord as [|v ord IH]; intros P N U bw s Hs H Hv; cbn [visit_all]; [by exists s, N, U, bw|].
  destruct Hv as (Hvn & HvP & Hcl & Hrest). rewrite (Hrows v Hvn). cbn [obind].
  assert (∃ s1 N1 U1 bw1, (if v =? nf then visit_hub nf (rowf v) s else bound (S (length (size b))) b nf v (rowf v) s) = Ok s1 ∧
    holds s1 N1 U1 bw1 ∧ Est (v :: P) N1 U1 bw1 ∧ ∀ x, N x = true → N1 x = true) as (s1 & N1 & U1 & bw1 & -> & Hs1 & H1 & Hm1).
  { destruct (Z.eqb_spec v nf) as [->|].
    - destruct (visit_hub_spec P N U s bw Hs H HvP Hcl) as (s1 & U1 & bw1 & ? & ? & ?). by exists s1, N, U1, bw1.
    - destruct (bound_spec (S (length (size b))) P N U U bw s v Hs H HvP) as (s1 & N1 & U1 & bw1 & ? & ? & ? & ?); [lia|done|done|pose proof (open_le N); lia|].
      by exists s1, N1, U1, bw1. }
  cbn [obind]. destruct (IH (v :: P) N1 U1 bw1 s1 Hs1 H1) as (s2 & N2 & U2 & bw2 & -> & Hs2 & H2 & Hm2); [by eapply visitable_mono|].
  exists s2, N2, U2, bw2. split_and!; [done|done| |auto]. cbn [rev]. by rewrite <- app_assoc.
Qed.
End work.
