(* ===== verification/EntryCycles.v ===== *)
(** The first thing [EntryCheck.solve] does with a component: every cycle gets a
    function that checks on entry, and the component an order in which each function
    comes after what it calls and does not check. *)
From Stdlib Require Import ZArith Lia Sorted.
From stdpp Require Import base list numbers option tactics sorting.
From S2P Require Import Prelude CallRows Tarjan EntryCheck EntryGraph EntryWork.
Local Open Scope Z_scope.
Local Open Scope go_scope.

Lemma elem_of_rev {A} (x : A) l : x ∈ rev l ↔ x ∈ l.
Proof. rewrite !list_elem_of_In. symmetry. apply in_rev. Qed.

Lemma length_omap_le {A B} (f : A → option B) l : (length (omap f l) ≤ length l)%nat.
Proof.
  induction l as [|x l IH]; [done|]. change (omap f (x :: l)) with (match f x with Some y => y :: omap f l | None => omap f l end).
  destruct (f x); cbn [length]; lia.
Qed.

(** * Orders *)

Section cycles.
Context (b : entryCheckBuilder) (Hb : builder_ok b) (rowf : Z → list Z).
Abbreviation nf := (zlen (size b)).
Context (Hrow : ∀ v c, 0 ≤ v ≤ nf → c ∈ rowf v → 0 ≤ c ≤ nf).
Context (Hrow_ind : ∀ v, 0 ≤ v < nf → nf ∈ rowf v → 0 < at_ (indirect b) v).
Context (start succ : list Z) (Hrows : ∀ v, 0 ≤ v ≤ nf → node_row start succ v = Ok (rowf v)).

Implicit Types (N : Z → bool) (P scc : list Z).

(** Groups of nodes, each calling only into the groups before it or what is checked. *)
Lemma visitable_concat N ords : ∀ P,
  (∀ k o v c, ords !! k = Some o → v ∈ o → c ∈ rowf v → c ∈ P ∨ N c = true ∨ c ∈ concat (take k ords)) →
  NoDup (concat ords) → (∀ v, v ∈ concat ords → 0 ≤ v ≤ nf ∧ (v ∉ P)) → visitable b rowf N P (concat ords).
Proof using.
  assert (∀ o P k, (∀ v c, v ∈ o → c ∈ rowf v → c ∈ P ∨ N c = true) → NoDup o → (∀ v, v ∈ o → 0 ≤ v ≤ nf ∧ (v ∉ P)) →
    visitable b rowf N (rev o ++ P) k → visitable b rowf N P (o ++ k)) as Hgroup.
  { induction o as [|v o IH]; intros P k Hc Hnd Hr Hk; [done|]. cbn. apply list.NoDup_cons in Hnd as [Hv Hnd]. destruct (Hr v ltac:(left)). split_and!; [lia|lia|done| |].
    - intros c Hcr. apply (Hc v c); [left|done].
    - apply IH; [|done| |cbn [rev] in Hk; by rewrite <- app_assoc in Hk].
      + intros w c Hw Hcw. destruct (Hc w c ltac:(by right) Hcw); [left; by right|by right].
      + intros w Hw. destruct (Hr w ltac:(by right)). split; [done|]. apply not_elem_of_cons. split; [by intros ->|done]. }
  induction ords as [|o ords IH]; intros P Hc Hnd Hr; [done|]. cbn [concat] in *. apply NoDup_app in Hnd as (Hndo & Hdis & Hnd). apply Hgroup.
  - intros v c Hv Hcr. destruct (Hc 0%nat o v c eq_refl Hv Hcr) as [?|[?|H]]; [auto|auto|by apply not_elem_of_nil in H].
  - done.
  - intros v Hv. apply Hr, elem_of_app. by left.
  - apply IH; [|done|].
    + intros k o' v c Hk Hv Hcr. rewrite elem_of_app, elem_of_rev. destruct (Hc (S k) o' v c Hk Hv Hcr) as [?|[?|H]]; [by left; right|by right; left|].
      cbn in H. apply elem_of_app in H as [?|?]; [by left; left|by right; right].
    + intros v Hv. destruct (Hr v ltac:(apply elem_of_app; by right)). split; [done|]. rewrite elem_of_app, elem_of_rev. intros [?|?]; [by eapply Hdis|done].
Qed.

(** * The simple cases *)

Lemma mark_scc_spec l : ∀ nd N, rep (nf + 1) nd N → (∀ v, v ∈ l → 0 ≤ v ≤ nf) →
  ∃ nd' N', mark_all l nd = Ok nd' ∧ rep (nf + 1) nd' N' ∧ ∀ x, N' x = true ↔ N x = true ∨ x ∈ l.
Proof using.
  induction l as [|v l IH]; intros nd N Hr Hl; cbn [mark_all].
  - exists nd, N. split_and!; [done|done|]. intros x. split; [by left|]. intros [?|?%not_elem_of_nil]; done.
  - destruct (rep_set _ _ _ v true Hr) as (nd1 & -> & Hr1); [pose proof (Hl v ltac:(left)); lia|]. cbn [obind].
    destruct (IH nd1 _ Hr1) as (nd2 & N2 & -> & Hr2 & HN2); [intros x Hx; apply Hl; by right|]. exists nd2, N2. split_and!; [done|done|].
    intros x. rewrite HN2, elem_of_cons. destruct (Z.eqb_spec x v) as [->|]; [tauto|]. split; [tauto|]. intros [?|[?|?]]; tauto.
Qed.

(** * Cycles through the hub *)

(** The two kinds of functions of the component. *)
Definition is_caller (v : Z) : bool := negb (v =? nf) && (0 <? at_ (indirect b) v).
Definition is_rest (v : Z) : bool := negb (v =? nf) && negb (0 <? at_ (indirect b) v).

Lemma filter_bool {A} (f : A → bool) v (l : list A) : filter (λ x, f x = true) (v :: l) = if f v then v :: filter (λ x, f x = true) l else filter (λ x, f x = true) l.
Proof using. rewrite filter_cons. case_decide as Hd; [by rewrite Hd|]. by destruct (f v). Qed.

(** The positions [split_scc] records. *)
Definition positions (rest : list Z) (p : Z → Z) : Prop :=
  (∀ i v, rest !! i = Some v → p v = Z.of_nat i + 1) ∧ ∀ v, v ∉ rest → p v = 0.

Lemma split_scc_spec scc : ∀ nd N pos p rest callers,
  rep (nf + 1) nd N → rep nf pos p → positions rest p → NoDup (rest ++ scc) → (∀ v, v ∈ rest ++ scc → 0 ≤ v ≤ nf) →
  ∃ nd' N' pos' p', split_scc b nf scc nd pos rest callers =
      Ok (nd', pos', rest ++ filter (λ v, is_rest v = true) scc, callers ++ filter (λ v, is_caller v = true) scc) ∧
    rep (nf + 1) nd' N' ∧ (∀ x, N' x = true ↔ N x = true ∨ x ∈ filter (λ v, is_caller v = true) scc) ∧
    rep nf pos' p' ∧ positions (rest ++ filter (λ v, is_rest v = true) scc) p'.
Proof using Hb.
  induction scc as [|v scc IH]; intros nd N pos p rest callers Hnd Hpos Hp Hdup Hra; cbn [split_scc].
  - exists nd, N, pos, p. rewrite !app_nil_r. split_and!; try done. intros x. split; [by left|]. intros [?|?%not_elem_of_nil]; done.
  - assert (0 ≤ v ≤ nf) as Hv by (apply Hra, elem_of_app; right; left). pose proof (bo_count _ Hb) as Hcount.
    assert (v ∉ rest) as Hvr by (apply NoDup_app in Hdup as (_ & Hd & _); intros Hin; apply (Hd v Hin); left).
    assert (NoDup (rest ++ scc)) as Hdup' by (apply (sublist_NoDup _ (rest ++ v :: scc)); [done|]; by apply sublist_app, sublist_cons).
    assert (∀ x, x ∈ rest ++ scc → 0 ≤ x ≤ nf) as Hra' by (intros x Hx; apply Hra; rewrite elem_of_app in *; destruct Hx; [by left|right; by right]).
    rewrite !filter_bool. replace (is_rest v) with (negb (v =? nf) && negb (0 <? at_ (indirect b) v)) by done. replace (is_caller v) with (negb (v =? nf) && (0 <? at_ (indirect b) v)) by done.
    destruct (Z.eqb_spec v nf) as [->|Hne]; cbn [negb andb].
    + by apply (IH nd N pos p).
    + rewrite at_get by (destruct (bo_indirect _ Hb); lia). cbn [obind]. destruct (Z.ltb_spec 0 (at_ (indirect b) v)); cbn [negb].
      * destruct (rep_set _ _ _ v true Hnd) as (nd1 & -> & Hnd1); [lia|]. cbn [obind].
        destruct (IH nd1 _ pos p rest (callers ++ [v]) Hnd1 Hpos Hp Hdup' Hra') as (nd' & N' & pos' & p' & -> & ? & HN & ? & ?).
        exists nd', N', pos', p'. rewrite <- app_assoc. split_and!; try done. intros x. rewrite HN, elem_of_cons. destruct (Z.eqb_spec x v) as [->|]; [tauto|]. split; [tauto|]. intros [?|[?|?]]; tauto.
      * assert (zlen rest ≤ nf + 1) as Hlr.
        { assert (rest ⊆+ seqZ 0 (nf + 1)) as Hsub; [|apply submseteq_length in Hsub; rewrite length_seqZ in Hsub; unfold zlen in *; lia].
          apply NoDup_submseteq; [by apply NoDup_app in Hdup as (? & _ & _)|]. intros x Hx. apply elem_of_seqZ.
          pose proof (Hra x ltac:(apply elem_of_app; by left)). lia. }
        rewrite swrap_small by (pose proof (zlen_nonneg rest); lia).
        destruct (rep_set _ _ _ v (zlen rest + 1) Hpos) as (pos1 & -> & Hpos1); [lia|]. cbn [obind].
        destruct (IH nd N pos1 _ (rest ++ [v]) callers Hnd Hpos1) as (nd' & N' & pos' & p' & -> & ? & HN & ? & Hp').
        { split.
          - intros i x [[_ Hx]|[Hi <-]]%lookup_snoc_Some; [destruct (Z.eqb_spec x v) as [->|]; [destruct Hvr; by apply list_elem_of_lookup_2 with i|by apply Hp]|]. rewrite Z.eqb_refl. unfold zlen. by rewrite Hi.
          - intros x Hx. rewrite elem_of_app, list_elem_of_singleton in Hx. destruct (Z.eqb_spec x v) as [->|]; [tauto|apply Hp; tauto]. }
        { by rewrite <- app_assoc. } { intros x. rewrite <- app_assoc. apply Hra. }
        rewrite <- app_assoc in Hp' |- *. exists nd', N', pos', p'. done.
Qed.

(** The calls among [rest], by position. *)
Definition position_of (p : Z → Z) (c : Z) : option Z := if c =? nf then None else if 0 <? p c then Some (p c - 1) else None.

Lemma rest_row_spec pos p row : ∀ calls, rep nf pos p → (∀ c, c ∈ row → 0 ≤ c ≤ nf) →
  rest_row nf pos row calls = Ok (calls ++ omap (position_of p) row).
Proof using.
  induction row as [|c row IH]; intros calls Hr Hra; cbn [rest_row omap list_omap]; [by rewrite app_nil_r|].
  assert (∀ x, x ∈ row → 0 ≤ x ≤ nf) as Hra' by (intros x Hx; apply Hra; by right). pose proof (Hra c ltac:(left)) as Hc.
  unfold position_of at 1. destruct (Z.eqb_spec c nf); [by apply IH|]. rewrite (rep_get _ _ _ c Hr) by lia. cbn [obind].
  rewrite IH by done. destruct (0 <? p c); [by rewrite <- app_assoc|done].
Qed.

Lemma rest_rows_spec pos p rest : ∀ rs, rep nf pos p → (∀ v, v ∈ rest → 0 ≤ v ≤ nf) →
  zlen (concat (rs ++ ((λ v, omap (position_of p) (rowf v)) <$> rest))) < 2 ^ 32 →
  rest_rows nf start succ pos rest (starts rs) (concat rs) =
    Ok (starts (rs ++ ((λ v, omap (position_of p) (rowf v)) <$> rest)), concat (rs ++ ((λ v, omap (position_of p) (rowf v)) <$> rest))).
Proof using Hrow Hrows.
  induction rest as [|v rest IH]; intros rs Hr Hra Hlen; cbn [rest_rows]; [by rewrite !app_nil_r|].
  pose proof (Hra v ltac:(left)) as Hv. rewrite (Hrows v Hv). cbn [obind]. rewrite (rest_row_spec pos p) by (done || (intros c Hc; by eapply Hrow)). cbn [obind].
  set (r := omap (position_of p) (rowf v)). rewrite fmap_cons in Hlen |- *. fold r in Hlen |- *.
  assert (concat rs ++ r = concat (rs ++ [r])) as E by (rewrite concat_app; cbn; by rewrite app_nil_r).
  rewrite wrap_small.
  - rewrite E, <- starts_snoc, IH; [by rewrite <- app_assoc|done|intros x Hx; apply Hra; by right|by rewrite <- app_assoc].
  - rewrite E. split; [apply zlen_nonneg|]. rewrite (cons_middle r), app_assoc, concat_app, zlen_app in Hlen.
    pose proof (zlen_nonneg (concat ((λ v, omap (position_of p) (rowf v)) <$> rest))). lia.
Qed.

Section order.
Context (rest st calls : list Z) (adj : Z → list Z).
Context (Hadj : ∀ i, 0 ≤ i < zlen rest → node_row st calls i = Ok (adj i)) (Hrest : ∀ v, v ∈ rest → 0 ≤ v ≤ nf).

Lemma order_sub_spec long sub : ∀ nd N order, rep (nf + 1) nd N → (∀ i, i ∈ sub → 0 ≤ i < zlen rest) →
  ∃ nd' N', order_sub rest st calls long sub nd order = Ok (nd', order ++ (at_ rest <$> sub)) ∧ rep (nf + 1) nd' N' ∧
    ∀ x, N' x = true ↔ N x = true ∨ ∃ i, i ∈ sub ∧ x = at_ rest i ∧ (long = true ∨ i ∈ adj i).
Proof using Hadj Hrest.
  induction sub as [|i sub IH]; intros nd N order Hr Hra; cbn [order_sub].
  - exists nd, N. rewrite app_nil_r. split_and!; [done|done|]. intros x. split; [by left|]. intros [?|(? & ?%not_elem_of_nil & _)]; done.
  - pose proof (Hra i ltac:(left)) as Hi. rewrite (Hadj i Hi). cbn [obind]. rewrite at_get by done. cbn [obind].
    assert (0 ≤ at_ rest i ≤ nf) as Hv by (apply Hrest; eapply list_elem_of_lookup_2; by apply (proj2 (at_rep rest) i)).
    assert (∃ nd1 N1, (if long || bool_decide (i ∈ adj i) then aset nd (at_ rest i) true else Ok nd) = Ok nd1 ∧ rep (nf + 1) nd1 N1 ∧
      ∀ x, N1 x = true ↔ N x = true ∨ x = at_ rest i ∧ (long = true ∨ i ∈ adj i)) as (nd1 & N1 & -> & Hr1 & HN1).
    { assert (long || bool_decide (i ∈ adj i) = true ↔ (long = true ∨ i ∈ adj i)) as Hlb by (rewrite orb_true_iff, bool_decide_eq_true; done).
      destruct (long || bool_decide (i ∈ adj i)).
      - destruct (rep_set _ _ _ (at_ rest i) true Hr) as (nd1 & -> & Hr1); [lia|]. eexists nd1, _. split_and!; [done|exact Hr1|]. intros x. cbv beta.
        destruct (Z.eqb_spec x (at_ rest i)) as [->|]; tauto.
      - exists nd, N. split_and!; [done|done|]. intros x. split; [by left|]. intros [?|[_ ?%Hlb]]; done. }
    cbn [obind]. destruct (IH nd1 N1 (order ++ [at_ rest i]) Hr1) as (nd2 & N2 & -> & Hr2 & HN2); [intros j Hj; apply Hra; by right|].
    exists nd2, N2. rewrite fmap_cons, <- app_assoc. split_and!; [done|done|]. intros x. rewrite HN2, HN1. setoid_rewrite elem_of_cons. split.
    + intros [[?|[-> ?]]|(j & ? & -> & ?)]; [by left|right; exists i; auto|right; exists j; auto].
    + intros [?|(j & [->|?] & -> & ?)]; [by left; left|by left; right|right; exists j; auto].
Qed.

Lemma order_subs_spec subs : ∀ nd N order, rep (nf + 1) nd N → (∀ i, i ∈ concat subs → 0 ≤ i < zlen rest) →
  ∃ nd' N', order_subs rest st calls subs nd order = Ok (nd', order ++ (at_ rest <$> concat subs)) ∧ rep (nf + 1) nd' N' ∧
    ∀ x, N' x = true ↔ N x = true ∨ ∃ sub i, sub ∈ subs ∧ i ∈ sub ∧ x = at_ rest i ∧ (1 < zlen sub ∨ i ∈ adj i).
Proof using Hadj Hrest.
  induction subs as [|sub subs IH]; intros nd N order Hr Hra; cbn [order_subs concat].
  - exists nd, N. rewrite app_nil_r. split_and!; [done|done|]. intros x. split; [by left|]. intros [?|(? & ? & ?%not_elem_of_nil & _)]; done.
  - destruct (order_sub_spec (1 <? zlen sub) sub nd N order Hr) as (nd1 & N1 & -> & Hr1 & HN1); [intros i Hi; apply Hra, elem_of_app; by left|]. cbn [obind].
    destruct (IH nd1 N1 (order ++ (at_ rest <$> sub)) Hr1) as (nd2 & N2 & -> & Hr2 & HN2); [intros i Hi; apply Hra, elem_of_app; by right|].
    exists nd2, N2. rewrite fmap_app, app_assoc. split_and!; [done|done|]. intros x. rewrite HN2, HN1. setoid_rewrite elem_of_cons. setoid_rewrite Z.ltb_lt. split.
    + intros [[?|(i & ? & -> & ?)]|(s & i & ? & ? & -> & ?)]; [by left|right; exists sub, i; auto|right; exists s, i; auto].
    + intros [?|(s & i & [->|?] & ? & -> & ?)]; [by left; left|left; right; exists i; auto|right; exists s, i; auto].
Qed.
End order.

(** * The order of a component *)

Context (st : Z → Z) (G : is_graph (nf + 1) start succ st rowf) (Hrow_hub : nf ∉ rowf nf).

(** What the first step with a component leaves: more functions checked, all of them
    in it and none the hub, and an order to visit it in. *)
Definition ordered N P scc N' ord : Prop :=
  (∀ x, N x = true → N' x = true) ∧ (∀ x, N' x = true → N x = true ∨ x ∈ scc ∧ x ≠ nf) ∧ ord ≡ₚ scc ∧ visitable b rowf N' P ord.

Lemma at_all l : at_ l <$> seqZ 0 (zlen l) = l.
Proof using.
  apply list_eq; intros i. rewrite list_lookup_fmap. destruct (l !! i) as [x|] eqn:E.
  - pose proof (lookup_lt_Some _ _ _ E). replace i with (Z.to_nat (Z.of_nat i)) at 1 by lia. rewrite lookup_seqZ_Z by (unfold zlen; lia). cbn. unfold at_.
    replace (Z.to_nat (0 + Z.of_nat i)) with i by lia. by rewrite E.
  - apply lookup_ge_None in E. rewrite lookup_ge_None_2; [done|]. rewrite length_seqZ. unfold zlen. lia.
Qed.

Lemma graph_node_row n0 s0 c0 st0 adj0 v : is_graph n0 s0 c0 st0 adj0 → 0 ≤ v < n0 → node_row s0 c0 v = Ok (adj0 v).
Proof using.
  intros G0 Hv. unfold node_row. rewrite (rep_get _ _ _ v (g_start _ _ _ _ _ G0)) by lia. cbn [obind].
  rewrite (rep_get _ _ _ (v + 1) (g_start _ _ _ _ _ G0)) by lia. cbn [obind]. by apply (g_row _ _ _ _ _ G0).
Qed.

Section hub.
Context (P scc : list Z) (Hdup : NoDup scc) (Hra : ∀ v, v ∈ scc → 0 ≤ v ≤ nf) (Hhub : nf ∈ scc).
Context (Hout : ∀ v, v ∈ scc → v ∉ P) (Hcl : ∀ v c, v ∈ scc → c ∈ rowf v → c ∈ P ∨ c ∈ scc).

Definition rest_of : list Z := filter (λ v, is_rest v = true) scc.
Definition callers_of : list Z := filter (λ v, is_caller v = true) scc.

Lemma elem_of_rest v : v ∈ rest_of ↔ v ∈ scc ∧ is_rest v = true.
Proof using. unfold rest_of. rewrite list_elem_of_filter. tauto. Qed.

Lemma elem_of_callers v : v ∈ callers_of ↔ v ∈ scc ∧ is_caller v = true.
Proof using. unfold callers_of. rewrite list_elem_of_filter. tauto. Qed.

Lemma scc_cases c : c ∈ scc → c = nf ∨ c ∈ rest_of ∨ c ∈ callers_of.
Proof using.
  intros Hc. rewrite elem_of_rest, elem_of_callers. unfold is_rest, is_caller. destruct (Z.eqb_spec c nf); [by left|right].
  cbn. destruct (0 <? at_ (indirect b) c); [by right|by left].
Qed.

Lemma rest_range v : v ∈ rest_of → 0 ≤ v < nf ∧ nf ∉ rowf v.
Proof using Hra Hrow_ind.
  rewrite elem_of_rest. intros [Hv Hr]. unfold is_rest in Hr. apply andb_true_iff in Hr as [Hne Hi]. rewrite negb_true_iff in Hne, Hi. apply Z.eqb_neq in Hne. apply Z.ltb_ge in Hi.
  pose proof (Hra v Hv). split; [lia|]. intros Hin. apply Hrow_ind in Hin; lia.
Qed.

Lemma scc_parts : rest_of ++ [nf] ++ callers_of ≡ₚ scc.
Proof using Hdup Hhub.
  apply NoDup_Permutation; [|done|].
  - apply NoDup_app. split; [by apply list.NoDup_filter|]. split.
    + intros v [_ Hr]%elem_of_rest. cbn. rewrite elem_of_cons, elem_of_callers. intros [->|[_ Hc]]; unfold is_rest, is_caller in *.
      * by rewrite Z.eqb_refl in Hr.
      * destruct (v =? nf), (0 <? at_ (indirect b) v); done.
    + cbn. apply NoDup_cons_2; [|by apply list.NoDup_filter]. rewrite elem_of_callers. unfold is_caller. rewrite Z.eqb_refl. by intros [_ ?].
  - intros v. rewrite !elem_of_app, list_elem_of_singleton. split; [|intros Hv; apply scc_cases in Hv; tauto].
    intros [[? _]%elem_of_rest|[->|[? _]%elem_of_callers]]; done.
Qed.

(** The calls among the rest. *)
Context (p : Z → Z) (Hp : positions rest_of p).
Abbreviation rs := ((λ v, omap (position_of p) (rowf v)) <$> rest_of).
Abbreviation radj := (λ i, default [] (rs !! Z.to_nat i)).

Lemma position_rest c j : position_of p c = Some j ↔ c ≠ nf ∧ 0 ≤ j < zlen rest_of ∧ rest_of !! Z.to_nat j = Some c.
Proof using Hp Hrow_ind Hra.
  unfold position_of. destruct Hp as [Hin Hnot]. destruct (Z.eqb_spec c nf); [split; [done|tauto]|]. split.
  - destruct (Z.ltb_spec 0 (p c)); [|done]. intros [= <-]. destruct (decide (c ∈ rest_of)) as [Hc|Hc]; [|rewrite (Hnot c Hc) in *; lia].
    apply list_elem_of_lookup_1 in Hc as [i Hi]. rewrite (Hin i c Hi). pose proof (lookup_lt_Some _ _ _ Hi). unfold zlen.
    replace (Z.to_nat (Z.of_nat i + 1 - 1)) with i by lia. split_and!; [done|lia|lia|done].
  - intros (_ & Hj & Hc). rewrite (Hin _ _ Hc). destruct (Z.ltb_spec 0 (Z.of_nat (Z.to_nat j) + 1)); [f_equal; lia|lia].
Qed.

Lemma rest_graph : is_graph (zlen rest_of) (starts rs) (concat rs) (λ i, zlen (concat (take (Z.to_nat i) rs))) radj.
Proof using Hb Hp Hrow_ind Hra Hdup G.
  assert (zlen rs = zlen rest_of) as El by (unfold zlen; by rewrite length_fmap). rewrite <- El. pose proof (bo_count _ Hb).
  assert (NoDup rest_of) as Hnd by by apply list.NoDup_filter. apply is_graph_concat.
  - rewrite El. assert (rest_of ⊆+ seqZ 0 nf) as Hs; [|apply submseteq_length in Hs; rewrite length_seqZ in Hs; unfold zlen in *; lia].
    apply NoDup_submseteq; [done|]. intros x Hx%rest_range. apply elem_of_seqZ. lia.
  - eapply Z.le_lt_trans; [|exact (g_width _ _ _ _ _ G)]. etrans; [|eapply (rows_length _ _ _ _ _ rest_of G Hnd); intros v Hv%rest_range; lia].
    unfold zlen. apply Nat2Z.inj_le. clear. induction rest_of as [|v l IH]; [done|]. rewrite fmap_cons. cbn [concat sum_list_with]. rewrite length_app.
    pose proof (length_omap_le (position_of p) (rowf v)). lia.
  - intros r w Hr Hw. apply list_elem_of_fmap in Hr as (v & -> & Hv). apply list_elem_of_omap in Hw as (c & _ & Hc). apply position_rest in Hc. lia.
Qed.

Lemma rest_edge i j c : 0 ≤ i < zlen rest_of → rest_of !! Z.to_nat j = Some c → 0 ≤ j → c ∈ rowf (at_ rest_of i) → c ≠ nf → j ∈ radj i.
Proof using Hp Hrow_ind Hra.
  intros Hi Hj Hj0 Hc Hne. cbv beta. rewrite list_lookup_fmap, (proj2 (at_rep rest_of) i Hi). cbn. apply list_elem_of_omap. exists c. split; [done|].
  apply position_rest. pose proof (lookup_lt_Some _ _ _ Hj). unfold zlen. split_and!; [done|lia|lia|done].
Qed.

(** The order: the components of the rest, the hub, the callers. *)
Definition names (sub : list Z) : list Z := at_ rest_of <$> sub.
Definition hub_order (subs : list (list Z)) : list (list Z) := (names <$> subs) ++ [[nf]; callers_of].

Lemma hub_order_concat subs : concat (hub_order subs) = names (concat subs) ++ [nf] ++ callers_of.
Proof using.
  unfold hub_order. rewrite concat_app. f_equal; [|cbn; by rewrite app_nil_r]. induction subs as [|s l IH]; [done|]. rewrite fmap_cons. cbn [concat]. unfold names in *. by rewrite fmap_app, <- IH.
Qed.

Lemma hub_order_perm subs : concat subs ≡ₚ seqZ 0 (zlen rest_of) → concat (hub_order subs) ≡ₚ scc.
Proof using Hdup Hhub. intros Hs. rewrite hub_order_concat. unfold names. rewrite Hs, at_all. apply scc_parts. Qed.

Lemma rest_position x : x ∈ rest_of → ∃ j, 0 ≤ j < zlen rest_of ∧ rest_of !! Z.to_nat j = Some x ∧ x = at_ rest_of j.
Proof using.
  intros Hx. apply list_elem_of_lookup_1 in Hx as [i Hi]. exists (Z.of_nat i). pose proof (lookup_lt_Some _ _ _ Hi).
  unfold zlen, at_. rewrite Nat2Z.id, Hi. split_and!; [lia|lia|done|done].
Qed.

Lemma rest_before subs k x : concat subs ≡ₚ seqZ 0 (zlen rest_of) → x ∈ rest_of → (length subs ≤ k)%nat → x ∈ concat (take k (hub_order subs)).
Proof using.
  intros Hs Hx Hk. unfold hub_order. rewrite take_app_ge by (rewrite length_fmap; lia). rewrite concat_app, elem_of_app. left.
  destruct (rest_position x Hx) as (j & Hj & _ & ->). assert (j ∈ concat subs) as Hjs by (rewrite Hs; apply elem_of_seqZ; lia).
  rewrite <- (take_ge subs (length subs)) in Hjs by lia. apply elem_of_take_concat in Hjs as (m & sub & _ & Hm & Hjm).
  rewrite <- (take_ge (names <$> subs) (length subs)) by (rewrite length_fmap; lia). apply elem_of_take_concat. exists m, (names sub).
  split_and!; [by eapply lookup_lt_Some|by rewrite list_lookup_fmap, Hm|]. apply list_elem_of_fmap. by exists j.
Qed.

Lemma hub_order_visitable N' subs :
  concat subs ≡ₚ seqZ 0 (zlen rest_of) → callees_first (zlen rest_of) radj subs →
  (∀ x, x ∈ callers_of → N' x = true) →
  (∀ sub i, sub ∈ subs → i ∈ sub → 1 < zlen sub ∨ i ∈ radj i → N' (at_ rest_of i) = true) →
  visitable b rowf N' P (concat (hub_order subs)).
Proof using Hcl Hdup Hhub Hout Hp Hra Hrow_hub Hrow_ind.
  intros Hs Hfirst Hcallers Hcyc. pose proof (hub_order_perm subs Hs) as Hperm.
  assert (∀ i, i ∈ concat subs → 0 ≤ i < zlen rest_of) as Hir by (intros i; rewrite Hs; intros Hi%elem_of_seqZ; lia).
  assert (∀ k x, x ∈ rest_of → (length subs ≤ k)%nat → x ∈ concat (take k (hub_order subs))) as Hafter by (intros; by apply rest_before).
  apply visitable_concat.
  - intros k o v c Hk Hv Hc. apply lookup_app_Some in Hk as [Hk|[Hlen Hk]].
    + apply list_lookup_fmap_Some in Hk as (sub & -> & Hk). apply list_elem_of_fmap in Hv as (i & -> & Hi).
      assert (0 ≤ i < zlen rest_of) as Hin by (apply Hir; rewrite <- (take_ge subs (length subs)) by lia; apply elem_of_take_concat; exists k, sub; split; [by eapply lookup_lt_Some|done]).
      assert (at_ rest_of i ∈ rest_of) as Hv by (eapply list_elem_of_lookup_2; by apply (proj2 (at_rep rest_of) i)).
      destruct (rest_range _ Hv) as [_ Hnohub]. destruct (Hcl _ c (proj1 (proj1 (elem_of_rest _) Hv)) Hc) as [?|Hcs]; [by left|].
      destruct (scc_cases c Hcs) as [->|[Hcr|Hcc]]; [done| |right; left; auto].
      destruct (rest_position c Hcr) as (j & Hj & Ej & ->). pose proof (rest_edge i j _ Hin Ej ltac:(lia) Hc ltac:(intros E; by rewrite E in Hc)) as Hij.
      assert (j ∈ concat (take (S k) subs)) as (m & sub' & Hm & Hmm & Hjm)%elem_of_take_concat by (by apply (Hfirst k sub i j Hk Hi)).
      destruct (decide (m = k)) as [->|Hne].
      * assert (sub' = sub) as -> by congruence. right. left. apply (Hcyc sub j); [by eapply list_elem_of_lookup_2|done|].
        destruct (Z.ltb_spec 1 (zlen sub)); [by left|right]. destruct sub as [|a [|a' sub]]; [by apply not_elem_of_nil in Hi| |unfold zlen in *; cbn in *; lia].
        apply list_elem_of_singleton in Hi as ->. by apply list_elem_of_singleton in Hjm as ->.
      * right. right. apply elem_of_take_concat. exists m, (names sub'). split_and!; [lia| |apply list_elem_of_fmap; by exists j].
        unfold hub_order. rewrite lookup_app_l by (rewrite length_fmap; by eapply lookup_lt_Some). by rewrite list_lookup_fmap, Hmm.
    + rewrite length_fmap in Hlen, Hk.
      assert (v ∈ scc) as Hvs.
      { destruct (k - length subs)%nat as [|[|]] eqn:Ek; cbn in Hk; [|injection Hk as <-; by apply elem_of_callers in Hv as [? _]|done]. injection Hk as <-. by apply list_elem_of_singleton in Hv as ->. }
      destruct (Hcl v c Hvs Hc) as [?|Hcs]; [by left|]. destruct (scc_cases c Hcs) as [->|[Hcr|Hcc]]; [|right; right; by apply Hafter|right; left; auto].
      destruct (k - length subs)%nat as [|[|]] eqn:Ek; cbn in Hk; [|injection Hk as <-|done].
      * injection Hk as <-. apply list_elem_of_singleton in Hv as ->. done.
      * right. right. apply elem_of_take_concat. exists (length subs), [nf]. split_and!; [lia| |left]. unfold hub_order. rewrite lookup_app_r by (rewrite length_fmap; lia).
        by rewrite length_fmap, Nat.sub_diag.
  - by rewrite Hperm.
  - intros v. rewrite Hperm. intros Hv. split; [by apply Hra|by apply Hout].
Qed.
End hub.

Lemma breakHubCycles_spec nd N P scc : rep (nf + 1) nd N → NoDup scc → (∀ v, v ∈ scc → 0 ≤ v ≤ nf) → nf ∈ scc →
  (∀ v, v ∈ scc → v ∉ P) → (∀ v c, v ∈ scc → c ∈ rowf v → c ∈ P ∨ c ∈ scc) →
  ∃ nd' N' ord, breakHubCycles b scc start succ nd = Ok (nd', ord) ∧ rep (nf + 1) nd' N' ∧ ordered N P scc N' ord.
Proof using All.
  intros Hr Hdup Hra Hhub Hout Hcl. unfold breakHubCycles. pose proof (zlen_nonneg (size b)) as Hn0.
  destruct (split_scc_spec scc nd N (replicate (length (size b)) 0) (λ _, 0) [] [] Hr) as (nd1 & N1 & pos & p & E1 & Hr1 & HN1 & Hpos & Hp).
  { apply rep_replicate. } { split; [by intros i v ?|done]. } { done. } { done. }
  cbn [app] in E1, Hp. fold (rest_of scc) in E1, Hp. fold (callers_of scc) in E1, HN1. change (Z.of_nat (length (size b))) with nf. rewrite E1. cbn [obind].
  assert (∀ v, v ∈ rest_of scc → 0 ≤ v ≤ nf) as Hrr by (intros v [Hv _]%elem_of_rest; auto).
  pose proof (rest_graph scc Hdup Hra p Hp) as RG. set (rs := (λ v, omap (position_of p) (rowf v)) <$> rest_of scc) in *.
  change [0] with (starts []). change (@nil Z) with (concat (@nil (list Z))) at 1. rewrite (rest_rows_spec pos p (rest_of scc) [] Hpos Hrr) by exact (g_width _ _ _ _ _ RG).
  cbn [app obind]. fold rs. destruct (tarjan_result _ _ _ _ _ RG) as (subs & E2 & Hsubs & Hfirst & _).
  replace (Z.to_nat (zlen (rest_of scc))) with (length (rest_of scc)) in E2 by (unfold zlen; lia). rewrite E2. cbn [obind].
  destruct (order_subs_spec (rest_of scc) (starts rs) (concat rs) (λ i, default [] (rs !! Z.to_nat i)) (λ i Hi, graph_node_row _ _ _ _ _ i RG Hi) Hrr subs nd1 N1 [] Hr1)
    as (nd2 & N2 & -> & Hr2 & HN2).
  { intros i. rewrite Hsubs. intros Hi%elem_of_seqZ. lia. }
  cbn [obind app]. exists nd2, N2, (concat (hub_order scc subs)). split; [by rewrite hub_order_concat|]. split; [done|]. split_and!.
  - intros x Hx. apply HN2. left. apply HN1. by left.
  - intros x [[Hx|Hx]%HN1|(sub & i & Hsub & Hi & -> & _)]%HN2; [by left|right|right].
    + apply elem_of_callers in Hx as [? Hc]. split; [done|]. intros ->. unfold is_caller in Hc. by rewrite Z.eqb_refl in Hc.
    + assert (i ∈ concat subs) as Hin by (apply list_elem_of_In, in_concat; exists sub; split; by apply list_elem_of_In).
      rewrite Hsubs in Hin. apply elem_of_seqZ in Hin. assert (at_ (rest_of scc) i ∈ rest_of scc) as Hv by (eapply list_elem_of_lookup_2; apply (proj2 (at_rep (rest_of scc)) i); lia).
      pose proof (rest_range scc Hra _ Hv). apply elem_of_rest in Hv as [? _]. split; [done|lia].
  - by apply hub_order_perm.
  - apply hub_order_visitable with p; try done.
    + intros x Hx. apply HN2. left. apply HN1. by right.
    + intros sub i Hsub Hi Hor. apply HN2. right. exists sub, i. done.
Qed.

Lemma break_cycles_spec nd N P scc : rep (nf + 1) nd N → NoDup scc → scc ≠ [] → (∀ v, v ∈ scc → 0 ≤ v ≤ nf) →
  (∀ v, v ∈ scc → v ∉ P) → (∀ v c, v ∈ scc → c ∈ rowf v → c ∈ P ∨ c ∈ scc) →
  ∃ nd' N' ord, break_cycles b start succ scc nd = Ok (nd', ord) ∧ rep (nf + 1) nd' N' ∧ ordered N P scc N' ord ∧ (ord = scc ∨ 1 < zlen ord).
Proof using All.
  intros Hr Hdup Hne Hra Hout Hcl. unfold break_cycles.
  assert (∀ N', (∀ v c, v ∈ scc → c ∈ rowf v → c ∈ P ∨ N' c = true) → visitable b rowf N' P scc) as Hvis.
  { intros N' Hc. pose proof (visitable_concat N' [scc] P) as H. cbn in H. rewrite app_nil_r in H. apply H; [|done|intros v Hv; split; auto].
    intros [|k] o v c Hk Hv Hcr; [injection Hk as <-|by destruct k]. destruct (Hc v c Hv Hcr); auto. }
  destruct (Z.ltb_spec 1 (zlen scc)) as [Hlong|Hshort]; cbn [andb].
  - case_bool_decide as Hhub.
    + destruct (breakHubCycles_spec nd N P scc Hr Hdup Hra Hhub Hout Hcl) as (nd' & N' & ord & -> & ? & Ho). exists nd', N', ord. split_and!; try done.
      right. destruct Ho as (_ & _ & Hperm & _). apply Permutation_length in Hperm. unfold zlen in *. lia.
    + destruct (mark_scc_spec scc nd N Hr Hra) as (nd' & N' & -> & Hr' & HN'). cbn [obind]. exists nd', N', scc. split_and!; try done; [|by left]. split_and!.
      * intros x Hx. apply HN'. by left.
      * intros x [?|?]%HN'; [by left|right]. split; [done|by intros ->].
      * done.
      * apply Hvis. intros v c Hv Hc. destruct (Hcl v c Hv Hc); [by left|right; apply HN'; by right].
  - destruct scc as [|v [|v' l]]; [done| |unfold zlen in *; cbn in *; lia]. cbn [aget]. change (aget [v] 0) with (@Ok unit Z v). cbn [obind].
    pose proof (Hra v ltac:(left)) as Hv. rewrite (Hrows v Hv). cbn [obind]. case_bool_decide as Hself.
    + destruct (rep_set _ _ _ v true Hr) as (nd' & -> & Hr'); [lia|]. cbn [obind]. eexists nd', _, [v]. split; [done|]. split; [exact Hr'|]. split; [|by left]. split_and!.
      * intros x Hx. by destruct (x =? v).
      * intros x. destruct (Z.eqb_spec x v) as [->|]; [|by left]. intros _. right. split; [left|]. by intros ->.
      * done.
      * apply Hvis. intros w c Hw Hc. destruct (Hcl w c Hw Hc) as [?|Hcv]; [by left|right]. apply list_elem_of_singleton in Hcv as ->. by rewrite Z.eqb_refl.
    + exists nd, N, [v]. split; [done|]. split; [done|]. split; [|by left]. split_and!; [done|by left|done|].
      apply Hvis. intros w c Hw Hc. destruct (Hcl w c Hw Hc) as [?|Hcv]; [by left|]. apply list_elem_of_singleton in Hw as ->. by apply list_elem_of_singleton in Hcv as ->.
Qed.
End cycles.
