(* ===== verification/EntrySolve.v ===== *)
(** [EntryCheck.solve] over the components of the call graph, callees first: each
    component's cycles are broken, its nodes visited, and the work of a call to it
    found when that is sure to be short.  The result is a table that covers every
    function. *)
From Stdlib Require Import ZArith Lia Sorted.
From stdpp Require Import base list numbers option tactics sorting.
From S2P Require Import Prelude CallRows Tarjan EntryCheck EntryGraph EntryWork EntryCycles.
Local Open Scope Z_scope.
Local Open Scope go_scope.

Section solve.
Context (b : entryCheckBuilder) (Hb : builder_ok b) (rowf : Z → list Z).
Abbreviation nf := (zlen (size b)).
Abbreviation sz v := (at_ (size b) v).
Abbreviation ind v := (at_ (indirect b) v).
Context (start succ : list Z) (st : Z → Z) (G : is_graph (nf + 1) start succ st rowf).
Context (Hrow_hub : ∀ c, c ∈ rowf nf → 0 ≤ c < nf).
Context (Hrow_ind : ∀ v, 0 ≤ v < nf → nf ∈ rowf v → 0 < ind v).
Context (Hrow_size : ∀ v, 0 ≤ v < nf → 2 * zsum (times b v) (rowf v) ≤ sz v).

Implicit Types (N : Z → bool) (U W : Z → Z) (P ord : list Z).

Lemma succ_range v c : 0 ≤ v ≤ nf → c ∈ rowf v → 0 ≤ c ≤ nf.
Proof using G. intros Hv Hc. pose proof (g_adj _ _ _ _ _ G v c ltac:(lia) Hc). lia. Qed.

Lemma row_node v : 0 ≤ v ≤ nf → node_row start succ v = Ok (rowf v).
Proof using G. intros Hv. eapply graph_node_row; [exact G|lia]. Qed.

Lemma hub_not_hub : nf ∉ rowf nf.
Proof using Hrow_hub. intros H%Hrow_hub. lia. Qed.

(** Checking more of a component not visited yet changes nothing that was computed. *)
Lemma Est_mark P N U bw scc N' ord : Est b rowf P N U bw → ordered b rowf N P scc N' ord → (∀ v, v ∈ scc → v ∉ P) → Est b rowf P N' U bw.
Proof using.
  intros [Hhub Hzero Hcap Hdone HhubP Hhd Hin Hsort Hcov Hnobw] (HN & HN' & _ & _) Hout.
  assert (∀ v, v ∈ P → N' v = N v) as Hsame.
  { intros v Hv. destruct (N v) eqn:E; [by apply HN|]. destruct (N' v) eqn:E'; [|done]. apply HN' in E' as [?|[? _]]; [congruence|]. by destruct (Hout v). }
  split; try done.
  - destruct (N' nf) eqn:E'; [|done]. apply HN' in E' as [?|[_ ?]]; congruence.
  - intros v Hv Hvn. destruct (Hdone v Hv Hvn) as [Hc Hle]. split; [intros c Hcr; destruct (Hc c Hcr); auto|].
    rewrite (zsum_ext _ (weight b N U v)); [done|]. intros c Hcr. unfold weight. destruct (Hc c Hcr) as [Hcp|Hcn]; [by rewrite Hsame|]. by rewrite Hcn, (HN c Hcn).
  - intros HnP c Hc. destruct (HhubP HnP c Hc); auto.
  - destruct bw as [|h bw]; [done|]. destruct Hhd as [? ?]. split; [|done]. rewrite Hsame; [done|]. apply Hin. left.
  - intros HnP c Hc. destruct (Hcov HnP c Hc) as [?|?]; auto.
Qed.

(** * Short calls *)

(** The works of calls found so far. *)
Record Short P W : Prop := {
  s_range : ∀ v, 0 ≤ v < nf → 0 ≤ W v ≤ PreemptBudget;
  s_done : ∀ v, 0 ≤ v < nf → W v ≠ 0 →
    v ∈ P ∧ unbounded b !! Z.to_nat v = Some false ∧ ind v = 0 ∧ (∀ c, c ∈ rowf v → W c ≠ 0) ∧ sz v + zsum W (rowf v) ≤ W v;
}.

(** Without indirect calls the row is as long as the function has calls. *)
Lemma direct_row v : 0 ≤ v < nf → ind v = 0 → (∀ c, c ∈ rowf v → 0 ≤ c < nf) ∧ 2 * zlen (rowf v) ≤ sz v.
Proof using G Hrow_ind Hrow_size.
  intros Hv Hi. assert (∀ c, c ∈ rowf v → 0 ≤ c < nf) as Hc.
  { intros c Hc. pose proof (succ_range v c ltac:(lia) Hc). destruct (decide (c = nf)) as [->|]; [|lia]. apply Hrow_ind in Hc; lia. }
  split; [done|]. pose proof (Hrow_size v Hv) as Hs. rewrite (zsum_ext _ (λ _, 1)) in Hs.
  - assert (∀ l : list Z, zsum (λ _, 1) l = zlen l) as E by (induction l as [|x l IH]; [done|]; rewrite zsum_cons, zlen_cons; lia). by rewrite E in Hs.
  - intros c Hcr. unfold times. specialize (Hc c Hcr). destruct (Z.eqb_spec c nf); [lia|done].
Qed.

Lemma call_work_spec work W row : ∀ w, rep nf work W → (∀ c, c ∈ row → 0 ≤ c < nf) → (∀ v, 0 ≤ v < nf → 0 ≤ W v ≤ PreemptBudget) →
  0 ≤ w → w + PreemptBudget * zlen row < 2 ^ 64 →
  (call_work work row w = Ok (w + zsum W row) ∧ ∀ c, c ∈ row → W c ≠ 0) ∨ call_work work row w = Ok (PreemptBudget + 1).
Proof using.
  induction row as [|c row IH]; intros w Hr Hra HW Hw Hb'; cbn [call_work].
  - left. cbn. rewrite Z.add_0_r. split; [done|]. by intros ? ?%not_elem_of_nil.
  - pose proof (Hra c ltac:(left)) as Hc. rewrite (rep_get _ _ _ c Hr Hc). cbn [obind]. destruct (Z.eqb_spec (W c) 0) as [E|Hne]; [by right|].
    pose proof (HW c Hc) as HWc. rewrite zlen_cons in Hb'. pose proof (zlen_nonneg row). assert (0 < PreemptBudget) by done. rewrite wrap_small by nia.
    destruct (IH (w + W c) Hr ltac:(intros x Hx; apply Hra; by right) HW ltac:(lia) ltac:(lia)) as [[-> Hall]|E]; [left|by right].
    rewrite zsum_cons. split; [f_equal; lia|]. by intros x [->|Hx]%elem_of_cons; [|apply Hall].
Qed.

Lemma Short_more P P' W : Short P W → (∀ v, v ∈ P → v ∈ P') → Short P' W.
Proof using. intros [Hr Hd] Hsub. split; [done|]. intros v Hv Hne. destruct (Hd v Hv Hne) as (? & ?). auto. Qed.

Lemma short_call_spec P W work ord : rep nf work W → Short P W → NoDup ord → ord ≠ [] → (∀ v, v ∈ ord → 0 ≤ v ≤ nf ∧ (v ∉ P)) →
  ∃ work' W', short_call b start succ ord work = Ok work' ∧ rep nf work' W' ∧ Short (rev ord ++ P) W'.
Proof using Hb G Hrow_ind Hrow_size.
  intros Hr HS Hnd Hne Hord. assert (∃ work' W', Ok work = @Ok unit _ work' ∧ rep nf work' W' ∧ Short (rev ord ++ P) W') as Hsame.
  { exists work, W. split_and!; [done|done|]. eapply Short_more; [exact HS|]. intros v Hv. apply elem_of_app. by right. }
  unfold short_call. destruct ord as [|v ord']; [done|]. change (aget (v :: ord') 0) with (@Ok unit Z v). cbn [obind].
  destruct (Z.eqb_spec (zlen (v :: ord')) 1) as [E1|]; cbn [andb]; [|done]. destruct (Z.ltb_spec v nf) as [Hvn|]; [|done].
  assert (ord' = []) as -> by (destruct ord'; [done|rewrite !zlen_cons in E1; pose proof (zlen_nonneg ord'); lia]).
  destruct (Hord v ltac:(left)) as [Hv0 HvP]. assert (0 ≤ v < nf) as Hv by lia. destruct (bo_indirect _ Hb) as [Ei _].
  destruct (aget (unbounded b) v) as [ub| | |] eqn:Eub.
  2-4: (unfold aget in Eub; destruct (Z.ltb_spec v 0); [lia|]; destruct (lookup_lt_is_Some_2 (unbounded b) (Z.to_nat v)) as [x Ex]; [pose proof (bo_unbounded _ Hb); unfold zlen in *; lia|by rewrite Ex in Eub]).
  cbn [obind]. rewrite at_get by lia. cbn [obind]. destruct ub; cbn [negb andb]; [done|]. destruct (Z.eqb_spec (ind v) 0) as [Ez|]; [|done].
  rewrite at_get by lia. cbn [obind]. rewrite row_node by lia. cbn [obind]. destruct (direct_row v Hv Ez) as [Hdr Hlen].
  pose proof (sz_range b Hb v Hv) as Hsz. pose proof (s_range _ _ HS) as HWr. assert (PreemptBudget = 65536) as EB by done. pose proof (zlen_nonneg (rowf v)).
  destruct (call_work_spec work W (rowf v) (sz v) Hr Hdr HWr) as [[E Hall]|E]; [lia|lia| |]; rewrite E; cbn [obind].
  - destruct (Z.leb_spec (sz v + zsum W (rowf v)) PreemptBudget) as [Hle|]; [|done].
    assert (0 ≤ zsum W (rowf v)) as Hz by (apply zsum_nonneg; intros c Hc; apply HWr, Hdr, Hc). rewrite wrap_small by lia.
    destruct (rep_set _ _ _ v (sz v + zsum W (rowf v)) Hr Hv) as (work' & -> & Hr'). eexists work', _. split_and!; [done|exact Hr'|].
    assert (W v = 0) as HWv by (destruct (Z.eq_dec (W v) 0); [done|]; destruct (s_done _ _ HS v Hv) as [? _]; done).
    assert (∀ w, (∀ c, c ∈ rowf w → W c ≠ 0) → ∀ c, c ∈ rowf w → c ≠ v) as Hnv by (intros w Hw c Hc ->; by destruct (Hw v Hc)). split.
    + intros w Hw. destruct (Z.eqb_spec w v); [lia|auto].
    + intros w Hw. destruct (Z.eqb_spec w v) as [->|Hwv].
      * intros _. split_and!; [apply elem_of_app; left; left| |done| |].
        -- apply aget_Ok in Eub as [_ ?]. done.
        -- intros c Hc. destruct (Z.eqb_spec c v) as [->|]; [by destruct (Hnv v Hall v Hc)|auto].
        -- rewrite (zsum_ext _ W); [done|]. intros c Hc. destruct (Z.eqb_spec c v) as [->|]; [by destruct (Hnv v Hall v Hc)|done].
      * intros HWw. destruct (s_done _ _ HS w Hw HWw) as (? & ? & ? & Hcs & Hle'). split_and!; [apply elem_of_app; by right|done|done| |].
        -- intros c Hc. destruct (Z.eqb_spec c v) as [->|]; [by destruct (Hnv w Hcs v Hc)|auto].
        -- rewrite (zsum_ext _ W); [done|]. intros c Hc. destruct (Z.eqb_spec c v) as [->|]; [by destruct (Hnv w Hcs v Hc)|done].
  - destruct (Z.leb_spec (PreemptBudget + 1) PreemptBudget); [lia|done].
Qed.

(** * All the components *)

Lemma solve_sccs_spec comps : ∀ done_ P N U bw s W work,
  NoDup (concat (done_ ++ comps)) → Forall (λ c, c ≠ []) comps → (∀ v, v ∈ concat (done_ ++ comps) → 0 ≤ v ≤ nf) →
  callees_first (nf + 1) rowf (done_ ++ comps) → (∀ v, v ∈ P ↔ v ∈ concat done_) →
  holds b s N U bw → Est b rowf P N U bw → rep nf work W → Short P W →
  ∃ s' N' U' bw' W' work' P', solve_sccs b start succ comps s work = Ok (s', work') ∧ holds b s' N' U' bw' ∧ Est b rowf P' N' U' bw' ∧
    rep nf work' W' ∧ Short P' W' ∧ ∀ v, v ∈ P' ↔ v ∈ concat (done_ ++ comps).
Proof using All.
  induction comps as [|scc comps IH]; intros done_ P N U bw s W work Hnd Hne Hra Hfirst HP Hs H Hw HS; cbn [solve_sccs].
  { exists s, N, U, bw, W, work, P. rewrite app_nil_r in *. split_and!; try done. }
  apply list.Forall_cons in Hne as [Hscc Hne]. pose proof Hnd as Hnd0. rewrite concat_app in Hnd. cbn [concat] in Hnd. apply NoDup_app in Hnd as (_ & Hdis & Hnd). apply NoDup_app in Hnd as (Hndc & _ & _).
  assert (∀ v, v ∈ scc → v ∈ concat (done_ ++ scc :: comps)) as Hin by (intros v Hv; rewrite concat_app, elem_of_app; right; cbn; apply elem_of_app; by left).
  assert (∀ v, v ∈ scc → v ∉ P) as Hout by (intros v Hv Hvp; apply HP in Hvp; apply (Hdis v Hvp), elem_of_app; by left).
  destruct Hs as (Hnds & Huc & Ebw).
  destruct (break_cycles_spec b Hb rowf succ_range Hrow_ind start succ row_node st G hub_not_hub (needs s) N P scc Hnds Hndc Hscc) as (nd' & N1 & ord & -> & Hnd' & Hord & Hlen); [auto|done| |].
  { intros v c Hv Hc. assert (c ∈ concat (take (S (length done_)) (done_ ++ scc :: comps))) as Hcc.
    { apply (Hfirst (length done_) scc v c); [by rewrite list_lookup_middle|done|]. split; [|done]. specialize (Hra v (Hin v Hv)). lia. }
    rewrite take_app_ge in Hcc by lia. replace (S (length done_) - length done_)%nat with 1%nat in Hcc by lia. rewrite concat_app, elem_of_app in Hcc. cbn in Hcc. rewrite app_nil_r in Hcc.
    destruct Hcc as [?|?]; [left; by apply HP|by right]. }
  cbn [obind]. pose proof (Est_mark _ _ _ _ _ _ _ H Hord Hout) as H1. destruct Hord as (_ & _ & Hperm & Hvis).
  destruct (visit_all_spec b Hb rowf (λ v c Hv, succ_range v c ltac:(lia)) Hrow_hub Hrow_size start succ row_node ord P N1 U bw (mkE nd' (uc s) (byWork s))) as (s2 & N2 & U2 & bw2 & -> & Hs2 & H2 & _); [done|done|done|].
  cbn [obind]. destruct (short_call_spec P W work ord Hw HS) as (work2 & W2 & -> & Hw2 & HS2).
  { by rewrite Hperm. } { intros ->. by apply Permutation_nil_l in Hperm. }
  { intros v. rewrite Hperm. auto. }
  cbn [obind]. destruct (IH (done_ ++ [scc]) (rev ord ++ P) N2 U2 bw2 s2 W2 work2) as (s' & N' & U' & bw' & W' & work' & P' & -> & Hs' & H' & Hw' & HS' & HP').
  all: try done. all: try (by rewrite <- app_assoc).
  { intros v. rewrite elem_of_app, elem_of_rev, Hperm, HP, concat_app, elem_of_app. cbn. rewrite app_nil_r. tauto. }
  rewrite <- app_assoc in HP'. by exists s', N', U', bw', W', work', P'.
Qed.
End solve.
