(* ===== verification/EntryCheckSafe.v ===== *)
(** What [EntryCheck.solve] promises: a bound on the code that runs between checks.

    An execution is a trace of pieces of work, in bytes of wasm code, and checks.
    Between the checks at its loop headers a function runs its body at most once and
    makes each of its calls at most once, in any order and possibly not at all; a
    direct call runs its callee, an indirect one any local function whose reference
    may be taken; a callee that is checked on entry checks first.  Calls that may run
    another module's code are checked where they are made, and what they run is not
    this module's. *)
From Stdlib Require Import ZArith Lia Sorted.
From stdpp Require Import base list numbers option tactics sorting.
From S2P Require Import Prelude CallRows Tarjan EntryCheck EntryGraph EntryWork EntryCycles EntrySolve.
Local Open Scope Z_scope.
Local Open Scope go_scope.

(** * Executions *)

Inductive event := Work (bytes : Z) | Check.

Definition work_of (tr : list event) : Z := zsum id ((λ e, match e with Work k => k | Check => 0 end) <$> tr).
Definition checks_of (tr : list event) : Z := zsum id ((λ e, match e with Work _ => 0 | Check => 1 end) <$> tr).

Inductive site := Direct (callee : Z) | Indirect.

(** The call sites of a function. *)
Definition sites (b : entryCheckBuilder) (v : Z) : list site :=
  (Direct <$> row (pairs (edges b)) v) ++ replicate (Z.to_nat (at_ (indirect b) v)) Indirect.

(** The local functions an indirect call can reach without a check at the call. *)
Definition reachable_indirectly (b : entryCheckBuilder) (referenced : list Z) (c : Z) : Prop :=
  foreign b = false ∧ 0 ≤ c < zlen (size b) ∧ imports b + c ∈ referenced.

Section runs.
Context (b : entryCheckBuilder) (target : Z → Prop) (needs : Z → bool).

Definition entry (c : Z) : list event := if needs c then [Check] else [].

Inductive run : Z → list event → Prop :=
| run_body v ss tr : ss ≡ₚ sites b v → body ss (at_ (size b) v) tr → run v tr
| run_loop v tr1 tr2 : unbounded b !! Z.to_nat v = Some true → run v tr1 → run v tr2 → run v (tr1 ++ Check :: tr2)
with body : list site → Z → list event → Prop :=
| body_stop ss own : body ss own []
| body_work ss own k tr : 0 ≤ k ≤ own → body ss (own - k) tr → body ss own (Work k :: tr)
| body_skip s ss own tr : body ss own tr → body (s :: ss) own tr
| body_call c ss own tr1 tr2 : run c tr1 → body ss own tr2 → body (Direct c :: ss) own (entry c ++ tr1 ++ tr2)
| body_indirect c ss own tr1 tr2 : target c → run c tr1 → body ss own tr2 → body (Indirect :: ss) own (entry c ++ tr1 ++ tr2).

Scheme run_mut := Induction for run Sort Prop
with body_mut := Induction for body Sort Prop.
Combined Scheme run_body_ind from run_mut, body_mut.
End runs.

Lemma work_app tr1 tr2 : work_of (tr1 ++ tr2) = work_of tr1 + work_of tr2.
Proof. unfold work_of. by rewrite fmap_app, zsum_app. Qed.

Lemma checks_app tr1 tr2 : checks_of (tr1 ++ tr2) = checks_of tr1 + checks_of tr2.
Proof. unfold checks_of. by rewrite fmap_app, zsum_app. Qed.

Lemma zsum_perm {A} (f : A → Z) (l k : list A) : l ≡ₚ k → zsum f l = zsum f k.
Proof. induction 1 as [|x l k _ IH|x y l|l k m _ IH1 _ IH2]; rewrite ?zsum_cons; lia. Qed.

Lemma checks_nonneg tr : 0 ≤ checks_of tr.
Proof. apply zsum_nonneg. intros c (e & -> & _)%list_elem_of_fmap. destruct e; cbn; lia. Qed.

(** * Bounds of executions *)

(** A table of works that covers each function's own and its calls bounds its runs:
    whatever they do beyond it follows a check. *)
Section bounds.
Context (b : entryCheckBuilder) (target : Z → Prop) (N : Z → bool) (U : Z → Z) (H M : Z).
Context (Hdirect : ∀ v c, 0 ≤ v < zlen (size b) → c ∈ row (pairs (edges b)) v → 0 ≤ c < zlen (size b)).
Context (Htarget : ∀ c, target c → 0 ≤ c < zlen (size b) ∧ (N c = false → U c ≤ H)).
Context (HU : ∀ v, 0 ≤ v < zlen (size b) → 0 ≤ U v ≤ M) (HH : 0 ≤ H).
Context (Hsize : ∀ v, 0 ≤ v < zlen (size b) → 0 ≤ at_ (size b) v).

Definition site_work (s : site) : Z := match s with Direct c => if N c then 0 else U c | Indirect => H end.

Context (Hcover : ∀ v, 0 ≤ v < zlen (size b) → at_ (size b) v + zsum site_work (sites b v) ≤ U v).

Definition site_ok (s : site) : Prop := match s with Direct c => 0 ≤ c < zlen (size b) | Indirect => True end.

Lemma sites_ok v : 0 ≤ v < zlen (size b) → Forall site_ok (sites b v).
Proof using Hdirect.
  intros Hv. apply list.Forall_app. split; apply list.Forall_forall.
  - intros s (c & -> & Hc)%list_elem_of_fmap. by apply (Hdirect v).
  - intros s Hs. by apply elem_of_replicate in Hs as [-> _].
Qed.

Lemma called_bound c k (own : Z) :
  0 ≤ c < zlen (size b) → 0 ≤ k → own ≤ U c + k * M →
  own ≤ (if N c then 0 else U c) + ((if N c then 1 else 0) + k) * M.
Proof using HU. intros Hc Hk Ho. pose proof (HU c Hc). destruct (N c); lia. Qed.

Lemma entry_counts c : work_of (entry N c) = 0 ∧ checks_of (entry N c) = if N c then 1 else 0.
Proof using. unfold entry. by destruct (N c). Qed.

Lemma runs_bounded :
  (∀ v tr, run b target N v tr → 0 ≤ v < zlen (size b) → work_of tr ≤ U v + checks_of tr * M) ∧
  (∀ ss own tr, body b target N ss own tr → Forall site_ok ss → 0 ≤ own → work_of tr ≤ own + zsum site_work ss + checks_of tr * M).
Proof using HH HU Hcover Hdirect Hsize Htarget.
  assert (∀ ss, Forall site_ok ss → 0 ≤ zsum site_work ss) as Hpos.
  { intros ss Hss. apply zsum_nonneg. rewrite list.Forall_forall in Hss. intros s Hs. specialize (Hss s Hs). destruct s as [c|]; cbn in *; [|done].
    pose proof (HU c Hss). destruct (N c); lia. }
  apply run_body_ind.
  - intros v ss tr Hp Hbody IH Hv. pose proof (sites_ok v Hv) as Hok. rewrite <- Hp in Hok.
    specialize (IH Hok (Hsize v Hv)). rewrite (zsum_perm _ _ _ Hp) in IH. specialize (Hcover v Hv). lia.
  - intros v tr1 tr2 _ _ IH1 _ IH2 Hv. specialize (IH1 Hv). specialize (IH2 Hv). pose proof (HU v Hv).
    change (Check :: tr2) with ([Check] ++ tr2). rewrite !work_app, !checks_app. change (work_of [Check]) with 0. change (checks_of [Check]) with 1. lia.
  - intros ss own Hok Ho. specialize (Hpos ss Hok). change (work_of []) with 0. change (checks_of []) with 0. lia.
  - intros ss own k tr Hk _ IH Hok Ho. specialize (IH Hok ltac:(lia)). change (Work k :: tr) with ([Work k] ++ tr). rewrite work_app, checks_app.
    change (checks_of [Work k]) with 0. unfold work_of at 1. cbn. lia.
  - intros s ss own tr _ IH Hok Ho. pose proof (Hpos [s]) as Hs. apply list.Forall_cons in Hok as [Hs' Hok]. specialize (IH Hok Ho). specialize (Hs ltac:(by constructor)).
    rewrite zsum_cons in Hs |- *. cbn [zsum foldr] in Hs. lia.
  - intros c ss own tr1 tr2 _ IH1 _ IH2 Hok Ho. apply list.Forall_cons in Hok as [Hc Hok]. specialize (IH2 Hok Ho). specialize (IH1 Hc).
    destruct (entry_counts c) as [Ew Ek]. rewrite !work_app, !checks_app, Ew, Ek, zsum_cons. cbn [site_work].
    pose proof (called_bound c (checks_of tr1) _ Hc (checks_nonneg tr1) IH1). lia.
  - intros c ss own tr1 tr2 Ht _ IH1 _ IH2 Hok Ho. apply list.Forall_cons in Hok as [_ Hok]. destruct (Htarget c Ht) as [Hc Hh]. specialize (IH2 Hok Ho). specialize (IH1 Hc).
    destruct (entry_counts c) as [Ew Ek]. rewrite !work_app, !checks_app, Ew, Ek, zsum_cons. cbn [site_work].
    pose proof (called_bound c (checks_of tr1) _ Hc (checks_nonneg tr1) IH1). destruct (N c); [lia|]. specialize (Hh eq_refl). lia.
Qed.
End bounds.

(** A call sure to be short is bounded whatever is checked. *)
Section short.
Context (b : entryCheckBuilder) (target : Z → Prop) (N : Z → bool) (W : Z → Z).
Context (Hdirect : ∀ v c, 0 ≤ v < zlen (size b) → c ∈ row (pairs (edges b)) v → 0 ≤ c < zlen (size b)).
Context (HW : ∀ v, 0 ≤ v < zlen (size b) → 0 ≤ W v).
Context (Hsize : ∀ v, 0 ≤ v < zlen (size b) → 0 ≤ at_ (size b) v).

Definition short_site (s : site) : Prop := match s with Direct c => 0 ≤ c < zlen (size b) ∧ W c ≠ 0 | Indirect => False end.
Definition short_work (s : site) : Z := match s with Direct c => W c | Indirect => 0 end.

Context (Hshort : ∀ v, 0 ≤ v < zlen (size b) → W v ≠ 0 →
  unbounded b !! Z.to_nat v = Some false ∧ Forall short_site (sites b v) ∧ at_ (size b) v + zsum short_work (sites b v) ≤ W v).

Lemma short_runs :
  (∀ v tr, run b target N v tr → 0 ≤ v < zlen (size b) → W v ≠ 0 → work_of tr ≤ W v) ∧
  (∀ ss own tr, body b target N ss own tr → Forall short_site ss → 0 ≤ own → work_of tr ≤ own + zsum short_work ss).
Proof using HW Hshort Hsize.
  assert (∀ ss, Forall short_site ss → 0 ≤ zsum short_work ss) as Hpos.
  { intros ss Hss. apply zsum_nonneg. rewrite list.Forall_forall in Hss. intros s Hs. specialize (Hss s Hs). destruct s as [c|]; cbn in *; [|done]. apply HW, Hss. }
  apply run_body_ind.
  - intros v ss tr Hp _ IH Hv HWv. destruct (Hshort v Hv HWv) as (_ & Hok & Hle). rewrite <- Hp in Hok. specialize (IH Hok (Hsize v Hv)). rewrite (zsum_perm _ _ _ Hp) in IH. lia.
  - intros v tr1 tr2 Hub _ _ _ _ Hv HWv. destruct (Hshort v Hv HWv) as (Hub' & _). congruence.
  - intros ss own Hok Ho. specialize (Hpos ss Hok). change (work_of []) with 0. lia.
  - intros ss own k tr Hk _ IH Hok Ho. specialize (IH Hok ltac:(lia)). change (Work k :: tr) with ([Work k] ++ tr). rewrite work_app. unfold work_of at 1. cbn. lia.
  - intros s ss own tr _ IH Hok Ho. pose proof (Hpos [s]) as Hs. apply list.Forall_cons in Hok as [Hs' Hok]. specialize (IH Hok Ho). specialize (Hs ltac:(by constructor)).
    rewrite zsum_cons in Hs |- *. cbn [zsum foldr] in Hs. lia.
  - intros c ss own tr1 tr2 _ IH1 _ IH2 Hok Ho. apply list.Forall_cons in Hok as [[Hc HWc] Hok]. specialize (IH2 Hok Ho). specialize (IH1 Hc HWc).
    destruct (entry_counts N c) as [Ew _]. rewrite !work_app, Ew, zsum_cons. cbn [short_work]. lia.
  - intros c ss own tr1 tr2 _ _ _ _ _ Hok _. by apply list.Forall_cons in Hok as [? _].
Qed.
End short.

(** * The solution *)

Lemma zsum_fmap {A B} (f : B → Z) (g : A → B) l : zsum f (g <$> l) = zsum (λ x, f (g x)) l.
Proof. induction l as [|x l IH]; [done|]. rewrite fmap_cons, !zsum_cons, IH. done. Qed.

Lemma zsum_replicate {A} (f : A → Z) k x : zsum f (replicate k x) = Z.of_nat k * f x.
Proof. induction k as [|k IH]; [done|]. cbn [replicate]. rewrite zsum_cons, IH. lia. Qed.

Lemma elem_of_hub b referenced c :
  c ∈ hub_successors b (if foreign b then [] else referenced) ↔ reachable_indirectly b referenced c.
Proof.
  unfold hub_successors, reachable_indirectly. rewrite merge_sort_Permutation, list_elem_of_fmap. destruct (foreign b).
  - split; [|by intros [? _]]. intros (? & _ & H). by apply not_elem_of_nil in H.
  - split.
    + intros (idx & -> & [[? ?] Hin]%list_elem_of_filter). split_and!; [done|lia|lia|]. by replace (imports b + (idx - imports b)) with idx by lia.
    + intros (_ & Hc & Hin). exists (imports b + c). split; [lia|]. apply list_elem_of_filter. split; [lia|done].
Qed.

Lemma hub_length b referenced : NoDup referenced → zlen (hub_successors b referenced) ≤ zlen (size b).
Proof.
  intros Hnd. assert (hub_successors b referenced ⊆+ seqZ 0 (zlen (size b))) as H; [|apply submseteq_length in H; rewrite length_seqZ in H; unfold zlen in *; lia].
  unfold hub_successors. rewrite merge_sort_Permutation. apply NoDup_submseteq.
  - apply NoDup_fmap_2_strong; [|by apply list.NoDup_filter]. intros x y _ _ E. lia.
  - intros c (idx & -> & [[? ?] _]%list_elem_of_filter)%list_elem_of_fmap. apply elem_of_seqZ. lia.
Qed.

Section result.
Context (b : entryCheckBuilder) (Hb : builder_ok b) (referenced : list Z) (Hnd : NoDup referenced).
Context (Hcalls : ∀ v, 0 ≤ v < zlen (size b) → 2 * (cnt (pairs (edges b)) v + at_ (indirect b) v) ≤ at_ (size b) v).
Abbreviation nf := (zlen (size b)).
Abbreviation hubSucc := (hub_successors b (if foreign b then [] else referenced)).
Abbreviation ps := (graph_pairs b hubSucc).

Lemma hub_range : Forall (λ c, 0 ≤ c < nf) hubSucc.
Proof using. apply list.Forall_forall. intros c Hc%elem_of_hub. apply Hc. Qed.

Lemma hub_short : zlen hubSucc ≤ nf.
Proof using Hnd. apply hub_length. destruct (foreign b); [constructor|done]. Qed.

Lemma ind_range v : 0 ≤ v < nf → 0 ≤ at_ (indirect b) v.
Proof using Hb. intros Hv. pose proof (ind_nonneg b Hb v Hv). lia. Qed.

Lemma direct_callee v c : 0 ≤ v < nf → c ∈ row (pairs (edges b)) v → 0 ≤ c < nf.
Proof using Hb. intros _ Hc. apply elem_of_row in Hc. apply (pairs_range nf _ _ (bo_edges _ Hb) Hc). Qed.

(** A sum over a function's row is one over its call sites. *)
Lemma row_sites (f : Z → Z) (g : site → Z) v : 0 ≤ v < nf →
  (∀ c, c ∈ row (pairs (edges b)) v → f c = g (Direct c)) → (0 < at_ (indirect b) v → f nf = at_ (indirect b) v * g Indirect) →
  zsum f (row ps v) = zsum g (sites b v).
Proof using Hb.
  intros Hv Hd Hi. rewrite (graph_row b Hb) by done. unfold sites. rewrite !zsum_app, zsum_fmap, zsum_replicate. f_equal; [by apply zsum_ext|].
  pose proof (ind_range v Hv). rewrite Z2Nat.id by done.
  destruct (Z.ltb_spec 0 (at_ (indirect b) v)); [rewrite zsum_cons, Hi by done; change (zsum f []) with 0; apply Z.add_0_r|]. replace (at_ (indirect b) v) with 0 by lia. done.
Qed.

Lemma solve_result : ∃ needs work N U W,
  solve b referenced = Ok (needs, work) ∧ rep nf needs N ∧ rep nf work W ∧ N nf = false ∧
  (∀ v, 0 ≤ v < nf → at_ (size b) v + zsum (weight b N U v) (row ps v) ≤ U v ∧ 0 ≤ U v ≤ at_ (size b) v + PreemptBudget) ∧ 0 ≤ U nf ∧
  (∀ c, c ∈ hubSucc → N c = false → U c ≤ U nf) ∧ Short b (row ps) (seqZ 0 (nf + 1)) W.
Proof using Hb Hcalls Hnd.
  pose proof hub_range as Hhr. pose proof hub_short as Hhs. pose proof (zlen_nonneg (size b)) as Hn.
  destruct (call_graph_spec b Hb hubSucc Hhr Hhs) as (start & succ & Eg & Hrs). pose proof (rows_graph b Hb hubSucc Hhr Hhs start succ Hrs) as G.
  destruct (tarjan_result _ _ _ _ _ G) as (comps & Et & Hp & Hfirst & Hstr). unfold solve. rewrite Eg. cbn [obind].
  replace (S (length (size b))) with (Z.to_nat (nf + 1)) by (unfold zlen; lia). rewrite Et. cbn [obind].
  assert (∀ c, c ∈ row ps nf → 0 ≤ c < nf) as Hrh by (intros c; rewrite (hub_graph_row b Hb); intros Hc; rewrite list.Forall_forall in Hhr; by apply Hhr).
  assert (∀ v, 0 ≤ v < nf → nf ∈ row ps v → 0 < at_ (indirect b) v) as Hri.
  { intros v Hv. rewrite (graph_row b Hb) by done. intros [Hc|Hc]%elem_of_app; [apply (direct_callee v) in Hc; lia|]. destruct (Z.ltb_spec 0 (at_ (indirect b) v)); [done|by apply not_elem_of_nil in Hc]. }
  assert (∀ v, 0 ≤ v < nf → 2 * zsum (times b v) (row ps v) ≤ at_ (size b) v) as Hrz.
  { intros v Hv. etrans; [|apply (Hcalls v Hv)]. rewrite (row_sites _ (λ _, 1) v Hv).
    - unfold sites. rewrite zsum_app, zsum_fmap, zsum_replicate. pose proof (ind_range v Hv). rewrite Z2Nat.id by done. assert (zsum (λ _ : Z, 1) (row (pairs (edges b)) v) = cnt (pairs (edges b)) v) as ->; [|lia].
      unfold cnt. induction (row (pairs (edges b)) v) as [|x l IH]; [done|]. rewrite zsum_cons, zlen_cons, IH. done.
    - intros c Hc%(direct_callee v); [|done]. unfold times. destruct (Z.eqb_spec c nf); [lia|done].
    - intros _. unfold times. rewrite Z.eqb_refl. lia. }
  assert (∀ A (x : A) (k : Z), 0 ≤ k → rep k (replicate (Z.to_nat k) x) (λ _, x)) as Hrep by (intros A x k Hk; pose proof (rep_replicate (Z.to_nat k) x) as H; by rewrite Z2Nat.id in H).
  destruct (solve_sccs_spec b Hb (row ps) start succ _ G Hrh Hri Hrz comps [] [] (λ _, false) (λ _, 0) []
    (mkE (replicate (Z.to_nat (nf + 1)) false) (replicate (Z.to_nat (nf + 1)) 0) []) (λ _, 0) (replicate (length (size b)) 0))
    as (s & N & U & bw & W & work & P & -> & Hs & H & Hw & HS & HP).
  - cbn [app]. rewrite Hp. apply NoDup_seqZ.
  - apply list.Forall_forall. intros c Hc. by apply Hstr.
  - cbn [app]. intros v. rewrite Hp. intros Hv%elem_of_seqZ. lia.
  - done.
  - done.
  - split_and!; [apply Hrep; lia|apply Hrep; lia|done].
  - split; try done; try (by intros ? ?%not_elem_of_nil); [|by intros ?%not_elem_of_nil|by constructor|by intros ?%not_elem_of_nil].
    intros v Hv. pose proof (sz_range b Hb v Hv). assert (0 < PreemptBudget) by done. lia.
  - apply rep_replicate.
  - split; [intros v _; by unfold PreemptBudget|done].
  - cbn [obind app] in *. assert (∀ v, v ∈ P ↔ 0 ≤ v ≤ nf) as HPr by (intros v; rewrite HP, Hp, elem_of_seqZ; lia).
    destruct Hs as (Hnd' & _ & _). exists (take (length (size b)) (needs s)), work, N, U, W. split; [done|].
    split; [pose proof (rep_take _ nf _ _ Hnd') as Ht; replace (Z.to_nat nf) with (length (size b)) in Ht by (unfold zlen; lia); apply Ht; lia|].
    split; [done|]. split; [apply H|]. split; [|split; [|split]].
    + intros v Hv. split; [|by apply (e_cap _ _ _ _ _ _ H)]. apply (e_done _ _ _ _ _ _ H); [|done]. apply HPr. lia.
    + pose proof (Est_range b Hb (row ps) Hrh _ _ _ _ nf H). lia.
    + intros c Hc HNc. assert (c ∈ row ps nf) as Hcr by by rewrite (hub_graph_row b Hb).
      destruct (e_covered _ _ _ _ _ _ H ltac:(apply HPr; lia) c Hcr) as [?|[->|Hcb]]; [congruence|pose proof (Est_range b Hb (row ps) Hrh _ _ _ _ nf H); lia|].
      pose proof (e_head _ _ _ _ _ _ H) as Hh. pose proof (e_sorted _ _ _ _ _ _ H) as Hso. destruct bw as [|h bw]; [by apply not_elem_of_nil in Hcb|]. destruct Hh as [_ ->].
      apply elem_of_cons in Hcb as [->|Hcb]; [done|]. inversion_clear Hso as [|?? _ Hf]. rewrite list.Forall_forall in Hf. by apply (Hf c).
    + eapply Short_more; [exact HS|]. intros v Hv%HPr. apply elem_of_seqZ. lia.
Qed.
End result.

(** The functions [needs] marks. *)
Definition checked_on_entry (needs : list bool) (c : Z) : bool := default false (needs !! Z.to_nat c).

(** A call takes at least two bytes of its caller's body. *)
Definition calls_fit (b : entryCheckBuilder) : Prop :=
  ∀ v, 0 ≤ v < zlen (size b) → 2 * (cnt (pairs (edges b)) v + at_ (indirect b) v) ≤ at_ (size b) v.

Lemma run_needs b target needs N v tr : rep (zlen (size b)) needs N →
  (∀ v c, 0 ≤ v < zlen (size b) → c ∈ row (pairs (edges b)) v → 0 ≤ c < zlen (size b)) →
  (∀ c, target c → 0 ≤ c < zlen (size b)) →
  0 ≤ v < zlen (size b) → run b target (checked_on_entry needs) v tr → run b target N v tr.
Proof.
  intros Hr Hd Ht. pose proof (run_body_ind b target (checked_on_entry needs)
    (λ v tr _, 0 ≤ v < zlen (size b) → run b target N v tr) (λ ss own tr _, Forall (site_ok b) ss → body b target N ss own tr)) as Hind.
  assert (∀ c, 0 ≤ c < zlen (size b) → entry (checked_on_entry needs) c = entry N c) as He.
  { intros c Hc. unfold entry, checked_on_entry. by rewrite (proj2 Hr c Hc). }
  intros Hv Hrun. revert Hv. revert v tr Hrun. apply Hind; clear Hind.
  - intros v ss tr Hp _ IH Hv. apply run_body with ss; [done|]. apply IH. rewrite Hp. by apply sites_ok.
  - intros v tr1 tr2 Hu _ IH1 _ IH2 Hv. apply run_loop; auto.
  - intros ss own _. apply body_stop.
  - intros ss own k tr Hk _ IH Hok. apply body_work; auto.
  - intros s ss own tr _ IH Hok. apply body_skip, IH. by apply list.Forall_cons in Hok as [_ ?].
  - intros c ss own tr1 tr2 _ IH1 _ IH2 Hok. apply list.Forall_cons in Hok as [Hc Hok]. rewrite He by done. apply body_call; auto.
  - intros c ss own tr1 tr2 Htc _ IH1 _ IH2 Hok. apply list.Forall_cons in Hok as [_ Hok]. rewrite He by auto. apply body_indirect; auto.
Qed.

(** The sums of [solve_result], over call sites. *)
Lemma weights_sites b (Hb : builder_ok b) referenced N U v : 0 ≤ v < zlen (size b) → N (zlen (size b)) = false →
  zsum (weight b N U v) (row (graph_pairs b (hub_successors b (if foreign b then [] else referenced))) v) = zsum (site_work N U (U (zlen (size b)))) (sites b v).
Proof.
  intros Hv Hhub. apply (row_sites b Hb referenced); [done| |].
  - intros c Hc%(direct_callee b Hb v); [|done]. unfold weight, times. cbn. destruct (Z.eqb_spec c (zlen (size b))); [lia|]. by rewrite Z.mul_1_r.
  - intros _. unfold weight, times. rewrite Hhub, Z.eqb_refl. cbn. lia.
Qed.

Lemma short_sites b (Hb : builder_ok b) referenced P W v :
  Short b (row (graph_pairs b (hub_successors b (if foreign b then [] else referenced)))) P W → 0 ≤ v < zlen (size b) → W v ≠ 0 →
  unbounded b !! Z.to_nat v = Some false ∧ Forall (short_site b W) (sites b v) ∧ at_ (size b) v + zsum (short_work W) (sites b v) ≤ W v.
Proof.
  intros [_ Hd] Hv HWv. destruct (Hd v Hv HWv) as (_ & Hu & Hi & Hc & Hle). split; [done|]. split.
  - unfold sites. rewrite Hi. cbn. rewrite app_nil_r. apply list.Forall_forall. intros s (c & -> & Hcr)%list_elem_of_fmap.
    split; [by apply (direct_callee b Hb v)|]. apply Hc. rewrite (graph_row b Hb) by done. apply elem_of_app. by left.
  - rewrite (row_sites b Hb referenced W (short_work W) v Hv) in Hle; [done|done|lia].
Qed.

(** C18. [solve] returns for every builder whose calls fit their bodies, whatever the
    call graph, and the functions it picks bound the work of every execution: beyond
    its own body and [PreemptBudget], a run does no more than that again, for the
    largest body, for each check it passes.  In particular no run does more without
    a check, so nothing can run for ever without one. *)
Theorem entry_checks_bound_work (b : entryCheckBuilder) (referenced : list Z) (largest : Z)
  (Hb : builder_ok b) (Hnd : NoDup referenced) (Hcalls : calls_fit b) (Hlarge : Forall (λ s, s ≤ largest) (size b)) :
  ∃ needs work, solve b referenced = Ok (needs, work) ∧ length needs = length (size b) ∧
    ∀ v tr, 0 ≤ v < zlen (size b) → run b (reachable_indirectly b referenced) (checked_on_entry needs) v tr →
      work_of tr ≤ at_ (size b) v + PreemptBudget + checks_of tr * (largest + PreemptBudget).
Proof.
  destruct (solve_result b Hb referenced Hnd Hcalls) as (needs & work & N & U & W & E & HN & _ & Hhub & Hcover & HUn & Hub & _).
  exists needs, work. split; [done|]. split; [pose proof (rep_len _ _ _ HN) as Hl; unfold zlen in Hl; lia|]. intros v tr Hv Hrun.
  apply (run_needs _ _ _ _ _ _ HN (direct_callee b Hb)) in Hrun; [|by intros c (_ & ? & _)|done].
  assert (∀ w, 0 ≤ w < zlen (size b) → at_ (size b) w ≤ largest) as Hl by (intros w Hw; by apply (at_Forall (λ s, s ≤ largest))).
  destruct (runs_bounded b (reachable_indirectly b referenced) N U (U (zlen (size b))) (largest + PreemptBudget)) as [Hruns _].
  - by apply direct_callee.
  - intros c Hc. split; [apply Hc|by apply Hub, elem_of_hub].
  - intros w Hw. destruct (Hcover w Hw) as (_ & ?). specialize (Hl w Hw). lia.
  - done.
  - intros w Hw. apply (sz_range b Hb w Hw).
  - intros w Hw. destruct (Hcover w Hw) as (Hc & _). by rewrite (weights_sites b Hb referenced N U w Hw Hhub) in Hc.
  - specialize (Hruns v tr Hrun Hv). destruct (Hcover v Hv) as (_ & ?). lia.
Qed.

(** C20. A call [solve] gives a work is that short: however its function and what it
    calls are checked, no run of it does more, and it is within [PreemptBudget]. *)
Theorem call_work_bounds (b : entryCheckBuilder) (referenced : list Z) (target : Z → Prop) (checked : Z → bool)
  (Hb : builder_ok b) (Hnd : NoDup referenced) (Hcalls : calls_fit b) :
  ∃ needs work, solve b referenced = Ok (needs, work) ∧ length work = length (size b) ∧
    ∀ v w, 0 ≤ v → work !! Z.to_nat v = Some w → w ≠ 0 →
      0 ≤ w ≤ PreemptBudget ∧ ∀ tr, run b target checked v tr → work_of tr ≤ w.
Proof.
  destruct (solve_result b Hb referenced Hnd Hcalls) as (needs & work & N & U & W & E & _ & HW & _ & _ & _ & _ & [Hr Hd]).
  exists needs, work. split; [done|]. split; [pose proof (rep_len _ _ _ HW) as Hl; unfold zlen in Hl; lia|]. intros v w Hv Hw Hne.
  destruct (rep_inv _ _ _ _ _ HW Hw Hv) as [-> Hvn]. split; [apply Hr; lia|]. intros tr Hrun.
  destruct (short_runs b target checked W) as [Hruns _].
  - intros x Hx. apply Hr, Hx.
  - intros x Hx. apply (sz_range b Hb x Hx).
  - intros x Hx HWx. apply (short_sites b Hb referenced (seqZ 0 (zlen (size b) + 1))); [by split|done|done].
  - by apply Hruns.
Qed.

(** The answer does not depend on the order in which the references are found, so
    a module compiles the same way from run to run. *)
Theorem solve_deterministic (b : entryCheckBuilder) (refs1 refs2 : list Z) (Hperm : refs1 ≡ₚ refs2) :
  solve b refs1 = solve b refs2.
Proof.
  unfold solve. assert (hub_successors b (if foreign b then [] else refs1) = hub_successors b (if foreign b then [] else refs2)) as ->; [|done].
  destruct (foreign b); [done|]. unfold hub_successors. set (l1 := (λ idx, idx - imports b) <$> filter _ refs1). set (l2 := (λ idx, idx - imports b) <$> filter _ refs2).
  assert (l1 ≡ₚ l2) as Hl by (unfold l1, l2; by rewrite Hperm).
  apply (StronglySorted_unique Z.le); [apply (StronglySorted_merge_sort Z.le)|apply (StronglySorted_merge_sort Z.le)|].
  by rewrite !merge_sort_Permutation.
Qed.

(** * Builders *)

(** The builder validation starts with, and what its methods keep. *)
Lemma newEntryCheckBuilder_ok bodies foreignFuncRefs imports_ :
  0 ≤ imports_ → imports_ + zlen bodies < 2 ^ 32 → 2 * zlen bodies < 2 ^ 31 - 2 → builder_ok (newEntryCheckBuilder bodies foreignFuncRefs imports_).
Proof.
  intros Hi Hs Hn. unfold newEntryCheckBuilder. pose proof (zlen_nonneg bodies).
  assert (zlen ((λ body, u32 (zlen body)) <$> bodies) = zlen bodies) as El by (unfold zlen; by rewrite length_fmap).
  split; cbn; rewrite ?El; try done; try lia.
  - apply list.Forall_forall. intros s (body & -> & _)%list_elem_of_fmap. by apply wrap_range.
  - by exists 0%nat.
  - change (zlen []) with 0. lia.
  - split; [unfold zlen; by rewrite length_replicate|]. apply list.Forall_forall. intros k Hk. apply elem_of_replicate in Hk as [-> _]. lia.
  - unfold zlen. by rewrite length_replicate.
Qed.

Lemma markUnbounded_ok b idx : builder_ok b → 0 ≤ idx < zlen (size b) → ∃ b', markUnbounded b idx = Ok b' ∧ builder_ok b' ∧ size b' = size b.
Proof.
  intros [] Hi. unfold markUnbounded. rewrite aset_in by lia. cbn [obind]. eexists. split; [done|]. split; [|done].
  split; cbn; try done. unfold zlen in *. by rewrite length_insert.
Qed.

Lemma edge_call_ok b idx callee : builder_ok b → 0 ≤ idx < zlen (size b) → 0 ≤ callee < imports b + zlen (size b) →
  zlen (pairs (edges b)) + 1 + 2 * zlen (size b) < 2 ^ 32 → ∃ b', call b idx callee = Ok b' ∧ builder_ok b' ∧ size b' = size b.
Proof.
  intros Hb Hi Hc Ht. unfold call. destruct (Z.leb_spec (imports b) callee); [|by apply markUnbounded_ok].
  destruct Hb. rewrite wrap_small by lia. eexists. split; [done|]. split; [|done]. split; cbn; try done.
  - destruct bo_even as [m Hm]. exists (S m). rewrite length_app, Hm. cbn. lia.
  - apply list.Forall_app. split; [done|]. repeat constructor; lia.
  - rewrite pairs_app, zlen_app by done. change (zlen [_]) with 1. lia.
Qed.

Lemma callIndirect_ok b idx : builder_ok b → 0 ≤ idx < zlen (size b) → at_ (indirect b) idx + 1 < 2 ^ 32 →
  ∃ b', callIndirect b idx = Ok b' ∧ builder_ok b' ∧ size b' = size b.
Proof.
  intros Hb Hi Hk. unfold callIndirect. destruct (foreign b); [by apply markUnbounded_ok|]. pose proof (ind_nonneg b Hb idx Hi) as Hpos.
  destruct Hb as [? ? ? ? ? ? ? [El Hind] ?]. unfold bump. rewrite at_get by lia. cbn [obind]. rewrite wrap_small by lia. rewrite aset_in by lia. cbn [obind].
  eexists. split; [done|]. split; [|done]. split; cbn; try done. split; [unfold zlen in *; by rewrite length_insert|].
  apply Forall_insert; [done|lia].
Qed.

(** * What the budget does not bound

    Between two checks an execution can do much more than [PreemptBudget]: when a
    recursion that checked at every entry returns, the rest of each of its bodies
    runs one after the other, and nothing on the way out checks. *)
Definition recursive_builder : entryCheckBuilder := test_builder [100] [0; 0] [0].

Lemma recursive_needs : solve recursive_builder [] = Ok ([true], [0]).
Proof. reflexivity. Qed.

Fixpoint descent (depth : nat) : list event := match depth with O => [] | S d => Check :: descent d end.

Lemma unwinding_unchecked (target : Z → Prop) (depth : nat) :
  ∃ tr, run recursive_builder target (checked_on_entry [true]) 0 (descent depth ++ tr) ∧ checks_of tr = 0 ∧ work_of tr = 100 * (Z.of_nat depth + 1).
Proof.
  induction depth as [|d (tr & Hrun & Hc & Hw)].
  - exists [Work 100]. split; [|done]. apply run_body with (sites recursive_builder 0); [done|]. apply body_work; [done|apply body_stop].
  - exists (tr ++ [Work 100]). split_and!.
    + apply run_body with (sites recursive_builder 0); [done|]. change (sites recursive_builder 0) with [Direct 0].
      change (descent (S d) ++ tr ++ [Work 100]) with (entry (checked_on_entry [true]) 0 ++ descent d ++ tr ++ [Work 100]). rewrite (app_assoc (descent d)).
      apply body_call; [done|]. apply body_work; [done|apply body_stop].
    + rewrite checks_app, Hc. done.
    + rewrite work_app, Hw. change (work_of [Work 100]) with 100. lia.
Qed.

(** * Witnesses *)

Definition hub_builder : entryCheckBuilder := test_builder [100; 100; 100; 100] [1; 2; 2; 1; 2; 0; 3; 0] [1; 0; 0; 0].

Lemma hub_builder_ok : builder_ok hub_builder.
Proof. split; try (apply (bool_decide_unpack _); by vm_compute). by exists 4%nat. Qed.

Lemma hub_builder_fits : calls_fit hub_builder.
Proof. intros v Hv. change (zlen (size hub_builder)) with 4 in Hv. assert (v = 0 ∨ v = 1 ∨ v = 2 ∨ v = 3) as [->|[->|[->| ->]]] by lia; by vm_compute. Qed.

Lemma entry_checks_bound_work_witness :
  ∃ needs work, solve hub_builder [3; 1; 0; 2] = Ok (needs, work) ∧ length needs = 4%nat ∧
    ∀ v tr, 0 ≤ v < 4 → run hub_builder (reachable_indirectly hub_builder [3; 1; 0; 2]) (checked_on_entry needs) v tr →
      work_of tr ≤ at_ (size hub_builder) v + PreemptBudget + checks_of tr * (100 + PreemptBudget).
Proof.
  apply (entry_checks_bound_work hub_builder [3; 1; 0; 2] 100); [exact hub_builder_ok| |exact hub_builder_fits|].
  - apply (bool_decide_unpack _). by vm_compute.
  - repeat constructor; done.
Defined.

Lemma call_work_bounds_witness :
  ∃ needs work, solve (test_builder [100; 100; 100] [0; 1; 0; 1; 1; 2] [0; 0; 0]) [] = Ok (needs, work) ∧ length work = 3%nat ∧
    ∀ v w, 0 ≤ v → work !! Z.to_nat v = Some w → w ≠ 0 →
      0 ≤ w ≤ PreemptBudget ∧ ∀ tr, run (test_builder [100; 100; 100] [0; 1; 0; 1; 1; 2] [0; 0; 0]) (λ _, True) (λ _, false) v tr → work_of tr ≤ w.
Proof.
  apply (call_work_bounds (test_builder [100; 100; 100] [0; 1; 0; 1; 1; 2] [0; 0; 0]) [] (λ _, True) (λ _, false)).
  - split; try (apply (bool_decide_unpack _); by vm_compute). by exists 3%nat.
  - constructor.
  - intros v Hv. change (zlen _) with 3 in Hv. assert (v = 0 ∨ v = 1 ∨ v = 2) as [->|[->| ->]] by lia; by vm_compute.
Defined.

Lemma solve_deterministic_witness : solve hub_builder [3; 1; 0; 2] = solve hub_builder [0; 1; 2; 3].
Proof. apply (solve_deterministic hub_builder). apply (bool_decide_unpack _). by vm_compute. Defined.
